(* ===== verification/_CoqProject ===== *)
-Q . S2P
Prelude.v
IndexedHeap.v
SlotIndex.v
RunningSlots.v
SubQueue.v
Decide.v
Policies.v
Strategy.v
Index.v
IndexTheorems.v
RunLoop.v
RateLimit.v
Workers.v
SlotPool.v
Action.v
Scheduler.v
SchedulerInv.v
Replenish.v
SchedulerTheorems.v
TryAssign.v
QueueRepo.v
Queuer.v
QueuerTheorems.v
BatchRepo.v
BatchScheduler.v
BatchTheorems.v
BatchProperties.v
LeaseRepo.v
LeaseManager.v
LeaseTheorems.v
DurableChannel.v
DurableTheorems.v
DagRun.v
DagConditions.v
DagSafety.v
DagEngine.v
DagProgress.v
DagTheorems.v
DagChannel.v
DagOperator.v
DagOperatorTheorems.v
LogTables.v
EventLog.v
EventLogOps.v
EventLogTheorems.v
ReplayPlan.v
ReplayAnswer.v
ReplayTheorems.v
SatisfiedOrder.v
OrderInvariant.v
OrderedRelease.v
ReleaseTheorems.v
OrderTheorems.v
LogMonotone.v
TriggerRecord.v
IngestBuffer.v
IngestBufferTheorems.v
StatusStream.v
StreamTheorems.v
Eviction.v
EvictionTheorems.v
EvictedSweep.v
SweepTheorems.v
RequestHandlers.v
HandlerTheorems.v
