(* ===== verification/Prelude.v ===== *)
(** * Hatchet: the tenant scheduler, the concurrency index, the DAG operator and the durable event log

    A verification of the scheduling core of Hatchet, a durable task queue written in Go.  A tenant's
    tasks wait in queues; a queuer reads them, the tenant scheduler assigns them to slots of workers
    under rate limits, and the outcomes are flushed to PostgreSQL.  Before a task of a step with a
    concurrency limit reaches a queue, an in-memory index of its concurrency group decides when it
    may run.  A workflow of several steps is run by an operator inside the engine, which orchestrates
    the steps over a durable event log.  A durable task records what it asked for in that log, so that a later
    invocation of it is answered from the log, and the dispatcher sends completions to the worker in the order in which
    they were satisfied.  A durable task that waits can be evicted from its worker and is woken up when what it waits
    for is there.  The development models the Go code between the SQL statements, and for leases and the event
    log the statements too; every definition is executable and follows its source function branch by branch.

    ** Parts and files

    The concurrency index (src/pkg/scheduling/v1/concurrency):
    - IndexedHeap, heap.go: the array heap with caller-held positions and its undo journal;
    - SlotIndex, slot.go and index.go: two heaps (priority, timeout) over one location map;
    - RunningSlots, running_slots.go: a sorted slice that turns into an indexed heap at 64 slots;
    - SubQueue, sub_queue.go: running set, backlog, limit and undo scope of one concurrency group;
    - Decide and Policies, the per-group part of strategy.go: replay of write-ahead-log messages,
      eviction of timeouts, the five decide functions, and their specification on finite maps;
    - Strategy, Index, IndexTheorems, RunLoop, the rest of strategy.go: the index of a strategy, the
      goroutines of a batch, commit and rollback, build, queueing pass, definition updates and Run.

    The tenant scheduler (src/pkg/scheduling/v1):
    - RateLimit, rate_limit.go: snapshot, reservations, charges, flush and pauses;
    - Workers, worker.go and rankWorkerIds: label weights, sticky strategies, stable ranking;
    - SlotPool, slot.go, slot_pool.go and selectSlotsFromPools: slots and pools as shared objects;
    - Action, action.go: starvation episodes of an action;
    - Scheduler, scheduler.go: every operation of the run loop and the phases of a replenish cycle;
      SchedulerInv, Replenish and SchedulerTheorems hold its invariant and its theorems;
    - TryAssign, tryAssignBatch and tryAssign of scheduler.go and BatchLinear of
      src/internal/queueutils/batch.go: the callers of the run loop, against the interface [AssignLoop].

    The queues:
    - QueueRepo, src/pkg/repository/scheduler_queue.go: the flush transaction, the rate limits of
      tasks, cached step lookups;
    - Queuer and QueuerTheorems, queuer.go: polling, refill, ticks, flushes and optimistic scheduling.

    Batches of tasks, which a step may run together on one slot:
    - BatchRepo, the batchQueueRepository of scheduler_queue.go: committing a batch, reserving a run;
    - BatchScheduler, batch_scheduler.go: buffers per batch key, the three kinds of flush, timeouts,
      eviction; a monad of state and errors over a trace of the calls it makes.  BatchTheorems has the
      rules of that monad and the invariants, BatchProperties the theorems.

    Leases, by which the schedulers of a deployment share a tenant's resources:
    - LeaseRepo, src/pkg/repository/scheduler_lease.go and sqlcv1/lease.sql: the table of leases with
      its statements as functions, transactions, the active workers;
    - LeaseManager, lease_manager.go: the cycles of the four kinds, notifications, cleanup;
    - LeaseTheorems: several managers on one table as a state machine, its invariant and theorems.

    The DAG operator (src/pkg/operator/dagoperator) and its channel (src/internal/services/operatorsvc):
    - DurableChannel and DurableTheorems, durable.go: the channel between the engine and a run, which
      holds completions until their entry is acknowledged;
    - DagRun, dag.go: the orchestrator of one run: which step is triggered when, the conditions and
      watches of steps, acks and completions, the on-failure step.  What it reads from and writes to
      is the class [World].  DagConditions and DagSafety have the theorems that hold in every world;
    - DagEngine, DagProgress and DagTheorems: the class [Engine] says what an engine owes to a run, and
      a run in a world that keeps it returns; an engine may refuse a trigger, and may evict a task that
      reports only entries it still waits for, as the dispatcher does;
    - DagChannel: the channel in front of a [Dispatcher], with the same liberties, keeps [Engine], so the
      orchestrator's theorems hold over the channel;
    - DagOperator and DagOperatorTheorems, operator.go: building the DAG from the rows of the steps, a
      run with its errors and reports, and the table of the runs that can be cancelled.

    The durable event log (src/pkg/repository/durable_events.go and sqlcv1/durable_event_log.sql):
    - LogTables: the log file, entries, branch points and child signals of one task, and each statement on them as a
      function;
    - EventLog: branches, idempotency keys, and appendDurableEventLogBatch, the transaction that gets or creates the
      entries of a batch of requests, with its errors per task and per batch; a task that fails in a transaction that
      commits keeps the child signals written for it;
    - EventLogOps: what follows the transaction (children to trigger, waits and their lookback), satisfying entries,
      memos, and forks; what triggerFromWorkflowNames does with a run, create it or not, is a reply ([runReply]);
    - EventLogTheorems: resolving a node to its branch, and batches; ReplayPlan and ReplayAnswer: what a request plans
      and is answered in a log without faults; ReplayTheorems: replaying the events of an invocation;
    - SatisfiedOrder and OrderInvariant: the numbers of satisfied entries, over every operation on a log; LogMonotone: what no
      operation on a log undoes; TriggerRecord: what it takes for an entry to be flagged as triggered;
    - IngestBuffer and IngestBufferTheorems: the buffer that lets requests share a transaction, as a step relation of its
      timers and flushes over the interface [IngestFn], whose laws ([IngestLaws]) the event log satisfies.

    The delivery of completions (src/internal/services/dispatcher/server_v1.go):
    - OrderedRelease: sessions, which hold a completion back until all before it were sent, the status of a worker,
      giving up on a gap; ReleaseTheorems: its theorems;
    - OrderTheorems: the order in the log, and log and delivery together;
    - StatusStream and StreamTheorems, worker_status_coalescer.go and durableTask: merging the statuses of a worker, and
      the routes of tasks to streams.

    The requests of durable tasks (server_v1.go and src/internal/services/controllers/task/controller.go):
    - RequestHandlers: each handler from the worker's message over the event log to the acks and completions it is sent,
      TriggerDAGStep for the steps of a DAG, and the task controller, which triggers the children of acknowledged runs;
      the dispatcher, the controller and the logs together are a step relation on [world], which also records what became
      of the runs that were handed over;
    - HandlerTheorems: its invariant and theorems.

    Eviction:
    - Eviction and EvictionTheorems, src/internal/services/shared/durable/dispatch.go, evictDurableTask, EvictTask and
      RestoreEvictedTasks: a task with all that is on its way to it, as a step relation that notes whether a memo was
      completed while the task was evicted; callbacks that found no session
      and come back from the dead-letter queue (src/internal/services/scheduler/v1);
    - EvictedSweep and SweepTheorems, src/internal/services/controllers/task/restore_evicted_orchestrators.go: the
      periodic pass over evicted orchestrators.

    ** How code becomes definitions

    A function that mutates a receiver takes and returns its state; an error is [None], [Err] or
    [false], a panic is [None] or [Panics] (see [result] below).  Objects that are reached through
    several pointers (slots, pools, sub-queues, slot indexes) live in a store and pointers are
    positions in it.  What the code reads from outside is an argument: replies of SQL statements,
    clocks, random numbers, the order in which Go ranges over a map.  An order that Go leaves open is
    an arbitrary permutation, so a theorem holds for each of them.  UUIDs and times are integers;
    int32 conversions that can truncate are written with [to_int32].  Goroutines are interleavings:
    the schedules of decideSubQueues in Strategy, the locked sections of use in RateLimit, the steps
    of the run loop in SchedulerTheorems, refills, transactions and acks in QueuerTheorems, the
    transactions of lease managers in LeaseTheorems, which share one clock, the timers and flushes of
    the ingest buffer, the runner of a status stream, and the messages of an evicted task, each of which
    is taken to be delivered at least once.

    ** What is proved

    - Refinement: a sub-queue's pipeline implements the two-map specification for all five
      strategies; the slot index and the running set implement finite maps.
    - Batches of the index: any goroutine schedule gives the same result, a failed batch restores the
      index, a committed one applies exactly the specified decisions, every reachable index is
      consistent with exact size counters, capacity is respected and no slot is lost.
    - The scheduler: in every state the run loop reaches no slot is booked twice and nothing panics;
      assignment succeeds exactly when a candidate has room; nack undoes it; a rebuild offers what the
      database has minus what is in flight; every parked batch is answered.
    - The rate limiter: units are charged exactly once; a grant stays within the snapshot against
      concurrent acks and nacks; a failed flush loses nothing.
    - The queuer: no item is handed out twice or after it was committed; every item of a tick is
      reported once; a flush acks or nacks each assignment and settles each reservation.
    - The batch scheduler: no item is buffered twice over any run; a flush commits each item it takes
      or puts it back, and a tick settles each slot it takes; the batch size loop ends; the memory
      limit is exact.
    - Leases: no resource has two holders as long as managers renew in time; a cycle announces exactly
      what it could lease.
    - The durable channel: it refines the sets of completed and of acknowledged entries, no completion
      is read ahead of its ack, and it retains at most 1024 responses.
    - The DAG operator: a step is triggered at most once, after its parents and never ahead of an
      unacknowledged registration; over the channel a run returns, with every step completed,
      with the error of a refused trigger or evicted; from the rows of the steps to the last report, a run
      that is not evicted reports its outcome.
    - The event log: events sent again by the next invocation are answered with the same entries and trigger no further
      child; a batch is transparent, each task gets what it would get alone; a node is resolved to the one branch that
      owns it; the numbers of satisfied entries have no gap.
    - Delivery: a session sends completions in order and goes as far as it can, gives up only for a gap, and every
      numbered entry of a log reaches the worker in whatever order it is delivered; merging statuses
      loses none, and routes lead to open streams.
    - The ingest buffer: it refines handling the requests one at a time, and answers every request once.
    - Requests: a run that a worker was told of is in the log and was handed to triggerFromWorkflowNames or is about to
      be, an acknowledged wait is registered, and the run of a step of a DAG that was triggered with success was handed
      over, if its entry is not that of a wait.
    - Eviction: when nothing is on its way to an evicted task any more, something it waits for is not
      there yet, unless a memo of it was completed after the eviction; the periodic pass misses no orchestrator that stays stuck.
    - Where the code departs from its intent: a static limit lost on rollback, two concurrent grants
      of the last unit, a rate limited item that is batched, a task assigned twice in one flush, the
      optimistic flush, an unknown rate limit window, a batch flush for memory without a free slot,
      groups of a step with an interval, a batch dispatch that fails halfway, a lease renewed after
      it was taken over, repeats of a completion held for its ack, the cancellation of a run that
      superseded another, a fork inside a bulk request, a fork of an older branch, a child key repeated in one
      request, the order of an answer, a completion given up for while it was held briefly, a completion
      that loses its order on the way through the dead-letter queue, a batch whose commit was reported as
      failed, an abandoned entry that keeps a task asleep, a route that is not restored, a trigger message
      dropped when a tenant has no resources left, a run that was acknowledged but is not created, a memo
      completed after its task was evicted, a memo marked as done before its payload is stored, and a
      replay of a step's child that is not asked for again.

    ** Fuel and bounds

    Loops that are not structural carry fuel that is proved enough: [up] runs for at most the index
    and [down] for at most the length ([heap_loops_terminate]); [popTimedOut_loop] for the length of
    the timeout queue; [trim_loop] and [merge_loop] for the sizes of the running set and the backlog;
    [groupsOf] for the length of the list; [search_loop] for the length of the slice; [sizeLoop] for
    one round more than the buffer ([size_flushes_terminate]).  Nothing bounds [memoryLoop] in the
    code, so its fuel is an argument of [tick], and [runLoop] takes the number of ticks; theorems on
    them hold for every fuel.  The loops of the orchestrator are bounded by
    a potential of eleven per step; over the channel 2048 rounds, plus 1025 for each round the engine
    may let pass, are enough ([dag_over_channel_returns]).  That theorem is for up to 92 steps, since
    eleven responses for each stay within the 1024 the channel retains.  [branchTree] runs for one step
    more than the branch points, which is enough in a tree ([branch_resolution_correct]), and [takeLoop]
    for the number of completions held.  The step relations of the ingest buffer, the status stream and
    an evicted task have no fuel: they are proved to end ([sn] in [every_request_answered],
    [no_status_lost] and [evicted_task_wakes]).  Positions in
    the slot index are int32, so its theorems assume less than 2^31 - 1 slots per heap.

    ** Not modelled

    Telemetry, logging, metrics registration, channel plumbing and goroutine lifecycle; the SQL itself,
    except that of leases, of the event log and of evictions;
    durationToInterval (src/pkg/repository/duration.go), whose arithmetic is on float64; the
    concurrency, pool and tenant managers (concurrency.go, pool.go, tenant_manager.go), which are timers,
    channels and lifecycle; triggerFromWorkflowNames (src/pkg/repository/trigger.go), which creates runs; resends of completed entries, which the engine makes on a worker status, as answers of a
    [Dispatcher] (the channel's own theorems cover them); the sessions, hosts and transports of
    operators; the services, message queues, REST API, clients and commands around the scheduler, which
    are I/O over the repository. *)

From Stdlib Require Export ZArith Lia.
From stdpp Require Export base tactics numbers list gmap strings relations sorting.

#[global] Set Default Goal Selector "!".

(** Notations of the development, in a scope of its own. *)
Declare Scope go_scope.
Delimit Scope go_scope with go.
Create HintDb hatchet.
Create Rewrite HintDb hatchet_rw.

(** ** Machine integers and Go's [cmp.Compare] *)

(** Conversion of an [int] to [int32]: two's-complement truncation. *)
Definition to_int32 (z : Z) : Z := ((z + 2 ^ 31) mod 2 ^ 32 - 2 ^ 31)%Z.

(** [cmp.Compare] on integers: -1, 0 or 1. *)
Definition cmpZ (a b : Z) : Z :=
  if (a <? b)%Z then (-1)%Z else if (b <? a)%Z then 1%Z else 0%Z.

(** A three-way comparison function that is a total preorder: what the Go
    code requires of the [compare] argument of a heap or of a sort. *)
Class GoCompare {A} (cmp : A → A → Z) : Prop := {
  gc_refl : ∀ a, cmp a a = 0%Z;
  gc_sym : ∀ a b, (cmp a b < 0)%Z ↔ (0 < cmp b a)%Z;
  gc_trans : ∀ a b c, (cmp a b ≤ 0)%Z → (cmp b c ≤ 0)%Z → (cmp a c ≤ 0)%Z
}.

(** The order of a comparison function, as a relation. *)
Definition cmp_le {A} (cmp : A → A → Z) : relation A := λ a b, (cmp a b ≤ 0)%Z.
Notation "a ≤[ c ] b" := (cmp_le c a b)
  (at level 70, format "a  ≤[ c ]  b") : go_scope.
Open Scope go_scope.
#[export] Instance cmp_le_dec {A} (cmp : A → A → Z) : RelDecision (cmp_le cmp) :=
  λ a b, Z.le_dec (cmp a b) 0%Z.

(** Swap of two elements of a slice: Go's
    [s[i], s[j] = s[j], s[i]]; both indices are in range in the code. *)
Definition list_swap {A} (l : list A) (i j : nat) : list A :=
  match l !! i, l !! j with
  | Some a, Some b => <[j := a]> (<[i := b]> l)
  | _, _ => l
  end.

(** The finite map of a list of values with distinct keys. *)
Definition kmap {K A} `{Countable K} (key : A → K) (l : list A) : gmap K A :=
  list_to_map ((λ a, (key a, a)) <$> l).

(** The results of a sequence of operations. *)
Fixpoint run {O S R : Type} (step : O → S → R * S) (os : list O) (st : S) : list R :=
  match os with
  | [] => []
  | o :: os => let '(r, st') := step o st in r :: run step os st'
  end.

(** ** Tactics *)

(** Destruct existentials and conjunctions of the context. *)
Ltac deex :=
  repeat match goal with
         | H : ∃ _, _ |- _ => destruct H as [? H]
         | H : _ ∧ _ |- _ => destruct H
         end.

(** Case analysis on the boolean comparison in the goal or a hypothesis. *)
Ltac zcase :=
  match goal with
  | |- context [(?a <? ?b)%Z] => destruct (Z.ltb_spec a b)
  | |- context [(?a <=? ?b)%Z] => destruct (Z.leb_spec a b)
  | |- context [(?a =? ?b)%Z] => destruct (Z.eqb_spec a b)
  | H : context [(?a <? ?b)%Z] |- _ => destruct (Z.ltb_spec a b)
  | H : context [(?a <=? ?b)%Z] |- _ => destruct (Z.leb_spec a b)
  | H : context [(?a =? ?b)%Z] |- _ => destruct (Z.eqb_spec a b)
  end.
Ltac zcases := repeat (zcase; try lia).

(** ** Lemmas on integers *)

Lemma to_int32_small (z : Z) : (- 2 ^ 31 ≤ z < 2 ^ 31)%Z → to_int32 z = z.
Proof. intros ?. unfold to_int32. rewrite Z.mod_small by lia. lia. Qed.

Lemma cmpZ_lt a b : (cmpZ a b < 0)%Z ↔ (a < b)%Z.
Proof. unfold cmpZ. zcases. Qed.

Lemma cmpZ_gt a b : (0 < cmpZ a b)%Z ↔ (b < a)%Z.
Proof. unfold cmpZ. zcases. Qed.

Lemma cmpZ_eq a b : cmpZ a b = 0%Z ↔ a = b.
Proof. unfold cmpZ. zcases. Qed.

Lemma cmpZ_le a b : (cmpZ a b ≤ 0)%Z ↔ (a ≤ b)%Z.
Proof. unfold cmpZ. zcases. Qed.

Lemma cmpZ_refl a : cmpZ a a = 0%Z.
Proof. by apply cmpZ_eq. Qed.

#[export] Instance cmpZ_compare : GoCompare cmpZ.
Proof.
  split; intros; rewrite ?cmpZ_lt, ?cmpZ_gt, ?cmpZ_le in *; [|done|lia].
  apply cmpZ_refl.
Qed.

Lemma gc_total {A} (cmp : A → A → Z) `{!GoCompare cmp} a b :
  (0 ≤ cmp a b)%Z ↔ (cmp b a ≤ 0)%Z.
Proof. pose proof (gc_sym a b). pose proof (gc_sym b a). lia. Qed.

#[export] Instance cmp_le_preorder {A} (cmp : A → A → Z) `{!GoCompare cmp} :
  PreOrder (cmp_le cmp).
Proof.
  split; unfold cmp_le.
  - intros a. rewrite gc_refl. lia.
  - intros a b c. apply gc_trans.
Qed.

#[export] Instance cmp_le_total {A} (cmp : A → A → Z) `{!GoCompare cmp} :
  Total (cmp_le cmp).
Proof. intros a b. unfold cmp_le. pose proof (gc_total cmp a b). lia. Qed.

(** ** Lemmas on lists *)

Section swap.
Context {A : Type}.
Implicit Types (l : list A) (i j k : nat).

Lemma length_list_swap l i j : length (list_swap l i j) = length l.
Proof. unfold list_swap. by repeat case_match; rewrite ?length_insert. Qed.

Lemma lookup_list_swap l i j k :
  i < length l → j < length l →
  list_swap l i j !! k =
    if decide (k = j) then l !! i else if decide (k = i) then l !! j else l !! k.
Proof.
  intros [a Ha]%lookup_lt_is_Some [b Hb]%lookup_lt_is_Some.
  pose proof (lookup_lt_Some _ _ _ Ha). pose proof (lookup_lt_Some _ _ _ Hb).
  unfold list_swap. rewrite Ha, Hb. repeat case_decide; subst.
  - rewrite list_lookup_insert_eq; [done|by rewrite length_insert].
  - by rewrite list_lookup_insert_ne, list_lookup_insert_eq.
  - by rewrite !list_lookup_insert_ne.
Qed.

Lemma list_swap_perm l i j : list_swap l i j ≡ₚ l.
Proof.
  unfold list_swap.
  destruct (l !! i) as [a|] eqn:Ha, (l !! j) as [b|] eqn:Hb; [|done..].
  destruct (decide (i = j)) as [<-|Hne].
  { simplify_eq. rewrite list_insert_insert_eq. by rewrite list_insert_id. }
  apply Permutation_inj. split; [by rewrite !length_insert|].
  exists (λ k, if decide (k = j) then i else if decide (k = i) then j else k).
  split.
  { intros x y. repeat case_decide; congruence. }
  intros k. pose proof (lookup_lt_Some _ _ _ Ha). pose proof (lookup_lt_Some _ _ _ Hb).
  repeat case_decide; subst.
  - rewrite list_lookup_insert_eq; [done|by rewrite length_insert].
  - by rewrite list_lookup_insert_ne, list_lookup_insert_eq.
  - by rewrite !list_lookup_insert_ne.
Qed.
End swap.

Lemma take_length_sub_1 {A} (l : list A) (x : A) :
  last l = Some x → l = take (length l - 1) l ++ [x].
Proof.
  intros [l' ->]%last_Some. rewrite length_app. simpl.
  replace (length l' + 1 - 1) with (length l') by lia.
  by rewrite take_app_length.
Qed.

Lemma filter_all {A} (P : A → Prop) `{∀ a, Decision (P a)} (l : list A) :
  (∀ a, a ∈ l → P a) → filter P l = l.
Proof.
  induction l as [|a l IH]; intros Hl; [done|].
  rewrite filter_cons_True by (apply Hl; set_solver). f_equal. apply IH. set_solver.
Qed.

Lemma filter_none {A} (P : A → Prop) `{∀ a, Decision (P a)} (l : list A) :
  (∀ a, a ∈ l → ¬ P a) → filter P l = [].
Proof.
  induction l as [|a l IH]; intros Hl; [done|].
  rewrite filter_cons_False by (apply Hl; set_solver). apply IH. set_solver.
Qed.

Lemma filter_fmap {A B} (f : A → B) (P : B → Prop) (Q : A → Prop)
    `{∀ b, Decision (P b)} `{∀ a, Decision (Q a)} (l : list A) :
  (∀ a, P (f a) ↔ Q a) → filter P (f <$> l) = f <$> filter Q l.
Proof.
  intros HPQ. induction l as [|a l IH]; [done|]. rewrite fmap_cons, !filter_cons.
  destruct (decide (P (f a))), (decide (Q a)); try naive_solver.
  by rewrite IH.
Qed.

Section kmap.
Context {K A : Type} `{Countable K} (key : A → K).
Implicit Types (l : list A) (a : A) (k : K).

Lemma kmap_fst l : ((λ a, (key a, a)) <$> l).*1 = key <$> l.
Proof. rewrite <-list_fmap_compose. done. Qed.

Lemma kmap_snd l : ((λ a, (key a, a)) <$> l).*2 = l.
Proof. induction l as [|a l IH]; [done|]. rewrite !fmap_cons, IH. done. Qed.

Lemma lookup_kmap l k a :
  NoDup (key <$> l) → kmap key l !! k = Some a ↔ a ∈ l ∧ key a = k.
Proof.
  intros Hnd. unfold kmap. rewrite <-elem_of_list_to_map by by rewrite kmap_fst.
  rewrite list_elem_of_fmap. naive_solver.
Qed.

Lemma lookup_kmap_None l k : kmap key l !! k = None ↔ k ∉ key <$> l.
Proof. unfold kmap. rewrite <-not_elem_of_list_to_map. by rewrite kmap_fst. Qed.

Lemma kmap_perm l l' : NoDup (key <$> l) → l ≡ₚ l' → kmap key l = kmap key l'.
Proof.
  intros Hnd Hp. unfold kmap. apply list_to_map_proper; [by rewrite kmap_fst|].
  by rewrite Hp.
Qed.

Lemma kmap_cons a l : kmap key (a :: l) = <[key a := a]> (kmap key l).
Proof. done. Qed.

Lemma kmap_size l : NoDup (key <$> l) → size (kmap key l) = length l.
Proof.
  induction l as [|a l IH]; [done|]. rewrite kmap_cons, fmap_cons, NoDup_cons.
  intros [Hn Hnd]. rewrite map_size_insert_None; [|by apply lookup_kmap_None].
  by rewrite IH.
Qed.

Lemma NoDup_fmap_filter l (P : A → Prop) `{∀ a, Decision (P a)} :
  NoDup (key <$> l) → NoDup (key <$> filter P l).
Proof.
  induction l as [|a l IH]; [done|]. rewrite fmap_cons, NoDup_cons, filter_cons.
  intros [Hn Hnd]. case_decide; [|auto]. rewrite fmap_cons, NoDup_cons. split; [|auto].
  rewrite list_elem_of_fmap in *. intros (b & Hk & Hb%list_elem_of_filter). naive_solver.
Qed.

Lemma kmap_filter_ne l k :
  NoDup (key <$> l) → kmap key (filter (λ a, key a ≠ k) l) = delete k (kmap key l).
Proof.
  intros Hnd. apply map_eq. intros j. apply option_eq. intros a.
  rewrite lookup_delete_Some, !lookup_kmap by auto using NoDup_fmap_filter.
  rewrite list_elem_of_filter. naive_solver.
Qed.

(** Removing one element, as a filter on the keys. *)
Lemma perm_cons_filter l l' a :
  NoDup (key <$> l) → l ≡ₚ a :: l' → l' ≡ₚ filter (λ b, key b ≠ key a) l.
Proof.
  intros Hnd Hp. rewrite Hp in Hnd |- *. rewrite filter_cons_False by naive_solver.
  rewrite fmap_cons, NoDup_cons in Hnd. destruct Hnd as [Hn _].
  rewrite filter_all; [done|]. intros b Hb Hk. apply Hn. rewrite <-Hk.
  by apply list_elem_of_fmap_2.
Qed.

(** An element and the rest of the list. *)
Lemma Permutation_cons_filter l a :
  NoDup (key <$> l) → a ∈ l → l ≡ₚ a :: filter (λ b, key b ≠ key a) l.
Proof.
  intros Hnd (l1 & l2 & ->)%list_elem_of_split.
  assert (Hp : l1 ++ a :: l2 ≡ₚ a :: (l1 ++ l2)) by by rewrite Permutation_middle.
  rewrite <-(perm_cons_filter _ _ _ Hnd Hp). done.
Qed.
End kmap.

Lemma map_size_delete_le {K A} `{Countable K} (m : gmap K A) (i : K) :
  size (delete i m) ≤ size m.
Proof. rewrite map_size_delete. case_match; unfold id; lia. Qed.

Lemma map_size_insert_le {K A} `{Countable K} (m : gmap K A) (i : K) (a : A) :
  size (<[i := a]> m) ≤ S (size m).
Proof. rewrite map_size_insert. case_match; unfold id; lia. Qed.

(** A simulation that may use how many operations have run: related states
    return the same results. *)
Lemma run_simulation {O S1 S2 R : Type} (step1 : O → S1 → R * S1) (step2 : O → S2 → R * S2)
    (rel : nat → S1 → S2 → Prop) (ok : nat → Prop) (os : list O) (n : nat) s1 s2 :
  ok (n + length os) → (∀ i j, i ≤ j → ok j → ok i) →
  (∀ n o s1 s2, ok n → rel n s1 s2 →
    (step1 o s1).1 = (step2 o s2).1 ∧ rel (S n) (step1 o s1).2 (step2 o s2).2) →
  rel n s1 s2 → run step1 os s1 = run step2 os s2.
Proof.
  intros Hok Hle Hstep. revert n s1 s2 Hok. induction os as [|o os IH]; intros n s1 s2 Hok Hrel; [done|].
  simpl in *. destruct (Hstep n o s1 s2) as [Hr Hs]; [by eapply Hle, Hok; lia|done|].
  destruct (step1 o s1) as [r s1'], (step2 o s2) as [r' s2']; simpl in *. subst r'. f_equal.
  apply (IH (S n)); [|done]. by replace (S n + length os) with (n + S (length os)) by lia.
Qed.

#[export] Hint Resolve cmpZ_refl : hatchet.
#[export] Hint Rewrite @length_list_swap : hatchet_rw.

(** ** Reading a slice in a ring *)

Lemma omap_same {A B} (f g : A → option B) (l : list A) :
  (∀ x, x ∈ l → f x = g x) → omap f l = omap g l.
Proof.
  intros H. apply list_omap_ext. induction l as [|x l IH]; constructor.
  - apply H. by constructor.
  - apply IH. intros y Hy. apply H. by constructor.
Qed.

Lemma omap_lookup_seq {A} (l : list A) a n :
  omap (λ i, l !! i) (seq a n) = take n (drop a l).
Proof.
  revert a. induction n as [|n IH]; intros a; [done|]. cbn [seq].
  change (omap (λ i, l !! i) (a :: seq (S a) n)) with
    (match l !! a with
     | Some y => y :: omap (λ i, l !! i) (seq (S a) n)
     | None => omap (λ i, l !! i) (seq (S a) n)
     end).
  rewrite IH. destruct (l !! a) as [y|] eqn:Hy.
  - by rewrite (drop_S l y a Hy).
  - apply lookup_ge_None in Hy. rewrite !drop_ge by lia. by rewrite !take_nil.
Qed.

(** Starting at offset [o] and wrapping around reads every element once. *)
Lemma ring_read {A} (l : list A) (o : nat) :
  o < length l →
  omap (λ i, l !! ((o + i) mod length l)) (seq 0 (length l)) = drop o l ++ take o l.
Proof.
  intros Ho. set (n := length l) in *.
  assert (∀ k, omap (λ i, l !! ((o + i) mod n)) (seq 0 k) =
               omap (λ i, l !! (i mod n)) (seq o k)) as Hshift.
  { intros k. replace (seq o k) with (Nat.add o <$> seq 0 k)
      by (by rewrite fmap_add_seq, Nat.add_0_r).
    apply list_omap_ext, Forall2_fmap_r, Forall_Forall2_diag, Forall_true. done. }
  rewrite Hshift. replace (seq o n) with (seq o (n - o) ++ seq (o + (n - o)) o)
    by (rewrite <- seq_app; f_equal; lia).
  rewrite omap_app. f_equal.
  - rewrite (omap_same _ (λ i, l !! i)).
    + rewrite omap_lookup_seq. apply take_ge. rewrite length_drop. unfold n. lia.
    + intros i Hi. apply elem_of_seq in Hi. by rewrite Nat.mod_small by lia.
  - replace (o + (n - o)) with n by lia.
    assert (omap (λ i, l !! (i mod n)) (seq n o) = omap (λ i, l !! i) (seq 0 o)) as ->.
    { replace (seq n o) with (Nat.add n <$> seq 0 o)
        by (by rewrite fmap_add_seq, Nat.add_0_r). symmetry.
      apply list_omap_ext, Forall2_fmap_r, Forall_Forall2_diag, Forall_forall. intros i Hi.
      apply elem_of_seq in Hi. f_equal. rewrite <- Nat.Div0.add_mod_idemp_l, Nat.Div0.mod_same.
      by rewrite Nat.mod_small by lia. }
    by rewrite omap_lookup_seq, drop_0.
Qed.

(** ** Sums *)

Lemma sum_list_with_perm {A} (f : A → nat) (l l' : list A) :
  l ≡ₚ l' → sum_list_with f l = sum_list_with f l'.
Proof. induction 1; cbn; lia. Qed.

Lemma sum_list_with_same {A} (f g : A → nat) (l : list A) :
  (∀ a, a ∈ l → f a = g a) → sum_list_with f l = sum_list_with g l.
Proof.
  induction l as [|a l IH]; intros H; [done|]. cbn. rewrite (H a) by constructor. rewrite IH; [done|].
  intros b Hb. apply H. by constructor.
Qed.

Lemma existsb_filter {A} (f : A → bool) l : existsb f l = match List.filter f l with [] => false | _ => true end.
Proof. induction l as [|x l IH]; [done|]. cbn. by destruct (f x). Qed.

Lemma forallb_false {A} (g : A → bool) (l : list A) : forallb g l = false → ∃ a, a ∈ l ∧ g a = false.
Proof.
  induction l as [|a l IH]; [done|]. cbn. intros [Ha|Hl]%andb_false_iff.
  - exists a. split; [by constructor|done].
  - destruct (IH Hl) as (b & ? & ?). exists b. split; [by constructor|done].
Qed.

Lemma bfilter_sublist {A} (p : A → bool) l : List.filter p l `sublist_of` l.
Proof. induction l as [|a l IH]; [constructor|]. cbn. destruct (p a); by constructor. Qed.

(** ** Maps whose values are related key by key *)

Section related.
Context `{Countable K} {V : Type} (R : relation V) `{!PreOrder R}.
Implicit Types (m : gmap K V) (k : K).

Lemma related_refl m k : option_Forall2 R (m !! k) (m !! k).
Proof. by destruct (m !! k); constructor. Qed.

Lemma related_alter m (g : V → V) k0 k : (∀ v, R v (g v)) → option_Forall2 R (m !! k) (alter g k0 m !! k).
Proof.
  intros Hg. rewrite lookup_alter. case_decide as Hk; [subst k0|apply related_refl]. destruct (m !! k); by constructor.
Qed.

Lemma related_trans m m1 m2 k :
  option_Forall2 R (m !! k) (m1 !! k) → option_Forall2 R (m1 !! k) (m2 !! k) → option_Forall2 R (m !! k) (m2 !! k).
Proof.
  destruct (m !! k), (m1 !! k), (m2 !! k); inversion 1 as [? ? Hs1|]; inversion 1 as [? ? Hs2|]; subst; constructor.
  by etrans.
Qed.

Lemma related_foldl {A} (g : A → gmap K V → gmap K V) l m k :
  (∀ a m, option_Forall2 R (m !! k) (g a m !! k)) → option_Forall2 R (m !! k) (foldl (λ m a, g a m) m l !! k).
Proof.
  intros Hg. revert m. induction l as [|a l IH]; intros m; cbn; [apply related_refl|].
  eapply related_trans; [apply (Hg a)|apply IH].
Qed.

Lemma related_imap (g : K → V → V) m k :
  (∀ k v, R v (g k v)) → option_Forall2 R (m !! k) (map_imap (λ k v, Some (g k v)) m !! k).
Proof. intros Hg. rewrite map_lookup_imap. destruct (m !! k); by constructor. Qed.
End related.

(** ** Calls that can fail *)

(** The outcome of a Go call: a value, a returned error, or a panic. *)
Inductive result (A : Type) := Ok (a : A) | Err | Panics.
Arguments Ok {_} _.
Arguments Err {_}.
Arguments Panics {_}.

#[export] Instance result_ret : MRet result := λ A a, Ok a.
#[export] Instance result_bind : MBind result := λ A B f m,
  match m with Ok a => f a | Err => Err | Panics => Panics end.

(** A call whose reply is an error or a value. *)
Definition of_reply {A} (o : option A) : result A := match o with Some a => Ok a | None => Err end.

Lemma bind_Ok {A B} (m : result A) (f : A → result B) b :
  m ≫= f = Ok b ↔ ∃ a, m = Ok a ∧ f a = Ok b.
Proof.
  destruct m; cbn; (split; [intros H|intros (a' & He & H)]);
    [by eexists|by injection He as <-|done..].
Qed.
