(* ===== verification/IndexedHeap.v ===== *)
(** * The indexed min-heap with an undo log

    Models pkg/scheduling/v1/concurrency/heap.go. The heap stores its
    elements in a slice; the callbacks [setIndex]/[getIndex] keep, in a store
    owned by the caller, the position of every element. The store is the
    explicit state [I] threaded through the operations, and the callbacks are
    the operations of the class [IndexOps]; what a caller must guarantee about
    them is the class [IndexLaws]. *)

From S2P Require Import Prelude.

Module Heap.

(** ** The callbacks *)

(** [setIndex] records the position of a value, [getIndex] returns the
    recorded position or [None]. *)
Class IndexOps (T I : Type) := {
  setIndex : T → Z → I → I;
  getIndex : T → I → option Z
}.

(** ** Data *)

(** [undoEntry]: one membership change. *)
Record undoEntry (T : Type) := UndoEntry { ue_value : T; ue_added : bool }.
Arguments UndoEntry {T}.
Arguments ue_value {T}.
Arguments ue_added {T}.

(** [heap]: the slice, the comparison, the journal and the recording flag. *)
Record heap (T : Type) := Heap {
  values : list T;
  compare : T → T → Z;
  journal : list (undoEntry T);
  recording : bool
}.
Arguments Heap {T}.
Arguments values {T}.
Arguments compare {T}.
Arguments journal {T}.
Arguments recording {T}.

Definition set_values {T} (l : list T) (h : heap T) : heap T :=
  Heap l (compare h) (journal h) (recording h).

(** ** Operations *)

Section operations.
Context {T I : Type} `{IndexOps T I}.
Implicit Types (h : heap T) (s : I).

(** The state of an operation: the heap and the caller's position store. *)
Abbreviation st := (heap T * I)%type.

Definition newHeap (cmp : T → T → Z) : heap T := Heap [] cmp [] false.

Definition begin (h : heap T) : heap T := Heap (values h) (compare h) [] true.

Definition commit (h : heap T) : heap T := Heap (values h) (compare h) [] false.

Definition record (e : undoEntry T) (h : heap T) : heap T :=
  if recording h
  then Heap (values h) (compare h) (journal h ++ [e]) true
  else h.

Definition len (h : heap T) : nat := length (values h).

(** Call [setIndex] for the element now at position [i]. *)
Definition reindex (l : list T) (i : nat) (s : I) : I :=
  match l !! i with
  | Some v => setIndex v (Z.of_nat i) s
  | None => s
  end.

Definition swap (i j : nat) (x : st) : st :=
  let '(h, s) := x in
  let l := list_swap (values h) i j in
  (set_values l h, reindex l j (reindex l i s)).

(** The parent of position [i], [(i-1)/2]. *)
Definition parent (i : nat) : nat := Nat.div (i - 1) 2.

(** The loop of [up]: every iteration moves to a smaller index, so the index
    itself is enough fuel. *)
Fixpoint up_loop (fuel : nat) (i : nat) (x : st) : st :=
  match fuel with
  | 0 => x
  | S fuel =>
      if decide (i = 0) then x else
      let p := parent i in
      match values x.1 !! i, values x.1 !! p with
      | Some vi, Some vp =>
          if (0 <=? compare x.1 vi vp)%Z then x
          else up_loop fuel p (swap p i x)
      | _, _ => x
      end
  end.

Definition up (i : nat) (x : st) : st := up_loop i i x.

(** The child that [down] compares with position [i]: the right child when
    it exists and is strictly smaller than the left one. *)
Definition smaller_child (h : heap T) (i : nat) : nat :=
  let lc := 2 * i + 1 in
  match values h !! (lc + 1), values h !! lc with
  | Some vr, Some vl => if (compare h vr vl <? 0)%Z then lc + 1 else lc
  | _, _ => lc
  end.

(** The loop of [down]; returns the final index. The index grows at every
    iteration and stays below the length, which is the fuel. *)
Fixpoint down_loop (fuel : nat) (i : nat) (x : st) : nat * st :=
  match fuel with
  | 0 => (i, x)
  | S fuel =>
      if decide (length (values x.1) ≤ 2 * i + 1) then (i, x) else
      let child := smaller_child x.1 i in
      match values x.1 !! child, values x.1 !! i with
      | Some vc, Some vi =>
          if (0 <=? compare x.1 vc vi)%Z then (i, x)
          else down_loop fuel child (swap i child x)
      | _, _ => (i, x)
      end
  end.

(** [down] returns whether the element moved. *)
Definition down (i : nat) (x : st) : bool * st :=
  let '(i', x') := down_loop (length (values x.1)) i x in
  (bool_decide (i < i'), x').

Definition insert (v : T) (x : st) : st :=
  let '(h, s) := x in
  let n := length (values h) in
  let '(h', s') := up n (set_values (values h ++ [v]) h, setIndex v (Z.of_nat n) s) in
  (record (UndoEntry v true) h', s').

(** [delete] ignores an index out of range. *)
Definition delete (i : Z) (x : st) : st :=
  let '(h, s) := x in
  if decide (i < 0 ∨ Z.of_nat (length (values h)) ≤ i)%Z then x else
  let i := Z.to_nat i in
  let n := length (values h) - 1 in
  match values h !! i with
  | None => x
  | Some removed =>
      let '(h1, s1) := if decide (n = i) then x else swap i n x in
      let s2 := match values h1 !! n with
                | Some v => setIndex v (-1) s1
                | None => s1
                end in
      let x2 := (set_values (take n (values h1)) h1, s2) in
      let '(h3, s3) :=
        if decide (n = i) then x2
        else let '(moved, x3) := down i x2 in
             if moved then x3 else up i x3 in
      (record (UndoEntry removed false) h3, s3)
  end.

(** [takeMin] panics on an empty heap: [None]. *)
Definition takeMin (x : st) : option (T * st) :=
  match values x.1 !! 0 with
  | None => None
  | Some v => Some (v, delete 0 x)
  end.

Fixpoint pop_loop (n : nat) (x : st) : list T * st :=
  match n with
  | 0 => ([], x)
  | S n =>
      match takeMin x with
      | None => ([], x)
      | Some (v, x') => let '(vs, x'') := pop_loop n x' in (v :: vs, x'')
      end
  end.

(** [pop n] takes an [int]; nothing is removed when [n <= 0]. *)
Definition pop (n : Z) (x : st) : list T * st := pop_loop (Z.to_nat n) x.

Definition peek (h : heap T) : option T := values h !! 0.

(** [heapify]: [down] from the last inner position to the root. *)
Fixpoint heapify_loop (i : nat) (x : st) : st :=
  match i with
  | 0 => x
  | S i => heapify_loop i (down i x).2
  end.

Definition heapify (x : st) : st := heapify_loop (length (values x.1) / 2) x.

(** The indexing loop of [insertMany] over the appended elements. *)
Fixpoint index_new (start : nat) (vs : list T) (x : st) : st :=
  match vs with
  | [] => x
  | v :: vs =>
      index_new (S start) vs
        (record (UndoEntry v true) x.1, setIndex v (Z.of_nat start) x.2)
  end.

Definition insertMany (vs : list T) (x : st) : st :=
  let '(h, s) := x in
  heapify (index_new (length (values h)) vs (set_values (values h ++ vs) h, s)).

(** One reversing step of [rollback]. *)
Definition undo (e : undoEntry T) (x : st) : st :=
  if ue_added e then
    match getIndex (ue_value e) x.2 with
    | Some idx => delete idx x
    | None => x
    end
  else insert (ue_value e) x.

(** [rollback] stops recording, undoes the journal from its end and drops it. *)
Definition rollback (x : st) : st :=
  let '(h, s) := x in
  let '(h', s') :=
    fold_right undo (Heap (values h) (compare h) (journal h) false, s) (journal h) in
  (Heap (values h') (compare h') [] false, s').
End operations.

(** ** What the callbacks guarantee *)

(** The store is keyed by an identity [key] of the values; positions below
    [bound] are stored exactly and [-1] clears an entry. *)
Class IndexLaws {T I K : Type} `{IndexOps T I} (key : T → K) (bound : Z) : Prop := {
  il_key : ∀ v w s, key v = key w → getIndex v s = getIndex w s;
  il_set : ∀ v w i s, (0 ≤ i < bound)%Z → key v = key w →
    getIndex v (setIndex w i s) = Some i;
  il_clear : ∀ v w s, key v = key w → getIndex v (setIndex w (-1) s) = None;
  il_frame : ∀ v w i s, key v ≠ key w →
    getIndex v (setIndex w i s) = getIndex v s
}.

(** ** Heap order *)

Section order.
Context {T : Type} (cmp : T → T → Z) `{!GoCompare cmp}.
Implicit Types (l : list T).

(** The edge between position [k] and its parent is ordered. *)
Definition edge l (k : nat) : Prop :=
  ∀ x y, l !! k = Some x → l !! parent k = Some y → y ≤[cmp] x.

Definition ordered_from l (rt : nat) : Prop := ∀ k, 0 < k → rt ≤ parent k → edge l k.
Definition ordered l : Prop := ∀ k, 0 < k → edge l k.

(** The children of [j] are above the parent of [j]. *)
Definition grand l (j : nat) : Prop :=
  ∀ k x y, 0 < j → 0 < k → parent k = j →
    l !! k = Some x → l !! parent j = Some y → y ≤[cmp] x.

(** Only the edge from [j] to its parent may be broken. *)
Definition up_ok l (j : nat) : Prop :=
  (∀ k, 0 < k → k ≠ j → edge l k) ∧ grand l j.

(** Only the edges from [j] to its children may be broken, looking at the
    positions whose parent is at least [rt]. *)
Definition down_ok l (j rt : nat) : Prop :=
  (∀ k, 0 < k → rt ≤ parent k → parent k ≠ j → edge l k) ∧
  (rt ≤ parent j → grand l j).

Lemma parent_spec k : 0 < k → k = 2 * parent k + 1 ∨ k = 2 * parent k + 2.
Proof.
  unfold parent. intros. pose proof (Nat.div_mod_eq (k - 1) 2).
  pose proof (Nat.mod_upper_bound (k - 1) 2). lia.
Qed.

Lemma parent_child k j : k = 2 * j + 1 ∨ k = 2 * j + 2 → parent k = j.
Proof. intros Hk. pose proof (parent_spec k). lia. Qed.

Lemma parent_lt k : 0 < k → parent k < k.
Proof. intros. pose proof (parent_spec k). lia. Qed.

Lemma ordered_from_0 l : ordered_from l 0 ↔ ordered l.
Proof. unfold ordered_from, ordered. split; intros Ho k; auto with lia. Qed.

Lemma ordered_up_ok l j : ordered l → up_ok l j.
Proof.
  intros Ho. split; [auto|]. intros k x y Hj Hk <- Hx Hy.
  pose proof (parent_lt k Hk).
  destruct (lookup_lt_is_Some_2 l (parent k)) as [z Hz].
  { apply lookup_lt_Some in Hx. lia. }
  transitivity z; [by apply (Ho (parent k))|by apply (Ho k)].
Qed.

Lemma up_ok_done l j : up_ok l j → edge l j → ordered l.
Proof.
  intros [Ho _] Hj k Hk. destruct (decide (k = j)) as [->|]; auto.
Qed.

Lemma up_ok_swap l i vi vp :
  up_ok l i → 0 < i → l !! i = Some vi → l !! parent i = Some vp →
  vi ≤[cmp] vp → up_ok (list_swap l (parent i) i) (parent i).
Proof.
  intros [Ho Hg] Hi Hvi Hvp Hle. pose proof (parent_lt i Hi).
  pose proof (lookup_lt_Some _ _ _ Hvi). pose proof (lookup_lt_Some _ _ _ Hvp).
  set (p := parent i) in *.
  assert (Hl : ∀ k, list_swap l p i !! k = if decide (k = i) then Some vp else
    if decide (k = p) then Some vi else l !! k).
  { intros k. rewrite lookup_list_swap by done. by rewrite Hvi, Hvp. }
  split.
  - intros k Hk Hkp x y. rewrite !Hl. pose proof (parent_lt k Hk).
    destruct (decide (k = i)) as [->|Hki].
    { fold p. rewrite decide_False by lia. rewrite decide_True by done.
      intros; by simplify_eq. }
    rewrite decide_False by done.
    destruct (decide (parent k = i)) as [Hpi|].
    { intros; simplify_eq. by apply (Hg k). }
    destruct (decide (parent k = p)) as [Hpp|].
    { intros; simplify_eq. transitivity vp; [done|].
      apply (Ho k Hk Hki); congruence. }
    intros. by apply (Ho k).
  - intros k x y Hp Hk Hkp. rewrite !Hl. pose proof (parent_lt p Hp).
    rewrite (decide_False (P := parent p = i)) by lia.
    rewrite (decide_False (P := parent p = p)) by lia.
    intros Hx Hy. assert (y ≤[cmp] vp) by (apply (Ho p); [lia|lia|done|done]).
    pose proof (parent_lt k Hk).
    repeat case_decide; simplify_eq; [done|lia|].
    transitivity vp; [done|]. apply (Ho k Hk); congruence.
Qed.

Lemma down_ok_leaf l j rt :
  down_ok l j rt → length l ≤ 2 * j + 1 → ordered_from l rt.
Proof.
  intros [Ho _] Hlen k Hk Hrt. destruct (decide (parent k = j)) as [<-|]; [|auto].
  intros x y Hx%lookup_lt_Some. pose proof (parent_spec k Hk). lia.
Qed.

Lemma down_ok_done l j rt vj c vc :
  down_ok l j rt → l !! j = Some vj → l !! c = Some vc → vj ≤[cmp] vc →
  (∀ k x, 0 < k → parent k = j → l !! k = Some x → vc ≤[cmp] x) →
  ordered_from l rt.
Proof.
  intros [Ho _] Hvj Hvc Hle Hmin k Hk Hrt.
  destruct (decide (parent k = j)) as [<-|]; [|auto].
  intros x y Hx Hy. simplify_eq. transitivity vc; [done|eauto].
Qed.

Lemma down_ok_swap l i c rt vi vc :
  down_ok l i rt → rt ≤ i → 0 < c → parent c = i →
  l !! i = Some vi → l !! c = Some vc → vc ≤[cmp] vi →
  (∀ k x, 0 < k → parent k = i → l !! k = Some x → vc ≤[cmp] x) →
  down_ok (list_swap l i c) c rt.
Proof.
  intros [Ho Hg] Hrt Hc Hpc Hvi Hvc Hle Hmin. pose proof (parent_lt c Hc).
  pose proof (lookup_lt_Some _ _ _ Hvi). pose proof (lookup_lt_Some _ _ _ Hvc).
  assert (Hl : ∀ k, list_swap l i c !! k = if decide (k = c) then Some vi else
    if decide (k = i) then Some vc else l !! k).
  { intros k. rewrite lookup_list_swap by done. by rewrite Hvi, Hvc. }
  split.
  - intros k Hk Hrk Hpk x y. rewrite !Hl. pose proof (parent_lt k Hk).
    rewrite (decide_False (P := parent k = c)) by done.
    destruct (decide (k = c)) as [->|].
    { rewrite decide_True by done. intros; by simplify_eq. }
    destruct (decide (k = i)) as [->|].
    { rewrite decide_False by lia. intros; simplify_eq.
      eapply (Hg Hrk c); eauto; lia. }
    case_decide; intros; simplify_eq; [by eapply (Hmin k)|by eapply (Ho k)].
  - rewrite Hpc. intros _ k x y _ Hk Hpk. rewrite !Hl, Hpc.
    pose proof (parent_lt k Hk).
    rewrite (decide_False (P := k = c)), (decide_False (P := k = i)) by lia.
    rewrite (decide_False (P := i = c)), (decide_True (P := i = i)) by lia.
    intros; simplify_eq. apply (Ho k); [done|lia|lia|done|done].
Qed.

(** The root of an ordered heap is minimal. *)
Lemma ordered_root l r k x :
  ordered l → l !! 0 = Some r → l !! k = Some x → r ≤[cmp] x.
Proof.
  intros Ho Hr. revert x. induction (lt_wf k) as [k _ IH]. intros x Hx.
  destruct (decide (k = 0)) as [->|]; [by simplify_eq|].
  pose proof (parent_lt k). destruct (lookup_lt_is_Some_2 l (parent k)) as [y Hy].
  { apply lookup_lt_Some in Hx. lia. }
  transitivity y; [apply (IH (parent k)); [lia|done]|by apply (Ho k); [lia|..]].
Qed.

Lemma ordered_app_l l v : ordered l → up_ok (l ++ [v]) (length l).
Proof.
  intros Ho. split.
  - intros k Hk Hne x y Hx Hy. pose proof (parent_lt k Hk).
    pose proof (lookup_lt_Some _ _ _ Hx) as Hlt. rewrite length_app in Hlt. simpl in Hlt.
    rewrite lookup_app_l in Hx, Hy by lia. by apply (Ho k).
  - intros k x y _ Hk Hp Hx%lookup_lt_Some. rewrite length_app in Hx. simpl in Hx.
    pose proof (parent_lt k Hk). lia.
Qed.
End order.

(** ** The position store and the specifications of the operations *)

Section spec.
Context {T I K : Type} `{HI : IndexOps T I} (key : T → K) (bound : Z)
  `{HL : !IndexLaws key bound} `{EqDecision K}.
Implicit Types (h : heap T) (s : I) (x : heap T * I) (l : list T).

(** The store holds exactly the positions of the elements of the slice. *)
Record indexed l s : Prop := {
  ix_fwd : ∀ i v, l !! i = Some v → getIndex v s = Some (Z.of_nat i);
  ix_bwd : ∀ v z, getIndex v s = Some z →
    ∃ j w, z = Z.of_nat j ∧ l !! j = Some w ∧ key w = key v
}.

Record heap_inv x : Prop := {
  hi_cmp : GoCompare (compare x.1);
  hi_ordered : ordered (compare x.1) (values x.1);
  hi_indexed : indexed (values x.1) x.2;
  hi_bound : (Z.of_nat (length (values x.1)) ≤ bound)%Z
}.

(** The store changed only through [setIndex]. *)
Definition set_steps : relation I := rtc (λ a b, ∃ v i, b = setIndex v i a).

(** The journal after an operation that logs [e]. *)
Definition log (e : undoEntry T) h : list (undoEntry T) :=
  if recording h then journal h ++ [e] else journal h.

(** The contract of [insert] and [delete]: the invariant holds afterwards,
    the membership changed by exactly [e], and [e] is logged. *)
Record step_ok (e : undoEntry T) x x' : Prop := {
  so_inv : heap_inv x';
  so_cmp : compare x'.1 = compare x.1;
  so_rec : recording x'.1 = recording x.1;
  so_journal : journal x'.1 = log e x.1;
  so_steps : set_steps x.2 x'.2;
  so_perm : if ue_added e then values x'.1 ≡ₚ ue_value e :: values x.1
            else values x.1 ≡ₚ ue_value e :: values x'.1
}.

(** A rearrangement: the loops [up] and [down] only permute the slice, and
    keep the store exact. *)
Record moved x x' : Prop := {
  mv_ctl : x'.1 = set_values (values x'.1) x.1;
  mv_perm : values x'.1 ≡ₚ values x.1;
  mv_idx : (Z.of_nat (length (values x.1)) ≤ bound)%Z →
    indexed (values x.1) x.2 → indexed (values x'.1) x'.2;
  mv_steps : set_steps x.2 x'.2
}.

(** [journal_ok base j l]: undoing [j] from its end turns the members [l]
    back into [base]. *)
Inductive journal_ok (base : list T) : list (undoEntry T) → list T → Prop :=
| jo_nil l : l ≡ₚ base → journal_ok base [] l
| jo_add j l l' v : journal_ok base j l → l' ≡ₚ v :: l →
    journal_ok base (j ++ [UndoEntry v true]) l'
| jo_del j l l' v : journal_ok base j l → l ≡ₚ v :: l' →
    NoDup (key <$> l) → (Z.of_nat (length l) ≤ bound)%Z →
    journal_ok base (j ++ [UndoEntry v false]) l'.

Lemma set_steps_one v i s : set_steps s (setIndex v i s).
Proof. apply rtc_once. eauto. Qed.

Lemma set_steps_trans s1 s2 s3 : set_steps s1 s2 → set_steps s2 s3 → set_steps s1 s3.
Proof. unfold set_steps. intros. by etrans. Qed.

Lemma reindex_steps l i s : set_steps s (reindex l i s).
Proof. unfold reindex. case_match; [apply set_steps_one|apply rtc_refl]. Qed.

Hint Resolve set_steps_one reindex_steps : hatchet.
Hint Resolve set_steps_trans : hatchet.

Lemma indexed_inj l s i j v w :
  indexed l s → l !! i = Some v → l !! j = Some w → key v = key w → i = j.
Proof.
  intros [Hf _] Hi%Hf Hj%Hf Hk. rewrite (il_key v w) in Hi by done.
  rewrite Hi in Hj. simplify_eq. lia.
Qed.

Lemma indexed_nodup l s : indexed l s → NoDup (key <$> l).
Proof.
  intros Hix. apply NoDup_alt. intros i j k.
  rewrite !list_lookup_fmap, !fmap_Some. intros (v & Hi & ->) (w & Hj & Hk).
  by eapply indexed_inj.
Qed.

Lemma indexed_fresh l s v : indexed l s → getIndex v s = None ↔ key v ∉ key <$> l.
Proof.
  intros Hix. rewrite list_elem_of_fmap. split.
  - intros Hn (w & Hk & [i Hw]%list_elem_of_lookup).
    apply (ix_fwd _ _ Hix) in Hw. rewrite (il_key v w) in Hn by done. congruence.
  - intros Hn. destruct (getIndex v s) as [z|] eqn:Hz; [|done].
    destruct (ix_bwd _ _ Hix _ _ Hz) as (j & w & -> & Hw & Hk). destruct Hn.
    exists w. split; [done|]. by eapply list_elem_of_lookup_2.
Qed.

Lemma indexed_swap l s i j :
  indexed l s → (Z.of_nat (length l) ≤ bound)%Z → i < length l → j < length l → i ≠ j →
  indexed (list_swap l i j) (reindex (list_swap l i j) j (reindex (list_swap l i j) i s)).
Proof.
  intros Hix Hb Hi Hj Hne.
  destruct (lookup_lt_is_Some_2 l i Hi) as [a Ha].
  destruct (lookup_lt_is_Some_2 l j Hj) as [b Hbj].
  assert (key a ≠ key b) as Hab. { intros Hk. destruct Hne. by eapply indexed_inj. }
  set (l' := list_swap l i j).
  assert (Hl : ∀ k, l' !! k = if decide (k = j) then Some a else
    if decide (k = i) then Some b else l !! k).
  { intros k. unfold l'. rewrite lookup_list_swap by done. by rewrite Ha, Hbj. }
  assert (reindex l' j (reindex l' i s) =
    setIndex a (Z.of_nat j) (setIndex b (Z.of_nat i) s)) as ->.
  { unfold reindex. by rewrite !Hl, decide_True, decide_False, decide_True by done. }
  assert (Hg : ∀ v, getIndex v (setIndex a (Z.of_nat j) (setIndex b (Z.of_nat i) s)) =
    if decide (key v = key a) then Some (Z.of_nat j) else
    if decide (key v = key b) then Some (Z.of_nat i) else getIndex v s).
  { intros v. destruct (decide (key v = key a)); [by rewrite il_set by (done || lia)|].
    rewrite il_frame by done.
    destruct (decide (key v = key b)); [by rewrite il_set by (done || lia)|].
    by rewrite il_frame. }
  split.
  - intros k v. rewrite Hl, Hg. destruct (decide (k = j)) as [->|Hkj].
    { intros [= <-]. by rewrite decide_True. }
    destruct (decide (k = i)) as [->|Hki].
    { intros [= <-]. by rewrite decide_False, decide_True. }
    intros Hv. rewrite !decide_False; [by apply (ix_fwd _ _ Hix)|intros Hk..].
    + destruct Hkj. by eapply indexed_inj.
    + destruct Hki. by eapply indexed_inj.
  - intros v z. rewrite Hg. repeat case_decide; intros Hz; simplify_eq.
    + exists j, a. by rewrite Hl, decide_True.
    + exists i, b. by rewrite Hl, decide_False, decide_True.
    + destruct (ix_bwd _ _ Hix _ _ Hz) as (k & w & -> & Hw & Hk).
      exists k, w. rewrite Hl. repeat case_decide; simplify_eq; done.
Qed.

Lemma indexed_push l s v :
  indexed l s → getIndex v s = None → (Z.of_nat (S (length l)) ≤ bound)%Z →
  indexed (l ++ [v]) (setIndex v (Z.of_nat (length l)) s).
Proof.
  intros Hix Hn Hb. pose proof Hn as Hfresh. rewrite indexed_fresh in Hfresh by done.
  split.
  - intros k w [Hw|[Hlen Hw]]%lookup_app_Some.
    + assert (key w ≠ key v).
      { intros Hk. destruct Hfresh. rewrite <-Hk. apply list_elem_of_fmap_2.
        by eapply list_elem_of_lookup_2. }
      rewrite il_frame by done. by apply (ix_fwd _ _ Hix).
    + apply list_lookup_singleton_Some in Hw as [Hk ->].
      replace k with (length l) by lia. apply il_set; [lia|done].
  - intros w z. destruct (decide (key w = key v)) as [Hk|Hk].
    + rewrite il_set by (done || lia). intros; simplify_eq.
      exists (length l), v. split_and!; [done| |done]. apply list_lookup_middle. done.
    + rewrite il_frame by done. intros Hz.
      destruct (ix_bwd _ _ Hix _ _ Hz) as (j & u & -> & Hu & Hku).
      exists j, u. split_and!; [done| |done]. by apply lookup_app_l_Some.
Qed.

Lemma indexed_drop_last l s v :
  indexed (l ++ [v]) s → indexed l (setIndex v (-1) s).
Proof.
  intros Hix. assert (Hv : (l ++ [v]) !! length l = Some v) by by apply list_lookup_middle.
  split.
  - intros i w Hw. pose proof (lookup_lt_Some _ _ _ Hw).
    assert (Hw' : (l ++ [v]) !! i = Some w) by by apply lookup_app_l_Some.
    rewrite il_frame; [by apply (ix_fwd _ _ Hix)|]. intros Hk.
    pose proof (indexed_inj _ _ _ _ _ _ Hix Hw' Hv Hk). lia.
  - intros w z. destruct (decide (key w = key v)).
    { by rewrite il_clear. }
    rewrite il_frame by done. intros Hz.
    destruct (ix_bwd _ _ Hix _ _ Hz) as (j & u & -> & Hu & Hk).
    exists j, u. split_and!; [done| |done].
    apply lookup_app_Some in Hu as [|[_ Hu]]; [done|].
    apply list_lookup_singleton_Some in Hu as [_ <-]. congruence.
Qed.

(** *** The loops *)

Lemma moved_refl x : moved x x.
Proof. split; [by destruct x as [[] ?]|done|done|apply rtc_refl]. Qed.

Lemma moved_trans x y z : moved x y → moved y z → moved x z.
Proof.
  intros [Hc1 Hp1 Hi1 Hs1] [Hc2 Hp2 Hi2 Hs2]. split.
  - rewrite Hc2, Hc1. done.
  - by etrans.
  - intros Hb Hix. apply Hi2; [by rewrite Hp1|auto].
  - eauto with hatchet.
Qed.

Lemma swap_moved i j x :
  i < length (values x.1) → j < length (values x.1) → i ≠ j → moved x (swap i j x).
Proof.
  destruct x as [h s]; simpl. intros Hi Hj Hne. split; simpl.
  - done.
  - apply list_swap_perm.
  - intros Hb Hix. by apply indexed_swap.
  - eauto with hatchet.
Qed.

Lemma moved_compare x x' : moved x x' → compare x'.1 = compare x.1.
Proof. intros [Hc _ _ _]. by rewrite Hc. Qed.

Lemma moved_length x x' : moved x x' → length (values x'.1) = length (values x.1).
Proof. intros [_ Hp _ _]. by apply Permutation_length. Qed.

Hint Resolve moved_refl : hatchet.

Lemma up_loop_spec fuel i x :
  i ≤ fuel → i < length (values x.1) → GoCompare (compare x.1) →
  up_ok (compare x.1) (values x.1) i →
  moved x (up_loop fuel i x) ∧
  ordered (compare x.1) (values (up_loop fuel i x).1).
Proof.
  revert i x. induction fuel as [|fuel IH]; intros i x Hfuel Hlen Hcmp Hok; simpl.
  { split; [apply moved_refl|]. destruct Hok as [Ho _]. intros k Hk. apply Ho; lia. }
  destruct (decide (i = 0)) as [->|Hi].
  { split; [apply moved_refl|]. destruct Hok as [Ho _]. intros k Hk. apply Ho; lia. }
  pose proof (parent_lt i ltac:(lia)) as Hp.
  destruct (lookup_lt_is_Some_2 (values x.1) i) as [vi Hvi]; [done|].
  destruct (lookup_lt_is_Some_2 (values x.1) (parent i)) as [vp Hvp]; [lia|].
  rewrite Hvi, Hvp. destruct (Z.leb_spec 0 (compare x.1 vi vp)) as [Hle|Hlt].
  - split; [apply moved_refl|]. eapply up_ok_done; [done|].
    intros ? ? ? ?. simplify_eq. by apply gc_total.
  - assert (Hm : moved x (swap (parent i) i x)) by (apply swap_moved; lia).
    pose proof (moved_compare _ _ Hm) as Hc.
    destruct (IH (parent i) (swap (parent i) i x)) as [Hm' Ho].
    + lia.
    + rewrite (moved_length _ _ Hm). lia.
    + by rewrite Hc.
    + rewrite Hc. destruct x as [h s]; simpl in *.
      eapply up_ok_swap; eauto; [lia|unfold cmp_le; lia].
    + split; [by eapply moved_trans|]. by rewrite <-Hc.
Qed.

Lemma smaller_child_spec h i :
  GoCompare (compare h) → 2 * i + 1 < length (values h) →
  ∃ vc, values h !! smaller_child h i = Some vc ∧
    (smaller_child h i = 2 * i + 1 ∨ smaller_child h i = 2 * i + 2) ∧
    ∀ k v, 0 < k → parent k = i → values h !! k = Some v → vc ≤[compare h] v.
Proof.
  intros Hcmp Hlen. unfold smaller_child.
  replace (2 * i + 1 + 1) with (2 * i + 2) by lia.
  destruct (lookup_lt_is_Some_2 (values h) (2 * i + 1)) as [vl Hvl]; [done|].
  rewrite Hvl. destruct (values h !! (2 * i + 2)) as [vr|] eqn:Hvr.
  - destruct (Z.ltb_spec (compare h vr vl) 0).
    + exists vr. split_and!; [done|lia|]. intros k v Hk Hp Hv.
      destruct (parent_spec k Hk) as [Hc|Hc]; rewrite Hp in Hc; subst k; simplify_eq.
      * unfold cmp_le. lia.
      * done.
    + exists vl. split_and!; [done|lia|]. intros k v Hk Hp Hv.
      destruct (parent_spec k Hk) as [Hc|Hc]; rewrite Hp in Hc; subst k; simplify_eq.
      * done.
      * unfold cmp_le. by apply gc_total.
  - exists vl. split_and!; [done|lia|]. intros k v Hk Hp Hv.
    destruct (parent_spec k Hk) as [Hc|Hc]; rewrite Hp in Hc; subst k; simplify_eq.
    done.
Qed.

Lemma down_loop_spec fuel rt i x :
  length (values x.1) ≤ fuel + i → rt ≤ i → GoCompare (compare x.1) →
  down_ok (compare x.1) (values x.1) i rt →
  moved x (down_loop fuel i x).2 ∧ i ≤ (down_loop fuel i x).1 ∧
  ((down_loop fuel i x).1 = i → (down_loop fuel i x).2 = x) ∧
  ordered_from (compare x.1) (values (down_loop fuel i x).2.1) rt.
Proof.
  revert i x. induction fuel as [|fuel IH]; intros i x Hfuel Hrt Hcmp Hok; simpl.
  { split_and!; simpl; auto with hatchet. by apply (down_ok_leaf _ _ i); [|lia]. }
  destruct (decide (length (values x.1) ≤ i + (i + 0) + 1)) as [Hleaf|Hin].
  { split_and!; simpl; auto with hatchet. by apply (down_ok_leaf _ _ i); [|lia]. }
  destruct (smaller_child_spec x.1 i) as (vc & Hvc & Hc & Hmin); [done|lia|].
  destruct (lookup_lt_is_Some_2 (values x.1) i) as [vi Hvi]; [lia|].
  set (c := smaller_child x.1 i) in *. rewrite Hvc, Hvi.
  destruct (Z.leb_spec 0 (compare x.1 vc vi)) as [Hle|Hlt].
  - split_and!; auto with hatchet. apply (down_ok_done _ _ i rt vi c vc); auto; by apply gc_total.
  - pose proof (lookup_lt_Some _ _ _ Hvc).
    assert (Hm : moved x (swap i c x)) by (apply swap_moved; lia).
    pose proof (moved_compare _ _ Hm) as Hcc.
    destruct (IH c (swap i c x)) as (Hm' & Hge & _ & Ho).
    + rewrite (moved_length _ _ Hm). lia.
    + lia.
    + by rewrite Hcc.
    + rewrite Hcc. destruct x as [h s]; simpl in *.
      eapply down_ok_swap; eauto; [lia|by apply parent_child|unfold cmp_le; lia].
    + split_and!; [by eapply moved_trans|lia|lia|by rewrite <-Hcc].
Qed.

Lemma down_spec rt i x :
  rt ≤ i → GoCompare (compare x.1) → down_ok (compare x.1) (values x.1) i rt →
  moved x (down i x).2 ∧ ((down i x).1 = false → (down i x).2 = x) ∧
  ordered_from (compare x.1) (values (down i x).2.1) rt.
Proof.
  intros Hrt Hcmp Hok. unfold down.
  pose proof (down_loop_spec (length (values x.1)) rt i x) as Hd.
  destruct (down_loop _ i x) as [i' x']; simpl in *.
  destruct Hd as (Hm & Hge & Heq & Ho); [lia|done..|]. split_and!; [done| |done].
  intros Hf%bool_decide_eq_false. apply Heq. lia.
Qed.

(** [down] stops at once when the children are already above. *)
Lemma down_noop i x vi :
  GoCompare (compare x.1) → values x.1 !! i = Some vi →
  (∀ k, 0 < k → parent k = i → edge (compare x.1) (values x.1) k) →
  down i x = (false, x).
Proof.
  intros Hcmp Hvi He. unfold down. destruct (length (values x.1)) as [|n] eqn:Hn; simpl.
  { rewrite bool_decide_eq_false_2 by lia. done. }
  destruct (decide (length (values x.1) ≤ i + (i + 0) + 1)).
  { rewrite bool_decide_eq_false_2 by lia. done. }
  destruct (smaller_child_spec x.1 i) as (vc & Hvc & Hc & Hmin); [done|lia|].
  rewrite Hvc, Hvi. assert (vi ≤[compare x.1] vc) as Hle.
  { apply (He (smaller_child x.1 i)); [lia|by apply parent_child|done|].
    by rewrite (parent_child _ i). }
  apply gc_total in Hle; [|done]. destruct (Z.leb_spec 0 (compare x.1 vc vi)); [|lia].
  rewrite bool_decide_eq_false_2 by lia. done.
Qed.

(** *** Insertion and deletion *)

Lemma record_values (e : undoEntry T) h : values (record e h) = values h.
Proof. unfold record. by case_match. Qed.
Lemma record_compare (e : undoEntry T) h : compare (record e h) = compare h.
Proof. unfold record. by case_match. Qed.
Lemma record_recording (e : undoEntry T) h : recording (record e h) = recording h.
Proof. unfold record. case_match; done. Qed.
Lemma record_journal (e : undoEntry T) h : journal (record e h) = log e h.
Proof. unfold record, log. by case_match. Qed.

(** The moves of an operation, followed by its log entry. *)
Lemma moved_step_ok e x x1 x2 :
  moved x1 x2 → GoCompare (compare x.1) →
  x1.1 = set_values (values x1.1) x.1 → set_steps x.2 x1.2 →
  indexed (values x1.1) x1.2 → (Z.of_nat (length (values x1.1)) ≤ bound)%Z →
  ordered (compare x.1) (values x2.1) →
  (if ue_added e then values x1.1 ≡ₚ ue_value e :: values x.1
   else values x.1 ≡ₚ ue_value e :: values x1.1) →
  step_ok e x (record e x2.1, x2.2).
Proof.
  intros Hm Hcmp Hctl Hst Hix Hb Ho Hp.
  pose proof (moved_compare _ _ Hm) as Hc. pose proof (moved_length _ _ Hm) as Hlen.
  destruct Hm as [Hctl2 Hp2 Hi2 Hs2].
  assert (Hcx : compare x2.1 = compare x.1) by by rewrite Hc, Hctl.
  split; simpl; rewrite ?record_values, ?record_compare, ?record_recording, ?record_journal.
  - split; simpl; rewrite ?record_values, ?record_compare, ?Hcx; [done|done|auto|lia].
  - done.
  - by rewrite Hctl2, Hctl.
  - unfold log. by rewrite Hctl2, Hctl.
  - eauto with hatchet.
  - case_match; by rewrite Hp2.
Qed.

Lemma insert_spec v x :
  heap_inv x → getIndex v x.2 = None →
  (Z.of_nat (S (length (values x.1))) ≤ bound)%Z →
  step_ok (UndoEntry v true) x (insert v x).
Proof.
  destruct x as [h s]. intros [Hcmp Ho Hix Hb] Hn Hb'; simpl in *. unfold insert.
  set (x1 := (set_values (values h ++ [v]) h, setIndex v (Z.of_nat (length (values h))) s)).
  destruct (up_loop_spec (length (values h)) (length (values h)) x1) as [Hm Hor]; simpl.
  - done.
  - rewrite length_app; simpl; lia.
  - done.
  - by apply ordered_app_l.
  - fold (up (length (values h)) x1) in Hm, Hor.
    destruct (up (length (values h)) x1) as [h2 s2] eqn:Hup; simpl in *.
    apply (moved_step_ok _ (h, s) x1 (h2, s2)); simpl; auto with hatchet.
    + by apply indexed_push.
    + rewrite length_app; simpl; lia.
    + by rewrite Permutation_app_comm.
Qed.

(** Both the edge to the parent and the edges to the children of [i] may be
    broken. *)
Definition hole_ok (cmp : T → T → Z) l (i : nat) : Prop :=
  (∀ k, 0 < k → k ≠ i → parent k ≠ i → edge cmp l k) ∧ grand cmp l i.

(** [sift] is the end of [delete]: [down], then [up] if nothing moved. *)
Definition sift (i : nat) x : heap T * I :=
  let '(moved, x') := down i x in if moved then x' else up i x'.

Lemma sift_spec i x :
  GoCompare (compare x.1) → i < length (values x.1) →
  hole_ok (compare x.1) (values x.1) i →
  moved x (sift i x) ∧ ordered (compare x.1) (values (sift i x).1).
Proof.
  intros Hcmp Hi [Hh Hg]. unfold sift.
  destruct (lookup_lt_is_Some_2 _ _ Hi) as [vi Hvi].
  assert (parent i ≤ i) by (destruct i; [done|]; pose proof (parent_lt (S i)); lia).
  destruct (lookup_lt_is_Some_2 (values x.1) (parent i)) as [vp Hvp]; [lia|].
  destruct (decide (i = 0 ∨ (compare x.1 vp vi ≤ 0)%Z)) as [He|Hne].
  { pose proof (down_spec 0 i x) as Hd. destruct (down i x) as [b x']; simpl in *.
    destruct Hd as (Hm & Heq & Ho); [lia|done| |].
    { split; [|done]. intros k Hk _ Hp. destruct (decide (k = i)) as [->|]; [|auto].
      destruct He; [lia|]. intros ? ? ? ?. by simplify_eq. }
    apply ordered_from_0 in Ho. destruct b; [done|]. specialize (Heq eq_refl) as ->.
    apply up_loop_spec; auto. by apply ordered_up_ok. }
  assert (0 < i) as Hi0 by lia.
  assert (vi ≤[compare x.1] vp) as Hle.
  { destruct (total (cmp_le (compare x.1)) vi vp); [done|]. by destruct Hne; right. }
  rewrite (down_noop i x vi); [|done|done|].
  - apply up_loop_spec; auto. split; [|done]. intros k Hk Hki.
    destruct (decide (parent k = i)) as [Hp|]; [|auto]. intros a b Ha Hb.
    rewrite Hp in Hb. simplify_eq. transitivity vp; [done|by apply (Hg k)].
  - intros k Hk Hp a b Ha Hb. rewrite Hp in Hb. simplify_eq.
    transitivity vp; [done|by apply (Hg k)].
Qed.

Lemma ordered_take cmp l n : ordered cmp l → ordered cmp (take n l).
Proof.
  intros Ho k Hk a b. rewrite !lookup_take_Some. intros [? _] [? _]. by apply (Ho k).
Qed.

(** Replacing the element at [i] by the last one leaves a hole at [i]. *)
Lemma hole_swap_last cmp l i n :
  GoCompare cmp → ordered cmp l → n = length l - 1 → i < n →
  hole_ok cmp (take n (list_swap l i n)) i.
Proof.
  intros Hcmp Ho Hn Hi.
  assert (Hl : ∀ k, k ≠ i → ∀ y, take n (list_swap l i n) !! k = Some y → l !! k = Some y).
  { intros k Hk y [Hy Hlt]%lookup_take_Some. rewrite lookup_list_swap in Hy by lia.
    rewrite decide_False in Hy by lia. by rewrite decide_False in Hy. }
  split.
  - intros k Hk Hki Hp a b Ha Hb. apply (Ho k); eauto.
  - destruct (ordered_up_ok cmp l i Ho) as [_ Hg]. intros k a b Hi0 Hk Hp Ha Hb.
    pose proof (parent_lt k Hk). pose proof (parent_lt i Hi0).
    eapply (Hg k); eauto; [apply (Hl k)|apply (Hl (parent i))]; done || lia.
Qed.

Lemma delete_unfold i h s v :
  values h !! i = Some v → i ≠ length (values h) - 1 →
  let n := length (values h) - 1 in
  let l := list_swap (values h) i n in
  delete (Z.of_nat i) (h, s) =
    let x := sift i (set_values (take n l) h,
                     setIndex v (-1) (reindex l n (reindex l i s))) in
    (record (UndoEntry v false) x.1, x.2).
Proof.
  intros Hv Hne n l. pose proof (lookup_lt_Some _ _ _ Hv). unfold delete.
  rewrite decide_False by lia. rewrite Nat2Z.id, Hv.
  rewrite !(decide_False (P := length (values h) - 1 = i)) by lia. fold n.
  unfold swap. cbv beta iota zeta. fold l.
  assert (values (set_values l h) !! n = Some v) as ->.
  { simpl. unfold l. rewrite lookup_list_swap by lia. by rewrite decide_True. }
  unfold sift, set_values; simpl. destruct (down i _) as [b x'].
  rewrite (decide_False (P := n = i)) by lia.
  destruct b; [by destruct x'|]. by destruct (up i x').
Qed.

Lemma delete_spec (i : nat) v x :
  heap_inv x → values x.1 !! i = Some v →
  step_ok (UndoEntry v false) x (delete (Z.of_nat i) x).
Proof.
  destruct x as [h s]. intros [Hcmp Ho Hix Hb] Hv; simpl in Hcmp, Ho, Hix, Hb, Hv.
  pose proof (lookup_lt_Some _ _ _ Hv). set (n := length (values h) - 1).
  destruct (decide (i = n)) as [->|Hne].
  - assert (Hlast : values h = take n (values h) ++ [v]).
    { apply take_length_sub_1. rewrite last_lookup. rewrite <-Hv. f_equal. lia. }
    unfold delete. rewrite decide_False by lia. rewrite Nat2Z.id, Hv. fold n.
    rewrite !decide_True by done. rewrite Hv.
    set (x1 := (set_values (take n (values h)) h, setIndex v (-1) s)).
    apply (moved_step_ok _ (h, s) x1 x1); simpl; auto with hatchet.
    + apply indexed_drop_last. by rewrite <-Hlast.
    + rewrite length_take. lia.
    + by apply ordered_take.
    + rewrite Hlast at 1. by rewrite Permutation_app_comm.
  - rewrite (delete_unfold i h s v) by done. fold n. cbv zeta.
    set (l := list_swap (values h) i n).
    set (x1 := (set_values (take n l) h, setIndex v (-1) (reindex l n (reindex l i s)))).
    assert (Hlen : length l = length (values h)) by apply length_list_swap.
    assert (Hlast : l = take n l ++ [v]).
    { assert (n = length l - 1) as Hnl by lia. rewrite Hnl. apply take_length_sub_1.
      rewrite last_lookup. unfold l at 2. rewrite lookup_list_swap by lia.
      rewrite decide_True; [done|]. lia. }
    destruct (sift_spec i x1) as [Hm Hor]; simpl.
    + done.
    + rewrite length_take. lia.
    + apply hole_swap_last; auto; lia.
    + apply (moved_step_ok _ (h, s) x1 (sift i x1)); simpl; auto.
      * eauto with hatchet.
      * apply indexed_drop_last. rewrite <-Hlast. apply indexed_swap; auto; lia.
      * rewrite length_take. lia.
      * rewrite <-(list_swap_perm (values h) i n). fold l. rewrite Hlast at 1.
        by rewrite Permutation_app_comm.
Qed.

(** *** Popping *)

(** The contract of [pop]: the smallest elements, in order. *)
Record popped (n : nat) x (vs : list T) x' : Prop := {
  po_inv : heap_inv x';
  po_cmp : compare x'.1 = compare x.1;
  po_steps : rtc (λ y y', heap_inv y ∧ ∃ v, step_ok (UndoEntry v false) y y') x x';
  po_perm : values x.1 ≡ₚ vs ++ values x'.1;
  po_len : length vs = n `min` length (values x.1);
  po_sorted : StronglySorted (cmp_le (compare x.1)) vs;
  po_below : ∀ a b, a ∈ vs → b ∈ values x'.1 → a ≤[compare x.1] b
}.

Lemma peek_min x v :
  heap_inv x → peek x.1 = Some v → ∀ w, w ∈ values x.1 → v ≤[compare x.1] w.
Proof.
  intros [Hcmp Ho _ _] Hv w [k Hw]%list_elem_of_lookup. by eapply ordered_root.
Qed.

Lemma pop_loop_spec n x :
  heap_inv x → popped n x (pop_loop n x).1 (pop_loop n x).2.
Proof.
  revert x. induction n as [|n IH]; intros x Hinv; simpl.
  { split; simpl; auto; [apply rtc_refl|constructor|set_solver]. }
  unfold takeMin. destruct (values x.1 !! 0) as [v|] eqn:Hv.
  2:{ apply lookup_ge_None in Hv. split; simpl; auto; [apply rtc_refl| |constructor|set_solver].
      destruct (values x.1); simpl in *; lia. }
  pose proof (delete_spec 0 v x Hinv Hv) as Hst. change (Z.of_nat 0) with 0%Z in Hst.
  pose proof (peek_min x v Hinv Hv) as Hmin.
  set (x1 := delete 0 x) in *. destruct (IH x1) as [Hi Hc Hs Hp Hl Hso Hb].
  { by destruct Hst. }
  destruct (pop_loop n x1) as [vs x2]; simpl in *.
  pose proof (so_perm _ _ _ Hst) as Hp1; simpl in Hp1. rewrite (so_cmp _ _ _ Hst) in *.
  split; simpl.
  - done.
  - done.
  - eapply rtc_l; [|done]. eauto.
  - rewrite Hp1. by constructor.
  - rewrite Hp1. simpl. lia.
  - constructor; [done|]. apply Forall_forall. intros w Hw. apply Hmin.
    rewrite Hp1, Hp. set_solver.
  - intros a b [->|Ha]%elem_of_cons Hb'; [|auto]. apply Hmin. rewrite Hp1, Hp. set_solver.
Qed.

Lemma pop_spec n x :
  heap_inv x → popped (Z.to_nat n) x (pop n x).1 (pop n x).2.
Proof. apply pop_loop_spec. Qed.

(** *** Bulk insertion *)

Lemma heapify_loop_spec i x :
  GoCompare (compare x.1) → ordered_from (compare x.1) (values x.1) i →
  moved x (heapify_loop i x) ∧ ordered (compare x.1) (values (heapify_loop i x).1).
Proof.
  revert x. induction i as [|i IH]; intros x Hcmp Ho; simpl.
  { split; [apply moved_refl|by apply ordered_from_0]. }
  destruct (down_spec i i x) as (Hm & _ & Ho'); [done|done| |].
  { split.
    - intros k Hk Hp Hne. apply Ho; lia.
    - intros Hp k a b Hi. pose proof (parent_lt i Hi). lia. }
  pose proof (moved_compare _ _ Hm) as Hc.
  destruct (IH (down i x).2) as [Hm' Hor]; [by rewrite Hc..|].
  split; [by eapply moved_trans|by rewrite <-Hc].
Qed.

Lemma heapify_spec x :
  GoCompare (compare x.1) →
  moved x (heapify x) ∧ ordered (compare x.1) (values (heapify x).1).
Proof.
  intros Hcmp. apply heapify_loop_spec; [done|]. intros k Hk Hp a b Ha%lookup_lt_Some.
  pose proof (parent_spec k Hk). pose proof (Nat.div_mod_eq (length (values x.1)) 2).
  pose proof (Nat.mod_upper_bound (length (values x.1)) 2). lia.
Qed.

Lemma index_new_spec vs l x :
  indexed l x.2 → (∀ v, v ∈ vs → getIndex v x.2 = None) → NoDup (key <$> vs) →
  (Z.of_nat (length (l ++ vs)) ≤ bound)%Z →
  indexed (l ++ vs) (index_new (length l) vs x).2 ∧
  set_steps x.2 (index_new (length l) vs x).2 ∧
  (index_new (length l) vs x).1 =
    Heap (values x.1) (compare x.1)
      (if recording x.1 then journal x.1 ++ ((λ v, UndoEntry v true) <$> vs)
       else journal x.1) (recording x.1).
Proof.
  revert l x. induction vs as [|v vs IH]; intros l [h s] Hix Hn Hnd Hb; simpl in *.
  { rewrite app_nil_r. split_and!; [done|apply rtc_refl|].
    destruct h as [? ? ? []]; simpl; by rewrite ?app_nil_r. }
  rewrite NoDup_cons in Hnd. destruct Hnd as [Hv Hnd]. rewrite length_app in Hb; simpl in Hb.
  specialize (IH (l ++ [v]) (record (UndoEntry v true) h, setIndex v (Z.of_nat (length l)) s)).
  assert (length (l ++ [v]) = S (length l)) as Hl by (rewrite length_app; simpl; lia).
  rewrite Hl in IH.
  destruct IH as (Hix' & Hst & Heq).
  - apply indexed_push; [done|apply Hn; set_solver|lia].
  - intros w Hw. simpl. rewrite il_frame; [apply Hn; set_solver|].
    intros Hk. apply Hv. rewrite <-Hk. by apply list_elem_of_fmap_2.
  - done.
  - rewrite !length_app; simpl; lia.
  - rewrite <-app_assoc in Hix'. split_and!; [done|eauto with hatchet|].
    rewrite Heq; simpl. rewrite record_values, record_compare, record_recording, record_journal.
    unfold log. destruct (recording h); [|done]. by rewrite <-app_assoc.
Qed.

Lemma insertMany_spec vs x :
  heap_inv x → (∀ v, v ∈ vs → getIndex v x.2 = None) → NoDup (key <$> vs) →
  (Z.of_nat (length (values x.1 ++ vs)) ≤ bound)%Z →
  heap_inv (insertMany vs x) ∧ values (insertMany vs x).1 ≡ₚ values x.1 ++ vs ∧
  journal (insertMany vs x).1 =
    (if recording x.1 then journal x.1 ++ ((λ v, UndoEntry v true) <$> vs)
     else journal x.1) ∧
  recording (insertMany vs x).1 = recording x.1 ∧
  compare (insertMany vs x).1 = compare x.1.
Proof.
  destruct x as [h s]. intros [Hcmp Ho Hix Hb] Hn Hnd Hb'; simpl in *.
  set (x1 := (set_values (values h ++ vs) h, s)).
  destruct (index_new_spec vs (values h) x1) as (Hix' & _ & Heq); [done..|].
  set (x2 := index_new (length (values h)) vs x1) in *.
  assert (Hc : compare x2.1 = compare h) by by rewrite Heq.
  assert (Hv2 : values x2.1 = values h ++ vs) by by rewrite Heq.
  destruct (heapify_spec x2) as [Hm Hor]; [by rewrite Hc|].
  pose proof (moved_compare _ _ Hm) as Hc2. pose proof (moved_length _ _ Hm) as Hl2.
  destruct Hm as [Hctl Hp Hi _]. rewrite Hc, ?Hv2 in *.
  split_and!.
  - split; [by rewrite Hc2|by rewrite Hc2|by apply Hi|by rewrite Hl2].
  - done.
  - rewrite Hctl. simpl. rewrite Heq. done.
  - rewrite Hctl. simpl. by rewrite Heq.
  - done.
Qed.

(** *** Rollback *)

Lemma step_ok_journal base e x x' :
  heap_inv x → step_ok e x x' → recording x.1 = true →
  journal_ok base (journal x.1) (values x.1) →
  journal_ok base (journal x'.1) (values x'.1).
Proof.
  intros Hinv [_ _ _ Hj _ Hp] Hrec Hok. rewrite Hj. unfold log. rewrite Hrec.
  destruct e as [v []]; simpl in *.
  - by eapply jo_add.
  - eapply jo_del; [done|done| |].
    + eapply indexed_nodup. apply Hinv.
    + apply Hinv.
Qed.

Lemma undo_spec base j l :
  journal_ok base j l →
  ∀ x, heap_inv x → recording x.1 = false → values x.1 ≡ₚ l →
  let x' := fold_right undo x j in
  heap_inv x' ∧ values x'.1 ≡ₚ base ∧ compare x'.1 = compare x.1 ∧
  set_steps x.2 x'.2.
Proof.
  induction 1 as [l Hl|j l l' v _ IH Hp|j l l' v _ IH Hp Hnd Hlen];
    intros x Hinv Hrec Hx; simpl.
  - split_and!; [done|by rewrite Hx|done|apply rtc_refl].
  - rewrite fold_right_app; simpl. unfold undo at 2 4 6 8; simpl.
    assert (v ∈ values x.1) as [i Hi]%list_elem_of_lookup by (rewrite Hx, Hp; set_solver).
    rewrite (ix_fwd _ _ (hi_indexed _ Hinv) _ _ Hi).
    destruct (delete_spec i v x Hinv Hi) as [Hinv' Hc Hr _ Hs Hp']; simpl in Hp'.
    destruct (IH (delete (Z.of_nat i) x)) as (? & ? & Hc' & ?).
    + done.
    + by rewrite Hr.
    + apply (Permutation_cons_inv (a := v)). by rewrite <-Hp', Hx.
    + split_and!; [done|done|by rewrite Hc'|eauto with hatchet].
  - rewrite fold_right_app; simpl. unfold undo at 2 4 6 8; simpl.
    assert (Hlen' : length l = S (length l')) by by rewrite Hp.
    destruct (insert_spec v x Hinv) as [Hinv' Hc Hr _ Hs Hp']; simpl in *.
    { rewrite (indexed_fresh _ _ _ (hi_indexed _ Hinv)), Hx.
      rewrite Hp in Hnd. by apply NoDup_cons in Hnd as []. }
    { rewrite Hx. by rewrite <-Hlen'. }
    destruct (IH (insert v x)) as (? & ? & Hc' & ?).
    + done.
    + by rewrite Hr.
    + by rewrite Hp', Hx, Hp.
    + split_and!; [done|done|by rewrite Hc'|eauto with hatchet].
Qed.

Lemma rollback_spec base x :
  heap_inv x → journal_ok base (journal x.1) (values x.1) →
  heap_inv (rollback x) ∧ values (rollback x).1 ≡ₚ base ∧
  compare (rollback x).1 = compare x.1 ∧ recording (rollback x).1 = false ∧
  journal (rollback x).1 = [] ∧ set_steps x.2 (rollback x).2.
Proof.
  destruct x as [h s]. intros Hinv Hok; simpl in Hok. unfold rollback.
  destruct (undo_spec base (journal h) (values h) Hok
    (Heap (values h) (compare h) (journal h) false, s)) as (Hi & Hp & Hc & Hs).
  - destruct Hinv as [? ? ? ?]. by split.
  - done.
  - done.
  - destruct (fold_right _ _ _) as [h' s']; simpl in *.
    split_and!; [|done..]. destruct Hi. by split.
Qed.

Lemma heap_inv_frame h s s' :
  (∀ v : T, getIndex v s' = getIndex v s) → heap_inv (h, s) → heap_inv (h, s').
Proof.
  intros Hg [Hc Ho [Hf Hb] Hl]. split; simpl in *; auto.
  split; intros; rewrite ?Hg in *; eauto.
Qed.

Lemma begin_inv h s : heap_inv (h, s) → heap_inv (begin h, s).
Proof. intros []. by split. Qed.

Lemma commit_inv h s : heap_inv (h, s) → heap_inv (commit h, s).
Proof. intros []. by split. Qed.

Lemma up_loop_fuel f f' i (x : heap T * I) : i ≤ f → i ≤ f' → up_loop f i x = up_loop f' i x.
Proof.
  revert f' i x. induction f as [|f IH]; intros [|f'] i x Hf Hf'; simpl.
  - done.
  - by rewrite decide_True by lia.
  - by rewrite decide_True by lia.
  - destruct (decide (i = 0)); [done|]. destruct (values x.1 !! i), (values x.1 !! parent i); try done.
    destruct (0 <=? _)%Z; [done|]. pose proof (parent_lt i ltac:(lia)). apply IH; lia.
Qed.

Lemma length_swap i j (x : heap T * I) : length (values (swap i j x).1) = length (values x.1).
Proof. destruct x. apply length_list_swap. Qed.

Lemma smaller_child_gt (h : heap T) i : i < smaller_child h i.
Proof.
  unfold smaller_child. destruct (values h !! (2 * i + 1 + 1)), (values h !! (2 * i + 1));
    try destruct (_ <? _)%Z; lia.
Qed.

Lemma down_loop_ge f i (x : heap T * I) : i ≤ (down_loop f i x).1.
Proof.
  revert i x. induction f as [|f IH]; intros i x; simpl; [done|].
  destruct (decide _); [done|].
  destruct (values x.1 !! smaller_child x.1 i), (values x.1 !! i); try done. destruct (0 <=? _)%Z; [done|]. pose proof (smaller_child_gt x.1 i). etrans; [|apply IH]. lia.
Qed.

Lemma down_loop_fuel f f' i (x : heap T * I) :
  length (values x.1) ≤ f + i → length (values x.1) ≤ f' + i → down_loop f i x = down_loop f' i x.
Proof.
  revert f' i x. induction f as [|f IH]; intros [|f'] i x Hf Hf'; simpl.
  - done.
  - by rewrite decide_True by lia.
  - by rewrite decide_True by lia.
  - destruct (decide (length (values x.1) ≤ _)); [done|].
    destruct (values x.1 !! smaller_child x.1 i), (values x.1 !! i); try done.
    destruct (0 <=? _)%Z; [done|]. pose proof (smaller_child_gt x.1 i).
    apply IH; rewrite length_swap; lia.
Qed.

(** The loops of [up] and [down] terminate for every comparator and every array, ordered or not:
    [up] within as many iterations as the index, [down] within as many as the elements, so that more
    fuel changes nothing. *)
Theorem heap_loops_terminate extra i (x : heap T * I) :
  up_loop (i + extra) i x = up i x ∧
  down_loop (length (values x.1) + extra) i x = down_loop (length (values x.1)) i x ∧
  i ≤ (down_loop (length (values x.1)) i x).1.
Proof.
  split_and!; [apply up_loop_fuel; lia|apply down_loop_fuel; lia|apply down_loop_ge].
Qed.
End spec.

#[global] Arguments rollback : simpl never.
#[global] Arguments insert : simpl never.
#[global] Arguments delete : simpl never.
#[global] Arguments pop : simpl never.
#[global] Arguments insertMany : simpl never.

End Heap.
