(* ===== verification/SlotIndex.v ===== *)
(** * The in-memory slot index

    Models pkg/scheduling/v1/concurrency/slot.go and index.go: the index of
    the concurrency slots of one key. Two heaps share one map of positions:
    [priorityQueue] orders the slots, [timedOutQueue] (absent when timeouts
    are not tracked) orders their schedule timeouts, and [byTaskID] holds, per
    task, the one-based position in each heap. *)

From S2P Require Import Prelude IndexedHeap.

Module SlotIndex.

(** ** Data *)

(** A concurrency slot; all fields are machine integers (int64 and int32). *)
Record slot := Slot {
  taskId : Z;
  taskInsertedAtNs : Z;
  scheduleTimeoutAtMs : Z;
  priority : Z;
  taskRetryCount : Z
}.

Record timeoutEntry := TimeoutEntry { te_taskId : Z; te_timeoutAtMs : Z }.

(** One-based positions; zero means absent. *)
Record slotLocation := SlotLocation { priIdx : Z; toIdx : Z }.

Record inMemorySlotIndex := SlotIndex {
  priorityQueue : Heap.heap slot;
  timedOutQueue : option (Heap.heap timeoutEntry);
  byTaskID : gmap Z slotLocation
}.

#[global] Instance slot_eq_dec : EqDecision slot.
Proof. solve_decision. Defined.
#[global] Instance timeoutEntry_eq_dec : EqDecision timeoutEntry.
Proof. solve_decision. Defined.
#[global] Instance slotLocation_eq_dec : EqDecision slotLocation.
Proof. solve_decision. Defined.

(** ** Orderings *)

Definition priorityCompare (a b : slot) : Z :=
  if decide (priority a ≠ priority b) then cmpZ (priority b) (priority a)
  else if decide (taskInsertedAtNs a ≠ taskInsertedAtNs b)
  then cmpZ (taskInsertedAtNs a) (taskInsertedAtNs b)
  else cmpZ (taskId a) (taskId b).

Definition cancelQueuedExceptCompare (a b : slot) : Z :=
  if decide (taskInsertedAtNs a ≠ taskInsertedAtNs b)
  then cmpZ (taskInsertedAtNs a) (taskInsertedAtNs b)
  else cmpZ (taskId a) (taskId b).

Definition cancelInProgressCompare (a b : slot) : Z :=
  if decide (priority a ≠ priority b) then cmpZ (priority b) (priority a)
  else if decide (taskInsertedAtNs a ≠ taskInsertedAtNs b)
  then cmpZ (taskInsertedAtNs b) (taskInsertedAtNs a)
  else cmpZ (taskId b) (taskId a).

Definition reverseCompare (c : slot → slot → Z) : slot → slot → Z := λ a b, c b a.

Definition timedOutCompare (a b : timeoutEntry) : Z :=
  if decide (te_timeoutAtMs a ≠ te_timeoutAtMs b)
  then cmpZ (te_timeoutAtMs a) (te_timeoutAtMs b)
  else cmpZ (te_taskId a) (te_taskId b).

(** ** The position map *)

Definition zeroLocation : slotLocation := SlotLocation 0 0.

Definition priorityIndex (id : Z) (m : gmap Z slotLocation) : option Z :=
  match m !! id with
  | None => None
  | Some loc => if decide (priIdx loc = 0%Z) then None else Some (priIdx loc - 1)%Z
  end.

Definition timeoutIndex (id : Z) (m : gmap Z slotLocation) : option Z :=
  match m !! id with
  | None => None
  | Some loc => if decide (toIdx loc = 0%Z) then None else Some (toIdx loc - 1)%Z
  end.

(** Store a location, or drop the entry once the task is in neither heap. *)
Definition putLocation (id : Z) (loc : slotLocation) (m : gmap Z slotLocation) :
    gmap Z slotLocation :=
  if decide (priIdx loc = 0%Z ∧ toIdx loc = 0%Z) then delete id m else <[id := loc]> m.

Definition setPriorityIndex (id : Z) (i : Z) (m : gmap Z slotLocation) : gmap Z slotLocation :=
  let loc := default zeroLocation (m !! id) in
  putLocation id (SlotLocation (to_int32 (i + 1)) (toIdx loc)) m.

Definition setTimeoutIndex (id : Z) (i : Z) (m : gmap Z slotLocation) : gmap Z slotLocation :=
  let loc := default zeroLocation (m !! id) in
  putLocation id (SlotLocation (priIdx loc) (to_int32 (i + 1))) m.

(** The callbacks of the two heaps. *)
#[global] Instance priorityOps : Heap.IndexOps slot (gmap Z slotLocation) := {
  setIndex s i m := setPriorityIndex (taskId s) i m;
  getIndex s m := priorityIndex (taskId s) m
}.

#[global] Instance timeoutOps : Heap.IndexOps timeoutEntry (gmap Z slotLocation) := {
  setIndex e i m := setTimeoutIndex (te_taskId e) i m;
  getIndex e m := timeoutIndex (te_taskId e) m
}.

(** ** Operations *)

Definition newInMemorySlotIndexWithCompare (trackTimeouts : bool)
    (cmp : slot → slot → Z) : inMemorySlotIndex :=
  SlotIndex (Heap.newHeap cmp)
    (if trackTimeouts then Some (Heap.newHeap timedOutCompare) else None) ∅.

Definition newInMemorySlotIndex (trackTimeouts : bool) : inMemorySlotIndex :=
  newInMemorySlotIndexWithCompare trackTimeouts priorityCompare.

(** Run a heap operation on the priority queue, or on the timeout queue when
    it is tracked, with the shared position map. *)
Definition onPriority
    (f : Heap.heap slot * gmap Z slotLocation → Heap.heap slot * gmap Z slotLocation)
    (q : inMemorySlotIndex) : inMemorySlotIndex :=
  let '(h, m) := f (priorityQueue q, byTaskID q) in
  SlotIndex h (timedOutQueue q) m.

Definition onTimeout
    (f : Heap.heap timeoutEntry * gmap Z slotLocation →
         Heap.heap timeoutEntry * gmap Z slotLocation)
    (q : inMemorySlotIndex) : inMemorySlotIndex :=
  match timedOutQueue q with
  | None => q
  | Some h => let '(h', m) := f (h, byTaskID q) in
              SlotIndex (priorityQueue q) (Some h') m
  end.

Definition removeFromPriority (id : Z) (q : inMemorySlotIndex) : inMemorySlotIndex :=
  match priorityIndex id (byTaskID q) with
  | Some i => onPriority (Heap.delete i) q
  | None => q
  end.

Definition removeFromTimedOut (id : Z) (q : inMemorySlotIndex) : inMemorySlotIndex :=
  match timedOutQueue q with
  | None => q
  | Some _ =>
      match timeoutIndex id (byTaskID q) with
      | Some i => onTimeout (Heap.delete i) q
      | None => q
      end
  end.

Definition entryOf (s : slot) : timeoutEntry := TimeoutEntry (taskId s) (scheduleTimeoutAtMs s).

Definition insert (s : slot) (q : inMemorySlotIndex) : inMemorySlotIndex :=
  let q := removeFromPriority (taskId s) q in
  let q := removeFromTimedOut (taskId s) q in
  let q := onPriority (Heap.insert s) q in
  onTimeout (Heap.insert (entryOf s)) q.

(** The slot at position [i] of the priority queue ([q.priorityQueue.values[i]]). *)
Definition slotAt (q : inMemorySlotIndex) (i : Z) : option slot :=
  Heap.values (priorityQueue q) !! Z.to_nat i.

(** The remaining operations accept a nil index. *)
Definition delete (id : Z) (oq : option inMemorySlotIndex) :
    option slot * option inMemorySlotIndex :=
  match oq with
  | None => (None, None)
  | Some q =>
      match priorityIndex id (byTaskID q) with
      | None => (None, Some q)
      | Some i =>
          (slotAt q i, Some (removeFromTimedOut id (onPriority (Heap.delete i) q)))
      end
  end.

Definition get (id : Z) (oq : option inMemorySlotIndex) : option slot :=
  match oq with
  | None => None
  | Some q =>
      match priorityIndex id (byTaskID q) with
      | None => None
      | Some i => slotAt q i
      end
  end.

(** The loop of [popTimedOut]: every iteration removes an entry of the
    timeout queue, whose length is the fuel. *)
Fixpoint popTimedOut_loop (fuel : nat) (nowMs : Z) (q : inMemorySlotIndex) :
    list slot * inMemorySlotIndex :=
  match fuel with
  | 0 => ([], q)
  | S fuel =>
      match timedOutQueue q with
      | None => ([], q)
      | Some th =>
          match Heap.peek th with
          | None => ([], q)
          | Some e =>
              if (nowMs <? te_timeoutAtMs e)%Z then ([], q) else
              (* [takeMin]: the queue is not empty *)
              let q1 := onTimeout (Heap.delete 0) q in
              match priorityIndex (te_taskId e) (byTaskID q1) with
              | None => popTimedOut_loop fuel nowMs q1
              | Some i =>
                  let '(rest, q') :=
                    popTimedOut_loop fuel nowMs (onPriority (Heap.delete i) q1) in
                  (option_list (slotAt q1 i) ++ rest, q')
              end
          end
      end
  end.

(** [time.Time] values are nanoseconds since the epoch; [UnixMilli] floors. *)
Definition UnixMilli (now : Z) : Z := (now / 1000000)%Z.

Definition popTimedOut (now : Z) (oq : option inMemorySlotIndex) :
    list slot * option inMemorySlotIndex :=
  match oq with
  | None => ([], None)
  | Some q =>
      match timedOutQueue q with
      | None => ([], Some q)
      | Some th =>
          let '(vs, q') := popTimedOut_loop (Heap.len th) (UnixMilli now) q in
          (vs, Some q')
      end
  end.

Definition pop (n : Z) (oq : option inMemorySlotIndex) :
    list slot * option inMemorySlotIndex :=
  match oq with
  | None => ([], None)
  | Some q =>
      let '(popped, (h, m)) := Heap.pop n (priorityQueue q, byTaskID q) in
      let q1 := SlotIndex h (timedOutQueue q) m in
      (popped, Some (foldl (λ q s, removeFromTimedOut (taskId s) q) q1 popped))
  end.

Definition peek (oq : option inMemorySlotIndex) : option slot :=
  match oq with
  | None => None
  | Some q => Heap.peek (priorityQueue q)
  end.

Definition len (oq : option inMemorySlotIndex) : nat :=
  match oq with
  | None => 0
  | Some q => Heap.len (priorityQueue q)
  end.

Definition begin (q : inMemorySlotIndex) : inMemorySlotIndex :=
  SlotIndex (Heap.begin (priorityQueue q)) (Heap.begin <$> timedOutQueue q) (byTaskID q).

Definition commit (q : inMemorySlotIndex) : inMemorySlotIndex :=
  SlotIndex (Heap.commit (priorityQueue q)) (Heap.commit <$> timedOutQueue q) (byTaskID q).

Definition rollback (q : inMemorySlotIndex) : inMemorySlotIndex :=
  onTimeout Heap.rollback (onPriority Heap.rollback q).

(** ** The orderings are total *)

Ltac solve_cmp :=
  repeat match goal with
         | |- context [decide ?P] => destruct (decide P)
         | H : context [decide ?P] |- _ => destruct (decide P)
         end;
  rewrite ?cmpZ_lt, ?cmpZ_gt, ?cmpZ_le, ?cmpZ_eq in *; lia.

#[global] Instance priorityCompare_ok : GoCompare priorityCompare.
Proof.
  split; unfold priorityCompare.
  - intros a. solve_cmp.
  - intros a b. solve_cmp.
  - intros a b c Hab Hbc. solve_cmp.
Qed.

#[global] Instance cancelQueuedExceptCompare_ok : GoCompare cancelQueuedExceptCompare.
Proof.
  split; unfold cancelQueuedExceptCompare.
  - intros a. solve_cmp.
  - intros a b. solve_cmp.
  - intros a b c Hab Hbc. solve_cmp.
Qed.

#[global] Instance cancelInProgressCompare_ok : GoCompare cancelInProgressCompare.
Proof.
  split; unfold cancelInProgressCompare.
  - intros a. solve_cmp.
  - intros a b. solve_cmp.
  - intros a b c Hab Hbc. solve_cmp.
Qed.

#[global] Instance timedOutCompare_ok : GoCompare timedOutCompare.
Proof.
  split; unfold timedOutCompare.
  - intros a. solve_cmp.
  - intros a b. solve_cmp.
  - intros a b c Hab Hbc. solve_cmp.
Qed.

#[global] Instance reverseCompare_ok c `{!GoCompare c} : GoCompare (reverseCompare c).
Proof.
  split; unfold reverseCompare.
  - intros a. apply gc_refl.
  - intros a b. apply gc_sym.
  - intros a b d Hab Hbc. by eapply gc_trans.
Qed.

(** ** The position map *)

(** A heap never holds more slots than an int32 index can count. *)
Definition maxSlots : Z := 2 ^ 31 - 1.

Lemma lookup_putLocation id loc m j :
  putLocation id loc m !! j =
    if decide (id = j) then
      if decide (priIdx loc = 0%Z ∧ toIdx loc = 0%Z) then None else Some loc
    else m !! j.
Proof.
  unfold putLocation. repeat case_decide; subst;
    rewrite ?lookup_delete_eq, ?lookup_delete_ne, ?lookup_insert_eq, ?lookup_insert_ne; done.
Qed.

(** The stored positions as total functions: zero means absent. *)
Definition priOf (m : gmap Z slotLocation) (id : Z) : Z := default 0%Z (priIdx <$> m !! id).
Definition toOf (m : gmap Z slotLocation) (id : Z) : Z := default 0%Z (toIdx <$> m !! id).

Lemma priorityIndex_alt id m :
  priorityIndex id m = if decide (priOf m id = 0%Z) then None else Some (priOf m id - 1)%Z.
Proof. unfold priorityIndex, priOf. destruct (m !! id); simpl; repeat case_decide; done. Qed.

Lemma timeoutIndex_alt id m :
  timeoutIndex id m = if decide (toOf m id = 0%Z) then None else Some (toOf m id - 1)%Z.
Proof. unfold timeoutIndex, toOf. destruct (m !! id); simpl; repeat case_decide; done. Qed.

Lemma priOf_setPriority id i m j :
  priOf (setPriorityIndex id i m) j = if decide (id = j) then to_int32 (i + 1) else priOf m j.
Proof.
  unfold setPriorityIndex, priOf. rewrite lookup_putLocation. simpl.
  repeat case_decide; simpl; naive_solver.
Qed.

Lemma toOf_setPriority id i m j : toOf (setPriorityIndex id i m) j = toOf m j.
Proof.
  unfold setPriorityIndex, toOf. rewrite lookup_putLocation. simpl.
  repeat case_decide; subst; simpl; destruct (m !! _); naive_solver.
Qed.

Lemma toOf_setTimeout id i m j :
  toOf (setTimeoutIndex id i m) j = if decide (id = j) then to_int32 (i + 1) else toOf m j.
Proof.
  unfold setTimeoutIndex, toOf. rewrite lookup_putLocation. simpl.
  repeat case_decide; simpl; naive_solver.
Qed.

Lemma priOf_setTimeout id i m j : priOf (setTimeoutIndex id i m) j = priOf m j.
Proof.
  unfold setTimeoutIndex, priOf. rewrite lookup_putLocation. simpl.
  repeat case_decide; subst; simpl; destruct (m !! _); naive_solver.
Qed.

(** The callbacks satisfy what the heap requires of them, up to the int32
    range. *)
#[global] Instance priorityLaws : Heap.IndexLaws taskId maxSlots.
Proof.
  split; unfold Heap.getIndex, Heap.setIndex, priorityOps, maxSlots.
  - by intros v w m ->.
  - intros v w i m Hi ->. rewrite priorityIndex_alt, priOf_setPriority.
    rewrite (decide_True (P := taskId w = taskId w)) by done. rewrite to_int32_small by lia.
    rewrite decide_False by lia. f_equal. lia.
  - intros v w m ->. rewrite priorityIndex_alt, priOf_setPriority.
    by rewrite (decide_True (P := taskId w = taskId w)).
  - intros v w i m Hk. rewrite !priorityIndex_alt, priOf_setPriority.
    by rewrite (decide_False (P := taskId w = taskId v)).
Qed.

#[global] Instance timeoutLaws : Heap.IndexLaws te_taskId maxSlots.
Proof.
  split; unfold Heap.getIndex, Heap.setIndex, timeoutOps, maxSlots.
  - by intros v w m ->.
  - intros v w i m Hi ->. rewrite timeoutIndex_alt, toOf_setTimeout.
    rewrite (decide_True (P := te_taskId w = te_taskId w)) by done. rewrite to_int32_small by lia.
    rewrite decide_False by lia. f_equal. lia.
  - intros v w m ->. rewrite timeoutIndex_alt, toOf_setTimeout.
    by rewrite (decide_True (P := te_taskId w = te_taskId w)).
  - intros v w i m Hk. rewrite !timeoutIndex_alt, toOf_setTimeout.
    by rewrite (decide_False (P := te_taskId w = te_taskId v)).
Qed.

(** No entry of the map is empty. *)
Definition map_tight (m : gmap Z slotLocation) : Prop :=
  ∀ id loc, m !! id = Some loc → priIdx loc ≠ 0%Z ∨ toIdx loc ≠ 0%Z.

Lemma putLocation_tight id loc m : map_tight m → map_tight (putLocation id loc m).
Proof.
  intros Hm j loc'. rewrite lookup_putLocation. repeat case_decide; intros; simplify_eq.
  - lia.
  - by eapply Hm.
Qed.

Lemma pri_steps_frame (m m' : gmap Z slotLocation) :
  Heap.set_steps (T := slot) m m' →
  (∀ id, timeoutIndex id m' = timeoutIndex id m) ∧ (∀ id, toOf m' id = toOf m id) ∧
  (map_tight m → map_tight m').
Proof.
  induction 1 as [m|m m1 m' (v & i & ->) _ (IH1 & IH2 & IH3)]; [done|].
  assert (∀ id, toOf (Heap.setIndex v i m) id = toOf m id) as Hto.
  { intros id. apply toOf_setPriority. }
  split_and!.
  - intros id. rewrite IH1, !timeoutIndex_alt. by rewrite Hto.
  - intros id. by rewrite IH2.
  - intros Hm. apply IH3. by apply putLocation_tight.
Qed.

Lemma to_steps_frame (m m' : gmap Z slotLocation) :
  Heap.set_steps (T := timeoutEntry) m m' →
  (∀ id, priorityIndex id m' = priorityIndex id m) ∧ (map_tight m → map_tight m').
Proof.
  induction 1 as [m|m m1 m' (v & i & ->) _ (IH1 & IH3)]; [done|]. split_and!.
  - intros id. rewrite IH1, !priorityIndex_alt. unfold Heap.setIndex, timeoutOps.
    by rewrite priOf_setTimeout.
  - intros Hm. apply IH3. by apply putLocation_tight.
Qed.

(** ** Invariant *)

(** The members of the index, by task id. *)
Definition contents (q : inMemorySlotIndex) : gmap Z slot :=
  kmap taskId (Heap.values (priorityQueue q)).

(** Both heaps are well-formed and the map holds exactly their positions. *)
Record idx_loose (q : inMemorySlotIndex) : Prop := {
  lo_pri : Heap.heap_inv taskId maxSlots (priorityQueue q, byTaskID q);
  lo_to : ∀ th, timedOutQueue q = Some th →
    Heap.heap_inv te_taskId maxSlots (th, byTaskID q) ∧
    Heap.compare th = timedOutCompare;
  lo_none : timedOutQueue q = None → ∀ id, toOf (byTaskID q) id = 0%Z;
  lo_tight : map_tight (byTaskID q)
}.

(** The timeout queue holds one entry per slot. *)
Definition in_sync (q : inMemorySlotIndex) : Prop :=
  ∀ th, timedOutQueue q = Some th →
    Heap.values th ≡ₚ entryOf <$> Heap.values (priorityQueue q).

Record idx_inv (q : inMemorySlotIndex) : Prop := {
  ii_loose : idx_loose q;
  ii_sync : in_sync q
}.

(** One membership change of one of the two heaps. *)
Inductive idx_step (q q' : inMemorySlotIndex) : Prop :=
| is_pri e :
    Heap.step_ok taskId maxSlots e
      (priorityQueue q, byTaskID q) (priorityQueue q', byTaskID q') →
    timedOutQueue q' = timedOutQueue q → idx_step q q'
| is_to e th th' :
    timedOutQueue q = Some th → timedOutQueue q' = Some th' →
    Heap.step_ok te_taskId maxSlots e (th, byTaskID q) (th', byTaskID q') →
    priorityQueue q' = priorityQueue q → idx_step q q'.

(** A sequence of changes from well-formed states. *)
Definition idx_steps : relation inMemorySlotIndex :=
  rtc (λ q q', idx_loose q ∧ idx_step q q').

Lemma idx_step_loose q q' : idx_loose q → idx_step q q' → idx_loose q'.
Proof.
  intros [Hp Ht Hn Hm] [e Hst Hto|e th th' Hth Hth' Hst Hpq].
  - destruct (pri_steps_frame _ _ (Heap.so_steps _ _ _ _ _ Hst)) as (Hf & Hof & Htight).
    split.
    + apply (Heap.so_inv _ _ _ _ _ Hst).
    + intros th. rewrite Hto. intros Hth. destruct (Ht th Hth) as [Hi Hc]. split; [|done].
      eapply Heap.heap_inv_frame; [|done]. intros v. apply Hf.
    + rewrite Hto. intros Hnone id. simpl in Hof. rewrite Hof. auto.
    + auto.
  - destruct (to_steps_frame _ _ (Heap.so_steps _ _ _ _ _ Hst)) as (Hf & Htight).
    split.
    + rewrite Hpq. eapply Heap.heap_inv_frame; [|done]. intros v. apply Hf.
    + intros th2. rewrite Hth'. intros [= <-]. split.
      * apply (Heap.so_inv _ _ _ _ _ Hst).
      * pose proof (Heap.so_cmp _ _ _ _ _ Hst) as Hc; simpl in Hc. rewrite Hc. apply (Ht th Hth).
    + rewrite Hth'. done.
    + auto.
Qed.

Lemma idx_steps_loose q q' : idx_loose q → idx_steps q q' → idx_loose q'.
Proof. intros Hq. induction 1 as [|q q1 q2 [_ Hs] _ IH]; eauto using idx_step_loose. Qed.

Lemma idx_steps_one q q' : idx_loose q → idx_step q q' → idx_steps q q'.
Proof. intros. by apply rtc_once. Qed.

Lemma idx_steps_trans q1 q2 q3 : idx_steps q1 q2 → idx_steps q2 q3 → idx_steps q1 q3.
Proof. unfold idx_steps. intros. by etrans. Qed.

Lemma idx_steps_compare q q' :
  idx_steps q q' → Heap.compare (priorityQueue q') = Heap.compare (priorityQueue q).
Proof.
  induction 1 as [|q q1 q2 [_ Hs] _ IH]; [done|]. rewrite IH.
  destruct Hs as [e Hst _|e th th' _ _ _ ->]; [|done]. apply (Heap.so_cmp _ _ _ _ _ Hst).
Qed.

Lemma loose_nodup q : idx_loose q → NoDup (taskId <$> Heap.values (priorityQueue q)).
Proof.
  intros Hq. eapply (Heap.indexed_nodup taskId maxSlots). apply (lo_pri _ Hq).
Qed.

Lemma loose_nodup_to q th :
  idx_loose q → timedOutQueue q = Some th → NoDup (te_taskId <$> Heap.values th).
Proof.
  intros Hq Hth. eapply (Heap.indexed_nodup te_taskId maxSlots).
  apply (lo_to _ Hq th Hth).
Qed.

(** Looking a task up through the position map. *)
Lemma priorityIndex_Some q id i :
  idx_loose q → priorityIndex id (byTaskID q) = Some i →
  ∃ (n : nat) s, i = Z.of_nat n ∧ Heap.values (priorityQueue q) !! n = Some s ∧ taskId s = id.
Proof.
  intros Hq Hi.
  destruct (Heap.ix_bwd _ _ _ (Heap.hi_indexed _ _ _ (lo_pri _ Hq)) (Slot id 0 0 0 0) i Hi)
    as (n & s & -> & Hs & Hk). eauto.
Qed.

Lemma priorityIndex_None q id :
  idx_loose q → priorityIndex id (byTaskID q) = None ↔
  id ∉ taskId <$> Heap.values (priorityQueue q).
Proof.
  intros Hq.
  exact (Heap.indexed_fresh taskId maxSlots (Heap.values (priorityQueue q)) (byTaskID q)
           (Slot id 0 0 0 0) (Heap.hi_indexed _ _ _ (lo_pri _ Hq))).
Qed.

Lemma timeoutIndex_Some q th id i :
  idx_loose q → timedOutQueue q = Some th → timeoutIndex id (byTaskID q) = Some i →
  ∃ (n : nat) e, i = Z.of_nat n ∧ Heap.values th !! n = Some e ∧ te_taskId e = id.
Proof.
  intros Hq Hth Hi. destruct (lo_to _ Hq th Hth) as [Hinv _].
  destruct (Heap.ix_bwd _ _ _ (Heap.hi_indexed _ _ _ Hinv) (TimeoutEntry id 0) i Hi)
    as (n & s & -> & Hs & Hk). eauto.
Qed.

Lemma timeoutIndex_None q th id :
  idx_loose q → timedOutQueue q = Some th → timeoutIndex id (byTaskID q) = None ↔
  id ∉ te_taskId <$> Heap.values th.
Proof.
  intros Hq Hth. destruct (lo_to _ Hq th Hth) as [Hinv _].
  exact (Heap.indexed_fresh te_taskId maxSlots (Heap.values th) (byTaskID q)
           (TimeoutEntry id 0) (Heap.hi_indexed _ _ _ Hinv)).
Qed.

(** *** Heap operations lifted to the index *)

Lemma pri_delete q (n : nat) s :
  idx_loose q → Heap.values (priorityQueue q) !! n = Some s →
  let q' := onPriority (Heap.delete (Z.of_nat n)) q in
  idx_steps q q' ∧ timedOutQueue q' = timedOutQueue q ∧
  Heap.values (priorityQueue q') ≡ₚ
    filter (λ s', taskId s' ≠ taskId s) (Heap.values (priorityQueue q)).
Proof.
  intros Hq Hs. pose proof (loose_nodup q Hq) as Hnd. unfold onPriority.
  pose proof (Heap.delete_spec taskId maxSlots n s _ (lo_pri _ Hq) Hs) as Hst.
  destruct (Heap.delete _ _) as [h m]. split_and!; [|done|].
  - apply idx_steps_one; [done|]. by eapply is_pri.
  - eapply perm_cons_filter; [done|]. apply (Heap.so_perm _ _ _ _ _ Hst).
Qed.

Lemma to_delete q th (n : nat) e :
  idx_loose q → timedOutQueue q = Some th → Heap.values th !! n = Some e →
  let q' := onTimeout (Heap.delete (Z.of_nat n)) q in
  idx_steps q q' ∧ priorityQueue q' = priorityQueue q ∧
  ∃ th', timedOutQueue q' = Some th' ∧
    Heap.values th' ≡ₚ filter (λ e', te_taskId e' ≠ te_taskId e) (Heap.values th).
Proof.
  intros Hq Hth He. pose proof (loose_nodup_to q th Hq Hth) as Hnd.
  unfold onTimeout. rewrite Hth. destruct (lo_to _ Hq th Hth) as [Hinv _].
  pose proof (Heap.delete_spec te_taskId maxSlots n e _ Hinv He) as Hst.
  destruct (Heap.delete _ _) as [h m]. split_and!; [|done|].
  - apply idx_steps_one; [done|]. by eapply is_to.
  - exists h. split; [done|]. eapply perm_cons_filter; [done|].
    apply (Heap.so_perm _ _ _ _ _ Hst).
Qed.

Lemma pri_insert q s :
  idx_loose q → taskId s ∉ taskId <$> Heap.values (priorityQueue q) →
  (Z.of_nat (S (length (Heap.values (priorityQueue q)))) ≤ maxSlots)%Z →
  let q' := onPriority (Heap.insert s) q in
  idx_steps q q' ∧ timedOutQueue q' = timedOutQueue q ∧
  Heap.values (priorityQueue q') ≡ₚ s :: Heap.values (priorityQueue q).
Proof.
  intros Hq Hs Hb. unfold onPriority.
  pose proof (Heap.insert_spec taskId maxSlots s _ (lo_pri _ Hq)) as Hst.
  destruct (Heap.insert _ _) as [h m]. destruct Hst as [].
  - by apply (priorityIndex_None q).
  - done.
  - split_and!; [|done|done]. apply idx_steps_one; [done|]. eapply is_pri; [|done].
    by split.
Qed.

Lemma to_insert q th e :
  idx_loose q → timedOutQueue q = Some th → te_taskId e ∉ te_taskId <$> Heap.values th →
  (Z.of_nat (S (length (Heap.values th))) ≤ maxSlots)%Z →
  let q' := onTimeout (Heap.insert e) q in
  idx_steps q q' ∧ priorityQueue q' = priorityQueue q ∧
  ∃ th', timedOutQueue q' = Some th' ∧ Heap.values th' ≡ₚ e :: Heap.values th.
Proof.
  intros Hq Hth He Hb. unfold onTimeout. rewrite Hth. destruct (lo_to _ Hq th Hth) as [Hinv _].
  pose proof (Heap.insert_spec te_taskId maxSlots e _ Hinv) as Hst.
  destruct (Heap.insert _ _) as [h m]. destruct Hst as [].
  - by apply (timeoutIndex_None q th).
  - done.
  - split_and!; [|done|]. 
    + apply idx_steps_one; [done|]. eapply is_to; [done|done| |done]. by split.
    + exists h. done.
Qed.

(** *** The operations of the index *)

(** The timeout queue of [q'] is the one of [q] with [f] applied to its
    members. *)
Definition to_upd (f : list timeoutEntry → list timeoutEntry) (q q' : inMemorySlotIndex) : Prop :=
  match timedOutQueue q with
  | None => timedOutQueue q' = None
  | Some th => ∃ th', timedOutQueue q' = Some th' ∧ Heap.values th' ≡ₚ f (Heap.values th)
  end.

Lemma removeFromPriority_spec q id :
  idx_loose q →
  let q' := removeFromPriority id q in
  idx_steps q q' ∧ timedOutQueue q' = timedOutQueue q ∧
  Heap.values (priorityQueue q') ≡ₚ
    filter (λ s, taskId s ≠ id) (Heap.values (priorityQueue q)).
Proof.
  intros Hq. unfold removeFromPriority.
  destruct (priorityIndex id (byTaskID q)) as [i|] eqn:Hi.
  - destruct (priorityIndex_Some _ _ _ Hq Hi) as (n & s & -> & Hs & <-).
    by apply pri_delete.
  - apply priorityIndex_None in Hi; [|done]. split_and!; [apply rtc_refl|done|].
    rewrite filter_all; [done|]. intros s Hs <-. apply Hi. by apply list_elem_of_fmap_2.
Qed.

Lemma removeFromTimedOut_spec q id :
  idx_loose q →
  let q' := removeFromTimedOut id q in
  idx_steps q q' ∧ priorityQueue q' = priorityQueue q ∧
  to_upd (filter (λ e, te_taskId e ≠ id)) q q'.
Proof.
  intros Hq. unfold removeFromTimedOut, to_upd.
  destruct (timedOutQueue q) as [th|] eqn:Hth; [|split_and!; [apply rtc_refl|done..]].
  destruct (timeoutIndex id (byTaskID q)) as [i|] eqn:Hi.
  - destruct (timeoutIndex_Some _ _ _ _ Hq Hth Hi) as (n & e & -> & He & <-).
    by apply to_delete.
  - apply (timeoutIndex_None q th) in Hi; [|done..]. split_and!; [apply rtc_refl|done|].
    exists th. split; [done|]. rewrite filter_all; [done|]. intros e He <-. apply Hi.
    by apply list_elem_of_fmap_2.
Qed.

Lemma sync_filter_ne q l th (id : Z) :
  in_sync q → timedOutQueue q = Some th →
  l ≡ₚ filter (λ e, te_taskId e ≠ id) (Heap.values th) →
  l ≡ₚ entryOf <$> filter (λ s, taskId s ≠ id) (Heap.values (priorityQueue q)).
Proof.
  intros Hsync Hth ->. rewrite (Hsync th Hth).
  by rewrite (filter_fmap _ _ (λ s, taskId s ≠ id)).
Qed.

Lemma filter_ne_fresh (l : list slot) (id : Z) : id ∉ taskId <$> filter (λ s, taskId s ≠ id) l.
Proof. rewrite list_elem_of_fmap. intros (s & -> & []%list_elem_of_filter). done. Qed.

Lemma insert_lists q s :
  idx_inv q → (Z.of_nat (S (length (Heap.values (priorityQueue q)))) ≤ maxSlots)%Z →
  let q' := insert s q in
  idx_inv q' ∧ idx_steps q q' ∧
  Heap.values (priorityQueue q') ≡ₚ
    s :: filter (λ s', taskId s' ≠ taskId s) (Heap.values (priorityQueue q)).
Proof.
  intros [Hq Hsync] Hb. unfold insert.
  destruct (removeFromPriority_spec q (taskId s) Hq) as (Hst1 & Hto1 & Hv1).
  set (q1 := removeFromPriority (taskId s) q) in *.
  pose proof (idx_steps_loose _ _ Hq Hst1) as Hq1.
  destruct (removeFromTimedOut_spec q1 (taskId s) Hq1) as (Hst2 & Hpq2 & Hto2).
  set (q2 := removeFromTimedOut (taskId s) q1) in *.
  pose proof (idx_steps_loose _ _ Hq1 Hst2) as Hq2.
  pose proof (length_filter (λ s', taskId s' ≠ taskId s) (Heap.values (priorityQueue q))).
  destruct (pri_insert q2 s) as (Hst3 & Hto3 & Hv3); [done| | |].
  { rewrite Hpq2, Hv1. apply filter_ne_fresh. }
  { rewrite Hpq2, Hv1. lia. }
  set (q3 := onPriority (Heap.insert s) q2) in *.
  pose proof (idx_steps_loose _ _ Hq2 Hst3) as Hq3.
  assert (Hv3' : Heap.values (priorityQueue q3) ≡ₚ
    s :: filter (λ s', taskId s' ≠ taskId s) (Heap.values (priorityQueue q))).
  { rewrite Hv3, Hpq2. by rewrite Hv1. }
  assert (Hst : idx_steps q q3) by eauto using idx_steps_trans.
  unfold to_upd in Hto2. rewrite Hto1 in Hto2.
  destruct (timedOutQueue q) as [th|] eqn:Hth.
  - destruct Hto2 as (th2 & Hth2 & Hv2). rewrite <-Hto3 in Hth2.
    pose proof (sync_filter_ne q _ th (taskId s) Hsync Hth Hv2) as Hv2'.
    destruct (to_insert q3 th2 (entryOf s)) as (Hst4 & Hpq4 & th4 & Hth4 & Hv4); [done|done| | |].
    { simpl. rewrite Hv2'. rewrite <-list_fmap_compose. apply filter_ne_fresh. }
    { rewrite Hv2', length_fmap. lia. }
    split_and!.
    + split; [by eapply idx_steps_loose|]. intros th'. rewrite Hth4. intros [= <-].
      rewrite Hv4, Hpq4, Hv3', Hv2'. done.
    + by eapply idx_steps_trans.
    + by rewrite Hpq4.
  - unfold onTimeout. rewrite Hto3, Hto2. split_and!; [|done|done].
    split; [done|]. intros th. by rewrite Hto3, Hto2.
Qed.

Lemma remove_both q id (n : nat) s :
  idx_inv q → Heap.values (priorityQueue q) !! n = Some s → taskId s = id →
  let q' := removeFromTimedOut id (onPriority (Heap.delete (Z.of_nat n)) q) in
  idx_inv q' ∧ idx_steps q q' ∧
  Heap.values (priorityQueue q') ≡ₚ
    filter (λ s', taskId s' ≠ id) (Heap.values (priorityQueue q)).
Proof.
  intros [Hq Hsync] Hs Hid. simpl.
  destruct (pri_delete q n s Hq Hs) as (Hst1 & Hto1 & Hv1). rewrite Hid in Hv1.
  set (q1 := onPriority (Heap.delete (Z.of_nat n)) q) in *.
  pose proof (idx_steps_loose _ _ Hq Hst1) as Hq1.
  destruct (removeFromTimedOut_spec q1 id Hq1) as (Hst2 & Hpq2 & Hto2).
  pose proof (idx_steps_loose _ _ Hq1 Hst2) as Hq2. rewrite Hpq2.
  split_and!; [|by eapply idx_steps_trans|done]. split; [done|].
  intros th2 Hth2. unfold to_upd in Hto2. rewrite Hto1 in Hto2.
  destruct (timedOutQueue q) as [th|] eqn:Hth; [|congruence].
  destruct Hto2 as (th2' & Hth2' & Hv2). rewrite Hth2' in Hth2. simplify_eq.
  rewrite Hpq2, Hv1. by eapply sync_filter_ne.
Qed.

Lemma delete_lists q id :
  idx_inv q →
  ∃ q', (delete id (Some q)).2 = Some q' ∧ idx_inv q' ∧ idx_steps q q' ∧
    Heap.values (priorityQueue q') ≡ₚ
      filter (λ s, taskId s ≠ id) (Heap.values (priorityQueue q)) ∧
    (delete id (Some q)).1 = contents q !! id.
Proof.
  intros Hinv. pose proof Hinv as [Hq _]. unfold delete.
  destruct (priorityIndex id (byTaskID q)) as [i|] eqn:Hi.
  - destruct (priorityIndex_Some _ _ _ Hq Hi) as (n & s & -> & Hs & Hid).
    destruct (remove_both q id n s Hinv Hs Hid) as (? & ? & ?).
    eexists. split_and!; [done|done|done|done|]. simpl. unfold slotAt. rewrite Nat2Z.id, Hs.
    symmetry. apply lookup_kmap; [by apply loose_nodup|].
    split; [by eapply list_elem_of_lookup_2|done].
  - apply priorityIndex_None in Hi; [|done]. exists q.
    split_and!; [done|done|apply rtc_refl| |].
    + rewrite filter_all; [done|]. intros s Hs <-. apply Hi. by apply list_elem_of_fmap_2.
    + simpl. symmetry. by apply lookup_kmap_None.
Qed.

Lemma get_contents q id : idx_inv q → get id (Some q) = contents q !! id.
Proof.
  intros Hinv. destruct (delete_lists q id Hinv) as (_ & _ & _ & _ & _ & <-).
  unfold get, delete. by case_match.
Qed.

Lemma lift_pri_steps q x x' :
  rtc (λ y y', Heap.heap_inv taskId maxSlots y ∧
         ∃ v, Heap.step_ok taskId maxSlots (Heap.UndoEntry v false) y y') x x' →
  idx_loose q → x = (priorityQueue q, byTaskID q) →
  idx_steps q (SlotIndex x'.1 (timedOutQueue q) x'.2).
Proof.
  intros Hs. revert q. induction Hs as [x|x [h1 m1] x' [_ [v Hst]] _ IH]; intros q Hq ->.
  { destruct q; apply rtc_refl. }
  set (q1 := SlotIndex h1 (timedOutQueue q) m1).
  assert (idx_step q q1) as Hstep by by eapply is_pri.
  eapply idx_steps_trans; [by apply idx_steps_one|].
  apply (IH q1); [by eapply idx_step_loose|done].
Qed.

Lemma removeMany_spec (ss : list slot) q :
  idx_loose q →
  let q' := foldl (λ q s, removeFromTimedOut (taskId s) q) q ss in
  idx_steps q q' ∧ priorityQueue q' = priorityQueue q ∧
  to_upd (filter (λ e, te_taskId e ∉ taskId <$> ss)) q q'.
Proof.
  revert q. induction ss as [|s ss IH]; intros q Hq; simpl.
  { split_and!; [apply rtc_refl|done|]. unfold to_upd.
    destruct (timedOutQueue q) as [th|]; [|done]. exists th. split; [done|].
    rewrite filter_all; [done|]. intros e _. apply not_elem_of_nil. }
  destruct (removeFromTimedOut_spec q (taskId s) Hq) as (Hst1 & Hpq1 & Hto1).
  destruct (IH (removeFromTimedOut (taskId s) q)) as (Hst2 & Hpq2 & Hto2).
  { by eapply idx_steps_loose. }
  split_and!; [by eapply idx_steps_trans|by rewrite Hpq2|].
  unfold to_upd in *. destruct (timedOutQueue q) as [th|].
  - destruct Hto1 as (th1 & Hth1 & Hv1). rewrite Hth1 in Hto2.
    destruct Hto2 as (th2 & Hth2 & Hv2). exists th2. split; [done|].
    rewrite Hv2, Hv1, list_filter_filter.
    erewrite list_filter_iff; [done|]. intros e. simpl. rewrite not_elem_of_cons. tauto.
  - by rewrite Hto1 in Hto2.
Qed.

(** The contract of [pop] on the index. *)
Lemma pop_lists q (n : Z) :
  idx_inv q →
  ∃ q', (pop n (Some q)).2 = Some q' ∧ idx_inv q' ∧ idx_steps q q' ∧
    Heap.values (priorityQueue q) ≡ₚ (pop n (Some q)).1 ++ Heap.values (priorityQueue q') ∧
    length (pop n (Some q)).1 = Z.to_nat n `min` length (Heap.values (priorityQueue q)) ∧
    StronglySorted (cmp_le (Heap.compare (priorityQueue q))) (pop n (Some q)).1 ∧
    ∀ a b, a ∈ (pop n (Some q)).1 → b ∈ Heap.values (priorityQueue q') →
      a ≤[Heap.compare (priorityQueue q)] b.
Proof.
  intros [Hq Hsync]. unfold pop. pose proof (loose_nodup q Hq) as Hnd.
  pose proof (Heap.pop_spec taskId maxSlots n _ (lo_pri _ Hq)) as Hpop.
  destruct (Heap.pop n _) as [vs [h m]]; simpl in Hpop.
  destruct Hpop as [_ _ Hsteps Hperm Hlen Hsort Hbelow]; simpl in *.
  set (q1 := SlotIndex h (timedOutQueue q) m).
  pose proof (lift_pri_steps q _ _ Hsteps Hq eq_refl) as Hst1. simpl in Hst1. fold q1 in Hst1.
  pose proof (idx_steps_loose _ _ Hq Hst1) as Hq1.
  destruct (removeMany_spec vs q1 Hq1) as (Hst2 & Hpq2 & Hto2).
  eexists. split_and!; [done| |by eapply idx_steps_trans|by rewrite Hpq2|done|done|].
  2:{ intros a b Ha. rewrite Hpq2. by apply Hbelow. }
  split; [by eapply idx_steps_loose|]. intros th2 Hth2. rewrite Hpq2. simpl.
  unfold to_upd in Hto2. simpl in Hto2.
  destruct (timedOutQueue q) as [th|] eqn:Hth; [|congruence].
  destruct Hto2 as (th2' & Hth2' & Hv2). rewrite Hth2' in Hth2. simplify_eq.
  rewrite Hv2, (Hsync th Hth), Hperm.
  rewrite (filter_fmap _ _ (λ s, taskId s ∉ taskId <$> vs)) by done.
  rewrite Hperm in Hnd. rewrite fmap_app in Hnd. apply NoDup_app in Hnd as (_ & Hdisj & _).
  rewrite filter_app, filter_none, filter_all; [done| |].
  - intros a Ha Hin. eapply Hdisj; [done|]. by apply list_elem_of_fmap_2.
  - intros a Ha Hn. apply Hn. by apply list_elem_of_fmap_2.
Qed.

Lemma timedOut_le a b : a ≤[timedOutCompare] b → (te_timeoutAtMs a ≤ te_timeoutAtMs b)%Z.
Proof. unfold cmp_le, timedOutCompare. intros. solve_cmp. Qed.

(** Slots in the order of their timeout entries. *)
Definition timeoutSlotCompare (a b : slot) : Z := timedOutCompare (entryOf a) (entryOf b).

Lemma peek_timeout q th e :
  idx_inv q → timedOutQueue q = Some th → Heap.peek th = Some e →
  ∀ s, s ∈ Heap.values (priorityQueue q) → e ≤[timedOutCompare] entryOf s.
Proof.
  intros [Hq Hsync] Hth He s Hs. destruct (lo_to _ Hq th Hth) as [Hhi Hcmp].
  rewrite <-Hcmp.
  apply (Heap.peek_min te_taskId maxSlots (th, byTaskID q) e Hhi He (entryOf s)).
  simpl. rewrite (Hsync th Hth). by apply list_elem_of_fmap_2.
Qed.

(** One iteration of [popTimedOut]. *)
Lemma popTimedOut_one q th e :
  idx_inv q → timedOutQueue q = Some th → Heap.peek th = Some e →
  let q1 := onTimeout (Heap.delete 0) q in
  ∃ (n : nat) s, entryOf s = e ∧ priorityIndex (te_taskId e) (byTaskID q1) = Some (Z.of_nat n) ∧
    slotAt q1 (Z.of_nat n) = Some s ∧
    let q2 := onPriority (Heap.delete (Z.of_nat n)) q1 in
    idx_inv q2 ∧ idx_steps q q2 ∧
    Heap.values (priorityQueue q) ≡ₚ s :: Heap.values (priorityQueue q2) ∧
    ∃ th2, timedOutQueue q2 = Some th2 ∧ length (Heap.values th) = S (length (Heap.values th2)).
Proof.
  intros [Hq Hsync] Hth He.
  pose proof (loose_nodup q Hq) as Hnd. pose proof (loose_nodup_to q th Hq Hth) as Hndt.
  destruct (to_delete q th 0 e Hq Hth He) as (Hst1 & Hpq1 & th1 & Hth1 & Hv1).
  change (Z.of_nat 0) with 0%Z in *. set (q1 := onTimeout (Heap.delete 0) q) in *. cbv zeta.
  pose proof (idx_steps_loose _ _ Hq Hst1) as Hq1.
  assert (e ∈ Heap.values th) as Hin by by eapply list_elem_of_lookup_2.
  rewrite (Hsync th Hth) in Hin. apply list_elem_of_fmap in Hin as (s & -> & Hs).
  destruct (priorityIndex (taskId s) (byTaskID q1)) as [i|] eqn:Hi.
  2:{ apply (priorityIndex_None q1) in Hi; [|done]. destruct Hi. rewrite Hpq1.
      by apply list_elem_of_fmap_2. }
  destruct (priorityIndex_Some _ _ _ Hq1 Hi) as (n & s' & -> & Hs' & Hid).
  assert (s' = s) as ->.
  { rewrite Hpq1 in Hs'. apply list_elem_of_lookup_2 in Hs'.
    assert (contents q !! taskId s = Some s) as H1 by by apply lookup_kmap.
    assert (contents q !! taskId s = Some s') as H2 by by apply lookup_kmap. congruence. }
  destruct (pri_delete q1 n s Hq1 Hs') as (Hst2 & Hto2 & Hv2).
  set (q2 := onPriority (Heap.delete (Z.of_nat n)) q1) in *.
  assert (Hsplit : Heap.values (priorityQueue q) ≡ₚ s :: Heap.values (priorityQueue q2)).
  { rewrite Hv2, Hpq1. apply Permutation_cons_filter; auto. }
  exists n, s. fold q2. split_and!; [done|done|by unfold slotAt; rewrite Nat2Z.id| |
    by eapply idx_steps_trans|done|].
  - split; [by eapply idx_steps_loose|]. intros th2. rewrite Hto2, Hth1. intros [= <-].
    rewrite Hv1, Hv2, Hpq1. by eapply sync_filter_ne.
  - exists th1. rewrite Hto2, Hth1. split; [done|]. rewrite Hv1. simpl.
    rewrite (Permutation_cons_filter te_taskId (Heap.values th) (entryOf s)) at 1; auto.
    by eapply list_elem_of_lookup_2.
Qed.

Lemma popTimedOut_loop_spec fuel nowMs q th :
  idx_inv q → timedOutQueue q = Some th → length (Heap.values th) ≤ fuel →
  let r := popTimedOut_loop fuel nowMs q in
  idx_inv r.2 ∧ idx_steps q r.2 ∧
  Heap.values (priorityQueue q) ≡ₚ r.1 ++ Heap.values (priorityQueue r.2) ∧
  (∀ s, s ∈ r.1 → (scheduleTimeoutAtMs s ≤ nowMs)%Z) ∧
  (∀ s, s ∈ Heap.values (priorityQueue r.2) → (nowMs < scheduleTimeoutAtMs s)%Z) ∧
  StronglySorted (cmp_le timeoutSlotCompare) r.1.
Proof.
  revert q th. induction fuel as [|fuel IH]; intros q th Hinv Hth Hlen; simpl.
  { destruct Hinv as [Hq Hsync]. split_and!; [done|apply rtc_refl|done|set_solver| |constructor].
    intros s Hs. pose proof (Hsync th Hth) as Hv. destruct (Heap.values th); simpl in *; [|lia].
    apply Permutation_nil_l in Hv. symmetry in Hv. apply fmap_nil_inv in Hv.
    rewrite Hv in Hs. set_solver. }
  rewrite Hth. destruct (Heap.peek th) as [e|] eqn:He.
  2:{ destruct Hinv as [Hq Hsync]. split_and!; [done|apply rtc_refl|done|set_solver| |constructor].
      intros s Hs. pose proof (Hsync th Hth) as Hv. unfold Heap.peek in He.
      destruct (Heap.values th); simpl in *; [|done].
      apply Permutation_nil_l in Hv. symmetry in Hv. apply fmap_nil_inv in Hv.
      rewrite Hv in Hs. set_solver. }
  destruct (Z.ltb_spec nowMs (te_timeoutAtMs e)) as [Hlt|Hge].
  { split_and!; [done|apply rtc_refl|done|set_solver| |constructor]. intros s Hs.
    pose proof (peek_timeout q th e Hinv Hth He s Hs) as Hm%timedOut_le. simpl in Hm. lia. }
  destruct (popTimedOut_one q th e Hinv Hth He)
    as (n & s & <- & Hi & Hat & Hinv2 & Hst2 & Hp2 & th2 & Hth2 & Hlen2).
  rewrite Hi, Hat. simpl.
  set (q2 := onPriority (Heap.delete (Z.of_nat n)) (onTimeout (Heap.delete 0) q)) in *.
  destruct (IH q2 th2 Hinv2 Hth2) as (Hi3 & Hst3 & Hp3 & Hle & Hgt & Hsort); [lia|].
  destruct (popTimedOut_loop fuel nowMs q2) as [rest q3]; simpl in *.
  split_and!; [done|by eapply idx_steps_trans| | |done|].
  - rewrite Hp2. by constructor.
  - intros s' [->|Hs']%elem_of_cons; [done|auto].
  - constructor; [done|]. apply Forall_forall. intros s' Hs'.
    apply (peek_timeout q th (entryOf s) Hinv Hth He). rewrite Hp2, Hp3. set_solver.
Qed.

(** *** Undo scopes *)

(** [q] is inside an undo scope opened at [base]: both journals lead back to
    the members of [base]. *)
Record idx_scope (base q : inMemorySlotIndex) : Prop := {
  sc_rec : Heap.recording (priorityQueue q) = true;
  sc_pri : Heap.journal_ok taskId maxSlots (Heap.values (priorityQueue base))
    (Heap.journal (priorityQueue q)) (Heap.values (priorityQueue q));
  sc_to : match timedOutQueue base, timedOutQueue q with
          | None, None => True
          | Some th0, Some th =>
              Heap.recording th = true ∧
              Heap.journal_ok te_taskId maxSlots (Heap.values th0)
                (Heap.journal th) (Heap.values th)
          | _, _ => False
          end
}.

Lemma idx_step_scope base q q' :
  idx_loose q → idx_step q q' → idx_scope base q → idx_scope base q'.
Proof.
  intros Hq Hst [Hrec Hpri Hto]. destruct Hst as [e Hst Heq|e th th' Hth Hth' Hst Heq].
  - split.
    + pose proof (Heap.so_rec _ _ _ _ _ Hst) as Hr. simpl in Hr. by rewrite Hr.
    + by eapply (Heap.step_ok_journal taskId maxSlots _ e (priorityQueue q, byTaskID q)
        (priorityQueue q', byTaskID q')); [apply Hq|..].
    + by rewrite Heq.
  - split; [by rewrite Heq..|]. rewrite Hth in Hto. rewrite Hth'.
    destruct (timedOutQueue base) as [th0|]; [|done]. destruct Hto as [Hr Hj]. split.
    + pose proof (Heap.so_rec _ _ _ _ _ Hst) as Hr'. simpl in Hr'. by rewrite Hr'.
    + eapply (Heap.step_ok_journal te_taskId maxSlots _ e (th, byTaskID q)
        (th', byTaskID q')); [|done..]. by apply (lo_to _ Hq th Hth).
Qed.

Lemma idx_steps_scope base q q' :
  idx_steps q q' → idx_scope base q → idx_scope base q'.
Proof. induction 1 as [|q q1 q2 [Hl Hs] _ IH]; eauto using idx_step_scope. Qed.

Lemma begin_spec q :
  idx_inv q → idx_inv (begin q) ∧ idx_scope q (begin q) ∧
  Heap.values (priorityQueue (begin q)) = Heap.values (priorityQueue q).
Proof.
  intros [[Hp Ht Hn Hm] Hsync]. split_and!; [| |done].
  - split.
    + split; simpl; [by apply Heap.begin_inv| | |done].
      * intros th' (th & Hth & ->)%fmap_Some. destruct (Ht th Hth).
        split; [by apply Heap.begin_inv|done].
      * intros Hnone%fmap_None. auto.
    + intros th' (th & Hth & ->)%fmap_Some. exact (Hsync th Hth).
  - split; simpl; [done|by apply Heap.jo_nil|].
    destruct (timedOutQueue q) as [th|]; simpl; [|done].
    split; [done|by apply Heap.jo_nil].
Qed.

Lemma commit_spec q :
  idx_inv q → idx_inv (commit q) ∧
  Heap.values (priorityQueue (commit q)) = Heap.values (priorityQueue q).
Proof.
  intros [[Hp Ht Hn Hm] Hsync]. split; [|done]. split.
  - split; simpl; [by apply Heap.commit_inv| | |done].
    + intros th' (th & Hth & ->)%fmap_Some. destruct (Ht th Hth).
      split; [by apply Heap.commit_inv|done].
    + intros Hnone%fmap_None. auto.
  - intros th' (th & Hth & ->)%fmap_Some. exact (Hsync th Hth).
Qed.

Lemma index_rollback_spec base q :
  idx_inv base → idx_loose q → idx_scope base q →
  idx_inv (rollback q) ∧
  Heap.values (priorityQueue (rollback q)) ≡ₚ Heap.values (priorityQueue base) ∧
  Heap.compare (priorityQueue (rollback q)) = Heap.compare (priorityQueue q).
Proof.
  intros [_ Hsync] [Hp Ht Hn Hm] [_ Hj Hjt]. unfold rollback, onPriority.
  pose proof (Heap.rollback_spec taskId maxSlots _ (priorityQueue q, byTaskID q) Hp Hj) as Hr.
  destruct (Heap.rollback (priorityQueue q, byTaskID q)) as [h m]; simpl in Hr.
  destruct Hr as (Hhi & Hperm & Hcmp & _ & _ & Hst).
  destruct (pri_steps_frame _ _ Hst) as (Hf & Hof & Htight). unfold onTimeout; simpl.
  destruct (timedOutQueue q) as [th|] eqn:Hth.
  - destruct (timedOutQueue base) as [th0|] eqn:Hth0; [|done]. destruct Hjt as [_ Hjt].
    destruct (Ht th) as [Hti Htc]; [done|].
    assert (Hti' : Heap.heap_inv te_taskId maxSlots (th, m)).
    { eapply Heap.heap_inv_frame; [|done]. intros v. apply Hf. }
    pose proof (Heap.rollback_spec te_taskId maxSlots _ (th, m) Hti' Hjt) as Hr.
    destruct (Heap.rollback (th, m)) as [th' m']; simpl in Hr.
    destruct Hr as (Hthi & Hpermt & Hcmpt & _ & _ & Hstt).
    destruct (to_steps_frame _ _ Hstt) as (Hft & Htt).
    split_and!; [|done|done]. split; simpl.
    + split; simpl; [|intros ? [= <-]|done|auto].
      * eapply Heap.heap_inv_frame; [|done]. intros v. apply Hft.
      * split; [done|by rewrite Hcmpt].
    + intros ? [= <-]. rewrite Hpermt, Hperm. by apply Hsync.
  - split_and!; [|done|done]. split; simpl.
    + split; simpl; rewrite ?Hth; [done|done| |auto].
      intros _ id. rewrite Hof. auto.
    + intros th'. rewrite ?Hth. done.
Qed.

Lemma new_index_inv b cmp : GoCompare cmp → idx_inv (newInMemorySlotIndexWithCompare b cmp).
Proof.
  intros Hcmp. assert (Hix : ∀ T (O : Heap.IndexOps T (gmap Z slotLocation)) (key : T → Z),
    (∀ v, Heap.getIndex v (∅ : gmap Z slotLocation) = None) →
    ∀ c, GoCompare c → Heap.heap_inv key maxSlots (Heap.newHeap c, ∅)).
  { intros T O key Hg c Hc. split; simpl; [done|by intros k ? ? ? ?| |done].
    split; [done|]. intros v z. by rewrite Hg. }
  split.
  - split; simpl; [by apply Hix| |done|by intros ? ? ?].
    destruct b; intros th; [|done]. intros [= <-]. split; [|done]. apply Hix; [done|].
    apply timedOutCompare_ok.
  - destruct b; intros th; [|done]. by intros [= <-].
Qed.

(** ** The interface used by the sub-queue: a possibly nil index *)

Definition slots (oq : option inMemorySlotIndex) : list slot :=
  match oq with None => [] | Some q => Heap.values (priorityQueue q) end.

(** Well-formed and ordered by [cmp]. *)
Definition oidx_inv (cmp : slot → slot → Z) (oq : option inMemorySlotIndex) : Prop :=
  match oq with None => True | Some q => idx_inv q ∧ Heap.compare (priorityQueue q) = cmp end.

(** The index of a sub-queue tracks timeouts. *)
Definition tracked (oq : option inMemorySlotIndex) : Prop :=
  match oq with None => True | Some q => timedOutQueue q ≠ None end.

Definition osteps (oq oq' : option inMemorySlotIndex) : Prop :=
  match oq, oq' with
  | None, None => True
  | Some q, Some q' => idx_steps q q'
  | _, _ => False
  end.

Lemma idx_steps_tracked q q' :
  idx_steps q q' → timedOutQueue q = None ↔ timedOutQueue q' = None.
Proof.
  induction 1 as [|q q1 q2 [_ Hs] _ IH]; [done|]. rewrite <-IH.
  destruct Hs as [e _ ->|e th th' Hth Hth' _ _]; [done|]. by rewrite Hth, Hth'.
Qed.

Lemma osteps_tracked oq oq' : osteps oq oq' → tracked oq → tracked oq'.
Proof.
  destruct oq, oq'; simpl; [|done..]. intros Hs%idx_steps_tracked. naive_solver.
Qed.

Lemma osteps_trans oq1 oq2 oq3 : osteps oq1 oq2 → osteps oq2 oq3 → osteps oq1 oq3.
Proof. destruct oq1, oq2, oq3; simpl; try done. apply idx_steps_trans. Qed.

Lemma osteps_refl oq : osteps oq oq.
Proof. destruct oq; simpl; [apply rtc_refl|done]. Qed.

Lemma slots_nodup cmp oq : oidx_inv cmp oq → NoDup (taskId <$> slots oq).
Proof.
  destruct oq as [q|]; simpl; [|constructor]. intros [[Hq _] _]. by apply loose_nodup.
Qed.

Lemma len_slots oq : len oq = length (slots oq).
Proof. by destruct oq. Qed.

Lemma o_insert cmp q s :
  oidx_inv cmp (Some q) → (Z.of_nat (length (slots (Some q))) < maxSlots)%Z →
  oidx_inv cmp (Some (insert s q)) ∧ osteps (Some q) (Some (insert s q)) ∧
  slots (Some (insert s q)) ≡ₚ s :: filter (λ s', taskId s' ≠ taskId s) (slots (Some q)).
Proof.
  simpl. intros [Hq Hc] Hb. destruct (insert_lists q s Hq) as (Hi & Hst & Hp); [lia|].
  split_and!; [done|by rewrite (idx_steps_compare _ _ Hst)|done|done].
Qed.

Lemma o_delete cmp oq id :
  oidx_inv cmp oq →
  oidx_inv cmp (delete id oq).2 ∧ osteps oq (delete id oq).2 ∧
  slots (delete id oq).2 ≡ₚ filter (λ s, taskId s ≠ id) (slots oq) ∧
  (delete id oq).1 = kmap taskId (slots oq) !! id.
Proof.
  destruct oq as [q|]; [|done]. intros [Hq Hc].
  destruct (delete_lists q id Hq) as (q' & Heq & Hi & Hst & Hp & Hres).
  rewrite Heq. simpl. split_and!; [done|by rewrite (idx_steps_compare _ _ Hst)|done|done|done].
Qed.

Lemma o_get cmp oq id : oidx_inv cmp oq → get id oq = kmap taskId (slots oq) !! id.
Proof. destruct oq as [q|]; [|done]. intros [Hq Hc]. by apply get_contents. Qed.

Lemma o_pop cmp oq n :
  oidx_inv cmp oq →
  oidx_inv cmp (pop n oq).2 ∧ osteps oq (pop n oq).2 ∧
  slots oq ≡ₚ (pop n oq).1 ++ slots (pop n oq).2 ∧
  length (pop n oq).1 = Z.to_nat n `min` length (slots oq) ∧
  StronglySorted (cmp_le cmp) (pop n oq).1 ∧
  ∀ a b, a ∈ (pop n oq).1 → b ∈ slots (pop n oq).2 → a ≤[cmp] b.
Proof.
  destruct oq as [q|]; simpl.
  2:{ intros _. split_and!; [done|done|done|lia|constructor|set_solver]. }
  intros [Hq <-]. destruct (pop_lists q n Hq) as (q' & Heq & Hi & Hst & Hp & Hl & Hs & Hb).
  unfold pop in *. destruct (Heap.pop n _) as [vs [h m]]; simpl in *. simplify_eq.
  split_and!; [done|by rewrite (idx_steps_compare _ _ Hst)|done|done|done|done|done].
Qed.

Lemma o_popTimedOut cmp oq now :
  oidx_inv cmp oq → tracked oq →
  oidx_inv cmp (popTimedOut now oq).2 ∧ osteps oq (popTimedOut now oq).2 ∧
  slots oq ≡ₚ (popTimedOut now oq).1 ++ slots (popTimedOut now oq).2 ∧
  (∀ s, s ∈ (popTimedOut now oq).1 → (scheduleTimeoutAtMs s ≤ UnixMilli now)%Z) ∧
  (∀ s, s ∈ slots (popTimedOut now oq).2 → (UnixMilli now < scheduleTimeoutAtMs s)%Z) ∧
  StronglySorted (cmp_le timeoutSlotCompare) (popTimedOut now oq).1.
Proof.
  destruct oq as [q|]; simpl.
  2:{ intros _ _. split_and!; [done|done|done|set_solver|set_solver|constructor]. }
  intros [Hq <-] Htr. destruct (timedOutQueue q) as [th|] eqn:Hth; [|done].
  destruct (popTimedOut_loop_spec (Heap.len th) (UnixMilli now) q th Hq Hth)
    as (Hi & Hst & Hp & Hle & Hgt & Hso); [done|].
  destruct (popTimedOut_loop _ _ q) as [vs q']; simpl in *.
  split_and!; [done|by rewrite (idx_steps_compare _ _ Hst)|done..].
Qed.

Lemma o_peek cmp oq s :
  oidx_inv cmp oq → peek oq = Some s → s ∈ slots oq ∧ ∀ s', s' ∈ slots oq → s ≤[cmp] s'.
Proof.
  destruct oq as [q|]; simpl; [|done]. intros [[Hq _] <-] Hs. split.
  - by eapply list_elem_of_lookup_2.
  - apply (Heap.peek_min taskId maxSlots (priorityQueue q, byTaskID q)); [apply Hq|done].
Qed.

(** ** Refinement: the index is a priority queue keyed by task id

    The abstract state is the map of the members; [pop] and [popTimedOut]
    return prefixes of the sorted members. *)

Inductive iop :=
| OpInsert (s : slot)
| OpDelete (id : Z)
| OpGet (id : Z)
| OpPeek
| OpPop (n : Z)
| OpPopTimedOut (now : Z).

(** One operation on the index, with the slots it returns. *)
Definition index_step (o : iop) (oq : option inMemorySlotIndex) :
    list slot * option inMemorySlotIndex :=
  match o with
  | OpInsert s => ([], insert s <$> oq)
  | OpDelete id => let '(r, oq') := delete id oq in (option_list r, oq')
  | OpGet id => (option_list (get id oq), oq)
  | OpPeek => (option_list (peek oq), oq)
  | OpPop n => pop n oq
  | OpPopTimedOut now => popTimedOut now oq
  end.

(** The members sorted by a comparison. *)
Definition sorted_members (cmp : slot → slot → Z) (m : gmap Z slot) : list slot :=
  merge_sort (cmp_le cmp) (map_to_list m).*2.

(** The same operation on the abstract map. *)
Definition spec_step (cmp : slot → slot → Z) (o : iop) (m : gmap Z slot) :
    list slot * gmap Z slot :=
  match o with
  | OpInsert s => ([], <[taskId s := s]> m)
  | OpDelete id => (option_list (m !! id), base.delete id m)
  | OpGet id => (option_list (m !! id), m)
  | OpPeek => (take 1 (sorted_members cmp m), m)
  | OpPop n =>
      let vs := take (Z.to_nat n) (sorted_members cmp m) in
      (vs, filter (λ kv, kv.2 ∉ vs) m)
  | OpPopTimedOut now =>
      (sorted_members timeoutSlotCompare
         (filter (λ kv, (scheduleTimeoutAtMs kv.2 ≤ UnixMilli now)%Z) m),
       filter (λ kv, (UnixMilli now < scheduleTimeoutAtMs kv.2)%Z) m)
  end.

(** A comparison without ties between distinct tasks. *)
Definition tie_free (cmp : slot → slot → Z) : Prop :=
  ∀ a b, cmp a b = 0%Z → taskId a = taskId b.

Lemma priorityCompare_tie_free : tie_free priorityCompare.
Proof. intros a b. unfold priorityCompare. intros. solve_cmp. Qed.
Lemma cancelQueuedExceptCompare_tie_free : tie_free cancelQueuedExceptCompare.
Proof. intros a b. unfold cancelQueuedExceptCompare. intros. solve_cmp. Qed.
Lemma cancelInProgressCompare_tie_free : tie_free cancelInProgressCompare.
Proof. intros a b. unfold cancelInProgressCompare. intros. solve_cmp. Qed.
#[global] Instance timeoutSlotCompare_ok : GoCompare timeoutSlotCompare.
Proof.
  split; unfold timeoutSlotCompare; intros.
  - apply gc_refl.
  - apply gc_sym.
  - by eapply gc_trans.
Qed.
Lemma timeoutSlotCompare_tie_free : tie_free timeoutSlotCompare.
Proof. intros a b. unfold timeoutSlotCompare, timedOutCompare. simpl. intros. solve_cmp. Qed.

Lemma map_to_list_kmap (l : list slot) :
  NoDup (taskId <$> l) → (map_to_list (kmap taskId l)).*2 ≡ₚ l.
Proof.
  intros Hnd. unfold kmap. rewrite map_to_list_to_map by by rewrite kmap_fst.
  by rewrite kmap_snd.
Qed.

(** Sorted lists of the same members are equal. *)
Lemma sorted_members_unique cmp (l vs : list slot) :
  GoCompare cmp → tie_free cmp → NoDup (taskId <$> l) →
  vs ≡ₚ l → StronglySorted (cmp_le cmp) vs → vs = sorted_members cmp (kmap taskId l).
Proof.
  intros Hcmp Htie Hnd Hp Hs.
  assert (Hp' : sorted_members cmp (kmap taskId l) ≡ₚ l).
  { unfold sorted_members. rewrite merge_sort_Permutation. by apply map_to_list_kmap. }
  eapply (StronglySorted_unique_strong (cmp_le cmp)); [|done| |by rewrite Hp, Hp'].
  - intros a b Ha Hb Hab Hba. rewrite Hp in Ha. rewrite Hp' in Hb.
    unfold cmp_le in *. assert (cmp a b = 0%Z) as H0.
    { pose proof (gc_total cmp a b). lia. }
    apply Htie in H0. assert (kmap taskId l !! taskId a = Some a) as Ha' by by apply lookup_kmap.
    assert (kmap taskId l !! taskId a = Some b) as Hb' by by apply lookup_kmap. congruence.
  - apply StronglySorted_merge_sort; apply _.
Qed.

Lemma StronglySorted_app_below {A} (R : relation A) (l k : list A) :
  StronglySorted R l → StronglySorted R k → (∀ a b, a ∈ l → b ∈ k → R a b) →
  StronglySorted R (l ++ k).
Proof.
  induction 1 as [|a l Hs IH Hall]; intros Hk Hb; simpl; [done|]. constructor.
  - apply IH; [done|]. intros. apply Hb; set_solver.
  - apply Forall_app. split; [done|]. apply Forall_forall. intros. apply Hb; set_solver.
Qed.

(** A sorted prefix below the rest is a prefix of the sorted members. *)
Lemma sorted_prefix cmp (l vs rest : list slot) :
  GoCompare cmp → tie_free cmp → NoDup (taskId <$> l) → l ≡ₚ vs ++ rest →
  StronglySorted (cmp_le cmp) vs → (∀ a b, a ∈ vs → b ∈ rest → a ≤[cmp] b) →
  vs = take (length vs) (sorted_members cmp (kmap taskId l)).
Proof.
  intros Hcmp Htie Hnd Hp Hs Hb.
  rewrite <-(sorted_members_unique cmp l (vs ++ merge_sort (cmp_le cmp) rest)); auto.
  - by rewrite take_app_length.
  - by rewrite merge_sort_Permutation, Hp.
  - apply StronglySorted_app_below; [done|apply StronglySorted_merge_sort; apply _|].
    intros a b Ha. rewrite merge_sort_Permutation. auto.
Qed.

(** The members left by a removal. *)
Lemma kmap_rest (l vs rest : list slot) (P : Z * slot → Prop) `{∀ x, Decision (P x)} :
  NoDup (taskId <$> l) → l ≡ₚ vs ++ rest → (∀ s, s ∈ vs → ¬ P (taskId s, s)) →
  (∀ s, s ∈ rest → P (taskId s, s)) →
  kmap taskId rest = filter P (kmap taskId l).
Proof.
  intros Hnd Hp Hv Hr. assert (NoDup (taskId <$> rest)) as Hnd'.
  { rewrite Hp, fmap_app in Hnd. by apply NoDup_app in Hnd as (_ & _ & ?). }
  apply map_eq. intros id. apply option_eq. intros s.
  rewrite map_lookup_filter_Some, !lookup_kmap by done. rewrite Hp, elem_of_app.
  split; [intros [? <-]; auto|]. intros [[[Hs|Hs] <-] HP]; [|done]. by apply Hv in Hs.
Qed.

Lemma NoDup_app_not_in (vs rest : list slot) s :
  NoDup (taskId <$> (vs ++ rest)) → s ∈ rest → s ∉ vs.
Proof.
  rewrite fmap_app. intros (_ & Hd & _)%NoDup_app Hr Hv.
  eapply Hd; apply list_elem_of_fmap_2; eauto.
Qed.

Definition sim (cmp : slot → slot → Z) (n : nat) (oq : option inMemorySlotIndex)
    (m : gmap Z slot) : Prop :=
  oidx_inv cmp oq ∧ tracked oq ∧ is_Some oq ∧ kmap taskId (slots oq) = m ∧
  length (slots oq) ≤ n.

Lemma index_step_sim cmp n o oq m :
  GoCompare cmp → tie_free cmp → (Z.of_nat n < maxSlots)%Z → sim cmp n oq m →
  (index_step o oq).1 = (spec_step cmp o m).1 ∧
  sim cmp (S n) (index_step o oq).2 (spec_step cmp o m).2.
Proof.
  intros Hcmp Htie Hn (Hinv & Htr & Hsome & <- & Hlen).
  pose proof (slots_nodup cmp oq Hinv) as Hnd. unfold sim.
  destruct o as [s|id|id| |k|now]; simpl.
  - destruct oq as [q|]; [|by destruct Hsome]. split; [done|].
    destruct (o_insert cmp q s Hinv) as (Hi & Hst & Hp); [lia|].
    split_and!; [done|by eapply osteps_tracked|done| |].
    + rewrite (kmap_perm _ _ _ (slots_nodup _ _ Hi) Hp), kmap_cons.
      by rewrite kmap_filter_ne, insert_delete_eq.
    + rewrite Hp. simpl. pose proof (length_filter (λ s', taskId s' ≠ taskId s)
        (slots (Some q))). simpl in *. lia.
  - destruct (o_delete cmp oq id Hinv) as (Hi & Hst & Hp & Hr).
    destruct (delete id oq) as [r oq']; simpl in *. subst r. split; [done|].
    split_and!; [done|by eapply osteps_tracked| | |].
    + destruct oq, oq'; naive_solver.
    + rewrite (kmap_perm _ _ _ (slots_nodup _ _ Hi) Hp). by rewrite kmap_filter_ne.
    + rewrite Hp. pose proof (length_filter (λ s', taskId s' ≠ id) (slots oq)). lia.
  - rewrite (o_get cmp oq id Hinv). split; [done|]. split_and!; auto.
  - split; [|split_and!; auto]. destruct (peek oq) as [s|] eqn:Hpk; simpl.
    + destruct (o_peek cmp oq s Hinv Hpk) as [Hin Hmin].
      apply (sorted_prefix cmp (slots oq) [s] (filter (λ b, taskId b ≠ taskId s) (slots oq)));
        auto.
      * by apply Permutation_cons_filter.
      * repeat constructor.
      * intros a b ->%list_elem_of_singleton [_ Hb]%list_elem_of_filter. auto.
    + destruct oq as [q|]; [|by destruct Hsome]. simpl in *. unfold Heap.peek in Hpk.
      destruct (Heap.values (priorityQueue q)); done.
  - destruct (o_pop cmp oq k Hinv) as (Hi & Hst & Hp & Hl & Hs & Hb).
    destruct (pop k oq) as [vs oq']; simpl in *.
    assert (Hvs : vs = take (Z.to_nat k) (sorted_members cmp (kmap taskId (slots oq)))).
    { rewrite (sorted_prefix cmp (slots oq) vs (slots oq')) at 1; auto.
      rewrite Hl. assert (length (sorted_members cmp (kmap taskId (slots oq))) =
        length (slots oq)) as Hlen'.
      { unfold sorted_members. rewrite merge_sort_Permutation. by rewrite map_to_list_kmap. }
      rewrite <-Hlen', <-(take_take _ (Z.to_nat k)). by rewrite firstn_all. }
    split; [done|]. split_and!; [done|by eapply osteps_tracked| | |].
    + destruct oq, oq'; naive_solver.
    + rewrite <-Hvs. eapply kmap_rest; [done|done|naive_solver|].
      intros s Hs'. simpl. eapply NoDup_app_not_in; [|done]. by rewrite <-Hp.
    + apply Permutation_length in Hp. rewrite length_app in Hp. lia.
  - destruct (o_popTimedOut cmp oq now Hinv Htr) as (Hi & Hst & Hp & Hle & Hgt & Hs).
    destruct (popTimedOut now oq) as [vs oq']; simpl in *.
    assert (Hp' : slots oq ≡ₚ slots oq' ++ vs) by by rewrite Permutation_app_comm.
    split.
    + rewrite <-(kmap_rest (slots oq) (slots oq') vs); [|done|done| |done].
      * apply sorted_members_unique; auto using timeoutSlotCompare_tie_free; [apply _|].
        rewrite Hp, fmap_app in Hnd. by apply NoDup_app in Hnd as (? & _ & _).
      * intros s Hin. simpl. pose proof (Hgt s Hin). lia.
    + split_and!; [done|by eapply osteps_tracked| | |].
      * destruct oq, oq'; naive_solver.
      * eapply kmap_rest; [done|done| |done]. intros s Hin. simpl. pose proof (Hle s Hin). lia.
      * apply Permutation_length in Hp. rewrite length_app in Hp. lia.
Qed.


#[global] Arguments insert : simpl never.
#[global] Arguments delete : simpl never.
#[global] Arguments pop : simpl never.
#[global] Arguments popTimedOut : simpl never.
#[global] Arguments rollback : simpl never.

(** ** Properties *)

(** One operation inside an undo scope. *)
Definition scope_op (q q' : inMemorySlotIndex) : Prop :=
  (Z.of_nat (length (slots (Some q))) < maxSlots)%Z ∧
  ∃ o, (index_step o (Some q)).2 = Some q'.

Lemma scope_op_steps q q' : idx_inv q → scope_op q q' → idx_inv q' ∧ idx_steps q q'.
Proof.
  intros Hq [Hb [o Ho]].
  assert (Hinv : oidx_inv (Heap.compare (priorityQueue q)) (Some q)) by done.
  destruct o as [s|id|id| |n|now]; simpl in Ho.
  - simplify_eq. destruct (o_insert _ q s Hinv Hb) as ([] & ? & _). done.
  - destruct (o_delete _ _ id Hinv) as (Hi & Hst & _).
    destruct (delete id (Some q)) as [r oq']; simpl in *; subst. by destruct Hi.
  - simplify_eq. split; [done|apply rtc_refl].
  - simplify_eq. split; [done|apply rtc_refl].
  - destruct (o_pop _ _ n Hinv) as (Hi & Hst & _). rewrite Ho in *. by destruct Hi.
  - destruct (timedOutQueue q) as [th|] eqn:Hth.
    + destruct (o_popTimedOut _ _ now Hinv) as (Hi & Hst & _); [by simpl; rewrite Hth|].
      rewrite Ho in *. by destruct Hi.
    + unfold popTimedOut in Ho. rewrite Hth in Ho. simplify_eq/=.
      split; [done|apply rtc_refl].
Qed.

(** Every sequence of insertions, deletions, lookups, pops and timeout
    pops on the index returns the same slots as on a finite map from task id
    to slot, where [pop n] is the first [n] members of the map sorted by the
    comparison and [popTimedOut now] is exactly the members whose timeout is
    at or before [now], in timeout order. *)
Theorem index_refines_map cmp os :
  GoCompare cmp → tie_free cmp → (Z.of_nat (length os) < maxSlots)%Z →
  run index_step os (Some (newInMemorySlotIndexWithCompare true cmp)) =
  run (spec_step cmp) os ∅.
Proof.
  intros Hcmp Htie Hn.
  apply (run_simulation _ _ (sim cmp) (λ n, Z.of_nat n < maxSlots)%Z os 0); [done|intros; lia| |].
  { intros n o oq m Hb. by apply index_step_sim. }
  split_and!; [split; [by apply new_index_inv|done]|done|done|done|done].
Qed.

Lemma index_refines_map_witness :
  GoCompare cancelInProgressCompare ∧ tie_free cancelInProgressCompare ∧
  run index_step
    [OpInsert (Slot 1 10 5000 1 0); OpInsert (Slot 2 20 3000 3 0);
     OpInsert (Slot 1 30 9000 3 1); OpDelete 7; OpPop 1; OpPopTimedOut 4000000000; OpPeek]
    (Some (newInMemorySlotIndexWithCompare true cancelInProgressCompare)) =
  [[]; []; []; []; [Slot 1 30 9000 3 1]; [Slot 2 20 3000 3 0]; []].
Proof.
  split; [apply cancelInProgressCompare_ok|].
  split; [apply cancelInProgressCompare_tie_free|].
  rewrite index_refines_map;
    [|apply cancelInProgressCompare_ok|apply cancelInProgressCompare_tie_free|done].
  vm_compute. reflexivity.
Defined.

(** Whatever sequence of operations runs inside an undo scope of the
    index, [rollback] restores exactly the members it had at [begin], in both
    heaps, and the index is well-formed again. *)
Theorem index_rollback_restores q q' :
  idx_inv q → rtc scope_op (begin q) q' →
  idx_inv (rollback q') ∧ contents (rollback q') = contents q.
Proof.
  intros Hq Hops. destruct (begin_spec q Hq) as (Hb & Hsc & _).
  assert (idx_inv q' ∧ idx_scope q q') as [Hq' Hsc'].
  { clear Hq. induction Hops as [|q0 q1 q2 Hop _ IH]; [done|].
    destruct (scope_op_steps _ _ Hb Hop) as [Hi Hst]. apply IH; [done|].
    by eapply idx_steps_scope. }
  destruct (index_rollback_spec q q' Hq (ii_loose _ Hq') Hsc') as (Hr & Hp & _).
  split; [done|]. apply kmap_perm; [|done]. by apply loose_nodup, Hr.
Qed.

Lemma index_rollback_restores_witness :
  let q := insert (Slot 2 20 3000 3 0) (insert (Slot 1 10 5000 1 0) (newInMemorySlotIndex true)) in
  idx_inv q ∧
  ∃ q', rtc scope_op (begin q) q' ∧ contents q' = {[3%Z := Slot 3 30 1 1 0]} ∧
    idx_inv (rollback q') ∧ contents (rollback q') = contents q.
Proof.
  intros q. assert (Hq : idx_inv q).
  { unfold q. apply insert_lists; [apply insert_lists|].
    - apply new_index_inv, priorityCompare_ok.
    - done.
    - vm_compute. discriminate. }
  split; [exact Hq|].
  pose (q1 := match (pop 2 (Some (begin q))).2 with Some x => x | None => q end).
  pose (q2 := insert (Slot 3 30 1 1 0) q1).
  assert (Hops : rtc scope_op (begin q) q2).
  { apply (rtc_l _ _ q1).
    - split; [vm_compute; reflexivity|]. exists (OpPop 2). vm_compute. reflexivity.
    - apply (rtc_l _ _ q2); [|apply rtc_refl].
      split; [vm_compute; reflexivity|]. exists (OpInsert (Slot 3 30 1 1 0)). reflexivity. }
  exists q2. split; [exact Hops|]. split; [vm_compute; reflexivity|].
  exact (index_rollback_restores q q2 Hq Hops).
Defined.

(** The position map has an entry for exactly the tasks that are in the
    index, so an index that empties leaves no entries behind. *)
Theorem index_map_exact q : idx_inv q → dom (byTaskID q) = dom (contents q).
Proof.
  intros [Hq Hsync]. apply set_eq. intros id.
  assert (id ∈ dom (contents q) ↔ priorityIndex id (byTaskID q) ≠ None) as ->.
  { rewrite (priorityIndex_None q id Hq). unfold contents.
    rewrite elem_of_dom, <-not_eq_None_Some, lookup_kmap_None. done. }
  rewrite elem_of_dom. split.
  - intros [loc Hloc] Hnone. rewrite priorityIndex_alt in Hnone. unfold priOf in Hnone.
    rewrite Hloc in Hnone. simpl in Hnone. case_decide as Hpri; [|done].
    destruct (lo_tight _ Hq id loc Hloc) as [|Hto]; [done|].
    assert (toOf (byTaskID q) id ≠ 0%Z) as Hto' by (unfold toOf; by rewrite Hloc).
    destruct (timedOutQueue q) as [th|] eqn:Hth; [|by rewrite (lo_none _ Hq Hth) in Hto'].
    assert (priorityIndex id (byTaskID q) = None) as Hn.
    { rewrite priorityIndex_alt. unfold priOf. rewrite Hloc. simpl. by rewrite decide_True. }
    apply (priorityIndex_None q id Hq) in Hn. apply Hn.
    destruct (decide (id ∈ te_taskId <$> Heap.values th)) as [Hin|Hnin].
    + rewrite (Hsync th Hth), <-list_fmap_compose in Hin. done.
    + apply (timeoutIndex_None q th id Hq Hth) in Hnin. rewrite timeoutIndex_alt in Hnin.
      by case_decide.
  - unfold priorityIndex. destruct (byTaskID q !! id); [done|]. done.
Qed.

Lemma index_map_exact_witness :
  let q := insert (Slot 2 20 3000 3 0) (newInMemorySlotIndex true) in
  idx_inv q ∧ dom (byTaskID q) = dom (contents q) ∧ dom (contents q) = {[2%Z]}.
Proof.
  intros q. assert (Hq : idx_inv q).
  { unfold q. apply insert_lists; [apply new_index_inv, priorityCompare_ok|done]. }
  split; [exact Hq|]. split; [exact (index_map_exact q Hq)|]. vm_compute. reflexivity.
Defined.

End SlotIndex.
