(* ===== verification/RunningSlots.v ===== *)
(** * The running slots of a key

    Models pkg/scheduling/v1/concurrency/running_slots.go: a slice sorted by
    task id that turns into a heap index ordered worst-first once a key runs
    more than [maxSmallRunning] slots. [SlotSet] and [SlotSetLaws] state what a
    keyed set of slots promises to the sub-queue that uses it, whichever of
    the two representations it is in. *)

From S2P Require Import Prelude IndexedHeap SlotIndex.
Import SlotIndex (slot, taskId, maxSlots, reverseCompare).

(** ** The interface of a keyed set of slots *)

Class SlotSet (cmp : slot → slot → Z) (T : Type) := {
  ss_insert : slot → T → T;
  ss_delete : Z → T → option slot * T;
  ss_get : Z → T → option slot;
  ss_len : T → nat;
  ss_worst : T → option slot
}.

(** The laws, for the states [inv] admits and their members. *)
Class SlotSetLaws (cmp : slot → slot → Z) (T : Type) `{SlotSet cmp T} (inv : T → Prop) (members : T → list slot) := {
  ssl_nodup t : inv t → NoDup (taskId <$> members t);
  ssl_insert t s :
    inv t → (Z.of_nat (length (members t)) < maxSlots)%Z →
    inv (ss_insert s t) ∧
    members (ss_insert s t) ≡ₚ s :: filter (λ s', taskId s' ≠ taskId s) (members t);
  ssl_delete t id :
    inv t →
    inv (ss_delete id t).2 ∧
    members (ss_delete id t).2 ≡ₚ filter (λ s, taskId s ≠ id) (members t) ∧
    (ss_delete id t).1 = kmap taskId (members t) !! id;
  ssl_get t id : inv t → ss_get id t = kmap taskId (members t) !! id;
  ssl_len t : ss_len t = length (members t);
  ssl_worst t :
    inv t →
    match ss_worst t with
    | None => members t = []
    | Some s => s ∈ members t ∧ ∀ s', s' ∈ members t → s' ≤[cmp] s
    end
}.

Module Running.

(** ** Data *)

Record runningSlots := RunningSlots {
  small : list slot;
  large : option SlotIndex.inMemorySlotIndex
}.

Definition maxSmallRunning : nat := 64.

(** ** Operations *)

(** Go's [slices.BinarySearchFunc]: the interval [i, j) shrinks in every
    iteration, so the length of the slice is enough fuel. *)
Fixpoint search_loop {A} (fuel : nat) (l : list A) (cmp : A → Z) (i j : nat) : nat :=
  match fuel with
  | 0 => i
  | S fuel =>
      if decide (i < j) then
        let h := (i + j) / 2 in
        match l !! h with
        | Some x => if (cmp x <? 0)%Z then search_loop fuel l cmp (h + 1) j
                    else search_loop fuel l cmp i h
        | None => i
        end
      else i
  end.

Definition BinarySearchFunc {A} (l : list A) (cmp : A → Z) : nat * bool :=
  let i := search_loop (length l) l cmp 0 (length l) in
  (i, match l !! i with Some x => (cmp x =? 0)%Z | None => false end).

(** Go's [slices.MaxFunc]: the first of the maximal elements. *)
Definition MaxFunc {A} (cmp : A → A → Z) (x : A) (l : list A) : A :=
  foldl (λ m y, if (0 <? cmp y m)%Z then y else m) x l.

Definition find (id : Z) (r : runningSlots) : nat * bool :=
  BinarySearchFunc (small r) (λ s, cmpZ (taskId s) id).

Definition insert (s : slot) (compare : slot → slot → Z) (r : runningSlots) : runningSlots :=
  match large r with
  | Some q => RunningSlots (small r) (Some (SlotIndex.insert s q))
  | None =>
      let '(i, found) := find (taskId s) r in
      if found then RunningSlots (<[i := s]> (small r)) None
      else if decide (length (small r) < maxSmallRunning)
      then RunningSlots (take i (small r) ++ s :: drop i (small r)) None
      else
        let q := SlotIndex.newInMemorySlotIndexWithCompare false (reverseCompare compare) in
        let q := foldl (λ q existing, SlotIndex.insert existing q) q (small r) in
        RunningSlots [] (Some (SlotIndex.insert s q))
  end.

Definition delete (id : Z) (r : runningSlots) : option slot * runningSlots :=
  match large r with
  | Some q =>
      let '(s, oq) := SlotIndex.delete id (Some q) in (s, RunningSlots (small r) oq)
  | None =>
      let '(i, found) := find id r in
      if found then
        (small r !! i, RunningSlots (take i (small r) ++ drop (i + 1) (small r)) None)
      else (None, r)
  end.

Definition get (id : Z) (r : runningSlots) : option slot :=
  match large r with
  | Some q => SlotIndex.get id (Some q)
  | None => let '(i, found) := find id r in if found then small r !! i else None
  end.

Definition len (r : runningSlots) : nat :=
  match large r with
  | Some q => SlotIndex.len (Some q)
  | None => length (small r)
  end.

Definition worst (compare : slot → slot → Z) (r : runningSlots) : option slot :=
  match large r with
  | Some q => SlotIndex.peek (Some q)
  | None =>
      match small r with
      | [] => None
      | x :: l => Some (MaxFunc compare x l)
      end
  end.

(** The running slots of a sub-queue ordered by [compare], as a slot set. *)
#[global] Instance runningSet (compare : slot → slot → Z) : SlotSet compare runningSlots := {
  ss_insert s r := insert s compare r;
  ss_delete := delete;
  ss_get := get;
  ss_len := len;
  ss_worst := worst compare
}.

(** ** Members and invariant *)

Definition members (r : runningSlots) : list slot :=
  match large r with
  | Some q => SlotIndex.slots (Some q)
  | None => small r
  end.

(** The slice is strictly sorted by task id and within the bound; the index
    holds the slots worst-first. *)
Definition rs_inv (cmp : slot → slot → Z) (r : runningSlots) : Prop :=
  match large r with
  | Some q => small r = [] ∧ SlotIndex.oidx_inv (reverseCompare cmp) (Some q)
  | None =>
      StronglySorted Z.lt (taskId <$> small r) ∧
      length (small r) ≤ maxSmallRunning
  end.

(** ** Binary search *)

Section search.
Context {A : Type} (l : list A) (cmp : A → Z).

(** What the search needs: the elements below the target precede the rest. *)
Definition partitioned : Prop :=
  ∀ i j x y, i < j → l !! i = Some x → l !! j = Some y → (cmp y < 0)%Z → (cmp x < 0)%Z.

Definition below (i : nat) : Prop := ∀ k x, k < i → l !! k = Some x → (cmp x < 0)%Z.
Definition above (j : nat) : Prop := ∀ k x, j ≤ k → l !! k = Some x → (0 ≤ cmp x)%Z.

Lemma search_loop_spec fuel i j :
  partitioned → j - i ≤ fuel → i ≤ j ≤ length l → below i → above j →
  let r := search_loop fuel l cmp i j in i ≤ r ≤ j ∧ below r ∧ above r.
Proof.
  intros Hp. revert i j. induction fuel as [|fuel IH]; intros i j Hf Hij Hb Ha;
    cbn [search_loop].
  { assert (i = j) as -> by lia. auto with lia. }
  case_decide as Hlt; [|assert (i = j) as -> by lia; auto with lia].
  pose proof (Nat.div_mod_eq (i + j) 2) as Hd.
  pose proof (Nat.mod_upper_bound (i + j) 2 ltac:(lia)) as Hm.
  cbv zeta. set (h := (i + j) / 2) in *.
  assert (i ≤ h < j) as [Hhi Hhj] by lia.
  destruct (l !! h) as [x|] eqn:Hx.
  2:{ apply lookup_ge_None in Hx. lia. }
  destruct (Z.ltb_spec (cmp x) 0) as [Hc|Hc].
  - destruct (IH (h + 1) j) as (? & ? & ?); [lia|lia| |done|auto with lia].
    intros k y Hk Hy. destruct (decide (k = h)) as [->|]; [congruence|].
    by apply (Hp k h y x); [lia|..].
  - destruct (IH i h) as (? & ? & ?); [lia|lia|done| |auto with lia].
    intros k y Hk Hy. destruct (decide (k = h)) as [->|]; [congruence|].
    destruct (Z.lt_ge_cases (cmp y) 0) as [Hy0|]; [|done].
    pose proof (Hp h k x y ltac:(lia) Hx Hy Hy0). lia.
Qed.

Lemma BinarySearchFunc_spec :
  partitioned →
  let i := (BinarySearchFunc l cmp).1 in i ≤ length l ∧ below i ∧ above i.
Proof.
  intros Hp. simpl. destruct (search_loop_spec (length l) 0 (length l) Hp)
    as (? & ? & ?); [lia|lia| | |auto with lia].
  - intros k x Hk. lia.
  - intros k x Hk Hx%lookup_lt_Some. lia.
Qed.
End search.

(** ** The slice *)

Lemma sorted_ids_nodup (l : list Z) : StronglySorted Z.lt l → NoDup l.
Proof.
  induction 1 as [|x l _ IH Hall]; constructor; [|done].
  intros Hx. rewrite Forall_forall in Hall. specialize (Hall x Hx). lia.
Qed.

Lemma sorted_lookup (l : list slot) i j a b :
  StronglySorted Z.lt (taskId <$> l) → i < j → l !! i = Some a → l !! j = Some b →
  (taskId a < taskId b)%Z.
Proof.
  intros Hs Hij Ha Hb. rewrite <-(take_drop_middle l i a Ha), fmap_app in Hs.
  apply StronglySorted_app_1_r in Hs. rewrite fmap_cons in Hs.
  apply StronglySorted_inv in Hs as [_ Hall]. rewrite Forall_forall in Hall. apply Hall.
  apply list_elem_of_fmap_2, (list_elem_of_lookup_2 _ (j - S i)).
  rewrite lookup_drop. by replace (S i + (j - S i)) with j by lia.
Qed.

(** The search either finds the slot of the task or the place it belongs to. *)
Lemma find_spec id r :
  StronglySorted Z.lt (taskId <$> small r) →
  let i := (find id r).1 in
  if (find id r).2 then ∃ s l1 l2, small r = l1 ++ s :: l2 ∧ length l1 = i ∧ taskId s = id
  else ∃ l1 l2, small r = l1 ++ l2 ∧ length l1 = i ∧
       (∀ s, s ∈ l1 → (taskId s < id)%Z) ∧ (∀ s, s ∈ l2 → (id < taskId s)%Z).
Proof.
  intros Hs. unfold find.
  destruct (BinarySearchFunc_spec (small r) (λ s, cmpZ (taskId s) id)) as (Hi & Hb & Ha).
  { intros i j x y Hij Hx Hy. rewrite !cmpZ_lt.
    pose proof (sorted_lookup _ _ _ _ _ Hs Hij Hx Hy). lia. }
  simpl in *. set (i := search_loop _ _ _ _ _) in *.
  destruct (small r !! i) as [s|] eqn:Hsi; [destruct (Z.eqb_spec (cmpZ (taskId s) id) 0) as [Hc|Hc]|].
  - exists s, (take i (small r)), (drop (S i) (small r)). rewrite take_drop_middle by done.
    split_and!; [done|by rewrite length_take_le|by apply cmpZ_eq].
  - exists (take i (small r)), (drop i (small r)). rewrite take_drop.
    split_and!; [done|by rewrite length_take_le| |].
    + intros s' (k & Hk)%list_elem_of_lookup_1. rewrite lookup_take_Some in Hk.
      apply cmpZ_lt. apply (Hb k); naive_solver.
    + intros s' (k & Hk)%list_elem_of_lookup_1. rewrite lookup_drop in Hk.
      assert (id ≤ taskId s')%Z.
      { specialize (Ha (i + k) s' ltac:(lia) Hk). pose proof (cmpZ_lt (taskId s') id). lia. }
      destruct k as [|k].
      * rewrite Nat.add_0_r in Hk. simplify_eq. rewrite cmpZ_eq in Hc. lia.
      * pose proof (sorted_lookup _ i (i + S k) _ _ Hs ltac:(lia) Hsi Hk).
        specialize (Ha i s ltac:(lia) Hsi). pose proof (cmpZ_lt (taskId s) id). lia.
  - apply lookup_ge_None in Hsi. assert (i = length (small r)) as Heq by lia.
    exists (small r), []. rewrite app_nil_r. split_and!; [done|done| |set_solver].
    intros s' (k & Hk)%list_elem_of_lookup_1. apply cmpZ_lt, (Hb k); [|done].
    apply lookup_lt_Some in Hk. lia.
Qed.

(** A strictly sorted list split around one task. *)
Lemma sorted_split_filter (l1 l2 : list slot) s :
  NoDup (taskId <$> l1 ++ s :: l2) →
  filter (λ s', taskId s' ≠ taskId s) (l1 ++ s :: l2) = l1 ++ l2.
Proof.
  rewrite fmap_app, fmap_cons. intros (_ & Hd & [Hn _]%NoDup_cons)%NoDup_app.
  rewrite filter_app, filter_cons_False by naive_solver.
  rewrite !filter_all; [done| |]; intros a Ha Heq.
  - apply Hn. rewrite <-Heq. by apply list_elem_of_fmap_2.
  - apply (Hd (taskId s)); [|set_solver]. rewrite <-Heq. by apply list_elem_of_fmap_2.
Qed.

Lemma kmap_middle (l1 l2 : list slot) s :
  NoDup (taskId <$> l1 ++ s :: l2) → kmap taskId (l1 ++ s :: l2) !! taskId s = Some s.
Proof. intros. apply lookup_kmap; [done|]. set_solver. Qed.

Section large.
Context (cmp : slot → slot → Z) `{!GoCompare cmp}.

(** Moving the slice into an index keeps its slots. *)
Lemma move_spec (l : list slot) q :
  SlotIndex.oidx_inv cmp (Some q) → NoDup (taskId <$> l ++ SlotIndex.slots (Some q)) →
  (Z.of_nat (length l + length (SlotIndex.slots (Some q))) < maxSlots)%Z →
  let q' := foldl (λ q existing, SlotIndex.insert existing q) q l in
  SlotIndex.oidx_inv cmp (Some q') ∧
  SlotIndex.slots (Some q') ≡ₚ l ++ SlotIndex.slots (Some q).
Proof.
  revert q. induction l as [|s l IH]; intros q Hq Hnd Hlen; [done|].
  rewrite length_cons in Hlen. rewrite <-app_comm_cons, fmap_cons, NoDup_cons in Hnd.
  destruct Hnd as [Hn Hnd].
  destruct (SlotIndex.o_insert cmp q s Hq) as (Hq' & _ & Hp); [lia|].
  rewrite filter_all in Hp.
  2:{ intros a Ha Heq. apply Hn. rewrite <-Heq. apply list_elem_of_fmap_2, elem_of_app. auto. }
  destruct (IH (SlotIndex.insert s q) Hq') as [Hi Hp']; simpl.
  - rewrite Hp, <-Permutation_middle, fmap_cons. by constructor.
  - rewrite Hp, length_cons. lia.
  - split; [done|]. etrans; [exact Hp'|]. rewrite Hp. by rewrite <-Permutation_middle.
Qed.
End large.

Lemma MaxFunc_spec (cmp : slot → slot → Z) `{!GoCompare cmp} l x :
  MaxFunc cmp x l ∈ x :: l ∧ ∀ y, y ∈ x :: l → y ≤[cmp] MaxFunc cmp x l.
Proof.
  revert x. induction l as [|z l IH]; intros x; unfold MaxFunc in *; simpl.
  { split; [set_solver|]. intros y ->%list_elem_of_singleton. done. }
  destruct (Z.ltb_spec 0 (cmp z x)) as [Hzx|Hzx].
  - destruct (IH z) as [Hin Hmax]. split; [set_solver|].
    intros y [->|Hy]%elem_of_cons; [|auto]. trans z; [|apply Hmax; set_solver].
    unfold cmp_le. pose proof (gc_sym x z). lia.
  - destruct (IH x) as [Hin Hmax]. split; [set_solver|].
    intros y [->|[->|Hy]%elem_of_cons]%elem_of_cons; [apply Hmax; set_solver| |apply Hmax; set_solver].
    trans x; [done|apply Hmax; set_solver].
Qed.

Section laws.
Context (cmp : slot → slot → Z) `{!GoCompare cmp}.

Lemma rs_nodup r : rs_inv cmp r → NoDup (taskId <$> members r).
Proof.
  unfold rs_inv, members. destruct (large r) as [q|].
  - intros [_ Hq]. by eapply SlotIndex.slots_nodup.
  - intros [Hs _]. by apply sorted_ids_nodup.
Qed.

(** The slice turns into an index. *)
Lemma grow_spec (l : list slot) s :
  NoDup (taskId <$> l) → length l ≤ 64 → (∀ a, a ∈ l → taskId a ≠ taskId s) →
  let q := foldl (λ q existing, SlotIndex.insert existing q)
    (SlotIndex.newInMemorySlotIndexWithCompare false (reverseCompare cmp)) l in
  ([] = ([] : list slot) ∧
   SlotIndex.oidx_inv (reverseCompare cmp) (Some (SlotIndex.insert s q))) ∧
  SlotIndex.slots (Some (SlotIndex.insert s q)) ≡ₚ s :: l.
Proof.
  intros Hnd Hlen Hs. cbv zeta.
  destruct (move_spec (reverseCompare cmp) l
    (SlotIndex.newInMemorySlotIndexWithCompare false (reverseCompare cmp))) as [Hq Hp].
  - split; [apply SlotIndex.new_index_inv; apply _|done].
  - simpl. by rewrite app_nil_r.
  - simpl. unfold maxSlots. lia.
  - rewrite app_nil_r in Hp.
    destruct (SlotIndex.o_insert _ _ s Hq) as (Hq' & _ & Hp').
    { rewrite Hp. unfold maxSlots. lia. }
    split; [done|]. rewrite Hp', Hp. by rewrite filter_all.
Qed.

Lemma insert_small r s :
  large r = None → rs_inv cmp r →
  rs_inv cmp (insert s cmp r) ∧
  members (insert s cmp r) ≡ₚ s :: filter (λ s', taskId s' ≠ taskId s) (members r).
Proof.
  intros Hl Hr. pose proof (rs_nodup r Hr) as Hnd. revert Hnd Hr.
  unfold rs_inv, members, insert. rewrite Hl. intros Hnd [Hs Hlen].
  pose proof (find_spec (taskId s) r Hs) as Hf.
  destruct (find (taskId s) r) as [i [|]]; simpl in Hf.
  - destruct Hf as (s0 & l1 & l2 & Heq & <- & Hid). simpl. rewrite Heq in *.
    rewrite insert_app_r_alt, Nat.sub_diag by done. simpl.
    rewrite <-Hid, sorted_split_filter by done. rewrite Permutation_middle.
    split; [|done]. rewrite !fmap_app, !fmap_cons, Hid in *.
    rewrite length_app in *. done.
  - destruct Hf as (l1 & l2 & Heq & <- & Hb & Ha). rewrite Heq in *.
    rewrite filter_all.
    2:{ intros a [Hin|Hin]%elem_of_app; [specialize (Hb a Hin)|specialize (Ha a Hin)]; lia. }
    case_decide as Hlt; simpl.
    + rewrite take_app_length, drop_app_length, Permutation_middle. split; [|done].
      split; [|rewrite length_app in *; simpl; lia].
      rewrite fmap_app, fmap_cons in *. apply StronglySorted_app in Hs as (Hc & Hs1 & Hs2).
      apply StronglySorted_app_2; [|done|constructor; [done|]].
      * intros x y (a & -> & Hin)%list_elem_of_fmap [->|Hy]%elem_of_cons; [auto|].
        apply Hc; [by apply list_elem_of_fmap_2|done].
      * apply Forall_fmap, Forall_forall. auto.
    + apply (grow_spec (l1 ++ l2)); [done|unfold maxSmallRunning in *; lia|].
      intros a [Hin|Hin]%elem_of_app; [specialize (Hb a Hin)|specialize (Ha a Hin)]; lia.
Qed.

Lemma insert_law r s :
  rs_inv cmp r → (Z.of_nat (length (members r)) < maxSlots)%Z →
  rs_inv cmp (insert s cmp r) ∧
  members (insert s cmp r) ≡ₚ s :: filter (λ s', taskId s' ≠ taskId s) (members r).
Proof.
  intros Hr Hlen. destruct (large r) as [q|] eqn:Hl; [|by apply insert_small].
  revert Hr Hlen. unfold rs_inv, members, insert. rewrite Hl. simpl. intros [-> Hq] Hlen.
  destruct (SlotIndex.o_insert _ _ s Hq Hlen) as (Hq' & _ & Hp). auto.
Qed.

Lemma delete_law r id :
  rs_inv cmp r →
  rs_inv cmp (delete id r).2 ∧
  members (delete id r).2 ≡ₚ filter (λ s, taskId s ≠ id) (members r) ∧
  (delete id r).1 = kmap taskId (members r) !! id.
Proof.
  intros Hr. pose proof (rs_nodup r Hr) as Hnd. revert Hnd Hr.
  unfold rs_inv, members, delete. destruct (large r) as [q|] eqn:Hl.
  { intros _ [-> Hq]. destruct (SlotIndex.o_delete _ (Some q) id Hq) as (Hq' & Hst & Hp & Hres).
    destruct (SlotIndex.delete id (Some q)) as [o [q'|]]; [|done]. simpl in *. auto. }
  intros Hnd [Hs Hlen]. pose proof (find_spec id r Hs) as Hf.
  destruct (find id r) as [i [|]]; simpl in Hf.
  - destruct Hf as (s & l1 & l2 & Heq & <- & <-). simpl. rewrite Heq in *.
    rewrite take_app_length, drop_app_add. simpl. rewrite drop_0.
    rewrite sorted_split_filter, kmap_middle by done.
    split_and!; [|rewrite length_app, length_cons in Hlen; rewrite length_app; lia|done|by rewrite list_lookup_middle].
    rewrite fmap_app, fmap_cons in *. apply StronglySorted_app in Hs as (Hc & Hs1 & Hs2).
    apply StronglySorted_inv in Hs2 as [Hs2 _].
    apply StronglySorted_app_2; [|done|done]. intros x y Hx Hy. apply Hc; set_solver.
  - simpl. rewrite Hl. destruct Hf as (l1 & l2 & Heq & <- & Hb & Ha).
    assert (∀ s, s ∈ small r → taskId s ≠ id) as Hne.
    { rewrite Heq. intros s [Hin|Hin]%elem_of_app;
        [specialize (Hb s Hin)|specialize (Ha s Hin)]; lia. }
    rewrite filter_all by done. split_and!; [done..|]. symmetry. apply lookup_kmap_None.
    intros (s & Hid & Hin)%list_elem_of_fmap. by apply (Hne s).
Qed.

Lemma get_law r id : rs_inv cmp r → get id r = kmap taskId (members r) !! id.
Proof.
  intros Hr. destruct (large r) as [q|] eqn:Hl.
  { revert Hr. unfold rs_inv, members, get. rewrite Hl. intros [_ Hq].
    exact (SlotIndex.o_get _ (Some q) id Hq). }
  destruct (delete_law r id Hr) as (_ & _ & <-). unfold get, delete. rewrite Hl.
  by destruct (find id r) as [i [|]].
Qed.

Lemma worst_law r :
  rs_inv cmp r →
  match worst cmp r with
  | None => members r = []
  | Some s => s ∈ members r ∧ ∀ s', s' ∈ members r → s' ≤[cmp] s
  end.
Proof.
  unfold rs_inv, members, worst. destruct (large r) as [q|].
  - intros [_ Hq]. destruct (SlotIndex.peek (Some q)) as [s|] eqn:Hpk.
    + destruct (SlotIndex.o_peek _ _ _ Hq Hpk) as [Hin Hmin]. split; [done|].
      intros s' Hs'. by apply Hmin.
    + simpl in *. unfold Heap.peek in Hpk. by destruct (Heap.values _).
  - intros _. destruct (small r) as [|x l]; [done|]. by apply MaxFunc_spec.
Qed.

#[global] Instance running_laws : SlotSetLaws cmp runningSlots (rs_inv cmp) members.
Proof.
  split.
  - apply rs_nodup.
  - apply insert_law.
  - apply delete_law.
  - apply get_law.
  - intros r. unfold ss_len, members. simpl. unfold len. by destruct (large r).
  - apply worst_law.
Qed.
End laws.
(** ** Refinement: the running slots are a map keyed by task id *)

Inductive rop :=
| RInsert (s : slot)
| RDelete (id : Z)
| RGet (id : Z)
| RLen
| RWorst.

(** One operation on a slot set, with the slot and the count it returns. *)
Definition set_step {cmp T} `{SlotSet cmp T} (o : rop) (t : T) : (option slot * nat) * T :=
  match o with
  | RInsert s => ((None, 0), ss_insert s t)
  | RDelete id => let '(r, t') := ss_delete id t in ((r, 0), t')
  | RGet id => ((ss_get id t, 0), t)
  | RLen => ((None, ss_len t), t)
  | RWorst => ((ss_worst t, 0), t)
  end.

(** The same operation on a finite map. *)
Definition map_step (cmp : slot → slot → Z) (o : rop) (m : gmap Z slot) :
    (option slot * nat) * gmap Z slot :=
  match o with
  | RInsert s => ((None, 0), <[taskId s := s]> m)
  | RDelete id => ((m !! id, 0), base.delete id m)
  | RGet id => ((m !! id, 0), m)
  | RLen => ((None, size m), m)
  | RWorst => ((last (SlotIndex.sorted_members cmp m), 0), m)
  end.

Section refine.
Context {cmp : slot → slot → Z} {T : Type} {inv : T → Prop} {mem : T → list slot}.
Context `{!GoCompare cmp} `{L : SlotSetLaws cmp T inv mem}.
Hypothesis Htie : SlotIndex.tie_free cmp.

Lemma worst_sorted t : inv t → ss_worst t = last (SlotIndex.sorted_members cmp (kmap taskId (mem t))).
Proof.
  intros Ht. pose proof (ssl_nodup t Ht) as Hnd. pose proof (ssl_worst t Ht) as Hw.
  assert (Hp : SlotIndex.sorted_members cmp (kmap taskId (mem t)) ≡ₚ mem t).
  { unfold SlotIndex.sorted_members. rewrite merge_sort_Permutation.
    by apply SlotIndex.map_to_list_kmap. }
  destruct (ss_worst t) as [s|].
  2:{ rewrite Hw in Hp. by rewrite Hw. }
  destruct Hw as [Hin Hmax].
  rewrite <-(SlotIndex.sorted_members_unique cmp (mem t)
    (merge_sort (cmp_le cmp) (filter (λ b, taskId b ≠ taskId s) (mem t)) ++ [s])); [|done..| |].
  - by rewrite last_snoc.
  - rewrite merge_sort_Permutation, <-Permutation_cons_append.
    symmetry. by apply Permutation_cons_filter.
  - apply StronglySorted_app_2; [|apply StronglySorted_merge_sort; apply _|by repeat constructor].
    intros a b Ha ->%list_elem_of_singleton. apply Hmax. rewrite merge_sort_Permutation in Ha.
    by apply list_elem_of_filter in Ha as [_ ?].
Qed.

Definition set_sim (n : nat) (t : T) (m : gmap Z slot) : Prop :=
  inv t ∧ kmap taskId (mem t) = m ∧ length (mem t) ≤ n.

Lemma set_step_sim n o t m :
  (Z.of_nat n < maxSlots)%Z → set_sim n t m →
  (set_step o t).1 = (map_step cmp o m).1 ∧ set_sim (S n) (set_step o t).2 (map_step cmp o m).2.
Proof.
  intros Hn (Ht & <- & Hlen). pose proof (ssl_nodup t Ht) as Hnd. unfold set_sim.
  destruct o as [s|id|id| |]; simpl.
  - destruct (ssl_insert t s Ht) as [Hi Hp]; [lia|]. split_and!; [done|done| |].
    + rewrite (kmap_perm taskId _ _ (ssl_nodup _ Hi) Hp), kmap_cons, kmap_filter_ne by done.
      by rewrite insert_delete_eq.
    + rewrite Hp, length_cons. pose proof (length_filter (λ s', taskId s' ≠ taskId s) (mem t)). lia.
  - destruct (ssl_delete t id Ht) as (Hi & Hp & Hr).
    destruct (ss_delete id t) as [r t']; simpl in *. subst r. split_and!; [done|done| |].
    + rewrite (kmap_perm taskId _ _ (ssl_nodup _ Hi) Hp). by rewrite kmap_filter_ne.
    + rewrite Hp. pose proof (length_filter (λ s', taskId s' ≠ id) (mem t)). lia.
  - rewrite (ssl_get t id Ht). auto with lia.
  - rewrite ssl_len, kmap_size by done. auto with lia.
  - rewrite worst_sorted by done. auto with lia.
Qed.
End refine.

(** Whichever representation the running slots are in, every sequence of
    insertions, deletions, lookups, counts and [worst] queries answers as a
    finite map from task id to slot does, [worst] being the last member under
    the strategy's ordering; crossing the [maxSmallRunning] threshold is not
    observable. *)
Theorem running_refines_map cmp os :
  GoCompare cmp → SlotIndex.tie_free cmp → (Z.of_nat (length os) < maxSlots)%Z →
  run (set_step (cmp := cmp)) os (RunningSlots [] None) = run (map_step cmp) os ∅.
Proof.
  intros Hcmp Htie Hn.
  apply (run_simulation _ _ (set_sim (inv := rs_inv cmp) (mem := members))
           (λ n, Z.of_nat n < maxSlots)%Z os 0); [done|intros; lia| |].
  - intros n o t m. by apply set_step_sim.
  - split_and!; [|done|done]. split; [constructor|]. unfold maxSmallRunning. simpl. lia.
Qed.

Lemma running_refines_map_witness :
  GoCompare SlotIndex.priorityCompare ∧ SlotIndex.tie_free SlotIndex.priorityCompare ∧
  last (run (set_step (cmp := SlotIndex.priorityCompare))
    (((λ i, RInsert (SlotIndex.Slot i (100 - i) 0 1 0)) <$> seqZ 0 70) ++
     [RDelete 69; RGet 3; RWorst]) (RunningSlots [] None)) =
  Some (Some (SlotIndex.Slot 0 100 0 1 0), 0).
Proof.
  split; [apply SlotIndex.priorityCompare_ok|].
  split; [apply SlotIndex.priorityCompare_tie_free|].
  rewrite running_refines_map;
    [|apply SlotIndex.priorityCompare_ok|apply SlotIndex.priorityCompare_tie_free|done].
  vm_compute. reflexivity.
Defined.

End Running.
