(* ===== verification/SubQueue.v ===== *)
(** * The queue of one concurrency key

    Models pkg/scheduling/v1/concurrency/sub_queue.go and the size accounting
    of metrics.go. A sub-queue holds the running slots, a queued index created
    on demand, the limit [maxRuns] and, inside a scope, what [rollback] needs.
    The queued index is a shared object in the code: [undo.queued] and
    [queued] are pointers to it, so the model keeps the index objects of a
    sub-queue in a store ([indexes]) and both fields are positions in it. *)

From S2P Require Import Prelude IndexedHeap SlotIndex RunningSlots.
Import SlotIndex (slot, taskId, inMemorySlotIndex, maxSlots).

Module SubQueue.

(** ** Data *)

(** What sub-queues hold in memory (int64 counters). *)
Record residentSize := ResidentSize {
  rz_running : Z;
  rz_largeRunning : Z;
  rz_queued : Z;
  rz_queuedKeys : Z
}.

Definition plus (r o : residentSize) : residentSize :=
  ResidentSize (rz_running r + rz_running o) (rz_largeRunning r + rz_largeRunning o)
    (rz_queued r + rz_queued o) (rz_queuedKeys r + rz_queuedKeys o).

Definition minus (r o : residentSize) : residentSize :=
  ResidentSize (rz_running r - rz_running o) (rz_largeRunning r - rz_largeRunning o)
    (rz_queued r - rz_queued o) (rz_queuedKeys r - rz_queuedKeys o).

Definition zeroSize : residentSize := ResidentSize 0 0 0 0.

Definition estimatedBytes (keys : Z) (size : residentSize) : Z :=
  (keys * 145 + (rz_running size - rz_largeRunning size) * 32 + rz_largeRunning size * 70 +
   rz_queuedKeys size * 400 + rz_queued size * 88)%Z.

Record subQueueUndo := SubQueueUndo {
  u_running : list (Heap.undoEntry slot);
  u_queued : option nat;
  u_size : residentSize;
  u_maxRunsFrom : Z;
  u_maxRuns : Z
}.

Record subQueue := MkSubQueue {
  key : string;
  running : Running.runningSlots;
  queued : option nat;
  indexes : list inMemorySlotIndex;
  compare : slot → slot → Z;
  undo : option subQueueUndo;
  maxRunsFrom : Z;
  maxRuns : Z
}.

Definition set_running (r : Running.runningSlots) (s : subQueue) : subQueue :=
  MkSubQueue (key s) r (queued s) (indexes s) (compare s) (undo s) (maxRunsFrom s) (maxRuns s).
Definition set_queued (p : option nat) (s : subQueue) : subQueue :=
  MkSubQueue (key s) (running s) p (indexes s) (compare s) (undo s) (maxRunsFrom s) (maxRuns s).
Definition set_indexes (l : list inMemorySlotIndex) (s : subQueue) : subQueue :=
  MkSubQueue (key s) (running s) (queued s) l (compare s) (undo s) (maxRunsFrom s) (maxRuns s).
Definition set_undo (u : option subQueueUndo) (s : subQueue) : subQueue :=
  MkSubQueue (key s) (running s) (queued s) (indexes s) (compare s) u (maxRunsFrom s) (maxRuns s).
Definition set_limit (from m : Z) (s : subQueue) : subQueue :=
  MkSubQueue (key s) (running s) (queued s) (indexes s) (compare s) (undo s) from m.

(** The index object [s.queued] points to; [None] when the pointer is nil. *)
Definition queuedIndex (s : subQueue) : option inMemorySlotIndex :=
  p ← queued s; indexes s !! p.

(** Write the object [s.queued] points to. *)
Definition putQueued (oq : option inMemorySlotIndex) (s : subQueue) : subQueue :=
  match queued s, oq with
  | Some p, Some q => set_indexes (<[p := q]> (indexes s)) s
  | _, _ => s
  end.

(** ** Operations *)

Definition newSubQueue (k : string) (m : Z) (cmp : slot → slot → Z) : subQueue :=
  MkSubQueue k (Running.RunningSlots [] None) None [] cmp None 0 m.

(** int32 subtraction of a truncated length. *)
Definition slotsToRun (s : subQueue) : Z :=
  to_int32 (maxRuns s - to_int32 (Z.of_nat (Running.len (running s)))).

Definition recordRunning (sl : slot) (added : bool) (s : subQueue) : subQueue :=
  match undo s with
  | None => s
  | Some u =>
      set_undo (Some (SubQueueUndo (u_running u ++ [Heap.UndoEntry sl added]) (u_queued u)
        (u_size u) (u_maxRunsFrom u) (u_maxRuns u))) s
  end.

Definition removeRunning (id : Z) (s : subQueue) : option slot * subQueue :=
  let '(o, r) := Running.delete id (running s) in
  let s := set_running r s in
  match o with
  | Some sl => (Some sl, recordRunning sl false s)
  | None => (None, s)
  end.

Definition addRunning (sl : slot) (s : subQueue) : subQueue :=
  let s := (removeRunning (taskId sl) s).2 in
  let s := set_running (Running.insert sl (compare s) (running s)) s in
  recordRunning sl true s.

(** [s.queued = newInMemorySlotIndexWithCompare(true, s.compare)]. *)
Definition allocQueued (s : subQueue) : subQueue :=
  set_queued (Some (length (indexes s)))
    (set_indexes (indexes s ++ [SlotIndex.newInMemorySlotIndexWithCompare true (compare s)]) s).

Definition enqueue (sl : slot) (s : subQueue) : subQueue :=
  let s := match queued s with None => allocQueued s | Some _ => s end in
  putQueued (SlotIndex.insert sl <$> queuedIndex s) s.

(** [s.queued.delete], [s.queued.pop] and [s.queued.popTimedOut]. *)
Definition queuedDelete (id : Z) (s : subQueue) : option slot * subQueue :=
  let '(o, oq) := SlotIndex.delete id (queuedIndex s) in (o, putQueued oq s).

Definition queuedPop (n : Z) (s : subQueue) : list slot * subQueue :=
  let '(vs, oq) := SlotIndex.pop n (queuedIndex s) in (vs, putQueued oq s).

Definition queuedPopTimedOut (now : Z) (s : subQueue) : list slot * subQueue :=
  let '(vs, oq) := SlotIndex.popTimedOut now (queuedIndex s) in (vs, putQueued oq s).

Definition observeMaxRuns (m taskInsertedAtNs : Z) (s : subQueue) : subQueue :=
  if (taskInsertedAtNs <? maxRunsFrom s)%Z then s else set_limit taskInsertedAtNs m s.

Definition size (s : subQueue) : residentSize :=
  let n := Z.of_nat (Running.len (running s)) in
  ResidentSize n (match Running.large (running s) with Some _ => n | None => 0 end)
    (Z.of_nat (SlotIndex.len (queuedIndex s)))
    (match queued s with Some _ => 1 | None => 0 end).

Definition begin (s : subQueue) : subQueue :=
  let s := set_undo (Some (SubQueueUndo [] (queued s) (size s) (maxRunsFrom s) (maxRuns s))) s in
  match queued s with
  | Some _ => putQueued (SlotIndex.begin <$> queuedIndex s) s
  | None => s
  end.

Definition commit (s : subQueue) : residentSize * subQueue :=
  match undo s with
  | None => (zeroSize, s)
  | Some u =>
      let before := u_size u in
      let s := set_undo None s in
      let s :=
        match queued s with
        | None => s
        | Some _ =>
            let s := putQueued (SlotIndex.commit <$> queuedIndex s) s in
            if decide (SlotIndex.len (queuedIndex s) = 0) then set_queued None s else s
        end in
      (minus (size s) before, s)
  end.

(** One iteration of the loop of [rollback] over the running log. *)
Definition undoRunning (cmp : slot → slot → Z) (r : Running.runningSlots)
    (e : Heap.undoEntry slot) : Running.runningSlots :=
  if Heap.ue_added e then (Running.delete (taskId (Heap.ue_value e)) r).2
  else Running.insert (Heap.ue_value e) cmp r.

Definition rollback (s : subQueue) : residentSize * subQueue :=
  match undo s with
  | None => (zeroSize, s)
  | Some u =>
      let s := set_undo None s in
      let s := set_running (foldl (undoRunning (compare s)) (running s) (rev (u_running u))) s in
      let s := set_queued (u_queued u) s in
      let s :=
        match queued s with
        | None => s
        | Some _ => putQueued (SlotIndex.rollback <$> queuedIndex s) s
        end in
      let s := set_limit (u_maxRunsFrom u) (u_maxRuns u) s in
      (minus (size s) (u_size u), s)
  end.

(** ** Contents and well-formedness *)

Definition runs (s : subQueue) : list slot := Running.members (running s).
Definition backlog (s : subQueue) : list slot := SlotIndex.slots (queuedIndex s).

(** Removing a task from a list of slots. *)
Definition without (id : Z) (l : list slot) : list slot := filter (λ s, taskId s ≠ id) l.

Record sq_wf (s : subQueue) : Prop := {
  wf_cmp : GoCompare (compare s);
  wf_running : Running.rs_inv (compare s) (running s);
  wf_queued : SlotIndex.oidx_inv (compare s) (queuedIndex s);
  wf_tracked : SlotIndex.tracked (queuedIndex s);
  wf_ptr : ∀ p, queued s = Some p → p < length (indexes s)
}.

(** Room for one more slot in the running set and in the queued index. *)
Definition room (l : list slot) : Prop := (Z.of_nat (length l) < maxSlots)%Z.

(** The fields no mutation changes. *)
Definition same_frame (s s' : subQueue) : Prop :=
  key s' = key s ∧ compare s' = compare s.

#[global] Instance without_proper id : Proper ((≡ₚ) ==> (≡ₚ)) (without id).
Proof. intros l l' Hl. unfold without. by rewrite Hl. Qed.
#[global] Instance room_proper : Proper ((≡ₚ) ==> iff) room.
Proof. intros l l' Hl. unfold room. by rewrite Hl. Qed.

Lemma length_without id l : length (without id l) ≤ length l.
Proof. apply length_filter. Qed.

Lemma room_without id l : room l → room (without id l).
Proof. unfold room. pose proof (length_without id l). lia. Qed.

Lemma without_fresh id l : id ∉ taskId <$> l → without id l = l.
Proof.
  intros Hn. apply filter_all. intros a Ha <-. apply Hn. by apply list_elem_of_fmap_2.
Qed.

Lemma without_cons s l : taskId s ∉ taskId <$> l → without (taskId s) (s :: l) = l.
Proof.
  intros Hn. unfold without. rewrite filter_cons_False by naive_solver.
  by apply without_fresh.
Qed.

Lemma elem_of_without id l s : s ∈ without id l ↔ s ∈ l ∧ taskId s ≠ id.
Proof. unfold without. rewrite list_elem_of_filter. naive_solver. Qed.

Lemma not_in_without id l : id ∉ taskId <$> without id l.
Proof. intros (s & -> & Hs)%list_elem_of_fmap. by apply elem_of_without in Hs as [_ ?]. Qed.

Lemma runs_nodup s : sq_wf s → NoDup (taskId <$> runs s).
Proof. intros []. by apply Running.rs_nodup with (compare s). Qed.

Lemma backlog_nodup s : sq_wf s → NoDup (taskId <$> backlog s).
Proof. intros []. by eapply SlotIndex.slots_nodup. Qed.

Lemma queuedIndex_None s : sq_wf s → queuedIndex s = None ↔ queued s = None.
Proof.
  intros [_ _ _ _ Hp]. unfold queuedIndex. destruct (queued s) as [p|]; [|done]. simpl.
  rewrite lookup_ge_None. specialize (Hp p eq_refl). split; [lia|done].
Qed.

Lemma putQueued_some s p q :
  sq_wf s → queued s = Some p → SlotIndex.oidx_inv (compare s) (Some q) →
  SlotIndex.tracked (Some q) →
  sq_wf (putQueued (Some q) s) ∧ queuedIndex (putQueued (Some q) s) = Some q.
Proof.
  intros [Hc Hr _ _ Hlt] Hp Hi Ht. unfold putQueued. rewrite Hp.
  assert (queuedIndex (set_indexes (<[p:=q]> (indexes s)) s) = Some q) as Heq.
  { unfold queuedIndex. simpl. rewrite Hp. simpl. apply list_lookup_insert_eq. auto. }
  split; [|done]. split; simpl; rewrite ?Heq; [done..|].
  intros p'. rewrite length_insert. auto.
Qed.

Lemma putQueued_spec s oq :
  sq_wf s → SlotIndex.oidx_inv (compare s) oq → SlotIndex.osteps (queuedIndex s) oq →
  sq_wf (putQueued oq s) ∧ queuedIndex (putQueued oq s) = oq.
Proof.
  intros Hwf Hi Hst. pose proof (queuedIndex_None s Hwf) as Hn.
  pose proof (wf_tracked s Hwf) as Ht. destruct (queued s) as [p|] eqn:Hp.
  - destruct oq as [q|]; [|destruct (queuedIndex s); naive_solver].
    apply (putQueued_some s p); [done..|]. by eapply SlotIndex.osteps_tracked.
  - destruct Hn as [_ Hn]. specialize (Hn eq_refl). rewrite Hn in Hst.
    destruct oq; [done|]. unfold putQueued. by rewrite Hp.
Qed.

Lemma putQueued_frame oq s :
  running (putQueued oq s) = running s ∧ undo (putQueued oq s) = undo s ∧
  queued (putQueued oq s) = queued s ∧ compare (putQueued oq s) = compare s ∧
  key (putQueued oq s) = key s ∧ maxRuns (putQueued oq s) = maxRuns s ∧
  maxRunsFrom (putQueued oq s) = maxRunsFrom s.
Proof. unfold putQueued. by repeat case_match. Qed.

Lemma recordRunning_frame sl b s :
  running (recordRunning sl b s) = running s ∧ queued (recordRunning sl b s) = queued s ∧
  indexes (recordRunning sl b s) = indexes s ∧ compare (recordRunning sl b s) = compare s ∧
  key (recordRunning sl b s) = key s ∧ maxRuns (recordRunning sl b s) = maxRuns s ∧
  maxRunsFrom (recordRunning sl b s) = maxRunsFrom s.
Proof. unfold recordRunning. by case_match. Qed.

Lemma recordRunning_wf sl b s : sq_wf (recordRunning sl b s) ↔ sq_wf s.
Proof. unfold recordRunning. case_match; [|done]. split; intros []; by split. Qed.

Lemma set_running_wf r s :
  sq_wf s → Running.rs_inv (compare s) r → sq_wf (set_running r s).
Proof. intros [] Hr. by split. Qed.

(** ** What each mutation does *)

(** The limit and the time it comes from. *)
Definition limit (s : subQueue) : Z * Z := (maxRuns s, maxRunsFrom s).

(** [s'] is [s] with running slots [R] and backlog [B]. *)
Record sq_effect (s s' : subQueue) (R B : list slot) : Prop := {
  ef_wf : sq_wf s';
  ef_runs : runs s' ≡ₚ R;
  ef_backlog : backlog s' ≡ₚ B;
  ef_frame : same_frame s s';
  ef_limit : limit s' = limit s
}.

Lemma removeRunning_spec id s :
  sq_wf s →
  sq_effect s (removeRunning id s).2 (without id (runs s)) (backlog s) ∧
  (removeRunning id s).1 = kmap taskId (runs s) !! id.
Proof.
  intros Hwf. pose proof (wf_cmp s Hwf). destruct (Running.delete_law (compare s) (running s) id) as (Hi & Hp & Hr);
    [apply Hwf|]. unfold removeRunning.
  destruct (Running.delete id (running s)) as [o r]; simpl in Hi, Hp, Hr.
  pose proof (set_running_wf r s Hwf Hi) as Hwf'.
  destruct o as [sl|]; (split; [|done]); simpl.
  - pose proof (recordRunning_frame sl false (set_running r s)) as (E1&E2&E3&E4&E5&E6&E7).
    split; unfold runs, backlog, queuedIndex, same_frame, limit; rewrite ?E1, ?E2, ?E3, ?E6, ?E7;
      [by apply recordRunning_wf|done|done|done|done].
  - by split.
Qed.

Lemma addRunning_spec sl s :
  sq_wf s → room (without (taskId sl) (runs s)) →
  sq_effect s (addRunning sl s) (sl :: without (taskId sl) (runs s)) (backlog s).
Proof.
  intros Hwf Hroom. destruct (removeRunning_spec (taskId sl) s Hwf) as [[Hwf1 Hr1 Hb1 Hf1 Hl1] _].
  unfold addRunning. set (s1 := (removeRunning (taskId sl) s).2) in *.
  pose proof (wf_cmp s1 Hwf1). destruct (Running.insert_law (compare s1) (running s1) sl) as [Hi Hp].
  { apply Hwf1. } { unfold room in Hroom. unfold runs in *. by rewrite Hr1. }
  pose proof (set_running_wf _ s1 Hwf1 Hi) as Hwf2.
  set (r := Running.insert sl (compare s1) (running s1)) in *.
  pose proof (recordRunning_frame sl true (set_running r s1)) as (E1&E2&E3&E4&E5&E6&E7).
  split; unfold runs, backlog, queuedIndex, same_frame, limit;
    rewrite ?E1, ?E2, ?E3, ?E4, ?E5, ?E6, ?E7; simpl; [by apply recordRunning_wf| |done..].
  fold (without (taskId sl) (Running.members (running s1))) in Hp. rewrite Hp.
  unfold runs in Hr1. rewrite Hr1. rewrite without_fresh; [done|]. apply not_in_without.
Qed.

Lemma putQueued_effect s oq :
  sq_wf s → SlotIndex.oidx_inv (compare s) oq → SlotIndex.osteps (queuedIndex s) oq →
  sq_effect s (putQueued oq s) (runs s) (SlotIndex.slots oq).
Proof.
  intros Hwf Hi Hst. destruct (putQueued_spec s oq Hwf Hi Hst) as [Hwf' Hq].
  pose proof (putQueued_frame oq s) as (E1&E2&E3&E4&E5&E6&E7).
  split; unfold runs, backlog, same_frame, limit; rewrite ?Hq, ?E1, ?E4, ?E5, ?E6, ?E7; done.
Qed.

Lemma putQueued_backlog s oq :
  sq_wf s → SlotIndex.oidx_inv (compare s) oq → SlotIndex.osteps (queuedIndex s) oq →
  backlog (putQueued oq s) = SlotIndex.slots oq.
Proof. intros Hwf Hi Hst. unfold backlog. by destruct (putQueued_spec s oq Hwf Hi Hst) as [_ ->]. Qed.

Lemma effect_backlog s s' R B B' : sq_effect s s' R B → B ≡ₚ B' → sq_effect s s' R B'.
Proof. intros [] HB. split; [done|done|by etrans|done|done]. Qed.

Lemma queuedDelete_spec id s :
  sq_wf s →
  sq_effect s (queuedDelete id s).2 (runs s) (without id (backlog s)) ∧
  (queuedDelete id s).1 = kmap taskId (backlog s) !! id.
Proof.
  intros Hwf. destruct (SlotIndex.o_delete (compare s) (queuedIndex s) id) as (Hi & Hst & Hp & Hr);
    [apply Hwf|]. unfold queuedDelete.
  destruct (SlotIndex.delete id (queuedIndex s)) as [o oq]; simpl in *. split; [|done].
  eapply effect_backlog; [by apply putQueued_effect|done].
Qed.

Lemma queuedPop_spec n s :
  sq_wf s →
  let '(vs, s') := queuedPop n s in
  sq_effect s s' (runs s) (backlog s') ∧ backlog s ≡ₚ vs ++ backlog s' ∧
  length vs = Z.to_nat n `min` length (backlog s) ∧
  StronglySorted (cmp_le (compare s)) vs ∧
  ∀ a b, a ∈ vs → b ∈ backlog s' → a ≤[compare s] b.
Proof.
  intros Hwf. destruct (SlotIndex.o_pop (compare s) (queuedIndex s) n)
    as (Hi & Hst & Hp & Hl & Hs & Hb); [apply Hwf|]. unfold queuedPop.
  destruct (SlotIndex.pop n (queuedIndex s)) as [vs oq]; simpl in *.
  pose proof (putQueued_effect s oq Hwf Hi Hst) as He.
  rewrite (putQueued_backlog s oq Hwf Hi Hst). auto.
Qed.

Lemma queuedPopTimedOut_spec now s :
  sq_wf s →
  let '(vs, s') := queuedPopTimedOut now s in
  sq_effect s s' (runs s) (backlog s') ∧ backlog s ≡ₚ vs ++ backlog s' ∧
  (∀ a, a ∈ vs → (SlotIndex.scheduleTimeoutAtMs a ≤ SlotIndex.UnixMilli now)%Z) ∧
  (∀ a, a ∈ backlog s' → (SlotIndex.UnixMilli now < SlotIndex.scheduleTimeoutAtMs a)%Z) ∧
  StronglySorted (cmp_le SlotIndex.timeoutSlotCompare) vs.
Proof.
  intros Hwf. destruct (SlotIndex.o_popTimedOut (compare s) (queuedIndex s) now)
    as (Hi & Hst & Hp & Hl & Hg & Hs); [apply Hwf..|]. unfold queuedPopTimedOut.
  destruct (SlotIndex.popTimedOut now (queuedIndex s)) as [vs oq]; simpl in *.
  pose proof (putQueued_effect s oq Hwf Hi Hst) as He.
  rewrite (putQueued_backlog s oq Hwf Hi Hst). auto.
Qed.

Lemma allocQueued_spec s :
  sq_wf s → queued s = None →
  sq_effect s (allocQueued s) (runs s) [] ∧ backlog s = [] ∧
  queuedIndex (allocQueued s) = Some (SlotIndex.newInMemorySlotIndexWithCompare true (compare s)).
Proof.
  intros Hwf Hn. pose proof (proj2 (queuedIndex_None s Hwf) Hn) as Hi.
  assert (Hq : queuedIndex (allocQueued s) =
    Some (SlotIndex.newInMemorySlotIndexWithCompare true (compare s))).
  { unfold queuedIndex. simpl. by rewrite list_lookup_middle. }
  split_and!; [|unfold backlog; by rewrite Hi|done]. destruct Hwf.
  split; [|done|unfold backlog; by rewrite Hq|done|done]. split; rewrite ?Hq; [done|done| |done|].
  - split; [by apply SlotIndex.new_index_inv|done].
  - simpl. intros p [= <-]. rewrite length_app. simpl. lia.
Qed.

Lemma enqueue_spec sl s :
  sq_wf s → room (backlog s) →
  sq_effect s (enqueue sl s) (runs s) (sl :: without (taskId sl) (backlog s)).
Proof.
  intros Hwf Hroom. unfold enqueue. destruct (queued s) as [p|] eqn:Hp.
  - destruct (queuedIndex s) as [q|] eqn:Hq; [|apply queuedIndex_None in Hq; congruence].
    unfold room, backlog in *. rewrite Hq in Hroom. pose proof (wf_queued s Hwf) as Hi.
    rewrite Hq in *. destruct (SlotIndex.o_insert (compare s) q sl) as (Hi' & Hst & Hb); [done..|].
    eapply effect_backlog; [apply putQueued_effect; [done..|]|done]. by rewrite Hq.
  - destruct (allocQueued_spec s Hwf Hp) as ([Hwf1 Hr1 Hb1 Hf1 Hl1] & -> & Hq).
    pose proof (wf_queued _ Hwf1) as Hi. rewrite Hq in Hi |- *. simpl fmap.
    destruct (SlotIndex.o_insert (compare s) _ sl Hi) as (Hi' & Hst & Hb); [done|].
    destruct (putQueued_effect (allocQueued s) _ Hwf1 Hi') as [Hwf2 Hr2 Hb2 Hf2 Hl2];
      [by rewrite Hq|].
    split; [done|by rewrite Hr2|by rewrite Hb2, Hb|done|by rewrite Hl2].
Qed.

Lemma observeMaxRuns_frame m t s :
  let s' := observeMaxRuns m t s in
  (sq_wf s → sq_wf s') ∧ running s' = running s ∧ queued s' = queued s ∧
  indexes s' = indexes s ∧ undo s' = undo s ∧ same_frame s s'.
Proof.
  unfold observeMaxRuns. case_match; [done|]. split_and!; try done. intros []. by split.
Qed.

(** ** Undo scopes *)

(** The log leads from the running slots [base] at [begin] to the current ones. *)
Inductive run_log (base : list slot) : list (Heap.undoEntry slot) → list slot → Prop :=
| rl_nil l : l ≡ₚ base → run_log base [] l
| rl_add es mid l s :
    run_log base es mid → taskId s ∉ taskId <$> mid → l ≡ₚ s :: mid →
    run_log base (es ++ [Heap.UndoEntry s true]) l
| rl_del es mid l s :
    run_log base es mid → mid ≡ₚ s :: l → taskId s ∉ taskId <$> l → room l →
    run_log base (es ++ [Heap.UndoEntry s false]) l.

Lemma run_log_perm base es l l' : run_log base es l → l ≡ₚ l' → run_log base es l'.
Proof.
  intros Hl Hp. destruct Hl as [l Hb|es mid l s Hm Hn Hl|es mid l s Hm Hl Hn Hr].
  - constructor. by rewrite <-Hp.
  - econstructor; [done|done|]. by rewrite <-Hp.
  - econstructor; [done|by rewrite <-Hp|by rewrite <-Hp|by rewrite <-Hp].
Qed.

Section undo_log.
Context (cmp : slot → slot → Z) `{!GoCompare cmp}.

Lemma undo_log_spec base es l r :
  run_log base es l → Running.rs_inv cmp r → Running.members r ≡ₚ l →
  let r' := foldl (undoRunning cmp) r (rev es) in
  Running.rs_inv cmp r' ∧ Running.members r' ≡ₚ base.
Proof.
  intros Hlog. revert r. induction Hlog as [l Hb|es mid l s Hm IH Hn Hl|es mid l s Hm IH Hl Hn Hro];
    intros r Hr Hmem; simpl.
  - split; [done|by etrans].
  - rewrite rev_unit. simpl. apply IH; unfold undoRunning; simpl.
    + by apply Running.delete_law.
    + destruct (Running.delete_law cmp r (taskId s) Hr) as (_ & -> & _).
      fold (without (taskId s) (Running.members r)). by rewrite Hmem, Hl, without_cons.
  - rewrite rev_unit. simpl. destruct (Running.insert_law cmp r s Hr) as [Hi Hp].
    { unfold room in Hro. by rewrite Hmem. }
    apply IH; unfold undoRunning; simpl; [done|]. etrans; [exact Hp|].
    fold (without (taskId s) (Running.members r)). by rewrite Hmem, without_fresh, Hl.
Qed.
End undo_log.

(** [s] is inside a scope opened on [base]. *)
Record sq_scope (base s : subQueue) : Prop := {
  sc_frame : same_frame base s;
  sc_undo : ∃ u, undo s = Some u ∧ u_queued u = queued base ∧ u_size u = size base ∧
    u_maxRunsFrom u = maxRunsFrom base ∧ u_maxRuns u = maxRuns base ∧
    run_log (runs base) (u_running u) (runs s);
  sc_queued : ∀ p, queued base = Some p → queued s = Some p ∧
    ∃ q0 q, indexes base !! p = Some q0 ∧ indexes s !! p = Some q ∧ SlotIndex.idx_scope q0 q
}.

(** The mutations of a sub-queue. *)
Inductive mutates (s : subQueue) : subQueue → Prop :=
| mu_remove id : mutates s (removeRunning id s).2
| mu_add sl : room (without (taskId sl) (runs s)) → mutates s (addRunning sl s)
| mu_enqueue sl : room (backlog s) → mutates s (enqueue sl s)
| mu_delete id : mutates s (queuedDelete id s).2
| mu_pop n : mutates s (queuedPop n s).2
| mu_popTimedOut now : mutates s (queuedPopTimedOut now s).2
| mu_observe m t : mutates s (observeMaxRuns m t s).

Lemma runs_bound s : sq_wf s → (Z.of_nat (length (runs s)) ≤ maxSlots)%Z.
Proof.
  intros [_ Hr _ _ _]. unfold runs, Running.members, Running.rs_inv in *.
  destruct (Running.large (running s)) as [q|].
  - destruct Hr as [_ [[Hq _] _]]. apply (Heap.hi_bound _ _ _ (SlotIndex.lo_pri _ Hq)).
  - destruct Hr as [_ Hr]. unfold Running.maxSmallRunning, maxSlots in *. lia.
Qed.

Lemma scope_putQueued base s oq :
  sq_wf s → SlotIndex.oidx_inv (compare s) oq → SlotIndex.osteps (queuedIndex s) oq →
  sq_scope base s → sq_scope base (putQueued oq s).
Proof.
  intros Hwf Hi Hst [Hf Hu Hq]. pose proof (putQueued_frame oq s) as (E1&E2&E3&E4&E5&E6&E7).
  split.
  - unfold same_frame. by rewrite E4, E5.
  - unfold runs. by rewrite E1, E2.
  - intros p Hp. destruct (Hq p Hp) as (Hs & q0 & q & H0 & H1 & Hsc). rewrite E3.
    split; [done|]. unfold queuedIndex in Hst. rewrite Hs in Hst. simpl in Hst. rewrite H1 in Hst.
    destruct oq as [q'|]; [|done]. simpl in Hst. exists q0, q'. split; [done|]. split.
    + unfold putQueued. rewrite Hs. simpl. apply list_lookup_insert_eq.
      by eapply lookup_lt_Some.
    + by eapply SlotIndex.idx_steps_scope.
Qed.

Lemma scope_record base s sl added r es :
  sq_scope base s →
  (∀ u, undo s = Some u → es = u_running u) →
  run_log (runs base) (es ++ [Heap.UndoEntry sl added]) (Running.members r) →
  sq_scope base (recordRunning sl added (set_running r s)).
Proof.
  intros [Hf (u & Hu & Hq & Hs & Hm1 & Hm2 & Hl) Hqq] Hes Hlog. unfold recordRunning. simpl.
  rewrite Hu. split; [done| |done]. rewrite (Hes u Hu) in Hlog. eexists. split; [done|]. auto.
Qed.

Lemma scope_remove base s id :
  sq_wf s → sq_scope base s → sq_scope base (removeRunning id s).2.
Proof.
  intros Hwf Hsc. pose proof (wf_cmp s Hwf). pose proof (runs_nodup s Hwf) as Hnd.
  destruct (Running.delete_law (compare s) (running s) id) as (Hi & Hp & Hr); [apply Hwf|].
  unfold removeRunning. destruct (Running.delete id (running s)) as [o r]; simpl in Hi, Hp, Hr.
  destruct Hsc as [Hf (u & Hu & Hq & Hs & Hm1 & Hm2 & Hl) Hqq].
  fold (without id (Running.members (running s))) in Hp. fold (runs s) in Hp, Hr.
  destruct o as [sl|]; simpl.
  - symmetry in Hr. apply lookup_kmap in Hr as [Hin Hid]; [|done].
    apply (scope_record _ _ _ _ _ (u_running u)); [by split; eauto 10|naive_solver|].
    assert (runs s ≡ₚ sl :: Running.members r) as Hsl.
    { rewrite Hp, <-Hid. by apply Permutation_cons_filter. }
    eapply rl_del; [done|done| |].
    + rewrite Hp, <-Hid. apply not_in_without.
    + pose proof (runs_bound s Hwf) as Hb. rewrite Hsl, length_cons in Hb. unfold room. lia.
  - split; [done| |done]. exists u. split_and!; [done..|]. eapply run_log_perm; [done|].
    unfold runs at 2. simpl. rewrite Hp, without_fresh; [done|].
    by apply lookup_kmap_None.
Qed.

Lemma scope_add base s sl :
  sq_wf s → room (without (taskId sl) (runs s)) → sq_scope base s →
  sq_scope base (addRunning sl s).
Proof.
  intros Hwf Hroom Hsc. destruct (removeRunning_spec (taskId sl) s Hwf) as [[Hwf1 Hr1 Hb1 Hf1 Hl1] _].
  pose proof (scope_remove base s (taskId sl) Hwf Hsc) as Hsc1.
  unfold addRunning. set (s1 := (removeRunning (taskId sl) s).2) in *.
  pose proof (wf_cmp s1 Hwf1). destruct (Running.insert_law (compare s1) (running s1) sl) as [Hi Hp].
  { apply Hwf1. } { unfold room in Hroom. unfold runs in *. by rewrite Hr1. }
  destruct (sc_undo _ _ Hsc1) as (u & Hu & Hq & Hs & Hm1 & Hm2 & Hl).
  assert (taskId sl ∉ taskId <$> runs s1) as Hn by (rewrite Hr1; apply not_in_without).
  apply (scope_record _ _ _ _ _ (u_running u)); [done|naive_solver|].
  eapply rl_add; [done|done|]. etrans; [exact Hp|].
  fold (without (taskId sl) (Running.members (running s1))). fold (runs s1).
  by rewrite (without_fresh _ _ Hn).
Qed.

Lemma scope_enqueue base s sl :
  sq_wf s → room (backlog s) → sq_scope base s → sq_scope base (enqueue sl s).
Proof.
  intros Hwf Hroom Hsc. unfold enqueue. destruct (queued s) as [p|] eqn:Hp.
  - destruct (queuedIndex s) as [q|] eqn:Hq; [|apply queuedIndex_None in Hq; congruence].
    unfold room, backlog in *. rewrite Hq in Hroom. pose proof (wf_queued s Hwf) as Hi.
    rewrite Hq in Hi. destruct (SlotIndex.o_insert (compare s) q sl) as (Hi' & Hst & Hb); [done..|].
    apply scope_putQueued; [done..|by rewrite Hq|done].
  - destruct (allocQueued_spec s Hwf Hp) as ([Hwf1 Hr1 Hb1 Hf1 Hl1] & _ & Hq).
    pose proof (wf_queued _ Hwf1) as Hi. rewrite Hq in Hi |- *. simpl fmap.
    destruct (SlotIndex.o_insert (compare s) _ sl Hi) as (Hi' & Hst & Hb); [done|].
    apply scope_putQueued; [done|done|by rewrite Hq|]. destruct Hsc as [Hf Hu Hqq].
    split; [done|done|]. intros p0 Hp0. destruct (Hqq p0 Hp0) as [? _]. congruence.
Qed.

(** Every mutation keeps the sub-queue well-formed and the scope open. *)
Lemma mutates_wf s s' : sq_wf s → mutates s s' → sq_wf s'.
Proof.
  intros Hwf [id|sl Hr|sl Hr|id|n|now|m t].
  - by apply removeRunning_spec.
  - by apply addRunning_spec.
  - by apply enqueue_spec.
  - by apply queuedDelete_spec.
  - pose proof (queuedPop_spec n s Hwf). destruct (queuedPop n s). by destruct H as [[] _].
  - pose proof (queuedPopTimedOut_spec now s Hwf). destruct (queuedPopTimedOut now s).
    by destruct H as [[] _].
  - by apply observeMaxRuns_frame.
Qed.

Lemma mutates_scope base s s' : sq_wf s → mutates s s' → sq_scope base s → sq_scope base s'.
Proof.
  intros Hwf Hm Hsc. pose proof (wf_queued s Hwf) as Hi. pose proof (wf_tracked s Hwf) as Ht.
  destruct Hm as [id|sl Hr|sl Hr|id|n|now|m t].
  - by apply scope_remove.
  - by apply scope_add.
  - by apply scope_enqueue.
  - destruct (SlotIndex.o_delete _ _ id Hi) as (Hi' & Hst & _). unfold queuedDelete.
    destruct (SlotIndex.delete id (queuedIndex s)). by apply scope_putQueued.
  - destruct (SlotIndex.o_pop _ _ n Hi) as (Hi' & Hst & _). unfold queuedPop.
    destruct (SlotIndex.pop n (queuedIndex s)). by apply scope_putQueued.
  - destruct (SlotIndex.o_popTimedOut _ _ now Hi Ht) as (Hi' & Hst & _). unfold queuedPopTimedOut.
    destruct (SlotIndex.popTimedOut now (queuedIndex s)). by apply scope_putQueued.
  - destruct Hsc as [Hf Hu Hq]. unfold observeMaxRuns. case_match; [by split|]. by split.
Qed.

Lemma mutates_scope_rtc base s s' :
  sq_wf s → rtc mutates s s' → sq_scope base s → sq_wf s' ∧ sq_scope base s'.
Proof.
  intros Hwf Hm. revert Hwf. induction Hm as [|s s1 s' Hm _ IH]; [done|]. intros Hwf Hsc.
  apply IH; [by eapply mutates_wf|by eapply mutates_scope].
Qed.

Lemma queued_object s p :
  sq_wf s → queued s = Some p →
  ∃ q, indexes s !! p = Some q ∧ queuedIndex s = Some q ∧ SlotIndex.idx_inv q ∧
    Heap.compare (SlotIndex.priorityQueue q) = compare s ∧ SlotIndex.timedOutQueue q ≠ None.
Proof.
  intros Hwf Hp. destruct (queuedIndex s) as [q|] eqn:Hq.
  2:{ apply queuedIndex_None in Hq; [congruence|done]. }
  exists q. pose proof (wf_queued s Hwf) as Hi. pose proof (wf_tracked s Hwf) as Ht.
  rewrite Hq in Hi, Ht. destruct Hi as [Hi Hc]. split_and!; [|done..].
  unfold queuedIndex in Hq. by rewrite Hp in Hq.
Qed.

Lemma set_undo_wf u s : sq_wf (set_undo u s) ↔ sq_wf s.
Proof. split; intros []; by split. Qed.

Lemma begin_scope s :
  sq_wf s → sq_wf (begin s) ∧ sq_scope s (begin s) ∧ runs (begin s) = runs s ∧
  backlog (begin s) = backlog s ∧ limit (begin s) = limit s.
Proof.
  intros Hwf. unfold begin. set (u := SubQueueUndo _ _ _ _ _).
  assert (Hl : run_log (runs s) [] (runs s)) by by apply rl_nil.
  simpl queued. destruct (queued s) as [p|] eqn:Hp.
  - destruct (queued_object s p Hwf Hp) as (q & Hx & Hq & Hi & Hc & Ht).
    destruct (SlotIndex.begin_spec q Hi) as (Hi' & Hsc & Hv).
    change (queuedIndex (set_undo (Some u) s)) with (queuedIndex s). rewrite Hq. simpl fmap.
    destruct (putQueued_some (set_undo (Some u) s) p (SlotIndex.begin q)) as [Hwf' Hq'].
    + by apply set_undo_wf.
    + done.
    + done.
    + simpl. by destruct (SlotIndex.timedOutQueue q).
    + pose proof (putQueued_frame (Some (SlotIndex.begin q)) (set_undo (Some u) s))
        as (E1&E2&E3&E4&E5&E6&E7). simpl in *.
      split_and!; [done| |unfold runs; by rewrite E1| |unfold limit; by rewrite E6, E7].
      * split; [done| |].
        -- exists u. unfold runs. rewrite E1, E2. split_and!; done.
        -- intros p' Hp'. rewrite E3. split; [done|]. simplify_eq. exists q, (SlotIndex.begin q).
           unfold putQueued. simpl. rewrite Hp. simpl. split_and!; [done| |done].
           apply list_lookup_insert_eq. by eapply lookup_lt_Some.
      * unfold backlog. rewrite Hq', Hq. simpl. done.
  - split_and!; [by apply set_undo_wf| |done..]. split; [done| |congruence].
    exists u. split_and!; done.
Qed.

Lemma commit_effect s :
  sq_wf s →
  let s' := (commit s).2 in
  sq_wf s' ∧ runs s' = runs s ∧ backlog s' = backlog s ∧ limit s' = limit s ∧
  same_frame s s' ∧ undo s' = None ∧
  (commit s).1 = match undo s with Some u => minus (size s') (u_size u) | None => zeroSize end.
Proof.
  intros Hwf. unfold commit. destruct (undo s) as [u|] eqn:Hu; [|done]. simpl.
  destruct (queued s) as [p|] eqn:Hp; [|by split_and!; [apply set_undo_wf|..]].
  destruct (queued_object s p Hwf Hp) as (q & Hx & Hq & Hi & Hc & Ht).
  destruct (SlotIndex.commit_spec q Hi) as (Hi' & Hv).
  change (queuedIndex (set_undo None s)) with (queuedIndex s). rewrite Hq. simpl fmap.
  destruct (putQueued_some (set_undo None s) p (SlotIndex.commit q)) as [Hwf' Hq'].
  { by apply set_undo_wf. } { done. } { done. }
  { simpl. by destruct (SlotIndex.timedOutQueue q). }
  pose proof (putQueued_frame (Some (SlotIndex.commit q)) (set_undo None s))
    as (E1&E2&E3&E4&E5&E6&E7).
  set (s1 := putQueued (Some (SlotIndex.commit q)) (set_undo None s)) in *. simpl in *.
  assert (Hb : backlog s1 = backlog s) by (unfold backlog; rewrite Hq, Hq'; done).
  case_decide as Hlen.
  - rewrite Hq' in Hlen. split_and!; [|unfold runs; simpl; by rewrite E1| |unfold limit; simpl; by rewrite E6, E7|done|done|done].
    + destruct Hwf'. by split.
    + rewrite <-Hb. unfold backlog, queuedIndex. simpl. unfold queuedIndex in Hq'.
      rewrite Hq'. simpl in *. unfold Heap.len in Hlen. by apply nil_length_inv in Hlen.
  - split_and!; [done|unfold runs; by rewrite E1|done|unfold limit; by rewrite E6, E7|done|done|done].
Qed.

Lemma set_limit_wf a b s : sq_wf (set_limit a b s) ↔ sq_wf s.
Proof. split; intros []; by split. Qed.

Lemma len_runs s : Running.len (running s) = length (runs s).
Proof. unfold runs, Running.members, Running.len. by case_match. Qed.

Lemma len_backlog s : SlotIndex.len (queuedIndex s) = length (backlog s).
Proof. apply SlotIndex.len_slots. Qed.

Lemma rollback_tracked q :
  SlotIndex.timedOutQueue q ≠ None → SlotIndex.timedOutQueue (SlotIndex.rollback q) ≠ None.
Proof.
  unfold SlotIndex.rollback, SlotIndex.onPriority, SlotIndex.onTimeout.
  destruct (Heap.rollback (SlotIndex.priorityQueue q, _)) as [h m]. simpl.
  destruct (SlotIndex.timedOutQueue q) as [th|]; [|done]. by destruct (Heap.rollback _).
Qed.

Lemma rollback_effect base s :
  sq_wf base → sq_wf s → sq_scope base s →
  let s' := (rollback s).2 in
  sq_wf s' ∧ runs s' ≡ₚ runs base ∧ backlog s' ≡ₚ backlog base ∧ limit s' = limit base ∧
  same_frame base s' ∧ undo s' = None ∧ queued s' = queued base ∧
  (rollback s).1 = minus (size s') (size base).
Proof.
  intros Hb Hwf [Hf (u & Hu & Huq & Hus & Hm1 & Hm2 & Hlog) Hq].
  unfold rollback. rewrite Hu. pose proof (wf_cmp s Hwf).
  destruct (undo_log_spec (compare s) _ _ _ (running s) Hlog) as [Hri Hrm];
    [apply Hwf|done|]. simpl. rewrite Huq.
  set (r := foldl (undoRunning (compare s)) (running s) (rev (u_running u))) in *.
  set (s1 := set_queued (queued base) (set_running r (set_undo None s))).
  assert (Hrest : ∀ s2, sq_wf s2 → runs s2 = Running.members r → backlog s2 ≡ₚ backlog base →
    same_frame s s2 → undo s2 = None → queued s2 = queued base →
    let s' := set_limit (u_maxRunsFrom u) (u_maxRuns u) s2 in
    sq_wf s' ∧ runs s' ≡ₚ runs base ∧ backlog s' ≡ₚ backlog base ∧ limit s' = limit base ∧
    same_frame base s' ∧ undo s' = None ∧ queued s' = queued base ∧
    minus (size s') (u_size u) = minus (size s') (size base)).
  { intros s2 Hwf2 Hr2 Hb2 Hf2 Hu2 Hq2 s'. split_and!.
    - by apply set_limit_wf.
    - change (runs s') with (runs s2). by rewrite Hr2.
    - done.
    - unfold limit. simpl. by rewrite Hm1, Hm2.
    - by destruct Hf, Hf2; split; simpl; congruence.
    - done.
    - done.
    - by rewrite Hus. }
  destruct (queued base) as [p|] eqn:Hp; simpl.
  - destruct (Hq p eq_refl) as (Hsp & q0 & q & H0 & H1 & Hsc).
    destruct (queued_object base p Hb Hp) as (q0' & Hx0 & Hq0 & Hi0 & _ & _).
    destruct (queued_object s p Hwf Hsp) as (q' & Hx & Hqs & Hi & Hc & Ht).
    assert (q0' = q0) as -> by congruence. assert (q' = q) as -> by congruence.
    destruct (SlotIndex.index_rollback_spec q0 q Hi0) as (Hri' & Hperm & Hcmp); [apply Hi|done|].
    assert (Hs1 : queuedIndex s1 = Some q) by done. rewrite Hs1. simpl fmap.
    destruct (putQueued_some s1 p (SlotIndex.rollback q)) as [Hwf' Hq'].
    { split; simpl; [done|done| | |].
      - by rewrite Hs1.
      - by rewrite Hs1.
      - intros p' [= <-]. by apply (wf_ptr _ Hwf). }
    { done. } { split; [done|]. by rewrite Hcmp. } { by apply rollback_tracked. }
    pose proof (putQueued_frame (Some (SlotIndex.rollback q)) s1) as (E1&E2&E3&E4&E5&E6&E7).
    apply Hrest; [done| | |by split|done|done].
    + unfold runs. by rewrite E1.
    + unfold backlog. rewrite Hq', Hq0. done.
  - apply Hrest; [|done| |done|done|done].
    + destruct Hwf. by split.
    + unfold backlog. rewrite (proj2 (queuedIndex_None base Hb) Hp). done.
Qed.

(** Whatever mutations a batch makes to a sub-queue between [begin] and
    [rollback] (running slots added and removed, slots queued, popped, timed
    out, the limit observed), [rollback] restores the running slots, the
    queued slots and the limit exactly, closes the scope, and returns a size
    change in which only the count of heap-indexed running slots can differ
    from zero. *)
Theorem subqueue_rollback_restores s s' :
  sq_wf s → rtc mutates (begin s) s' →
  let r := (rollback s').2 in
  sq_wf r ∧ kmap taskId (runs r) = kmap taskId (runs s) ∧
  kmap taskId (backlog r) = kmap taskId (backlog s) ∧ limit r = limit s ∧ undo r = None ∧
  rz_running (rollback s').1 = 0%Z ∧ rz_queued (rollback s').1 = 0%Z ∧
  rz_queuedKeys (rollback s').1 = 0%Z.
Proof.
  intros Hwf Hm. destruct (begin_scope s Hwf) as (Hwfb & Hscb & _).
  destruct (mutates_scope_rtc s (begin s) s' Hwfb Hm Hscb) as [Hwf' Hsc].
  destruct (rollback_effect s s' Hwf Hwf' Hsc) as (Hr & Hruns & Hback & Hlim & Hf & Hu & Hq & ->).
  split_and!; [done| | |done|done| | |]; simpl.
  - apply kmap_perm; [by apply runs_nodup|done].
  - apply kmap_perm; [by apply backlog_nodup|done].
  - rewrite !len_runs, Hruns. lia.
  - rewrite !len_backlog, Hback. lia.
  - rewrite Hq. lia.
Qed.

(** A sub-queue for the witnesses: one runner and one queued slot. *)
Definition sample : subQueue :=
  enqueue (SlotIndex.Slot 2 20 3000 3 0)
    (addRunning (SlotIndex.Slot 1 10 5000 1 0) (newSubQueue "group-a" 1 SlotIndex.priorityCompare)).

Lemma newSubQueue_wf k m cmp : GoCompare cmp → sq_wf (newSubQueue k m cmp).
Proof. intros Hc. split; simpl; [done| |done..]. split; [constructor|]. simpl. lia. Qed.

Lemma sample_wf : sq_wf sample.
Proof.
  unfold sample. apply enqueue_spec; [apply addRunning_spec|done]; [|done].
  apply newSubQueue_wf, SlotIndex.priorityCompare_ok.
Qed.

Lemma subqueue_rollback_restores_witness :
  sq_wf sample ∧
  ∃ s', rtc mutates (begin sample) s' ∧ runs s' = [SlotIndex.Slot 2 20 3000 3 0] ∧
    backlog s' = [] ∧
    kmap taskId (runs (rollback s').2) = kmap taskId (runs sample) ∧
    kmap taskId (backlog (rollback s').2) = kmap taskId (backlog sample) ∧
    rz_queued (rollback s').1 = 0%Z.
Proof.
  split; [exact sample_wf|].
  pose (s1 := (queuedPop 1 (begin sample)).2).
  pose (s2 := (removeRunning 1 s1).2).
  pose (s3 := addRunning (SlotIndex.Slot 2 20 3000 3 0) s2).
  assert (Hm : rtc mutates (begin sample) s3).
  { apply (rtc_l _ _ s1); [apply mu_pop|]. apply (rtc_l _ _ s2); [apply mu_remove|].
    apply (rtc_l _ _ s3); [apply mu_add; vm_compute; reflexivity|apply rtc_refl]. }
  exists s3. split; [exact Hm|]. split; [vm_compute; reflexivity|].
  split; [vm_compute; reflexivity|].
  destruct (subqueue_rollback_restores sample s3 sample_wf Hm) as (_ & H1 & H2 & _ & _ & _ & H3 & _).
  auto.
Defined.

End SubQueue.
