(* ===== verification/Decide.v ===== *)
(** * The decision pipeline of a sub-queue

    Models the per-sub-queue part of pkg/scheduling/v1/concurrency/strategy.go:
    the replay of write-ahead-log messages ([applyWAL]), the five decision
    functions and the pipeline replay, evict timeouts, decide that every
    batch runs on every sub-queue it touches. The specification is the same
    pipeline on two finite maps, with the decisions in closed form. *)

From S2P Require Import Prelude IndexedHeap SlotIndex RunningSlots SubQueue.
Import SlotIndex (slot, taskId, taskRetryCount, scheduleTimeoutAtMs, UnixMilli, maxSlots).
Import SubQueue.

Module Decide.

(** ** Data *)

Inductive V1ConcurrencyStrategy :=
| NONE
| GROUPROUNDROBIN
| CANCELINPROGRESS
| CANCELNEWEST
| CANCELQUEUEDEXCEPTNEWEST
| CANCELQUEUEDEXCEPTOLDEST.

#[global] Instance strategy_eq_dec : EqDecision V1ConcurrencyStrategy.
Proof. solve_decision. Defined.

(** A write-ahead-log message; the insertion time is in nanoseconds. *)
Record walMessage := WalMessage {
  w_taskInsertedAt : Z;
  w_operation : string;
  w_key : string;
  w_taskId : Z;
  w_scheduleTimeoutAtMs : Z;
  w_priority : Z;
  w_taskRetryCount : Z;
  w_isFilled : bool;
  w_maxRuns : option Z
}.

Definition walMessageToSlot (msg : walMessage) : slot :=
  SlotIndex.Slot (w_taskId msg) (w_taskInsertedAt msg) (w_scheduleTimeoutAtMs msg)
    (w_priority msg) (w_taskRetryCount msg).

Definition comparatorForStrategy (kind : V1ConcurrencyStrategy) : slot → slot → Z :=
  if decide (kind = CANCELINPROGRESS) then SlotIndex.cancelInProgressCompare
  else if decide (kind = CANCELQUEUEDEXCEPTOLDEST ∨ kind = CANCELQUEUEDEXCEPTNEWEST)
  then SlotIndex.cancelQueuedExceptCompare
  else SlotIndex.priorityCompare.

(** ** Decisions *)

(** A decision: slots to fill, slots to cancel, the new sub-queue. *)
Definition decideFn : Type := subQueue → list slot * list slot * subQueue.

(** The [for _, s := range toFill] loop every fill strategy has. *)
Definition addAll (l : list slot) (sq : subQueue) : subQueue :=
  foldl (λ sq s, addRunning s sq) sq l.

Definition decideCancelQueuedExceptNewest : decideFn := λ sq,
  let '(toFill, sq) := queuedPop (slotsToRun sq) sq in
  let sq := addAll toFill sq in
  let '(toCancel, sq) :=
    queuedPop (Z.of_nat (SlotIndex.len (queuedIndex sq)) - maxRuns sq) sq in
  (toFill, toCancel, sq).

Definition decideCancelQueuedExceptOldest : decideFn := λ sq,
  let '(toFill, sq) := queuedPop (slotsToRun sq) sq in
  let sq := addAll toFill sq in
  let n := Z.to_nat (Z.max 0 (maxRuns sq)) in
  if decide (n < SlotIndex.len (queuedIndex sq)) then
    let '(popped, sq) := queuedPop (Z.of_nat (SlotIndex.len (queuedIndex sq))) sq in
    (toFill, drop n popped, foldl (λ sq s, enqueue s sq) sq (take n popped))
  else (toFill, [], sq).

Definition decideGroupRoundRobin : decideFn := λ sq,
  let '(toFill, sq) := queuedPop (slotsToRun sq) sq in
  (toFill, [], addAll toFill sq).

Definition decideCancelNewest : decideFn := λ sq,
  let '(toFill, sq) := queuedPop (slotsToRun sq) sq in
  let sq := addAll toFill sq in
  let '(toCancel, sq) := queuedPop (Z.of_nat (SlotIndex.len (queuedIndex sq))) sq in
  (toFill, toCancel, sq).

(** The first loop of [decideCancelInProgress]; every iteration removes a
    runner, so their number is enough fuel. *)
Fixpoint trim_loop (fuel : nat) (n : nat) (sq : subQueue) : list slot * subQueue :=
  match fuel with
  | 0 => ([], sq)
  | S fuel =>
      if decide (n < Running.len (running sq)) then
        match Running.worst (compare sq) (running sq) with
        | None => ([], sq)
        | Some w =>
            let sq := (removeRunning (taskId w) sq).2 in
            let '(toCancel, sq) := trim_loop fuel n sq in
            (w :: toCancel, sq)
        end
      else ([], sq)
  end.

(** The second loop; every iteration takes a slot off the backlog. *)
Fixpoint merge_loop (fuel : nat) (n : nat) (sq : subQueue) :
    list slot * list slot * subQueue :=
  match fuel with
  | 0 => ([], [], sq)
  | S fuel =>
      match SlotIndex.peek (queuedIndex sq) with
      | None => ([], [], sq)
      | Some cand =>
          let promote sq :=
            let sq := (queuedPop 1 sq).2 in
            merge_loop fuel n (addRunning cand sq) in
          let cancelAll :=
            let '(rest, sq) := queuedPop (Z.of_nat (SlotIndex.len (queuedIndex sq))) sq in
            ([], rest, sq) in
          if decide (Running.len (running sq) < n) then
            let '(toFill, toCancel, sq) := promote sq in (cand :: toFill, toCancel, sq)
          else
            match Running.worst (compare sq) (running sq) with
            | Some worst =>
                if (compare sq cand worst <? 0)%Z then
                  let sq := (removeRunning (taskId worst) sq).2 in
                  let '(toFill, toCancel, sq) := promote sq in
                  (cand :: toFill, worst :: toCancel, sq)
                else cancelAll
            | None => cancelAll
            end
      end
  end.

Definition decideCancelInProgress : decideFn := λ sq,
  let n := Z.to_nat (Z.max 0 (maxRuns sq)) in
  let '(trimmed, sq) := trim_loop (Running.len (running sq)) n sq in
  let '(toFill, toCancel, sq) := merge_loop (SlotIndex.len (queuedIndex sq)) n sq in
  (toFill, trimmed ++ toCancel, sq).

(** [decide] panics on NONE. *)
Definition decideFor (kind : V1ConcurrencyStrategy) : option decideFn :=
  match kind with
  | GROUPROUNDROBIN => Some decideGroupRoundRobin
  | CANCELINPROGRESS => Some decideCancelInProgress
  | CANCELNEWEST => Some decideCancelNewest
  | CANCELQUEUEDEXCEPTNEWEST => Some decideCancelQueuedExceptNewest
  | CANCELQUEUEDEXCEPTOLDEST => Some decideCancelQueuedExceptOldest
  | NONE => None
  end.

(** ** Replay of the log *)

(** The INSERT case: the greater retry count wins. *)
Definition applyInsert (msg : walMessage) (sq : subQueue) : list slot * subQueue :=
  let sq :=
    match w_maxRuns msg with
    | Some m => observeMaxRuns m (w_taskInsertedAt msg) sq
    | None => sq
    end in
  let s := walMessageToSlot msg in
  match Running.get (w_taskId msg) (running sq) with
  | Some cur =>
      if (taskRetryCount cur <? w_taskRetryCount msg)%Z then
        ([cur], enqueue s (removeRunning (w_taskId msg) sq).2)
      else if decide (taskRetryCount cur ≠ w_taskRetryCount msg) then ([s], sq)
      else ([], sq)
  | None =>
      match SlotIndex.get (w_taskId msg) (queuedIndex sq) with
      | Some cur =>
          if (taskRetryCount cur <? w_taskRetryCount msg)%Z then
            ([cur], enqueue s (queuedDelete (w_taskId msg) sq).2)
          else if decide (taskRetryCount cur ≠ w_taskRetryCount msg) then ([s], sq)
          else ([], sq)
      | None => ([], enqueue s sq)
      end
  end.

Definition applyUpdate (msg : walMessage) (sq : subQueue) : subQueue :=
  let newSlot := walMessageToSlot msg in
  if w_isFilled msg then addRunning newSlot (queuedDelete (w_taskId msg) sq).2
  else enqueue newSlot (removeRunning (w_taskId msg) sq).2.

Definition applyDelete (msg : walMessage) (sq : subQueue) : subQueue :=
  match Running.get (w_taskId msg) (running sq) with
  | Some _ => (removeRunning (w_taskId msg) sq).2
  | None =>
      match SlotIndex.get (w_taskId msg) (queuedIndex sq) with
      | Some _ => (queuedDelete (w_taskId msg) sq).2
      | None => sq
      end
  end.

Definition applyMessage (msg : walMessage) (sq : subQueue) : list slot * subQueue :=
  if decide (w_operation msg = "INSERT"%string) then applyInsert msg sq
  else if decide (w_operation msg = "UPDATE"%string) then ([], applyUpdate msg sq)
  else if decide (w_operation msg = "DELETE"%string) then ([], applyDelete msg sq)
  else ([], sq).

Fixpoint applyWAL (msgs : list walMessage) (sq : subQueue) : list slot * subQueue :=
  match msgs with
  | [] => ([], sq)
  | msg :: msgs =>
      let '(superseded, sq) := applyMessage msg sq in
      let '(rest, sq) := applyWAL msgs sq in
      (superseded ++ rest, sq)
  end.

(** The decisions of a batch for one sub-queue. *)
Record decisions := Decisions {
  d_setFilled : list slot;
  d_delete : list slot;
  d_timeout : list slot
}.

(** The body of the goroutine that [decideSubQueues] starts per sub-queue. *)
Definition processSubQueue (dec : decideFn) (now : Z) (msgs : list walMessage)
    (sq : subQueue) : decisions * subQueue :=
  let '(toDelete, sq) := applyWAL msgs sq in
  let '(toTimeout, sq) := queuedPopTimedOut now sq in
  let '(toFill, toCancel, sq) := dec sq in
  (Decisions toFill (toDelete ++ toCancel) toTimeout, sq).

(** ** The specification

    A sub-queue is two finite maps from task id to slot and a limit. *)

Record absQueue := AbsQueue {
  a_running : gmap Z slot;
  a_queued : gmap Z slot;
  a_maxRuns : Z;
  a_maxRunsFrom : Z
}.

Definition abs (sq : subQueue) : absQueue :=
  AbsQueue (kmap taskId (runs sq)) (kmap taskId (backlog sq)) (maxRuns sq) (maxRunsFrom sq).

(** A batch's message on the maps. *)
Definition spec_observe (msg : walMessage) (a : absQueue) : absQueue :=
  match w_maxRuns msg with
  | Some m =>
      if decide (a_maxRunsFrom a ≤ w_taskInsertedAt msg)%Z
      then AbsQueue (a_running a) (a_queued a) m (w_taskInsertedAt msg) else a
  | None => a
  end.

(** The slot a task holds, running or queued. *)
Definition held (id : Z) (a : absQueue) : option slot :=
  match a_running a !! id with Some s => Some s | None => a_queued a !! id end.

(** Queue the slot of a task that has no other. *)
Definition spec_queue (s : slot) (a : absQueue) : absQueue :=
  AbsQueue (delete (taskId s) (a_running a)) (<[taskId s := s]> (a_queued a))
    (a_maxRuns a) (a_maxRunsFrom a).

(** The message only changes the slot of its own task: the greater retry
    count wins and the loser is superseded. *)
Definition spec_message (msg : walMessage) (a : absQueue) : list slot * absQueue :=
  let s := walMessageToSlot msg in
  if decide (w_operation msg = "INSERT"%string) then
    let a := spec_observe msg a in
    match held (taskId s) a with
    | None => ([], spec_queue s a)
    | Some cur =>
        match Z.compare (taskRetryCount cur) (taskRetryCount s) with
        | Lt => ([cur], spec_queue s a)
        | Eq => ([], a)
        | Gt => ([s], a)
        end
    end
  else if decide (w_operation msg = "UPDATE"%string) then
    ([], if w_isFilled msg then
           AbsQueue (<[taskId s := s]> (a_running a)) (delete (taskId s) (a_queued a))
             (a_maxRuns a) (a_maxRunsFrom a)
         else spec_queue s a)
  else if decide (w_operation msg = "DELETE"%string) then
    ([], AbsQueue (delete (taskId s) (a_running a)) (delete (taskId s) (a_queued a))
           (a_maxRuns a) (a_maxRunsFrom a))
  else ([], a).

(** The slots sorted by the ordering of the sub-queue, best first. *)
Abbreviation sorted := SlotIndex.sorted_members.

(** How many queued slots fit. *)
Definition free (a : absQueue) : nat := Z.to_nat (a_maxRuns a - Z.of_nat (base.size (a_running a))).
Definition maxRunsNat (a : absQueue) : nat := Z.to_nat (a_maxRuns a).

(** Run [fill], keep [keep] queued. *)
Definition spec_fill (fill keep : list slot) (a : absQueue) : absQueue :=
  AbsQueue (kmap taskId fill ∪ a_running a) (kmap taskId keep) (a_maxRuns a) (a_maxRunsFrom a).

(** The decisions in closed form: slots to fill, to cancel, the new maps. *)
Definition spec_decide (kind : V1ConcurrencyStrategy) (cmp : slot → slot → Z) (a : absQueue) :
    option (list slot * list slot * absQueue) :=
  let q := sorted cmp (a_queued a) in
  let fill := take (free a) q in
  let rest := drop (free a) q in
  match kind with
  | NONE => None
  | GROUPROUNDROBIN => Some (fill, [], spec_fill fill rest a)
  | CANCELNEWEST => Some (fill, rest, spec_fill fill [] a)
  | CANCELQUEUEDEXCEPTNEWEST =>
      let n := length rest - maxRunsNat a in
      Some (fill, take n rest, spec_fill fill (drop n rest) a)
  | CANCELQUEUEDEXCEPTOLDEST =>
      Some (fill, drop (maxRunsNat a) rest, spec_fill fill (take (maxRunsNat a) rest) a)
  | CANCELINPROGRESS =>
      let all := sorted cmp (a_running a ∪ a_queued a) in
      let keep := take (maxRunsNat a) all in
      Some (filter (λ s, taskId s ∈ dom (a_queued a)) keep, drop (maxRunsNat a) all,
            AbsQueue (kmap taskId keep) ∅ (a_maxRuns a) (a_maxRunsFrom a))
  end.

Fixpoint spec_wal (msgs : list walMessage) (a : absQueue) : list slot * absQueue :=
  match msgs with
  | [] => ([], a)
  | msg :: msgs =>
      let '(superseded, a) := spec_message msg a in
      let '(rest, a) := spec_wal msgs a in
      (superseded ++ rest, a)
  end.

(** Queued slots whose schedule timeout has passed. *)
Definition expired (now : Z) (kv : Z * slot) : Prop :=
  (scheduleTimeoutAtMs kv.2 ≤ UnixMilli now)%Z.
#[global] Instance expired_dec now kv : Decision (expired now kv).
Proof. unfold expired. apply _. Defined.

Definition spec_evict (now : Z) (a : absQueue) : absQueue :=
  AbsQueue (a_running a) (filter (λ kv, ¬ expired now kv) (a_queued a))
    (a_maxRuns a) (a_maxRunsFrom a).

Definition spec_expired (now : Z) (a : absQueue) : list slot :=
  sorted SlotIndex.timeoutSlotCompare (filter (expired now) (a_queued a)).

(** The pipeline of a batch on the maps. *)
Definition spec_process (kind : V1ConcurrencyStrategy) (cmp : slot → slot → Z) (now : Z)
    (msgs : list walMessage) (a : absQueue) : option (decisions * absQueue) :=
  let '(superseded, a1) := spec_wal msgs a in
  match spec_decide kind cmp (spec_evict now a1) with
  | None => None
  | Some (fill, cancel, a') =>
      Some (Decisions fill (superseded ++ cancel) (spec_expired now a1), a')
  end.

(** A task holds at most one slot, and every slot is filed under its task. *)
Record abs_ok (a : absQueue) : Prop := {
  ao_disjoint : a_running a ##ₘ a_queued a;
  ao_running : map_Forall (λ k s, taskId s = k) (a_running a);
  ao_queued : map_Forall (λ k s, taskId s = k) (a_queued a)
}.

Definition total (a : absQueue) : nat := base.size (a_running a) + base.size (a_queued a).

(** ** Lists and maps of slots *)

Lemma kmap_keyed (l : list slot) : map_Forall (λ k s, taskId s = k) (kmap taskId l).
Proof.
  induction l as [|s l IH]; [done|]. rewrite kmap_cons. by apply map_Forall_insert_2.
Qed.

Lemma kmap_without id (l : list slot) :
  NoDup (taskId <$> l) → kmap taskId (without id l) = delete id (kmap taskId l).
Proof. apply kmap_filter_ne. Qed.

Lemma kmap_replace s (l : list slot) :
  NoDup (taskId <$> l) →
  kmap taskId (s :: without (taskId s) l) = <[taskId s := s]> (kmap taskId l).
Proof. intros. by rewrite kmap_cons, kmap_without, insert_delete_eq. Qed.

Lemma nodup_without id (l : list slot) :
  NoDup (taskId <$> l) → NoDup (taskId <$> without id l).
Proof. apply NoDup_fmap_filter. Qed.

Lemma nodup_replace s (l : list slot) :
  NoDup (taskId <$> l) → NoDup (taskId <$> (s :: without (taskId s) l)).
Proof. intros. rewrite fmap_cons. constructor; [apply not_in_without|by apply nodup_without]. Qed.

Lemma kmap_nil : kmap taskId [] = (∅ : gmap Z slot).
Proof. done. Qed.

Lemma kmap_app (l k : list slot) : kmap taskId (l ++ k) = kmap taskId l ∪ kmap taskId k.
Proof.
  induction l as [|s l IH]; [symmetry; apply (left_id_L ∅ (∪))|].
  simpl. rewrite !kmap_cons, IH. by rewrite insert_union_l.
Qed.

Lemma abs_effect s s' R B :
  sq_effect s s' R B → NoDup (taskId <$> R) → NoDup (taskId <$> B) →
  abs s' = AbsQueue (kmap taskId R) (kmap taskId B) (maxRuns s) (maxRunsFrom s).
Proof.
  intros [Hwf Hr Hb _ Hl] HR HB. unfold abs, limit in *. simplify_eq Hl. intros -> ->.
  f_equal; apply kmap_perm; [by rewrite Hr|done|by rewrite Hb|done].
Qed.

Lemma abs_runs_size s : sq_wf s → base.size (a_running (abs s)) = length (runs s).
Proof. intros. apply kmap_size. by apply runs_nodup. Qed.

Lemma abs_backlog_size s : sq_wf s → base.size (a_queued (abs s)) = length (backlog s).
Proof. intros. apply kmap_size. by apply backlog_nodup. Qed.

Lemma get_running id s : sq_wf s → Running.get id (running s) = a_running (abs s) !! id.
Proof. intros Hwf. pose proof (wf_cmp s Hwf). apply (Running.get_law (compare s)), Hwf. Qed.

Lemma get_queued id s : sq_wf s → SlotIndex.get id (queuedIndex s) = a_queued (abs s) !! id.
Proof. intros Hwf. apply (SlotIndex.o_get (compare s)), Hwf. Qed.

(** ** The mutations on the maps *)

(** [s'] is reached from [s] by mutations and holds [a]. *)
Record reaches (s s' : subQueue) (a : absQueue) : Prop := {
  re_wf : sq_wf s';
  re_frame : same_frame s s';
  re_mutates : rtc mutates s s';
  re_abs : abs s' = a
}.

Lemma reaches_refl s : sq_wf s → reaches s s (abs s).
Proof. intros. split; [done|done|apply rtc_refl|done]. Qed.

Lemma reaches_trans s s1 s2 a1 a2 : reaches s s1 a1 → reaches s1 s2 a2 → reaches s s2 a2.
Proof.
  intros [_ [Hk Hc] Hm _] [Hwf [Hk' Hc'] Hm' Ha].
  split; [done|split; congruence|by etrans|done].
Qed.

Lemma reaches_mutation s s' R B :
  sq_wf s → mutates s s' → sq_effect s s' R B →
  NoDup (taskId <$> R) → NoDup (taskId <$> B) →
  reaches s s' (AbsQueue (kmap taskId R) (kmap taskId B) (maxRuns s) (maxRunsFrom s)).
Proof.
  intros Hwf Hm He HR HB. split; [apply He|apply He|by apply rtc_once|]. by eapply abs_effect.
Qed.

(** Enough room on the maps. *)
Definition fits (a : absQueue) : Prop := (Z.of_nat (total a) < maxSlots)%Z.

Lemma reaches_room s s' a :
  reaches s s' a →
  ((Z.of_nat (base.size (a_running a)) < maxSlots)%Z → room (runs s')) ∧
  ((Z.of_nat (base.size (a_queued a)) < maxSlots)%Z → room (backlog s')).
Proof.
  intros [Hwf _ _ <-]. unfold room. rewrite abs_runs_size, abs_backlog_size by done. done.
Qed.

Section chain.
Context (s s' : subQueue) (a : absQueue) (Hre : reaches s s' a).

Lemma reach_remove id :
  reaches s (removeRunning id s').2
    (AbsQueue (delete id (a_running a)) (a_queued a) (a_maxRuns a) (a_maxRunsFrom a)).
Proof.
  eapply reaches_trans; [exact Hre|]. destruct Hre as [Hwf _ _ <-].
  pose proof (runs_nodup s' Hwf) as Hr. simpl. rewrite <-kmap_without by done.
  apply reaches_mutation; [done|constructor|by apply removeRunning_spec|by apply nodup_without|].
  by apply backlog_nodup.
Qed.

Lemma reach_add sl :
  (Z.of_nat (base.size (delete (taskId sl) (a_running a))) < maxSlots)%Z →
  reaches s (addRunning sl s')
    (AbsQueue (<[taskId sl := sl]> (a_running a)) (a_queued a) (a_maxRuns a) (a_maxRunsFrom a)).
Proof.
  intros Hfit. eapply reaches_trans; [exact Hre|]. destruct Hre as [Hwf _ _ <-].
  pose proof (runs_nodup s' Hwf) as Hr. simpl in *. rewrite <-kmap_without in Hfit by done.
  rewrite kmap_size in Hfit by by apply nodup_without. rewrite <-kmap_replace by done.
  apply reaches_mutation; [done|by constructor|by apply addRunning_spec|by apply nodup_replace|].
  by apply backlog_nodup.
Qed.

Lemma reach_enqueue sl :
  (Z.of_nat (base.size (a_queued a)) < maxSlots)%Z →
  reaches s (enqueue sl s')
    (AbsQueue (a_running a) (<[taskId sl := sl]> (a_queued a)) (a_maxRuns a) (a_maxRunsFrom a)).
Proof.
  intros Hroom%(reaches_room s s' a Hre). eapply reaches_trans; [exact Hre|].
  destruct Hre as [Hwf _ _ <-]. pose proof (backlog_nodup s' Hwf) as Hb. simpl.
  rewrite <-kmap_replace by done.
  apply reaches_mutation; [done|by constructor|by apply enqueue_spec| |by apply nodup_replace].
  by apply runs_nodup.
Qed.

Lemma reach_queuedDelete id :
  reaches s (queuedDelete id s').2
    (AbsQueue (a_running a) (delete id (a_queued a)) (a_maxRuns a) (a_maxRunsFrom a)).
Proof.
  eapply reaches_trans; [exact Hre|]. destruct Hre as [Hwf _ _ <-].
  pose proof (backlog_nodup s' Hwf) as Hb. simpl. rewrite <-kmap_without by done.
  apply reaches_mutation; [done|constructor|by apply queuedDelete_spec| |by apply nodup_without].
  by apply runs_nodup.
Qed.

Lemma reach_get_running id : Running.get id (running s') = a_running a !! id.
Proof. destruct Hre as [Hwf _ _ <-]. by apply get_running. Qed.

Lemma reach_get_queued id : SlotIndex.get id (queuedIndex s') = a_queued a !! id.
Proof. destruct Hre as [Hwf _ _ <-]. by apply get_queued. Qed.
End chain.

Lemma reach_observe msg s :
  sq_wf s →
  reaches s (match w_maxRuns msg with
             | Some m => observeMaxRuns m (w_taskInsertedAt msg) s | None => s end)
    (spec_observe msg (abs s)).
Proof.
  intros Hwf. unfold spec_observe. destruct (w_maxRuns msg) as [m|]; [|by apply reaches_refl].
  destruct (observeMaxRuns_frame m (w_taskInsertedAt msg) s) as (Hw & Hr & Hq & Hx & Hu & Hf).
  split; [auto|done|apply rtc_once; constructor|].
  unfold abs, runs, backlog, queuedIndex. rewrite Hr, Hq, Hx.
  unfold observeMaxRuns. simpl. case_decide; zcase; try lia; done.
Qed.

(** ** The replay refines the specification *)

Lemma spec_observe_maps msg a :
  a_running (spec_observe msg a) = a_running a ∧ a_queued (spec_observe msg a) = a_queued a.
Proof. unfold spec_observe. by repeat case_match. Qed.

Lemma applyInsert_refines msg s :
  sq_wf s → abs_ok (abs s) → fits (abs s) → w_operation msg = "INSERT"%string →
  (applyInsert msg s).1 = (spec_message msg (abs s)).1 ∧
  reaches s (applyInsert msg s).2 (spec_message msg (abs s)).2.
Proof.
  intros Hwf [Hd _ _] Hfit Hop. unfold applyInsert, spec_message. rewrite decide_True by done.
  pose proof (reach_observe msg s Hwf) as Hob. destruct (spec_observe_maps msg (abs s)) as [HeR HeQ].
  rewrite <-HeR, <-HeQ in Hd. unfold fits, total in Hfit. rewrite <-HeR, <-HeQ in Hfit.
  set (s1 := match w_maxRuns msg with Some m => _ | None => _ end) in *.
  set (a1 := spec_observe msg (abs s)) in *. clearbody s1 a1. cbv zeta.
  rewrite (reach_get_running s s1 a1 Hob), (reach_get_queued s s1 a1 Hob). unfold held, spec_queue.
  change (taskId (walMessageToSlot msg)) with (w_taskId msg).
  change (taskRetryCount (walMessageToSlot msg)) with (w_taskRetryCount msg).
  destruct (a_running a1 !! w_taskId msg) as [cur|] eqn:HR.
  { destruct (Z.compare_spec (taskRetryCount cur) (w_taskRetryCount msg));
      (zcase; [try lia|try lia]; try (case_decide; [try lia|try lia])); split; try done.
    apply (reach_enqueue _ _ _ (reach_remove _ _ _ Hob _) (walMessageToSlot msg)). simpl. lia. }
  destruct (a_queued a1 !! w_taskId msg) as [cur|] eqn:HQ.
  { destruct (Z.compare_spec (taskRetryCount cur) (w_taskRetryCount msg));
      (zcase; [try lia|try lia]; try (case_decide; [try lia|try lia])); split; try done.
    rewrite delete_id, <-insert_delete_eq by done.
    apply (reach_enqueue _ _ _ (reach_queuedDelete _ _ _ Hob _) (walMessageToSlot msg)). simpl.
    pose proof (map_size_delete_le (a_queued a1) (w_taskId msg)). lia. }
  split; [done|]. rewrite delete_id by done. simpl. apply reach_enqueue; [done|]. lia.
Qed.

Lemma applyMessage_refines msg s :
  sq_wf s → abs_ok (abs s) → fits (abs s) →
  (applyMessage msg s).1 = (spec_message msg (abs s)).1 ∧
  reaches s (applyMessage msg s).2 (spec_message msg (abs s)).2.
Proof.
  intros Hwf Hok Hfit. unfold applyMessage. case_decide as Hi; [by apply applyInsert_refines|].
  unfold spec_message. rewrite (decide_False (P := _ = "INSERT"%string)) by done.
  pose proof (reaches_refl s Hwf) as Hre. destruct Hok as [Hd _ _]. unfold fits, total in Hfit.
  case_decide as Hu; [split; [done|]|case_decide as Hde; [split; [done|]|done]].
  - unfold applyUpdate. simpl. destruct (w_isFilled msg).
    + apply (reach_add _ _ _ (reach_queuedDelete _ _ _ Hre _) (walMessageToSlot msg)).
      pose proof (map_size_delete_le (a_running (abs s)) (w_taskId msg)). simpl in *. lia.
    + apply (reach_enqueue _ _ _ (reach_remove _ _ _ Hre _) (walMessageToSlot msg)). simpl in *. lia.
  - unfold applyDelete. rewrite get_running, get_queued by done.
    change (taskId (walMessageToSlot msg)) with (w_taskId msg). cbn [snd].
    pose proof (reach_remove _ _ _ Hre (w_taskId msg)) as Hrr.
    pose proof (reach_queuedDelete _ _ _ Hre (w_taskId msg)) as Hrq.
    destruct (a_running (abs s) !! w_taskId msg) as [cur|] eqn:HR.
    + by rewrite (delete_id (a_queued (abs s))) by by eapply map_disjoint_Some_l.
    + rewrite (delete_id (a_running (abs s))) by done.
      destruct (a_queued (abs s) !! w_taskId msg) as [cur|] eqn:HQ; [done|].
      by rewrite delete_id.
Qed.

Lemma spec_queue_ok s a : abs_ok a → abs_ok (spec_queue s a) ∧ total (spec_queue s a) ≤ S (total a).
Proof.
  intros [Hd Hr Hq]. unfold total. split; simpl.
  - split; simpl; [|by apply map_Forall_delete|by apply map_Forall_insert_2].
    apply map_disjoint_insert_r. split; [apply lookup_delete_eq|by apply map_disjoint_delete_l].
  - pose proof (map_size_delete_le (a_running a) (taskId s)).
    pose proof (map_size_insert_le (a_queued a) (taskId s) s). lia.
Qed.

Lemma spec_message_ok msg a :
  abs_ok a → abs_ok (spec_message msg a).2 ∧ total (spec_message msg a).2 ≤ S (total a).
Proof.
  intros Hok. pose proof Hok as [Hd Hr Hq]. unfold spec_message.
  case_decide; [|case_decide; [|case_decide; simpl; [|auto]]].
  - assert (Hok1 : abs_ok (spec_observe msg a) ∧ total (spec_observe msg a) = total a).
    { unfold total. destruct (spec_observe_maps msg a) as [HeR HeQ].
      split; [split|]; by rewrite ?HeR, ?HeQ. }
    destruct Hok1 as [Hok1 Ht]. rewrite <-Ht.
    destruct (held _ _) as [cur|]; [|by apply spec_queue_ok].
    destruct (_ ?= _)%Z; simpl; [auto|by apply spec_queue_ok|auto].
  - destruct (w_isFilled msg); [|by apply spec_queue_ok]. unfold total. simpl. split.
    + split; simpl; [|by apply map_Forall_insert_2|by apply map_Forall_delete].
      apply map_disjoint_insert_l. split; [apply lookup_delete_eq|by apply map_disjoint_delete_r].
    + pose proof (map_size_delete_le (a_queued a) (w_taskId msg)).
      pose proof (map_size_insert_le (a_running a) (w_taskId msg) (walMessageToSlot msg)). lia.
  - unfold total. simpl. split.
    + split; simpl; [|by apply map_Forall_delete..].
      by apply map_disjoint_delete_l, map_disjoint_delete_r.
    + pose proof (map_size_delete_le (a_queued a) (w_taskId msg)).
      pose proof (map_size_delete_le (a_running a) (w_taskId msg)). lia.
Qed.

Lemma applyWAL_refines msgs s :
  sq_wf s → abs_ok (abs s) → (Z.of_nat (total (abs s) + length msgs) ≤ maxSlots)%Z →
  (applyWAL msgs s).1 = (spec_wal msgs (abs s)).1 ∧
  reaches s (applyWAL msgs s).2 (spec_wal msgs (abs s)).2 ∧
  abs_ok (spec_wal msgs (abs s)).2 ∧
  total (spec_wal msgs (abs s)).2 ≤ total (abs s) + length msgs.
Proof.
  revert s. induction msgs as [|msg msgs IH]; intros s Hwf Hok Hfit; simpl.
  { split_and!; [done|by apply reaches_refl|done|lia]. }
  simpl in Hfit. destruct (applyMessage_refines msg s Hwf Hok) as [Hout Hre]; [unfold fits; lia|].
  destruct (spec_message_ok msg (abs s) Hok) as [Hok1 Ht1].
  destruct (applyMessage msg s) as [out s1], (spec_message msg (abs s)) as [out' a1].
  simpl in *. subst out'. pose proof (re_abs _ _ _ Hre) as Ha1. subst a1.
  destruct (IH s1) as (Hout & Hre' & Hok' & Ht'); [apply Hre|done|lia|].
  destruct (applyWAL msgs s1) as [rest s2], (spec_wal msgs (abs s1)) as [rest' a2].
  simpl in *. subst rest'. split_and!; [done|by eapply reaches_trans|done|lia].
Qed.

(** ** Pops of the backlog *)

Lemma nodup_app_parts (l vs rest : list slot) :
  NoDup (taskId <$> l) → l ≡ₚ vs ++ rest → NoDup (taskId <$> vs) ∧ NoDup (taskId <$> rest).
Proof. intros Hnd Hp. rewrite Hp, fmap_app in Hnd. by apply NoDup_app in Hnd as (? & _ & ?). Qed.

Lemma sorted_perm cmp (l : list slot) : NoDup (taskId <$> l) → sorted cmp (kmap taskId l) ≡ₚ l.
Proof.
  intros. unfold sorted. rewrite merge_sort_Permutation. by apply SlotIndex.map_to_list_kmap.
Qed.

Lemma reach_popTimedOut now s s' a :
  reaches s s' a →
  (queuedPopTimedOut now s').1 = spec_expired now a ∧
  reaches s (queuedPopTimedOut now s').2 (spec_evict now a).
Proof.
  intros Hre. pose proof Hre as [Hwf _ _ <-]. pose proof (backlog_nodup s' Hwf) as Hnd.
  pose proof (queuedPopTimedOut_spec now s' Hwf) as Hsp.
  pose proof (mu_popTimedOut s' now) as Hmu.
  destruct (queuedPopTimedOut now s') as [vs s2]; simpl in *.
  destruct Hsp as (He & Hp & Hle & Hgt & Hs).
  destruct (nodup_app_parts _ _ _ Hnd Hp) as [Hndv Hndr]. split.
  - unfold spec_expired. simpl.
    rewrite <-(SlotIndex.kmap_rest (backlog s') (backlog s2) vs (expired now)); [|done| | |done].
    + apply SlotIndex.sorted_members_unique; [apply _|apply SlotIndex.timeoutSlotCompare_tie_free|done..].
    + by rewrite Hp, Permutation_app_comm.
    + intros x Hx%Hgt. unfold expired. simpl. lia.
  - eapply reaches_trans; [exact Hre|]. unfold spec_evict. simpl.
    rewrite <-(SlotIndex.kmap_rest (backlog s') vs (backlog s2) (λ kv, ¬ expired now kv)); [|done..| |].
    + apply reaches_mutation; [done|done|done|by apply runs_nodup|done].
    + intros x Hx%Hle. unfold expired. simpl. lia.
    + intros x Hx%Hgt. unfold expired. simpl. lia.
Qed.

(** [pop n] takes the [n] best queued slots. *)
Lemma reach_pop n s s' a :
  reaches s s' a → SlotIndex.tie_free (compare s') →
  let q := sorted (compare s') (a_queued a) in
  (queuedPop n s').1 = take (Z.to_nat n) q ∧
  reaches s (queuedPop n s').2
    (AbsQueue (a_running a) (kmap taskId (drop (Z.to_nat n) q)) (a_maxRuns a) (a_maxRunsFrom a)).
Proof.
  intros Hre Htie. pose proof Hre as [Hwf _ _ <-]. pose proof (backlog_nodup s' Hwf) as Hnd.
  pose proof (wf_cmp s' Hwf). pose proof (queuedPop_spec n s' Hwf) as Hsp.
  pose proof (mu_pop s' n) as Hmu. destruct (queuedPop n s') as [vs s2]; simpl in *.
  destruct Hsp as (He & Hp & Hlen & Hs & Hb).
  destruct (nodup_app_parts _ _ _ Hnd Hp) as [Hndv Hndr].
  set (q := sorted (compare s') (kmap taskId (backlog s'))).
  assert (Hq : q ≡ₚ backlog s') by by apply sorted_perm.
  assert (Hvs : vs = take (Z.to_nat n) q).
  { rewrite (SlotIndex.sorted_prefix (compare s') (backlog s') vs (backlog s2)) by done.
    fold q. rewrite Hlen, <-Hq. destruct (decide (Z.to_nat n ≤ length q)).
    - by rewrite Nat.min_l.
    - rewrite Nat.min_r, !take_ge by lia. done. }
  split; [done|]. eapply reaches_trans; [exact Hre|].
  assert (Hrest : backlog s2 ≡ₚ drop (Z.to_nat n) q).
  { apply (Permutation_app_inv_l vs). rewrite <-Hp, <-Hq. rewrite Hvs at 1. by rewrite take_drop. }
  apply reaches_mutation; [done|done|by eapply effect_backlog|by apply runs_nodup|].
  by rewrite <-Hrest.
Qed.

(** Filling free capacity. *)
Lemma reach_addAll l s s' a :
  reaches s s' a → NoDup (taskId <$> l) → a_running a ##ₘ kmap taskId l →
  (Z.of_nat (base.size (a_running a) + length l) ≤ maxSlots)%Z →
  reaches s (addAll l s')
    (AbsQueue (kmap taskId l ∪ a_running a) (a_queued a) (a_maxRuns a) (a_maxRunsFrom a)).
Proof.
  revert s' a. induction l as [|x l IH]; intros s' a Hre Hnd Hd Hfit.
  { unfold kmap. simpl. rewrite (left_id_L ∅ (∪)). by destruct a. }
  rewrite fmap_cons in Hnd. apply NoDup_cons in Hnd as [Hn Hnd]. rewrite kmap_cons in *.
  apply map_disjoint_insert_r in Hd as [Hx Hd]. simpl in Hfit.
  unfold addAll. simpl. assert (Hre1 := reach_add _ _ _ Hre x).
  rewrite delete_id in Hre1 by done. specialize (Hre1 ltac:(lia)).
  pose proof (IH _ _ Hre1 Hnd) as IH1. simpl in IH1.
  rewrite <-insert_union_r in IH1 by by apply lookup_kmap_None. rewrite insert_union_l in IH1.
  apply IH1.
  - apply map_disjoint_insert_l. split; [by apply lookup_kmap_None|done].
  - pose proof (map_size_insert_le (a_running a) (taskId x) x). lia.
Qed.

(** ** The fill strategies refine the specification *)

(** The int32 subtraction of [slotsToRun] does not overflow. *)
Definition limit_fits (a : absQueue) : Prop :=
  (- 2 ^ 31 ≤ a_maxRuns a - Z.of_nat (base.size (a_running a)) < 2 ^ 31)%Z.

Lemma slotsToRun_free s s' a :
  reaches s s' a → limit_fits a → Z.to_nat (slotsToRun s') = free a.
Proof.
  intros [Hwf _ _ <-] Hl. pose proof (runs_bound s' Hwf). unfold maxSlots in *.
  unfold limit_fits, free in *. rewrite abs_runs_size in * by done. unfold slotsToRun.
  rewrite len_runs. rewrite (to_int32_small (Z.of_nat _)) by lia.
  by rewrite to_int32_small.
Qed.

Section fill.
Context (s s' : subQueue) (a : absQueue) (Hre : reaches s s' a) (Hok : abs_ok a).
Context (Htie : SlotIndex.tie_free (compare s')).
Context (Hfit : (Z.of_nat (total a) ≤ maxSlots)%Z).
Let q := sorted (compare s') (a_queued a).

Lemma sorted_queued : NoDup (taskId <$> q) ∧ kmap taskId q = a_queued a ∧
  length q = base.size (a_queued a).
Proof.
  clear Hok Htie Hfit. unfold q. pose proof Hre as [Hwf _ _ <-]. simpl. pose proof (backlog_nodup s' Hwf) as Hnd.
  pose proof (sorted_perm (compare s') _ Hnd) as Hp. split_and!; [by rewrite Hp| |].
  - apply kmap_perm; [by rewrite Hp|done].
  - by rewrite Hp, kmap_size.
Qed.

Lemma nodup_take_drop n : NoDup (taskId <$> take n q) ∧ NoDup (taskId <$> drop n q).
Proof.
  destruct sorted_queued as [Hnd _]. apply (nodup_app_parts q); [done|]. by rewrite take_drop.
Qed.

Lemma reach_fill :
  limit_fits a →
  (queuedPop (slotsToRun s') s').1 = take (free a) q ∧
  reaches s (addAll (take (free a) q) (queuedPop (slotsToRun s') s').2)
    (spec_fill (take (free a) q) (drop (free a) q) a).
Proof.
  intros Hl. destruct (reach_pop (slotsToRun s') s s' a Hre Htie) as [Hv Hr].
  rewrite (slotsToRun_free s s' a Hre Hl) in Hv, Hr. fold q in Hv, Hr. split; [done|].
  destruct sorted_queued as (Hnd & Hkm & Hlen).
  apply (reach_addAll (take (free a) q) _ _ _ Hr).
  - apply nodup_take_drop.
  - simpl. eapply map_disjoint_weaken_r; [apply Hok|].
    rewrite <-Hkm. pose proof (kmap_app (take (free a) q) (drop (free a) q)) as Ha.
    rewrite take_drop in Ha. rewrite Ha. apply map_union_subseteq_l.
  - simpl. rewrite length_take. unfold total in Hfit. lia.
Qed.
End fill.

Lemma sorted_kmap cmp (l : list slot) :
  GoCompare cmp → SlotIndex.tie_free cmp → NoDup (taskId <$> l) → StronglySorted (cmp_le cmp) l →
  sorted cmp (kmap taskId l) = l.
Proof. intros. symmetry. by apply SlotIndex.sorted_members_unique. Qed.

Lemma sorted_sorted cmp (m : gmap Z slot) :
  GoCompare cmp → StronglySorted (cmp_le cmp) (sorted cmp m).
Proof. intros. apply StronglySorted_merge_sort; apply _. Qed.

Lemma sorted_drop (R : relation slot) n l : StronglySorted R l → StronglySorted R (drop n l).
Proof. intros Hs. rewrite <-(take_drop n l) in Hs. by apply StronglySorted_app_1_r in Hs. Qed.

(** What a decision function must do to implement a strategy: the slots it
    fills and the state are as specified, the slots it cancels are the
    specified ones, in some order. *)
Definition decides (dec : decideFn) (kind : V1ConcurrencyStrategy) : Prop :=
  ∀ s s' a, reaches s s' a → abs_ok a → SlotIndex.tie_free (compare s') →
    (Z.of_nat (total a) ≤ maxSlots)%Z → limit_fits a →
    ∃ fill cancel cancel' a',
      spec_decide kind (compare s') a = Some (fill, cancel, a') ∧
      dec s' = (fill, cancel', (dec s').2) ∧ cancel' ≡ₚ cancel ∧ reaches s (dec s').2 a'.

Lemma roundRobin_decides : decides decideGroupRoundRobin GROUPROUNDROBIN.
Proof.
  intros s s' a Hre Hok Htie Hfit Hl. destruct (reach_fill s s' a Hre Hok Htie Hfit Hl) as [Hv Hr].
  unfold decideGroupRoundRobin. destruct (queuedPop (slotsToRun s') s') as [vs s2]. simpl in *.
  subst vs. do 4 eexists. split_and!; [done|done|done|done].
Qed.

(** After the fill, the queued index holds the rest in order. *)
Lemma fill_rest s s' s2 a n :
  reaches s s' a → compare s2 = compare s' → SlotIndex.tie_free (compare s') →
  sorted (compare s2) (a_queued (spec_fill (take n (sorted (compare s') (a_queued a)))
    (drop n (sorted (compare s') (a_queued a))) a)) = drop n (sorted (compare s') (a_queued a)).
Proof.
  intros Hre Hc Htie. pose proof (wf_cmp _ (re_wf _ _ _ Hre)). rewrite Hc. simpl.
  apply sorted_kmap; [done|done|apply (nodup_take_drop s s' a Hre)|].
  by apply sorted_drop, sorted_sorted.
Qed.

Lemma reaches_compare s s' s2 a a2 : reaches s s' a → reaches s s2 a2 → compare s2 = compare s'.
Proof. intros [_ [_ H1] _ _] [_ [_ H2] _ _]. congruence. Qed.

Lemma reaches_len s s' a :
  reaches s s' a → SlotIndex.len (queuedIndex s') = base.size (a_queued a).
Proof. intros [Hwf _ _ <-]. rewrite len_backlog. by rewrite abs_backlog_size. Qed.

(** A fill strategy after its fill: popping [n] takes the [n] best of the rest. *)
Lemma pop_rest s s' a n m :
  reaches s s' a → abs_ok a → SlotIndex.tie_free (compare s') → 
  let q := sorted (compare s') (a_queued a) in
  ∀ s2, reaches s s2 (spec_fill (take m q) (drop m q) a) →
  SlotIndex.len (queuedIndex s2) = length (drop m q) ∧ maxRuns s2 = a_maxRuns a ∧
  (queuedPop n s2).1 = take (Z.to_nat n) (drop m q) ∧
  reaches s (queuedPop n s2).2 (spec_fill (take m q) (drop (Z.to_nat n) (drop m q)) a).
Proof.
  intros Hre Hok Htie q s2 Hr. pose proof (reaches_compare _ _ _ _ _ Hre Hr) as Hc.
  pose proof (fill_rest s s' s2 a m Hre Hc Htie) as Hrest. fold q in Hrest.
  destruct (reach_pop n s s2 _ Hr) as [Hv Hp]; [by rewrite Hc|]. rewrite Hrest in Hv, Hp.
  split_and!; [|by pose proof (re_abs _ _ _ Hr) as [= _ _ ? _]|done|done].
  rewrite (reaches_len _ _ _ Hr). simpl. apply kmap_size.
  apply (nodup_take_drop s s' a Hre).
Qed.

Lemma cancelNewest_decides : decides decideCancelNewest CANCELNEWEST.
Proof.
  intros s s' a Hre Hok Htie Hfit Hl. destruct (reach_fill s s' a Hre Hok Htie Hfit Hl) as [Hv Hr].
  unfold decideCancelNewest. destruct (queuedPop (slotsToRun s') s') as [vs s1]. simpl in Hv, Hr.
  subst vs. set (fill := take (free a) _) in *. set (s2 := addAll fill s1) in *.
  destruct (pop_rest s s' a (Z.of_nat (SlotIndex.len (queuedIndex s2))) (free a) Hre Hok Htie s2 Hr)
    as (Hlen & _ & Hv & Hp).
  destruct (queuedPop _ s2) as [vs s3]. simpl in Hv, Hp |- *.
  rewrite Nat2Z.id, Hlen, take_ge in Hv by lia. rewrite Nat2Z.id, Hlen, drop_ge in Hp by lia.
  do 4 eexists. split_and!; [done|done|by rewrite Hv|done].
Qed.

Lemma exceptNewest_decides : decides decideCancelQueuedExceptNewest CANCELQUEUEDEXCEPTNEWEST.
Proof.
  intros s s' a Hre Hok Htie Hfit Hl. destruct (reach_fill s s' a Hre Hok Htie Hfit Hl) as [Hv Hr].
  unfold decideCancelQueuedExceptNewest. destruct (queuedPop (slotsToRun s') s') as [vs s1].
  simpl in Hv, Hr. subst vs. set (fill := take (free a) _) in *. set (s2 := addAll fill s1) in *.
  destruct (pop_rest s s' a (Z.of_nat (SlotIndex.len (queuedIndex s2)) - maxRuns s2) (free a)
    Hre Hok Htie s2 Hr) as (Hlen & Hm & Hv & Hp).
  destruct (queuedPop _ s2) as [vs s3]. simpl in Hv, Hp |- *. rewrite Hlen, Hm in *.
  set (rest := drop (free a) _) in *.
  assert (Hn : ∀ l : list slot, length l = length rest →
    take (Z.to_nat (Z.of_nat (length rest) - a_maxRuns a)) l = take (length rest - maxRunsNat a) l ∧
    drop (Z.to_nat (Z.of_nat (length rest) - a_maxRuns a)) l = drop (length rest - maxRunsNat a) l).
  { intros l Hl'. unfold maxRunsNat. destruct (decide (0 ≤ a_maxRuns a)%Z).
    - replace (Z.to_nat _) with (length rest - Z.to_nat (a_maxRuns a)) by lia. done.
    - rewrite !take_ge, !drop_ge by lia. done. }
  destruct (Hn rest eq_refl) as [Ht Hd]. rewrite Ht in Hv. rewrite Hd in Hp.
  do 4 eexists. split_and!; [done|done|by rewrite Hv|done].
Qed.

Lemma reach_enqueueAll l s s' a :
  reaches s s' a → (Z.of_nat (base.size (a_queued a) + length l) ≤ maxSlots)%Z →
  reaches s (foldl (λ sq x, enqueue x sq) s' l)
    (AbsQueue (a_running a) (kmap taskId (rev l) ∪ a_queued a) (a_maxRuns a) (a_maxRunsFrom a)).
Proof.
  revert s' a. induction l as [|x l IH]; intros s' a Hre Hfit.
  { unfold kmap. simpl. rewrite (left_id_L ∅ (∪)). by destruct a. }
  simpl in *. pose proof (reach_enqueue _ _ _ Hre x ltac:(lia)) as Hre1.
  pose proof (IH _ _ Hre1) as IH1. simpl in IH1. rewrite kmap_app, <-(assoc_L (∪)).
  assert (Hx : kmap taskId [x] ∪ a_queued a = <[taskId x:=x]> (a_queued a)).
  { unfold kmap. simpl. by rewrite <-insert_union_l, (left_id_L ∅ (∪)). }
  rewrite Hx. apply IH1. pose proof (map_size_insert_le (a_queued a) (taskId x) x). lia.
Qed.

Lemma exceptOldest_decides : decides decideCancelQueuedExceptOldest CANCELQUEUEDEXCEPTOLDEST.
Proof.
  intros s s' a Hre Hok Htie Hfit Hl. destruct (reach_fill s s' a Hre Hok Htie Hfit Hl) as [Hv Hr].
  unfold decideCancelQueuedExceptOldest. destruct (queuedPop (slotsToRun s') s') as [vs s1].
  simpl in Hv, Hr. subst vs. set (fill := take (free a) _) in *. set (s2 := addAll fill s1) in *.
  destruct (pop_rest s s' a (Z.of_nat (SlotIndex.len (queuedIndex s2))) (free a)
    Hre Hok Htie s2 Hr) as (Hlen & Hm & Hv & Hp).
  set (rest := drop (free a) _) in *. rewrite Nat2Z.id, Hlen in Hv, Hp.
  rewrite take_ge in Hv by lia. rewrite drop_ge in Hp by lia. rewrite Hm.
  replace (Z.to_nat (Z.max 0 (a_maxRuns a))) with (maxRunsNat a) by (unfold maxRunsNat; lia).
  simpl. fold rest fill. case_decide as Hlt.
  - rewrite Hlen in Hlt |- *. destruct (queuedPop _ s2) as [vs s3]. simpl in Hv, Hp |- *. subst vs.
    assert (Hnd : NoDup (taskId <$> take (maxRunsNat a) rest)).
    { destruct (nodup_take_drop s s' a Hre (free a)) as [_ Hnd]. fold rest in Hnd.
      apply (nodup_app_parts rest (take (maxRunsNat a) rest) (drop (maxRunsNat a) rest)); [done|].
      by rewrite take_drop. }
    pose proof (reach_enqueueAll (take (maxRunsNat a) rest) _ _ _ Hp) as Hq. simpl in Hq.
    rewrite kmap_nil, (right_id_L ∅ (∪)) in Hq.
    rewrite (kmap_perm taskId (rev _) (take (maxRunsNat a) rest)) in Hq;
      [|by rewrite <-Permutation_rev|by rewrite <-Permutation_rev].
    do 4 eexists. split_and!; [done|done|done|]. apply Hq.
    rewrite length_take. pose proof (runs_bound s' (re_wf _ _ _ Hre)).
    destruct (sorted_queued s s' a Hre) as (_ & _ & Hsz). unfold total in Hfit.
    assert (length rest ≤ base.size (a_queued a)) by (unfold rest; rewrite length_drop; lia).
    rewrite map_size_empty. lia.
  - rewrite Hlen in Hlt. do 4 eexists. split_and!; [done|done| |].
    + by rewrite drop_ge by lia.
    + rewrite take_ge by lia. exact Hr.
Qed.

(** ** Cancel-in-progress keeps the best candidates *)

(** [s'] is reached from [s] by mutations that leave the limit alone. *)
Record moves (s s' : subQueue) : Prop := {
  mo_wf : sq_wf s';
  mo_frame : same_frame s s';
  mo_mutates : rtc mutates s s';
  mo_limit : limit s' = limit s
}.

Lemma moves_refl s : sq_wf s → moves s s.
Proof. intros. split; [done|done|apply rtc_refl|done]. Qed.

Lemma moves_trans s s1 s2 : moves s s1 → moves s1 s2 → moves s s2.
Proof.
  intros [_ [Hk Hc] Hm Hl] [Hwf [Hk' Hc'] Hm' Hl'].
  split; [done|split; congruence|by etrans|congruence].
Qed.

Lemma effect_moves s s' R B : mutates s s' → sq_effect s s' R B → moves s s'.
Proof. intros Hm []. split; [done|done|by apply rtc_once|done]. Qed.

Lemma not_lt_le (cmp : slot → slot → Z) `{!GoCompare cmp} a b :
  (cmp a b < 0)%Z → ¬ b ≤[cmp] a.
Proof. unfold cmp_le. pose proof (gc_sym a b). lia. Qed.

Lemma tie_eq (cmp : slot → slot → Z) `{!GoCompare cmp} (l : list slot) a b :
  SlotIndex.tie_free cmp → NoDup (taskId <$> l) → a ∈ l → b ∈ l →
  a ≤[cmp] b → b ≤[cmp] a → a = b.
Proof.
  intros Htie Hnd Ha Hb Hab Hba. unfold cmp_le in *.
  assert (taskId a = taskId b) as Hid.
  { apply Htie. pose proof (gc_total cmp a b). lia. }
  assert (kmap taskId l !! taskId a = Some a) by by apply lookup_kmap.
  assert (kmap taskId l !! taskId a = Some b) by by apply lookup_kmap. congruence.
Qed.

Section in_progress.
Context (cmp : slot → slot → Z) `{!GoCompare cmp} (Htie : SlotIndex.tie_free cmp).

Lemma peek_backlog s :
  sq_wf s → compare s = cmp →
  match SlotIndex.peek (queuedIndex s) with
  | None => backlog s = []
  | Some c => c ∈ backlog s ∧ ∀ x, x ∈ backlog s → c ≤[cmp] x
  end.
Proof.
  intros Hwf Hc. pose proof (wf_queued s Hwf) as Hi. rewrite Hc in Hi.
  destruct (SlotIndex.peek (queuedIndex s)) as [c|] eqn:Hp.
  - by apply SlotIndex.o_peek.
  - unfold backlog. destruct (queuedIndex s) as [q|]; [|done]. simpl in *.
    unfold Heap.peek in Hp. by destruct (Heap.values _).
Qed.

(** Popping one slot removes the slot [peek] returns. *)
Lemma pop_peek s c :
  sq_wf s → compare s = cmp → SlotIndex.peek (queuedIndex s) = Some c →
  moves s (queuedPop 1 s).2 ∧ runs (queuedPop 1 s).2 ≡ₚ runs s ∧
  backlog s ≡ₚ c :: backlog (queuedPop 1 s).2.
Proof.
  intros Hwf Hc Hpk. pose proof (peek_backlog s Hwf Hc) as Hmin. rewrite Hpk in Hmin.
  destruct Hmin as [Hin Hmin]. pose proof (mu_pop s 1) as Hmu.
  pose proof (queuedPop_spec 1 s Hwf) as Hsp. destruct (queuedPop 1 s) as [vs s']. simpl in Hmu |- *.
  destruct Hsp as (He & Hp & Hlen & _ & Hb). rewrite Hc in Hb.
  split_and!; [by eapply effect_moves|apply He|].
  assert (Hl1 : length vs = 1).
  { rewrite Hlen. destruct (backlog s); [by apply not_elem_of_nil in Hin|]. simpl. lia. }
  destruct vs as [|x [|]]; try done. simpl in Hp. assert (x = c) as ->; [|done].
  assert (x ∈ backlog s) as Hx by (rewrite Hp; set_solver).
  apply (tie_eq cmp (backlog s)); [done|by apply backlog_nodup|done|done| |by apply Hmin].
  rewrite Hp in Hin. apply elem_of_cons in Hin as [->|Hin]; [done|]. apply Hb; [set_solver|done].
Qed.

Lemma worst_runs s :
  sq_wf s → compare s = cmp →
  match Running.worst (compare s) (running s) with
  | None => runs s = []
  | Some w => w ∈ runs s ∧ ∀ x, x ∈ runs s → x ≤[cmp] w
  end.
Proof. intros Hwf <-. apply Running.worst_law; apply Hwf. Qed.

(** Evicting a runner. *)
Lemma remove_runner s w :
  sq_wf s → w ∈ runs s →
  moves s (removeRunning (taskId w) s).2 ∧ runs s ≡ₚ w :: runs (removeRunning (taskId w) s).2 ∧
  backlog (removeRunning (taskId w) s).2 ≡ₚ backlog s.
Proof.
  intros Hwf Hw. destruct (removeRunning_spec (taskId w) s Hwf) as [He _].
  split_and!; [eapply effect_moves; [constructor|done]| |apply He].
  rewrite (ef_runs _ _ _ _ He). apply Permutation_cons_filter; [by apply runs_nodup|done].
Qed.

(** Promoting a slot that does not run yet. *)
Lemma add_runner s c :
  sq_wf s → taskId c ∉ taskId <$> runs s → room (runs s) →
  moves s (addRunning c s) ∧ runs (addRunning c s) ≡ₚ c :: runs s ∧
  backlog (addRunning c s) ≡ₚ backlog s.
Proof.
  intros Hwf Hn Hr. assert (without (taskId c) (runs s) = runs s) as Hw by by apply without_fresh.
  pose proof (addRunning_spec c s Hwf) as He. rewrite Hw in He. specialize (He Hr).
  split_and!; [eapply effect_moves; [constructor; by rewrite Hw|done]|apply He|apply He].
Qed.

Lemma trim_spec fuel n s :
  sq_wf s → compare s = cmp → length (runs s) ≤ fuel + n →
  let '(c, s') := trim_loop fuel n s in
  moves s s' ∧ backlog s' ≡ₚ backlog s ∧ runs s ≡ₚ c ++ runs s' ∧
  length (runs s') = n `min` length (runs s) ∧
  ∀ x y, x ∈ runs s' → y ∈ c → x ≤[cmp] y.
Proof.
  revert s. induction fuel as [|fuel IH]; intros s Hwf Hc Hlen; cbn [trim_loop].
  { split_and!; [by apply moves_refl|done|done|lia|set_solver]. }
  rewrite len_runs. case_decide as Hlt.
  2:{ split_and!; [by apply moves_refl|done|done|lia|set_solver]. }
  pose proof (worst_runs s Hwf Hc) as Hw. destruct (Running.worst _ _) as [w|].
  2:{ rewrite Hw in Hlt. simpl in Hlt. lia. }
  destruct Hw as [Hw Hmax]. destruct (remove_runner s w Hwf Hw) as (Hmo & Hr & Hb).
  specialize (IH (removeRunning (taskId w) s).2).
  destruct (trim_loop fuel n (removeRunning (taskId w) s).2) as [c s'].
  destruct IH as (Hmo' & Hb' & Hr' & Hl' & Hle'); [apply Hmo| | |].
  { destruct (mo_frame _ _ Hmo) as [_ ->]. done. }
  { rewrite Hr in Hlen. simpl in Hlen. lia. }
  rewrite Hr in Hlt |- *. simpl in Hlt. split_and!.
  - by eapply moves_trans.
  - by rewrite Hb'.
  - simpl. by rewrite Hr'.
  - rewrite Hl'. simpl. lia.
  - intros x y Hx [->|Hy]%elem_of_cons; [|auto]. apply Hmax. rewrite Hr, Hr'. set_solver.
Qed.

(** The result of merging the backlog into the running set. *)
Record merged (n : nat) (s s' : subQueue) (fill cancel : list slot) : Prop := {
  mg_moves : moves s s';
  mg_empty : backlog s' = [];
  mg_perm : runs s ++ backlog s ≡ₚ runs s' ++ cancel;
  mg_length : length (runs s') = n `min` (length (runs s) + length (backlog s));
  mg_le x y : x ∈ runs s' → y ∈ cancel → x ≤[cmp] y;
  mg_bound ub : length (runs s) = n → (∀ r, r ∈ runs s → r ≤[cmp] ub) →
    ∀ x, x ∈ runs s' → x ≤[cmp] ub;
  mg_stay x : x ∈ runs s → (∀ y, y ∈ backlog s → x ≤[cmp] y) → x ∈ runs s';
  mg_fill x : x ∈ fill → x ∈ backlog s ∧ x ∈ runs s';
  mg_from x : x ∈ runs s' → x ∈ runs s ∨ x ∈ fill;
  mg_sorted : StronglySorted (cmp_le cmp) fill;
  mg_nodup : NoDup (taskId <$> fill)
}.

(** No backlog: nothing to do. *)
Lemma merged_nil n s :
  sq_wf s → backlog s = [] → length (runs s) ≤ n → merged n s s [] [].
Proof.
  intros Hwf Hb Hn. split; try set_solver.
  - by apply moves_refl.
  - by rewrite Hb, !app_nil_r.
  - rewrite Hb. simpl. lia.
  - constructor.
  - constructor.
Qed.

(** Nothing in the backlog outranks a runner: cancel the backlog. *)
Lemma merged_cancel n s :
  sq_wf s → length (runs s) = n →
  (∀ x y, x ∈ runs s → y ∈ backlog s → x ≤[cmp] y) →
  let '(rest, s') := queuedPop (Z.of_nat (SlotIndex.len (queuedIndex s))) s in
  merged n s s' [] rest.
Proof.
  intros Hwf Hn Hle. rewrite len_backlog. pose proof (mu_pop s (Z.of_nat (length (backlog s)))) as Hmu.
  pose proof (queuedPop_spec (Z.of_nat (length (backlog s))) s Hwf) as Hsp.
  destruct (queuedPop _ s) as [rest s']. simpl in Hmu. destruct Hsp as (He & Hp & Hlen & _).
  rewrite Nat2Z.id, Nat.min_id in Hlen.
  assert (Hnil : backlog s' = []).
  { apply nil_length_inv. pose proof (Permutation_length Hp) as Hl. rewrite length_app in Hl. lia. }
  rewrite Hnil, app_nil_r in Hp. pose proof (ef_runs _ _ _ _ He) as Hr.
  split; try done.
  - by eapply effect_moves.
  - by rewrite Hr, Hp.
  - rewrite Hr. lia.
  - intros x y. rewrite Hr, <-Hp. apply Hle.
  - intros ub _ Hub x. rewrite Hr. apply Hub.
  - intros x Hx _. by rewrite Hr.
  - set_solver.
  - intros x. rewrite Hr. auto.
  - constructor.
  - constructor.
Qed.

(** One promotion: [c], the best of the backlog, joins the runners of [s1],
    which are those of [s] without [out]. *)
Lemma merged_promote n s s1 s2 s' c out fill cancel :
  moves s s1 → moves s1 s2 → runs s ≡ₚ out ++ runs s1 → backlog s ≡ₚ c :: backlog s1 →
  runs s2 ≡ₚ c :: runs s1 → backlog s2 ≡ₚ backlog s1 →
  (∀ x, x ∈ backlog s → c ≤[cmp] x) → NoDup (taskId <$> backlog s) →
  (out = [] ∧ length (runs s) < n ∨
   ∃ w, out = [w] ∧ length (runs s) = n ∧ (cmp c w < 0)%Z ∧ ∀ x, x ∈ runs s → x ≤[cmp] w) →
  merged n s2 s' fill cancel → merged n s s' (c :: fill) (out ++ cancel).
Proof.
  intros Hm1 Hm2 Hr Hb Hr2 Hb2 Hmin Hnd Hout [Hmo He Hp Hl Hle Hbd Hst Hfi Hfr Hso Hnf].
  rewrite Hr2, Hb2 in Hp. assert (Hcs : c ∈ runs s').
  { apply Hst; [rewrite Hr2; set_solver|]. intros y. rewrite Hb2. intros Hy. apply Hmin.
    rewrite Hb. set_solver. }
  rewrite Hb, fmap_cons in Hnd. apply NoDup_cons in Hnd as [Hn Hnd].
  assert (Hfull : ∀ w, out = [w] → length (runs s) = n → (cmp c w < 0)%Z →
    (∀ x, x ∈ runs s → x ≤[cmp] w) → ∀ x, x ∈ runs s' → x ≤[cmp] w).
  { intros w -> Hlen Hcw Hw. apply Hbd.
    - rewrite Hr in Hlen. rewrite Hr2. done.
    - intros r. rewrite Hr2. intros [->|Hx]%elem_of_cons; [unfold cmp_le; lia|].
      apply Hw. rewrite Hr. set_solver. }
  split.
  - eapply moves_trans; [done|]. by eapply moves_trans.
  - done.
  - trans (out ++ ((c :: runs s1) ++ backlog s1)); [rewrite Hr, Hb|rewrite Hp]; solve_Permutation.
  - rewrite Hl, Hr, Hb, Hr2, Hb2. destruct Hout as [[-> _]|(w & -> & Hlen & _)]; simpl; [lia|].
    rewrite Hr in Hlen. simpl in Hlen. lia.
  - intros x y Hx [Hy|Hy]%elem_of_app; [|auto].
    destruct Hout as [[-> _]|(w & -> & Hlen & Hcw & Hw)]; [set_solver|].
    apply list_elem_of_singleton in Hy as ->. eauto.
  - intros ub Hlen Hub x Hx. destruct Hout as [[-> Hlt]|(w & -> & _ & Hcw & Hw)]; [lia|].
    trans w; [eauto|]. apply Hub. rewrite Hr. set_solver.
  - intros x Hx Hy. apply Hst.
    + rewrite Hr2. rewrite Hr in Hx. apply elem_of_app in Hx as [Hx|Hx]; [|set_solver].
      destruct Hout as [[-> _]|(w & -> & _ & Hcw & _)]; [set_solver|].
      apply list_elem_of_singleton in Hx as ->.
      destruct (not_lt_le cmp c w Hcw). apply Hy. rewrite Hb. set_solver.
    + intros y. rewrite Hb2. intros Hyb. apply Hy. rewrite Hb. set_solver.
  - intros x [->|Hx]%elem_of_cons; [split; [rewrite Hb; set_solver|done]|].
    apply Hfi in Hx as [Hx ?]. rewrite Hb2 in Hx. split; [rewrite Hb; set_solver|done].
  - intros x Hx. apply Hfr in Hx as [Hx|Hx]; [|set_solver]. rewrite Hr2 in Hx.
    apply elem_of_cons in Hx as [->|Hx]; [set_solver|]. left. rewrite Hr. set_solver.
  - constructor; [done|]. apply Forall_forall. intros x Hx. apply Hfi in Hx as [Hx _].
    apply Hmin. rewrite Hb, <-Hb2. set_solver.
  - rewrite fmap_cons. constructor; [|done]. intros (x & Hid & Hx)%list_elem_of_fmap.
    apply Hfi in Hx as [Hx _]. apply Hn. rewrite Hid, <-Hb2. by apply list_elem_of_fmap_2.
Qed.

(** A sub-queue where a task holds one slot, with room for all to run. *)
Definition ready (s : subQueue) : Prop :=
  sq_wf s ∧ compare s = cmp ∧ NoDup (taskId <$> runs s ++ backlog s) ∧
  (Z.of_nat (length (runs s) + length (backlog s)) ≤ maxSlots)%Z.

(** Promoting the best queued slot of a sub-queue that has lost [out]. *)
Lemma promote_ready s s0 c out :
  ready s → SlotIndex.peek (queuedIndex s) = Some c → moves s s0 →
  runs s ≡ₚ out ++ runs s0 → queuedIndex s0 = queuedIndex s →
  let s1 := (queuedPop 1 s0).2 in
  let s2 := addRunning c s1 in
  moves s s1 ∧ moves s1 s2 ∧ runs s ≡ₚ out ++ runs s1 ∧ backlog s ≡ₚ c :: backlog s1 ∧
  runs s2 ≡ₚ c :: runs s1 ∧ backlog s2 ≡ₚ backlog s1 ∧ ready s2.
Proof.
  intros (Hwf & Hc & Hnd & Hfit) Hpk Hmo Hr Hq.
  assert (Hc0 : compare s0 = cmp) by (destruct (mo_frame _ _ Hmo) as [_ ->]; done).
  destruct (pop_peek s0 c (mo_wf _ _ Hmo) Hc0) as (Hm1 & Hr1 & Hb1); [by rewrite Hq|].
  unfold backlog in Hb1 at 1. rewrite Hq in Hb1. fold (backlog s) in Hb1. cbv zeta.
  set (s1 := (queuedPop 1 s0).2) in *.
  assert (Hrs : runs s ≡ₚ out ++ runs s1) by by rewrite Hr1.
  assert (Hnd1 : NoDup (taskId <$> c :: runs s1 ++ backlog s1)).
  { rewrite Hrs, Hb1 in Hnd.
    assert (Hpm : (out ++ runs s1) ++ c :: backlog s1 ≡ₚ out ++ (c :: runs s1 ++ backlog s1))
      by solve_Permutation.
    rewrite Hpm, fmap_app in Hnd. by apply NoDup_app in Hnd as (_ & _ & ?). }
  rewrite Hrs, Hb1, length_app in Hfit. simpl in Hfit.
  destruct (add_runner s1 c (mo_wf _ _ Hm1)) as (Hm2 & Hr2 & Hb2).
  { rewrite fmap_cons, fmap_app in Hnd1. apply NoDup_cons in Hnd1 as [Hn _]. set_solver. }
  { unfold room. lia. }
  split_and!; [by eapply moves_trans|done|done|done|done|done|]. split_and!.
  - apply Hm2.
  - destruct (mo_frame _ _ Hm2) as [_ ->], (mo_frame _ _ Hm1) as [_ ->]. done.
  - by rewrite Hr2, Hb2.
  - rewrite Hr2, Hb2. simpl. lia.
Qed.

Lemma removeRunning_queuedIndex id s : queuedIndex (removeRunning id s).2 = queuedIndex s.
Proof.
  unfold removeRunning. destruct (Running.delete id (running s)) as [[sl|] r]; [|done]. simpl.
  destruct (recordRunning_frame sl false (set_running r s)) as (_ & E2 & E3 & _).
  unfold queuedIndex. by rewrite E2, E3.
Qed.

Lemma merge_spec fuel n s :
  ready s → length (backlog s) ≤ fuel → length (runs s) ≤ n →
  let '(fill, cancel, s') := merge_loop fuel n s in merged n s s' fill cancel.
Proof.
  revert s. induction fuel as [|fuel IH]; intros s Hrd Hfuel Hn; cbn [merge_loop];
    pose proof Hrd as (Hwf & Hc & Hnd & _).
  { apply merged_nil; [done| |done]. by apply nil_length_inv; lia. }
  pose proof (peek_backlog s Hwf Hc) as Hmin.
  destruct (SlotIndex.peek (queuedIndex s)) as [c|] eqn:Hpk; [|by apply merged_nil].
  destruct Hmin as [Hin Hmin]. pose proof (backlog_nodup s Hwf) as Hndb. rewrite len_runs.
  case_decide as Hlt.
  - destruct (promote_ready s s c [] Hrd Hpk (moves_refl s Hwf)) as (Hm1&Hm2&Hr1&Hb1&Hr2&Hb2&Hrd2);
      [done|done|]. cbv zeta. set (s1 := (queuedPop 1 s).2) in *.
    specialize (IH (addRunning c s1) Hrd2). destruct (merge_loop fuel n _) as [[fill cancel] s'].
    eapply (merged_promote n s s1 (addRunning c s1) s' c []); [done..| |].
    + left. auto.
    + apply IH; [rewrite Hb2; rewrite Hb1 in Hfuel; simpl in Hfuel; lia|].
      rewrite Hr2. rewrite Hr1 in Hlt. simpl in *. lia.
  - assert (Hfull : length (runs s) = n) by lia. pose proof (worst_runs s Hwf Hc) as Hw.
    destruct (Running.worst (compare s) (running s)) as [w|].
    2:{ pose proof (merged_cancel n s Hwf Hfull) as Hca. rewrite Hw in Hca.
        destruct (queuedPop _ s). apply Hca. set_solver. }
    destruct Hw as [Hw Hmax]. rewrite Hc. destruct (Z.ltb_spec (cmp c w) 0) as [Hcw|Hcw].
    + destruct (remove_runner s w Hwf Hw) as (Hm0 & Hr0 & _).
      destruct (promote_ready s _ c [w] Hrd Hpk Hm0) as (Hm1&Hm2&Hr1&Hb1&Hr2&Hb2&Hrd2);
        [done|apply removeRunning_queuedIndex|]. cbv zeta.
      set (s1 := (queuedPop 1 (removeRunning (taskId w) s).2).2) in *.
      specialize (IH (addRunning c s1) Hrd2). destruct (merge_loop fuel n _) as [[fill cancel] s'].
      eapply (merged_promote n s s1 (addRunning c s1) s' c [w]); [done..| |].
      * right. eauto.
      * apply IH; [rewrite Hb2; rewrite Hb1 in Hfuel; simpl in Hfuel; lia|].
        rewrite Hr2. rewrite Hr1 in Hfull. simpl in *. lia.
    + pose proof (merged_cancel n s Hwf Hfull) as Hca. destruct (queuedPop _ s). apply Hca.
      intros x y Hx Hy. trans w; [by apply Hmax|]. trans c; [|by apply Hmin].
      unfold cmp_le. pose proof (gc_total cmp c w). lia.
Qed.
End in_progress.

Lemma StronglySorted_filter (R : relation slot) (P : slot → Prop) `{∀ x, Decision (P x)} l :
  StronglySorted R l → StronglySorted R (filter P l).
Proof.
  induction 1 as [|x l Hs IH Hall]; [constructor|]. rewrite filter_cons. case_decide; [|done].
  constructor; [done|]. rewrite Forall_forall in *. intros y [_ Hy]%list_elem_of_filter. auto.
Qed.

(** A candidate set [keep] that is at least as good as the rest is a prefix of
    the sorted candidates. *)
Lemma best_prefix cmp (l keep rest : list slot) n :
  GoCompare cmp → SlotIndex.tie_free cmp → NoDup (taskId <$> l) → l ≡ₚ keep ++ rest →
  length keep = n `min` length l → (∀ x y, x ∈ keep → y ∈ rest → x ≤[cmp] y) →
  take n (sorted cmp (kmap taskId l)) ≡ₚ keep ∧ drop n (sorted cmp (kmap taskId l)) ≡ₚ rest.
Proof.
  intros Hcmp Htie Hnd Hp Hlen Hle. pose proof (sorted_perm cmp l Hnd) as Hall.
  assert (Hl : length l = length (sorted cmp (kmap taskId l))) by by rewrite Hall.
  assert (Hk : merge_sort (cmp_le cmp) keep = take n (sorted cmp (kmap taskId l))).
  { rewrite (SlotIndex.sorted_prefix cmp l (merge_sort (cmp_le cmp) keep) rest).
    - rewrite merge_sort_Permutation, Hlen, Hl.
      destruct (decide (n ≤ length (sorted cmp (kmap taskId l)))).
      + by rewrite Nat.min_l.
      + by rewrite Nat.min_r, !take_ge by lia.
    - done.
    - done.
    - done.
    - by rewrite merge_sort_Permutation.
    - apply StronglySorted_merge_sort; apply _.
    - intros x y. rewrite merge_sort_Permutation. apply Hle. }
  assert (Hk' : take n (sorted cmp (kmap taskId l)) ≡ₚ keep) by by rewrite <-Hk, merge_sort_Permutation.
  split; [done|]. apply (Permutation_app_inv_l keep). rewrite <-Hp. etrans; [|exact Hall].
  rewrite <-Hk' at 1. by rewrite take_drop.
Qed.

(** Two sorted lists of the same candidates are equal. *)
Lemma sorted_same cmp (l k1 k2 : list slot) :
  GoCompare cmp → SlotIndex.tie_free cmp → NoDup (taskId <$> l) →
  (∀ x, x ∈ k1 → x ∈ l) → (∀ x, x ∈ k1 ↔ x ∈ k2) → NoDup k1 → NoDup k2 →
  StronglySorted (cmp_le cmp) k1 → StronglySorted (cmp_le cmp) k2 → k1 = k2.
Proof.
  intros Hcmp Htie Hnd Hl Heq Hn1 Hn2 Hs1 Hs2.
  apply (StronglySorted_unique_strong (cmp_le cmp)); [|done|done|by apply NoDup_Permutation].
  intros x y Hx Hy Hxy Hyx. apply (tie_eq cmp l); [done|done|auto|by apply Hl, Heq|done|done].
Qed.

Lemma abs_ok_nodup s : sq_wf s → abs_ok (abs s) → NoDup (taskId <$> runs s ++ backlog s).
Proof.
  intros Hwf [Hd _ _]. rewrite fmap_app. apply NoDup_app.
  split_and!; [by apply runs_nodup| |by apply backlog_nodup]. intros id Hr Hq.
  assert (Hsome : ∀ l : list slot, id ∈ taskId <$> l → is_Some (kmap taskId l !! id)).
  { intros l Hl. apply not_eq_None_Some. rewrite lookup_kmap_None. auto. }
  destruct (Hsome _ Hr) as [x Hx], (Hsome _ Hq) as [y Hy]. by eapply map_disjoint_spec in Hd.
Qed.

Lemma reaches_ready s s' a :
  reaches s s' a → abs_ok a → (Z.of_nat (total a) ≤ maxSlots)%Z → ready (compare s') s'.
Proof.
  intros [Hwf _ _ <-] Hok Hfit. unfold total in Hfit.
  rewrite abs_runs_size, abs_backlog_size in Hfit by done.
  split_and!; [done|done| |done]. by apply abs_ok_nodup.
Qed.

Lemma moves_reaches s s' s2 a R B :
  reaches s s' a → moves s' s2 → runs s2 ≡ₚ R → backlog s2 ≡ₚ B →
  reaches s s2 (AbsQueue (kmap taskId R) (kmap taskId B) (a_maxRuns a) (a_maxRunsFrom a)).
Proof.
  intros Hre [Hwf Hf Hm Hl] HR HB. eapply reaches_trans; [exact Hre|].
  destruct Hre as [_ _ _ <-]. split; [done..|]. unfold abs, limit in *. simplify_eq Hl. intros -> ->.
  f_equal; apply kmap_perm; auto using runs_nodup, backlog_nodup.
Qed.

Lemma inProgress_decides : decides decideCancelInProgress CANCELINPROGRESS.
Proof.
  intros s s' a Hre Hok Htie Hfit _. pose proof (reaches_ready s s' a Hre Hok Hfit) as Hrd.
  pose proof Hrd as (Hwf & _ & Hnd & Hsz). pose proof (wf_cmp s' Hwf) as Hgc.
  unfold decideCancelInProgress. set (n := Z.to_nat (Z.max 0 (maxRuns s'))).
  assert (Hn : maxRunsNat a = n).
  { destruct Hre as [_ _ _ <-]. unfold maxRunsNat, n. simpl. lia. }
  pose proof (trim_spec (compare s') Htie (Running.len (running s')) n s' Hwf eq_refl) as Htrim.
  rewrite len_runs in *. destruct (trim_loop _ n s') as [c s1].
  destruct Htrim as (Hm1 & Hb1 & Hr1 & Hl1 & Hle1); [lia|].
  assert (Hc1 : compare s1 = compare s') by apply Hm1.
  pose proof (merge_spec (compare s') Htie (length (backlog s1)) n s1) as Hmerge.
  rewrite len_backlog. destruct (merge_loop _ n s1) as [[fill cancel] s2]. simpl.
  destruct Hmerge as [Hm2 He Hp Hl Hle Hbd Hst Hfi Hfr Hso Hnf]; [|lia|lia|].
  { split_and!; [apply Hm1|done| |].
    - rewrite Hr1, <-app_assoc, fmap_app in Hnd. apply NoDup_app in Hnd as (_ & _ & Hnd).
      by rewrite Hb1.
    - rewrite Hb1. rewrite Hr1, length_app in Hsz. lia. }
  assert (Hall : runs s' ++ backlog s' ≡ₚ runs s2 ++ (c ++ cancel)).
  { rewrite Hr1, <-app_assoc, <-Hb1, Hp. solve_Permutation. }
  pose proof (Permutation_length Hr1) as Hlr. rewrite length_app in Hlr.
  destruct (best_prefix (compare s') (runs s' ++ backlog s') (runs s2) (c ++ cancel) n Hgc Htie Hnd Hall)
    as [Hkeep Hdrop].
  { rewrite Hl, Hl1, Hb1, length_app. lia. }
  { intros x y Hx [Hy|Hy]%elem_of_app; [|auto]. destruct c as [|z c']; [set_solver|].
    apply (Hbd y); [|intros r Hr; by apply Hle1|done]. simpl in Hlr. lia. }
  assert (Hmaps : a_running a ∪ a_queued a = kmap taskId (runs s' ++ backlog s')).
  { rewrite kmap_app. by destruct Hre as [_ _ _ <-]. }
  unfold spec_decide. rewrite Hmaps, Hn. set (keep := take n (sorted _ _)) in *.
  assert (Hndk : NoDup (taskId <$> keep)).
  { rewrite Hall in Hnd. rewrite Hkeep. rewrite fmap_app in Hnd. by apply NoDup_app in Hnd as [? _]. }
  assert (Hfill : fill = filter (λ x, taskId x ∈ dom (a_queued a)) keep).
  { apply (sorted_same (compare s') (runs s' ++ backlog s')); [done..| | | | |done|].
    - intros x Hx. apply Hfi in Hx as [Hx _]. rewrite <-Hb1. set_solver.
    - intros x. rewrite list_elem_of_filter, Hkeep. destruct Hre as [_ _ _ <-]. simpl.
      rewrite elem_of_dom, <-not_eq_None_Some, lookup_kmap_None. split.
      + intros Hx. apply Hfi in Hx as [Hx ?]. split; [|done]. intros Hn'. apply Hn'.
        rewrite <-Hb1. by apply list_elem_of_fmap_2.
      + intros [Hin Hx]. apply dec_stable in Hin. destruct (Hfr x Hx) as [Hx'|]; [|done].
        exfalso. rewrite fmap_app in Hnd. apply NoDup_app in Hnd as (_ & Hd & _).
        apply (Hd (taskId x)); [|done]. apply list_elem_of_fmap_2. rewrite Hr1. set_solver.
    - by apply NoDup_fmap_1 in Hnf.
    - apply NoDup_filter. by apply NoDup_fmap_1 in Hndk.
    - apply StronglySorted_filter. unfold keep. pose proof (sorted_sorted (compare s')
        (kmap taskId (runs s' ++ backlog s')) Hgc) as Hss.
      rewrite <-(take_drop n (sorted _ _)) in Hss. by apply StronglySorted_app_1_l in Hss. }
  rewrite <-Hfill. do 4 eexists. split_and!; [done|done|by rewrite Hdrop|].
  apply (moves_reaches s s' s2 a keep []); [done|by eapply moves_trans|done|by rewrite He].
Qed.

(** ** The decisions of every strategy *)

Lemma decideFor_decides kind dec : decideFor kind = Some dec → decides dec kind.
Proof.
  destruct kind; intros [= <-]; auto using roundRobin_decides, inProgress_decides,
    cancelNewest_decides, exceptNewest_decides, exceptOldest_decides.
Qed.

Lemma comparator_ok kind :
  GoCompare (comparatorForStrategy kind) ∧ SlotIndex.tie_free (comparatorForStrategy kind).
Proof.
  unfold comparatorForStrategy. repeat case_decide; split; try apply _;
    auto using SlotIndex.priorityCompare_tie_free, SlotIndex.cancelInProgressCompare_tie_free,
      SlotIndex.cancelQueuedExceptCompare_tie_free.
Qed.

(** A sub-queue of a strategy of the given kind, within the machine bounds. *)
Record queue_ok (kind : V1ConcurrencyStrategy) (s : subQueue) : Prop := {
  qo_wf : sq_wf s;
  qo_abs : abs_ok (abs s);
  qo_compare : compare s = comparatorForStrategy kind;
  qo_fits : (Z.of_nat (total (abs s)) ≤ maxSlots)%Z;
  qo_limit : limit_fits (abs s)
}.

Lemma kmap_inj_perm (l k : list slot) :
  NoDup (taskId <$> l) → NoDup (taskId <$> k) → kmap taskId l = kmap taskId k → l ≡ₚ k.
Proof.
  intros Hl Hk Heq. rewrite <-(SlotIndex.map_to_list_kmap l), <-(SlotIndex.map_to_list_kmap k) by done.
  by rewrite Heq.
Qed.

(** What a decision does to the slots of a sub-queue. *)
Record decided (kind : V1ConcurrencyStrategy) (s s' : subQueue) (fill cancel : list slot) : Prop := {
  de_moves : moves s s';
  de_perm : runs s ++ backlog s ≡ₚ runs s' ++ backlog s' ++ cancel;
  de_fill : kind ≠ CANCELINPROGRESS →
    runs s' ≡ₚ fill ++ runs s ∧ length fill = free (abs s) `min` length (backlog s) ∧
    ∀ x y, x ∈ fill → y ∈ backlog s' ++ cancel → x ≤[compare s] y;
  de_top : kind = CANCELINPROGRESS →
    backlog s' = [] ∧
    length (runs s') = maxRunsNat (abs s) `min` (length (runs s) + length (backlog s)) ∧
    (∀ x y, x ∈ runs s' → y ∈ cancel → x ≤[compare s] y) ∧
    (∀ x, x ∈ fill ↔ x ∈ runs s' ∧ x ∈ backlog s)
}.

Section decided.
Context (kind : V1ConcurrencyStrategy) (dec : decideFn) (s : subQueue).
Context (Hdec : decideFor kind = Some dec) (Hq : queue_ok kind s).

Lemma decide_refines :
  ∃ fill cancel cancel' s' a',
    dec s = (fill, cancel', s') ∧ spec_decide kind (compare s) (abs s) = Some (fill, cancel, a') ∧
    cancel' ≡ₚ cancel ∧ abs s' = a' ∧ moves s s'.
Proof.
  destruct Hq as [Hwf Hok Hc Hfit Hl]. destruct (comparator_ok kind) as [Hcmp Htie].
  destruct (decideFor_decides kind dec Hdec s s (abs s)) as (fill & cancel & cancel' & a' & Hs & Hd & Hp & Hr);
    [by apply reaches_refl|done|by rewrite Hc|done|done|].
  exists fill, cancel, cancel', (dec s).2, a'. destruct Hr as [Hwf' Hf Hm Ha].
  split_and!; [done..|]. split; [done..|]. unfold limit.
  assert (a_maxRuns a' = maxRuns s ∧ a_maxRunsFrom a' = maxRunsFrom s) as [<- <-].
  { clear -Hs. destruct kind; simpl in Hs; by simplify_eq. }
  by rewrite <-Ha.
Qed.

Lemma queue_nodup : NoDup (taskId <$> runs s ++ backlog s).
Proof.
  destruct Hq as [Hwf Hok Hc Hfit Hl].
  by apply (reaches_ready s s (abs s) (reaches_refl s Hwf) Hok Hfit).
Qed.
End decided.

(** The fill strategies: [fill] and [rest] split the backlog in order, and the
    slots kept and the slots cancelled split [rest]. *)
Lemma spec_fill_shape kind cmp a fill cancel a' :
  kind ≠ CANCELINPROGRESS → spec_decide kind cmp a = Some (fill, cancel, a') →
  ∃ rest keep, sorted cmp (a_queued a) = fill ++ rest ∧
    length fill = free a `min` length (sorted cmp (a_queued a)) ∧
    rest ≡ₚ keep ++ cancel ∧ a' = spec_fill fill keep a.
Proof.
  intros Hk Hs. set (q := sorted cmp (a_queued a)) in *. exists (drop (free a) q).
  assert (Hfill : fill = take (free a) q) by by destruct kind; simpl in Hs; simplify_eq/=.
  rewrite Hfill, take_drop, length_take. destruct kind; simpl in Hs; simplify_eq/=; fold q.
  - exists (drop (free a) q). by rewrite app_nil_r.
  - exists []. done.
  - eexists (drop _ _). split_and!; [done|done| |done]. by rewrite Permutation_app_comm, take_drop.
  - eexists (take _ _). split_and!; [done|done| |done]. by rewrite take_drop.
Qed.

Lemma abs_maps s R Q m f :
  sq_wf s → abs s = AbsQueue (kmap taskId R) (kmap taskId Q) m f →
  NoDup (taskId <$> R) → NoDup (taskId <$> Q) → runs s ≡ₚ R ∧ backlog s ≡ₚ Q.
Proof.
  intros Hwf [= Hr Hb _ _] HR HQ.
  split; apply kmap_inj_perm; auto using runs_nodup, backlog_nodup.
Qed.

Lemma decided_fill kind s s' fill cancel cancel' :
  queue_ok kind s → kind ≠ CANCELINPROGRESS → moves s s' → cancel' ≡ₚ cancel →
  spec_decide kind (compare s) (abs s) = Some (fill, cancel, abs s') →
  decided kind s s' fill cancel'.
Proof.
  intros Hq Hk Hmo Hp Hs. pose proof (queue_nodup kind s Hq) as Hnd.
  destruct Hq as [Hwf _ Hc _ _]. destruct (comparator_ok kind) as [Hcmp Htie]. rewrite <-Hc in *.
  destruct (spec_fill_shape _ _ _ _ _ _ Hk Hs) as (rest & keep & Hsrt & Hlen & Hrest & Ha).
  pose proof (sorted_perm (compare s) (backlog s) (backlog_nodup s Hwf)) as Hperm.
  simpl in Hsrt, Hlen. rewrite Hperm in Hlen. rewrite Hsrt in Hperm.
  assert (Hall : runs s ++ backlog s ≡ₚ (fill ++ runs s) ++ keep ++ cancel).
  { rewrite <-Hperm, Hrest. solve_Permutation. }
  rewrite Hall in Hnd. rewrite fmap_app in Hnd. apply NoDup_app in Hnd as (Hn1 & _ & Hn2).
  rewrite fmap_app in Hn2. apply NoDup_app in Hn2 as (Hn2 & _ & _).
  unfold spec_fill in Ha. simpl in Ha. rewrite <-kmap_app in Ha.
  destruct (abs_maps _ _ _ _ _ (mo_wf _ _ Hmo) Ha Hn1 Hn2) as [HR HQ].
  split; [done|by rewrite HR, HQ, Hp| |done]. intros _. split_and!; [done|done|].
  intros x y Hx. rewrite HQ, Hp, <-Hrest. intros Hy.
  eapply StronglySorted_app_1_elem_of; [|done|done]. rewrite <-Hsrt. by apply sorted_sorted.
Qed.

Lemma decided_top s s' fill cancel cancel' :
  queue_ok CANCELINPROGRESS s → moves s s' → cancel' ≡ₚ cancel →
  spec_decide CANCELINPROGRESS (compare s) (abs s) = Some (fill, cancel, abs s') →
  decided CANCELINPROGRESS s s' fill cancel'.
Proof.
  intros Hq Hmo Hp Hs. pose proof (queue_nodup _ s Hq) as Hnd.
  destruct Hq as [Hwf Hok Hc _ _]. destruct (comparator_ok CANCELINPROGRESS) as [Hcmp Htie].
  rewrite <-Hc in *. simpl in Hs. rewrite <-kmap_app in Hs.
  pose proof (sorted_perm (compare s) _ Hnd) as Hperm. set (n := maxRunsNat (abs s)) in *.
  pose proof (sorted_sorted (compare s) (kmap taskId (runs s ++ backlog s)) Hcmp) as Hss.
  set (all := sorted (compare s) _) in *. injection Hs as Hfill Hcan HR HQ _ _.
  assert (Hndt : NoDup (taskId <$> take n all)).
  { rewrite <-Hperm, <-(take_drop n all), fmap_app in Hnd. by apply NoDup_app in Hnd as [? _]. }
  pose proof (mo_wf _ _ Hmo) as Hwf'. symmetry in HR, HQ.
  apply kmap_inj_perm in HR; [|by apply runs_nodup|done].
  apply (kmap_inj_perm _ []) in HQ; [|by apply backlog_nodup|constructor].
  apply Permutation_nil_r in HQ. split; [done| |done|intros _; split_and!].
  - rewrite HR, HQ, Hp, <-Hcan. simpl. by rewrite take_drop.
  - done.
  - rewrite HR, length_take, Hperm, length_app. done.
  - intros x y. rewrite HR, Hp, <-Hcan. intros Hx Hy.
    eapply StronglySorted_app_1_elem_of; [|done|done]. by rewrite take_drop.
  - intros x. rewrite <-Hfill, list_elem_of_filter, HR.
    rewrite elem_of_dom, <-not_eq_None_Some, lookup_kmap_None. split.
    + intros [Hd%dec_stable Hx]. split; [done|].
      assert (x ∈ runs s ++ backlog s) as [Hr|]%elem_of_app; [|exfalso|done].
      { rewrite <-Hperm, <-(take_drop n all). set_solver. }
      rewrite fmap_app in Hnd. apply NoDup_app in Hnd as (_ & Hd' & _).
      apply (Hd' (taskId x)); [by apply list_elem_of_fmap_2|done].
    + intros [Hx Hb]. split; [|done]. intros Hn'. apply Hn'. by apply list_elem_of_fmap_2.
Qed.

Lemma decide_decided kind dec s :
  decideFor kind = Some dec → queue_ok kind s →
  let '(fill, cancel, s') := dec s in decided kind s s' fill cancel.
Proof.
  intros Hdec Hq.
  destruct (decide_refines kind dec s Hdec Hq) as (fill & cancel & cancel' & s' & a' & -> & Hs & Hp & <- & Hmo).
  destruct (decide (kind = CANCELINPROGRESS)) as [->|Hk].
  - by eapply decided_top.
  - by eapply decided_fill.
Qed.

(** ** The pipeline *)

(** The limits a batch can see are valid int32 limits. *)
Definition valid_limit (m : Z) : Prop := (0 ≤ m < 2 ^ 31)%Z.
Definition msg_ok (msg : walMessage) : Prop := from_option valid_limit True (w_maxRuns msg).

Record batch_ok (kind : V1ConcurrencyStrategy) (msgs : list walMessage) (s : subQueue) : Prop := {
  bo_wf : sq_wf s;
  bo_abs : abs_ok (abs s);
  bo_compare : compare s = comparatorForStrategy kind;
  bo_fits : (Z.of_nat (total (abs s) + length msgs) ≤ maxSlots)%Z;
  bo_limit : valid_limit (maxRuns s);
  bo_msgs : Forall msg_ok msgs
}.

Lemma spec_message_limit msg a :
  msg_ok msg → valid_limit (a_maxRuns a) → valid_limit (a_maxRuns (spec_message msg a).2).
Proof.
  intros Hm Ha. assert (Ho : valid_limit (a_maxRuns (spec_observe msg a))).
  { unfold spec_observe, msg_ok in *. destruct (w_maxRuns msg); simpl in *; [|done].
    by case_decide. }
  unfold spec_message. repeat case_match; simpl; done.
Qed.

Lemma spec_wal_limit msgs a :
  Forall msg_ok msgs → valid_limit (a_maxRuns a) → valid_limit (a_maxRuns (spec_wal msgs a).2).
Proof.
  intros Hall. revert a. induction Hall as [|msg msgs Hm _ IH]; intros a Ha; simpl; [done|].
  pose proof (spec_message_limit msg a Hm Ha) as Ha1. destruct (spec_message msg a) as [out a1].
  specialize (IH a1 Ha1). by destruct (spec_wal msgs a1).
Qed.

Lemma valid_limit_fits a :
  valid_limit (a_maxRuns a) → (Z.of_nat (total a) ≤ maxSlots)%Z → limit_fits a.
Proof. unfold valid_limit, limit_fits, total, maxSlots. lia. Qed.

Lemma spec_evict_ok now a : abs_ok a → abs_ok (spec_evict now a) ∧ total (spec_evict now a) ≤ total a.
Proof.
  intros [Hd Hr Hq]. split.
  - split; simpl; [|done|].
    + eapply map_disjoint_weaken_r; [done|]. apply map_filter_subseteq.
    + intros k x [Hx _]%map_lookup_filter_Some. by apply Hq.
  - unfold total. simpl. pose proof (map_size_filter (λ kv, ¬ expired now kv) (a_queued a)). lia.
Qed.

Lemma applyWAL_ok kind msgs s :
  batch_ok kind msgs s →
  queue_ok kind (applyWAL msgs s).2 ∧ valid_limit (maxRuns (applyWAL msgs s).2).
Proof.
  intros [Hwf Hok Hc Hfit Hl Hm].
  destruct (applyWAL_refines msgs s Hwf Hok Hfit) as (_ & [Hwf1 [_ Hc1] _ Ha1] & Hok1 & Ht).
  pose proof (spec_wal_limit msgs (abs s) Hm Hl) as Hl1. rewrite <-Ha1 in Hok1, Ht, Hl1.
  split; [|done]. split; [done|done|congruence|lia|]. apply valid_limit_fits; [done|lia].
Qed.

(** The sub-queue the decision sees: log replayed, timeouts evicted. *)
Lemma process_prefix kind now msgs s :
  batch_ok kind msgs s →
  let '(out, s1) := applyWAL msgs s in
  let '(expired, s2) := queuedPopTimedOut now s1 in
  out = (spec_wal msgs (abs s)).1 ∧ expired = spec_expired now (spec_wal msgs (abs s)).2 ∧
  reaches s s2 (spec_evict now (spec_wal msgs (abs s)).2) ∧ queue_ok kind s2 ∧
  valid_limit (maxRuns s2).
Proof.
  intros [Hwf Hok Hc Hfit Hl Hm].
  destruct (applyWAL_refines msgs s Hwf Hok Hfit) as (Hout & Hre & Hok1 & Ht).
  pose proof (spec_wal_limit msgs (abs s) Hm Hl) as Hl1.
  destruct (applyWAL msgs s) as [out s1]. set (a1 := (spec_wal msgs (abs s)).2) in *. simpl in Hout, Hre.
  destruct (reach_popTimedOut now s s1 a1 Hre) as [Hex Hre2].
  destruct (queuedPopTimedOut now s1) as [ex s2]. simpl in Hex, Hre2.
  destruct (spec_evict_ok now a1 Hok1) as [Hok2 Ht2].
  pose proof Hre2 as [Hwf2 [_ Hf2] _ Ha2].
  split_and!; [done..| |by injection Ha2 as _ _ -> _].
  assert (Hfit2 : (Z.of_nat (total (spec_evict now a1)) ≤ maxSlots)%Z) by lia.
  split; [done|by rewrite Ha2|congruence|by rewrite Ha2|].
  rewrite Ha2. by apply valid_limit_fits.
Qed.

Lemma nodup_abs_ok s : sq_wf s → NoDup (taskId <$> runs s ++ backlog s) → abs_ok (abs s).
Proof.
  intros Hwf Hnd. split; [|apply kmap_keyed..]. simpl. apply map_disjoint_spec.
  intros id x y Hx Hy. apply lookup_kmap in Hx as [Hx Hix]; [|by apply runs_nodup].
  apply lookup_kmap in Hy as [Hy Hiy]; [|by apply backlog_nodup].
  rewrite fmap_app in Hnd. apply NoDup_app in Hnd as (_ & Hd & _).
  apply (Hd id); [rewrite <-Hix|rewrite <-Hiy]; by apply list_elem_of_fmap_2.
Qed.

Lemma decided_ok kind s s' fill cancel :
  queue_ok kind s → valid_limit (maxRuns s) → decided kind s s' fill cancel → queue_ok kind s'.
Proof.
  intros Hq Hl [[Hwf [_ Hc] _ Hlim] Hp _ _]. pose proof (queue_nodup kind s Hq) as Hnd.
  destruct Hq as [Hwf0 _ Hc0 Hfit _]. unfold total in Hfit.
  rewrite abs_runs_size, abs_backlog_size in Hfit by done.
  pose proof (Permutation_length Hp) as Hlen. rewrite !length_app in Hlen.
  assert (Hfit' : (Z.of_nat (total (abs s')) ≤ maxSlots)%Z).
  { unfold total. rewrite abs_runs_size, abs_backlog_size by done. lia. }
  split; [done| |congruence|done|].
  - apply nodup_abs_ok; [done|]. rewrite Hp, app_assoc, fmap_app in Hnd.
    by apply NoDup_app in Hnd as [? _].
  - apply valid_limit_fits; [|done]. simpl. unfold limit in Hlim. by injection Hlim as -> _.
Qed.

(** The slots to fill come from the backlog. *)
Lemma decided_backlog kind s s' fill cancel :
  decided kind s s' fill cancel → ∀ x, x ∈ fill → x ∈ backlog s.
Proof.
  intros [_ Hp Hf Ht] x Hx. destruct (decide (kind = CANCELINPROGRESS)) as [Hk|Hk].
  - destruct (Ht Hk) as (_ & _ & _ & Hfill). by apply Hfill in Hx as [_ ?].
  - destruct (Hf Hk) as (Hr & _ & _). assert (Hb : backlog s ≡ₚ fill ++ backlog s' ++ cancel).
    { apply (Permutation_app_inv_l (runs s)). rewrite Hp, Hr. solve_Permutation. }
    rewrite Hb. set_solver.
Qed.

End Decide.
