(* ===== verification/Policies.v ===== *)
(** * What the concurrency strategies guarantee

    Theorems about the pipeline of pkg/scheduling/v1/concurrency/strategy.go
    as modelled in Decide: refinement of the map specification, conservation
    of slots, capacity, the choice of slots, timeouts, retries, and repeated
    decisions. *)

From S2P Require Import Prelude IndexedHeap SlotIndex RunningSlots SubQueue Decide.
Import SlotIndex (slot, taskId, taskRetryCount, scheduleTimeoutAtMs, UnixMilli, maxSlots).
Import SubQueue Decide.

Module Policies.

(** ** Sample sub-queues for the witnesses *)

Definition wal (op : string) (id insertedAt timeoutMs prio retry : Z) : walMessage :=
  WalMessage insertedAt op "group-a" id timeoutMs prio retry false None.

(** A sub-queue of a strategy after some log messages, before any decision. *)
Definition sampleQueue (kind : V1ConcurrencyStrategy) (m : Z) (msgs : list walMessage) : subQueue :=
  (applyWAL msgs (newSubQueue "group-a" m (comparatorForStrategy kind))).2.

Definition inserts : list walMessage :=
  [wal "INSERT" 1 10 9000 1 0; wal "INSERT" 2 20 9000 1 0; wal "INSERT" 3 30 100 1 0;
   wal "INSERT" 4 40 9000 2 0].

Lemma new_batch_ok kind m msgs :
  valid_limit m → Forall msg_ok msgs → (Z.of_nat (length msgs) ≤ maxSlots)%Z →
  batch_ok kind msgs (newSubQueue "group-a" m (comparatorForStrategy kind)).
Proof.
  intros Hm Hms Hlen. destruct (comparator_ok kind) as [Hcmp _]. split; try done.
  by apply newSubQueue_wf.
Qed.

Lemma inserts_ok : Forall msg_ok inserts.
Proof. unfold inserts. repeat constructor. Qed.

(** A queue after a batch of messages satisfies what decisions need. *)
Lemma sampleQueue_ok kind m :
  valid_limit m →
  queue_ok kind (sampleQueue kind m inserts) ∧ valid_limit (maxRuns (sampleQueue kind m inserts)).
Proof. intros Hm. apply applyWAL_ok, new_batch_ok; [done|apply inserts_ok|done]. Qed.

(** ** Refinement *)

(** C1: for every strategy kind, replaying a batch of log messages into a
    sub-queue, evicting timeouts and deciding has the same outcome as the
    specification on two finite maps: the slots set filled and the slots
    timed out are the same lists, the slots cancelled are the same multiset,
    and the running and queued slots and the limit end up the same. The heap
    index, the slice-or-heap running set and the undo log are not observable. *)
Theorem pipeline_refines_spec kind dec now msgs s :
  decideFor kind = Some dec → batch_ok kind msgs s →
  let '(d', s') := processSubQueue dec now msgs s in
  ∃ d, spec_process kind (comparatorForStrategy kind) now msgs (abs s) = Some (d, abs s') ∧
    d_setFilled d' = d_setFilled d ∧ d_delete d' ≡ₚ d_delete d ∧ d_timeout d' = d_timeout d ∧
    sq_wf s' ∧ abs_ok (abs s').
Proof.
  intros Hdec Hb. pose proof (process_prefix kind now msgs s Hb) as Hpre.
  unfold processSubQueue, spec_process.
  destruct (applyWAL msgs s) as [out s1], (queuedPopTimedOut now s1) as [ex s2].
  destruct Hpre as (-> & -> & Hre & Hq & Hl).
  destruct (spec_wal msgs (abs s)) as [sup a1]. simpl in *.
  destruct (decide_refines kind dec s2 Hdec Hq) as (fill & cancel & cancel' & s' & a' & Heq & Hs & Hp & <- & Hmo).
  pose proof (decide_decided kind dec s2 Hdec Hq) as Hde. rewrite Heq in Hde |- *.
  rewrite (qo_compare _ _ Hq), (re_abs _ _ _ Hre) in Hs. rewrite Hs. eexists. simpl.
  split_and!; [done|done|by rewrite Hp|done|apply Hmo|].
  by apply (decided_ok kind s2 s' fill cancel').
Qed.

Definition sampleStart (kind : V1ConcurrencyStrategy) (m : Z) : subQueue :=
  newSubQueue "group-a" m (comparatorForStrategy kind).

Lemma sampleStart_ok kind m : valid_limit m → batch_ok kind inserts (sampleStart kind m).
Proof. intros Hm. apply new_batch_ok; [done|apply inserts_ok|done]. Qed.

Lemma pipeline_refines_spec_witness :
  let s := sampleStart GROUPROUNDROBIN 2 in
  let r := processSubQueue decideGroupRoundRobin 5000000000 inserts s in
  batch_ok GROUPROUNDROBIN inserts s ∧
  ∃ d, spec_process GROUPROUNDROBIN SlotIndex.priorityCompare 5000000000 inserts (abs s) =
    Some (d, abs r.2) ∧ taskId <$> d_setFilled d = [4; 1]%Z ∧ taskId <$> d_timeout d = [3]%Z.
Proof.
  intros s r. assert (Hb : batch_ok GROUPROUNDROBIN inserts s) by (apply sampleStart_ok; split; done).
  split; [exact Hb|].
  pose proof (pipeline_refines_spec GROUPROUNDROBIN decideGroupRoundRobin 5000000000 inserts s
    eq_refl Hb) as Hp. fold r in Hp. destruct r as [d' s'] eqn:Hr.
  destruct Hp as (d & Hs & Hf & _ & Ht & _). exists d. split; [exact Hs|].
  rewrite <-Hf, <-Ht. assert (d' = r.1) as -> by by rewrite Hr.
  split; vm_compute; reflexivity.
Defined.

(** ** Properties of a decision *)

(** No slot is lost or duplicated by a decision of any strategy: the
    running and queued slots before it are, as a multiset, the running and
    queued slots after it together with the slots it cancels. *)
Theorem decide_conserves kind dec s :
  decideFor kind = Some dec → queue_ok kind s →
  let '(fill, cancel, s') := dec s in
  runs s ++ backlog s ≡ₚ runs s' ++ backlog s' ++ cancel ∧ ∀ x, x ∈ fill → x ∈ runs s'.
Proof.
  intros Hdec Hq. pose proof (decide_decided kind dec s Hdec Hq) as Hde.
  destruct (dec s) as [[fill cancel] s']. destruct Hde as [_ Hp Hf Ht]. split; [done|].
  intros x Hx. destruct (decide (kind = CANCELINPROGRESS)) as [Hk|Hk].
  - destruct (Ht Hk) as (_ & _ & _ & Hfill). by apply Hfill in Hx as [? _].
  - destruct (Hf Hk) as (-> & _). set_solver.
Qed.

Lemma decide_conserves_witness :
  let s := sampleQueue CANCELNEWEST 1 inserts in
  queue_ok CANCELNEWEST s ∧
  let '(fill, cancel, s') := decideCancelNewest s in
  runs s ++ backlog s ≡ₚ runs s' ++ backlog s' ++ cancel ∧
  taskId <$> fill = [4]%Z ∧ taskId <$> cancel = [1; 2; 3]%Z ∧ backlog s' = [].
Proof.
  intros s. assert (Hq : queue_ok CANCELNEWEST s) by (apply sampleQueue_ok; split; done).
  split; [exact Hq|]. pose proof (decide_conserves CANCELNEWEST decideCancelNewest s eq_refl Hq) as Hc.
  destruct (decideCancelNewest s) as [[fill cancel] s'] eqn:Hd. split; [apply Hc|].
  vm_compute in Hd. injection Hd as <- <- <-. repeat split; vm_compute; reflexivity.
Defined.

(** C25: a decision never takes a group above its limit: for every strategy the
    running set grows only up to [maxRuns], a group already above its limit
    does not grow, and under CANCEL_IN_PROGRESS the running set is always cut
    down to [maxRuns]; free capacity is used up as long as slots are queued. *)
Theorem decide_capacity kind dec s :
  decideFor kind = Some dec → queue_ok kind s → valid_limit (maxRuns s) →
  let s' := (dec s).2 in
  (Z.of_nat (length (runs s')) ≤ Z.max (Z.of_nat (length (runs s))) (maxRuns s))%Z ∧
  (kind = CANCELINPROGRESS → (Z.of_nat (length (runs s')) ≤ maxRuns s)%Z) ∧
  ((Z.of_nat (length (runs s')) < maxRuns s)%Z → backlog s' = []).
Proof.
  intros Hdec Hq Hl. pose proof (decide_decided kind dec s Hdec Hq) as Hde.
  destruct (dec s) as [[fill cancel] s']. destruct Hde as [_ Hp Hf Ht]. simpl.
  unfold valid_limit in Hl. destruct (decide (kind = CANCELINPROGRESS)) as [Hk|Hk].
  - destruct (Ht Hk) as (Hb & Hlen & _). unfold maxRunsNat in Hlen. simpl in Hlen.
    split_and!; [lia|lia|done].
  - destruct (Hf Hk) as (Hr & Hlen & _). unfold free in Hlen. simpl in Hlen.
    rewrite kmap_size in Hlen by by apply runs_nodup, Hq.
    pose proof (Permutation_length Hr) as Hlr. rewrite length_app in Hlr.
    split_and!; [lia|done|]. intros Hlt. apply nil_length_inv.
    pose proof (Permutation_length Hp) as Hlp. rewrite !length_app in Hlp. lia.
Qed.

Lemma decide_capacity_witness :
  let s := sampleQueue CANCELINPROGRESS 1 (inserts ++ [wal "INSERT" 5 50 9000 3 0]) in
  (Z.of_nat (length (runs (decideCancelInProgress s).2)) ≤ 1)%Z ∧
  taskId <$> runs (decideCancelInProgress s).2 = [5]%Z.
Proof.
  intros s. assert (Hb : queue_ok CANCELINPROGRESS s ∧ valid_limit (maxRuns s)).
  { apply applyWAL_ok, new_batch_ok; [split; done|repeat constructor|done]. }
  destruct Hb as [Hq Hl]. split; [|vm_compute; reflexivity].
  exact (proj1 (proj2 (decide_capacity CANCELINPROGRESS decideCancelInProgress s eq_refl Hq Hl)) eq_refl).
Defined.

(** The right slots run. A strategy that never preempts keeps every runner
    and fills with queued slots that rank at least as well as every slot it
    leaves queued or cancels; CANCEL_IN_PROGRESS leaves running the best
    [maxRuns] of the running and queued slots together, each of them ranking
    at least as well as every slot it cancels, and fills exactly the queued
    slots among them. *)
Theorem decide_picks_best kind dec s :
  decideFor kind = Some dec → queue_ok kind s →
  let '(fill, cancel, s') := dec s in
  (kind ≠ CANCELINPROGRESS →
     runs s' ≡ₚ fill ++ runs s ∧
     ∀ x y, x ∈ fill → y ∈ backlog s' ++ cancel → x ≤[comparatorForStrategy kind] y) ∧
  (kind = CANCELINPROGRESS →
     (∀ x y, x ∈ runs s' → y ∈ cancel → x ≤[comparatorForStrategy kind] y) ∧
     ∀ x, x ∈ fill ↔ x ∈ runs s' ∧ x ∈ backlog s).
Proof.
  intros Hdec Hq. pose proof (decide_decided kind dec s Hdec Hq) as Hde.
  destruct (dec s) as [[fill cancel] s']. destruct Hde as [_ _ Hf Ht].
  rewrite (qo_compare _ _ Hq) in *. split; intros Hk.
  - destruct (Hf Hk) as (? & _ & ?). done.
  - destruct (Ht Hk) as (_ & _ & ? & ?). done.
Qed.

Lemma decide_picks_best_witness :
  let s := sampleQueue CANCELQUEUEDEXCEPTNEWEST 1 inserts in
  queue_ok CANCELQUEUEDEXCEPTNEWEST s ∧
  let '(fill, cancel, s') := decideCancelQueuedExceptNewest s in
  (∀ x y, x ∈ fill → y ∈ backlog s' ++ cancel → x ≤[SlotIndex.cancelQueuedExceptCompare] y) ∧
  taskId <$> fill = [1]%Z ∧ taskId <$> cancel = [2; 3]%Z ∧ taskId <$> backlog s' = [4]%Z.
Proof.
  intros s. assert (Hq : queue_ok CANCELQUEUEDEXCEPTNEWEST s) by (apply sampleQueue_ok; split; done).
  split; [exact Hq|].
  pose proof (decide_picks_best CANCELQUEUEDEXCEPTNEWEST decideCancelQueuedExceptNewest s eq_refl Hq) as Hc.
  destruct (decideCancelQueuedExceptNewest s) as [[fill cancel] s'] eqn:Hd.
  split; [apply (proj1 Hc); discriminate|].
  vm_compute in Hd. injection Hd as <- <- <-. repeat split; vm_compute; reflexivity.
Defined.

Lemma sorted_map cmp (m : gmap Z slot) :
  map_Forall (λ k s, taskId s = k) m →
  NoDup (taskId <$> sorted cmp m) ∧ kmap taskId (sorted cmp m) = m.
Proof.
  intros Hk. assert (Hid : taskId <$> (map_to_list m).*2 = (map_to_list m).*1).
  { rewrite <-list_fmap_compose. apply list_fmap_ext. intros i [k x] Hi. simpl.
    apply Hk, elem_of_map_to_list. by eapply list_elem_of_lookup_2. }
  assert (Hnd : NoDup (taskId <$> (map_to_list m).*2)) by (rewrite Hid; apply NoDup_fst_map_to_list).
  assert (Hp : sorted cmp m ≡ₚ (map_to_list m).*2) by apply merge_sort_Permutation.
  split; [by rewrite Hp|]. rewrite (kmap_perm taskId _ (map_to_list m).*2); [|by rewrite Hp|done].
  apply map_eq. intros k. apply option_eq. intros x. rewrite lookup_kmap by done. split.
  - intros [([k' x'] & -> & Hin)%list_elem_of_fmap <-]. apply elem_of_map_to_list in Hin. simpl.
    by rewrite (Hk k' x' Hin).
  - intros Hx. split; [|by apply Hk]. apply list_elem_of_fmap. exists (k, x).
    by rewrite elem_of_map_to_list.
Qed.

(** After a fill, either no capacity is free or no slot is queued. *)
Lemma fill_uses_capacity cmp a :
  abs_ok a →
  let q := sorted cmp (a_queued a) in
  ∀ keep, (drop (free a) q = [] → keep = []) →
  let a' := spec_fill (take (free a) q) keep a in
  take (free a') keep = [] ∧ drop (free a') keep = keep.
Proof.
  intros [Hd Hr Hq] q keep Hkeep a'. destruct (sorted_map cmp _ Hq) as [Hnd Hkm]. fold q in Hnd, Hkm.
  destruct (decide (drop (free a) q = [])) as [Hnil|Hnil].
  { rewrite (Hkeep Hnil). by rewrite take_nil, drop_nil. }
  assert (Hlen : free a ≤ length q).
  { destruct (decide (free a ≤ length q)); [done|]. by rewrite drop_ge in Hnil by lia. }
  assert (Hsize : base.size (a_running a') = free a + base.size (a_running a)).
  { unfold a'. simpl. rewrite map_size_disj_union.
    - rewrite kmap_size, length_take; [lia|].
      rewrite <-(take_drop (free a) q), fmap_app in Hnd. by apply NoDup_app in Hnd as [? _].
    - symmetry. eapply map_disjoint_weaken_r; [exact Hd|]. rewrite <-Hkm.
      pose proof (kmap_app (take (free a) q) (drop (free a) q)) as Ha.
      rewrite take_drop in Ha. rewrite Ha. apply map_union_subseteq_l. }
  assert (free a' = 0) as ->; [|done]. unfold free in *. rewrite Hsize. simpl. lia.
Qed.

Lemma sorted_part cmp (m : gmap Z slot) (i n : nat) :
  GoCompare cmp → SlotIndex.tie_free cmp → map_Forall (λ k s, taskId s = k) m →
  sorted cmp (kmap taskId (take n (drop i (sorted cmp m)))) = take n (drop i (sorted cmp m)).
Proof.
  intros Hcmp Htie Hk. destruct (sorted_map cmp m Hk) as [Hnd _].
  pose proof (sorted_sorted cmp m Hcmp) as Hs.
  rewrite <-(take_drop i (sorted cmp m)), <-(take_drop n (drop i (sorted cmp m))) in Hnd, Hs.
  apply StronglySorted_app_1_r, StronglySorted_app_1_l in Hs.
  rewrite !fmap_app in Hnd. apply NoDup_app in Hnd as (_ & _ & (Hnd & _ & _)%NoDup_app).
  by apply sorted_kmap.
Qed.

Lemma spec_fill_nil keep a : a_queued a = kmap taskId keep → spec_fill [] keep a = a.
Proof.
  intros Hq. unfold spec_fill. rewrite kmap_nil, (left_id_L ∅ (∪)), <-Hq. by destruct a.
Qed.

(** Deciding on [keep] when no capacity is left: only the cancellations. *)
Lemma spec_decide_kept kind cmp a' keep :
  a_queued a' = kmap taskId keep → sorted cmp (kmap taskId keep) = keep →
  take (free a') keep = [] → drop (free a') keep = keep →
  let n := length keep - maxRunsNat a' in
  match kind with
  | NONE | CANCELINPROGRESS => True
  | GROUPROUNDROBIN => spec_decide kind cmp a' = Some ([], [], a')
  | CANCELNEWEST => keep = [] → spec_decide kind cmp a' = Some ([], [], a')
  | CANCELQUEUEDEXCEPTNEWEST | CANCELQUEUEDEXCEPTOLDEST =>
      length keep ≤ maxRunsNat a' → spec_decide kind cmp a' = Some ([], [], a')
  end.
Proof.
  intros Hq Hs Ht Hd n. unfold n, spec_decide. rewrite Hq, Hs, Ht, Hd.
  destruct kind; [done|by rewrite spec_fill_nil|done| | |].
  - intros ->. by rewrite spec_fill_nil.
  - intros Hle. replace (length keep - maxRunsNat a') with 0 by lia.
    by rewrite take_0, drop_0, spec_fill_nil.
  - intros Hle. rewrite drop_ge, take_ge by done. by rewrite spec_fill_nil.
Qed.

(** A strategy's decision on its own result is the identity. *)
Lemma spec_decide_fixpoint kind cmp a fill cancel a' :
  GoCompare cmp → SlotIndex.tie_free cmp → abs_ok a →
  spec_decide kind cmp a = Some (fill, cancel, a') →
  spec_decide kind cmp a' = Some ([], [], a').
Proof.
  intros Hcmp Htie Hok Hs. set (q := sorted cmp (a_queued a)) in *.
  set (rest := drop (free a) q) in *.
  assert (Hpart : ∀ i n, sorted cmp (kmap taskId (take n (drop i rest))) = take n (drop i rest)).
  { intros i n. unfold rest. rewrite drop_drop. apply sorted_part; [done|done|apply Hok]. }
  pose proof (fill_uses_capacity cmp a Hok) as Hcap. simpl in Hcap. fold q in Hcap.
  assert (Hkept : ∀ i n, let a' := spec_fill (take (free a) q) (take n (drop i rest)) a in
    take (free a') (take n (drop i rest)) = [] ∧ drop (free a') (take n (drop i rest)) = take n (drop i rest)).
  { intros i n. apply Hcap. fold rest. intros ->. by rewrite drop_nil, take_nil. }
  destruct kind; [done|..]; simpl in Hs; injection Hs as Hf Hc Ha; fold q in Ha; try fold rest in Ha;
    rewrite <-Ha; clear Ha.
  - destruct (Hkept 0 (length rest)) as [Ht Hd]. rewrite drop_0, (take_ge rest (length rest)) in Ht, Hd by lia.
    apply (spec_decide_kept GROUPROUNDROBIN cmp _ rest); try done.
    specialize (Hpart 0 (length rest)). by rewrite drop_0, (take_ge rest (length rest)) in Hpart by lia.
  - set (n := maxRunsNat a). set (all := sorted cmp (a_running a ∪ a_queued a)).
    assert (Hall : sorted cmp (kmap taskId (take n all)) = take n all).
    { rewrite <-(drop_0 all). apply sorted_part; [done|done|].
      apply map_Forall_union_2; apply Hok. }
    unfold spec_decide. simpl. rewrite (right_id_L ∅ (∪)), Hall. unfold maxRunsNat. simpl.
    fold (maxRunsNat a) n. rewrite take_take, Nat.min_id, drop_ge by (rewrite length_take; lia).
    by rewrite filter_none by set_solver.
  - destruct (Hkept 0 0) as [Ht Hd]. apply (spec_decide_kept CANCELNEWEST cmp _ []); try done.
  - set (n := length rest - maxRunsNat a). destruct (Hkept n (length rest)) as [Ht Hd].
    rewrite (take_ge (drop n rest) (length rest)) in Ht, Hd by (rewrite length_drop; lia).
    apply (spec_decide_kept CANCELQUEUEDEXCEPTNEWEST cmp _ (drop n rest)); try done.
    + specialize (Hpart n (length rest)). 
      by rewrite (take_ge (drop n rest) (length rest)) in Hpart by (rewrite length_drop; lia).
    + unfold maxRunsNat at 1. simpl. fold (maxRunsNat a). rewrite length_drop. lia.
  - destruct (Hkept 0 (maxRunsNat a)) as [Ht Hd]. rewrite drop_0 in Ht, Hd.
    apply (spec_decide_kept CANCELQUEUEDEXCEPTOLDEST cmp _ (take (maxRunsNat a) rest)); try done.
    + specialize (Hpart 0 (maxRunsNat a)). by rewrite drop_0 in Hpart.
    + rewrite length_take. unfold maxRunsNat. simpl. lia.
Qed.

(** After a decision, deciding again without new messages fills nothing,
    cancels nothing and leaves the running and queued slots unchanged: every
    strategy's decision is a fixed point. *)
Theorem decide_idempotent kind dec s :
  decideFor kind = Some dec → queue_ok kind s → valid_limit (maxRuns s) →
  let s1 := (dec s).2 in
  let '(fill, cancel, s2) := dec s1 in
  fill = [] ∧ cancel = [] ∧ abs s2 = abs s1.
Proof.
  intros Hdec Hq Hl. pose proof (decide_decided kind dec s Hdec Hq) as Hde.
  destruct (decide_refines kind dec s Hdec Hq) as (fill & cancel & cancel' & s1 & a1 & Heq & Hs & _ & <- & _).
  rewrite Heq in Hde |- *. simpl. pose proof (decided_ok _ _ _ _ _ Hq Hl Hde) as Hq1.
  destruct (decide_refines kind dec s1 Hdec Hq1) as (fill2 & cancel2 & cancel2' & s2 & a2 & -> & Hs2 & Hp2 & <- & _).
  assert (spec_decide kind (compare s1) (abs s1) = Some ([], [], abs s1)) as Hfix.
  { assert (compare s1 = compare s) as -> by apply (mo_frame _ _ (de_moves _ _ _ _ _ Hde)).
    destruct (comparator_ok kind) as [Hcmp Htie]. rewrite <-(qo_compare _ _ Hq) in Hcmp, Htie.
    by eapply spec_decide_fixpoint; [..|apply Hq|]. }
  rewrite Hfix in Hs2. remember (abs s1) as x. remember (abs s2) as y. simplify_eq Hs2.
  intros <- <- <-. split_and!; [done| |done]. by apply Permutation_nil_r.
Qed.

Lemma decide_idempotent_witness :
  let s := sampleQueue CANCELQUEUEDEXCEPTOLDEST 1 inserts in
  queue_ok CANCELQUEUEDEXCEPTOLDEST s ∧
  let s1 := (decideCancelQueuedExceptOldest s).2 in
  taskId <$> runs s1 = [1]%Z ∧ taskId <$> backlog s1 = [2]%Z ∧
  (decideCancelQueuedExceptOldest s1).1.1 = [] ∧
  abs (decideCancelQueuedExceptOldest s1).2 = abs s1.
Proof.
  intros s. destruct (sampleQueue_ok CANCELQUEUEDEXCEPTOLDEST 1) as [Hq Hl]; [split; done|].
  split; [exact Hq|]. intros s1. split; [vm_compute; reflexivity|]. split; [vm_compute; reflexivity|].
  pose proof (decide_idempotent CANCELQUEUEDEXCEPTOLDEST decideCancelQueuedExceptOldest s eq_refl Hq Hl) as Hi.
  cbv zeta in Hi. fold s1 in Hi.
  destruct (decideCancelQueuedExceptOldest s1) as [[fill cancel] s2].
  destruct Hi as (Hf & _ & Ha). split; [exact Hf|exact Ha].
Defined.

(** The post-build pass may skip a sub-queue with nothing queued and at
    least one runner within the limit: deciding it would fill nothing, cancel
    nothing and change nothing. *)
Theorem skip_sound kind dec s :
  decideFor kind = Some dec → queue_ok kind s → SlotIndex.len (queuedIndex s) = 0 →
  (0 < Z.of_nat (Running.len (running s)) ≤ maxRuns s)%Z →
  let '(fill, cancel, s') := dec s in
  fill = [] ∧ cancel = [] ∧ abs s' = abs s.
Proof.
  intros Hdec Hq Hb Hr. pose proof (decide_decided kind dec s Hdec Hq) as Hde.
  destruct (dec s) as [[fill cancel] s']. pose proof (qo_wf _ _ Hq) as Hwf.
  pose proof (decided_backlog _ _ _ _ _ Hde) as Hfb. destruct Hde as [[Hwf' _ _ Hlim] Hp Hf Ht].
  rewrite len_backlog in Hb. rewrite len_runs in Hr. apply nil_length_inv in Hb. rewrite Hb in *.
  assert (fill = []) as ->.
  { destruct fill as [|x fill]; [done|]. specialize (Hfb x). set_solver. }
  pose proof (Permutation_length Hp) as Hlen. rewrite !length_app in Hlen. simpl in Hlen.
  assert (length (runs s') = length (runs s)) as Hl'.
  { destruct (decide (kind = CANCELINPROGRESS)) as [Hk|Hk].
    - destruct (Ht Hk) as (_ & -> & _). unfold maxRunsNat. simpl. lia.
    - destruct (Hf Hk) as (-> & _). done. }
  assert (cancel = [] ∧ backlog s' = []) as [-> Hb'] by (split; apply nil_length_inv; lia).
  split_and!; [done|done|]. rewrite Hb', !app_nil_r in Hp. unfold abs, limit in *.
  injection Hlim as -> ->. rewrite Hb, Hb'. f_equal. symmetry. apply kmap_perm; [by apply runs_nodup|done].
Qed.

Lemma skip_sound_witness :
  let s := (decideGroupRoundRobin (sampleQueue GROUPROUNDROBIN 9 inserts)).2 in
  queue_ok GROUPROUNDROBIN s ∧ length (runs s) = 4 ∧
  (decideGroupRoundRobin s).1.1 = [] ∧ abs (decideGroupRoundRobin s).2 = abs s.
Proof.
  intros s. assert (Hq : queue_ok GROUPROUNDROBIN s).
  { destruct (sampleQueue_ok GROUPROUNDROBIN 9) as [Hq Hl]; [split; done|].
    pose proof (decide_decided GROUPROUNDROBIN decideGroupRoundRobin _ eq_refl Hq) as Hd. unfold s.
    destruct (decideGroupRoundRobin _) as [[fill cancel] s']. by eapply decided_ok. }
  split; [exact Hq|]. split; [vm_compute; reflexivity|].
  pose proof (skip_sound GROUPROUNDROBIN decideGroupRoundRobin s eq_refl Hq) as Hs.
  destruct (decideGroupRoundRobin s) as [[fill cancel] s'].
  destruct Hs as (Hf & _ & Ha); [vm_compute; reflexivity|vm_compute; split; [reflexivity|discriminate]|].
  split; [exact Hf|exact Ha].
Defined.

(** ** Properties of a batch *)

(** A batch never runs a slot whose schedule timeout has passed: every
    slot it sets filled expires after [now], every slot it times out expired
    at or before [now], and no expired slot is left queued. *)
Theorem timed_out_never_filled kind dec now msgs s :
  decideFor kind = Some dec → batch_ok kind msgs s →
  let '(d, s') := processSubQueue dec now msgs s in
  (∀ x, x ∈ d_setFilled d → (UnixMilli now < scheduleTimeoutAtMs x)%Z) ∧
  (∀ x, x ∈ d_timeout d → (scheduleTimeoutAtMs x ≤ UnixMilli now)%Z) ∧
  (∀ x, x ∈ backlog s' → (UnixMilli now < scheduleTimeoutAtMs x)%Z).
Proof.
  intros Hdec Hb. unfold processSubQueue. pose proof (process_prefix kind now msgs s Hb) as Hpre.
  pose proof (proj1 (applyWAL_ok kind msgs s Hb)) as Hq1.
  destruct (applyWAL msgs s) as [out s1]. simpl in Hq1.
  pose proof (queuedPopTimedOut_spec now s1 (qo_wf _ _ Hq1)) as Hpop.
  destruct (queuedPopTimedOut now s1) as [ex s2]. destruct Hpop as (_ & _ & Hle & Hgt & _).
  destruct Hpre as (_ & _ & _ & Hq & _). pose proof (decide_decided kind dec s2 Hdec Hq) as Hde.
  destruct (dec s2) as [[fill cancel] s']. simpl. pose proof (decided_backlog _ _ _ _ _ Hde) as Hfb.
  split_and!; [by intros x Hx%Hfb; apply Hgt|done|]. intros x Hx. destruct Hde as [_ Hp Hf Ht].
  destruct (decide (kind = CANCELINPROGRESS)) as [Hk|Hk].
  - destruct (Ht Hk) as [Hnil _]. rewrite Hnil in Hx. set_solver.
  - destruct (Hf Hk) as (Hr & _ & _). apply Hgt.
    assert (Hbl : backlog s2 ≡ₚ fill ++ backlog s' ++ cancel).
    { apply (Permutation_app_inv_l (runs s2)). rewrite Hp, Hr. solve_Permutation. }
    rewrite Hbl. set_solver.
Qed.

Lemma timed_out_never_filled_witness :
  let s := sampleStart CANCELINPROGRESS 3 in
  batch_ok CANCELINPROGRESS inserts s ∧
  let '(d, s') := processSubQueue decideCancelInProgress 100000000 inserts s in
  (∀ x, x ∈ d_setFilled d → (100 < scheduleTimeoutAtMs x)%Z) ∧
  taskId <$> d_setFilled d = [4; 2; 1]%Z ∧ taskId <$> d_timeout d = [3]%Z.
Proof.
  intros s. assert (Hb : batch_ok CANCELINPROGRESS inserts s) by (apply sampleStart_ok; split; done).
  split; [exact Hb|].
  pose proof (timed_out_never_filled CANCELINPROGRESS decideCancelInProgress 100000000 inserts s
    eq_refl Hb) as Ht.
  destruct (processSubQueue decideCancelInProgress 100000000 inserts s) as [d s'] eqn:Hd.
  split; [exact (proj1 Ht)|]. vm_compute in Hd. injection Hd as <- <-.
  split; vm_compute; reflexivity.
Defined.

(** *** Retries *)

Lemma held_spec_queue s a id :
  held id (spec_queue s a) = if decide (id = taskId s) then Some s else held id a.
Proof.
  unfold held, spec_queue. simpl. case_decide as Hid.
  - subst id. by rewrite lookup_delete_eq, lookup_insert_eq.
  - by rewrite lookup_delete_ne, lookup_insert_ne by done.
Qed.

Lemma held_keyed id a s : abs_ok a → held id a = Some s → taskId s = id.
Proof.
  intros [_ Hr Hq]. unfold held. destruct (a_running a !! id) as [x|] eqn:Hx.
  - intros [= <-]. by apply Hr.
  - apply Hq.
Qed.

Lemma held_observe id msg a : held id (spec_observe msg a) = held id a.
Proof. unfold held. by destruct (spec_observe_maps msg a) as [-> ->]. Qed.

(** One INSERT: other tasks are untouched, the message's task holds the slot
    with the greater count, and a slot that lost has a smaller count. *)
Lemma spec_insert_held msg a :
  abs_ok a → w_operation msg = "INSERT"%string →
  let '(out, a') := spec_message msg a in
  (∀ id, id ≠ w_taskId msg → held id a' = held id a) ∧
  ∃ cur', held (w_taskId msg) a' = Some cur' ∧ (w_taskRetryCount msg ≤ taskRetryCount cur')%Z ∧
    (∀ cur, held (w_taskId msg) a = Some cur → (taskRetryCount cur ≤ taskRetryCount cur')%Z) ∧
    ∀ x, x ∈ out → taskId x = w_taskId msg ∧ (taskRetryCount x < taskRetryCount cur')%Z.
Proof.
  intros Hok Hop. unfold spec_message. rewrite decide_True by done.
  change (taskId (walMessageToSlot msg)) with (w_taskId msg).
  change (taskRetryCount (walMessageToSlot msg)) with (w_taskRetryCount msg).
  pose proof (held_spec_queue (walMessageToSlot msg) (spec_observe msg a)) as Hsq.
  change (taskId (walMessageToSlot msg)) with (w_taskId msg) in Hsq.
  rewrite held_observe. destruct (held (w_taskId msg) a) as [cur|] eqn:Hh.
  - pose proof (held_keyed _ _ _ Hok Hh) as Hid.
    destruct (Z.compare_spec (taskRetryCount cur) (w_taskRetryCount msg)) as [Hc|Hc|Hc].
    + split; [intros; apply held_observe|]. exists cur. rewrite held_observe.
      split_and!; [done|lia|naive_solver lia|set_solver].
    + split; [intros id Hne; rewrite Hsq, decide_False by done; apply held_observe|].
      exists (walMessageToSlot msg). rewrite Hsq, decide_True by done.
      split_and!; [done|simpl; lia|intros ? [= <-]; simpl; lia|].
      intros x ->%list_elem_of_singleton. done.
    + split; [intros; apply held_observe|]. exists cur. rewrite held_observe.
      split_and!; [done|lia|naive_solver lia|]. intros x ->%list_elem_of_singleton. done.
  - split; [intros id Hne; rewrite Hsq, decide_False by done; apply held_observe|].
    exists (walMessageToSlot msg). rewrite Hsq, decide_True by done.
    split_and!; [done|simpl; lia|done|set_solver].
Qed.

Lemma spec_wal_retries msgs a :
  abs_ok a → Forall (λ msg, w_operation msg = "INSERT"%string) msgs →
  let '(out, a') := spec_wal msgs a in
  (∀ id cur, held id a = Some cur →
    ∃ cur', held id a' = Some cur' ∧ (taskRetryCount cur ≤ taskRetryCount cur')%Z) ∧
  (∀ msg, msg ∈ msgs →
    ∃ cur', held (w_taskId msg) a' = Some cur' ∧ (w_taskRetryCount msg ≤ taskRetryCount cur')%Z) ∧
  (∀ x, x ∈ out →
    ∃ cur', held (taskId x) a' = Some cur' ∧ (taskRetryCount x < taskRetryCount cur')%Z).
Proof.
  intros Hok Hins. revert a Hok. induction Hins as [|msg msgs Hop _ IH]; intros a Hok; simpl.
  { split_and!; [eauto using Z.le_refl|set_solver|set_solver]. }
  pose proof (spec_insert_held msg a Hok Hop) as Hone. pose proof (spec_message_ok msg a Hok) as [Hok1 _].
  destruct (spec_message msg a) as [out1 a1]. specialize (IH a1 Hok1).
  destruct (spec_wal msgs a1) as [out2 a2]. destruct IH as (IH1 & IH2 & IH3).
  destruct Hone as (Hother & cur1 & Hcur1 & Hmsg & Hprev & Hout).
  destruct (IH1 _ _ Hcur1) as (cur2 & Hcur2 & Hle). split_and!.
  - intros id cur Hcur. destruct (decide (id = w_taskId msg)) as [->|Hne].
    + exists cur2. split; [done|]. specialize (Hprev cur Hcur). lia.
    + apply IH1. by rewrite Hother.
  - intros m [->|Hm]%elem_of_cons; [|auto]. exists cur2. split; [done|lia].
  - intros x [Hx|Hx]%elem_of_app; [|auto]. destruct (Hout x Hx) as [-> Hlt].
    exists cur2. split; [done|lia].
Qed.

(** The retry with the greatest count wins. After replaying INSERT
    messages, the slot a task holds (running or queued) has a retry count at
    least that of every slot the task held or received, so a stale or
    reordered message never replaces a newer retry, and every slot returned
    for cancellation has a strictly smaller count than the one its task holds. *)
Theorem newest_retry_wins msgs s :
  sq_wf s → abs_ok (abs s) → (Z.of_nat (total (abs s) + length msgs) ≤ maxSlots)%Z →
  Forall (λ msg, w_operation msg = "INSERT"%string) msgs →
  let '(superseded, s') := applyWAL msgs s in
  (∀ id cur, held id (abs s) = Some cur →
    ∃ cur', held id (abs s') = Some cur' ∧ (taskRetryCount cur ≤ taskRetryCount cur')%Z) ∧
  (∀ msg, msg ∈ msgs →
    ∃ cur', held (w_taskId msg) (abs s') = Some cur' ∧ (w_taskRetryCount msg ≤ taskRetryCount cur')%Z) ∧
  (∀ x, x ∈ superseded →
    ∃ cur', held (taskId x) (abs s') = Some cur' ∧ (taskRetryCount x < taskRetryCount cur')%Z).
Proof.
  intros Hwf Hok Hfit Hins. destruct (applyWAL_refines msgs s Hwf Hok Hfit) as (Hout & [_ _ _ Ha] & _).
  pose proof (spec_wal_retries msgs (abs s) Hok Hins) as Hsp.
  destruct (applyWAL msgs s) as [out s']. simpl in Hout, Ha. rewrite Ha, Hout.
  by destruct (spec_wal msgs (abs s)).
Qed.

Lemma newest_retry_wins_witness :
  let s := sampleQueue GROUPROUNDROBIN 2 inserts in
  let msgs := [wal "INSERT" 1 10 9000 1 2; wal "INSERT" 1 10 9000 1 1] in
  let '(superseded, s') := applyWAL msgs s in
  (∀ x, x ∈ superseded →
    ∃ cur', held (taskId x) (abs s') = Some cur' ∧ (taskRetryCount x < taskRetryCount cur')%Z) ∧
  taskRetryCount <$> superseded = [0; 1]%Z ∧ taskRetryCount <$> held 1 (abs s') = Some 2%Z.
Proof.
  intros s msgs. destruct (sampleQueue_ok GROUPROUNDROBIN 2) as [[Hwf Hok _ _ _] _]; [split; done|].
  pose proof (newest_retry_wins msgs s Hwf Hok) as Hn.
  destruct (applyWAL msgs s) as [out s'] eqn:Hd.
  destruct Hn as (_ & _ & Ho); [vm_compute; discriminate|repeat constructor|].
  split; [exact Ho|]. vm_compute in Hd. injection Hd as <- <-. split; vm_compute; reflexivity.
Defined.

End Policies.
