(* ===== verification/Strategy.v ===== *)
(** * The in-memory concurrency index of a strategy

    Models pkg/scheduling/v1/concurrency/strategy.go from the strategy down to
    its sub-queues: grouping a batch by key, the pipeline over the sub-queues
    a batch touches (sequentially and as interleaved goroutines), the scopes
    that stay open until the outbox transaction is decided, the post-build
    pass, pruning, the update of a definition and [Run]. Sub-queues are shared
    objects: the map, the open scopes and the list of touched sub-queues hold
    pointers, so the model keeps a store and pointers are positions in it. *)

From S2P Require Import Prelude IndexedHeap SlotIndex RunningSlots SubQueue Decide.
From stdpp Require Import pretty.
Import SlotIndex (slot, taskId, taskInsertedAtNs, taskRetryCount, UnixMilli, maxSlots).
Import SubQueue Decide.

Module Strategy.

(** ** Inputs and results of the repository *)

Record taskRef := TaskIdInsertedAtRetryCount { tr_id : Z; tr_insertedAt : Z; tr_retryCount : Z }.
Record cancelledSlotInput := CancelledSlotInput { cs_task : taskRef; cs_reason : string }.

Definition CancelledReasonConcurrencyLimit : string := "CONCURRENCY_LIMIT".
Definition CancelledReasonSchedulingTimedOut : string := "SCHEDULING_TIMED_OUT".

Definition taskOf (s : slot) : taskRef :=
  TaskIdInsertedAtRetryCount (taskId s) (taskInsertedAtNs s) (taskRetryCount s).

Definition buildSlotInputs (d : decisions) : list taskRef * list cancelledSlotInput :=
  (taskOf <$> d_setFilled d,
   ((λ s, CancelledSlotInput (taskOf s) CancelledReasonConcurrencyLimit) <$> d_delete d) ++
   ((λ s, CancelledSlotInput (taskOf s) CancelledReasonSchedulingTimedOut) <$> d_timeout d)).

(** The strategy definition; the tenant id is its textual form. *)
Record V1StepConcurrency := StepConcurrency {
  sc_id : Z;
  sc_tenantId : string;
  sc_strategy : V1ConcurrencyStrategy;
  sc_maxConcurrency : Z
}.

Definition getTopic (s : V1StepConcurrency) : string :=
  ("concurrency." +:+ sc_tenantId s +:+ "." +:+ pretty (sc_id s))%string.

Section strategy.
(** The result rows come from the repository: the model only moves them. *)
Context {TaskWithQueue TaskWithCancelledReason : Type}.

Record RunConcurrencyResult := RunResult {
  rr_queued : list TaskWithQueue;
  rr_cancelled : list TaskWithCancelledReason;
  rr_nextStrategies : list Z;
  rr_failedAdvisoryLock : bool
}.

(** A nil result is skipped. *)
Definition mergeResults (results : list (option RunConcurrencyResult)) : RunConcurrencyResult :=
  foldl (λ merged r,
    match r with
    | None => merged
    | Some r => RunResult (rr_queued merged ++ rr_queued r) (rr_cancelled merged ++ rr_cancelled r)
                  (rr_nextStrategies merged ++ rr_nextStrategies r) (rr_failedAdvisoryLock merged)
    end) (RunResult [] [] [] false) results.

(** ** State *)

Record ConcurrencyStrategy := MkStrategy {
  store : list subQueue;
  subQueues : gmap string nat;
  resident : residentSize;
  strategy : V1StepConcurrency;
  st_compare : slot → slot → Z;
  pending : list (option RunConcurrencyResult);
  openScopes : list nat;
  initialQueued : bool
}.

Definition set_store (l : list subQueue) (c : ConcurrencyStrategy) : ConcurrencyStrategy :=
  MkStrategy l (subQueues c) (resident c) (strategy c) (st_compare c) (pending c)
    (openScopes c) (initialQueued c).
Definition set_subQueues (m : gmap string nat) (c : ConcurrencyStrategy) : ConcurrencyStrategy :=
  MkStrategy (store c) m (resident c) (strategy c) (st_compare c) (pending c)
    (openScopes c) (initialQueued c).
Definition set_resident (r : residentSize) (c : ConcurrencyStrategy) : ConcurrencyStrategy :=
  MkStrategy (store c) (subQueues c) r (strategy c) (st_compare c) (pending c)
    (openScopes c) (initialQueued c).
Definition set_pending (p : list (option RunConcurrencyResult)) (c : ConcurrencyStrategy) :
    ConcurrencyStrategy :=
  MkStrategy (store c) (subQueues c) (resident c) (strategy c) (st_compare c) p
    (openScopes c) (initialQueued c).
Definition set_openScopes (l : list nat) (c : ConcurrencyStrategy) : ConcurrencyStrategy :=
  MkStrategy (store c) (subQueues c) (resident c) (strategy c) (st_compare c) (pending c)
    l (initialQueued c).
Definition set_strategy (s : V1StepConcurrency) (c : ConcurrencyStrategy) : ConcurrencyStrategy :=
  MkStrategy (store c) (subQueues c) (resident c) s (st_compare c) (pending c)
    (openScopes c) (initialQueued c).
Definition set_initialQueued (b : bool) (c : ConcurrencyStrategy) : ConcurrencyStrategy :=
  MkStrategy (store c) (subQueues c) (resident c) (strategy c) (st_compare c) (pending c)
    (openScopes c) b.

(** The state [NewConcurrencyStrategy] builds before hydration. *)
Definition NewConcurrencyStrategy (s : V1StepConcurrency) : ConcurrencyStrategy :=
  MkStrategy [] ∅ zeroSize s (comparatorForStrategy (sc_strategy s)) [] [] false.

(** Write through a sub-queue pointer. *)
Definition updSub (p : nat) (f : subQueue → subQueue) (c : ConcurrencyStrategy) :
    ConcurrencyStrategy :=
  set_store (alter f p (store c)) c.

(** [resident.add]. *)
Definition addResident (delta : residentSize) (c : ConcurrencyStrategy) : ConcurrencyStrategy :=
  set_resident (plus (resident c) delta) c.

(** ** Sub-queues *)

Definition getOrCreateSubQueue (k : string) (c : ConcurrencyStrategy) : nat * ConcurrencyStrategy :=
  match subQueues c !! k with
  | Some p => (p, c)
  | None =>
      let sq := newSubQueue k (sc_maxConcurrency (strategy c)) (st_compare c) in
      let p := length (store c) in
      (p, set_subQueues (<[k := p]> (subQueues c)) (set_store (store c ++ [sq]) c))
  end.

(** The loops of [commit] and [rollback]: finalize the scope of each sub-queue
    with [fin], summing the size changes. *)
Fixpoint finalizeLoop (fin : subQueue → residentSize * subQueue) (ps : list nat)
    (delta : residentSize) (c : ConcurrencyStrategy) : residentSize * ConcurrencyStrategy :=
  match ps with
  | [] => (delta, c)
  | p :: ps =>
      match store c !! p with
      | None => finalizeLoop fin ps delta c
      | Some sq =>
          let '(d, sq') := fin sq in
          finalizeLoop fin ps (plus delta d) (updSub p (λ _, sq') c)
      end
  end.

Definition commit (ps : list nat) (c : ConcurrencyStrategy) : ConcurrencyStrategy :=
  let '(delta, c) := finalizeLoop SubQueue.commit ps zeroSize c in addResident delta c.

Definition rollback (ps : list nat) (c : ConcurrencyStrategy) : ConcurrencyStrategy :=
  let '(delta, c) := finalizeLoop SubQueue.rollback ps zeroSize c in addResident delta c.

Definition commitScopes (c : ConcurrencyStrategy) : list nat * ConcurrencyStrategy :=
  let committed := openScopes c in
  (committed, set_openScopes [] (commit committed c)).

Definition rollbackScopes (c : ConcurrencyStrategy) : ConcurrencyStrategy :=
  set_openScopes [] (rollback (openScopes c) c).

Definition appendPending (r : option RunConcurrencyResult) (c : ConcurrencyStrategy) :
    ConcurrencyStrategy :=
  set_pending (pending c ++ [r]) c.

Definition takePending (c : ConcurrencyStrategy) :
    list (option RunConcurrencyResult) * ConcurrencyStrategy :=
  (pending c, set_pending [] c).

(** Only delete a sub-queue the map still holds under its key. *)
Definition pruneOne (p : nat) (c : ConcurrencyStrategy) : ConcurrencyStrategy :=
  match store c !! p with
  | None => c
  | Some sq =>
      if decide (Running.len (running sq) ≠ 0 ∨ SlotIndex.len (queuedIndex sq) ≠ 0) then c
      else if decide (subQueues c !! key sq = Some p)
      then set_subQueues (delete (key sq) (subQueues c)) c
      else c
  end.

Definition pruneEmpty (candidates : list nat) (c : ConcurrencyStrategy) : ConcurrencyStrategy :=
  foldl (λ c p, pruneOne p c) c candidates.

(** ** Batches *)

(** [enumerables.GroupBy] by key: messages of a key keep their order. *)
Definition groupMessagesBySubQueue (msgs : list walMessage) : gmap string (list walMessage) :=
  foldl (λ m msg, <[w_key msg := default [] (m !! w_key msg) ++ [msg]]> m) ∅ msgs.

Definition appendDecisions (d e : decisions) : decisions :=
  Decisions (d_setFilled d ++ d_setFilled e) (d_delete d ++ d_delete e)
    (d_timeout d ++ d_timeout e).

Definition noDecisions : decisions := Decisions [] [] [].

(** The main loop of [decideSubQueues] for one key: open a scope. *)
Definition openSub (k : string) (c : ConcurrencyStrategy) : nat * ConcurrencyStrategy :=
  let '(p, c) := getOrCreateSubQueue k c in (p, updSub p begin c).

(** The goroutine of one sub-queue: the pipeline on its own object. *)
Definition workSub (dec : decideFn) (now : Z) (p : nat) (msgs : list walMessage)
    (c : ConcurrencyStrategy) : decisions * ConcurrencyStrategy :=
  match store c !! p with
  | None => (noDecisions, c)
  | Some sq =>
      let '(d, sq') := processSubQueue dec now msgs sq in (d, updSub p (λ _, sq') c)
  end.

(** [decideSubQueues] with each goroutine run to completion as it is started;
    [groups] is the grouped map in the order the code ranges over it. *)
Fixpoint decideSubQueues (dec : decideFn) (now : Z) (groups : list (string * list walMessage))
    (c : ConcurrencyStrategy) : list nat * decisions * ConcurrencyStrategy :=
  match groups with
  | [] => ([], noDecisions, c)
  | (k, msgs) :: groups =>
      let '(p, c) := openSub k c in
      let '(d, c) := workSub dec now p msgs c in
      let '(touched, rest, c) := decideSubQueues dec now groups c in
      (p :: touched, appendDecisions d rest, c)
  end.

(** *** Any interleaving of the goroutines *)

Record dstate := DState {
  ds_strategy : ConcurrencyStrategy;
  ds_todo : list (string * list walMessage);
  ds_running : list (nat * list walMessage);
  ds_touched : list nat;
  ds_out : decisions
}.

Inductive dstep (dec : decideFn) (now : Z) : dstate → dstate → Prop :=
| ds_spawn c k msgs todo ws touched out :
    dstep dec now (DState c ((k, msgs) :: todo) ws touched out)
      (let '(p, c') := openSub k c in
       DState c' todo ((p, msgs) :: ws) (touched ++ [p]) out)
| ds_finish c todo ws1 p msgs ws2 touched out :
    dstep dec now (DState c todo (ws1 ++ (p, msgs) :: ws2) touched out)
      (let '(d, c') := workSub dec now p msgs c in
       DState c' todo (ws1 ++ ws2) touched (appendDecisions out d)).

(** ** Flushing *)

(** The repository's answer to a flush: a result or an error. *)
Definition repoFn : Type :=
  list taskRef → list cancelledSlotInput → option RunConcurrencyResult.

Definition flushToDatabase (repo : repoFn) (d : decisions) : option RunConcurrencyResult :=
  let '(tasksToSetFilled, cancelledSlots) := buildSlotInputs d in
  repo tasksToSetFilled cancelledSlots.

(** Go ranges over a map in an arbitrary order: an enumeration of its entries. *)
Definition orderFn : Type :=
  gmap string (list walMessage) → list (string * list walMessage).

(** [processStrategy] (and [processWALMessages], which only takes the lock);
    an error is [None]. [decideFor] is [None] where the code panics. *)
Definition processStrategy (repo : repoFn) (order : orderFn) (dec : decideFn) (now : Z)
    (msgs : list walMessage) (c : ConcurrencyStrategy) :
    option RunConcurrencyResult * ConcurrencyStrategy :=
  let grouped := groupMessagesBySubQueue msgs in
  let '(touched, d, c) := decideSubQueues dec now (order grouped) c in
  (flushToDatabase repo d, set_openScopes touched c).

(** [Flush]: payloads that do not decode are an error before any change. *)
Definition Flush {payload : Type} (unmarshal : payload → option walMessage) (repo : repoFn)
    (order : orderFn) (dec : decideFn) (now : Z) (payloads : list payload)
    (c : ConcurrencyStrategy) : bool * ConcurrencyStrategy :=
  match mapM unmarshal payloads with
  | None => (false, c)
  | Some wal =>
      let '(res, c) := processStrategy repo order dec now wal c in
      match res with
      | None => (false, c)
      | Some r => (true, appendPending (Some r) c)
      end
  end.

(** ** The post-build pass *)

(** A sub-queue with nothing queued and runners within the limit is skipped. *)
Definition skipSub (sq : subQueue) : bool :=
  let n := Z.of_nat (Running.len (running sq)) in
  (SlotIndex.len (queuedIndex sq) =? 0)%nat && (0 <? n)%Z && (n <=? maxRuns sq)%Z.

(** The keys to decide, each with no messages. *)
Definition unskipped (c : ConcurrencyStrategy) : gmap string (list walMessage) :=
  omap (λ p, match store c !! p with
             | None => None
             | Some sq => if skipSub sq then None else Some []
             end) (subQueues c).

(** [None] is an error. *)
Definition queueAllSubQueues (repo : repoFn) (order : orderFn) (dec : decideFn) (now : Z)
    (c : ConcurrencyStrategy) : option RunConcurrencyResult * ConcurrencyStrategy :=
  let grouped := unskipped c in
  if decide (grouped = ∅) then (Some (RunResult [] [] [] false), c)
  else
    let '(touched, d, c) := decideSubQueues dec now (order grouped) c in
    match flushToDatabase repo d with
    | None => (None, rollback touched c)
    | Some res => (Some res, pruneEmpty touched (commit touched c))
    end.

(** Either an error ([None]) or a result, nil when the pass has already run. *)
Definition runInitialQueueing (repo : repoFn) (order : orderFn) (dec : decideFn) (now : Z)
    (c : ConcurrencyStrategy) :
    option (option RunConcurrencyResult) * ConcurrencyStrategy :=
  if initialQueued c then (Some None, c)
  else
    let '(res, c) := queueAllSubQueues repo order dec now c in
    match res with
    | None => (None, c)
    | Some r => (Some (Some r), set_initialQueued true c)
    end.

(** ** Run *)

(** What one call of the outbox's [ProcessMessages] does: the payloads it
    hands to [Flush], if any, what the repository, the map order and the clock
    are during that flush, and the number of messages it returns; [None] is an
    error. An error of [Flush] makes the call return an error. *)
Record outboxCall (payload : Type) := OutboxCall {
  oc_payloads : option (list payload);
  oc_repo : repoFn;
  oc_order : orderFn;
  oc_now : Z;
  oc_count : option nat
}.
Arguments OutboxCall {payload}.
Arguments oc_payloads {payload}.
Arguments oc_repo {payload}.
Arguments oc_order {payload}.
Arguments oc_now {payload}.
Arguments oc_count {payload}.

Section run.
Context {payload : Type} (unmarshal : payload → option walMessage) (dec : decideFn).

Definition processMessages (call : outboxCall payload) (c : ConcurrencyStrategy) :
    option nat * ConcurrencyStrategy :=
  match oc_payloads call with
  | None => (oc_count call, c)
  | Some ps =>
      let '(ok, c) := Flush unmarshal (oc_repo call) (oc_order call) dec (oc_now call) ps c in
      (if ok then oc_count call else None, c)
  end.

(** The drain loop of [Run]: the result so far and whether it ended in an
    error, or [None] when the calls end before the topic is drained. *)
Fixpoint runLoop (calls : list (outboxCall payload)) (committed : list (option RunConcurrencyResult))
    (c : ConcurrencyStrategy) :
    option (RunConcurrencyResult * bool * ConcurrencyStrategy) :=
  match calls with
  | [] => None
  | call :: calls =>
      let '(res, c) := processMessages call c in
      match res with
      | None =>
          let c := rollbackScopes (takePending c).2 in
          Some (mergeResults committed, false, c)
      | Some n =>
          let '(batch, c) := takePending c in
          let committed := committed ++ batch in
          let '(touched, c) := commitScopes c in
          let c := pruneEmpty touched c in
          if decide (n = 0) then Some (mergeResults committed, true, c)
          else runLoop calls committed c
      end
  end.

(** Waiting for the index build. *)
Inductive buildWait := Built | WaitCancelled | WaitTimedOut.

(** [Run]: an optional result and whether it returned without an error. *)
Definition Run (wait : buildWait) (repo0 : repoFn) (order0 : orderFn) (now0 : Z)
    (calls : list (outboxCall payload)) (c : ConcurrencyStrategy) :
    option (option RunConcurrencyResult * bool * ConcurrencyStrategy) :=
  match wait with
  | WaitCancelled | WaitTimedOut => Some (None, false, c)
  | Built =>
      let c := (takePending c).2 in
      let '(initial, c) := runInitialQueueing repo0 order0 dec now0 c in
      match initial with
      | None => Some (None, false, c)
      | Some initialResult =>
          match runLoop calls [initialResult] c with
          | None => None
          | Some (res, ok, c) => Some (Some res, ok, c)
          end
      end
  end.
End run.

(** ** Updating the definition *)

Definition updateSub (m : Z) (sq : subQueue) : subQueue :=
  if decide (maxRunsFrom sq = 0%Z) then
    let sq := set_limit (maxRunsFrom sq) m sq in
    match undo sq with
    | None => sq
    | Some u => set_undo (Some (SubQueueUndo (u_running u) (u_queued u) (u_size u)
                                  (u_maxRunsFrom u) m)) sq
    end
  else sq.

Definition UpdateStrategy (next : V1StepConcurrency) (c : ConcurrencyStrategy) :
    ConcurrencyStrategy :=
  let c := set_strategy next c in
  let c := foldl (λ c p, updSub p (updateSub (sc_maxConcurrency next)) c) c
             (map_to_list (subQueues c)).*2 in
  set_initialQueued false c.

(** ** Hydration *)

(** A row of the slot table; times in nanoseconds. *)
Record indexRow := IndexRow {
  ir_key : string;
  ir_taskId : Z;
  ir_taskInsertedAt : Z;
  ir_scheduleTimeoutAt : Z;
  ir_priority : Z;
  ir_taskRetryCount : Z;
  ir_isFilled : bool;
  ir_maxRuns : option Z
}.

Definition rowSlot (row : indexRow) : slot :=
  SlotIndex.Slot (ir_taskId row) (ir_taskInsertedAt row) (UnixMilli (ir_scheduleTimeoutAt row))
    (ir_priority row) (ir_taskRetryCount row).

Definition addRow (row : indexRow) (sq : subQueue) : subQueue :=
  let sq := match ir_maxRuns row with
            | Some m => observeMaxRuns m (ir_taskInsertedAt row) sq
            | None => sq
            end in
  if ir_isFilled row then addRunning (rowSlot row) sq else enqueue (rowSlot row) sq.

(** One iteration of the reader goroutine of [buildIndex]. *)
Definition indexOne (row : indexRow) (c : ConcurrencyStrategy) : ConcurrencyStrategy :=
  let '(p, c) := getOrCreateSubQueue (ir_key row) c in
  match store c !! p with
  | None => c
  | Some sq =>
      let sq' := addRow row sq in
      addResident (minus (size sq') (size sq)) (updSub p (λ _, sq') c)
  end.

Definition buildIndex (rows : list indexRow) (c : ConcurrencyStrategy) : ConcurrencyStrategy :=
  foldl (λ c row, indexOne row c) c rows.
End strategy.

#[global] Arguments OutboxCall {_ _ _}.
#[global] Arguments oc_payloads {_ _ _}.
#[global] Arguments oc_repo {_ _ _}.
#[global] Arguments oc_order {_ _ _}.
#[global] Arguments oc_now {_ _ _}.
#[global] Arguments oc_count {_ _ _}.

End Strategy.
