(* ===== verification/Index.v ===== *)
(** * The concurrency index: invariants and batches

    Theory of the strategy modelled in Strategy: the map of sub-queues behind
    the pointers, what a batch does to every sub-queue for every schedule of
    its goroutines, commit and rollback of a batch, and the exactness of the
    resident size counters. *)

From S2P Require Import Prelude IndexedHeap SlotIndex RunningSlots SubQueue Decide Strategy.
Import SlotIndex (slot, taskId, UnixMilli, maxSlots).
Import SubQueue Decide Strategy.

Module Index.

(** ** Frames: no operation renames or reorders a sub-queue *)

Create HintDb frame.

Lemma same_frame_refl s : same_frame s s.
Proof. done. Qed.

Lemma same_frame_trans s1 s2 s3 : same_frame s1 s2 → same_frame s2 s3 → same_frame s1 s3.
Proof. intros [] []. split; congruence. Qed.

Lemma putQueued_same oq s : same_frame s (putQueued oq s).
Proof. destruct (putQueued_frame oq s) as (_&_&_&?&?&_). done. Qed.

Lemma recordRunning_same sl b s : same_frame s (recordRunning sl b s).
Proof. destruct (recordRunning_frame sl b s) as (_&_&_&?&?&_). done. Qed.

Lemma removeRunning_same id s : same_frame s (removeRunning id s).2.
Proof.
  unfold removeRunning. destruct (Running.delete id (running s)) as [[sl|] r]; [|done].
  apply (recordRunning_same sl false (set_running r s)).
Qed.

Lemma addRunning_same sl s : same_frame s (addRunning sl s).
Proof.
  unfold addRunning. eapply same_frame_trans; [apply removeRunning_same|].
  eapply same_frame_trans; [|apply recordRunning_same]. done.
Qed.

Lemma enqueue_same sl s : same_frame s (enqueue sl s).
Proof.
  unfold enqueue. eapply same_frame_trans; [|apply putQueued_same]. by destruct (queued s).
Qed.

Lemma queuedDelete_same id s : same_frame s (queuedDelete id s).2.
Proof. unfold queuedDelete. destruct (SlotIndex.delete id _). apply putQueued_same. Qed.

Lemma queuedPop_same n s : same_frame s (queuedPop n s).2.
Proof. unfold queuedPop. destruct (SlotIndex.pop n _). apply putQueued_same. Qed.

Lemma queuedPopTimedOut_same now s : same_frame s (queuedPopTimedOut now s).2.
Proof. unfold queuedPopTimedOut. destruct (SlotIndex.popTimedOut now _). apply putQueued_same. Qed.

Lemma observeMaxRuns_same m t s : same_frame s (observeMaxRuns m t s).
Proof. by apply observeMaxRuns_frame. Qed.

#[export] Hint Resolve same_frame_refl removeRunning_same addRunning_same enqueue_same
  queuedDelete_same queuedPop_same queuedPopTimedOut_same observeMaxRuns_same : frame.

Lemma addAll_same l s : same_frame s (addAll l s).
Proof.
  unfold addAll. revert s. induction l as [|x l IH]; intros s; simpl; [done|].
  eapply same_frame_trans; [apply addRunning_same|apply IH].
Qed.

Lemma enqueueAll_same l s : same_frame s (foldl (λ sq x, enqueue x sq) s l).
Proof.
  revert s. induction l as [|x l IH]; intros s; simpl; [done|].
  eapply same_frame_trans; [apply enqueue_same|apply IH].
Qed.
#[export] Hint Resolve addAll_same enqueueAll_same : frame.

Ltac frame_step :=
  match goal with
  | |- context [queuedPop ?n ?s] =>
      let H := fresh in pose proof (queuedPop_same n s) as H;
      destruct (queuedPop n s) as [? ?]; cbn [snd] in H |- *
  end.

Lemma trim_same fuel n s : same_frame s (trim_loop fuel n s).2.
Proof.
  revert s. induction fuel as [|fuel IH]; intros s; cbn [trim_loop]; [done|].
  case_decide; [|done]. destruct (Running.worst _ _) as [w|]; [|done].
  specialize (IH (removeRunning (taskId w) s).2). destruct (trim_loop fuel n _) as [c s'].
  eapply same_frame_trans; [apply removeRunning_same|exact IH].
Qed.

Lemma merge_same fuel n s : same_frame s (merge_loop fuel n s).2.
Proof.
  revert s. induction fuel as [|fuel IH]; intros s; cbn [merge_loop]; [done|].
  destruct (SlotIndex.peek _) as [c|]; [|done]. cbv zeta.
  assert (Hp : ∀ s0, same_frame s s0 →
    same_frame s (merge_loop fuel n (addRunning c (queuedPop 1 s0).2)).2).
  { intros s0 H0. eapply same_frame_trans; [exact H0|].
    eapply same_frame_trans; [apply queuedPop_same|].
    eapply same_frame_trans; [apply addRunning_same|apply IH]. }
  assert (Hc : same_frame s
    (let '(rest, s') := queuedPop (Z.of_nat (SlotIndex.len (queuedIndex s))) s in
     (([] : list slot), rest, s')).2) by by frame_step.
  case_decide.
  - specialize (Hp s (same_frame_refl s)). by destruct (merge_loop fuel n _) as [[? ?] ?].
  - destruct (Running.worst _ _) as [w|]; [|exact Hc]. destruct (compare s c w <? 0)%Z; [|exact Hc].
    specialize (Hp _ (removeRunning_same (taskId w) s)).
    by destruct (merge_loop fuel n _) as [[? ?] ?].
Qed.

(** A decision keeps the key and the ordering. *)
Lemma decide_same kind dec s : decideFor kind = Some dec → same_frame s (dec s).2.
Proof.
  destruct kind; intros [= <-]; unfold decideGroupRoundRobin, decideCancelInProgress,
    decideCancelNewest, decideCancelQueuedExceptNewest, decideCancelQueuedExceptOldest.
  2:{ pose proof (trim_same (Running.len (running s)) (Z.to_nat (0 `max` maxRuns s)) s) as Ht.
      destruct (trim_loop _ _ _) as [t s1]. simpl in Ht.
      pose proof (merge_same (SlotIndex.len (queuedIndex s1)) (Z.to_nat (0 `max` maxRuns s)) s1) as Hm.
      destruct (merge_loop _ _ _) as [[f c] s2]. by eapply same_frame_trans. }
  all: frame_step; repeat (case_decide || frame_step); cbn [snd];
    (eapply same_frame_trans; [eassumption|]); eauto using same_frame_trans with frame.
Qed.

(** Peel the outermost operation. *)
Ltac frames :=
  repeat first
    [ apply same_frame_refl
    | eapply same_frame_trans; [|apply enqueue_same]
    | eapply same_frame_trans; [|apply addRunning_same]
    | eapply same_frame_trans; [|apply removeRunning_same]
    | eapply same_frame_trans; [|apply queuedDelete_same]
    | eapply same_frame_trans; [|apply observeMaxRuns_same] ].

Lemma applyMessage_same msg s : same_frame s (applyMessage msg s).2.
Proof.
  unfold applyMessage, applyInsert, applyUpdate, applyDelete.
  repeat case_decide; repeat case_match; cbn [snd]; frames.
Qed.

Lemma applyWAL_same msgs s : same_frame s (applyWAL msgs s).2.
Proof.
  revert s. induction msgs as [|msg msgs IH]; intros s; simpl; [done|].
  pose proof (applyMessage_same msg s) as Hm. destruct (applyMessage msg s) as [out s1].
  specialize (IH s1). destruct (applyWAL msgs s1) as [rest s2]. by eapply same_frame_trans.
Qed.

Lemma process_same kind dec now msgs s :
  decideFor kind = Some dec → same_frame s (processSubQueue dec now msgs s).2.
Proof.
  intros Hdec. unfold processSubQueue. pose proof (applyWAL_same msgs s) as Hw.
  destruct (applyWAL msgs s) as [out s1]. pose proof (queuedPopTimedOut_same now s1) as Ht.
  destruct (queuedPopTimedOut now s1) as [ex s2]. pose proof (decide_same kind dec s2 Hdec) as Hd.
  destruct (dec s2) as [[f c] s3]. eauto using same_frame_trans.
Qed.

Lemma begin_same s : same_frame s (begin s).
Proof.
  unfold begin. case_match; [|done]. eapply same_frame_trans; [|apply putQueued_same]. done.
Qed.

Lemma rollback_same s : same_frame s (SubQueue.rollback s).2.
Proof.
  unfold SubQueue.rollback. destruct (undo s); [|done]. cbv zeta. cbn [snd].
  eapply same_frame_trans; [|apply same_frame_refl]. case_match; [|done].
  match goal with |- same_frame _ (set_limit _ _ (putQueued ?oq ?s0)) =>
    pose proof (putQueued_same oq s0) as Hp end. exact Hp.
Qed.

(** ** The sub-queues behind the pointers *)

Section index.
Context {TQ TC : Type}.
Abbreviation strategy_ := (@ConcurrencyStrategy TQ TC).
Implicit Types (c : strategy_).

(** The map from key to sub-queue. *)
Definition subs c : gmap string subQueue := omap (λ p, store c !! p) (subQueues c).

(** Every pointer of the map is valid and points to the sub-queue of its key. *)
Definition ptr_ok c : Prop :=
  ∀ k p, subQueues c !! k = Some p → ∃ sq, store c !! p = Some sq ∧ key sq = k.

Lemma lookup_subs c k : subs c !! k = subQueues c !! k ≫= λ p, store c !! p.
Proof. apply lookup_omap. Qed.

Lemma subs_Some c k sq :
  subs c !! k = Some sq ↔ ∃ p, subQueues c !! k = Some p ∧ store c !! p = Some sq.
Proof. rewrite lookup_subs. apply bind_Some. Qed.

Lemma subs_None c k : ptr_ok c → subs c !! k = None ↔ subQueues c !! k = None.
Proof.
  intros Hp. rewrite lookup_subs. destruct (subQueues c !! k) as [p|] eqn:Hk; [|done].
  destruct (Hp k p Hk) as (sq & Hsq & _). simpl. by rewrite Hsq.
Qed.

Lemma ptr_inj c k k' p : ptr_ok c → subQueues c !! k = Some p → subQueues c !! k' = Some p → k = k'.
Proof.
  intros Hp H1 H2. destruct (Hp _ _ H1) as (sq & Hs & <-), (Hp _ _ H2) as (sq' & Hs' & <-).
  congruence.
Qed.

Lemma updSub_subs c k p f :
  ptr_ok c → subQueues c !! k = Some p → (∀ sq, key (f sq) = key sq) →
  subs (updSub p f c) = alter f k (subs c) ∧ ptr_ok (updSub p f c).
Proof.
  intros Hp Hk Hf. split.
  - apply map_eq. intros k'. rewrite lookup_subs. simpl. destruct (decide (k = k')) as [<-|Hne].
    + rewrite lookup_alter_eq, lookup_subs, Hk. simpl. by rewrite list_lookup_alter_eq.
    + rewrite lookup_alter_ne, lookup_subs by done.
      destruct (subQueues c !! k') as [p'|] eqn:Hk'; [|done]. simpl.
      rewrite list_lookup_alter_ne; [done|]. intros ->. apply Hne. by eapply ptr_inj.
  - intros k' p' Hk'. simpl in *. destruct (Hp k' p' Hk') as (sq & Hsq & <-).
    destruct (decide (p = p')) as [<-|Hne].
    + exists (f sq). rewrite list_lookup_alter_eq, Hsq. auto.
    + exists sq. by rewrite list_lookup_alter_ne.
Qed.

(** A constant write, with the same key. *)
Lemma putSub_subs c k p sq sq' :
  ptr_ok c → subQueues c !! k = Some p → store c !! p = Some sq → key sq' = key sq →
  subs (updSub p (λ _, sq') c) = <[k := sq']> (subs c) ∧ ptr_ok (updSub p (λ _, sq') c).
Proof.
  intros Hp Hk Hsq Hkey. split.
  - apply map_eq. intros k'. rewrite lookup_subs. simpl. destruct (decide (k = k')) as [<-|Hne].
    + rewrite lookup_insert_eq, Hk. simpl. by rewrite list_lookup_alter_eq, Hsq.
    + rewrite lookup_insert_ne, lookup_subs by done.
      destruct (subQueues c !! k') as [p'|] eqn:Hk'; [|done]. simpl.
      rewrite list_lookup_alter_ne; [done|]. intros ->. apply Hne. by eapply ptr_inj.
  - intros k' p' Hk'. simpl in *. destruct (Hp k' p' Hk') as (sq0 & Hsq0 & <-).
    destruct (decide (p = p')) as [<-|Hne].
    + exists sq'. rewrite list_lookup_alter_eq, Hsq. split; [done|]. congruence.
    + exists sq0. by rewrite list_lookup_alter_ne.
Qed.

(** The sub-queue a batch finds for a key: a fresh one if there is none. *)
Definition baseSub c (k : string) : subQueue :=
  default (newSubQueue k (sc_maxConcurrency (strategy c)) (st_compare c)) (subs c !! k).

(** The fields a batch does not touch until its scopes are finalized. *)
Definition same_rest c c' : Prop :=
  resident c' = resident c ∧ strategy c' = strategy c ∧ st_compare c' = st_compare c ∧
  pending c' = pending c ∧ openScopes c' = openScopes c ∧ initialQueued c' = initialQueued c.

Lemma getOrCreate_subs c k :
  ptr_ok c →
  let '(p, c') := getOrCreateSubQueue k c in
  ptr_ok c' ∧ subQueues c' !! k = Some p ∧ store c' !! p = Some (baseSub c k) ∧
  subs c' = <[k := baseSub c k]> (subs c) ∧ same_rest c c' ∧ subQueues c ⊆ subQueues c'.
Proof.
  intros Hp. unfold getOrCreateSubQueue, baseSub. destruct (subQueues c !! k) as [p|] eqn:Hk.
  - destruct (Hp k p Hk) as (sq & Hsq & Hkey).
    assert (subs c !! k = Some sq) as Hs by (rewrite lookup_subs, Hk; done). rewrite Hs. simpl.
    split_and!; [done|done|done|by rewrite insert_id|done|done].
  - rewrite (proj2 (subs_None c k Hp) Hk). simpl. set (sq := newSubQueue _ _ _).
    assert (Hnew : (store c ++ [sq]) !! length (store c) = Some sq) by by rewrite list_lookup_middle.
    assert (Hold : ∀ p x, store c !! p = Some x → (store c ++ [sq]) !! p = Some x).
    { intros p x Hx. rewrite lookup_app_l; [done|]. by eapply lookup_lt_Some. }
    split_and!; [|by rewrite lookup_insert_eq|done| |done|by apply insert_subseteq].
    + intros k' p'. simpl. destruct (decide (k = k')) as [<-|Hne].
      * rewrite lookup_insert_eq. intros [= <-]. by exists sq.
      * rewrite lookup_insert_ne by done. intros Hk'. destruct (Hp _ _ Hk') as (x & Hx & Hkx).
        exists x. auto.
    + apply map_eq. intros k'. rewrite lookup_subs. simpl. destruct (decide (k = k')) as [<-|Hne].
      * rewrite !lookup_insert_eq. simpl. done.
      * rewrite !lookup_insert_ne, lookup_subs by done.
        destruct (subQueues c !! k') as [p'|] eqn:Hk'; [|done]. simpl.
        destruct (Hp _ _ Hk') as (x & Hx & _). rewrite Hx. by apply Hold.
Qed.

Lemma same_rest_trans c1 c2 c3 : same_rest c1 c2 → same_rest c2 c3 → same_rest c1 c3.
Proof. unfold same_rest. intros (?&?&?&?&?&?) (?&?&?&?&?&?). split_and!; congruence. Qed.

Lemma openSub_subs c k :
  ptr_ok c →
  let '(p, c') := openSub k c in
  ptr_ok c' ∧ subQueues c' !! k = Some p ∧ subs c' = <[k := begin (baseSub c k)]> (subs c) ∧
  same_rest c c' ∧ subQueues c ⊆ subQueues c'.
Proof.
  intros Hp. unfold openSub. pose proof (getOrCreate_subs c k Hp) as Hg.
  destruct (getOrCreateSubQueue k c) as [p c1]. destruct Hg as (Hp1 & Hk & Hsq & Hs & Hr & Hsub).
  destruct (updSub_subs c1 k p begin Hp1 Hk) as [Hs2 Hp2].
  { intros sq. apply begin_same. }
  split_and!; [done|done| |done|done]. rewrite Hs2, Hs. by rewrite alter_insert_eq.
Qed.

Context (kind : V1ConcurrencyStrategy) (dec : decideFn) (now : Z).
Hypothesis Hdec : decideFor kind = Some dec.

Lemma workSub_subs c k p sq msgs :
  ptr_ok c → subQueues c !! k = Some p → subs c !! k = Some sq →
  let '(d, c') := workSub dec now p msgs c in
  d = (processSubQueue dec now msgs sq).1 ∧ ptr_ok c' ∧
  subs c' = <[k := (processSubQueue dec now msgs sq).2]> (subs c) ∧
  subQueues c' = subQueues c ∧ same_rest c c'.
Proof.
  intros Hp Hk Hsq. rewrite lookup_subs, Hk in Hsq. simpl in Hsq. unfold workSub. rewrite Hsq.
  pose proof (process_same kind dec now msgs sq Hdec) as [Hkey _].
  destruct (processSubQueue dec now msgs sq) as [d sq']. simpl in *.
  destruct (putSub_subs c k p sq sq' Hp Hk Hsq Hkey) as [Hs Hp']. done.
Qed.

(** ** Every schedule of the goroutines gives the same result *)

(** Decisions up to the order in which the goroutines deliver them. *)
Definition decisions_perm (d e : decisions) : Prop :=
  d_setFilled d ≡ₚ d_setFilled e ∧ d_delete d ≡ₚ d_delete e ∧ d_timeout d ≡ₚ d_timeout e.

(** What the batch does to one group of messages. *)
Definition groupResult c (g : string * list walMessage) : decisions * subQueue :=
  processSubQueue dec now g.2 (begin (baseSub c g.1)).

Definition allDecisions c (gs : list (string * list walMessage)) : decisions :=
  Decisions (concat (d_setFilled ∘ fst ∘ groupResult c <$> gs))
    (concat (d_delete ∘ fst ∘ groupResult c <$> gs))
    (concat (d_timeout ∘ fst ∘ groupResult c <$> gs)).

(** An intermediate state: [fin] groups are done, [run] groups are running. *)
Record schedule_inv c0 (groups : list (string * list walMessage)) (d : @dstate TQ TC)
    (fin run : list (string * list walMessage)) : Prop := {
  sv_groups : fin ++ run ++ ds_todo d ≡ₚ groups;
  sv_ptr : ptr_ok (ds_strategy d);
  sv_rest : same_rest c0 (ds_strategy d);
  sv_run : Forall2 (λ g w, subQueues (ds_strategy d) !! g.1 = Some w.1 ∧ w.2 = g.2)
             run (ds_running d);
  sv_fin_subs g : g ∈ fin → subs (ds_strategy d) !! g.1 = Some (groupResult c0 g).2;
  sv_run_subs g : g ∈ run → subs (ds_strategy d) !! g.1 = Some (begin (baseSub c0 g.1));
  sv_other k : k ∉ (fin ++ run).*1 → subs (ds_strategy d) !! k = subs c0 !! k;
  sv_out : decisions_perm (ds_out d) (allDecisions c0 fin);
  sv_touched : ∃ ks, ks ≡ₚ (fin ++ run).*1 ∧
    Forall2 (λ k p, subQueues (ds_strategy d) !! k = Some p) ks (ds_touched d)
}.

Lemma baseSub_same c c' k : same_rest c c' → subs c' !! k = subs c !! k → baseSub c' k = baseSub c k.
Proof. intros (_ & Hs & Hc & _) Hk. unfold baseSub. by rewrite Hk, Hs, Hc. Qed.

Lemma spawn_inv c0 groups d d' fin run c k msgs todo ws touched out :
  NoDup groups.*1 → d = DState c ((k, msgs) :: todo) ws touched out →
  d' = (let '(p, c') := openSub k c in DState c' todo ((p, msgs) :: ws) (touched ++ [p]) out) →
  schedule_inv c0 groups d fin run → schedule_inv c0 groups d' fin ((k, msgs) :: run).
Proof.
  intros Hnd -> -> [Hg Hp Hr Hw Hf Hru Ho Hout (ks & Hks & Ht)]. simpl in *.
  assert (Hfresh : k ∉ (fin ++ run).*1).
  { rewrite <-Hg, (app_assoc fin run), fmap_app in Hnd. apply NoDup_app in Hnd as (_ & Hd & _).
    intros Hin. apply (Hd k Hin). set_solver. }
  pose proof (openSub_subs c k Hp) as Hop. destruct (openSub k c) as [p c'].
  destruct Hop as (Hp' & Hk & Hs & Hr' & Hsub).
  rewrite (baseSub_same c0 c k Hr (Ho k Hfresh)) in Hs.
  assert (Hne : ∀ g, g ∈ fin ++ run → k ≠ g.1).
  { intros g Hgin ->. apply Hfresh. by apply list_elem_of_fmap_2. }
  split; simpl.
  - rewrite <-Hg. solve_Permutation.
  - done.
  - by eapply same_rest_trans.
  - constructor; [done|]. eapply Forall2_impl; [exact Hw|]. intros g w [H1 H2].
    split; [by eapply lookup_weaken|done].
  - intros g Hgin. rewrite Hs, lookup_insert_ne; [auto|]. apply Hne. set_solver.
  - intros g [->|Hgin]%elem_of_cons; [by rewrite Hs, lookup_insert_eq|].
    rewrite Hs, lookup_insert_ne; [auto|]. apply Hne. set_solver.
  - intros k' Hk'. rewrite fmap_app, fmap_cons in Hk'. rewrite Hs, lookup_insert_ne by set_solver.
    apply Ho. rewrite fmap_app. set_solver.
  - done.
  - exists (ks ++ [k]). split.
    + rewrite Hks, !fmap_app, fmap_cons. solve_Permutation.
    + apply Forall2_app; [|by constructor]. eapply Forall2_impl; [exact Ht|].
      intros k' p' Hk'. exact (lookup_weaken _ _ _ _ Hk' Hsub).
Qed.

Lemma append_all c0 fin g out :
  decisions_perm out (allDecisions c0 fin) →
  decisions_perm (appendDecisions out (groupResult c0 g).1) (allDecisions c0 (fin ++ [g])).
Proof.
  intros (H1 & H2 & H3). unfold decisions_perm, allDecisions, appendDecisions. simpl.
  rewrite !fmap_app, !concat_app. simpl. rewrite !app_nil_r. split_and!; by rewrite ?H1, ?H2, ?H3.
Qed.

Lemma finish_inv c0 groups d d' fin run c todo ws1 p msgs ws2 touched out :
  NoDup groups.*1 → d = DState c todo (ws1 ++ (p, msgs) :: ws2) touched out →
  d' = (let '(o, c') := workSub dec now p msgs c in
        DState c' todo (ws1 ++ ws2) touched (appendDecisions out o)) →
  schedule_inv c0 groups d fin run →
  ∃ fin' run', schedule_inv c0 groups d' fin' run'.
Proof.
  intros Hnd -> -> [Hg Hp Hr Hw Hf Hru Ho Hout Ht]. simpl in *.
  apply Forall2_app_inv_r in Hw as (r1 & r2' & Hw1 & Hw2 & ->).
  apply Forall2_cons_inv_r in Hw2 as (g & r2 & [Hk Hm] & Hw2 & ->). simpl in Hk, Hm. subst msgs.
  assert (Hgr : g ∈ r1 ++ g :: r2) by set_solver. pose proof (Hru g Hgr) as Hsg.
  pose proof (workSub_subs c g.1 p _ g.2 Hp Hk Hsg) as Hwk.
  destruct (workSub dec now p g.2 c) as [o c']. destruct Hwk as (-> & Hp' & Hs & Hsq & Hr').
  fold (groupResult c0 g) in Hs |- *. exists (fin ++ [g]), (r1 ++ r2).
  assert (Hdist : NoDup (fin ++ g :: r1 ++ r2).*1).
  { assert (Hpm : fin ++ (r1 ++ g :: r2) ++ todo ≡ₚ (fin ++ g :: r1 ++ r2) ++ todo) by solve_Permutation.
    rewrite <-Hg, Hpm, fmap_app in Hnd. by apply NoDup_app in Hnd as [? _]. }
  rewrite fmap_app, fmap_cons in Hdist. apply NoDup_app in Hdist as (_ & Hd1 & [Hd2 _]%NoDup_cons).
  split; simpl.
  - rewrite <-Hg. solve_Permutation.
  - done.
  - by eapply same_rest_trans.
  - rewrite Hsq. by apply Forall2_app.
  - intros h [Hh| ->%list_elem_of_singleton]%elem_of_app; [|by rewrite Hs, lookup_insert_eq].
    rewrite Hs, lookup_insert_ne; [auto|]. intros Heq. apply (Hd1 g.1); [|set_solver].
    rewrite Heq. by apply list_elem_of_fmap_2.
  - intros h Hh. rewrite Hs, lookup_insert_ne; [apply Hru; set_solver|].
    intros Heq. apply Hd2. rewrite Heq. by apply list_elem_of_fmap_2.
  - intros k Hk'. rewrite Hs, lookup_insert_ne.
    + apply Ho. rewrite !fmap_app, ?fmap_cons in *. set_solver.
    + intros <-. apply Hk'. rewrite !fmap_app, fmap_cons. set_solver.
  - by apply append_all.
  - destruct Ht as (ks & Hks & Ht). exists ks. rewrite Hsq. split; [|done]. rewrite Hks, !fmap_app.
    solve_Permutation.
Qed.

Lemma schedule_inv_rtc c0 groups d d' fin run :
  NoDup groups.*1 → rtc (dstep dec now) d d' → schedule_inv c0 groups d fin run →
  ∃ fin' run', schedule_inv c0 groups d' fin' run'.
Proof.
  intros Hnd Hst. revert fin run. induction Hst as [|d d1 d' Hst _ IH]; [eauto|].
  intros fin run Hinv. destruct Hst.
  - eapply IH, (spawn_inv c0 groups); [done|done|done|exact Hinv].
  - destruct (finish_inv c0 groups _ _ fin run _ _ _ _ _ _ _ _ Hnd eq_refl eq_refl Hinv)
      as (fin' & run' & Hinv'). eauto.
Qed.

Lemma schedule_start c groups :
  ptr_ok c → schedule_inv c groups (DState c groups [] [] noDecisions) [] [].
Proof.
  intros Hp. split; simpl; try done; try set_solver.
Qed.

(** The state all schedules end in. *)
Record batch_done c (groups : list (string * list walMessage)) c' (touched : list nat)
    (out : decisions) : Prop := {
  bd_ptr : ptr_ok c';
  bd_rest : same_rest c c';
  bd_subs g : g ∈ groups → subs c' !! g.1 = Some (groupResult c g).2;
  bd_other k : k ∉ groups.*1 → subs c' !! k = subs c !! k;
  bd_out : decisions_perm out (allDecisions c groups);
  bd_touched : ∃ ks, ks ≡ₚ groups.*1 ∧ Forall2 (λ k p, subQueues c' !! k = Some p) ks touched
}.

Lemma schedule_end c groups c' touched out :
  NoDup groups.*1 → ptr_ok c →
  rtc (dstep dec now) (DState c groups [] [] noDecisions) (DState c' [] [] touched out) →
  batch_done c groups c' touched out.
Proof.
  intros Hnd Hp Hst.
  destruct (schedule_inv_rtc c groups _ _ _ _ Hnd Hst (schedule_start c groups Hp))
    as (fin & run & [Hg Hp' Hr Hw Hf Hru Ho Hout (ks & Hks & Ht)]). simpl in *.
  apply Forall2_nil_inv_r in Hw as ->. rewrite !app_nil_r in *.
  split; [done|done| | | |].
  - intros g. rewrite <-Hg. apply Hf.
  - intros k Hk. apply Ho. by rewrite Hg.
  - destruct Hout as (H1 & H2 & H3). split_and!; simpl in *; by rewrite ?H1, ?H2, ?H3, Hg.
  - exists ks. split; [by rewrite Hks, Hg|done].
Qed.

(** The sequential run is one of the schedules. *)
Lemma decideSubQueues_schedule groups c touched out :
  let '(touched', d, c') := decideSubQueues dec now groups c in
  rtc (dstep dec now) (DState c groups [] touched out)
    (DState c' [] [] (touched ++ touched') (appendDecisions out d)).
Proof.
  revert c touched out. induction groups as [|[k msgs] groups IH]; intros c touched out; simpl.
  { rewrite app_nil_r. destruct out. unfold appendDecisions. simpl. rewrite !app_nil_r. apply rtc_refl. }
  pose proof (ds_spawn dec now c k msgs groups [] touched out) as Hsp.
  destruct (openSub k c) as [p c1].
  pose proof (ds_finish dec now c1 groups [] p msgs [] (touched ++ [p]) out) as Hfi.
  destruct (workSub dec now p msgs c1) as [d c2]. simpl in Hfi.
  specialize (IH c2 (touched ++ [p]) (appendDecisions out d)).
  destruct (decideSubQueues dec now groups c2) as [[touched' rest] c3].
  eapply rtc_l; [exact Hsp|]. eapply rtc_l; [exact Hfi|].
  rewrite <-app_assoc in IH. destruct out, d, rest. unfold appendDecisions in *. simpl in *.
  by rewrite !(assoc_L (++)) in *.
Qed.

Lemma decideSubQueues_done groups c :
  NoDup groups.*1 → ptr_ok c →
  let '(touched, d, c') := decideSubQueues dec now groups c in batch_done c groups c' touched d.
Proof.
  intros Hnd Hp. pose proof (decideSubQueues_schedule groups c [] noDecisions) as Hs.
  destruct (decideSubQueues dec now groups c) as [[touched d] c'].
  apply schedule_end; [done|done|]. by destruct d.
Qed.

(** ** Sizes *)

Definition sumBy (f : subQueue → residentSize) (m : gmap string subQueue) : residentSize :=
  map_fold (λ _ sq acc, plus (f sq) acc) zeroSize m.

Lemma residentSize_eq r1 r2 :
  rz_running r1 = rz_running r2 → rz_largeRunning r1 = rz_largeRunning r2 →
  rz_queued r1 = rz_queued r2 → rz_queuedKeys r1 = rz_queuedKeys r2 → r1 = r2.
Proof. destruct r1, r2. simpl. congruence. Qed.

Ltac size_solver := intros; apply residentSize_eq; simpl in *; lia.

Lemma plus_assoc r1 r2 r3 : plus r1 (plus r2 r3) = plus (plus r1 r2) r3.
Proof. size_solver. Qed.
Lemma plus_comm a b : plus a b = plus b a.
Proof. size_solver. Qed.
Lemma plus_zero_r a : plus a zeroSize = a.
Proof. size_solver. Qed.
Lemma plus_minus a b : plus a (minus b a) = b.
Proof. size_solver. Qed.

Lemma sumBy_insert_new f m k sq :
  m !! k = None → sumBy f (<[k := sq]> m) = plus (f sq) (sumBy f m).
Proof.
  intros Hk. unfold sumBy.
  apply (map_fold_insert_L (λ _ sq acc, plus (f sq) acc) zeroSize k sq m); [|done].
  intros j1 j2 z1 z2 y _ _ _. by rewrite !plus_assoc, (plus_comm (f z1)).
Qed.

Lemma sumBy_delete f m k sq :
  m !! k = Some sq → sumBy f m = plus (f sq) (sumBy f (delete k m)).
Proof.
  intros Hk. rewrite <-(insert_delete_id m k sq Hk) at 1.
  apply sumBy_insert_new, lookup_delete_eq.
Qed.

(** Replacing a sub-queue changes the sum by the difference. *)
Lemma sumBy_replace f m k sq sq' d :
  m !! k = Some sq → plus (f sq) d = f sq' → sumBy f (<[k := sq']> m) = plus (sumBy f m) d.
Proof.
  intros Hk Hd. rewrite <-insert_delete_eq, sumBy_insert_new by apply lookup_delete_eq.
  rewrite (sumBy_delete f m k sq Hk), <-Hd.
  by rewrite <-!plus_assoc, (plus_comm d).
Qed.

Lemma sumBy_ext f g m : map_Forall (λ _ sq, f sq = g sq) m → sumBy f m = sumBy g m.
Proof.
  induction m as [|k sq m Hk IH] using map_ind; intros Hall; [done|].
  apply map_Forall_insert in Hall as [Hsq Hall]; [|done].
  by rewrite !sumBy_insert_new, Hsq, IH.
Qed.

(** The size the counters hold for a sub-queue: inside a scope, the size at
    its beginning. *)
Definition countedSize (sq : subQueue) : residentSize :=
  match undo sq with Some u => u_size u | None => size sq end.

(** A way to finalize a scope, keeping the counters exact. *)
Record finalizes (fin : subQueue → residentSize * subQueue) : Prop := {
  fz_key sq : key (fin sq).2 = key sq;
  fz_size sq : plus (countedSize sq) (fin sq).1 = countedSize (fin sq).2
}.

Lemma commit_finalizes : finalizes SubQueue.commit.
Proof.
  split; intros sq; unfold SubQueue.commit, countedSize; destruct (undo sq) as [u|] eqn:Hu;
    simpl; rewrite ?Hu; [|done| |by rewrite plus_zero_r].
  - destruct (queued sq); [|done].
    pose proof (putQueued_same (SlotIndex.commit <$> queuedIndex (set_undo None sq)) (set_undo None sq))
      as [Hk _]. by case_decide.
  - rewrite plus_minus. destruct (queued sq); [|done].
    pose proof (putQueued_frame (SlotIndex.commit <$> queuedIndex (set_undo None sq)) (set_undo None sq))
      as (_ & Hu' & _). simpl in Hu'. case_decide; simpl; by rewrite Hu'.
Qed.

Lemma rollback_undo sq : undo (SubQueue.rollback sq).2 = None.
Proof.
  unfold SubQueue.rollback. destruct (undo sq) as [u|] eqn:Hu; [|done]. cbv zeta. cbn [snd]. simpl.
  case_match; [|done].
  match goal with |- context [putQueued ?oq ?s0] =>
    pose proof (putQueued_frame oq s0) as (_ & Hu' & _) end. done.
Qed.

Lemma rollback_finalizes : finalizes SubQueue.rollback.
Proof.
  split; intros sq; [apply rollback_same|]. unfold countedSize. rewrite rollback_undo.
  unfold SubQueue.rollback. destruct (undo sq) as [u|]; simpl; [apply plus_minus|apply plus_zero_r].
Qed.

Lemma finalizeLoop_subs fin ks ps delta c :
  finalizes fin → ptr_ok c → NoDup ks → Forall2 (λ k p, subQueues c !! k = Some p) ks ps →
  let '(delta', c') := finalizeLoop fin ps delta c in
  ptr_ok c' ∧ subQueues c' = subQueues c ∧ same_rest c c' ∧
  (∀ k, k ∈ ks → subs c' !! k = (λ sq, (fin sq).2) <$> subs c !! k) ∧
  (∀ k, k ∉ ks → subs c' !! k = subs c !! k) ∧
  plus (sumBy countedSize (subs c)) delta' = plus (sumBy countedSize (subs c')) delta.
Proof.
  intros Hfin Hp Hnd Hks. revert delta c Hp Hks. revert ps.
  induction Hnd as [|k ks Hk Hnd IH]; intros ps delta c Hp Hks.
  { apply Forall2_nil_inv_l in Hks as ->. simpl. split_and!; try done. set_solver. }
  apply Forall2_cons_inv_l in Hks as (p & ps' & Hkp & Hks & ->). simpl.
  destruct (Hp k p Hkp) as (sq & Hsq & Hkey). rewrite Hsq.
  assert (Hsk : subs c !! k = Some sq) by (rewrite lookup_subs, Hkp; done).
  pose proof (fz_key _ Hfin sq) as Hfk. pose proof (fz_size _ Hfin sq) as Hfs.
  destruct (fin sq) as [d sq'] eqn:Hfsq. simpl in Hfk, Hfs.
  destruct (putSub_subs c k p sq sq' Hp Hkp Hsq Hfk) as [Hs1 Hp1].
  specialize (IH ps' (plus delta d) (updSub p (λ _, sq') c) Hp1 Hks).
  destruct (finalizeLoop fin ps' _ _) as [delta' c']. destruct IH as (Hp' & Hq' & Hr' & Hin & Hout & Hsum).
  split_and!; [done|done|done| | |].
  - intros k' [->|Hk']%elem_of_cons.
    + rewrite Hout by done. rewrite Hs1, lookup_insert_eq, Hsk. simpl. by rewrite Hfsq.
    + rewrite Hin by done. rewrite Hs1, lookup_insert_ne; [done|]. by intros ->.
  - intros k' Hk'. rewrite Hout by set_solver. rewrite Hs1, lookup_insert_ne; [done|]. set_solver.
  - rewrite Hs1, (sumBy_replace _ _ k sq sq' d Hsk Hfs) in Hsum. revert Hsum.
    generalize (sumBy countedSize (subs c)), (sumBy countedSize (subs c')). intros x y Hxy.
    apply residentSize_eq; [apply (f_equal rz_running) in Hxy|apply (f_equal rz_largeRunning) in Hxy|
      apply (f_equal rz_queued) in Hxy|apply (f_equal rz_queuedKeys) in Hxy]; simpl in *; lia.
Qed.

Definition weight (f : subQueue → residentSize) (m : gmap string subQueue) (k : string) : residentSize :=
  from_option f zeroSize (m !! k).

Lemma sumBy_zero f m : (∀ k, weight f m k = zeroSize) → sumBy f m = zeroSize.
Proof.
  induction m as [|k sq m Hk IH] using map_ind; intros Hw; [done|].
  rewrite sumBy_insert_new by done. pose proof (Hw k) as Hwk. unfold weight in Hwk.
  rewrite lookup_insert_eq in Hwk. simpl in Hwk. rewrite Hwk, IH; [done|]. intros j.
  specialize (Hw j). unfold weight in *. destruct (decide (k = j)) as [<-|Hne].
  - by rewrite Hk.
  - by rewrite lookup_insert_ne in Hw.
Qed.

(** Maps with the same weight at every key have the same sum. *)
Lemma sumBy_weight f g m1 m2 : (∀ k, weight f m1 k = weight g m2 k) → sumBy f m1 = sumBy g m2.
Proof.
  revert m2. induction m1 as [|k sq m1 Hk IH] using map_ind; intros m2 Hw.
  { symmetry. apply sumBy_zero. intros k. by rewrite <-Hw. }
  rewrite sumBy_insert_new by done. pose proof (Hw k) as Hwk. unfold weight in Hwk.
  rewrite lookup_insert_eq in Hwk. simpl in Hwk.
  assert (Hrest : ∀ m2', (∀ j, j ≠ k → m2' !! j = m2 !! j) → weight g m2' k = zeroSize →
    sumBy f m1 = sumBy g m2').
  { intros m2' Hj Hz. apply IH. intros j. destruct (decide (j = k)) as [->|Hne].
    - rewrite Hz. unfold weight. by rewrite Hk.
    - specialize (Hw j). unfold weight in *. rewrite lookup_insert_ne in Hw by done.
      by rewrite Hj. }
  destruct (m2 !! k) as [sq'|] eqn:Hk2; simpl in Hwk.
  - rewrite (sumBy_delete g m2 k sq' Hk2), Hwk. f_equal. apply Hrest.
    + intros j Hne. by rewrite lookup_delete_ne.
    + unfold weight. by rewrite lookup_delete_eq.
  - rewrite Hwk, (Hrest m2); [size_solver|done|]. unfold weight. by rewrite Hk2.
Qed.

(** ** The invariant between batches *)

(** No open scope, and a queued index only if something is queued. *)
Definition quiet (sq : subQueue) : Prop :=
  undo sq = None ∧ (queued sq = None ∨ backlog sq ≠ []).

Record sub_inv (cmp : slot → slot → Z) (sq : subQueue) : Prop := {
  sb_wf : sq_wf sq;
  sb_abs : abs_ok (abs sq);
  sb_compare : compare sq = cmp;
  sb_limit : valid_limit (maxRuns sq);
  sb_quiet : quiet sq
}.

Record cs_inv c : Prop := {
  ci_ptr : ptr_ok c;
  ci_kind : sc_strategy (strategy c) = kind;
  ci_compare : st_compare c = comparatorForStrategy kind;
  ci_limit : valid_limit (sc_maxConcurrency (strategy c));
  ci_subs : map_Forall (λ _ sq, sub_inv (st_compare c) sq) (subs c);
  ci_resident : resident c = sumBy size (subs c);
  ci_scopes : openScopes c = []
}.

(** A group of messages that stays within the machine bounds. *)
Definition group_fits c (g : string * list walMessage) : Prop :=
  (Z.of_nat (total (abs (baseSub c g.1)) + length g.2) ≤ maxSlots)%Z ∧ Forall msg_ok g.2.

Lemma newSub_inv k m : valid_limit m → sub_inv (comparatorForStrategy kind)
  (newSubQueue k m (comparatorForStrategy kind)).
Proof.
  intros Hm. destruct (comparator_ok kind) as [Hcmp _].
  split; [by apply newSubQueue_wf|done|done|done|]. split; [done|by left].
Qed.

Lemma baseSub_inv c k : cs_inv c → sub_inv (st_compare c) (baseSub c k).
Proof.
  intros [_ _ Hc Hl Hs _ _]. unfold baseSub. destruct (subs c !! k) as [sq|] eqn:Hk; simpl.
  - by apply (Hs k).
  - rewrite Hc. by apply newSub_inv.
Qed.

Lemma begin_abs s : sq_wf s → abs (begin s) = abs s.
Proof.
  intros Hwf. destruct (begin_scope s Hwf) as (_ & _ & Hr & Hb & Hl). unfold abs, limit in *.
  by rewrite Hr, Hb; injection Hl as -> ->.
Qed.

Lemma begin_batch_ok c g :
  cs_inv c → group_fits c g → batch_ok kind g.2 (begin (baseSub c g.1)).
Proof.
  intros Hc [Hfit Hm]. destruct (baseSub_inv c g.1 Hc) as [Hwf Hok Hcmp Hl _].
  pose proof (begin_abs _ Hwf) as Ha. destruct (begin_scope _ Hwf) as (Hwf' & _ & _ & _ & Hlim).
  split; [done|by rewrite Ha| |by rewrite Ha| |done].
  - destruct (begin_same (baseSub c g.1)) as [_ ->]. by rewrite Hcmp, (ci_compare _ Hc).
  - unfold limit in Hlim. by injection Hlim as -> _.
Qed.

(** A batch leaves a well-formed sub-queue inside the scope it opened. *)
Lemma process_ok msgs s :
  batch_ok kind msgs s →
  let s' := (processSubQueue dec now msgs s).2 in
  rtc mutates s s' ∧ queue_ok kind s' ∧ valid_limit (maxRuns s').
Proof.
  intros Hb. pose proof (process_prefix kind now msgs s Hb) as Hpre. unfold processSubQueue.
  destruct (applyWAL msgs s) as [out s1], (queuedPopTimedOut now s1) as [ex s2].
  destruct Hpre as (_ & _ & Hre & Hq & Hl). pose proof (decide_decided kind dec s2 Hdec Hq) as Hde.
  destruct (dec s2) as [[f ca] s3]. simpl. pose proof (de_moves _ _ _ _ _ Hde) as [_ _ Hm Hlim].
  split_and!; [etrans; [apply Hre|done]|by eapply decided_ok|].
  unfold limit in Hlim. by injection Hlim as -> _.
Qed.

Lemma groupResult_ok c g :
  cs_inv c → group_fits c g →
  let s' := (groupResult c g).2 in
  sq_scope (baseSub c g.1) s' ∧ queue_ok kind s' ∧ valid_limit (maxRuns s').
Proof.
  intros Hc Hg. pose proof (begin_batch_ok c g Hc Hg) as Hb.
  destruct (process_ok g.2 _ Hb) as (Hm & Hq & Hl).
  destruct (begin_scope (baseSub c g.1) (sb_wf _ _ (baseSub_inv c g.1 Hc))) as (Hwf & Hsc & _).
  destruct (mutates_scope_rtc _ _ _ Hwf Hm Hsc) as [_ Hsc']. done.
Qed.

(** The counters after a batch whose scopes are still open. *)
Lemma batch_counted c groups c' touched d :
  cs_inv c → NoDup groups.*1 → Forall (group_fits c) groups → batch_done c groups c' touched d →
  resident c' = sumBy countedSize (subs c').
Proof.
  intros Hc Hnd Hg [_ (Hr & _) Hs Ho _ _]. rewrite Hr, (ci_resident _ Hc). apply sumBy_weight.
  intros k. unfold weight. destruct (decide (k ∈ groups.*1)) as [Hk|Hk].
  - apply list_elem_of_fmap in Hk as (g & -> & Hin). rewrite (Hs g Hin). simpl.
    rewrite Forall_forall in Hg. destruct (groupResult_ok c g Hc (Hg g Hin)) as [Hsc _].
    destruct (sc_undo _ _ Hsc) as (u & Hu & _ & Hsz & _). unfold countedSize. rewrite Hu, Hsz.
    unfold baseSub. by destruct (subs c !! g.1).
  - rewrite (Ho k Hk). destruct (subs c !! k) as [sq|] eqn:Hsq; simpl; [|done].
    destruct (ci_subs _ Hc k sq Hsq) as [_ _ _ _ [Hu _]]. unfold countedSize. by rewrite Hu.
Qed.

(** ** Finalizing a batch *)

(** Rebuild the invariant from the sub-queues. *)
Lemma cs_inv_intro c c' :
  cs_inv c → ptr_ok c' → strategy c' = strategy c → st_compare c' = st_compare c →
  map_Forall (λ _ sq, sub_inv (st_compare c) sq) (subs c') →
  resident c' = sumBy countedSize (subs c') → openScopes c' = [] → cs_inv c'.
Proof.
  intros [_ Hk Hcm Hl _ _ _] Hp Hs Hc Hsub Hr Ho.
  split; [done|by rewrite Hs|by rewrite Hc|by rewrite Hs|by rewrite Hc| |done].
  rewrite Hr. apply sumBy_ext. intros k sq Hsq. unfold countedSize.
  by destruct (Hsub k sq Hsq) as [_ _ _ _ [-> _]].
Qed.

Lemma rollback_sub base s' :
  sub_inv (comparatorForStrategy kind) base → sq_wf s' → sq_scope base s' →
  sub_inv (comparatorForStrategy kind) (SubQueue.rollback s').2 ∧
  abs (SubQueue.rollback s').2 = abs base.
Proof.
  intros [Hwf Hok Hc Hl [Hu Hq]] Hwf' Hsc.
  destruct (rollback_effect base s' Hwf Hwf' Hsc) as (Hw & Hr & Hb & Hlim & [_ Hf] & Hun & Hqu & _).
  assert (Ha : abs (SubQueue.rollback s').2 = abs base).
  { unfold abs, limit in *. injection Hlim as -> ->.
    f_equal; apply kmap_perm; auto using runs_nodup, backlog_nodup. }
  split; [|done]. split; [done|by rewrite Ha|by rewrite Hf| |split; [done|]].
  - unfold limit in Hlim. by injection Hlim as -> _.
  - rewrite Hqu. destruct Hq as [Hq|Hq]; [by left|right]. intros Hnil. rewrite Hnil in Hb.
    by apply Permutation_nil_l in Hb.
Qed.

Lemma commit_sub s' u :
  undo s' = Some u → queue_ok kind s' → valid_limit (maxRuns s') →
  sub_inv (comparatorForStrategy kind) (SubQueue.commit s').2 ∧
  abs (SubQueue.commit s').2 = abs s'.
Proof.
  intros Hu [Hwf Hok Hc _ _] Hl.
  destruct (commit_effect s' Hwf) as (Hw & Hr & Hb & Hlim & [_ Hf] & Hun & _).
  assert (Ha : abs (SubQueue.commit s').2 = abs s').
  { unfold abs, limit in *. by rewrite Hr, Hb; injection Hlim as -> ->. }
  split; [|done]. split; [done|by rewrite Ha|by rewrite Hf| |split; [done|]].
  - unfold limit in Hlim. by injection Hlim as -> _.
  - rewrite Hb. clear -Hu Hb. unfold SubQueue.commit in *. rewrite Hu in *. simpl in *.
    destruct (queued s') as [p|] eqn:Hq; [|by left].
    destruct (decide (SlotIndex.len _ = 0)) as [Hlen|Hlen]; [by left|]. right. simpl in Hb.
    rewrite <-Hb. intros Hnil. apply Hlen. rewrite len_backlog, Hnil. done.
Qed.

(** All scopes of a batch finalized with [fin]. *)
Lemma finalize_batch fin c groups c1 touched d c2 :
  cs_inv c → NoDup groups.*1 → Forall (group_fits c) groups →
  batch_done c groups c1 touched d → finalizes fin →
  c2 = (let '(delta, c2) := finalizeLoop fin touched zeroSize c1 in addResident delta c2) →
  (∀ g, g ∈ groups → sub_inv (comparatorForStrategy kind) (fin (groupResult c g).2).2) →
  ptr_ok c2 ∧ strategy c2 = strategy c ∧ st_compare c2 = st_compare c ∧
  subQueues c2 = subQueues c1 ∧ resident c2 = sumBy countedSize (subs c2) ∧
  map_Forall (λ _ sq, sub_inv (st_compare c) sq) (subs c2) ∧
  (∀ g, g ∈ groups → subs c2 !! g.1 = Some (fin (groupResult c g).2).2) ∧
  (∀ k, k ∉ groups.*1 → subs c2 !! k = subs c !! k).
Proof.
  intros Hc Hnd Hg Hbd Hfin -> Hinv. pose proof (batch_counted _ _ _ _ _ Hc Hnd Hg Hbd) as Hcount.
  destruct Hbd as [Hp1 Hr1 Hs1 Ho1 _ (ks & Hks & Ht)].
  assert (Hndk : NoDup ks) by by rewrite Hks.
  pose proof (finalizeLoop_subs fin ks touched zeroSize c1 Hfin Hp1 Hndk Ht) as Hfl.
  destruct (finalizeLoop fin touched zeroSize c1) as [delta c2].
  destruct Hfl as (Hp2 & Hq2 & Hr2 & Hin & Hout & Hsum).
  assert (Hsubs : ∀ g, g ∈ groups → subs c2 !! g.1 = Some (fin (groupResult c g).2).2).
  { intros g Hgin. rewrite Hin, (Hs1 g Hgin); [done|]. rewrite Hks. by apply list_elem_of_fmap_2. }
  assert (Hoth : ∀ k, k ∉ groups.*1 → subs c2 !! k = subs c !! k).
  { intros k Hk. rewrite Hout by by rewrite Hks. by apply Ho1. }
  destruct Hr1 as (_ & Hst & Hcm & _), Hr2 as (Hres & Hst2 & Hcm2 & _).
  split_and!; [done|by simpl; congruence|by simpl; congruence|done| | |done|done].
  - simpl. rewrite Hres, Hcount, Hsum. apply plus_zero_r.
  - intros k sq Hk. change (subs c2 !! k = Some sq) in Hk.
    destruct (decide (k ∈ groups.*1)) as [Hkg|Hkg].
    + apply list_elem_of_fmap in Hkg as (g & -> & Hgin). rewrite Hsubs in Hk by done.
      simplify_eq. rewrite (ci_compare _ Hc). auto.
    + rewrite Hoth in Hk by done. by apply (ci_subs _ Hc k).
Qed.

Lemma rollback_batch c groups c1 touched d :
  cs_inv c → NoDup groups.*1 → Forall (group_fits c) groups → batch_done c groups c1 touched d →
  let c2 := set_openScopes [] (rollback touched c1) in
  cs_inv c2 ∧ ∀ k, abs (baseSub c2 k) = abs (baseSub c k).
Proof.
  intros Hc Hnd Hg Hbd c2. rewrite Forall_forall in Hg.
  assert (Hroll : ∀ g, g ∈ groups →
    sub_inv (comparatorForStrategy kind) (SubQueue.rollback (groupResult c g).2).2 ∧
    abs (SubQueue.rollback (groupResult c g).2).2 = abs (baseSub c g.1)).
  { intros g Hgin. destruct (groupResult_ok c g Hc (Hg g Hgin)) as (Hsc & Hq & _).
    apply rollback_sub; [|apply Hq|done]. rewrite <-(ci_compare _ Hc). by apply baseSub_inv. }
  destruct (finalize_batch SubQueue.rollback c groups c1 touched d _ Hc Hnd (proj2 (Forall_forall _ _) Hg)
    Hbd rollback_finalizes eq_refl) as (Hp & Hst & Hcm & Hq & Hres & Hall & Hs & Ho).
  { intros g Hgin. by apply Hroll. }
  fold (rollback touched c1) in Hp, Hst, Hcm, Hq, Hres, Hall, Hs, Ho. split.
  - by apply (cs_inv_intro c).
  - intros k. unfold baseSub at 1. change (subs c2) with (subs (rollback touched c1)).
    destruct (decide (k ∈ groups.*1)) as [Hkg|Hkg].
    + apply list_elem_of_fmap in Hkg as (g & -> & Hgin). rewrite (Hs g Hgin). simpl. by apply Hroll.
    + rewrite (Ho k Hkg). change (strategy c2) with (strategy (rollback touched c1)).
      change (st_compare c2) with (st_compare (rollback touched c1)). by rewrite Hst, Hcm.
Qed.

(** The loops do not look at the list of open scopes. *)
Lemma finalizeLoop_scopes fin ps l delta c :
  finalizeLoop fin ps delta (set_openScopes l c) =
  (let '(delta', c') := finalizeLoop fin ps delta c in (delta', set_openScopes l c')).
Proof.
  revert delta c. induction ps as [|p ps IH]; intros delta c; simpl; [done|].
  destruct (store c !! p) as [sq|]; [|done]. destruct (fin sq) as [d sq'].
  apply (IH (plus delta d) (updSub p (λ _, sq') c)).
Qed.

Lemma rollbackScopes_open touched c :
  rollbackScopes (set_openScopes touched c) = set_openScopes [] (rollback touched c).
Proof.
  unfold rollbackScopes, rollback. simpl. rewrite finalizeLoop_scopes.
  by destruct (finalizeLoop _ _ _ _).
Qed.

Lemma commitScopes_open touched c :
  commitScopes (set_openScopes touched c) = (touched, set_openScopes [] (commit touched c)).
Proof.
  unfold commitScopes, commit. simpl. rewrite finalizeLoop_scopes.
  by destruct (finalizeLoop _ _ _ _).
Qed.

(** *** Pruning *)

Definition emptySub (sq : subQueue) : Prop := runs sq = [] ∧ backlog sq = [].
#[local] Instance emptySub_dec sq : Decision (emptySub sq).
Proof. unfold emptySub. apply _. Defined.

Lemma emptySub_len sq :
  emptySub sq ↔ ¬ (Running.len (running sq) ≠ 0 ∨ SlotIndex.len (queuedIndex sq) ≠ 0).
Proof.
  unfold emptySub. rewrite len_runs, len_backlog.
  destruct (runs sq), (backlog sq); simpl; naive_solver.
Qed.

Lemma quiet_empty_size sq : quiet sq → emptySub sq → size sq = zeroSize.
Proof.
  intros [_ Hq] [Hr Hb]. destruct Hq as [Hq|Hq]; [|done].
  unfold size. rewrite len_runs, len_backlog, Hr, Hb, Hq. simpl. by case_match.
Qed.

Lemma pruneOne_subs c k p sq :
  ptr_ok c → subQueues c !! k = Some p → store c !! p = Some sq →
  let c' := pruneOne p c in
  ptr_ok c' ∧ same_rest c c' ∧
  subQueues c' = (if decide (emptySub sq) then delete k (subQueues c) else subQueues c) ∧
  subs c' = (if decide (emptySub sq) then delete k (subs c) else subs c).
Proof.
  intros Hp Hk Hsq. destruct (Hp k p Hk) as (sq' & Hsq' & Hkey).
  assert (sq' = sq) as -> by congruence. unfold pruneOne. rewrite Hsq, Hkey. cbv zeta.
  destruct (decide (emptySub sq)) as [He|He].
  - rewrite decide_False by by apply emptySub_len. rewrite decide_True by done. split_and!.
    + intros k' p'. simpl. intros [_ Hk']%lookup_delete_Some. by apply Hp.
    + done.
    + done.
    + apply map_eq. intros k'. rewrite lookup_subs. simpl. destruct (decide (k = k')) as [<-|Hne].
      * by rewrite !lookup_delete_eq.
      * by rewrite !lookup_delete_ne, lookup_subs.
  - rewrite decide_True; [done|]. rewrite emptySub_len in He. by apply dec_stable in He.
Qed.

(** What pruning the keys [ks] leaves of a sub-queue. *)
Definition afterPrune (ks : list string) (k : string) (sq : subQueue) : option subQueue :=
  if decide (k ∈ ks ∧ emptySub sq) then None else Some sq.
#[local] Arguments afterPrune : simpl never.

Lemma afterPrune_yes ks k sq : k ∈ ks → emptySub sq → afterPrune ks k sq = None.
Proof. intros. unfold afterPrune. by rewrite decide_True. Qed.
Lemma afterPrune_no ks k sq : ¬ (k ∈ ks ∧ emptySub sq) → afterPrune ks k sq = Some sq.
Proof. intros. unfold afterPrune. by rewrite decide_False. Qed.

Lemma pruneEmpty_subs ks ps c :
  ptr_ok c → NoDup ks → Forall2 (λ k p, subQueues c !! k = Some p) ks ps →
  let c' := pruneEmpty ps c in
  ptr_ok c' ∧ same_rest c c' ∧
  ∀ k, subs c' !! k = subs c !! k ≫= afterPrune ks k.
Proof.
  intros Hp Hnd. revert ps c Hp. induction Hnd as [|k ks Hk Hnd IH]; intros ps c Hp Hks.
  { apply Forall2_nil_inv_l in Hks as ->. split_and!; [done|done|]. intros k. simpl.
    destruct (subs c !! k); simpl; [|done]. rewrite afterPrune_no; [done|]. set_solver. }
  apply Forall2_cons_inv_l in Hks as (p & ps' & Hkp & Hks & ->).
  destruct (Hp k p Hkp) as (sq & Hsq & Hkey).
  assert (Hsk : subs c !! k = Some sq) by (rewrite lookup_subs, Hkp; done).
  destruct (pruneOne_subs c k p sq Hp Hkp Hsq) as (Hp1 & Hr1 & Hq1 & Hs1).
  destruct (IH ps' (pruneOne p c) Hp1) as (Hp2 & Hr2 & Hs2).
  { apply Forall2_same_length_lookup. rewrite Forall2_same_length_lookup in Hks.
    destruct Hks as [Hl Hks]. split; [done|]. intros i k' p' Hi Hi'. rewrite Hq1.
    case_decide; [|by eapply Hks]. rewrite lookup_delete_ne; [by eapply Hks|].
    intros ->. apply Hk. by eapply list_elem_of_lookup_2. }
  split_and!; [done|by eapply same_rest_trans|]. intros k'. change (pruneEmpty (p :: ps') c)
    with (pruneEmpty ps' (pruneOne p c)). rewrite Hs2, Hs1.
  destruct (decide (k = k')) as [<-|Hne].
  - rewrite Hsk. destruct (decide (emptySub sq)) as [He|He].
    + rewrite lookup_delete_eq. simpl. by rewrite afterPrune_yes by set_solver.
    + rewrite Hsk. simpl. by rewrite !afterPrune_no by naive_solver.
  - assert ((if decide (emptySub sq) then delete k (subs c) else subs c) !! k' = subs c !! k') as ->.
    { case_decide; [|done]. by rewrite lookup_delete_ne. }
    destruct (subs c !! k') as [x|]; simpl; [|done]. unfold afterPrune. apply decide_ext.
    rewrite elem_of_cons. naive_solver.
Qed.

(** The running and queued slots of a key. *)
Definition slotsAt c (k : string) : gmap Z slot * gmap Z slot :=
  (a_running (abs (baseSub c k)), a_queued (abs (baseSub c k))).

Lemma prune_inv c ks ps :
  cs_inv c → NoDup ks → Forall2 (λ k p, subQueues c !! k = Some p) ks ps →
  let c' := pruneEmpty ps c in
  cs_inv c' ∧ (∀ k, slotsAt c' k = slotsAt c k) ∧
  ∀ k, k ∈ ks → from_option (λ sq, ¬ emptySub sq) True (subs c' !! k).
Proof.
  intros Hc Hnd Hks c'. pose proof Hc as [Hp Hki Hcm Hl Hsub Hres Hop].
  destruct (pruneEmpty_subs ks ps c Hp Hnd Hks) as (Hp' & (Hr & Hst & Hcm' & _ & Hop' & _) & Hs).
  fold c' in Hp', Hr, Hst, Hcm', Hop', Hs.
  assert (Hkeep : ∀ k sq, subs c' !! k = Some sq → subs c !! k = Some sq).
  { intros k sq. rewrite Hs. destruct (subs c !! k); simpl; [|done]. unfold afterPrune. by case_decide. }
  split_and!.
  - split; [done|by rewrite Hst|by rewrite Hcm'|by rewrite Hst| | |by rewrite Hop'].
    + rewrite Hcm'. intros k sq Hk. by apply (Hsub k), Hkeep.
    + rewrite Hr, Hres. apply sumBy_weight. intros k. unfold weight. rewrite Hs.
      destruct (subs c !! k) as [sq|] eqn:Hk; [|done]. simpl. unfold afterPrune.
      case_decide as He; [|done]. simpl. apply quiet_empty_size; [|apply He]. apply (Hsub k sq Hk).
  - intros k. unfold slotsAt, baseSub. rewrite Hs, Hst, Hcm'.
    destruct (subs c !! k) as [sq|]; [|done]. simpl. unfold afterPrune. case_decide as He; [|done].
    destruct He as [_ [Hr0 Hb0]]. by rewrite Hr0, Hb0.
  - intros k Hk. rewrite Hs. destruct (subs c !! k) as [sq|]; simpl; [|done].
    unfold afterPrune. case_decide as He; [done|]. simpl. naive_solver.
Qed.

Lemma commit_batch c groups c1 touched d :
  cs_inv c → NoDup groups.*1 → Forall (group_fits c) groups → batch_done c groups c1 touched d →
  let c2 := pruneEmpty touched (set_openScopes [] (commit touched c1)) in
  cs_inv c2 ∧
  (∀ g, g ∈ groups → slotsAt c2 g.1 =
     (a_running (abs (groupResult c g).2), a_queued (abs (groupResult c g).2))) ∧
  (∀ k, k ∉ groups.*1 → slotsAt c2 k = slotsAt c k) ∧
  (∀ g, g ∈ groups → from_option (λ sq, ¬ emptySub sq) True (subs c2 !! g.1)).
Proof.
  intros Hc Hnd Hg Hbd c2. rewrite Forall_forall in Hg.
  assert (Hcom : ∀ g, g ∈ groups →
    sub_inv (comparatorForStrategy kind) (SubQueue.commit (groupResult c g).2).2 ∧
    abs (SubQueue.commit (groupResult c g).2).2 = abs (groupResult c g).2).
  { intros g Hgin. destruct (groupResult_ok c g Hc (Hg g Hgin)) as (Hsc & Hq & Hl).
    destruct (sc_undo _ _ Hsc) as (u & Hu & _). by eapply commit_sub. }
  destruct (finalize_batch SubQueue.commit c groups c1 touched d _ Hc Hnd (proj2 (Forall_forall _ _) Hg)
    Hbd commit_finalizes eq_refl) as (Hp & Hst & Hcm & Hq & Hres & Hall & Hs & Ho).
  { intros g Hgin. by apply Hcom. }
  fold (commit touched c1) in Hp, Hst, Hcm, Hq, Hres, Hall, Hs, Ho.
  assert (Hc1 : cs_inv (set_openScopes [] (commit touched c1))) by by apply (cs_inv_intro c).
  destruct (bd_touched _ _ _ _ _ Hbd) as (ks & Hks & Ht).
  destruct (prune_inv _ ks touched Hc1) as (Hinv & Hslots & Hne).
  { by rewrite Hks. } { simpl. by rewrite Hq. }
  split_and!; [done| | |].
  - intros g Hgin. unfold c2. rewrite Hslots. unfold slotsAt, baseSub.
    change (subs (set_openScopes [] (commit touched c1))) with (subs (commit touched c1)).
    rewrite (Hs g Hgin). destruct (Hcom g Hgin) as [_ Ha]. by rewrite <-Ha.
  - intros k Hk. unfold c2. rewrite Hslots. unfold slotsAt, baseSub.
    change (subs (set_openScopes [] (commit touched c1))) with (subs (commit touched c1)).
    rewrite (Ho k Hk). simpl. by rewrite Hst, Hcm.
  - intros g Hgin. apply Hne. rewrite Hks. by apply list_elem_of_fmap_2.
Qed.

(** ** The other operations keep the invariant *)

Lemma new_inv def :
  sc_strategy def = kind → valid_limit (sc_maxConcurrency def) →
  cs_inv (NewConcurrencyStrategy def).
Proof. intros Hk Hl. split; simpl; try done; by rewrite Hk. Qed.

(** Replacing the sub-queue of a key, created if necessary, and counting the
    difference. *)
Lemma replace_inv c k sq' :
  cs_inv c → sub_inv (st_compare c) sq' → key sq' = key (baseSub c k) →
  let '(p, c1) := getOrCreateSubQueue k c in
  store c1 !! p = Some (baseSub c k) ∧
  cs_inv (addResident (minus (size sq') (size (baseSub c k))) (updSub p (λ _, sq') c1)).
Proof.
  intros Hc Hsq' Hkey. pose proof Hc as [Hp Hki Hcm Hl Hsub Hres Hop].
  pose proof (getOrCreate_subs c k Hp) as Hg. destruct (getOrCreateSubQueue k c) as [p c1].
  destruct Hg as (Hp1 & Hk & Hsq & Hs1 & (Hr & Hst & Hcm1 & _ & Hop1 & _) & _). split; [done|].
  destruct (putSub_subs c1 k p _ sq' Hp1 Hk Hsq Hkey) as [Hs2 Hp2].
  assert (Hsum : sumBy size (subs c1) = sumBy size (subs c)).
  { apply sumBy_weight. intros j. unfold weight. rewrite Hs1. destruct (decide (k = j)) as [<-|Hne].
    - rewrite lookup_insert_eq. unfold baseSub. by destruct (subs c !! k).
    - by rewrite lookup_insert_ne. }
  split; simpl; [done|by rewrite Hst|by rewrite Hcm1|by rewrite Hst| | |by rewrite Hop1].
  - rewrite Hcm1. change (map_Forall (λ _ sq, sub_inv (st_compare c) sq) (subs (updSub p (λ _, sq') c1))).
    rewrite Hs2, Hs1, insert_insert_eq. by apply map_Forall_insert_2.
  - change (plus (resident c1) (minus (size sq') (size (baseSub c k))) =
            sumBy size (subs (updSub p (λ _, sq') c1))).
    rewrite Hs2, Hr, Hres, <-Hsum. symmetry. apply (sumBy_replace _ _ k (baseSub c k)).
    + by rewrite Hs1, lookup_insert_eq.
    + apply plus_minus.
Qed.

(** A row within the machine bounds, whose task is not held on the other side. *)
Record row_ok c (row : indexRow) : Prop := {
  ro_limit : from_option valid_limit True (ir_maxRuns row);
  ro_fits : (Z.of_nat (total (abs (baseSub c (ir_key row)))) < maxSlots)%Z;
  ro_free : if ir_isFilled row then a_queued (abs (baseSub c (ir_key row))) !! ir_taskId row = None
            else a_running (abs (baseSub c (ir_key row))) !! ir_taskId row = None
}.

Lemma observeRow_spec row s :
  sq_wf s →
  let s1 := match ir_maxRuns row with
            | Some m => observeMaxRuns m (ir_taskInsertedAt row) s | None => s end in
  ∃ m f, reaches s s1 (AbsQueue (a_running (abs s)) (a_queued (abs s)) m f) ∧
    (from_option valid_limit True (ir_maxRuns row) → valid_limit (maxRuns s) → valid_limit m) ∧
    undo s1 = undo s ∧ queued s1 = queued s ∧ backlog s1 = backlog s.
Proof.
  intros Hwf. pose proof (reach_observe (WalMessage (ir_taskInsertedAt row) "INSERT" (ir_key row) 0 0 0 0
    false (ir_maxRuns row)) s Hwf) as Hob. simpl in Hob. unfold spec_observe in Hob. simpl in Hob.
  destruct (ir_maxRuns row) as [m|]; simpl in *.
  - unfold observeMaxRuns in *. case_decide; zcase; try lia.
    + exists m, (ir_taskInsertedAt row). done.
    + by exists (maxRuns s), (maxRunsFrom s).
  - by exists (maxRuns s), (maxRunsFrom s).
Qed.

Lemma addRunning_quiet sl s :
  undo s = None → undo (addRunning sl s) = None ∧ queued (addRunning sl s) = queued s ∧
  backlog (addRunning sl s) = backlog s.
Proof.
  intros Hu. assert (Hrec : ∀ x b s0, undo s0 = None → recordRunning x b s0 = s0).
  { intros x b s0 H0. unfold recordRunning. by rewrite H0. }
  unfold addRunning, removeRunning. destruct (Running.delete (taskId sl) (running s)) as [[o|] r]; simpl;
    rewrite !Hrec by (rewrite ?Hrec; done); done.
Qed.

Lemma enqueue_undo sl s : undo (enqueue sl s) = undo s.
Proof.
  unfold enqueue. destruct (putQueued_frame (SlotIndex.insert sl <$> queuedIndex
    (match queued s with None => allocQueued s | Some _ => s end))
    (match queued s with None => allocQueued s | Some _ => s end)) as (_ & -> & _).
  by destruct (queued s).
Qed.

Lemma addRow_inv c row :
  cs_inv c → row_ok c row → sub_inv (st_compare c) (addRow row (baseSub c (ir_key row))).
Proof.
  intros Hc [Hlim Hfit Hfree]. set (sq0 := baseSub c (ir_key row)) in *.
  destruct (baseSub_inv c (ir_key row) Hc) as [Hwf [Hd Hkr Hkq] Hcmp Hl [Hu Hqu]].
  fold sq0 in Hwf, Hd, Hkr, Hkq, Hcmp, Hl, Hu, Hqu.
  destruct (observeRow_spec row sq0 Hwf) as (m & f & Hre & Hm & Hu1 & Hq1 & Hb1). unfold addRow.
  set (s1 := match ir_maxRuns row with Some m0 => _ | None => _ end) in *.
  specialize (Hm Hlim Hl). unfold total in Hfit. rewrite Hu in Hu1.
  pose proof (re_wf _ _ _ Hre) as Hwf1. destruct (ir_isFilled row).
  - pose proof (reach_add _ _ _ Hre (rowSlot row)) as Ha. simpl in Ha.
    destruct Ha as [Hwa [_ Hfa] _ Haa].
    { pose proof (map_size_delete_le (a_running (abs sq0)) (ir_taskId row)). simpl in *. lia. }
    destruct (addRunning_quiet (rowSlot row) s1 Hu1) as (Hua & Hqa & Hba).
    split; [done| |by rewrite Hfa| |].
    + rewrite Haa. split; simpl; [|by apply map_Forall_insert_2|done].
      apply map_disjoint_insert_l. done.
    + by injection Haa as _ _ -> _.
    + split; [done|]. rewrite Hqa, Hba, Hq1, Hb1. done.
  - assert (Hroom : (Z.of_nat (base.size (a_queued (abs sq0))) < maxSlots)%Z) by lia.
    pose proof (reach_enqueue _ _ _ Hre (rowSlot row) Hroom) as [Hwa [_ Hfa] _ Haa].
    split; [done| |by rewrite Hfa| |].
    + rewrite Haa. split; simpl; [|done|by apply map_Forall_insert_2].
      apply map_disjoint_insert_r. done.
    + by injection Haa as _ _ -> _.
    + split; [by rewrite enqueue_undo|]. right. intros Hnil.
      assert (a_queued (abs (enqueue (rowSlot row) s1)) = ∅) as He by (simpl; by rewrite Hnil).
      rewrite Haa in He. simpl in He. by apply insert_non_empty in He.
Qed.

Lemma addRow_key row s : key (addRow row s) = key s.
Proof.
  unfold addRow. assert (Hk : same_frame s (match ir_maxRuns row with
    | Some m => observeMaxRuns m (ir_taskInsertedAt row) s | None => s end)).
  { case_match; [apply observeMaxRuns_same|done]. }
  set (s1 := match ir_maxRuns row with Some m => _ | None => _ end) in *. clearbody s1.
  destruct (ir_isFilled row); (eapply same_frame_trans; [exact Hk|]).
  - apply addRunning_same.
  - apply enqueue_same.
Qed.

Lemma indexOne_inv c row : cs_inv c → row_ok c row → cs_inv (indexOne row c).
Proof.
  intros Hc Hr. pose proof (replace_inv c (ir_key row) _ Hc (addRow_inv c row Hc Hr)
    (addRow_key _ _)) as Hrep. unfold indexOne.
  destruct (getOrCreateSubQueue (ir_key row) c) as [p c1]. destruct Hrep as [-> Hinv]. done.
Qed.

(** *** Updating the definition *)

Lemma updAll_subs (f : subQueue → subQueue) (l : list (string * nat)) c :
  (∀ sq, key (f sq) = key sq) → ptr_ok c → NoDup l.*1 →
  (∀ k p, (k, p) ∈ l → subQueues c !! k = Some p) →
  let c' := foldl (λ c p, updSub p f c) c l.*2 in
  ptr_ok c' ∧ subQueues c' = subQueues c ∧ same_rest c c' ∧
  ∀ k, subs c' !! k = if decide (k ∈ l.*1) then f <$> subs c !! k else subs c !! k.
Proof.
  intros Hf. revert c. induction l as [|[k p] l IH]; intros c Hp Hnd Hl.
  { split_and!; [done..|]. intros k. by rewrite decide_False by set_solver. }
  simpl in Hnd. apply NoDup_cons in Hnd as [Hk Hnd].
  assert (Hkp : subQueues c !! k = Some p) by (apply Hl; set_solver).
  destruct (updSub_subs c k p f Hp Hkp Hf) as [Hs1 Hp1].
  destruct (IH (updSub p f c) Hp1 Hnd) as (Hp' & Hq' & Hr' & Hs').
  { intros k' p' Hin. apply Hl. set_solver. }
  split_and!; [done|done|done|]. intros k'. simpl. rewrite Hs', Hs1.
  destruct (decide (k = k')) as [<-|Hne].
  - rewrite decide_False, lookup_alter_eq by done. by rewrite decide_True by set_solver.
  - rewrite lookup_alter_ne by done. apply decide_ext. set_solver.
Qed.

Lemma updateSub_inv cmp m sq :
  valid_limit m → sub_inv cmp sq → sub_inv cmp (updateSub m sq) ∧ size (updateSub m sq) = size sq ∧
  a_running (abs (updateSub m sq)) = a_running (abs sq) ∧
  a_queued (abs (updateSub m sq)) = a_queued (abs sq).
Proof.
  intros Hm Hsq. unfold updateSub. case_decide; [|done].
  destruct Hsq as [Hwf [Hd Hr Hq] Hc Hl [Hu Hqu]]. simpl. rewrite Hu. split; [|done].
  split; [by apply set_limit_wf|by split|done|done|done].
Qed.

Lemma updateSub_key m sq : key (updateSub m sq) = key sq.
Proof. unfold updateSub. case_decide; [|done]. simpl. by destruct (undo sq). Qed.

Lemma update_inv c next :
  cs_inv c → sc_strategy next = kind → valid_limit (sc_maxConcurrency next) →
  cs_inv (UpdateStrategy next c) ∧ ∀ k, slotsAt (UpdateStrategy next c) k = slotsAt c k.
Proof.
  intros Hc Hk Hm. pose proof Hc as [Hp Hki Hcm Hl Hsub Hres Hop].
  set (f := updateSub (sc_maxConcurrency next)).
  destruct (updAll_subs f (map_to_list (subQueues c)) (set_strategy next c) (updateSub_key _) Hp)
    as (Hp' & Hq' & (Hr' & Hst' & Hcm' & _ & Hop' & _) & Hs').
  { apply NoDup_fst_map_to_list. } { intros k p Hin. by apply elem_of_map_to_list in Hin. }
  assert (Hs : subs (UpdateStrategy next c) = f <$> subs c).
  { apply map_eq. intros k. rewrite lookup_fmap. etrans; [apply (Hs' k)|].
    change (subs (set_strategy next c)) with (subs c). case_decide as Hin; [done|].
    assert (subs c !! k = None) as ->; [|done]. apply subs_None; [done|].
    destruct (subQueues c !! k) as [p|] eqn:Hkp; [|done]. exfalso. apply Hin.
    apply list_elem_of_fmap. exists (k, p). by rewrite elem_of_map_to_list. }
  assert (Hst : strategy (UpdateStrategy next c) = next) by (etrans; [apply Hst'|done]).
  assert (Hcmp : st_compare (UpdateStrategy next c) = st_compare c) by (etrans; [apply Hcm'|done]).
  split.
  - split; [done|by rewrite Hst|by rewrite Hcmp|by rewrite Hst| | |].
    + rewrite Hs, Hcmp. intros k sq. rewrite lookup_fmap. intros (sq0 & Hsq0 & ->)%fmap_Some.
      by apply updateSub_inv, (Hsub k).
    + rewrite Hs. etrans; [etrans; [apply Hr'|apply Hres]|]. apply sumBy_weight. intros k.
      unfold weight. rewrite lookup_fmap. destruct (subs c !! k) as [sq|] eqn:Hsq; [|done]. simpl.
      symmetry. by apply (updateSub_inv (st_compare c)), (Hsub k).
    + etrans; [apply Hop'|done].
  - intros k. unfold slotsAt, baseSub. rewrite Hs, lookup_fmap, Hcmp.
    destruct (subs c !! k) as [sq|] eqn:Hsq; [|done]. cbn [fmap option_fmap option_map default from_option id].
    destruct (updateSub_inv (st_compare c) (sc_maxConcurrency next) sq Hm (Hsub k sq Hsq)) as (_ & _ & Hra & Hqa).
    fold f in Hra, Hqa. f_equal; [exact Hra|exact Hqa].
Qed.

(** *** The post-build pass *)

Definition pass_fits c : Prop := ∀ k, (Z.of_nat (total (abs (baseSub c k))) ≤ maxSlots)%Z.

Lemma pass_groups_fit c (order : orderFn) :
  (∀ m, order m ≡ₚ map_to_list m) → pass_fits c → Forall (group_fits c) (order (unskipped c)).
Proof.
  intros Ho Hf. apply Forall_forall. intros [k l] Hin. rewrite Ho, elem_of_map_to_list in Hin.
  unfold unskipped in Hin. rewrite lookup_omap in Hin.
  apply bind_Some in Hin as (p & _ & Hp). destruct (store c !! p) as [sq|]; [|done].
  destruct (skipSub sq); simplify_eq. split; simpl; [|done]. specialize (Hf k). lia.
Qed.

Lemma pass_inv c (repo : @repoFn TQ TC) (order : orderFn) :
  (∀ m, order m ≡ₚ map_to_list m) → cs_inv c → pass_fits c →
  cs_inv (queueAllSubQueues repo order dec now c).2.
Proof.
  intros Ho Hc Hf. unfold queueAllSubQueues. case_decide; [done|].
  pose proof (pass_groups_fit c order Ho Hf) as Hg.
  assert (Hnd : NoDup (order (unskipped c)).*1) by (rewrite Ho; apply NoDup_fst_map_to_list).
  pose proof (decideSubQueues_done _ c Hnd (ci_ptr _ Hc)) as Hbd.
  destruct (decideSubQueues dec now _ c) as [[touched d] c1].
  assert (Hop : openScopes c1 = []).
  { destruct (bd_rest _ _ _ _ _ Hbd) as (_&_&_&_&->&_). apply Hc. }
  assert (Hset : ∀ (c2 : strategy_), openScopes c2 = [] → set_openScopes [] c2 = c2).
  { intros c2 H2. destruct c2. simpl in *. by subst. }
  assert (Hfin : ∀ fin, openScopes (let '(delta, c2) := finalizeLoop fin touched zeroSize c1 in
    addResident delta c2) = []).
  { intros fin. pose proof (finalizeLoop_scopes fin touched [] zeroSize c1) as Hfs.
    rewrite (Hset c1 Hop) in Hfs. destruct (finalizeLoop fin touched zeroSize c1) as [delta c2].
    injection Hfs as Hfs. simpl. by rewrite Hfs. }
  destruct (flushToDatabase repo d).
  - destruct (commit_batch c _ c1 touched d Hc Hnd Hg Hbd) as [Hinv _].
    rewrite (Hset (commit touched c1) (Hfin SubQueue.commit)) in Hinv. done.
  - destruct (rollback_batch c _ c1 touched d Hc Hnd Hg Hbd) as [Hinv _].
    rewrite (Hset (rollback touched c1) (Hfin SubQueue.rollback)) in Hinv. done.
Qed.
End index.
End Index.
