(* ===== verification/IndexTheorems.v ===== *)
(** * What the concurrency index guarantees

    Theorems about whole batches on the index of a strategy
    (pkg/scheduling/v1/concurrency/strategy.go): independence of the goroutine
    schedule, failed and committed batches, the invariant of every reachable
    index with its exact size counters, and a lost update of the limit. *)

From S2P Require Import Prelude IndexedHeap SlotIndex RunningSlots SubQueue Decide Strategy Index.
Import SlotIndex (slot, taskId, UnixMilli, maxSlots).
Import SubQueue Decide Strategy Index.

Module IndexTheorems.

(** ** Grouping *)

Definition messagesFor (k : string) (msgs : list walMessage) : list walMessage :=
  filter (λ msg, w_key msg = k) msgs.

Lemma group_lookup msgs k :
  groupMessagesBySubQueue msgs !! k =
    match messagesFor k msgs with [] => None | l => Some l end.
Proof.
  unfold groupMessagesBySubQueue, messagesFor. induction msgs as [|msg msgs IH] using rev_ind; [done|].
  rewrite foldl_app, filter_app. simpl. rewrite filter_cons, filter_nil.
  set (m := foldl _ ∅ msgs) in *. destruct (decide (w_key msg = k)) as [Hk|Hk].
  - rewrite Hk, lookup_insert_eq, IH. destruct (filter (λ msg, w_key msg = k) msgs) as [|x l]; done.
  - rewrite lookup_insert_ne, app_nil_r by done. exact IH.
Qed.

(** An order in which the code may range over a map. *)
Definition enumerates (order : orderFn) : Prop := ∀ m, order m ≡ₚ map_to_list m.

Lemma enumerates_keys order m : enumerates order → NoDup (order m).*1.
Proof. intros Ho. rewrite (Ho m). apply NoDup_fst_map_to_list. Qed.

Lemma enumerates_elem order m k l : enumerates order → (k, l) ∈ order m ↔ m !! k = Some l.
Proof. intros Ho. rewrite (Ho m). by rewrite elem_of_map_to_list. Qed.

Section theorems.
Context {TQ TC : Type}.
Implicit Types (c : @ConcurrencyStrategy TQ TC).

(** A batch that stays within the machine bounds. *)
Definition batch_fits c (msgs : list walMessage) : Prop :=
  Forall msg_ok msgs ∧
  ∀ k, (Z.of_nat (total (abs (baseSub c k)) + length msgs) ≤ maxSlots)%Z.

Lemma batch_groups_fit order c msgs :
  enumerates order → batch_fits c msgs →
  Forall (group_fits c) (order (groupMessagesBySubQueue msgs)).
Proof.
  intros Ho [Hm Hb]. apply Forall_forall. intros [k l] Hin.
  apply enumerates_elem in Hin; [|done]. rewrite group_lookup in Hin.
  assert (l = messagesFor k msgs) as -> by by destruct (messagesFor k msgs); simplify_eq.
  split; simpl.
  - specialize (Hb k). pose proof (length_filter (λ msg, w_key msg = k) msgs). unfold messagesFor. lia.
  - apply Forall_forall. intros m [_ Hmin]%list_elem_of_filter. rewrite Forall_forall in Hm. auto.
Qed.

(** The pipeline of a group, on the maps. *)
Lemma pipeline_result kind dec now (Hdec : decideFor kind = Some dec) c g :
  cs_inv kind c → group_fits c g →
  ∃ d, spec_process kind (comparatorForStrategy kind) now g.2 (abs (baseSub c g.1)) =
    Some (d, abs (groupResult dec now c g).2).
Proof.
  intros Hc Hg. pose proof (begin_batch_ok kind c g Hc Hg) as Hb.
  rewrite <-(begin_abs _ (sb_wf _ _ (baseSub_inv kind c g.1 Hc))).
  unfold groupResult, processSubQueue, spec_process.
  pose proof (process_prefix kind now g.2 _ Hb) as Hpre.
  destruct (applyWAL g.2 _) as [out s1], (queuedPopTimedOut now s1) as [ex s2].
  destruct Hpre as (-> & -> & Hre & Hq & _). destruct (spec_wal g.2 _) as [sup a1]. simpl in *.
  destruct (decide_refines kind dec s2 Hdec Hq) as (fill & cancel & cancel' & s' & a' & Heq & Hs & _ & <- & _).
  rewrite Heq. rewrite (qo_compare _ _ Hq), (re_abs _ _ _ Hre) in Hs. rewrite Hs. by eexists.
Qed.

(** C23: the goroutines of a batch may be started and may finish in any order:
    every complete interleaving leaves every sub-queue in the state the
    sequential run leaves it in, leaves the rest of the strategy alone, and
    produces the same multisets of slots to fill, to cancel and to time out. *)
Theorem any_schedule_same kind dec now c groups c' touched out :
  decideFor kind = Some dec → NoDup groups.*1 → ptr_ok c →
  rtc (dstep dec now) (DState c groups [] [] noDecisions) (DState c' [] [] touched out) →
  let '(touched', out', c'') := decideSubQueues dec now groups c in
  subs c' = subs c'' ∧ same_rest c c' ∧ decisions_perm out out'.
Proof.
  intros Hdec Hnd Hp Hst. pose proof (schedule_end kind dec now Hdec c groups c' touched out Hnd Hp Hst) as H1.
  pose proof (decideSubQueues_done kind dec now Hdec groups c Hnd Hp) as H2.
  destruct (decideSubQueues dec now groups c) as [[touched' out'] c''].
  destruct H1 as [_ Hr1 Hs1 Ho1 Hd1 _], H2 as [_ _ Hs2 Ho2 Hd2 _]. split_and!; [|done|].
  - apply map_eq. intros k. destruct (decide (k ∈ groups.*1)) as [Hk|Hk].
    + apply list_elem_of_fmap in Hk as (g & -> & Hg). by rewrite Hs1, Hs2.
    + by rewrite Ho1, Ho2.
  - destruct Hd1 as (A1 & A2 & A3), Hd2 as (B1 & B2 & B3). split_and!; by etrans.
Qed.

Lemma failed_batch_inv kind dec repo order now msgs c :
  decideFor kind = Some dec → enumerates order → cs_inv kind c → batch_fits c msgs →
  let c' := rollbackScopes (processStrategy repo order dec now msgs c).2 in
  cs_inv kind c' ∧ ∀ k, abs (baseSub c' k) = abs (baseSub c k).
Proof.
  intros Hdec Ho Hc Hb. unfold processStrategy.
  pose proof (batch_groups_fit order c msgs Ho Hb) as Hg.
  pose proof (enumerates_keys order (groupMessagesBySubQueue msgs) Ho) as Hnd.
  pose proof (decideSubQueues_done kind dec now Hdec _ c Hnd (ci_ptr _ _ Hc)) as Hbd.
  destruct (decideSubQueues dec now _ c) as [[touched d] c1]. simpl. rewrite rollbackScopes_open.
  exact (rollback_batch kind dec now Hdec c _ c1 touched d Hc Hnd Hg Hbd).
Qed.

(** C7: a failed batch is undone. If the outbox transaction rolls back after a
    batch was replayed and decided, [rollbackScopes] restores the running slots,
    the queued slots and the limit of every key, closes every scope and leaves
    the index consistent, with size counters that equal the sizes of the
    sub-queues it now has; limits are valid and groups within the machine
    bounds ([batch_fits]). *)
Theorem failed_batch_restores kind dec repo order now msgs c :
  decideFor kind = Some dec → enumerates order → cs_inv kind c → batch_fits c msgs →
  let c' := rollbackScopes (processStrategy repo order dec now msgs c).2 in
  cs_inv kind c' ∧ ∀ k, abs (baseSub c' k) = abs (baseSub c k).
Proof.
  apply failed_batch_inv.
Qed.

(** A committed batch does to every key what the specification says: a key
    with messages holds the slots the map specification computes from its own
    messages, in their order; every other key is untouched; keys the batch
    emptied are pruned, and the index and its counters stay consistent. *)
Theorem committed_batch_applies kind dec repo order now msgs c :
  decideFor kind = Some dec → enumerates order → cs_inv kind c → batch_fits c msgs →
  let '(touched, c1) := commitScopes (processStrategy repo order dec now msgs c).2 in
  let c' := pruneEmpty touched c1 in
  cs_inv kind c' ∧
  ∀ k, match messagesFor k msgs with
       | [] => slotsAt c' k = slotsAt c k
       | l => ∃ d a', spec_process kind (comparatorForStrategy kind) now l (abs (baseSub c k)) = Some (d, a') ∧
                slotsAt c' k = (a_running a', a_queued a') ∧
                from_option (λ sq, ¬ emptySub sq) True (subs c' !! k)
       end.
Proof.
  intros Hdec Ho Hc Hb. unfold processStrategy.
  pose proof (batch_groups_fit order c msgs Ho Hb) as Hg.
  pose proof (enumerates_keys order (groupMessagesBySubQueue msgs) Ho) as Hnd.
  pose proof (decideSubQueues_done kind dec now Hdec _ c Hnd (ci_ptr _ _ Hc)) as Hbd.
  destruct (decideSubQueues dec now _ c) as [[touched d] c1]. cbn [snd]. rewrite commitScopes_open.
  destruct (commit_batch kind dec now Hdec c _ c1 touched d Hc Hnd Hg Hbd) as (Hinv & Hs & Hother & Hne).
  split; [done|]. intros k. pose proof (group_lookup msgs k) as Hk.
  pose proof (enumerates_elem order (groupMessagesBySubQueue msgs) k (messagesFor k msgs) Ho) as Hin.
  destruct (messagesFor k msgs) as [|m l] eqn:Hl.
  - apply Hother. intros ([k' l'] & Heq & Hin')%list_elem_of_fmap. simpl in Heq. subst k'.
    apply enumerates_elem in Hin'; [|done]. congruence.
  - apply Hin in Hk. rewrite Forall_forall in Hg.
    destruct (pipeline_result kind dec now Hdec c (k, m :: l) Hc (Hg _ Hk)) as (d' & Hsp).
    exists d', (abs (groupResult dec now c (k, m :: l)).2).
    split_and!; [exact Hsp|exact (Hs _ Hk)|exact (Hne _ Hk)].
Qed.

(** ** Every reachable index *)

(** The operations on an index between transactions. *)
Inductive cs_step (kind : V1ConcurrencyStrategy) (dec : decideFn) c : @ConcurrencyStrategy TQ TC → Prop :=
| st_row row : row_ok c row → cs_step kind dec c (indexOne row c)
| st_update next :
    sc_strategy next = kind → valid_limit (sc_maxConcurrency next) →
    cs_step kind dec c (UpdateStrategy next c)
| st_committed repo order now msgs :
    enumerates order → batch_fits c msgs →
    cs_step kind dec c
      (let '(touched, c1) := commitScopes (processStrategy repo order dec now msgs c).2 in
       pruneEmpty touched c1)
| st_failed repo order now msgs :
    enumerates order → batch_fits c msgs →
    cs_step kind dec c (rollbackScopes (processStrategy repo order dec now msgs c).2)
| st_pass repo order now :
    enumerates order → pass_fits c →
    cs_step kind dec c (queueAllSubQueues repo order dec now c).2.

Lemma committed_batch_inv kind dec repo order now msgs c :
  decideFor kind = Some dec → enumerates order → cs_inv kind c → batch_fits c msgs →
  let '(touched, c1) := commitScopes (processStrategy repo order dec now msgs c).2 in
  cs_inv kind (pruneEmpty touched c1).
Proof.
  intros Hdec Ho Hc Hb. unfold processStrategy.
  pose proof (batch_groups_fit order c msgs Ho Hb) as Hg.
  pose proof (enumerates_keys order (groupMessagesBySubQueue msgs) Ho) as Hnd.
  pose proof (decideSubQueues_done kind dec now Hdec _ c Hnd (ci_ptr _ _ Hc)) as Hbd.
  destruct (decideSubQueues dec now _ c) as [[touched d] c1]. cbn [snd]. rewrite commitScopes_open.
  by destruct (commit_batch kind dec now Hdec c _ c1 touched d Hc Hnd Hg Hbd) as [Hinv _].
Qed.

Lemma cs_step_inv kind dec c c' :
  decideFor kind = Some dec → cs_inv kind c → cs_step kind dec c c' → cs_inv kind c'.
Proof.
  intros Hdec Hc [row Hr|next Hk Hm|repo order now msgs Ho Hb|repo order now msgs Ho Hb|repo order now Ho Hf].
  - by apply indexOne_inv.
  - exact (proj1 (update_inv kind dec Hdec c next Hc Hk Hm)).
  - pose proof (committed_batch_inv kind dec repo order now msgs c Hdec Ho Hc Hb) as Hi.
    by destruct (commitScopes _).
  - by apply failed_batch_inv.
  - by apply pass_inv.
Qed.

(** C24: in every index reachable from an empty one by hydration, committed and
    failed batches, the post-build pass and definition updates, the map and the
    store agree, the resident size counters equal the sizes of the sub-queues,
    no task holds two slots of a key, every limit is valid and no undo scope is
    left open.  A hydrated row is of a task that the index does not hold on the
    other side of its group; limits are valid and groups within the machine
    bounds ([row_ok], [batch_fits], [pass_fits]). *)
Theorem reachable_index_consistent kind dec def c :
  decideFor kind = Some dec → sc_strategy def = kind → valid_limit (sc_maxConcurrency def) →
  rtc (cs_step kind dec) (NewConcurrencyStrategy def) c →
  ptr_ok c ∧ resident c = sumBy size (subs c) ∧
  map_Forall (λ k sq, sq_wf sq ∧ NoDup (taskId <$> runs sq ++ backlog sq) ∧
    valid_limit (maxRuns sq) ∧ undo sq = None) (subs c).
Proof.
  intros Hdec Hk Hl Hst. assert (Hc : cs_inv kind c).
  { pose proof (new_inv (TQ := TQ) (TC := TC) kind def Hk Hl) as Hc.
    induction Hst as [|c0 c1 c2 Hs _ IH]; [done|]. apply IH. by eapply cs_step_inv. }
  split; [apply Hc|]. split; [apply Hc|]. intros k sq Hsq. destruct (ci_subs _ _ Hc k sq Hsq) as [Hwf Hok _ Hlim [Hu _]].
  split_and!; [done| |done|done]. by apply abs_ok_nodup.
Qed.
End theorems.

(** ** Definition updates during an open batch *)

Lemma rollback_limit sq u :
  undo sq = Some u → limit (SubQueue.rollback sq).2 = (u_maxRuns u, u_maxRunsFrom u).
Proof. intros Hu. unfold SubQueue.rollback. by rewrite Hu. Qed.

(** A group still on the static limit takes a new static limit at once, and
    keeps it if the batch that is in flight is rolled back afterwards. *)
Theorem static_limit_survives_rollback m sq u :
  maxRunsFrom sq = 0%Z → undo sq = Some u → u_maxRunsFrom u = 0%Z →
  maxRuns (updateSub m sq) = m ∧ limit (SubQueue.rollback (updateSub m sq)).2 = (m, 0%Z).
Proof.
  intros Hf Hu Huf. unfold updateSub. rewrite decide_True by done. simpl. rewrite Hu. split; [done|].
  by erewrite rollback_limit; [|done]; simpl; rewrite Huf.
Qed.

(** A new static limit is lost when the batch in flight has observed the
    first dynamic limit of a group and is then rolled back: the group is back
    on its static limit, but on the one from before the update, whatever the
    new limit is. *)
Theorem static_limit_lost_on_rollback m sq u :
  maxRunsFrom sq ≠ 0%Z → undo sq = Some u → u_maxRunsFrom u = 0%Z →
  limit (SubQueue.rollback (updateSub m sq)).2 = (u_maxRuns u, 0%Z).
Proof.
  intros Hf Hu Huf. unfold updateSub. rewrite decide_False by done.
  by rewrite (rollback_limit sq u Hu), Huf.
Qed.

(** ** Witnesses *)

(** A strategy with limit 1, hydrated with one runner and one queued slot. *)
Definition sampleDef : V1StepConcurrency := StepConcurrency 7 "tenant-a" GROUPROUNDROBIN 1.

Definition sampleRows : list indexRow :=
  [IndexRow "a" 1 10 9000000000 1 0 true None; IndexRow "a" 2 20 9000000000 1 0 false None].

Definition sampleIndex : @ConcurrencyStrategy unit unit :=
  buildIndex sampleRows (NewConcurrencyStrategy sampleDef).

Definition okRepo : @repoFn unit unit := λ _ _, Some (RunResult [] [] [] false).

(** The runner completes; another key gets its first slot. *)
Definition sampleMsgs : list walMessage :=
  [WalMessage 10 "DELETE" "a" 1 9000 1 0 false None;
   WalMessage 30 "INSERT" "b" 3 9000 1 0 false (Some 4%Z)].

Lemma order_ok : enumerates map_to_list.
Proof. intros m. reflexivity. Qed.

Lemma sampleIndex_steps :
  rtc (cs_step GROUPROUNDROBIN decideGroupRoundRobin) (NewConcurrencyStrategy sampleDef) sampleIndex.
Proof.
  eapply rtc_l; [apply (st_row _ _ _ (IndexRow "a" 1 10 9000000000 1 0 true None))|].
  { by split. }
  eapply rtc_l; [apply (st_row _ _ _ (IndexRow "a" 2 20 9000000000 1 0 false None))|apply rtc_refl].
  by split.
Qed.

Lemma sampleIndex_inv : cs_inv GROUPROUNDROBIN sampleIndex.
Proof.
  assert (Hn : cs_inv GROUPROUNDROBIN (@NewConcurrencyStrategy unit unit sampleDef)).
  { apply new_inv; [done|split; done]. }
  induction sampleIndex_steps as [|c0 c1 c2 Hs _ IH]; [done|]. apply IH. by eapply cs_step_inv.
Qed.

Lemma sampleMsgs_fit : batch_fits sampleIndex sampleMsgs.
Proof.
  split; [repeat constructor; done|]. intros k. unfold baseSub.
  assert (subs sampleIndex !! k = if decide (k = "a") then subs sampleIndex !! "a" else None) as ->.
  { case_decide as Hk; [by subst|]. apply (subs_None _ _ (ci_ptr _ _ sampleIndex_inv)).
    assert (subQueues sampleIndex = {["a" := 0]}) as -> by (vm_compute; reflexivity).
    by rewrite lookup_singleton_ne. }
  case_decide; vm_compute; discriminate.
Qed.

(** Both goroutines are started before either of them finishes. *)
Lemma overlap_schedule dec now (c : @ConcurrencyStrategy unit unit) k1 m1 k2 m2 :
  let '(p1, c1) := openSub k1 c in
  let '(p2, c2) := openSub k2 c1 in
  let '(d1, c3) := workSub dec now p1 m1 c2 in
  let '(d2, c4) := workSub dec now p2 m2 c3 in
  rtc (dstep dec now) (DState c [(k1, m1); (k2, m2)] [] [] noDecisions)
    (DState c4 [] [] [p1; p2] (appendDecisions (appendDecisions noDecisions d1) d2)).
Proof.
  pose proof (ds_spawn dec now c k1 m1 [(k2, m2)] [] [] noDecisions) as H1.
  destruct (openSub k1 c) as [p1 c1].
  pose proof (ds_spawn dec now c1 k2 m2 [] [(p1, m1)] [p1] noDecisions) as H2.
  destruct (openSub k2 c1) as [p2 c2].
  pose proof (ds_finish dec now c2 [] [(p2, m2)] p1 m1 [] [p1; p2] noDecisions) as H3.
  destruct (workSub dec now p1 m1 c2) as [d1 c3].
  pose proof (ds_finish dec now c3 [] [] p2 m2 [] [p1; p2] (appendDecisions noDecisions d1)) as H4.
  destruct (workSub dec now p2 m2 c3) as [d2 c4].
  eapply rtc_l; [exact H1|]. eapply rtc_l; [exact H2|]. eapply rtc_l; [exact H3|].
  eapply rtc_l; [exact H4|apply rtc_refl].
Qed.

Lemma any_schedule_same_witness :
  let groups := map_to_list (groupMessagesBySubQueue sampleMsgs) in
  ∃ c' touched out,
    rtc (dstep decideGroupRoundRobin 5000000000) (DState sampleIndex groups [] [] noDecisions)
      (DState c' [] [] touched out) ∧
    let '(_, out', c'') := decideSubQueues decideGroupRoundRobin 5000000000 groups sampleIndex in
    subs c' = subs c'' ∧ d_setFilled out ≡ₚ d_setFilled out' ∧ length (d_setFilled out') = 2.
Proof.
  intros groups.
  assert (Hg : groups = [("a", messagesFor "a" sampleMsgs); ("b", messagesFor "b" sampleMsgs)] ∨
               groups = [("b", messagesFor "b" sampleMsgs); ("a", messagesFor "a" sampleMsgs)])
    by (vm_compute; first [left; reflexivity|right; reflexivity]).
  assert (Hs : ∃ c' touched out, rtc (dstep decideGroupRoundRobin 5000000000)
    (DState sampleIndex groups [] [] noDecisions) (DState c' [] [] touched out)).
  { destruct Hg as [-> | ->].
    - pose proof (overlap_schedule decideGroupRoundRobin 5000000000 sampleIndex
        "a" (messagesFor "a" sampleMsgs) "b" (messagesFor "b" sampleMsgs)) as H.
      repeat case_match. eauto.
    - pose proof (overlap_schedule decideGroupRoundRobin 5000000000 sampleIndex
        "b" (messagesFor "b" sampleMsgs) "a" (messagesFor "a" sampleMsgs)) as H.
      repeat case_match. eauto. }
  destruct Hs as (c' & touched & out & Hs). exists c', touched, out. split; [exact Hs|].
  assert (Hlen : length (d_setFilled (decideSubQueues decideGroupRoundRobin 5000000000 groups
    sampleIndex).1.2) = 2) by (vm_compute; reflexivity).
  pose proof (any_schedule_same GROUPROUNDROBIN decideGroupRoundRobin 5000000000 sampleIndex groups
    c' touched out eq_refl (NoDup_fst_map_to_list _) (ci_ptr _ _ sampleIndex_inv) Hs) as Ht.
  destruct (decideSubQueues decideGroupRoundRobin 5000000000 groups sampleIndex) as [[t' out'] c''].
  destruct Ht as (Hsub & _ & Hd). split; [exact Hsub|]. split; [exact (proj1 Hd)|exact Hlen].
Defined.

Lemma failed_batch_restores_witness :
  let c1 := (processStrategy okRepo map_to_list decideGroupRoundRobin 5000000000 sampleMsgs sampleIndex).2 in
  batch_fits sampleIndex sampleMsgs ∧
  length (runs (baseSub c1 "a")) = 1 ∧ backlog (baseSub c1 "a") = [] ∧
  ∀ k, abs (baseSub (rollbackScopes c1) k) = abs (baseSub sampleIndex k).
Proof.
  intros c1. split; [exact sampleMsgs_fit|]. split; [vm_compute; reflexivity|].
  split; [vm_compute; reflexivity|].
  exact (proj2 (failed_batch_restores GROUPROUNDROBIN decideGroupRoundRobin okRepo map_to_list
    5000000000 sampleMsgs sampleIndex eq_refl order_ok sampleIndex_inv sampleMsgs_fit)).
Defined.

Lemma committed_batch_applies_witness :
  let '(touched, c1) := commitScopes
    (processStrategy okRepo map_to_list decideGroupRoundRobin 5000000000 sampleMsgs sampleIndex).2 in
  let c' := pruneEmpty touched c1 in
  cs_inv GROUPROUNDROBIN c' ∧ taskId <$> runs (baseSub c' "a") = [2]%Z ∧
  taskId <$> runs (baseSub c' "b") = [3]%Z.
Proof.
  pose proof (committed_batch_applies GROUPROUNDROBIN decideGroupRoundRobin okRepo map_to_list
    5000000000 sampleMsgs sampleIndex eq_refl order_ok sampleIndex_inv sampleMsgs_fit) as Hc.
  destruct (commitScopes _) as [touched c1] eqn:Hcs. split; [exact (proj1 Hc)|].
  assert (Ht : (touched, c1) = commitScopes (processStrategy okRepo map_to_list
    decideGroupRoundRobin 5000000000 sampleMsgs sampleIndex).2) by by rewrite Hcs.
  assert (Hr : ∀ k, taskId <$> runs (baseSub (pruneEmpty touched c1) k) = taskId <$> runs (baseSub
    (let '(t, c) := commitScopes (processStrategy okRepo map_to_list decideGroupRoundRobin
      5000000000 sampleMsgs sampleIndex).2 in pruneEmpty t c) k)) by (intros k; by rewrite <-Ht).
  rewrite !Hr. split; vm_compute; reflexivity.
Defined.

Lemma reachable_index_consistent_witness :
  rtc (cs_step GROUPROUNDROBIN decideGroupRoundRobin) (NewConcurrencyStrategy sampleDef) sampleIndex ∧
  resident sampleIndex = sumBy size (subs sampleIndex) ∧
  resident sampleIndex = ResidentSize 1 0 1 1.
Proof.
  split; [exact sampleIndex_steps|].
  split; [|vm_compute; reflexivity].
  refine (proj1 (proj2 (reachable_index_consistent GROUPROUNDROBIN decideGroupRoundRobin sampleDef
    sampleIndex eq_refl eq_refl _ sampleIndex_steps))). split; vm_compute; [discriminate|reflexivity].
Defined.

(** A batch that queues a slot of the hydrated group, without and with a
    dynamically evaluated limit. *)
Definition sampleOpen (m : option Z) : subQueue :=
  (applyWAL [WalMessage 40 "INSERT" "a" 5 9000 1 0 false m] (begin (baseSub sampleIndex "a"))).2.

Lemma static_limit_survives_rollback_witness :
  undo (sampleOpen None) ≠ None ∧
  limit (SubQueue.rollback (updateSub 10 (sampleOpen None))).2 = (10, 0)%Z.
Proof.
  split; [vm_compute; discriminate|]. destruct (undo (sampleOpen None)) as [u|] eqn:Hu.
  2:{ vm_compute in Hu. discriminate. }
  refine (proj2 (static_limit_survives_rollback 10 (sampleOpen None) u _ Hu _)).
  - vm_compute. reflexivity.
  - vm_compute in Hu. injection Hu as <-. reflexivity.
Defined.

Lemma static_limit_lost_on_rollback_witness :
  limit (sampleOpen (Some 4%Z)) = (4, 40)%Z ∧
  limit (SubQueue.rollback (updateSub 10 (sampleOpen (Some 4%Z)))).2 = (1, 0)%Z.
Proof.
  split; [vm_compute; reflexivity|]. destruct (undo (sampleOpen (Some 4%Z))) as [u|] eqn:Hu.
  2:{ vm_compute in Hu. discriminate. }
  rewrite (static_limit_lost_on_rollback 10 (sampleOpen (Some 4%Z)) u).
  - vm_compute in Hu. injection Hu as <-. reflexivity.
  - vm_compute. discriminate.
  - exact Hu.
  - vm_compute in Hu. injection Hu as <-. reflexivity.
Defined.
End IndexTheorems.
