(* ===== verification/RunLoop.v ===== *)
(** * Draining the outbox

    Theorems about [Run] and its drain loop
    (pkg/scheduling/v1/concurrency/strategy.go): what it reports and the index
    it leaves behind, whichever of its transactions commit. *)

From S2P Require Import Prelude IndexedHeap SlotIndex RunningSlots SubQueue Decide Strategy Index.
From S2P Require Import IndexTheorems.
Import SlotIndex (slot, taskId, maxSlots).
Import SubQueue Decide Strategy Index IndexTheorems.

Module RunLoop.

Section run.
Context {TQ TC payload : Type} (unmarshal : payload → option walMessage).
Context (kind : V1ConcurrencyStrategy) (dec : decideFn) (Hdec : decideFor kind = Some dec).
Implicit Types (c : @ConcurrencyStrategy TQ TC) (call : @outboxCall TQ TC payload).

(** One successful iteration of the loop: the results it collects and the
    index it leaves. *)
Definition commitOne call c : list (option RunConcurrencyResult) * ConcurrencyStrategy :=
  let '(batch, c1) := takePending (processMessages unmarshal dec call c).2 in
  let '(touched, c2) := commitScopes c1 in
  (batch, pruneEmpty touched c2).

(** The first [n] iterations, all successful. *)
Fixpoint commits (n : nat) (calls : list (@outboxCall TQ TC payload)) c :
    list (option RunConcurrencyResult) * ConcurrencyStrategy :=
  match n, calls with
  | S n, call :: calls =>
      let '(batch, c1) := commitOne call c in
      let '(rest, c2) := commits n calls c1 in
      (batch ++ rest, c2)
  | _, _ => ([], c)
  end.

(** Every call the loop may make hands over a batch within the machine bounds. *)
Fixpoint calls_fit (calls : list (@outboxCall TQ TC payload)) c : Prop :=
  match calls with
  | [] => True
  | call :: calls =>
      enumerates (oc_order call) ∧
      (∀ ps wal, oc_payloads call = Some ps → mapM unmarshal ps = Some wal → batch_fits c wal) ∧
      calls_fit calls (commitOne call c).2
  end.

(** ** Pending results do not interfere with the index *)

Lemma set_pending_inv p c : cs_inv kind (set_pending p c) ↔ cs_inv kind c.
Proof. split; intros []; by split. Qed.

Lemma finalizeLoop_pending fin ps p delta c :
  finalizeLoop fin ps delta (set_pending p c) =
  (let '(delta', c') := finalizeLoop fin ps delta c in (delta', set_pending p c')).
Proof.
  revert delta c. induction ps as [|q ps IH]; intros delta c; simpl; [done|].
  destruct (store c !! q) as [sq|]; [|done]. destruct (fin sq) as [d sq'].
  apply (IH (plus delta d) (updSub q (λ _, sq') c)).
Qed.

Lemma rollbackScopes_pending p c :
  rollbackScopes (set_pending p c) = set_pending p (rollbackScopes c).
Proof.
  unfold rollbackScopes, rollback. simpl. rewrite finalizeLoop_pending.
  by destruct (finalizeLoop _ _ _ _).
Qed.

Lemma commitScopes_pending p c :
  commitScopes (set_pending p c) = ((commitScopes c).1, set_pending p (commitScopes c).2).
Proof.
  unfold commitScopes, commit. simpl. rewrite finalizeLoop_pending.
  by destruct (finalizeLoop _ _ _ _).
Qed.

Lemma pruneOne_pending q p c : pruneOne q (set_pending p c) = set_pending p (pruneOne q c).
Proof. unfold pruneOne. simpl. by repeat case_match. Qed.

Lemma pruneEmpty_pending ps p c : pruneEmpty ps (set_pending p c) = set_pending p (pruneEmpty ps c).
Proof.
  unfold pruneEmpty. revert c. induction ps as [|q ps IH]; intros c; simpl; [done|].
  by rewrite pruneOne_pending, IH.
Qed.

(** No open scope: nothing to finalize. *)
Lemma no_scopes c :
  openScopes c = [] → rollbackScopes c = c ∧ commitScopes c = ([], c).
Proof.
  intros Ho. unfold rollbackScopes, commitScopes, rollback, commit. rewrite Ho. simpl.
  assert (Ha : set_openScopes [] (addResident zeroSize c) = c).
  { destruct c as [st sm r sg cm pe os iq]. simpl in *. unfold addResident, set_openScopes. simpl.
    by rewrite plus_zero_r, Ho. }
  by rewrite Ha.
Qed.

(** ** One call of [ProcessMessages] *)

(** The state a call leaves before the scopes are finalized: untouched, or a
    processed batch. *)
Lemma process_cases call c :
  pending c = [] →
  let c1 := (processMessages unmarshal dec call c).2 in
  (c1 = c) ∨
  ∃ wal, (∃ ps, oc_payloads call = Some ps ∧ mapM unmarshal ps = Some wal) ∧
    ∃ p, c1 = set_pending p (processStrategy (oc_repo call) (oc_order call) dec (oc_now call) wal c).2.
Proof.
  intros Hp. unfold processMessages. destruct (oc_payloads call) as [ps|] eqn:Hps; [|by left].
  unfold Flush. destruct (mapM unmarshal ps) as [wal|] eqn:Hm; [|by left]. right. exists wal.
  split; [eauto|].
  destruct (processStrategy (oc_repo call) (oc_order call) dec (oc_now call) wal c) as [[r|] c1]; simpl.
  - by eexists.
  - exists (pending c1). by destruct c1.
Qed.

Lemma call_rolled_back call c :
  cs_inv kind c → pending c = [] → enumerates (oc_order call) →
  (∀ ps wal, oc_payloads call = Some ps → mapM unmarshal ps = Some wal → batch_fits c wal) →
  let c' := rollbackScopes (takePending (processMessages unmarshal dec call c).2).2 in
  cs_inv kind c' ∧ pending c' = [] ∧ ∀ k, abs (baseSub c' k) = abs (baseSub c k).
Proof.
  intros Hc Hp Ho Hfit. unfold takePending. cbn [snd].
  rewrite rollbackScopes_pending.
  destruct (process_cases call c Hp) as [-> | (wal & (ps & Hps & Hm) & p & ->)].
  - rewrite (proj1 (no_scopes c (ci_scopes _ _ Hc))). split_and!; [by apply set_pending_inv|done|done].
  - rewrite rollbackScopes_pending.
    destruct (failed_batch_inv kind dec (oc_repo call) (oc_order call) (oc_now call) wal c
      Hdec Ho Hc (Hfit _ _ Hps Hm)) as [Hi Ha].
    split_and!; [by apply set_pending_inv, set_pending_inv|done|exact Ha].
Qed.

Lemma call_committed call c :
  cs_inv kind c → pending c = [] → enumerates (oc_order call) →
  (∀ ps wal, oc_payloads call = Some ps → mapM unmarshal ps = Some wal → batch_fits c wal) →
  cs_inv kind (commitOne call c).2 ∧ pending (commitOne call c).2 = [].
Proof.
  intros Hc Hp Ho Hfit. unfold commitOne, takePending. rewrite commitScopes_pending.
  destruct (process_cases call c Hp) as [-> | (wal & (ps & Hps & Hm) & p & ->)].
  - rewrite (proj2 (no_scopes c (ci_scopes _ _ Hc))). simpl. split; [by apply set_pending_inv|done].
  - rewrite commitScopes_pending.
    pose proof (committed_batch_inv kind dec (oc_repo call) (oc_order call) (oc_now call) wal c
      Hdec Ho Hc (Hfit _ _ Hps Hm)) as Hi.
    destruct (commitScopes _) as [touched c2]. simpl. rewrite !pruneEmpty_pending.
    split; [by apply set_pending_inv, set_pending_inv|done].
Qed.

(** The drain loop of [Run] reports exactly the batches that committed and
    leaves exactly their effect. When it returns, with or without an error,
    some number of batches committed: its result merges the results it was
    given and those of these batches, in order; the slots and limits of every
    key are those after these batches, the batch that failed (if any) having
    left no trace; and the index is consistent, with no result left pending. *)
Theorem drain_reports_committed calls committed c res ok c' :
  cs_inv kind c → pending c = [] → calls_fit calls c →
  runLoop unmarshal dec calls committed c = Some (res, ok, c') →
  ∃ n, let '(outs, cn) := commits n calls c in
    res = mergeResults (committed ++ outs) ∧ cs_inv kind c' ∧ pending c' = [] ∧
    ∀ k, abs (baseSub c' k) = abs (baseSub cn k).
Proof.
  revert committed c. induction calls as [|call calls IH]; intros committed c Hc Hp Hf Hrun; [done|].
  destruct Hf as (Ho & Hfit & Hrest). simpl in Hrun.
  pose proof (call_rolled_back call c Hc Hp Ho Hfit) as Hroll.
  pose proof (call_committed call c Hc Hp Ho Hfit) as [Hci Hcp].
  unfold commitOne in Hci, Hcp, Hrest.
  assert (Hone : commitOne call c = (let '(batch, c1) := takePending (processMessages unmarshal dec call c).2 in
    let '(touched, c2) := commitScopes c1 in (batch, pruneEmpty touched c2))) by done.
  destruct (processMessages unmarshal dec call c) as [[m|] c1]; simpl in Hrun.
  2:{ injection Hrun as <- <- <-. exists 0. simpl. rewrite app_nil_r. split; [done|]. exact Hroll. }
  simpl in Hone, Hci, Hcp, Hrest. set (c2 := pruneEmpty _ _) in *. case_decide as Hm.
  - injection Hrun as <- <- <-. exists 1. cbn [commits].
    rewrite Hone. destruct calls; rewrite app_nil_r; done.
  - destruct (IH (committed ++ pending c1) _ Hci Hcp Hrest Hrun) as (n & Hn). exists (S n). cbn [commits].
    rewrite Hone. destruct (commits n calls c2) as [rest cn]. by rewrite (assoc_L (++)).
Qed.
End run.

(** One batch commits, then the outbox reports an error. *)
Definition sampleCalls : list (@outboxCall unit unit walMessage) :=
  [OutboxCall (Some sampleMsgs) okRepo map_to_list 5000000000 (Some 2);
   OutboxCall None okRepo map_to_list 5000000000 None].

Lemma drain_reports_committed_witness :
  ∃ res c', runLoop Some decideGroupRoundRobin sampleCalls [] sampleIndex = Some (res, false, c') ∧
    ∃ n, let '(outs, cn) := commits Some decideGroupRoundRobin n sampleCalls sampleIndex in
      res = mergeResults ([] ++ outs) ∧ cs_inv GROUPROUNDROBIN c' ∧ pending c' = [] ∧
      ∀ k, abs (baseSub c' k) = abs (baseSub cn k).
Proof.
  assert (Hf : calls_fit Some decideGroupRoundRobin sampleCalls sampleIndex).
  { split; [exact order_ok|]. split.
    - intros ps wal [= <-]. intros Hm. change (Some sampleMsgs = Some wal) in Hm. injection Hm as <-.
      exact sampleMsgs_fit.
    - split; [exact order_ok|]. split; [discriminate|exact I]. }
  destruct (runLoop Some decideGroupRoundRobin sampleCalls [] sampleIndex) as [[[res ok] c']|] eqn:Hr.
  2:{ vm_compute in Hr. discriminate. }
  assert (ok = false) as -> by (vm_compute in Hr; by injection Hr as _ <- _).
  exists res, c'. split; [reflexivity|].
  exact (drain_reports_committed Some GROUPROUNDROBIN decideGroupRoundRobin eq_refl sampleCalls []
    sampleIndex res false c' sampleIndex_inv eq_refl Hf Hr).
Defined.
End RunLoop.
