(* ===== verification/RateLimit.v ===== *)
(** The in-memory rate limiter of a tenant (src/pkg/scheduling/v1/rate_limit.go): the database
    snapshot, the units reserved by assignments in flight, the units waiting to be charged, and the
    operations use, ack, nack, flush and refresh.  The database, the clock, the order in which Go
    ranges over a map and the definitions that queuers add while a flush waits for the database are
    an environment [env]; every reading is made at its own tick, so two readings may differ. *)

From S2P Require Import Prelude.
From stdpp Require Import sorting strings.

Module RateLimit.

Open Scope Z_scope.

(** ** Data *)

(** Times are nanoseconds; [zeroTime] is Go's zero [time.Time]. *)
Definition zeroTime : Z := -62135596800 * 1000000000.
Definition MAX_RATE_LIMIT_UPDATE_FREQUENCY : Z := 500 * 1000000.

Record rateLimit := RateLimitOf {
  rl_key : string;
  rl_val : Z;
  rl_limitValue : Z;
  rl_window : string;
  rl_nextRefillAt : option Z;
  rl_pausedUntil : option Z;
}.

Notation rateLimitSet := (gmap string rateLimit).

Record RateLimitDefinition := MkDefinition { LimitValue : Z; Window : string }.

#[global] Instance definition_eq_dec : EqDecision RateLimitDefinition.
Proof. solve_decision. Defined.

(** A row of ListRateLimitsForTenantWithMutate. *)
Record limitRow := LimitRow {
  r_key : string;
  r_value : Z;
  r_limitValue : Z;
  r_window : string;
  r_nextRefillAt : Z;
  r_pausedUntil : option Z;
}.

Record env := Env {
  clock : nat → Z;
  FlushRateLimits : nat → gmap string Z → gmap string RateLimitDefinition →
                    option (list limitRow * option Z);
  arrivals : nat → gmap string RateLimitDefinition;
  range : nat → gmap string Z → list (string * Z);
}.

(** A buffered channel of tenant ids, all of them this tenant's. *)
Record tenantChan := TenantChan { buffered : nat; capacity : nat }.

Record rateLimiter := MkLimiter {
  nextRefillAt : option Z;
  unacked : gmap Z rateLimitSet;
  unflushed : rateLimitSet;
  dbRateLimits : rateLimitSet;
  lastFlushAt : Z;
  pausesEndedCh : option tenantChan;
  pendingDefinitions : gmap string RateLimitDefinition;
  (** the usage of every FlushRateLimits call that succeeded, oldest first *)
  charges : list (gmap string Z);
  tick : nat;
}.

Definition set_nextRefillAt (n : option Z) (r : rateLimiter) : rateLimiter :=
  MkLimiter n (unacked r) (unflushed r) (dbRateLimits r) (lastFlushAt r) (pausesEndedCh r)
    (pendingDefinitions r) (charges r) (tick r).
Definition set_unacked (u : gmap Z rateLimitSet) (r : rateLimiter) : rateLimiter :=
  MkLimiter (nextRefillAt r) u (unflushed r) (dbRateLimits r) (lastFlushAt r) (pausesEndedCh r)
    (pendingDefinitions r) (charges r) (tick r).
Definition set_unflushed (u : rateLimitSet) (r : rateLimiter) : rateLimiter :=
  MkLimiter (nextRefillAt r) (unacked r) u (dbRateLimits r) (lastFlushAt r) (pausesEndedCh r)
    (pendingDefinitions r) (charges r) (tick r).
Definition set_snapshot (db : rateLimitSet) (readAt : Z) (r : rateLimiter) : rateLimiter :=
  MkLimiter (nextRefillAt r) (unacked r) (unflushed r) db readAt (pausesEndedCh r)
    (pendingDefinitions r) (charges r) (tick r).
Definition set_pausesEndedCh (c : option tenantChan) (r : rateLimiter) : rateLimiter :=
  MkLimiter (nextRefillAt r) (unacked r) (unflushed r) (dbRateLimits r) (lastFlushAt r) c
    (pendingDefinitions r) (charges r) (tick r).
Definition set_pendingDefinitions (p : gmap string RateLimitDefinition) (r : rateLimiter) :
    rateLimiter :=
  MkLimiter (nextRefillAt r) (unacked r) (unflushed r) (dbRateLimits r) (lastFlushAt r)
    (pausesEndedCh r) p (charges r) (tick r).
Definition add_charge (usage : gmap string Z) (r : rateLimiter) : rateLimiter :=
  MkLimiter (nextRefillAt r) (unacked r) (unflushed r) (dbRateLimits r) (lastFlushAt r)
    (pausesEndedCh r) (pendingDefinitions r) (charges r ++ [usage]) (tick r).
Definition next_tick (r : rateLimiter) : rateLimiter :=
  MkLimiter (nextRefillAt r) (unacked r) (unflushed r) (dbRateLimits r) (lastFlushAt r)
    (pausesEndedCh r) (pendingDefinitions r) (charges r) (S (tick r)).

Definition newRateLimiter (ch : option tenantChan) : rateLimiter :=
  MkLimiter None ∅ ∅ ∅ zeroTime ch ∅ [] 0.

Record rateLimitResult := RateLimitResult {
  succeeded : bool;
  res_taskId : Z;
  exceededKey : string;
  exceededUnits : Z;
  exceededVal : Z;
  res_nextRefillAt : option Z;
  pausedUntil : option Z;
}.

(** [t.After(u)] and [t.Before(u)]. *)
Definition After (t u : Z) : bool := bool_decide (u < t).
Definition Before (t u : Z) : bool := bool_decide (t < u).

(** ** Units of a set *)

Definition emptyLimit (k : string) (v : Z) : rateLimit := RateLimitOf k v 0 "" None None.
Definition addVal (d : Z) (rl : rateLimit) : rateLimit :=
  RateLimitOf (rl_key rl) (rl_val rl + d) (rl_limitValue rl) (rl_window rl) (rl_nextRefillAt rl)
    (rl_pausedUntil rl).

Definition units (k : string) (s : rateLimitSet) : Z := default 0 (rl_val <$> s !! k).

Section limiter.
Context (E : env).

Definition Now (r : rateLimiter) : Z * rateLimiter := (clock E (tick r), next_tick r).
Definition Range (rls : gmap string Z) (r : rateLimiter) : list (string * Z) * rateLimiter :=
  (range E (tick r) rls, next_tick r).

(** ** Definitions of dynamic rate limits *)

Definition addDefinitions (definitions : gmap string RateLimitDefinition) (r : rateLimiter) :
    rateLimiter :=
  if decide (definitions = ∅) then r
  else set_pendingDefinitions (definitions ∪ pendingDefinitions r) r.

Definition unchanged (db : rateLimitSet) (k : string) (def : RateLimitDefinition) : bool :=
  match db !! k with
  | Some curr => bool_decide (rl_limitValue curr = LimitValue def) &&
                 bool_decide (rl_window curr = Window def)
  | None => false
  end.

Definition takeChangedDefinitions (r : rateLimiter) :
    gmap string RateLimitDefinition * rateLimiter :=
  (filter (λ kd, unchanged (dbRateLimits r) kd.1 kd.2 = false) (pendingDefinitions r),
   set_pendingDefinitions ∅ r).

Definition restoreDefinitions (definitions : gmap string RateLimitDefinition) (r : rateLimiter) :
    rateLimiter :=
  set_pendingDefinitions (pendingDefinitions r ∪ definitions) r.

(** ** Flush *)

Definition notifyPausesEnded (r : rateLimiter) : rateLimiter :=
  match pausesEndedCh r with
  | Some ch => if bool_decide (buffered ch < capacity ch)%nat
               then set_pausesEndedCh (Some (TenantChan (S (buffered ch)) (capacity ch))) r
               else r
  | None => r
  end.

Definition rowLimit (row : limitRow) : rateLimit :=
  RateLimitOf (r_key row) (r_value row) (r_limitValue row) (r_window row)
    (Some (r_nextRefillAt row)) (r_pausedUntil row).

Definition snapshotOf (rows : list limitRow) : rateLimitSet :=
  foldl (λ db row, <[r_key row := rowLimit row]> db) ∅ rows.

Definition isPaused (s : rateLimitSet) (k : string) : bool :=
  match s !! k with Some rl => bool_decide (is_Some (rl_pausedUntil rl)) | None => false end.

(** A key that was paused in [old] is gone or no longer paused in [new]. *)
Definition pauseEnded (old new : rateLimitSet) : bool :=
  existsb (λ kv, isPaused old kv.1 && negb (isPaused new kv.1)) (map_to_list old).

(** Don't update more than one time per interval. *)
Definition boundRefill (n : option Z) (r : rateLimiter) : rateLimiter :=
  match n with
  | None => r
  | Some next =>
      let '(now, r) := Now r in
      if bool_decide (next - now < MAX_RATE_LIMIT_UPDATE_FREQUENCY)
      then let '(now', r) := Now r in
           set_nextRefillAt (Some (now' + MAX_RATE_LIMIT_UPDATE_FREQUENCY)) r
      else set_nextRefillAt (Some next) r
  end.

(** The part of flush that runs once the guards have passed; [true] is a nil error. *)
Definition readAndCharge (definitions : gmap string RateLimitDefinition) (r : rateLimiter) :
    bool * rateLimiter :=
  let '(readAt, r) := Now r in
  let usage := rl_val <$> unflushed r in
  let reply := FlushRateLimits E (tick r) usage definitions in
  let r := next_tick (addDefinitions (arrivals E (tick r)) r) in
  match reply with
  | None => (false, restoreDefinitions definitions r)
  | Some (rows, next) =>
      let r := boundRefill next (add_charge usage r) in
      let old := dbRateLimits r in
      let r := set_unflushed ∅ (set_snapshot (snapshotOf rows) readAt r) in
      (true, if pauseEnded old (dbRateLimits r) then notifyPausesEnded r else r)
  end.

Definition flush (staleBefore : option Z) (r : rateLimiter) : bool * rateLimiter :=
  match staleBefore with
  | Some t =>
      if negb (Before (lastFlushAt r) t) then (true, r)
      else let '(definitions, r) := takeChangedDefinitions r in readAndCharge definitions r
  | None =>
      let '(definitions, r) := takeChangedDefinitions r in
      match nextRefillAt r with
      | Some n =>
          if decide (definitions = ∅) then
            let '(now, r) := Now r in
            if After n now then (true, r) else readAndCharge definitions r
          else readAndCharge definitions r
      | None => readAndCharge definitions r
      end
  end.

Definition flushToDatabase : rateLimiter → bool * rateLimiter := flush None.
Definition refresh (staleBefore : Z) : rateLimiter → bool * rateLimiter := flush (Some staleBefore).

(** ** Use *)

Definition rateLimitsExist (rls : gmap string Z) (r : rateLimiter) : bool :=
  bool_decide (map_Forall (λ k _, is_Some (dbRateLimits r !! k)) rls).

Definition shouldRefill (r : rateLimiter) : bool * rateLimiter :=
  match nextRefillAt r with
  | None => (false, r)
  | Some n => let '(now, r) := Now r in (negb (After n now), r)
  end.

(** The deadline of [k] if it lies in (lastFlushAt, now]. *)
Definition expiredPause (now : Z) (r : rateLimiter) (k : string) : option Z :=
  rl ← dbRateLimits r !! k;
  p ← rl_pausedUntil rl;
  if After p now || negb (After p (lastFlushAt r)) then None else Some p.

Definition pauseExpiredSinceFlush (rls : gmap string Z) (r : rateLimiter) :
    option Z * rateLimiter :=
  let '(now, r) := Now r in
  let '(order, r) := Range rls r in
  (foldl (λ found kv,
     match expiredPause now r kv.1 with
     | None => found
     | Some p => match found with
                 | None => Some p
                 | Some best => Some (if After p best then p else best)
                 end
     end) None order, r).

Definition copyDbRateLimits (r : rateLimiter) : rateLimitSet :=
  map_imap (λ k v, Some (RateLimitOf k (rl_val v) 0 "" (rl_nextRefillAt v) (rl_pausedUntil v)))
    (dbRateLimits r).

(** [currRls[k].val -= v.val] for the candidate keys that have a row. *)
Definition subtractSet (candidateRls : gmap string Z) (set currRls : rateLimitSet) : rateLimitSet :=
  map_fold (λ k v curr, if decide (is_Some (candidateRls !! k))
                        then alter (addVal (- rl_val v)) k curr else curr) currRls set.

Definition subtractUnacked (candidateRls : gmap string Z) (currRls : rateLimitSet)
    (r : rateLimiter) : rateLimitSet :=
  map_fold (λ _ set curr, subtractSet candidateRls set curr) currRls (unacked r).

Definition subtractUnflushed (candidateRls : gmap string Z) (currRls : rateLimitSet)
    (r : rateLimiter) : rateLimitSet :=
  subtractSet candidateRls (unflushed r) currRls.

Definition addToUnacked (task : Z) (rls : gmap string Z) (r : rateLimiter) : rateLimiter :=
  if decide (rls = ∅) then r
  else set_unacked
         (<[task := map_imap (λ k v, Some (emptyLimit k v)) rls ∪ default ∅ (unacked r !! task)]>
            (unacked r)) r.

(** The latest pause among the keys that still holds at [now], with the key and units it blocks. *)
Definition pausedScan (now : Z) (currRls : rateLimitSet) (order : list (string * Z)) :
    option (string * Z * Z) :=
  foldl (λ found kv,
    match currRls !! kv.1 ≫= rl_pausedUntil with
    | Some p =>
        if After p now then
          match found with
          | None => Some (kv.1, kv.2, p)
          | Some (_, _, best) => if After p best then Some (kv.1, kv.2, p) else found
          end
        else found
    | None => found
    end) None order.

(** The first key in iteration order whose remaining value is below the units asked for. *)
Fixpoint exceededScan (currRls : rateLimitSet) (order : list (string * Z)) :
    option (string * Z * rateLimit) :=
  match order with
  | [] => None
  | (k, v) :: rest =>
      match currRls !! k with
      | Some rl => if bool_decide (rl_val rl < v) then Some (k, v, rl) else exceededScan currRls rest
      | None => exceededScan currRls rest
      end
  end.

Definition failedResult (task : Z) : rateLimitResult :=
  RateLimitResult false task "" 0 0 None None.

(** The snapshot has every key, after at most one flush; [false] is an early return. *)
Definition loadLimits (rls : gmap string Z) (r : rateLimiter) : bool * rateLimiter :=
  if negb (rateLimitsExist rls r) then
    let '(ok, r) := flushToDatabase r in
    if ok then (rateLimitsExist rls r, r) else (false, r)
  else
    let '(refill, r) := shouldRefill r in
    if refill then flushToDatabase r else (true, r).

(** A pause that ended after the snapshot was read is looked up again. *)
Definition refreshPauses (rls : gmap string Z) (r : rateLimiter) : bool * rateLimiter :=
  let '(expired, r) := pauseExpiredSinceFlush rls r in
  match expired with Some t => refresh t r | None => (true, r) end.

(** The rest of use, once the snapshot is current. *)
Definition useSnapshot (task : Z) (rls : gmap string Z) (r : rateLimiter) :
    rateLimitResult * rateLimiter :=
  let currRls := copyDbRateLimits r in
  let '(now, r) := Now r in
  let '(order, r) := Range rls r in
  match pausedScan now currRls order with
  | Some (k, v, p) => (RateLimitResult false task k v 0 (Some p) (Some p), r)
  | None =>
      let currRls := subtractUnflushed rls (subtractUnacked rls currRls r) r in
      let '(order, r) := Range rls r in
      match exceededScan currRls order with
      | Some (k, v, rl) =>
          (RateLimitResult false task k v (to_int32 (rl_val rl)) (rl_nextRefillAt rl) None, r)
      | None => (RateLimitResult true 0 "" 0 0 None None, addToUnacked task rls r)
      end
  end.

Definition use (task : Z) (rls : gmap string Z) (r : rateLimiter) : rateLimitResult * rateLimiter :=
  let '(ok, r) := loadLimits rls r in
  if ok then
    let '(ok, r) := refreshPauses rls r in
    if ok then useSnapshot task rls r else (failedResult task, r)
  else (failedResult task, r).

(** ** Ack and nack *)

Definition addUnits (k : string) (v : Z) (s : rateLimitSet) : rateLimitSet :=
  <[k := addVal v (default (emptyLimit k 0) (s !! k))]> s.

Definition ack (task : Z) (r : rateLimiter) : rateLimiter :=
  match unacked r !! task with
  | Some set =>
      set_unacked (delete task (unacked r))
        (set_unflushed (map_fold (λ k v s, addUnits k (rl_val v) s) (unflushed r) set) r)
  | None => r
  end.

Definition nack (task : Z) (r : rateLimiter) : rateLimiter :=
  set_unacked (delete task (unacked r)) r.

End limiter.

(** ** Units reserved and waiting *)

(** The units of [k] that assignments in flight hold. *)
Definition reserved (k : string) (u : gmap Z rateLimitSet) : Z :=
  map_fold (λ _ set acc, units k set + acc) 0 u.

(** What the snapshot value of [k] must still cover. *)
Definition held (k : string) (r : rateLimiter) : Z := reserved k (unacked r) + units k (unflushed r).

Definition nonneg (r : rateLimiter) : Prop :=
  ∀ task set k, unacked r !! task = Some set → 0 ≤ units k set.

Lemma units_addUnits k k' v s :
  units k (addUnits k' v s) = units k s + (if decide (k = k') then v else 0).
Proof.
  unfold units, addUnits. destruct (decide (k = k')) as [->|Hk].
  - rewrite lookup_insert_eq. destruct (s !! k'); simpl; lia.
  - rewrite lookup_insert_ne by done. lia.
Qed.

Lemma units_insert k k' v s :
  s !! k' = None → units k (<[k' := v]> s) = (if decide (k = k') then rl_val v else 0) + units k s.
Proof.
  intros Hs. unfold units. destruct (decide (k = k')) as [->|Hk].
  - rewrite lookup_insert_eq, Hs. simpl. lia.
  - by rewrite lookup_insert_ne.
Qed.

Lemma units_merge k set s :
  units k (map_fold (λ k v s, addUnits k (rl_val v) s) s set) = units k s + units k set.
Proof.
  apply (map_fold_weak_ind (λ m set, units k m = units k s + units k set)).
  - unfold units at 3. rewrite lookup_empty. simpl. lia.
  - intros k' v set' m Hfresh IH. rewrite units_addUnits, units_insert, IH by done.
    case_decide; lia.
Qed.

Lemma reserved_insert k task set u :
  u !! task = None → reserved k (<[task := set]> u) = units k set + reserved k u.
Proof. intros Hu. unfold reserved. rewrite map_fold_insert_L; [done|intros; lia|done]. Qed.

Lemma reserved_lookup k task set u :
  u !! task = Some set → reserved k u = units k set + reserved k (delete task u).
Proof.
  intros Hu. unfold reserved.
  apply (map_fold_delete_L (λ _ set acc, units k set + acc) 0 task set u); [intros; lia|done].
Qed.

Lemma reserved_replace k task set u :
  reserved k (<[task := set]> u) = units k set + reserved k (delete task u).
Proof. rewrite <- insert_delete_eq. apply reserved_insert, lookup_delete_eq. Qed.

Lemma addVal_add a b rl : addVal a (addVal b rl) = addVal (b + a) rl.
Proof. destruct rl; unfold addVal; simpl. f_equal. lia. Qed.

Lemma addVal_0 rl : addVal 0 rl = rl.
Proof. destruct rl; unfold addVal; simpl. f_equal. lia. Qed.

(** What a subtraction over a candidate set takes from [k]. *)
Definition taken (c : gmap string Z) (k : string) (n : Z) : Z :=
  if decide (is_Some (c !! k)) then n else 0.

Lemma subtractSet_lookup c set curr k :
  subtractSet c set curr !! k = addVal (- taken c k (units k set)) <$> curr !! k.
Proof.
  unfold subtractSet.
  apply (map_fold_weak_ind (λ m set, m !! k = addVal (- taken c k (units k set)) <$> curr !! k)).
  - unfold taken, units. rewrite lookup_empty. simpl.
    destruct (curr !! k); case_decide; simpl; by rewrite ?addVal_0.
  - intros k' v set' m Hfresh IH. unfold taken in *. rewrite units_insert by done.
    destruct (decide (k = k')) as [->|Hk].
    + case_decide as Hc; [|exact IH]. rewrite lookup_alter_eq, IH.
      destruct (curr !! k'); simpl; [|done]. rewrite addVal_add. do 2 f_equal. lia.
    + destruct (decide (is_Some (c !! k'))); [rewrite lookup_alter_ne by done|]; exact IH.
Qed.

Lemma subtractUnacked_lookup c curr r k :
  subtractUnacked c curr r !! k = addVal (- taken c k (reserved k (unacked r))) <$> curr !! k.
Proof.
  unfold subtractUnacked, reserved.
  apply (map_fold_weak_ind (λ m u, m !! k =
    addVal (- taken c k (map_fold (λ _ set acc, units k set + acc) 0 u)) <$> curr !! k)).
  - rewrite map_fold_empty. unfold taken.
    destruct (curr !! k); case_decide; simpl; by rewrite ?addVal_0.
  - intros task set u m Hfresh IH. rewrite map_fold_insert_L by (done || (intros; lia)).
    rewrite subtractSet_lookup, IH. destruct (curr !! k); simpl; [|done].
    rewrite addVal_add. do 2 f_equal. unfold taken. case_decide; lia.
Qed.

Lemma lookup_copy r k :
  copyDbRateLimits r !! k = (λ v, RateLimitOf k (rl_val v) 0 "" (rl_nextRefillAt v)
                                    (rl_pausedUntil v)) <$> dbRateLimits r !! k.
Proof. unfold copyDbRateLimits. rewrite map_lookup_imap. by destruct (dbRateLimits r !! k). Qed.

Lemma held_ack k task r : held k (ack task r) = held k r.
Proof.
  unfold held, ack. destruct (unacked r !! task) as [set|] eqn:Hu; [|done].
  cbn [unacked unflushed set_unacked set_unflushed].
  rewrite units_merge, (reserved_lookup _ _ _ _ Hu). lia.
Qed.

Lemma reserved_drop k task r :
  nonneg r → reserved k (delete task (unacked r)) ≤ reserved k (unacked r).
Proof.
  intros Hn. destruct (unacked r !! task) as [set|] eqn:Hu.
  - rewrite (reserved_lookup _ _ _ _ Hu). specialize (Hn _ _ k Hu). lia.
  - rewrite delete_id by done. lia.
Qed.

Lemma nonneg_delete task r r' :
  unacked r' = delete task (unacked r) → nonneg r → nonneg r'.
Proof.
  intros Hr' Hn t set k. rewrite Hr'. intros [_ Ht]%lookup_delete_Some. by apply (Hn t).
Qed.

Lemma ack_unacked task r : unacked (ack task r) = delete task (unacked r).
Proof.
  unfold ack. destruct (unacked r !! task) eqn:Hu; simpl; [done|]. by rewrite delete_id.
Qed.

Lemma units_request task rls r k :
  units k (map_imap (λ k v, Some (emptyLimit k v)) rls ∪ default ∅ (unacked r !! task)) =
  match rls !! k with Some v => v | None => units k (default ∅ (unacked r !! task)) end.
Proof.
  unfold units. rewrite lookup_union, map_lookup_imap.
  destruct (rls !! k); simpl; [by rewrite union_Some_l|]. by rewrite (left_id_L None _).
Qed.

(** A reservation adds at most the units asked for, also when the task held some already. *)
Lemma held_reserve k task rls r :
  nonneg r →
  held k (addToUnacked task rls r) ≤ held k r + default 0 (rls !! k).
Proof.
  intros Hn. unfold held, addToUnacked. case_decide as He; subst.
  - rewrite lookup_empty. simpl. lia.
  - cbn [unacked unflushed set_unacked]. rewrite reserved_replace, units_request.
    pose proof (reserved_drop k task r Hn). destruct (rls !! k); simpl; [lia|].
    destruct (unacked r !! task) as [set|] eqn:Hu; simpl.
    + rewrite (reserved_lookup _ _ _ _ Hu). lia.
    + unfold units at 1. rewrite lookup_empty. simpl. lia.
Qed.

Lemma nonneg_reserve task rls r :
  map_Forall (λ _ v, 0 ≤ v) rls → nonneg r → nonneg (addToUnacked task rls r).
Proof.
  intros Hr Hn t set k. unfold addToUnacked. case_decide; [apply Hn|].
  cbn [unacked set_unacked]. rewrite lookup_insert_Some. intros [[<- <-]|[_ Ht]]; [|by apply (Hn t)].
  rewrite units_request. destruct (rls !! k) eqn:Hk; [by apply (Hr k)|].
  destruct (unacked r !! task) eqn:Hu; simpl; [by apply (Hn task)|].
  unfold units. by rewrite lookup_empty.
Qed.

(** ** What the operations leave alone *)

Lemma addDefinitions_frame d r :
  let r' := addDefinitions d r in
  unacked r' = unacked r ∧ unflushed r' = unflushed r ∧ dbRateLimits r' = dbRateLimits r ∧
  lastFlushAt r' = lastFlushAt r ∧ nextRefillAt r' = nextRefillAt r ∧ charges r' = charges r ∧
  tick r' = tick r ∧ pendingDefinitions r' = d ∪ pendingDefinitions r.
Proof.
  unfold addDefinitions. case_decide as Hd; [|done]. subst. repeat split; try done.
  by rewrite (left_id_L ∅ (∪)).
Qed.

(** The parts of the limiter that reading the clock and the definitions leave alone. *)
Record kept (r r' : rateLimiter) : Prop := {
  kept_unacked : unacked r' = unacked r;
  kept_unflushed : unflushed r' = unflushed r;
  kept_db : dbRateLimits r' = dbRateLimits r;
  kept_flush : lastFlushAt r' = lastFlushAt r;
  kept_refill : nextRefillAt r' = nextRefillAt r;
  kept_charges : charges r' = charges r;
  kept_tick : (tick r ≤ tick r')%nat;
}.

(** What a flush that reached the database leaves behind. *)
Record charged (E : env) (r r' : rateLimiter) : Prop := {
  charged_unacked : unacked r' = unacked r;
  charged_unflushed : unflushed r' = ∅;
  charged_readAt : ∃ n, (tick r ≤ n)%nat ∧ lastFlushAt r' = clock E n;
  charged_charges : charges r' = charges r ++ [rl_val <$> unflushed r];
  charged_tick : (tick r ≤ tick r')%nat;
}.

Lemma kept_refl r : kept r r.
Proof. by split. Qed.

Lemma kept_next r : kept r (next_tick r).
Proof. split; simpl; done || lia. Qed.

Lemma kept_trans r1 r2 r3 : kept r1 r2 → kept r2 r3 → kept r1 r3.
Proof. intros [] []. split; congruence || lia. Qed.

Lemma kept_charged E r1 r2 r3 : kept r1 r2 → charged E r2 r3 → charged E r1 r3.
Proof.
  intros [] [? ? (n & ? & ?) ? ?]. split; try congruence || lia.
  exists n. split; [lia|done].
Qed.

Lemma boundRefill_frame E n r :
  let r' := boundRefill E n r in
  unacked r' = unacked r ∧ charges r' = charges r ∧ (tick r ≤ tick r')%nat.
Proof.
  unfold boundRefill, Now. destruct n; simpl; [|by repeat split].
  case_bool_decide; simpl; repeat split; lia.
Qed.

Lemma notify_charged E r r' : charged E r r' → charged E r (notifyPausesEnded r').
Proof.
  unfold notifyPausesEnded. destruct (pausesEndedCh r'); [case_bool_decide|]; try done.
  intros []. by split.
Qed.

Lemma readAndCharge_cases E defs r :
  let '(ok, r') := readAndCharge E defs r in
  if ok then charged E r r'
  else kept r r' ∧
       pendingDefinitions r' = arrivals E (S (tick r)) ∪ pendingDefinitions r ∪ defs.
Proof.
  unfold readAndCharge, Now. cbn [tick next_tick unflushed].
  destruct (addDefinitions_frame (arrivals E (S (tick r))) (next_tick r))
    as (Ha & Hu & Hdb & Hf & Hn & Hc & Ht & Hp).
  set (r1 := addDefinitions _ _) in *. simpl in Ht.
  destruct (FlushRateLimits _ _ _ _) as [[rows next]|].
  - set (r2 := add_charge _ (next_tick r1)).
    destruct (boundRefill_frame E next r2) as (Ha' & Hc' & Ht').
    set (r3 := boundRefill E next r2) in *. simpl in Ht'.
    assert (charged E r (set_unflushed ∅ (set_snapshot (snapshotOf rows) (clock E (tick r)) r3)))
      as Hch.
    { split; simpl; try done; [by rewrite Ha'|by exists (tick r)|by rewrite Hc'; simpl; rewrite Hc|].
      lia. }
    destruct (pauseEnded _ _); [by apply notify_charged|done].
  - split; [|simpl; by rewrite Hp]. split; simpl; done || lia.
Qed.

Lemma takeChanged_kept r : kept r (takeChangedDefinitions r).2.
Proof. by split. Qed.

(** A flush charges the usage once, or changes nothing but the clock and the definitions. *)
Lemma flush_cases E sb r :
  let '(ok, r') := flush E sb r in kept r r' ∨ (ok = true ∧ charged E r r').
Proof.
  pose proof (takeChanged_kept r) as Hk. unfold flush.
  destruct (takeChangedDefinitions r) as [defs r0] eqn:Ht. simpl in Hk.
  assert (∀ r1, kept r0 r1 → let '(ok, r') := readAndCharge E defs r1 in
            kept r r' ∨ (ok = true ∧ charged E r r')) as Hread.
  { intros r1 H1. pose proof (readAndCharge_cases E defs r1) as Hc.
    destruct (readAndCharge E defs r1) as [[] r2].
    - right. split; [done|]. eapply kept_charged; [by eapply kept_trans|done].
    - left. destruct Hc as [Hc _]. by do 2 (eapply kept_trans; [done|]). }
  destruct sb as [t|].
  - destruct (negb _); [left; apply kept_refl|]. by apply Hread, kept_refl.
  - destruct (nextRefillAt r0); [|by apply Hread, kept_refl].
    case_decide; [|by apply Hread, kept_refl]. unfold Now.
    destruct (After _ _); [left; by eapply kept_trans, kept_next|]. apply Hread, kept_next.
Qed.

(** A refresh whose deadline is after the last read always reads. *)
Lemma refresh_reads E t r r' :
  lastFlushAt r < t → refresh E t r = (true, r') → charged E r r'.
Proof.
  intros Ht. unfold refresh, flush, Before. rewrite bool_decide_true by done. cbn [negb].
  destruct (takeChangedDefinitions r) as [defs r0] eqn:He.
  pose proof (takeChanged_kept r) as Hk. rewrite He in Hk. simpl in Hk.
  pose proof (readAndCharge_cases E defs r0) as Hc. intros Hr. rewrite Hr in Hc.
  by eapply kept_charged.
Qed.

(** ** Histories *)

Inductive rlop :=
  | OUse (task : Z) (rls : gmap string Z)
  | OAck (task : Z)
  | ONack (task : Z)
  | OFlush
  | ORefresh (staleBefore : Z)
  | ODefinitions (definitions : gmap string RateLimitDefinition).

Definition rl_step (E : env) (o : rlop) (r : rateLimiter) : rateLimiter :=
  match o with
  | OUse task rls => (use E task rls r).2
  | OAck task => ack task r
  | ONack task => nack task r
  | OFlush => (flushToDatabase E r).2
  | ORefresh t => (refresh E t r).2
  | ODefinitions d => addDefinitions d r
  end.

(** The units of [k] that the acks of a history confirm. *)
Fixpoint ackedUnits (E : env) (k : string) (ops : list rlop) (r : rateLimiter) : Z :=
  match ops with
  | [] => 0
  | o :: rest =>
      match o with OAck task => units k (default ∅ (unacked r !! task)) | _ => 0 end +
      ackedUnits E k rest (rl_step E o r)
  end.

(** The units of [k] charged to the database so far. *)
Definition chargedUnits (k : string) (r : rateLimiter) : Z :=
  foldr (λ usage acc, default 0 (usage !! k) + acc) 0 (charges r).

(** Units on their way to the database, or charged to it. *)
Definition owed (k : string) (r : rateLimiter) : Z := chargedUnits k r + units k (unflushed r).

Lemma owed_kept k r r' : kept r r' → owed k r' = owed k r.
Proof. intros []. unfold owed, chargedUnits. congruence. Qed.

Lemma owed_charged k E r r' : charged E r r' → owed k r' = owed k r.
Proof.
  intros [_ Hu _ Hc _]. unfold owed, chargedUnits. rewrite Hu, Hc, foldr_snoc, lookup_fmap.
  unfold units at 1. rewrite lookup_empty. simpl. fold (units k (unflushed r)).
  assert (∀ x l, foldr (λ (usage : gmap string Z) acc, default 0 (usage !! k) + acc) x l =
            foldr (λ (usage : gmap string Z) acc, default 0 (usage !! k) + acc) 0 l + x) as Hx.
  { intros x l. induction l as [|u l IH]; simpl; lia. }
  rewrite Hx. lia.
Qed.

Lemma owed_flush k E sb r : owed k (flush E sb r).2 = owed k r.
Proof.
  pose proof (flush_cases E sb r) as Hf. destruct (flush E sb r) as [ok r']. simpl.
  destruct Hf as [Hf|[_ Hf]]; [by apply owed_kept|by eapply owed_charged].
Qed.

(** What use does before it looks at the snapshot: at most flushes. *)
Record settled (r r' : rateLimiter) : Prop := {
  settled_unacked : unacked r' = unacked r;
  settled_owed : ∀ k, owed k r' = owed k r;
  settled_tick : (tick r ≤ tick r')%nat;
}.

Lemma settled_trans r1 r2 r3 : settled r1 r2 → settled r2 r3 → settled r1 r3.
Proof.
  intros [? Ho ?] [? Ho' ?]. split; [congruence| |lia]. intros k. by rewrite Ho', Ho.
Qed.

Lemma kept_settled r r' : kept r r' → settled r r'.
Proof. intros Hk. split; [apply Hk|intros k; by apply owed_kept|apply Hk]. Qed.

Lemma flush_settled E sb r : settled r (flush E sb r).2.
Proof.
  pose proof (flush_cases E sb r) as Hf. destruct (flush E sb r) as [ok r']. simpl.
  destruct Hf as [Hf|[_ Hf]]; [by apply kept_settled|].
  split; [apply Hf|intros k; by eapply owed_charged|apply Hf].
Qed.

Lemma loadLimits_settled E rls r : settled r (loadLimits E rls r).2.
Proof.
  unfold loadLimits, flushToDatabase. destruct (negb _).
  - pose proof (flush_settled E None r). by destruct (flush E None r) as [[] r'].
  - unfold shouldRefill, Now. destruct (nextRefillAt r); [|by apply kept_settled, kept_refl].
    destruct (negb _); [|apply kept_settled, kept_next].
    eapply settled_trans; [apply kept_settled, kept_next|apply flush_settled].
Qed.

Lemma refreshPauses_settled E rls r : settled r (refreshPauses E rls r).2.
Proof.
  unfold refreshPauses, pauseExpiredSinceFlush, Now, Range.
  assert (settled r (next_tick (next_tick r))) as Hs.
  { apply kept_settled. eapply kept_trans; apply kept_next. }
  destruct (foldl _ _ _); [|done]. eapply settled_trans; [done|apply flush_settled].
Qed.

(** use is a refusal, or the look at a settled snapshot. *)
Lemma use_cases E task rls r :
  ∃ r1, settled r r1 ∧
    (use E task rls r = (failedResult task, r1) ∨
     ∃ r0, settled r r0 ∧ refreshPauses E rls r0 = (true, r1) ∧
           use E task rls r = useSnapshot E task rls r1).
Proof.
  unfold use. pose proof (loadLimits_settled E rls r) as Hl.
  destruct (loadLimits E rls r) as [[] r0]; simpl in Hl; [|by exists r0; auto].
  pose proof (refreshPauses_settled E rls r0) as Hr.
  destruct (refreshPauses E rls r0) as [ok r1] eqn:He; simpl in Hr.
  exists r1. split; [by eapply settled_trans|]. destruct ok; [right; by exists r0|by left].
Qed.

(** The look at the snapshot reserves the units asked for, or nothing. *)
Lemma useSnapshot_cases E task rls r :
  let '(res, r') := useSnapshot E task rls r in
  ∃ r0, kept r r0 ∧ r' = if succeeded res then addToUnacked task rls r0 else r0.
Proof.
  unfold useSnapshot, Now, Range.
  assert (kept r (next_tick (next_tick r))) as Hk by (eapply kept_trans; apply kept_next).
  destruct (pausedScan _ _ _) as [[[]]|]; [eauto|].
  assert (kept r (next_tick (next_tick (next_tick r)))) as Hk'
    by (eapply kept_trans; [exact Hk|apply kept_next]).
  destruct (exceededScan _ _) as [[[]]|]; simpl; eauto.
Qed.

Lemma owed_reserve k task rls r : owed k (addToUnacked task rls r) = owed k r.
Proof. unfold addToUnacked. by case_decide. Qed.

Lemma owed_use k E task rls r : owed k (use E task rls r).2 = owed k r.
Proof.
  destruct (use_cases E task rls r) as (r1 & [_ Ho _] & [->|(r0 & _ & _ & ->)]); [apply Ho|].
  pose proof (useSnapshot_cases E task rls r1) as Hs.
  destruct (useSnapshot E task rls r1) as [res r']. destruct Hs as (r2 & Hk & ->).
  rewrite <- Ho, <- (owed_kept k _ _ Hk). simpl. destruct (succeeded res); [apply owed_reserve|done].
Qed.

Lemma owed_ack k task r :
  owed k (ack task r) = units k (default ∅ (unacked r !! task)) + owed k r.
Proof.
  unfold owed, ack. destruct (unacked r !! task) as [set|]; simpl.
  - rewrite units_merge. unfold chargedUnits. simpl. lia.
  - unfold units at 2. rewrite lookup_empty. simpl. lia.
Qed.

Lemma owed_step k E o r :
  owed k (rl_step E o r) =
  match o with OAck task => units k (default ∅ (unacked r !! task)) | _ => 0 end + owed k r.
Proof.
  destruct o; simpl; [apply owed_use|apply owed_ack|done|apply owed_flush|apply owed_flush|].
  destruct (addDefinitions_frame definitions r) as (_ & Hu & _ & _ & _ & Hc & _).
  unfold owed, chargedUnits. by rewrite Hu, Hc.
Qed.

Lemma owed_run k E ops r :
  owed k (foldl (λ r o, rl_step E o r) r ops) = ackedUnits E k ops r + owed k r.
Proof.
  revert r. induction ops as [|o ops IH]; intros r; [done|]. cbn [foldl ackedUnits].
  rewrite IH, owed_step. lia.
Qed.

(** C22: over any history of uses, acks, nacks, flushes (that the database answers, refuses or that
    are skipped), refreshes and definition updates, the units of a key charged to the database plus
    those waiting to be charged are exactly the units of the acked reservations: none is charged
    twice, lost by a failed flush, or charged for a nacked task. *)
Theorem charged_exactly_once E ch ops k :
  let r := foldl (λ r o, rl_step E o r) (newRateLimiter ch) ops in
  chargedUnits k r + units k (unflushed r) = ackedUnits E k ops (newRateLimiter ch).
Proof.
  cbv zeta. fold (owed k (foldl (λ r o, rl_step E o r) (newRateLimiter ch) ops)).
  rewrite owed_run. unfold owed, chargedUnits, units. simpl. rewrite lookup_empty. simpl. lia.
Qed.

(** ** The sections of use *)

(** use takes one lock at a time: it copies the snapshot, subtracts the reserved units, subtracts the
    waiting units and adds its reservation, and other goroutines may run in between. *)
Inductive phase :=
  | Copied (currRls : rateLimitSet)
  | LessUnacked (currRls : rateLimitSet)
  | LessUnflushed (currRls : rateLimitSet)
  | Granted
  | Refused.

Record useCall := UseCall { c_task : Z; c_rls : gmap string Z; c_phase : phase }.

Definition startCall (task : Z) (rls : gmap string Z) (r : rateLimiter) : useCall :=
  UseCall task rls (Copied (copyDbRateLimits r)).

Inductive call_step : useCall * rateLimiter → useCall * rateLimiter → Prop :=
  | call_paused task rls curr now order r :
      pausedScan now curr order ≠ None →
      call_step (UseCall task rls (Copied curr), r) (UseCall task rls Refused, r)
  | call_unacked task rls curr now order r :
      order ≡ₚ map_to_list rls → pausedScan now curr order = None →
      call_step (UseCall task rls (Copied curr), r)
        (UseCall task rls (LessUnacked (subtractUnacked rls curr r)), r)
  | call_unflushed task rls curr r :
      call_step (UseCall task rls (LessUnacked curr), r)
        (UseCall task rls (LessUnflushed (subtractUnflushed rls curr r)), r)
  | call_exceeded task rls curr order r :
      order ≡ₚ map_to_list rls → exceededScan curr order ≠ None →
      call_step (UseCall task rls (LessUnflushed curr), r) (UseCall task rls Refused, r)
  | call_grant task rls curr order r :
      order ≡ₚ map_to_list rls → exceededScan curr order = None →
      call_step (UseCall task rls (LessUnflushed curr), r)
        (UseCall task rls Granted, addToUnacked task rls r).

(** Calls of use in flight, together with acks and nacks of any task. *)
Inductive limiter_step : list useCall * rateLimiter → list useCall * rateLimiter → Prop :=
  | step_call i c c' cs r r' :
      cs !! i = Some c → call_step (c, r) (c', r') →
      limiter_step (cs, r) (<[i := c']> cs, r')
  | step_ack task cs r : limiter_step (cs, r) (cs, ack task r)
  | step_nack task cs r : limiter_step (cs, r) (cs, nack task r).

Lemma exceededScan_None curr order k v rl :
  exceededScan curr order = None → (k, v) ∈ order → curr !! k = Some rl → v ≤ rl_val rl.
Proof.
  induction order as [|[k' v'] order IH]; simpl; [set_solver|].
  intros He [[= -> ->]|Hin]%elem_of_cons Hk.
  - rewrite Hk in He. case_bool_decide; [done|lia].
  - destruct (curr !! k'); [case_bool_decide; [done|]|]; eauto.
Qed.

(** What the local copy of a call in flight says about the limiter it runs against. *)
Definition call_ok (c : useCall) (r : rateLimiter) : Prop :=
  ∀ k v rl, c_rls c !! k = Some v → dbRateLimits r !! k = Some rl →
  match c_phase c with
  | Copied curr => ∃ e, curr !! k = Some e ∧ rl_val e = rl_val rl
  | LessUnacked curr =>
      ∃ e, curr !! k = Some e ∧ rl_val e + reserved k (unacked r) ≤ rl_val rl
  | LessUnflushed curr => ∃ e, curr !! k = Some e ∧ rl_val e + held k r ≤ rl_val rl
  | Granted => held k r ≤ rl_val rl
  | Refused => True
  end.

Lemma taken_candidate c k v n : c !! k = Some v → taken c k n = n.
Proof. intros Hc. unfold taken. by rewrite decide_True by (rewrite Hc; eauto). Qed.

Lemma startCall_ok task rls r : call_ok (startCall task rls r) r.
Proof. intros k v rl _ Hrl. simpl. rewrite lookup_copy, Hrl. by eexists. Qed.

Lemma call_step_ok c r c' r' :
  map_Forall (λ _ v, 0 ≤ v) (c_rls c) →
  call_step (c, r) (c', r') → nonneg r → call_ok c r →
  c_rls c' = c_rls c ∧ dbRateLimits r' = dbRateLimits r ∧ nonneg r' ∧ call_ok c' r'.
Proof.
  intros Hpos Hstep Hn Hok. inversion Hstep; subst; clear Hstep; cbn [c_rls] in *.
  - by repeat split.
  - repeat split; try done. intros k v rl Hk Hrl. destruct (Hok k v rl Hk Hrl) as (e & He & Hv).
    simpl in *. rewrite subtractUnacked_lookup, He. eexists. split; [done|]. simpl.
    rewrite (taken_candidate _ _ v) by done. lia.
  - repeat split; try done. intros k v rl Hk Hrl. destruct (Hok k v rl Hk Hrl) as (e & He & Hv).
    simpl in *. unfold subtractUnflushed. rewrite subtractSet_lookup, He. eexists. split; [done|].
    simpl. rewrite (taken_candidate _ _ v) by done. unfold held. lia.
  - by repeat split.
  - assert (dbRateLimits (addToUnacked task rls r) = dbRateLimits r) as Hdb
      by (unfold addToUnacked; by case_decide).
    repeat split; [done|by apply nonneg_reserve|]. intros k v rl Hk Hrl. rewrite Hdb in Hrl.
    destruct (Hok k v rl Hk Hrl) as (e & He & Hv). simpl in *.
    pose proof (held_reserve k task rls r Hn) as Hh. rewrite Hk in Hh. simpl in Hh.
    assert (v ≤ rl_val e); [|lia]. eapply exceededScan_None; [done| |done].
    match goal with Ho : _ ≡ₚ map_to_list _ |- _ => rewrite Ho end. by apply elem_of_map_to_list.
Qed.

(** Acks move units from the reserved to the waiting ones, nacks drop them: neither makes a copy
    too generous, in any phase. *)
Lemma env_step_ok c r r' :
  dbRateLimits r' = dbRateLimits r →
  (∀ k, reserved k (unacked r') ≤ reserved k (unacked r)) → (∀ k, held k r' ≤ held k r) →
  call_ok c r → call_ok c r'.
Proof.
  intros Hdb Hres Hheld Hok k v rl Hk Hrl. rewrite Hdb in Hrl. specialize (Hok k v rl Hk Hrl).
  specialize (Hres k). specialize (Hheld k).
  destruct (c_phase c); [done| | |lia|done]; destruct Hok as (e & He & Hv); exists e;
    (split; [done|lia]).
Qed.

Lemma single_call_ok c r cs' r' :
  map_Forall (λ _ v, 0 ≤ v) (c_rls c) → nonneg r → call_ok c r →
  rtc limiter_step ([c], r) (cs', r') →
  ∃ c', cs' = [c'] ∧ c_rls c' = c_rls c ∧ nonneg r' ∧ call_ok c' r'.
Proof.
  intros Hpos Hn Hok Hrtc. remember ([c], r) as st eqn:Hst. remember (cs', r') as st' eqn:Hst'.
  revert c r Hst Hpos Hn Hok. induction Hrtc as [|? st1 ? Hstep _ IH];
    intros c r -> Hpos Hn Hok; [by simplify_eq; eauto|]. specialize (IH Hst').
  inversion Hstep as [i c0 c1 ? ? r1 Hi Hcall|task|task]; subst.
  - destruct i as [|i]; [|done]. injection Hi as <-.
    destruct (call_step_ok _ _ _ _ Hpos Hcall Hn Hok) as (Hrls & _ & Hn' & Hok').
    destruct (IH c1 r1 eq_refl) as (c2 & -> & Hc & H'); rewrite ?Hrls; eauto. exists c2.
    split_and!; [done|congruence|apply H'|apply H'].
  - apply (IH c _ eq_refl); [done|eapply nonneg_delete; [apply ack_unacked|done]|].
    apply (env_step_ok c r); [|intros k; rewrite ack_unacked; by apply reserved_drop
                         |intros k; by rewrite held_ack|done].
    unfold ack. by destruct (unacked r !! task).
  - apply (IH c _ eq_refl); [done|by eapply nonneg_delete|].
    apply (env_step_ok c r); [done|intros k; by apply reserved_drop| |done].
    intros k. unfold held. simpl. pose proof (reserved_drop k task r Hn). lia.
Qed.

(** A call of use that is granted while acks and nacks of other tasks run between its locked
    sections leaves, for every key it asked for that has a row, the reserved and the waiting units
    within the snapshot value; in particular the order of the two subtractions is right, because an
    ack in between can only make the call count units twice. *)
Theorem grant_within_limit task rls r r' k v rl :
  nonneg r → map_Forall (λ _ v, 0 ≤ v) rls →
  rtc limiter_step ([startCall task rls r], r) ([UseCall task rls Granted], r') →
  rls !! k = Some v → dbRateLimits r' !! k = Some rl →
  reserved k (unacked r') + units k (unflushed r') ≤ rl_val rl.
Proof.
  intros Hn Hpos Hrtc Hk Hrl.
  destruct (single_call_ok (startCall task rls r) _ _ _ Hpos Hn (startCall_ok _ _ _) Hrtc)
    as (c & [= <-] & _ & _ & Hok).
  exact (Hok k v rl Hk Hrl).
Qed.

(** ** Samples *)

Definition sampleRow (k : string) (v : Z) : rateLimit := RateLimitOf k v v "1 minute" (Some 60) None.

(** A limiter that knows one key with [v] units left. *)
Definition sampleLimiter (v : Z) : rateLimiter :=
  set_snapshot {["k" := sampleRow "k" v]} 0 (newRateLimiter None).

Lemma sampleLimiter_nonneg v : nonneg (sampleLimiter v).
Proof. intros t set k. simpl. by rewrite lookup_empty. Qed.

Definition askOne : gmap string Z := {["k" := 1]}.

Lemma askOne_order : [("k"%string, 1)] ≡ₚ map_to_list askOne.
Proof. unfold askOne. by rewrite map_to_list_singleton. Qed.

Lemma askOne_pos : map_Forall (λ _ v, 0 ≤ v) askOne.
Proof. apply map_Forall_singleton. lia. Qed.

(** The sections of call [i], when it is granted. *)
Lemma sample_copied task r cs i :
  cs !! i = Some (UseCall task askOne (Copied (copyDbRateLimits r))) →
  (∀ rl, copyDbRateLimits r !! "k" = Some rl → rl_pausedUntil rl = None) →
  limiter_step (cs, r) (<[i := UseCall task askOne
    (LessUnacked (subtractUnacked askOne (copyDbRateLimits r) r))]> cs, r).
Proof.
  intros Hi Hp. eapply step_call; [done|]. eapply (call_unacked _ _ _ 0); [apply askOne_order|].
  unfold pausedScan. cbn [foldl fst]. destruct (copyDbRateLimits r !! "k"%string) as [rl|] eqn:He; [|done].
  cbn. by rewrite (Hp _ eq_refl).
Qed.

Lemma grant_within_limit_witness :
  let r := sampleLimiter 1 in
  reserved "k" (unacked (addToUnacked 7 askOne r)) + units "k" (unflushed r) ≤ 1.
Proof.
  cbv zeta.
  apply (grant_within_limit 7 askOne (sampleLimiter 1) (addToUnacked 7 askOne (sampleLimiter 1))
           "k" 1 (sampleRow "k" 1)); [apply sampleLimiter_nonneg|apply askOne_pos| |done|done].
  eapply rtc_l; [apply (sample_copied 7 (sampleLimiter 1) _ 0); [done|by intros ? [= <-]]|].
  eapply rtc_l; [eapply (step_call 0); [done|apply call_unflushed]|].
  eapply rtc_l; [eapply (step_call 0); [done|eapply call_grant; [apply askOne_order|done]]|].
  apply rtc_refl.
Defined.

(** Two calls of use in flight at the same time, on one key with a single unit left, can both be
    granted: each copies the snapshot and subtracts the reservations before either adds its own, so
    the reserved units exceed the snapshot value. *)
Theorem concurrent_grants_exceed :
  ∃ r r', nonneg r ∧
    rtc limiter_step ([startCall 1 askOne r; startCall 2 askOne r], r)
      ([UseCall 1 askOne Granted; UseCall 2 askOne Granted], r') ∧
    (rl_val <$> dbRateLimits r' !! "k") = Some 1 ∧ reserved "k" (unacked r') = 2.
Proof.
  set (r := sampleLimiter 1). exists r, (addToUnacked 2 askOne (addToUnacked 1 askOne r)).
  split; [apply sampleLimiter_nonneg|]. split; [|by split].
  eapply rtc_l; [apply (sample_copied 1 r _ 0); [done|by intros ? [= <-]]|].
  eapply rtc_l; [apply (sample_copied 2 r _ 1); [done|by intros ? [= <-]]|].
  eapply rtc_l; [eapply (step_call 0); [done|apply call_unflushed]|].
  eapply rtc_l; [eapply (step_call 0); [done|eapply call_grant; [apply askOne_order|done]]|].
  eapply rtc_l; [eapply (step_call 1); [done|apply call_unflushed]|].
  eapply rtc_l; [eapply (step_call 1); [done|eapply call_grant; [apply askOne_order|done]]|].
  apply rtc_refl.
Qed.

(** ** Pauses *)

(** Go ranges over every entry of a map once. *)
Definition ranges (E : env) : Prop := ∀ n m, range E n m ≡ₚ map_to_list m.

Definition monotone (E : env) : Prop := ∀ i j, (i ≤ j)%nat → clock E i ≤ clock E j.

(** [p] is the deadline of a key of [l] that is after [now]. *)
Definition pausedAt (now : Z) (curr : rateLimitSet) (l : list (string * Z)) (p : Z) : Prop :=
  ∃ k v, (k, v) ∈ l ∧ curr !! k ≫= rl_pausedUntil = Some p ∧ now < p.

Lemma pausedAt_snoc now curr kv l p :
  pausedAt now curr (l ++ [kv]) p ↔
  pausedAt now curr l p ∨ (curr !! kv.1 ≫= rl_pausedUntil = Some p ∧ now < p).
Proof.
  unfold pausedAt. destruct kv as [k v]. simpl. setoid_rewrite elem_of_app.
  setoid_rewrite list_elem_of_singleton. naive_solver.
Qed.

Lemma pausedScan_spec now curr l :
  match pausedScan now curr l with
  | None => ∀ p, ¬ pausedAt now curr l p
  | Some (_, _, m) => pausedAt now curr l m ∧ ∀ p, pausedAt now curr l p → p ≤ m
  end.
Proof.
  unfold pausedScan. induction l as [|[k v] l IH] using rev_ind.
  { simpl. intros p (? & ? & ? & _). set_solver. }
  rewrite foldl_snoc. destruct (foldl _ _ l) as [[[k0 v0] best]|]; cbn [fst snd];
    destruct (curr !! k ≫= rl_pausedUntil) as [p|] eqn:Hp; unfold After;
    repeat case_bool_decide; setoid_rewrite pausedAt_snoc; cbn [fst]; rewrite Hp; try naive_solver lia.
  destruct IH as [_ Hall]. split; [by right|]. intros p0 [H0'|[[= ->] _]]; [|lia].
  specialize (Hall _ H0'). lia.
Qed.

(** In the copy of a snapshot, the paused keys in iteration order are those of the snapshot. *)
Lemma pausedAt_snapshot E now rls r n p :
  ranges E →
  pausedAt now (copyDbRateLimits r) (range E n rls) p ↔
  ∃ k v rl, rls !! k = Some v ∧ dbRateLimits r !! k = Some rl ∧
            rl_pausedUntil rl = Some p ∧ now < p.
Proof.
  unfold ranges. intros Hrange. split.
  - intros (k & v & Hk & Hp & Hlt). rewrite Hrange, elem_of_map_to_list in Hk.
    rewrite lookup_copy in Hp. destruct (dbRateLimits r !! k) as [rl|] eqn:Hrl; [|done].
    by exists k, v, rl.
  - intros (k & v & rl & Hk & Hrl & Hp & Hlt). exists k, v.
    by rewrite Hrange, elem_of_map_to_list, lookup_copy, Hrl.
Qed.

(** Use reports a pause over an exhausted window: if a key asked for is paused in the snapshot,
    the task is refused, nothing is reserved, and both deadlines reported are the latest pause among
    its keys, whatever the order in which the map is ranged over; if none is paused, no pause is
    reported. *)
Theorem pause_wins E task rls r :
  ranges E →
  let '(res, r') := useSnapshot E task rls r in
  let paused p := ∃ k v rl, rls !! k = Some v ∧ dbRateLimits r !! k = Some rl ∧
                            rl_pausedUntil rl = Some p ∧ clock E (tick r) < p in
  match pausedUntil res with
  | Some m => succeeded res = false ∧ unacked r' = unacked r ∧ res_nextRefillAt res = Some m ∧
              paused m ∧ ∀ p, paused p → p ≤ m
  | None => ∀ p, ¬ paused p
  end.
Proof.
  intros Hrange. unfold useSnapshot, Now, Range. cbn [tick next_tick].
  pose proof (pausedScan_spec (clock E (tick r)) (copyDbRateLimits r) (range E (S (tick r)) rls))
    as Hs.
  pose proof (λ p, pausedAt_snapshot E (clock E (tick r)) rls r (S (tick r)) p Hrange) as Hiff.
  destruct (pausedScan _ _ _) as [[[k v] m]|].
  - simpl. rewrite <- Hiff. destruct Hs as [Hm Hall]. repeat split; [done|].
    intros p Hp. apply Hall. by apply Hiff.
  - destruct (exceededScan _ _) as [[[]]|]; simpl; intros p Hp; by apply (Hs p), Hiff.
Qed.

(** A sample environment: a clock that advances by one per reading, a database that answers with
    the given rows. *)
Definition sampleEnv (rows : list limitRow) : env :=
  Env Z.of_nat (λ _ _ _, Some (rows, Some 1000000000)) (λ _, ∅) (λ _ m, map_to_list m).

Lemma sampleEnv_ranges rows : ranges (sampleEnv rows).
Proof. intros n m. reflexivity. Qed.

Lemma sampleEnv_monotone rows : monotone (sampleEnv rows).
Proof. intros i j Hij. simpl. lia. Qed.

Definition pausedLimiter : rateLimiter :=
  set_snapshot {["k" := RateLimitOf "k" 0 5 "1 minute" (Some 60) (Some 40)]} 30
    (newRateLimiter None).

Lemma pause_wins_witness :
  let res := (useSnapshot (sampleEnv []) 7 askOne pausedLimiter).1 in
  pausedUntil res = Some 40 ∧ succeeded res = false.
Proof.
  pose proof (pause_wins (sampleEnv []) 7 askOne pausedLimiter (sampleEnv_ranges [])) as H.
  cbv zeta. destruct (useSnapshot (sampleEnv []) 7 askOne pausedLimiter) as [res r'] eqn:He.
  assert (pausedUntil res = Some 40) as Hp.
  { vm_compute in He. by injection He as <- _. }
  cbv zeta in H. rewrite Hp in H. split; [exact Hp|apply H].
Defined.

(** *** A call on its own *)

Lemma useSnapshot_grant E task rls r res r' :
  ranges E → nonneg r → map_Forall (λ _ v, 0 ≤ v) rls →
  useSnapshot E task rls r = (res, r') → succeeded res = true →
  dbRateLimits r' = dbRateLimits r ∧ lastFlushAt r' = lastFlushAt r ∧
  ∀ k v rl, rls !! k = Some v → dbRateLimits r !! k = Some rl →
    held k r' ≤ rl_val rl ∧
    ∀ p, rl_pausedUntil rl = Some p → p ≤ clock E (tick r).
Proof.
  intros Hrange Hn Hpos. unfold useSnapshot, Now, Range. cbn [tick next_tick].
  pose proof (pausedScan_spec (clock E (tick r)) (copyDbRateLimits r) (range E (S (tick r)) rls))
    as Hp.
  destruct (pausedScan _ _ _) as [[[]]|]; [by intros [= <- <-]|].
  set (r2 := next_tick (next_tick r)) in *.
  destruct (exceededScan _ _) as [[[]]|] eqn:Hx; [by intros [= <- <-]|]. intros [= _ <-] _.
  assert (dbRateLimits (addToUnacked task rls (next_tick r2)) = dbRateLimits r ∧
          lastFlushAt (addToUnacked task rls (next_tick r2)) = lastFlushAt r) as [Hdb Hf]
    by (unfold addToUnacked; by case_decide).
  split_and!; [done|done|]. intros k v rl Hk Hrl. split.
  - pose proof (held_reserve k task rls (next_tick r2) Hn) as Hh. rewrite Hk in Hh.
    assert (v ≤ rl_val rl - held k r2) as Hv; [|unfold held in *; simpl in *; lia].
    pose proof (subtractSet_lookup rls (unflushed r2)
                  (subtractUnacked rls (copyDbRateLimits r) r2) k) as Hl.
    rewrite subtractUnacked_lookup, lookup_copy, Hrl in Hl. simpl in Hl.
    rewrite !(taken_candidate _ _ v) in Hl by done.
    eapply exceededScan_None in Hx; [|rewrite (Hrange _ _); by apply elem_of_map_to_list|exact Hl].
    unfold held. simpl in *. lia.
  - intros p Hrp. destruct (Z.le_gt_cases p (clock E (tick r))); [done|]. exfalso.
    apply (Hp p), pausedAt_snapshot; [done|]. by exists k, v, rl.
Qed.

Lemma expired_scan (f : string → option Z) (l : list (string * Z)) :
  match foldl (λ found kv,
          match f kv.1 with
          | None => found
          | Some p => match found with
                      | None => Some p
                      | Some best => Some (if After p best then p else best)
                      end
          end) None l with
  | None => ∀ kv, kv ∈ l → f kv.1 = None
  | Some t => ∃ kv, kv ∈ l ∧ f kv.1 = Some t
  end.
Proof.
  induction l as [|[k v] l IH] using rev_ind; [simpl; set_solver|]. rewrite foldl_snoc.
  destruct (foldl _ _ l) as [best|]; cbn [fst]; destruct (f k) as [p|] eqn:Hf.
  - destruct IH as (kv & Hin & Hkv). destruct (After p best);
      [exists (k, v)|exists kv]; set_solver.
  - destruct IH as (kv & Hin & Hkv). exists kv. set_solver.
  - exists (k, v). set_solver.
  - intros kv [Hin|Hin]%elem_of_app; [by apply IH|]. apply list_elem_of_singleton in Hin. by subst.
Qed.

(** After the refresh, a deadline that has passed had passed when the snapshot was read, unless it
    passed since the refresh began. *)
Lemma refreshPauses_fresh E rls r r' k v rl p :
  ranges E → monotone E → refreshPauses E rls r = (true, r') →
  rls !! k = Some v → dbRateLimits r' !! k = Some rl → rl_pausedUntil rl = Some p →
  p ≤ lastFlushAt r' ∨ clock E (tick r) < p.
Proof.
  intros Hrange Hmono. unfold refreshPauses, pauseExpiredSinceFlush, Now, Range.
  cbn [tick next_tick]. set (r2 := next_tick (next_tick r)).
  pose proof (expired_scan (expiredPause (clock E (tick r)) r2) (range E (S (tick r)) rls)) as Hs.
  destruct (foldl _ _ _) as [t|].
  - destruct Hs as (kv & _ & Ht). intros Hr _ _ _.
    assert (lastFlushAt r2 < t) as Hlt.
    { unfold expiredPause in Ht. destruct (dbRateLimits r2 !! kv.1); simpl in Ht; [|done].
      destruct (rl_pausedUntil _); simpl in Ht; [|done]. unfold After in Ht.
      repeat case_bool_decide; simpl in Ht; simplify_eq; done. }
    destruct (refresh_reads E t r2 r' Hlt Hr) as [_ _ (n & Hn & ->) _ _].
    destruct (Z.le_gt_cases p (clock E n)); [by left|right].
    assert (clock E (tick r) ≤ clock E n); [apply Hmono; simpl in Hn; lia|lia].
  - intros [= <-] Hk Hrl Hp. specialize (Hs (k, v)). rewrite (Hrange _ _) in Hs.
    specialize (Hs (proj2 (elem_of_map_to_list _ _ _) Hk)).
    unfold expiredPause in Hs. cbn [fst] in Hs. rewrite Hrl in Hs. simpl in Hs. rewrite Hp in Hs.
    simpl in Hs. unfold After in Hs. simpl. repeat case_bool_decide; simpl in Hs; (done || lia).
Qed.

(** A call of use that succeeds on its own leaves, for every key asked for that has a row, the
    reserved and the waiting units within the snapshot value, and it never acts on a stale pause: a
    pause deadline on such a key has passed, and it had already passed when the snapshot was read
    unless it passed during the call. *)
Theorem granted_use E task rls r res r' k v rl :
  ranges E → monotone E → nonneg r → map_Forall (λ _ v, 0 ≤ v) rls →
  use E task rls r = (res, r') → succeeded res = true →
  rls !! k = Some v → dbRateLimits r' !! k = Some rl →
  reserved k (unacked r') + units k (unflushed r') ≤ rl_val rl ∧
  ∀ p, rl_pausedUntil rl = Some p →
    p ≤ clock E (tick r') ∧ (p ≤ lastFlushAt r' ∨ clock E (tick r) < p).
Proof.
  intros Hrange Hmono Hn Hpos Huse Hs Hk Hrl.
  destruct (use_cases E task rls r) as (r1 & H1 & [He|(r0 & H0 & Href & He)]);
    rewrite He in Huse; [by injection Huse as <- _|].
  assert (nonneg r1) as Hn1 by (intros t set k'; rewrite (settled_unacked _ _ H1); apply Hn).
  destruct (useSnapshot_grant E task rls r1 res r' Hrange Hn1 Hpos Huse Hs) as (Hdb & Hf & Hg).
  rewrite Hdb in Hrl. destruct (Hg k v rl Hk Hrl) as [Hheld Hpast]. split; [exact Hheld|].
  intros p Hp. specialize (Hpast p Hp).
  pose proof (useSnapshot_cases E task rls r1) as Hc. rewrite Huse, Hs in Hc.
  destruct Hc as (r2 & Hk2 & Hr'). rewrite Hf. split.
  - assert ((tick r1 ≤ tick r')%nat) as Ht.
    { rewrite Hr'. pose proof (kept_tick _ _ Hk2). unfold addToUnacked. by case_decide. }
    specialize (Hmono _ _ Ht). lia.
  - destruct (refreshPauses_fresh E rls r0 r1 k v rl p) as [|Hlt]; try done; [by left|right].
    pose proof (Hmono _ _ (settled_tick _ _ H0)). lia.
Qed.

Lemma granted_use_witness :
  let '(res, r') := use (sampleEnv []) 7 askOne (sampleLimiter 1) in
  succeeded res = true ∧ reserved "k" (unacked r') + units "k" (unflushed r') ≤ 1.
Proof.
  destruct (use (sampleEnv []) 7 askOne (sampleLimiter 1)) as [res r'] eqn:He.
  assert (succeeded res = true) as Hs by (vm_compute in He; by injection He as <- _).
  assert (dbRateLimits r' !! "k"%string = Some (sampleRow "k" 1)) as Hrl
    by (vm_compute in He; by injection He as _ <-).
  split; [exact Hs|].
  apply (granted_use (sampleEnv []) 7 askOne (sampleLimiter 1) res r' "k" 1 (sampleRow "k" 1)
           (sampleEnv_ranges _) (sampleEnv_monotone _) (sampleLimiter_nonneg 1) askOne_pos He Hs
           eq_refl Hrl).
Defined.

(** A flush that the database refuses changes neither the snapshot nor the units waiting to be
    charged nor the refill deadline, charges nothing, and keeps every definition that still differs
    from the snapshot, except that one added while the flush was waiting for the database wins. *)
Theorem failed_flush_loses_nothing E sb r r' :
  flush E sb r = (false, r') →
  unflushed r' = unflushed r ∧ dbRateLimits r' = dbRateLimits r ∧ unacked r' = unacked r ∧
  nextRefillAt r' = nextRefillAt r ∧ lastFlushAt r' = lastFlushAt r ∧ charges r' = charges r ∧
  ∃ n, ∀ k, pendingDefinitions r' !! k =
    match arrivals E n !! k with
    | Some d => Some d
    | None => match pendingDefinitions r !! k with
              | Some d => if unchanged (dbRateLimits r) k d then None else Some d
              | None => None
              end
    end.
Proof.
  intros Hf. pose proof (flush_cases E sb r) as Hc. rewrite Hf in Hc.
  destruct Hc as [[Ha Hu Hdb Hl Hn Hch _]|[? _]]; [|done]. repeat split; try done.
  assert (∃ r0, pendingDefinitions r0 = ∅ ∧
    readAndCharge E (takeChangedDefinitions r).1 r0 = (false, r')) as (r0 & Hp0 & Hread).
  { revert Hf. unfold flush. cbn [takeChangedDefinitions fst].
    assert (∀ r0, pendingDefinitions r0 = ∅ → readAndCharge E (takeChangedDefinitions r).1 r0 =
      (false, r') → ∃ r0, pendingDefinitions r0 = ∅ ∧
      readAndCharge E (takeChangedDefinitions r).1 r0 = (false, r')) as Hex by eauto.
    destruct sb as [t|]; [destruct (negb _); [done|by apply Hex]|].
    destruct (nextRefillAt (set_pendingDefinitions ∅ r)); [|by apply Hex]. case_decide; [|by apply Hex].
    unfold Now. destruct (After _ _); [done|by apply Hex]. }
  pose proof (readAndCharge_cases E (takeChangedDefinitions r).1 r0) as Hc. rewrite Hread in Hc.
  destruct Hc as [_ ->]. exists (S (tick r0)). intros k. rewrite Hp0, (right_id_L ∅ (∪)).
  rewrite lookup_union. destruct (arrivals E _ !! k); simpl; [by rewrite union_Some_l|].
  rewrite (left_id_L None _), map_lookup_filter.
  destruct (pendingDefinitions r !! k) as [d|]; simpl; [|done].
  by destruct (unchanged (dbRateLimits r) k d).
Qed.

Lemma failed_flush_loses_nothing_witness :
  let E := Env Z.of_nat (λ _ _ _, None) (λ _, ∅) (λ _ m, map_to_list m) in
  let r := addDefinitions {["d" := MkDefinition 3 "1 second"]}
             (ack 7 (addToUnacked 7 askOne (sampleLimiter 4))) in
  let r' := (flushToDatabase E r).2 in
  units "k" (unflushed r') = 1 ∧ charges r' = [] ∧
  pendingDefinitions r' !! "d"%string = Some (MkDefinition 3 "1 second").
Proof.
  intros E r r'.
  destruct (failed_flush_loses_nothing E None r r') as (Hu & _ & _ & _ & _ & Hc & _).
  { subst r'. unfold flushToDatabase. reflexivity. }
  rewrite Hu, Hc. split_and!; reflexivity.
Defined.

(** The rows are looked for before the refill: when the flush of a due refill returns a snapshot
    in which the key has no row any more, the call is granted without any limit on that key, while a
    key that had no row to begin with refuses it. *)
Theorem vanished_row_grants :
  let due := set_nextRefillAt (Some 0) (sampleLimiter 0) in
  let '(res, r') := use (sampleEnv []) 7 askOne due in
  succeeded res = true ∧ dbRateLimits r' = ∅ ∧ reserved "k" (unacked r') = 1 ∧
  succeeded (use (sampleEnv []) 7 askOne r').1 = false.
Proof. vm_compute. by split_and!. Qed.

End RateLimit.
