(* ===== verification/Workers.v ===== *)
(** Workers of a tenant: label affinity (src/pkg/scheduling/v1/worker.go) and the ranking of the
    workers of an action for a queue item (rankWorkerIds of src/pkg/scheduling/v1/scheduler.go),
    with the theorems that say which workers a ranking keeps and in which order. *)

From S2P Require Import Prelude.

Module Workers.

Open Scope Z_scope.

(** ** Data *)

(** A UUID, as the number its sixteen bytes spell; [bytes.Compare] is then the order of numbers. *)
Notation uuid := Z.

Inductive WorkerLabelComparator :=
  | EQUAL | NOTEQUAL | GREATERTHAN | GREATERTHANOREQUAL | LESSTHAN | LESSTHANOREQUAL.

(** Values of the database columns are absent or present ([pgtype.Text], [pgtype.Int4]). *)
Record workerLabel := WorkerLabel { wl_key : string; wl_str : option string; wl_int : option Z }.

Record desiredLabel := DesiredLabel {
  dl_key : string;
  dl_str : option string;
  dl_int : option Z;
  dl_required : bool;
  dl_weight : Z;
  dl_comparator : WorkerLabelComparator;
}.

Record worker := Worker {
  ID : uuid;
  Name : string;
  Labels : list workerLabel;
  TotalSlotsByType : gmap string Z;
}.

Inductive V1StickyStrategy := StickyNONE | StickySOFT | StickyHARD.

#[global] Instance sticky_eq_dec : EqDecision V1StickyStrategy.
Proof. solve_decision. Defined.

(** The part of a queue item the scheduler reads. *)
Record queueItem := QueueItem {
  qi_ID : Z;
  qi_TaskID : Z;
  qi_StepID : uuid;
  qi_ActionID : string;
  qi_Queue : string;
  qi_Sticky : V1StickyStrategy;
  qi_DesiredWorkerID : option uuid;
  qi_ScheduleTimeoutAt : Z;
  qi_Priority : Z;
  qi_RetryCount : Z;
  qi_TaskInsertedAt : option Z;
  qi_StepTimeout : string;
  (** the raw JSON column; empty when there is none *)
  qi_DesiredWorkerLabel : string;
  qi_BatchKey : option string;
}.

(** ** Label affinity *)

(** Both present and related. *)
Definition both {A} (rel : A → A → bool) (desired actual : option A) : bool :=
  match desired, actual with Some d, Some a => rel d a | _, _ => false end.

Definition conditionMet (d : desiredLabel) (w : workerLabel) : bool :=
  match dl_comparator d with
  | EQUAL => both (λ d a, bool_decide (d = a)) (dl_str d) (wl_str w) ||
             both (λ d a, bool_decide (d = a)) (dl_int d) (wl_int w)
  | NOTEQUAL => both (λ d a, bool_decide (d ≠ a)) (dl_str d) (wl_str w) ||
                both (λ d a, bool_decide (d ≠ a)) (dl_int d) (wl_int w)
  | GREATERTHAN => both (λ d a, bool_decide (d < a)) (dl_int d) (wl_int w)
  | LESSTHAN => both (λ d a, bool_decide (a < d)) (dl_int d) (wl_int w)
  | GREATERTHANOREQUAL => both (λ d a, bool_decide (d ≤ a)) (dl_int d) (wl_int w)
  | LESSTHANOREQUAL => both (λ d a, bool_decide (a ≤ d)) (dl_int d) (wl_int w)
  end.

(** The inner loop stops at the first label of the worker with the desired key. *)
Fixpoint findLabel (key : string) (labels : list workerLabel) : option workerLabel :=
  match labels with
  | [] => None
  | w :: rest => if bool_decide (key = wl_key w) then Some w else findLabel key rest
  end.

Fixpoint weightLoop (w : worker) (totalWeight : Z) (s : list desiredLabel) : Z :=
  match s with
  | [] => totalWeight
  | d :: rest =>
      match findLabel (dl_key d) (Labels w) with
      | Some l =>
          if conditionMet d l then weightLoop w (totalWeight + dl_weight d) rest
          else if dl_required d then -1 else weightLoop w totalWeight rest
      | None => if dl_required d then -1 else weightLoop w totalWeight rest
      end
  end.

Definition computeWeight (w : worker) (s : list desiredLabel) : Z := weightLoop w 0 s.

(** ** Ranking *)

Record rankedWorker := RankedWorker { rw_id : uuid; rw_rank : Z }.

(** The rank of one worker; [None] skips it. *)
Definition rankOf (workers : gmap uuid worker) (qi : queueItem) (labels : list desiredLabel)
    (id : uuid) : option Z :=
  match qi_Sticky qi with
  | StickyHARD =>
      match qi_DesiredWorkerID qi with
      | Some d => if bool_decide (id ≠ d) then None else Some 0
      | None => Some 0
      end
  | StickySOFT =>
      match qi_DesiredWorkerID qi with
      | Some d => if bool_decide (id = d) then Some 1 else Some 0
      | None => Some 0
      end
  | StickyNONE =>
      match labels with
      | [] => Some 0
      | _ => match workers !! id with
             | None => None
             | Some w => let rank := computeWeight w labels in
                         if bool_decide (rank < 0) then None else Some rank
             end
      end
  end.

Definition rankAll (workers : gmap uuid worker) (qi : queueItem) (labels : list desiredLabel)
    (ids : list uuid) : list rankedWorker :=
  omap (λ id, RankedWorker id <$> rankOf workers qi labels id) ids.

(** [slices.SortStableFunc]: equal elements keep their order. *)
Fixpoint insertStable {A} (cmp : A → A → Z) (x : A) (l : list A) : list A :=
  match l with
  | [] => [x]
  | y :: rest => if bool_decide (cmp x y ≤ 0) then x :: l else y :: insertStable cmp x rest
  end.

Definition SortStableFunc {A} (cmp : A → A → Z) (l : list A) : list A :=
  foldr (insertStable cmp) [] l.

Definition byRankDesc (left right : rankedWorker) : Z := rw_rank right - rw_rank left.

(** The number of leading elements with the rank [top]. *)
Fixpoint topRun (top : Z) (l : list rankedWorker) : nat :=
  match l with
  | [] => 0
  | x :: rest => if bool_decide (rw_rank x = top) then S (topRun top rest) else 0
  end.

Definition rankWorkerIds (workers : gmap uuid worker) (qi : queueItem) (labels : list desiredLabel)
    (workerIds : list uuid) : list uuid * nat :=
  let ranked := rankAll workers qi labels workerIds in
  match ranked with
  | [] => ([], 0%nat)
  | first :: rest =>
      if forallb (λ x, bool_decide (rw_rank x = rw_rank first)) rest
      then (rw_id <$> ranked, length ranked)
      else let sorted := SortStableFunc byRankDesc ranked in
           (rw_id <$> sorted, match sorted with x :: _ => topRun (rw_rank x) sorted | [] => 0%nat end)
  end.

(** ** Label affinity: what the weight means *)

(** The worker has the label and it satisfies the condition. *)
Definition meets (w : worker) (d : desiredLabel) : bool :=
  match findLabel (dl_key d) (Labels w) with Some l => conditionMet d l | None => false end.

Definition metWeight (w : worker) (s : list desiredLabel) : Z :=
  foldr (λ d acc, (if meets w d then dl_weight d else 0) + acc) 0 s.

Lemma weightLoop_spec w t s :
  weightLoop w t s =
  if forallb (λ d, meets w d || negb (dl_required d)) s then t + metWeight w s else -1.
Proof.
  revert t. induction s as [|d s IH]; intros t; simpl; [lia|].
  unfold meets at 1 3. destruct (findLabel _ _); [destruct (conditionMet _ _)|]; simpl.
  - rewrite IH. destruct (forallb _ s); [lia|done].
  - destruct (dl_required d); [done|]. rewrite IH. simpl. by destruct (forallb _ s).
  - destruct (dl_required d); [done|]. rewrite IH. simpl. by destruct (forallb _ s).
Qed.

(** ** Stable sort *)

Section stable.
Context {A : Type} (cmp : A → A → Z) `{!GoCompare cmp}.

Lemma insertStable_perm x l : insertStable cmp x l ≡ₚ x :: l.
Proof.
  induction l as [|y l IH]; simpl; [done|]. case_bool_decide; [done|]. rewrite IH.
  apply Permutation_swap.
Qed.

Lemma SortStableFunc_perm l : SortStableFunc cmp l ≡ₚ l.
Proof.
  induction l as [|x l IH]; [done|]. unfold SortStableFunc in *. cbn [foldr].
  by rewrite insertStable_perm, IH.
Qed.

Lemma insertStable_sorted x l :
  StronglySorted (cmp_le cmp) l → StronglySorted (cmp_le cmp) (insertStable cmp x l).
Proof.
  induction 1 as [|y l Hs IH Hall]; simpl; [by repeat constructor|].
  case_bool_decide as Hxy.
  - constructor; [by constructor|]. constructor; [done|].
    eapply Forall_impl; [exact Hall|]. intros z Hz. by eapply gc_trans.
  - constructor; [done|]. rewrite insertStable_perm. constructor; [|done].
    unfold cmp_le. apply (gc_total cmp). lia.
Qed.

Lemma SortStableFunc_sorted l : StronglySorted (cmp_le cmp) (SortStableFunc cmp l).
Proof. induction l; simpl; [constructor|by apply insertStable_sorted]. Qed.

(** Elements that compare equal keep their order. *)
Lemma insertStable_stable (P : A → Prop) `{!∀ a, Decision (P a)} x l :
  (∀ a b, P a → P b → cmp a b = 0) →
  filter P (insertStable cmp x l) = filter P (x :: l).
Proof.
  intros HP. induction l as [|y l IH]; simpl; [done|]. case_bool_decide as Hxy; [done|].
  rewrite !filter_cons. rewrite filter_cons in IH. rewrite IH.
  destruct (decide (P x)), (decide (P y)); try done. rewrite (HP x y) in Hxy by done. lia.
Qed.

Lemma SortStableFunc_stable (P : A → Prop) `{!∀ a, Decision (P a)} l :
  (∀ a b, P a → P b → cmp a b = 0) → filter P (SortStableFunc cmp l) = filter P l.
Proof.
  intros HP. induction l as [|x l IH]; [done|]. unfold SortStableFunc in *. cbn [foldr].
  rewrite insertStable_stable by done. rewrite !filter_cons, IH. done.
Qed.

End stable.

#[global] Instance byRankDesc_ok : GoCompare byRankDesc.
Proof. unfold byRankDesc. split; intros; simpl in *; lia. Qed.

(** ** Ranking: which workers, in which order *)

Section ranking.
Context (workers : gmap uuid worker) (qi : queueItem) (labels : list desiredLabel).

Definition topOf (l : list rankedWorker) : nat :=
  match l with x :: _ => topRun (rw_rank x) l | [] => 0%nat end.

Lemma topRun_all t l : Forall (λ x, rw_rank x = t) l → topRun t l = length l.
Proof. induction 1; simpl; [done|]. rewrite bool_decide_true by done. by f_equal. Qed.

Lemma equal_ranks_sorted t l :
  Forall (λ x, rw_rank x = t) l → StronglySorted (cmp_le byRankDesc) l.
Proof.
  induction 1 as [|x l Hx Hl IH]; constructor; [done|].
  eapply Forall_impl; [exact Hl|]. intros y Hy. simpl in *. unfold cmp_le, byRankDesc. lia.
Qed.

Lemma sorted_lookup_rank l i j x y :
  StronglySorted (cmp_le byRankDesc) l → (i < j)%nat → l !! i = Some x → l !! j = Some y →
  rw_rank y ≤ rw_rank x.
Proof.
  intros Hs. revert i j. induction Hs as [|z l Hs IH Hall]; intros i j Hij Hi Hj; [done|].
  destruct j as [|j]; [lia|]. simpl in Hj. destruct i as [|i]; simpl in Hi;
    [|by apply (IH i j); [lia|..]].
  injection Hi as ->. eapply Forall_lookup in Hall; [|exact Hj].
  unfold cmp_le, byRankDesc in Hall. lia.
Qed.

(** Both branches produce a stable sort of the ranked workers. *)
Lemma rankWorkerIds_sorts ids :
  ∃ sorted, rankWorkerIds workers qi labels ids = (rw_id <$> sorted, topOf sorted) ∧
    sorted ≡ₚ rankAll workers qi labels ids ∧ StronglySorted (cmp_le byRankDesc) sorted ∧
    ∀ n, filter (λ x, rw_rank x = n) sorted =
         filter (λ x, rw_rank x = n) (rankAll workers qi labels ids).
Proof.
  unfold rankWorkerIds. destruct (rankAll _ _ _ _) as [|first rest].
  { exists []. repeat split; done || constructor. }
  destruct (forallb _ rest) eqn:Hall.
  - exists (first :: rest). apply Is_true_true_2, forallb_True in Hall.
    assert (Forall (λ x, rw_rank x = rw_rank first) (first :: rest)) as Heq.
    { constructor; [done|]. eapply Forall_impl; [exact Hall|]. intros x Hx. simpl in Hx.
      by apply bool_decide_unpack in Hx. }
    repeat split; try done.
    + unfold topOf. by rewrite topRun_all.
    + by apply (equal_ranks_sorted (rw_rank first)).
  - exists (SortStableFunc byRankDesc (first :: rest)). repeat split.
    + apply SortStableFunc_perm.
    + apply (SortStableFunc_sorted _).
    + intros n. apply SortStableFunc_stable. intros a b Ha Hb. unfold byRankDesc. lia.
Qed.

Lemma rankAll_elem x ids :
  x ∈ rankAll workers qi labels ids ↔
  rw_id x ∈ ids ∧ rankOf workers qi labels (rw_id x) = Some (rw_rank x).
Proof.
  unfold rankAll. rewrite list_elem_of_omap. split.
  - intros (id & Hid & Hx). apply fmap_Some in Hx as (r & Hr & ->). done.
  - intros [Hid Hr]. exists (rw_id x). split; [done|]. rewrite Hr. by destruct x.
Qed.

Lemma rankAll_ids ids :
  rw_id <$> rankAll workers qi labels ids =
  filter (λ id, is_Some (rankOf workers qi labels id)) ids.
Proof.
  induction ids as [|id ids IH]; [done|]. unfold rankAll in *. cbn [omap list_omap].
  rewrite filter_cons. destruct (rankOf workers qi labels id) eqn:Hr; cbn.
  - rewrite decide_True by eauto. f_equal. apply IH.
  - rewrite decide_False by (intros [? ?]; done). apply IH.
Qed.

Lemma ranked_filter n (l : list rankedWorker) :
  (∀ x, x ∈ l → rankOf workers qi labels (rw_id x) = Some (rw_rank x)) →
  filter (λ id, rankOf workers qi labels id = Some n) (rw_id <$> l) =
  rw_id <$> filter (λ x, rw_rank x = n) l.
Proof.
  induction l as [|x l IH]; intros Hl; [done|]. rewrite fmap_cons, !filter_cons.
  rewrite IH by (intros y Hy; apply Hl; by constructor). rewrite (Hl x) by constructor.
  destruct (decide (rw_rank x = n)) as [->|Hn].
  - rewrite decide_True by done. done.
  - by rewrite decide_False by congruence.
Qed.

Lemma eligible_filter n (ids : list uuid) :
  filter (λ id, rankOf workers qi labels id = Some n)
    (filter (λ id, is_Some (rankOf workers qi labels id)) ids) =
  filter (λ id, rankOf workers qi labels id = Some n) ids.
Proof.
  rewrite list_filter_filter. apply list_filter_iff. intros id. split; [by intros []|].
  intros ->. eauto.
Qed.

Lemma topRun_lookup t l i x :
  StronglySorted (cmp_le byRankDesc) l → Forall (λ y, rw_rank y ≤ t) l →
  l !! i = Some x → (i < topRun t l)%nat ↔ rw_rank x = t.
Proof.
  intros Hs. revert i. induction Hs as [|y l Hs IH Hall]; intros i Ht Hi; [done|].
  apply Forall_cons in Ht as [Hy Ht]. simpl. case_bool_decide as Hyt.
  - destruct i as [|i]; simpl in Hi; [simplify_eq; split; [done|lia]|].
    rewrite <- (IH i Ht Hi). lia.
  - split; [lia|]. intros Hx. exfalso. destruct i as [|i]; simpl in Hi; [by simplify_eq|].
    eapply Forall_lookup in Hall; [|exact Hi]. unfold cmp_le, byRankDesc in Hall. lia.
Qed.

End ranking.

(** The ranking of an action's workers for a queue item keeps exactly the eligible workers (for
    a hard sticky item the desired worker, with labels the workers that meet every required label),
    lists them by falling rank with ties in their given order, and the count it returns is the
    length of the prefix of workers of the highest rank. *)
Theorem ranking_correct workers qi labels ids :
  let '(out, top) := rankWorkerIds workers qi labels ids in
  let rank := rankOf workers qi labels in
  out ≡ₚ filter (λ id, is_Some (rank id)) ids ∧
  (∀ i j a b, (i < j)%nat → out !! i = Some a → out !! j = Some b →
     default 0 (rank b) ≤ default 0 (rank a)) ∧
  (∀ n, filter (λ id, rank id = Some n) out = filter (λ id, rank id = Some n) ids) ∧
  (∀ i a, out !! i = Some a →
     (i < top)%nat ↔ ∀ b, b ∈ out → default 0 (rank b) ≤ default 0 (rank a)).
Proof.
  destruct (rankWorkerIds_sorts workers qi labels ids) as (l & -> & Hperm & Hsort & Hstable).
  cbv zeta.
  assert (∀ x, x ∈ l → rankOf workers qi labels (rw_id x) = Some (rw_rank x)) as Hrank.
  { intros x Hx. rewrite Hperm in Hx. by apply rankAll_elem in Hx as [_ ?]. }
  split_and!.
  - rewrite Hperm. by rewrite rankAll_ids.
  - intros i j a b Hij Ha Hb. apply list_lookup_fmap_Some in Ha as (x & -> & Hx).
    apply list_lookup_fmap_Some in Hb as (y & -> & Hy).
    rewrite !Hrank by (by eapply list_elem_of_lookup_2). simpl.
    by eapply sorted_lookup_rank.
  - intros n. rewrite (ranked_filter workers qi labels n l Hrank), Hstable.
    rewrite <- (ranked_filter workers qi labels n)
      by (intros x Hx; by apply rankAll_elem in Hx as [_ ?]).
    by rewrite rankAll_ids, eligible_filter.
  - intros i a Ha. apply list_lookup_fmap_Some in Ha as (x & -> & Hx).
    destruct l as [|y l]; [done|].
    assert (Forall (λ z, rw_rank z ≤ rw_rank y) (y :: l)) as Hy.
    { apply Forall_lookup. intros [|j] z Hz; [simpl in Hz; by simplify_eq|].
      by apply (sorted_lookup_rank (y :: l) 0 (S j)); [|lia|..]. }
    cbn [topOf]. rewrite (topRun_lookup _ _ _ _ Hsort Hy Hx).
    rewrite (Hrank x) by (by eapply list_elem_of_lookup_2).
    change (default 0 (Some (rw_rank x))) with (rw_rank x). split.
    + intros -> b Hb. apply list_elem_of_fmap in Hb as (z & -> & Hz). rewrite (Hrank z) by done.
      simpl. rewrite Forall_forall in Hy. by apply Hy.
    + intros Hb. specialize (Hb (rw_id y) ltac:(constructor)). rewrite (Hrank y) in Hb by constructor.
      simpl in Hb. eapply Forall_lookup in Hy; [|exact Hx]. simpl in Hy. lia.
Qed.


(** For an item that is not sticky and desires labels, the workers ranked are those registered
    workers that meet every required label and whose met labels do not weigh less than zero in sum;
    the weight of the met labels is the rank. *)
Theorem label_affinity workers qi labels ids id :
  qi_Sticky qi = StickyNONE → labels ≠ [] →
  id ∈ (rankWorkerIds workers qi labels ids).1 ↔
  id ∈ ids ∧ ∃ w, workers !! id = Some w ∧ 0 ≤ metWeight w labels ∧
    ∀ d, d ∈ labels → dl_required d = true → meets w d = true.
Proof.
  intros Hns Hl.
  assert (∀ w, forallb (λ d, meets w d || negb (dl_required d)) labels = true ↔
          ∀ d, d ∈ labels → dl_required d = true → meets w d = true) as Hiff.
  { intros w. rewrite forallb_forall. setoid_rewrite <- list_elem_of_In. split.
    - intros H d Hd Hr. specialize (H d Hd). rewrite Hr in H. by destruct (meets w d).
    - intros H d Hd. destruct (dl_required d) eqn:Hr; [|by rewrite orb_true_r].
      by rewrite (H d Hd Hr). }
  destruct (rankWorkerIds_sorts workers qi labels ids) as (l & -> & Hperm & _). simpl.
  rewrite Hperm, rankAll_ids, list_elem_of_filter, (and_comm (is_Some _)).
  apply and_iff_compat_l. unfold rankOf. rewrite Hns.
  destruct labels as [|d0 labels0] eqn:Hlabels; [done|]. rewrite <- Hlabels in *.
  destruct (workers !! id) as [w|]; [|split; [by intros []|by intros (? & ? & _)]].
  unfold computeWeight. rewrite weightLoop_spec, Z.add_0_l. specialize (Hiff w). split.
  - intros [n Hn]. exists w. destruct (forallb _ labels); [|done].
    case_bool_decide; [done|]. split_and!; [done|lia|by apply Hiff].
  - intros (w' & [= <-] & Hpos & Hall). apply Hiff in Hall. rewrite Hall.
    rewrite bool_decide_false by lia. eauto.
Qed.

(** A worker with a label, an item that requires it. *)
Definition sampleWorker (id : uuid) (zone : string) : worker :=
  Worker id "w" [WorkerLabel "zone" (Some zone) None] ∅.
Definition sampleItem : queueItem := QueueItem 1 1 1 "act" "q" StickyNONE None 0 1 0 None "" "" None.
Definition wantZone (zone : string) : list desiredLabel :=
  [DesiredLabel "zone" (Some zone) None true 100 EQUAL].

Lemma label_affinity_witness :
  2 ∈ (rankWorkerIds {[1 := sampleWorker 1 "eu"; 2 := sampleWorker 2 "us"]} sampleItem
         (wantZone "us") [1; 2]).1.
Proof.
  apply (label_affinity _ sampleItem (wantZone "us") [1; 2] 2 eq_refl); [done|].
  split; [set_solver|]. exists (sampleWorker 2 "us"). split; [reflexivity|]. split; [by vm_compute|].
  intros d Hd _. apply list_elem_of_singleton in Hd as ->. reflexivity.
Defined.

End Workers.
