(* ===== verification/SlotPool.v ===== *)
(** Worker capacity: slots and slot pools (src/pkg/scheduling/v1/slot.go and slot_pool.go) and the
    all-or-nothing reservation selectSlotsFromPools of scheduler.go.  Slots and pools are shared
    objects, so both live in a store and are named by pointers (positions in it); the theorems say
    that the free list of a pool is exactly its unused slots. *)

From S2P Require Import Prelude Workers.

Module SlotPool.

Notation uuid := Workers.uuid.

(** ** Data *)

Record slot := Slot {
  sl_worker : uuid;
  sl_pool : option nat;
  sl_slotType : string;
  sl_idx : nat;
  sl_used : bool;
}.

Record slotPool := Pool {
  p_worker : uuid;
  p_slotType : string;
  p_expiresAt : Z;
  p_slots : list nat;
  (** a stack of indexes into the slots, its top at the end *)
  p_free : list nat;
}.

Record store := Store { slots : list slot; pools : list slotPool }.

Record poolKey := PoolKey { pk_workerId : uuid; pk_slotType : string }.

#[global] Instance poolKey_eq_dec : EqDecision poolKey.
Proof. solve_decision. Defined.
#[global] Program Instance poolKey_countable : Countable poolKey :=
  inj_countable' (λ k, (pk_workerId k, pk_slotType k)) (λ '(w, t), PoolKey w t) _.
Next Obligation. by intros []. Qed.

Definition set_used (b : bool) (s : slot) : slot :=
  Slot (sl_worker s) (sl_pool s) (sl_slotType s) (sl_idx s) b.
Definition place (p i : nat) (s : slot) : slot :=
  Slot (sl_worker s) (Some p) (sl_slotType s) i (sl_used s).
Definition set_free (l : list nat) (p : slotPool) : slotPool :=
  Pool (p_worker p) (p_slotType p) (p_expiresAt p) (p_slots p) l.

Definition updSlot (s : nat) (f : slot → slot) (st : store) : store :=
  Store (alter f s (slots st)) (pools st).
Definition updPool (p : nat) (f : slotPool → slotPool) (st : store) : store :=
  Store (slots st) (alter f p (pools st)).

(** ** Operations of a pool *)

Definition staleAt (now : Z) (p : option slotPool) : bool :=
  match p with None => true | Some p => negb (bool_decide (now < p_expiresAt p)%Z) end.

Definition freeCountAt (now : Z) (p : option slotPool) : nat :=
  if staleAt now p then 0 else match p with Some p => length (p_free p) | None => 0 end.

Definition take (p : nat) (st : store) : option nat * store :=
  match pools st !! p with
  | None => (None, st)
  | Some pl =>
      let n := length (p_free pl) in
      match p_free pl !! (n - 1) with
      | None => (None, st)
      | Some idx =>
          let st := updPool p (set_free (list.take (n - 1) (p_free pl))) st in
          match p_slots pl !! idx with
          | None => (None, st)
          | Some sl => (Some sl, updSlot sl (set_used true) st)
          end
      end
  end.

(** [sl.pool.release(sl)]. *)
Definition release (p sl : nat) (st : store) : store :=
  match slots st !! sl with
  | None => st
  | Some s =>
      if sl_used s
      then updPool p (λ pl, set_free (p_free pl ++ [sl_idx s]) pl) (updSlot sl (set_used false) st)
      else st
  end.

(** The loop of reset from index [i]. *)
Fixpoint reset_loop (p i : nat) (sls : list nat) (st : store) : store :=
  match sls with
  | [] => st
  | sl :: rest =>
      let st := updSlot sl (place p i) st in
      let unused := match slots st !! sl with Some s => negb (sl_used s) | None => false end in
      let st := if unused then updPool p (λ pl, set_free (p_free pl ++ [i]) pl) st else st in
      reset_loop p (S i) rest st
  end.

Definition reset (p : nat) (sls : list nat) (expiresAt : Z) (st : store) : store :=
  reset_loop p 0 sls
    (updPool p (λ pl, Pool (p_worker pl) (p_slotType pl) expiresAt sls []) st).

(** ** Reserving the units of a request *)

(** [NilSlot] stands for a nil slot in the selection, which the caller would dereference. *)
Inductive selection := NoRoom | Selected (sls : list nat) | NilSlot.

Definition poolAt (st : store) (p : option nat) : option slotPool := p ≫= λ p, pools st !! p.

Fixpoint takeUnits (p : nat) (n : nat) (st : store) : option (list nat) * store :=
  match n with
  | O => (Some [], st)
  | S n =>
      let '(sl, st) := take p st in
      let '(rest, st) := takeUnits p n st in
      (match sl, rest with Some sl, Some rest => Some (sl :: rest) | _, _ => None end, st)
  end.

Fixpoint takeAll (poolsByType : gmap string nat) (requests : list (string * Z)) (st : store) :
    option (list nat) * store :=
  match requests with
  | [] => (Some [], st)
  | (slotType, units) :: rest =>
      let '(mine, st) :=
        match poolsByType !! slotType with
        | Some p => takeUnits p (Z.to_nat units) st
        | None => (if bool_decide (0 < units)%Z then None else Some [], st)
        end in
      let '(others, st) := takeAll poolsByType rest st in
      (match mine, others with Some a, Some b => Some (a ++ b) | _, _ => None end, st)
  end.

(** [requests] lists the entries of the request map in the order Go ranges over them. *)
Definition hasRoom (poolsByType : gmap string nat) (now : Z) (st : store)
    (request : string * Z) : bool :=
  let '(slotType, units) := request in
  bool_decide (units ≤ 0)%Z ||
  bool_decide (units ≤ Z.of_nat (freeCountAt now (poolAt st (poolsByType !! slotType))))%Z.

Definition selectSlotsFromPools (poolsByType : gmap string nat) (requests : list (string * Z))
    (now : Z) (st : store) : selection * store :=
  if forallb (hasRoom poolsByType now st) requests then
    let '(sel, st) := takeAll poolsByType requests st in
    (match sel with Some sls => Selected sls | None => NilSlot end, st)
  else (NoRoom, st).

(** ** The free list is exact *)

(** Every slot of an exact pool knows its pool and its index, and the free list holds the indexes of
    the unused slots, each once. *)
Record pool_ok (st : store) (p : nat) (pl : slotPool) : Prop := {
  ok_pool : pools st !! p = Some pl;
  ok_slots : ∀ i s, p_slots pl !! i = Some s →
    ∃ sl, slots st !! s = Some sl ∧ sl_pool sl = Some p ∧ sl_idx sl = i;
  ok_free_nodup : NoDup (p_free pl);
  ok_free : ∀ i, i ∈ p_free pl ↔
    ∃ s sl, p_slots pl !! i = Some s ∧ slots st !! s = Some sl ∧ sl_used sl = false;
}.

(** What an operation on pool [p] leaves alone. *)
Record touches (p : nat) (st st' : store) : Prop := {
  t_slots : ∀ s sl, slots st !! s = Some sl →
    ∃ u, slots st' !! s = Some (set_used u sl) ∧ (sl_pool sl ≠ Some p → u = sl_used sl);
  t_slots_len : length (slots st') = length (slots st);
  t_pools : ∀ q, q ≠ p → pools st' !! q = pools st !! q;
  t_pools_len : length (pools st') = length (pools st);
}.

Lemma set_used_same sl : set_used (sl_used sl) sl = sl.
Proof. by destruct sl. Qed.

Lemma touches_refl p st : touches p st st.
Proof. split; try done. intros s sl Hs. exists (sl_used sl). by rewrite set_used_same. Qed.

Lemma touches_trans p st1 st2 st3 : touches p st1 st2 → touches p st2 st3 → touches p st1 st3.
Proof.
  intros [H1 L1 P1 M1] [H2 L2 P2 M2]. split; [|congruence| |congruence].
  - intros s sl Hs. destruct (H1 s sl Hs) as (u & Hu & Hk). destruct (H2 _ _ Hu) as (u' & Hu' & Hk').
    exists u'. split; [exact Hu'|]. intros Hp. rewrite (Hk' Hp). simpl. by apply Hk.
  - intros q Hq. by rewrite P2, P1.
Qed.

Lemma touches_back p st st' s sl' :
  touches p st st' → slots st' !! s = Some sl' →
  ∃ sl, slots st !! s = Some sl ∧ sl' = set_used (sl_used sl') sl ∧
        (sl_pool sl ≠ Some p → sl_used sl' = sl_used sl).
Proof.
  intros [H L _ _] Hs. destruct (slots st !! s) as [sl|] eqn:He.
  - destruct (H s sl He) as (u & Hu & Hk). rewrite Hu in Hs. injection Hs as <-. by exists sl.
  - apply lookup_ge_None in He. rewrite <- L in He. apply lookup_ge_None in He. congruence.
Qed.

(** An operation on one pool keeps the others exact. *)
Lemma pool_ok_other st st' p q pl :
  q ≠ p → touches p st st' → pool_ok st q pl → pool_ok st' q pl.
Proof.
  intros Hq Ht [Hp Hs Hn Hf]. split; [by rewrite (t_pools _ _ _ Ht)| |done|].
  - intros i s Hi. destruct (Hs i s Hi) as (sl & Hsl & Hpool & Hidx).
    destruct (t_slots _ _ _ Ht s sl Hsl) as (u & Hu & _). by exists (set_used u sl).
  - intros i. rewrite Hf. split; intros (s & sl & Hi & Hsl & Hu);
      destruct (Hs i s Hi) as (sl0 & Hsl0 & Hpool & Hidx).
    + assert (sl0 = sl) as -> by congruence. destruct (t_slots _ _ _ Ht s sl Hsl0) as (u & Hu' & Hk).
      exists s, (set_used u sl). split_and!; [done|done|]. simpl. rewrite Hk; [done|congruence].
    + destruct (touches_back _ _ _ _ _ Ht Hsl) as (sl1 & Hsl1 & He & Hk).
      assert (sl1 = sl0) as -> by congruence.
      exists s, sl0. split_and!; [done|done|]. rewrite <- Hk; [done|congruence].
Qed.

(** Distinct indexes of an exact pool are distinct slots. *)
Lemma ok_inj st p pl i j s :
  pool_ok st p pl → p_slots pl !! i = Some s → p_slots pl !! j = Some s → i = j.
Proof.
  intros Hok Hi Hj. destruct (ok_slots _ _ _ Hok i s Hi) as (sl & Hsl & _ & <-).
  destruct (ok_slots _ _ _ Hok j s Hj) as (sl' & Hsl' & _ & <-). by simplify_eq.
Qed.

(** ** Reservations *)

(** The pool but for its free list. *)
Definition same_pool (a b : slotPool) : Prop :=
  p_worker a = p_worker b ∧ p_slotType a = p_slotType b ∧ p_expiresAt a = p_expiresAt b ∧
  p_slots a = p_slots b.

(** Exactly the slots [sel] change, from [negb u] to [u] used, and exact pools stay exact. *)
Record flips (u : bool) (sel : list nat) (st st' : store) : Prop := {
  fl_slots : ∀ s, slots st' !! s =
    if decide (s ∈ sel) then set_used u <$> slots st !! s else slots st !! s;
  fl_nodup : NoDup sel;
  fl_before : ∀ s, s ∈ sel → ∃ sl, slots st !! s = Some sl ∧ sl_used sl = negb u;
  fl_pools : ∀ p pl, pool_ok st p pl → ∃ pl', pool_ok st' p pl' ∧ same_pool pl pl';
  fl_pools_len : length (pools st') = length (pools st);
}.

Lemma same_pool_refl pl : same_pool pl pl.
Proof. done. Qed.

Lemma same_pool_trans a b c : same_pool a b → same_pool b c → same_pool a c.
Proof. intros (?&?&?&?) (?&?&?&?). repeat split; congruence. Qed.

Lemma flips_nil u st : flips u [] st st.
Proof.
  split; [intros s; by rewrite decide_False by set_solver|constructor|set_solver| |done].
  intros p pl Hok. by exists pl.
Qed.

Lemma flips_lookup u sel st st' s sl :
  flips u sel st st' → slots st !! s = Some sl →
  slots st' !! s = Some (if decide (s ∈ sel) then set_used u sl else sl).
Proof. intros Hf Hs. rewrite (fl_slots _ _ _ _ Hf), Hs. by case_decide. Qed.

Lemma flips_app u sel1 sel2 st1 st2 st3 :
  flips u sel1 st1 st2 → flips u sel2 st2 st3 → flips u (sel1 ++ sel2) st1 st3.
Proof.
  intros F1 F2.
  assert (∀ s, s ∈ sel1 → s ∉ sel2) as Hdisj.
  { intros s H1 H2. destruct (fl_before _ _ _ _ F1 s H1) as (sl & Hsl & _).
    pose proof (flips_lookup _ _ _ _ _ _ F1 Hsl) as Hs. rewrite decide_True in Hs by done.
    destruct (fl_before _ _ _ _ F2 s H2) as (sl' & Hsl' & Hu). rewrite Hs in Hsl'.
    injection Hsl' as <-. simpl in Hu. by destruct u. }
  split.
  - intros s. rewrite (fl_slots _ _ _ _ F2), (fl_slots _ _ _ _ F1).
    destruct (decide (s ∈ sel1)), (decide (s ∈ sel2)), (decide (s ∈ sel1 ++ sel2));
      set_solver.
  - apply NoDup_app. split_and!; [apply F1|done|apply F2].
  - intros s [Hs|Hs]%elem_of_app; [by apply (fl_before _ _ _ _ F1)|].
    destruct (fl_before _ _ _ _ F2 s Hs) as (sl & Hsl & Hu).
    rewrite (fl_slots _ _ _ _ F1), decide_False in Hsl by (intros ?; by apply (Hdisj s)). eauto.
  - intros p pl Hok. destruct (fl_pools _ _ _ _ F1 p pl Hok) as (pl1 & Hok1 & Hs1).
    destruct (fl_pools _ _ _ _ F2 p pl1 Hok1) as (pl2 & Hok2 & Hs2). exists pl2.
    split; [done|by eapply same_pool_trans].
  - rewrite (fl_pools_len _ _ _ _ F2). apply F1.
Qed.

(** The store after one slot of pool [p] changed hands. *)
Lemma flip_one u p s sl pl st l :
  slots st !! s = Some sl → sl_pool sl = Some p → sl_used sl = negb u →
  pools st !! p = Some pl →
  let st' := updSlot s (set_used u) (updPool p (set_free l) st) in
  touches p st st' ∧
  (∀ s', slots st' !! s' = if decide (s' ∈ [s]) then set_used u <$> slots st !! s'
                           else slots st !! s') ∧
  pools st' !! p = Some (set_free l pl).
Proof.
  intros Hs Hp Hu Hpl. cbv zeta.
  assert (∀ s', slots (updSlot s (set_used u) (updPool p (set_free l) st)) !! s' =
    if decide (s' ∈ [s]) then set_used u <$> slots st !! s' else slots st !! s') as Hslots.
  { intros s'. cbn [slots updSlot updPool]. case_decide as Hin.
    - apply list_elem_of_singleton in Hin as ->. by rewrite list_lookup_alter_eq.
    - rewrite list_lookup_alter_ne; [done|]. intros ->. apply Hin. by constructor. }
  split_and!; [|done|simpl; by rewrite list_lookup_alter_eq, Hpl].
  split; cbn [slots pools updSlot updPool].
  - intros s' sl' Hs'. pose proof (Hslots s') as He. rewrite Hs' in He. simpl in He.
    case_decide as Hin.
    + apply list_elem_of_singleton in Hin as ->. exists u. split; [done|]. congruence.
    + exists (sl_used sl'). by rewrite set_used_same.
  - by rewrite length_alter.
  - intros q Hq. by rewrite list_lookup_alter_ne.
  - by rewrite length_alter.
Qed.

Lemma flip_pool u p s sl pl st l :
  pool_ok st p pl → slots st !! s = Some sl → p_slots pl !! sl_idx sl = Some s →
  sl_used sl = negb u → NoDup l →
  (∀ i, i ∈ l ↔ if u then i ∈ p_free pl ∧ i ≠ sl_idx sl else i ∈ p_free pl ∨ i = sl_idx sl) →
  let st' := updSlot s (set_used u) (updPool p (set_free l) st) in
  flips u [s] st st' ∧ touches p st st' ∧ pool_ok st' p (set_free l pl).
Proof.
  intros Hok Hs Hi Hu Hnd Hl. cbv zeta.
  destruct (ok_slots _ _ _ Hok _ _ Hi) as (sl' & Hs' & Hp & _). assert (sl' = sl) as -> by congruence.
  destruct (flip_one u p s sl pl st l Hs Hp Hu (ok_pool _ _ _ Hok)) as (Ht & Hslots & Hpl).
  set (st' := updSlot _ _ _) in *.
  assert (pool_ok st' p (set_free l pl)) as Hok'.
  { split; [done| |done|].
    - intros i s' Hi'. destruct (ok_slots _ _ _ Hok i s' Hi') as (sl1 & Hs1 & Hp1 & Hi1).
      rewrite Hslots, Hs1. case_decide; eauto.
    - intros i. simpl. rewrite Hl.
      assert (∀ s' sl1, p_slots pl !! i = Some s' → slots st' !! s' = Some sl1 →
        if decide (i = sl_idx sl) then sl_used sl1 = u else slots st !! s' = Some sl1) as Hcase.
      { intros s' sl1 Hi' Hs1. rewrite Hslots in Hs1. case_decide as Hin.
        - apply list_elem_of_singleton in Hin as ->. rewrite (ok_inj _ _ _ _ _ _ Hok Hi' Hi).
          rewrite decide_True by done. rewrite Hs in Hs1. by injection Hs1 as <-.
        - rewrite decide_False; [done|]. intros ->. apply Hin. rewrite Hi in Hi'. set_solver. }
      pose proof (ok_free _ _ _ Hok i) as Hfree. split.
      + intros H. assert (i ≠ sl_idx sl ∧ (∃ s' sl', p_slots pl !! i = Some s' ∧
          slots st !! s' = Some sl' ∧ sl_used sl' = false) ∨ (i = sl_idx sl ∧ u = false)) as
          [(Hne & s' & sl1 & Hi' & Hs1 & Hu1)|[-> ->]].
        { destruct u; [left; split; [apply H|apply Hfree, H]|].
          destruct (decide (i = sl_idx sl)); [by right|left]. split; [done|]. apply Hfree.
          by destruct H. }
        * exists s', sl1. split_and!; [done| |done]. rewrite Hslots, decide_False; [done|].
          intros ->%list_elem_of_singleton. apply Hne. by eapply ok_inj.
        * exists s, (set_used false sl). split_and!; [done| |done].
          rewrite Hslots, decide_True by set_solver. by rewrite Hs.
      + intros (s' & sl1 & Hi' & Hs1 & Hu1). specialize (Hcase s' sl1 Hi' Hs1).
        case_decide as He; [subst u; rewrite Hu1; by right|].
        assert (i ∈ p_free pl) by (apply Hfree; eauto). destruct u; [done|by left]. }
  split_and!; [|done|done]. split; [done|apply NoDup_singleton| | |apply Ht].
  - intros s' ->%list_elem_of_singleton. eauto.
  - intros q ql Hq. destruct (decide (q = p)) as [->|Hne].
    + assert (ql = pl) as ->; [|by exists (set_free l pl)].
      pose proof (ok_pool _ _ _ Hok). pose proof (ok_pool _ _ _ Hq). congruence.
    + exists ql. split; [by eapply pool_ok_other|done].
Qed.

(** *** take, release, reset *)

Lemma take_spec st p pl :
  pool_ok st p pl → p_free pl ≠ [] →
  ∃ s st', take p st = (Some s, st') ∧ flips true [s] st st' ∧ touches p st st' ∧
    (slots st !! s ≫= sl_pool) = Some p ∧ s ∈ p_slots pl ∧
    ∃ pl', pool_ok st' p pl' ∧ same_pool pl pl' ∧ S (length (p_free pl')) = length (p_free pl).
Proof.
  intros Hok Hne. destruct (p_free pl) as [|x f _] eqn:Hf using rev_ind; [done|]. clear Hne.
  assert (x ∈ p_free pl) as Hx by (rewrite Hf; set_solver).
  apply (ok_free _ _ _ Hok) in Hx as (s & sl & Hi & Hs & Hu).
  destruct (ok_slots _ _ _ Hok _ _ Hi) as (sl' & Hs' & Hp & Hidx).
  assert (sl' = sl) as -> by congruence.
  pose proof (ok_free_nodup _ _ _ Hok) as Hnd. rewrite Hf in Hnd.
  apply NoDup_app in Hnd as (Hnd & Hdisj & _).
  destruct (flip_pool true p s sl pl st f Hok Hs) as (Hfl & Ht & Hok'); [congruence|done|done| |].
  { intros i. rewrite Hf, Hidx, elem_of_app, list_elem_of_singleton. split; [|naive_solver].
    intros Hi'. split; [by left|]. intros ->. apply (Hdisj x Hi'). set_solver. }
  exists s, (updSlot s (set_used true) (updPool p (set_free f) st)).
  split_and!; [|done|done| |by eapply list_elem_of_lookup_2|].
  - unfold take. rewrite (ok_pool _ _ _ Hok), Hf, length_app. simpl.
    replace (length f + 1 - 1) with (length f) by lia.
    rewrite lookup_app_r, Nat.sub_diag by lia. simpl. rewrite Hi. by rewrite take_app_length.
  - by rewrite Hs.
  - eexists. split; [exact Hok'|]. split; [done|]. simpl. rewrite length_app. simpl. lia.
Qed.

Lemma release_spec st p pl s sl :
  pool_ok st p pl → slots st !! s = Some sl → p_slots pl !! sl_idx sl = Some s →
  sl_used sl = true →
  flips false [s] st (release p s st) ∧ touches p st (release p s st).
Proof.
  intros Hok Hs Hi Hu. unfold release. rewrite Hs, Hu.
  destruct (flip_pool false p s sl pl st (p_free pl ++ [sl_idx sl]) Hok Hs Hi Hu) as (Hfl & Ht & _).
  - apply NoDup_app. split_and!; [apply Hok| |apply NoDup_singleton].
    intros i Hfree Hin. apply list_elem_of_singleton in Hin as ->.
    apply (ok_free _ _ _ Hok) in Hfree as (s' & sl' & Hi' & Hs' & Hu'). congruence.
  - intros i. by rewrite elem_of_app, list_elem_of_singleton.
  - assert (updPool p (λ pl, set_free (p_free pl ++ [sl_idx sl]) pl) (updSlot s (set_used false) st) =
            updSlot s (set_used false) (updPool p (set_free (p_free pl ++ [sl_idx sl])) st)) as ->.
    { unfold updSlot, updPool. cbn [slots pools]. f_equal. apply list_eq. intros q.
      rewrite !list_lookup_alter. case_decide; [|done]. subst. by rewrite (ok_pool _ _ _ Hok). }
    done.
Qed.

Lemma reset_loop_spec p sls : ∀ i st pl,
  NoDup sls → (∀ s, s ∈ sls → is_Some (slots st !! s)) → pools st !! p = Some pl →
  let st' := reset_loop p i sls st in
  (∀ j s sl, sls !! j = Some s → slots st !! s = Some sl →
     slots st' !! s = Some (place p (i + j) sl)) ∧
  (∀ s, s ∉ sls → slots st' !! s = slots st !! s) ∧
  (∀ q, q ≠ p → pools st' !! q = pools st !! q) ∧
  length (slots st') = length (slots st) ∧ length (pools st') = length (pools st) ∧
  ∃ l, pools st' !! p = Some (set_free (p_free pl ++ l) pl) ∧ NoDup l ∧
    ∀ n, n ∈ l ↔ ∃ j s sl, n = i + j ∧ sls !! j = Some s ∧ slots st !! s = Some sl ∧
                           sl_used sl = false.
Proof.
  induction sls as [|s0 sls IH]; intros i st pl Hnd Hin Hpl; cbv zeta; cbn [reset_loop].
  { split_and!; try done. exists []. rewrite app_nil_r. split_and!; [by destruct pl|constructor|].
    set_solver. }
  apply NoDup_cons in Hnd as [Hs0 Hnd]. destruct (Hin s0) as [sl0 Hsl0]; [by constructor|].
  cbn [slots updSlot]. rewrite list_lookup_alter_eq, Hsl0. cbn [fmap option_fmap option_map].
  assert (sl_used (place p i sl0) = sl_used sl0) as Hused by done. rewrite Hused.
  set (st1 := if negb (sl_used sl0) then _ else _).
  assert (slots st1 = alter (place p i) s0 (slots st)) as Hslots1
    by (unfold st1; by destruct (negb _)).
  assert (∀ q, q ≠ p → pools st1 !! q = pools st !! q) as Hpools1.
  { intros q Hq. unfold st1. destruct (negb _); [|done]. cbn. by rewrite list_lookup_alter_ne. }
  assert (length (pools st1) = length (pools st)) as Hlen1.
  { unfold st1. destruct (negb _); [|done]. cbn. by rewrite length_alter. }
  assert (pools st1 !! p = Some (set_free (p_free pl ++ if sl_used sl0 then [] else [i]) pl)) as Hp1.
  { unfold st1. destruct (sl_used sl0); cbn; [rewrite app_nil_r; by destruct pl|].
    by rewrite list_lookup_alter_eq, Hpl. }
  assert (∀ s, s ∈ sls → slots st1 !! s = slots st !! s) as Hrest.
  { intros s Hs. rewrite Hslots1, list_lookup_alter_ne; [done|]. by intros ->. }
  assert (∀ s, s ∈ sls → is_Some (slots st1 !! s)) as Hin1.
  { intros s Hs. rewrite Hrest by done. apply Hin. by constructor. }
  destruct (IH (S i) st1 _ Hnd Hin1 Hp1) as (Hj & Hout & Hq & Hl1 & Hl2 & l & Hp & Hndl & Hl).
  split_and!.
  - intros [|j] s sl Hs Hsl; simpl in Hs.
    + injection Hs as <-. rewrite Hout, Hslots1, list_lookup_alter_eq, Hsl by done. simpl.
      by rewrite Nat.add_0_r.
    + rewrite (Hj j s sl Hs), <- Nat.add_succ_comm; [done|].
      rewrite Hrest; [done|by eapply list_elem_of_lookup_2].
  - intros s [Hne Hs]%not_elem_of_cons. by rewrite Hout, Hslots1, list_lookup_alter_ne.
  - intros q Hne. by rewrite Hq, Hpools1.
  - by rewrite Hl1, Hslots1, length_alter.
  - by rewrite Hl2.
  - exists ((if sl_used sl0 then [] else [i]) ++ l). split_and!.
    + rewrite Hp. unfold set_free. simpl. by rewrite app_assoc.
    + apply NoDup_app. split_and!; [destruct (sl_used sl0); [constructor|apply NoDup_singleton]| |done].
      intros n Hn (j & _ & _ & -> & _)%Hl. destruct (sl_used sl0); set_solver by lia.
    + intros n. rewrite elem_of_app, Hl. split.
      * intros [Hn|(j & s & sl & -> & Hs & Hsl & Hu)].
        -- exists 0, s0, sl0. destruct (sl_used sl0); [set_solver|].
           apply list_elem_of_singleton in Hn. split_and!; [lia|done..].
        -- exists (S j), s, sl. rewrite Hrest in Hsl by (by eapply list_elem_of_lookup_2).
           split_and!; [lia|done..].
      * intros ([|j] & s & sl & -> & Hs & Hsl & Hu); simpl in Hs.
        -- left. injection Hs as <-. rewrite Hsl0 in Hsl. injection Hsl as <-. rewrite Hu.
           rewrite Nat.add_0_r. set_solver.
        -- right. exists j, s, sl. rewrite Hrest by (by eapply list_elem_of_lookup_2).
           split_and!; [lia|done..].
Qed.

Lemma reset_spec st p pl sls e :
  NoDup sls → (∀ s, s ∈ sls → is_Some (slots st !! s)) → pools st !! p = Some pl →
  let st' := reset p sls e st in
  (∃ free, pool_ok st' p (Pool (p_worker pl) (p_slotType pl) e sls free)) ∧
  (∀ j s sl, sls !! j = Some s → slots st !! s = Some sl → slots st' !! s = Some (place p j sl)) ∧
  (∀ s, s ∉ sls → slots st' !! s = slots st !! s) ∧
  (∀ q, q ≠ p → pools st' !! q = pools st !! q) ∧
  length (slots st') = length (slots st) ∧ length (pools st') = length (pools st).
Proof.
  intros Hnd Hin Hpl. cbv zeta. unfold reset.
  set (st0 := updPool _ _ _).
  assert (pools st0 !! p = Some (Pool (p_worker pl) (p_slotType pl) e sls [])) as Hp0.
  { cbn. by rewrite list_lookup_alter_eq, Hpl. }
  destruct (reset_loop_spec p sls 0 st0 _ Hnd Hin Hp0)
    as (Hj & Hout & Hq & Hl1 & Hl2 & l & Hp & Hndl & Hl).
  split_and!.
  - exists l. split; [exact Hp| |done|].
    + intros i s Hi. simpl in Hi. destruct (Hin s) as [sl Hsl]; [by eapply list_elem_of_lookup_2|].
      exists (place p i sl). by rewrite (Hj i s sl Hi Hsl).
    + intros n. simpl. rewrite Hl. simpl. split.
      * intros (j & s & sl & -> & Hs & Hsl & Hu). exists s, (place p j sl). split_and!; [done| |done].
        by apply Hj.
      * intros (s & sl' & Hs & Hsl' & Hu). destruct (Hin s) as [sl Hsl];
          [by eapply list_elem_of_lookup_2|]. rewrite (Hj n s sl Hs Hsl) in Hsl'.
        exists n, s, sl. injection Hsl' as <-. done.
  - done.
  - done.
  - intros q Hne. rewrite Hq by done. cbn. by rewrite list_lookup_alter_ne.
  - done.
  - rewrite Hl2. cbn. by rewrite length_alter.
Qed.

(** *** Several units, several types *)

(** The slots of [sel] that belong to pool [p]. *)
Definition fromPool (st : store) (p : nat) (sel : list nat) : list nat :=
  filter (λ s, slots st !! s ≫= sl_pool = Some p) sel.

Lemma flips_pool_of u sel st st' s :
  flips u sel st st' → slots st' !! s ≫= sl_pool = slots st !! s ≫= sl_pool.
Proof.
  intros Hf. rewrite (fl_slots _ _ _ _ Hf). case_decide; [|done]. by destruct (slots st !! s).
Qed.

Lemma takeUnits_spec n : ∀ st p pl,
  pool_ok st p pl → n ≤ length (p_free pl) →
  ∃ sel st', takeUnits p n st = (Some sel, st') ∧ flips true sel st st' ∧ touches p st st' ∧
    length sel = n ∧ Forall (λ s, slots st !! s ≫= sl_pool = Some p) sel ∧
    Forall (λ s, s ∈ p_slots pl) sel.
Proof.
  induction n as [|n IH]; intros st p pl Hok Hn.
  { exists [], st. split_and!; [done|apply flips_nil|apply touches_refl|done|constructor..]. }
  destruct (take_spec st p pl Hok)
    as (s & st1 & Htake & Hf1 & Ht1 & Hp & Hin & pl1 & Hok1 & Hsame & Hlen).
  { intros He. rewrite He in Hn. simpl in Hn. lia. }
  destruct (IH st1 p pl1 Hok1) as (sel & st2 & Hrest & Hf2 & Ht2 & Hlen2 & Hall & Hins); [lia|].
  exists (s :: sel), st2. cbn [takeUnits]. rewrite Htake, Hrest. split_and!; [done| | | | |].
  - by apply (flips_app true [s]  sel st st1).
  - by eapply touches_trans.
  - simpl. lia.
  - constructor; [done|]. eapply Forall_impl; [exact Hall|]. intros s'. simpl.
    by rewrite (flips_pool_of _ _ _ _ s' Hf1).
  - constructor; [done|]. eapply Forall_impl; [exact Hins|]. intros s'. simpl.
    by destruct Hsame as (_ & _ & _ & ->).
Qed.

(** A worker's pools: distinct types have distinct, exact pools. *)
Record pools_of (poolsByType : gmap string nat) (st : store) : Prop := {
  po_inj : ∀ t t' p, poolsByType !! t = Some p → poolsByType !! t' = Some p → t = t';
  po_ok : ∀ t p, poolsByType !! t = Some p → ∃ pl, pool_ok st p pl;
}.

Lemma flips_pools_of u sel poolsByType st st' :
  flips u sel st st' → pools_of poolsByType st → pools_of poolsByType st'.
Proof.
  intros Hf [Hinj Hok]. split; [done|]. intros t p Ht. destruct (Hok t p Ht) as [pl Hpl].
  destruct (fl_pools _ _ _ _ Hf p pl Hpl) as (pl' & Hpl' & _). eauto.
Qed.

(** The units of every requested type fit. *)
Definition fits (poolsByType : gmap string nat) (st : store) (requests : list (string * Z)) : Prop :=
  ∀ t u, (t, u) ∈ requests → (0 < u)%Z →
    ∃ p pl, poolsByType !! t = Some p ∧ pools st !! p = Some pl ∧
            (u ≤ Z.of_nat (length (p_free pl)))%Z.

Lemma filter_pool_all st p sel :
  Forall (λ s, slots st !! s ≫= sl_pool = Some p) sel →
  fromPool st p sel = sel ∧ ∀ q, q ≠ p → fromPool st q sel = [].
Proof.
  rewrite Forall_forall. intros Hall. split; [by apply filter_all|]. intros q Hq.
  apply filter_none. intros s Hs. specialize (Hall s Hs). simpl in *. congruence.
Qed.

Lemma takeAll_spec poolsByType requests : ∀ st,
  NoDup requests.*1 → pools_of poolsByType st → fits poolsByType st requests →
  ∃ sel st', takeAll poolsByType requests st = (Some sel, st') ∧ flips true sel st st' ∧
    (∀ s, s ∈ sel → ∃ t p pl, t ∈ requests.*1 ∧ poolsByType !! t = Some p ∧
       slots st !! s ≫= sl_pool = Some p ∧ pool_ok st p pl ∧ s ∈ p_slots pl) ∧
    (∀ t u p, (t, u) ∈ requests → poolsByType !! t = Some p →
       length (fromPool st p sel) = Z.to_nat u).
Proof.
  induction requests as [|[t0 u0] requests IH]; intros st Hnd Hpo Hfits.
  { exists [], st. split_and!; [done|apply flips_nil|set_solver|set_solver]. }
  apply NoDup_cons in Hnd as [Ht0 Hnd].
  assert (∃ mine st1, match poolsByType !! t0 with
      | Some p => takeUnits p (Z.to_nat u0) st
      | None => (if bool_decide (0 < u0)%Z then None else Some [], st)
      end = (Some mine, st1) ∧ flips true mine st st1 ∧
    (∀ q, poolsByType !! t0 ≠ Some q → pools st1 !! q = pools st !! q) ∧
    match poolsByType !! t0 with
    | Some p => length mine = Z.to_nat u0 ∧ Forall (λ s, slots st !! s ≫= sl_pool = Some p) mine ∧
                ∃ pl, pool_ok st p pl ∧ Forall (λ s, s ∈ p_slots pl) mine
    | None => mine = []
    end) as (mine & st1 & Hmine & Hf1 & Hframe & Hcount).
  { destruct (poolsByType !! t0) as [p|] eqn:Hp.
    - destruct (po_ok _ _ Hpo t0 p Hp) as [pl Hpl].
      destruct (takeUnits_spec (Z.to_nat u0) st p pl Hpl) 
        as (sel & st1 & He & Hf & Ht & Hl & Hall & Hins).
      { destruct (Z.lt_ge_cases 0 u0) as [Hu|]; [|lia].
        destruct (Hfits t0 u0 ltac:(constructor) Hu) as (p' & pl' & Hp' & Hpl' & Hle).
        assert (p' = p) as -> by congruence. rewrite (ok_pool _ _ _ Hpl) in Hpl'.
        injection Hpl' as <-. lia. }
      exists sel, st1. split_and!; [done|done| |done|done|by exists pl].
      intros q Hq. apply (t_pools _ _ _ Ht). congruence.
    - exists [], st. rewrite bool_decide_false; [split_and!; [done|apply flips_nil|done|done]|].
      intros Hu. destruct (Hfits t0 u0 ltac:(constructor) Hu) as (p' & _ & Hp' & _). congruence. }
  destruct (IH st1 Hnd) as (sel & st2 & Hrest & Hf2 & Hfrom & Hlen).
  { by eapply flips_pools_of. }
  { intros t u Hin Hu. destruct (Hfits t u) as (p & pl & Hp & Hpl & Hle); [by constructor|done|].
    exists p, pl. split_and!; [done| |done]. rewrite Hframe; [done|]. intros Hp0.
    rewrite (po_inj _ _ Hpo _ _ _ Hp0 Hp) in Ht0. apply Ht0. by apply (list_elem_of_fmap_2 fst) in Hin. }
  exists (mine ++ sel), st2. cbn [takeAll]. rewrite Hmine, Hrest. split_and!; [done| | |].
  - by eapply flips_app.
  - intros s [Hs|Hs]%elem_of_app.
    + destruct (poolsByType !! t0) as [p|] eqn:Hp; [|set_solver].
      destruct Hcount as (_ & Hall & pl & Hpl & Hins). rewrite Forall_forall in Hall, Hins.
      exists t0, p, pl. split_and!; [by constructor|done|by apply Hall|done|by apply Hins].
    + destruct (Hfrom s Hs) as (t & p & pl1 & Ht & Hp & Hsp & Hpl1 & Hin).
      rewrite (flips_pool_of _ _ _ _ s Hf1) in Hsp.
      destruct (po_ok _ _ Hpo t p Hp) as [pl Hpl].
      destruct (fl_pools _ _ _ _ Hf1 p pl Hpl) as (pl' & Hpl' & _ & _ & _ & Hsl).
      assert (pl' = pl1) as -> by (pose proof (ok_pool _ _ _ Hpl'); pose proof (ok_pool _ _ _ Hpl1);
        congruence).
      exists t, p, pl. rewrite Hsl. split_and!; [by constructor|done..].
  - assert (∀ q, fromPool st1 q sel = fromPool st q sel) as Hsame.
    { intros q. apply list_filter_iff. intros s. by rewrite (flips_pool_of _ _ _ _ s Hf1). }
    intros t u p [Heq|Hin]%elem_of_cons Hp; unfold fromPool; rewrite filter_app, length_app;
      fold (fromPool st p mine) (fromPool st p sel); rewrite <- Hsame.
    + injection Heq as -> ->. rewrite Hp in Hcount. destruct Hcount as (Hl & Hall & _).
      rewrite (proj1 (filter_pool_all _ _ _ Hall)), Hl.
      assert (fromPool st1 p sel = []) as ->; [|simpl; lia].
      apply filter_none. intros s Hs Hsp. destruct (Hfrom s Hs) as (t' & p' & _ & Ht' & Hp' & Hsp' & _).
      assert (p' = p) as -> by congruence. by rewrite (po_inj _ _ Hpo _ _ _ Hp' Hp) in Ht'.
    + rewrite (Hlen t u p Hin Hp). assert (fromPool st p mine = []) as ->; [|simpl; lia].
      destruct (poolsByType !! t0) as [p0|] eqn:Hp0; [|by subst].
      destruct Hcount as (_ & Hall & _). apply (filter_pool_all _ _ _ Hall). intros ->.
      rewrite (po_inj _ _ Hpo _ _ _ Hp0 Hp) in Ht0. apply Ht0.
      by apply (list_elem_of_fmap_2 fst) in Hin.
Qed.

Lemma hasRoom_fits poolsByType requests now st :
  forallb (hasRoom poolsByType now st) requests = true →
  fits poolsByType st requests ∧
  ∀ t u p pl, (t, u) ∈ requests → (0 < u)%Z → poolsByType !! t = Some p → pools st !! p = Some pl →
    (now < p_expiresAt pl)%Z.
Proof.
  rewrite forallb_forall. intros Hall.
  assert (∀ t u, (t, u) ∈ requests → (0 < u)%Z → ∃ p pl, poolsByType !! t = Some p ∧
    pools st !! p = Some pl ∧ (u ≤ Z.of_nat (length (p_free pl)))%Z ∧ (now < p_expiresAt pl)%Z) as H.
  { intros t u Hin Hu. specialize (Hall _ (proj1 (list_elem_of_In _ _) Hin)). simpl in Hall.
    rewrite bool_decide_false in Hall by lia. simpl in Hall. apply bool_decide_eq_true in Hall.
    unfold freeCountAt, poolAt, staleAt in Hall.
    destruct (poolsByType !! t) as [p|]; simpl in Hall; [|lia].
    destruct (pools st !! p) as [pl|] eqn:Hpl; simpl in Hall; [|lia].
    case_bool_decide; simpl in Hall; [|lia]. by exists p, pl. }
  split.
  - intros t u Hin Hu. destruct (H t u Hin Hu) as (p & pl & ? & ? & ? & ?). by exists p, pl.
  - intros t u p pl Hin Hu Hp Hpl. destruct (H t u Hin Hu) as (p' & pl' & ? & ? & ? & ?). congruence.
Qed.

(** What a selection returns and what it changes. *)
Lemma select_spec poolsByType requests now st :
  NoDup requests.*1 → pools_of poolsByType st →
  let '(res, st') := selectSlotsFromPools poolsByType requests now st in
  match res with
  | NoRoom => st' = st ∧ ∃ t u, (t, u) ∈ requests ∧
      (Z.of_nat (freeCountAt now (poolAt st (poolsByType !! t))) < u)%Z
  | Selected sel =>
      NoDup sel ∧ flips true sel st st' ∧
      (∀ s, s ∈ sel → ∃ t p pl sl, t ∈ requests.*1 ∧ poolsByType !! t = Some p ∧
         pools st !! p = Some pl ∧ s ∈ p_slots pl ∧
         slots st !! s = Some sl ∧ sl_pool sl = Some p ∧ sl_used sl = false) ∧
      (∀ t u p, (t, u) ∈ requests → poolsByType !! t = Some p →
         length (fromPool st p sel) = Z.to_nat u)
  | NilSlot => False
  end.
Proof.
  intros Hnd Hpo. unfold selectSlotsFromPools. destruct (forallb _ requests) eqn:Hroom.
  - destruct (hasRoom_fits _ _ _ _ Hroom) as [Hfits _].
    destruct (takeAll_spec poolsByType requests st Hnd Hpo Hfits)
      as (sel & st' & He & Hf & Hfrom & Hlen).
    rewrite He. split_and!; [apply Hf|done| |done].
    intros s Hs. destruct (Hfrom s Hs) as (t & p & pl & Ht & Hp & Hsp & Hpl & Hin).
    destruct (fl_before _ _ _ _ Hf s Hs) as (sl & Hsl & Hu). rewrite Hsl in Hsp. simpl in Hsp, Hu.
    exists t, p, pl, sl. split_and!; try done. apply Hpl.
  - split; [done|]. apply forallb_false in Hroom as ([t u] & Hin & Hu). exists t, u.
    split; [done|]. unfold hasRoom in Hu. apply orb_false_iff in Hu as [_ Hu].
    apply bool_decide_eq_false in Hu. lia.
Qed.

(** Reserving the units of a request on one worker is all or nothing.  When some requested type
    has too few free slots, or its pool is stale, nothing changes; otherwise the selection holds, for
    every requested type, exactly the units asked for, all distinct and unused before; exactly those
    slots become used, every exact pool stays exact, and no nil slot is ever selected. *)
Theorem select_all_or_nothing poolsByType requests now st :
  NoDup requests.*1 → pools_of poolsByType st →
  let '(res, st') := selectSlotsFromPools poolsByType requests now st in
  match res with
  | NoRoom => st' = st ∧ ∃ t u, (t, u) ∈ requests ∧
      (Z.of_nat (freeCountAt now (poolAt st (poolsByType !! t))) < u)%Z
  | Selected sel =>
      NoDup sel ∧ flips true sel st st' ∧
      (∀ s, s ∈ sel → ∃ t p pl sl, t ∈ requests.*1 ∧ poolsByType !! t = Some p ∧
         pools st !! p = Some pl ∧ s ∈ p_slots pl ∧
         slots st !! s = Some sl ∧ sl_pool sl = Some p ∧ sl_used sl = false) ∧
      (∀ t u p, (t, u) ∈ requests → poolsByType !! t = Some p →
         length (fromPool st p sel) = Z.to_nat u)
  | NilSlot => False
  end.
Proof. apply select_spec. Qed.

(** A worker with one pool of two free slots. *)
Definition sampleStore : store :=
  reset 0 [0; 1] 100 (Store [Slot 5 None "default" 0 false; Slot 5 None "default" 0 false]
                            [Pool 5 "default" 0 [] []]).

Lemma sampleStore_pools : pools_of {["default"%string := 0]} sampleStore.
Proof.
  split.
  - intros t t' p Ht Ht'. apply lookup_singleton_Some in Ht as [<- _].
    by apply lookup_singleton_Some in Ht' as [<- _].
  - intros t p Ht. apply lookup_singleton_Some in Ht as [<- <-].
    destruct (reset_spec (Store [Slot 5 None "default" 0 false; Slot 5 None "default" 0 false]
                            [Pool 5 "default" 0 [] []]) 0 (Pool 5 "default" 0 [] []) [0; 1] 100)
      as [[free Hok] _]; [repeat constructor; set_solver| |done|by eexists].
    intros s Hs. repeat (apply elem_of_cons in Hs as [->|Hs]; [by eexists|]). set_solver.
Qed.

Lemma select_all_or_nothing_witness :
  ∃ sel, (selectSlotsFromPools {["default"%string := 0]} [("default"%string, 2%Z)] 50 sampleStore).1
           = Selected sel ∧ NoDup sel ∧ length (fromPool sampleStore 0 sel) = 2.
Proof.
  pose proof (select_all_or_nothing {["default"%string := 0]} [("default"%string, 2%Z)] 50 sampleStore
                ltac:(repeat constructor; set_solver) sampleStore_pools) as H.
  destruct (selectSlotsFromPools _ _ _ _) as [res st'] eqn:He.
  assert (res = Selected [1; 0]) as -> by (vm_compute in He; by injection He).
  destruct H as (Hnd & _ & _ & Hlen). exists [1; 0]. split_and!; [done|exact Hnd|].
  apply (Hlen "default"%string 2%Z 0); [constructor|reflexivity].
Defined.

End SlotPool.
