(* ===== verification/Action.v ===== *)
(** The index of an action (src/pkg/scheduling/v1/action.go): its workers, and the starvation episodes
    that decide when a miss asks for a replenish and when a replenish wakes a queue.  A slot request
    is the list of the entries of the request map, in the order Go ranges over them. *)

From Stdlib Require Import OrdersEx String Ascii.
From S2P Require Import Prelude Workers SlotPool.
Import SlotPool.

Module Action.

Notation uuid := Workers.uuid.
Notation poolsByWorker := (gmap uuid (gmap string nat)).

(** ** Strings *)

(** The order of [sort.Strings]: byte by byte. *)
Definition cmpString (a b : string) : Z :=
  match String.compare a b with Lt => -1 | Eq => 0 | Gt => 1 end.

Definition slotTypeSeparator : ascii := "000"%char.

(** [strings.Split] on a separator of one byte. *)
Fixpoint split (sep : ascii) (s : string) : list string :=
  match s with
  | EmptyString => [""%string]
  | String c rest =>
      if decide (c = sep) then ""%string :: split sep rest
      else match split sep rest with
           | h :: t => String c h :: t
           | [] => [String c ""]
           end
  end.

(** [strings.Join]. *)
Definition join (sep : ascii) (l : list string) : string := String.concat (String sep "") l.

(** ** Data *)

Record action := MkAction {
  lastReplenishedSlotCount : Z;
  lastReplenishedWorkerCount : Z;
  workerIds : list uuid;
  ringOffset : Z;
  (** queue to the type sets its missed items asked for *)
  starved : gmap string (gset string);
}.

Definition newAction : action := MkAction 0 0 [] 0 ∅.

Definition set_starved (m : gmap string (gset string)) (a : action) : action :=
  MkAction (lastReplenishedSlotCount a) (lastReplenishedWorkerCount a) (workerIds a) (ringOffset a) m.

(** The types a request asks for. *)
Definition requestedTypes (request : list (string * Z)) : list string :=
  (filter (λ tu, (0 < tu.2)%Z) request).*1.

Definition slotTypeSetOf (request : list (string * Z)) : option string :=
  match requestedTypes request with
  | [] => None
  | [single] => Some single
  | types => Some (join slotTypeSeparator (Workers.SortStableFunc cmpString types))
  end.

Definition types (k : string) : list string := split slotTypeSeparator k.

Definition IsStarved (a : action) : bool := bool_decide (starved a ≠ ∅).

(** Whether the entry is new, and the action with it. *)
Definition MarkStarved (queue : string) (request : list (string * Z)) (a : action) : bool * action :=
  match slotTypeSetOf request with
  | None => (false, a)
  | Some key =>
      let entries := default ∅ (starved a !! queue) in
      if decide (key ∈ entries) then (false, a)
      else (true, set_starved (<[queue := {[key]} ∪ entries]> (starved a)) a)
  end.

(** One of the workers has a free slot of every type; hasFreeSlotOfEachType over the types of a map
    and hasFreeSlotOfEachTypeIn over a list of types share this loop. *)
Definition hasFreeSlotOfEachTypeIn (pbw : poolsByWorker) (workerIds : list uuid)
    (slotTypes : list string) (now : Z) (st : store) : bool :=
  existsb (λ w, forallb (λ t,
     negb (bool_decide (freeCountAt now (poolAt st (default ∅ (pbw !! w) !! t)) = 0))) slotTypes)
    workerIds.

Definition hasFreeSlotOfEachType (pbw : poolsByWorker) (workerIds : list uuid)
    (request : list (string * Z)) (now : Z) (st : store) : bool :=
  hasFreeSlotOfEachTypeIn pbw workerIds request.*1 now st.

(** The entries of a queue that a rebuild leaves. *)
Definition stillStarved (pbw : poolsByWorker) (workerIds : list uuid) (now : Z) (st : store)
    (entries : gset string) : gset string :=
  filter (λ key, hasFreeSlotOfEachTypeIn pbw workerIds (types key) now st = false) entries.

(** The queues with a cleared entry, as the set the caller collects them in. *)
Definition RestoreStarved (pbw : poolsByWorker) (workerIds : list uuid) (now : Z) (st : store)
    (a : action) : gset string * action :=
  (dom (filter (λ qe, stillStarved pbw workerIds now st qe.2 ≠ qe.2) (starved a)),
   set_starved
     (filter (λ qe, qe.2 ≠ ∅) (stillStarved pbw workerIds now st <$> starved a)) a).

(** The free slots of the action's workers; zero as soon as one of their pools is stale. *)
Definition activeCount (pbw : poolsByWorker) (now : Z) (st : store) (a : action) : Z :=
  let ps := (λ w, (λ tp, poolAt st (Some tp.2)) <$> map_to_list (default ∅ (pbw !! w)))
              <$> workerIds a in
  let ps := concat ps in
  if existsb (staleAt now) ps then 0
  else Z.of_nat (sum_list ((λ p, match p with Some p => length (p_free p) | None => 0 end) <$> ps)).

(** ** Type sets and their keys *)

Lemma cmpString_cases a b :
  (cmpString a b = -1 ∧ String_as_OT.lt a b ∨ cmpString a b = 0 ∧ a = b ∨
   cmpString a b = 1 ∧ String_as_OT.lt b a)%Z.
Proof.
  unfold cmpString. pose proof (String_as_OT.compare_spec a b) as Hs.
  change (String_as_OT.compare a b) with (String.compare a b) in Hs.
  destruct Hs; [right; left|left|right; right]; by split.
Qed.

Lemma string_lt_irrefl a : ¬ String_as_OT.lt a a.
Proof. apply (StrictOrder_Irreflexive (R := String_as_OT.lt)). Qed.

Lemma string_lt_trans a b c : String_as_OT.lt a b → String_as_OT.lt b c → String_as_OT.lt a c.
Proof. apply (StrictOrder_Transitive (R := String_as_OT.lt)). Qed.

#[global] Instance cmpString_ok : GoCompare cmpString.
Proof.
  split.
  - intros a. destruct (cmpString_cases a a) as [[_ H]|[[? _]|[_ H]]]; [|done|];
      by destruct (string_lt_irrefl a).
  - intros a b. destruct (cmpString_cases a b) as [[H1 L1]|[[H1 L1]|[H1 L1]]],
      (cmpString_cases b a) as [[H2 L2]|[[H2 L2]|[H2 L2]]]; try lia; subst;
      exfalso; eapply string_lt_irrefl; eauto using string_lt_trans.
  - intros a b c. destruct (cmpString_cases a b) as [[H1 L1]|[[H1 L1]|[H1 L1]]],
      (cmpString_cases b c) as [[H2 L2]|[[H2 L2]|[H2 L2]]],
      (cmpString_cases a c) as [[H3 L3]|[[H3 L3]|[H3 L3]]]; try lia; subst; intros _ _;
      exfalso; eapply string_lt_irrefl; eauto using string_lt_trans.
Qed.

Lemma cmpString_antisym a b : (cmpString a b ≤ 0)%Z → (cmpString b a ≤ 0)%Z → a = b.
Proof.
  destruct (cmpString_cases a b) as [[H1 L1]|[[H1 L1]|[H1 L1]]]; [|done|lia].
  intros _ Hba. pose proof (proj1 (gc_sym a b)). lia.
Qed.

(** No slot type holds the separator: a text value of the database cannot hold NUL. *)
Fixpoint clean (s : string) : Prop :=
  match s with EmptyString => True | String c rest => c ≠ slotTypeSeparator ∧ clean rest end.

Lemma split_clean s : clean s → split slotTypeSeparator s = [s].
Proof.
  induction s as [|c s IH]; simpl; [done|]. intros [Hc Hs]. rewrite decide_False by done.
  by rewrite IH.
Qed.

Lemma split_app s rest :
  clean s → split slotTypeSeparator (s ++ String slotTypeSeparator rest)%string =
            s :: split slotTypeSeparator rest.
Proof.
  induction s as [|c s IH]; simpl; [done|]. intros [Hc Hs]. rewrite decide_False by done.
  by rewrite IH.
Qed.

Lemma split_join l : l ≠ [] → Forall clean l → split slotTypeSeparator (join slotTypeSeparator l) = l.
Proof.
  intros Hl Hall. destruct l as [|x l]; [done|]. clear Hl. revert x Hall.
  induction l as [|y l IH]; intros x Hall; apply Forall_cons in Hall as [Hx Hall].
  - by apply split_clean.
  - change (join slotTypeSeparator (x :: y :: l))
      with (x ++ String slotTypeSeparator (join slotTypeSeparator (y :: l)))%string.
    rewrite split_app by done. f_equal. by apply IH.
Qed.

(** The key of a request decodes to the types it asks for, sorted. *)
Lemma types_of_key request key :
  Forall clean request.*1 → slotTypeSetOf request = Some key →
  types key = Workers.SortStableFunc cmpString (requestedTypes request).
Proof.
  intros Hclean. unfold slotTypeSetOf, types.
  assert (Forall clean (requestedTypes request)) as Hc.
  { unfold requestedTypes. rewrite Forall_fmap in *. apply Forall_forall. intros tu Htu.
    rewrite Forall_forall in Hclean. apply Hclean. by apply list_elem_of_filter in Htu as [_ ?]. }
  destruct (requestedTypes request) as [|t [|t' ts]]; [done| |]; intros [= <-].
  - apply Forall_cons in Hc as [Ht _]. by apply split_clean.
  - apply split_join; [|by rewrite (Workers.SortStableFunc_perm cmpString)].
    intros He. pose proof (Workers.SortStableFunc_perm cmpString (t :: t' :: ts)) as Hp.
    rewrite He in Hp. by apply Permutation_nil_cons in Hp.
Qed.

Lemma sort_strings_unique l1 l2 :
  l1 ≡ₚ l2 → Workers.SortStableFunc cmpString l1 = Workers.SortStableFunc cmpString l2.
Proof.
  intros Hp.
  assert (AntiSymm eq (cmp_le cmpString)) by (intros x y; apply cmpString_antisym).
  apply (StronglySorted_unique (cmp_le cmpString));
    [apply Workers.SortStableFunc_sorted, _|apply Workers.SortStableFunc_sorted, _|].
  by rewrite !(Workers.SortStableFunc_perm cmpString).
Qed.

(** The key under which a miss is recorded identifies the set of slot types it asked for: two
    requests, ranged over in any order, have the same key exactly when they ask for the same types,
    and the key decodes to those types in sorted order. *)
Theorem starvation_key_faithful r1 r2 :
  Forall clean r1.*1 → Forall clean r2.*1 →
  (slotTypeSetOf r1 = slotTypeSetOf r2 ↔ requestedTypes r1 ≡ₚ requestedTypes r2) ∧
  ∀ key, slotTypeSetOf r1 = Some key →
    types key ≡ₚ requestedTypes r1 ∧ StronglySorted (cmp_le cmpString) (types key).
Proof.
  intros H1 H2. split; [split|].
  - intros He. destruct (slotTypeSetOf r1) as [key|] eqn:Hk.
    + rewrite <- (Workers.SortStableFunc_perm cmpString (requestedTypes r1)).
      rewrite <- (Workers.SortStableFunc_perm cmpString (requestedTypes r2)).
      by rewrite <- (types_of_key r1 key), <- (types_of_key r2 key).
    + unfold slotTypeSetOf in Hk, He.
      destruct (requestedTypes r1) as [|? []], (requestedTypes r2) as [|? []]; done.
  - intros Hp. unfold slotTypeSetOf. pose proof (sort_strings_unique _ _ Hp) as Hs.
    pose proof (Permutation_length Hp) as Hl.
    destruct (requestedTypes r1) as [|t1 [|t1' l1]], (requestedTypes r2) as [|t2 [|t2' l2]];
      simpl in Hl; try lia; [done| |by rewrite Hs].
    by apply Permutation_singleton_inj in Hp as ->.
  - intros key Hk. rewrite (types_of_key r1 key H1 Hk). split.
    + apply (Workers.SortStableFunc_perm cmpString).
    + apply Workers.SortStableFunc_sorted, _.
Qed.

Lemma starvation_key_faithful_witness :
  slotTypeSetOf [("gpu", 1); ("default", 2); ("tpu", 0)]%string%Z =
  slotTypeSetOf [("default", 1); ("gpu", 4)]%string%Z.
Proof.
  apply (starvation_key_faithful [("gpu", 1); ("default", 2); ("tpu", 0)]%string%Z
           [("default", 1); ("gpu", 4)]%string%Z).
  - repeat (constructor; [by repeat (split; [done|])|]). constructor.
  - repeat (constructor; [by repeat (split; [done|])|]). constructor.
  - apply Permutation_swap.
Defined.

(** ** Episodes *)

Definition recorded (a : action) (queue key : string) : Prop :=
  key ∈ default ∅ (starved a !! queue).

(** No queue is kept with an empty set of entries. *)
Definition starved_ok (a : action) : Prop := map_Forall (λ _ entries, entries ≠ ∅) (starved a).

Lemma mark_spec queue request a :
  let '(new, a') := MarkStarved queue request a in
  match slotTypeSetOf request with
  | None => new = false ∧ a' = a
  | Some key => (new = true ↔ ¬ recorded a queue key) ∧ recorded a' queue key ∧
                ∀ q k, (q, k) ≠ (queue, key) → recorded a' q k ↔ recorded a q k
  end.
Proof.
  unfold MarkStarved, recorded. destruct (slotTypeSetOf request) as [key|]; [|done].
  case_decide as Hin; [by split_and!|]. split_and!; [done|simpl; rewrite lookup_insert_eq; set_solver|].
  intros q k Hne. simpl. destruct (decide (q = queue)) as [->|Hq].
  - rewrite lookup_insert_eq. simpl. assert (k ≠ key) by congruence. set_solver.
  - by rewrite lookup_insert_ne.
Qed.

Lemma mark_ok queue request a : starved_ok a → starved_ok (MarkStarved queue request a).2.
Proof.
  intros Hok. unfold MarkStarved. destruct (slotTypeSetOf request); [|done].
  case_decide; [done|]. apply map_Forall_insert_2; [set_solver|done].
Qed.

(** A rebuild clears exactly the episodes that some worker of the action can now serve with a
    free slot of each type, wakes exactly the queues with a cleared episode, and leaves no queue with
    an empty set behind. *)
Theorem restore_wakes_exactly pbw ids now st a :
  let '(woken, a') := RestoreStarved pbw ids now st a in
  let served k := hasFreeSlotOfEachTypeIn pbw ids (types k) now st = true in
  (∀ q k, recorded a' q k ↔ recorded a q k ∧ ¬ served k) ∧
  (∀ q, q ∈ woken ↔ ∃ k, recorded a q k ∧ served k) ∧ starved_ok a'.
Proof.
  unfold RestoreStarved, recorded. cbv zeta. cbn [starved set_starved]. split_and!.
  - intros q k. rewrite map_lookup_filter, lookup_fmap.
    destruct (starved a !! q) as [es|]; simpl; [|set_solver].
    assert (k ∈ stillStarved pbw ids now st es ↔
      k ∈ es ∧ hasFreeSlotOfEachTypeIn pbw ids (types k) now st ≠ true) as Hk.
    { unfold stillStarved. rewrite elem_of_filter, not_true_iff_false. tauto. }
    rewrite <- Hk. destruct (decide (stillStarved pbw ids now st es = ∅)) as [He|He].
    + rewrite option_guard_False by naive_solver. simpl. rewrite He. set_solver.
    + by rewrite option_guard_True.
  - intros q. rewrite elem_of_dom. unfold is_Some. setoid_rewrite map_lookup_filter_Some. simpl. split.
    + intros (es & Hes & Hne). rewrite Hes. simpl.
      destruct (set_choose_or_empty
        (filter (λ k, hasFreeSlotOfEachTypeIn pbw ids (types k) now st = true) es)) as [[k Hk]|Hemp].
      * apply elem_of_filter in Hk as [? ?]. by exists k.
      * destruct Hne. apply set_eq. intros k. unfold stillStarved. rewrite elem_of_filter.
        split; [tauto|]. intros Hin. split; [|done]. apply not_true_iff_false. set_solver.
    + intros (k & Hin & Hk). destruct (starved a !! q) as [es|]; [|set_solver]. exists es.
      split; [done|]. intros He. simpl in Hin. rewrite <- He in Hin. unfold stillStarved in Hin.
      apply elem_of_filter in Hin as [? _]. congruence.
  - intros q es Hes. by apply map_lookup_filter_Some in Hes as [_ ?].
Qed.

End Action.
