(* ===== verification/Scheduler.v ===== *)
(** The tenant scheduler (src/pkg/scheduling/v1/scheduler.go): its state, owned by the run loop, and
    every operation that runs on the loop: assignment, ack and nack, worker updates and the phases of
    a replenish cycle, whose database reads are parameters.  Callbacks of the rate limiter are the id
    of the task whose reservation they settle; [None] is the no-op callback. *)

From S2P Require Import Prelude Workers SlotPool Action RateLimit.
Import Workers SlotPool Action.

Module Scheduler.

Open Scope Z_scope.

(** ** Data *)

Definition SlotTypeDefault : string := "default".
Definition defaultSlotExpiry : Z := 1500 * 1000000.
Definition rateLimitedRequeueAfterThreshold : Z := 2 * 1000000000.

Record assignedSlots := AssignedSlots { as_slots : list nat; as_reservation : option Z }.

Record assignSingleResult := AssignResult {
  ar_qi : queueItem;
  ar_workerId : uuid;
  ar_ackId : Z;
  ar_noSlots : bool;
  ar_succeeded : bool;
  ar_rateLimit : option RateLimit.rateLimitResult;
  ar_toBatch : bool;
  ar_reservation : option Z;
}.

(** The maps an assignment is given: labels, slot requests and label overrides. *)
Record assignInput := AssignInput {
  in_labels : gmap uuid (list desiredLabel);
  in_requests : gmap uuid (list (string * Z));
  in_overrides : gmap Z (list desiredLabel);
}.

(** A call of tryAssignBatch on the run loop: the results it shares with its caller and, once they
    belong to the caller again, what finished it. *)
Record batch := Batch {
  b_actionId : string;
  b_input : assignInput;
  b_results : list assignSingleResult;
  b_finishedBy : option string;
}.

Record scheduler := MkScheduler {
  actions : gmap string action;
  spools : gmap poolKey nat;
  byWorker : gmap uuid (gmap string nat);
  workers : gmap uuid worker;
  unackedSlots : gmap Z assignedSlots;
  assignedCount : Z;
  replenishing : bool;
  ackedDuringReplenish : gmap poolKey Z;
  afterReplenish : list nat;
  notifyReplenishCh : bool;
  capacityEpoch : Z;
  warmedSlotTypes : gmap uuid (gset string);
  batches : list batch;
  mem : store;
}.

Definition newScheduler : scheduler :=
  MkScheduler ∅ ∅ ∅ ∅ ∅ 0 false ∅ [] false 0 ∅ [] (Store [] []).

Definition set_actions (m : gmap string action) (s : scheduler) : scheduler :=
  MkScheduler m (spools s) (byWorker s) (workers s) (unackedSlots s) (assignedCount s)
    (replenishing s) (ackedDuringReplenish s) (afterReplenish s) (notifyReplenishCh s)
    (capacityEpoch s) (warmedSlotTypes s) (batches s) (mem s).
Definition set_pools (m : gmap poolKey nat) (w : gmap uuid (gmap string nat)) (s : scheduler) :
    scheduler :=
  MkScheduler (actions s) m w (workers s) (unackedSlots s) (assignedCount s)
    (replenishing s) (ackedDuringReplenish s) (afterReplenish s) (notifyReplenishCh s)
    (capacityEpoch s) (warmedSlotTypes s) (batches s) (mem s).
Definition set_workers (m : gmap uuid worker) (s : scheduler) : scheduler :=
  MkScheduler (actions s) (spools s) (byWorker s) m (unackedSlots s) (assignedCount s)
    (replenishing s) (ackedDuringReplenish s) (afterReplenish s) (notifyReplenishCh s)
    (capacityEpoch s) (warmedSlotTypes s) (batches s) (mem s).
Definition set_unacked (m : gmap Z assignedSlots) (s : scheduler) : scheduler :=
  MkScheduler (actions s) (spools s) (byWorker s) (workers s) m (assignedCount s)
    (replenishing s) (ackedDuringReplenish s) (afterReplenish s) (notifyReplenishCh s)
    (capacityEpoch s) (warmedSlotTypes s) (batches s) (mem s).
Definition set_count (n : Z) (s : scheduler) : scheduler :=
  MkScheduler (actions s) (spools s) (byWorker s) (workers s) (unackedSlots s) n
    (replenishing s) (ackedDuringReplenish s) (afterReplenish s) (notifyReplenishCh s)
    (capacityEpoch s) (warmedSlotTypes s) (batches s) (mem s).
Definition set_cycle (b : bool) (acked : gmap poolKey Z) (parked : list nat) (s : scheduler) :
    scheduler :=
  MkScheduler (actions s) (spools s) (byWorker s) (workers s) (unackedSlots s) (assignedCount s)
    b acked parked (notifyReplenishCh s)
    (capacityEpoch s) (warmedSlotTypes s) (batches s) (mem s).
Definition notifyReplenish (s : scheduler) : scheduler :=
  MkScheduler (actions s) (spools s) (byWorker s) (workers s) (unackedSlots s) (assignedCount s)
    (replenishing s) (ackedDuringReplenish s) (afterReplenish s) true
    (capacityEpoch s) (warmedSlotTypes s) (batches s) (mem s).
Definition markWorkerCapacityUpdated (s : scheduler) : scheduler :=
  MkScheduler (actions s) (spools s) (byWorker s) (workers s) (unackedSlots s) (assignedCount s)
    (replenishing s) (ackedDuringReplenish s) (afterReplenish s) (notifyReplenishCh s)
    (capacityEpoch s + 1) (warmedSlotTypes s) (batches s) (mem s).
Definition set_warmed (m : gmap uuid (gset string)) (s : scheduler) : scheduler :=
  MkScheduler (actions s) (spools s) (byWorker s) (workers s) (unackedSlots s) (assignedCount s)
    (replenishing s) (ackedDuringReplenish s) (afterReplenish s) (notifyReplenishCh s)
    (capacityEpoch s) m (batches s) (mem s).
Definition set_batches (l : list batch) (s : scheduler) : scheduler :=
  MkScheduler (actions s) (spools s) (byWorker s) (workers s) (unackedSlots s) (assignedCount s)
    (replenishing s) (ackedDuringReplenish s) (afterReplenish s) (notifyReplenishCh s)
    (capacityEpoch s) (warmedSlotTypes s) l (mem s).
Definition set_mem (st : store) (s : scheduler) : scheduler :=
  MkScheduler (actions s) (spools s) (byWorker s) (workers s) (unackedSlots s) (assignedCount s)
    (replenishing s) (ackedDuringReplenish s) (afterReplenish s) (notifyReplenishCh s)
    (capacityEpoch s) (warmedSlotTypes s) (batches s) st.

(** The pool key of a slot: its worker and type. *)
Definition slotKey (sl : slot) : poolKey := PoolKey (sl_worker sl) (sl_slotType sl).

(** ** Ack and nack *)

Definition countAcked (s : scheduler) (acked : gmap poolKey Z) (sl : nat) : gmap poolKey Z :=
  match slots (mem s) !! sl with
  | Some x => <[slotKey x := default 0 (acked !! slotKey x) + 1]> acked
  | None => acked
  end.

Definition ackOne (id : Z) (s : scheduler) : list Z * scheduler :=
  match unackedSlots s !! id with
  | None => ([], s)
  | Some assigned =>
      let s := set_unacked (delete id (unackedSlots s)) s in
      let s := if replenishing s
               then set_cycle (replenishing s)
                      (foldl (countAcked s) (ackedDuringReplenish s) (as_slots assigned))
                      (afterReplenish s) s
               else s in
      (option_list (as_reservation assigned), s)
  end.

Definition releaseSlot (sl : nat) (st : store) : store :=
  match slots st !! sl ≫= sl_pool with Some p => release p sl st | None => st end.

Definition nackOne (id : Z) (s : scheduler) : list Z * scheduler :=
  match unackedSlots s !! id with
  | None => ([], s)
  | Some assigned =>
      let s := set_unacked (delete id (unackedSlots s)) s in
      (option_list (as_reservation assigned),
       set_mem (foldl (flip releaseSlot) (mem s) (as_slots assigned)) s)
  end.

(** The callbacks to run outside the loop, and the state. *)
Fixpoint handleEach (f : Z → scheduler → list Z * scheduler) (ids : list Z) (s : scheduler) :
    list Z * scheduler :=
  match ids with
  | [] => ([], s)
  | id :: rest =>
      let '(cs, s) := f id s in
      let '(cs', s) := handleEach f rest s in
      (cs ++ cs', s)
  end.

Definition handleAck : list Z → scheduler → list Z * scheduler := handleEach ackOne.
Definition handleNack : list Z → scheduler → list Z * scheduler := handleEach nackOne.

(** ** Workers *)

Definition setWorkers (ws : list worker) (s : scheduler) : scheduler :=
  set_workers (foldl (λ m w, <[ID w := w]> m) ∅ ws) s.

Definition addWorker (w : worker) (s : scheduler) : scheduler :=
  set_workers (<[ID w := w]> (workers s)) s.

Definition removeWorker (id : uuid) (s : scheduler) : scheduler :=
  let pools' := foldl (λ m t, delete (PoolKey id t) m) (spools s)
                  (map_to_list (default ∅ (byWorker s !! id))).*1 in
  markWorkerCapacityUpdated
    (set_warmed (delete id (warmedSlotTypes s))
       (set_pools pools' (delete id (byWorker s)) (set_workers (delete id (workers s)) s))).

(** ** Starvation *)

Definition markActionStarved (actionId queue : string) (request : list (string * Z)) (a : action)
    (s : scheduler) : scheduler :=
  let '(new, a) := MarkStarved queue request a in
  let s := set_actions (<[actionId := a]> (actions s)) s in
  if new then notifyReplenish s else s.

Definition lookupActionAndMarkStarved (actionId queue : string) (request : list (string * Z))
    (s : scheduler) : scheduler :=
  markActionStarved actionId queue request (default newAction (actions s !! actionId)) s.

(** ** Assignment *)

Definition miss (r : assignSingleResult) : assignSingleResult :=
  AssignResult (ar_qi r) (ar_workerId r) (ar_ackId r) true (ar_succeeded r) (ar_rateLimit r)
    (ar_toBatch r) (ar_reservation r).
Definition assignTo (w : uuid) (ackId : Z) (r : assignSingleResult) : assignSingleResult :=
  AssignResult (ar_qi r) w ackId (ar_noSlots r) true (ar_rateLimit r) (ar_toBatch r)
    (ar_reservation r).
Definition clearMiss (r : assignSingleResult) : assignSingleResult :=
  AssignResult (ar_qi r) (ar_workerId r) (ar_ackId r) false (ar_succeeded r) (ar_rateLimit r)
    (ar_toBatch r) (ar_reservation r).

Definition isSingleUnitRequest (requests : list (string * Z)) : bool :=
  forallb (λ tu, negb (bool_decide (1 < tu.2))) requests.

(** The candidates tried in turn; the first one with room wins. *)
Fixpoint tryWorkers (pbw : gmap uuid (gmap string nat)) (ids : list uuid)
    (requests : list (string * Z)) (now : Z) (st : store) : selection * store :=
  match ids with
  | [] => (NoRoom, st)
  | w :: rest =>
      match selectSlotsFromPools (default ∅ (pbw !! w)) requests now st with
      | (NoRoom, st) => tryWorkers pbw rest requests now st
      | res => res
      end
  end.

(** The top-rank group starting at the ring offset and wrapping, then the lower ranks. *)
Definition tryOrder (candidates : list uuid) (topRankCount : nat) (offset : Z) : list uuid :=
  omap (λ i, candidates !! ((Z.to_nat (offset mod Z.of_nat topRankCount) + i) mod topRankCount)%nat)
    (seq 0 topRankCount) ++ drop topRankCount candidates.

Definition bumpRing (a : action) : action :=
  MkAction (lastReplenishedSlotCount a) (lastReplenishedWorkerCount a) (workerIds a)
    (ringOffset a + 1) (starved a).

(** The candidates of an item and the size of their top-rank group. *)
Definition candidatesOf (s : scheduler) (a : action) (qi : queueItem) (labels : list desiredLabel) :
    list uuid * nat :=
  if bool_decide (qi_Sticky qi ≠ StickyNONE) || negb (bool_decide (labels = []))
  then rankWorkerIds (workers s) qi labels (workerIds a)
  else (workerIds a, length (workerIds a)).

(** [None] is a panic: the selection is indexed at its first slot. *)
Definition assignSingleton (actionId : string) (a : action) (r : assignSingleResult)
    (labels : list desiredLabel) (requests : list (string * Z)) (now : Z) (s : scheduler) :
    option (assignSingleResult * scheduler) :=
  let qi := ar_qi r in
  let offset := ringOffset a in
  let a := bumpRing a in
  let s := set_actions (<[actionId := a]> (actions s)) s in
  let '(candidates, topRankCount) := candidatesOf s a qi labels in
  if bool_decide (candidates = []) || bool_decide (topRankCount = 0%nat) then Some (miss r, s)
  else
    match tryWorkers (byWorker s) (tryOrder candidates topRankCount offset) requests now (mem s) with
    | (NoRoom, st) =>
        let s := set_mem st s in
        let starving :=
          (bool_decide (length candidates = length (workerIds a)) && isSingleUnitRequest requests) ||
          negb (hasFreeSlotOfEachType (byWorker s) (workerIds a) requests now (mem s)) in
        Some (miss r, if starving then markActionStarved actionId (qi_Queue qi) requests a s else s)
    | (Selected sls, st) =>
        match head sls ≫= λ sl, slots st !! sl with
        | Some first =>
            let s := set_count (assignedCount s + 1) (set_mem st s) in
            let ackId := assignedCount s in
            Some (assignTo (sl_worker first) ackId r,
                  set_unacked (<[ackId := AssignedSlots sls (ar_reservation r)]> (unackedSlots s)) s)
        | None => None
        end
    | (NilSlot, _) => None
    end.

(** If no slot requests are provided for a step, it needs one default slot. *)
Definition requestsFor (inp : assignInput) (qi : queueItem) : list (string * Z) :=
  match in_requests inp !! qi_StepID qi with
  | Some ((_ :: _) as req) => req
  | _ => [(SlotTypeDefault, 1)]
  end.

Definition labelsFor (inp : assignInput) (qi : queueItem) : list desiredLabel :=
  match in_overrides inp !! qi_TaskID qi with
  | Some l => l
  | None => default [] (in_labels inp !! qi_StepID qi)
  end.

(** Neither rate limited nor bound for the batch table. *)
Definition wantsSlot (r : assignSingleResult) : bool :=
  bool_decide (ar_rateLimit r = None) && negb (ar_toBatch r).

(** Without workers every item that wants a slot is a miss, recorded on a placeholder. *)
Fixpoint missAll (actionId : string) (inp : assignInput) (res : list assignSingleResult)
    (s : scheduler) : list assignSingleResult * scheduler :=
  match res with
  | [] => ([], s)
  | r :: rest =>
      let '(r, s) :=
        if wantsSlot r
        then (miss r, lookupActionAndMarkStarved actionId (qi_Queue (ar_qi r))
                        (requestsFor inp (ar_qi r)) s)
        else (r, s) in
      let '(rest, s) := missAll actionId inp rest s in
      (r :: rest, s)
  end.

(** The action is looked up again for every item: the loop holds a pointer to it. *)
Fixpoint assignEach (actionId : string) (inp : assignInput) (now : Z)
    (res : list assignSingleResult) (s : scheduler) :
    option (list assignSingleResult * scheduler) :=
  match res with
  | [] => Some ([], s)
  | r :: rest =>
      '(r, s) ← if wantsSlot r && negb (ar_succeeded r)
                then a ← actions s !! actionId;
                     assignSingleton actionId a r (labelsFor inp (ar_qi r))
                       (requestsFor inp (ar_qi r)) now s
                else Some (r, s);
      '(rest, s) ← assignEach actionId inp now rest s;
      Some (r :: rest, s)
  end.

Definition handleAssignBatch (actionId : string) (inp : assignInput) (now : Z)
    (res : list assignSingleResult) (s : scheduler) :
    option (list assignSingleResult * scheduler) :=
  match actions s !! actionId with
  | Some a => if bool_decide (workerIds a = []) then Some (missAll actionId inp res s)
              else assignEach actionId inp now res s
  | None => Some (missAll actionId inp res s)
  end.

(** ** Calls of tryAssignBatch on the run loop *)

Definition missed (r : assignSingleResult) : bool := wantsSlot r && negb (ar_succeeded r).

Definition batchHasMisses (res : list assignSingleResult) : bool := existsb missed res.

Definition finish (reason : string) (b : batch) : batch :=
  match b_finishedBy b with
  | Some _ => b
  | None => Batch (b_actionId b) (b_input b) (b_results b) (Some reason)
  end.

Definition set_results (res : list assignSingleResult) (b : batch) : batch :=
  Batch (b_actionId b) (b_input b) res (b_finishedBy b).

Definition updBatch (i : nat) (f : batch → batch) (s : scheduler) : scheduler :=
  set_batches (alter f i (batches s)) s.

(** One attempt of batch [i]; a first attempt that misses while a replenish is in flight is parked. *)
Definition attempt (isRetry : bool) (now : Z) (i : nat) (s : scheduler) : option scheduler :=
  b ← batches s !! i;
  '(res, s) ← handleAssignBatch (b_actionId b) (b_input b) now (b_results b) s;
  let s := updBatch i (set_results res) s in
  Some (if negb isRetry && replenishing s && batchHasMisses res
        then set_cycle (replenishing s) (ackedDuringReplenish s) (afterReplenish s ++ [i]) s
        else updBatch i (finish (if isRetry then "replenish-retry" else "first-attempt")) s).

(** The parked retry: it does nothing once the timeout has handed the results back. *)
Definition retryParked (now : Z) (i : nat) (s : scheduler) : option scheduler :=
  b ← batches s !! i;
  match b_finishedBy b with
  | Some _ => Some s
  | None =>
      attempt true now i
        (updBatch i (set_results ((λ r, if missed r then clearMiss r else r) <$> b_results b)) s)
  end.

Fixpoint retryAll (now : Z) (parked : list nat) (s : scheduler) : option scheduler :=
  match parked with
  | [] => Some s
  | i :: rest => s ← retryParked now i s; retryAll now rest s
  end.

Definition endReplenishCycle (now : Z) (s : scheduler) : option scheduler :=
  retryAll now (afterReplenish s) (set_cycle false ∅ [] s).

(** The timer of a parked batch. *)
Definition parkedTimeout (i : nat) (s : scheduler) : scheduler := updBatch i (finish "timeout") s.

(** ** Replenish *)

(** Phase 1: the ids of the active workers, or [None] when another cycle is in flight. *)
Definition beginReplenish (s : scheduler) : option (list uuid) * scheduler :=
  if replenishing s then (None, s)
  else (Some (map_to_list (workers s)).*1, set_cycle true ∅ (afterReplenish s) s).

(** Phase 2: the rows of ListActionsForWorkers, grouped by action. *)
Definition actionsToWorkerIds (rows : list (option string * uuid)) : gmap string (list uuid) :=
  foldl (λ m row, match row.1 with
                  | Some actionId => <[actionId := default [] (m !! actionId) ++ [row.2]]> m
                  | None => m
                  end) ∅ rows.

(** Phase 3: which actions should be replenished. *)
Definition needsReplenish (mustReplenish : bool) (scanNow : Z) (s : scheduler) (actionId : string)
    (ws : list uuid) : bool :=
  match actions s !! actionId with
  | None => true
  | Some a =>
      if mustReplenish then true
      else
        let activeCount := activeCount (byWorker s) scanNow (mem s) a in
        IsStarved a || bool_decide (activeCount = 0) ||
        bool_decide (activeCount ≤ lastReplenishedSlotCount a / 2) ||
        bool_decide (lastReplenishedWorkerCount a < Z.of_nat (length ws))
  end.

Definition computeActions (mustReplenish : bool) (scanNow : Z) (groups : gmap string (list uuid))
    (s : scheduler) : gset string * scheduler :=
  (dom (filter (λ aw, needsReplenish mustReplenish scanNow s aw.1 aw.2 = true) groups),
   set_actions (actions s ∪ ((λ _, newAction) <$> groups)) s).

(** Between the reads of phase 4: acks from here on are reconciled against the availability read. *)
Definition restartAckCount (s : scheduler) : scheduler :=
  set_cycle (replenishing s) ∅ (afterReplenish s) s.

(** Phase 5: the unacked slots of each pool key. *)
Definition unackedByPool (s : scheduler) : gmap poolKey (list nat) :=
  foldl (λ m sl, match slots (mem s) !! sl with
                 | Some x => <[slotKey x := default [] (m !! slotKey x) ++ [sl]]> m
                 | None => m
                 end) ∅ (concat ((λ ia, as_slots ia.2) <$> map_to_list (unackedSlots s))).

Record nextPools := NextPools {
  np_pools : gmap poolKey nat;
  np_byWorker : gmap uuid (gmap string nat);
  np_mem : store;
}.

(** The pool object of a key: the one in use, or a new one. *)
Definition poolObject (s : scheduler) (key : poolKey) (st : store) : nat * store :=
  match spools s !! key with
  | Some p => (p, st)
  | None => (length (pools st), Store (slots st) (pools st ++ [Pool 0 "" RateLimit.zeroTime [] []]))
  end.

Definition availableCount (s : scheduler) (avail : gmap poolKey Z) (unacked : list nat)
    (key : poolKey) : nat :=
  Z.to_nat (Z.max 0 (default 0 (avail !! key) - Z.of_nat (length unacked) -
                     default 0 (ackedDuringReplenish s !! key))).

Definition buildPool (s : scheduler) (unacked : gmap poolKey (list nat)) (avail : gmap poolKey Z)
    (expiresAt : Z) (next : nextPools) (key : poolKey) : nextPools :=
  match workers s !! pk_workerId key with
  | None => next
  | Some w =>
      let '(p, st) := poolObject s key (np_mem next) in
      let st := updPool p (λ pl, Pool (ID w) (pk_slotType key) (p_expiresAt pl) (p_slots pl)
                                   (p_free pl)) st in
      let mine := default [] (unacked !! key) in
      let n := availableCount s avail mine key in
      let fresh := seq (length (slots st)) n in
      let st := Store (slots st ++ replicate n (Slot (ID w) None (pk_slotType key) 0 false))
                      (pools st) in
      let st := reset p (fresh ++ mine) expiresAt st in
      NextPools (<[key := p]> (np_pools next))
        (<[pk_workerId key := <[pk_slotType key := p]>
             (default ∅ (np_byWorker next !! pk_workerId key))]> (np_byWorker next)) st
  end.

(** [slices.Compact]. *)
Fixpoint Compact (l : list uuid) : list uuid :=
  match l with
  | x :: ((y :: _) as rest) => if bool_decide (x = y) then Compact rest else x :: Compact rest
  | _ => l
  end.

Definition sortedWorkerIds (ws : list uuid) : list uuid := Compact (SortStableFunc cmpZ ws).

Definition totalSlots (nextByWorker : gmap uuid (gmap string nat)) (st : store) (ws : list uuid) : nat :=
  sum_list ((λ w, sum_list ((λ tp, match pools st !! tp.2 with
                                   | Some pl => length (p_slots pl)
                                   | None => 0%nat
                                   end) <$> map_to_list (default ∅ (nextByWorker !! w)))) <$> ws).

(** What the rebuild does to one action: the queues it wakes, and the action, dropped when its
    workers have no slot at all. *)
Definition refreshAction (nextByWorker : gmap uuid (gmap string nat)) (st : store) (refreshedAt : Z)
    (groups : gmap string (list uuid)) (actionId : string) (a : action) :
    gset string * option action :=
  let ids := sortedWorkerIds (default [] (groups !! actionId)) in
  let total := totalSlots nextByWorker st ids in
  if bool_decide (total = 0%nat) then (∅, None)
  else
    let '(restored, a) := if IsStarved a then RestoreStarved nextByWorker ids refreshedAt st a
                          else (∅, a) in
    (restored, Some (MkAction (Z.of_nat total) (Z.of_nat (length ids)) ids (ringOffset a) (starved a))).

Definition rebuildPools (configs : list poolKey) (avail : gmap poolKey Z) (expiresAt : Z)
    (s : scheduler) : nextPools :=
  let unacked := unackedByPool s in
  let configured : gset poolKey := list_to_set configs ∪ dom unacked in
  foldl (buildPool s unacked avail expiresAt) (NextPools ∅ ∅ (mem s)) (elements configured).

(** The queues to wake; the parked retries read the clock at [now]. *)
Definition applyReplenish (configs : list poolKey) (avail : gmap poolKey Z)
    (groups : gmap string (list uuid)) (refreshedAt now : Z) (s : scheduler) :
    option (gset string * scheduler) :=
  let next := rebuildPools configs avail (refreshedAt + defaultSlotExpiry) s in
  let s := markWorkerCapacityUpdated
             (set_mem (np_mem next) (set_pools (np_pools next) (np_byWorker next) s)) in
  let refreshed := map_imap (λ id a, Some (refreshAction (np_byWorker next) (np_mem next)
                                             refreshedAt groups id a)) (actions s) in
  let restored := map_fold (λ _ ra acc, ra.1 ∪ acc) ∅ refreshed in
  s ← endReplenishCycle now (set_actions (omap snd refreshed) s);
  Some (restored, s).

(** A cycle that fails, or finds nothing to replenish, only ends. *)
Definition abandonReplenish (now : Z) (s : scheduler) : option scheduler := endReplenishCycle now s.

(** ** Items for a batch flush *)

Definition isTimedOut (now : Z) (qi : queueItem) : bool :=
  negb (bool_decide (qi_ScheduleTimeoutAt qi = RateLimit.zeroTime)) &&
  bool_decide (qi_ScheduleTimeoutAt qi < now).

Definition newResult (qi : queueItem) : assignSingleResult :=
  AssignResult qi 0 0 false false None false None.

(** One slot for a whole batch flush; [checkedAt] is the clock of the timeout check. *)
Definition tryAssignBatchQueueItem (qi : queueItem) (labels : list desiredLabel) (checkedAt now : Z)
    (s : scheduler) : option (assignSingleResult * scheduler) :=
  let res := newResult qi in
  if isTimedOut checkedAt qi then Some (miss res, s)
  else
    let requests := [(SlotTypeDefault, 1)] in
    match actions s !! qi_ActionID qi with
    | Some a =>
        if bool_decide (workerIds a = [])
        then Some (miss res, lookupActionAndMarkStarved (qi_ActionID qi) (qi_Queue qi) requests s)
        else assignSingleton (qi_ActionID qi) a res labels requests now s
    | None => Some (miss res, lookupActionAndMarkStarved (qi_ActionID qi) (qi_Queue qi) requests s)
    end.

End Scheduler.
