(* ===== verification/SchedulerInv.v ===== *)
(** The invariant of the tenant scheduler and that every operation on the run loop preserves it:
    the two indexes of pools agree, pools are exact, every unacked assignment holds distinct used
    slots that no other assignment holds and that a later nack returns to the right pool. *)

From S2P Require Import Prelude Workers SlotPool Action RateLimit Scheduler.
Import Workers SlotPool Action Scheduler.

Module SchedulerInv.

Open Scope Z_scope.

(** ** The invariant *)

(** A request map: distinct types, positive units, not empty. *)
Definition request_ok (requests : list (string * Z)) : Prop :=
  NoDup requests.*1 ∧ requests ≠ [] ∧ ∀ t u, (t, u) ∈ requests → 0 < u.

Definition input_ok (inp : assignInput) : Prop :=
  ∀ step req, in_requests inp !! step = Some req → req = [] ∨ request_ok req.

(** What an unacked slot satisfies in a store with the given installed pools. *)
Definition held_slot (installed : gmap poolKey nat) (st : store) (x : nat) : Prop :=
  ∃ sl p, slots st !! x = Some sl ∧ sl_used sl = true ∧ sl_pool sl = Some p ∧
    (p < length (pools st))%nat ∧
    ∀ k pl, installed !! k = Some p → pools st !! p = Some pl →
      k = slotKey sl ∧ x ∈ p_slots pl.

Record mem_inv (installed : gmap poolKey nat) (st : store) : Prop := {
  mi_inj : ∀ k k' p, installed !! k = Some p → installed !! k' = Some p → k = k';
  mi_pools : ∀ k p, installed !! k = Some p → ∃ pl, pool_ok st p pl;
  mi_keys : ∀ k p pl x sl, installed !! k = Some p → pools st !! p = Some pl → x ∈ p_slots pl →
    slots st !! x = Some sl → slotKey sl = k;
}.

Record held_inv (installed : gmap poolKey nat) (unacked : gmap Z assignedSlots) (st : store) :
    Prop := {
  hi_nodup : ∀ id a, unacked !! id = Some a → NoDup (as_slots a);
  hi_disj : ∀ id id' a a' x, unacked !! id = Some a → unacked !! id' = Some a' →
    x ∈ as_slots a → x ∈ as_slots a' → id = id';
  hi_slot : ∀ id a x, unacked !! id = Some a → x ∈ as_slots a → held_slot installed st x;
}.

Record sched_inv (s : scheduler) : Prop := {
  si_workers : ∀ id w, workers s !! id = Some w → ID w = id;
  si_index : ∀ w t, default ∅ (byWorker s !! w) !! t = spools s !! PoolKey w t;
  si_mem : mem_inv (spools s) (mem s);
  si_held : held_inv (spools s) (unackedSlots s) (mem s);
  si_fresh : ∀ id a, unackedSlots s !! id = Some a → id ≤ assignedCount s;
  si_parked : replenishing s = false → afterReplenish s = [];
  si_inputs : ∀ i b, batches s !! i = Some b → input_ok (b_input b);
}.

(** ** Changes of the store *)

(** The parts of a store that the installed pools and the held slots depend on. *)
Lemma held_slot_lookup installed st st' x sl sl' :
  slots st !! x = Some sl → slots st' !! x = Some sl' → sl' = set_used true sl →
  length (pools st') = length (pools st) →
  (∀ k p pl', installed !! k = Some p → pools st' !! p = Some pl' →
     ∃ pl, pools st !! p = Some pl ∧ p_slots pl = p_slots pl') →
  (∃ p, sl_pool sl = Some p ∧ (p < length (pools st))%nat ∧
     ∀ k pl, installed !! k = Some p → pools st !! p = Some pl → k = slotKey sl ∧ x ∈ p_slots pl) →
  held_slot installed st' x.
Proof.
  intros Hx Hx' -> Hlen Hpools (p & Hp & Hlt & Hk). exists (set_used true sl), p.
  split_and!; [done..|by rewrite Hlen|]. intros k pl' Hi Hpl'.
  destruct (Hpools k p pl' Hi Hpl') as (pl & Hpl & <-). by apply Hk.
Qed.

(** Exact pools keep their slots through a change that flips slots. *)
Lemma flips_mem_inv u sel installed st st' :
  flips u sel st st' → mem_inv installed st → mem_inv installed st'.
Proof.
  intros Hf [Hinj Hpools Hkeys]. split; [done| |].
  - intros k p Hk. destruct (Hpools k p Hk) as [pl Hpl].
    destruct (fl_pools _ _ _ _ Hf p pl Hpl) as (pl' & Hpl' & _). eauto.
  - intros k p pl' x sl' Hk Hpl' Hx Hsl'. destruct (Hpools k p Hk) as [pl Hpl].
    destruct (fl_pools _ _ _ _ Hf p pl Hpl) as (pl1 & Hpl1 & _ & _ & _ & Hs).
    assert (pl1 = pl') as -> by (pose proof (ok_pool _ _ _ Hpl1); congruence).
    rewrite <- Hs in Hx. rewrite (fl_slots _ _ _ _ Hf) in Hsl'.
    destruct (slots st !! x) as [sl|] eqn:Hsl; [|by case_decide].
    pose proof (Hkeys k p pl x sl Hk (ok_pool _ _ _ Hpl) Hx Hsl) as <-.
    by case_decide; injection Hsl' as <-.
Qed.

Lemma flips_pools_back u sel installed st st' :
  flips u sel st st' → mem_inv installed st →
  ∀ k p pl', installed !! k = Some p → pools st' !! p = Some pl' →
    ∃ pl, pools st !! p = Some pl ∧ p_slots pl = p_slots pl'.
Proof.
  intros Hf Hm k p pl' Hk Hpl'. destruct (mi_pools _ _ Hm k p Hk) as [pl Hpl].
  destruct (fl_pools _ _ _ _ Hf p pl Hpl) as (pl1 & Hpl1 & _ & _ & _ & Hs). exists pl.
  pose proof (ok_pool _ _ _ Hpl1). split; [apply Hpl|congruence].
Qed.

(** A reservation keeps what other assignments hold. *)
Lemma flips_held u sel installed st st' x :
  flips u sel st st' → mem_inv installed st → x ∉ sel → held_slot installed st x →
  held_slot installed st' x.
Proof.
  intros Hf Hm Hx (sl & p & Hsl & Hu & Hp & Hlt & Hk).
  assert (slots st' !! x = Some sl) as Hsl'
    by (rewrite (fl_slots _ _ _ _ Hf), decide_False by done; done).
  apply (held_slot_lookup installed st st' x sl sl); [done|done| | | |].
  - rewrite <- Hu. by rewrite set_used_same.
  - apply Hf.
  - by eapply flips_pools_back.
  - eauto.
Qed.

Lemma held_unused installed st x sl :
  held_slot installed st x → slots st !! x = Some sl → sl_used sl = true.
Proof. intros (sl' & p & Hsl & Hu & _) Hx. congruence. Qed.

(** ** Nack *)

Lemma releaseSlot_inv installed st x :
  mem_inv installed st → held_slot installed st x →
  mem_inv installed (releaseSlot x st) ∧
  ∀ y, y ≠ x → held_slot installed st y → held_slot installed (releaseSlot x st) y.
Proof.
  intros Hm (sl & p & Hsl & Hu & Hp & Hlt & Hk). unfold releaseSlot. rewrite Hsl. simpl. rewrite Hp.
  destruct (lookup_lt_is_Some_2 _ _ Hlt) as [pl Hpl].
  destruct (decide (map_Exists (λ _ q, q = p) installed)) as [(k & q & Hq & ->)|Hno].
  - (* the pool is installed *)
    destruct (mi_pools _ _ Hm k p Hq) as [pl' Hok].
    assert (pl' = pl) as -> by (pose proof (ok_pool _ _ _ Hok); congruence).
    destruct (Hk k pl Hq Hpl) as [_ Hin]. apply list_elem_of_lookup in Hin as [i Hi].
    destruct (ok_slots _ _ _ Hok i x Hi) as (sl' & Hsl' & _ & Hidx).
    assert (sl' = sl) as -> by congruence.
    destruct (release_spec st p pl x sl Hok Hsl) as [Hf _]; [by rewrite Hidx|done|].
    split; [by eapply flips_mem_inv|]. intros y Hy Hh.
    eapply flips_held; [done|done| |done]. by intros ->%list_elem_of_singleton.
  - (* an abandoned pool: no installed pool is touched *)
    unfold release. rewrite Hsl, Hu.
    destruct (flip_one false p x sl pl st (p_free pl ++ [sl_idx sl]) Hsl Hp Hu Hpl)
      as (Ht & Hslots & _).
    assert (updPool p (λ pl, set_free (p_free pl ++ [sl_idx sl]) pl) (updSlot x (set_used false) st) =
            updSlot x (set_used false) (updPool p (set_free (p_free pl ++ [sl_idx sl])) st)) as ->.
    { unfold updSlot, updPool. cbn [slots pools]. f_equal. apply list_eq. intros q.
      rewrite !list_lookup_alter. case_decide; [|done]. subst. by rewrite Hpl. }
    set (st' := updSlot x _ _) in *.
    assert (∀ k q, installed !! k = Some q → q ≠ p) as Hne.
    { intros k q Hq ->. apply Hno. by exists k, p. }
    split; [split; [apply Hm| |]|].
    + intros k q Hq. destruct (mi_pools _ _ Hm k q Hq) as [ql Hql]. exists ql.
      eapply (pool_ok_other st); [by apply (Hne k)|exact Ht|done].
    + intros k q ql y sl' Hq Hql Hy Hsl'. rewrite (t_pools _ _ _ Ht) in Hql by eauto.
      destruct (touches_back _ _ _ _ _ Ht Hsl') as (sl0 & Hsl0 & He & _).
      rewrite <- (mi_keys _ _ Hm k q ql y sl0 Hq Hql Hy Hsl0). by rewrite He.
    + intros y Hy (sl0 & q & Hsl0 & Hu0 & Hq & Hltq & Hkq).
      assert (slots st' !! y = Some sl0) as Hsl0'.
      { rewrite Hslots, decide_False; [done|]. by intros ->%list_elem_of_singleton. }
      exists sl0, q. split_and!; [done..|by rewrite (t_pools_len _ _ _ Ht)|].
      intros k ql Hk' Hql. rewrite (t_pools _ _ _ Ht) in Hql by eauto. by apply Hkq.
Qed.

Lemma releaseAll_inv installed xs : ∀ st,
  NoDup xs → mem_inv installed st → (∀ x, x ∈ xs → held_slot installed st x) →
  mem_inv installed (foldl (flip releaseSlot) st xs) ∧
  ∀ y, y ∉ xs → held_slot installed st y → held_slot installed (foldl (flip releaseSlot) st xs) y.
Proof.
  induction xs as [|x xs IH]; intros st Hnd Hm Hh; [done|]. cbn [foldl]. unfold flip at 2 4.
  apply NoDup_cons in Hnd as [Hx Hnd].
  destruct (releaseSlot_inv installed st x Hm) as [Hm' Hh']; [apply Hh; by constructor|].
  destruct (IH (releaseSlot x st) Hnd Hm') as [Hm'' Hh''].
  { intros y Hy. apply Hh'; [by intros ->|]. apply Hh. by constructor. }
  split; [done|]. intros y [Hne Hy]%not_elem_of_cons Hhy. apply Hh''; [done|]. by apply Hh'.
Qed.

Lemma held_inv_delete installed unacked st id :
  held_inv installed unacked st → held_inv installed (delete id unacked) st.
Proof.
  intros [Hn Hd Hs]. split.
  - intros i a [_ Hi]%lookup_delete_Some. by apply (Hn i).
  - intros i j a b x [_ Hi]%lookup_delete_Some [_ Hj]%lookup_delete_Some. by apply Hd.
  - intros i a x [_ Hi]%lookup_delete_Some. by apply (Hs i).
Qed.

Lemma ackOne_inv id s : sched_inv s → sched_inv (ackOne id s).2.
Proof.
  intros Hs. unfold ackOne. destruct (unackedSlots s !! id) as [a|]; [|done]. simpl.
  destruct Hs as [Hw Hi Hm Hh Hf Hp Hin].
  assert (held_inv (spools s) (delete id (unackedSlots s)) (mem s)) by (by apply held_inv_delete).
  assert (∀ i a, delete id (unackedSlots s) !! i = Some a → i ≤ assignedCount s).
  { intros i b [_ Hb]%lookup_delete_Some. eauto. }
  destruct (replenishing s) eqn:Hr; split; simpl; try done; intros; congruence || auto.
Qed.

Lemma nackOne_inv id s : sched_inv s → sched_inv (nackOne id s).2.
Proof.
  intros Hs. unfold nackOne. destruct (unackedSlots s !! id) as [a|] eqn:Ha; [|done]. simpl.
  destruct Hs as [Hw Hi Hm Hh Hf Hp Hin].
  destruct (releaseAll_inv (spools s) (as_slots a) (mem s)) as [Hm' Hh'].
  { by apply (hi_nodup _ _ _ Hh id). } { done. } { intros x. by apply (hi_slot _ _ _ Hh id). }
  split; simpl; try done; [|by intros i b [_ Hb]%lookup_delete_Some; eauto].
  destruct (held_inv_delete _ _ _ id Hh) as [Hn Hd Hsl]. split; [done|done|].
  intros i b x Hb Hx. apply Hh'; [|by eapply Hsl].
  apply lookup_delete_Some in Hb as [Hne Hb]. intros Hxa. by destruct Hne; eapply (hi_disj _ _ _ Hh).
Qed.

Lemma handleEach_inv f ids : ∀ s,
  (∀ id s, sched_inv s → sched_inv (f id s).2) → sched_inv s → sched_inv (handleEach f ids s).2.
Proof.
  induction ids as [|id ids IH]; intros s Hf Hs; [done|]. cbn [handleEach].
  specialize (Hf id s Hs) as H1. destruct (f id s) as [cs s1]. simpl in H1.
  specialize (IH s1 Hf H1). by destruct (handleEach f ids s1).
Qed.

(** ** Workers *)

Lemma setWorkers_inv ws s : sched_inv s → sched_inv (setWorkers ws s).
Proof.
  intros []. split; try done. intros id w. cbn [workers setWorkers set_workers].
  induction ws as [|v ws IH] using rev_ind; [done|]. rewrite foldl_snoc, lookup_insert_Some.
  intros [[<- <-]|[_ H]]; [done|by apply IH].
Qed.

Lemma addWorker_inv w s : sched_inv s → sched_inv (addWorker w s).
Proof.
  intros []. split; try done. intros id v. cbn [workers addWorker set_workers].
  rewrite lookup_insert_Some. intros [[<- <-]|[_ H]]; [done|]. by apply si_workers0.
Qed.

(** Dropping pools keeps the rest. *)
Lemma mem_inv_sub installed installed' st :
  installed' ⊆ installed → mem_inv installed st → mem_inv installed' st.
Proof.
  intros Hsub [Hinj Hpools Hkeys]. split.
  - intros k k' p Hk Hk'. eapply Hinj; by eapply lookup_weaken.
  - intros k p Hk. eapply Hpools. by eapply lookup_weaken.
  - intros k p pl x sl Hk. eapply Hkeys. by eapply lookup_weaken.
Qed.

Lemma held_inv_sub installed installed' unacked st :
  installed' ⊆ installed → held_inv installed unacked st → held_inv installed' unacked st.
Proof.
  intros Hsub [Hn Hd Hs]. split; [done|done|]. intros id a x Ha Hx.
  destruct (Hs id a x Ha Hx) as (sl & p & ? & ? & ? & ? & Hk). exists sl, p. split_and!; try done.
  intros k pl Hi. apply Hk. by eapply lookup_weaken.
Qed.

Lemma lookup_foldl_delete (id : uuid) (l : list string) (m : gmap poolKey nat) w t :
  foldl (λ m t, delete (PoolKey id t) m) m l !! PoolKey w t =
  if decide (w = id ∧ t ∈ l) then None else m !! PoolKey w t.
Proof.
  revert m. induction l as [|t' l IH]; intros m.
  { simpl. by rewrite decide_False by set_solver. }
  cbn [foldl]. rewrite IH. destruct (decide (w = id ∧ t ∈ l)) as [[-> Hin]|Hno].
  - by rewrite decide_True by set_solver.
  - destruct (decide (w = id ∧ t = t')) as [[-> ->]|Hne].
    + rewrite decide_True by set_solver. apply lookup_delete_eq.
    + rewrite decide_False by set_solver. apply lookup_delete_ne. intros [= -> ->]. naive_solver.
Qed.

Lemma removeWorker_inv id s : sched_inv s → sched_inv (removeWorker id s).
Proof.
  intros [Hw Hi Hm Hh Hf Hp Hin]. unfold removeWorker.
  set (pools' := foldl _ _ _).
  assert (∀ w t, pools' !! PoolKey w t = if decide (w = id) then None else spools s !! PoolKey w t)
    as Hlook.
  { intros w t. unfold pools'. rewrite lookup_foldl_delete.
    destruct (decide (w = id)) as [->|Hne].
    - case_decide as Hd; [done|]. rewrite <- Hi. destruct (_ !! t) as [p|] eqn:Ht; [|done].
      destruct Hd. split; [done|]. apply elem_of_map_to_list, (list_elem_of_fmap_2 fst) in Ht. done.
    - rewrite decide_False; [done|]. by intros [? _]. }
  assert (pools' ⊆ spools s) as Hsub.
  { apply map_subseteq_spec. intros [w t] p. rewrite Hlook. by case_decide. }
  split; simpl; try done.
  - intros i w [_ H]%lookup_delete_Some. by apply Hw.
  - intros w t. rewrite Hlook. case_decide as Hd.
    + subst. by rewrite lookup_delete_eq.
    + rewrite lookup_delete_ne by done. apply Hi.
  - by eapply mem_inv_sub.
  - by eapply held_inv_sub.
Qed.

(** ** The order in which workers are tried *)

(** Every candidate is tried once, those of the top-rank group first. *)
Lemma tryOrder_perm candidates top offset :
  (0 < top ≤ length candidates)%nat →
  tryOrder candidates top offset ≡ₚ candidates ∧
  list.take top (tryOrder candidates top offset) ≡ₚ list.take top candidates.
Proof.
  intros Htop. unfold tryOrder. set (o := Z.to_nat (offset mod Z.of_nat top)).
  assert (o < top)%nat as Ho.
  { pose proof (Z.mod_pos_bound offset (Z.of_nat top)). unfold o. lia. }
  set (l := list.take top candidates).
  assert (length l = top) as Hl by (unfold l; rewrite length_take; lia).
  assert (omap (λ i, candidates !! ((o + i) mod top)%nat) (seq 0 top) = drop o l ++ list.take o l)
    as ->.
  { rewrite <- (ring_read l o), Hl by lia. apply omap_same. intros i _. symmetry.
    unfold l. rewrite lookup_take, decide_True; [done|]. apply Nat.mod_upper_bound. lia. }
  assert (drop o l ++ list.take o l ≡ₚ l) as Hp.
  { rewrite Permutation_app_comm. by rewrite take_drop. }
  split.
  - rewrite Hp. unfold l. by rewrite take_drop.
  - rewrite take_app_length'; [exact Hp|].
    pose proof (Permutation_length Hp) as Hlen. congruence.
Qed.

(** The worker has room for the request. *)
Definition room (pbw : gmap uuid (gmap string nat)) (st : store) (now : Z)
    (requests : list (string * Z)) (w : uuid) : bool :=
  forallb (hasRoom (default ∅ (pbw !! w)) now st) requests.

Lemma tryWorkers_spec pbw ids requests now st :
  NoDup requests.*1 → (∀ w, pools_of (default ∅ (pbw !! w)) st) →
  let '(res, st') := tryWorkers pbw ids requests now st in
  match res with
  | NoRoom => st' = st ∧ ∀ w, w ∈ ids → room pbw st now requests w = false
  | Selected sel => ∃ pre w post, ids = pre ++ w :: post ∧
      (∀ v, v ∈ pre → room pbw st now requests v = false) ∧ room pbw st now requests w = true ∧
      selectSlotsFromPools (default ∅ (pbw !! w)) requests now st = (Selected sel, st')
  | NilSlot => False
  end.
Proof.
  intros Hnd Hpo. induction ids as [|w ids IH]; cbn [tryWorkers]; [set_solver|].
  pose proof (select_spec (default ∅ (pbw !! w)) requests now st Hnd (Hpo w)) as Hs.
  destruct (selectSlotsFromPools _ _ _ _) as [res st1] eqn:He.
  assert (room pbw st now requests w = match res with NoRoom => false | _ => true end) as Hroom.
  { unfold room. unfold selectSlotsFromPools in He.
    destruct (forallb _ requests); [|by injection He as <- _].
    destruct (takeAll _ _ _) as [[]]; by injection He as <- _. }
  destruct res as [|sel|]; [|by exists [], w, ids; set_solver|done].
  destruct Hs as [-> _]. destruct (tryWorkers pbw ids requests now st) as [[|sel|] st'];
    [|destruct IH as (pre & v & post & -> & Hpre & Hv & Hsel)|done].
  - destruct IH as [-> Hall]. split; [done|]. intros v [->|Hv]%elem_of_cons; [done|by apply Hall].
  - exists (w :: pre), v, post. split_and!; [done| |done|done].
    intros x [->|Hx]%elem_of_cons; [done|by apply Hpre].
Qed.

Lemma topRun_length t l : (topRun t l ≤ length l)%nat.
Proof. induction l; simpl; [lia|]. case_bool_decide; simpl; lia. Qed.

(** The first element that satisfies a property is in a prefix, or nothing in the prefix does. *)
Lemma first_of_prefix {A} (P : A → Prop) n (pre post : list A) w :
  (∀ v, v ∈ pre → P v) →
  w ∈ list.take n (pre ++ w :: post) ∨ ∀ v, v ∈ list.take n (pre ++ w :: post) → P v.
Proof.
  intros Hpre. destruct (decide (n ≤ length pre)%nat) as [Hle|Hgt].
  - right. rewrite take_app_le by done. intros v Hv. apply Hpre.
    apply elem_of_take in Hv as (i & Hi & _). by eapply list_elem_of_lookup_2.
  - left. rewrite take_app_ge by lia. apply elem_of_app. right.
    destruct (n - length pre)%nat eqn:He; [lia|]. simpl. by constructor.
Qed.

(** A ranking that keeps a worker has a non-empty top-rank group. *)
Lemma candidates_top s a qi labels :
  let '(candidates, top) := candidatesOf s a qi labels in
  candidates = [] ∨ (0 < top ≤ length candidates)%nat.
Proof.
  unfold candidatesOf. destruct (_ || _).
  - destruct (rankWorkerIds_sorts (workers s) qi labels (workerIds a)) as (l & -> & _).
    destruct l as [|x l]; [by left|right]. rewrite length_fmap. unfold topOf.
    pose proof (topRun_length (rw_rank x) (x :: l)). simpl in *.
    rewrite bool_decide_true in * by done. lia.
  - destruct (workerIds a); [by left|right]. simpl. lia.
Qed.

Lemma pools_of_worker s w : sched_inv s → pools_of (default ∅ (byWorker s !! w)) (mem s).
Proof.
  intros Hs. split.
  - intros t t' p Ht Ht'. rewrite (si_index _ Hs) in Ht, Ht'.
    pose proof (mi_inj _ _ (si_mem _ Hs) _ _ _ Ht Ht') as [= ->]. done.
  - intros t p Ht. rewrite (si_index _ Hs) in Ht. by apply (mi_pools _ _ (si_mem _ Hs) _ _ Ht).
Qed.

(** ** A selection on one worker *)

Lemma selection_held s w requests now sel st' :
  sched_inv s → NoDup requests.*1 →
  selectSlotsFromPools (default ∅ (byWorker s !! w)) requests now (mem s) = (Selected sel, st') →
  mem_inv (spools s) st' ∧ (∀ x, x ∈ sel → held_slot (spools s) st' x) ∧
  (∀ x, held_slot (spools s) (mem s) x → x ∉ sel ∧ held_slot (spools s) st' x) ∧ NoDup sel ∧
  (∀ x, x ∈ sel → ∃ sl, slots st' !! x = Some sl ∧ sl_worker sl = w) ∧
  (∀ t u, (t, u) ∈ requests → 0 < u → ∃ p, spools s !! PoolKey w t = Some p ∧
     length (fromPool (mem s) p sel) = Z.to_nat u).
Proof.
  intros Hs Hnd Hsel. pose proof (si_mem _ Hs) as Hm.
  pose proof (select_spec _ requests now _ Hnd (pools_of_worker s w Hs)) as Hspec.
  rewrite Hsel in Hspec. destruct Hspec as (Hnds & Hf & Hfrom & Hlen).
  assert (∀ x, x ∈ sel → ∃ t p pl sl, spools s !! PoolKey w t = Some p ∧
    pools (mem s) !! p = Some pl ∧ x ∈ p_slots pl ∧ slots (mem s) !! x = Some sl ∧
    sl_pool sl = Some p ∧ sl_used sl = false ∧ slotKey sl = PoolKey w t) as Hsl.
  { intros x Hx. destruct (Hfrom x Hx) as (t & p & pl & sl & _ & Hp & Hpl & Hin & Hsl & Hpool & Hu).
    rewrite (si_index _ Hs) in Hp. exists t, p, pl, sl. split_and!; try done.
    by eapply (mi_keys _ _ Hm). }
  split_and!; [by eapply flips_mem_inv| | |done| |].
  - intros x Hx. destruct (Hsl x Hx) as (t & p & pl & sl & Hp & Hpl & Hin & Hx' & Hpool & Hu & Hkey).
    apply (held_slot_lookup (spools s) (mem s) st' x sl (set_used true sl)); try done.
    + rewrite (fl_slots _ _ _ _ Hf), decide_True, Hx' by done. done.
    + apply Hf.
    + by eapply flips_pools_back.
    + exists p. split_and!; [done|by eapply lookup_lt_Some|]. intros k pl' Hk Hpl'.
      rewrite Hkey. rewrite Hpl in Hpl'. injection Hpl' as <-.
      split; [by eapply (mi_inj _ _ Hm)|done].
  - intros x Hx. assert (x ∉ sel) as Hn.
    { intros Hin. destruct (Hsl x Hin) as (t & p & pl & sl & _ & _ & _ & Hx' & _ & Hu & _).
      rewrite (held_unused _ _ _ _ Hx Hx') in Hu. done. }
    split; [done|]. by eapply flips_held.
  - intros x Hx. destruct (Hsl x Hx) as (t & p & pl & sl & _ & _ & _ & Hx' & _ & _ & Hkey).
    exists (set_used true sl). rewrite (fl_slots _ _ _ _ Hf), decide_True, Hx' by done.
    split; [done|]. by injection Hkey.
  - intros t u Hin Hu. unfold selectSlotsFromPools in Hsel. destruct (forallb _ requests) eqn:Hroom;
      [|done]. destruct (hasRoom_fits _ _ _ _ Hroom) as [Hfits _].
    destruct (Hfits t u Hin Hu) as (p & pl & Hp & _). exists p. split; [by rewrite <- (si_index _ Hs)|].
    by eapply Hlen.
Qed.

(** ** Assigning one item *)

(** What an assignment leaves alone. *)
Record frame (s s' : scheduler) : Prop := {
  fr_workers : workers s' = workers s;
  fr_pools : spools s' = spools s;
  fr_byWorker : byWorker s' = byWorker s;
  fr_replenishing : replenishing s' = replenishing s;
  fr_acked : ackedDuringReplenish s' = ackedDuringReplenish s;
  fr_parked : afterReplenish s' = afterReplenish s;
  fr_batches : batches s' = batches s;
  fr_epoch : capacityEpoch s' = capacityEpoch s;
}.

Lemma frame_refl s : frame s s.
Proof. by split. Qed.

Lemma frame_trans s1 s2 s3 : frame s1 s2 → frame s2 s3 → frame s1 s3.
Proof. intros [] []. split; congruence. Qed.

(** Only the actions and the request channel change. *)
Record only_actions (s s' : scheduler) : Prop := {
  oa_frame : frame s s';
  oa_mem : mem s' = mem s;
  oa_unacked : unackedSlots s' = unackedSlots s;
  oa_count : assignedCount s' = assignedCount s;
}.

Lemma only_actions_refl s : only_actions s s.
Proof. by split. Qed.

Lemma only_actions_trans s1 s2 s3 : only_actions s1 s2 → only_actions s2 s3 → only_actions s1 s3.
Proof. intros [F1 ? ? ?] [F2 ? ? ?]. split; [by eapply frame_trans|congruence..]. Qed.

Lemma only_actions_inv s s' : only_actions s s' → sched_inv s → sched_inv s'.
Proof.
  intros [[Hw Hp Hb Hr Hac Hpk Hba _] Hm Hu Hc] []. split; rewrite ?Hw, ?Hp, ?Hb, ?Hr, ?Hpk, ?Hba, ?Hm, ?Hu, ?Hc; done.
Qed.

Lemma set_actions_only m s : only_actions s (set_actions m s).
Proof. by split. Qed.

Lemma mark_only actionId queue requests a s :
  only_actions s (markActionStarved actionId queue requests a s) ∧
  ∃ a', actions (markActionStarved actionId queue requests a s) !! actionId = Some a' ∧
        workerIds a' = workerIds a.
Proof.
  unfold markActionStarved. destruct (MarkStarved queue requests a) as [new a'] eqn:Hm.
  assert (workerIds a' = workerIds a) as Hids.
  { unfold MarkStarved in Hm. destruct (slotTypeSetOf requests); [case_decide|]; by injection Hm as <- <-. }
  destruct new; (split; [by split|]; exists a'; split; [apply lookup_insert_eq|done]).
Qed.

(** The outcome of assigning one item on an action with candidates [cands], the first [top] of them
    in the top-rank group. *)
Inductive assigned (r : assignSingleResult) (requests : list (string * Z)) (now : Z)
    (cands : list uuid) (top : nat) (s : scheduler) : assignSingleResult → scheduler → Prop :=
  | assigned_miss s' :
      only_actions s s' → (∀ w, w ∈ cands → room (byWorker s) (mem s) now requests w = false) →
      assigned r requests now cands top s (miss r) s'
  | assigned_slot w sel s' :
      frame s s' → w ∈ cands → room (byWorker s) (mem s) now requests w = true →
      (w ∈ list.take top cands ∨
       ∀ v, v ∈ list.take top cands → room (byWorker s) (mem s) now requests v = false) →
      assignedCount s' = assignedCount s + 1 →
      unackedSlots s' = <[assignedCount s + 1 := AssignedSlots sel (ar_reservation r)]> (unackedSlots s) →
      selectSlotsFromPools (default ∅ (byWorker s !! w)) requests now (mem s) = (Selected sel, mem s') →
      assigned r requests now cands top s (assignTo w (assignedCount s + 1) r) s'.

Lemma assigned_inv r requests now cands top s r' s' :
  sched_inv s → request_ok requests → assigned r requests now cands top s r' s' → sched_inv s'.
Proof.
  intros Hs (Hnd & _ & _) Ha. destruct Ha as [s' Ho|w sel s' Hfr Hw Hroom _ Hc Hu Hsel];
    [by eapply only_actions_inv|].
  destruct (selection_held s w requests now sel (mem s') Hs Hnd Hsel) as (Hm & Hsl & Hold & Hnds & _ & _).
  destruct Hs as [Hws Hi Hmem Hh Hf Hp Hin]. destruct Hfr as [Ew Ep Eb Er Ea Epk Eba _].
  assert (unackedSlots s !! (assignedCount s + 1) = None) as Hfresh.
  { destruct (unackedSlots s !! (assignedCount s + 1)) eqn:He; [|done]. apply Hf in He. lia. }
  split; rewrite ?Ew, ?Ep, ?Eb, ?Er, ?Epk, ?Eba, ?Hc, ?Hu; try done.
  - destruct Hh as [Hn Hd Hs']. split.
    + intros id a. rewrite lookup_insert_Some. intros [[<- <-]|[_ Ha]]; [done|by apply (Hn id)].
    + intros i j a b x. rewrite !lookup_insert_Some.
      intros [[<- <-]|[Hi1 Ha]] [[<- <-]|[Hj1 Hb]] Hx Hx'; simpl in *; [done| | |by eapply Hd];
        exfalso; [destruct (Hold x (Hs' _ _ _ Hb Hx'))|destruct (Hold x (Hs' _ _ _ Ha Hx))]; done.
    + intros id a x. rewrite lookup_insert_Some. intros [[<- <-]|[_ Ha]] Hx; [by apply Hsl|].
      apply Hold. by eapply Hs'.
  - intros id a. rewrite lookup_insert_Some. intros [[<- _]|[_ Ha]]; [lia|]. apply Hf in Ha. lia.
Qed.

(** Assigning an item never panics: it assigns it to a candidate with room, trying the top-rank
    group first, or misses because no candidate has room. *)
Lemma assign_spec actionId a r labels requests now s :
  sched_inv s → request_ok requests →
  let '(cands, top) := candidatesOf s a (ar_qi r) labels in
  ∃ r' s', assignSingleton actionId a r labels requests now s = Some (r', s') ∧
    assigned r requests now cands top s r' s' ∧
    ∃ a', actions s' !! actionId = Some a' ∧ workerIds a' = workerIds a.
Proof.
  intros Hs (Hnd & Hne & Hpos). unfold assignSingleton. set (s1 := set_actions _ s).
  pose proof (set_actions_only (<[actionId := bumpRing a]> (actions s)) s) as Ho1. fold s1 in Ho1.
  change (candidatesOf s1 (bumpRing a) (ar_qi r) labels) with (candidatesOf s a (ar_qi r) labels).
  pose proof (candidates_top s a (ar_qi r) labels) as Htop.
  destruct (candidatesOf s a (ar_qi r) labels) as [cands top].
  assert (∃ a', actions s1 !! actionId = Some a' ∧ workerIds a' = workerIds a) as Hact.
  { exists (bumpRing a). split; [apply lookup_insert_eq|done]. }
  destruct Htop as [->|Htop].
  { rewrite bool_decide_true by done. exists (miss r), s1. split_and!; [done| |done].
    constructor; [done|]. set_solver. }
  rewrite !bool_decide_false by (intros ->; simpl in Htop; lia). cbn [orb].
  destruct (tryOrder_perm cands top (ringOffset a) Htop) as [Hperm Htoperm].
  pose proof (tryWorkers_spec (byWorker s1) (tryOrder cands top (ringOffset a)) requests now (mem s1)
    Hnd (λ w, pools_of_worker s w Hs)) as Ht.
  destruct (tryWorkers _ _ _ _ _) as [[|sel|] st']; [| |done].
  - destruct Ht as [-> Hno]. exists (miss r). eexists. split; [reflexivity|].
    assert (∀ w, w ∈ cands → room (byWorker s) (mem s) now requests w = false) as Hno'.
    { intros w Hw. apply Hno. by rewrite Hperm. }
    destruct (_ || _); [|split; [constructor; [|done]|done]; by destruct Ho1].
    destruct (mark_only actionId (qi_Queue (ar_qi r)) requests (bumpRing a) (set_mem (mem s1) s1))
      as [Ho2 Hact2]. split; [|done]. constructor; [|done]. eapply only_actions_trans; [exact Ho1|].
    destruct Ho2 as [[] ? ? ?]. by split; [split|..].
  - destruct Ht as (pre & w & post & Hids & Hpre & Hroom & Hsel).
    destruct (selection_held s w requests now sel st' Hs Hnd Hsel)
      as (_ & _ & _ & _ & Hworker & Hcount).
    destruct sel as [|x sel].
    { destruct requests as [|[t u] rest]; [done|].
      destruct (Hcount t u) as (p & _ & Hl); [by constructor|apply (Hpos t); by constructor|].
      simpl in Hl. specialize (Hpos t u ltac:(constructor)). lia. }
    destruct (Hworker x) as (sl & Hx & Hw); [by constructor|]. cbn [head mbind option_bind].
    rewrite Hx, Hw. eexists _, _. split; [reflexivity|]. split; [|done].
    refine (assigned_slot r requests now cands top s w (x :: sel) _ _ _ _ _ _ _ _); try done.
    { rewrite <- Hperm, Hids. set_solver. }
    setoid_rewrite <- Htoperm. rewrite Hids. by apply first_of_prefix.
Qed.

(** ** Assigning a batch *)

Lemma requestsFor_ok inp qi : input_ok inp → request_ok (requestsFor inp qi).
Proof.
  intros Hin. unfold requestsFor.
  assert (request_ok [(SlotTypeDefault, 1)]) as Hdef.
  { split_and!; [apply NoDup_singleton|done|]. intros t u Htu.
    apply list_elem_of_singleton in Htu as [= -> ->]. lia. }
  destruct (in_requests inp !! qi_StepID qi) as [[|tu req]|] eqn:He; try done.
  by destruct (Hin _ _ He).
Qed.

(** What an attempt does to one result. *)
Record progress (r r' : assignSingleResult) : Prop := {
  pg_qi : ar_qi r' = ar_qi r;
  pg_rate : ar_rateLimit r' = ar_rateLimit r;
  pg_batch : ar_toBatch r' = ar_toBatch r;
  pg_reservation : ar_reservation r' = ar_reservation r;
  pg_keep : ar_succeeded r = true →
    ar_succeeded r' = true ∧ ar_ackId r' = ar_ackId r ∧ ar_workerId r' = ar_workerId r;
  pg_done : wantsSlot r = true → ar_succeeded r' = true ∨ ar_noSlots r' = true;
  pg_skip : wantsSlot r = false → r' = r;
}.

Lemma progress_miss r : wantsSlot r = true → progress r (miss r).
Proof. intros Hw. split; try done; [intros _; by right|congruence]. Qed.

Lemma progress_assigned r requests now cands top s r' s' :
  missed r = true → assigned r requests now cands top s r' s' → progress r r'.
Proof.
  unfold missed. intros [Hw Hs]%andb_true_iff. intros [].
  - by apply progress_miss.
  - split; try done; [|intros _; by left|congruence]. intros Hr. rewrite Hr in Hs. done.
Qed.

Lemma progress_same r : missed r = false → wantsSlot r = true → ar_succeeded r = true.
Proof. unfold missed. intros Hm Hw. rewrite Hw in Hm. by destruct (ar_succeeded r). Qed.

Lemma assignEach_spec actionId inp now res : ∀ s,
  sched_inv s → input_ok inp → is_Some (actions s !! actionId) →
  ∃ res' s', assignEach actionId inp now res s = Some (res', s') ∧ sched_inv s' ∧ frame s s' ∧
    Forall2 progress res res'.
Proof.
  induction res as [|r res IH]; intros s Hs Hin Hact.
  { exists [], s. split_and!; [done|done|apply frame_refl|constructor]. }
  cbn [assignEach]. fold (missed r). destruct (missed r) eqn:Hm.
  - destruct Hact as [a Ha]. rewrite Ha. unfold mbind, option_bind.
    pose proof (requestsFor_ok inp (ar_qi r) Hin) as Hreq.
    pose proof (assign_spec actionId a r (labelsFor inp (ar_qi r)) (requestsFor inp (ar_qi r)) now s
                  Hs Hreq) as Hspec.
    destruct (candidatesOf s a (ar_qi r) (labelsFor inp (ar_qi r))) as [cands top].
    destruct Hspec as (r' & s1 & -> & Has & a' & Ha' & _).
    assert (sched_inv s1) as Hs1 by (by eapply assigned_inv).
    assert (frame s s1) as Hf1 by (destruct Has as [s1 []|]; done).
    destruct (IH s1 Hs1 Hin) as (res' & s' & -> & Hs' & Hf' & Hall); [by exists a'|].
    exists (r' :: res'), s'. split_and!; [done|done|by eapply frame_trans|].
    constructor; [by eapply progress_assigned|done].
  - unfold mbind, option_bind. destruct (IH s Hs Hin Hact) as (res' & s' & -> & Hs' & Hf' & Hall).
    exists (r :: res'), s'. split_and!; [done..|]. constructor; [|done].
    split; try done. intros Hw. left. by apply progress_same.
Qed.

Lemma missAll_spec actionId inp res : ∀ s,
  let '(res', s') := missAll actionId inp res s in
  only_actions s s' ∧ Forall2 progress res res'.
Proof.
  induction res as [|r res IH]; intros s; [split; [apply only_actions_refl|constructor]|].
  cbn [missAll]. destruct (wantsSlot r) eqn:Hw.
  - unfold lookupActionAndMarkStarved.
    destruct (mark_only actionId (qi_Queue (ar_qi r)) (requestsFor inp (ar_qi r))
                (default newAction (actions s !! actionId)) s) as [Ho _].
    set (s1 := markActionStarved _ _ _ _ s) in *. specialize (IH s1).
    destruct (missAll actionId inp res s1) as [res' s']. destruct IH as [Ho' Hall].
    split; [by eapply only_actions_trans|]. constructor; [by apply progress_miss|done].
  - specialize (IH s). destruct (missAll actionId inp res s) as [res' s']. destruct IH as [Ho' Hall].
    split; [done|]. constructor; [|done]. by split; try done; rewrite Hw.
Qed.

Lemma handleAssignBatch_spec actionId inp now res s :
  sched_inv s → input_ok inp →
  ∃ res' s', handleAssignBatch actionId inp now res s = Some (res', s') ∧ sched_inv s' ∧
    frame s s' ∧ Forall2 progress res res'.
Proof.
  intros Hs Hin. unfold handleAssignBatch.
  pose proof (missAll_spec actionId inp res s) as Hm.
  destruct (missAll actionId inp res s) as [res' s'] eqn:He. destruct Hm as [Ho Hall].
  assert (∃ res0 s0, Some (res', s') = Some (res0, s0) ∧ sched_inv s0 ∧ frame s s0 ∧
    Forall2 progress res res0) as Hmiss.
  { exists res', s'. split_and!; [done|by eapply only_actions_inv|apply Ho|done]. }
  destruct (actions s !! actionId) as [a|] eqn:Ha; [|done].
  case_bool_decide; [done|]. apply assignEach_spec; [done|done|by exists a].
Qed.

(** ** Attempts *)

Lemma updBatch_inv i f s :
  (∀ b, b_input (f b) = b_input b) → sched_inv s → sched_inv (updBatch i f s).
Proof.
  intros Hf []. split; try done. intros j b. cbn [batches updBatch set_batches].
  rewrite list_lookup_alter. case_decide as Hij; [|by eauto]. subst.
  destruct (batches s !! j) as [b0|] eqn:Hb; simpl; [|done]. intros [= <-]. rewrite Hf. eauto.
Qed.

Lemma finish_input reason b : b_input (finish reason b) = b_input b.
Proof. unfold finish. by destruct (b_finishedBy b). Qed.

(** An attempt returns; the batch is parked only while a cycle is in flight, and a retry always
    finishes it. *)
Lemma attempt_spec isRetry now i b s :
  sched_inv s → batches s !! i = Some b → b_finishedBy b = None →
  ∃ s' res', attempt isRetry now i s = Some s' ∧ sched_inv s' ∧
    Forall2 progress (b_results b) res' ∧
    (replenishing s' = replenishing s ∧ ackedDuringReplenish s' = ackedDuringReplenish s ∧
     spools s' = spools s ∧ byWorker s' = byWorker s ∧ workers s' = workers s) ∧
    (∃ by_, batches s' = <[i := Batch (b_actionId b) (b_input b) res' by_]> (batches s) ∧
       (by_ = None ↔ isRetry = false ∧ replenishing s = true ∧ batchHasMisses res' = true) ∧
       afterReplenish s' = afterReplenish s ++ (if by_ then [] else [i])).
Proof.
  intros Hs Hb Hfin. unfold attempt. rewrite Hb. unfold mbind, option_bind.
  pose proof (si_inputs _ Hs i b Hb) as Hin.
  destruct (handleAssignBatch_spec (b_actionId b) (b_input b) now (b_results b) s Hs Hin)
    as (res' & s1 & -> & Hs1 & Hf & Hall).
  assert (sched_inv (updBatch i (set_results res') s1)) as Hs2 by (by apply updBatch_inv).
  assert (batches (updBatch i (set_results res') s1) =
    <[i := Batch (b_actionId b) (b_input b) res' None]> (batches s)) as Hb2.
  { cbn. rewrite (fr_batches _ _ Hf). apply list_eq. intros j. rewrite list_lookup_alter.
    destruct (decide (i = j)) as [->|Hij].
    - rewrite list_lookup_insert_eq by (by eapply lookup_lt_Some). rewrite Hb. simpl.
      unfold set_results. by rewrite Hfin.
    - by rewrite list_lookup_insert_ne. }
  set (s2 := updBatch i (set_results res') s1) in *.
  assert (replenishing s2 = replenishing s) as Hr by (cbn; apply Hf).
  assert (afterReplenish s2 = afterReplenish s) as Hp by (cbn; apply Hf).
  rewrite Hr. destruct (negb isRetry && replenishing s && batchHasMisses res') eqn:Hc.
  - apply andb_true_iff in Hc as [[Hretry Hrep]%andb_true_iff Hmiss].
    apply negb_true_iff in Hretry. eexists _, res'. split; [reflexivity|]. split_and!.
    + destruct Hs2. split; try done. cbn. rewrite Hrep. done.
    + done.
    + done. + cbn. apply Hf. + cbn. apply Hf. + cbn. apply Hf. + cbn. apply Hf.
    + exists None. cbn. rewrite <- Hp. split_and!; [exact Hb2|done|done].
  - eexists _, res'. split; [reflexivity|]. split_and!.
    + apply updBatch_inv; [|done]. intros b'. apply finish_input.
    + done.
    + done. + cbn. apply Hf. + cbn. apply Hf. + cbn. apply Hf. + cbn. apply Hf.
    + eexists (Some _). split_and!; [| |cbn; rewrite <- Hp, app_nil_r; done].
      * cbn [batches updBatch set_batches]. rewrite Hb2. apply list_eq. intros j.
        rewrite list_lookup_alter. destruct (decide (i = j)) as [->|Hij].
        -- rewrite !list_lookup_insert_eq by (by eapply lookup_lt_Some). reflexivity.
        -- by rewrite !list_lookup_insert_ne.
      * split; [done|]. intros (-> & Hrep & Hmiss). by rewrite Hrep, Hmiss in Hc.
Qed.

(** ** The run loop *)

Record loop_inv (s : scheduler) : Prop := {
  li_inv : sched_inv s;
  li_waits : ∀ i b, batches s !! i = Some b → b_finishedBy b = None → i ∈ afterReplenish s;
  li_range : ∀ i, i ∈ afterReplenish s → (i < length (batches s))%nat;
}.

Lemma loop_inv_frame s s' :
  sched_inv s' → batches s' = batches s → afterReplenish s' = afterReplenish s →
  loop_inv s → loop_inv s'.
Proof. intros Hs Hb Ha []. by split; rewrite ?Hb, ?Ha. Qed.

(** A retry of a parked batch finishes it, unless the timeout already has. *)
Lemma retryParked_spec now i b s :
  sched_inv s → batches s !! i = Some b → replenishing s = false →
  ∃ s' b', retryParked now i s = Some s' ∧ sched_inv s' ∧ replenishing s' = false ∧
    batches s' = <[i := b']> (batches s) ∧ is_Some (b_finishedBy b') ∧
    spools s' = spools s ∧ byWorker s' = byWorker s ∧ workers s' = workers s.
Proof.
  intros Hs Hb Hr. unfold retryParked. rewrite Hb. unfold mbind, option_bind.
  destruct (b_finishedBy b) as [reason|] eqn:Hfin.
  - exists s, b. split_and!; try done. by rewrite list_insert_id.
  - set (res := (λ r, if missed r then clearMiss r else r) <$> b_results b).
    set (s1 := updBatch i (set_results res) s).
    assert (sched_inv s1) as Hs1 by (by apply updBatch_inv).
    assert (batches s1 = <[i := set_results res b]> (batches s)) as Hb1.
    { cbn. apply list_eq. intros j. rewrite list_lookup_alter. destruct (decide (i = j)) as [->|Hij].
      - rewrite list_lookup_insert_eq by (by eapply lookup_lt_Some). by rewrite Hb.
      - by rewrite list_lookup_insert_ne. }
    destruct (attempt_spec true now i (set_results res b) s1 Hs1)
      as (s' & res' & -> & Hs' & _ & (Hr' & _ & Hp & Hw & Hws) & by_ & Hb' & Hby & _); [|done|].
    { rewrite Hb1. apply list_lookup_insert_eq. by eapply lookup_lt_Some. }
    eexists s', _. split_and!; [done|done|by rewrite Hr'|rewrite Hb', Hb1; apply list_insert_insert_eq
                               | |done..].
    simpl. destruct by_; [done|]. destruct (proj1 Hby eq_refl). done.
Qed.

Lemma retryAll_spec now l : ∀ s,
  sched_inv s → replenishing s = false → (∀ i, i ∈ l → (i < length (batches s))%nat) →
  (∀ i b, batches s !! i = Some b → b_finishedBy b = None → i ∈ l) →
  ∃ s', retryAll now l s = Some s' ∧ loop_inv s' ∧ replenishing s' = false ∧
    (∀ i b, batches s' !! i = Some b → is_Some (b_finishedBy b)) ∧
    spools s' = spools s ∧ byWorker s' = byWorker s ∧ workers s' = workers s.
Proof.
  induction l as [|i l IH]; intros s Hs Hr Hrange Hwait.
  { assert (∀ i b, batches s !! i = Some b → is_Some (b_finishedBy b)) as Hdone.
    { intros i b Hb. destruct (b_finishedBy b) eqn:Hf; [done|]. specialize (Hwait i b Hb Hf). set_solver. }
    exists s. split_and!; try done. split; [done| |].
    - intros i b Hb Hf. specialize (Hdone i b Hb). rewrite Hf in Hdone. by destruct Hdone.
    - rewrite (si_parked _ Hs Hr). set_solver. }
  destruct (lookup_lt_is_Some_2 (batches s) i) as [b Hb]; [apply Hrange; by constructor|].
  destruct (retryParked_spec now i b s Hs Hb Hr) as (s1 & b' & He & Hs1 & Hr1 & Hb1 & Hd & Hp & Hw & Hws).
  cbn [retryAll]. rewrite He. unfold mbind, option_bind.
  destruct (IH s1 Hs1 Hr1) as (s' & Hret & Hl & Hr' & Hdone & Hp' & Hw' & Hws').
  { intros j Hj. rewrite Hb1, length_insert. apply Hrange. by constructor. }
  { intros j c. rewrite Hb1. intros Hc Hf. apply list_lookup_insert_Some in Hc as [(-> & <- & _)|[Hne Hc]].
    - rewrite Hf in Hd. by destruct Hd.
    - specialize (Hwait j c Hc Hf). by apply elem_of_cons in Hwait as [?|?]. }
  exists s'. split_and!; [done|done|done|done|congruence..].
Qed.

Lemma endReplenishCycle_spec now s :
  loop_inv s →
  ∃ s', endReplenishCycle now s = Some s' ∧ loop_inv s' ∧ replenishing s' = false ∧
    (∀ i b, batches s' !! i = Some b → is_Some (b_finishedBy b)) ∧
    spools s' = spools s ∧ byWorker s' = byWorker s ∧ workers s' = workers s.
Proof.
  intros [Hs Hw Hr]. unfold endReplenishCycle.
  apply (retryAll_spec now (afterReplenish s) (set_cycle false ∅ [] s)); try done.
  destruct Hs. by split.
Qed.

(** A new call: its first attempt finishes it, or parks it. *)
Definition submit (b : batch) (now : Z) (s : scheduler) : option scheduler :=
  attempt false now (length (batches s)) (set_batches (batches s ++ [b]) s).

Lemma submit_spec b now s :
  loop_inv s → input_ok (b_input b) → b_finishedBy b = None →
  ∃ s' res' by_, submit b now s = Some s' ∧ loop_inv s' ∧ Forall2 progress (b_results b) res' ∧
    batches s' = batches s ++ [Batch (b_actionId b) (b_input b) res' by_] ∧
    (by_ = None → replenishing s = true ∧ batchHasMisses res' = true).
Proof.
  intros [Hs Hw Hr] Hin Hfin. unfold submit. set (s1 := set_batches _ s).
  assert (sched_inv s1) as Hs1.
  { destruct Hs. split; try done. intros i c. cbn. rewrite lookup_app_Some.
    intros [Hc|[_ Hc]]; [by eapply si_inputs0|]. apply list_lookup_singleton_Some in Hc as [_ <-]. done. }
  destruct (attempt_spec false now (length (batches s)) b s1 Hs1)
    as (s' & res' & He & Hs' & Hall & _ & by_ & Hb & Hby & Hpk); [|done|].
  { cbn. by rewrite lookup_app_r, Nat.sub_diag by lia. }
  assert (batches s' = batches s ++ [Batch (b_actionId b) (b_input b) res' by_]) as Hb'.
  { rewrite Hb. cbn. rewrite insert_app_r_alt, Nat.sub_diag by lia. done. }
  exists s', res', by_. split_and!; [done| |done|done|by intros ->; apply Hby].
  cbn in Hpk. split; [done| |].
  - intros i c. rewrite Hb', Hpk. rewrite lookup_app_Some. intros [Hc|[Hi Hc]] Hf.
    + apply elem_of_app. left. eauto.
    + apply list_lookup_singleton_Some in Hc as [Hi0 <-]. simpl in Hf. subst by_.
      apply elem_of_app. right. replace i with (length (batches s)) by lia. set_solver.
  - intros i. rewrite Hb', Hpk, length_app. intros [Hi|Hi]%elem_of_app.
    + specialize (Hr i Hi). simpl. lia.
    + destruct by_; [set_solver|]. apply list_elem_of_singleton in Hi. simpl. lia.
Qed.

End SchedulerInv.
