(* ===== verification/Replenish.v ===== *)
(** The rebuild of a replenish cycle (phase 5 of replenish in src/pkg/scheduling/v1/scheduler.go):
    the pools it installs are exact, hold every unacked slot of their key, and offer no more free
    slots than the database reported minus what is unacked or was acked during the cycle. *)

From S2P Require Import Prelude Workers SlotPool Action RateLimit Scheduler SchedulerInv.
Import Workers SlotPool Action Scheduler SchedulerInv.

Module Replenish.

Open Scope Z_scope.

(** ** The unacked slots of a key *)

Definition heldSlots (s : scheduler) : list nat :=
  concat ((λ ia, as_slots ia.2) <$> map_to_list (unackedSlots s)).

Definition keyOf (s : scheduler) (x : nat) : option poolKey := slotKey <$> slots (mem s) !! x.

Lemma elem_of_concat {A} (x : A) (ls : list (list A)) : x ∈ concat ls ↔ ∃ l, x ∈ l ∧ l ∈ ls.
Proof.
  induction ls as [|l ls IH]; simpl; [set_solver|]. rewrite elem_of_app, IH. set_solver.
Qed.

Lemma NoDup_assignments (l : list (Z * assignedSlots)) :
  NoDup l.*1 → (∀ i a, (i, a) ∈ l → NoDup (as_slots a)) →
  (∀ i j a b x, (i, a) ∈ l → (j, b) ∈ l → x ∈ as_slots a → x ∈ as_slots b → i = j) →
  NoDup (concat ((λ ia, as_slots ia.2) <$> l)).
Proof.
  induction l as [|[i a] l IH]; intros Hnd Hn Hd; [constructor|].
  apply NoDup_cons in Hnd as [Hi Hnd]. cbn [fmap list_fmap concat]. apply NoDup_app. split_and!.
  - apply (Hn i). by constructor.
  - intros x Hx Hx'. apply elem_of_concat in Hx' as (xs & Hx' & Hin).
    apply list_elem_of_fmap in Hin as ([j b] & -> & Hin). apply Hi.
    assert (i = j) as ->.
    { eapply (Hd i j a b x); [by constructor|by constructor|done|done]. }
    by apply (list_elem_of_fmap_2 fst) in Hin.
  - apply IH; [done| |].
    + intros j b Hb. apply (Hn j). by constructor.
    + intros j j' b b' x Hb Hb'. apply (Hd j j' b b'); by constructor.
Qed.

Lemma elem_of_heldSlots s x :
  x ∈ heldSlots s ↔ ∃ id a, unackedSlots s !! id = Some a ∧ x ∈ as_slots a.
Proof.
  unfold heldSlots. rewrite elem_of_concat. split.
  - intros (xs & Hx & Hin). apply list_elem_of_fmap in Hin as ([i a] & -> & Hin).
    apply elem_of_map_to_list in Hin. eauto.
  - intros (id & a & Ha & Hx). exists (as_slots a). split; [done|].
    apply elem_of_map_to_list in Ha. by apply (list_elem_of_fmap_2 (λ ia, as_slots ia.2)) in Ha.
Qed.

Lemma heldSlots_nodup s : sched_inv s → NoDup (heldSlots s).
Proof.
  intros Hs. apply NoDup_assignments.
  - apply NoDup_fst_map_to_list.
  - intros i a Ha%elem_of_map_to_list. by eapply (hi_nodup _ _ _ (si_held _ Hs)).
  - intros i j a b x Ha%elem_of_map_to_list Hb%elem_of_map_to_list.
    by eapply (hi_disj _ _ _ (si_held _ Hs)).
Qed.

Lemma unackedByPool_spec s k :
  default [] (unackedByPool s !! k) = filter (λ x, keyOf s x = Some k) (heldSlots s).
Proof.
  unfold unackedByPool, keyOf. fold (heldSlots s).
  induction (heldSlots s) as [|x l IH] using rev_ind; [done|].
  rewrite foldl_snoc, filter_app, <- IH, filter_cons, filter_nil.
  destruct (slots (mem s) !! x) as [sl|] eqn:Hsl; cbn [fmap option_fmap option_map].
  - destruct (decide (slotKey sl = k)) as [->|Hne].
    + rewrite lookup_insert_eq, decide_True by done. done.
    + rewrite lookup_insert_ne, decide_False by congruence. by rewrite app_nil_r.
  - rewrite decide_False by done. by rewrite app_nil_r.
Qed.

Lemma unackedByPool_dom s k x :
  sched_inv s → x ∈ heldSlots s → keyOf s x = Some k → k ∈ dom (unackedByPool s).
Proof.
  intros Hs Hx Hk. apply elem_of_dom.
  assert (x ∈ default [] (unackedByPool s !! k)) as Hin
    by (rewrite unackedByPool_spec; by apply list_elem_of_filter).
  destruct (unackedByPool s !! k); [done|]. set_solver.
Qed.

Lemma unackedByPool_nonempty s k : unackedByPool s !! k ≠ Some [].
Proof.
  unfold unackedByPool. fold (heldSlots s).
  induction (heldSlots s) as [|x l IH] using rev_ind; [done|]. rewrite foldl_snoc.
  destruct (slots (mem s) !! x) as [sl|]; [|done].
  destruct (decide (slotKey sl = k)) as [->|Hne].
  - rewrite lookup_insert_eq. intros [= He]. by apply app_eq_nil in He as [_ ?].
  - by rewrite lookup_insert_ne.
Qed.

(** ** One pool *)

Lemma pool_ok_same st st' q pl :
  pool_ok st q pl → pools st' !! q = pools st !! q →
  (∀ x, x ∈ p_slots pl → slots st' !! x = slots st !! x) → pool_ok st' q pl.
Proof.
  intros [Hp Hs Hn Hf] Hq Hx.
  assert (∀ i s, p_slots pl !! i = Some s → slots st' !! s = slots st !! s) as Hx'.
  { intros i s Hi. apply Hx. by eapply list_elem_of_lookup_2. }
  split; [by rewrite Hq| |done|].
  - intros i s Hi. rewrite (Hx' i s Hi). by apply Hs.
  - intros i. rewrite Hf. split; intros (s & sl & Hi & Hsl & Hu); exists s, sl;
      specialize (Hx' i s Hi); split_and!; congruence.
Qed.

Section rebuild.
Context (s : scheduler) (avail : gmap poolKey Z) (e : Z).
Hypothesis Hs : sched_inv s.

Definition mine (k : poolKey) : list nat := default [] (unackedByPool s !! k).

Lemma mine_nodup k : NoDup (mine k).
Proof. unfold mine. rewrite unackedByPool_spec. by apply NoDup_filter, heldSlots_nodup. Qed.

Lemma elem_of_mine k x : x ∈ mine k ↔ x ∈ heldSlots s ∧ keyOf s x = Some k.
Proof. unfold mine. rewrite unackedByPool_spec, list_elem_of_filter. tauto. Qed.

Lemma mine_lookup k x : x ∈ mine k → ∃ sl, slots (mem s) !! x = Some sl ∧ slotKey sl = k.
Proof.
  intros [_ Hk]%elem_of_mine. unfold keyOf in Hk. by apply fmap_Some in Hk as (sl & ? & ->); eauto.
Qed.

(** The state of the rebuild after the keys [K]. *)
Record built (K : list poolKey) (next : nextPools) : Prop := {
  bu_slots : ∀ x sl, slots (mem s) !! x = Some sl → ∃ sl', slots (np_mem next) !! x = Some sl' ∧
    slotKey sl' = slotKey sl ∧ sl_used sl' = sl_used sl ∧
    ((∀ k, is_Some (np_pools next !! k) → x ∉ mine k) → sl' = sl);
  bu_len : (length (pools (mem s)) ≤ length (pools (np_mem next)))%nat;
  bu_dom : ∀ k p, np_pools next !! k = Some p → k ∈ K ∧ is_Some (workers s !! pk_workerId k) ∧
    (spools s !! k = Some p ∨ (length (pools (mem s)) ≤ p)%nat);
  bu_all : ∀ k, k ∈ K → is_Some (workers s !! pk_workerId k) → is_Some (np_pools next !! k);
  bu_index : ∀ w t, default ∅ (np_byWorker next !! w) !! t = np_pools next !! PoolKey w t;
  bu_inj : ∀ k k' p, np_pools next !! k = Some p → np_pools next !! k' = Some p → k = k';
  bu_pool : ∀ k p, np_pools next !! k = Some p → ∃ pl fresh,
    pool_ok (np_mem next) p pl ∧ p_slots pl = fresh ++ mine k ∧
    length fresh = availableCount s avail (mine k) k ∧ p_expiresAt pl = e ∧
    ∀ x, x ∈ fresh → (length (slots (mem s)) ≤ x)%nat ∧
      ∃ sl, slots (np_mem next) !! x = Some sl ∧ slotKey sl = k ∧ sl_used sl = false;
}.

Lemma built_nil : built [] (NextPools ∅ ∅ (mem s)).
Proof.
  split; simpl; try done; set_solver.
Qed.

Lemma spools_lt k p : spools s !! k = Some p → (p < length (pools (mem s)))%nat.
Proof.
  intros Hp. destruct (mi_pools _ _ (si_mem _ Hs) k p Hp) as [pl Hpl].
  by eapply lookup_lt_Some, Hpl.
Qed.

(** The pool object of a key not built yet is none of the pools built so far. *)
Lemma poolObject_spec K next k p st :
  built K next → np_pools next !! k = None → poolObject s k (np_mem next) = (p, st) →
  slots st = slots (np_mem next) ∧ (∃ pl, pools st !! p = Some pl) ∧
  (∀ q, q ≠ p → (q < length (pools (np_mem next)))%nat → pools st !! q = pools (np_mem next) !! q) ∧
  (length (pools (np_mem next)) ≤ length (pools st))%nat ∧
  (spools s !! k = Some p ∨ (length (pools (mem s)) ≤ p)%nat) ∧
  (∀ k' q, np_pools next !! k' = Some q → q ≠ p ∧ (q < length (pools (np_mem next)))%nat).
Proof.
  intros Hb Hk. unfold poolObject.
  assert (∀ k' q, np_pools next !! k' = Some q → (q < length (pools (np_mem next)))%nat) as Hlt.
  { intros k' q Hq. destruct (bu_pool _ _ Hb k' q Hq) as (pl & ? & Hok & _). by eapply lookup_lt_Some, Hok. }
  destruct (spools s !! k) as [p0|] eqn:Hp0; intros [= <- <-]; cbn [slots pools].
  - pose proof (spools_lt k p0 Hp0) as Hl. pose proof (bu_len _ _ Hb).
    split_and!; [done|apply lookup_lt_is_Some; lia|done|lia|by left|].
    intros k' q Hq. split; [|by eapply Hlt]. intros ->.
    destruct (bu_dom _ _ Hb k' p0 Hq) as (_ & _ & [Hk'|Hge]); [|lia].
    rewrite (mi_inj _ _ (si_mem _ Hs) _ _ _ Hp0 Hk') in Hk. congruence.
  - pose proof (bu_len _ _ Hb). rewrite length_app. simpl.
    split_and!; [done| | |lia|by right|].
    + exists (Pool 0 "" RateLimit.zeroTime [] []). by rewrite lookup_app_r, Nat.sub_diag by lia.
    + intros q Hne Hq. by rewrite lookup_app_l.
    + intros k' q Hq. specialize (Hlt k' q Hq). split; [lia|done].
Qed.

(** The store after the pool of key [k] was reset. *)
Definition installed (w : worker) (k : poolKey) (p : nat) (st : store) : store :=
  let n := availableCount s avail (mine k) k in
  let st := updPool p (λ pl, Pool (ID w) (pk_slotType k) (p_expiresAt pl) (p_slots pl) (p_free pl)) st in
  reset p (seq (length (slots st)) n ++ mine k) e
    (Store (slots st ++ replicate n (Slot (ID w) None (pk_slotType k) 0 false)) (pools st)).

Lemma mine_built K next k x :
  built K next → x ∈ mine k →
  (x < length (slots (mem s)))%nat ∧
  ∃ sl, slots (np_mem next) !! x = Some sl ∧ slotKey sl = k.
Proof.
  intros Hb Hx. destruct (mine_lookup k x Hx) as (sl & Hsl & Hk).
  split; [by eapply lookup_lt_Some|].
  destruct (bu_slots _ _ Hb x sl Hsl) as (sl' & Hsl' & Hkey & _). exists sl'. split; [done|congruence].
Qed.

Lemma slots_grow K next :
  built K next → (length (slots (mem s)) ≤ length (slots (np_mem next)))%nat.
Proof.
  intros Hb. destruct (length (slots (mem s))) as [|n] eqn:Hn; [lia|].
  destruct (lookup_lt_is_Some_2 (slots (mem s)) n) as [sl Hsl]; [lia|].
  destruct (bu_slots _ _ Hb n sl Hsl) as (sl' & Hsl' & _). apply lookup_lt_Some in Hsl'. lia.
Qed.

Lemma installed_spec K next k p st1 w :
  built K next → np_pools next !! k = None → poolObject s k (np_mem next) = (p, st1) →
  ID w = pk_workerId k →
  let st := installed w k p st1 in
  let fresh := seq (length (slots (np_mem next))) (availableCount s avail (mine k) k) in
  (∃ free, pool_ok st p (Pool (ID w) (pk_slotType k) e (fresh ++ mine k) free)) ∧
  (∀ x, (x < length (slots (np_mem next)))%nat → x ∉ mine k →
     slots st !! x = slots (np_mem next) !! x) ∧
  (∀ x sl, x ∈ mine k → slots (np_mem next) !! x = Some sl →
     ∃ j, slots st !! x = Some (place p j sl)) ∧
  (∀ x, x ∈ fresh → ∃ sl, slots st !! x = Some sl ∧ slotKey sl = k ∧ sl_used sl = false) ∧
  (∀ q, q ≠ p → (q < length (pools (np_mem next)))%nat → pools st !! q = pools (np_mem next) !! q) ∧
  (length (pools (np_mem next)) ≤ length (pools st))%nat.
Proof.
  intros Hb Hk Hpo Hid. cbv zeta. unfold installed. set (n := availableCount _ _ _ _).
  destruct (poolObject_spec K next k p st1 Hb Hk Hpo) as (Hsl1 & [pl Hpl] & Hq & Hlen & _ & _).
  cbn [slots pools updPool]. rewrite Hsl1.
  set (fresh := seq (length (slots (np_mem next))) n).
  set (new := Slot (ID w) None (pk_slotType k) 0 false).
  set (st3 := Store (slots (np_mem next) ++ replicate n new) _).
  assert (∀ x sl, slots (np_mem next) !! x = Some sl → slots st3 !! x = Some sl) as Hold3.
  { intros x sl Hx. cbn. rewrite lookup_app_l; [done|by eapply lookup_lt_Some]. }
  assert (∀ x, x ∈ fresh → slots st3 !! x = Some new) as Hfresh3.
  { intros x [? ?]%elem_of_seq. cbn. rewrite lookup_app_r by lia. apply lookup_replicate_2. lia. }
  assert (∀ x, x ∈ mine k → x ∉ fresh) as Hdisj.
  { intros x Hx [? _]%elem_of_seq. destruct (mine_built K next k x Hb Hx) as (_ & sl & Hsl & _).
    apply lookup_lt_Some in Hsl. lia. }
  destruct (reset_spec st3 p (Pool (ID w) (pk_slotType k) (p_expiresAt pl) (p_slots pl) (p_free pl))
              (fresh ++ mine k) e) as ([free Hok] & Hin & Hout & Hother & _ & Hlen4).
  - apply NoDup_app. split_and!; [apply NoDup_seq| |apply mine_nodup].
    intros x Hx Hx'. by apply (Hdisj x).
  - intros x [Hx|Hx]%elem_of_app; [rewrite (Hfresh3 x Hx); eauto|].
    destruct (mine_built K next k x Hb Hx) as (_ & sl & Hsl & _). rewrite (Hold3 x sl Hsl). eauto.
  - cbn. by rewrite list_lookup_alter_eq, Hpl.
  - split_and!.
    + by exists free.
    + intros x Hx Hm. rewrite Hout.
      * destruct (lookup_lt_is_Some_2 _ _ Hx) as [sl Hsl]. by rewrite (Hold3 x sl Hsl).
      * intros [[? _]%elem_of_seq|?]%elem_of_app; [lia|done].
    + intros x sl Hx Hsl. assert (x ∈ fresh ++ mine k) as Hx' by set_solver.
      apply list_elem_of_lookup in Hx' as [j Hj]. exists j. by apply (Hin j x sl Hj), Hold3.
    + intros x Hx. assert (x ∈ fresh ++ mine k) as Hx' by set_solver.
      apply list_elem_of_lookup in Hx' as [j Hj]. eexists. split; [by apply (Hin j x new Hj), Hfresh3|].
      split; [|done]. unfold slotKey, new. simpl. rewrite Hid. by destruct k.
    + intros q Hne Hlt. rewrite Hother by done. cbn. rewrite list_lookup_alter_ne by done. by apply Hq.
    + rewrite Hlen4. cbn. by rewrite length_alter.
Qed.

Lemma buildPool_installed next k w p st1 :
  workers s !! pk_workerId k = Some w → poolObject s k (np_mem next) = (p, st1) →
  buildPool s (unackedByPool s) avail e next k =
  NextPools (<[k := p]> (np_pools next))
    (<[pk_workerId k := <[pk_slotType k := p]> (default ∅ (np_byWorker next !! pk_workerId k))]>
       (np_byWorker next))
    (installed w k p st1).
Proof. intros Hw Hp. unfold buildPool. by rewrite Hw, Hp. Qed.

Lemma build_step K next k :
  built K next → k ∉ K → built (K ++ [k]) (buildPool s (unackedByPool s) avail e next k).
Proof.
  intros Hb Hnk.
  assert (np_pools next !! k = None) as Hk.
  { destruct (np_pools next !! k) eqn:He; [|done]. by apply (bu_dom _ _ Hb) in He as [? _]. }
  destruct (workers s !! pk_workerId k) as [w|] eqn:Hw.
  2:{ unfold buildPool. rewrite Hw. destruct Hb as [B1 B2 B3 B4 B5 B6 B7]. split; try done.
      - intros k' p Hp. destruct (B3 k' p Hp) as (? & ? & ?). split_and!; [set_solver|done..].
      - intros k' [Hin| ->%list_elem_of_singleton]%elem_of_app Hs'; [by apply B4|].
        rewrite Hw in Hs'. by destruct Hs'. }
  destruct (poolObject s k (np_mem next)) as [p st1] eqn:Hpo.
  rewrite (buildPool_installed next k w p st1 Hw Hpo).
  pose proof (si_workers _ Hs _ _ Hw) as Hid.
  destruct (poolObject_spec K next k p st1 Hb Hk Hpo) as (_ & _ & _ & _ & Hfrom & Hdiff).
  destruct (installed_spec K next k p st1 w Hb Hk Hpo Hid)
    as ([free Hok] & Hkeep & Hplaced & Hfresh & Hpools & Hlen).
  set (st := installed w k p st1) in *. set (fresh := seq _ _) in *.
  pose proof (slots_grow K next Hb) as Hgrow.
  split; cbn [np_pools np_byWorker np_mem].
  - intros x sl Hx. destruct (bu_slots _ _ Hb x sl Hx) as (sl1 & Hx1 & Hkey & Hu & Hsame).
    destruct (decide (x ∈ mine k)) as [Hin|Hin].
    + destruct (Hplaced x sl1 Hin Hx1) as [j Hj]. exists (place p j sl1). split_and!; try done.
      intros Hnone. destruct (Hnone k); [rewrite lookup_insert_eq; by eexists|done].
    + exists sl1. rewrite Hkeep; [|by eapply lookup_lt_Some|done]. split_and!; try done.
      intros Hnone. apply Hsame. intros k' Hk'. apply Hnone. rewrite lookup_insert_is_Some'. by right.
  - pose proof (bu_len _ _ Hb). lia.
  - intros k' q. rewrite lookup_insert_Some. intros [[<- <-]|[Hne Hq]].
    + split_and!; [set_solver|by rewrite Hw|done].
    + destruct (bu_dom _ _ Hb k' q Hq) as (? & ? & ?). split_and!; [set_solver|done..].
  - intros k' [Hin| ->%list_elem_of_singleton]%elem_of_app Hs'; rewrite lookup_insert_is_Some'; [|by left].
    right. by apply (bu_all _ _ Hb).
  - intros w' t. destruct k as [kw kt]. cbn [pk_workerId pk_slotType].
    destruct (decide (w' = kw)) as [->|Hne].
    + rewrite lookup_insert_eq. cbn [default from_option id]. destruct (decide (t = kt)) as [->|Hnt].
      * by rewrite !lookup_insert_eq.
      * rewrite !lookup_insert_ne by congruence. apply (bu_index _ _ Hb).
    + rewrite !lookup_insert_ne by congruence. apply (bu_index _ _ Hb).
  - intros k1 k2 q. rewrite !lookup_insert_Some.
    intros [[<- <-]|[H1 Hq1]] [[<- Heq]|[H2 Hq2]]; try done.
    + by destruct (Hdiff _ _ Hq2).
    + subst. by destruct (Hdiff _ _ Hq1).
    + by eapply (bu_inj _ _ Hb).
  - intros k' q. rewrite lookup_insert_Some. intros [[<- <-]|[Hne Hq]].
    + eexists _, fresh. split_and!; [exact Hok|done|apply length_seq|done|].
      intros x Hx. split; [apply elem_of_seq in Hx; lia|by apply Hfresh].
    + destruct (bu_pool _ _ Hb k' q Hq) as (pl & fr & Hokq & Hslots & Hl & He & Hfr).
      destruct (Hdiff k' q Hq) as [Hqp Hqlt].
      assert (∀ x, x ∈ p_slots pl → slots st !! x = slots (np_mem next) !! x) as Hx.
      { intros x Hin. assert (x < length (slots (np_mem next)))%nat as Hlt.
        { apply list_elem_of_lookup in Hin as [i Hi].
          destruct (ok_slots _ _ _ Hokq i x Hi) as (sl & Hsl & _). by eapply lookup_lt_Some. }
        apply Hkeep; [done|]. intros Hm. destruct (mine_built K next k x Hb Hm) as (Hltm & sl & Hsl & Hks).
        rewrite Hslots in Hin. apply elem_of_app in Hin as [Hin|Hin].
        - destruct (Hfr x Hin). lia.
        - destruct (mine_lookup k' x Hin) as (sl1 & Hs1 & Hk1).
          destruct (mine_lookup k x Hm) as (sl2 & Hs2 & Hk2). congruence. }
      exists pl, fr. split_and!; try done.
      * eapply pool_ok_same; [exact Hokq|by apply Hpools|done].
      * intros x Hin. destruct (Hfr x Hin) as (Hge & sl & Hsl & Hkey & Hu). split; [done|].
        exists sl. rewrite Hx by (rewrite Hslots; set_solver). done.
Qed.

Lemma build_all K :
  NoDup K →
  built K (foldl (buildPool s (unackedByPool s) avail e) (NextPools ∅ ∅ (mem s)) K).
Proof.
  induction K as [|k K IH] using rev_ind; intros Hnd; [apply built_nil|].
  rewrite foldl_snoc. apply NoDup_app in Hnd as (Hnd & Hdisj & _). apply build_step; [by apply IH|].
  intros Hk. apply (Hdisj k Hk). set_solver.
Qed.

End rebuild.

(** ** The whole rebuild *)

(** The keys a rebuild looks at: those configured and those that hold an unacked slot. *)
Definition rebuildKeys (configs : list poolKey) (s : scheduler) : list poolKey :=
  elements (list_to_set configs ∪ dom (unackedByPool s) : gset poolKey).

Lemma rebuild_built configs avail e s :
  sched_inv s → built s avail e (rebuildKeys configs s) (rebuildPools configs avail e s).
Proof. intros Hs. unfold rebuildPools. apply build_all; [done|]. apply NoDup_elements. Qed.

(** The scheduler with the rebuilt pools. *)
Definition rebuilt (next : nextPools) (s : scheduler) : scheduler :=
  markWorkerCapacityUpdated
    (set_mem (np_mem next) (set_pools (np_pools next) (np_byWorker next) s)).

Lemma held_key s x sl : slots (mem s) !! x = Some sl → keyOf s x = Some (slotKey sl).
Proof. intros Hx. unfold keyOf. by rewrite Hx. Qed.

Lemma rebuilt_inv configs avail e s :
  sched_inv s → sched_inv (rebuilt (rebuildPools configs avail e s) s).
Proof.
  intros Hs. pose proof (rebuild_built configs avail e s Hs) as Hb.
  set (next := rebuildPools configs avail e s) in *. pose proof Hs as [Hw Hi Hm Hh Hf Hp Hin].
  split; try done; cbn [spools byWorker mem unackedSlots rebuilt markWorkerCapacityUpdated set_mem set_pools].
  - apply (bu_index _ _ _ _ _ Hb).
  - split; [apply (bu_inj _ _ _ _ _ Hb)| |].
    + intros k p Hk. destruct (bu_pool _ _ _ _ _ Hb k p Hk) as (pl & ? & Hok & _). eauto.
    + intros k p pl' x sl Hk Hpl' Hx Hsl.
      destruct (bu_pool _ _ _ _ _ Hb k p Hk) as (pl & fresh & Hok & Hslots & _ & _ & Hfresh).
      assert (pl' = pl) as -> by (pose proof (ok_pool _ _ _ Hok); congruence).
      rewrite Hslots in Hx. apply elem_of_app in Hx as [Hx|Hx].
      * destruct (Hfresh x Hx) as (_ & sl' & Hsl' & Hkey & _). congruence.
      * destruct (mine_built s avail e _ next k x Hb Hx) as (_ & sl' & Hsl' & Hkey). congruence.
  - destruct Hh as [Hn Hd Hsl]. split; [done|done|]. intros id a x Ha Hx.
    destruct (Hsl id a x Ha Hx) as (sl & p & Hx0 & Hu & Hpool & Hlt & Hk).
    destruct (bu_slots _ _ _ _ _ Hb x sl Hx0) as (sl' & Hx' & Hkey & Hu' & Hsame).
    assert (x ∈ mine s (slotKey sl)) as Hmine.
    { apply elem_of_mine. split; [apply elem_of_heldSlots; eauto|by apply held_key]. }
    destruct (np_pools next !! slotKey sl) as [q|] eqn:Hq.
    + destruct (bu_pool _ _ _ _ _ Hb _ q Hq) as (pl & fresh & Hok & Hslots & _).
      assert (x ∈ p_slots pl) as Hxin by (rewrite Hslots; set_solver).
      apply list_elem_of_lookup in Hxin as [i Hxi].
      destruct (ok_slots _ _ _ Hok i x Hxi) as (sl1 & Hx1 & Hpool1 & _).
      assert (sl1 = sl') as -> by congruence.
      exists sl', q. split_and!; [done|congruence|done|by eapply lookup_lt_Some, Hok|].
      intros k pl2 Hk2 Hpl2. rewrite (bu_inj _ _ _ _ _ Hb _ _ _ Hk2 Hq).
      split; [congruence|]. assert (pl2 = pl) as -> by (pose proof (ok_pool _ _ _ Hok); congruence).
      by eapply list_elem_of_lookup_2.
    + assert (sl' = sl) as ->.
      { apply Hsame. intros k Hk' Hxk. apply elem_of_mine in Hxk as [_ Hxk].
        rewrite (held_key s x sl Hx0) in Hxk. injection Hxk as <-. rewrite Hq in Hk'. by destruct Hk'. }
      exists sl, p. pose proof (bu_len _ _ _ _ _ Hb). split_and!; [done..|lia|].
      intros k pl Hk' _. exfalso. destruct (bu_dom _ _ _ _ _ Hb k p Hk') as (_ & _ & [Hold|Hge]); [|lia].
      destruct (lookup_lt_is_Some_2 _ _ Hlt) as [pl0 Hpl0]. destruct (Hk k pl0 Hold Hpl0) as [-> _].
      congruence.
Qed.

(** The free slots of a rebuilt pool are exactly its fresh ones. *)
Lemma rebuilt_free configs avail e s k p :
  sched_inv s → np_pools (rebuildPools configs avail e s) !! k = Some p →
  ∃ pl, pool_ok (np_mem (rebuildPools configs avail e s)) p pl ∧
    length (p_free pl) = availableCount s avail (mine s k) k ∧ p_expiresAt pl = e ∧
    (∀ x, x ∈ mine s k → x ∈ p_slots pl) ∧
    length (p_slots pl) = (availableCount s avail (mine s k) k + length (mine s k))%nat.
Proof.
  intros Hs Hk. pose proof (rebuild_built configs avail e s Hs) as Hb.
  set (next := rebuildPools configs avail e s) in *.
  destruct (bu_pool _ _ _ _ _ Hb k p Hk) as (pl & fresh & Hok & Hslots & Hlen & He & Hfresh).
  exists pl. split_and!; [done| |done| |].
  - rewrite <- Hlen. rewrite <- (length_seq (length fresh) 0). apply Permutation_length.
    apply NoDup_Permutation; [apply Hok|apply NoDup_seq|]. intros i.
    rewrite (ok_free _ _ _ Hok), elem_of_seq, Hslots. split.
    + intros (x & sl & Hi & Hsl & Hu). apply lookup_app_Some in Hi as [Hi|[Hge Hi]].
      * apply lookup_lt_Some in Hi. lia.
      * exfalso. apply list_elem_of_lookup_2 in Hi. apply elem_of_mine in Hi as [Hi Hkx].
        apply elem_of_heldSlots in Hi as (id & a & Ha & Hx).
        destruct (hi_slot _ _ _ (si_held _ Hs) id a x Ha Hx) as (sl0 & q & Hx0 & Hu0 & _).
        destruct (bu_slots _ _ _ _ _ Hb x sl0 Hx0) as (sl1 & Hx1 & _ & Hu1 & _). congruence.
    + intros [_ Hi]. destruct (lookup_lt_is_Some_2 fresh i Hi) as [x Hx].
      destruct (Hfresh x) as (_ & sl & Hsl & _ & Hu); [by eapply list_elem_of_lookup_2|].
      exists x, sl. split_and!; [|done|done]. by apply lookup_app_l_Some.
  - intros x Hx. rewrite Hslots. set_solver.
  - rewrite Hslots, length_app, Hlen. done.
Qed.

Lemma applyReplenish_spec configs avail groups refreshedAt now s :
  loop_inv s →
  ∃ restored s', applyReplenish configs avail groups refreshedAt now s = Some (restored, s') ∧
    loop_inv s' ∧ replenishing s' = false ∧
    (∀ i b, batches s' !! i = Some b → is_Some (b_finishedBy b)).
Proof.
  intros [Hs Hw Hr]. unfold applyReplenish. fold (rebuilt (rebuildPools configs avail
    (refreshedAt + defaultSlotExpiry) s) s).
  set (next := rebuildPools configs avail (refreshedAt + defaultSlotExpiry) s).
  pose proof (rebuilt_inv configs avail (refreshedAt + defaultSlotExpiry) s Hs) as Hs1. fold next in Hs1.
  set (acts := omap snd _).
  destruct (endReplenishCycle_spec now (set_actions acts (rebuilt next s)))
    as (s' & -> & Hl & Hrep & Hdone & _).
  { eapply (loop_inv_frame (rebuilt next s)); [|done|done|].
    - by eapply only_actions_inv; [apply set_actions_only|].
    - eapply (loop_inv_frame s); [done|done|done|by split]. }
  eexists _, s'. unfold mbind, option_bind. split_and!; done.
Qed.

End Replenish.
