(* ===== verification/SchedulerTheorems.v ===== *)
(** What the tenant scheduler promises: no slot is booked twice, an assignment finds a worker with
    room whenever a candidate has one, a miss records starvation exactly when the type is drained, a
    nack undoes an assignment, a rebuild offers no more than the database has, parked assignments are
    answered when the cycle ends, and no operation of the run loop panics. *)

From S2P Require Import Prelude Workers SlotPool Action RateLimit Scheduler SchedulerInv Replenish.
Import Workers SlotPool Action Scheduler SchedulerInv Replenish.

Module SchedulerTheorems.

Open Scope Z_scope.

(** ** The run loop as a step relation *)

(** One operation of the loop, in any order its senders choose. *)
Inductive sched_step (s : scheduler) : scheduler → Prop :=
  | step_ack ids : sched_step s (handleAck ids s).2
  | step_nack ids : sched_step s (handleNack ids s).2
  | step_setWorkers ws : sched_step s (setWorkers ws s)
  | step_addWorker w : sched_step s (addWorker w s)
  | step_removeWorker id : sched_step s (removeWorker id s)
  | step_submit b now s' :
      input_ok (b_input b) → b_finishedBy b = None → submit b now s = Some s' → sched_step s s'
  | step_timeout i : sched_step s (parkedTimeout i s)
  | step_item qi labels checkedAt now r s' :
      tryAssignBatchQueueItem qi labels checkedAt now s = Some (r, s') → sched_step s s'
  | step_begin : sched_step s (beginReplenish s).2
  | step_compute must scanNow groups : sched_step s (computeActions must scanNow groups s).2
  | step_restart : sched_step s (restartAckCount s)
  | step_apply configs avail groups refreshedAt now restored s' :
      applyReplenish configs avail groups refreshedAt now s = Some (restored, s') → sched_step s s'
  | step_abandon now s' : abandonReplenish now s = Some s' → sched_step s s'.

(** *** Each operation preserves the invariant *)

Lemma ackOne_frame id s :
  batches (ackOne id s).2 = batches s ∧ afterReplenish (ackOne id s).2 = afterReplenish s.
Proof. unfold ackOne. destruct (unackedSlots s !! id); [|done]. simpl. by destruct (replenishing s). Qed.

Lemma nackOne_frame id s :
  batches (nackOne id s).2 = batches s ∧ afterReplenish (nackOne id s).2 = afterReplenish s.
Proof. unfold nackOne. by destruct (unackedSlots s !! id). Qed.

Lemma handleEach_frame f ids : ∀ s,
  (∀ id s, batches (f id s).2 = batches s ∧ afterReplenish (f id s).2 = afterReplenish s) →
  batches (handleEach f ids s).2 = batches s ∧ afterReplenish (handleEach f ids s).2 = afterReplenish s.
Proof.
  induction ids as [|id ids IH]; intros s Hf; [done|]. cbn [handleEach].
  destruct (Hf id s) as [H1 H2]. destruct (f id s) as [cs s1]. simpl in H1, H2.
  destruct (IH s1 Hf) as [H3 H4]. destruct (handleEach f ids s1). simpl in *. split; congruence.
Qed.

Lemma set_cycle_inv b acked s :
  (b = false → afterReplenish s = []) → sched_inv s → sched_inv (set_cycle b acked (afterReplenish s) s).
Proof. intros Hb []. by split. Qed.

Lemma defaultRequest_ok : request_ok [(SlotTypeDefault, 1)].
Proof.
  split_and!; [apply NoDup_singleton|done|]. intros t u Htu.
  apply list_elem_of_singleton in Htu as [= -> ->]. lia.
Qed.

Lemma item_spec qi labels checkedAt now s :
  sched_inv s →
  ∃ r s', tryAssignBatchQueueItem qi labels checkedAt now s = Some (r, s') ∧ sched_inv s' ∧ frame s s'.
Proof.
  intros Hs. unfold tryAssignBatchQueueItem. destruct (isTimedOut checkedAt qi).
  { eexists _, s. split_and!; [done|done|apply frame_refl]. }
  assert (∃ r s', Some (miss (newResult qi), lookupActionAndMarkStarved (qi_ActionID qi) (qi_Queue qi)
    [(SlotTypeDefault, 1)] s) = Some (r, s') ∧ sched_inv s' ∧ frame s s') as Hmiss.
  { destruct (mark_only (qi_ActionID qi) (qi_Queue qi) [(SlotTypeDefault, 1)]
      (default newAction (actions s !! qi_ActionID qi)) s) as [Ho _].
    eexists _, _. split; [reflexivity|]. split; [by eapply only_actions_inv|apply Ho]. }
  destruct (actions s !! qi_ActionID qi) as [a|]; [|done]. case_bool_decide; [done|].
  pose proof (assign_spec (qi_ActionID qi) a (newResult qi) labels [(SlotTypeDefault, 1)] now s Hs
                defaultRequest_ok) as Hspec.
  destruct (candidatesOf _ _ _ _) as [cands top]. destruct Hspec as (r & s' & -> & Ha & _).
  exists r, s'. split_and!; [done|by eapply assigned_inv; [| |done]; [|apply defaultRequest_ok]|].
  by destruct Ha as [s' []|].
Qed.

Lemma sched_step_inv s s' : sched_step s s' → loop_inv s → loop_inv s'.
Proof.
  intros Hstep Hl. pose proof (li_inv _ Hl) as Hs. destruct Hstep.
  - destruct (handleEach_frame ackOne ids s ackOne_frame).
    apply (loop_inv_frame s); [|done..]. apply handleEach_inv; [apply ackOne_inv|done].
  - destruct (handleEach_frame nackOne ids s nackOne_frame).
    apply (loop_inv_frame s); [|done..]. apply handleEach_inv; [apply nackOne_inv|done].
  - apply (loop_inv_frame s); [by apply setWorkers_inv|done..].
  - apply (loop_inv_frame s); [by apply addWorker_inv|done..].
  - apply (loop_inv_frame s); [by apply removeWorker_inv|done..].
  - destruct (submit_spec b now s Hl) as (s1 & res & by_ & He & Hl1 & _); [done..|]. congruence.
  - assert (sched_inv (parkedTimeout i s)) as Hs' by (apply updBatch_inv; [apply finish_input|done]).
    destruct Hl as [_ Hw Hr]. split; [done| |].
    + intros j b. cbn. rewrite list_lookup_alter. case_decide as Hij; [|by apply Hw]. subst.
      destruct (batches s !! j) as [b0|] eqn:Hb0; simpl; [|done]. intros [= <-] Hf.
      apply (Hw j b0 Hb0). unfold finish in Hf.
      destruct (b_finishedBy b0) eqn:Hf0; simpl in Hf; congruence.
    + intros j Hj. cbn. rewrite length_alter. by apply Hr.
  - destruct (item_spec qi labels checkedAt now s Hs) as (r1 & s1 & He & Hs1 & Hf).
    assert (s1 = s') as -> by congruence. apply (loop_inv_frame s); [done|apply Hf|apply Hf|done].
  - unfold beginReplenish. destruct (replenishing s); [done|].
    apply (loop_inv_frame s); [by apply set_cycle_inv|done..].
  - apply (loop_inv_frame s); [by eapply only_actions_inv; [apply set_actions_only|]|done..].
  - apply (loop_inv_frame s); [by apply set_cycle_inv; [apply (si_parked _ Hs)|]|done..].
  - destruct (applyReplenish_spec configs avail groups refreshedAt now s Hl) as (? & ? & ? & ? & _).
    congruence.
  - destruct (endReplenishCycle_spec now s Hl) as (s1 & He & Hl1 & _). unfold abandonReplenish in *.
    congruence.
Qed.

Lemma new_loop_inv : loop_inv newScheduler.
Proof.
  split; [|by intros [] ?|set_solver]. split; simpl; try done; try (by intros ? ? ?).
Qed.

Lemma reachable_inv s : rtc sched_step newScheduler s → loop_inv s.
Proof.
  intros Hrtc. pose proof new_loop_inv as Hl. revert Hl. remember newScheduler as s0 eqn:H0. clear H0.
  induction Hrtc as [|s1 s2 s3 Hstep _ IH]; [done|]. intros Hl. apply IH. by eapply sched_step_inv.
Qed.

(** ** A scheduler with two default slots on one worker, both assigned by a batch of two items *)

Definition sampleKey : poolKey := PoolKey 5 SlotTypeDefault.
Definition sampleGroups : gmap string (list uuid) := {["act"%string := [5]]}.
Definition sampleItem (id : Z) : queueItem :=
  QueueItem id id 1 "act" "q" StickyNONE None RateLimit.zeroTime 1 0 None "" "" None.

Definition sampleCycle : scheduler :=
  (computeActions true 0 sampleGroups (beginReplenish (addWorker (Worker 5 "w" [] ∅) newScheduler)).2).2.

Definition sampleReady : scheduler :=
  match applyReplenish [sampleKey] {[sampleKey := 2]} sampleGroups 0 0 sampleCycle with
  | Some (_, s) => s
  | None => sampleCycle
  end.

Definition sampleBatch : batch :=
  Batch "act" (AssignInput ∅ ∅ ∅) [newResult (sampleItem 1); newResult (sampleItem 2)] None.

Definition sampleAssigned : scheduler := default sampleReady (submit sampleBatch 0 sampleReady).

Lemma sampleCycle_reachable : rtc sched_step newScheduler sampleCycle.
Proof.
  eapply rtc_l; [apply (step_addWorker _ (Worker 5 "w" [] ∅))|]. eapply rtc_l; [apply step_begin|].
  eapply rtc_l; [apply (step_compute _ true 0 sampleGroups)|]. constructor.
Qed.

Lemma sampleReady_reachable : rtc sched_step newScheduler sampleReady.
Proof.
  etrans; [apply sampleCycle_reachable|]. unfold sampleReady.
  destruct (applyReplenish _ _ _ _ _ _) as [[restored s]|] eqn:He; [|constructor].
  eapply rtc_l; [by eapply step_apply|constructor].
Qed.

Lemma sampleBatch_ok : input_ok (b_input sampleBatch).
Proof. intros step req. simpl. by rewrite lookup_empty. Qed.

Lemma sampleAssigned_reachable : rtc sched_step newScheduler sampleAssigned.
Proof.
  etrans; [apply sampleReady_reachable|]. unfold sampleAssigned.
  destruct (submit _ _ _) as [s|] eqn:He; [|constructor].
  eapply rtc_l; [eapply step_submit; [apply sampleBatch_ok|done|done]|constructor].
Qed.

(** A batch that arrives during the cycle, before the action has slots, is parked. *)
Definition sampleParked : scheduler := default sampleCycle (submit sampleBatch 0 sampleCycle).

Lemma sampleParked_reachable : rtc sched_step newScheduler sampleParked.
Proof.
  etrans; [apply sampleCycle_reachable|]. unfold sampleParked.
  destruct (submit _ _ _) as [s|] eqn:He; [|constructor].
  eapply rtc_l; [eapply step_submit; [apply sampleBatch_ok|done|done]|constructor].
Qed.

Definition sampleAction : action := default newAction (actions sampleReady !! "act"%string).

Definition sampleResult : option (assignSingleResult * scheduler) :=
  assignSingleton "act" sampleAction (newResult (sampleItem 3)) [] [(SlotTypeDefault, 1)] 0 sampleReady.

(** C2: in every state the run loop reaches, whatever the order of assignments, acks, nacks, worker
    updates, timeouts and replenish phases, no slot is held by two unacked assignments, no free list
    offers a held slot, and the free list of every installed pool is exactly its unused slots. *)
Theorem never_double_booked s :
  rtc sched_step newScheduler s →
  (∀ id id' a a' x, unackedSlots s !! id = Some a → unackedSlots s !! id' = Some a' →
     x ∈ as_slots a → x ∈ as_slots a' → id = id') ∧
  (∀ id a x, unackedSlots s !! id = Some a → x ∈ as_slots a →
     ∀ k p pl i, spools s !! k = Some p → pools (mem s) !! p = Some pl → i ∈ p_free pl →
       p_slots pl !! i ≠ Some x) ∧
  (∀ k p, spools s !! k = Some p → ∃ pl, pool_ok (mem s) p pl).
Proof.
  intros Hr. pose proof (li_inv _ (reachable_inv s Hr)) as Hs. split_and!.
  - apply (hi_disj _ _ _ (si_held _ Hs)).
  - intros id a x Ha Hx k p pl i Hp Hpl Hi Hix.
    destruct (hi_slot _ _ _ (si_held _ Hs) id a x Ha Hx) as (sl & q & Hsl & Hu & _).
    destruct (mi_pools _ _ (si_mem _ Hs) k p Hp) as [pl' Hok].
    assert (pl' = pl) as -> by (pose proof (ok_pool _ _ _ Hok); congruence).
    apply (ok_free _ _ _ Hok) in Hi as (x' & sl' & Hi' & Hsl' & Hu'). congruence.
  - intros k p Hp. by apply (mi_pools _ _ (si_mem _ Hs) k).
Qed.

Lemma never_double_booked_witness :
  size (unackedSlots sampleAssigned) = 2%nat ∧
  ∀ a a' x, unackedSlots sampleAssigned !! 1 = Some a → unackedSlots sampleAssigned !! 2 = Some a' →
    x ∈ as_slots a → x ∉ as_slots a'.
Proof.
  split; [vm_compute; reflexivity|]. intros a a' x Ha Ha' Hx Hx'.
  destruct (never_double_booked sampleAssigned sampleAssigned_reachable) as [Hd _].
  by specialize (Hd 1 2 a a' x Ha Ha' Hx Hx').
Defined.

(** C34: no operation of the run loop panics in a reachable state: assigning a batch whose requests
    ask for positive units, assigning the item of a batch flush, applying a rebuild and ending a cycle
    all return. *)
Theorem run_loop_never_panics s :
  rtc sched_step newScheduler s →
  (∀ b now, input_ok (b_input b) → b_finishedBy b = None → is_Some (submit b now s)) ∧
  (∀ qi labels checkedAt now, is_Some (tryAssignBatchQueueItem qi labels checkedAt now s)) ∧
  (∀ configs avail groups refreshedAt now,
     is_Some (applyReplenish configs avail groups refreshedAt now s)) ∧
  (∀ now, is_Some (abandonReplenish now s)).
Proof.
  intros Hr. pose proof (reachable_inv s Hr) as Hl. split_and!.
  - intros b now Hin Hf. destruct (submit_spec b now s Hl Hin Hf) as (s' & ? & ? & -> & _). eauto.
  - intros qi labels c now. destruct (item_spec qi labels c now s (li_inv _ Hl)) as (? & ? & -> & _). eauto.
  - intros configs avail groups ra now.
    destruct (applyReplenish_spec configs avail groups ra now s Hl) as (? & ? & -> & _). eauto.
  - intros now. destruct (endReplenishCycle_spec now s Hl) as (? & He & _).
    unfold abandonReplenish. rewrite He. eauto.
Qed.

Lemma run_loop_never_panics_witness : is_Some (submit sampleBatch 0 sampleReady).
Proof.
  apply (run_loop_never_panics sampleReady sampleReady_reachable); [apply sampleBatch_ok|reflexivity].
Defined.

(** A batch parked because it raced a replenish is answered: in every reachable state a batch that
    is not finished is parked, and batches are parked only while a cycle is in flight; when the cycle
    ends, applied or abandoned, every batch is finished. *)
Theorem parked_batches_finish s :
  rtc sched_step newScheduler s →
  (∀ i b, batches s !! i = Some b → b_finishedBy b = None →
     i ∈ afterReplenish s ∧ replenishing s = true) ∧
  (∀ now s', abandonReplenish now s = Some s' →
     ∀ i b, batches s' !! i = Some b → is_Some (b_finishedBy b)) ∧
  (∀ configs avail groups refreshedAt now restored s',
     applyReplenish configs avail groups refreshedAt now s = Some (restored, s') →
     ∀ i b, batches s' !! i = Some b → is_Some (b_finishedBy b)).
Proof.
  intros Hr. pose proof (reachable_inv s Hr) as Hl. split_and!.
  - intros i b Hb Hf. pose proof (li_waits _ Hl i b Hb Hf) as Hin. split; [done|].
    destruct (replenishing s) eqn:He; [done|]. rewrite (si_parked _ (li_inv _ Hl) He) in Hin. set_solver.
  - intros now s' He. destruct (endReplenishCycle_spec now s Hl) as (s1 & He1 & _ & _ & Hd & _).
    unfold abandonReplenish in He. assert (s1 = s') as -> by congruence. done.
  - intros configs avail groups ra now restored s' He.
    destruct (applyReplenish_spec configs avail groups ra now s Hl) as (r1 & s1 & He1 & _ & _ & Hd).
    assert (s1 = s') as -> by congruence. done.
Qed.

Lemma parked_batches_finish_witness :
  afterReplenish sampleParked = [0%nat] ∧ replenishing sampleParked = true.
Proof.
  split; [vm_compute; reflexivity|].
  destruct (parked_batches_finish sampleParked sampleParked_reachable) as [Hp _].
  destruct (batches sampleParked !! 0%nat) as [b|] eqn:Hb; [|vm_compute in Hb; discriminate].
  refine (proj2 (Hp 0%nat b Hb _)). vm_compute in Hb. injection Hb as <-. reflexivity.
Defined.

(** The pools a rebuild installs are those of the registered workers that are configured or hold
    unacked slots; each keeps all unacked slots of its key, expires with the slot expiry, and has as
    free slots exactly the slots the database reported available, less those unacked and those acked
    while the read was in flight, and never fewer than zero. *)
Theorem rebuild_capacity configs avail e s k :
  sched_inv s →
  let next := rebuildPools configs avail e s in
  let held := filter (λ x, keyOf s x = Some k) (heldSlots s) in
  (is_Some (np_pools next !! k) ↔
     is_Some (workers s !! pk_workerId k) ∧ (k ∈ configs ∨ held ≠ [])) ∧
  ∀ p, np_pools next !! k = Some p →
    ∃ pl, pool_ok (np_mem next) p pl ∧ p_expiresAt pl = e ∧ (∀ x, x ∈ held → x ∈ p_slots pl) ∧
      Z.of_nat (length (p_free pl)) =
        Z.max 0 (default 0 (avail !! k) - Z.of_nat (length held) -
                 default 0 (ackedDuringReplenish s !! k)).
Proof.
  intros Hs. cbv zeta. pose proof (rebuild_built configs avail e s Hs) as Hb.
  assert (mine s k = filter (λ x, keyOf s x = Some k) (heldSlots s)) as Hmine
    by (unfold mine; apply unackedByPool_spec).
  rewrite <- Hmine. split.
  - split.
    + intros [p Hp]. destruct (bu_dom _ _ _ _ _ Hb k p Hp) as (Hk & Hw & _). split; [done|].
      unfold rebuildKeys in Hk. rewrite elem_of_elements in Hk.
      apply elem_of_union in Hk as [Hk|Hk]; [left; by apply elem_of_list_to_set in Hk|right].
      rewrite Hmine. intros He. apply elem_of_dom in Hk as [l Hl].
      pose proof (unackedByPool_spec s k) as Hsp. rewrite Hl, He in Hsp. simpl in Hsp. subst l.
      by apply (unackedByPool_nonempty s k).
    + intros [Hw Hk]. apply (bu_all _ _ _ _ _ Hb); [|done]. unfold rebuildKeys.
      rewrite elem_of_elements, elem_of_union, elem_of_list_to_set.
      destruct Hk as [Hk|Hk]; [by left|right]. apply elem_of_dom.
      unfold mine in Hk. by destruct (unackedByPool s !! k).
  - intros p Hp. destruct (rebuilt_free configs avail e s k p Hs Hp) as (pl & Hok & Hfree & He & Hin & _).
    exists pl. split_and!; [done..|]. rewrite Hfree. unfold availableCount. lia.
Qed.

Lemma rebuild_capacity_witness :
  let next := rebuildPools [sampleKey] {[sampleKey := 5]} 7 sampleAssigned in
  ∃ p pl, np_pools next !! sampleKey = Some p ∧ pool_ok (np_mem next) p pl ∧
    Z.of_nat (length (p_free pl)) = 3.
Proof.
  cbv zeta.
  destruct (rebuild_capacity [sampleKey] {[sampleKey := 5]} 7 sampleAssigned sampleKey
              (li_inv _ (reachable_inv _ sampleAssigned_reachable))) as [_ Hcap].
  destruct (np_pools _ !! sampleKey) as [p|] eqn:Hp; [|vm_compute in Hp; discriminate].
  destruct (Hcap p eq_refl) as (pl & Hok & _ & _ & Hfree). exists p, pl. split_and!; [done..|].
  rewrite Hfree. vm_compute. reflexivity.
Defined.

(** ** Assigning one item *)

(** C33: an item is assigned exactly when one of its candidate workers has room for its whole request:
    then it goes to such a worker, one of the top-rank group unless the whole group is full, under a
    fresh ack id that holds the slots and the item's rate-limit reservation; otherwise it is a miss and
    no slot, pool or assignment changes. *)
Theorem assignment_complete actionId a r labels requests now s :
  sched_inv s → request_ok requests → ar_succeeded r = false →
  let '(cands, top) := candidatesOf s a (ar_qi r) labels in
  let fits w := room (byWorker s) (mem s) now requests w = true in
  ∃ r' s', assignSingleton actionId a r labels requests now s = Some (r', s') ∧
    (ar_succeeded r' = true ↔ ∃ w, w ∈ cands ∧ fits w) ∧
    (ar_succeeded r' = true →
       ar_workerId r' ∈ cands ∧ fits (ar_workerId r') ∧
       ((∃ w, w ∈ list.take top cands ∧ fits w) → ar_workerId r' ∈ list.take top cands) ∧
       unackedSlots s !! ar_ackId r' = None ∧
       ∃ sel, unackedSlots s' = <[ar_ackId r' := AssignedSlots sel (ar_reservation r)]> (unackedSlots s) ∧
              (selectSlotsFromPools (default ∅ (byWorker s !! ar_workerId r')) requests now (mem s)).1 =
                Selected sel) ∧
    (ar_succeeded r' = false →
       r' = miss r ∧ mem s' = mem s ∧ unackedSlots s' = unackedSlots s ∧ spools s' = spools s).
Proof.
  intros Hs Hreq Hr. pose proof (assign_spec actionId a r labels requests now s Hs Hreq) as Hspec.
  destruct (candidatesOf s a (ar_qi r) labels) as [cands top]. cbv zeta.
  destruct Hspec as (r' & s' & He & Ha & _). exists r', s'. split; [done|].
  destruct Ha as [s' Ho Hno|w sel s' Hf Hw Hroom Htop Hc Hu Hsel]; simpl.
  - rewrite Hr. split_and!; [|done|by intros _; destruct Ho as [[] ? ? ?]].
    split; [done|]. intros (w & Hw & Hfit). rewrite Hno in Hfit by done. done.
  - split_and!; [by split; eauto| |done]. intros _. split_and!; [done|done| | |].
    + intros (v & Hv & Hfit). destruct Htop as [?|Hfull]; [done|]. rewrite Hfull in Hfit; done.
    + destruct (unackedSlots s !! (assignedCount s + 1)) eqn:Hid; [|done].
      apply (si_fresh _ Hs) in Hid. lia.
    + exists sel. split; [done|]. by rewrite Hsel.
Qed.

Lemma assignment_complete_witness :
  ∃ r' s', sampleResult = Some (r', s') ∧
    (ar_succeeded r' = true ↔ ∃ w, w ∈ [5] ∧
       room (byWorker sampleReady) (mem sampleReady) 0 [(SlotTypeDefault, 1)] w = true) ∧
    ar_succeeded r' = true.
Proof.
  pose proof (assignment_complete "act" sampleAction (newResult (sampleItem 3)) [] [(SlotTypeDefault, 1)] 0
    sampleReady (li_inv _ (reachable_inv _ sampleReady_reachable)) defaultRequest_ok eq_refl) as H.
  assert (candidatesOf sampleReady sampleAction (sampleItem 3) [] = ([5], 1%nat)) as Hc
    by (vm_compute; reflexivity).
  simpl ar_qi in H. rewrite Hc in H. destruct H as (r' & s' & He & Hiff & _).
  exists r', s'. split_and!; [exact He|exact Hiff|]. apply Hiff. exists 5.
  split; [by constructor|vm_compute; reflexivity].
Defined.

(** A filter that drops nothing. *)
Lemma filter_full {A} (P : A → Prop) `{!∀ x, Decision (P x)} (l : list A) :
  length (filter P l) = length l → filter P l = l.
Proof.
  induction l as [|x l IH]; [done|]. rewrite filter_cons. pose proof (length_filter P l).
  case_decide; simpl; intros Hl; [f_equal; apply IH|]; lia.
Qed.

(** The candidates are among the workers of the action; all of them when none is dropped. *)
Lemma candidates_all s a qi labels :
  let cands := (candidatesOf s a qi labels).1 in
  length cands = length (workerIds a) → cands ≡ₚ workerIds a.
Proof.
  unfold candidatesOf. destruct (_ || _); [|done]. cbv zeta.
  destruct (rankWorkerIds_sorts (workers s) qi labels (workerIds a)) as (l & -> & Hp & _). simpl.
  rewrite Hp, rankAll_ids. intros Hl. by rewrite (filter_full _ _ Hl).
Qed.

(** A worker without room for a request of single units has no free slot of some requested type. *)
Lemma single_unit_room pbw st now requests w :
  request_ok requests → isSingleUnitRequest requests = true → room pbw st now requests w = false →
  forallb (λ t, negb (bool_decide (freeCountAt now (poolAt st (default ∅ (pbw !! w) !! t)) = 0%nat)))
    requests.*1 = false.
Proof.
  intros (_ & _ & Hpos) Hone Hroom. apply forallb_false in Hroom as ([t u] & Hin & Hu).
  apply not_true_iff_false. intros Hall. rewrite forallb_forall in Hall.
  unfold isSingleUnitRequest in Hone. rewrite forallb_forall in Hone.
  specialize (Hone (t, u) (proj1 (list_elem_of_In _ _) Hin)). simpl in Hone.
  specialize (Hall t). rewrite <- list_elem_of_In in Hall.
  specialize (Hall (list_elem_of_fmap_2 fst _ _ Hin)). specialize (Hpos t u Hin).
  unfold hasRoom in Hu. apply orb_false_iff in Hu as [_ Hu]. apply bool_decide_eq_false in Hu.
  rewrite negb_true_iff, bool_decide_eq_false in Hone, Hall. lia.
Qed.

(** The shortcut of a miss agrees with the scan it avoids. *)
Lemma miss_shortcut s a qi labels requests now :
  let cands := (candidatesOf s a qi labels).1 in
  request_ok requests → (∀ w, w ∈ cands → room (byWorker s) (mem s) now requests w = false) →
  (bool_decide (length cands = length (workerIds a)) && isSingleUnitRequest requests) ||
    negb (hasFreeSlotOfEachType (byWorker s) (workerIds a) requests now (mem s)) =
  negb (hasFreeSlotOfEachType (byWorker s) (workerIds a) requests now (mem s)).
Proof.
  cbv zeta. intros Hreq Hno.
  destruct (bool_decide _ && isSingleUnitRequest requests) eqn:Hc; [|done]. simpl. symmetry.
  apply andb_true_iff in Hc as [Hl%bool_decide_eq_true Hone]. apply candidates_all in Hl.
  apply negb_true_iff, not_true_iff_false. unfold hasFreeSlotOfEachType, hasFreeSlotOfEachTypeIn.
  rewrite existsb_exists. intros (w & Hw & Hfree). rewrite <- list_elem_of_In, <- Hl in Hw.
  by rewrite single_unit_room in Hfree by auto.
Qed.

(** A miss marks the item's queue as starved, and asks for a replenish the first time, exactly
    when no worker of the action has a free slot of every requested type; an item that ranking left
    without candidates, or that asked for more than any one worker has free, marks nothing.  The
    shortcut that skips the scan for single-unit requests never changes the answer. *)
Theorem starvation_marked_exactly actionId a r labels requests now s s' :
  sched_inv s → request_ok requests →
  assignSingleton actionId a r labels requests now s = Some (miss r, s') →
  ar_succeeded r = false →
  let drained := negb (hasFreeSlotOfEachType (byWorker s) (workerIds a) requests now (mem s)) in
  let marks := negb (bool_decide ((candidatesOf s a (ar_qi r) labels).1 = [])) && drained in
  let '(new, marked) := MarkStarved (qi_Queue (ar_qi r)) requests (bumpRing a) in
  actions s' = <[actionId := if marks then marked else bumpRing a]> (actions s) ∧
  notifyReplenishCh s' = notifyReplenishCh s || (marks && new).
Proof.
  intros Hs Hreq He Hr. cbv zeta. pose proof Hreq as (Hnd & _ & _).
  pose proof (miss_shortcut s a (ar_qi r) labels requests now) as Hshort. cbv zeta in Hshort.
  unfold assignSingleton in He. set (s1 := set_actions _ s) in He.
  change (candidatesOf s1 (bumpRing a) (ar_qi r) labels) with (candidatesOf s a (ar_qi r) labels) in He.
  pose proof (candidates_top s a (ar_qi r) labels) as Htop.
  destruct (candidatesOf s a (ar_qi r) labels) as [cands top]. simpl in *.
  destruct (MarkStarved (qi_Queue (ar_qi r)) requests (bumpRing a)) as [new marked] eqn:Hmark.
  destruct Htop as [->|Htop].
  { rewrite bool_decide_true in * by done. injection He as <-. simpl. by rewrite orb_false_r. }
  assert (cands ≠ []) as Hne by (intros ->; simpl in Htop; lia).
  rewrite (bool_decide_false _ Hne) in *. rewrite bool_decide_false in He by lia. cbn [orb negb andb] in *.
  destruct (tryOrder_perm cands top (ringOffset a) Htop) as [Hperm _].
  pose proof (tryWorkers_spec (byWorker s1) (tryOrder cands top (ringOffset a)) requests now (mem s1)
    Hnd (λ w, pools_of_worker s w Hs)) as Ht.
  destruct (tryWorkers _ _ _ _ _) as [[|sel|] st']; [| |done].
  - destruct Ht as [-> Hno]. injection He as <-. simpl.
    rewrite Hshort; [|done|intros w Hw; apply Hno; by rewrite Hperm].
    destruct (negb _); [|by rewrite orb_false_r].
    unfold markActionStarved. rewrite Hmark. cbn. rewrite insert_insert_eq.
    destruct new; simpl; by rewrite ?orb_true_r, ?orb_false_r.
  - destruct (head sel ≫= _) as [first|]; [|done].
    apply (f_equal (fmap (ar_succeeded ∘ fst))) in He. simpl in He. congruence.
Qed.

Lemma starvation_marked_exactly_witness :
  ∃ s', assignSingleton "act" sampleAction (newResult (sampleItem 3)) [] [(SlotTypeDefault, 1)] 0
          sampleAssigned = Some (miss (newResult (sampleItem 3)), s') ∧
    notifyReplenishCh s' = true.
Proof.
  destruct (assignSingleton "act" sampleAction (newResult (sampleItem 3)) [] [(SlotTypeDefault, 1)] 0
              sampleAssigned) as [[r' s']|] eqn:He; [|vm_compute in He; discriminate].
  assert (r' = miss (newResult (sampleItem 3))) as ->.
  { apply (f_equal (fmap fst)) in He. vm_compute in He. injection He as <-. reflexivity. }
  pose proof (starvation_marked_exactly "act" sampleAction (newResult (sampleItem 3)) []
    [(SlotTypeDefault, 1)] 0 sampleAssigned s' (li_inv _ (reachable_inv _ sampleAssigned_reachable))
    defaultRequest_ok He eq_refl) as H. cbv zeta in H.
  destruct (MarkStarved _ _ _) as [new marked] eqn:Hm. destruct H as [_ H]. exists s'. split; [done|].
  rewrite H. assert (new = true) as -> by (apply (f_equal fst) in Hm; vm_compute in Hm; done).
  vm_compute. reflexivity.
Defined.

(** ** Nack *)

Lemma releaseSlot_flips installed st x :
  mem_inv installed st → held_slot installed st x →
  (∀ sl, slots st !! x = Some sl → ∃ k p, installed !! k = Some p ∧ sl_pool sl = Some p) →
  flips false [x] st (releaseSlot x st).
Proof.
  intros Hm (sl & p & Hsl & Hu & Hp & Hlt & Hk) Hinst.
  destruct (Hinst sl Hsl) as (k & q & Hq & Hpq). assert (q = p) as -> by congruence.
  destruct (mi_pools _ _ Hm k p Hq) as [pl Hok].
  destruct (Hk k pl Hq (ok_pool _ _ _ Hok)) as [_ Hin]. apply list_elem_of_lookup in Hin as [i Hi].
  destruct (ok_slots _ _ _ Hok i x Hi) as (sl' & Hsl' & _ & Hidx).
  assert (sl' = sl) as -> by congruence. unfold releaseSlot. rewrite Hsl. simpl. rewrite Hp.
  apply (release_spec st p pl x sl Hok Hsl); [by rewrite Hidx|done].
Qed.

Lemma releaseAll_flips installed xs : ∀ st,
  NoDup xs → mem_inv installed st → (∀ x, x ∈ xs → held_slot installed st x) →
  (∀ x sl, x ∈ xs → slots st !! x = Some sl → ∃ k p, installed !! k = Some p ∧ sl_pool sl = Some p) →
  flips false xs st (foldl (flip releaseSlot) st xs).
Proof.
  induction xs as [|x xs IH]; intros st Hnd Hm Hh Hinst; [apply flips_nil|]. cbn [foldl].
  unfold flip at 2. apply NoDup_cons in Hnd as [Hx Hnd].
  assert (flips false [x] st (releaseSlot x st)) as Hf.
  { apply (releaseSlot_flips installed); [done|apply Hh; by constructor|].
    intros sl. apply Hinst. by constructor. }
  apply (flips_app false [x] xs st (releaseSlot x st)); [done|]. apply IH; [done| | |].
  - by eapply flips_mem_inv.
  - intros y Hy. eapply flips_held; [done|done|set_solver|]. apply Hh. by constructor.
  - intros y sl Hy. rewrite (fl_slots _ _ _ _ Hf), decide_False by set_solver.
    apply Hinst. by constructor.
Qed.

(** Taking slots and giving them back restores the slots, and every exact pool up to the order of its
    free list. *)
Lemma flips_undo sel st st' st'' :
  flips true sel st st' → flips false sel st' st'' →
  slots st'' = slots st ∧
  ∀ p pl, pool_ok st p pl → ∃ pl'', pools st'' !! p = Some pl'' ∧ same_pool pl pl'' ∧
    p_free pl'' ≡ₚ p_free pl.
Proof.
  intros F1 F2. assert (slots st'' = slots st) as Hslots.
  { apply list_eq. intros x. rewrite (fl_slots _ _ _ _ F2), (fl_slots _ _ _ _ F1).
    destruct (decide (x ∈ sel)) as [Hx|]; [|done].
    destruct (fl_before _ _ _ _ F1 x Hx) as (sl & -> & Hu). simpl. f_equal.
    destruct sl. simpl in *. by subst. }
  split; [done|]. intros p pl Hok. destruct (fl_pools _ _ _ _ F1 p pl Hok) as (pl1 & Hok1 & Hs1).
  destruct (fl_pools _ _ _ _ F2 p pl1 Hok1) as (pl2 & Hok2 & Hs2).
  pose proof (same_pool_trans _ _ _ Hs1 Hs2) as Hs. exists pl2. split_and!; [apply Hok2|done|].
  apply NoDup_Permutation; [apply Hok2|apply Hok|]. intros i.
  rewrite (ok_free _ _ _ Hok2), (ok_free _ _ _ Hok), Hslots. destruct Hs as (_ & _ & _ & ->). done.
Qed.

(** Nacking an assignment undoes it: its rate-limit reservation is returned to the caller to be
    released, the unacked assignments and every slot are as before the assignment, and every pool has
    the same slots free. *)
Theorem nack_undoes_assignment actionId a r labels requests now s r' s' :
  sched_inv s → request_ok requests → ar_succeeded r = false →
  assignSingleton actionId a r labels requests now s = Some (r', s') → ar_succeeded r' = true →
  let '(released, s'') := handleNack [ar_ackId r'] s' in
  released = option_list (ar_reservation r) ∧ unackedSlots s'' = unackedSlots s ∧
  slots (mem s'') = slots (mem s) ∧ spools s'' = spools s ∧ byWorker s'' = byWorker s ∧
  ∀ k p pl, spools s !! k = Some p → pools (mem s) !! p = Some pl →
    ∃ pl'', pools (mem s'') !! p = Some pl'' ∧ same_pool pl pl'' ∧ p_free pl'' ≡ₚ p_free pl.
Proof.
  intros Hs Hreq Hr He Hr'. pose proof (assign_spec actionId a r labels requests now s Hs Hreq) as Hspec.
  destruct (candidatesOf s a (ar_qi r) labels) as [cands top]. pose proof Hreq as (Hnd & _ & _).
  destruct Hspec as (r1 & s1 & He1 & Ha & _). rewrite He in He1. injection He1 as <- <-.
  pose proof (assigned_inv _ _ _ _ _ _ _ _ Hs Hreq Ha) as Hs'.
  destruct Ha as [s' Ho Hno|w sel s' Hf Hw Hroom Htop Hc Hu Hsel]; [simpl in Hr'; congruence|].
  unfold handleNack. cbn [handleEach ar_ackId assignTo]. unfold nackOne.
  rewrite Hu, lookup_insert_eq. cbn. rewrite app_nil_r.
  pose proof (select_spec _ requests now _ Hnd (pools_of_worker s w Hs)) as Hspec.
  rewrite Hsel in Hspec. destruct Hspec as (Hnds & Hfl & Hfrom & _).
  destruct (selection_held s w requests now sel (mem s') Hs Hnd Hsel) as (Hm & Hheld & _).
  destruct (flips_undo sel (mem s) (mem s') (foldl (flip releaseSlot) (mem s') sel) Hfl) as [Hsl Hpl].
  { apply (releaseAll_flips (spools s)); [done..|]. intros x sl Hx Hlook.
    destruct (Hfrom x Hx) as (t & p & pl & sl0 & _ & Hp & _ & _ & Hx0 & Hpool & _).
    rewrite (si_index _ Hs) in Hp. exists (PoolKey w t), p. split; [done|].
    rewrite (flips_lookup _ _ _ _ _ _ Hfl Hx0), decide_True in Hlook by done. by injection Hlook as <-. }
  split_and!; [done| |done|apply Hf|apply Hf|].
  - apply delete_insert_id. destruct (unackedSlots s !! _) eqn:Hid; [|done].
    apply (si_fresh _ Hs) in Hid. lia.
  - intros k p pl Hk Hp. destruct (mi_pools _ _ (si_mem _ Hs) k p Hk) as [pl0 Hok].
    assert (pl0 = pl) as -> by (pose proof (ok_pool _ _ _ Hok); congruence). by apply Hpl.
Qed.

Lemma nack_undoes_assignment_witness :
  ∃ r' s', sampleResult = Some (r', s') ∧ size (unackedSlots s') = 1%nat ∧
    unackedSlots (handleNack [ar_ackId r'] s').2 = unackedSlots sampleReady.
Proof.
  destruct sampleResult as [[r' s']|] eqn:He; [|vm_compute in He; discriminate].
  exists r', s'. split; [done|]. split.
  { apply (f_equal (fmap (size ∘ unackedSlots ∘ snd))) in He. vm_compute in He. by injection He. }
  assert (ar_succeeded r' = true) as Hr.
  { apply (f_equal (fmap (ar_succeeded ∘ fst))) in He. vm_compute in He. by injection He. }
  pose proof (nack_undoes_assignment "act" sampleAction (newResult (sampleItem 3)) []
    [(SlotTypeDefault, 1)] 0 sampleReady r' s' (li_inv _ (reachable_inv _ sampleReady_reachable))
    defaultRequest_ok eq_refl He Hr) as H.
  destruct (handleNack _ _) as [released s'']. by destruct H as (_ & H & _).
Defined.

End SchedulerTheorems.
