(* ===== verification/TryAssign.v ===== *)
(** The callers of the run loop in src/pkg/scheduling/v1/scheduler.go: tryAssignBatch, which checks
    rate limits around an assignment, and tryAssign, which splits the queue items by action, in chunks
    (BatchLinear of src/internal/queueutils/batch.go), and sorts the outcomes into the results the
    queuer flushes.  The run loop is an interface here, [AssignLoop]; the scheduler implements it. *)

From S2P Require Import Prelude Workers SlotPool Action RateLimit Scheduler SchedulerInv SchedulerTheorems.
Import Workers Scheduler SchedulerInv.

Module TryAssign.

Open Scope Z_scope.

(** ** tryAssignBatch *)

(** The check of one item; an item without limits has nothing to release. *)
Definition checkItem (E : RateLimit.env) (limits : gmap Z (gmap string Z)) (qi : queueItem)
    (rl : RateLimit.rateLimiter) : assignSingleResult * RateLimit.rateLimiter :=
  let rls := default ∅ (limits !! qi_TaskID qi) in
  if decide (rls = ∅) then (newResult qi, rl)
  else
    let '(res, rl) := RateLimit.use E (qi_TaskID qi) rls rl in
    if RateLimit.succeeded res
    then (AssignResult qi 0 0 false false None false (Some (qi_TaskID qi)), rl)
    else (AssignResult qi 0 0 false false (Some res) false None, rl).

Fixpoint checkItems (E : RateLimit.env) (limits : gmap Z (gmap string Z)) (qis : list queueItem)
    (rl : RateLimit.rateLimiter) : list assignSingleResult * RateLimit.rateLimiter :=
  match qis with
  | [] => ([], rl)
  | qi :: rest =>
      let '(r, rl) := checkItem E limits qi rl in
      let '(rs, rl) := checkItems E limits rest rl in
      (r :: rs, rl)
  end.

(** [stepIdsToBatchConfig]: a missing step reads as false. *)
Definition markToBatch (batchConfig : gmap uuid bool) (r : assignSingleResult) : assignSingleResult :=
  if default false (batchConfig !! qi_StepID (ar_qi r))
  then AssignResult (ar_qi r) (ar_workerId r) (ar_ackId r) (ar_noSlots r) (ar_succeeded r)
         (ar_rateLimit r) true (ar_reservation r)
  else r.

(** Releases the reservations of the items that did not get assigned. *)
Definition releaseReservations (res : list assignSingleResult) (rl : RateLimit.rateLimiter) :
    RateLimit.rateLimiter :=
  foldl (λ rl r, if missed r
                 then match ar_reservation r with Some task => RateLimit.nack task rl | None => rl end
                 else rl) rl res.

(** The run loop as its caller sees it: whether it answered, and the results. *)
Notation loopFn := (list assignSingleResult → bool * list assignSingleResult).

Definition settle (answer : bool * list assignSingleResult) : list assignSingleResult :=
  if answer.1 then answer.2 else (λ r, if missed r then miss r else r) <$> answer.2.

Definition tryAssignBatch (E : RateLimit.env) (limits : gmap Z (gmap string Z))
    (batchConfig : gmap uuid bool) (loop : loopFn) (qis : list queueItem)
    (rl : RateLimit.rateLimiter) : list assignSingleResult * RateLimit.rateLimiter :=
  let '(res, rl) := checkItems E limits qis rl in
  let res := settle (loop (markToBatch batchConfig <$> res)) in
  (res, releaseReservations res rl).

(** ** The results of tryAssign *)

Record assignedQueueItem := AssignedQueueItem {
  AckId : Z;
  WorkerId : uuid;
  aq_QueueItem : queueItem;
}.

Record batchedQueueItemResult := BatchedItem {
  bi_qi : queueItem;
  bi_reservation : option Z;
}.

Record scheduleRateLimitResult := ScheduleRateLimit {
  srl_result : option RateLimit.rateLimitResult;
  srl_qi : queueItem;
}.

Record assignResults := AssignResults {
  res_assigned : list assignedQueueItem;
  res_buffered : list assignedQueueItem;
  res_batched : list batchedQueueItemResult;
  res_unassigned : list queueItem;
  res_schedulingTimedOut : list queueItem;
  res_rateLimited : list scheduleRateLimitResult;
  res_rateLimitedToMove : list scheduleRateLimitResult;
}.

Definition noResults : assignResults := AssignResults [] [] [] [] [] [] [].

Definition shouldRemoveFromQueue (now : Z) (s : scheduleRateLimitResult) : bool :=
  match srl_result s with
  | None => false
  | Some r =>
      match RateLimit.pausedUntil r with
      | Some _ => true
      | None => match RateLimit.res_nextRefillAt r with
                | Some next => RateLimit.After next (now + rateLimitedRequeueAfterThreshold)
                | None => false
                end
      end
  end.

(** One result appended to the slices it belongs to. *)
Definition classifyOne (now : Z) (acc : assignResults) (r : assignSingleResult) : assignResults :=
  let '(AssignResults a b ba u t l m) := acc in
  if ar_toBatch r then AssignResults a b (ba ++ [BatchedItem (ar_qi r) (ar_reservation r)]) u t l m
  else if negb (ar_succeeded r) then
    match ar_rateLimit r with
    | Some res =>
        let s := ScheduleRateLimit (Some res) (ar_qi r) in
        if shouldRemoveFromQueue now s then AssignResults a b ba u t l (m ++ [s])
        else AssignResults a b ba u t (l ++ [s]) m
    | None => AssignResults a b ba (u ++ [ar_qi r]) t l m
    end
  else AssignResults (a ++ [AssignedQueueItem (ar_ackId r) (ar_workerId r) (ar_qi r)]) b ba u t l m.

(** [clock] is the reading of each result's own check. *)
Definition classify (clock : assignSingleResult → Z) (res : list assignSingleResult) : assignResults :=
  foldl (λ acc r, classifyOne (clock r) acc r) noResults res.

(** ** tryAssign *)

(** The groups BatchLinear calls its function with; [fuel] is the number of things left. *)
Fixpoint groupsOf {A} (fuel size : nat) (things : list A) : list (list A) :=
  match fuel, things with
  | S fuel, _ :: _ => list.take size things :: groupsOf fuel size (drop size things)
  | _, _ => []
  end.

(** The errors of the calls, in order, and the state they leave. *)
Definition BatchLinear {A St Err} (batchSize : Z) (things : list A) (fn : list A → St → option Err * St)
    (s : St) : list Err * St :=
  if bool_decide (batchSize ≤ 0) then ([], s)
  else foldl (λ '(errs, s) group, let '(e, s) := fn group s in (errs ++ option_list e, s)) ([], s)
         (groupsOf (length things) (Z.to_nat batchSize) things).

Definition actionIdToQueueItems (qis : list queueItem) : gmap string (list queueItem) :=
  foldl (λ m qi, <[qi_ActionID qi := default [] (m !! qi_ActionID qi) ++ [qi]]> m) ∅ qis.

(** What the goroutine of one action sends: the timed out items, then one result per chunk.  [batch]
    is the outcome of tryAssignBatch on a chunk, whatever the other goroutines did meanwhile. *)
Definition assignAction (timeClock : queueItem → Z) (clock : assignSingleResult → Z)
    (batch : list queueItem → list assignSingleResult) (qis : list queueItem) : list assignResults :=
  let timedOut := filter (λ qi, isTimedOut (timeClock qi) qi = true) qis in
  let batched := filter (λ qi, isTimedOut (timeClock qi) qi = false) qis in
  (BatchLinear 50 batched (λ chunk sent, (None (A := unit), sent ++ [classify clock (batch chunk)]))
     [AssignResults [] [] [] [] timedOut [] []]).2.

(** Everything sent on the channel, action by action. *)
Definition tryAssign (timeClock : queueItem → Z) (clock : assignSingleResult → Z)
    (batch : string → list queueItem → list assignSingleResult) (qis : list queueItem) :
    list assignResults :=
  concat ((λ aq, assignAction timeClock clock (batch aq.1) aq.2)
            <$> map_to_list (actionIdToQueueItems qis)).

Definition getExtensionInput (results : list assignResults) : bool :=
  bool_decide (concat (res_unassigned <$> results) ≠ []).

(** ** The interface of the run loop *)

(** What a caller relies on: an answer keeps each result's item, rate limit, batch mark and
    reservation, and leaves alone the results that want no slot; an answered result that wants one is
    assigned or a miss. *)
Record kept (r r' : assignSingleResult) : Prop := {
  k_qi : ar_qi r' = ar_qi r;
  k_rate : ar_rateLimit r' = ar_rateLimit r;
  k_batch : ar_toBatch r' = ar_toBatch r;
  k_reservation : ar_reservation r' = ar_reservation r;
  k_skip : wantsSlot r = false → r' = r;
}.

Class AssignLoop (loop : loopFn) : Prop := {
  loop_kept : ∀ res, Forall2 kept res (loop res).2;
  loop_done : ∀ res, (loop res).1 = true →
    Forall (λ r, wantsSlot r = true → ar_succeeded r = true ∨ ar_noSlots r = true) (loop res).2;
}.

(** The scheduler's loop in state [s]: the results of the first attempt, which is what a caller gets
    back at once or, parked, when the timer fires. *)
Definition schedulerLoop (s : scheduler) (actionId : string) (inp : assignInput) (now : Z) : loopFn :=
  λ res,
    let i := length (batches s) in
    match submit (Batch actionId inp res None) now s with
    | Some s' => match batches (parkedTimeout i s') !! i with
                 | Some b => (bool_decide (is_Some (b_finishedBy b)), b_results b)
                 | None => (false, res)
                 end
    | None => (false, res)
    end.

Lemma progress_kept r r' : progress r r' → kept r r'.
Proof. by intros []. Qed.

Lemma schedulerLoop_answers s actionId inp now res :
  loop_inv s → input_ok inp →
  ∃ res', schedulerLoop s actionId inp now res = (true, res') ∧ Forall2 progress res res'.
Proof.
  intros Hl Hin. unfold schedulerLoop.
  destruct (submit_spec (Batch actionId inp res None) now s Hl Hin eq_refl)
    as (s' & res' & by_ & -> & _ & Hall & Hb & _).
  exists res'. split; [|done]. cbn [batches parkedTimeout updBatch set_batches].
  rewrite list_lookup_alter_eq, Hb, lookup_app_r, Nat.sub_diag by lia. simpl.
  unfold finish. by destruct by_.
Qed.

#[global] Instance schedulerLoop_ok s actionId inp now :
  loop_inv s → input_ok inp → AssignLoop (schedulerLoop s actionId inp now).
Proof.
  intros Hl Hin. split; intros res;
    destruct (schedulerLoop_answers s actionId inp now res Hl Hin) as (res' & -> & Hall); simpl.
  - eapply Forall2_impl; [exact Hall|]. apply progress_kept.
  - intros _. apply Forall_forall. intros r' Hr' Hw.
    apply list_elem_of_lookup in Hr' as [i Hi]. destruct (Forall2_lookup_r _ _ _ _ _ Hall Hi) as (r & _ & Hp).
    apply Hp. unfold wantsSlot in *. by rewrite <- (pg_rate _ _ Hp), <- (pg_batch _ _ Hp).
Qed.

(** ** tryAssignBatch keeps the items *)

Lemma checkItem_qi E limits qi rl : ar_qi (checkItem E limits qi rl).1 = qi.
Proof.
  unfold checkItem. case_decide; [done|]. destruct (RateLimit.use _ _ _ _) as [res rl'].
  by destruct (RateLimit.succeeded res).
Qed.

Lemma checkItems_qi E limits qis : ∀ rl, ar_qi <$> (checkItems E limits qis rl).1 = qis.
Proof.
  induction qis as [|qi qis IH]; intros rl; [done|]. cbn [checkItems].
  pose proof (checkItem_qi E limits qi rl) as Hq. destruct (checkItem E limits qi rl) as [r rl1].
  specialize (IH rl1). destruct (checkItems E limits qis rl1). cbn in *. by rewrite Hq, IH.
Qed.

Lemma markToBatch_qi batchConfig r : ar_qi (markToBatch batchConfig r) = ar_qi r.
Proof. unfold markToBatch. by destruct (default _ _). Qed.

Lemma Forall2_fmap_eq {A B} (R : A → A → Prop) (f : A → B) l l' :
  (∀ x y, R x y → f y = f x) → Forall2 R l l' → f <$> l' = f <$> l.
Proof. intros HR. induction 1; [done|]. cbn. f_equal; eauto. Qed.

Lemma settle_qi answer : ar_qi <$> settle answer = ar_qi <$> answer.2.
Proof.
  unfold settle. destruct answer as [[] res]; [done|]. simpl. rewrite <- list_fmap_compose.
  apply list_fmap_ext. intros i r _. simpl. by destruct (missed r).
Qed.

Lemma tryAssignBatch_qi E limits batchConfig loop `{!AssignLoop loop} qis rl :
  ar_qi <$> (tryAssignBatch E limits batchConfig loop qis rl).1 = qis.
Proof.
  unfold tryAssignBatch. pose proof (checkItems_qi E limits qis rl) as Hq.
  destruct (checkItems E limits qis rl) as [res rl1]. cbn [fst] in *. rewrite settle_qi.
  rewrite (Forall2_fmap_eq kept ar_qi _ _ k_qi (loop_kept _)), <- list_fmap_compose.
  rewrite <- Hq. apply list_fmap_ext. intros i r _. apply markToBatch_qi.
Qed.

(** ** Every item is reported once *)

Definition itemsOf (r : assignResults) : list queueItem :=
  (aq_QueueItem <$> res_assigned r) ++ (aq_QueueItem <$> res_buffered r) ++
  (bi_qi <$> res_batched r) ++ res_unassigned r ++ res_schedulingTimedOut r ++
  (srl_qi <$> res_rateLimited r) ++ (srl_qi <$> res_rateLimitedToMove r).

Lemma classifyOne_items now acc r : itemsOf (classifyOne now acc r) ≡ₚ ar_qi r :: itemsOf acc.
Proof.
  destruct acc as [a b ba u t l m]. unfold classifyOne, itemsOf.
  destruct (ar_toBatch r); [|destruct (ar_succeeded r); [|destruct (ar_rateLimit r);
    [cbv zeta; destruct (shouldRemoveFromQueue _ _)|]]]; cbn; rewrite ?fmap_app; cbn; solve_Permutation.
Qed.

Lemma classify_items clock res : itemsOf (classify clock res) ≡ₚ ar_qi <$> res.
Proof.
  unfold classify. induction res as [|r res IH] using rev_ind; [done|].
  rewrite foldl_snoc, classifyOne_items, IH, fmap_app. cbn. solve_Permutation.
Qed.

Lemma groupsOf_concat {A} size : (0 < size)%nat → ∀ fuel (things : list A),
  (length things ≤ fuel)%nat →
  concat (groupsOf fuel size things) = things ∧
  Forall (λ g, (0 < length g ≤ size)%nat) (groupsOf fuel size things).
Proof.
  intros Hs. induction fuel as [|fuel IH]; intros [|x l] Hl; simpl in Hl;
    try (simpl; by split; [|constructor]); [lia|].
  cbn [groupsOf]. destruct (IH (drop size (x :: l))) as [Hc Hall].
  { rewrite length_drop. simpl. lia. }
  split.
  - cbn [concat]. rewrite Hc. apply take_drop.
  - constructor; [|done]. rewrite length_take. simpl. lia.
Qed.

Lemma actionItems_concat qis :
  concat (map_to_list (actionIdToQueueItems qis)).*2 ≡ₚ qis.
Proof.
  unfold actionIdToQueueItems. induction qis as [|qi qis IH] using rev_ind; [done|].
  rewrite foldl_snoc. set (m := foldl _ _ qis) in *. set (a := qi_ActionID qi).
  rewrite <- (insert_delete_eq m), map_to_list_insert by apply lookup_delete_eq. cbn.
  destruct (m !! a) as [l|] eqn:Ha; simpl.
  - rewrite <- IH, <- (map_to_list_delete m a l Ha). cbn. solve_Permutation.
  - rewrite delete_id, IH by done. solve_Permutation.
Qed.

Lemma filter_split_perm (f : queueItem → bool) l :
  filter (λ x, f x = true) l ++ filter (λ x, f x = false) l ≡ₚ l.
Proof.
  induction l as [|x l IH]; [done|]. rewrite !filter_cons.
  destruct (f x); simpl; rewrite <- IH at 3; solve_Permutation.
Qed.

Lemma BatchLinear_sends {A B Err} size (things : list A) (f : list A → B) (sent : list B) :
  0 < size →
  BatchLinear size things (λ chunk sent, (None (A := Err), sent ++ [f chunk])) sent =
  ([], sent ++ (f <$> groupsOf (length things) (Z.to_nat size) things)).
Proof.
  intros Hs. unfold BatchLinear. rewrite bool_decide_false by lia.
  induction (groupsOf _ _ _) as [|g gs IH] using rev_ind; [by rewrite app_nil_r|].
  rewrite foldl_snoc, IH, fmap_app. cbn. by rewrite (assoc_L (++)).
Qed.

Lemma assignAction_items timeClock clock batch qis :
  (∀ chunk, ar_qi <$> batch chunk = chunk) →
  concat (itemsOf <$> assignAction timeClock clock batch qis) ≡ₚ qis.
Proof.
  intros Hb. unfold assignAction. cbv zeta. rewrite BatchLinear_sends by lia. cbn [snd app].
  set (live := filter (λ qi, isTimedOut _ _ = false) qis). change (Z.to_nat 50) with 50%nat.
  assert (concat (itemsOf <$> ((λ c, classify clock (batch c)) <$> groupsOf (length live) 50 live))
            ≡ₚ live) as Hlive.
  { destruct (groupsOf_concat 50 ltac:(lia) (length live) live ltac:(lia)) as [Hc _].
    rewrite <- Hc at 3. clear Hc. induction (groupsOf (length live) 50 live) as [|g gs IH]; [done|].
    cbn in *. by rewrite classify_items, Hb, IH. }
  cbn [fmap list_fmap concat]. rewrite Hlive. unfold itemsOf. cbn. rewrite app_nil_r.
  apply (filter_split_perm (λ qi, isTimedOut (timeClock qi) qi)).
Qed.

Lemma tryAssign_items timeClock clock batch qis :
  (∀ actionId chunk, ar_qi <$> batch actionId chunk = chunk) →
  concat (itemsOf <$> tryAssign timeClock clock batch qis) ≡ₚ qis.
Proof.
  intros Hb. rewrite <- (actionItems_concat qis) at 2. unfold tryAssign.
  induction (map_to_list (actionIdToQueueItems qis)) as [|[a l] rest IH]; [done|].
  cbn [fmap list_fmap concat fst snd] in *. rewrite fmap_app, concat_app, IH.
  by rewrite assignAction_items.
Qed.

(** C21: every queue item is reported exactly once: whatever the run loop answers, in whatever state
    each chunk finds the limiter, the items of all the results sent on the channel, over the seven
    outcomes, are the queue items that came in. *)
Theorem every_item_reported_once E limits batchConfig timeClock clock
    (limiterAt : string → list queueItem → RateLimit.rateLimiter)
    (loopAt : string → list queueItem → loopFn) qis :
  (∀ actionId chunk, AssignLoop (loopAt actionId chunk)) →
  concat (itemsOf <$> tryAssign timeClock clock
    (λ actionId chunk, (tryAssignBatch E limits batchConfig (loopAt actionId chunk) chunk
                          (limiterAt actionId chunk)).1) qis) ≡ₚ qis.
Proof. intros Hloop. apply tryAssign_items. intros actionId chunk. by apply tryAssignBatch_qi. Qed.

Definition sampleLoop : loopFn := schedulerLoop SchedulerTheorems.sampleReady "act" (AssignInput ∅ ∅ ∅) 0.

Lemma sampleLoop_ok : AssignLoop sampleLoop.
Proof.
  apply schedulerLoop_ok.
  - apply SchedulerTheorems.reachable_inv, SchedulerTheorems.sampleReady_reachable.
  - apply SchedulerTheorems.sampleBatch_ok.
Qed.

Lemma every_item_reported_once_witness :
  let qis := [SchedulerTheorems.sampleItem 1; SchedulerTheorems.sampleItem 2;
              SchedulerTheorems.sampleItem 3] in
  concat (itemsOf <$> tryAssign (λ _, 0) (λ _, 0)
    (λ _ chunk, (tryAssignBatch (RateLimit.sampleEnv []) ∅ ∅ sampleLoop chunk
                   (RateLimit.sampleLimiter 1)).1) qis) ≡ₚ qis.
Proof.
  apply (every_item_reported_once (RateLimit.sampleEnv []) ∅ ∅ (λ _, 0) (λ _, 0)
           (λ _ _, RateLimit.sampleLimiter 1) (λ _ _, sampleLoop)).
  intros _ _. apply sampleLoop_ok.
Defined.

(** ** Reservations *)

Lemma release_unacked res task : ∀ rl,
  RateLimit.unacked (releaseReservations res rl) !! task =
  if decide (Exists (λ r, missed r = true ∧ ar_reservation r = Some task) res) then None
  else RateLimit.unacked rl !! task.
Proof.
  unfold releaseReservations. induction res as [|r res IH]; intros rl.
  { by rewrite decide_False by (by intros ?%Exists_nil). }
  cbn [foldl]. rewrite IH. destruct (decide (Exists _ res)) as [He|He].
  { by rewrite decide_True by (by constructor 2). }
  destruct (decide (missed r = true ∧ ar_reservation r = Some task)) as [[Hm Hr]|Hn].
  - rewrite Hm, Hr, decide_True by (by constructor). apply lookup_delete_eq.
  - rewrite (decide_False (P := Exists _ (r :: res))) by (intros [?|?]%Exists_cons; done).
    destruct (missed r); [|done]. destruct (ar_reservation r) as [t|]; [|done].
    cbn. apply lookup_delete_ne. intros ->. by apply Hn.
Qed.

(** An item holds a reservation under its own task id, and only if no limit stopped it. *)
Lemma checkItems_reservation E limits qis : ∀ rl r,
  r ∈ (checkItems E limits qis rl).1 →
  ∀ task, ar_reservation r = Some task → task = qi_TaskID (ar_qi r) ∧ ar_rateLimit r = None.
Proof.
  induction qis as [|qi qis IH]; intros rl r; [set_solver|]. cbn [checkItems].
  destruct (checkItem E limits qi rl) as [r0 rl1] eqn:H0. specialize (IH rl1 r).
  destruct (checkItems E limits qis rl1) as [rs rl2]. cbn [fst] in *.
  intros [->|Hr]%elem_of_cons; [|by apply IH]. intros task Ht. unfold checkItem in H0.
  case_decide; [by injection H0 as <- <-|]. destruct (RateLimit.use _ _ _ _) as [res rl'].
  destruct (RateLimit.succeeded res); injection H0 as <- <-; simpl in *; [|done].
  by injection Ht as <-.
Qed.

Lemma settle_reservation answer :
  (λ r, (ar_qi r, ar_reservation r)) <$> settle answer = (λ r, (ar_qi r, ar_reservation r)) <$> answer.2.
Proof.
  unfold settle. destruct answer as [[] res]; [done|]. simpl. rewrite <- list_fmap_compose.
  apply list_fmap_ext. intros i r _. simpl. by destruct (missed r).
Qed.

(** The reservations of the results are those the checks made. *)
Lemma tryAssignBatch_reservation E limits batchConfig loop `{!AssignLoop loop} qis rl r task :
  r ∈ (tryAssignBatch E limits batchConfig loop qis rl).1 → ar_reservation r = Some task →
  task = qi_TaskID (ar_qi r).
Proof.
  unfold tryAssignBatch. pose proof (checkItems_reservation E limits qis rl) as Hc.
  destruct (checkItems E limits qis rl) as [res rl1]. cbn [fst] in *. intros Hr Ht.
  apply (list_elem_of_fmap_2 (λ r, (ar_qi r, ar_reservation r))) in Hr.
  rewrite settle_reservation in Hr.
  rewrite (Forall2_fmap_eq kept _ _ _ (λ x y H, f_equal2 pair (k_qi _ _ H) (k_reservation _ _ H))
             (loop_kept _)), <- list_fmap_compose in Hr.
  apply list_elem_of_fmap in Hr as (r0 & He & Hr0). cbn in He. injection He as Hqi Hres.
  rewrite markToBatch_qi in Hqi. rewrite Hqi. apply (Hc r0 Hr0). rewrite <- Ht, Hres.
  unfold markToBatch. by destruct (default _ _).
Qed.

(** A batch leaves no rate-limit reservation behind: when it returns, a task whose item was not
    assigned holds no units, and the tasks assigned or moved to the batch table keep exactly what the
    check reserved for them. *)
Theorem reservations_settled E limits batchConfig loop `{!AssignLoop loop} qis rl :
  NoDup (qi_TaskID <$> qis) →
  let '(res, rl') := tryAssignBatch E limits batchConfig loop qis rl in
  ∀ r task, r ∈ res → ar_reservation r = Some task →
    RateLimit.unacked rl' !! task =
      if missed r then None else RateLimit.unacked (checkItems E limits qis rl).2 !! task.
Proof.
  intros Hnd. pose proof (tryAssignBatch_qi E limits batchConfig loop qis rl) as Hqi.
  pose proof (tryAssignBatch_reservation E limits batchConfig loop qis rl) as Htask.
  unfold tryAssignBatch in *. destruct (checkItems E limits qis rl) as [res rl1]. cbn [fst snd] in *.
  set (out := settle _) in *. intros r task Hr Ht. rewrite release_unacked.
  destruct (decide (Exists _ out)) as [He|He].
  - apply Exists_exists in He as (r' & Hr' & Hm & Ht').
    assert (r = r') as ->; [|by rewrite Hm]. rewrite <- Hqi, <- list_fmap_compose in Hnd.
    apply list_elem_of_lookup in Hr as [i Hi]. apply list_elem_of_lookup in Hr' as [j Hj].
    assert (i = j) as ->; [|congruence]. eapply (NoDup_lookup _ _ _ task Hnd);
      rewrite list_lookup_fmap, ?Hi, ?Hj; cbn; f_equal; symmetry; eapply Htask; eauto using list_elem_of_lookup_2.
  - destruct (missed r) eqn:Hm; [|done]. destruct He. apply Exists_exists. eauto.
Qed.

Definition sampleLimits : gmap Z (gmap string Z) := {[1 := RateLimit.askOne; 2 := RateLimit.askOne]}.

(** Two items that each ask for the last unit of a limit: the first is assigned and keeps it. *)
Lemma reservations_settled_witness :
  let qis := [SchedulerTheorems.sampleItem 1; SchedulerTheorems.sampleItem 2] in
  let '(res, rl') := tryAssignBatch (RateLimit.sampleEnv []) sampleLimits ∅ sampleLoop qis
                       (RateLimit.sampleLimiter 1) in
  ∃ r, r ∈ res ∧ ar_reservation r = Some 1 ∧ missed r = false ∧
    RateLimit.unacked rl' !! 1 =
      RateLimit.unacked (checkItems (RateLimit.sampleEnv []) sampleLimits qis
                           (RateLimit.sampleLimiter 1)).2 !! 1.
Proof.
  cbv zeta. set (qis := [_; _]).
  pose proof (@reservations_settled (RateLimit.sampleEnv []) sampleLimits ∅ sampleLoop sampleLoop_ok qis
    (RateLimit.sampleLimiter 1) ltac:(vm_compute; repeat constructor; set_solver)) as H.
  destruct (tryAssignBatch _ _ _ _ _ _) as [res rl'] eqn:He.
  assert (∃ r rest, res = r :: rest ∧ ar_reservation r = Some 1 ∧ missed r = false)
    as (r & rest & -> & Hr & Hm).
  { apply (f_equal fst) in He. vm_compute in He. subst res. eexists _, _.
    split; [reflexivity|]. by split. }
  exists r. split_and!; [by constructor|done|done|].
  specialize (H r 1 ltac:(by constructor) Hr). by rewrite Hm in H.
Defined.

(** ** Rate limits and the batch table *)

(** An item of a batch step is moved to the batch table even when a rate limit stopped it: the
    check fails and reserves nothing for it, but its result is classified as batched, with nothing to
    release, and never as rate limited. *)
Theorem rate_limited_item_is_batched E limits batchConfig loop `{!AssignLoop loop} qi rl clock :
  let rls := default ∅ (limits !! qi_TaskID qi) in
  rls ≠ ∅ → RateLimit.succeeded (RateLimit.use E (qi_TaskID qi) rls rl).1 = false →
  batchConfig !! qi_StepID qi = Some true →
  let '(res, rl') := tryAssignBatch E limits batchConfig loop [qi] rl in
  classify clock res = AssignResults [] [] [BatchedItem qi None] [] [] [] [] ∧
  rl' = (RateLimit.use E (qi_TaskID qi) rls rl).2.
Proof.
  intros rls Hne Hfail Hb. unfold tryAssignBatch. cbn [checkItems]. unfold checkItem. fold rls.
  rewrite decide_False by done. destruct (RateLimit.use E (qi_TaskID qi) rls rl) as [res rl1].
  cbn [fst snd] in *. rewrite Hfail. cbn [fmap list_fmap]. unfold markToBatch. cbn [ar_qi].
  rewrite Hb. cbn [default from_option id].
  set (r := AssignResult _ _ _ _ _ _ _ _).
  assert (settle (loop [r]) = [r]) as ->.
  { pose proof (loop_kept (loop := loop) [r]) as Hk. unfold settle.
    destruct (loop [r]) as [ok out]. cbn [fst snd] in *.
    apply Forall2_cons_inv_l in Hk as (r' & out' & Hr & Hnil & ->).
    apply Forall2_nil_inv_l in Hnil as ->. rewrite (k_skip _ _ Hr eq_refl). by destruct ok. }
  by split.
Qed.

Lemma rate_limited_item_is_batched_witness :
  (tryAssignBatch (RateLimit.sampleEnv []) sampleLimits {[1 := true]} sampleLoop
     [SchedulerTheorems.sampleItem 1] (RateLimit.sampleLimiter 0)).1 ≠ [] ∧
  classify (λ _, 0) (tryAssignBatch (RateLimit.sampleEnv []) sampleLimits {[1 := true]} sampleLoop
     [SchedulerTheorems.sampleItem 1] (RateLimit.sampleLimiter 0)).1 =
    AssignResults [] [] [BatchedItem (SchedulerTheorems.sampleItem 1) None] [] [] [] [].
Proof.
  split; [vm_compute; discriminate|].
  pose proof (@rate_limited_item_is_batched (RateLimit.sampleEnv []) sampleLimits {[1 := true]} sampleLoop
    sampleLoop_ok (SchedulerTheorems.sampleItem 1) (RateLimit.sampleLimiter 0) (λ _, 0)
    ltac:(vm_compute; discriminate) ltac:(vm_compute; reflexivity) ltac:(vm_compute; reflexivity)) as H.
  destruct (tryAssignBatch _ _ _ _ _ _) as [res rl']. by destruct H.
Defined.

End TryAssign.
