(* ===== verification/QueueRepo.v ===== *)
(** The repository of one queue (src/pkg/repository/scheduler_queue.go): what its Go code computes
    around the SQL statements.  The statements and the parser of step timeouts are parameters: each is
    given as the reply it makes.  Caches are finite maps, from which entries may vanish at any time. *)

From S2P Require Import Prelude Workers RateLimit.
Import Workers.

Module QueueRepo.

Open Scope Z_scope.

(** ** Data *)

Record RateLimitResult := MkRateLimitResult {
  rr_V1QueueItem : queueItem;
  rr_ExceededKey : string;
  rr_ExceededUnits : Z;
  rr_ExceededVal : Z;
  rr_NextRefillAt : option Z;
  rr_PausedUntil : option Z;
  rr_TaskId : Z;
  rr_TaskInsertedAt : option Z;
  rr_RetryCount : Z;
}.

Record taskIdRetryCount := TaskIdRetryCount { taskId : Z; retryCount : Z }.

#[global] Instance taskIdRetryCount_eq_dec : EqDecision taskIdRetryCount.
Proof. solve_decision. Defined.
#[global] Program Instance taskIdRetryCount_countable : Countable taskIdRetryCount :=
  inj_countable' (λ k, (taskId k, retryCount k)) (λ '(t, r), TaskIdRetryCount t r) _.
Next Obligation. by intros []. Qed.

Record AssignedItem := MkAssignedItem {
  ai_WorkerId : uuid;
  ai_QueueItem : queueItem;
  ai_IsAssignedLocally : bool;
  ai_IsDurable : bool;
}.

Record AssignResults := MkAssignResults {
  Assigned : list AssignedItem;
  Buffered : list AssignedItem;
  Batched : list queueItem;
  Unassigned : list queueItem;
  SchedulingTimedOut : list queueItem;
  RateLimited : list RateLimitResult;
  RateLimitedToMove : list RateLimitResult;
}.

(** A task, when it was inserted, and its retry. *)
Record TaskIdInsertedAtRetryCount := TaskRef { Id : Z; InsertedAt : option Z; RetryCount : Z }.

Definition refOf (qi : queueItem) : TaskIdInsertedAtRetryCount :=
  TaskRef (qi_TaskID qi) (qi_TaskInsertedAt qi) (qi_RetryCount qi).

Definition keyOf (qi : queueItem) : taskIdRetryCount :=
  TaskIdRetryCount (qi_TaskID qi) (qi_RetryCount qi).

(** A row FlushAssignedQueueItems returns. *)
Record FlushAssignedQueueItemsRow := FlushedRow {
  fr_TaskID : Z;
  fr_TaskInsertedAt : option Z;
  fr_RetryCount : Z;
  fr_WorkerID : option uuid;
  fr_IsDurable : option bool;
}.

Definition rowKey (row : FlushAssignedQueueItemsRow) : taskIdRetryCount :=
  TaskIdRetryCount (fr_TaskID row) (fr_RetryCount row).

(** ** The lowest id still in the queue *)

Definition setMinId (id : Z) (_ : option Z) : option Z := Some id.

(** [row] is the reply of GetMinUnprocessedQueueItemId; [locked] is a failed TryLock. *)
Definition updateMinId (locked : bool) (row : option Z) (gtId : option Z) : option Z :=
  if locked then gtId
  else match row with
       | None => gtId
       | Some minId => if bool_decide (minId ≠ 0) then setMinId minId gtId else gtId
       end.

Definition ListQueueItems (query : option Z → Z → option (list queueItem)) (gtId : option Z) (limit : Z) :
    result (list queueItem) :=
  of_reply (query gtId (to_int32 limit)).

(** ** markQueueItemsProcessed *)

Section mark.
Context {interval : Type}.
Context (durationToInterval : string → option interval).

(** What the loop over the assigned items collects. *)
Record assignPlan := AssignPlan {
  pl_items : gmap taskIdRetryCount AssignedItem;
  (** task, worker and timeout of every key to flush *)
  pl_keys : list (TaskIdInsertedAtRetryCount * uuid * interval);
  pl_failed : list AssignedItem;
  pl_minInsertedAt : option Z;
}.

(** Of two timestamps the smaller valid one. *)
Definition minTimestamp (t best : option Z) : option Z :=
  match t, best with
  | Some t, Some b => if bool_decide (t < b) then Some t else best
  | Some t, None => Some t
  | None, _ => best
  end.

Definition planOne (plan : assignPlan) (assignedItem : AssignedItem) : assignPlan :=
  let qi := ai_QueueItem assignedItem in
  let fail := AssignPlan (pl_items plan) (pl_keys plan) (pl_failed plan ++ [assignedItem])
                (pl_minInsertedAt plan) in
  match pl_items plan !! keyOf qi with
  | Some _ => fail
  | None =>
      match durationToInterval (qi_StepTimeout qi) with
      | None => fail
      | Some stepTimeout =>
          AssignPlan (<[keyOf qi := assignedItem]> (pl_items plan))
            (pl_keys plan ++ [(refOf qi, ai_WorkerId assignedItem, stepTimeout)])
            (pl_failed plan) (minTimestamp (qi_TaskInsertedAt qi) (pl_minInsertedAt plan))
      end
  end.

Definition planAssigned (items : list AssignedItem) : assignPlan :=
  foldl planOne (AssignPlan ∅ [] [] None) items.

(** What the loop over the flushed rows collects. *)
Record flushOutcome := FlushOutcome {
  fo_items : gmap taskIdRetryCount AssignedItem;
  fo_deleted : gset taskIdRetryCount;
  fo_succeeded : list AssignedItem;
  fo_durable : list TaskIdInsertedAtRetryCount;
}.

Definition flushOne (out : flushOutcome) (row : FlushAssignedQueueItemsRow) : flushOutcome :=
  let key := rowKey row in
  let deleted := {[key]} ∪ fo_deleted out in
  let skip := FlushOutcome (fo_items out) deleted (fo_succeeded out) (fo_durable out) in
  match fr_WorkerID row with
  | None => skip
  | Some _ =>
      match fo_items out !! key with
      | None => skip
      | Some item =>
          let durable := default (ai_IsDurable item) (fr_IsDurable row) in
          let item := MkAssignedItem (ai_WorkerId item) (ai_QueueItem item) (ai_IsAssignedLocally item)
                        durable in
          FlushOutcome (delete key (fo_items out)) deleted (fo_succeeded out ++ [item])
            (fo_durable out ++
             (if decide (fr_IsDurable row = Some true)
              then [TaskRef (fr_TaskID row) (fr_TaskInsertedAt row) (fr_RetryCount row)] else []))
      end
  end.

Definition flushRows (items : gmap taskIdRetryCount AssignedItem)
    (rows : list FlushAssignedQueueItemsRow) : flushOutcome :=
  foldl flushOne (FlushOutcome items ∅ [] []) rows.

(** The rate limited items to move with their refill time, and the paused tasks to hold. *)
Fixpoint splitRateLimited (rows : list RateLimitResult) :
    result (list (Z * Z) * list TaskIdInsertedAtRetryCount) :=
  match rows with
  | [] => Ok ([], [])
  | row :: rest =>
      match rr_PausedUntil row with
      | Some _ =>
          '(moves, holds) ← splitRateLimited rest;
          Ok (moves, TaskRef (rr_TaskId row) (rr_TaskInsertedAt row) (rr_RetryCount row) :: holds)
      | None =>
          match rr_NextRefillAt row with
          | None => Panics
          | Some t =>
              '(moves, holds) ← splitRateLimited rest;
              Ok ((qi_ID (rr_V1QueueItem row), t) :: moves, holds)
          end
      end
  end.

(** The statements of the transaction: [None] and [false] are errors. *)
Record markStatements := MarkStatements {
  FlushAssignedQueueItems : list (TaskIdInsertedAtRetryCount * uuid * interval) →
                            list TaskIdInsertedAtRetryCount → option Z →
                            option (list FlushAssignedQueueItemsRow);
  MoveQueueItemsToBatchedQueue : list Z → bool;
  MoveRateLimitedQueueItems : list (Z * Z) → bool;
  holdPausedTasks : list TaskIdInsertedAtRetryCount → bool;
  releaseTasks : list TaskIdInsertedAtRetryCount → bool;
  InsertBufferedTaskRuntimes : list TaskIdInsertedAtRetryCount → bool;
  incrementDurableTaskInvocationCounts : list TaskIdInsertedAtRetryCount → bool;
}.

Definition guardOk (b : bool) : result unit := if b then Ok tt else Err.

(** Runs a statement only if it has something to do. *)
Definition ifAny {A} (l : list A) (run : list A → bool) : result unit :=
  guardOk (match l with [] => true | _ => run l end).

(** The items assigned and the items that failed. *)
Definition markQueueItemsProcessed (db : markStatements) (r : AssignResults) :
    result (list AssignedItem * list AssignedItem) :=
  let plan := planAssigned (Assigned r) in
  let tasksToRelease := refOf <$> SchedulingTimedOut r in
  let bufferedItems := ai_QueueItem <$> Buffered r in
  let remove := tasksToRelease ++ (refOf <$> bufferedItems) in
  flushed ← (match pl_keys plan, remove with
             | [], [] => Ok []
             | _, _ => of_reply (FlushAssignedQueueItems db (pl_keys plan) remove (pl_minInsertedAt plan))
             end);
  let out := flushRows (pl_items plan) flushed in
  let failed := pl_failed plan ++ (map_to_list (fo_items out)).*2 in
  _ ← ifAny (qi_ID <$> Batched r) (MoveQueueItemsToBatchedQueue db);
  '(moves, holds) ← splitRateLimited (RateLimitedToMove r);
  _ ← ifAny moves (MoveRateLimitedQueueItems db);
  _ ← guardOk (holdPausedTasks db holds);
  _ ← ifAny tasksToRelease (releaseTasks db);
  _ ← ifAny (refOf <$> filter (λ qi, keyOf qi ∈ fo_deleted out) bufferedItems)
        (InsertBufferedTaskRuntimes db);
  _ ← ifAny (fo_durable out) (incrementDurableTaskInvocationCounts db);
  Ok (fo_succeeded out, failed).

(** The transaction around it; [begun] and [committed] are the replies of begin and commit. *)
Definition MarkQueueItemsProcessed (db : markStatements) (begun committed : bool) (r : AssignResults) :
    result (list AssignedItem * list AssignedItem) :=
  _ ← guardOk begun;
  res ← markQueueItemsProcessed db r;
  _ ← guardOk committed;
  Ok res.

End mark.

(** ** Windows of rate limits *)

Definition durationStrings : list string :=
  ["SECOND"; "MINUTE"; "HOUR"; "DAY"; "WEEK"; "MONTH"; "YEAR"]%string.

Fixpoint indexOf (s : string) (l : list string) (i : Z) : option Z :=
  match l with
  | [] => None
  | d :: rest => if decide (d = s) then Some i else indexOf s rest (i + 1)
  end.

Definition getDurationIndex (s : string) : option Z := indexOf s durationStrings 0.
#[global] Arguments getDurationIndex : simpl never.

Definition getLargerDuration (s1 s2 : string) : option string :=
  i1 ← getDurationIndex s1;
  i2 ← getDurationIndex s2;
  Some (if bool_decide (i2 < i1) then s1 else s2).

Definition getWindowParamFromDurString (dur : string) : string :=
  if decide (dur ∈ durationStrings) then ("1 " ++ dur)%string else "MINUTE"%string.

(** ** Rate limits of tasks *)

Inductive StepExpressionKind := RateLimitKey | RateLimitValue | RateLimitUnits | RateLimitWindow.

#[global] Instance kind_eq_dec : EqDecision StepExpressionKind.
Proof. solve_decision. Defined.

(** An evaluated expression; an absent column reads as the zero value. *)
Record V1TaskExpressionEval := TaskEval {
  ev_Key : string;
  ev_TaskID : Z;
  ev_ValueStr : string;
  ev_ValueInt : Z;
  ev_Kind : StepExpressionKind;
}.

Record StepRateLimit := MkStepRateLimit { srl_Units : Z; srl_StepId : uuid; srl_RateLimitKey : string }.

(** The key each (task, global key) evaluates to. *)
Definition taskKeys (evals : list V1TaskExpressionEval) : gmap (Z * string) string :=
  foldl (λ m ev, if decide (ev_Kind ev = RateLimitKey)
                 then <[(ev_TaskID ev, ev_Key ev) := ev_ValueStr ev]> m else m) ∅ evals.

Definition rateLimitKeyToEvals (evals : list V1TaskExpressionEval) :
    gmap string (list V1TaskExpressionEval) :=
  let keys := taskKeys evals in
  foldl (λ m ev, let k := default ""%string (keys !! (ev_TaskID ev, ev_Key ev)) in
                 <[k := default [] (m !! k) ++ [ev]]> m) ∅ evals.

(** What the scan of the evaluations of one key collects. *)
Record keyScan := KeyScan {
  ks_skip : bool;
  ks_duration : string;
  ks_limitValue : Z;
  ks_units : gmap Z Z;
}.

Definition scanEval (ev : V1TaskExpressionEval) (s : keyScan) : keyScan :=
  match ev_Kind ev with
  | RateLimitWindow =>
      if decide (ks_duration s = ""%string)
      then KeyScan (ks_skip s) (ev_ValueStr ev) (ks_limitValue s) (ks_units s)
      else if decide (ks_duration s = ev_ValueStr ev) then s
      else match getLargerDuration (ks_duration s) (ev_ValueStr ev) with
           | None => KeyScan true (ks_duration s) (ks_limitValue s) (ks_units s)
           | Some d => KeyScan (ks_skip s) d (ks_limitValue s) (ks_units s)
           end
  | RateLimitValue =>
      let v := if bool_decide (ks_limitValue s = 0) then ev_ValueInt ev
               else if bool_decide (ks_limitValue s ≠ ev_ValueInt ev)
                    then Z.min (ks_limitValue s) (ev_ValueInt ev) else ks_limitValue s in
      KeyScan (ks_skip s) (ks_duration s) v (ks_units s)
  | RateLimitUnits =>
      KeyScan (ks_skip s) (ks_duration s) (ks_limitValue s) (<[ev_TaskID ev := ev_ValueInt ev]> (ks_units s))
  | RateLimitKey => s
  end.

(** The loop over the evaluations of a key; an invalid window breaks out of it. *)
Fixpoint scanEvals (evals : list V1TaskExpressionEval) (s : keyScan) : keyScan :=
  match evals with
  | [] => s
  | ev :: rest => let s := scanEval ev s in if ks_skip s then s else scanEvals rest s
  end.

Definition scanKey (evals : list V1TaskExpressionEval) : keyScan := scanEvals evals (KeyScan false "" 0 ∅).

(** -1 marks a placeholder that needs no upsert. *)
Definition definitionOf (s : keyScan) : option RateLimit.RateLimitDefinition :=
  if ks_skip s then None
  else if bool_decide (0 ≤ ks_limitValue s)
  then Some (RateLimit.MkDefinition (to_int32 (ks_limitValue s)) (getWindowParamFromDurString (ks_duration s)))
  else None.

Notation unitsByTask := (gmap Z (gmap string Z)).

Definition setUnits (task : Z) (key : string) (units : Z) (m : unitsByTask) : unitsByTask :=
  <[task := <[key := units]> (default ∅ (m !! task))]> m.

Definition dynamicUnits (scans : gmap string keyScan) : unitsByTask :=
  map_fold (λ key s m, map_fold (λ task u m, setUnits task key u m) m (ks_units s)) ∅ scans.

Definition stepIdToTasks (qis : list queueItem) : gmap uuid (list Z) :=
  foldl (λ m qi, <[qi_StepID qi := default [] (m !! qi_StepID qi) ++ [qi_TaskID qi]]> m) ∅ qis.

Definition addStatic (tasks : gmap uuid (list Z)) (m : unitsByTask) (row : StepRateLimit) : unitsByTask :=
  foldl (λ m task, setUnits task (srl_RateLimitKey row) (srl_Units row) m) m
    (default [] (tasks !! srl_StepId row)).

(** The steps a read found rate limits for. *)
Definition stepsWithRateLimits (qis : list queueItem) (evals : list V1TaskExpressionEval)
    (rows : list StepRateLimit) : gset uuid :=
  let taskIdToStepId : gmap Z uuid := foldl (λ m qi, <[qi_TaskID qi := qi_StepID qi]> m) ∅ qis in
  list_to_set (omap (λ ev, if decide (ev_Kind ev = RateLimitKey)
                           then Some (default 0 (taskIdToStepId !! ev_TaskID ev)) else None) evals) ∪
  list_to_set (srl_StepId <$> rows).

(** The units of every task, the definitions to upsert, and the cache of steps with rate limits. *)
Definition GetTaskRateLimits (listEvals : option (list V1TaskExpressionEval))
    (listLimits : option (list StepRateLimit)) (qis : list queueItem) (cache : gmap uuid bool) :
    result (unitsByTask * gmap string RateLimit.RateLimitDefinition) * gmap uuid bool :=
  let tasks := stepIdToTasks qis in
  if bool_decide (map_Forall (λ step _, cache !! step = Some false) tasks) then (Ok (∅, ∅), cache)
  else
    match listEvals, listLimits with
    | Some evals, Some rows =>
        let scans := scanKey <$> rateLimitKeyToEvals evals in
        let units := foldl (addStatic tasks) (dynamicUnits scans) rows in
        let found := stepsWithRateLimits qis evals rows in
        (Ok (units, omap definitionOf scans),
         map_imap (λ step _, Some (bool_decide (step ∈ found))) tasks ∪ cache)
    | _, _ => (Err, cache)
    end.

(** ** Cached lookups of steps *)

(** enumerables.Uniq: the first occurrences. *)
Fixpoint Uniq {A} `{EqDecision A} (l : list A) : list A :=
  match l with [] => [] | x :: rest => x :: filter (λ y, y ≠ x) (Uniq rest) end.

(** The cached entries of the steps, and the steps to look up. *)
Definition fromCache {A} (cache : gmap uuid A) (steps : list uuid) : gmap uuid A * list uuid :=
  (filter (λ sv, sv.1 ∈ steps) cache, filter (λ s, cache !! s = None) steps).

Definition GetDesiredLabels (query : list uuid → option (list (uuid * desiredLabel))) (stepIds : list uuid)
    (cache : gmap uuid (list desiredLabel)) :
    result (gmap uuid (list desiredLabel)) * gmap uuid (list desiredLabel) :=
  let '(found, lookup) := fromCache cache (Uniq stepIds) in
  if decide (lookup = []) then (Ok found, cache)
  else match query lookup with
       | None => (Err, cache)
       | Some rows =>
           let found := foldl (λ m row, <[row.1 := default [] (m !! row.1) ++ [row.2]]> m) found rows in
           let found := foldl (λ m s, <[s := default [] (m !! s)]> m) found lookup in
           (Ok found, foldl (λ c s, <[s := default [] (found !! s)]> c) cache lookup)
       end.

Definition GetStepSlotRequests (query : list uuid → option (list (uuid * string * Z))) (stepIds : list uuid)
    (cache : gmap uuid (gmap string Z)) :
    result (gmap uuid (gmap string Z)) * gmap uuid (gmap string Z) :=
  let '(found, lookup) := fromCache cache (Uniq stepIds) in
  if decide (lookup = []) then (Ok found, cache)
  else match query lookup with
       | None => (Err, cache)
       | Some rows =>
           let found := foldl (λ m '(s, t, u), <[s := <[t := u]> (default ∅ (m !! s))]> m) found rows in
           let found := foldl (λ m s, <[s := default ∅ (m !! s)]> m) found lookup in
           (Ok found, foldl (λ c s, <[s := default ∅ (found !! s)]> c) cache lookup)
       end.

Definition GetStepBatchConfigs (query : list uuid → option (list uuid)) (stepIds : list uuid)
    (cache : gmap uuid bool) : result (gmap uuid bool) * gmap uuid bool :=
  let '(found, lookup) := fromCache cache (Uniq stepIds) in
  let found := foldl (λ m s, <[s := false]> m) found lookup in
  if decide (lookup = []) then (Ok found, cache)
  else match query lookup with
       | None => (Err, cache)
       | Some steps =>
           let found := foldl (λ m s, <[s := true]> m) found steps in
           (Ok found, foldl (λ c s, <[s := default false (found !! s)]> c) cache lookup)
       end.

(** ** Requeueing rate limited items *)

Record RequeueRow := MkRequeueRow { MovedCount : Z; NextRequeueAfter : option Z }.

(** [row] is the reply of the statement, [upserted] that of upsertQueues. *)
Definition RequeueRateLimitedItems (row : option RequeueRow) (upserted : bool) : result (option Z) :=
  row ← of_reply row;
  if bool_decide (MovedCount row = 0) then Ok (NextRequeueAfter row)
  else _ ← guardOk upserted; Ok (NextRequeueAfter row).

(** ** Every assigned item is reported once *)

(** An item up to its durability, which the flush fills in. *)
Definition assignment (i : AssignedItem) : uuid * queueItem * bool :=
  (ai_WorkerId i, ai_QueueItem i, ai_IsAssignedLocally i).

Section mark_theory.
Context {interval : Type} (durationToInterval : string → option interval).

Lemma planAssigned_perm items :
  let plan := planAssigned durationToInterval items in
  (map_to_list (pl_items plan)).*2 ++ pl_failed plan ≡ₚ items ∧
  (∀ k i, pl_items plan !! k = Some i → keyOf (ai_QueueItem i) = k).
Proof.
  cbv zeta. unfold planAssigned. induction items as [|i items [IH Hk]] using rev_ind.
  { split; [reflexivity|]. intros k i. cbn. by rewrite lookup_empty. }
  rewrite foldl_snoc. set (plan := foldl _ _ items) in *. unfold planOne. cbv zeta.
  assert (∀ p : @assignPlan interval, pl_items p = pl_items plan → pl_failed p = pl_failed plan ++ [i] →
    (map_to_list (pl_items p)).*2 ++ pl_failed p ≡ₚ items ++ [i] ∧
    (∀ k i, pl_items p !! k = Some i → keyOf (ai_QueueItem i) = k)) as Hfail.
  { intros p -> ->. split; [|done]. by rewrite (assoc_L (++)), IH. }
  destruct (pl_items plan !! keyOf (ai_QueueItem i)) as [j|] eqn:Hi; [by apply Hfail|].
  destruct (durationToInterval _) as [t|]; [|by apply Hfail]. cbn. split.
  - rewrite map_to_list_insert by done. cbn. rewrite IH. solve_Permutation.
  - intros k j. rewrite lookup_insert_Some. intros [[<- <-]|[_ Hj]]; [done|by apply Hk].
Qed.

Lemma flushRows_perm items rows :
  (∀ k i, items !! k = Some i → keyOf (ai_QueueItem i) = k) →
  let out := flushRows items rows in
  (assignment <$> fo_succeeded out ++ (map_to_list (fo_items out)).*2)
    ≡ₚ (assignment <$> (map_to_list items).*2) ∧
  (∀ k i, fo_items out !! k = Some i → items !! k = Some i) ∧
  NoDup (keyOf ∘ ai_QueueItem <$> fo_succeeded out) ∧
  (∀ i, i ∈ fo_succeeded out → fo_items out !! keyOf (ai_QueueItem i) = None).
Proof.
  intros Hk. cbv zeta. unfold flushRows.
  induction rows as [|row rows (IH & Hsub & Hnd & Hdel)] using rev_ind.
  { split_and!; [done|done|constructor|]. intros i. set_solver. }
  rewrite foldl_snoc. set (out := foldl _ _ rows) in *. unfold flushOne. cbv zeta.
  destruct (fr_WorkerID row) as [w|]; [|done].
  destruct (fo_items out !! rowKey row) as [item|] eqn:Hi; [|done]. cbn.
  pose proof (Hk _ _ (Hsub _ _ Hi)) as Hkey. split_and!.
  - rewrite <- IH, !fmap_app, <- (map_to_list_delete _ _ _ Hi). cbn.
    unfold assignment at 2. cbn. fold (assignment item). solve_Permutation.
  - intros k j [_ Hj]%lookup_delete_Some. by apply Hsub.
  - rewrite fmap_app. cbn. apply NoDup_app. split_and!; [done| |apply NoDup_singleton].
    intros k Hin ->%list_elem_of_singleton. apply list_elem_of_fmap in Hin as (j & Hj & Hin).
    cbn in Hj. pose proof (Hdel j Hin) as Hd. rewrite <- Hj, Hkey in Hd. congruence.
  - intros j [Hj|Hj]%elem_of_app.
    + rewrite lookup_delete_None. right. by apply Hdel.
    + apply list_elem_of_singleton in Hj as ->. cbn. rewrite Hkey. apply lookup_delete_eq.
Qed.

(** What a successful call returns. *)
Lemma mark_Ok db r succeeded failed :
  markQueueItemsProcessed durationToInterval db r = Ok (succeeded, failed) →
  ∃ rows, let plan := planAssigned durationToInterval (Assigned r) in
    let out := flushRows (pl_items plan) rows in
    succeeded = fo_succeeded out ∧ failed = pl_failed plan ++ (map_to_list (fo_items out)).*2.
Proof.
  unfold markQueueItemsProcessed. cbv zeta. rewrite bind_Ok. intros (rows & _ & H). exists rows.
  repeat match type of H with
  | (_ ≫= _) = Ok _ => apply bind_Ok in H as (? & _ & H)
  | (let '(_, _) := ?p in _) = _ => destruct p
  end. by injection H as <- <-.
Qed.

(** Every assigned item comes back exactly once, as succeeded or as failed. *)
Lemma mark_perm db r succeeded failed :
  markQueueItemsProcessed durationToInterval db r = Ok (succeeded, failed) →
  (assignment <$> succeeded ++ failed) ≡ₚ (assignment <$> Assigned r) ∧
  NoDup (keyOf ∘ ai_QueueItem <$> succeeded).
Proof.
  intros H. destruct (mark_Ok db r succeeded failed H) as (rows & -> & ->).
  destruct (planAssigned_perm (Assigned r)) as [Hp Hk].
  destruct (flushRows_perm (pl_items (planAssigned durationToInterval (Assigned r))) rows Hk)
    as (Hf & _ & Hnd & _).
  split; [|done]. apply (fmap_Permutation assignment) in Hp. etrans; [|exact Hp].
  rewrite !fmap_app. rewrite fmap_app in Hf. rewrite <- Hf. solve_Permutation.
Qed.

End mark_theory.

(** Whatever rows the flush statement returns, a call that succeeds reports every assigned item
    exactly once, as assigned or as failed, so that each one is acked or nacked; no task retry is
    assigned twice. *)
Theorem mark_reports_each_once {interval} (durationToInterval : string → option interval) db begun
    committed r succeeded failed :
  MarkQueueItemsProcessed durationToInterval db begun committed r = Ok (succeeded, failed) →
  (assignment <$> succeeded ++ failed) ≡ₚ (assignment <$> Assigned r) ∧
  NoDup (keyOf ∘ ai_QueueItem <$> succeeded).
Proof.
  unfold MarkQueueItemsProcessed. rewrite bind_Ok. intros (_ & _ & H).
  apply bind_Ok in H as ([succ fail] & Hm & H). apply bind_Ok in H as (_ & _ & H).
  injection H as <- <-. by apply (mark_perm durationToInterval db).
Qed.

(** A database that assigns every key it is given and accepts every statement. *)
Definition sampleStatements : @markStatements unit :=
  MarkStatements
    (λ keys _ _, Some ((λ k, FlushedRow (Id k.1.1) (InsertedAt k.1.1) (RetryCount k.1.1) (Some k.1.2) None)
                         <$> keys))
    (λ _, true) (λ _, true) (λ _, true) (λ _, true) (λ _, true) (λ _, true).

(** Two copies of one task retry: the first is assigned, the second fails. *)
Definition sampleRepeated : AssignResults :=
  let qi := sampleItem in
  MkAssignResults [MkAssignedItem 5 qi false false; MkAssignedItem 6 qi false false] [] [] [] [] [] [].

Lemma mark_reports_each_once_witness :
  ∃ succeeded failed,
    MarkQueueItemsProcessed (λ _, Some tt) sampleStatements true true sampleRepeated =
      Ok (succeeded, failed) ∧ length succeeded = 1%nat ∧ length failed = 1%nat ∧
    (assignment <$> succeeded ++ failed) ≡ₚ (assignment <$> Assigned sampleRepeated).
Proof.
  eexists _, _. split; [vm_compute; reflexivity|]. split_and!; [reflexivity..|].
  eapply (mark_reports_each_once (λ _, Some tt) sampleStatements true true sampleRepeated).
  vm_compute. reflexivity.
Defined.

(** ** The rate limits of one key do not depend on the order of the rows *)

(** A row whose window is known and whose limit is not zero. *)
Definition eval_ok (ev : V1TaskExpressionEval) : Prop :=
  (ev_Kind ev = RateLimitWindow → is_Some (getDurationIndex (ev_ValueStr ev))) ∧
  (ev_Kind ev = RateLimitValue → ev_ValueInt ev ≠ 0).

Definition scan_ok (s : keyScan) : Prop :=
  ks_skip s = false ∧ (ks_duration s = ""%string ∨ is_Some (getDurationIndex (ks_duration s))).

Lemma indexOf_lt s l i j : indexOf s l i = Some j → i ≤ j.
Proof.
  revert i. induction l as [|d l IH]; intros i; simpl; [done|].
  case_decide; [intros [= ->]; lia|]. intros Hi. apply IH in Hi. lia.
Qed.

Lemma indexOf_inj s1 s2 l : ∀ i j, indexOf s1 l i = Some j → indexOf s2 l i = Some j → s1 = s2.
Proof.
  induction l as [|d l IH]; intros i j; simpl; [done|]. repeat case_decide; subst; try done.
  - intros [= <-] Hi%indexOf_lt. lia.
  - intros Hi%indexOf_lt [= <-]. lia.
  - apply IH.
Qed.

Lemma getLargerDuration_spec s1 s2 i1 i2 :
  getDurationIndex s1 = Some i1 → getDurationIndex s2 = Some i2 →
  getLargerDuration s1 s2 = Some (if bool_decide (i2 < i1) then s1 else s2).
Proof. intros H1 H2. unfold getLargerDuration. by rewrite H1, H2. Qed.

(** The window after one more row, as a maximum. *)
Definition joinWindow (d w : string) : string :=
  if decide (d = ""%string) then w
  else match getDurationIndex d, getDurationIndex w with
       | Some i, Some j => if bool_decide (j < i) then d else w
       | _, _ => d
       end.

Definition joinValue (v w : Z) : Z := if decide (v = 0) then w else Z.min v w.

Lemma scanEval_ok ev s :
  eval_ok ev → scan_ok s →
  scan_ok (scanEval ev s) ∧
  scanEval ev s =
    match ev_Kind ev with
    | RateLimitWindow => KeyScan false (joinWindow (ks_duration s) (ev_ValueStr ev)) (ks_limitValue s) (ks_units s)
    | RateLimitValue => KeyScan false (ks_duration s) (joinValue (ks_limitValue s) (ev_ValueInt ev)) (ks_units s)
    | RateLimitUnits => KeyScan false (ks_duration s) (ks_limitValue s) (<[ev_TaskID ev := ev_ValueInt ev]> (ks_units s))
    | RateLimitKey => s
    end.
Proof.
  intros [Hw Hv] [Hs Hd]. destruct s as [skip d v u]. cbn in Hs, Hd. subst skip.
  unfold scanEval, scan_ok. destruct (ev_Kind ev); cbn; try done.
  - split; [done|]. f_equal. unfold joinValue.
    destruct (decide (v = 0)) as [Hv0|Hv0]; [by rewrite bool_decide_true|].
    rewrite bool_decide_false by done.
    case_bool_decide; [done|]. lia.
  - destruct (Hw eq_refl) as [j Hj]. unfold joinWindow. case_decide as Hd0; cbn.
    { split; [split; [done|by right; exists j]|done]. }
    destruct Hd as [?|[i Hi]]; [done|]. rewrite Hi, Hj. case_decide as Heq.
    + subst d. assert (i = j) as -> by congruence. rewrite bool_decide_false by lia.
      cbn. split; [split; [done|by right; exists j]|done].
    + rewrite (getLargerDuration_spec _ _ i j Hi Hj). cbn.
      split; [split; [done|right; case_bool_decide; by eexists]|done].
Qed.

Lemma joinWindow_valid d a k i :
  getDurationIndex d = Some k → getDurationIndex a = Some i →
  joinWindow d a = if bool_decide (i < k) then d else a.
Proof.
  intros Hk Hi. unfold joinWindow. rewrite decide_False by (by intros ->). by rewrite Hk, Hi.
Qed.

Lemma joinWindow_comm d a b :
  d = ""%string ∨ is_Some (getDurationIndex d) → is_Some (getDurationIndex a) →
  is_Some (getDurationIndex b) → joinWindow (joinWindow d a) b = joinWindow (joinWindow d b) a.
Proof.
  intros Hd [i Hi] [j Hj].
  assert (i = j → a = b) as Hab by (intros ->; by eapply indexOf_inj).
  destruct (decide (d = ""%string)) as [->|Hne].
  - change (joinWindow "" a) with a. change (joinWindow "" b) with b.
    rewrite (joinWindow_valid a b i j), (joinWindow_valid b a j i) by done.
    repeat case_bool_decide; first [done|lia|symmetry; apply Hab; lia].
  - destruct Hd as [?|[k Hk]]; [done|].
    rewrite (joinWindow_valid d a k i), (joinWindow_valid d b k j) by done.
    destruct (bool_decide (i < k)) eqn:H1, (bool_decide (j < k)) eqn:H2;
      rewrite ?(joinWindow_valid d a k i), ?(joinWindow_valid d b k j), ?(joinWindow_valid a b i j),
        ?(joinWindow_valid b a j i), ?H1, ?H2 by done; try done;
      rewrite ?bool_decide_eq_true, ?bool_decide_eq_false in H1, H2;
      repeat case_bool_decide; first [done|lia|symmetry; apply Hab; lia].
Qed.

Lemma joinValue_comm v a b : a ≠ 0 → b ≠ 0 → joinValue (joinValue v a) b = joinValue (joinValue v b) a.
Proof. intros Ha Hb. unfold joinValue. repeat case_decide; lia. Qed.

(** The units a row sets, if any. *)
Definition unitsTask (ev : V1TaskExpressionEval) : option Z :=
  if decide (ev_Kind ev = RateLimitUnits) then Some (ev_TaskID ev) else None.

Lemma scanEval_comm a b s :
  eval_ok a → eval_ok b → scan_ok s → (∀ t, unitsTask a = Some t → unitsTask b ≠ Some t) →
  scanEval b (scanEval a s) = scanEval a (scanEval b s).
Proof.
  intros Ha Hb Hs Hu. destruct (scanEval_ok a s Ha Hs) as [Hsa Ea].
  destruct (scanEval_ok b s Hb Hs) as [Hsb Eb].
  destruct (scanEval_ok b _ Hb Hsa) as [_ Eba], (scanEval_ok a _ Ha Hsb) as [_ Eab].
  rewrite Eba, Eab, Ea, Eb. destruct Ha as [Hwa Hva], Hb as [Hwb Hvb], Hs as [Hskip Hd].
  unfold unitsTask in Hu. destruct (ev_Kind a), (ev_Kind b); cbn; try done.
  - f_equal. apply joinValue_comm; auto.
  - f_equal. apply insert_insert_ne. intros He. apply (Hu (ev_TaskID a)); by rewrite ?He.
  - f_equal. apply joinWindow_comm; auto.
Qed.

Lemma scanEvals_foldl evals : ∀ s,
  Forall eval_ok evals → scan_ok s →
  scanEvals evals s = foldl (flip scanEval) s evals ∧ scan_ok (scanEvals evals s).
Proof.
  induction evals as [|ev evals IH]; intros s Hall Hs; [done|].
  apply Forall_cons in Hall as [Hev Hall]. destruct (scanEval_ok ev s Hev Hs) as [Hs' _].
  cbn [scanEvals foldl]. unfold flip at 2. rewrite (proj1 Hs'). by apply IH.
Qed.

Lemma foldl_scan_perm evals evals' : evals ≡ₚ evals' → ∀ s,
  Forall eval_ok evals → scan_ok s → NoDup (omap unitsTask evals) →
  foldl (flip scanEval) s evals = foldl (flip scanEval) s evals'.
Proof.
  induction 1 as [|x l l' Hp IH|x y l|l1 l2 l3 Hp1 IH1 Hp2 IH2]; intros s Hall Hs Hnd; [done| | |].
  - apply Forall_cons in Hall as [Hx Hall]. cbn [foldl]. apply IH; [done| |].
    + by apply scanEval_ok.
    + cbn in Hnd. destruct (unitsTask x); [by apply NoDup_cons in Hnd as [_ ?]|done].
  - apply Forall_cons in Hall as [Hy Hall]. apply Forall_cons in Hall as [Hx Hall].
    cbn [foldl]. f_equal. unfold flip. apply scanEval_comm; [done..|]. intros t Ht Ht'.
    cbn in Hnd. rewrite Ht, Ht' in Hnd. apply NoDup_cons in Hnd as [Hnd _]. set_solver.
  - rewrite IH1 by done. apply IH2; [by rewrite <- Hp1|done|]. by rewrite <- Hp1.
Qed.

(** The limit, the window and the units of a dynamic rate limit do not depend on the order in
    which the database returns the evaluated expressions, as long as the windows are known, no limit is
    zero and no task asks for two amounts of the key. *)
Theorem rate_limit_order_independent evals evals' :
  evals ≡ₚ evals' → Forall eval_ok evals → NoDup (omap unitsTask evals) →
  scanKey evals = scanKey evals' ∧ ks_skip (scanKey evals) = false.
Proof.
  intros Hp Hall Hnd. assert (scan_ok (KeyScan false "" 0 ∅)) as Hs by (split; [done|by left]).
  unfold scanKey. destruct (scanEvals_foldl evals _ Hall Hs) as [E1 [Hskip _]].
  split; [|done]. rewrite E1. rewrite Hp in Hall.
  rewrite (proj1 (scanEvals_foldl evals' _ Hall Hs)). apply foldl_scan_perm; [done| |done|done].
  by rewrite Hp.
Qed.

Definition sampleEvals (w1 w2 : string) : list V1TaskExpressionEval :=
  [TaskEval "g" 1 w1 0 RateLimitWindow; TaskEval "g" 2 w2 0 RateLimitWindow;
   TaskEval "g" 1 "" 3 RateLimitValue; TaskEval "g" 2 "" 5 RateLimitValue;
   TaskEval "g" 1 "" 1 RateLimitUnits; TaskEval "g" 2 "" 1 RateLimitUnits].

Lemma rate_limit_order_independent_witness :
  scanKey (sampleEvals "HOUR" "DAY") = scanKey (reverse (sampleEvals "HOUR" "DAY")) ∧
  ks_limitValue (scanKey (sampleEvals "HOUR" "DAY")) = 3 ∧
  ks_duration (scanKey (sampleEvals "HOUR" "DAY")) = "DAY"%string.
Proof.
  split_and!; [|vm_compute; reflexivity..].
  apply (rate_limit_order_independent (sampleEvals "HOUR" "DAY")); [by rewrite reverse_Permutation| |].
  - repeat constructor; intros; try done; by eexists.
  - vm_compute. repeat constructor; set_solver.
Defined.

(** When two tasks ask for one key with windows of which one is unknown, the scan stops there: the
    tasks whose units come after it in the reply are not limited on that key at all, and which tasks
    those are depends on the order of the rows. *)
Theorem unknown_window_lifts_limit :
  let keys := [TaskEval "g" 1 "k" 0 RateLimitKey; TaskEval "g" 2 "k" 0 RateLimitKey] in
  let qis := [sampleItem; QueueItem 2 2 1 "act" "q" StickyNONE None 0 1 0 None "" "" None] in
  let rows := sampleEvals "HOUR" "HOURS" in
  (∃ defs cache, GetTaskRateLimits (Some (keys ++ rows)) (Some []) qis ∅ = (Ok (∅, defs), cache)) ∧
  (∃ units defs cache, GetTaskRateLimits (Some (keys ++ reverse rows)) (Some []) qis ∅ =
     (Ok (units, defs), cache) ∧ units !! 1 = Some {["k"%string := 1]} ∧
     units !! 2 = Some {["k"%string := 1]}).
Proof.
  cbv zeta. split; [eexists _, _; vm_compute; reflexivity|].
  eexists _, _, _. split; [vm_compute; reflexivity|]. split; vm_compute; reflexivity.
Qed.

End QueueRepo.
