(* ===== verification/Queuer.v ===== *)
(** The queuer of one queue (src/pkg/scheduling/v1/queuer.go): the polling interval, the refill, the
    tick of loopQueue with its error paths, the flush of assignment results to the database with the
    acks and nacks it sends to the scheduler and the rate limiter, and the optimistic variants that run
    inside a trigger transaction.  Clocks, random jitter and the repository's replies are arguments. *)

From S2P Require Import Prelude Workers SlotPool RateLimit Scheduler TryAssign QueueRepo.
Import Workers Scheduler TryAssign.

Module Queuer.

Open Scope Z_scope.

(** ** Data *)

Definition queuePollInterval : Z := 1000000000.
Definition emptyPollsBeforeBackoff : Z := 3.
Definition maxQueuePollInterval : Z := 30 * 1000000000.

Record queuer := MkQueuer {
  q_lastReplenished : option Z;
  q_nextRateLimitRequeueAt : Z;
  q_limit : Z;
  q_notified : bool;
  q_unacked : gset Z;
  q_unassigned : gmap Z queueItem;
  q_consecutiveEmptyPolls : Z;
}.

Definition newQueuer (singleQueueLimit : Z) : queuer :=
  MkQueuer None 0 (if bool_decide (0 < singleQueueLimit) then singleQueueLimit else 100) false ∅ ∅ 0.

Definition set_items (unacked : gset Z) (unassigned : gmap Z queueItem) (q : queuer) : queuer :=
  MkQueuer (q_lastReplenished q) (q_nextRateLimitRequeueAt q) (q_limit q) (q_notified q) unacked unassigned
    (q_consecutiveEmptyPolls q).
Definition set_lastReplenished (t : option Z) (q : queuer) : queuer :=
  MkQueuer t (q_nextRateLimitRequeueAt q) (q_limit q) (q_notified q) (q_unacked q) (q_unassigned q)
    (q_consecutiveEmptyPolls q).
Definition set_nextRequeue (t : Z) (q : queuer) : queuer :=
  MkQueuer (q_lastReplenished q) t (q_limit q) (q_notified q) (q_unacked q) (q_unassigned q)
    (q_consecutiveEmptyPolls q).
Definition set_emptyPolls (n : Z) (q : queuer) : queuer :=
  MkQueuer (q_lastReplenished q) (q_nextRateLimitRequeueAt q) (q_limit q) (q_notified q) (q_unacked q)
    (q_unassigned q) n.

(** ** Polling *)

(** [jitter n] is [rand.N(n)], which panics unless its argument is positive. *)
Definition nextPollInterval (jitter : Z → Z) (q : queuer) : option Z :=
  let interval :=
    if bool_decide (emptyPollsBeforeBackoff < q_consecutiveEmptyPolls q) then
      let shift := q_consecutiveEmptyPolls q - emptyPollsBeforeBackoff in
      let shift := if bool_decide (5 < shift) then 5 else shift in
      let interval := Z.shiftl queuePollInterval shift in
      if bool_decide (maxQueuePollInterval < interval) then maxQueuePollInterval else interval
    else queuePollInterval in
  let half := Z.quot interval 2 in
  if bool_decide (0 < half) then Some (interval + jitter half) else None.

(** A wake-up is dropped while one is buffered. *)
Definition queue (q : queuer) : queuer :=
  MkQueuer (q_lastReplenished q) (q_nextRateLimitRequeueAt q) (q_limit q) true (q_unacked q)
    (q_unassigned q) (q_consecutiveEmptyPolls q).

Definition requeueRateLimitedItems (now : Z) (reply : result (option Z)) (q : queuer) : queuer :=
  if bool_decide (now < q_nextRateLimitRequeueAt q) then q
  else
    let next := now + queuePollInterval in
    set_nextRequeue
      (match reply with Ok (Some t) => if bool_decide (t < next) then t else next | _ => next end) q.

(** ** Refill *)

(** [sort.Slice] by priority, then id: ids are distinct, so the order it produces is unique. *)
Definition byPriority (a b : queueItem) : Z :=
  if bool_decide (qi_Priority a = qi_Priority b) then cmpZ (qi_ID a) (qi_ID b)
  else cmpZ (qi_Priority b) (qi_Priority a).

Definition staleAfter : Z := 990 * 1000000.

(** [order] is how Go ranges over the unassigned items; [listItems] the repository's reply. *)
Definition refillQueue (checkedAt now : Z) (order : list queueItem) (listItems : Z → result (list queueItem))
    (q : queuer) :
    result (list queueItem) * queuer :=
  let curr := order in
  let replenish :=
    bool_decide (Z.of_nat (length curr) < q_limit q) ||
    match q_lastReplenished q with
    | Some t => bool_decide (staleAfter < checkedAt - t)
    | None => false
    end in
  let '(curr, q) := if replenish
                    then (listItems (2 * q_limit q), set_lastReplenished (Some now) q)
                    else (Ok curr, q) in
  match curr with
  | Ok curr =>
      let newCurr := filter (λ qi, qi_ID qi ∉ q_unacked q) curr in
      (Ok (SortStableFunc byPriority newCurr),
       set_items (list_to_set (qi_ID <$> newCurr) ∪ q_unacked q) (q_unassigned q) q)
  | Err => (Err, q)
  | Panics => (Panics, q)
  end.

(** ** Acks of the queuer *)

(** The items leave both maps, or go back to the unassigned ones. *)
Definition dropItem (qi : queueItem) (q : queuer) : queuer :=
  set_items (q_unacked q ∖ {[qi_ID qi]}) (delete (qi_ID qi) (q_unassigned q)) q.
Definition keepItem (qi : queueItem) (q : queuer) : queuer :=
  set_items (q_unacked q ∖ {[qi_ID qi]}) (<[qi_ID qi := qi]> (q_unassigned q)) q.

Definition ack (r : assignResults) (q : queuer) : queuer :=
  let q := foldl (flip dropItem) q (aq_QueueItem <$> res_assigned r) in
  let q := foldl (flip dropItem) q (aq_QueueItem <$> res_buffered r) in
  let q := foldl (flip dropItem) q (bi_qi <$> res_batched r) in
  let q := foldl (flip keepItem) q (res_unassigned r) in
  let q := foldl (flip dropItem) q (res_schedulingTimedOut r) in
  let q := foldl (flip dropItem) q (srl_qi <$> res_rateLimitedToMove r) in
  foldl (flip keepItem) q (srl_qi <$> res_rateLimited r).

Definition unackedToUnassigned (items : list queueItem) (q : queuer) : queuer :=
  foldl (flip keepItem) q items.

(** ** Acks of the scheduler *)

(** The scheduler and the rate limiter, as a flush finds and leaves them. *)
Record shared := Shared { sh_sched : scheduler; sh_limiter : RateLimit.rateLimiter }.

(** The callbacks of an ack or nack run outside the run loop. *)
Definition schedulerAck (ids : list Z) (s : shared) : shared :=
  let '(callbacks, sched) := handleAck ids (sh_sched s) in
  Shared sched (foldl (flip RateLimit.ack) (sh_limiter s) callbacks).
Definition schedulerNack (ids : list Z) (s : shared) : shared :=
  let '(callbacks, sched) := handleNack ids (sh_sched s) in
  Shared sched (foldl (flip RateLimit.nack) (sh_limiter s) callbacks).

(** ** Flush *)

Definition rateLimitResultOf (s : scheduleRateLimitResult) : QueueRepo.RateLimitResult :=
  let r := default (RateLimit.failedResult 0) (srl_result s) in
  let qi := srl_qi s in
  QueueRepo.MkRateLimitResult qi (RateLimit.exceededKey r) (RateLimit.exceededUnits r)
    (RateLimit.exceededVal r) (RateLimit.res_nextRefillAt r) (RateLimit.pausedUntil r)
    (qi_TaskID qi) (qi_TaskInsertedAt qi) (qi_RetryCount qi).

Definition assignedItemOf (a : assignedQueueItem) : QueueRepo.AssignedItem :=
  QueueRepo.MkAssignedItem (WorkerId a) (aq_QueueItem a) false false.

Definition optsOf (r : assignResults) : QueueRepo.AssignResults :=
  QueueRepo.MkAssignResults (assignedItemOf <$> res_assigned r) (assignedItemOf <$> res_buffered r)
    (bi_qi <$> res_batched r) (res_unassigned r) (res_schedulingTimedOut r)
    (rateLimitResultOf <$> res_rateLimited r) (rateLimitResultOf <$> res_rateLimitedToMove r).

Definition stepRunIdsToAcks (r : assignResults) : gmap Z Z :=
  foldl (λ m a, <[qi_TaskID (aq_QueueItem a) := AckId a]> m) ∅ (res_assigned r).

(** The ack ids of items by task; a missing task reads as zero. *)
Definition ackIdsOf (r : assignResults) (items : list QueueRepo.AssignedItem) : list Z :=
  (λ i, default 0 (stepRunIdsToAcks r !! qi_TaskID (QueueRepo.ai_QueueItem i))) <$> items.

Record QueueResults := MkQueueResults {
  qr_Assigned : list QueueRepo.AssignedItem;
  qr_Buffered : list QueueRepo.AssignedItem;
  qr_SchedulingTimedOut : list queueItem;
  qr_RateLimited : list QueueRepo.RateLimitResult;
  qr_Unassigned : list queueItem;
}.

Definition isEmpty (r : assignResults) : bool :=
  match r with AssignResults [] [] [] [] [] [] [] => true | _ => false end.

Definition settleBatched (settle : Z → RateLimit.rateLimiter → RateLimit.rateLimiter) (r : assignResults)
    (s : shared) : shared :=
  Shared (sh_sched s)
    (foldl (λ rl b, match bi_reservation b with Some task => settle task rl | None => rl end)
       (sh_limiter s) (res_batched r)).

(** [mark] is the reply of MarkQueueItemsProcessed.  The number of items flushed, what is sent on the
    results channel, and the state before the deferred ack. *)
Definition flushResults (mark : QueueRepo.AssignResults →
                                result (list QueueRepo.AssignedItem * list QueueRepo.AssignedItem))
    (r : assignResults) (s : shared) : result (nat * list QueueResults) * shared :=
  if isEmpty r then (Ok (0%nat, []), s)
  else
    let opts := optsOf r in
    match mark opts with
    | Panics => (Panics, s)
    | Err =>
        let s := settleBatched RateLimit.nack r s in
        (Ok (0%nat, []), schedulerNack (AckId <$> res_assigned r) s)
    | Ok (succeeded, failed) =>
        let s := settleBatched RateLimit.ack r s in
        let s := schedulerNack (ackIdsOf r failed) s in
        let s := schedulerAck (ackIdsOf r succeeded) s in
        (Ok ((length succeeded + length (res_buffered r) + length (res_batched r) +
              length (res_schedulingTimedOut r))%nat,
             [MkQueueResults succeeded (QueueRepo.Buffered opts) (res_schedulingTimedOut r)
                (QueueRepo.RateLimited opts ++ QueueRepo.RateLimitedToMove opts) (res_unassigned r)]), s)
    end.

(** The items are always acked in the queuer. *)
Definition flushToDatabase (mark : QueueRepo.AssignResults →
                                   result (list QueueRepo.AssignedItem * list QueueRepo.AssignedItem))
    (r : assignResults) (s : shared) (q : queuer) : result (nat * list QueueResults) * shared * queuer :=
  let '(res, s) := flushResults mark r s in (res, s, ack r q).

(** ** The tick of loopQueue *)

(** The replies of the repository during one tick. *)
Record tickReplies := TickReplies {
  tr_requeue : result (option Z);
  tr_list : Z → result (list queueItem);
  tr_rateLimits : list queueItem →
    result (gmap Z (gmap string Z) * gmap string RateLimit.RateLimitDefinition);
  tr_labels : list uuid → result (gmap uuid (list desiredLabel));
  tr_batchConfigs : list uuid → result (gmap uuid bool);
  tr_slotRequests : list uuid → result (gmap uuid (gmap string Z));
}.

(** What tryAssign is called with. *)
Record assignCall := AssignCall {
  ac_qis : list queueItem;
  ac_labels : gmap uuid (list desiredLabel);
  ac_requests : gmap uuid (gmap string Z);
  ac_limits : gmap Z (gmap string Z);
  ac_overrides : gmap Z (list desiredLabel);
  ac_batchConfigs : gmap uuid bool;
}.

(** The labels a trigger asked for; [unmarshal] is what the JSON decoder leaves, also on an error. *)
Definition labelOverrides (unmarshal : string → list desiredLabel) (qis : list queueItem) :
    gmap Z (list desiredLabel) :=
  foldl (λ m qi, if decide (qi_DesiredWorkerLabel qi = ""%string) then m
                 else <[qi_TaskID qi := unmarshal (qi_DesiredWorkerLabel qi)]> m) ∅ qis.

(** The reads between the refill and tryAssign, any of which can fail; the definitions of dynamic limits are
    handed to the limiter as soon as they are read. *)
Definition loadCall (unmarshal : string → list desiredLabel) (io : tickReplies) (qis : list queueItem)
    (s : shared) : result assignCall * shared :=
  match tr_rateLimits io qis with
  | Ok (rls, definitions) =>
      let s := Shared (sh_sched s) (RateLimit.addDefinitions definitions (sh_limiter s)) in
      let stepIds := qi_StepID <$> qis in
      (labels ← tr_labels io stepIds;
       batchConfigs ← tr_batchConfigs io stepIds;
       requests ← tr_slotRequests io stepIds;
       Ok (AssignCall qis labels requests rls (labelOverrides unmarshal qis) batchConfigs), s)
  | Err => (Err, s)
  | Panics => (Panics, s)
  end.

(** The tick up to tryAssign: a call, or nothing after an error.  [clock] gives the
    successive readings. *)
Definition startTick (unmarshal : string → list desiredLabel) (clock : nat → Z)
    (order : list queueItem) (io : tickReplies) (s : shared) (q : queuer) : option assignCall * shared * queuer :=
  let q := requeueRateLimitedItems (clock 0%nat) (tr_requeue io) q in
  match refillQueue (clock 1%nat) (clock 2%nat) order (tr_list io) q with
  | (Ok qis, q) =>
      let q := set_emptyPolls (match qis with [] => q_consecutiveEmptyPolls q + 1 | _ => 0 end) q in
      match loadCall unmarshal io qis s with
      | (Ok call, s) => (Some call, s, q)
      | (_, s) => (None, s, unackedToUnassigned qis q)
      end
  | (_, q) => (None, s, q)
  end.

(** The results of tryAssign flushed one after the other: the items flushed and the items returned
    unassigned. *)
Fixpoint flushAll (mark : QueueRepo.AssignResults →
                          result (list QueueRepo.AssignedItem * list QueueRepo.AssignedItem))
    (rs : list assignResults) (s : shared) (q : queuer) : result (nat * nat) * shared * queuer :=
  match rs with
  | [] => (Ok (0%nat, 0%nat), s, q)
  | r :: rest =>
      let '(res, s, q) := flushToDatabase mark r s q in
      match res with
      | Ok (n, _) =>
          let '(res, s, q) := flushAll mark rest s q in
          ('(count, unassigned) ← res;
           Ok ((n + count)%nat, (length (res_unassigned r) + unassigned)%nat), s, q)
      | Err => (Err, s, q)
      | Panics => (Panics, s, q)
      end
  end.

(** Whether the queue is woken again once everything is flushed. *)
Definition wakesAgain (qis : list queueItem) (count unassigned : nat) (capacityUpdated : bool) : bool :=
  (negb (bool_decide (qis = [])) && bool_decide (count = length qis)) ||
  (bool_decide (0 < unassigned)%nat && capacityUpdated).

(** ** Optimistic scheduling *)

(** One flush inside the trigger's transaction: the items assigned to a worker of this process and
    what to send once the transaction commits. *)
Definition flushToDatabaseOptimistic (mark : QueueRepo.AssignResults →
      result (list QueueRepo.AssignedItem * list QueueRepo.AssignedItem))
    (localWorkerIds : gset uuid) (r : assignResults) (s : shared) :
    result (list QueueRepo.AssignedItem * option QueueResults) * shared :=
  match r with
  | AssignResults [] _ [] [] [] [] [] => (Ok ([], None), s)
  | _ =>
      let opts := optsOf (AssignResults (res_assigned r) [] (res_batched r) (res_unassigned r)
                            (res_schedulingTimedOut r) (res_rateLimited r) (res_rateLimitedToMove r)) in
      match mark opts with
      | Panics => (Panics, s)
      | Err => (Err, schedulerNack (AckId <$> res_assigned r) s)
      | Ok (succeeded, failed) =>
          let s := schedulerNack (ackIdsOf r failed) s in
          let s := schedulerAck (ackIdsOf r succeeded) s in
          let mark_local i := if decide (QueueRepo.ai_WorkerId i ∈ localWorkerIds)
            then QueueRepo.MkAssignedItem (QueueRepo.ai_WorkerId i) (QueueRepo.ai_QueueItem i) true
                   (QueueRepo.ai_IsDurable i)
            else i in
          let succeeded := mark_local <$> succeeded in
          (Ok (filter (λ i, QueueRepo.ai_WorkerId i ∈ localWorkerIds) succeeded,
               Some (MkQueueResults succeeded [] (res_schedulingTimedOut r)
                       (QueueRepo.RateLimited opts ++ QueueRepo.RateLimitedToMove opts)
                       (res_unassigned r))), s)
      end
  end.

(** The results flushed in turn; the first error returns and leaves the rest in the channel. *)
Fixpoint flushOptimistic (mark : QueueRepo.AssignResults →
      result (list QueueRepo.AssignedItem * list QueueRepo.AssignedItem))
    (localWorkerIds : gset uuid) (rs : list assignResults) (s : shared) :
    result (list QueueRepo.AssignedItem * list (option QueueResults)) * shared :=
  match rs with
  | [] => (Ok ([], []), s)
  | r :: rest =>
      match flushToDatabaseOptimistic mark localWorkerIds r s with
      | (Ok (assigned, qr), s) =>
          let '(res, s) := flushOptimistic mark localWorkerIds rest s in
          ('(assigned', qrs) ← res; Ok (assigned ++ assigned', qr :: qrs), s)
      | (Err, s) => (Err, s)
      | (Panics, s) => (Panics, s)
      end
  end.

(** The reads of the optimistic path, inside the transaction of the trigger. *)
Definition loadOptimistic (unmarshal : string → list desiredLabel) (io : tickReplies) (qis : list queueItem)
    (s : shared) : result assignCall * shared :=
  match tr_rateLimits io qis with
  | Ok (rls, definitions) =>
      let s := Shared (sh_sched s) (RateLimit.addDefinitions definitions (sh_limiter s)) in
      let stepIds := qi_StepID <$> qis in
      (batchConfigs ← tr_batchConfigs io stepIds;
       labels ← tr_labels io stepIds;
       requests ← tr_slotRequests io stepIds;
       Ok (AssignCall qis labels requests rls (labelOverrides unmarshal qis) batchConfigs), s)
  | Err => (Err, s)
  | Panics => (Panics, s)
  end.

(** [assign] is tryAssign on the loaded call. *)
Definition runOptimisticQueue (unmarshal : string → list desiredLabel) (io : tickReplies)
    (assign : assignCall → shared → list assignResults * shared)
    (mark : QueueRepo.AssignResults →
      result (list QueueRepo.AssignedItem * list QueueRepo.AssignedItem))
    (localWorkerIds : gset uuid) (qis : list queueItem) (s : shared) :
    result (list QueueRepo.AssignedItem * list (option QueueResults)) * shared :=
  match loadOptimistic unmarshal io qis s with
  | (Ok call, s) =>
      let '(rs, s) := assign call s in flushOptimistic mark localWorkerIds rs s
  | (Err, s) => (Err, s)
  | (Panics, s) => (Panics, s)
  end.

End Queuer.
