(* ===== verification/QueuerTheorems.v ===== *)
(** What the queuer promises: a polling interval within its bounds, no item handed out twice or after
    its processing committed, every assignment of a flush acked or nacked; and where it breaks: a task
    assigned twice in one flush, and the optimistic flush. *)

From S2P Require Import Prelude Workers SlotPool RateLimit Scheduler SchedulerTheorems TryAssign QueueRepo Queuer.
Import Workers Scheduler TryAssign Queuer.

Module QueuerTheorems.

Open Scope Z_scope.

(** ** Polling *)

(** The interval to the next poll is one second doubled for every empty poll beyond the third, at
    most thirty seconds, plus a jitter of less than half of it; the cap on the shift never shows, and
    the random source is never called with an empty range. *)
Theorem poll_interval_bounds jitter q :
  (∀ n, 0 < n → 0 ≤ jitter n < n) → 0 ≤ q_consecutiveEmptyPolls q →
  let base := Z.min 30 (2 ^ Z.max 0 (q_consecutiveEmptyPolls q - 3)) * 1000000000 in
  ∃ d, nextPollInterval jitter q = Some d ∧ base ≤ d < base + base / 2.
Proof.
  intros Hj Hn. cbv zeta. unfold nextPollInterval, emptyPollsBeforeBackoff, maxQueuePollInterval,
    queuePollInterval. set (n := q_consecutiveEmptyPolls q) in *.
  set (interval := if bool_decide (3 < n) then _ else _).
  assert (interval = Z.min 30 (2 ^ Z.max 0 (n - 3)) * 1000000000) as ->.
  { unfold interval. case_bool_decide as H3.
    - rewrite Z.max_r by lia. destruct (decide (5 < n - 3)) as [H5|H5].
      + rewrite (bool_decide_true (5 < n - 3)) by done.
        assert (64 ≤ 2 ^ (n - 3)) by (change 64 with (2 ^ 6); apply Z.pow_le_mono_r; lia).
        rewrite Z.min_l by lia. reflexivity.
      + rewrite (bool_decide_false (5 < n - 3)), Z.shiftl_mul_pow2 by lia.
        assert (2 ^ (n - 3) > 0) by (apply Z.lt_gt, Z.pow_pos_nonneg; lia).
        case_bool_decide; lia.
    - rewrite Z.max_l by lia. reflexivity. }
  set (m := Z.min 30 _). assert (1 ≤ m ≤ 30) as Hm.
  { unfold m. assert (0 < 2 ^ Z.max 0 (n - 3)) by (apply Z.pow_pos_nonneg; lia). lia. }
  rewrite Z.quot_div_nonneg by lia. rewrite bool_decide_true by (apply Z.div_str_pos; lia).
  eexists. split; [done|].
  specialize (Hj (m * 1000000000 / 2) ltac:(apply Z.div_str_pos; lia)). lia.
Qed.

Lemma poll_interval_bounds_witness :
  ∃ d, nextPollInterval (λ _, 0) (set_emptyPolls 12 (newQueuer 0)) = Some d ∧
       30 * 1000000000 ≤ d < 45 * 1000000000.
Proof.
  apply (poll_interval_bounds (λ _, 0) (set_emptyPolls 12 (newQueuer 0))); [intros; lia|simpl; lia].
Defined.

(** ** What an ack of the queuer does *)

Definition ids (l : list queueItem) : gset Z := list_to_set (qi_ID <$> l).

(** The items of a result that leave the queue, and those that stay. *)
Definition droppedOf (r : assignResults) : list queueItem :=
  (aq_QueueItem <$> res_assigned r) ++ (aq_QueueItem <$> res_buffered r) ++ (bi_qi <$> res_batched r) ++
  res_schedulingTimedOut r ++ (srl_qi <$> res_rateLimitedToMove r).
Definition keptOf (r : assignResults) : list queueItem :=
  res_unassigned r ++ (srl_qi <$> res_rateLimited r).

Lemma items_split r : itemsOf r ≡ₚ droppedOf r ++ keptOf r.
Proof. unfold itemsOf, droppedOf, keptOf. solve_Permutation. Qed.

Lemma drop_all l : ∀ q,
  q_unacked (foldl (flip dropItem) q l) = q_unacked q ∖ ids l ∧
  ∀ id, q_unassigned (foldl (flip dropItem) q l) !! id =
        if decide (id ∈ ids l) then None else q_unassigned q !! id.
Proof.
  induction l as [|x l IH]; intros q; unfold ids.
  { cbn. split; [set_solver|]. intros id. by rewrite decide_False by set_solver. }
  change (foldl (flip dropItem) q (x :: l)) with (foldl (flip dropItem) (dropItem x q) l).
  cbn [fmap list_fmap list_to_set]. destruct (IH (dropItem x q)) as [Hu Hm]. unfold ids in Hu, Hm.
  rewrite Hu. split; [cbn; set_solver|]. intros id. rewrite Hm. cbn.
  destruct (decide (id ∈ list_to_set (qi_ID <$> l))) as [Hin|Hout].
  - by rewrite decide_True by set_solver.
  - destruct (decide (id = qi_ID x)) as [->|Hne].
    + rewrite decide_True by set_solver. apply lookup_delete_eq.
    + rewrite decide_False by set_solver. by apply lookup_delete_ne.
Qed.

Lemma keep_all l : ∀ q,
  q_unacked (foldl (flip keepItem) q l) = q_unacked q ∖ ids l ∧
  ∀ id, q_unassigned (foldl (flip keepItem) q l) !! id =
        match last (filter (λ x, qi_ID x = id) l) with
        | Some x => Some x
        | None => q_unassigned q !! id
        end.
Proof.
  induction l as [|x l IH] using rev_ind; intros q; unfold ids.
  { cbn. split; [set_solver|done]. }
  rewrite foldl_snoc. destruct (IH q) as [Hu Hm]. unfold ids in Hu.
  set (q' := foldl (flip keepItem) q l) in *. change (flip keepItem q' x) with (keepItem x q').
  unfold keepItem. cbn [set_items q_unacked q_unassigned].
  rewrite Hu, fmap_app, list_to_set_app_L. split; [set_solver|]. intros id.
  rewrite filter_app, filter_cons, filter_nil. destruct (decide (qi_ID x = id)) as [<-|Hne].
  - rewrite last_snoc. apply lookup_insert_eq.
  - rewrite app_nil_r, lookup_insert_ne by done. apply Hm.
Qed.

Lemma keep_all_from l q id x :
  q_unassigned (foldl (flip keepItem) q l) !! id = Some x →
  (x ∈ l ∧ qi_ID x = id) ∨ q_unassigned q !! id = Some x.
Proof.
  rewrite (proj2 (keep_all l q)). destruct (last _) as [y|] eqn:Hl; [|by right].
  intros [= ->]. left. apply last_Some_elem_of, list_elem_of_filter in Hl as [? ?]. done.
Qed.

Lemma drop_all_from l q id x :
  q_unassigned (foldl (flip dropItem) q l) !! id = Some x →
  id ∉ ids l ∧ q_unassigned q !! id = Some x.
Proof. rewrite (proj2 (drop_all l q)). by case_decide. Qed.

Lemma ids_app l1 l2 : ids (l1 ++ l2) = ids l1 ∪ ids l2.
Proof. unfold ids. rewrite fmap_app. apply list_to_set_app_L. Qed.

Lemma queuer_ack_unacked r q : q_unacked (ack r q) = q_unacked q ∖ ids (itemsOf r).
Proof.
  unfold ack. cbv zeta. rewrite (proj1 (keep_all _ _)), !(proj1 (drop_all _ _)), (proj1 (keep_all _ _)),
    !(proj1 (drop_all _ _)). unfold itemsOf. rewrite !ids_app. set_solver.
Qed.

Lemma ack_unassigned r q id x :
  q_unassigned (ack r q) !! id = Some x →
  (x ∈ keptOf r ∧ qi_ID x = id) ∨ (id ∉ ids (droppedOf r) ∧ q_unassigned q !! id = Some x).
Proof.
  unfold ack, keptOf, droppedOf. cbv zeta. rewrite !ids_app. intros H.
  apply keep_all_from in H as [[H Hi]|H]; [left; set_solver|].
  apply drop_all_from in H as [H1 H]. apply drop_all_from in H as [H2 H].
  apply keep_all_from in H as [[H Hi]|H]; [left; set_solver|right].
  apply drop_all_from in H as [H3 H]. apply drop_all_from in H as [H4 H].
  apply drop_all_from in H as [H5 H]. set_solver.
Qed.

(** ** The queue as a state machine *)

(** The queuer, the results of its ticks that are not acked yet, the ids in the queue table, the ids
    whose processing committed, and the reply of a refill that holds both locks. *)
Record world := World {
  w_q : queuer;
  w_inflight : list assignResults;
  w_db : gset Z;
  w_done : gset Z;
  w_listing : option (list queueItem);
}.

Definition inflightItems (w : world) : list queueItem := concat (itemsOf <$> w_inflight w).

(** What happens to a queue.  A refill lists the table while it holds both locks; transactions of
    flushes and of others may commit meanwhile, but an ack has to wait for the locks.  The results of a
    tick hold each of its items once; a tick that fails after the refill is one result with all its
    items unassigned. *)
Inductive wstep (w : world) : world → Prop :=
  | w_enqueue new : new ## w_done w →
      wstep w (World (w_q w) (w_inflight w) (new ∪ w_db w) (w_done w) (w_listing w))
  | w_remove gone : wstep w (World (w_q w) (w_inflight w) (w_db w ∖ gone) (w_done w) (w_listing w))
  | w_list l : w_listing w = None → NoDup (qi_ID <$> l) → ids l ⊆ w_db w →
      wstep w (World (w_q w) (w_inflight w) (w_db w) (w_done w) (Some l))
  | w_refill l checkedAt now order qis q' rs :
      w_listing w = Some l → order ≡ₚ (map_to_list (q_unassigned (w_q w))).*2 →
      refillQueue checkedAt now order (λ _, Ok l) (w_q w) = (Ok qis, q') →
      concat (itemsOf <$> rs) ≡ₚ qis →
      wstep w (World q' (rs ++ w_inflight w) (w_db w) (w_done w) None)
  | w_refillFailed l checkedAt now order q' :
      w_listing w = Some l →
      refillQueue checkedAt now order (λ _, Err) (w_q w) = (Err, q') →
      wstep w (World q' (w_inflight w) (w_db w) (w_done w) None)
  | w_commit r processed : r ∈ w_inflight w → processed ⊆ ids (droppedOf r) →
      wstep w (World (w_q w) (w_inflight w) (w_db w ∖ processed) (processed ∪ w_done w) (w_listing w))
  | w_ack r rest : w_listing w = None → w_inflight w ≡ₚ r :: rest →
      wstep w (World (ack r (w_q w)) rest (w_db w) (w_done w) None).

Record world_inv (w : world) : Prop := {
  wi_nodup : NoDup (qi_ID <$> inflightItems w);
  wi_unacked : q_unacked (w_q w) = ids (inflightItems w);
  wi_keys : ∀ id x, q_unassigned (w_q w) !! id = Some x → qi_ID x = id;
  wi_db : w_done w ## w_db w;
  wi_listing : ∀ l, w_listing w = Some l → NoDup (qi_ID <$> l);
  (** a committed item the queuer could still hand out is in flight, among the items that leave *)
  wi_done : ∀ id, id ∈ w_done w →
    (is_Some (q_unassigned (w_q w) !! id) ∨ id ∈ q_unacked (w_q w) ∨
     ∃ l, w_listing w = Some l ∧ id ∈ ids l) →
    ∃ r, r ∈ w_inflight w ∧ id ∈ ids (droppedOf r);
}.

Lemma inflight_elem w r x : r ∈ w_inflight w → x ∈ itemsOf r → x ∈ inflightItems w.
Proof.
  intros Hr Hx. unfold inflightItems. apply list_elem_of_In, in_concat. exists (itemsOf r).
  split; [|by apply list_elem_of_In]. apply list_elem_of_In. by apply list_elem_of_fmap_2.
Qed.

Lemma elem_of_ids id l : id ∈ ids l ↔ ∃ x, x ∈ l ∧ qi_ID x = id.
Proof.
  unfold ids. rewrite elem_of_list_to_set, list_elem_of_fmap. split; intros (x & ? & ?); eauto.
Qed.

Lemma dropped_items r : ids (droppedOf r) ⊆ ids (itemsOf r).
Proof. intros id. rewrite !elem_of_ids. setoid_rewrite (items_split r). set_solver. Qed.

Lemma dropped_inflight w r : r ∈ w_inflight w → ids (droppedOf r) ⊆ ids (inflightItems w).
Proof.
  intros Hr id Hid. apply dropped_items, elem_of_ids in Hid as (x & Hx & <-).
  apply elem_of_ids. exists x. split; [by eapply inflight_elem|done].
Qed.

(** What a refill hands out. *)
Lemma refill_Ok checkedAt now order reply q qis q' :
  refillQueue checkedAt now order reply q = (Ok qis, q') →
  ∃ curr, (curr = order ∨ reply (2 * q_limit q) = Ok curr) ∧
    qis ≡ₚ filter (λ qi, qi_ID qi ∉ q_unacked q) curr ∧
    q_unacked q' = ids qis ∪ q_unacked q ∧ q_unassigned q' = q_unassigned q.
Proof.
  unfold refillQueue. cbv zeta.
  assert (∀ curr q1, q_unacked q1 = q_unacked q → q_unassigned q1 = q_unassigned q →
    (Ok (SortStableFunc byPriority (filter (λ qi, qi_ID qi ∉ q_unacked q1) curr)),
     set_items (list_to_set (qi_ID <$> filter (λ qi, qi_ID qi ∉ q_unacked q1) curr) ∪ q_unacked q1)
       (q_unassigned q1) q1) = (Ok qis, q') →
    qis ≡ₚ filter (λ qi, qi_ID qi ∉ q_unacked q) curr ∧
    q_unacked q' = ids qis ∪ q_unacked q ∧ q_unassigned q' = q_unassigned q) as Hfin.
  { intros curr q1 Hu Ha. rewrite Hu, Ha. intros [= <- <-]. split_and!; [|cbn|done].
    - apply SortStableFunc_perm.
    - f_equal. unfold ids. apply list_to_set_perm_L, fmap_Permutation. symmetry.
      apply SortStableFunc_perm. }
  destruct (_ || _).
  - destruct (reply _) as [curr| |] eqn:Hr; [|done..]. intros H. exists curr. split; [by right|].
    by apply (Hfin curr (set_lastReplenished (Some now) q)).
  - intros H. exists order. split; [by left|]. by apply (Hfin order q).
Qed.

Lemma refill_Err checkedAt now order reply q q' :
  refillQueue checkedAt now order reply q = (Err, q') →
  q_unacked q' = q_unacked q ∧ q_unassigned q' = q_unassigned q.
Proof.
  unfold refillQueue. cbv zeta. destruct (_ || _); [|done].
  destruct (reply _); intros H; try done; by injection H as <-.
Qed.

(** The items a refill can hand out are distinct. *)
Lemma refill_nodup w order l curr :
  world_inv w → w_listing w = Some l → NoDup (qi_ID <$> l) →
  order ≡ₚ (map_to_list (q_unassigned (w_q w))).*2 → curr = order ∨ curr = l →
  NoDup (qi_ID <$> curr).
Proof.
  intros Hi _ Hl Ho [->| ->]; [|done]. rewrite Ho.
  assert (qi_ID <$> (map_to_list (q_unassigned (w_q w))).*2 = (map_to_list (q_unassigned (w_q w))).*1) as ->.
  { rewrite <- list_fmap_compose. apply list_fmap_ext. intros i [id x] Hx.
    apply list_elem_of_lookup_2, elem_of_map_to_list in Hx. by apply (wi_keys _ Hi). }
  apply NoDup_fst_map_to_list.
Qed.

Lemma refill_distinct w l checkedAt now order qis q' :
  world_inv w → w_listing w = Some l →
  order ≡ₚ (map_to_list (q_unassigned (w_q w))).*2 →
  refillQueue checkedAt now order (λ _, Ok l) (w_q w) = (Ok qis, q') →
  NoDup (qi_ID <$> qis).
Proof.
  intros Hi Hl Ho Hr. destruct (refill_Ok _ _ _ _ _ _ _ Hr) as (curr & Hcurr & Hp & _).
  rewrite Hp. eapply sublist_NoDup; [|apply fmap_sublist, sublist_filter].
  apply (refill_nodup w order l); [done|done|by apply (wi_listing _ Hi)|done|].
  destruct Hcurr as [->|[= ->]]; auto.
Qed.

(** No item that the refill of this state hands out is in flight or committed. *)
Lemma refill_fresh w l checkedAt now order qis q' :
  world_inv w → w_listing w = Some l →
  order ≡ₚ (map_to_list (q_unassigned (w_q w))).*2 →
  refillQueue checkedAt now order (λ _, Ok l) (w_q w) = (Ok qis, q') →
  ∀ x, x ∈ qis → qi_ID x ∉ q_unacked (w_q w) ∧ qi_ID x ∉ w_done w.
Proof.
  intros Hi Hl Ho Hr x Hx. destruct (refill_Ok _ _ _ _ _ _ _ Hr) as (curr & Hcurr & Hp & _).
  rewrite Hp in Hx. apply list_elem_of_filter in Hx as [Hu Hx]. split; [done|]. intros Hd.
  destruct (wi_done _ Hi (qi_ID x) Hd) as (r & Hr' & Hin).
  { destruct Hcurr as [->|[= ->]].
    - left. rewrite Ho in Hx. apply list_elem_of_fmap in Hx as ([id y] & -> & Hy).
      apply elem_of_map_to_list in Hy. cbn. rewrite (wi_keys _ Hi _ _ Hy). by eexists.
    - right. right. exists curr. split; [done|]. apply elem_of_ids. eauto. }
  apply Hu. rewrite (wi_unacked _ Hi). by eapply dropped_inflight.
Qed.

Lemma inflight_app q rs w db done listing :
  inflightItems (World q (rs ++ w_inflight w) db done listing) = concat (itemsOf <$> rs) ++ inflightItems w.
Proof. unfold inflightItems. cbn. by rewrite fmap_app, concat_app. Qed.

Lemma wstep_refill_inv w l checkedAt now order qis q' rs :
  world_inv w → w_listing w = Some l →
  order ≡ₚ (map_to_list (q_unassigned (w_q w))).*2 →
  refillQueue checkedAt now order (λ _, Ok l) (w_q w) = (Ok qis, q') →
  concat (itemsOf <$> rs) ≡ₚ qis →
  world_inv (World q' (rs ++ w_inflight w) (w_db w) (w_done w) None).
Proof.
  intros Hi Hl Ho Hr Hrs. pose proof (refill_fresh w l _ _ _ _ _ Hi Hl Ho Hr) as Hfresh.
  destruct (refill_Ok _ _ _ _ _ _ _ Hr) as (curr & Hcurr & Hp & Hu & Ha).
  pose proof (refill_distinct w l _ _ _ _ _ Hi Hl Ho Hr) as Hnd.
  split; cbn [w_q w_db w_done w_listing w_inflight].
  - rewrite inflight_app, Hrs, fmap_app. apply NoDup_app. split_and!; [done| |apply Hi].
    intros id Hid Hid'. apply list_elem_of_fmap in Hid as (x & -> & Hx).
    destruct (Hfresh x Hx) as [Hnu _]. apply Hnu. rewrite (wi_unacked _ Hi). unfold ids. set_solver.
  - rewrite inflight_app, ids_app, Hu, (wi_unacked _ Hi). f_equal. unfold ids.
    apply list_to_set_perm_L. by rewrite Hrs.
  - intros id x. rewrite Ha. apply Hi.
  - apply Hi.
  - done.
  - intros id Hid Hcase. rewrite Ha, Hu in Hcase.
    destruct (wi_done _ Hi id Hid) as (r & Hin & Hr').
    { destruct Hcase as [Hc|[Hc|(? & ? & _)]]; [by left| |done]. right. left.
      apply elem_of_union in Hc as [Hc|Hc]; [|done]. apply elem_of_ids in Hc as (x & Hx & <-).
      by destruct (Hfresh x Hx). }
    exists r. split; [set_solver|done].
Qed.

Lemma union_difference_disjoint (A B : gset Z) : A ## B → (A ∪ B) ∖ A = B.
Proof. set_solver. Qed.

Lemma wstep_ack_inv w r rest :
  world_inv w → w_listing w = None → w_inflight w ≡ₚ r :: rest →
  world_inv (World (ack r (w_q w)) rest (w_db w) (w_done w) None).
Proof.
  intros Hi Hl Hp.
  assert (inflightItems w ≡ₚ itemsOf r ++ concat (itemsOf <$> rest)) as Hitems.
  { unfold inflightItems. by rewrite Hp. }
  pose proof (wi_nodup _ Hi) as Hnd. rewrite Hitems, fmap_app in Hnd.
  apply NoDup_app in Hnd as (Hndr & Hdisj & Hndrest).
  split; cbn [w_q w_db w_done w_listing w_inflight].
  - done.
  - rewrite queuer_ack_unacked, (wi_unacked _ Hi).
    change (inflightItems (World _ rest _ _ _)) with (concat (itemsOf <$> rest)).
    assert (ids (inflightItems w) = ids (itemsOf r) ∪ ids (concat (itemsOf <$> rest))) as ->.
    { rewrite <- ids_app. unfold ids. apply list_to_set_perm_L. by rewrite Hitems. }
    assert (ids (itemsOf r) ## ids (concat (itemsOf <$> rest))) as Hd; [|by apply union_difference_disjoint].
    intros id H1 H2. unfold ids in H1, H2. rewrite elem_of_list_to_set in H1, H2. by eapply Hdisj.
  - intros id x H. apply ack_unassigned in H as [[_ ?]|[_ H]]; [done|by apply (wi_keys _ Hi)].
  - apply Hi.
  - done.
  - intros id Hid Hcase. rewrite queuer_ack_unacked in Hcase.
    assert (id ∉ ids (itemsOf r) → ∃ r', r' ∈ rest ∧ id ∈ ids (droppedOf r')) as Hother.
    { intros Hno. destruct (wi_done _ Hi id Hid) as (r' & Hin & Hr').
      - destruct Hcase as [[x Hx]|[Hc|(? & ? & _)]]; [|right; left; clear -Hc; set_solver|done].
        apply ack_unassigned in Hx as [[Hx <-]|[_ Hx]]; [|left; by eexists]. destruct Hno.
        apply elem_of_ids. exists x. rewrite (items_split r), elem_of_app. auto.
      - exists r'. split; [|done]. rewrite Hp in Hin. apply elem_of_cons in Hin as [->|?]; [|done].
        destruct Hno. by apply dropped_items. }
    destruct (decide (id ∈ ids (itemsOf r))) as [Hin|?]; [|by apply Hother]. exfalso.
    (* an item of r that is committed leaves the queue, so it is not kept *)
    destruct (wi_done _ Hi id Hid) as (r' & Hr' & Hdr').
    { right. left. rewrite (wi_unacked _ Hi). apply elem_of_ids in Hin as (x & Hx & <-). apply elem_of_ids. exists x.
      by rewrite Hitems, elem_of_app; auto. }
    rewrite Hp in Hr'. apply elem_of_cons in Hr' as [->|Hr'].
    + rewrite (items_split r), fmap_app in Hndr. apply NoDup_app in Hndr as (_ & Hdk & _).
      destruct Hcase as [[x Hx]|[Hc|(? & ? & _)]]; [|clear -Hc Hin; set_solver|done].
      apply ack_unassigned in Hx as [[Hx <-]|[? _]]; [|done].
      apply (Hdk (qi_ID x)); [by apply elem_of_list_to_set in Hdr'|by apply list_elem_of_fmap_2].
    + apply (Hdisj id); [by apply elem_of_list_to_set in Hin|].
      apply dropped_items, elem_of_ids in Hdr' as (x & Hx & <-). apply list_elem_of_fmap_2.
      apply list_elem_of_In, in_concat. exists (itemsOf r').
      split; apply list_elem_of_In; [by apply list_elem_of_fmap_2|done].
Qed.

Lemma wstep_inv w w' : wstep w w' → world_inv w → world_inv w'.
Proof.
  intros Hs Hi. destruct Hs.
  - destruct Hi. split; cbn; try done. set_solver.
  - destruct Hi. split; cbn; try done. set_solver.
  - pose proof (wi_db _ Hi). destruct Hi. split; cbn; try done.
    + by intros ? [= <-].
    + intros id Hid [?|[?|(? & [= <-] & ?)]]; [eauto..|set_solver].
  - by eapply wstep_refill_inv.
  - destruct (refill_Err _ _ _ _ _ _ H0) as [Hu Ha]. destruct Hi. split; cbn; rewrite ?Hu, ?Ha; try done.
    intros id Hid [?|[?|(? & [=] & _)]]; eauto.
  - destruct Hi as [? ? ? Hdb ? Hdone]. split; cbn; try done; [set_solver|].
    intros id [Hid|Hid]%elem_of_union Hc; [exists r; set_solver|by apply Hdone].
  - by eapply wstep_ack_inv.
Qed.

Definition initWorld (limit : Z) (db : gset Z) : world := World (newQueuer limit) [] db ∅ None.

Lemma reachable_world_inv limit db w : rtc wstep (initWorld limit db) w → world_inv w.
Proof.
  intros H. assert (∀ w0, rtc wstep w0 w → world_inv w0 → world_inv w) as Hall.
  { clear. intros w0. induction 1; eauto using wstep_inv. }
  apply (Hall _ H). split; cbn; try done; try set_solver. constructor.
Qed.

(** C10: however refills, flush transactions, acks and other writers of the queue table interleave, the
    items in flight are distinct and are exactly the unacked ones, and a refill hands out no item that
    is in flight and none whose processing committed, even when the rows it listed are stale. *)
Theorem never_handed_out_twice limit db w :
  rtc wstep (initWorld limit db) w →
  NoDup (qi_ID <$> inflightItems w) ∧ q_unacked (w_q w) = ids (inflightItems w) ∧
  (∀ l checkedAt now order qis q',
     w_listing w = Some l → order ≡ₚ (map_to_list (q_unassigned (w_q w))).*2 →
     refillQueue checkedAt now order (λ _, Ok l) (w_q w) = (Ok qis, q') →
     NoDup (qi_ID <$> qis) ∧
     ∀ x, x ∈ qis → qi_ID x ∉ ids (inflightItems w) ∧ qi_ID x ∉ w_done w).
Proof.
  intros Hr. pose proof (reachable_world_inv _ _ _ Hr) as Hi.
  split_and!; [apply Hi..|]. intros l ck now order qis q' Hl Ho Hq. split.
  - by eapply refill_distinct.
  - rewrite <- (wi_unacked _ Hi). by eapply refill_fresh.
Qed.

Definition qitem (id : Z) : queueItem := QueueItem id id 1 "act" "q" StickyNONE None 0 1 0 None "" "" None.
Definition assignedOnly (qis : list queueItem) : assignResults :=
  AssignResults ((λ qi, AssignedQueueItem (qi_ID qi) 5 qi) <$> qis) [] [] [] [] [] [].

(** A second refill lists item 1 before its flush commits and runs after: the stale row is filtered. *)
Lemma never_handed_out_twice_witness :
  let q1 := snd (refillQueue 0 0 [] (λ _, Ok [qitem 1]) (newQueuer 10)) in
  let w := World q1 [assignedOnly [qitem 1]] {[2]} {[1]} (Some [qitem 1; qitem 2]) in
  ∃ q2, refillQueue 1 1 [] (λ _, Ok [qitem 1; qitem 2]) q1 = (Ok [qitem 2], q2) ∧
        2 ∉ ids (inflightItems w) ∧ 2 ∉ w_done w.
Proof.
  intros q1 w. eexists. split; [vm_compute; reflexivity|].
  destruct (never_handed_out_twice 10 {[1; 2]} w) as (_ & _ & H).
  - eapply rtc_l; [apply (w_list _ [qitem 1]); [done|apply NoDup_singleton|set_solver]|].
    eapply rtc_l; [apply (w_refill _ [qitem 1] 0 0 [] [qitem 1] q1 [assignedOnly [qitem 1]]);
                   [done|done|reflexivity|done]|].
    eapply rtc_l; [apply (w_list _ [qitem 1; qitem 2]); [done| |set_solver]|].
    { cbn. rewrite !NoDup_cons, list_elem_of_singleton, elem_of_nil. split_and!; [lia|tauto|constructor]. }
    eapply rtc_l; [apply (w_commit _ (assignedOnly [qitem 1]) {[1]}); [set_solver|set_solver]|].
    match goal with |- rtc _ ?w0 _ => assert (w0 = w) as -> end; [|apply rtc_refl].
    unfold w, initWorld; cbn. f_equal; set_solver.
  - destruct (H _ 1 1 [] [qitem 2] (refillQueue 1 1 [] (λ _, Ok [qitem 1; qitem 2]) q1).2 eq_refl) as [_ Hx]; [done|vm_compute; reflexivity|].
    apply (Hx (qitem 2)). set_solver.
Defined.

(** ** Flushes settle what they hold *)

(** From [s] to [s'] the assignments [ids] left the scheduler's unacked map together with their
    reservations, the reservations [tasks] left the limiter's, and nothing else changed there. *)
Record settled (ids tasks : list Z) (s s' : shared) : Prop := {
  se_slots : ∀ id, unackedSlots (sh_sched s') !! id =
    if decide (id ∈ ids) then None else unackedSlots (sh_sched s) !! id;
  se_tasks : ∀ t, t ∈ tasks → RateLimit.unacked (sh_limiter s') !! t = None;
  se_reservations : ∀ id a t, id ∈ ids → unackedSlots (sh_sched s) !! id = Some a →
    as_reservation a = Some t → RateLimit.unacked (sh_limiter s') !! t = None;
  se_others : ∀ t, RateLimit.unacked (sh_limiter s) !! t = None →
    RateLimit.unacked (sh_limiter s') !! t = None;
}.

Lemma flush_settled_trans ids1 tasks1 ids2 tasks2 s1 s2 s3 :
  settled ids1 tasks1 s1 s2 → settled ids2 tasks2 s2 s3 →
  settled (ids1 ++ ids2) (tasks1 ++ tasks2) s1 s3.
Proof.
  intros [Hs1 Ht1 Hr1 Ho1] [Hs2 Ht2 Hr2 Ho2]. split.
  - intros id. rewrite Hs2, Hs1. repeat case_decide; set_solver.
  - intros t [?|?]%elem_of_app; auto.
  - intros id a t Hid Ha Hres. destruct (decide (id ∈ ids1)) as [Hin|Hin]; [by eauto|].
    apply elem_of_app in Hid as [?|Hid]; [done|]. apply (Hr2 id a t Hid); [|done].
    rewrite Hs1. by rewrite decide_False.
  - auto.
Qed.

Lemma settled_perm ids ids' tasks s s' : ids ≡ₚ ids' → settled ids tasks s s' → settled ids' tasks s s'.
Proof.
  intros Hp [Hs Ht Hr Ho]. split; [|done| |done].
  - intros id. rewrite Hs. by repeat case_decide; rewrite Hp in *.
  - intros id a t Hid. rewrite <- Hp in Hid. eauto.
Qed.

(** Acks and nacks remove an assignment and hand back its reservation. *)
Record releases (f : Z → scheduler → list Z * scheduler)
    (g : Z → RateLimit.rateLimiter → RateLimit.rateLimiter) : Prop := {
  rel_slots : ∀ id s, unackedSlots (f id s).2 = delete id (unackedSlots s);
  rel_callbacks : ∀ id s, (f id s).1 = option_list (unackedSlots s !! id ≫= as_reservation);
  rel_limiter : ∀ t rl, RateLimit.unacked (g t rl) = delete t (RateLimit.unacked rl);
}.

Lemma ack_releases : releases ackOne RateLimit.ack.
Proof.
  split; [intros id s..|apply RateLimit.ack_unacked]; unfold ackOne;
    destruct (unackedSlots s !! id) as [a|] eqn:Ha; try done; [|by rewrite delete_id].
  cbn. by destruct (replenishing s).
Qed.

Lemma nack_releases : releases nackOne RateLimit.nack.
Proof.
  split; [intros id s..|done]; unfold nackOne;
    destruct (unackedSlots s !! id) as [a|] eqn:Ha; try done; by rewrite delete_id.
Qed.

Section settling.
Context (f : Z → scheduler → list Z * scheduler)
  (g : Z → RateLimit.rateLimiter → RateLimit.rateLimiter) (Hfg : releases f g).

Lemma limiter_releases ts rl t :
  RateLimit.unacked (foldl (flip g) rl ts) !! t =
  if decide (t ∈ ts) then None else RateLimit.unacked rl !! t.
Proof.
  revert rl. induction ts as [|t' ts IH]; intros rl; [done|].
  change (foldl (flip g) rl (t' :: ts)) with (foldl (flip g) (g t' rl) ts). rewrite IH.
  rewrite (rel_limiter _ _ Hfg). destruct (decide (t = t')) as [->|Hne].
  - rewrite lookup_delete_eq. repeat case_decide; set_solver.
  - rewrite lookup_delete_ne by done. repeat case_decide; set_solver.
Qed.

Lemma handleEach_releases ids : ∀ s,
  (∀ id, unackedSlots (handleEach f ids s).2 !! id =
     if decide (id ∈ ids) then None else unackedSlots s !! id) ∧
  (∀ id a t, id ∈ ids → unackedSlots s !! id = Some a → as_reservation a = Some t →
     t ∈ (handleEach f ids s).1).
Proof.
  induction ids as [|i ids IH]; intros s; [split; [done|set_solver]|]. cbn [handleEach].
  pose proof (rel_slots _ _ Hfg i s) as Hs. pose proof (rel_callbacks _ _ Hfg i s) as Hc.
  destruct (f i s) as [cs s1]. cbn [fst snd] in Hs, Hc. specialize (IH s1) as [IH1 IH2].
  destruct (handleEach f ids s1) as [cs' s2]. cbn [fst snd] in *. split.
  - intros id. rewrite IH1, Hs. destruct (decide (id = i)) as [->|Hne].
    + rewrite lookup_delete_eq. repeat case_decide; set_solver.
    + rewrite lookup_delete_ne by done. repeat case_decide; set_solver.
  - intros id a t Hid Ha Ht. destruct (decide (id = i)) as [->|Hne].
    + rewrite Hc, Ha. cbn. rewrite Ht. set_solver.
    + apply elem_of_app. right. apply (IH2 id a t); [set_solver| |done].
      by rewrite Hs, lookup_delete_ne.
Qed.

Lemma handleEach_settled ids s :
  settled ids []
    s (let '(callbacks, sched) := handleEach f ids (sh_sched s) in
       Shared sched (foldl (flip g) (sh_limiter s) callbacks)).
Proof.
  destruct (handleEach_releases ids (sh_sched s)) as [H1 H2].
  destruct (handleEach f ids (sh_sched s)) as [cs sched]. cbn [fst snd] in *.
  split; cbn; [done|set_solver| |].
  - intros id a t Hid Ha Ht. rewrite limiter_releases. by rewrite decide_True by eauto.
  - intros t Ht. rewrite limiter_releases. by case_decide.
Qed.

Lemma batched_settled r s :
  settled [] (omap bi_reservation (res_batched r)) s (settleBatched g r s).
Proof.
  assert (∀ bs rl, foldl (λ rl b, match bi_reservation b with Some task => g task rl | None => rl end) rl bs
    = foldl (flip g) rl (omap bi_reservation bs)) as Hf.
  { induction bs as [|b bs IH]; intros rl; [done|]. cbn. rewrite IH.
    by destruct (bi_reservation b). }
  unfold settleBatched. rewrite Hf. split; cbn.
  - done.
  - intros t Ht. rewrite limiter_releases. by rewrite decide_True.
  - set_solver.
  - intros t Ht. rewrite limiter_releases. by case_decide.
Qed.

End settling.

Lemma acks_lookup t l : ∀ m : gmap Z Z,
  foldl (λ m a, <[qi_TaskID (aq_QueueItem a) := AckId a]> m) m l !! t =
  match last (filter (λ a, qi_TaskID (aq_QueueItem a) = t) l) with
  | Some a => Some (AckId a)
  | None => m !! t
  end.
Proof.
  induction l as [|a l IH] using rev_ind; intros m; [done|].
  rewrite foldl_snoc, filter_app, filter_cons, filter_nil.
  destruct (decide (qi_TaskID (aq_QueueItem a) = t)) as [<-|Hne].
  - by rewrite last_snoc, lookup_insert_eq.
  - by rewrite app_nil_r, lookup_insert_ne.
Qed.

Lemma stepRunIdsToAcks_lookup r a :
  NoDup (qi_TaskID ∘ aq_QueueItem <$> res_assigned r) → a ∈ res_assigned r →
  stepRunIdsToAcks r !! qi_TaskID (aq_QueueItem a) = Some (AckId a).
Proof.
  intros Hnd Ha. unfold stepRunIdsToAcks. rewrite acks_lookup.
  destruct (last _) as [b|] eqn:Hl.
  - apply last_Some_elem_of, list_elem_of_filter in Hl as [Ht Hb]. do 2 f_equal.
    apply list_elem_of_lookup in Ha as [i Ha]. apply list_elem_of_lookup in Hb as [j Hb].
    assert (i = j) as ->; [|congruence].
    eapply (NoDup_lookup _ _ _ (qi_TaskID (aq_QueueItem a)) Hnd); rewrite list_lookup_fmap.
    + by rewrite Ha.
    + rewrite Hb. cbn. by rewrite Ht.
  - apply last_None in Hl. exfalso. eapply elem_of_nil.
    rewrite <- Hl. by apply list_elem_of_filter.
Qed.

Lemma ackIds_perm r succeeded failed :
  NoDup (qi_TaskID ∘ aq_QueueItem <$> res_assigned r) →
  (QueueRepo.assignment <$> succeeded ++ failed) ≡ₚ
    (QueueRepo.assignment <$> QueueRepo.Assigned (optsOf r)) →
  ackIdsOf r failed ++ ackIdsOf r succeeded ≡ₚ AckId <$> res_assigned r.
Proof.
  intros Hnd Hp. set (F := λ x : uuid * queueItem * bool, default 0 (stepRunIdsToAcks r !! qi_TaskID x.1.2)).
  apply (fmap_Permutation F) in Hp. rewrite <- !list_fmap_compose in Hp. cbn in Hp.
  rewrite fmap_app in Hp. unfold ackIdsOf. rewrite Permutation_app_comm. etrans; [exact Hp|].
  rewrite <- list_fmap_compose. apply reflexive_eq, list_fmap_ext. intros i a Ha. cbn.
  unfold F. cbn. rewrite stepRunIdsToAcks_lookup; [done|done|]. by eapply list_elem_of_lookup_2.
Qed.

(** Only items with a refill time are moved, so the dereference in the repository is safe. *)
Definition movable (s : scheduleRateLimitResult) : Prop :=
  is_Some (srl_result s ≫= RateLimit.pausedUntil) ∨ is_Some (srl_result s ≫= RateLimit.res_nextRefillAt).

Lemma shouldRemove_movable now s : shouldRemoveFromQueue now s = true → movable s.
Proof.
  unfold shouldRemoveFromQueue, movable. destruct (srl_result s) as [r|]; [|done]. cbn.
  destruct (RateLimit.pausedUntil r); [eauto|]. by destruct (RateLimit.res_nextRefillAt r); eauto.
Qed.

Lemma classify_movable clock results : Forall movable (res_rateLimitedToMove (classify clock results)).
Proof.
  unfold classify. assert (Forall movable (res_rateLimitedToMove noResults)) as H by constructor.
  revert H. generalize noResults. induction results as [|r rest IH]; intros acc H; [done|]. cbn.
  apply IH. destruct acc as [a b ba u t l m]. unfold classifyOne.
  destruct (ar_toBatch r); [done|]. destruct (negb _); [|done].
  destruct (ar_rateLimit r) as [res|]; [|done]. cbv zeta.
  destruct (shouldRemoveFromQueue _ _) eqn:Hs; [|done]. cbn. apply Forall_app_2; [done|].
  constructor; [|done]. by eapply shouldRemove_movable.
Qed.

Lemma bind_no_panic {A B} (m : result A) (f : A → result B) :
  m ≠ Panics → (∀ a, f a ≠ Panics) → m ≫= f ≠ Panics.
Proof. by destruct m; cbn. Qed.

Lemma guardOk_no_panic b : QueueRepo.guardOk b ≠ Panics.
Proof. by destruct b. Qed.

Lemma splitRateLimited_no_panic l :
  Forall movable l → QueueRepo.splitRateLimited (rateLimitResultOf <$> l) ≠ Panics.
Proof.
  induction 1 as [|s l Hs Hl IH]; [done|]. cbn. unfold movable in Hs.
  destruct (srl_result s) as [r|]; [|by destruct Hs as [[] | []]]. cbn in *.
  destruct (RateLimit.pausedUntil r).
  - apply bind_no_panic; [done|by intros []].
  - destruct Hs as [[] | [t ->]]; [done|]. apply bind_no_panic; [done|by intros []].
Qed.

Lemma mark_no_panic {interval} (durationToInterval : string → option interval) db begun committed r :
  Forall movable (res_rateLimitedToMove r) →
  QueueRepo.MarkQueueItemsProcessed durationToInterval db begun committed (optsOf r) ≠ Panics.
Proof.
  intros Hm. unfold QueueRepo.MarkQueueItemsProcessed, QueueRepo.markQueueItemsProcessed, QueueRepo.ifAny.
  cbv zeta. pose proof (splitRateLimited_no_panic _ Hm) as Hsplit.
  repeat match goal with
  | |- (_ ≫= _) ≠ Panics => apply bind_no_panic
  | |- QueueRepo.guardOk _ ≠ Panics => apply guardOk_no_panic
  | |- ∀ _, _ => intros ?
  | |- (let '(_, _) := ?p in _) ≠ _ => destruct p
  end; try done.
  destruct (QueueRepo.pl_keys _), (_ ++ _); try done; cbn; by destruct (QueueRepo.FlushAssignedQueueItems _ _ _ _).
Qed.

Section flushes.
Context {interval : Type} (durationToInterval : string → option interval)
  (db : @QueueRepo.markStatements interval) (begun committed : bool).

#[local] Notation mark := (QueueRepo.MarkQueueItemsProcessed durationToInterval db begun committed).

Lemma mark_assignments opts succeeded failed :
  mark opts = Ok (succeeded, failed) →
  (QueueRepo.assignment <$> succeeded ++ failed) ≡ₚ (QueueRepo.assignment <$> QueueRepo.Assigned opts).
Proof.
  unfold QueueRepo.MarkQueueItemsProcessed. rewrite bind_Ok. intros (_ & _ & H).
  apply bind_Ok in H as ([succ fail] & Hm & H). apply bind_Ok in H as (_ & _ & H).
  injection H as <- <-. by eapply QueueRepo.mark_perm.
Qed.

(** A committed flush, task by task: acks follow the last copy of each task. *)
Lemma flush_committed r s succeeded failed :
  isEmpty r = false → mark (optsOf r) = Ok (succeeded, failed) →
  ∃ n out s', flushResults mark r s = (Ok (n, out), s') ∧
    settled (ackIdsOf r failed ++ ackIdsOf r succeeded) (omap bi_reservation (res_batched r)) s s'.
Proof.
  intros He Hm. unfold flushResults. cbv zeta. rewrite He, Hm. do 3 eexists. split; [done|].
  pose proof (flush_settled_trans _ _ _ _ _ _ _ (batched_settled _ _ ack_releases r s)
    (flush_settled_trans _ _ _ _ _ _ _ (handleEach_settled _ _ nack_releases (ackIdsOf r failed) _)
       (handleEach_settled _ _ ack_releases (ackIdsOf r succeeded) _))) as H.
  by rewrite !app_nil_r in H.
Qed.

Lemma flush_rolled_back r s :
  isEmpty r = false → mark (optsOf r) = Err →
  ∃ s', flushResults mark r s = (Ok (0%nat, []), s') ∧
    settled (AckId <$> res_assigned r) (omap bi_reservation (res_batched r)) s s'.
Proof.
  intros He Hm. unfold flushResults. cbv zeta. rewrite He, Hm. eexists. split; [done|].
  pose proof (flush_settled_trans _ _ _ _ _ _ _ (batched_settled _ _ nack_releases r s)
    (handleEach_settled _ _ nack_releases (AckId <$> res_assigned r) _)) as H.
  by rewrite app_nil_r in H.
Qed.

Lemma flush_empty r s :
  isEmpty r = true → flushResults mark r s = (Ok (0%nat, []), s) ∧
    settled (AckId <$> res_assigned r) (omap bi_reservation (res_batched r)) s s.
Proof.
  intros He. unfold flushResults. rewrite He. split; [done|].
  destruct r as [[] [] [] [] [] [] []]; try done. split; cbn; set_solver.
Qed.

(** C20: flushing a result of tryAssign whose assigned tasks are distinct never panics and, whether the
    transaction commits or fails, acks or nacks exactly its assignments, returns every reservation it
    holds to the limiter, and leaves none of its items unacked in the queuer. *)
Theorem flush_settles clock results s q :
  let r := classify clock results in
  NoDup (qi_TaskID ∘ aq_QueueItem <$> res_assigned r) →
  ∃ n out s', flushToDatabase mark r s q = (Ok (n, out), s', ack r q) ∧
    settled (AckId <$> res_assigned r) (omap bi_reservation (res_batched r)) s s' ∧
    q_unacked (ack r q) = q_unacked q ∖ ids (itemsOf r).
Proof.
  intros r Hnd. unfold flushToDatabase. destruct (isEmpty r) eqn:He.
  { destruct (flush_empty r s He) as [-> Hs]. eauto 7 using queuer_ack_unacked. }
  destruct (mark (optsOf r)) as [[succeeded failed]| |] eqn:Hm.
  - destruct (flush_committed r s _ _ He Hm) as (n & out & s' & -> & Hs). do 3 eexists.
    split_and!; [done| |apply queuer_ack_unacked]. eapply settled_perm; [|done].
    by apply ackIds_perm; [|apply mark_assignments].
  - destruct (flush_rolled_back r s He Hm) as (s' & -> & Hs). eauto 7 using queuer_ack_unacked.
  - destruct (mark_no_panic durationToInterval db begun committed r); [apply classify_movable|done].
Qed.

Lemma last_filter_after {A} (P : A → Prop) `{!∀ x, Decision (P x)} l1 x l2 b :
  P x → last (filter P (l1 ++ x :: l2)) = Some b → b ∈ x :: l2.
Proof.
  intros Hx. rewrite filter_app, filter_cons_True, last_app_cons by done.
  intros Hb%last_Some_elem_of. apply elem_of_cons in Hb as [->|Hb]; [by left|right].
  by apply list_elem_of_filter in Hb as [_ ?].
Qed.

(** No item of a flush leads to the ack id of a copy that a later copy of the same task shadows. *)
Lemma ackIds_shadowed r items pre a1 mid a2 post :
  NoDup (AckId <$> res_assigned r) → res_assigned r = pre ++ a1 :: mid ++ a2 :: post →
  qi_TaskID (aq_QueueItem a1) = qi_TaskID (aq_QueueItem a2) →
  (∀ i, i ∈ items → QueueRepo.ai_QueueItem i ∈ aq_QueueItem <$> res_assigned r) →
  AckId a1 ∉ ackIdsOf r items.
Proof.
  intros Hnd Hr Ht Hitems Hin.
  apply list_elem_of_fmap in Hin as (i & Hid & Hi). specialize (Hitems i Hi).
  apply list_elem_of_fmap in Hitems as (a & Hia & Ha). rewrite Hia in Hid.
  unfold stepRunIdsToAcks in Hid. rewrite acks_lookup in Hid. set (l := filter _ _) in Hid.
  assert (is_Some (last l)) as [b Hl].
  { apply last_is_Some. intros Hnil. eapply elem_of_nil. rewrite <- Hnil. by apply list_elem_of_filter. }
  rewrite Hl in Hid. cbn in Hid. unfold l in *. clear l.
  pose proof (last_Some_elem_of _ _ Hl) as Hb. apply list_elem_of_filter in Hb as [Htb Hb].
  assert (b ∈ a2 :: post) as Hlate.
  { destruct (decide (qi_TaskID (aq_QueueItem a2) = qi_TaskID (aq_QueueItem a))) as [He|Hne].
    - rewrite Hr, app_comm_cons, app_assoc in Hl. by eapply last_filter_after, Hl.
    - exfalso. apply Hne. rewrite <- Ht, <- Htb. do 2 f_equal.
      assert (a1 ∈ res_assigned r) as Ha1 by (rewrite Hr; set_solver).
      apply list_elem_of_lookup in Ha1 as [k Hk]. apply list_elem_of_lookup in Hb as [j Hj].
      assert (k = j) as ->; [|congruence].
      eapply (NoDup_lookup _ _ _ (AckId a1) Hnd); rewrite list_lookup_fmap; [by rewrite Hk|].
      rewrite Hj. cbn. by rewrite <- Hid. }
  rewrite Hr, fmap_app, fmap_cons, fmap_app in Hnd. apply NoDup_app in Hnd as (_ & _ & Hnd).
  apply NoDup_cons in Hnd as [Hnot _]. apply Hnot. rewrite Hid. apply elem_of_app. right.
  by apply list_elem_of_fmap_2.
Qed.

(** Acks are looked up by task id alone, so when a flush holds two assignments of one task and its
    transaction commits, the earlier one is neither acked nor nacked: its slots stay taken. *)
Theorem repeated_task_leaks_slot r pre a1 mid a2 post s q succeeded failed :
  res_assigned r = pre ++ a1 :: mid ++ a2 :: post →
  qi_TaskID (aq_QueueItem a1) = qi_TaskID (aq_QueueItem a2) →
  NoDup (AckId <$> res_assigned r) → mark (optsOf r) = Ok (succeeded, failed) →
  ∃ n out s', flushToDatabase mark r s q = (Ok (n, out), s', ack r q) ∧
    unackedSlots (sh_sched s') !! AckId a1 = unackedSlots (sh_sched s) !! AckId a1.
Proof.
  intros Hr Ht Hnd Hm. assert (isEmpty r = false) as He.
  { destruct r as [[|? ?] ? ? ? ? ? ?]; [|done]. cbn in Hr. by destruct pre. }
  destruct (flush_committed r s _ _ He Hm) as (n & out & s' & Hf & Hs).
  exists n, out, s'. unfold flushToDatabase. rewrite Hf. split; [done|].
  rewrite (se_slots _ _ _ _ Hs). rewrite decide_False; [done|].
  unfold ackIdsOf. rewrite <- fmap_app. eapply ackIds_shadowed; [done..|]. intros i Hi.
  apply mark_assignments in Hm. apply (fmap_Permutation (λ x : uuid * queueItem * bool, x.1.2)) in Hm.
  rewrite <- !list_fmap_compose in Hm. cbn in Hm. rewrite <- list_fmap_compose in Hm.
  change (_ <$> res_assigned r) with (aq_QueueItem <$> res_assigned r) in Hm.
  rewrite <- Hm. apply (list_elem_of_fmap_2 (λ x, QueueRepo.ai_QueueItem x)). set_solver.
Qed.

End flushes.

(** ** The optimistic path *)

Lemma schedulerNack_nil s : schedulerNack [] s = s.
Proof. by destruct s. Qed.

Lemma schedulerAck_nil s : schedulerAck [] s = s.
Proof. by destruct s. Qed.

Section optimistic.
Context {interval : Type} (durationToInterval : string → option interval)
  (db : @QueueRepo.markStatements interval) (localWorkerIds : gset uuid).

#[local] Notation mark := (QueueRepo.markQueueItemsProcessed durationToInterval db).

(** What one optimistic flush does to the scheduler and the limiter. *)
Inductive optimistic_flush (r : assignResults) (s : shared) :
    result (list QueueRepo.AssignedItem * option QueueResults) → shared → Prop :=
  | of_nothing res : res ≠ Err → optimistic_flush r s res s
  | of_failed : optimistic_flush r s Err (schedulerNack (AckId <$> res_assigned r) s)
  | of_committed out opts succeeded failed :
      QueueRepo.Assigned opts = assignedItemOf <$> res_assigned r → mark opts = Ok (succeeded, failed) →
      optimistic_flush r s (Ok out)
        (schedulerAck (ackIdsOf r succeeded) (schedulerNack (ackIdsOf r failed) s)).

Lemma flushToDatabaseOptimistic_spec r s :
  optimistic_flush r s (flushToDatabaseOptimistic mark localWorkerIds r s).1
    (flushToDatabaseOptimistic mark localWorkerIds r s).2.
Proof.
  assert (∀ opts, QueueRepo.Assigned opts = assignedItemOf <$> res_assigned r →
    ∀ out x y, (match mark opts with
    | Panics => (Panics, s)
    | Err => (Err, schedulerNack (AckId <$> res_assigned r) s)
    | Ok (succeeded, failed) =>
        (Ok (out succeeded), schedulerAck (ackIdsOf r succeeded) (schedulerNack (ackIdsOf r failed) s))
    end) = (x, y) → optimistic_flush r s x y) as Hrun.
  { intros opts Ho out x y. destruct (mark opts) as [[]| |] eqn:Hm; intros [= <- <-];
      [by eapply of_committed|constructor|by constructor]. }
  rewrite (surjective_pairing (flushToDatabaseOptimistic mark localWorkerIds r s)).
  destruct (flushToDatabaseOptimistic mark localWorkerIds r s) as [x y] eqn:He. cbn.
  unfold flushToDatabaseOptimistic in He. destruct r as [a b ba u t l m].
  destruct a, ba, u, t, l, m; (injection He as <- <-; by constructor) || eapply Hrun, He; done.
Qed.

(** The flush of the optimistic path never returns the reservation of an item it moves to the
    batched queue: a result without assignments leaves the limiter, and the scheduler, as they were. *)
Theorem optimistic_flush_keeps_reservation r s :
  res_assigned r = [] → (flushToDatabaseOptimistic mark localWorkerIds r s).2 = s.
Proof.
  intros Hr. destruct (flushToDatabaseOptimistic_spec r s) as [| |out opts succeeded failed Ho Hm].
  - done.
  - by rewrite Hr, schedulerNack_nil.
  - apply QueueRepo.mark_perm in Hm as [Hm _]. rewrite Ho, Hr in Hm.
    apply Permutation_nil_r, fmap_nil_inv, app_nil in Hm as [-> ->].
    by rewrite schedulerNack_nil, schedulerAck_nil.
Qed.

(** When the flush of one result of the optimistic path fails, the results still in the channel are
    abandoned: every assignment they hold stays unacked in the scheduler, neither acked nor nacked. *)
Theorem optimistic_error_abandons_results unmarshal io assign qis call r rest s s1 s2 s3 :
  loadOptimistic unmarshal io qis s = (Ok call, s1) → assign call s1 = (r :: rest, s2) →
  flushToDatabaseOptimistic mark localWorkerIds r s2 = (Err, s3) →
  runOptimisticQueue unmarshal io assign mark localWorkerIds qis s = (Err, s3) ∧
  ∀ r' a, r' ∈ rest → a ∈ res_assigned r' → AckId a ∉ AckId <$> res_assigned r →
    unackedSlots (sh_sched s3) !! AckId a = unackedSlots (sh_sched s2) !! AckId a.
Proof.
  intros Hl Ha Hf. split.
  - unfold runOptimisticQueue. rewrite Hl, Ha. cbn. by rewrite Hf.
  - intros r' a _ _ Hno. pose proof (flushToDatabaseOptimistic_spec r s2) as Hs. rewrite Hf in Hs.
    cbn in Hs. inversion Hs; subst; [done|].
    etrans; [apply (se_slots _ _ _ _ (handleEach_settled _ _ nack_releases (AckId <$> res_assigned r) s2))|].
    by rewrite decide_False.
Qed.

End optimistic.

(** ** Instances *)

(** A scheduler with two assignments in flight and a limiter with one reservation. *)
Definition sampleShared : shared :=
  Shared SchedulerTheorems.sampleAssigned
    (RateLimit.addToUnacked 7 RateLimit.askOne (RateLimit.sampleLimiter 3)).

Definition sampleFlush : list assignSingleResult :=
  [AssignResult (qitem 1) 5 1 false true None false None; AssignResult (qitem 2) 5 2 false true None false None;
   AssignResult (qitem 7) 0 0 false false None true (Some 7)].

Lemma flush_settles_witness :
  ∃ n out s' q',
    flushToDatabase (QueueRepo.MarkQueueItemsProcessed (λ _, Some tt) QueueRepo.sampleStatements true true)
      (classify (λ _, 0) sampleFlush) sampleShared (newQueuer 10) = (Ok (n, out), s', q') ∧
    is_Some (unackedSlots (sh_sched sampleShared) !! 1) ∧ unackedSlots (sh_sched s') !! 1 = None ∧
    is_Some (RateLimit.unacked (sh_limiter sampleShared) !! 7) ∧
    RateLimit.unacked (sh_limiter s') !! 7 = None.
Proof.
  destruct (flush_settles (λ _, Some tt) QueueRepo.sampleStatements true true (λ _, 0) sampleFlush
              sampleShared (newQueuer 10)) as (n & out & s' & Hf & Hs & _).
  { cbn. rewrite !NoDup_cons, list_elem_of_singleton, elem_of_nil. split_and!; [lia|tauto|constructor]. }
  exists n, out, s'. eexists. split; [exact Hf|]. split; [vm_compute; eauto|]. split.
  { rewrite (se_slots _ _ _ _ Hs). rewrite decide_True; [done|]. vm_compute. left. }
  split; [vm_compute; eauto|]. apply (se_tasks _ _ _ _ Hs). vm_compute. left.
Defined.

(** Two copies of task 1, assigned to two slots; only the second is released. *)
Definition sampleCopies : assignResults :=
  AssignResults [AssignedQueueItem 1 5 (qitem 1); AssignedQueueItem 2 5 (qitem 1)] [] [] [] [] [] [].

Lemma repeated_task_leaks_slot_witness :
  ∃ n out s' q',
    flushToDatabase (QueueRepo.MarkQueueItemsProcessed (λ _, Some tt) QueueRepo.sampleStatements true true)
      sampleCopies sampleShared (newQueuer 10) = (Ok (n, out), s', q') ∧
    is_Some (unackedSlots (sh_sched s') !! 1).
Proof.
  edestruct (repeated_task_leaks_slot (λ _, Some tt) QueueRepo.sampleStatements true true sampleCopies
    [] (AssignedQueueItem 1 5 (qitem 1)) [] (AssignedQueueItem 2 5 (qitem 1)) [] sampleShared
    (newQueuer 10)) as (n & out & s' & Hf & Hs).
  - reflexivity.
  - reflexivity.
  - cbn. rewrite !NoDup_cons, list_elem_of_singleton, elem_of_nil. split_and!; [lia|tauto|constructor].
  - vm_compute. reflexivity.
  - exists n, out, s'. eexists. split; [exact Hf|]. cbn [AckId] in Hs. rewrite Hs. vm_compute. eauto.
Defined.

Lemma optimistic_flush_keeps_reservation_witness :
  let r := AssignResults [] [] [BatchedItem (qitem 7) (Some 7)] [] [] [] [] in
  is_Some (RateLimit.unacked (sh_limiter (flushToDatabaseOptimistic
    (QueueRepo.markQueueItemsProcessed (λ _, Some tt) QueueRepo.sampleStatements) ∅ r sampleShared).2) !! 7).
Proof.
  intros r. rewrite (optimistic_flush_keeps_reservation (λ _, Some tt) QueueRepo.sampleStatements ∅ r
    sampleShared eq_refl). vm_compute. eauto.
Defined.

(** A database whose flush statement fails. *)
Definition failingStatements : @QueueRepo.markStatements unit :=
  QueueRepo.MarkStatements (λ _ _ _, None) (λ _, true) (λ _, true) (λ _, true) (λ _, true) (λ _, true)
    (λ _, true).

Definition sampleReplies : tickReplies :=
  TickReplies (Ok None) (λ _, Ok []) (λ _, Ok (∅, ∅)) (λ _, Ok ∅) (λ _, Ok ∅) (λ _, Ok ∅).

Lemma optimistic_error_abandons_results_witness :
  ∃ s3, runOptimisticQueue (λ _, []) sampleReplies
      (λ _ s, ([AssignResults [AssignedQueueItem 1 5 (qitem 1)] [] [] [] [] [] [];
                AssignResults [AssignedQueueItem 2 5 (qitem 2)] [] [] [] [] [] []], s))
      (QueueRepo.markQueueItemsProcessed (λ _, Some tt) failingStatements) ∅ [qitem 1; qitem 2]
      sampleShared = (Err, s3) ∧ is_Some (unackedSlots (sh_sched s3) !! 2).
Proof.
  edestruct (optimistic_error_abandons_results (λ _, Some tt) failingStatements ∅ (λ _, []) sampleReplies
    (λ _ s, ([AssignResults [AssignedQueueItem 1 5 (qitem 1)] [] [] [] [] [] [];
              AssignResults [AssignedQueueItem 2 5 (qitem 2)] [] [] [] [] [] []], s))
    [qitem 1; qitem 2]) as [Hrun Hrest]; [reflexivity..|].
  eexists. split; [exact Hrun|].
  refine (eq_ind_r is_Some _ (Hrest _ (AssignedQueueItem 2 5 (qitem 2)) (list_elem_of_here _ _)
    (list_elem_of_here _ _) _)); [vm_compute; eauto|].
  intros H. apply list_elem_of_singleton in H. discriminate.
Defined.

End QueuerTheorems.
