(* ===== verification/BatchRepo.v ===== *)
(** The repository of batched queue items (the batchQueueRepository of
    src/pkg/repository/scheduler_queue.go): committing the assignments of a batch, reserving a run of
    its group, and the batch metadata of the tasks.  SQL statements are given as the replies they
    make; the parser of batch ids is a parameter. *)

From Stdlib Require Import Ascii.
From S2P Require Import Prelude Workers QueueRepo.
Import Workers.

Module BatchRepo.

Open Scope Z_scope.

(** ** strings.TrimSpace *)

(** The UTF-8 encodings of the white space runes. *)
Definition spaceRunes : list (list ascii) :=
  (λ l : list nat, ascii_of_nat <$> l) <$>
  [[9]; [10]; [11]; [12]; [13]; [32]; [194; 133]; [194; 160]; [225; 154; 128]; [226; 128; 128];
   [226; 128; 129]; [226; 128; 130]; [226; 128; 131]; [226; 128; 132]; [226; 128; 133]; [226; 128; 134];
   [226; 128; 135]; [226; 128; 136]; [226; 128; 137]; [226; 128; 138]; [226; 128; 168]; [226; 128; 169];
   [226; 128; 175]; [226; 129; 159]; [227; 128; 128]]%nat.

Fixpoint stripPrefix (p l : list ascii) : option (list ascii) :=
  match p, l with
  | [], _ => Some l
  | a :: p, b :: l => if decide (a = b) then stripPrefix p l else None
  | _, [] => None
  end.

Fixpoint stripAny (runes : list (list ascii)) (l : list ascii) : option (list ascii) :=
  match runes with
  | [] => None
  | r :: rest => match stripPrefix r l with Some l' => Some l' | None => stripAny rest l end
  end.

(** Every step removes at least a byte, so the length is enough fuel. *)
Fixpoint trimStart (fuel : nat) (runes : list (list ascii)) (l : list ascii) : list ascii :=
  match fuel with
  | O => l
  | S fuel => match stripAny runes l with Some l' => trimStart fuel runes l' | None => l end
  end.

Definition TrimSpace (s : string) : string :=
  let l := String.list_ascii_of_string s in
  let l := trimStart (length l) spaceRunes l in
  let r := reverse l in
  String.string_of_list_ascii (reverse (trimStart (length r) (reverse <$> spaceRunes) r)).

(** ** Data *)

Record V1BatchedQueueItem := BatchedQueueItem {
  bq_ID : Z;
  bq_Queue : string;
  bq_TaskID : Z;
  bq_TaskInsertedAt : option Z;
  bq_ActionID : string;
  bq_StepID : uuid;
  bq_ScheduleTimeoutAt : option Z;
  bq_StepTimeout : string;
  bq_Priority : Z;
  bq_Sticky : V1StickyStrategy;
  bq_DesiredWorkerID : option uuid;
  bq_RetryCount : Z;
  bq_BatchKey : string;
  bq_InsertedAt : option Z;
  bq_PayloadSize : Z;
}.

Record BatchAssignment := MkBatchAssignment {
  ba_BatchQueueItemID : Z;
  ba_TaskID : Z;
  ba_TaskInsertedAt : option Z;
  ba_RetryCount : Z;
  ba_WorkerID : uuid;
  ba_BatchID : string;
  ba_StepID : uuid;
  ba_ActionID : string;
  ba_BatchKey : string;
}.

Definition refOfAssignment (a : BatchAssignment) : QueueRepo.TaskIdInsertedAtRetryCount :=
  QueueRepo.TaskRef (ba_TaskID a) (ba_TaskInsertedAt a) (ba_RetryCount a).

Definition keyOfAssignment (a : BatchAssignment) : QueueRepo.taskIdRetryCount :=
  QueueRepo.TaskIdRetryCount (ba_TaskID a) (ba_RetryCount a).

(** What one UpdateTaskBatchMetadata is given: the batch, and the index of every task in it. *)
Record batchMetadata := BatchMetadata {
  bm_Batchid : string;
  bm_Batchsize : Z;
  bm_Workerid : uuid;
  bm_Batchkey : string;
  bm_tasks : list (Z * option Z * Z);
}.

Record batchStatements := BatchStatements {
  DeleteBatchedQueueItems : list Z → bool;
  UpdateTasksToAssigned : list (QueueRepo.TaskIdInsertedAtRetryCount * uuid) → option Z →
                          option (list QueueRepo.taskIdRetryCount);
  UpdateTaskBatchMetadata : batchMetadata → bool;
  AdvisoryLock : bool;
  ReserveTaskBatchRun : string → Z → option bool;
}.

(** ** Batch metadata *)

(** The assignments by batch id, and the ids in the order they first appear. *)
Definition addToBatch (st : gmap string (list BatchAssignment) * list string) (a : BatchAssignment) :
    gmap string (list BatchAssignment) * list string :=
  let '(groups, order) := st in
  if decide (TrimSpace (ba_BatchID a) = ""%string) then st
  else
    (<[ba_BatchID a := default [] (groups !! ba_BatchID a) ++ [a]]> groups,
     match groups !! ba_BatchID a with None => order ++ [ba_BatchID a] | Some _ => order end).

Definition metadataOf (batchID : string) (group : list BatchAssignment) : batchMetadata :=
  BatchMetadata batchID (to_int32 (Z.of_nat (length group)))
    (default 0 (ba_WorkerID <$> head group)) (default ""%string (ba_BatchKey <$> head group))
    (imap (λ i a, (ba_TaskID a, ba_TaskInsertedAt a, to_int32 (Z.of_nat i))) group).

Definition metadataUpdates (assignments : list BatchAssignment) : list batchMetadata :=
  let '(groups, order) := foldl addToBatch (∅, []) assignments in
  (λ b, metadataOf b (default [] (groups !! b))) <$> order.

Section repo.
Context (isUUID : string → bool).

(** The updates run in turn; an id that does not parse panics. *)
Fixpoint runUpdates (db : batchStatements) (updates : list batchMetadata) : result unit :=
  match updates with
  | [] => Ok tt
  | u :: rest =>
      if isUUID (bm_Batchid u)
      then _ ← QueueRepo.guardOk (UpdateTaskBatchMetadata db u); runUpdates db rest
      else Panics
  end.

Definition applyBatchMetadataTx (db : batchStatements) (assignments : list BatchAssignment) : result unit :=
  runUpdates db (metadataUpdates assignments).

(** ** Committing assignments *)

Definition commitAssignmentsTx (db : batchStatements) (assignments : list BatchAssignment) :
    result (list BatchAssignment) :=
  match assignments with
  | [] => Ok []
  | _ =>
      _ ← QueueRepo.guardOk (DeleteBatchedQueueItems db (ba_BatchQueueItemID <$> assignments));
      updated ← of_reply (UpdateTasksToAssigned db ((λ a, (refOfAssignment a, ba_WorkerID a)) <$> assignments)
                            (foldl (λ best a, QueueRepo.minTimestamp (ba_TaskInsertedAt a) best) None assignments));
      let succeeded := filter (λ a, keyOfAssignment a ∈ updated) assignments in
      _ ← applyBatchMetadataTx db succeeded;
      Ok succeeded
  end.

Definition CommitAssignments (db : batchStatements) (begun committed : bool)
    (assignments : list BatchAssignment) : result (list BatchAssignment) :=
  match assignments with
  | [] => Ok []
  | _ =>
      _ ← QueueRepo.guardOk begun;
      succeeded ← commitAssignmentsTx db assignments;
      _ ← QueueRepo.guardOk committed;
      Ok succeeded
  end.

(** Whether a run was reserved, and the assignments that were committed with it. *)
Definition ReserveAndCommitBatchRun (db : batchStatements) (begun committed : bool)
    (batchKey batchId : string) (maxRuns : Z) (assignments : list BatchAssignment) :
    result (bool * list BatchAssignment) :=
  if bool_decide (maxRuns ≤ 0) || bool_decide (TrimSpace batchKey = ""%string)
  then succeeded ← CommitAssignments db begun committed assignments; Ok (true, succeeded)
  else
    _ ← QueueRepo.guardOk begun;
    _ ← QueueRepo.guardOk (AdvisoryLock db);
    if isUUID batchId then
      reserved ← of_reply (ReserveTaskBatchRun db batchKey (to_int32 maxRuns));
      if (reserved : bool) then
        succeeded ← commitAssignmentsTx db assignments;
        _ ← QueueRepo.guardOk committed;
        Ok (true, succeeded)
      else _ ← QueueRepo.guardOk committed; Ok (false, [])
    else Panics.

End repo.

(** ** Reads *)

(** Rows of the statements, which are given the ids already buffered. *)
Definition ListBatchedQueueItems (query : list Z → option Z → option (list V1BatchedQueueItem))
    (excludeIds : list Z) (limit : Z) : result (list V1BatchedQueueItem) :=
  of_reply (query excludeIds (if bool_decide (0 < limit) then Some limit else None)).

Definition ListExistingBatchedQueueItemIds (query : list Z → option (list Z)) (ids : list Z) :
    result (gset Z) :=
  match ids with
  | [] => Ok ∅
  | _ => rows ← of_reply (query ids); Ok (list_to_set rows)
  end.

Definition GetBatchedQueueItemsByIds (query : list Z → option (list V1BatchedQueueItem)) (ids : list Z) :
    result (list V1BatchedQueueItem) :=
  match ids with [] => Ok [] | _ => of_reply (query ids) end.

Definition RemoveBatchedQueueItems (db : batchStatements) (ids : list Z) : result unit :=
  match ids with [] => Ok tt | _ => QueueRepo.guardOk (DeleteBatchedQueueItems db ids) end.

End BatchRepo.
