(* ===== verification/BatchScheduler.v ===== *)
(** The scheduler of the batch tasks of one step (src/pkg/scheduling/v1/batch_scheduler.go): items are
    buffered in memory per batch key and flushed, one worker slot per flush, when the buffer is large
    enough, its payloads are too large, or its interval elapsed.  The database, the run loop of the
    tenant scheduler, the clock and the order of map ranges are an environment; every reading is made
    at its own tick.  Calls to the run loop and emitted results are kept as a trace of events. *)

From S2P Require Import Prelude Workers RateLimit Scheduler TryAssign QueueRepo BatchRepo.
Import Workers Scheduler TryAssign BatchRepo.

Module BatchScheduler.

Open Scope Z_scope.

(** ** Data *)

Definition batchFetchLimit : Z := 20000.
Definition defaultBatchIdleTTL : Z := 30 * 1000000000.
Definition maxBufferedPayloadBytes : Z := 4000000.

Record bufferedItem := BufferedItem {
  bi_ScheduleTimeoutAt : option Z;
  bi_Queue : string;
  bi_ID : Z;
  bi_PayloadSize : Z;
}.

Definition toBufferedItem (item : V1BatchedQueueItem) : bufferedItem :=
  BufferedItem (bq_ScheduleTimeoutAt item) (bq_Queue item) (bq_ID item) (bq_PayloadSize item).

Definition toV1QueueItem (item : V1BatchedQueueItem) : queueItem :=
  QueueItem (bq_ID item) (bq_TaskID item) (bq_StepID item) (bq_ActionID item) (bq_Queue item)
    (bq_Sticky item) (bq_DesiredWorkerID item) (default RateLimit.zeroTime (bq_ScheduleTimeoutAt item))
    (bq_Priority item) (bq_RetryCount item) (bq_TaskInsertedAt item) (bq_StepTimeout item) ""
    (if decide (TrimSpace (bq_BatchKey item) = ""%string) then None else Some (bq_BatchKey item)).

Record batchGroup := BatchGroup {
  g_lastActiveAt : option Z;
  g_flushDeadline : option Z;
  g_flushInterval : option Z;
  g_batchKey : string;
  g_buffer : list bufferedItem;
}.

Record batchScheduler := MkBatchScheduler {
  b_stepId : uuid;
  b_maxRuns : Z;
  b_groups : gmap string batchGroup;
  b_batchSize : Z;
  b_flushInterval : option Z;
  b_idleTTL : Z;
  b_lastActiveAt : Z;
  b_cancelled : bool;
}.

Definition set_buffer (l : list bufferedItem) (g : batchGroup) : batchGroup :=
  BatchGroup (g_lastActiveAt g) (g_flushDeadline g) (g_flushInterval g) (g_batchKey g) l.
Definition set_active (t : Z) (g : batchGroup) : batchGroup :=
  BatchGroup (Some t) (g_flushDeadline g) (g_flushInterval g) (g_batchKey g) (g_buffer g).
Definition set_deadline (t : option Z) (g : batchGroup) : batchGroup :=
  BatchGroup (g_lastActiveAt g) t (g_flushInterval g) (g_batchKey g) (g_buffer g).

Definition set_groups (gs : gmap string batchGroup) (b : batchScheduler) : batchScheduler :=
  MkBatchScheduler (b_stepId b) (b_maxRuns b) gs (b_batchSize b) (b_flushInterval b) (b_idleTTL b)
    (b_lastActiveAt b) (b_cancelled b).
Definition set_lastActive (t : Z) (b : batchScheduler) : batchScheduler :=
  MkBatchScheduler (b_stepId b) (b_maxRuns b) (b_groups b) (b_batchSize b) (b_flushInterval b)
    (b_idleTTL b) t (b_cancelled b).
Definition set_batchSize (n : Z) (b : batchScheduler) : batchScheduler :=
  MkBatchScheduler (b_stepId b) (b_maxRuns b) (b_groups b) n (b_flushInterval b) (b_idleTTL b)
    (b_lastActiveAt b) (b_cancelled b).
Definition set_cancelled (b : batchScheduler) : batchScheduler :=
  MkBatchScheduler (b_stepId b) (b_maxRuns b) (b_groups b) (b_batchSize b) (b_flushInterval b)
    (b_idleTTL b) (b_lastActiveAt b) true.

(** The configuration of a step; absent columns are [None]. *)
Record batchResource := BatchResource {
  br_StepID : uuid;
  br_BatchKey : string;
  br_BatchMaxSize : Z;
  br_BatchMaxInterval : option Z;
  br_BatchGroupMaxRuns : option Z;
}.

Definition newBatchScheduler (now : Z) (r : batchResource) : batchScheduler :=
  MkBatchScheduler (br_StepID r) (default 0 (br_BatchGroupMaxRuns r)) ∅
    (if bool_decide (br_BatchMaxSize r ≤ 0) then 1 else br_BatchMaxSize r)
    ((λ ms, ms * 1000000) <$> br_BatchMaxInterval r) defaultBatchIdleTTL now false.

Inductive BatchFlushReason :=
  | BatchSizeReached
  | WorkerChanged
  | DispatcherChanged
  | IntervalElapsed
  | BufferDrained
  | BufferMemorySizeReached.

Record BatchAssignmentMetadata := BatchAssignmentMeta {
  bam_State : string;
  bam_Reason : option BatchFlushReason;
  bam_TriggeredAt : Z;
  bam_ConfiguredBatchMaxSize : Z;
  bam_ConfiguredBatchMaxIntervalMs : Z;
  bam_ConfiguredBatchGroupMaxRuns : Z;
  bam_Pending : Z;
  bam_NextFlushAt : option Z;
  bam_BatchID : string;
  bam_StepID : uuid;
  bam_ActionID : string;
  bam_BatchGroupKey : string;
}.

(** An item of the results a flush emits: its worker, the item, and the batch it belongs to. *)
Record batchResult := BatchResult {
  bres_WorkerId : uuid;
  bres_QueueItem : queueItem;
  bres_Batch : BatchAssignmentMetadata;
}.

(** ** Environment and trace *)

Record env := Env {
  e_clock : nat → Z;
  e_ctxDone : nat → bool;
  e_list : nat → list Z → option Z → option (list V1BatchedQueueItem);
  e_existing : nat → list Z → option (list Z);
  e_byIds : nat → list Z → option (list V1BatchedQueueItem);
  e_statements : nat → batchStatements;
  e_transaction : nat → bool * bool;
  e_labels : nat → uuid → option (list desiredLabel);
  e_assign : nat → queueItem → list desiredLabel → option assignSingleResult;
  e_activeRuns : nat → string → option Z;
  e_batchID : nat → string;
  e_range : nat → list string → list string;
  e_isUUID : string → bool;
  e_ticker : nat → bool;
}.

(** What the batch scheduler does to the run loop and to the results channel; [Committed] is the
    transaction of a batch, with the items of the batch and those it assigned. *)
Inductive event :=
  | Assigned (ackId : Z)
  | Acked (ids : list Z)
  | Nacked (ids : list Z)
  | Committed (items succeeded : list Z)
  | EmitWaiting (rs : list batchResult)
  | EmitAssigned (rs : list batchResult)
  | EmitTimedOut (qis : list queueItem).

Record world := World { w_b : batchScheduler; w_tick : nat; w_trace : list event }.

(** ** A monad of state and errors *)

Inductive outcome (A : Type) := Done (a : A) | Failed | Crashed | OutOfFuel.
Arguments Done {_}.
Arguments Failed {_}.
Arguments Crashed {_}.
Arguments OutOfFuel {_}.

Definition M (A : Type) : Type := world → outcome A * world.

Definition ret {A} (a : A) : M A := λ w, (Done a, w).
Definition fail {A} : M A := λ w, (Failed, w).
Definition bind {A B} (m : M A) (k : A → M B) : M B := λ w,
  match m w with
  | (Done a, w) => k a w
  | (Failed, w) => (Failed, w)
  | (Crashed, w) => (Crashed, w)
  | (OutOfFuel, w) => (OutOfFuel, w)
  end.

Declare Scope batch_scope.
Delimit Scope batch_scope with batch.
Notation "x <- m ;; k" := (bind m (λ x, k)) (at level 100, m at next level, right associativity) : batch_scope.
Notation "m ;;; k" := (bind m (λ _, k)) (at level 100, right associativity) : batch_scope.
Open Scope batch_scope.

(** A reading of the environment, at a tick of its own. *)
Definition ask {A} (f : nat → A) : M A := λ w,
  (Done (f (w_tick w)), World (w_b w) (S (w_tick w)) (w_trace w)).
Definition get : M batchScheduler := λ w, (Done (w_b w), w).
Definition modify (f : batchScheduler → batchScheduler) : M unit := λ w,
  (Done tt, World (f (w_b w)) (w_tick w) (w_trace w)).
Definition emit (e : event) : M unit := λ w, (Done tt, World (w_b w) (w_tick w) (w_trace w ++ [e])).
Definition lift {A} (r : result A) : M A := λ w,
  (match r with Ok a => Done a | Err => Failed | Panics => Crashed end, w).
Definition when (b : bool) (m : M unit) : M unit := if b then m else ret tt.

(** The group of a key: the code holds a pointer, which is in the map while it is used. *)
Definition groupOf (key : string) : M batchGroup :=
  b <- get ;; ret (default (BatchGroup None None None key []) (b_groups b !! key)).
Definition updGroup (key : string) (f : batchGroup → batchGroup) : M unit :=
  modify (λ b, set_groups (alter f key (b_groups b)) b).

Fixpoint mapM {A B} (f : A → M B) (l : list A) : M (list B) :=
  match l with
  | [] => ret []
  | x :: rest => y <- f x ;; ys <- mapM f rest ;; ret (y :: ys)
  end.

Fixpoint foldM {A B} (f : B → A → M B) (acc : B) (l : list A) : M B :=
  match l with
  | [] => ret acc
  | x :: rest => acc <- f acc x ;; foldM f acc rest
  end.

(** A loop over keys. *)
Fixpoint forEach {A} (l : list A) (body : A → M unit) : M unit :=
  match l with
  | [] => ret tt
  | x :: rest => body x ;;; forEach rest body
  end.

Definition keysOf {A} (m : gmap string A) : list string := (map_to_list m).*1.

(** A map of slices, built by appending to the slice of each key. *)
Definition groupBy {A} (key : A → string) (items : list A) : gmap string (list A) :=
  foldl (λ m item, <[key item := default [] (m !! key item) ++ [item]]> m) ∅ items.

(** ** Groups *)

Definition getBufferedIds (g : batchGroup) : list Z := bi_ID <$> g_buffer g.

Definition timedOutAt (now : Z) (t : option Z) : bool :=
  match t with Some t => bool_decide (t < now) | None => false end.

(** The items whose schedule timeout passed, and the group without them. *)
Definition popTimedOut (now : Z) (g : batchGroup) : list bufferedItem * batchGroup :=
  (filter (λ i, timedOutAt now (bi_ScheduleTimeoutAt i) = true) (g_buffer g),
   set_buffer (filter (λ i, timedOutAt now (bi_ScheduleTimeoutAt i) = false) (g_buffer g)) g).

Definition popN (n : nat) (g : batchGroup) : list bufferedItem * batchGroup :=
  (take n (g_buffer g), set_buffer (drop n (g_buffer g)) g).

(** The first prefix that exceeds the limit, as the number of items to flush. *)
Fixpoint memoryLimit (i : nat) (total : Z) (l : list bufferedItem) : option nat :=
  match l with
  | [] => None
  | item :: rest =>
      let total := to_int32 (total + bi_PayloadSize item) in
      if bool_decide (maxBufferedPayloadBytes < total)
      then Some (match i with O => 1 | _ => i end)%nat
      else memoryLimit (S i) total rest
  end.

Definition shouldMemoryLimitFlush (g : batchGroup) : option nat := memoryLimit 0 0 (g_buffer g).

Section operations.
Context (E : env).

Definition now : M Z := ask (e_clock E).

(** Whether the context of the scheduler is done: it stopped itself, or it was stopped. *)
Definition ctxErr : M bool := b <- get ;; cancelled <- ask (e_ctxDone E) ;; ret (b_cancelled b || cancelled).

Definition resetFlushDeadline (key : string) : M unit :=
  g <- groupOf key ;;
  match g_flushInterval g with
  | Some d => t <- now ;; updGroup key (set_deadline (Some (t + d)))
  | None => ret tt
  end.

Definition touch : M unit := t <- now ;; modify (set_lastActive t).

(** The keys of the groups, in the order Go ranges over them. *)
Definition rangeGroups : M (list string) :=
  b <- get ;; ask (λ n, e_range E n (keysOf (b_groups b))).

Definition allBufferedIds : M (list Z) :=
  keys <- rangeGroups ;; b <- get ;;
  ret (concat ((λ k, default [] (getBufferedIds <$> b_groups b !! k)) <$> keys)).

Definition reconcileBuffers : M unit :=
  cancelled <- ctxErr ;;
  if (cancelled : bool) then ret tt
  else
    ids <- allBufferedIds ;;
    match ids with
    | [] => ret tt
    | _ =>
        existing <- ask (λ n, ListExistingBatchedQueueItemIds (e_existing E n) ids) ;;
        match existing with
        | Ok existing =>
            if decide (size existing = length ids) then ret tt
            else modify (λ b, set_groups
                   ((λ g, set_buffer (filter (λ i, bi_ID i ∈ existing) (g_buffer g)) g) <$> b_groups b) b)
        | _ => ret tt
        end
    end.

Definition batchMaxIntervalMs (b : batchScheduler) : Z :=
  match b_flushInterval b with
  | Some d => if bool_decide (d ≤ 0) then 0 else to_int32 (Z.quot d 1000000)
  | None => 0
  end.

Definition waitingResult (b : batchScheduler) (g : batchGroup) (item : V1BatchedQueueItem) : M batchResult :=
  t <- now ;;
  let qi := toV1QueueItem item in
  ret (BatchResult 0 qi
         (BatchAssignmentMeta "waiting" None (default t (bq_InsertedAt item)) (to_int32 (b_batchSize b))
            (batchMaxIntervalMs b) (to_int32 (b_maxRuns b)) (to_int32 (Z.of_nat (length (g_buffer g))))
            (g_flushDeadline g) "" (qi_StepID qi) (qi_ActionID qi)
            (match qi_BatchKey qi with Some k => TrimSpace k | None => ""%string end))).

Definition emitWaitingEvents (key : string) (newItems : list V1BatchedQueueItem) : M unit :=
  match newItems with
  | [] => ret tt
  | _ =>
      b <- get ;; g <- groupOf key ;;
      rs <- mapM (waitingResult b g) newItems ;;
      emit (EmitWaiting rs)
  end.

(** ** Fetching *)

Definition itemsByGroup : list V1BatchedQueueItem → gmap string (list V1BatchedQueueItem) :=
  groupBy bq_BatchKey.

Definition newGroup (t : Z) (key : string) (b : batchScheduler) : batchScheduler :=
  set_groups (<[key := BatchGroup (Some t) None (b_flushInterval b) key []]> (b_groups b)) b.

Definition ensureGroup (t : Z) (key : string) : M unit :=
  b <- get ;;
  match b_groups b !! key with
  | Some _ => ret tt
  | None => modify (newGroup t key) ;;; resetFlushDeadline key
  end.

(** One key of the fetched items; the items that timed out before they arrived are collected. *)
Definition fetchGroup (t : Z) (byGroup : gmap string (list V1BatchedQueueItem))
    (timedOutItems : list V1BatchedQueueItem) (key : string) : M (list V1BatchedQueueItem) :=
  let groupItems := default [] (byGroup !! key) in
  ensureGroup t key ;;;
  let timedOut := filter (λ i, timedOutAt t (bq_ScheduleTimeoutAt i) = true) groupItems in
  let newItems := filter (λ i, timedOutAt t (bq_ScheduleTimeoutAt i) = false) groupItems in
  updGroup key (λ g, set_buffer (g_buffer g ++ (toBufferedItem <$> newItems)) g) ;;;
  emitWaitingEvents key newItems ;;;
  when (negb (bool_decide (newItems = []))) (updGroup key (set_active t)) ;;;
  ret (timedOutItems ++ timedOut).

Definition fetchNewItems : M (list V1BatchedQueueItem) :=
  cancelled <- ctxErr ;;
  if (cancelled : bool) then fail
  else
    ids <- allBufferedIds ;;
    reply <- ask (λ n, ListBatchedQueueItems (e_list E n) ids batchFetchLimit) ;;
    items <- lift reply ;;
    match items with
    | [] => ret []
    | _ =>
        touch ;;;
        t <- now ;;
        let byGroup := itemsByGroup items in
        keys <- ask (λ n, e_range E n (keysOf byGroup)) ;;
        foldM (fetchGroup t byGroup) [] keys
    end.

Definition hydrateItems (refs : list bufferedItem) : M (list V1BatchedQueueItem) :=
  match refs with
  | [] => ret []
  | _ => reply <- ask (λ n, GetBatchedQueueItemsByIds (e_byIds E n) (bi_ID <$> refs)) ;; lift reply
  end.

Definition handleScheduleTimeouts (timedOutItems : list V1BatchedQueueItem) : M unit :=
  match timedOutItems with
  | [] => ret tt
  | _ =>
      reply <- ask (λ n, RemoveBatchedQueueItems (e_statements E n) (bq_ID <$> timedOutItems)) ;;
      lift reply ;;;
      emit (EmitTimedOut (toV1QueueItem <$> timedOutItems))
  end.

(** ** Assigning a flush *)

(** What the loop over the queues collects. *)
Record dispatch := Dispatch {
  d_remaining : list V1BatchedQueueItem;
  d_assigned : list batchResult;
  d_ackIds : list Z;
}.

Definition nack (ackIds : list Z) : M unit := when (negb (bool_decide (ackIds = []))) (emit (Nacked ackIds)).

Definition requeueGroup (key : string) (itemGroup : list V1BatchedQueueItem) (ackIds : list Z)
    (acc : dispatch) : M dispatch :=
  nack ackIds ;;;
  emitWaitingEvents key itemGroup ;;;
  resetFlushDeadline key ;;;
  ret (Dispatch (d_remaining acc ++ itemGroup) (d_assigned acc) (d_ackIds acc)).

(** One slot for the whole flush: the representative item and its outcome; an error is of the context. *)
Definition assignQueueItems (schedulingItem : queueItem) (labels : list desiredLabel) :
    M (option assignedQueueItem) :=
  reply <- ask (λ n, of_reply (e_assign E n schedulingItem labels)) ;;
  res <- lift reply ;;
  if ar_succeeded res
  then emit (Assigned (ar_ackId res)) ;;;
       ret (Some (AssignedQueueItem (ar_ackId res) (ar_workerId res) schedulingItem))
  else ret None.

(** Whether the group already has as many runs as it may; a failed count defers the batch. *)
Definition atMaxRuns (b : batchScheduler) (batchKey : string) : M bool :=
  if bool_decide (0 < b_maxRuns b) && negb (bool_decide (batchKey = ""%string)) then
    cnt <- ask (λ n, e_activeRuns E n batchKey) ;;
    ret (match cnt with Some c => bool_decide (b_maxRuns b ≤ c) | None => true end)
  else ret false.

Definition batchAssignmentOf (workerID : uuid) (batchID : string) (stepID : uuid) (actionID batchKey : string)
    (batched : V1BatchedQueueItem) : BatchAssignment :=
  MkBatchAssignment (bq_ID batched) (bq_TaskID batched) (bq_TaskInsertedAt batched) (bq_RetryCount batched)
    workerID batchID stepID actionID batchKey.

Definition flushedResult (b : batchScheduler) (reason : BatchFlushReason) (triggeredAt : Z) (workerID : uuid)
    (batchID : string) (stepID : uuid) (actionID batchKey : string) (queueItem : queueItem) : batchResult :=
  BatchResult workerID queueItem
    (BatchAssignmentMeta "flushed" (Some reason) triggeredAt (to_int32 (b_batchSize b)) (batchMaxIntervalMs b)
       (to_int32 (b_maxRuns b)) 0 None batchID stepID actionID batchKey).

(** The results by task id; a repeated task keeps the last one. *)
Definition resultsByTask (mk : queueItem → batchResult) (itemGroup : list V1BatchedQueueItem) :
    gmap Z batchResult :=
  let queueItemsByID : gmap Z queueItem := foldl (λ m i, <[bq_ID i := toV1QueueItem i]> m) ∅ itemGroup in
  foldl (λ m i, match queueItemsByID !! bq_ID i with
                | Some qi => <[qi_TaskID qi := mk qi]> m
                | None => m
                end) ∅ itemGroup.

Definition commitBatch (key : string) (reason : BatchFlushReason) (itemGroup : list V1BatchedQueueItem)
    (workerID : uuid) (ackIds : list Z) (stepID : uuid) (actionID batchKey : string) (acc : dispatch) :
    M dispatch :=
  b <- get ;;
  batchID <- ask (e_batchID E) ;;
  triggeredAt <- now ;;
  let assignments := batchAssignmentOf workerID batchID stepID actionID batchKey <$> itemGroup in
  let results := resultsByTask
    (flushedResult b reason triggeredAt workerID batchID stepID actionID batchKey) itemGroup in
  reply <- ask (λ n, ReserveAndCommitBatchRun (e_isUUID E) (e_statements E n) (e_transaction E n).1
                       (e_transaction E n).2 batchKey batchID (b_maxRuns b) assignments) ;;
  match reply with
  | Panics => lift Panics
  | Err => nack ackIds ;;; fail
  | Ok (false, _) => requeueGroup key itemGroup ackIds acc
  | Ok (true, succeeded) =>
      emit (Committed (bq_ID <$> itemGroup) (ba_BatchQueueItemID <$> succeeded)) ;;;
      match omap (λ a, results !! ba_TaskID a) succeeded with
      | [] => nack ackIds ;;; ret acc
      | queueResults =>
          ret (Dispatch (d_remaining acc) (d_assigned acc ++ queueResults) (d_ackIds acc ++ ackIds))
      end
  end.

(** The items of one queue. *)
Definition dispatchQueue (key : string) (reason : BatchFlushReason)
    (queueToItems : gmap string (list V1BatchedQueueItem)) (acc : dispatch) (queueName : string) :
    M dispatch :=
  match default [] (queueToItems !! queueName) with
  | [] => ret acc
  | (first :: _) as itemGroup =>
      b <- get ;; g <- groupOf key ;;
      let stepID := if decide (bq_StepID first = 0) then b_stepId b else bq_StepID first in
      let trimmed := TrimSpace (bq_BatchKey first) in
      let batchKey := if decide (trimmed = ""%string) then TrimSpace (g_batchKey g) else trimmed in
      reply <- ask (λ n, of_reply (e_labels E n (b_stepId b))) ;;
      stepLabels <- lift reply ;;
      assigned <- assignQueueItems (toV1QueueItem first)
                    (if decide (bq_StepID first = b_stepId b) then stepLabels else []) ;;
      match assigned with
      | None => requeueGroup key itemGroup [] acc
      | Some a =>
          if decide (WorkerId a = 0) then requeueGroup key itemGroup [] acc
          else
            let ackIds := if bool_decide (0 < AckId a) then [AckId a] else [] in
            let batchKeyNormalized := TrimSpace batchKey in
            full <- atMaxRuns b batchKeyNormalized ;;
            if (full : bool) then requeueGroup key itemGroup ackIds acc
            else commitBatch key reason itemGroup (WorkerId a) ackIds stepID (bq_ActionID first)
                   batchKeyNormalized acc
      end
  end.

Definition itemsByQueue : list V1BatchedQueueItem → gmap string (list V1BatchedQueueItem) :=
  groupBy bq_Queue.

(** The items to buffer again; an error abandons what the loop collected. *)
Definition assignAndDispatch (key : string) (items : list V1BatchedQueueItem) (reason : BatchFlushReason) :
    M (list V1BatchedQueueItem) :=
  match items with
  | [] => ret []
  | _ =>
      let queueToItems := itemsByQueue items in
      queues <- ask (λ n, e_range E n (keysOf queueToItems)) ;;
      acc <- foldM (dispatchQueue key reason queueToItems) (Dispatch [] [] []) queues ;;
      when (negb (bool_decide (d_ackIds acc = []))) (emit (Acked (d_ackIds acc))) ;;;
      match d_assigned acc with
      | [] => ret tt
      | rs => emit (EmitAssigned rs)
      end ;;;
      ret (d_remaining acc)
  end.

(** ** Flushing a group *)

Definition flush (key : string) (count : Z) (reason : BatchFlushReason) : M unit :=
  g <- groupOf key ;;
  if bool_decide (g_buffer g = []) || bool_decide (count ≤ 0) then ret tt
  else
    let n := Nat.min (Z.to_nat count) (length (g_buffer g)) in
    updGroup key (λ g, (popN n g).2) ;;;
    toFlush <- hydrateItems (popN n g).1 ;;
    remaining <- assignAndDispatch key toFlush reason ;;
    updGroup key (λ g, set_buffer ((toBufferedItem <$> remaining) ++ g_buffer g) g) ;;;
    resetFlushDeadline key ;;;
    t <- now ;;
    updGroup key (set_active t) ;;;
    touch.

(** The loop that flushes while the payloads exceed the limit; nothing bounds it, so it runs on fuel. *)
Fixpoint memoryLoop (fuel : nat) (key : string) : M unit :=
  match fuel with
  | O => λ w, (OutOfFuel, w)
  | S fuel =>
      g <- groupOf key ;;
      match shouldMemoryLimitFlush g with
      | None => ret tt
      | Some count => flush key (Z.of_nat count) BufferMemorySizeReached ;;; memoryLoop fuel key
      end
  end.

(** The loop that flushes full batches stops when a flush makes no progress; the length of the buffer
    is enough fuel. *)
Fixpoint sizeLoop (fuel : nat) (key : string) : M unit :=
  match fuel with
  | O => λ w, (OutOfFuel, w)
  | S fuel =>
      b <- get ;; g <- groupOf key ;;
      let before := length (g_buffer g) in
      if bool_decide (0 < b_batchSize b) && bool_decide (b_batchSize b ≤ Z.of_nat before) then
        flush key (b_batchSize b) BatchSizeReached ;;;
        g <- groupOf key ;;
        if decide (before ≤ length (g_buffer g))%nat then ret tt else sizeLoop fuel key
      else ret tt
  end.

Definition deadlineFlush (key : string) : M unit :=
  g <- groupOf key ;;
  match g_flushDeadline g with
  | None => ret tt
  | Some d =>
      t <- now ;;
      if bool_decide (d < t) && negb (bool_decide (g_buffer g = []))
      then flush key (Z.of_nat (length (g_buffer g))) IntervalElapsed
      else ret tt
  end.

Definition groupIsIdle (key : string) : M bool :=
  b <- get ;; g <- groupOf key ;;
  if negb (bool_decide (g_buffer g = [])) || bool_decide (is_Some (g_flushDeadline g)) then ret false
  else if bool_decide (b_idleTTL b ≤ 0) then ret false
  else match g_lastActiveAt g with
       | None => ret false
       | Some last =>
           t <- now ;;
           if bool_decide (t - last < b_idleTTL b) then ret false
           else
             let k := TrimSpace (g_batchKey g) in
             if bool_decide (0 < b_maxRuns b) && negb (bool_decide (k = ""%string)) then
               cnt <- ask (λ n, e_activeRuns E n k) ;;
               match cnt with
               | None => ret false
               | Some c =>
                   if bool_decide (0 < c) then t <- now ;; updGroup key (set_active t) ;;; ret false
                   else ret true
               end
             else ret true
       end.

Definition maybeStopIfIdle : M unit :=
  b <- get ;;
  cancelled <- ctxErr ;;
  if cancelled || negb (bool_decide (b_groups b = ∅)) || bool_decide (b_idleTTL b ≤ 0)
  then ret tt
  else
    t <- now ;;
    if bool_decide (t - b_lastActiveAt b < b_idleTTL b) then ret tt
    else
      reply <- ask (λ n, ListBatchedQueueItems (e_list E n) [] 1) ;;
      match reply with
      | Ok [] => modify set_cancelled
      | Ok _ => touch
      | _ => ret tt
      end.

(** ** The tick *)

Definition popGroup (popped : list bufferedItem) (key : string) : M (list bufferedItem) :=
  t <- now ;; g <- groupOf key ;;
  updGroup key (λ g, (popTimedOut t g).2) ;;;
  ret (popped ++ (popTimedOut t g).1).

Definition tickGroup (fuel : nat) (key : string) : M unit :=
  memoryLoop fuel key ;;;
  g <- groupOf key ;;
  sizeLoop (S (length (g_buffer g))) key ;;;
  deadlineFlush key ;;;
  idle <- groupIsIdle key ;;
  when idle (modify (λ b, set_groups (delete key (b_groups b)) b)).

Definition tick (fuel : nat) : M unit :=
  timedOutItems <- fetchNewItems ;;
  reconcileBuffers ;;;
  keys <- rangeGroups ;;
  popped <- foldM popGroup [] keys ;;
  hydrated <- hydrateItems popped ;;
  handleScheduleTimeouts (timedOutItems ++ hydrated) ;;;
  keys <- rangeGroups ;;
  forEach keys (tickGroup fuel) ;;;
  maybeStopIfIdle.

(** ** The goroutine *)

(** Whether a computation returned an error. *)
Definition attempt (m : M unit) : M bool := λ w,
  match m w with
  | (Done _, w) => (Done false, w)
  | (Failed, w) => (Done true, w)
  | (Crashed, w) => (Crashed, w)
  | (OutOfFuel, w) => (OutOfFuel, w)
  end.

(** The select after a tick: a done context and the ticker may both be ready, then either is taken. *)
Definition selectDone : M bool :=
  cancelled <- ctxErr ;;
  if (cancelled : bool) then ticker <- ask (e_ticker E) ;; ret (negb ticker) else ret false.

(** At most [iterations] ticks; an error ends the loop only when the context is done. *)
Fixpoint runLoop (fuel iterations : nat) : M unit :=
  match iterations with
  | O => λ w, (OutOfFuel, w)
  | S iterations =>
      failed <- attempt (tick fuel) ;;
      stop <- (if (failed : bool) then ctxErr else ret false) ;;
      if (stop : bool) then ret tt
      else
        stop <- selectDone ;;
        if (stop : bool) then ret tt else runLoop fuel iterations
  end.

Definition run (fuel iterations : nat) : M unit :=
  b <- get ;;
  when (bool_decide (b_batchSize b ≤ 0)) (modify (set_batchSize 1)) ;;;
  runLoop fuel iterations.

End operations.

End BatchScheduler.
