(* ===== verification/BatchTheorems.v ===== *)
(** What the batch scheduler promises: no item is buffered twice, every item it takes from a buffer is
    committed or buffered again, every slot it takes is acked or nacked; and where it breaks: a flush
    that fails halfway, a flush for memory that finds no slot, and groups with an interval. *)

From S2P Require Import Prelude Workers RateLimit Scheduler TryAssign QueueRepo BatchRepo BatchScheduler.
Import Workers Scheduler TryAssign BatchRepo BatchScheduler.

Module BatchTheorems.

Create HintDb batch.
Open Scope Z_scope.

(** ** Weakest preconditions *)

Definition wp {A} (m : M A) (Q : outcome A → world → Prop) (w : world) : Prop := Q (m w).1 (m w).2.

(** The postcondition of a prefix: what follows it runs after [Done], errors end the whole. *)
Definition andThen {A B} (k : A → M B) (Q : outcome B → world → Prop) (o : outcome A) (w : world) : Prop :=
  match o with
  | Done a => wp (k a) Q w
  | Failed => Q Failed w
  | Crashed => Q Crashed w
  | OutOfFuel => Q OutOfFuel w
  end.

Lemma wp_bind {A B} (m : M A) (k : A → M B) Q w : wp m (andThen k Q) w → wp (bind m k) Q w.
Proof. unfold wp, bind. by destruct (m w) as [[] w']. Qed.

Lemma wp_mono {A} (m : M A) (Q Q' : outcome A → world → Prop) w :
  wp m Q w → (∀ o w', Q o w' → Q' o w') → wp m Q' w.
Proof. unfold wp. auto. Qed.

Lemma wp_ret {A} (a : A) Q w : Q (Done a) w → wp (ret a) Q w.
Proof. done. Qed.

Lemma wp_ask {A} (f : nat → A) Q w :
  Q (Done (f (w_tick w))) (World (w_b w) (S (w_tick w)) (w_trace w)) → wp (ask f) Q w.
Proof. done. Qed.

Lemma wp_get Q w : Q (Done (w_b w)) w → wp get Q w.
Proof. done. Qed.

Lemma wp_modify f Q w : Q (Done tt) (World (f (w_b w)) (w_tick w) (w_trace w)) → wp (modify f) Q w.
Proof. done. Qed.

Lemma wp_emit e Q w : Q (Done tt) (World (w_b w) (w_tick w) (w_trace w ++ [e])) → wp (emit e) Q w.
Proof. done. Qed.

(** ** Properties of the state that a computation keeps *)

Definition keeps {A} (I : world → Prop) (m : M A) : Prop := ∀ w, I w → I (m w).2.

Lemma keeps_bind {A B} I (m : M A) (k : A → M B) : keeps I m → (∀ a, keeps I (k a)) → keeps I (bind m k).
Proof.
  intros Hm Hk w Hw. specialize (Hm w Hw). unfold bind. destruct (m w) as [[a| | |] w']; [|done..].
  by apply Hk.
Qed.

Lemma keeps_foldM {A B} I (f : B → A → M B) : (∀ acc x, keeps I (f acc x)) → ∀ l acc, keeps I (foldM f acc l).
Proof.
  intros Hf. induction l as [|x l IH]; intros acc; [by intros w|]. apply keeps_bind; [done|]. intros a. apply IH.
Qed.

Lemma keeps_forEach {A} I (f : A → M unit) l : (∀ x, keeps I (f x)) → keeps I (forEach l f).
Proof. intros Hf. induction l as [|x l IH]; [by intros w|]. by apply keeps_bind. Qed.

Lemma keeps_mapM {A B} I (f : A → M B) l : (∀ x, keeps I (f x)) → keeps I (mapM f l).
Proof.
  intros Hf. induction l as [|x l IH]; [by intros w|]. apply keeps_bind; [done|]. intros y.
  apply keeps_bind; [done|]. by intros ? w.
Qed.

(** What depends on the scheduler alone is kept by everything that does not modify it. *)
Definition about (J : batchScheduler → Prop) (w : world) : Prop := J (w_b w).

Lemma keeps_ask {A} J (f : nat → A) : keeps (about J) (ask f).
Proof. by intros w. Qed.
Lemma keeps_get J : keeps (about J) get.
Proof. by intros w. Qed.
Lemma keeps_emit J e : keeps (about J) (emit e).
Proof. by intros w. Qed.
Lemma keeps_ret {A} J (a : A) : keeps (about J) (ret a).
Proof. by intros w. Qed.
Lemma keeps_fail {A} J : keeps (about J) (@fail A).
Proof. by intros w. Qed.
Lemma keeps_lift {A} J (r : result A) : keeps (about J) (lift r).
Proof. by intros w. Qed.
Lemma keeps_when J b m : keeps (about J) m → keeps (about J) (when b m).
Proof. destruct b; [done|by intros _ w]. Qed.
Lemma keeps_modify J f : (∀ b, J b → J (f b)) → keeps (about J) (modify f).
Proof. intros Hf w. apply Hf. Qed.
Lemma keeps_groupOf J key : keeps (about J) (groupOf key).
Proof. by intros w. Qed.
#[local] Hint Resolve keeps_ask keeps_get keeps_emit keeps_ret keeps_fail keeps_lift keeps_groupOf : batch.

(** Takes a computation apart, down to the steps that change the groups. *)
Ltac keep :=
  repeat first
    [ solve [eauto with batch]
    | apply keeps_bind; [|intros ?]
    | apply keeps_foldM; intros ? ?
    | apply keeps_forEach; intros ?
    | apply keeps_mapM; intros ?
    | apply keeps_when
    | match goal with |- keeps _ (match ?x with _ => _ end) => destruct x end ].

Lemma keeps_ctxErr E J : keeps (about J) (ctxErr E).
Proof. by intros w. Qed.
#[local] Hint Resolve keeps_ctxErr : batch.

Section groups.
Context (E : env) (J : batchScheduler → Prop).
Context (Hactive : ∀ key t, keeps (about J) (updGroup key (set_active t))).
Context (Hdeadline : ∀ key t, keeps (about J) (updGroup key (set_deadline (Some t)))).
Context (Hbuffer : ∀ key f, keeps (about J) (updGroup key (λ g, set_buffer (f g) g))).
Context (Htouch : ∀ t, keeps (about J) (modify (set_lastActive t))).
#[local] Hint Resolve Hactive Hdeadline Hbuffer Htouch : batch.

Lemma keeps_resetFlushDeadline key : keeps (about J) (resetFlushDeadline E key).
Proof. unfold resetFlushDeadline, now. keep. Qed.
Lemma keeps_touch : keeps (about J) (touch E).
Proof. unfold touch, now. keep. Qed.
Lemma keeps_emitWaitingEvents key items : keeps (about J) (emitWaitingEvents E key items).
Proof. unfold emitWaitingEvents, waitingResult, now. keep. Qed.
#[local] Hint Resolve keeps_resetFlushDeadline keeps_touch keeps_emitWaitingEvents : batch.

Lemma keeps_requeueGroup key items ackIds acc : keeps (about J) (requeueGroup E key items ackIds acc).
Proof. unfold requeueGroup, nack. keep. Qed.
#[local] Hint Resolve keeps_requeueGroup : batch.

Lemma keeps_dispatchQueue key reason qs acc q : keeps (about J) (dispatchQueue E key reason qs acc q).
Proof. unfold dispatchQueue, commitBatch, assignQueueItems, atMaxRuns, nack, now. keep. Qed.
#[local] Hint Resolve keeps_dispatchQueue : batch.

Lemma keeps_assignAndDispatch key items reason : keeps (about J) (assignAndDispatch E key items reason).
Proof. unfold assignAndDispatch. keep. Qed.
#[local] Hint Resolve keeps_assignAndDispatch : batch.

Lemma keeps_hydrate refs : keeps (about J) (hydrateItems E refs).
Proof. unfold hydrateItems. keep. Qed.
#[local] Hint Resolve keeps_hydrate : batch.

Lemma keeps_flush key count reason : keeps (about J) (flush E key count reason).
Proof. unfold flush, now, popN. cbn. keep. Qed.
Lemma keeps_groupIsIdle key : keeps (about J) (groupIsIdle E key).
Proof. unfold groupIsIdle, now. keep. Qed.
Lemma keeps_popGroup popped key : keeps (about J) (popGroup E popped key).
Proof. unfold popGroup, now. cbn. keep. Qed.
Lemma keeps_handleScheduleTimeouts items : keeps (about J) (handleScheduleTimeouts E items).
Proof. unfold handleScheduleTimeouts. keep. Qed.
Lemma keeps_allBufferedIds : keeps (about J) (allBufferedIds E).
Proof. unfold allBufferedIds, rangeGroups. keep. Qed.

End groups.

(** The loops keep what a flush keeps. *)
Section loops.
Context (E : env) (J : batchScheduler → Prop).
Context (Hflush : ∀ key count reason, keeps (about J) (flush E key count reason)).
#[local] Hint Resolve Hflush : batch.

Lemma keeps_memoryLoop fuel key : keeps (about J) (memoryLoop E fuel key).
Proof. induction fuel as [|fuel IH]; [by intros w|]. cbn. keep. Qed.
Lemma keeps_sizeLoop fuel key : keeps (about J) (sizeLoop E fuel key).
Proof. induction fuel as [|fuel IH]; [by intros w|]. cbn. keep. Qed.
Lemma keeps_deadlineFlush key : keeps (about J) (deadlineFlush E key).
Proof. unfold deadlineFlush, now. keep. Qed.

End loops.

(** ** Groups of a step with an interval *)

(** Every group has a deadline, the groups [D] are still there, and the scheduler runs while they are. *)
Record timed (d : Z) (D : gset string) (c : bool) (b : batchScheduler) : Prop := {
  ti_interval : b_flushInterval b = Some d;
  ti_groups : ∀ k g, b_groups b !! k = Some g → g_flushInterval g = Some d ∧ is_Some (g_flushDeadline g);
  ti_dom : D ⊆ dom (b_groups b);
  ti_running : D ≠ ∅ → b_cancelled b = c;
}.

Section timed.
Context (E : env) (d : Z) (D : gset string) (c : bool).
#[local] Notation J := (timed d D c).

Lemma timed_updGroup key f :
  (∀ g, g_flushInterval g = Some d → is_Some (g_flushDeadline g) →
    g_flushInterval (f g) = Some d ∧ is_Some (g_flushDeadline (f g))) →
  keeps (about J) (updGroup key f).
Proof.
  intros Hf. apply keeps_modify. intros b [Hi Hg Hd Hr]. split; cbn; [done| |by rewrite dom_alter_L|done].
  intros k g. rewrite lookup_alter. case_decide as Hk; [|apply Hg]. subst k.
  destruct (b_groups b !! key) as [g0|] eqn:H0; [|done]. intros [= <-].
  destruct (Hg _ _ H0). by apply Hf.
Qed.

Lemma timed_active key t : keeps (about J) (updGroup key (set_active t)).
Proof. by apply timed_updGroup. Qed.
Lemma timed_deadline key t : keeps (about J) (updGroup key (set_deadline (Some t))).
Proof. apply timed_updGroup. intros g Hg _. split; [done|by eexists]. Qed.
Lemma timed_buffer key f : keeps (about J) (updGroup key (λ g, set_buffer (f g) g)).
Proof. by apply timed_updGroup. Qed.
Lemma timed_touch t : keeps (about J) (modify (set_lastActive t)).
Proof. apply keeps_modify. intros b []. by split. Qed.

(** A new group gets its deadline at once. *)
Lemma timed_newGroup t key w :
  about J w → b_groups (w_b w) !! key = None →
  about J ((modify (newGroup t key) ;;; resetFlushDeadline E key) w).2.
Proof.
  intros [Hi Hg Hd Hr] Hk. unfold resetFlushDeadline, groupOf, now, updGroup, bind, modify, get, ret, ask, about.
  cbn. rewrite lookup_insert_eq. cbn. rewrite Hi. cbn. split; cbn; [done| | |done].
  - intros k g. rewrite lookup_alter. case_decide as Hkk.
    + subst k. rewrite lookup_insert_eq. intros [= <-]. split; [done|by eexists].
    + rewrite lookup_insert_ne by done. apply Hg.
  - rewrite dom_alter_L, dom_insert_L. set_solver.
Qed.

#[local] Hint Resolve timed_active timed_deadline timed_buffer timed_touch : batch.
#[local] Hint Resolve keeps_resetFlushDeadline keeps_touch keeps_emitWaitingEvents keeps_hydrate keeps_flush
  keeps_memoryLoop keeps_sizeLoop keeps_deadlineFlush keeps_popGroup keeps_handleScheduleTimeouts
  keeps_allBufferedIds : batch.

Lemma timed_ensureGroup t key : keeps (about J) (ensureGroup E t key).
Proof.
  intros w Hw. unfold ensureGroup. unfold bind at 1, get. cbn [fst snd].
  destruct (b_groups (w_b w) !! key) eqn:Hk; [done|by apply timed_newGroup].
Qed.
#[local] Hint Resolve timed_ensureGroup : batch.

Lemma timed_fetch : keeps (about J) (fetchNewItems E).
Proof. unfold fetchNewItems, fetchGroup, now. keep. Qed.

Lemma timed_reconcile : keeps (about J) (reconcileBuffers E).
Proof.
  unfold reconcileBuffers. keep. apply keeps_modify. intros b [Hi Hg Hd Hr].
  split; cbn; [done| |by rewrite dom_fmap_L|done]. intros k g. rewrite lookup_fmap.
  destruct (b_groups b !! k) as [g0|] eqn:Hk; [|done]. intros [= <-]. exact (Hg k g0 Hk).
Qed.

(** A group with a deadline is never idle. *)
Lemma timed_not_idle key w : about J w → (groupIsIdle E key w).1 = Done false.
Proof.
  intros [Hi Hg _ _]. unfold groupIsIdle, groupOf, bind, get, ret. cbn.
  destruct (b_groups (w_b w) !! key) as [g|] eqn:Hk; cbn.
  - destruct (Hg _ _ Hk) as [_ Hd]. rewrite (bool_decide_true (is_Some _)) by done. by rewrite orb_true_r.
  - by destruct (bool_decide _).
Qed.

Lemma timed_tickGroup fuel key : keeps (about J) (tickGroup E fuel key).
Proof.
  unfold tickGroup. do 4 (apply keeps_bind; [eauto 10 with batch|intros ?]). intros w Hw. unfold bind.
  pose proof (timed_not_idle key w Hw) as Hidle.
  pose proof (keeps_groupIsIdle E J (timed_active) key w Hw) as Hkeep.
  destruct (groupIsIdle E key w) as [o w']. cbn in *. by subst o.
Qed.

Lemma timed_maybeStop : keeps (about J) (maybeStopIfIdle E).
Proof.
  unfold maybeStopIfIdle, now. destruct (decide (D = ∅)) as [HD|HD].
  - keep. apply keeps_modify. intros b []. by split.
  - intros w Hw. unfold bind at 1, get. cbn.
    rewrite (bool_decide_false (b_groups (w_b w) = ∅)), orb_true_r; [done|].
    intros He. destruct Hw as [_ _ Hd _]. rewrite He, dom_empty_L in Hd. set_solver.
Qed.
#[local] Hint Resolve timed_fetch timed_reconcile timed_tickGroup timed_maybeStop : batch.

Lemma timed_tick fuel : keeps (about J) (tick E fuel).
Proof. unfold tick, rangeGroups. keep. Qed.

End timed.

(** ** Traces *)

Definition assignedIds (t : list event) : list Z :=
  omap (λ e, match e with Assigned i => Some i | _ => None end) t.
Definition settledIds (t : list event) : list Z :=
  concat ((λ e, match e with Acked l | Nacked l => l | _ => [] end) <$> t).
Definition committedItems (t : list event) : list Z :=
  concat ((λ e, match e with Committed l _ => l | _ => [] end) <$> t).

(** The slots taken and not yet acked or nacked are [l]. *)
Definition balance (t : list event) (l : list Z) : Prop := assignedIds t ≡ₚ settledIds t ++ l.

(** The run loop gives positive ack ids and workers that exist. *)
Definition assign_ok (E : env) : Prop := ∀ n qi labels res,
  e_assign E n qi labels = Some res → ar_succeeded res = true → 0 < ar_ackId res ∧ ar_workerId res ≠ 0.

(** Go ranges over every key once. *)
Definition range_ok (E : env) : Prop := ∀ n l, e_range E n l ≡ₚ l.

(** Neither a slot nor a committed batch. *)
Definition quiet (e : event) : Prop :=
  match e with EmitWaiting _ | EmitAssigned _ | EmitTimedOut _ => True | _ => False end.

(** What depends on the trace alone, and not on quiet events. *)
Record traceProp (K : list event → Prop) : Prop := {
  tp_quiet : ∀ t e, quiet e → K t → K (t ++ [e]);
}.
Definition onTrace (K : list event → Prop) (w : world) : Prop := K (w_trace w).

Lemma assignedIds_snoc t e :
  assignedIds (t ++ [e]) = assignedIds t ++ match e with Assigned i => [i] | _ => [] end.
Proof. unfold assignedIds. rewrite omap_app. by destruct e. Qed.
Lemma settledIds_snoc t e :
  settledIds (t ++ [e]) = settledIds t ++ match e with Acked l | Nacked l => l | _ => [] end.
Proof. unfold settledIds. rewrite fmap_app, concat_app. cbn. by rewrite app_nil_r. Qed.
Lemma committedItems_snoc t e :
  committedItems (t ++ [e]) = committedItems t ++ match e with Committed l _ => l | _ => [] end.
Proof. unfold committedItems. rewrite fmap_app, concat_app. cbn. by rewrite app_nil_r. Qed.

(** Since the trace was [c]: the slots [l] are outstanding, and the items [P] that were processed are
    committed or [remaining]. *)
Definition ledger (l : list Z) (c : list event) (P : list Z) (remaining : list V1BatchedQueueItem)
    (t : list event) : Prop :=
  ∃ t1, t = c ++ t1 ∧ balance t1 l ∧ committedItems t1 ++ (bq_ID <$> remaining) ≡ₚ P.

Lemma ledger_start t : ledger [] t [] [] t.
Proof. exists []. split_and!; [by rewrite app_nil_r|apply Permutation_refl..]. Qed.

Lemma ledger_snoc l l' c P P' remaining t e :
  (∀ t1, balance t1 l → balance (t1 ++ [e]) l') →
  (∀ t1, committedItems t1 ++ (bq_ID <$> remaining) ≡ₚ P →
         committedItems (t1 ++ [e]) ++ (bq_ID <$> remaining) ≡ₚ P') →
  ledger l c P remaining t → ledger l' c P' remaining (t ++ [e]).
Proof.
  intros Hb Hc (t1 & -> & Hb1 & Hc1). exists (t1 ++ [e]). split_and!; [by rewrite app_assoc|auto|auto].
Qed.

Lemma ledger_quiet l c P remaining : traceProp (ledger l c P remaining).
Proof.
  split. intros t e He. apply ledger_snoc; intros t1; unfold balance;
    rewrite ?assignedIds_snoc, ?settledIds_snoc, ?committedItems_snoc; by destruct e; rewrite ?app_nil_r.
Qed.

Lemma ledger_settle l c P remaining t ids e :
  e = Acked ids ∨ e = Nacked ids → ledger (l ++ ids) c P remaining t → ledger l c P remaining (t ++ [e]).
Proof.
  intros He. apply ledger_snoc; intros t1; unfold balance;
    rewrite ?assignedIds_snoc, ?settledIds_snoc, ?committedItems_snoc;
    destruct He as [-> | ->]; rewrite ?app_nil_r; try done; intros ->; solve_Permutation.
Qed.

Lemma ledger_assign l c P remaining t id :
  ledger l c P remaining t → ledger (l ++ [id]) c P remaining (t ++ [Assigned id]).
Proof.
  apply ledger_snoc; intros t1; unfold balance;
    rewrite ?assignedIds_snoc, ?settledIds_snoc, ?committedItems_snoc, ?app_nil_r; [|done].
  intros ->. solve_Permutation.
Qed.

Lemma ledger_commit l c P remaining t items succeeded :
  ledger l c P remaining t → ledger l c (P ++ items) remaining (t ++ [Committed items succeeded]).
Proof.
  apply ledger_snoc; intros t1; unfold balance;
    rewrite ?assignedIds_snoc, ?settledIds_snoc, ?committedItems_snoc, ?app_nil_r; [done|].
  intros <-. solve_Permutation.
Qed.

(** ** Triples: what holds after [Done] *)

Definition triple {A} (P : world → Prop) (m : M A) (R : A → world → Prop) : Prop :=
  ∀ w, P w → match m w with (Done a, w') => R a w' | _ => True end.

Lemma triple_bind {A B} P (m : M A) R (k : A → M B) R' :
  triple P m R → (∀ a, triple (R a) (k a) R') → triple P (bind m k) R'.
Proof.
  intros Hm Hk w Hw. specialize (Hm w Hw). unfold bind. destruct (m w) as [[a| | |] w']; [|done..].
  by apply Hk.
Qed.

Lemma triple_pre {A} (P P' : world → Prop) (m : M A) R : (∀ w, P w → P' w) → triple P' m R → triple P m R.
Proof. intros HP Hm w Hw. by apply Hm, HP. Qed.

Lemma triple_post {A} (P : world → Prop) (m : M A) (R R' : A → world → Prop) :
  triple P m R → (∀ a w, R a w → R' a w) → triple P m R'.
Proof. intros Hm HR w Hw. specialize (Hm w Hw). destruct (m w) as [[] ?]; auto. Qed.

Lemma triple_keeps {A} I (m : M A) : keeps I m → triple I m (λ _, I).
Proof. intros Hm w Hw. specialize (Hm w Hw). by destruct (m w) as [[] ?]. Qed.

Lemma triple_ret {A} P (a : A) (R : A → world → Prop) : (∀ w, P w → R a w) → triple P (ret a) R.
Proof. intros HR w. apply HR. Qed.

Lemma triple_fail {A} P (R : A → world → Prop) : triple P fail R.
Proof. by intros w. Qed.

Lemma triple_lift {A} (P : world → Prop) (r : result A) : triple P (lift r) (λ a w, P w ∧ r = Ok a).
Proof. intros w Hw. unfold lift. by destruct r. Qed.

(** The answer of the environment is one it gives at some tick. *)
Lemma triple_ask {A} K (f : nat → A) : triple (onTrace K) (ask f) (λ a w, onTrace K w ∧ ∃ n, a = f n).
Proof. intros w Hw. split; [done|by eexists]. Qed.

Lemma triple_emit (K K' : list event → Prop) e :
  (∀ t, K t → K' (t ++ [e])) → triple (onTrace K) (emit e) (λ _, onTrace K').
Proof. intros HK w. apply HK. Qed.

Lemma triple_foldM {A B} (f : B → A → M B) (I : list A → B → world → Prop) :
  (∀ done x acc, triple (I done acc) (f acc x) (I (done ++ [x]))) →
  ∀ l done acc, triple (I done acc) (foldM f acc l) (I (done ++ l)).
Proof.
  intros Hf. induction l as [|x l IH]; intros done acc; cbn.
  - apply triple_ret. by rewrite app_nil_r.
  - eapply triple_bind; [apply Hf|]. intros acc'. cbn.
    replace (done ++ x :: l) with ((done ++ [x]) ++ l) by by rewrite <- app_assoc. apply IH.
Qed.

(** Computations without slots or commits keep what the trace says. *)
Section quiet.
Context (E : env) (K : list event → Prop) (HK : traceProp K).

Lemma quiet_ask {A} (f : nat → A) : keeps (onTrace K) (ask f).
Proof. by intros w. Qed.
Lemma quiet_get : keeps (onTrace K) get.
Proof. by intros w. Qed.
Lemma quiet_ret {A} (a : A) : keeps (onTrace K) (ret a).
Proof. by intros w. Qed.
Lemma quiet_fail {A} : keeps (onTrace K) (@fail A).
Proof. by intros w. Qed.
Lemma quiet_lift {A} (r : result A) : keeps (onTrace K) (lift r).
Proof. by intros w. Qed.
Lemma quiet_modify f : keeps (onTrace K) (modify f).
Proof. by intros w. Qed.
Lemma quiet_groupOf key : keeps (onTrace K) (groupOf key).
Proof. by intros w. Qed.
Lemma quiet_updGroup key f : keeps (onTrace K) (updGroup key f).
Proof. by intros w. Qed.
Lemma quiet_emit e : quiet e → keeps (onTrace K) (emit e).
Proof. intros He w Hw. by apply (tp_quiet _ HK). Qed.
Lemma quiet_when b m : keeps (onTrace K) m → keeps (onTrace K) (when b m).
Proof. destruct b; [done|by intros _ w]. Qed.

End quiet.
#[local] Hint Resolve quiet_ask quiet_get quiet_ret quiet_fail quiet_lift quiet_modify quiet_groupOf
  quiet_updGroup quiet_emit ledger_quiet : quiet.

Ltac hush :=
  repeat first
    [ solve [eauto with quiet]
    | apply quiet_emit; [solve [eauto with quiet]|exact I]
    | apply keeps_bind; [|intros ?]
    | apply keeps_foldM; intros ? ?
    | apply keeps_forEach; intros ?
    | apply keeps_mapM; intros ?
    | apply quiet_when
    | match goal with |- keeps _ (match ?x with _ => _ end) => destruct x end ].

Section hushed.
Context (E : env) (K : list event → Prop) (HK : traceProp K).

Lemma quiet_now : keeps (onTrace K) (now E).
Proof. by intros w. Qed.
#[local] Hint Resolve quiet_now : quiet.
Lemma quiet_ctxErr : keeps (onTrace K) (ctxErr E).
Proof. by intros w. Qed.
#[local] Hint Resolve quiet_ctxErr : quiet.
Lemma quiet_resetFlushDeadline key : keeps (onTrace K) (resetFlushDeadline E key).
Proof. unfold resetFlushDeadline. hush. Qed.
Lemma quiet_touch : keeps (onTrace K) (touch E).
Proof. unfold touch. hush. Qed.
Lemma quiet_emitWaitingEvents key items : keeps (onTrace K) (emitWaitingEvents E key items).
Proof. unfold emitWaitingEvents, waitingResult. hush. Qed.
#[local] Hint Resolve quiet_resetFlushDeadline quiet_touch quiet_emitWaitingEvents : quiet.
Lemma quiet_hydrate refs : keeps (onTrace K) (hydrateItems E refs).
Proof. unfold hydrateItems. hush. Qed.
Lemma quiet_fetch : keeps (onTrace K) (fetchNewItems E).
Proof.
  unfold fetchNewItems, fetchGroup, ensureGroup, allBufferedIds, rangeGroups. hush.
Qed.
Lemma quiet_reconcile : keeps (onTrace K) (reconcileBuffers E).
Proof. unfold reconcileBuffers, allBufferedIds, rangeGroups. hush. Qed.
Lemma quiet_popGroup popped key : keeps (onTrace K) (popGroup E popped key).
Proof. unfold popGroup. hush. Qed.
Lemma quiet_handleScheduleTimeouts items : keeps (onTrace K) (handleScheduleTimeouts E items).
Proof. unfold handleScheduleTimeouts. hush. Qed.
Lemma quiet_groupIsIdle key : keeps (onTrace K) (groupIsIdle E key).
Proof. unfold groupIsIdle. hush. Qed.
Lemma quiet_maybeStop : keeps (onTrace K) (maybeStopIfIdle E).
Proof. unfold maybeStopIfIdle, touch. hush. Qed.
Lemma quiet_atMaxRuns b key : keeps (onTrace K) (atMaxRuns E b key).
Proof. unfold atMaxRuns. hush. Qed.

End hushed.

Lemma ledger_requeue l c P remaining items t :
  ledger l c P remaining t → ledger l c (P ++ (bq_ID <$> items)) (remaining ++ items) t.
Proof.
  intros (t1 & Ht & Hb & Hp). exists t1. split_and!; [done..|]. rewrite fmap_app, <- Hp. solve_Permutation.
Qed.

(** ** Every slot is settled and every item kept or committed *)

(** What the loop over the queues keeps: the slots it collected are outstanding, besides [l]. *)
Definition dispatching (l : list Z) (c : list event) (P : list Z) (acc : dispatch) : world → Prop :=
  onTrace (ledger (l ++ d_ackIds acc) c P (d_remaining acc)).

Section dispatch.
Context (E : env) (Hassign : assign_ok E).

Lemma nack_triple l c P remaining ackIds :
  triple (onTrace (ledger (l ++ ackIds) c P remaining)) (nack ackIds)
    (λ _, onTrace (ledger l c P remaining)).
Proof.
  unfold nack. destruct (decide (ackIds = [])) as [->|Hne].
  - apply triple_ret. by rewrite app_nil_r.
  - rewrite bool_decide_false by done. apply triple_emit. intros t. eapply ledger_settle. by right.
Qed.

Lemma requeue_triple key items ackIds acc l c P :
  triple (onTrace (ledger ((l ++ d_ackIds acc) ++ ackIds) c P (d_remaining acc)))
    (requeueGroup E key items ackIds acc) (dispatching l c (P ++ (bq_ID <$> items))).
Proof.
  unfold requeueGroup. eapply triple_bind; [apply nack_triple|]; intros ?; cbn beta.
  eapply triple_bind; [apply triple_keeps, quiet_emitWaitingEvents, ledger_quiet|]; intros ?; cbn beta.
  eapply triple_bind; [apply triple_keeps, quiet_resetFlushDeadline|]; intros ?; cbn beta.
  apply triple_ret. intros w. apply ledger_requeue.
Qed.

Lemma commitBatch_triple key reason items worker ackIds step action bkey acc l c P :
  triple (onTrace (ledger ((l ++ d_ackIds acc) ++ ackIds) c P (d_remaining acc)))
    (commitBatch E key reason items worker ackIds step action bkey acc)
    (dispatching l c (P ++ (bq_ID <$> items))).
Proof.
  unfold commitBatch. eapply triple_bind; [apply triple_keeps, quiet_get|]; intros b; cbn beta.
  eapply triple_bind; [apply triple_keeps, quiet_ask|]; intros batchID; cbn beta.
  eapply triple_bind; [apply triple_keeps, quiet_now|]; intros t; cbn beta.
  eapply triple_bind; [apply triple_keeps, quiet_ask|]. intros [[[] succeeded]| |].
  - eapply triple_bind; [apply triple_emit; intros t0; apply ledger_commit|]; intros ?; cbn beta.
    destruct (omap _ succeeded) as [|r rs].
    + eapply triple_bind; [apply nack_triple|]; intros ?; cbn beta. by apply triple_ret.
    + apply triple_ret. intros w. unfold dispatching. cbn. by rewrite <- app_assoc.
  - apply requeue_triple.
  - eapply triple_bind; [apply nack_triple|]; intros ?; cbn beta. apply triple_fail.
  - by intros w.
Qed.

Lemma assign_triple qi labels l c P remaining :
  triple (onTrace (ledger l c P remaining)) (assignQueueItems E qi labels)
    (λ a w, match a with
            | Some a => onTrace (ledger (l ++ [AckId a]) c P remaining) w ∧ 0 < AckId a ∧ WorkerId a ≠ 0
            | None => onTrace (ledger l c P remaining) w
            end).
Proof.
  unfold assignQueueItems. eapply triple_bind; [apply triple_ask|]; intros reply; cbn beta.
  eapply triple_bind; [apply triple_lift|]. intros res w [[Hw [n Hn]] Hr].
  destruct (e_assign E n qi labels) as [res'|] eqn:Ha; cbn in Hn; [|congruence].
  assert (res' = res) as -> by congruence.
  destruct (ar_succeeded res) eqn:Hs; [|done]. destruct (Hassign _ _ _ _ Ha Hs) as [Hid Hwk].
  split; [|done]. by apply ledger_assign.
Qed.

Lemma dispatchQueue_triple key reason qs acc q l c P :
  triple (dispatching l c P acc) (dispatchQueue E key reason qs acc q)
    (dispatching l c (P ++ (bq_ID <$> default [] (qs !! q)))).
Proof.
  unfold dispatchQueue. destruct (default [] (qs !! q)) as [|first rest].
  { apply triple_ret. by rewrite app_nil_r. }
  eapply triple_bind; [apply triple_keeps, quiet_get|]; intros b; cbn beta.
  eapply triple_bind; [apply triple_keeps, quiet_groupOf|]; intros g; cbn beta.
  eapply triple_bind; [apply triple_keeps, quiet_ask|]; intros reply; cbn beta.
  eapply triple_bind; [apply triple_keeps, quiet_lift|]; intros labels; cbn beta.
  eapply triple_bind; [apply assign_triple|]. intros [a|].
  - intros w (Hw & Hid & Hwk). revert w Hw. rewrite (decide_False (P := WorkerId a = 0)) by done.
    rewrite (bool_decide_true (0 < AckId a)) by done.
    eapply triple_bind; [apply triple_keeps, quiet_atMaxRuns|]. intros [].
    + apply requeue_triple.
    + apply commitBatch_triple.
  - eapply triple_pre; [|apply requeue_triple]. intros w. by rewrite app_nil_r.
Qed.

Lemma keysOf_values {A} (m : gmap string (list A)) :
  concat ((λ k, default [] (m !! k)) <$> keysOf m) = concat (map_to_list m).*2.
Proof.
  unfold keysOf. rewrite <- list_fmap_compose. f_equal. apply list_fmap_ext. intros i [k v] Hk.
  apply list_elem_of_lookup_2, elem_of_map_to_list in Hk. cbn. by rewrite Hk.
Qed.

Lemma append_values {A} (m : gmap string (list A)) k x :
  concat (map_to_list (<[k := default [] (m !! k) ++ [x]]> m)).*2 ≡ₚ concat (map_to_list m).*2 ++ [x].
Proof.
  destruct (m !! k) as [v|] eqn:Hk; cbn.
  - rewrite <- insert_delete_eq, map_to_list_insert by apply lookup_delete_eq.
    rewrite <- (map_to_list_delete m k v Hk). cbn. solve_Permutation.
  - rewrite map_to_list_insert by done. cbn. solve_Permutation.
Qed.

Lemma groupBy_perm {A} (f : A → string) (items : list A) (keys : list string) :
  keys ≡ₚ keysOf (groupBy f items) → concat ((λ k, default [] (groupBy f items !! k)) <$> keys) ≡ₚ items.
Proof.
  intros ->. rewrite keysOf_values. unfold groupBy.
  induction items as [|x items IH] using rev_ind; [done|]. rewrite foldl_snoc, append_values. by rewrite IH.
Qed.

Lemma dispatchAll_triple key reason qs queues l c :
  triple (dispatching l c [] (Dispatch [] [] [])) (foldM (dispatchQueue E key reason qs) (Dispatch [] [] []) queues)
    (dispatching l c (bq_ID <$> concat ((λ k, default [] (qs !! k)) <$> queues))).
Proof.
  set (I := λ done : list string,
    dispatching l c (bq_ID <$> concat ((λ k : string, default [] (qs !! k)) <$> done))).
  change (triple (I [] (Dispatch [] [] [])) (foldM (dispatchQueue E key reason qs) (Dispatch [] [] []) queues)
            (I ([] ++ queues))).
  apply triple_foldM. intros done x acc. unfold I. rewrite fmap_app, concat_app, fmap_app. cbn. rewrite app_nil_r.
  apply dispatchQueue_triple.
Qed.

(** A dispatch settles every slot it takes; its items are committed or handed back. *)
Lemma assignAndDispatch_triple key items reason l c :
  range_ok E →
  triple (onTrace (ledger l c [] [])) (assignAndDispatch E key items reason)
    (λ remaining, onTrace (ledger l c (bq_ID <$> items) remaining)).
Proof.
  intros Hrange. destruct items as [|i items']; [by apply triple_ret|]. set (items := i :: items').
  change (triple (onTrace (ledger l c [] [])) (
    queues <- ask (λ n, e_range E n (keysOf (itemsByQueue items))) ;;
    acc <- foldM (dispatchQueue E key reason (itemsByQueue items)) (Dispatch [] [] []) queues ;;
    when (negb (bool_decide (d_ackIds acc = []))) (emit (Acked (d_ackIds acc))) ;;;
    match d_assigned acc with [] => ret tt | rs => emit (EmitAssigned rs) end ;;;
    ret (d_remaining acc)) (λ remaining, onTrace (ledger l c (bq_ID <$> items) remaining))).
  eapply triple_bind; [apply triple_ask|]; intros queues; cbn beta.
  intros w [Hw [n Hq]]. revert w Hw. pose proof (Hrange n (keysOf (itemsByQueue items))) as Hp.
  rewrite <- Hq in Hp.
  eapply triple_bind.
  { eapply triple_pre; [|apply dispatchAll_triple]. intros w. unfold dispatching. cbn. by rewrite app_nil_r. }
  intros acc; cbn beta. eapply (triple_bind _ _ (λ _, onTrace (ledger l c (bq_ID <$> items) (d_remaining acc)))).
  - eapply triple_pre.
    { intros w Hw. unfold dispatching, onTrace, ledger in Hw. destruct Hw as (t1 & Ht & Hb & Hnew).
      assert (onTrace (ledger (l ++ d_ackIds acc) c (bq_ID <$> items) (d_remaining acc)) w) as Hw; [|exact Hw].
      exists t1. split_and!; [done..|]. rewrite Hnew.
      apply fmap_Permutation, (groupBy_perm bq_Queue items queues Hp). }
    destruct (decide (d_ackIds acc = [])) as [He|Hne].
    + rewrite bool_decide_true by done. apply triple_ret. by rewrite He, app_nil_r.
    + rewrite bool_decide_false by done. apply triple_emit. intros t. eapply ledger_settle. by left.
  - intros ?; cbn beta. eapply triple_bind; [apply triple_keeps|by intros ?; apply triple_ret].
    destruct (d_assigned acc); hush.
Qed.

(** ** The buffers *)

Definition buffers (b : batchScheduler) : gmap string (list bufferedItem) := g_buffer <$> b_groups b.

Lemma buffers_updGroup key f b :
  (∀ g, g_buffer (f g) = g_buffer g) → buffers (set_groups (alter f key (b_groups b)) b) = buffers b.
Proof.
  intros Hf. apply map_eq. intros k. unfold buffers. cbn. rewrite !lookup_fmap, lookup_alter.
  case_decide as Hk; [|done]. subst k. destruct (b_groups b !! key); [|done]. cbn. by rewrite Hf.
Qed.

Lemma buffers_setBuffer key f b g :
  b_groups b !! key = Some g →
  buffers (set_groups (alter (λ g, set_buffer (f g) g) key (b_groups b)) b) = <[key := f g]> (buffers b).
Proof.
  intros Hg. apply map_eq. intros k. unfold buffers. cbn. rewrite lookup_fmap, lookup_alter.
  case_decide as Hk.
  - subst k. by rewrite Hg, lookup_insert_eq.
  - by rewrite lookup_insert_ne, lookup_fmap.
Qed.

Section same_buffers.
Context (B : gmap string (list bufferedItem)).
#[local] Notation J := (λ b, buffers b = B).

Lemma same_active key t : keeps (about J) (updGroup key (set_active t)).
Proof. apply keeps_modify. intros b Hb. by rewrite buffers_updGroup. Qed.
Lemma same_deadline key t : keeps (about J) (updGroup key (set_deadline (Some t))).
Proof. apply keeps_modify. intros b Hb. by rewrite buffers_updGroup. Qed.
Lemma same_touch t : keeps (about J) (modify (set_lastActive t)).
Proof. by apply keeps_modify. Qed.

Lemma same_dispatch key items reason : keeps (about J) (assignAndDispatch E key items reason).
Proof. apply keeps_assignAndDispatch, same_deadline. Qed.
Lemma same_hydrate refs : keeps (about J) (hydrateItems E refs).
Proof. apply keeps_hydrate. Qed.

End same_buffers.

Lemma group_of_buffers key b l : buffers b !! key = Some l → ∃ g, b_groups b !! key = Some g ∧ g_buffer g = l.
Proof. unfold buffers. rewrite lookup_fmap. destruct (b_groups b !! key) as [g|]; intros [=]; eauto. Qed.

Lemma wp_keeps {A} I (m : M A) Q w : keeps I m → I w → (∀ o w', I w' → Q o w') → wp m Q w.
Proof. intros Hm Hw HQ. unfold wp. apply HQ, Hm, Hw. Qed.

Lemma wp_triple {A} P I (m : M A) R Q w :
  triple P m R → keeps I m → P w → I w →
  (∀ a w', R a w' → I w' → Q (Done a) w') → (∀ o w', I w' → (∀ a, o ≠ Done a) → Q o w') → wp m Q w.
Proof.
  intros Ht Hk HP HI H1 H2. specialize (Ht w HP). specialize (Hk w HI). unfold wp.
  destruct (m w) as [[a| | |] w']; cbn in *; auto; by apply H2.
Qed.

(** What a flush leaves behind: the popped items that still exist are committed or back at the front of
    the buffer, and its slots are settled; when it fails they are only dropped from the buffer. *)
Definition flushed (key : string) (n : nat) (buf : list bufferedItem) (w : world) (o : outcome unit) (w' : world) :
    Prop :=
  match o with
  | Done _ => ∃ rows remaining,
      (∃ m, e_byIds E m (bi_ID <$> take n buf) = Some rows) ∧
      ledger [] (w_trace w) (bq_ID <$> rows) remaining (w_trace w') ∧
      buffers (w_b w') = <[key := (toBufferedItem <$> remaining) ++ drop n buf]> (buffers (w_b w))
  | _ => buffers (w_b w') = <[key := drop n buf]> (buffers (w_b w))
  end.

Lemma wp_groupOf key g Q w :
  b_groups (w_b w) !! key = Some g → Q (Done g) w → wp (groupOf key) Q w.
Proof. intros Hg. unfold wp, groupOf, bind, get, ret. cbn. by rewrite Hg. Qed.

Lemma wp_anyGroup key Q w : (∀ g, Q (Done g) w) → wp (groupOf key) Q w.
Proof. intros HQ. apply HQ. Qed.

Lemma wp_updGroup key f Q w :
  Q (Done tt) (World (set_groups (alter f key (b_groups (w_b w))) (w_b w)) (w_tick w) (w_trace w)) →
  wp (updGroup key f) Q w.
Proof. done. Qed.

(** Timestamps do not matter to the buffers and to the trace. *)
Lemma wp_stamps key Q w :
  (∀ w', w_trace w' = w_trace w → buffers (w_b w') = buffers (w_b w) → Q (Done tt) w') →
  wp (resetFlushDeadline E key ;;; t <- now E ;; updGroup key (set_active t) ;;; touch E) Q w.
Proof.
  intros HQ. assert (∀ w1, w_trace w1 = w_trace w → buffers (w_b w1) = buffers (w_b w) →
    wp (t <- now E ;; updGroup key (set_active t) ;;; touch E) Q w1) as Hrest.
  { intros w1 Ht Hb. apply wp_bind, wp_ask. cbn [andThen]. apply wp_bind, wp_updGroup. cbn [andThen].
    apply wp_bind, wp_ask. cbn [andThen]. apply wp_modify, HQ; [done|]. cbn.
    by rewrite <- Hb, <- (buffers_updGroup key (set_active (e_clock E (w_tick w1))) (w_b w1)). }
  apply wp_bind. unfold resetFlushDeadline. apply wp_bind, wp_anyGroup. intros g. cbn [andThen].
  destruct (g_flushInterval g) as [d|]; [|by apply wp_ret, Hrest].
  apply wp_bind, wp_ask. cbn [andThen]. apply wp_updGroup. cbn [andThen]. apply Hrest; [done|].
  by apply buffers_updGroup.
Qed.

(** A flush, given what the dispatch of the rows does: errors end it, otherwise the items handed back go
    to the front of the buffer. *)
Lemma wp_flush key count reason w g Q :
  b_groups (w_b w) !! key = Some g → g_buffer g ≠ [] → 0 < count →
  let n := Nat.min (Z.to_nat count) (length (g_buffer g)) in
  let popped := <[key := drop n (g_buffer g)]> (buffers (w_b w)) in
  (∀ m w2, e_byIds E m (bi_ID <$> take n (g_buffer g)) = None → buffers (w_b w2) = popped → Q Failed w2) →
  (∀ m rows w2, e_byIds E m (bi_ID <$> take n (g_buffer g)) = Some rows → w_trace w2 = w_trace w →
     buffers (w_b w2) = popped →
     wp (assignAndDispatch E key rows reason)
       (λ o w3, match o with
                | Done remaining => ∀ w4, w_trace w4 = w_trace w3 →
                    buffers (w_b w4) =
                      <[key := (toBufferedItem <$> remaining) ++ drop n (g_buffer g)]> (buffers (w_b w)) →
                    Q (Done tt) w4
                | Failed => Q Failed w3
                | Crashed => Q Crashed w3
                | OutOfFuel => Q OutOfFuel w3
                end) w2) →
  wp (flush E key count reason) Q w.
Proof.
  intros Hg Hne Hc n popped Hfail Hdo. unfold flush. apply wp_bind, (wp_groupOf _ g); [done|]. cbn [andThen].
  rewrite (bool_decide_false (g_buffer g = [])), (bool_decide_false (count ≤ 0)) by (done || lia).
  cbn [orb]. fold n. apply wp_bind, wp_updGroup. cbn [andThen]. set (w1 := World _ _ _).
  assert (buffers (w_b w1) = popped) as Hb1.
  { apply (buffers_setBuffer key (λ g, drop n (g_buffer g)) (w_b w) g Hg). }
  change (popN n g).1 with (take n (g_buffer g)).
  assert (take n (g_buffer g) ≠ []) as Hpos.
  { destruct (g_buffer g) as [|i l]; [done|]. unfold n. destruct (Z.to_nat count) eqn:E0; [lia|done]. }
  apply wp_bind. destruct (take n (g_buffer g)) as [|r refs] eqn:Hrefs; [done|].
  cbn [hydrateItems]. apply wp_bind, wp_ask. cbn [andThen].
  change (GetBatchedQueueItemsByIds ?q (bi_ID <$> r :: refs)) with (of_reply (q (bi_ID <$> r :: refs))).
  destruct (e_byIds E _ _) as [rows|] eqn:Hrows; [|by eapply Hfail].
  unfold wp at 1. cbn [of_reply lift fst snd andThen]. set (w2 := World _ _ _). apply wp_bind.
  pose proof (Hdo _ rows w2 Hrows eq_refl Hb1) as Hd. pose proof (same_dispatch popped key rows reason w2 Hb1) as Hb3.
  unfold wp in Hd |- *. destruct (assignAndDispatch E key rows reason w2) as [[remaining| | |] w3];
    cbn [fst snd] in *; cbn [andThen]; [|done..].
  apply wp_bind, wp_updGroup. cbn [andThen].
  destruct (group_of_buffers key (w_b w3) (drop n (g_buffer g))) as (g3 & Hg3 & Hbuf3).
  { unfold about in Hb3. rewrite Hb3. apply lookup_insert_eq. }
  apply wp_stamps. intros w4 Ht4 Hb4. apply Hd; [done|]. rewrite Hb4.
  etrans; [apply (buffers_setBuffer key (λ g, (toBufferedItem <$> remaining) ++ g_buffer g) (w_b w3) g3 Hg3)|].
  unfold about in Hb3. rewrite Hb3, Hbuf3. apply insert_insert_eq.
Qed.

Lemma flush_spec key count reason w g :
  range_ok E → b_groups (w_b w) !! key = Some g → g_buffer g ≠ [] → 0 < count →
  let n := Nat.min (Z.to_nat count) (length (g_buffer g)) in
  wp (flush E key count reason) (flushed key n (g_buffer g) w) w.
Proof.
  intros Hrange Hg Hne Hc n. apply (wp_flush key count reason w g); [done..|].
  intros m rows w2 Hrows Ht2 Hb2.
  eapply (wp_triple _ (about (λ b, buffers b = buffers (w_b w2)))).
  { apply (assignAndDispatch_triple key rows reason [] (w_trace w) Hrange). }
  { apply same_dispatch. }
  { unfold onTrace. rewrite Ht2. apply ledger_start. }
  { done. }
  - intros remaining w3 Hl3 Hb3 w4 Ht4 Hb4. exists rows, remaining. split_and!; [eauto|by rewrite Ht4|done].
  - intros [] w3 Hw3 Hno; [by destruct (Hno a)|..]; cbn; by rewrite Hw3, Hb2.
Qed.

(** ** No slot is left behind *)

#[local] Notation settled := (onTrace (λ t, balance t [])).

Lemma balance_quiet l : traceProp (λ t, balance t l).
Proof.
  split. intros t e He. unfold balance. rewrite assignedIds_snoc, settledIds_snoc. by destruct e; rewrite ?app_nil_r.
Qed.

Lemma balance_app t1 t2 : balance t1 [] → balance t2 [] → balance (t1 ++ t2) [].
Proof.
  unfold balance, assignedIds, settledIds. rewrite omap_app, fmap_app, concat_app, !app_nil_r. intros -> ->. done.
Qed.

Lemma triple_forEach {A} P (f : A → M unit) l :
  (∀ x, triple P (f x) (λ _, P)) → triple P (forEach l f) (λ _, P).
Proof. intros Hf. induction l as [|x l IH]; [by intros w|]. by eapply triple_bind; [apply Hf|]. Qed.

Context (Hrange : range_ok E).

Lemma settled_dispatch key items reason : triple settled (assignAndDispatch E key items reason) (λ _, settled).
Proof.
  intros w Hw. pose proof (assignAndDispatch_triple key items reason [] (w_trace w) Hrange w (ledger_start _)) as H.
  destruct (assignAndDispatch E key items reason w) as [[remaining| | |] w']; [|done..].
  destruct H as (t1 & Ht & Hb & _). unfold onTrace. rewrite Ht. by apply balance_app.
Qed.

Lemma settled_flush key count reason : triple settled (flush E key count reason) (λ _, settled).
Proof.
  unfold flush. eapply triple_bind; [apply triple_keeps, quiet_groupOf|]; intros g; cbn beta.
  destruct (_ || _); [by apply triple_ret|].
  eapply triple_bind; [apply triple_keeps, quiet_updGroup|]; intros ?; cbn beta.
  eapply triple_bind; [apply triple_keeps, quiet_hydrate|]; intros ?; cbn beta.
  eapply triple_bind; [apply settled_dispatch|]; intros ?; cbn beta.
  apply triple_keeps. apply keeps_bind; [apply quiet_updGroup|]. intros ?.
  apply keeps_bind; [apply quiet_resetFlushDeadline|]. intros ?. by intros w.
Qed.

Lemma settled_memoryLoop fuel key : triple settled (memoryLoop E fuel key) (λ _, settled).
Proof.
  induction fuel as [|fuel IH]; [by intros w|]. cbn [memoryLoop].
  eapply triple_bind; [apply triple_keeps, quiet_groupOf|]; intros g; cbn beta.
  destruct (shouldMemoryLimitFlush g); [|by apply triple_ret].
  eapply triple_bind; [apply settled_flush|]. by intros ?.
Qed.

Lemma settled_sizeLoop fuel key : triple settled (sizeLoop E fuel key) (λ _, settled).
Proof.
  induction fuel as [|fuel IH]; [by intros w|]. cbn [sizeLoop].
  eapply triple_bind; [apply triple_keeps, quiet_get|]; intros b; cbn beta.
  eapply triple_bind; [apply triple_keeps, quiet_groupOf|]; intros g; cbn beta.
  destruct (_ && _); [|by apply triple_ret].
  eapply triple_bind; [apply settled_flush|]. intros ?; cbn beta.
  eapply triple_bind; [apply triple_keeps, quiet_groupOf|]; intros g'; cbn beta.
  destruct (decide _); [by apply triple_ret|done].
Qed.

Lemma settled_deadlineFlush key : triple settled (deadlineFlush E key) (λ _, settled).
Proof.
  unfold deadlineFlush. eapply triple_bind; [apply triple_keeps, quiet_groupOf|]; intros g; cbn beta.
  destruct (g_flushDeadline g); [|by apply triple_ret].
  eapply triple_bind; [apply triple_keeps, quiet_now|]; intros t; cbn beta.
  destruct (_ && _); [apply settled_flush|by apply triple_ret].
Qed.

Lemma settled_tickGroup fuel key : triple settled (tickGroup E fuel key) (λ _, settled).
Proof.
  unfold tickGroup. eapply triple_bind; [apply settled_memoryLoop|]; intros ?; cbn beta.
  eapply triple_bind; [apply triple_keeps, quiet_groupOf|]; intros g; cbn beta.
  eapply triple_bind; [apply settled_sizeLoop|]; intros ?; cbn beta.
  eapply triple_bind; [apply settled_deadlineFlush|]; intros ?; cbn beta.
  apply triple_keeps. apply keeps_bind; [apply quiet_groupIsIdle|]. intros idle. apply quiet_when, quiet_modify.
Qed.

Lemma settled_tick fuel : triple settled (tick E fuel) (λ _, settled).
Proof.
  pose proof (balance_quiet []) as HK. unfold tick.
  eapply triple_bind; [by apply triple_keeps, quiet_fetch|]; intros ?; cbn beta.
  eapply triple_bind; [by apply triple_keeps, quiet_reconcile|]; intros ?; cbn beta.
  eapply triple_bind; [by apply triple_keeps; unfold rangeGroups; intros w|]; intros ?; cbn beta.
  eapply triple_bind; [apply triple_keeps, keeps_foldM; intros; by apply quiet_popGroup|]; intros ?; cbn beta.
  eapply triple_bind; [by apply triple_keeps, quiet_hydrate|]; intros ?; cbn beta.
  eapply triple_bind; [by apply triple_keeps, quiet_handleScheduleTimeouts|]; intros ?; cbn beta.
  eapply triple_bind; [by apply triple_keeps; unfold rangeGroups; intros w|]; intros ?; cbn beta.
  eapply triple_bind; [apply triple_forEach; intros; apply settled_tickGroup|]; intros ?; cbn beta.
  by apply triple_keeps, quiet_maybeStop.
Qed.

(** ** No item is buffered twice *)

(** Within a group and across groups. *)
Record distinct (B : gmap string (list bufferedItem)) : Prop := {
  distinct_within : ∀ k l, B !! k = Some l → NoDup (bi_ID <$> l);
  distinct_across : ∀ k1 k2 l1 l2 i, B !! k1 = Some l1 → B !! k2 = Some l2 →
    i ∈ bi_ID <$> l1 → i ∈ bi_ID <$> l2 → k1 = k2;
}.
#[local] Notation apart := (about (λ b, distinct (buffers b))).

(** Buffers that only lose items. *)
Lemma distinct_shrink B B' :
  (∀ k l', B' !! k = Some l' → ∃ l, B !! k = Some l ∧
     (NoDup (bi_ID <$> l) → NoDup (bi_ID <$> l')) ∧ (∀ i, i ∈ bi_ID <$> l' → i ∈ bi_ID <$> l)) →
  distinct B → distinct B'.
Proof.
  intros Hs [H1 H2]. split.
  - intros k l' Hl. destruct (Hs k l' Hl) as (l & Hk & Hn & _). eauto.
  - intros k1 k2 l1 l2 i Hl1 Hl2 Hi1 Hi2.
    destruct (Hs _ _ Hl1) as (m1 & Hk1 & _ & Hm1), (Hs _ _ Hl2) as (m2 & Hk2 & _ & Hm2). eauto.
Qed.

Lemma distinct_sublist B B' :
  (∀ k l', B' !! k = Some l' → ∃ l, B !! k = Some l ∧ l' `sublist_of` l) → distinct B → distinct B'.
Proof.
  intros Hs. apply distinct_shrink. intros k l' Hl. destruct (Hs k l' Hl) as (l & Hk & Hsub). exists l.
  apply (fmap_sublist bi_ID) in Hsub. split_and!; [done|by intros; eapply sublist_NoDup|].
  intros i Hi. by eapply sublist_subseteq.
Qed.

Lemma distinct_replace B key l l' :
  B !! key = Some l → (NoDup (bi_ID <$> l) → NoDup (bi_ID <$> l')) → (∀ i, i ∈ bi_ID <$> l' → i ∈ bi_ID <$> l) →
  distinct B → distinct (<[key := l']> B).
Proof.
  intros Hl Hn Hi. apply distinct_shrink. intros k m. rewrite lookup_insert. case_decide as Hk.
  - subst k. intros [= <-]. eauto.
  - intros Hm. by exists m.
Qed.

(** The rows of the requested ids, each once. *)
Definition rows_ok : Prop := ∀ n ids rows,
  e_byIds E n ids = Some rows → NoDup (bq_ID <$> rows) ∧ ∀ i, i ∈ bq_ID <$> rows → i ∈ ids.

(** The listed rows are distinct, and none is excluded. *)
Definition list_ok : Prop := ∀ n ids limit rows,
  e_list E n ids limit = Some rows → NoDup (bq_ID <$> rows) ∧ ∀ i, i ∈ bq_ID <$> rows → i ∉ ids.

Context (Hrows : rows_ok) (Hlist : list_ok).

Lemma requeued_distinct c P remaining t rows n buf m :
  e_byIds E m (bi_ID <$> take n buf) = Some rows → P = bq_ID <$> rows →
  ledger [] c P remaining t →
  let buf' := (toBufferedItem <$> remaining) ++ drop n buf in
  (NoDup (bi_ID <$> buf) → NoDup (bi_ID <$> buf')) ∧ (∀ i, i ∈ bi_ID <$> buf' → i ∈ bi_ID <$> buf).
Proof.
  intros Hq -> (t1 & _ & _ & Hp) buf'. destruct (Hrows _ _ _ Hq) as [Hnd Hin].
  assert (bi_ID <$> buf' = (bq_ID <$> remaining) ++ (bi_ID <$> drop n buf)) as ->.
  { unfold buf'. by rewrite fmap_app, <- list_fmap_compose. }
  rewrite <- Hp in Hnd. apply NoDup_app in Hnd as (_ & _ & Hnd).
  assert (∀ i, i ∈ bq_ID <$> remaining → i ∈ bi_ID <$> take n buf) as Hsub.
  { intros i Hi. apply Hin. rewrite <- Hp. apply elem_of_app. by right. }
  assert (bi_ID <$> buf = (bi_ID <$> take n buf) ++ (bi_ID <$> drop n buf)) as ->.
  { by rewrite <- fmap_app, take_drop. }
  split.
  - intros (_ & Hd & Hn)%NoDup_app. apply NoDup_app. split_and!; [done| |done]. intros i Hi. by apply Hd, Hsub.
  - intros i. rewrite !elem_of_app. intros [Hi|Hi]; [left; by apply Hsub|by right].
Qed.

Lemma distinct_flush key count reason : keeps apart (flush E key count reason).
Proof.
  intros w Hw. destruct (b_groups (w_b w) !! key) as [g|] eqn:Hg.
  2: { unfold flush, bind at 1, groupOf, bind at 1, get. cbn. by rewrite Hg. }
  destruct (decide (g_buffer g = [] ∨ count ≤ 0)) as [Hno|Hyes].
  { unfold flush, bind at 1, groupOf, bind at 1, get. cbn. rewrite Hg. cbn.
    destruct Hno as [Hno|Hno]; rewrite (bool_decide_true _ Hno); by rewrite ?orb_true_r. }
  assert (g_buffer g ≠ [] ∧ 0 < count) as [Hne Hc] by (split; [naive_solver|lia]).
  assert (buffers (w_b w) !! key = Some (g_buffer g)) as Hb by (unfold buffers; by rewrite lookup_fmap, Hg).
  pose proof (flush_spec key count reason w g Hrange Hg Hne Hc) as Hf. cbn zeta in Hf. unfold wp in Hf.
  unfold about in *. destruct (flush E key count reason w) as [[[]| | |] w']; cbn in *.
  1: destruct Hf as (rows & remaining & [m Hm] & Hl & ->).
  2-4: rewrite Hf; apply (distinct_replace _ _ _ _ Hb); [|intros i; apply sublist_subseteq, fmap_sublist, sublist_drop|done];
       intros; eapply sublist_NoDup; [|apply fmap_sublist, sublist_drop]; done.
  destruct (requeued_distinct _ _ _ _ _ _ _ _ Hm eq_refl Hl). by apply (distinct_replace _ _ _ _ Hb).
Qed.

#[local] Hint Resolve distinct_flush : batch.
#[local] Hint Resolve keeps_memoryLoop keeps_sizeLoop keeps_deadlineFlush keeps_hydrate
  keeps_handleScheduleTimeouts keeps_allBufferedIds : batch.

Lemma distinct_updGroup key f :
  (∀ g, g_buffer (f g) `sublist_of` g_buffer g) → keeps apart (updGroup key f).
Proof.
  intros Hf. apply keeps_modify. intros b. apply distinct_sublist. intros k l'. unfold buffers. cbn.
  rewrite !lookup_fmap, lookup_alter. case_decide as Hk.
  - subst k. destruct (b_groups b !! key) as [g|]; [|done]. intros [= <-]. exists (g_buffer g). eauto.
  - intros Hl. by exists l'.
Qed.

Lemma distinct_active key t : keeps apart (updGroup key (set_active t)).
Proof. by apply distinct_updGroup. Qed.
Lemma distinct_deadline key t : keeps apart (updGroup key (set_deadline (Some t))).
Proof. by apply distinct_updGroup. Qed.
Lemma distinct_touch t : keeps apart (modify (set_lastActive t)).
Proof. by apply keeps_modify. Qed.
#[local] Hint Resolve distinct_active distinct_deadline distinct_touch keeps_groupIsIdle keeps_touch
  keeps_resetFlushDeadline : batch.

Lemma distinct_popGroup popped key : keeps apart (popGroup E popped key).
Proof.
  unfold popGroup, now. keep. apply distinct_updGroup. intros g. apply sublist_filter.
Qed.

Lemma distinct_reconcile : keeps apart (reconcileBuffers E).
Proof.
  unfold reconcileBuffers. keep. apply keeps_modify. intros b. apply distinct_sublist. intros k l'.
  unfold buffers. cbn. rewrite !lookup_fmap. destruct (b_groups b !! k) as [g|]; [|done]. intros [= <-].
  eexists. split; [done|]. apply sublist_filter.
Qed.

Lemma distinct_tickGroup fuel key : keeps apart (tickGroup E fuel key).
Proof.
  unfold tickGroup. keep. apply keeps_modify. intros b. apply distinct_sublist. intros k l'. unfold buffers. cbn.
  rewrite !lookup_fmap, lookup_delete. case_decide; [done|]. intros Hl. by exists l'.
Qed.

Lemma distinct_maybeStop : keeps apart (maybeStopIfIdle E).
Proof. unfold maybeStopIfIdle, now. keep. Qed.

Lemma groupBy_lookup {A} (f : A → string) (items : list A) k :
  default [] (groupBy f items !! k) = filter (λ x, f x = k) items.
Proof.
  unfold groupBy. induction items as [|x items IH] using rev_ind; [done|].
  rewrite foldl_snoc, filter_app, lookup_insert. case_decide as Hk.
  - subst k. by rewrite <- IH, filter_cons_True.
  - rewrite IH, filter_cons_False by done. by rewrite app_nil_r.
Qed.

Lemma groupBy_keys {A} (f : A → string) (items : list A) : NoDup (keysOf (groupBy f items)).
Proof. apply NoDup_fst_map_to_list. Qed.

Lemma ensureGroup_buffers t key w :
  wp (ensureGroup E t key)
    (λ o w', o = Done tt ∧
       buffers (w_b w') = <[key := default [] (buffers (w_b w) !! key)]> (buffers (w_b w))) w.
Proof.
  unfold ensureGroup. apply wp_bind, wp_get. cbn [andThen].
  destruct (b_groups (w_b w) !! key) as [g|] eqn:Hg.
  - apply wp_ret. split; [done|]. rewrite insert_id; [done|]. unfold buffers. by rewrite lookup_fmap, Hg.
  - apply wp_bind, wp_modify. cbn [andThen].
    assert (buffers (newGroup t key (w_b w)) = <[key := default [] (buffers (w_b w) !! key)]> (buffers (w_b w)))
      as <-.
    { unfold buffers, newGroup. cbn. by rewrite fmap_insert, lookup_fmap, Hg. }
    unfold resetFlushDeadline. apply wp_bind, wp_anyGroup. intros g. cbn [andThen].
    destruct (g_flushInterval g) as [d|]; [|done].
    apply wp_bind, wp_ask. cbn [andThen]. apply wp_updGroup. split; [done|]. by apply buffers_updGroup.
Qed.

(** A group that is fetched: the new items are appended to its buffer. *)
Lemma fetchGroup_buffers t byGroup acc key w :
  let newItems := filter (λ i, timedOutAt t (bq_ScheduleTimeoutAt i) = false) (default [] (byGroup !! key)) in
  buffers (w_b (fetchGroup E t byGroup acc key w).2) =
  <[key := default [] (buffers (w_b w) !! key) ++ (toBufferedItem <$> newItems)]> (buffers (w_b w)).
Proof.
  intros newItems. unfold fetchGroup. fold newItems.
  set (B := <[key := default [] (buffers (w_b w) !! key)]> (buffers (w_b w))).
  change (wp (ensureGroup E t key ;;;
    updGroup key (λ g, set_buffer (g_buffer g ++ (toBufferedItem <$> newItems)) g) ;;;
    emitWaitingEvents E key newItems ;;;
    when (negb (bool_decide (newItems = []))) (updGroup key (set_active t)) ;;;
    ret (acc ++ filter (λ i, timedOutAt t (bq_ScheduleTimeoutAt i) = true) (default [] (byGroup !! key))))
    (λ _ w', buffers (w_b w') = <[key := default [] (buffers (w_b w) !! key) ++ (toBufferedItem <$> newItems)]>
                                  (buffers (w_b w))) w).
  apply wp_bind. eapply (wp_mono _ (λ o w1, o = Done tt ∧ buffers (w_b w1) = B)).
  { apply ensureGroup_buffers. }
  intros o w1 [-> HB1]. cbn [andThen]. apply wp_bind, wp_updGroup. cbn [andThen].
  destruct (group_of_buffers key (w_b w1) (default [] (buffers (w_b w) !! key))) as (g & Hg & Hbuf).
  { rewrite HB1. apply lookup_insert_eq. }
  set (w2 := World _ _ _).
  assert (buffers (w_b w2) = <[key := default [] (buffers (w_b w) !! key) ++ (toBufferedItem <$> newItems)]>
                               (buffers (w_b w))) as HB2.
  { etrans; [apply (buffers_setBuffer key (λ g, g_buffer g ++ (toBufferedItem <$> newItems)) (w_b w1) g Hg)|].
    rewrite HB1, Hbuf. apply insert_insert_eq. }
  rewrite <- HB2.
  apply (wp_keeps (about (λ b, buffers b = buffers (w_b w2)))); [|done|done].
  apply keeps_bind; [apply keeps_emitWaitingEvents|]. intros ?.
  apply keeps_bind; [apply keeps_when, same_active|]. by intros ? ?.
Qed.

Lemma NoDup_fmap_inj {A B} (f : A → B) (l : list A) x y :
  NoDup (f <$> l) → x ∈ l → y ∈ l → f x = f y → x = y.
Proof.
  intros Hnd [i Hi]%list_elem_of_lookup [j Hj]%list_elem_of_lookup He.
  assert (i = j) as -> by (eapply NoDup_lookup; [done|by rewrite list_lookup_fmap, Hi|];
    by rewrite list_lookup_fmap, Hj, He). congruence.
Qed.

(** An item no group has. *)
Definition unbuffered (B : gmap string (list bufferedItem)) (i : Z) : Prop :=
  ∀ k l, B !! k = Some l → i ∉ bi_ID <$> l.

Lemma distinct_append B key new :
  NoDup (bi_ID <$> new) → (∀ i, i ∈ bi_ID <$> new → unbuffered B i) → distinct B →
  distinct (<[key := default [] (B !! key) ++ new]> B).
Proof.
  intros Hnd Hfresh [H1 H2].
  assert (∀ i, i ∈ bi_ID <$> default [] (B !! key) → i ∉ bi_ID <$> new) as Hold.
  { intros i Hi Hn. destruct (B !! key) as [l|] eqn:Hl; [|by apply elem_of_nil in Hi]. by eapply Hfresh. }
  assert (NoDup (bi_ID <$> default [] (B !! key))) as Hd.
  { destruct (B !! key) as [l|] eqn:Hl; [by eapply H1|constructor]. }
  assert (∀ k l i, B !! k = Some l → key ≠ k → i ∈ bi_ID <$> l →
            i ∉ bi_ID <$> (default [] (B !! key) ++ new)) as Hother.
  { intros k l i Hl Hk Hi. rewrite fmap_app, elem_of_app. intros [Ho|Hn]; [|by eapply Hfresh].
    destruct (B !! key) as [m|] eqn:Hm; [|by apply elem_of_nil in Ho]. by apply Hk, (H2 key k m l i). }
  split.
  - intros k l. rewrite lookup_insert. case_decide; [|apply H1]. intros [= <-]. rewrite fmap_app.
    apply NoDup_app. split_and!; [done|apply Hold|done].
  - intros k1 k2 l1 l2 i. rewrite !lookup_insert. case_decide as Ha; case_decide as Hb; subst; [done| | |apply H2].
    + intros [= <-] Hl2 Hi1 Hi2. by destruct (Hother _ _ _ Hl2 Hb Hi2).
    + intros Hl1 [= <-] Hi1 Hi2. by destruct (Hother _ _ _ Hl1 Ha Hi1).
Qed.

Lemma foldM_world {A B} (f : B → A → M B) (l : list A) (I : list A → world → Prop) (R : world → Prop) :
  (∀ done x rest acc w, l = done ++ x :: rest → I done w → I (done ++ [x]) (f acc x w).2) →
  (∀ done w, I done w → R w) → ∀ acc w, I [] w → R (foldM f acc l w).2.
Proof.
  intros Hf HR. enough (∀ rest done acc w, l = done ++ rest → I done w → R (foldM f acc rest w).2) as Hall
    by (intros acc w; by apply (Hall l [])).
  induction rest as [|x rest IH]; intros done acc w Hl Hw; cbn; [by eapply HR|].
  specialize (Hf done x rest acc w Hl Hw). unfold bind. destruct (f acc x w) as [[acc'| | |] w']; cbn in *; eauto.
  apply (IH (done ++ [x])); [|done]. by rewrite <- app_assoc.
Qed.

(** The items still to be appended are in no group. *)
Lemma distinct_fetchGroups t items keys acc w :
  NoDup keys → NoDup (bq_ID <$> items) → (∀ i, i ∈ bq_ID <$> items → unbuffered (buffers (w_b w)) i) →
  apart w → apart (foldM (fetchGroup E t (itemsByGroup items)) acc keys w).2.
Proof.
  intros Hk Hi Hfresh Hw.
  apply (foldM_world _ _ (λ done w, apart w ∧ ∀ i, i ∈ items → bq_BatchKey i ∉ done →
    unbuffered (buffers (w_b w)) (bq_ID i))); [|by intros ? ? []|].
  2: { split; [done|]. intros i Hin _. apply Hfresh, list_elem_of_fmap. eauto. }
  intros done key rest acc' w1 -> [Hw1 Hf1]. apply NoDup_app in Hk as (_ & Hd & _).
  assert (key ∉ done) as Hkey by (intros Hin; apply (Hd _ Hin), list_elem_of_here).
  unfold about. rewrite fetchGroup_buffers. unfold itemsByGroup. rewrite groupBy_lookup.
  set (new := filter _ (filter _ items)).
  assert (bi_ID <$> (toBufferedItem <$> new) = bq_ID <$> new) as Hids by by rewrite <- list_fmap_compose.
  assert (∀ i, i ∈ new → i ∈ items ∧ bq_BatchKey i = key) as Hnew.
  { intros i. unfold new. rewrite !list_elem_of_filter. naive_solver. }
  split.
  - apply distinct_append; [| |done]; rewrite Hids.
    + eapply sublist_NoDup; [|apply fmap_sublist; etrans; apply sublist_filter]. done.
    + intros i (x & -> & Hx)%list_elem_of_fmap. destruct (Hnew x Hx) as [Hx1 <-]. by apply Hf1.
  - intros i Hin Hdone k l. rewrite elem_of_app, list_elem_of_singleton in Hdone.
    rewrite lookup_insert. case_decide; [|apply Hf1; naive_solver]. intros [= <-].
    rewrite fmap_app, Hids, elem_of_app. intros [Ho|(x & He & Hx)%list_elem_of_fmap].
    + destruct (buffers (w_b w1) !! key) as [m|] eqn:Hm; [|by apply elem_of_nil in Ho].
      by eapply Hf1; [exact Hin|naive_solver|exact Hm|].
    + destruct (Hnew x Hx) as [Hx1 Hx2].
      assert (i = x) as -> by by apply (NoDup_fmap_inj bq_ID items). naive_solver.
Qed.

(** The ids a fetch excludes are all those that are buffered. *)
Lemma allBufferedIds_complete w ids w' i :
  allBufferedIds E w = (Done ids, w') → i ∉ ids → unbuffered (buffers (w_b w)) i.
Proof.
  unfold allBufferedIds, rangeGroups, bind, get, ask, ret. cbn. intros [= <- <-] Hi k l Hl Hin. apply Hi.
  destruct (group_of_buffers _ _ _ Hl) as (g & Hg & <-). apply list_elem_of_In, in_concat.
  exists (getBufferedIds g). rewrite <- !list_elem_of_In. split; [|done].
  apply list_elem_of_fmap. exists k. rewrite Hg. split; [done|]. rewrite (Hrange _ _).
  apply list_elem_of_fmap. exists (k, g). split; [done|]. by apply elem_of_map_to_list.
Qed.

Lemma wp_same {A C} (m : M A) (k : A → M C) w :
  keeps (about (λ b, buffers b = buffers (w_b w))) m → apart w →
  (∀ a w', m w = (Done a, w') → buffers (w_b w') = buffers (w_b w) → wp (k a) (λ _, apart) w') →
  wp (bind m k) (λ _, apart) w.
Proof.
  intros Hm Hw Hk. apply wp_bind. unfold wp at 1. specialize (Hm w eq_refl). unfold about in *.
  destruct (m w) as [[a| | |] w']; cbn in *; [by apply Hk|by rewrite Hm..].
Qed.

Lemma distinct_fetch : keeps apart (fetchNewItems E).
Proof.
  intros w Hw. change (wp (fetchNewItems E) (λ _, apart) w). unfold fetchNewItems.
  apply wp_same; [apply keeps_ctxErr|done|]. intros [] w0 _ Hb0; [by unfold wp, about; cbn; rewrite Hb0|].
  assert (apart w0) as Hw0 by by unfold about; rewrite Hb0.
  apply wp_same; [apply keeps_allBufferedIds|done|]. intros ids w1 Hids Hb1. rewrite Hb0 in Hb1.
  apply wp_bind, wp_ask. cbn [andThen]. unfold ListBatchedQueueItems.
  apply wp_same; [apply keeps_lift|by unfold about; cbn; rewrite Hb1|]. intros items w2 Hitems Hb2. cbn [w_b] in Hb2.
  destruct (e_list E (w_tick w1) ids _) as [rows|] eqn:Hl; [|done].
  injection Hitems as -> <-. destruct (Hlist _ _ _ _ Hl) as [Hnd Hex].
  destruct (decide (items = [])) as [->|Hne]; [by apply wp_ret; unfold about; cbn; rewrite Hb1|].
  assert (∀ w', buffers (w_b w') = buffers (w_b w) → wp (
    t <- now E ;; keys <- ask (λ n, e_range E n (keysOf (itemsByGroup items))) ;;
    foldM (fetchGroup E t (itemsByGroup items)) [] keys) (λ _, apart) w') as Hrest.
  { intros w' Hb'. apply wp_bind, wp_ask. cbn [andThen]. apply wp_bind, wp_ask. cbn [andThen].
    apply distinct_fetchGroups; [|done| |by unfold about; cbn; rewrite Hb'].
    - rewrite (Hrange _ _). apply groupBy_keys.
    - cbn. rewrite Hb', <- Hb0. intros i Hi. apply (allBufferedIds_complete _ _ _ _ Hids). by apply Hex. }
  destruct items as [|i0 items]; [done|]. apply wp_same; [apply keeps_touch; intros; apply same_touch| |].
  { unfold about. cbn. by rewrite Hb1. }
  intros [] w3 _ Hb3. cbn [w_b] in Hb3. apply Hrest. by rewrite Hb3, Hb1.
Qed.

#[local] Hint Resolve distinct_fetch distinct_reconcile distinct_popGroup distinct_tickGroup distinct_maybeStop : batch.

Lemma distinct_tick fuel : keeps apart (tick E fuel).
Proof. unfold tick, rangeGroups. keep. Qed.

End dispatch.

End BatchTheorems.
