(* ===== verification/BatchProperties.v ===== *)
(** The properties of the batch scheduler: what a flush keeps, which slots a tick settles, that no item
    is buffered twice, when its loops end, and what a dispatch that fails leaves behind; with a sample
    step on which they are evaluated. *)

From S2P Require Import Prelude Workers RateLimit Scheduler TryAssign QueueRepo BatchRepo BatchScheduler BatchTheorems.
Import Workers Scheduler TryAssign BatchRepo BatchScheduler BatchTheorems.

Module BatchProperties.

Open Scope Z_scope.

(** ** The goroutine keeps what a tick keeps *)

Section run.
Context (E : env) (J : batchScheduler → Prop) (fuel : nat).
Context (Htick : keeps (about J) (tick E fuel)).
Context (Hsize : ∀ b, J b → J (set_batchSize 1 b)).

Lemma keeps_attempt I m : keeps I m → keeps I (attempt m).
Proof. intros Hm w Hw. specialize (Hm w Hw). unfold attempt. by destruct (m w) as [[] ?]. Qed.

Lemma keeps_selectDone : keeps (about J) (selectDone E).
Proof.
  apply keeps_bind; [apply keeps_ctxErr|]. intros [|]; [|by intros w].
  apply keeps_bind; [apply keeps_ask|]. by intros ? w.
Qed.

Lemma keeps_runLoop n : keeps (about J) (runLoop E fuel n).
Proof.
  induction n as [|n IH]; [by intros w|]. cbn [runLoop]. apply keeps_bind; [by apply keeps_attempt|]. intros failed.
  apply keeps_bind; [destruct failed; [apply keeps_ctxErr|by intros w]|]. intros [|]; [by intros w|].
  apply keeps_bind; [apply keeps_selectDone|]. intros [|]; [by intros w|done].
Qed.

Lemma keeps_run n : keeps (about J) (run E fuel n).
Proof.
  apply keeps_bind; [apply keeps_get|]. intros b. apply keeps_bind; [apply keeps_when, keeps_modify, Hsize|].
  intros ?. apply keeps_runLoop.
Qed.

End run.

(** ** A sample step *)

(** A pending item, in the group [key]. *)
Definition sampleItem (id : Z) (queue key : string) (size : Z) : V1BatchedQueueItem :=
  BatchedQueueItem id queue id (Some 1) "act" 7 None "60s" 1 StickyNONE None 0 key (Some 1) size.

(** Statements that always succeed. *)
Definition sampleStatements (assigned : bool) : batchStatements :=
  BatchStatements (λ _, true)
    (λ refs _, if assigned
               then Some ((λ r, QueueRepo.TaskIdRetryCount (QueueRepo.Id r.1) (QueueRepo.RetryCount r.1)) <$> refs)
               else None)
    (λ _, true) true (λ _ _, Some true).

(** A database that holds the rows [db], and a run loop that answers [slot]; [assigned] tells at which
    readings the transaction of a batch commits. *)
Definition sampleEnv (db : list V1BatchedQueueItem) (assigned : nat → bool)
    (slot : nat → queueItem → option assignSingleResult) : env :=
  Env (λ n, Z.of_nat n) (λ _, false)
    (λ _ ids _, Some (filter (λ r, bq_ID r ∉ ids) db))
    (λ _ ids, Some (filter (λ i, i ∈ bq_ID <$> db) ids))
    (λ _ ids, Some (filter (λ r, bq_ID r ∈ ids) db))
    (λ n, sampleStatements (assigned n)) (λ _, (true, true)) (λ _ _, Some []) (λ n qi _, slot n qi)
    (λ _ _, Some 0) (λ _, "batch") (λ _ l, l) (λ _, true) (λ _, true).

Definition slotFor (n : nat) (qi : queueItem) : option assignSingleResult :=
  Some (AssignResult qi 3 (1 + Z.of_nat n) false true None false None).
Definition noSlot (n : nat) (qi : queueItem) : option assignSingleResult :=
  Some (AssignResult qi 0 0 true false None false None).

(** Two queues under one key, and a third item under another. *)
Definition sampleDb : list V1BatchedQueueItem :=
  [sampleItem 1 "q1" "k" 10; sampleItem 2 "q2" "k" 10; sampleItem 3 "q1" "other" 10].

(** The scheduler of a step that batches two items, at most every second. *)
Definition sampleNew : batchScheduler := newBatchScheduler 0 (BatchResource 7 "k" 2 (Some 1000) None).
Definition sampleStart : world := World sampleNew 0 [].

Definition sampleWorld : env := sampleEnv sampleDb (λ _, true) slotFor.

Lemma sample_range db assigned slot : range_ok (sampleEnv db assigned slot).
Proof. by intros n l. Qed.

Lemma sample_rows db assigned slot : NoDup (bq_ID <$> db) → rows_ok (sampleEnv db assigned slot).
Proof.
  intros Hnd n ids rows [= <-]. split.
  - eapply sublist_NoDup; [exact Hnd|apply fmap_sublist, sublist_filter].
  - intros i (x & -> & [Hx _]%list_elem_of_filter)%list_elem_of_fmap. done.
Qed.

Lemma sample_list db assigned slot : NoDup (bq_ID <$> db) → list_ok (sampleEnv db assigned slot).
Proof.
  intros Hnd n ids limit rows [= <-]. split.
  - eapply sublist_NoDup; [exact Hnd|apply fmap_sublist, sublist_filter].
  - intros i (x & -> & [Hx _]%list_elem_of_filter)%list_elem_of_fmap. done.
Qed.

Lemma sample_assign db assigned : assign_ok (sampleEnv db assigned slotFor).
Proof. intros n qi labels res [= <-] _. cbn. lia. Qed.

Lemma sampleDb_distinct : NoDup (bq_ID <$> sampleDb).
Proof. cbn. repeat constructor; set_solver. Qed.

(** ** Slots and items *)

(** A tick that completes leaves no slot behind: the slots taken from the run loop during the
    scheduler's life are, with multiplicity, those it acked or nacked. *)
Theorem batch_slots_settled (E : env) (fuel : nat) (w w' : world) :
  assign_ok E → range_ok E → assignedIds (w_trace w) ≡ₚ settledIds (w_trace w) →
  tick E fuel w = (Done tt, w') → assignedIds (w_trace w') ≡ₚ settledIds (w_trace w').
Proof.
  intros Ha Hr Hb Ht. pose proof (settled_tick E Ha Hr fuel w) as H. rewrite Ht in H.
  unfold onTrace, balance in H. rewrite !app_nil_r in H. auto.
Qed.

Lemma batch_slots_settled_witness :
  let w' := (tick sampleWorld 5 sampleStart).2 in
  assignedIds (w_trace w') = [23; 28] ∧ assignedIds (w_trace w') ≡ₚ settledIds (w_trace w').
Proof.
  split; [vm_compute; reflexivity|].
  apply (batch_slots_settled sampleWorld 5 sampleStart).
  - apply sample_assign.
  - apply sample_range.
  - constructor.
  - vm_compute. reflexivity.
Defined.


(** C26: what a flush does with the items it takes from the front of a buffer.  When it succeeds, those that still exist are
    each either in a committed batch or back at the front of the buffer, and every slot it took is acked or nacked.  When it
    fails, they are dropped from the buffer.  Either way the other groups are untouched. *)
Theorem batch_flush_conserves (E : env) (key : string) (count : Z) (reason : BatchFlushReason)
    (w w' : world) (g : batchGroup) (o : outcome unit) :
  assign_ok E → range_ok E → b_groups (w_b w) !! key = Some g → g_buffer g ≠ [] → 0 < count →
  flush E key count reason w = (o, w') →
  let n := Nat.min (Z.to_nat count) (length (g_buffer g)) in
  match o with
  | Done _ => ∃ m rows t remaining,
      e_byIds E m (bi_ID <$> take n (g_buffer g)) = Some rows ∧
      w_trace w' = w_trace w ++ t ∧
      committedItems t ++ (bq_ID <$> remaining) ≡ₚ (bq_ID <$> rows) ∧
      assignedIds t ≡ₚ settledIds t ∧
      g_buffer <$> b_groups (w_b w') =
        <[key := (toBufferedItem <$> remaining) ++ drop n (g_buffer g)]> (g_buffer <$> b_groups (w_b w))
  | _ => g_buffer <$> b_groups (w_b w') = <[key := drop n (g_buffer g)]> (g_buffer <$> b_groups (w_b w))
  end.
Proof.
  intros Ha Hr Hg Hne Hc Hf n. pose proof (flush_spec E Ha key count reason w g Hr Hg Hne Hc) as H.
  unfold wp in H. rewrite Hf in H. destruct o; [|exact H..]. destruct H as (rows & remaining & [m Hm] & (t & Ht & Hb & Hp) & HB).
  unfold balance in Hb. rewrite app_nil_r in Hb. by exists m, rows, t, remaining.
Qed.

(** A group with the three items, before a flush of two. *)
Definition sampleGroup : batchGroup :=
  BatchGroup (Some 0) None None "k" (toBufferedItem <$> sampleDb).
Definition sampleBuffered : world := World (set_groups {["k" := sampleGroup]} sampleNew) 0 [].

Lemma batch_flush_conserves_witness :
  ∃ m rows t remaining,
    e_byIds sampleWorld m [1; 2] = Some rows ∧
    w_trace (flush sampleWorld "k" 2 BatchSizeReached sampleBuffered).2 = [] ++ t ∧
    committedItems t ++ (bq_ID <$> remaining) ≡ₚ (bq_ID <$> rows) ∧
    assignedIds t ≡ₚ settledIds t ∧
    g_buffer <$> b_groups (w_b (flush sampleWorld "k" 2 BatchSizeReached sampleBuffered).2) =
      <["k" := (toBufferedItem <$> remaining) ++ [toBufferedItem (sampleItem 3 "q1" "other" 10)]]>
        (g_buffer <$> b_groups (w_b sampleBuffered)).
Proof.
  apply (batch_flush_conserves sampleWorld "k" 2 BatchSizeReached sampleBuffered
           (flush sampleWorld "k" 2 BatchSizeReached sampleBuffered).2 sampleGroup (Done tt)).
  - apply sample_assign.
  - apply sample_range.
  - reflexivity.
  - done.
  - lia.
  - vm_compute. reflexivity.
Defined.

(** ** Buffers *)

Lemma distinct_empty b : b_groups b = ∅ → distinct (buffers b).
Proof. intros Hb. unfold buffers. rewrite Hb, fmap_empty. split; intros *; by rewrite lookup_empty. Qed.

(** C27: however long a scheduler runs, and whichever of its ticks fail, no item is in two buffers or
    twice in one, when the list statement honours the excluded ids. *)
Theorem no_item_buffered_twice (E : env) (fuel iterations : nat) (t : Z) (r : batchResource) (tr : list event) :
  assign_ok E → range_ok E → rows_ok E → list_ok E →
  let gs := b_groups (w_b (run E fuel iterations (World (newBatchScheduler t r) 0 tr)).2) in
  (∀ k g, gs !! k = Some g → NoDup (getBufferedIds g)) ∧
  (∀ k1 k2 g1 g2 i, gs !! k1 = Some g1 → gs !! k2 = Some g2 →
     i ∈ getBufferedIds g1 → i ∈ getBufferedIds g2 → k1 = k2).
Proof.
  intros Ha Hr Hrow Hl gs.
  assert (distinct (g_buffer <$> gs)) as [H1 H2].
  { apply (keeps_run E (λ b, distinct (buffers b)) fuel (distinct_tick E Ha Hr Hrow Hl fuel) (λ b Hb, Hb)).
    by apply distinct_empty. }
  split.
  - intros k g Hg. apply (H1 k). by rewrite lookup_fmap, Hg.
  - intros k1 k2 g1 g2 i Hg1 Hg2. apply (H2 k1 k2); by rewrite lookup_fmap, ?Hg1, ?Hg2.
Qed.

(** No slot: after the first tick the items wait in their buffers. *)
Definition sampleWaiting : env := sampleEnv sampleDb (λ _, true) noSlot.

Lemma sampleWaiting_assign : assign_ok sampleWaiting.
Proof. by intros n qi labels res [= <-]. Qed.

Lemma no_item_buffered_twice_witness :
  let gs := b_groups (w_b (run sampleWaiting 5 3 (World sampleNew 0 [])).2) in
  (getBufferedIds <$> gs !! "k" = Some [1; 2]) ∧
  (∀ k g, gs !! k = Some g → NoDup (getBufferedIds g)).
Proof.
  split; [vm_compute; reflexivity|].
  apply (no_item_buffered_twice sampleWaiting 5 3 0 (BatchResource 7 "k" 2 (Some 1000) None) []).
  - apply sampleWaiting_assign.
  - apply sample_range.
  - apply sample_rows, sampleDb_distinct.
  - apply sample_list, sampleDb_distinct.
Defined.

(** ** Groups of a step with an interval *)

Lemma timed_run E d D c fuel n : keeps (about (timed d D c)) (run E fuel n).
Proof. apply keeps_run; [apply timed_tick|]. intros b []. by split. Qed.

(** A step with a flush interval never evicts a group: a flush sets the next deadline even when it
    empties the buffer, and a group with a deadline is not idle.  So every group the scheduler ever had
    is still there, and once it has one it never stops by itself. *)
Theorem interval_groups_never_evicted (E : env) (fuel n1 n2 : nat) (t ms : Z) (r : batchResource)
    (tr : list event) :
  br_BatchMaxInterval r = Some ms →
  let w1 := (run E fuel n1 (World (newBatchScheduler t r) 0 tr)).2 in
  let w2 := (run E fuel n2 w1).2 in
  dom (b_groups (w_b w1)) ⊆ dom (b_groups (w_b w2)) ∧
  (b_groups (w_b w1) ≠ ∅ → b_cancelled (w_b w2) = b_cancelled (w_b w1)).
Proof.
  intros Hms w1 w2. set (d := ms * 1000000).
  assert (about (timed d ∅ false) w1) as H1.
  { apply timed_run. split; cbn; [by rewrite Hms|by intros k g; rewrite lookup_empty|set_solver|done]. }
  assert (about (timed d (dom (b_groups (w_b w1))) (b_cancelled (w_b w1))) w2) as [_ _ Hd Hc].
  { apply timed_run. destruct H1 as [Hi Hg _ _]. by split. }
  split; [done|]. intros Hne. apply Hc. intros He. by apply Hne, dom_empty_iff_L.
Qed.

Lemma interval_groups_never_evicted_witness :
  let w1 := (run sampleWorld 5 1 sampleStart).2 in
  let w2 := (run sampleWorld 5 2 w1).2 in
  b_groups (w_b w1) ≠ ∅ ∧
  dom (b_groups (w_b w1)) ⊆ dom (b_groups (w_b w2)) ∧
  (b_groups (w_b w1) ≠ ∅ → b_cancelled (w_b w2) = b_cancelled (w_b w1)).
Proof.
  split.
  - intros He. assert (b_groups (w_b (run sampleWorld 5 1 sampleStart).2) !! "k" = None) as Hn by by rewrite He.
    vm_compute in Hn. discriminate Hn.
  - apply (interval_groups_never_evicted sampleWorld 5 1 2 0 1000 (BatchResource 7 "k" 2 (Some 1000) None) []).
    reflexivity.
Defined.

(** ** What a computation logs *)

(** Every event a computation adds to the trace is one of [P]. *)
Definition logs {A} (P : event → Prop) (m : M A) : Prop :=
  ∀ w, ∃ t, w_trace (m w).2 = w_trace w ++ t ∧ Forall P t.

Section logs.
Context (P : event → Prop).

Lemma logs_silent {A} (m : M A) : (∀ w, w_trace (m w).2 = w_trace w) → logs P m.
Proof. intros Hm w. exists []. rewrite Hm, app_nil_r. by split. Qed.

Lemma logs_emit e : P e → logs P (emit e).
Proof. intros He w. exists [e]. by repeat constructor. Qed.

Lemma logs_bind {A B} (m : M A) (k : A → M B) : logs P m → (∀ a, logs P (k a)) → logs P (bind m k).
Proof.
  intros Hm Hk w. destruct (Hm w) as (t & Ht & HP). unfold bind. destruct (m w) as [[a| | |] w']; [|by exists t..].
  destruct (Hk a w') as (t' & Ht' & HP'). exists (t ++ t'). cbn in Ht. rewrite Ht', Ht, app_assoc. split; [done|].
  by apply Forall_app.
Qed.

Lemma logs_mapM {A B} (f : A → M B) l : (∀ x, logs P (f x)) → logs P (mapM f l).
Proof.
  intros Hf. induction l as [|x l IH]; [by apply logs_silent|]. apply logs_bind; [done|]. intros y.
  apply logs_bind; [done|]. intros ys. by apply logs_silent.
Qed.

Lemma logs_foldM {A B} (f : B → A → M B) l : (∀ acc x, logs P (f acc x)) → ∀ acc, logs P (foldM f acc l).
Proof.
  intros Hf. induction l as [|x l IH]; intros acc; [by apply logs_silent|]. apply logs_bind; [done|]. intros a.
  apply IH.
Qed.

End logs.

Ltac logged :=
  repeat first
    [ apply logs_emit; exact I
    | apply logs_silent; reflexivity
    | apply logs_bind; [|intros ?]
    | apply logs_mapM; intros ?
    | match goal with
      | |- logs _ (match ?x with _ => _ end) => destruct x
      | |- logs _ (when ?x _) => destruct x
      end ].

(** Neither an ack nor a result that reaches a worker. *)
Definition unreported (e : event) : Prop :=
  match e with Acked _ | EmitAssigned _ => False | _ => True end.

Lemma dispatchQueue_logs E key reason qs acc q : logs unreported (dispatchQueue E key reason qs acc q).
Proof.
  unfold dispatchQueue, commitBatch, requeueGroup, nack, assignQueueItems, atMaxRuns, emitWaitingEvents,
    waitingResult, resetFlushDeadline. logged.
Qed.

(** A dispatch that fails reports nothing: no slot is acked and no assignment is emitted, also for the
    queues whose batch was already committed. *)
Theorem failed_dispatch_reports_nothing (E : env) (key : string) (items : list V1BatchedQueueItem)
    (reason : BatchFlushReason) (w w' : world) :
  assignAndDispatch E key items reason w = (Failed, w') →
  ∃ t, w_trace w' = w_trace w ++ t ∧ Forall unreported t.
Proof.
  intros Hd. destruct items as [|i items]; [done|]. unfold assignAndDispatch in Hd.
  unfold bind at 1, ask in Hd. unfold bind at 1 in Hd. set (w1 := World _ _ _) in Hd.
  match type of Hd with (match foldM ?f ?a ?l w1 with _ => _ end) = _ =>
    destruct (logs_foldM unreported f l (λ acc x, dispatchQueue_logs _ _ _ _ acc x) a w1) as (t & Ht & HP);
    destruct (foldM f a l w1) as [[acc| | |] w2]; try done
  end.
  - unfold when, bind, emit, ret in Hd. destruct (negb _), (d_assigned acc); done.
  - injection Hd as <-. by exists t.
Qed.

(** The first queue commits, the transaction of the second fails. *)
Definition sampleBroken : env := sampleEnv sampleDb (λ n, (n <? 8)%nat) slotFor.

Lemma failed_dispatch_reports_nothing_witness :
  let w' := (assignAndDispatch sampleBroken "k" (take 2 sampleDb) BatchSizeReached sampleBuffered).2 in
  w_trace w' = [Assigned 3; Committed [1] [1]; Assigned 8; Nacked [8]] ∧
  ∃ t, w_trace w' = w_trace sampleBuffered ++ t ∧ Forall unreported t.
Proof.
  split; [vm_compute; reflexivity|].
  apply (failed_dispatch_reports_nothing sampleBroken "k" (take 2 sampleDb) BatchSizeReached sampleBuffered).
  vm_compute. reflexivity.
Defined.

(** ** The loops of a tick *)

(** No step of the computation runs out of fuel. *)
Definition ends {A} (m : M A) : Prop := ∀ w, (m w).1 ≠ OutOfFuel.

Lemma ends_bind {A B} (m : M A) (k : A → M B) : ends m → (∀ a, ends (k a)) → ends (bind m k).
Proof.
  intros Hm Hk w. specialize (Hm w). unfold bind. destruct (m w) as [[a| | |] w']; [|done..]. apply Hk.
Qed.

Lemma ends_mapM {A B} (f : A → M B) l : (∀ x, ends (f x)) → ends (mapM f l).
Proof.
  intros Hf. induction l as [|x l IH]; [by intros w|]. apply ends_bind; [done|]. intros y.
  apply ends_bind; [done|]. by intros ys w.
Qed.

Lemma ends_foldM {A B} (f : B → A → M B) l : (∀ acc x, ends (f acc x)) → ∀ acc, ends (foldM f acc l).
Proof.
  intros Hf. induction l as [|x l IH]; intros acc; [by intros w|]. apply ends_bind; [done|]. intros a. apply IH.
Qed.

Lemma ends_lift {A} (r : result A) : ends (lift r).
Proof. intros w. by destruct r. Qed.

Ltac ending :=
  repeat first
    [ apply ends_lift
    | solve [intros ?; discriminate]
    | apply ends_bind; [|intros ?]
    | apply ends_mapM; intros ?
    | apply ends_foldM; intros ? ?
    | match goal with
      | |- ends (match ?x with _ => _ end) => destruct x
      | |- ends (when ?x _) => destruct x
      end ].

Lemma flush_ends E key count reason : ends (flush E key count reason).
Proof.
  unfold flush, hydrateItems, assignAndDispatch, dispatchQueue, commitBatch, requeueGroup, nack, assignQueueItems,
    atMaxRuns, emitWaitingEvents, waitingResult, resetFlushDeadline, touch, now. ending.
Qed.

(** How many items the group of a key holds. *)
Definition buffered (key : string) (w : world) : nat :=
  length (default [] (g_buffer <$> b_groups (w_b w) !! key)).

Lemma groupOf_buffered key w : ∃ g, groupOf key w = (Done g, w) ∧ length (g_buffer g) = buffered key w.
Proof. eexists. split; [done|]. unfold buffered. by destruct (b_groups (w_b w) !! key). Qed.

(** A round of the loop. *)
Lemma sizeLoop_round E fuel key w :
  sizeLoop E (S fuel) key w =
  if bool_decide (0 < b_batchSize (w_b w)) && bool_decide (b_batchSize (w_b w) ≤ Z.of_nat (buffered key w)) then
    match flush E key (b_batchSize (w_b w)) BatchSizeReached w with
    | (Done _, w') => if decide (buffered key w ≤ buffered key w')%nat then (Done tt, w')
                      else sizeLoop E fuel key w'
    | r => r
    end
  else (Done tt, w).
Proof.
  cbn [sizeLoop]. unfold bind at 1, get at 1, bind at 1. destruct (groupOf_buffered key w) as (g & -> & ->).
  destruct (_ && _); [|done]. unfold bind at 1.
  destruct (flush _ _ _ _ w) as [[[]| | |] w']; [|done..]. unfold bind at 1.
  destruct (groupOf_buffered key w') as (g' & -> & ->). by destruct (decide _).
Qed.

Lemma sizeLoop_ends E key fuel fuel' w :
  (buffered key w < fuel)%nat → (buffered key w < fuel')%nat →
  (sizeLoop E fuel key w).1 ≠ OutOfFuel ∧ sizeLoop E fuel key w = sizeLoop E fuel' key w.
Proof.
  revert fuel' w. induction fuel as [|fuel IH]; intros [|fuel'] w H1 H2; [lia..|]. rewrite !sizeLoop_round.
  destruct (_ && _); [|done].
  pose proof (flush_ends E key (b_batchSize (w_b w)) BatchSizeReached w) as Hf.
  destruct (flush _ _ _ _ w) as [[[]| | |] w']; [|done..]. destruct (decide _); [done|]. apply IH; lia.
Qed.

(** The loop that flushes full batches ends: each round but the last shortens the buffer, so one round
    more than the items it holds is enough, whatever the database and the run loop answer; more rounds
    change nothing. *)
Theorem size_flushes_terminate (E : env) (key : string) (w : world) :
  (sizeLoop E (S (buffered key w)) key w).1 ≠ OutOfFuel ∧
  ∀ fuel, (buffered key w < fuel)%nat → sizeLoop E fuel key w = sizeLoop E (S (buffered key w)) key w.
Proof.
  split; [apply (sizeLoop_ends E key _ (S (buffered key w))); lia|]. intros fuel Hf. apply sizeLoop_ends; lia.
Qed.

Lemma size_flushes_terminate_witness :
  buffered "k" sampleBuffered = 3%nat ∧ (sizeLoop sampleWaiting 4 "k" sampleBuffered).1 ≠ OutOfFuel.
Proof.
  split; [reflexivity|]. exact (proj1 (size_flushes_terminate sampleWaiting "k" sampleBuffered)).
Defined.

(** ** The memory limit *)

Definition payloads (l : list bufferedItem) : Z := foldr Z.add 0 (bi_PayloadSize <$> l).

Lemma payloads_perm l l' : l ≡ₚ l' → payloads l = payloads l'.
Proof. induction 1; cbn in *; unfold payloads in *; cbn in *; lia. Qed.

(** A payload size of a row: adding it to a sum within the limit does not wrap. *)
Definition payload_ok (i : bufferedItem) : Prop := 0 ≤ bi_PayloadSize i < 2 ^ 31 - maxBufferedPayloadBytes.

Lemma payloads_nonneg l : Forall payload_ok l → 0 ≤ payloads l.
Proof. induction 1 as [|x l [Hx _] _ IH]; unfold payloads in *; cbn in *; lia. Qed.

Lemma memoryLimit_spec l i total :
  Forall payload_ok l → 0 ≤ total ≤ maxBufferedPayloadBytes →
  match memoryLimit i total l with
  | None => total + payloads l ≤ maxBufferedPayloadBytes
  | Some c => maxBufferedPayloadBytes < total + payloads l ∧
      ∃ k, (k < length l)%nat ∧ c = (if decide (i + k = 0) then 1 else i + k)%nat ∧
        total + payloads (take k l) ≤ maxBufferedPayloadBytes < total + payloads (take (S k) l)
  end.
Proof.
  intros Hl. revert i total. induction Hl as [|x l Hx Hl IH]; intros i total Ht; cbn [memoryLimit].
  { unfold payloads. cbn. lia. }
  pose proof (payloads_nonneg l Hl) as Hn. destruct Hx as [Hx1 Hx2].
  assert (payloads (x :: l) = bi_PayloadSize x + payloads l) as -> by done.
  rewrite to_int32_small by lia. case_bool_decide as Hover.
  - split; [lia|]. exists 0%nat. rewrite Nat.add_0_r.
    rewrite firstn_cons, !take_0. unfold payloads. cbn [fmap list_fmap foldr length].
    split_and!; [lia|by destruct i|lia..].
  - specialize (IH (S i) (total + bi_PayloadSize x)). destruct (memoryLimit _ _ l) as [c|].
    + destruct IH as (H1 & k & H3 & H4 & H5); [lia|]. split; [lia|].
      exists (S k). cbn [length]. split; [lia|]. replace (i + S k)%nat with (S i + k)%nat by lia.
      split; [done|]. cbn [take]. unfold payloads in *. cbn [fmap list_fmap foldr] in *. lia.
    + enough (total + bi_PayloadSize x + payloads l ≤ maxBufferedPayloadBytes) by lia. apply IH; lia.
Qed.

(** A flush for memory is due exactly when the payloads of the buffer exceed the limit, and it takes
    the longest prefix within the limit, or the first item when that one alone exceeds it. *)
Theorem memory_flush_exact (g : batchGroup) :
  Forall payload_ok (g_buffer g) →
  match shouldMemoryLimitFlush g with
  | None => payloads (g_buffer g) ≤ maxBufferedPayloadBytes
  | Some c =>
      maxBufferedPayloadBytes < payloads (g_buffer g) ∧ (0 < c ≤ length (g_buffer g))%nat ∧
      (payloads (take c (g_buffer g)) ≤ maxBufferedPayloadBytes < payloads (take (S c) (g_buffer g)) ∨
       c = 1%nat ∧ maxBufferedPayloadBytes < payloads (take 1 (g_buffer g)))
  end.
Proof.
  intros Hl. pose proof (memoryLimit_spec (g_buffer g) 0 0 Hl ltac:(done)) as H.
  unfold shouldMemoryLimitFlush. destruct (memoryLimit 0 0 _) as [c|]; [|done].
  destruct H as (H1 & k & Hk & -> & H2). rewrite !Z.add_0_l in *. rewrite Nat.add_0_l. split; [done|].
  destruct k as [|k]; [rewrite decide_True by done|rewrite decide_False by done]; (split; [lia|]).
  - right. split; [done|lia].
  - by left.
Qed.

(** Two items of three megabytes. *)
Definition sampleLargeDb : list V1BatchedQueueItem :=
  [sampleItem 1 "q1" "k" 3000000; sampleItem 2 "q2" "k" 3000000].
Definition sampleLargeGroup : batchGroup :=
  BatchGroup (Some 0) None None "k" (toBufferedItem <$> sampleLargeDb).

Lemma sampleLarge_ok : Forall payload_ok (g_buffer sampleLargeGroup).
Proof. repeat constructor; unfold maxBufferedPayloadBytes; cbn; lia. Qed.

Lemma memory_flush_exact_witness :
  shouldMemoryLimitFlush sampleLargeGroup = Some 1%nat ∧
  maxBufferedPayloadBytes < payloads (g_buffer sampleLargeGroup).
Proof.
  split; [reflexivity|]. exact (proj1 (memory_flush_exact sampleLargeGroup sampleLarge_ok)).
Defined.

(** ** Flushes without a slot *)

(** The computation completes. *)
Definition runs {A} (m : M A) : Prop := ∀ w, ∃ a, (m w).1 = Done a.

Lemma runs_bind {A B} (m : M A) (k : A → M B) : runs m → (∀ a, runs (k a)) → runs (bind m k).
Proof.
  intros Hm Hk w. destruct (Hm w) as [a Ha]. unfold bind. destruct (m w) as [o w']. cbn in Ha. subst o. apply Hk.
Qed.

Lemma runs_mapM {A B} (f : A → M B) l : (∀ x, runs (f x)) → runs (mapM f l).
Proof.
  intros Hf. induction l as [|x l IH]; [by intros w; eexists|]. apply runs_bind; [done|]. intros y.
  apply runs_bind; [done|]. intros ys w. by eexists.
Qed.

Lemma wp_runs {A B} (m : M A) (k : A → M B) Q w :
  runs m → (∀ a w', wp (k a) Q w') → wp (bind m k) Q w.
Proof.
  intros Hm Hk. apply wp_bind. unfold wp at 1. destruct (Hm w) as [a Ha]. rewrite Ha. apply Hk.
Qed.

Ltac running :=
  repeat first
    [ solve [intros ?; eexists; reflexivity]
    | apply runs_bind; [|intros ?]
    | apply runs_mapM; intros ?
    | match goal with |- runs (match ?x with _ => _ end) => destruct x end ].

(** No slot is free, and the database holds the rows [db]. *)
Record starved (E : env) (db : gmap Z V1BatchedQueueItem) : Prop := {
  st_slots : ∀ n qi l, ∃ res, e_assign E n qi l = Some res ∧ ar_succeeded res = false;
  st_labels : ∀ n s, is_Some (e_labels E n s);
  st_rows : ∀ n ids, NoDup ids → ∃ rows, e_byIds E n ids = Some rows ∧ rows ≡ₚ omap (λ i, db !! i) ids;
}.

Section starved.
Context (E : env) (db : gmap Z V1BatchedQueueItem) (Hst : starved E db) (Hrange : range_ok E).

Lemma runs_emitWaiting key items : runs (emitWaitingEvents E key items).
Proof. unfold emitWaitingEvents, waitingResult. running. Qed.
Lemma runs_resetFlushDeadline key : runs (resetFlushDeadline E key).
Proof. unfold resetFlushDeadline. running. Qed.

(** Every queue is handed back. *)
Lemma starved_queue key reason qs acc q w :
  wp (dispatchQueue E key reason qs acc q)
    (λ o _, o = Done (Dispatch (d_remaining acc ++ default [] (qs !! q)) (d_assigned acc) (d_ackIds acc))) w.
Proof.
  unfold dispatchQueue. destruct (default [] (qs !! q)) as [|first rest].
  { apply wp_ret. rewrite app_nil_r. by destruct acc. }
  apply wp_bind, wp_get. cbn [andThen]. apply wp_bind, wp_anyGroup. intros g. cbn [andThen].
  apply wp_bind, wp_ask. cbn [andThen]. destruct (st_labels _ _ Hst (w_tick w) (b_stepId (w_b w))) as [labels ->].
  apply wp_bind. unfold wp at 1. cbn [of_reply lift fst snd andThen].
  apply wp_bind. unfold assignQueueItems. apply wp_bind, wp_ask. cbn [andThen].
  match goal with |- context [e_assign E ?n ?qi ?l] => destruct (st_slots _ _ Hst n qi l) as (res & -> & Hno) end.
  apply wp_bind. unfold wp at 1. cbn [of_reply lift fst snd andThen]. rewrite Hno. apply wp_ret. cbn [andThen].
  unfold requeueGroup. apply wp_bind, wp_ret. cbn [andThen].
  apply wp_runs; [apply runs_emitWaiting|]. intros _ w1. apply wp_runs; [apply runs_resetFlushDeadline|]. intros _ w2.
  by apply wp_ret.
Qed.

Lemma starved_queues key reason qs queues acc w :
  wp (foldM (dispatchQueue E key reason qs) acc queues)
    (λ o _, o = Done (Dispatch (d_remaining acc ++ concat ((λ q, default [] (qs !! q)) <$> queues))
                        (d_assigned acc) (d_ackIds acc))) w.
Proof.
  revert acc w. induction queues as [|q queues IH]; intros acc w; cbn [foldM].
  { apply wp_ret. cbn. rewrite app_nil_r. by destruct acc. }
  apply wp_bind. eapply wp_mono; [apply starved_queue|]. intros o w1 ->. cbn [andThen].
  eapply wp_mono; [apply IH|]. intros o w2 ->. cbn. by rewrite app_assoc.
Qed.

Lemma starved_dispatch key items reason w :
  wp (assignAndDispatch E key items reason) (λ o _, ∃ remaining, o = Done remaining ∧ remaining ≡ₚ items) w.
Proof.
  destruct items as [|i items']; [by apply wp_ret; exists []|]. set (items := i :: items').
  unfold assignAndDispatch. fold items. apply wp_bind, wp_ask. cbn [andThen].
  apply wp_bind. eapply wp_mono; [apply starved_queues|]. intros o w1 ->. cbn [andThen d_ackIds d_assigned d_remaining].
  rewrite bool_decide_true by done. apply wp_bind, wp_ret. cbn [andThen]. apply wp_bind, wp_ret. cbn [andThen].
  apply wp_ret. eexists. split; [done|]. apply (groupBy_perm bq_Queue). apply Hrange.
Qed.

(** The group holds the items [buf], in some order. *)
Definition holds (key : string) (buf : list bufferedItem) (w : world) : Prop :=
  ∃ l, buffers (w_b w) !! key = Some l ∧ l ≡ₚ buf.

Context (key : string) (buf : list bufferedItem).
Context (Hbuf : ∀ i, i ∈ buf → toBufferedItem <$> db !! bi_ID i = Some i) (Hnd : NoDup (bi_ID <$> buf)).

Lemma stored_rows (refs : list bufferedItem) :
  (∀ i, i ∈ refs → i ∈ buf) → toBufferedItem <$> omap (λ i, db !! i) (bi_ID <$> refs) = refs.
Proof.
  induction refs as [|r refs IH]; intros Hin; [done|].
  specialize (Hbuf r (Hin r (list_elem_of_here _ _))). cbn.
  destruct (db !! bi_ID r) as [row|]; [|done]. cbn in *. injection Hbuf as Hrow. rewrite Hrow. f_equal.
  apply IH. intros i Hi. by apply Hin, list_elem_of_further.
Qed.

Lemma starved_flush count reason w :
  holds key buf w → buf ≠ [] → 0 < count →
  wp (flush E key count reason) (λ o w', o = Done tt ∧ holds key buf w') w.
Proof.
  intros (l & Hl & Hp) Hne Hc. destruct (group_of_buffers _ _ _ Hl) as (g & Hg & <-).
  assert (g_buffer g ≠ []) as Hgne by (intros He; rewrite He in Hp; by apply Permutation_nil_l in Hp as <-).
  set (n := Nat.min (Z.to_nat count) (length (g_buffer g))).
  assert (NoDup (bi_ID <$> take n (g_buffer g))) as Hndn.
  { eapply sublist_NoDup; [|apply fmap_sublist, sublist_take]. by rewrite Hp. }
  apply (wp_flush E key count reason w g); [done..| |]; fold n.
  { intros m w2 Hnone. destruct (st_rows _ _ Hst m _ Hndn) as (rows & Hr & _). congruence. }
  intros m rows w2 Hrows Ht2 Hb2. eapply wp_mono; [apply starved_dispatch|].
  intros o w3 (remaining & -> & Hrem) w4 _ Hb4. split; [done|]. eexists. split.
  { rewrite Hb4. apply lookup_insert_eq. }
  destruct (st_rows _ _ Hst m _ Hndn) as (rows' & Hr & Hperm).
  rewrite Hrows in Hr. injection Hr as <-. rewrite Hrem, Hperm, stored_rows, take_drop; [done|].
  intros i Hi. rewrite <- Hp. by eapply subseteq_take.
Qed.

(** The loop comes back to the same items in the buffer. *)
Lemma starved_memoryLoop fuel w :
  holds key buf w → Forall payload_ok buf → maxBufferedPayloadBytes < payloads buf →
  (memoryLoop E fuel key w).1 = OutOfFuel.
Proof.
  intros Hw Hok Hbig. revert w Hw. induction fuel as [|fuel IH]; intros w Hw; [done|]. cbn [memoryLoop].
  destruct Hw as (l & Hl & Hp). destruct (group_of_buffers _ _ _ Hl) as (g & Hg & <-).
  change (wp (g <- groupOf key ;;
    match shouldMemoryLimitFlush g with
    | None => ret tt
    | Some count => flush E key (Z.of_nat count) BufferMemorySizeReached ;;; memoryLoop E fuel key
    end) (λ o _, o = OutOfFuel) w).
  apply wp_bind, (wp_groupOf _ g); [done|]. cbn [andThen].
  assert (Forall payload_ok (g_buffer g)) as Hok' by by rewrite Hp.
  pose proof (memoryLimit_spec (g_buffer g) 0 0 Hok' ltac:(done)) as Hm. unfold shouldMemoryLimitFlush.
  rewrite (payloads_perm _ _ Hp) in Hm. destruct (memoryLimit 0 0 (g_buffer g)) as [c|]; [|lia].
  destruct Hm as (_ & k & Hk & Hcount & _).
  apply wp_bind. eapply wp_mono.
  - apply starved_flush; [by exists (g_buffer g)| |].
    + intros ->. unfold payloads, maxBufferedPayloadBytes in Hbig. cbn in Hbig. lia.
    + rewrite Hcount. case_decide; lia.
  - intros o w1 [-> Hw1]. cbn [andThen]. by apply IH.
Qed.

End starved.

(** The loop that flushes for memory has no guard: while no slot is free, every flush puts its items
    back, so once the payloads exceed the limit no number of rounds ends it. *)
Theorem memory_flush_spins (E : env) (db : gmap Z V1BatchedQueueItem) (key : string) (w : world) (g : batchGroup) :
  starved E db → range_ok E → b_groups (w_b w) !! key = Some g →
  (∀ i, i ∈ g_buffer g → toBufferedItem <$> db !! bi_ID i = Some i) → NoDup (getBufferedIds g) →
  Forall payload_ok (g_buffer g) → maxBufferedPayloadBytes < payloads (g_buffer g) →
  ∀ fuel, (memoryLoop E fuel key w).1 = OutOfFuel.
Proof.
  intros Hst Hr Hg Hdb Hnd Hok Hbig fuel.
  apply (starved_memoryLoop E db Hst Hr key (g_buffer g) Hdb Hnd); [|done|done].
  exists (g_buffer g). split; [|done]. unfold buffers. by rewrite lookup_fmap, Hg.
Qed.

Definition sampleStarved : env :=
  Env (λ n, Z.of_nat n) (λ _, false) (λ _ _ _, Some []) (λ _ ids, Some ids)
    (λ _ ids, Some (omap (λ i, (list_to_map ((λ r, (bq_ID r, r)) <$> sampleLargeDb) : gmap Z _) !! i) ids))
    (λ _, sampleStatements true) (λ _, (true, true)) (λ _ _, Some []) (λ n qi _, noSlot n qi)
    (λ _ _, Some 0) (λ _, "batch") (λ _ l, l) (λ _, true) (λ _, true).

Lemma memory_flush_spins_witness :
  shouldMemoryLimitFlush sampleLargeGroup = Some 1%nat ∧
  ∀ fuel, (memoryLoop sampleStarved fuel "k" (World (set_groups {["k" := sampleLargeGroup]} sampleNew) 0 [])).1
          = OutOfFuel.
Proof.
  split; [reflexivity|].
  apply (memory_flush_spins sampleStarved (list_to_map ((λ r, (bq_ID r, r)) <$> sampleLargeDb)) "k"
           (World (set_groups {["k" := sampleLargeGroup]} sampleNew) 0 []) sampleLargeGroup).
  - split; [by eexists|by eexists|by eexists].
  - by intros n l.
  - reflexivity.
  - intros i Hi. cbn in Hi. rewrite !elem_of_cons in Hi. destruct Hi as [->|[->|Hi]]; [reflexivity..|].
    by apply elem_of_nil in Hi.
  - repeat constructor; set_solver.
  - exact sampleLarge_ok.
  - reflexivity.
Defined.

End BatchProperties.
