(* ===== verification/LeaseRepo.v ===== *)
(** The lease repository (src/pkg/repository/scheduler_lease.go) and the statements of the Lease table
    (src/pkg/repository/sqlcv1/lease.sql).  A lease is a row of a resource with a time it expires at;
    taking over an expired lease updates the row in place, so its id stays the same.  Transactions
    are given as what they reply; an error of the commit may leave the changes applied or not. *)

From S2P Require Import Prelude Workers QueueRepo Decide Strategy.
Import Workers.

Module LeaseRepo.

Open Scope Z_scope.

(** ** Data *)

Inductive LeaseKind := WORKER | QUEUE | CONCURRENCY_STRATEGY | TABLE_PARTITION_MAINTENANCE | BATCH.

#[global] Instance leaseKind_eq_dec : EqDecision LeaseKind.
Proof. solve_decision. Defined.
#[global] Instance leaseKind_countable : Countable LeaseKind.
Proof.
  refine (inj_countable'
    (λ k, match k with WORKER => 0 | QUEUE => 1 | CONCURRENCY_STRATEGY => 2 | TABLE_PARTITION_MAINTENANCE => 3
          | BATCH => 4 end)
    (λ n : Z, match n with 0 => WORKER | 1 => QUEUE | 2 => CONCURRENCY_STRATEGY
              | 3 => TABLE_PARTITION_MAINTENANCE | _ => BATCH end) _).
  by intros [].
Defined.

Record lease := Lease {
  l_ID : Z;
  l_ExpiresAt : Z;
  l_TenantId : uuid;
  l_ResourceId : string;
  l_Kind : LeaseKind;
}.

(** The unique index of the table. *)
Definition leaseKey : Type := uuid * LeaseKind * string.
Definition leaseKeyOf (l : lease) : leaseKey := (l_TenantId l, l_Kind l, l_ResourceId l).

(** The table and the sequence of its ids. *)
Record leaseTable := LeaseTable { t_rows : gmap leaseKey lease; t_nextId : Z }.

(** ** Statements *)

(** The default of the statement, 30 seconds in nanoseconds. *)
Definition leaseDuration : Z := 30 * 10 ^ 9.

(** The condition of the conflict clause. *)
Definition mayTake (now : Z) (existing : list Z) (row : lease) : bool :=
  bool_decide (l_ExpiresAt row < now) || bool_decide (l_ID row ∈ existing).

(** What a statement that inserts has done so far: the table, the returned rows and the keys it changed. *)
Record upserted := Upserted { u_table : leaseTable; u_out : list lease; u_affected : gset leaseKey }.

(** One proposed row; a statement may not change a row twice, and every proposal takes an id of the
    sequence. *)
Definition upsert (now : Z) (tenant : uuid) (kind : LeaseKind) (existing : list Z)
    (acc : option upserted) (resourceId : string) : option upserted :=
  u ← acc;
  let t := u_table u in
  let k : leaseKey := (tenant, kind, resourceId) in
  let write id :=
    let row := Lease id (now + leaseDuration) tenant resourceId kind in
    Upserted (LeaseTable (<[k := row]> (t_rows t)) (t_nextId t + 1)) (u_out u ++ [row]) ({[k]} ∪ u_affected u) in
  match t_rows t !! k with
  | None => Some (write (t_nextId t))
  | Some row =>
      if decide (k ∈ u_affected u) then None
      else if mayTake now existing row then Some (write (l_ID row))
      else Some (Upserted (LeaseTable (t_rows t) (t_nextId t + 1)) (u_out u) (u_affected u))
  end.

Definition acquireOrExtend (now : Z) (tenant : uuid) (kind : LeaseKind) (resourceIds : list string)
    (existing : list Z) (t : leaseTable) : option (list lease * leaseTable) :=
  (λ u, (u_out u, u_table u)) <$>
    foldl (upsert now tenant kind existing) (Some (Upserted t [] ∅)) resourceIds.

Definition deleteLeases (ids : list Z) (t : leaseTable) : leaseTable :=
  LeaseTable (filter (λ kv, l_ID kv.2 ∉ ids) (t_rows t)) (t_nextId t).

(** ** Transactions *)

Record txReply := TxReply {
  tx_begin : bool;
  tx_statement : bool;
  tx_commit : bool;
  tx_applied : bool;
}.

Definition transact {A} (r : txReply) (body : leaseTable → option (A * leaseTable)) (t : leaseTable) :
    result A * leaseTable :=
  if tx_begin r && tx_statement r then
    match body t with
    | None => (Err, t)
    | Some (a, t') =>
        if tx_commit r then (Ok a, t') else (Err, if tx_applied r then t' else t)
    end
  else (Err, t).

Definition AcquireOrExtendLeases (r : txReply) (now : Z) (tenant : uuid) (kind : LeaseKind)
    (resourceIds : list string) (existingLeases : list lease) (t : leaseTable) :
    result (list lease) * leaseTable :=
  transact r (acquireOrExtend now tenant kind resourceIds (l_ID <$> existingLeases)) t.

Definition ReleaseLeases (r : txReply) (leases : list lease) (t : leaseTable) : result unit * leaseTable :=
  transact r (λ t, Some (tt, deleteLeases (l_ID <$> leases) t)) t.

(** ** Reads *)

Record ListActiveWorkersResult := ActiveWorker {
  aw_ID : uuid;
  aw_Name : string;
  aw_Labels : list workerLabel;
  aw_TotalSlotsByType : gmap string Z;
}.

(** A row per worker and slot type. *)
Record activeWorkerRow := ActiveWorkerRow {
  awr_ID : uuid;
  awr_Name : string;
  awr_SlotType : string;
  awr_MaxUnits : Z;
}.

Definition addUnits (slotType : string) (units : Z) (m : gmap string Z) : gmap string Z :=
  <[slotType := default 0 (m !! slotType) + units]> m.

(** The workers by id, and their ids in the order they first appear. *)
Definition addWorkerRow (st : gmap uuid ListActiveWorkersResult * list uuid) (row : activeWorkerRow) :
    gmap uuid ListActiveWorkersResult * list uuid :=
  let '(workers, ids) := st in
  let '(worker, ids) :=
    match workers !! awr_ID row with
    | Some worker => (worker, ids)
    | None => (ActiveWorker (awr_ID row) (awr_Name row) [] ∅, ids ++ [awr_ID row])
    end in
  (<[awr_ID row := ActiveWorker (aw_ID worker) (aw_Name worker) (aw_Labels worker)
                     (addUnits (awr_SlotType row) (awr_MaxUnits row) (aw_TotalSlotsByType worker))]> workers, ids).

Definition addLabel (workers : gmap uuid ListActiveWorkersResult) (label : uuid * workerLabel) :
    gmap uuid ListActiveWorkersResult :=
  match workers !! label.1 with
  | Some w => <[label.1 := ActiveWorker (aw_ID w) (aw_Name w) (aw_Labels w ++ [label.2]) (aw_TotalSlotsByType w)]> workers
  | None => workers
  end.

(** The labels are a reply to the ids; no rows is an empty list. *)
Definition ListActiveWorkers (rows : option (list activeWorkerRow))
    (labels : list uuid → option (list (uuid * workerLabel))) : result (list ListActiveWorkersResult) :=
  rows ← of_reply rows;
  let '(workers, ids) := foldl addWorkerRow (∅, []) rows in
  labels ← of_reply (labels ids);
  let workers := foldl addLabel workers labels in
  Ok (omap (λ id, workers !! id) ids).

Definition addSlotConfig (m : gmap uuid (gmap string Z)) (config : uuid * string * Z) : gmap uuid (gmap string Z) :=
  let '(worker, slotType, units) := config in
  <[worker := addUnits slotType units (default ∅ (m !! worker))]> m.

Definition listTotalSlotsForWorkers (configs : option (list (uuid * string * Z))) :
    result (gmap uuid (gmap string Z)) :=
  configs ← of_reply configs; Ok (foldl addSlotConfig ∅ configs).

(** A worker that is not active has no row; [Ok None] is that error. *)
Definition GetActiveWorker (worker : result (option (uuid * string)))
    (labels : option (list (uuid * workerLabel))) (configs : option (list (uuid * string * Z))) :
    result (option ListActiveWorkersResult) :=
  worker ← worker;
  match worker with
  | None => Ok None
  | Some (id, name) =>
      labels ← of_reply labels;
      slots ← listTotalSlotsForWorkers configs;
      Ok (Some (ActiveWorker id name (filter (λ l, l.1 = id) labels).*2 (default ∅ (slots !! id))))
  end.

(** A strategy of the tenant, as the descriptor it shares with those of steps. *)
Record V1TenantConcurrency := TenantConcurrency {
  tc_id : Z;
  tc_tenantId : string;
  tc_strategy : Decide.V1ConcurrencyStrategy;
  tc_maxConcurrency : Z;
}.

Definition TenantConcurrencyDescriptor (tc : V1TenantConcurrency) : Strategy.V1StepConcurrency :=
  Strategy.StepConcurrency (tc_id tc) (tc_tenantId tc) (tc_strategy tc) (tc_maxConcurrency tc).

Definition ListConcurrencyStrategies (step : option (list Strategy.V1StepConcurrency))
    (tenant : option (list V1TenantConcurrency)) : result (list Strategy.V1StepConcurrency) :=
  step ← of_reply step; tenant ← of_reply tenant; Ok (step ++ (TenantConcurrencyDescriptor <$> tenant)).

(** A strategy that is not one of a step is one of the tenant; no rows is [Ok None]. *)
Definition GetConcurrencyStrategy (step : result (option Strategy.V1StepConcurrency))
    (tenant : result (option V1TenantConcurrency)) : result Strategy.V1StepConcurrency :=
  step ← step;
  match step with
  | Some s => Ok s
  | None => tenant ← tenant; tenant ← of_reply tenant; Ok (TenantConcurrencyDescriptor tenant)
  end.

End LeaseRepo.
