(* ===== verification/LeaseManager.v ===== *)
(** The lease manager of a tenant (src/pkg/scheduling/v1/lease_manager.go): it leases the tenant's
    workers, queues, concurrency strategies and batch steps from the database and announces what it
    holds on channels.  A cycle of one kind has two transactions, so it is a phase that acquires and
    a phase that releases.  The textual form of a UUID is a parameter. *)

From stdpp Require Import pretty.
From S2P Require Import Prelude Workers RateLimit Scheduler TryAssign QueueRepo Strategy BatchRepo BatchScheduler LeaseRepo.
Import Workers LeaseRepo.

Module LeaseManager.

Open Scope Z_scope.

Definition concurrencyLeasesChBuffer : nat := 1024.

Record notifierMsg (A : Type) := NotifierMsg { items : list A; isIncremental : bool }.
Arguments NotifierMsg {_}.
Arguments items {_}.
Arguments isIncremental {_}.

(** A pointer taken from a map is nil, here [None], when the key is missing. *)
Notation workersMsg := (notifierMsg (option ListActiveWorkersResult)).
Notation strategiesMsg := (notifierMsg (option Strategy.V1StepConcurrency)).
Notation batchRow := BatchScheduler.batchResource.

Record LeaseManager := MkLeaseManager {
  m_tenantId : uuid;
  m_workerLeases : list lease;
  m_queueLeases : list lease;
  m_concurrencyLeases : list lease;
  m_batchLeases : list lease;
  m_concurrencyLeasesCh : list strategiesMsg;
  m_cleanedUp : bool;
  m_closed : bool;
}.

Definition newLeaseManager (tenantId : uuid) : LeaseManager :=
  MkLeaseManager tenantId [] [] [] [] [] false false.

Definition leasesOf (k : LeaseKind) (m : LeaseManager) : list lease :=
  match k with
  | WORKER => m_workerLeases m
  | QUEUE => m_queueLeases m
  | CONCURRENCY_STRATEGY => m_concurrencyLeases m
  | BATCH => m_batchLeases m
  | TABLE_PARTITION_MAINTENANCE => []
  end.

Definition set_leases (k : LeaseKind) (ls : list lease) (m : LeaseManager) : LeaseManager :=
  MkLeaseManager (m_tenantId m)
    (if decide (k = WORKER) then ls else m_workerLeases m)
    (if decide (k = QUEUE) then ls else m_queueLeases m)
    (if decide (k = CONCURRENCY_STRATEGY) then ls else m_concurrencyLeases m)
    (if decide (k = BATCH) then ls else m_batchLeases m)
    (m_concurrencyLeasesCh m) (m_cleanedUp m) (m_closed m).

Definition set_ch (ch : list strategiesMsg) (m : LeaseManager) : LeaseManager :=
  MkLeaseManager (m_tenantId m) (m_workerLeases m) (m_queueLeases m) (m_concurrencyLeases m) (m_batchLeases m)
    ch (m_cleanedUp m) (m_closed m).
Definition set_cleanedUp (m : LeaseManager) : LeaseManager :=
  MkLeaseManager (m_tenantId m) (m_workerLeases m) (m_queueLeases m) (m_concurrencyLeases m) (m_batchLeases m)
    (m_concurrencyLeasesCh m) true (m_closed m).
Definition set_closed (m : LeaseManager) : LeaseManager :=
  MkLeaseManager (m_tenantId m) (m_workerLeases m) (m_queueLeases m) (m_concurrencyLeases m) (m_batchLeases m)
    (m_concurrencyLeasesCh m) (m_cleanedUp m) true.

(** Messages received from the channels without a buffer. *)
Inductive delivered :=
  | Workers (msg : workersMsg)
  | Queues (msg : notifierMsg string)
  | Batches (rows : list batchRow).

Record leaseWorld := LeaseWorld {
  lw_m : LeaseManager;
  lw_table : leaseTable;
  lw_delivered : list delivered;
}.

Definition with_m (f : LeaseManager → LeaseManager) (w : leaseWorld) : leaseWorld :=
  LeaseWorld (f (lw_m w)) (lw_table w) (lw_delivered w).
Definition with_table (t : leaseTable) (w : leaseWorld) : leaseWorld :=
  LeaseWorld (lw_m w) t (lw_delivered w).

(** ** Channels *)

(** A send that does not wait: it is received when a receiver is [ready], and a send on a closed channel
    panics, which is recovered. *)
Definition deliver (ready : bool) (d : delivered) (w : leaseWorld) : leaseWorld :=
  if ready && negb (m_closed (lw_m w))
  then LeaseWorld (lw_m w) (lw_table w) (lw_delivered w ++ [d])
  else w.

Definition sendWorkerIds (ready : bool) (workers : list (option ListActiveWorkersResult)) (incremental : bool)
    (w : leaseWorld) : leaseWorld :=
  deliver ready (Workers (NotifierMsg workers incremental)) w.

Definition sendQueues (ready : bool) (queues : list string) (incremental : bool) (w : leaseWorld) : leaseWorld :=
  deliver ready (Queues (NotifierMsg queues incremental)) w.

Definition drainConcurrencyLeasesCh (m : LeaseManager) : LeaseManager := set_ch [] m.

(** The channel has a buffer; a full refresh supersedes what is queued. *)
Definition sendConcurrencyLeases (strategies : list (option Strategy.V1StepConcurrency)) (incremental : bool)
    (m : LeaseManager) : LeaseManager :=
  let m := if incremental then m else drainConcurrencyLeasesCh m in
  if m_closed m then m
  else if decide (length (m_concurrencyLeasesCh m) < concurrencyLeasesChBuffer)%nat
  then set_ch (m_concurrencyLeasesCh m ++ [NotifierMsg strategies incremental]) m
  else m.

Definition sendBatches (ready : bool) (rows : list batchRow) (w : leaseWorld) : leaseWorld :=
  if m_cleanedUp (lw_m w) then w else deliver ready (Batches rows) w.

(** ** Acquiring *)

Definition KeyBy {A} (key : A → string) (xs : list A) : gmap string A :=
  foldl (λ m x, <[key x := x]> m) ∅ xs.

(** The leases to extend, in the order of the resources, and those to release. *)
Definition takeLease (acc : list lease * gmap string lease) (id : string) : list lease * gmap string lease :=
  match acc.2 !! id with
  | Some l => (acc.1 ++ [l], delete id acc.2)
  | None => acc
  end.

Definition planLeases (current : list lease) (resourceIds : list string) : list lease * list lease :=
  let '(extend, rest) := foldl takeLease ([], KeyBy l_ResourceId current) resourceIds in
  (extend, (map_to_list rest).*2).

(** The transaction of a cycle: the leases it acquired and those to release.  Without resources there is
    none, and the recorded leases stay, except those of batches. *)
Definition acquireResources (k : LeaseKind) (resourceIds : list string) (r : txReply) (now : Z) (w : leaseWorld) :
    result (list lease * list lease) * leaseWorld :=
  let '(extend, release) := planLeases (leasesOf k (lw_m w)) resourceIds in
  match resourceIds with
  | [] => (Ok ([], release), if decide (k = BATCH) then with_m (set_leases BATCH []) w else w)
  | _ =>
      let '(res, t) := AcquireOrExtendLeases r now (m_tenantId (lw_m w)) k resourceIds extend (lw_table w) in
      match res with
      | Ok ls => (Ok (ls, release), with_m (set_leases k ls) (with_table t w))
      | Err => (Err, with_table t w)
      | Panics => (Panics, with_table t w)
      end
  end.

Definition releaseRest (release : list lease) (r : txReply) (w : leaseWorld) : result unit * leaseWorld :=
  match release with
  | [] => (Ok tt, w)
  | _ => let '(res, t) := ReleaseLeases r release (lw_table w) in (res, with_table t w)
  end.

(** The two phases of a cycle; [None] is a cycle that does nothing. *)
Definition cycle (first : leaseWorld → result (option (list lease * list lease)) * leaseWorld) (r : txReply)
    (w : leaseWorld) : result unit * leaseWorld :=
  match first w with
  | (Ok (Some (_, release)), w) => releaseRest release r w
  | (Ok None, w) => (Ok tt, w)
  | (Err, w) => (Err, w)
  | (Panics, w) => (Panics, w)
  end.

Section manager.
Context (uuidString : uuid → string).

(** What the cycles share: the list of the resources, the transaction, and the announcement. *)
Definition acquirePhase {A} (k : LeaseKind) (guarded : bool) (listed : option (list A))
    (resourceIds : list A → list string) (announce : list A → list lease → leaseWorld → leaseWorld)
    (r : txReply) (now : Z) (w : leaseWorld) : result (option (list lease * list lease)) * leaseWorld :=
  if guarded && m_cleanedUp (lw_m w) then (Ok None, w)
  else
    match listed with
    | None => (Err, w)
    | Some xs =>
        match acquireResources k (resourceIds xs) r now w with
        | (Ok (ls, release), w) => (Ok (Some (ls, release)), announce xs ls w)
        | (Err, w) => (Err, w)
        | (Panics, w) => (Panics, w)
        end
    end.

Definition workerId (w : ListActiveWorkersResult) : string := uuidString (aw_ID w).
Definition strategyId (s : Strategy.V1StepConcurrency) : string := pretty (Strategy.sc_id s).

Definition acquireWorkers (ready : bool) (listed : option (list ListActiveWorkersResult)) :
    txReply → Z → leaseWorld → result (option (list lease * list lease)) * leaseWorld :=
  acquirePhase WORKER true listed (fmap workerId)
    (λ xs ls, sendWorkerIds ready ((λ l, KeyBy workerId xs !! l_ResourceId l) <$> ls) false).

Definition acquireQueues (ready : bool) (listed : option (list string)) :
    txReply → Z → leaseWorld → result (option (list lease * list lease)) * leaseWorld :=
  acquirePhase QUEUE true listed id (λ _ ls, sendQueues ready (l_ResourceId <$> ls) false).

Definition acquireStrategies (listed : option (list Strategy.V1StepConcurrency)) :
    txReply → Z → leaseWorld → result (option (list lease * list lease)) * leaseWorld :=
  acquirePhase CONCURRENCY_STRATEGY true listed (fmap strategyId)
    (λ xs ls, with_m (sendConcurrencyLeases ((λ l, KeyBy strategyId xs !! l_ResourceId l) <$> ls) false)).

(** The rows of the steps that have a batch key, by step, and the steps in the order they first appear. *)
Definition addBatchRow (st : gmap string (list batchRow) * list string) (row : batchRow) :
    gmap string (list batchRow) * list string :=
  let '(rows, ids) := st in
  if decide (BatchScheduler.br_BatchKey row = ""%string) then st
  else
    let id := uuidString (BatchScheduler.br_StepID row) in
    (<[id := default [] (rows !! id) ++ [row]]> rows,
     match rows !! id with None => ids ++ [id] | Some _ => ids end).

Definition batchRows (xs : list batchRow) : gmap string (list batchRow) * list string :=
  foldl addBatchRow (∅, []) xs.

Definition acquireBatches (ready : bool) (listed : option (list batchRow)) :
    txReply → Z → leaseWorld → result (option (list lease * list lease)) * leaseWorld :=
  acquirePhase BATCH false listed (λ xs, (batchRows xs).2)
    (λ xs ls, sendBatches ready (concat ((λ l, default [] ((batchRows xs).1 !! l_ResourceId l)) <$> ls))).

Definition acquireWorkerLeases ready listed (acquire release : txReply) (now : Z) : leaseWorld → result unit * leaseWorld :=
  cycle (acquireWorkers ready listed acquire now) release.
Definition acquireQueueLeases ready listed (acquire release : txReply) (now : Z) : leaseWorld → result unit * leaseWorld :=
  cycle (acquireQueues ready listed acquire now) release.
Definition acquireConcurrencyLeases listed (acquire release : txReply) (now : Z) : leaseWorld → result unit * leaseWorld :=
  cycle (acquireStrategies listed acquire now) release.
Definition acquireBatchLeases ready listed (acquire release : txReply) (now : Z) : leaseWorld → result unit * leaseWorld :=
  cycle (acquireBatches ready listed acquire now) release.

(** ** Notifications *)

(** A lease for one new resource, unless there is one or a cycle holds the lock; the leases gained.  [found] is
    the row of the resource, [Ok None] when there is none. *)
Definition notifyResource {A} (k : LeaseKind) (unlocked : bool) (id : string) (found : result (option A))
    (announce : A → leaseWorld → leaseWorld) (r : txReply) (now : Z) (w : leaseWorld) :
    result (list lease) * leaseWorld :=
  if m_cleanedUp (lw_m w) || negb unlocked || bool_decide (id ∈ l_ResourceId <$> leasesOf k (lw_m w))
  then (Ok [], w)
  else
    match found with
    | Err => (Err, w)
    | Panics => (Panics, w)
    | Ok None => (Ok [], w)
    | Ok (Some x) =>
        let '(res, t) := AcquireOrExtendLeases r now (m_tenantId (lw_m w)) k [id] [] (lw_table w) in
        let w := with_table t w in
        match res with
        | Err => (Err, w)
        | Panics => (Panics, w)
        | Ok [] => (Ok [], w)
        | Ok ((l :: _) as ls) =>
            if decide (l_ResourceId l = ""%string) then (Ok [], w)
            else (Ok ls, announce x (with_m (set_leases k (leasesOf k (lw_m w) ++ ls)) w))
        end
    end.

Definition notifyNewWorker (ready unlocked : bool) (id : uuid) (found : result (option ListActiveWorkersResult)) :
    txReply → Z → leaseWorld → result (list lease) * leaseWorld :=
  notifyResource WORKER unlocked (uuidString id) found (λ x, sendWorkerIds ready [Some x] true).

Definition notifyNewQueue (ready unlocked : bool) (queueName : string) :
    txReply → Z → leaseWorld → result (list lease) * leaseWorld :=
  notifyResource QUEUE unlocked queueName (Ok (Some queueName)) (λ q, sendQueues ready [q] true).

Definition notifyNewConcurrencyStrategy (unlocked : bool) (id : Z) (found : result Strategy.V1StepConcurrency) :
    txReply → Z → leaseWorld → result (list lease) * leaseWorld :=
  notifyResource CONCURRENCY_STRATEGY unlocked (pretty id) (s ← found; Ok (Some s))
    (λ s, with_m (sendConcurrencyLeases [Some s] true)).

End manager.

(** ** Cleanup *)

Definition releaseKind (w : leaseWorld) (kr : LeaseKind * txReply) : leaseWorld :=
  with_table (ReleaseLeases kr.2 (leasesOf kr.1 (lw_m w)) (lw_table w)).2 w.

(** The four releases run at the same time, on rows of different kinds; the channels are closed when all
    of them succeed. *)
Definition cleanup (r : LeaseKind → txReply) (w : leaseWorld) : result unit * leaseWorld :=
  if m_cleanedUp (lw_m w) then (Ok tt, w)
  else
    let w := with_m set_cleanedUp w in
    let kinds := [WORKER; QUEUE; CONCURRENCY_STRATEGY; BATCH] in
    let ok := forallb (λ k, tx_begin (r k) && tx_statement (r k) && tx_commit (r k)) kinds in
    let w := foldl releaseKind w ((λ k, (k, r k)) <$> kinds) in
    if ok then (Ok tt, with_m set_closed w) else (Err, w).

End LeaseManager.
