(* ===== verification/LeaseTheorems.v ===== *)
(** Lease managers of several schedulers on one table.  As long as every manager renews or releases its
    leases before they expire, no resource has two holders; a manager that is late shares a lease with
    the one that took it over, since taking over an expired lease does not change its id. *)

From stdpp Require Import pretty.
From S2P Require Import Prelude Workers RateLimit Scheduler TryAssign QueueRepo Strategy BatchRepo BatchScheduler LeaseRepo LeaseManager.
Import Workers LeaseRepo LeaseManager.

Module LeaseTheorems.

Open Scope Z_scope.

(** ** What the statement of a cycle does *)

(** The table after a part of the statement, compared with the table [t] it started from. *)
Record grown (now : Z) (tenant : uuid) (kind : LeaseKind) (existing : list Z) (t : leaseTable) (done : list string)
    (u : upserted) : Prop := {
  g_next : t_nextId t ≤ t_nextId (u_table u);
  g_affected : ∀ k : leaseKey, k ∈ u_affected u → ∃ r, r ∈ done ∧ k = (tenant, kind, r);
  g_other : ∀ k, k ∉ u_affected u → t_rows (u_table u) !! k = t_rows t !! k;
  g_written : ∀ k, k ∈ u_affected u → ∃ row, t_rows (u_table u) !! k = Some row ∧ row ∈ u_out u ∧
    leaseKeyOf row = k ∧ l_ExpiresAt row = now + leaseDuration ∧
    match t_rows t !! k with
    | None => t_nextId t ≤ l_ID row < t_nextId (u_table u)
    | Some old => l_ID row = l_ID old ∧ mayTake now existing old = true
    end;
  g_out : ∀ l, l ∈ u_out u → leaseKeyOf l ∈ u_affected u ∧ t_rows (u_table u) !! leaseKeyOf l = Some l;
  g_fresh : ∀ k1 k2 l1 l2, k1 ∈ u_affected u → k2 ∈ u_affected u → t_rows t !! k1 = None → t_rows t !! k2 = None →
    t_rows (u_table u) !! k1 = Some l1 → t_rows (u_table u) !! k2 = Some l2 → l_ID l1 = l_ID l2 → k1 = k2;
}.

Section statement.
Context (now : Z) (tenant : uuid) (kind : LeaseKind) (existing : list Z) (t : leaseTable).

Lemma grown_start : grown now tenant kind existing t [] (Upserted t [] ∅).
Proof. split; cbn; intros; try done; try set_solver; lia. Qed.

(** A proposal that writes the row of [k] with the id [id]. *)
Lemma grown_write done u r id :
  let k : leaseKey := (tenant, kind, r) in
  let row := Lease id (now + leaseDuration) tenant r kind in
  grown now tenant kind existing t done u → k ∉ u_affected u →
  match t_rows t !! k with
  | None => id = t_nextId (u_table u)
  | Some old => id = l_ID old ∧ mayTake now existing old = true
  end →
  grown now tenant kind existing t (done ++ [r])
    (Upserted (LeaseTable (<[k := row]> (t_rows (u_table u))) (t_nextId (u_table u) + 1)) (u_out u ++ [row])
       ({[k]} ∪ u_affected u)).
Proof.
  intros k row [Hn Ha Ho Hw Hout Hf] Hk Hid. split; cbn.
  - lia.
  - intros k'. rewrite elem_of_union, elem_of_singleton. intros [->|Hin].
    + exists r. split; [apply elem_of_app; right; by apply list_elem_of_singleton|done].
    + destruct (Ha _ Hin) as (x & Hx & ->). exists x. split; [apply elem_of_app; by left|done].
  - intros k' Hin. rewrite lookup_insert_ne by set_solver. apply Ho. set_solver.
  - intros k' Hin. destruct (decide (k = k')) as [<-|Hne].
    + exists row. rewrite lookup_insert_eq. split_and!; [done|apply elem_of_app; right; by apply list_elem_of_singleton|done..|].
      destruct (t_rows t !! k) as [old|]; [exact Hid|]. cbn. lia.
    + rewrite lookup_insert_ne by done. destruct (Hw k') as (row' & H1 & H2 & H3 & H4 & H5); [set_solver|].
      exists row'. split_and!; [done|apply elem_of_app; by left|done..|]. destruct (t_rows t !! k'); [done|lia].
  - intros l. rewrite elem_of_app, list_elem_of_singleton. intros [Hl| ->].
    + destruct (Hout l Hl) as [H1 H2]. rewrite lookup_insert_ne by (intros E; by rewrite E in Hk). set_solver.
    + rewrite lookup_insert_eq. set_solver.
  - intros k1 k2 l1 l2 Hk1 Hk2 HN1 HN2. rewrite !lookup_insert.
    assert (∀ k' l', k' ∈ u_affected u → t_rows t !! k' = None → t_rows (u_table u) !! k' = Some l' →
              l_ID l' < t_nextId (u_table u)) as Hlt.
    { intros k' l' Hin HN Hl'. destruct (Hw k' Hin) as (x & H1 & _ & _ & _ & H5). rewrite HN in H5. simplify_eq. lia. }
    case_decide as E1; case_decide as E2; [congruence| | |].
    + intros [= <-] Hl2 He. cbn in He. rewrite <- E1 in HN1. rewrite HN1 in Hid. pose proof (Hlt k2 l2). set_solver by lia.
    + intros Hl1 [= <-] He. cbn in He. rewrite <- E2 in HN2. rewrite HN2 in Hid. pose proof (Hlt k1 l1). set_solver by lia.
    + apply Hf; set_solver.
Qed.

Lemma grown_skip done u r :
  grown now tenant kind existing t done u →
  grown now tenant kind existing t (done ++ [r])
    (Upserted (LeaseTable (t_rows (u_table u)) (t_nextId (u_table u) + 1)) (u_out u) (u_affected u)).
Proof.
  intros [Hn Ha Ho Hw Hout Hf]. split; cbn; try done; [lia| |].
  - intros k Hin. destruct (Ha _ Hin) as (x & Hx & ->). exists x. split; [apply elem_of_app; by left|done].
  - intros k Hin. destruct (Hw k Hin) as (row & H1 & H2 & H3 & H4 & H5). exists row. split_and!; [done..|].
    destruct (t_rows t !! k); [done|lia].
Qed.

Lemma upsert_grown done u r u' :
  grown now tenant kind existing t done u → upsert now tenant kind existing (Some u) r = Some u' →
  grown now tenant kind existing t (done ++ [r]) u'.
Proof.
  intros Hg. unfold upsert. cbn. set (k := (tenant, kind, r) : leaseKey).
  destruct (t_rows (u_table u) !! k) as [row|] eqn:Hk.
  - destruct (decide (k ∈ u_affected u)) as [|Hna]; [done|]. pose proof (g_other _ _ _ _ _ _ _ Hg k Hna) as Ht.
    rewrite Hk in Ht. destruct (mayTake now existing row) eqn:Hm; intros [= <-]; [|by apply grown_skip].
    apply grown_write; [done..|]. fold k. by rewrite <- Ht.
  - intros [= <-]. assert (k ∉ u_affected u) as Hna.
    { intros Hin. destruct (g_written _ _ _ _ _ _ _ Hg k Hin) as (row & H1 & _). congruence. }
    apply grown_write; [done..|]. fold k. by rewrite <- (g_other _ _ _ _ _ _ _ Hg k Hna), Hk.
Qed.

Lemma upserts_grown rs done u u' :
  grown now tenant kind existing t done u → foldl (upsert now tenant kind existing) (Some u) rs = Some u' →
  grown now tenant kind existing t (done ++ rs) u'.
Proof.
  revert done u. induction rs as [|r rs IH]; intros done u Hg.
  - cbn. intros [= <-]. by rewrite app_nil_r.
  - cbn [foldl]. destruct (upsert now tenant kind existing (Some u) r) as [u1|] eqn:Hu.
    + intros Hrs. replace (done ++ r :: rs) with ((done ++ [r]) ++ rs) by by rewrite <- app_assoc.
      by eapply IH; [eapply upsert_grown|].
    + intros Hrs. exfalso. revert Hrs. clear. induction rs as [|r rs IH]; [done|exact IH].
Qed.

Lemma acquire_grown rs ls t' :
  acquireOrExtend now tenant kind rs existing t = Some (ls, t') →
  ∃ affected, grown now tenant kind existing t rs (Upserted t' ls affected).
Proof.
  unfold acquireOrExtend. destruct (foldl _ _ rs) as [u|] eqn:Hu; [|done]. cbn. intros [= <- <-].
  exists (u_affected u). pose proof (upserts_grown rs [] _ _ grown_start Hu) as H. by destruct u.
Qed.

End statement.

(** ** Several managers on one table *)

(** A manager, the leases it holds by its last cycles and notifications, and those that cycles in
    progress still have to release; a cycle holds the lock of its kind until then. *)
Record node := Node {
  n_m : LeaseManager;
  n_held : list lease;
  n_pending : gmap LeaseKind (list lease);
}.

Record system := System { s_now : Z; s_table : leaseTable; s_nodes : gmap nat node }.

Definition worldOf (n : node) (s : system) : leaseWorld := LeaseWorld (n_m n) (s_table s) [].
Definition setNode (i : nat) (n : node) (t : leaseTable) (s : system) : system :=
  System (s_now s) t (<[i := n]> (s_nodes s)).

Definition startCycle (i : nat) (k : LeaseKind)
    (phase : Z → leaseWorld → result (option (list lease * list lease)) * leaseWorld) (s : system) : option system :=
  n ← s_nodes s !! i;
  if decide (n_pending n !! k = None) then
    let '(res, w) := phase (s_now s) (worldOf n s) in
    let n' :=
      match res with
      | Ok (Some (ls, release)) =>
          Node (lw_m w) (filter (λ l, l_Kind l ≠ k) (n_held n) ++ ls) (<[k := release]> (n_pending n))
      | _ => Node (lw_m w) (n_held n) (n_pending n)
      end in
    Some (setNode i n' (lw_table w) s)
  else None.

Definition endCycle (i : nat) (k : LeaseKind) (r : txReply) (s : system) : option system :=
  n ← s_nodes s !! i;
  release ← n_pending n !! k;
  let w := (releaseRest release r (worldOf n s)).2 in
  Some (setNode i (Node (lw_m w) (n_held n) (delete k (n_pending n))) (lw_table w) s).

(** A notification does not wait for the lock. *)
Definition notify (i : nat) (k : LeaseKind)
    (f : bool → Z → leaseWorld → result (list lease) * leaseWorld) (s : system) : option system :=
  n ← s_nodes s !! i;
  let '(res, w) := f (bool_decide (n_pending n !! k = None)) (s_now s) (worldOf n s) in
  let ls := match res with Ok ls => ls | _ => [] end in
  Some (setNode i (Node (lw_m w) (n_held n ++ ls) (n_pending n)) (lw_table w) s).

(** A cleanup waits for the cycles that hold the process lock; those of batches do not. *)
Definition cleanUp (i : nat) (r : LeaseKind → txReply) (s : system) : option system :=
  n ← s_nodes s !! i;
  if decide (n_pending n !! WORKER = None ∧ n_pending n !! QUEUE = None ∧
             n_pending n !! CONCURRENCY_STRATEGY = None) then
    let w := (cleanup r (worldOf n s)).2 in
    Some (setNode i (Node (lw_m w) (if m_cleanedUp (n_m n) then n_held n else []) (n_pending n)) (lw_table w) s)
  else None.

Inductive action :=
  | Wait (d : Z)
  | CycleWorkers (i : nat) (listed : option (list ListActiveWorkersResult)) (r : txReply)
  | CycleQueues (i : nat) (listed : option (list string)) (r : txReply)
  | CycleStrategies (i : nat) (listed : option (list Strategy.V1StepConcurrency)) (r : txReply)
  | CycleBatches (i : nat) (listed : option (list batchRow)) (r : txReply)
  | EndCycle (i : nat) (k : LeaseKind) (r : txReply)
  | NotifyWorker (i : nat) (id : uuid) (found : result (option ListActiveWorkersResult)) (r : txReply)
  | NotifyQueue (i : nat) (queueName : string) (r : txReply)
  | NotifyStrategy (i : nat) (id : Z) (found : result Strategy.V1StepConcurrency) (r : txReply)
  | Cleanup (i : nat) (r : LeaseKind → txReply).

Section system.
Context (uuidString : uuid → string).

Definition step (a : action) (s : system) : option system :=
  match a with
  | Wait d => if decide (0 ≤ d) then Some (System (s_now s + d) (s_table s) (s_nodes s)) else None
  | CycleWorkers i listed r => startCycle i WORKER (acquireWorkers uuidString true listed r) s
  | CycleQueues i listed r => startCycle i QUEUE (acquireQueues true listed r) s
  | CycleStrategies i listed r => startCycle i CONCURRENCY_STRATEGY (acquireStrategies listed r) s
  | CycleBatches i listed r => startCycle i BATCH (acquireBatches uuidString true listed r) s
  | EndCycle i k r => endCycle i k r s
  | NotifyWorker i id found r => notify i WORKER (λ free, notifyNewWorker uuidString true free id found r) s
  | NotifyQueue i q r => notify i QUEUE (λ free, notifyNewQueue true free q r) s
  | NotifyStrategy i id found r =>
      notify i CONCURRENCY_STRATEGY (λ free, notifyNewConcurrencyStrategy free id found r) s
  | Cleanup i r => cleanUp i r s
  end.

(** Whether a lease still has its row. *)
Definition present (t : leaseTable) (l : lease) : bool :=
  match t_rows t !! leaseKeyOf l with Some row => bool_decide (l_ID row = l_ID l) | None => false end.

(** A lease that still has its row has not expired. *)
Definition onTime (s : system) (l : lease) : bool := negb (present (s_table s) l) || bool_decide (s_now s ≤ l_ExpiresAt l).

Definition allKinds : list LeaseKind := [WORKER; QUEUE; CONCURRENCY_STRATEGY; BATCH].

(** The leases an action renews or releases. *)
Definition renewed (n : node) (a : action) : list lease :=
  match a with
  | CycleWorkers _ _ _ => leasesOf WORKER (n_m n)
  | CycleQueues _ _ _ => leasesOf QUEUE (n_m n)
  | CycleStrategies _ _ _ => leasesOf CONCURRENCY_STRATEGY (n_m n)
  | CycleBatches _ _ _ => leasesOf BATCH (n_m n)
  | EndCycle _ k _ => default [] (n_pending n !! k)
  | Cleanup _ _ => concat ((λ k, leasesOf k (n_m n)) <$> allKinds)
  | _ => []
  end.

Definition actor (a : action) : option nat :=
  match a with
  | Wait _ => None
  | CycleWorkers i _ _ | CycleQueues i _ _ | CycleStrategies i _ _ | CycleBatches i _ _ | EndCycle i _ _
  | NotifyWorker i _ _ _ | NotifyQueue i _ _ | NotifyStrategy i _ _ _ | Cleanup i _ => Some i
  end.

Definition timely (s : system) (a : action) : bool :=
  match actor a ≫= (s_nodes s !!.) with
  | Some n => forallb (onTime s) (renewed n a)
  | None => true
  end.

(** Actions in order, as long as [guard] admits them. *)
Fixpoint steps (guard : system → action → bool) (acts : list action) (s : system) : option system :=
  match acts with
  | [] => Some s
  | a :: rest => if guard s a then step a s ≫= steps guard rest else None
  end.

End system.

(** An empty table, and managers of the given tenants. *)
Definition initial (now : Z) (tenants : gmap nat uuid) : system :=
  System now (LeaseTable ∅ 1) ((λ tenant, Node (newLeaseManager tenant) [] ∅) <$> tenants).

(** ** The invariant *)

Inductive recorded (n : node) (l : lease) : Prop :=
  | rec_list k : l ∈ leasesOf k (n_m n) → recorded n l
  | rec_held : l ∈ n_held n → recorded n l
  | rec_pending k ls : n_pending n !! k = Some ls → l ∈ ls → recorded n l.

(** Ids and keys of the rows of a table. *)
Record table_ok (now : Z) (t : leaseTable) : Prop := {
  tok_key : ∀ k r, t_rows t !! k = Some r → leaseKeyOf r = k;
  tok_next : ∀ k r, t_rows t !! k = Some r → l_ID r < t_nextId t;
  tok_inj : ∀ k1 k2 r1 r2, t_rows t !! k1 = Some r1 → t_rows t !! k2 = Some r2 → l_ID r1 = l_ID r2 → k1 = k2;
  tok_exp : ∀ k r, t_rows t !! k = Some r → l_ExpiresAt r ≤ now + leaseDuration;
}.

(** A recorded lease agrees with the row of its id, when there still is one. *)
Record agrees (t : leaseTable) (l : lease) : Prop := {
  ag_next : l_ID l < t_nextId t;
  ag_row : ∀ k r, t_rows t !! k = Some r → l_ID r = l_ID l → k = leaseKeyOf l ∧ l_ExpiresAt l ≤ l_ExpiresAt r;
}.

(** The kinds of the leases of a node, and what it still has to release is not held. *)
Record node_ok (n : node) : Prop := {
  nok_list : ∀ k l, l ∈ leasesOf k (n_m n) → l_Kind l = k;
  nok_pending : ∀ k ls l, n_pending n !! k = Some ls → l ∈ ls → l_Kind l = k;
  nok_disjoint : ∀ k ls l l', n_pending n !! k = Some ls → l ∈ ls → l' ∈ n_held n → l_ID l ≠ l_ID l';
}.

Record inv (s : system) : Prop := {
  inv_table : table_ok (s_now s) (s_table s);
  inv_agrees : ∀ i n l, s_nodes s !! i = Some n → recorded n l → agrees (s_table s) l;
  inv_same : ∀ i j n n' l l', s_nodes s !! i = Some n → s_nodes s !! j = Some n' → recorded n l → recorded n' l' →
    l_ID l = l_ID l' → leaseKeyOf l = leaseKeyOf l';
  inv_held : ∀ i n l, s_nodes s !! i = Some n → l ∈ n_held n → s_now s ≤ l_ExpiresAt l →
    present (s_table s) l = true;
  inv_excl : ∀ i j n n' l l', s_nodes s !! i = Some n → s_nodes s !! j = Some n' → i ≠ j →
    recorded n l → recorded n' l' → l_ID l = l_ID l' → present (s_table s) l = true →
    s_now s ≤ l_ExpiresAt l → s_now s ≤ l_ExpiresAt l' → False;
  inv_node : ∀ i n, s_nodes s !! i = Some n → node_ok n;
}.

Lemma present_row t l : present t l = true ↔ ∃ r, t_rows t !! leaseKeyOf l = Some r ∧ l_ID r = l_ID l.
Proof.
  unfold present. destruct (t_rows t !! leaseKeyOf l) as [r|].
  - rewrite bool_decide_eq_true. naive_solver.
  - naive_solver.
Qed.

Lemma inv_initial now tenants : inv (initial now tenants).
Proof.
  assert (∀ i n, s_nodes (initial now tenants) !! i = Some n → ∀ l, ¬ recorded n l) as Hno.
  { intros i n. cbn. rewrite lookup_fmap. destruct (tenants !! i) as [x|]; [|done]. intros [= <-] l [k Hl|Hl|k ls Hp Hl].
    - by destruct k; apply elem_of_nil in Hl.
    - by apply elem_of_nil in Hl.
    - cbn in Hp. by rewrite lookup_empty in Hp. }
  split.
  - split; cbn; intros *; by rewrite lookup_empty.
  - intros i n l Hi Hl. by destruct (Hno i n Hi l).
  - intros i j n n' l l' Hi _ Hl. by destruct (Hno i n Hi l).
  - intros i n l Hi Hl. destruct (Hno i n Hi l). by constructor.
  - intros i j n n' l l' Hi _ _ Hl. by destruct (Hno i n Hi l).
  - intros i n Hi. split.
    + intros k l Hl. destruct (Hno i n Hi l). by econstructor.
    + intros k ls l Hp Hl. destruct (Hno i n Hi l). by eapply rec_pending.
    + intros k ls l l' Hp Hl. destruct (Hno i n Hi l). by eapply rec_pending.
Qed.

Lemma inv_wait s d : 0 ≤ d → inv s → inv (System (s_now s + d) (s_table s) (s_nodes s)).
Proof.
  intros Hd [[T1 T2 T3 T4] H2 H3 H4 H5 H6]. split; cbn; [|done|done| | |done].
  - split; try done. intros k r Hr. specialize (T4 k r Hr). lia.
  - intros i n l Hi Hl He. apply (H4 i n); [done|done|lia].
  - intros i j n n' l l' Hi Hj Hne Hl Hl' Hid Hp He He'. apply (H5 i j n n' l l'); try done; lia.
Qed.

(** ** Acquiring keeps the invariant *)

Section acquired.
Context (now : Z) (tenant : uuid) (kind : LeaseKind) (existing : list Z) (t t' : leaseTable) (rs : list string).
Context (ls : list lease) (affected : gset leaseKey).
Context (Hg : grown now tenant kind existing t rs (Upserted t' ls affected)) (Ht : table_ok now t).

(** A row keeps its id and does not expire earlier. *)
Lemma grown_row k r : t_rows t !! k = Some r →
  ∃ r', t_rows t' !! k = Some r' ∧ l_ID r' = l_ID r ∧ l_ExpiresAt r ≤ l_ExpiresAt r'.
Proof.
  intros Hr. destruct (decide (k ∈ affected)) as [Hin|Hin].
  - destruct (g_written _ _ _ _ _ _ _ Hg k Hin) as (r' & H1 & _ & _ & H4 & H5). rewrite Hr in H5. cbn in *.
    exists r'. split_and!; [done|naive_solver|]. rewrite H4. by apply (tok_exp _ _ Ht k).
  - exists r. pose proof (g_other _ _ _ _ _ _ _ Hg k Hin) as Ho. cbn in Ho. rewrite Ho. split_and!; [done..|lia].
Qed.

(** A row with an id of before was there before. *)
Lemma grown_back k r' : t_rows t' !! k = Some r' → l_ID r' < t_nextId t →
  ∃ r, t_rows t !! k = Some r ∧ l_ID r = l_ID r' ∧ l_ExpiresAt r ≤ l_ExpiresAt r'.
Proof.
  intros Hr' Hlt. destruct (t_rows t !! k) as [r|] eqn:Hr.
  - destruct (grown_row k r Hr) as (x & Hx & H1 & H2). simplify_eq. eauto.
  - exfalso. destruct (decide (k ∈ affected)) as [Hin|Hin].
    + destruct (g_written _ _ _ _ _ _ _ Hg k Hin) as (x & H1 & _ & _ & _ & H5). rewrite Hr in H5. cbn in *.
      simplify_eq. lia.
    + pose proof (g_other _ _ _ _ _ _ _ Hg k Hin) as Ho. cbn in Ho. congruence.
Qed.

Lemma grown_id k r' : t_rows t' !! k = Some r' → leaseKeyOf r' = k ∧ l_ID r' < t_nextId t' ∧
  l_ExpiresAt r' ≤ now + leaseDuration.
Proof.
  intros Hr'. pose proof (g_next _ _ _ _ _ _ _ Hg) as Hn. cbn in Hn. destruct (decide (k ∈ affected)) as [Hin|Hin].
  - destruct (g_written _ _ _ _ _ _ _ Hg k Hin) as (x & H1 & _ & H3 & H4 & H5). cbn in *. simplify_eq.
    split_and!; [done| |lia]. destruct (t_rows t !! leaseKeyOf x) as [r|] eqn:Hr; [|lia].
    destruct H5 as [-> _]. pose proof (tok_next _ _ Ht _ _ Hr). lia.
  - pose proof (g_other _ _ _ _ _ _ _ Hg k Hin) as Ho. cbn in Ho. rewrite Hr' in Ho. symmetry in Ho.
    pose proof (tok_next _ _ Ht _ _ Ho). split_and!; [by apply (tok_key _ _ Ht)|lia|by apply (tok_exp _ _ Ht k)].
Qed.

Lemma grown_table_ok : table_ok now t'.
Proof.
  split; intros *; try (intros Hr; apply grown_id in Hr; naive_solver).
  intros Hr1 Hr2 Hid. destruct (decide (l_ID r1 < t_nextId t)) as [Hlt|Hge].
  - destruct (grown_back _ _ Hr1 Hlt) as (x & Hx & Hx1 & _), (grown_back k2 r2 Hr2) as (y & Hy & Hy1 & _); [lia|].
    apply (tok_inj _ _ Ht k1 k2 x y); [done..|congruence].
  - assert (∀ k r, t_rows t' !! k = Some r → t_nextId t ≤ l_ID r → k ∈ affected ∧ t_rows t !! k = None) as Hnew.
    { intros k r Hr Hle. destruct (t_rows t !! k) as [old|] eqn:Ho.
      - destruct (grown_row k old Ho) as (x & Hx & Hx1 & _). pose proof (tok_next _ _ Ht _ _ Ho). simplify_eq. lia.
      - split; [|done]. destruct (decide (k ∈ affected)) as [|Hin]; [done|].
        pose proof (g_other _ _ _ _ _ _ _ Hg k Hin) as Hoth. cbn in Hoth. congruence. }
    destruct (Hnew k1 r1) as [Ha1 Hn1]; [done|lia|]. destruct (Hnew k2 r2) as [Ha2 Hn2]; [done|lia|].
    by apply (g_fresh _ _ _ _ _ _ _ Hg k1 k2 r1 r2).
Qed.

Lemma grown_agrees l : agrees t l → agrees t' l.
Proof.
  intros [Hn Hr]. pose proof (g_next _ _ _ _ _ _ _ Hg) as Hnext. cbn in Hnext. split; [lia|].
  intros k r' Hr' Hid. destruct (grown_back k r' Hr') as (r & Hk & Hid' & Hexp); [lia|].
  destruct (Hr k r Hk) as [? ?]; [congruence|]. split; [done|lia].
Qed.

Lemma out_row l : l ∈ ls → t_rows t' !! leaseKeyOf l = Some l.
Proof. intros Hl. by destruct (g_out _ _ _ _ _ _ _ Hg l Hl). Qed.

Lemma out_agrees l : l ∈ ls → agrees t' l.
Proof.
  intros Hl. pose proof (out_row l Hl) as Hr. destruct grown_table_ok as [K N J X]. split; [by eapply N|].
  intros k r Hk Hid. assert (k = leaseKeyOf l) as -> by by eapply J. simplify_eq. split; [done|lia].
Qed.

Lemma grown_present l : present t l = true → present t' l = true.
Proof.
  rewrite !present_row. intros (r & Hr & Hid). destruct (grown_row _ _ Hr) as (r' & H1 & H2 & _).
  exists r'. split; congruence.
Qed.

Lemma present_back l : l_ID l < t_nextId t → present t' l = true → present t l = true.
Proof.
  intros Hlt. rewrite !present_row. intros (r' & Hr' & Hid). destruct (grown_back _ _ Hr') as (r & H1 & H2 & _); [lia|].
  exists r. split; congruence.
Qed.

End acquired.

Section inv_acquired.
Context (s : system) (i : nat) (n n' : node) (tenant : uuid) (kind : LeaseKind) (existing : list Z) (t' : leaseTable).
Context (rs : list string) (ls : list lease) (affected : gset leaseKey).
Context (Hinv : inv s) (Hi : s_nodes s !! i = Some n).
Context (Hg : grown (s_now s) tenant kind existing (s_table s) rs (Upserted t' ls affected)).
Context (Hex : ∀ x, x ∈ existing → ∃ l, recorded n l ∧ l_ID l = x ∧ onTime s l = true).
Context (Hrec : ∀ l, recorded n' l → recorded n l ∨ l ∈ ls).
Context (Hheld : ∀ l, l ∈ n_held n' → l ∈ n_held n ∨ l ∈ ls).
Context (Hok : node_ok n').

(** Nobody else has an unexpired lease that was acquired. *)
Lemma taken_alone j nj l l' :
  s_nodes s !! j = Some nj → i ≠ j → l ∈ ls → recorded nj l' → l_ID l = l_ID l' → s_now s ≤ l_ExpiresAt l' → False.
Proof.
  intros Hj Hij Hl Hl' Hid He'. pose proof (inv_agrees _ Hinv j nj l' Hj Hl') as [Hn Hr].
  destruct (g_out _ _ _ _ _ _ _ Hg l Hl) as [Haff Hrow]. cbn in *.
  destruct (g_written _ _ _ _ _ _ _ Hg _ Haff) as (x & H1 & _ & _ & _ & H5). cbn in *. simplify_eq.
  destruct (t_rows (s_table s) !! leaseKeyOf l) as [old|] eqn:Hold; [|lia]. destruct H5 as [Hid5 Hmay].
  destruct (Hr _ _ Hold) as [Hkey Hexp]; [congruence|].
  unfold mayTake in Hmay. apply orb_true_iff in Hmay as [Hmay|Hmay]; apply bool_decide_eq_true in Hmay; [lia|].
  destruct (Hex _ Hmay) as (L & HL & HLid & Htime).
  assert (present (s_table s) L = true) as Hpres.
  { apply present_row. exists old. pose proof (inv_agrees _ Hinv i n L Hi HL) as [_ HLr].
    destruct (HLr _ _ Hold) as [<- _]; [congruence|]. done. }
  unfold onTime in Htime. rewrite Hpres in Htime. cbn in Htime. apply bool_decide_eq_true in Htime.
  apply (inv_excl _ Hinv i j n nj L l'); try done. congruence.
Qed.

Lemma lookup_setNode t0 j m :
  s_nodes (setNode i n' t0 s) !! j = Some m → (j = i ∧ m = n') ∨ (j ≠ i ∧ s_nodes s !! j = Some m).
Proof. cbn. rewrite lookup_insert. case_decide; [intros [= <-]; left; done|right; done]. Qed.

(** A lease recorded afterwards was recorded before by the same node, or acquired by [i]. *)
Lemma recorded_before t0 j m l :
  s_nodes (setNode i n' t0 s) !! j = Some m → recorded m l →
  (∃ m0, s_nodes s !! j = Some m0 ∧ recorded m0 l) ∨ (j = i ∧ l ∈ ls).
Proof.
  intros [[-> ->]|[Hj Hm]]%lookup_setNode Hl; [|eauto]. destruct (Hrec l Hl) as [H|H]; eauto.
Qed.

Lemma inv_acquired : inv (setNode i n' t' s).
Proof.
  pose proof (inv_table _ Hinv) as Ht. pose proof (grown_table_ok _ _ _ _ _ _ _ _ _ Hg Ht) as Ht'.
  assert (∀ j m l, s_nodes (setNode i n' t' s) !! j = Some m → recorded m l → agrees t' l) as Hag.
  { intros j m l Hj Hl. destruct (recorded_before _ _ _ _ Hj Hl) as [(m0 & H0 & Hl0)|[-> Hout]].
    - by eapply grown_agrees, inv_agrees.
    - by eapply out_agrees. }
  assert (∀ l l', l ∈ ls → agrees t' l' → l_ID l = l_ID l' → leaseKeyOf l = leaseKeyOf l') as Hkey.
  { intros l l' Hl [_ Hr] Hid. by destruct (Hr _ _ (out_row _ _ _ _ _ _ _ _ _ Hg l Hl) Hid). }
  split; [done|exact Hag| | | |].
  - intros a b na nb l l' Ha Hb Hl Hl' Hid.
    destruct (recorded_before _ _ _ _ Ha Hl) as [(m0 & H0 & Hl0)|[-> Hout]]; 
      [|apply Hkey; [done|exact (Hag _ _ _ Hb Hl')|done]].
    destruct (recorded_before _ _ _ _ Hb Hl') as [(m1 & H1 & Hl1)|[-> Hout]].
    + by eapply (inv_same _ Hinv a b).
    + symmetry. apply Hkey; [done|exact (Hag _ _ _ Ha Hl)|done].
  - intros j m l [[-> ->]|[Hj Hm]]%lookup_setNode Hl He.
    + destruct (Hheld l Hl) as [H|H].
      * eapply grown_present; [done..|]. by eapply (inv_held _ Hinv i).
      * apply present_row. exists l. split; [|done]. by eapply out_row.
    + eapply grown_present; [done..|]. by eapply (inv_held _ Hinv j).
  - intros a b na nb l l' Ha Hb Hab Hl Hl' Hid Hp He He'.
    destruct (recorded_before _ _ _ _ Ha Hl) as [(m0 & H0 & Hl0)|[-> Hout]].
    2: { destruct (recorded_before _ _ _ _ Hb Hl') as [(m1 & H1 & Hl1)|[-> _]]; [|done]. by eapply taken_alone. }
    destruct (recorded_before _ _ _ _ Hb Hl') as [(m1 & H1 & Hl1)|[-> Hout]]; [|by eapply (taken_alone a m0 l' l)].
    eapply (inv_excl _ Hinv a b m0 m1 l l'); try done. eapply present_back; [done..| |done].
    by eapply ag_next, (inv_agrees _ Hinv a).
  - intros j m [[-> ->]|[Hj Hm]]%lookup_setNode; [done|]. by eapply inv_node.
Qed.

End inv_acquired.

(** ** Releasing keeps the invariant *)

(** [t'] is [t] without some of the rows with the ids [ids]. *)
Record shrunk (ids : list Z) (t t' : leaseTable) : Prop := {
  sh_next : t_nextId t' = t_nextId t;
  sh_old : ∀ k r, t_rows t' !! k = Some r → t_rows t !! k = Some r;
  sh_kept : ∀ k r, t_rows t !! k = Some r → l_ID r ∉ ids → t_rows t' !! k = Some r;
}.

Lemma shrunk_refl ids t : shrunk ids t t.
Proof. by split. Qed.

Lemma shrunk_delete ids t : shrunk ids t (deleteLeases ids t).
Proof.
  split; [done| |]; intros k r; unfold deleteLeases; cbn; rewrite map_lookup_filter_Some; naive_solver.
Qed.

Lemma release_shrunk r rel t : shrunk (l_ID <$> rel) t (ReleaseLeases r rel t).2.
Proof.
  unfold ReleaseLeases, transact. destruct (_ && _), (tx_commit r), (tx_applied r);
    cbn; first [apply shrunk_delete|apply shrunk_refl].
Qed.

Section inv_released.
Context (s : system) (i : nat) (n n' : node) (rel : list lease) (t' : leaseTable).
Context (Hinv : inv s) (Hi : s_nodes s !! i = Some n) (Hs : shrunk (l_ID <$> rel) (s_table s) t').
Context (Hrel : ∀ l, l ∈ rel → recorded n l ∧ onTime s l = true).
Context (Hrec : ∀ l, recorded n' l → recorded n l) (Hheld : ∀ l, l ∈ n_held n' → l ∈ n_held n).
Context (Hdisj : ∀ l l', l ∈ rel → l' ∈ n_held n' → l_ID l ≠ l_ID l') (Hok : node_ok n').

Lemma shrunk_present l : present t' l = true → present (s_table s) l = true.
Proof. rewrite !present_row. intros (r & Hr & Hid). exists r. split; [by apply (sh_old _ _ _ Hs)|done]. Qed.

(** Nobody else holds an unexpired lease that is released. *)
Lemma released_alone j nj l : s_nodes s !! j = Some nj → i ≠ j → recorded nj l → s_now s ≤ l_ExpiresAt l →
  present (s_table s) l = true → l_ID l ∉ l_ID <$> rel.
Proof.
  intros Hj Hij Hl He Hp (L & HLid & HL)%list_elem_of_fmap. destruct (Hrel L HL) as [HLr Htime].
  assert (leaseKeyOf L = leaseKeyOf l) as Hkey by by eapply (inv_same _ Hinv i j n nj).
  assert (present (s_table s) L = true) as HpL.
  { apply present_row in Hp as (r & Hr & Hid). apply present_row. exists r. split; congruence. }
  unfold onTime in Htime. rewrite HpL in Htime. cbn in Htime. apply bool_decide_eq_true in Htime.
  by eapply (inv_excl _ Hinv i j n nj L l).
Qed.

Lemma kept_present l : l_ID l ∉ l_ID <$> rel → present (s_table s) l = true → present t' l = true.
Proof.
  intros Hn. rewrite !present_row. intros (r & Hr & Hid). exists r. split; [|done].
  apply (sh_kept _ _ _ Hs); [done|]. by rewrite Hid.
Qed.

Lemma node_before j m : s_nodes (setNode i n' t' s) !! j = Some m →
  ∃ m0, s_nodes s !! j = Some m0 ∧ (∀ l, recorded m l → recorded m0 l) ∧ (∀ l, l ∈ n_held m → l ∈ n_held m0).
Proof.
  cbn. rewrite lookup_insert. case_decide as Hj; [|intros Hm; by exists m]. intros [= <-]. subst j. by exists n.
Qed.

Lemma inv_released : inv (setNode i n' t' s).
Proof.
  split.
  - destruct (inv_table _ Hinv) as [K N J X]. pose proof (sh_old _ _ _ Hs) as Ho.
    split; cbn; rewrite ?(sh_next _ _ _ Hs); eauto.
  - intros j m l Hj Hl. destruct (node_before j m Hj) as (m0 & H0 & Hr & _).
    destruct (inv_agrees _ Hinv j m0 l H0 (Hr l Hl)) as [A1 A2]. split; cbn; [by rewrite (sh_next _ _ _ Hs)|].
    intros k r Hk. apply A2. by apply (sh_old _ _ _ Hs).
  - intros a b na nb l l' Ha Hb Hl Hl'.
    destruct (node_before a na Ha) as (m0 & H0 & Hr0 & _), (node_before b nb Hb) as (m1 & H1 & Hr1 & _).
    apply (inv_same _ Hinv a b m0 m1); auto.
  - intros j m l Hj Hl He. destruct (node_before j m Hj) as (m0 & H0 & _ & Hh).
    pose proof (inv_held _ Hinv j m0 l H0 (Hh l Hl) He) as Hp. apply kept_present; [|done].
    destruct (decide (i = j)) as [<-|Hij].
    + cbn in Hj. rewrite lookup_insert_eq in Hj. injection Hj as <-.
      intros (L & HLid & HL)%list_elem_of_fmap. by apply (Hdisj L l HL Hl).
    + apply (released_alone j m0 l); auto. by constructor; apply Hh.
  - intros a b na nb l l' Ha Hb Hab Hl Hl' Hid Hp.
    destruct (node_before a na Ha) as (m0 & H0 & Hr0 & _), (node_before b nb Hb) as (m1 & H1 & Hr1 & _).
    apply (inv_excl _ Hinv a b m0 m1 l l'); auto. by apply shrunk_present.
  - intros j m. cbn. rewrite lookup_insert. case_decide; [by intros [= <-]|]. by apply inv_node.
Qed.

End inv_released.

(** ** Cycles *)

Lemma KeyBy_lookup (xs : list lease) k l : KeyBy l_ResourceId xs !! k = Some l → l ∈ xs ∧ l_ResourceId l = k.
Proof.
  unfold KeyBy. induction xs as [|x xs IH] using rev_ind; [by cbn; rewrite lookup_empty|].
  rewrite foldl_snoc, lookup_insert, elem_of_app. case_decide.
  - intros [= <-]. split; [right; by apply list_elem_of_singleton|done].
  - intros Hl. destruct (IH Hl). eauto.
Qed.

Lemma planLeases_spec cur ids ext rel :
  planLeases cur ids = (ext, rel) →
  (∀ l, l ∈ ext → l ∈ cur) ∧ (∀ l, l ∈ rel → l ∈ cur ∧ l_ResourceId l ∉ ids).
Proof.
  unfold planLeases. set (m0 := KeyBy l_ResourceId cur).
  assert (∀ done, let acc := foldl takeLease ([], m0) done in
    (∀ l, l ∈ acc.1 → l ∈ cur) ∧ (∀ k l, acc.2 !! k = Some l → m0 !! k = Some l ∧ k ∉ done)) as Hall.
  { induction done as [|x done [IH1 IH2]] using rev_ind.
    - split; cbn; [by intros l Hl%elem_of_nil|]. intros k l Hl. split; [done|apply not_elem_of_nil].
    - rewrite foldl_snoc. cbn zeta. set (acc := foldl takeLease ([], m0) done) in *. clearbody acc.
      unfold takeLease. destruct (acc.2 !! x) as [lx|] eqn:Hx; cbn.
      + split.
        * intros l. rewrite elem_of_app, list_elem_of_singleton. intros [Hl| ->]; [by apply IH1|].
          apply IH2 in Hx as [Hx _]. by apply KeyBy_lookup in Hx as [? _].
        * intros k l. rewrite lookup_delete_Some. intros [Hne Hl]. apply IH2 in Hl as [? ?].
          split; [done|]. rewrite elem_of_app, list_elem_of_singleton. naive_solver.
      + split; [done|]. intros k l Hl. destruct (IH2 _ _ Hl) as [? ?]. split; [done|].
        rewrite elem_of_app, list_elem_of_singleton. intros [?| ->]; [done|congruence]. }
  specialize (Hall ids). cbn zeta in Hall. destruct (foldl takeLease ([], m0) ids) as [e rest]. cbn in Hall.
  destruct Hall as [H1 H2]. intros [= <- <-]. split; [done|].
  intros l ([k x] & -> & Hx)%list_elem_of_fmap. apply elem_of_map_to_list in Hx. cbn.
  destruct (H2 _ _ Hx) as [Hm Hk]. by apply KeyBy_lookup in Hm as [? <-].
Qed.

Lemma leasesOf_set k k' ls m :
  k ≠ TABLE_PARTITION_MAINTENANCE → leasesOf k' (set_leases k ls m) = if decide (k' = k) then ls else leasesOf k' m.
Proof. intros Hk. by destruct k, k'. Qed.

(** A manager with the leases of another. *)
Definition sameLeases (m m' : LeaseManager) : Prop := ∀ k, leasesOf k m = leasesOf k m'.

Section cycles.
Context (s : system) (i : nat) (n : node) (Hinv : inv s) (Hi : s_nodes s !! i = Some n).

(** Nothing but the other fields of the manager changes. *)
Lemma inv_idle m' : sameLeases m' (n_m n) → inv (setNode i (Node m' (n_held n) (n_pending n)) (s_table s) s).
Proof.
  intros Hm. apply (inv_released s i n _ []); [done..|apply shrunk_refl| | | | |].
  - by intros l Hl%elem_of_nil.
  - intros l [k Hl|Hl|k ls Hp Hl]; [rewrite Hm in Hl|..]; eauto using recorded.
  - done.
  - by intros l l' Hl%elem_of_nil.
  - destruct (inv_node _ Hinv i n Hi) as [H1 H2 H3]. split; cbn; [|done..]. intros k l. rewrite Hm. apply H1.
Qed.

Lemma same_id_key l l' : recorded n l → recorded n l' → l_ID l = l_ID l' → leaseKeyOf l = leaseKeyOf l'.
Proof. by eapply (inv_same _ Hinv i i). Qed.

Context (k : LeaseKind) (rel : list lease) (ids : list string).
Context (Hrel : ∀ l, l ∈ rel → l ∈ leasesOf k (n_m n) ∧ l_ResourceId l ∉ ids).

(** A cycle without resources releases what it has. *)
Lemma inv_nothing_listed m' :
  (∀ k' l, l ∈ leasesOf k' m' → l ∈ leasesOf k' (n_m n)) →
  inv (setNode i (Node m' (filter (λ l, l_Kind l ≠ k) (n_held n) ++ []) (<[k := rel]> (n_pending n))) (s_table s) s).
Proof.
  intros Hm. destruct (inv_node _ Hinv i n Hi) as [H1 H2 H3]. rewrite app_nil_r.
  apply (inv_released s i n _ []); [done..|apply shrunk_refl| | | | |].
  - by intros l Hl%elem_of_nil.
  - intros l [k' Hl|Hl|k' ls Hp Hl]; cbn in *.
    + apply Hm in Hl. eauto using recorded.
    + apply list_elem_of_filter in Hl as [_ Hl]. eauto using recorded.
    + rewrite lookup_insert in Hp. case_decide; [|eauto using recorded]. simplify_eq.
      apply Hrel in Hl as [Hl _]. eauto using recorded.
  - intros l. cbn. intros [_ Hl]%list_elem_of_filter. done.
  - by intros l l' Hl%elem_of_nil.
  - split; cbn.
    + intros k' l Hl. by apply H1, Hm.
    + intros k' ls l. rewrite lookup_insert. case_decide; [|apply H2]. intros [= <-] Hl. subst. apply H1. by apply Hrel.
    + intros k' ls l l' Hp Hl [Hkind Hl']%list_elem_of_filter. rewrite lookup_insert in Hp.
      case_decide; [|by eapply H3]. simplify_eq. apply Hrel in Hl as [Hl _]. intros Hid.
      assert (leaseKeyOf l = leaseKeyOf l') as Hkey by (apply same_id_key; eauto using recorded).
      apply H1 in Hl as Hlk. unfold leaseKeyOf in Hkey. congruence.
Qed.

Context (tenant : uuid) (existing : list Z) (t' : leaseTable) (ls : list lease) (affected : gset leaseKey).
Context (Hg : grown (s_now s) tenant k existing (s_table s) ids (Upserted t' ls affected)).
Context (Hex : ∀ x, x ∈ existing → ∃ l, recorded n l ∧ l_ID l = x ∧ onTime s l = true).

Lemma out_resource l : l ∈ ls → l_Kind l = k ∧ l_ResourceId l ∈ ids.
Proof.
  intros Hl. destruct (g_out _ _ _ _ _ _ _ Hg l Hl) as [Ha _]. destruct (g_affected _ _ _ _ _ _ _ Hg _ Ha) as (r & Hr & He).
  cbn in *. unfold leaseKeyOf in He. injection He as _ -> ->. done.
Qed.

(** A lease recorded before has the key of an acquired one with its id. *)
Lemma out_key l l' : recorded n l → l' ∈ ls → l_ID l = l_ID l' → leaseKeyOf l = leaseKeyOf l'.
Proof.
  intros Hl Hl' Hid. pose proof (inv_agrees _ Hinv i n l Hi Hl) as Ha.
  eapply (grown_agrees _ _ _ _ _ _ _ _ _ Hg) in Ha as [_ Hr]; [|by apply inv_table].
  by destruct (Hr _ _ (out_row _ _ _ _ _ _ _ _ _ Hg l' Hl')).
Qed.

(** The transaction took effect, and an error was reported. *)
Lemma inv_lost_reply : inv (setNode i (Node (n_m n) (n_held n) (n_pending n)) t' s).
Proof.
  eapply inv_acquired; [done..| | |].
  - intros l [k' Hl|Hl|k' ls' Hp Hl]; left; eauto using recorded.
  - intros l Hl. by left.
  - destruct (inv_node _ Hinv i n Hi). by split.
Qed.

Lemma inv_cycle m' :
  (∀ k', leasesOf k' m' = if decide (k' = k) then ls else leasesOf k' (n_m n)) →
  inv (setNode i (Node m' (filter (λ l, l_Kind l ≠ k) (n_held n) ++ ls) (<[k := rel]> (n_pending n))) t' s).
Proof.
  intros Hm. destruct (inv_node _ Hinv i n Hi) as [H1 H2 H3].
  eapply inv_acquired; [done..| | |].
  - intros l [k' Hl|Hl|k' ls' Hp Hl]; cbn in *.
    + rewrite Hm in Hl. case_decide; [by right|left; eauto using recorded].
    + apply elem_of_app in Hl as [[_ Hl]%list_elem_of_filter|Hl]; [left; eauto using recorded|by right].
    + left. rewrite lookup_insert in Hp. case_decide; [|eauto using recorded]. simplify_eq.
      apply Hrel in Hl as [Hl _]. eauto using recorded.
  - intros l. cbn. rewrite elem_of_app, list_elem_of_filter. naive_solver.
  - split; cbn.
    + intros k' l. rewrite Hm. case_decide; [|apply H1]. subst. intros Hl. by apply out_resource.
    + intros k' ls' l. rewrite lookup_insert. case_decide; [|apply H2]. intros [= <-] Hl. subst. apply H1. by apply Hrel.
    + intros k' ls' l l' Hp Hl. rewrite elem_of_app, list_elem_of_filter. intros Hl' Hid.
      rewrite lookup_insert in Hp. case_decide as Hkk.
      * injection Hp as <-. subst k'. apply Hrel in Hl as [Hl Hids]. assert (recorded n l) as Hr by eauto using recorded.
        apply H1 in Hl as Hlk. destruct Hl' as [[Hkind Hl']|Hl'].
        -- assert (leaseKeyOf l = leaseKeyOf l') as Hkey by (apply same_id_key; eauto using recorded).
           unfold leaseKeyOf in Hkey. congruence.
        -- pose proof (out_key l l' Hr Hl' Hid) as Hkey. destruct (out_resource l' Hl') as [_ Hin].
           unfold leaseKeyOf in Hkey. congruence.
      * destruct Hl' as [[_ Hl']|Hl']; [by eapply H3|]. pose proof (H2 _ _ _ Hp Hl) as Hlk.
        assert (recorded n l) as Hr by eauto using recorded. pose proof (out_key l l' Hr Hl' Hid) as Hkey.
        destruct (out_resource l' Hl') as [Hk' _]. unfold leaseKeyOf in Hkey. congruence.
Qed.

(** A notification that gained leases, while no cycle of the kind is in progress. *)
Lemma inv_notified m' :
  n_pending n !! k = None →
  (∀ k', leasesOf k' m' = if decide (k' = k) then leasesOf k (n_m n) ++ ls else leasesOf k' (n_m n)) →
  inv (setNode i (Node m' (n_held n ++ ls) (n_pending n)) t' s).
Proof.
  intros Hfree Hm. destruct (inv_node _ Hinv i n Hi) as [H1 H2 H3].
  eapply inv_acquired; [done..| | |].
  - intros l [k' Hl|Hl|k' ls' Hp Hl]; cbn in *; [| |left; eauto using recorded].
    + rewrite Hm in Hl. case_decide; [apply elem_of_app in Hl as [Hl|Hl]|]; eauto using recorded.
    + apply elem_of_app in Hl as [Hl|Hl]; eauto using recorded.
  - intros l. cbn. by rewrite elem_of_app.
  - split; cbn; [|done|].
    + intros k' l. rewrite Hm. case_decide; [|apply H1]. subst. rewrite elem_of_app. intros [Hl|Hl]; [by apply H1|].
      by apply out_resource.
    + intros k' ls' l l' Hp Hl. rewrite elem_of_app. intros [Hl'|Hl'] Hid; [by eapply H3|].
      assert (recorded n l) as Hr by eauto using recorded. pose proof (out_key l l' Hr Hl' Hid) as Hkey.
      pose proof (H2 _ _ _ Hp Hl) as Hlk. destruct (out_resource l' Hl') as [Hk' _]. unfold leaseKeyOf in Hkey.
      congruence.
Qed.

End cycles.

(** An announcement changes neither the table nor the leases. *)
Definition announces (f : leaseWorld → leaseWorld) : Prop :=
  ∀ w, lw_table (f w) = lw_table w ∧ sameLeases (lw_m (f w)) (lw_m w).

Lemma deliver_announces ready d : announces (deliver ready d).
Proof. intros w. unfold deliver. by destruct (_ && _). Qed.

Lemma strategies_announces xs inc : announces (with_m (sendConcurrencyLeases xs inc)).
Proof.
  intros w. split; [done|]. intros k. unfold sendConcurrencyLeases. cbn.
  destruct inc; cbn; destruct (m_closed (lw_m w)); cbn; try destruct (decide _); by destruct k.
Qed.

Lemma batches_announces ready xs : announces (sendBatches ready xs).
Proof. intros w. unfold sendBatches. destruct (m_cleanedUp _); [done|apply deliver_announces]. Qed.

Section system_inv.
Context (s : system) (i : nat) (n : node) (Hinv : inv s) (Hi : s_nodes s !! i = Some n).

(** The leases that are renewed are recorded and on time. *)
Lemma on_time_existing k l :
  forallb (onTime s) (leasesOf k (n_m n)) = true → l ∈ leasesOf k (n_m n) → recorded n l ∧ onTime s l = true.
Proof.
  intros Ht Hl. split; [eauto using recorded|]. eapply forallb_forall in Ht; [done|]. by apply list_elem_of_In.
Qed.

Lemma eta_node : Node (n_m n) (n_held n) (n_pending n) = n.
Proof. by destruct n. Qed.

Lemma startCycle_inv {A} k guarded (listed : option (list A)) ids announce r s' :
  k ≠ TABLE_PARTITION_MAINTENANCE → (∀ xs ls, announces (announce xs ls)) →
  forallb (onTime s) (leasesOf k (n_m n)) = true →
  startCycle i k (acquirePhase k guarded listed ids announce r) s = Some s' → inv s'.
Proof.
  intros Hk Hann Ht. unfold startCycle. rewrite Hi. cbn [mbind option_bind].
  destruct (decide (n_pending n !! k = None)) as [Hfree|]; [|done]. unfold acquirePhase. cbn [worldOf lw_m].
  destruct (guarded && m_cleanedUp (n_m n)); [intros [= <-]; by apply (inv_idle s i n)|].
  destruct listed as [xs|]; [|intros [= <-]; by apply (inv_idle s i n)].
  unfold acquireResources. cbn [worldOf lw_m lw_table]. destruct (planLeases _ (ids xs)) as [ext rel] eqn:Hplan.
  apply planLeases_spec in Hplan as [Hext Hrel]. destruct (ids xs) as [|x rs] eqn:Hids.
  - intros [= <-]. set (w := if decide (k = BATCH) then _ else _). destruct (Hann xs [] w) as [-> Hsame].
    replace (lw_table w) with (s_table s) by (unfold w; by destruct (decide (k = BATCH))).
    apply (inv_nothing_listed s i n Hinv Hi k rel [] Hrel).
    intros k' l. rewrite Hsame. unfold w. destruct (decide (k = BATCH)) as [->|]; [|done].
    cbn. rewrite leasesOf_set by done. case_decide; [by intros Hl%elem_of_nil|done].
  - rewrite <- Hids in *. unfold AcquireOrExtendLeases, transact.
    assert (∀ y, y ∈ l_ID <$> ext → ∃ l, recorded n l ∧ l_ID l = y ∧ onTime s l = true) as Hex.
    { intros y (l & -> & Hl)%list_elem_of_fmap. destruct (on_time_existing k l Ht (Hext l Hl)). eauto. }
    destruct (tx_begin r && tx_statement r); [|intros [= <-]; by apply (inv_idle s i n)].
    destruct (acquireOrExtend _ _ k (ids xs) _ (s_table s)) as [[ls t']|] eqn:Hacq;
      [|intros [= <-]; by apply (inv_idle s i n)].
    apply acquire_grown in Hacq as [affected Hg].
    destruct (tx_commit r); [|intros [= <-]; destruct (tx_applied r); cbn].
    + intros [= <-]. set (w := with_m _ _). destruct (Hann xs ls w) as [-> Hsame].
      eapply (inv_cycle s i n Hinv Hi k rel (ids xs) Hrel); [done|done|].
      intros k'. rewrite Hsame. unfold w. cbn. by rewrite leasesOf_set.
    + by eapply (inv_lost_reply s i n).
    + by apply (inv_idle s i n).
Qed.

Lemma endCycle_inv k r s' :
  forallb (onTime s) (default [] (n_pending n !! k)) = true → endCycle i k r s = Some s' → inv s'.
Proof.
  intros Ht. unfold endCycle. rewrite Hi. cbn [mbind option_bind].
  destruct (n_pending n !! k) as [rel|] eqn:Hp; [|done]. cbn in Ht |- *. intros [= <-].
  assert (lw_m (releaseRest rel r (worldOf n s)).2 = n_m n ∧
          shrunk (l_ID <$> rel) (s_table s) (lw_table (releaseRest rel r (worldOf n s)).2)) as [-> Hs].
  { unfold releaseRest. destruct rel as [|l rel]; [split; [done|apply shrunk_refl]|].
    pose proof (release_shrunk r (l :: rel) (s_table s)) as H. cbn [worldOf lw_table].
    destruct (ReleaseLeases r (l :: rel) (s_table s)) as [res t]. done. }
  destruct (inv_node _ Hinv i n Hi) as [H1 H2 H3].
  apply (inv_released s i n _ rel); [done..| | | | |].
  - intros l Hl. split; [eauto using recorded|]. eapply forallb_forall in Ht; [done|]. by apply list_elem_of_In.
  - intros l [k' Hl|Hl|k' ls Hp' Hl]; cbn in *; [eauto using recorded..|].
    apply lookup_delete_Some in Hp' as [_ Hp']. eauto using recorded.
  - done.
  - intros l l' Hl Hl'. by eapply H3.
  - split; cbn; [done|..].
    + intros k' ls l [_ Hp']%lookup_delete_Some. by eapply H2.
    + intros k' ls l l' [_ Hp']%lookup_delete_Some. by eapply H3.
Qed.

Lemma notify_inv {A} k id (found : result (option A)) announce r s' :
  k ≠ TABLE_PARTITION_MAINTENANCE → (∀ x, announces (announce x)) →
  notify i k (λ free, notifyResource k free id found announce r) s = Some s' → inv s'.
Proof.
  intros Hk Hann. unfold notify. rewrite Hi. cbn [mbind option_bind]. unfold notifyResource. cbn [worldOf lw_m lw_table].
  destruct (_ || _) eqn:Hskip; [intros [= <-]; rewrite app_nil_r; by apply (inv_idle s i n)|].
  apply orb_false_iff in Hskip as [[_ Hfree]%orb_false_iff _].
  apply negb_false_iff, bool_decide_eq_true in Hfree.
  destruct found as [[x|]| |]; try (intros [= <-]; rewrite app_nil_r; by apply (inv_idle s i n)).
  unfold AcquireOrExtendLeases, transact.
  destruct (tx_begin r && tx_statement r); [|intros [= <-]; rewrite app_nil_r; by apply (inv_idle s i n)].
  destruct (acquireOrExtend _ _ k [id] _ (s_table s)) as [[ls t']|] eqn:Hacq;
    [|intros [= <-]; rewrite app_nil_r; by apply (inv_idle s i n)].
  apply acquire_grown in Hacq as [affected Hg].
  assert (∀ y, y ∈ l_ID <$> ([] : list lease) → ∃ l, recorded n l ∧ l_ID l = y ∧ onTime s l = true) as Hex.
  { by intros y Hy%elem_of_nil. }
  destruct (tx_commit r).
  2: { intros [= <-]. rewrite app_nil_r. destruct (tx_applied r); cbn; [by eapply (inv_lost_reply s i n)|by apply (inv_idle s i n)]. }
  destruct ls as [|l ls]; [intros [= <-]; rewrite app_nil_r; by eapply (inv_lost_reply s i n)|].
  destruct (decide _); intros [= <-]; [rewrite app_nil_r; by eapply (inv_lost_reply s i n)|].
  set (w := with_m _ _). destruct (Hann x w) as [-> Hsame].
  eapply (inv_notified s i n Hinv Hi k [id]); [done|done|done|]. intros k'. rewrite Hsame. unfold w. cbn.
  by rewrite leasesOf_set.
Qed.

Lemma shrunk_trans ids1 ids2 t1 t2 t3 : shrunk ids1 t1 t2 → shrunk ids2 t2 t3 → shrunk (ids1 ++ ids2) t1 t3.
Proof.
  intros [N1 O1 K1] [N2 O2 K2]. split; [congruence|auto|]. intros k r Hr. rewrite elem_of_app. naive_solver.
Qed.

Lemma cleanup_shrunk r kinds w :
  let w' := foldl releaseKind w ((λ k, (k, r k)) <$> kinds) in
  lw_m w' = lw_m w ∧
  shrunk (l_ID <$> concat ((λ k, leasesOf k (lw_m w)) <$> kinds)) (lw_table w) (lw_table w').
Proof.
  revert w. induction kinds as [|k kinds IH]; intros w; cbn; [split; [done|apply shrunk_refl]|].
  destruct (IH (releaseKind w (k, r k))) as [H1 H2]. split; [by rewrite H1|]. rewrite fmap_app.
  eapply shrunk_trans; [|exact H2]. apply release_shrunk.
Qed.

Lemma cleanUp_inv r s' :
  forallb (onTime s) (concat ((λ k, leasesOf k (n_m n)) <$> allKinds)) = true → cleanUp i r s = Some s' → inv s'.
Proof.
  intros Ht. unfold cleanUp. rewrite Hi. cbn [mbind option_bind]. destruct (decide _); [|done]. unfold cleanup.
  cbn [worldOf lw_m]. destruct (m_cleanedUp (n_m n)); [intros [= <-]; by apply (inv_idle s i n)|].
  set (w0 := with_m set_cleanedUp (worldOf n s)). destruct (cleanup_shrunk r allKinds w0) as [Hm Hs].
  change [WORKER; QUEUE; CONCURRENCY_STRATEGY; BATCH] with allKinds.
  set (w1 := foldl releaseKind w0 _) in *.
  assert (∀ k, leasesOf k (lw_m w1) = leasesOf k (n_m n)) as Hl1 by (intros k; rewrite Hm; by destruct k).
  assert (∀ w2, sameLeases (lw_m w2) (lw_m w1) → lw_table w2 = lw_table w1 →
    inv (setNode i (Node (lw_m w2) [] (n_pending n)) (lw_table w2) s)) as Hgo.
  { intros w2 Hsame ->. destruct (inv_node _ Hinv i n Hi) as [H1 H2 H3].
    apply (inv_released s i n _ (concat ((λ k, leasesOf k (n_m n)) <$> allKinds))); [done..| | | | |].
    - intros l Hl. split; [|eapply forallb_forall in Ht; [done|by apply list_elem_of_In]].
      apply list_elem_of_In, in_concat in Hl as (ls & Hls & Hl). rewrite <- !list_elem_of_In in *.
      apply list_elem_of_fmap in Hls as (k & -> & _). eauto using recorded.
    - intros l [k Hl|Hl|k ls Hp Hl]; cbn in *; [rewrite Hsame, Hl1 in Hl; eauto using recorded|by apply elem_of_nil in Hl|].
      eauto using recorded.
    - by intros l Hl%elem_of_nil.
    - by intros l l' _ Hl'%elem_of_nil.
    - split; cbn; [intros k l; rewrite Hsame, Hl1; apply H1|done|]. by intros k ls l l' _ _ Hl'%elem_of_nil. }
  destruct (forallb _ allKinds); intros [= <-]; [apply (Hgo (with_m set_closed w1))|apply (Hgo w1)]; done.
Qed.

End system_inv.

(** ** Exclusive leases *)

Lemma step_inv uuidString a s s' : inv s → timely s a = true → step uuidString a s = Some s' → inv s'.
Proof.
  intros Hinv Ht Hs. unfold timely in Ht. destruct (actor a) as [i|] eqn:Ha.
  2: { destruct a; try done. cbn in Hs. destruct (decide (0 ≤ d)); [|done]. injection Hs as <-. by apply inv_wait. }
  cbn in Ht. destruct (s_nodes s !! i) as [n|] eqn:Hi.
  2: { destruct a; cbn in Ha; simplify_eq; cbn in Hs; unfold startCycle, endCycle, notify, cleanUp in Hs;
         by rewrite Hi in Hs. }
  destruct a; cbn in Ha; simplify_eq; cbn [step] in Hs; cbn [renewed] in Ht.
  - refine (startCycle_inv s i n Hinv Hi WORKER true _ _ _ _ s' _ _ Ht Hs); [done|]. intros. apply deliver_announces.
  - refine (startCycle_inv s i n Hinv Hi QUEUE true _ _ _ _ s' _ _ Ht Hs); [done|]. intros. apply deliver_announces.
  - refine (startCycle_inv s i n Hinv Hi CONCURRENCY_STRATEGY true _ _ _ _ s' _ _ Ht Hs); [done|].
    intros. apply strategies_announces.
  - refine (startCycle_inv s i n Hinv Hi BATCH false _ _ _ _ s' _ _ Ht Hs); [done|]. intros. apply batches_announces.
  - by eapply (endCycle_inv s i n Hinv Hi).
  - refine (notify_inv s i n Hinv Hi WORKER _ _ _ _ s' _ _ Hs); [done|]. intros. apply deliver_announces.
  - refine (notify_inv s i n Hinv Hi QUEUE _ _ _ _ s' _ _ Hs); [done|]. intros. apply deliver_announces.
  - refine (notify_inv s i n Hinv Hi CONCURRENCY_STRATEGY _ _ _ _ s' _ _ Hs); [done|].
    intros. apply strategies_announces.
  - by eapply (cleanUp_inv s i n Hinv Hi).
Qed.

Lemma steps_inv uuidString acts s s' : inv s → steps uuidString timely acts s = Some s' → inv s'.
Proof.
  revert s. induction acts as [|a acts IH]; intros s Hinv; cbn; [by intros [= <-]|].
  destruct (timely s a) eqn:Ht; [|done]. destruct (step uuidString a s) as [s1|] eqn:Hs; [|done]. cbn.
  apply IH. by eapply step_inv.
Qed.

(** Two managers hold a lease on the resource, and neither lease has expired. *)
Definition sharedLease (s : system) (key : leaseKey) : Prop :=
  ∃ i j n n' l l', i ≠ j ∧ s_nodes s !! i = Some n ∧ s_nodes s !! j = Some n' ∧ l ∈ n_held n ∧ l' ∈ n_held n' ∧
    leaseKeyOf l = key ∧ leaseKeyOf l' = key ∧ s_now s ≤ l_ExpiresAt l ∧ s_now s ≤ l_ExpiresAt l'.

(** C11: leases are exclusive: however the cycles, notifications and cleanups of several schedulers
    interleave, and whichever transactions fail or lose their reply, no worker, queue, concurrency
    strategy or batch step is ever held by two of them, as long as each renews or releases its leases
    before they expire. *)
Theorem lease_exclusive (uuidString : uuid → string) (now : Z) (tenants : gmap nat uuid) (acts : list action)
    (s : system) :
  steps uuidString timely acts (initial now tenants) = Some s → ∀ key, ¬ sharedLease s key.
Proof.
  intros Hs key (i & j & n & n' & l & l' & Hij & Hi & Hj & Hl & Hl' & Hk & Hk' & He & He').
  pose proof (steps_inv _ _ _ _ (inv_initial now tenants) Hs) as Hinv.
  pose proof (inv_held _ Hinv i n l Hi Hl He) as Hp. pose proof (inv_held _ Hinv j n' l' Hj Hl' He') as Hp'.
  apply (inv_excl _ Hinv i j n n' l l'); eauto using recorded.
  apply present_row in Hp as (r & Hr & Hid), Hp' as (r' & Hr' & Hid'). congruence.
Qed.

(** ** A sample run *)

Definition allOk : txReply := TxReply true true true true.
Definition sampleName (id : uuid) : string := pretty id.
Definition second : Z := 10 ^ 9.

(** Two schedulers of one tenant; the first takes the queues, the second finds only the new one. *)
Definition sampleTenants : gmap nat uuid := {[0%nat := 5; 1%nat := 5]}.
Definition sampleActions : list action :=
  [CycleQueues 0 (Some ["a"; "b"]%string) allOk; EndCycle 0 QUEUE allOk;
   Wait (10 * second);
   CycleQueues 1 (Some ["a"; "b"; "c"]%string) allOk; EndCycle 1 QUEUE allOk;
   Wait (10 * second);
   CycleQueues 0 (Some ["b"; "c"]%string) allOk; EndCycle 0 QUEUE allOk;
   NotifyQueue 1 "a"%string allOk].

Definition heldBy (i : nat) (s : option system) : option (list string) :=
  s ← s; n ← s_nodes s !! i; Some (l_ResourceId <$> n_held n).

Lemma lease_exclusive_witness :
  let s := steps sampleName timely sampleActions (initial 0 sampleTenants) in
  heldBy 0 s = Some ["b"%string] ∧ heldBy 1 s = Some ["c"; "a"]%string ∧
  ∀ key, ¬ sharedLease (default (initial 0 ∅) s) key.
Proof.
  split; [vm_compute; reflexivity|]. split; [vm_compute; reflexivity|].
  apply (lease_exclusive sampleName 0 sampleTenants sampleActions). vm_compute. reflexivity.
Defined.

(** The first scheduler pauses past the expiry of its lease, and the second takes the queue over. *)
Definition lateActions : list action :=
  [CycleQueues 0 (Some ["a"%string]) allOk; EndCycle 0 QUEUE allOk;
   Wait (31 * second);
   CycleQueues 1 (Some ["a"%string]) allOk; EndCycle 1 QUEUE allOk;
   Wait (2 * second);
   CycleQueues 0 (Some ["a"%string]) allOk; EndCycle 0 QUEUE allOk].

(** Both schedulers renew in time from then on. *)
Definition laterActions : list action :=
  [Wait (5 * second);
   CycleQueues 0 (Some ["a"%string]) allOk; EndCycle 0 QUEUE allOk;
   CycleQueues 1 (Some ["a"%string]) allOk; EndCycle 1 QUEUE allOk].

(** Once a manager is late a lease can be shared: the scheduler that took the expired lease over and the
    one that lost it both hold it afterwards, because the row keeps its id and extending a lease asks
    only for its id; renewing in time does not end it. *)
Theorem late_renewal_shares_lease :
  ∃ s s', steps sampleName (λ _ _, true) lateActions (initial 0 sampleTenants) = Some s ∧
    steps sampleName timely lateActions (initial 0 sampleTenants) = None ∧
    sharedLease s (5, QUEUE, "a"%string) ∧
    steps sampleName timely laterActions s = Some s' ∧ sharedLease s' (5, QUEUE, "a"%string).
Proof.
  do 2 eexists. split; [vm_compute; reflexivity|]. split; [vm_compute; reflexivity|].
  split; [|split; [vm_compute; reflexivity|]].
  all: exists 0%nat, 1%nat; do 4 eexists; split; [done|]; split; [reflexivity|]; split; [reflexivity|];
    split; [by apply list_elem_of_singleton|]; split; [by apply list_elem_of_singleton|];
    split; [reflexivity|]; split; [reflexivity|]; split; cbn; lia.
Qed.

(** ** What a cycle announces *)

(** Whether the statement may write the row of a resource. *)
Definition available (now : Z) (tenant : uuid) (k : LeaseKind) (existing : list Z) (t : leaseTable) (r : string) : bool :=
  match t_rows t !! ((tenant, k, r) : leaseKey) with None => true | Some row => mayTake now existing row end.

Lemma acquire_available now tenant k existing t rs :
  NoDup rs →
  ∃ ls t', acquireOrExtend now tenant k rs existing t = Some (ls, t') ∧
    l_ResourceId <$> ls = filter (λ r, available now tenant k existing t r = true) rs.
Proof.
  intros Hnd. unfold acquireOrExtend.
  enough (∃ u, foldl (upsert now tenant k existing) (Some (Upserted t [] ∅)) rs = Some u ∧
    grown now tenant k existing t rs u ∧
    l_ResourceId <$> u_out u = filter (λ r, available now tenant k existing t r = true) rs) as (u & -> & _ & Hu)
    by (cbn; eauto).
  induction rs as [|r rs IH] using rev_ind.
  { exists (Upserted t [] ∅). split_and!; [done|apply grown_start|done]. }
  apply NoDup_app in Hnd as (Hnd & Hr & _). destruct (IH Hnd) as (u & Hf & Hg & Hout). rewrite foldl_snoc, Hf.
  assert (((tenant, k, r) : leaseKey) ∉ u_affected u) as Hna.
  { intros Hin. destruct (g_affected _ _ _ _ _ _ _ Hg _ Hin) as (x & Hx & He). injection He as <-.
    by apply (Hr _ Hx), list_elem_of_singleton. }
  pose proof (g_other _ _ _ _ _ _ _ Hg _ Hna) as Hrow.
  destruct (upsert now tenant k existing (Some u) r) as [u'|] eqn:Hup.
  - exists u'. split; [done|]. split; [by eapply upsert_grown|]. rewrite filter_app. unfold upsert in Hup. cbn in Hup.
    rewrite Hrow in Hup. assert (available now tenant k existing t r =
      match t_rows t !! ((tenant, k, r) : leaseKey) with None => true | Some row => mayTake now existing row end) as Ha by done.
    destruct (t_rows t !! _) as [row|]; [rewrite decide_False in Hup by done; destruct (mayTake now existing row)|];
      injection Hup as <-; cbn [u_out]; rewrite ?fmap_app, Hout.
    1,3: by rewrite filter_cons_True.
    rewrite filter_cons_False by (rewrite Ha; done). by rewrite app_nil_r.
  - exfalso. unfold upsert in Hup. cbn in Hup. rewrite Hrow in Hup. destruct (t_rows t !! _) as [row|]; [|done].
    rewrite decide_False in Hup by done. by destruct (mayTake now existing row).
Qed.

Lemma KeyBy_distinct {A} (key : A → string) xs x : NoDup (key <$> xs) → x ∈ xs → KeyBy key xs !! key x = Some x.
Proof.
  unfold KeyBy. induction xs as [|y xs IH] using rev_ind; [by intros _ Hx%elem_of_nil|].
  rewrite fmap_app, foldl_snoc, elem_of_app, list_elem_of_singleton. intros (Hnd & Hd & _)%NoDup_app [Hx| ->].
  - rewrite lookup_insert_ne; [by apply IH|]. intros He. apply (Hd (key x)); [apply list_elem_of_fmap; eauto|].
    cbn. rewrite He. by apply list_elem_of_singleton.
  - by rewrite lookup_insert_eq.
Qed.

Lemma filter_fmap_bool {A B} (f : A → B) (p : B → bool) (xs : list A) :
  filter (λ y, p y = true) (f <$> xs) = f <$> filter (λ x, p (f x) = true) xs.
Proof.
  induction xs as [|x xs IH]; [done|]. cbn [fmap list_fmap]. rewrite !filter_cons, IH. by destruct (decide _).
Qed.

(** A worker cycle whose transaction succeeds announces, as the new full set, exactly the listed workers
    whose lease is free, expired or already its own, in the order they are listed; none of the
    announced pointers is nil, and the recorded leases are those of the announced workers. *)
Theorem workers_announced_exactly (uuidString : uuid → string) (r : txReply) (now : Z) (w : leaseWorld)
    (xs : list ListActiveWorkersResult) :
  NoDup (workerId uuidString <$> xs) → xs ≠ [] → m_cleanedUp (lw_m w) = false → m_closed (lw_m w) = false →
  tx_begin r && tx_statement r && tx_commit r = true →
  let own := l_ID <$> (planLeases (m_workerLeases (lw_m w)) (workerId uuidString <$> xs)).1 in
  let announced := filter (λ x, available now (m_tenantId (lw_m w)) WORKER own (lw_table w)
                                  (workerId uuidString x) = true) xs in
  ∃ ls release w', acquireWorkers uuidString true (Some xs) r now w = (Ok (Some (ls, release)), w') ∧
    m_workerLeases (lw_m w') = ls ∧ l_ResourceId <$> ls = workerId uuidString <$> announced ∧
    lw_delivered w' = lw_delivered w ++ [Workers (NotifierMsg (Some <$> announced) false)].
Proof.
  intros Hnd Hne Hc Hclosed Hok own announced. apply andb_true_iff in Hok as [Hok Hcommit].
  unfold acquireWorkers, acquirePhase. rewrite Hc. cbn [andb]. unfold acquireResources.
  change (leasesOf WORKER (lw_m w)) with (m_workerLeases (lw_m w)).
  destruct (planLeases (m_workerLeases (lw_m w)) _) as [ext rel].
  assert (l_ID <$> ext = own) as Hown by done.
  destruct (acquire_available now (m_tenantId (lw_m w)) WORKER own (lw_table w) _ Hnd) as (ls & t' & Hacq & Hls).
  rewrite filter_fmap_bool in Hls. fold announced in Hls.
  destruct (workerId uuidString <$> xs) as [|y ys] eqn:Hids; [by destruct xs|]. rewrite <- Hids in *.
  unfold AcquireOrExtendLeases, transact. rewrite Hok, Hcommit, Hown, Hacq.
  do 3 eexists. split; [reflexivity|]. unfold sendWorkerIds, deliver. cbn. rewrite Hclosed. cbn.
  split; [done|]. split; [done|]. do 4 f_equal.
  trans ((λ r, KeyBy (workerId uuidString) xs !! r) <$> (l_ResourceId <$> ls)); [by rewrite <- list_fmap_compose|].
  rewrite Hls, <- list_fmap_compose.
  apply list_fmap_ext. intros i x Hx. cbn. apply KeyBy_distinct; [done|].
  apply list_elem_of_lookup_2 in Hx. unfold announced in Hx. by apply list_elem_of_filter in Hx as [_ ?].
Qed.

(** Two workers, one of them leased by another scheduler. *)
Definition sampleWorkers : list ListActiveWorkersResult := [ActiveWorker 1 "one" [] ∅; ActiveWorker 2 "two" [] ∅].
Definition sampleLeased : leaseWorld :=
  LeaseWorld (newLeaseManager 5)
    (LeaseTable {[(5, WORKER, "1"%string) := Lease 1 (20 * second) 5 "1" WORKER]} 2) [].

Lemma workers_announced_exactly_witness :
  lw_delivered (acquireWorkers sampleName true (Some sampleWorkers) allOk 0 sampleLeased).2 =
    [Workers (NotifierMsg [Some (ActiveWorker 2 "two" [] ∅)] false)] ∧
  ∃ ls release w', acquireWorkers sampleName true (Some sampleWorkers) allOk 0 sampleLeased =
      (Ok (Some (ls, release)), w') ∧
    m_workerLeases (lw_m w') = ls ∧ l_ResourceId <$> ls = ["2"%string] ∧
    lw_delivered w' = [] ++ [Workers (NotifierMsg [Some (ActiveWorker 2 "two" [] ∅)] false)].
Proof.
  split; [vm_compute; reflexivity|].
  refine (workers_announced_exactly sampleName allOk 0 sampleLeased sampleWorkers _ _ _ _ _).
  - vm_compute. repeat constructor; set_solver.
  - done.
  - reflexivity.
  - reflexivity.
  - reflexivity.
Defined.

(** ** A lease that was released stays recorded *)

Lemma planLeases_all l : planLeases [l] [] = ([], [l]).
Proof. unfold planLeases, KeyBy. cbn [foldl]. by rewrite insert_empty, map_to_list_singleton. Qed.

(** A cycle that lists no worker releases every lease and keeps the records, so a notification of a worker
    that comes back takes it for leased and does nothing. *)
Theorem released_lease_blocks_notify (uuidString : uuid → string) (acquire : txReply) (now : Z) (w : leaseWorld)
    (id : uuid) (found : result (option ListActiveWorkersResult)) (l : lease) :
  m_cleanedUp (lw_m w) = false → m_workerLeases (lw_m w) = [l] → l_ResourceId l = uuidString id →
  let w1 := (acquireWorkerLeases uuidString false (Some []) acquire allOk now w).2 in
  present (lw_table w1) l = false ∧ notifyNewWorker uuidString true true id found acquire now w1 = (Ok [], w1).
Proof.
  intros Hc Hl Hid w1.
  assert (w1 = LeaseWorld (lw_m w) (deleteLeases [l_ID l] (lw_table w)) (lw_delivered w)) as ->.
  { unfold w1, acquireWorkerLeases, cycle, acquireWorkers, acquirePhase. rewrite Hc. cbn [andb].
    unfold acquireResources. cbn [fmap list_fmap leasesOf]. rewrite Hl, planLeases_all. cbn. by destruct w. }
  split.
  - apply not_true_iff_false. rewrite present_row. intros (r & Hr & He). cbn in Hr.
    apply map_lookup_filter_Some in Hr as [_ Hr]. apply Hr. cbn. rewrite He. by apply list_elem_of_singleton.
  - unfold notifyNewWorker, notifyResource. cbn. rewrite Hc, Hl. cbn.
    rewrite bool_decide_true; [done|]. rewrite Hid. by apply list_elem_of_singleton.
Qed.

End LeaseTheorems.
