(* ===== verification/DurableChannel.v ===== *)
(** The in-process durable channel (src/internal/services/operatorsvc/durable.go): one durable invocation's
    pipe to the engine.  A receive loop reads the engine's responses and queues them for Recv; an entry
    completion is held until the ack that names its entry, or ExpectEntry, has come, and what is retained is
    bounded.  The messages are those of src/api-contracts/v1/dispatcher.proto; a message field that the
    channel and its client do not read is left out. *)

From S2P Require Import Prelude Workers.
Import Workers.

Module DurableChannel.

Open Scope Z_scope.

(** ** Messages *)

Record DurableEventLogEntryRef := LogRef {
  lr_DurableTaskExternalId : string;
  lr_InvocationCount : Z;
  lr_BranchId : Z;
  lr_NodeId : Z;
}.

(** One durable event log entry within the invocation. *)
Record entryRef := EntryRef { er_branchId : Z; er_nodeId : Z }.

#[global] Instance entryRef_eq_dec : EqDecision entryRef.
Proof. solve_decision. Defined.
#[global] Instance entryRef_countable : Countable entryRef.
Proof.
  refine (inj_countable' (λ r, (er_branchId r, er_nodeId r)) (λ p, EntryRef p.1 p.2) _).
  by intros [].
Defined.

(** The getters of a generated message accept a nil receiver and return zero values. *)
Definition getRef (r : option DurableEventLogEntryRef) : entryRef :=
  match r with Some r => EntryRef (lr_BranchId r) (lr_NodeId r) | None => EntryRef 0 0 end.

Inductive DurableTaskErrorType := ERROR_TYPE_UNSPECIFIED | ERROR_TYPE_NONDETERMINISM.

#[global] Instance errorType_eq_dec : EqDecision DurableTaskErrorType.
Proof. solve_decision. Defined.

(** A response; [NoMessage] is one whose oneof is not set. *)
Inductive DurableTaskResponse :=
  | NoMessage
  | RegisterWorkerAck
  | MemoAck
  | TriggerRunsAck (runEntries : list entryRef)
  | WaitForAck (ref : option DurableEventLogEntryRef)
  | EntryCompleted (ref : option DurableEventLogEntryRef) (isFailure : bool) (errorMessage payload : string)
  | ErrorResponse (ref : option DurableEventLogEntryRef) (errorType : DurableTaskErrorType) (errorMessage : string)
  | EvictionAck
  | ServerEvict (durableTaskExternalId : string) (invocationCount : Z) (reason : string).

Record SleepMatchCondition := SleepCondition {
  sc_ReadableDataKey : string;
  sc_OrGroupId : string;
  sc_SleepFor : string;
}.

Record UserEventMatchCondition := UserEventCondition {
  uc_ReadableDataKey : string;
  uc_OrGroupId : string;
  uc_Expression : string;
  uc_UserEventKey : string;
}.

Record DurableEventListenerConditions := ListenerConditions {
  dc_SleepConditions : list SleepMatchCondition;
  dc_UserEventConditions : list UserEventMatchCondition;
}.

Record DurableTaskAwaitedCompletedEntry := AwaitedEntry {
  ae_DurableTaskExternalId : string;
  ae_InvocationCount : Z;
  ae_NodeId : Z;
  ae_BranchId : Z;
}.

(** A request; [NoRequest] is one whose oneof is not set. *)
Inductive DurableTaskRequest :=
  | NoRequest
  | RegisterWorker (workerId : string)
  | Memo (durableTaskExternalId : string) (invocationCount : Z)
  | TriggerRuns (durableTaskExternalId : string) (invocationCount : Z)
  | WaitFor (durableTaskExternalId : string) (invocationCount : Z) (conditions : DurableEventListenerConditions)
  | EvictInvocation (durableTaskExternalId : string) (invocationCount : Z)
  | WorkerStatus (workerId : string) (waitingEntries : list DurableTaskAwaitedCompletedEntry)
  | CompleteMemo (ref : option DurableEventLogEntryRef).

(** ** The channel *)

Inductive channelError :=
  | ErrRequestInFlight
  | ErrChannelClosed
  | ErrSessionEnded
  | CtxErr
  | OtherErr (message : string).

#[global] Instance channelError_eq_dec : EqDecision channelError.
Proof. solve_decision. Defined.

Definition HandshakeHoldLimit : Z := 256.
Definition RetainedResponseLimit : Z := 4 * HandshakeHoldLimit.

(** What the receive loop retains for Recv. *)
Record buffer := Buffer {
  held : gmap entryRef (list DurableTaskResponse);
  wanted : gset entryRef;
  delivered : gset entryRef;
  ready : list DurableTaskResponse;
  retained : Z;
  overflowed : bool;
}.

(** [c_closed] is that the channel closed was closed, [c_cancelled] that the context of the invocation was
    cancelled, and [c_notify] that the one place of the channel notify is taken. *)
Record durableChannel := Channel {
  c_buffer : buffer;
  c_inflight : bool;
  c_ended : bool;
  c_closed : bool;
  c_cancelled : bool;
  c_notify : bool;
  c_taskExternalId : string;
  c_invocation : Z;
  c_workerId : string;
}.

Definition with_buffer (b : buffer) (c : durableChannel) : durableChannel :=
  Channel b (c_inflight c) (c_ended c) (c_closed c) (c_cancelled c) (c_notify c) (c_taskExternalId c)
    (c_invocation c) (c_workerId c).
Definition with_inflight (i : bool) (c : durableChannel) : durableChannel :=
  Channel (c_buffer c) i (c_ended c) (c_closed c) (c_cancelled c) (c_notify c) (c_taskExternalId c)
    (c_invocation c) (c_workerId c).

(** ** The buffer: what is called with the mutex held *)

Definition retain (n : Z) (b : buffer) : buffer :=
  let r := retained b + n in
  if r <=? RetainedResponseLimit then
    Buffer (held b) (wanted b) (delivered b) (ready b) r (overflowed b)
  else Buffer ∅ ∅ (delivered b) [] 0 true.

Definition queue (resp : DurableTaskResponse) (b : buffer) : buffer :=
  retain 1 (Buffer (held b) (wanted b) (delivered b) (ready b ++ [resp]) (retained b) (overflowed b)).

Definition expect (ref : entryRef) (b : buffer) : buffer :=
  if bool_decide (ref ∈ delivered b) then b
  else
    match held b !! ref with
    | Some entries =>
        Buffer (delete ref (held b)) (wanted b) ({[ref]} ∪ delivered b) (ready b ++ entries) (retained b)
          (overflowed b)
    | None => Buffer (held b) ({[ref]} ∪ wanted b) (delivered b) (ready b) (retained b) (overflowed b)
    end.

(** An entry completion: dropped when one was delivered, queued when its entry is wanted, held otherwise. *)
Definition ingestEntry (resp : DurableTaskResponse) (ref : entryRef) (b : buffer) : buffer :=
  if bool_decide (ref ∈ wanted b) then
    queue resp (Buffer (held b) (wanted b ∖ {[ref]}) ({[ref]} ∪ delivered b) (ready b) (retained b) (overflowed b))
  else
    retain 1 (Buffer (<[ref := default [] (held b !! ref) ++ [resp]]> (held b)) (wanted b) (delivered b) (ready b)
      (retained b) (overflowed b)).

(** ** Operations *)

(** The signal is coalesced. *)
Definition wake (c : durableChannel) : durableChannel :=
  Channel (c_buffer c) (c_inflight c) (c_ended c) (c_closed c) (c_cancelled c) true (c_taskExternalId c)
    (c_invocation c) (c_workerId c).

Definition ingest (resp : DurableTaskResponse) (c : durableChannel) : durableChannel :=
  let b := c_buffer c in
  if overflowed b then c
  else
    match resp with
    | EntryCompleted r _ _ _ =>
        if bool_decide (getRef r ∈ delivered b) then c
        else wake (with_buffer (ingestEntry resp (getRef r) b) c)
    | WaitForAck r => wake (with_inflight false (with_buffer (expect (getRef r) (queue resp b)) c))
    | TriggerRunsAck entries =>
        wake (with_inflight false (with_buffer (foldl (λ b ref, expect ref b) (queue resp b) entries) c))
    | MemoAck | EvictionAck | ErrorResponse _ _ _ => wake (with_inflight false (with_buffer (queue resp b) c))
    | NoMessage | RegisterWorkerAck | ServerEvict _ _ _ => wake (with_buffer (queue resp b) c)
    end.

(** The receive loop: the responses the engine sends until it closes its side. *)
Definition recvLoop (resps : list DurableTaskResponse) (c : durableChannel) : durableChannel :=
  let c := foldl (λ c resp, ingest resp c) c resps in
  wake (Channel (c_buffer c) (c_inflight c) true (c_closed c) (c_cancelled c) (c_notify c) (c_taskExternalId c)
    (c_invocation c) (c_workerId c)).

Definition isClosed (c : durableChannel) : bool := c_closed c.
Definition isOverflowed (c : durableChannel) : bool := overflowed (c_buffer c).

Definition ExpectEntry (branchId nodeId : Z) (c : durableChannel) : option channelError * durableChannel :=
  if isClosed c then (Some ErrChannelClosed, c)
  else if isOverflowed c then (Some ErrChannelClosed, c)
  else (None, wake (with_buffer (expect (EntryRef branchId nodeId) (c_buffer c)) c)).

Definition acquire (c : durableChannel) : option channelError * durableChannel :=
  if c_inflight c then (Some ErrRequestInFlight, c) else (None, with_inflight true c).

Definition release (c : durableChannel) : durableChannel := with_inflight false c.

(** The stamped request and whether it bears an ack; an error for what the channel refuses. *)
Definition stamp (req : DurableTaskRequest) (c : durableChannel) : (DurableTaskRequest * bool) + channelError :=
  let task := c_taskExternalId c in
  let inv := c_invocation c in
  match req with
  | Memo _ _ => inl (Memo task inv, true)
  | TriggerRuns _ _ => inl (TriggerRuns task inv, true)
  | WaitFor _ _ conditions => inl (WaitFor task inv conditions, true)
  | EvictInvocation _ _ => inl (EvictInvocation task inv, true)
  | CompleteMemo None => inr (OtherErr "complete_memo requires a ref")
  | CompleteMemo (Some r) => inl (CompleteMemo (Some (LogRef task inv (lr_BranchId r) (lr_NodeId r))), false)
  | WorkerStatus _ entries => inl (WorkerStatus (c_workerId c) entries, false)
  | RegisterWorker _ => inr (OtherErr "register_worker is owned by the session")
  | NoRequest => inr (OtherErr "unknown durable request")
  end.

(** Which case of the select of Send runs. *)
Inductive sendSelect := EngineTakes | InvocationDone | CallerDone.

(** Send: the request the engine took, if it took one, and the error of the caller. *)
Definition Send (ctxErr : bool) (sel : sendSelect) (req : DurableTaskRequest) (c : durableChannel) :
    (DurableTaskRequest + channelError) * durableChannel :=
  if isClosed c || isOverflowed c then (inr ErrChannelClosed, c)
  else
    match stamp req c with
    | inr e => (inr e, c)
    | inl (req', acked) =>
        let '(refused, c1) := if acked then acquire c else (None, c) in
        match refused with
        | Some e => (inr e, c1)
        | None =>
            let undo := if acked : bool then release c1 else c1 in
            if ctxErr then (inr CtxErr, undo)
            else
              match sel with
              | EngineTakes => (inl req', c1)
              | InvocationDone => (inr ErrChannelClosed, undo)
              | CallerDone => (inr CtxErr, undo)
              end
        end
    end.

(** One pass of the loop of Recv: a response, an error, or nothing when it goes to wait. *)
Definition recvPass (c : durableChannel) : option (DurableTaskResponse + channelError) * durableChannel :=
  let b := c_buffer c in
  if overflowed b then (Some (inr ErrChannelClosed), c)
  else
    match ready b with
    | resp :: rest =>
        (Some (inl resp),
         with_buffer (Buffer (held b) (wanted b) (delivered b) rest (retained b - 1) (overflowed b)) c)
    | [] =>
        if isClosed c then (Some (inr ErrChannelClosed), c)
        else if c_ended c then (Some (inr ErrSessionEnded), c)
        else (None, c)
    end.

Definition consume_notify (c : durableChannel) : durableChannel :=
  Channel (c_buffer c) (c_inflight c) (c_ended c) (c_closed c) (c_cancelled c) false (c_taskExternalId c)
    (c_invocation c) (c_workerId c).

(** What ends one wait of Recv: the other goroutines change the channel, then a case of the select runs. *)
Inductive recvSelect := Notified | ClosedSelected | CtxSelected.

Fixpoint Recv (waits : list ((durableChannel → durableChannel) * recvSelect)) (c : durableChannel) :
    option (DurableTaskResponse + channelError) * durableChannel :=
  match recvPass c with
  | (Some r, c) => (Some r, c)
  | (None, c) =>
      match waits with
      | [] => (None, c)
      | (others, Notified) :: waits => Recv waits (consume_notify (others c))
      | (others, ClosedSelected) :: _ => (Some (inr ErrChannelClosed), others c)
      | (others, CtxSelected) :: _ => (Some (inr CtxErr), others c)
      end
  end.

(** Close and abandon both close the channel and cancel the invocation, once. *)
Definition Close (c : durableChannel) : durableChannel :=
  if c_closed c then c
  else Channel (c_buffer c) (c_inflight c) (c_ended c) true true (c_notify c) (c_taskExternalId c) (c_invocation c)
         (c_workerId c).

(** ** Opening *)

Definition newChannel (task : string) (invocation : Z) (worker : string) : durableChannel :=
  Channel (Buffer ∅ ∅ ∅ [] 0 false) false false false false false task invocation worker.

(** What the loop of the handshake reads. *)
Inductive handshakeEvent := Response (resp : DurableTaskResponse) | RespClosed | HandshakeCtxDone.

Fixpoint handshake (heldCount : Z) (events : list handshakeEvent) (c : durableChannel) :
    option (durableChannel + string) :=
  match events with
  | [] => None
  | RespClosed :: _ => Some (inr "durable session closed while waiting for the register worker ack"%string)
  | HandshakeCtxDone :: _ => Some (inr "durable session interrupted waiting for the register worker ack"%string)
  | Response RegisterWorkerAck :: _ => Some (inl c)
  | Response (ErrorResponse _ _ _) :: _ => Some (inr "engine rejected the register worker request"%string)
  | Response resp :: events =>
      let heldCount := heldCount + 1 in
      if HandshakeHoldLimit <? heldCount then Some (inr "too many responses before the register worker ack"%string)
      else handshake heldCount events (ingest resp c)
  end.

(** [registered] is the reply of the dispatcher, [sent] that the register request was taken before the
    context of the caller ended. *)
Definition OpenDurable (registered sent : bool) (events : list handshakeEvent) (task : string) (invocation : Z)
    (worker : string) : option (durableChannel + string) :=
  if negb registered then Some (inr "could not register durable task"%string)
  else if negb sent then
    Some (inr "durable session interrupted before the register worker request was sent"%string)
  else handshake 0 events (newChannel task invocation worker).

(** ** The channel under any order of what its goroutines do *)

Inductive channelEvent :=
  | Ingest (resp : DurableTaskResponse)
  | EngineEnds
  | Expect (ref : entryRef)
  | SendReq (ctxErr : bool) (sel : sendSelect) (req : DurableTaskRequest)
  | RecvNow
  | CloseNow.

(** What an event shows: a response handed to the operator, an expectation taken, or a request taken. *)
Inductive channelOutput := Received (resp : DurableTaskResponse) | Expected (ref : entryRef)
  | Sent (req : DurableTaskRequest) | Nothing.

Definition channelStep (e : channelEvent) (c : durableChannel) : channelOutput * durableChannel :=
  match e with
  | Ingest resp => (Nothing, ingest resp c)
  | EngineEnds => (Nothing, recvLoop [] c)
  | Expect ref =>
      match ExpectEntry (er_branchId ref) (er_nodeId ref) c with
      | (None, c) => (Expected ref, c)
      | (Some _, c) => (Nothing, c)
      end
  | SendReq ctxErr sel req =>
      match Send ctxErr sel req c with (inl req', c) => (Sent req', c) | (inr _, c) => (Nothing, c) end
  | RecvNow =>
      match recvPass c with (Some (inl resp), c) => (Received resp, c) | (_, c) => (Nothing, c) end
  | CloseNow => (Nothing, Close c)
  end.

(** The outputs of a sequence of events, in order, and the channel after them. *)
Definition channelRun (events : list channelEvent) (c : durableChannel) : list channelOutput * durableChannel :=
  foldl (λ s e, let '(out, c) := channelStep e s.2 in (s.1 ++ [out], c)) ([], c) events.

End DurableChannel.
