(* ===== verification/DurableTheorems.v ===== *)
(** The durable channel under every order of what its goroutines do: the operator reads an entry completion
    only after the ack that names it, exactly the acknowledged completions are delivered, what is retained is
    bounded, and one ack-bearing request is outstanding at a time. *)

From S2P Require Import Prelude Workers DurableChannel.
Import Workers DurableChannel.

Module DurableTheorems.

Open Scope Z_scope.

(** ** What events and responses say *)

(** The entries an ack names. *)
Definition names (resp : DurableTaskResponse) : list entryRef :=
  match resp with WaitForAck r => [getRef r] | TriggerRunsAck entries => entries | _ => [] end.

(** The entry a completion is of. *)
Definition entryOf (resp : DurableTaskResponse) : option entryRef :=
  match resp with EntryCompleted r _ _ _ => Some (getRef r) | _ => None end.

(** What the operator has seen named: the acks it received and the expectations it registered. *)
Definition namesOut (out : channelOutput) : list entryRef :=
  match out with Received resp => names resp | Expected ref => [ref] | _ => [] end.
Definition named (outs : list channelOutput) : list entryRef := outs ≫= namesOut.

(** The responses the operator received. *)
Definition received (outs : list channelOutput) : list DurableTaskResponse :=
  omap (λ out, match out with Received resp => Some resp | _ => None end) outs.

(** The entries whose completion the engine sent. *)
Definition completed (events : list channelEvent) : gset entryRef :=
  list_to_set (omap (λ e, match e with Ingest resp => entryOf resp | _ => None end) events).

(** The entries the engine acknowledged or the operator registered. *)
Definition acknowledged (events : list channelEvent) (outs : list channelOutput) : gset entryRef :=
  list_to_set (events ≫= λ e, match e with Ingest resp => names resp | _ => [] end) ∪
  list_to_set (omap (λ out, match out with Expected ref => Some ref | _ => None end) outs).

(** ** Runs *)

Lemma channelRun_snoc events e c :
  channelRun (events ++ [e]) c =
    (let '(outs, c) := channelRun events c in let '(out, c) := channelStep e c in (outs ++ [out], c)).
Proof. unfold channelRun. rewrite foldl_app. cbn [foldl]. by destruct (foldl _ _ events). Qed.

(** Rule induction on a run: what holds of the new channel and is kept by every event. *)
Lemma channelRun_ind (P : list channelEvent → list channelOutput → durableChannel → Prop) c :
  P [] [] c →
  (∀ events outs c e out c', P events outs c → channelStep e c = (out, c') → P (events ++ [e]) (outs ++ [out]) c') →
  ∀ events, P events (channelRun events c).1 (channelRun events c).2.
Proof.
  intros H0 Hstep events. induction events as [|e events IH] using rev_ind; [exact H0|].
  rewrite channelRun_snoc. destruct (channelRun events c) as [outs c'].
  destruct (channelStep e c') as [out c''] eqn:He. eauto.
Qed.

(** ** Retention *)

Definition heldSize (m : gmap entryRef (list DurableTaskResponse)) : Z :=
  Z.of_nat (sum_list_with (λ kv, length kv.2) (map_to_list m)).

Lemma heldSize_insert_new m ref l : m !! ref = None → heldSize (<[ref := l]> m) = Z.of_nat (length l) + heldSize m.
Proof.
  intros Hm. unfold heldSize. rewrite (sum_list_with_perm _ _ _ (map_to_list_insert m ref l Hm)). cbn. lia.
Qed.

Lemma heldSize_delete m ref l : m !! ref = Some l → heldSize m = Z.of_nat (length l) + heldSize (delete ref m).
Proof.
  intros Hm. rewrite <- (insert_delete_id m ref l Hm) at 1. apply heldSize_insert_new, lookup_delete_eq.
Qed.

Lemma heldSize_push m ref resp :
  heldSize (<[ref := default [] (m !! ref) ++ [resp]]> m) = 1 + heldSize m.
Proof.
  rewrite <- insert_delete_eq, heldSize_insert_new by apply lookup_delete_eq. rewrite length_app. cbn [length].
  destruct (m !! ref) as [l|] eqn:Hm; cbn.
  - rewrite (heldSize_delete m ref l Hm). lia.
  - rewrite delete_id by done. lia.
Qed.

(** The counter is the number of responses that are queued or held, within the limit. *)
Definition accounted (b : buffer) : Prop :=
  retained b = Z.of_nat (length (ready b)) + heldSize (held b) ∧ retained b ≤ RetainedResponseLimit.

Lemma accounted_retain b :
  retained b + 1 = Z.of_nat (length (ready b)) + heldSize (held b) → accounted (retain 1 b).
Proof.
  intros Hb. unfold retain. destruct (Z.leb_spec (retained b + 1) RetainedResponseLimit); split; cbn; try done.
Qed.

Lemma accounted_queue b resp : accounted b → accounted (queue resp b).
Proof.
  intros [Hr Hl]. apply accounted_retain. cbn. rewrite length_app. cbn. lia.
Qed.

Lemma accounted_expect b ref : accounted b → accounted (expect ref b).
Proof.
  intros [Hr Hl]. unfold expect. case_bool_decide; [done|]. destruct (held b !! ref) as [l|] eqn:Hh; [|done].
  split; cbn; [|done]. rewrite length_app, Hr, (heldSize_delete _ _ _ Hh). lia.
Qed.

Lemma accounted_ingestEntry b resp ref : accounted b → accounted (ingestEntry resp ref b).
Proof.
  intros [Hr Hl]. unfold ingestEntry. case_bool_decide.
  - by apply accounted_queue.
  - apply accounted_retain. cbn. rewrite heldSize_push. lia.
Qed.

Lemma accounted_expects refs b : accounted b → accounted (foldl (λ b ref, expect ref b) b refs).
Proof. revert b. induction refs as [|ref refs IH]; intros b Hb; [done|]. cbn. auto using accounted_expect. Qed.

#[local] Hint Resolve accounted_queue accounted_expect accounted_ingestEntry accounted_expects : hatchet.

Lemma ingest_accounted resp c : accounted (c_buffer c) → accounted (c_buffer (ingest resp c)).
Proof. intros Hc. unfold ingest. repeat case_match; cbn; auto with hatchet. Qed.

(** The buffer of the channel after an event. *)
Lemma channelStep_buffer e c out c' :
  channelStep e c = (out, c') →
  match e with
  | Ingest resp => c' = ingest resp c ∧ out = Nothing
  | Expect ref =>
      (out = Expected ref ∧ overflowed (c_buffer c) = false ∧ c_buffer c' = expect ref (c_buffer c)) ∨
      (out = Nothing ∧ c_buffer c' = c_buffer c)
  | RecvNow =>
      (∃ resp rest, out = Received resp ∧ overflowed (c_buffer c) = false ∧ ready (c_buffer c) = resp :: rest ∧
        let b := c_buffer c in c_buffer c' = Buffer (held b) (wanted b) (delivered b) rest (retained b - 1) (overflowed b)) ∨
      (out = Nothing ∧ c_buffer c' = c_buffer c)
  | SendReq _ _ _ => ((∃ req, out = Sent req) ∨ out = Nothing) ∧ c_buffer c' = c_buffer c
  | EngineEnds | CloseNow => out = Nothing ∧ c_buffer c' = c_buffer c
  end.
Proof.
  destruct e as [resp| |ref|ctxErr sel req| |]; cbn [channelStep]; intros He.
  - by injection He as <- <-.
  - by injection He as <- <-.
  - unfold ExpectEntry in He. repeat case_match; simplify_eq; [by right..|]. left.
    unfold isOverflowed in *. by destruct ref.
  - unfold Send in He. destruct (isClosed c || isOverflowed c); [by simplify_eq; auto|].
    destruct (stamp req c) as [[req' acked]|e]; [|by simplify_eq; auto].
    unfold acquire in He. destruct acked, (c_inflight c), ctxErr, sel; simplify_eq; eauto.
  - unfold recvPass in He. destruct (overflowed (c_buffer c)) eqn:Ho; [by simplify_eq; right|].
    destruct (ready (c_buffer c)) as [|resp rest] eqn:Hr.
    + repeat case_match; simplify_eq; by right.
    + simplify_eq. left. by exists resp, rest.
  - injection He as <- <-. split; [done|]. unfold Close. by case_match.
Qed.

Lemma channelStep_accounted e c out c' :
  channelStep e c = (out, c') → accounted (c_buffer c) → accounted (c_buffer c').
Proof.
  intros He%channelStep_buffer Hc. destruct e.
  - destruct He as [-> _]. by apply ingest_accounted.
  - by destruct He as [_ ->].
  - destruct He as [(_ & _ & ->)|[_ ->]]; auto with hatchet.
  - by destruct He as [_ ->].
  - destruct He as [(resp & rest & _ & _ & Hr & ->)|[_ ->]]; [|done]. destruct Hc as [Hc Hl]. rewrite Hr in Hc.
    split; cbn in *; lia.
  - by destruct He as [_ ->].
Qed.

(** The channel never retains more than the limit, and its counter is exact: the responses queued for Recv and
    the completions held for an ack are at most RetainedResponseLimit together, whatever the engine sends and
    however slowly the operator reads. *)
Theorem retention_bounded (task worker : string) (invocation : Z) (events : list channelEvent) :
  let b := c_buffer (channelRun events (newChannel task invocation worker)).2 in
  retained b = Z.of_nat (length (ready b)) + heldSize (held b) ∧
  Z.of_nat (length (ready b)) + heldSize (held b) ≤ 1024.
Proof.
  assert (accounted (c_buffer (channelRun events (newChannel task invocation worker)).2)) as [Hr Hl].
  { apply (channelRun_ind (λ _ _ c, accounted (c_buffer c))); [done|]. intros. by eapply channelStep_accounted. }
  split; [done|]. rewrite <- Hr. exact Hl.
Qed.

(** ** Acks before entries *)

(** Every completion of the list is of an entry that [seen] or an earlier ack of the list names. *)
Fixpoint orderly (seen : list entryRef) (l : list DurableTaskResponse) : Prop :=
  match l with
  | [] => True
  | resp :: l => (∀ ref, entryOf resp = Some ref → ref ∈ seen) ∧ orderly (seen ++ names resp) l
  end.

Lemma orderly_app seen l l' :
  orderly seen (l ++ l') ↔ orderly seen l ∧ orderly (seen ++ (l ≫= names)) l'.
Proof.
  revert seen. induction l as [|resp l IH]; intros seen; cbn [orderly app].
  - rewrite app_nil_r. naive_solver.
  - rewrite IH. cbn [mbind list_bind]. rewrite <- (assoc_L app). naive_solver.
Qed.

(** The queue is orderly after what the operator has seen, and what is wanted has been named there. *)
Record ordered (outs : list channelOutput) (b : buffer) : Prop := {
  o_ready : orderly (named outs) (ready b);
  o_wanted : ∀ ref, ref ∈ wanted b → ref ∈ named outs ++ (ready b ≫= names);
  o_held : ∀ ref l resp, held b !! ref = Some l → resp ∈ l → entryOf resp = Some ref;
}.

Lemma retain_cases n b :
  (overflowed (retain n b) = true) ∨
  (retain n b = Buffer (held b) (wanted b) (delivered b) (ready b) (retained b + n) (overflowed b)).
Proof. unfold retain. case_match; [by right|by left]. Qed.

(** A queue that grows at its end. *)
Lemma orderly_more outs l l' :
  orderly (named outs) l → orderly (named outs ++ (l ≫= names)) l' → orderly (named outs) (l ++ l').
Proof. intros. by apply orderly_app. Qed.

Lemma elem_of_more {A} (x : A) (l1 l2 l3 : list A) : x ∈ l1 ++ l2 → x ∈ l1 ++ l2 ++ l3.
Proof. rewrite !elem_of_app. tauto. Qed.

Lemma orderly_refs seen l ref :
  ref ∈ seen → (∀ resp, resp ∈ l → entryOf resp = Some ref) → orderly seen l.
Proof.
  revert seen. induction l as [|resp l IH]; intros seen Hs Hl; [done|]. split.
  - intros r Hr. rewrite (Hl resp) in Hr by constructor. by injection Hr as <-.
  - apply IH; [apply elem_of_app; by left|]. intros x Hx. apply Hl. by constructor.
Qed.

Lemma ordered_queue outs b resp :
  ordered outs b → (∀ ref, entryOf resp = Some ref → ref ∈ named outs ++ (ready b ≫= names)) →
  overflowed (queue resp b) = false → ordered outs (queue resp b) ∧ ready (queue resp b) = ready b ++ [resp].
Proof.
  intros [Hr Hw Hh] Hresp Ho. unfold queue in *.
  destruct (retain_cases 1 (Buffer (held b) (wanted b) (delivered b) (ready b ++ [resp]) (retained b) (overflowed b)))
    as [He|He]; [congruence|].
  rewrite He. split; [|done]. split; cbn.
  - apply orderly_more; [done|]. by split.
  - intros ref Hin. rewrite bind_app. by apply elem_of_more, Hw.
  - exact Hh.
Qed.

Lemma ordered_expect outs b ref :
  ordered outs b → ref ∈ named outs ++ (ready b ≫= names) → ordered outs (expect ref b).
Proof.
  intros [Hr Hw Hh] Hn. unfold expect. case_bool_decide; [done|].
  destruct (held b !! ref) as [l|] eqn:Hl; split; cbn.
  - apply orderly_more; [done|]. apply (orderly_refs _ _ ref); [done|]. by intros; eapply Hh.
  - intros r Hin. rewrite bind_app. by apply elem_of_more, Hw.
  - intros r l' resp Hr' Hin. apply lookup_delete_Some in Hr' as [_ Hr']. by eapply Hh.
  - exact Hr.
  - intros r. rewrite elem_of_union, elem_of_singleton. intros [->|Hin]; [done|]. by apply Hw.
  - exact Hh.
Qed.

Lemma ready_expect b ref : ∃ l, ready (expect ref b) = ready b ++ l.
Proof.
  unfold expect. case_bool_decide; [exists []; by rewrite app_nil_r|].
  destruct (held b !! ref) as [l|]; [by exists l|]. exists []. by rewrite app_nil_r.
Qed.

Lemma ordered_expects outs b refs :
  ordered outs b → (∀ ref, ref ∈ refs → ref ∈ named outs ++ (ready b ≫= names)) →
  ordered outs (foldl (λ b ref, expect ref b) b refs).
Proof.
  revert b. induction refs as [|ref refs IH]; intros b Hb Hrefs; [done|]. cbn. apply IH.
  - apply ordered_expect; [done|]. apply Hrefs. constructor.
  - intros r Hr. destruct (ready_expect b ref) as [l ->]. rewrite bind_app. apply elem_of_more, Hrefs.
    by constructor.
Qed.

Lemma ordered_ingestEntry outs b resp ref :
  ordered outs b → entryOf resp = Some ref → overflowed (ingestEntry resp ref b) = false →
  ordered outs (ingestEntry resp ref b).
Proof.
  intros Hb Hresp Ho. unfold ingestEntry in *. case_bool_decide as Hw.
  - apply ordered_queue; [|intros r; rewrite Hresp; intros [= <-]; by apply Hb|done].
    destruct Hb as [H1 H2 H3]. split; cbn; [done| |done]. intros r Hr. apply H2. set_solver.
  - match goal with H : overflowed (retain 1 ?x) = false |- _ => destruct (retain_cases 1 x) as [He|He] end;
      [congruence|].
    rewrite He. destruct Hb as [H1 H2 H3]. split; cbn; [done|done|]. intros r l x Hl Hx.
    destruct (decide (ref = r)) as [<-|Hne].
    + rewrite lookup_insert_eq in Hl. injection Hl as <-. apply elem_of_app in Hx as [Hx| ->%list_elem_of_singleton]; [|done].
      destruct (held b !! ref) as [l|] eqn:Hl; [by eapply H3|]. by apply elem_of_nil in Hx.
    + rewrite lookup_insert_ne in Hl by done. by eapply H3.
Qed.

Lemma overflowed_expect b ref : overflowed (expect ref b) = overflowed b.
Proof. unfold expect. by repeat case_match. Qed.

Lemma overflowed_expects b refs : overflowed (foldl (λ b ref, expect ref b) b refs) = overflowed b.
Proof. revert b. induction refs as [|ref refs IH]; intros b; [done|]. cbn. by rewrite IH, overflowed_expect. Qed.

(** An ack is queued, and then the entries it names are expected. *)
Lemma ordered_ack outs b resp :
  ordered outs b → entryOf resp = None → overflowed (queue resp b) = false →
  ordered outs (foldl (λ b ref, expect ref b) (queue resp b) (names resp)).
Proof.
  intros Hb Hresp Ho. destruct (ordered_queue outs b resp) as [Hq Hr]; [done|by rewrite Hresp|done|].
  apply ordered_expects; [done|]. intros ref Hin. rewrite Hr, bind_app. apply elem_of_app. right. apply elem_of_app.
  right. cbn. by rewrite app_nil_r.
Qed.

Lemma ordered_plain outs b resp :
  ordered outs b → entryOf resp = None → overflowed (queue resp b) = false → ordered outs (queue resp b).
Proof. intros Hb Hresp Ho. apply ordered_queue; [done|by rewrite Hresp|done]. Qed.

Lemma ordered_ingest outs c resp :
  ordered outs (c_buffer c) → overflowed (c_buffer (ingest resp c)) = false →
  ordered outs (c_buffer (ingest resp c)).
Proof.
  intros Hb Ho. unfold ingest in *. destruct (overflowed (c_buffer c)) eqn:Ho'; [by cbn in *; congruence|].
  destruct resp as [| | |entries|r|r f m p|r t m| |t i r]; cbn [c_buffer wake with_buffer with_inflight] in *;
    try by apply ordered_plain.
  - rewrite overflowed_expects in Ho. by apply (ordered_ack _ _ (TriggerRunsAck entries)).
  - rewrite overflowed_expect in Ho. by apply (ordered_ack _ _ (WaitForAck r)).
  - case_bool_decide; [done|]. by apply ordered_ingestEntry.
Qed.

Lemma overflowed_queue b resp : overflowed b = true → overflowed (queue resp b) = true.
Proof.
  intros Hb. unfold queue. match goal with |- overflowed (retain 1 ?x) = _ => destruct (retain_cases 1 x) as [He|He] end;
    [done|]. by rewrite He.
Qed.

(** A channel that has failed stays failed. *)
Lemma overflowed_mono e c out c' :
  channelStep e c = (out, c') → overflowed (c_buffer c') = false → overflowed (c_buffer c) = false.
Proof.
  intros He%channelStep_buffer Ho. destruct (overflowed (c_buffer c)) eqn:Hc; [|done]. exfalso. destruct e.
  - destruct He as [-> _]. unfold ingest in Ho. rewrite Hc in Ho. congruence.
  - destruct He as [_ He]. congruence.
  - destruct He as [(_ & ? & _)|[_ He]]; congruence.
  - destruct He as [_ He]. congruence.
  - destruct He as [(? & ? & _ & ? & _)|[_ He]]; congruence.
  - destruct He as [_ He]. congruence.
Qed.

Lemma ordered_same outs out b : named (outs ++ [out]) = named outs → ordered outs b → ordered (outs ++ [out]) b.
Proof. intros Hn [H1 H2 H3]. split; rewrite ?Hn; done. Qed.

Lemma named_app outs outs' : named (outs ++ outs') = named outs ++ named outs'.
Proof. apply bind_app. Qed.

Lemma named_snoc outs out : named (outs ++ [out]) = named outs ++ namesOut out.
Proof. rewrite named_app. cbn. by rewrite app_nil_r. Qed.

(** More is seen as named. *)
Lemma orderly_weaken seen seen' l : (∀ ref, ref ∈ seen → ref ∈ seen') → orderly seen l → orderly seen' l.
Proof.
  revert seen seen'. induction l as [|resp l IH]; intros seen seen' Hs; [done|]. intros [H1 H2]. split; [auto|].
  apply (IH (seen ++ names resp)); [|done]. intros ref. rewrite !elem_of_app. naive_solver.
Qed.

Lemma ordered_step outs c e out c' :
  (overflowed (c_buffer c) = false → ordered outs (c_buffer c)) → channelStep e c = (out, c') →
  (overflowed (c_buffer c') = false → ordered (outs ++ [out]) (c_buffer c')).
Proof.
  intros Hc He Ho. pose proof (overflowed_mono _ _ _ _ He Ho) as Ho'. specialize (Hc Ho').
  apply channelStep_buffer in He. destruct e as [resp| |ref|x s q| |].
  - destruct He as [-> ->]. apply ordered_same; [by rewrite named_snoc, app_nil_r|]. by apply ordered_ingest.
  - destruct He as [-> ->]. apply ordered_same; [by rewrite named_snoc, app_nil_r|done].
  - destruct He as [(-> & _ & ->)|[-> ->]]; [|by apply ordered_same; [rewrite named_snoc, app_nil_r|]].
    apply ordered_expect.
    + destruct Hc as [H1 H2 H3]. split; [|intros r Hr; apply H2 in Hr|done]; rewrite named_snoc.
      * eapply orderly_weaken; [|done]. intros r. rewrite elem_of_app. by left.
      * rewrite !elem_of_app in *. tauto.
    + rewrite named_snoc, !elem_of_app. left. right. by apply list_elem_of_singleton.
  - destruct He as [[[req ->]| ->] ->]; (apply ordered_same; [by rewrite named_snoc, app_nil_r|done]).
  - destruct He as [(resp & rest & -> & _ & Hr & ->)|[-> ->]]; [|by apply ordered_same; [rewrite named_snoc, app_nil_r|]].
    destruct Hc as [H1 H2 H3]. rewrite Hr in H1, H2. destruct H1 as [_ H1]. split; cbn; rewrite ?named_snoc; [done| |done].
    intros r Hr'. apply H2 in Hr'. cbn in Hr'. by rewrite <- (assoc_L app).
  - destruct He as [-> ->]. apply ordered_same; [by rewrite named_snoc, app_nil_r|done].
Qed.

Lemma ordered_run task invocation worker events :
  let s := channelRun events (newChannel task invocation worker) in
  overflowed (c_buffer s.2) = false → ordered s.1 (c_buffer s.2).
Proof.
  apply (channelRun_ind (λ _ outs c, overflowed (c_buffer c) = false → ordered outs (c_buffer c))).
  - intros _. split; cbn; [done|set_solver|by intros ? ? ?; rewrite lookup_empty].
  - intros. by eapply ordered_step.
Qed.

(** C31: the operator never reads an entry completion ahead of the ack that names its entry: whatever the engine
    sends and in whatever order the goroutines run, every completion Recv returns is of an entry that an ack
    received earlier names, or that the operator registered with ExpectEntry earlier. *)
Theorem ack_before_entry (task worker : string) (invocation : Z) (events : list channelEvent) (i : nat)
    (resp : DurableTaskResponse) (ref : entryRef) :
  let outs := (channelRun events (newChannel task invocation worker)).1 in
  outs !! i = Some (Received resp) → entryOf resp = Some ref → ref ∈ named (take i outs).
Proof.
  revert i. induction events as [|e events IH] using rev_ind; [done|]. intros i. rewrite channelRun_snoc.
  pose proof (ordered_run task invocation worker events) as Hord.
  destruct (channelRun events _) as [outs c]. destruct (channelStep e c) as [out c'] eqn:He. cbn in *.
  intros Hi Hresp. destruct (decide (i < length outs)%nat) as [Hlt|Hge].
  - rewrite lookup_app_l in Hi by done. rewrite take_app_le by lia. by apply IH.
  - rewrite lookup_app_r in Hi by lia. destruct (i - length outs)%nat as [|k] eqn:Hk; [|done]. injection Hi as ->.
    replace i with (length outs) by lia. rewrite take_app_length.
    apply channelStep_buffer in He. destruct e; try (destruct He; congruence).
    + destruct He as [(He & _)|[He _]]; congruence.
    + destruct He as [[[? He]|He] _]; congruence.
    + destruct He as [(resp' & rest & [= <-] & Ho & Hr & _)|[He _]]; [|congruence].
      specialize (Hord Ho). destruct Hord as [H1 _ _]. rewrite Hr in H1. by apply H1.
Qed.

Lemma ack_before_entry_witness :
  let entry := EntryCompleted (Some (LogRef "t" 1 1 5)) false "" "" in
  let ack := WaitForAck (Some (LogRef "t" 1 1 5)) in
  let outs := (channelRun [Ingest entry; RecvNow; Ingest ack; RecvNow; RecvNow] (newChannel "t" 1 "w")).1 in
  outs = [Nothing; Nothing; Nothing; Received ack; Received entry] ∧ EntryRef 1 5 ∈ named (take 4 outs).
Proof.
  intros entry ack outs. split; [vm_compute; reflexivity|].
  apply (ack_before_entry "t" "w" 1 [Ingest entry; RecvNow; Ingest ack; RecvNow; RecvNow] 4 entry (EntryRef 1 5));
    vm_compute; reflexivity.
Defined.

(** ** Exactly the acknowledged completions are delivered *)

(** The refs of the completions of a list. *)
Definition entries (l : list DurableTaskResponse) : gset entryRef := list_to_set (omap entryOf l).

Lemma entries_app l l' : entries (l ++ l') = entries l ∪ entries l'.
Proof. unfold entries. by rewrite omap_app, list_to_set_app_L. Qed.

Lemma entries_one resp : entries [resp] = match entryOf resp with Some ref => {[ref]} | None => ∅ end.
Proof. unfold entries. cbn. destruct (entryOf resp); cbn; set_solver. Qed.

(** A non-empty list of completions of one entry. *)
Lemma entries_same l ref : l ≠ [] → (∀ resp, resp ∈ l → entryOf resp = Some ref) → entries l = {[ref]}.
Proof.
  induction l as [|resp l IH]; [done|]. intros _ Hl. change (resp :: l) with ([resp] ++ l).
  rewrite entries_app, entries_one, (Hl resp) by constructor.
  destruct l as [|resp' l]; [set_solver|]. rewrite IH; [set_solver|done|]. intros x Hx. apply Hl. by constructor.
Qed.

(** The tables of the channel, as sets: [comp] are the entries whose completion came, [acks] the acknowledged
    ones, and [out] the responses that were handed out. *)
Record tables (comp acks : gset entryRef) (out : list DurableTaskResponse) (b : buffer) : Prop := {
  tb_delivered : delivered b = comp ∩ acks;
  tb_wanted : wanted b = acks ∖ comp;
  tb_held : dom (held b) = comp ∖ acks;
  tb_lists : ∀ ref l, held b !! ref = Some l → l ≠ [] ∧ ∀ resp, resp ∈ l → entryOf resp = Some ref;
  tb_out : entries (out ++ ready b) = comp ∩ acks;
}.

Lemma tables_queue comp acks out b resp :
  tables comp acks out b → entryOf resp = None → overflowed (queue resp b) = false →
  tables comp acks out (queue resp b).
Proof.
  intros [H1 H2 H3 H4 H5] Hresp Ho. unfold queue in *.
  match goal with H : overflowed (retain 1 ?x) = false |- _ => destruct (retain_cases 1 x) as [He|He] end; [congruence|].
  rewrite He. split; cbn; try done. rewrite (assoc_L app), entries_app, H5, entries_one, Hresp. set_solver.
Qed.

Lemma tables_expect comp acks out b ref :
  tables comp acks out b → tables comp ({[ref]} ∪ acks) out (expect ref b).
Proof.
  intros [H1 H2 H3 H4 H5]. unfold expect. case_bool_decide as Hd.
  { assert ({[ref]} ∪ acks = acks) as -> by set_solver. by split. }
  destruct (held b !! ref) as [l|] eqn:Hl.
  - assert (ref ∈ comp ∖ acks) as Hin by (rewrite <- H3; by apply elem_of_dom). destruct (H4 _ _ Hl) as [Hne Hall].
    split; cbn.
    + rewrite H1. set_solver.
    + rewrite H2. set_solver.
    + rewrite dom_delete_L, H3. set_solver.
    + intros r l' [_ Hr]%lookup_delete_Some. by apply H4.
    + rewrite (assoc_L app), entries_app, H5, (entries_same l ref Hne Hall). set_solver.
  - assert (ref ∉ comp ∖ acks) as Hin by (rewrite <- H3; by apply not_elem_of_dom). rewrite H1 in Hd.
    split; cbn; [rewrite H1|rewrite H2|rewrite H3|exact H4|rewrite H5]; clear -Hin Hd; set_solver.
Qed.

Lemma tables_expects comp acks out b refs :
  tables comp acks out b → tables comp (list_to_set refs ∪ acks) out (foldl (λ b ref, expect ref b) b refs).
Proof.
  revert acks b. induction refs as [|ref refs IH]; intros acks b Hb; cbn [foldl list_to_set].
  - by rewrite (left_id_L ∅ (∪)).
  - replace ({[ref]} ∪ list_to_set refs ∪ acks) with (list_to_set refs ∪ ({[ref]} ∪ acks)) by set_solver.
    by apply IH, tables_expect.
Qed.

Lemma tables_ingestEntry comp acks out b resp ref :
  tables comp acks out b → entryOf resp = Some ref → ref ∉ delivered b →
  overflowed (ingestEntry resp ref b) = false → tables ({[ref]} ∪ comp) acks out (ingestEntry resp ref b).
Proof.
  intros [H1 H2 H3 H4 H5] Hresp Hd Ho. unfold ingestEntry, queue in *. rewrite H1 in Hd. rewrite H2 in *.
  case_bool_decide as Hw; match goal with H : overflowed (retain 1 ?x) = false |- _ => destruct (retain_cases 1 x) as [He|He] end;
    try congruence; rewrite He; clear He Ho; split; cbn.
  - rewrite H1. set_solver.
  - set_solver.
  - rewrite H3. set_solver.
  - exact H4.
  - rewrite (assoc_L app), entries_app, H5, entries_one, Hresp. set_solver.
  - rewrite H1. set_solver.
  - set_solver.
  - rewrite dom_insert_L, H3. set_solver.
  - intros r l Hl. destruct (decide (ref = r)) as [<-|Hne]; [|rewrite lookup_insert_ne in Hl by done; by apply H4].
    rewrite lookup_insert_eq in Hl. injection Hl as <-. split; [by destruct (default _ _)|].
    intros x [Hx| ->%list_elem_of_singleton]%elem_of_app; [|done].
    destruct (held b !! ref) as [l|] eqn:Hl; [by eapply H4|]. by apply elem_of_nil in Hx.
  - rewrite H5. set_solver.
Qed.

(** What a response adds to the two sets. *)
Lemma tables_ingest comp acks out c resp :
  tables comp acks out (c_buffer c) → overflowed (c_buffer (ingest resp c)) = false →
  tables (entries [resp] ∪ comp) (list_to_set (names resp) ∪ acks) out (c_buffer (ingest resp c)).
Proof.
  intros Hb Ho. rewrite entries_one. unfold ingest in *.
  destruct (overflowed (c_buffer c)) eqn:Ho'; [by cbn in *; congruence|].
  destruct resp as [| | |entries|r|r f m p|r t m| |t i r]; cbn [c_buffer wake with_buffer with_inflight entryOf names] in *;
    rewrite ?(left_id_L ∅ (∪)); cbn [list_to_set]; rewrite ?(left_id_L ∅ (∪)), ?(right_id_L ∅ (∪));
    try by apply tables_queue.
  - rewrite overflowed_expects in Ho. by apply tables_expects, tables_queue.
  - rewrite overflowed_expect in Ho. by apply tables_expect, tables_queue.
  - case_bool_decide as Hd; cbn in *; [|by apply tables_ingestEntry].
    assert ({[getRef r]} ∪ comp = comp) as ->; [|done]. pose proof (tb_delivered _ _ _ _ Hb). set_solver.
Qed.

Lemma completed_snoc events e :
  completed (events ++ [e]) =
    match e with Ingest resp => entries [resp] | _ => ∅ end ∪ completed events.
Proof.
  unfold completed. rewrite omap_app, list_to_set_app_L. rewrite (comm_L (∪)). f_equal.
  destruct e as [resp| | | | |]; [|done..]. rewrite entries_one. cbn. destruct (entryOf resp); cbn; set_solver.
Qed.

Lemma acknowledged_snoc events e outs out :
  acknowledged (events ++ [e]) (outs ++ [out]) =
    match e with Ingest resp => list_to_set (names resp) | _ => ∅ end ∪
    match out with Expected ref => {[ref]} | _ => ∅ end ∪ acknowledged events outs.
Proof.
  unfold acknowledged. rewrite bind_app, omap_app, !list_to_set_app_L.
  assert (∀ e, list_to_set (C := gset entryRef) ([e] ≫= λ e, match e with Ingest resp => names resp | _ => [] end) =
    match e with Ingest resp => list_to_set (names resp) | _ => ∅ end) as ->.
  { intros []; cbn; rewrite ?app_nil_r; done. }
  assert (∀ out, list_to_set (C := gset entryRef) (omap (λ out, match out with Expected ref => Some ref | _ => None end) [out]) =
    match out with Expected ref => {[ref]} | _ => ∅ end) as ->.
  { intros []; cbn; set_solver. }
  set_solver.
Qed.

Lemma received_snoc outs out :
  received (outs ++ [out]) = received outs ++ match out with Received resp => [resp] | _ => [] end.
Proof. unfold received. rewrite omap_app. by destruct out. Qed.

(** The tables after an event that leaves the buffer and the two sets as they are. *)
Lemma tables_step events outs c e out c' :
  (overflowed (c_buffer c) = false → tables (completed events) (acknowledged events outs) (received outs) (c_buffer c)) →
  channelStep e c = (out, c') →
  (overflowed (c_buffer c') = false →
   tables (completed (events ++ [e])) (acknowledged (events ++ [e]) (outs ++ [out])) (received (outs ++ [out]))
     (c_buffer c')).
Proof.
  intros Hc He Ho. pose proof (overflowed_mono _ _ _ _ He Ho) as Ho'. specialize (Hc Ho').
  rewrite completed_snoc, acknowledged_snoc, received_snoc. apply channelStep_buffer in He.
  destruct e as [resp| |ref|x s q| |].
  - destruct He as [-> ->]. rewrite app_nil_r, (right_id_L ∅ (∪)). by apply tables_ingest.
  - destruct He as [-> ->]. by rewrite app_nil_r, !(left_id_L ∅ (∪)).
  - destruct He as [(-> & _ & ->)|[-> ->]]; rewrite app_nil_r, !(left_id_L ∅ (∪)); [by apply tables_expect|done].
  - destruct He as [[[req ->]| ->] ->]; by rewrite app_nil_r, !(left_id_L ∅ (∪)).
  - destruct He as [(resp & rest & -> & _ & Hr & ->)|[-> ->]]; [|by rewrite app_nil_r, !(left_id_L ∅ (∪))].
    rewrite !(left_id_L ∅ (∪)). destruct Hc as [H1 H2 H3 H4 H5]. split; cbn; try done.
    rewrite Hr in H5. by rewrite <- (assoc_L app).
  - destruct He as [-> ->]. by rewrite app_nil_r, !(left_id_L ∅ (∪)).
Qed.

(** C13: the channel refines two sets, the entries whose completion the engine sent and the acknowledged ones: as long
    as the retention limit was not passed, it holds exactly the completions that are not acknowledged, waits for
    exactly the acknowledged entries that are not complete, and has handed out or queued a completion of exactly
    the entries that are both.  No acknowledged completion is lost and none is invented, in any order. *)
Theorem channel_refines_sets (task worker : string) (invocation : Z) (events : list channelEvent) :
  let outs := (channelRun events (newChannel task invocation worker)).1 in
  let b := c_buffer (channelRun events (newChannel task invocation worker)).2 in
  overflowed b = false →
  dom (held b) = completed events ∖ acknowledged events outs ∧
  wanted b = acknowledged events outs ∖ completed events ∧
  entries (received outs ++ ready b) = completed events ∩ acknowledged events outs.
Proof.
  pose proof (channelRun_ind (λ events outs c, overflowed (c_buffer c) = false →
    tables (completed events) (acknowledged events outs) (received outs) (c_buffer c))
    (newChannel task invocation worker)) as Hind.
  intros outs b Ho. specialize (λ H1 H2, Hind H1 H2 events). destruct Hind as [H1 H2 H3 H4 H5]; [| |done|done].
  - intros _. split; cbn; done.
  - intros. by eapply tables_step.
Qed.

Lemma channel_refines_sets_witness :
  let entry n := EntryCompleted (Some (LogRef "t" 1 1 n)) false "" "" in
  let events := [Ingest (entry 5); Ingest (entry 6); Expect (EntryRef 1 5); Expect (EntryRef 1 7); RecvNow] in
  let outs := (channelRun events (newChannel "t" 1 "w")).1 in
  let b := c_buffer (channelRun events (newChannel "t" 1 "w")).2 in
  dom (held b) = completed events ∖ acknowledged events outs ∧
  wanted b = acknowledged events outs ∖ completed events ∧
  entries (received outs ++ ready b) = completed events ∩ acknowledged events outs.
Proof.
  intros entry events outs b.
  apply (channel_refines_sets "t" "w" 1 events). vm_compute. reflexivity.
Defined.

(** ** A completion that is sent again *)

(** The channel as a function of its buffer, for a channel that is open. *)
Definition openChannel (task worker : string) (invocation : Z) (notify : bool) (b : buffer) : durableChannel :=
  Channel b false false false false notify task invocation worker.

Section repeats.
Context (task worker : string) (invocation : Z) (n : bool) (ref : DurableEventLogEntryRef) (f : bool) (m p : string).
Let r := getRef (Some ref).
Let entry := EntryCompleted (Some ref) f m p.
Let chan := openChannel task worker invocation.

Lemma ingest_unwanted (h : list DurableTaskResponse) (k : Z) :
  k + 1 ≤ RetainedResponseLimit →
  ingest entry (chan n (Buffer (<[r := h]> ∅) ∅ ∅ [] k false)) = chan true (Buffer (<[r := h ++ [entry]]> ∅) ∅ ∅ [] (k + 1) false).
Proof.
  intros Hk. unfold ingest. cbn. rewrite bool_decide_false by set_solver. unfold ingestEntry. cbn.
  rewrite bool_decide_false by set_solver. change (EntryRef (lr_BranchId ref) (lr_NodeId ref)) with r.
  rewrite lookup_insert_eq. cbn. unfold retain. cbn.
  destruct (Z.leb_spec (k + 1) RetainedResponseLimit); [|lia]. by rewrite insert_insert_eq.
Qed.

Lemma ingest_new : ingest entry (newChannel task invocation worker) = chan true (Buffer (<[r := [entry]]> ∅) ∅ ∅ [] 1 false).
Proof.
  unfold ingest. cbn. rewrite bool_decide_false by set_solver. unfold ingestEntry. cbn.
  rewrite bool_decide_false by set_solver. by rewrite lookup_empty.
Qed.

Lemma expect_held (h : list DurableTaskResponse) (k : Z) :
  ExpectEntry (er_branchId r) (er_nodeId r) (chan n (Buffer (<[r := h]> ∅) ∅ ∅ [] k false)) =
    (None, chan true (Buffer ∅ ∅ {[r]} h k false)).
Proof.
  unfold ExpectEntry. cbn. unfold expect. cbn. rewrite bool_decide_false by set_solver.
  replace (EntryRef (lr_BranchId ref) (lr_NodeId ref)) with r by done. rewrite lookup_insert_eq.
  rewrite delete_insert_eq, delete_empty, (right_id_L ∅ (∪)). done.
Qed.

Lemma ingest_again (k : Z) (l : list DurableTaskResponse) :
  ingest entry (chan n (Buffer ∅ ∅ {[r]} l k false)) = chan n (Buffer ∅ ∅ {[r]} l k false).
Proof. unfold ingest. cbn. rewrite bool_decide_true; [done|]. by apply elem_of_singleton. Qed.
End repeats.

(** Two copies of a completion that arrive before the ack are both held, and the ack queues both: the operator
    receives the completion twice.  A copy that arrives after the ack is dropped. *)
Theorem held_repeats_delivered_twice (task worker : string) (invocation : Z) (ref : DurableEventLogEntryRef)
    (f : bool) (m p : string) :
  let entry := EntryCompleted (Some ref) f m p in
  received (channelRun [Ingest entry; Ingest entry; Expect (getRef (Some ref)); RecvNow; RecvNow; RecvNow]
    (newChannel task invocation worker)).1 = [entry; entry] ∧
  received (channelRun [Ingest entry; Expect (getRef (Some ref)); Ingest entry; RecvNow; RecvNow; RecvNow]
    (newChannel task invocation worker)).1 = [entry].
Proof.
  intros entry. unfold channelRun, entry. split; cbn [foldl channelStep fst snd app].
  - by rewrite ingest_new, ingest_unwanted, expect_held by done.
  - rewrite ingest_new, expect_held. cbn [fst snd app]. by rewrite ingest_again.
Qed.

(** ** One ack-bearing request at a time *)

Definition ackBearing (req : DurableTaskRequest) : bool :=
  match req with Memo _ _ | TriggerRuns _ _ | WaitFor _ _ _ | EvictInvocation _ _ => true | _ => false end.

(** The responses that free the slot. *)
Definition freesSlot (resp : DurableTaskResponse) : bool :=
  match resp with
  | WaitForAck _ | TriggerRunsAck _ | MemoAck | EvictionAck | ErrorResponse _ _ _ => true
  | _ => false
  end.

(** The ack-bearing requests the engine took since the last ack, or error in its place, came. *)
Definition unacked (events : list channelEvent) (outs : list channelOutput) : nat :=
  foldl (λ n eo,
    match eo with
    | (Ingest resp, _) => if freesSlot resp then 0%nat else n
    | (_, Sent req) => if ackBearing req then S n else n
    | _ => n
    end) 0%nat (zip events outs).

Lemma stamp_ackBearing req c req' acked : stamp req c = inl (req', acked) → ackBearing req' = acked.
Proof. destruct req as [| | | | | | |[]]; cbn; by intros [= <- <-]. Qed.

Lemma channelRun_length events c : length (channelRun events c).1 = length events.
Proof.
  induction events as [|e events IH] using rev_ind; [done|]. rewrite channelRun_snoc.
  destruct (channelRun events c), (channelStep e _). cbn in *. rewrite !length_app, IH. done.
Qed.

Lemma ingest_inflight resp c :
  c_inflight (ingest resp c) = if overflowed (c_buffer c) then c_inflight c else c_inflight c && negb (freesSlot resp).
Proof.
  unfold ingest. destruct (overflowed _); [done|].
  destruct resp; cbn; rewrite ?andb_true_r, ?andb_false_r; try done. by case_match.
Qed.

Lemma Send_inflight ctxErr sel req c :
  match Send ctxErr sel req c with
  | (inl req', c') => (ackBearing req' = true → c_inflight c = false) ∧ c_inflight c' = c_inflight c || ackBearing req'
  | (inr _, c') => c_inflight c' = c_inflight c
  end.
Proof.
  unfold Send. destruct (isClosed c || isOverflowed c); [done|].
  destruct (stamp req c) as [[req' acked]|e] eqn:Hs; [|done]. apply stamp_ackBearing in Hs. unfold acquire.
  destruct acked, (c_inflight c) eqn:Hi, ctxErr, sel; cbn; rewrite ?Hs, ?Hi; done.
Qed.

(** The slot is taken while a request is outstanding. *)
Definition slotKept (events : list channelEvent) (outs : list channelOutput) (c : durableChannel) : Prop :=
  length outs = length events ∧ (unacked events outs ≤ 1)%nat ∧ (unacked events outs = 1%nat → c_inflight c = true).

Lemma unacked_snoc events e outs out :
  length outs = length events →
  unacked (events ++ [e]) (outs ++ [out]) =
    match e, out with
    | Ingest resp, _ => if freesSlot resp then 0%nat else unacked events outs
    | _, Sent req => if ackBearing req then S (unacked events outs) else unacked events outs
    | _, _ => unacked events outs
    end.
Proof. intros Hlen. unfold unacked. rewrite zip_with_app, foldl_app by done. by destruct e, out. Qed.

Lemma slotKept_step events outs c e out c' :
  slotKept events outs c → channelStep e c = (out, c') → slotKept (events ++ [e]) (outs ++ [out]) c'.
Proof.
  intros (Hlen & Hn & Hi) He. split; [rewrite !length_app; cbn; lia|]. rewrite unacked_snoc by done.
  set (n := unacked events outs) in *.
  destruct e as [resp| |ref|x s q| |]; cbn [channelStep] in He.
  - injection He as <- <-. rewrite ingest_inflight. destruct (freesSlot resp); cbn; [lia|].
    split; [done|]. intros ->. rewrite Hi by done. by case_match.
  - injection He as <- <-. done.
  - unfold ExpectEntry in He. repeat case_match; simplify_eq; done.
  - pose proof (Send_inflight x s q c) as Hs. destruct (Send x s q c) as [[req'|err] c1].
    + injection He as <- <-. destruct Hs as [Hs ->]. destruct (ackBearing req'); cbn; [|rewrite orb_false_r; done].
      rewrite Hs in * by done. destruct n as [|[|n]]; [done| |lia]. by discriminate Hi.
    + injection He as <- <-. by rewrite Hs.
  - unfold recvPass in He. repeat case_match; simplify_eq; done.
  - injection He as <- <-. unfold Close. by case_match.
Qed.

(** The channel admits one ack-bearing request at a time: of the requests the engine took, at most one is not yet
    followed by its ack, or by the error that replaces it. *)
Theorem one_request_in_flight (task worker : string) (invocation : Z) (events : list channelEvent) :
  (unacked events (channelRun events (newChannel task invocation worker)).1 ≤ 1)%nat.
Proof.
  apply (channelRun_ind slotKept); [|by intros; eapply slotKept_step].
  split_and!; [done|cbn; lia|done].
Qed.

End DurableTheorems.
