(* ===== verification/DagRun.v ===== *)
(** The DAG orchestrator (src/pkg/operator/dagoperator/dag.go): one goroutine that triggers the steps of a
    workflow as their parents complete, registers the conditions steps wait on, and consumes the engine's
    responses until every step is complete.  Tasks are shared objects: a store maps pointers to them.  The
    channel to the engine and the trigger callback are an interface, [World], whose state is passed along. *)

From S2P Require Import Prelude Workers DurableChannel.
Import Workers DurableChannel.

Module Dag.

Open Scope Z_scope.

(** ** Conditions of steps *)

Inductive V1MatchConditionAction := CREATE | QUEUE | CANCEL | SKIP | CREATE_MATCH.
#[global] Instance action_eq_dec : EqDecision V1MatchConditionAction.
Proof. solve_decision. Defined.
#[global] Instance action_countable : Countable V1MatchConditionAction.
Proof.
  refine (inj_countable'
    (λ a, match a with CREATE => 0 | QUEUE => 1 | CANCEL => 2 | SKIP => 3 | CREATE_MATCH => 4 end)
    (λ n : Z, match n with 0 => CREATE | 1 => QUEUE | 2 => CANCEL | 3 => SKIP | _ => CREATE_MATCH end) _).
  by intros [].
Defined.

Inductive V1StepMatchConditionKind := PARENT_OVERRIDE | USER_EVENT | SLEEP.
#[global] Instance kind_eq_dec : EqDecision V1StepMatchConditionKind.
Proof. solve_decision. Defined.

(** A row; a null text is read as the empty string.  The code uses a pointer to the row as its key, which is
    the id here since a row is listed once. *)
Record V1StepMatchCondition := StepMatchCondition {
  mc_ID : Z;
  mc_StepID : uuid;
  mc_ReadableDataKey : string;
  mc_Action : V1MatchConditionAction;
  mc_OrGroupID : uuid;
  mc_Expression : string;
  mc_Kind : V1StepMatchConditionKind;
  mc_SleepDuration : string;
  mc_EventKey : string;
  mc_ParentReadableID : string;
}.

Inductive conditionKind := conditionKindWait | conditionKindSkip | conditionKindCancel.
#[global] Instance conditionKind_eq_dec : EqDecision conditionKind.
Proof. solve_decision. Defined.

(** ** Values decoded from JSON *)

Inductive json :=
  | JNull
  | JBool (b : bool)
  | JNumber (literal : string)
  | JString (s : string)
  | JArray (elements : list json)
  | JObject (fields : list (string * json)).

(** A Go [map[string]interface{}]. *)
Definition jsonObject : Type := gmap string json.

(** ** Tasks *)

Definition ptr : Type := nat.

(** What does not change during a run. *)
Record taskInfo := TaskInfo {
  i_actionId : string;
  i_workflowName : string;
  i_readableId : string;
  i_index : Z;
  i_parents : list ptr;
  i_stepConditions : list V1StepMatchCondition;
}.

(** A registered condition of a task: the four fields of the wait (isWaiting, isWaitSatisfied, waitNodeId,
    waitBranchId), of the skip watch and of the cancel watch. *)
Record watch := Watch {
  registered : bool;
  fired : bool;
  watchNodeId : Z;
  watchBranchId : Z;
}.

Record task := Task {
  t_info : taskInfo;
  t_isCompleted : bool;
  t_isFailed : bool;
  t_isCancelled : bool;
  t_isTriggered : bool;
  t_isSkipped : bool;
  t_errorMessage : string;
  t_output : option jsonObject;
  t_reExecuted : bool;
  t_skipWatch : watch;
  t_cancelWatch : watch;
  t_wait : watch;
  t_nodeId : Z;
  t_branchId : Z;
  t_workflowRunExternalId : option uuid;
}.

(** The zero value of a task with its fixed fields. *)
Definition newTask (i : taskInfo) : task :=
  let w := Watch false false 0 0 in Task i false false false false false "" None false w w w 0 0 None.

Definition set_isCompleted (v : bool) (t : task) : task :=
  Task (t_info t) v (t_isFailed t) (t_isCancelled t) (t_isTriggered t) (t_isSkipped t) (t_errorMessage t)
    (t_output t) (t_reExecuted t) (t_skipWatch t) (t_cancelWatch t) (t_wait t) (t_nodeId t) (t_branchId t)
    (t_workflowRunExternalId t).
Definition set_isFailed (v : bool) (t : task) : task :=
  Task (t_info t) (t_isCompleted t) v (t_isCancelled t) (t_isTriggered t) (t_isSkipped t) (t_errorMessage t)
    (t_output t) (t_reExecuted t) (t_skipWatch t) (t_cancelWatch t) (t_wait t) (t_nodeId t) (t_branchId t)
    (t_workflowRunExternalId t).
Definition set_isCancelled (v : bool) (t : task) : task :=
  Task (t_info t) (t_isCompleted t) (t_isFailed t) v (t_isTriggered t) (t_isSkipped t) (t_errorMessage t)
    (t_output t) (t_reExecuted t) (t_skipWatch t) (t_cancelWatch t) (t_wait t) (t_nodeId t) (t_branchId t)
    (t_workflowRunExternalId t).
Definition set_isTriggered (v : bool) (t : task) : task :=
  Task (t_info t) (t_isCompleted t) (t_isFailed t) (t_isCancelled t) v (t_isSkipped t) (t_errorMessage t)
    (t_output t) (t_reExecuted t) (t_skipWatch t) (t_cancelWatch t) (t_wait t) (t_nodeId t) (t_branchId t)
    (t_workflowRunExternalId t).
Definition set_isSkipped (v : bool) (t : task) : task :=
  Task (t_info t) (t_isCompleted t) (t_isFailed t) (t_isCancelled t) (t_isTriggered t) v (t_errorMessage t)
    (t_output t) (t_reExecuted t) (t_skipWatch t) (t_cancelWatch t) (t_wait t) (t_nodeId t) (t_branchId t)
    (t_workflowRunExternalId t).
Definition set_errorMessage (v : string) (t : task) : task :=
  Task (t_info t) (t_isCompleted t) (t_isFailed t) (t_isCancelled t) (t_isTriggered t) (t_isSkipped t) v
    (t_output t) (t_reExecuted t) (t_skipWatch t) (t_cancelWatch t) (t_wait t) (t_nodeId t) (t_branchId t)
    (t_workflowRunExternalId t).
Definition set_output (v : option jsonObject) (t : task) : task :=
  Task (t_info t) (t_isCompleted t) (t_isFailed t) (t_isCancelled t) (t_isTriggered t) (t_isSkipped t)
    (t_errorMessage t) v (t_reExecuted t) (t_skipWatch t) (t_cancelWatch t) (t_wait t) (t_nodeId t)
    (t_branchId t) (t_workflowRunExternalId t).
Definition set_reExecuted (v : bool) (t : task) : task :=
  Task (t_info t) (t_isCompleted t) (t_isFailed t) (t_isCancelled t) (t_isTriggered t) (t_isSkipped t)
    (t_errorMessage t) (t_output t) v (t_skipWatch t) (t_cancelWatch t) (t_wait t) (t_nodeId t) (t_branchId t)
    (t_workflowRunExternalId t).
Definition set_skipWatch (v : watch) (t : task) : task :=
  Task (t_info t) (t_isCompleted t) (t_isFailed t) (t_isCancelled t) (t_isTriggered t) (t_isSkipped t)
    (t_errorMessage t) (t_output t) (t_reExecuted t) v (t_cancelWatch t) (t_wait t) (t_nodeId t) (t_branchId t)
    (t_workflowRunExternalId t).
Definition set_cancelWatch (v : watch) (t : task) : task :=
  Task (t_info t) (t_isCompleted t) (t_isFailed t) (t_isCancelled t) (t_isTriggered t) (t_isSkipped t)
    (t_errorMessage t) (t_output t) (t_reExecuted t) (t_skipWatch t) v (t_wait t) (t_nodeId t) (t_branchId t)
    (t_workflowRunExternalId t).
Definition set_wait (v : watch) (t : task) : task :=
  Task (t_info t) (t_isCompleted t) (t_isFailed t) (t_isCancelled t) (t_isTriggered t) (t_isSkipped t)
    (t_errorMessage t) (t_output t) (t_reExecuted t) (t_skipWatch t) (t_cancelWatch t) v (t_nodeId t)
    (t_branchId t) (t_workflowRunExternalId t).
Definition set_nodeId (v : Z) (t : task) : task :=
  Task (t_info t) (t_isCompleted t) (t_isFailed t) (t_isCancelled t) (t_isTriggered t) (t_isSkipped t)
    (t_errorMessage t) (t_output t) (t_reExecuted t) (t_skipWatch t) (t_cancelWatch t) (t_wait t) v
    (t_branchId t) (t_workflowRunExternalId t).
Definition set_branchId (v : Z) (t : task) : task :=
  Task (t_info t) (t_isCompleted t) (t_isFailed t) (t_isCancelled t) (t_isTriggered t) (t_isSkipped t)
    (t_errorMessage t) (t_output t) (t_reExecuted t) (t_skipWatch t) (t_cancelWatch t) (t_wait t) (t_nodeId t) v
    (t_workflowRunExternalId t).
Definition set_workflowRunExternalId (v : option uuid) (t : task) : task :=
  Task (t_info t) (t_isCompleted t) (t_isFailed t) (t_isCancelled t) (t_isTriggered t) (t_isSkipped t)
    (t_errorMessage t) (t_output t) (t_reExecuted t) (t_skipWatch t) (t_cancelWatch t) (t_wait t) (t_nodeId t)
    (t_branchId t) v.

(** The watch a kind of condition uses. *)
Definition watchOf (kind : conditionKind) (t : task) : watch :=
  match kind with
  | conditionKindSkip => t_skipWatch t
  | conditionKindCancel => t_cancelWatch t
  | conditionKindWait => t_wait t
  end.
Definition set_watch (kind : conditionKind) (w : watch) : task → task :=
  match kind with
  | conditionKindSkip => set_skipWatch w
  | conditionKindCancel => set_cancelWatch w
  | conditionKindWait => set_wait w
  end.
Definition registerWatch (kind : conditionKind) (t : task) : task :=
  let w := watchOf kind t in set_watch kind (Watch true (fired w) (watchNodeId w) (watchBranchId w)) t.
Definition fireWatch (kind : conditionKind) (t : task) : task :=
  let w := watchOf kind t in set_watch kind (Watch (registered w) true (watchNodeId w) (watchBranchId w)) t.
Definition nameWatch (kind : conditionKind) (ref : DurableEventLogEntryRef) (t : task) : task :=
  let w := watchOf kind t in set_watch kind (Watch (registered w) (fired w) (lr_NodeId ref) (lr_BranchId ref)) t.

(** ** The world: the engine behind the channel and the trigger callback *)

Record triggerArgs := TriggerArgs {
  ta_actionId : string;
  ta_workflowName : string;
  ta_childIndex : Z;
  ta_parentTaskRunIds : list uuid;
  ta_isSkipped : bool;
  ta_isCancelled : bool;
  ta_parentReExecuted : bool;
}.

(** The fields of the result the orchestrator reads. *)
Record DAGStepTriggerResult := TriggerResult {
  tr_NodeId : Z;
  tr_BranchId : Z;
  tr_WorkflowRunExternalId : uuid;
  tr_ReExecuted : bool;
}.

(** The errors of the trigger callback the operator tells apart. *)
Inductive triggerError :=
  | StaleInvocationError
  | NonDeterminismError (message : string)
  | DAGStepCELFailureError (message : string)
  | PgError (code : string)
  | ContextCanceled
  | OtherTriggerError (message : string).

(** The reply of Recv under the timeout of one report interval. *)
Inductive recvReply := Got (resp : DurableTaskResponse) | IntervalPassed | RunCtxDone | RecvFailed (e : channelError).

Class World (W : Type) := {
  w_send : DurableTaskRequest → W → option channelError * W;
  w_expectEntry : entryRef → W → option channelError * W;
  w_recv : W → recvReply * W;
  w_triggerStep : triggerArgs → W → (DAGStepTriggerResult + triggerError) * W;
}.

(** What a run is given: its ids, the expression evaluator (an error is None), the decoder of a payload (None
    is an error, and a null decodes to a nil map) and the printing of ids. *)
Record runEnv := RunEnv {
  e_externalId : uuid;
  e_workerId : uuid;
  e_invocationCount : Z;
  e_uuidString : uuid → string;
  e_evalBoolExpr : string → jsonObject → option bool;
  e_unmarshal : string → option (option jsonObject);
}.

(** ** Errors *)

Inductive dagError :=
  | dagCancelledError (taskActionId : string)
  | dagChildFailedError (taskActionId errorMessage : string)
  | dagEngineError (errorType : DurableTaskErrorType) (errorMessage : string)
  | dagEvictedError (reason : string)
  | TriggerFailed (actionId : string) (e : triggerError)
  | AwaitFailed (actionId : string) (e : channelError)
  | SendFailed (e : channelError)
  | SessionClosed (e : channelError)
  | RunInterrupted.

(** ** The state of a run *)

Record pendingEntryCompletion := PendingEntryCompletion {
  pc_nodeId : Z;
  pc_branchId : Z;
  pc_isFailure : bool;
  pc_errorMessage : string;
  pc_payload : string;
}.

(** What a run does, in order: a ghost of the model. *)
Inductive dagEvent :=
  | EvTrigger (t : ptr) (skip cancelled : bool)
  | EvRegister (t : ptr) (kind : conditionKind)
  | EvAck (t : ptr) (kind : conditionKind)
  | EvComplete (t : ptr).

Record dag (W : Type) := Dag {
  d_world : W;
  d_log : list dagEvent;
  d_heap : gmap ptr task;
  d_tasks : list ptr;
  d_onFailureTask : option ptr;
  d_pendingTasks : list ptr;
  d_err : option dagError;
  d_pendingWaitAcks : list (ptr * conditionKind);
  d_pendingEntryCompletions : list pendingEntryCompletion;
  d_conditionMatches : gmap Z bool;
}.
Arguments Dag {_}.
Arguments d_world {_}.
Arguments d_log {_}.
Arguments d_heap {_}.
Arguments d_tasks {_}.
Arguments d_onFailureTask {_}.
Arguments d_pendingTasks {_}.
Arguments d_err {_}.
Arguments d_pendingWaitAcks {_}.
Arguments d_pendingEntryCompletions {_}.
Arguments d_conditionMatches {_}.

Definition set_world {W} (v : W) (d : dag W) : dag W :=
  Dag v (d_log d) (d_heap d) (d_tasks d) (d_onFailureTask d) (d_pendingTasks d) (d_err d) (d_pendingWaitAcks d)
    (d_pendingEntryCompletions d) (d_conditionMatches d).
Definition set_log {W} (v : list dagEvent) (d : dag W) : dag W :=
  Dag (d_world d) v (d_heap d) (d_tasks d) (d_onFailureTask d) (d_pendingTasks d) (d_err d)
    (d_pendingWaitAcks d) (d_pendingEntryCompletions d) (d_conditionMatches d).
Definition set_heap {W} (v : gmap ptr task) (d : dag W) : dag W :=
  Dag (d_world d) (d_log d) v (d_tasks d) (d_onFailureTask d) (d_pendingTasks d) (d_err d) (d_pendingWaitAcks d)
    (d_pendingEntryCompletions d) (d_conditionMatches d).
Definition set_tasks {W} (v : list ptr) (d : dag W) : dag W :=
  Dag (d_world d) (d_log d) (d_heap d) v (d_onFailureTask d) (d_pendingTasks d) (d_err d) (d_pendingWaitAcks d)
    (d_pendingEntryCompletions d) (d_conditionMatches d).
Definition set_pendingTasks {W} (v : list ptr) (d : dag W) : dag W :=
  Dag (d_world d) (d_log d) (d_heap d) (d_tasks d) (d_onFailureTask d) v (d_err d) (d_pendingWaitAcks d)
    (d_pendingEntryCompletions d) (d_conditionMatches d).
Definition set_err {W} (v : option dagError) (d : dag W) : dag W :=
  Dag (d_world d) (d_log d) (d_heap d) (d_tasks d) (d_onFailureTask d) (d_pendingTasks d) v
    (d_pendingWaitAcks d) (d_pendingEntryCompletions d) (d_conditionMatches d).
Definition set_pendingWaitAcks {W} (v : list (ptr * conditionKind)) (d : dag W) : dag W :=
  Dag (d_world d) (d_log d) (d_heap d) (d_tasks d) (d_onFailureTask d) (d_pendingTasks d) (d_err d) v
    (d_pendingEntryCompletions d) (d_conditionMatches d).
Definition set_pendingEntryCompletions {W} (v : list pendingEntryCompletion) (d : dag W) : dag W :=
  Dag (d_world d) (d_log d) (d_heap d) (d_tasks d) (d_onFailureTask d) (d_pendingTasks d) (d_err d)
    (d_pendingWaitAcks d) v (d_conditionMatches d).
Definition set_conditionMatches {W} (v : gmap Z bool) (d : dag W) : dag W :=
  Dag (d_world d) (d_log d) (d_heap d) (d_tasks d) (d_onFailureTask d) (d_pendingTasks d) (d_err d)
    (d_pendingWaitAcks d) (d_pendingEntryCompletions d) v.

Definition record {W} (e : dagEvent) (d : dag W) : dag W := set_log (d_log d ++ [e]) d.

(** Reading and writing through a pointer. *)
Definition task_at {W} (p : ptr) (d : dag W) : task :=
  default (newTask (TaskInfo "" "" "" 0 [] [])) (d_heap d !! p).
Definition upd {W} (p : ptr) (f : task → task) (d : dag W) : dag W :=
  set_heap (<[p := f (task_at p d)]> (d_heap d)) d.

Section run.
Context {W : Type} {world : World W} (E : runEnv).
Implicit Types (d : dag W) (p : ptr).

(** ** Conditions on parents *)

(** One condition, when the output of [parent] is known. *)
Definition evaluateCondition (parent : task) (output : jsonObject) (matches : gmap Z bool)
    (cond : V1StepMatchCondition) : gmap Z bool :=
  if negb (bool_decide (mc_Kind cond = PARENT_OVERRIDE)) then matches
  else if negb (bool_decide (mc_ParentReadableID cond = i_readableId (t_info parent))) then matches
  else
    match matches !! mc_ID cond with
    | Some _ => matches
    | None =>
        let expr := if bool_decide (mc_Expression cond = ""%string) then "true"%string else mc_Expression cond in
        <[mc_ID cond := default false (e_evalBoolExpr E expr output)]> matches
    end.

(** It returns no error: an expression that cannot be evaluated counts as not matched. *)
Definition evaluateConditionsForParent (p : ptr) (d : dag W) : dag W :=
  let parent := task_at p d in
  match t_output parent with
  | None => d
  | Some output =>
      let conds := d_tasks d ≫= λ t, i_stepConditions (t_info (task_at t d)) in
      upd p (set_output None)
        (set_conditionMatches (foldl (evaluateCondition parent output) (d_conditionMatches d) conds) d)
  end.

Definition allParentsSkipped (t : task) (d : dag W) : bool :=
  match i_parents (t_info t) with
  | [] => false
  | parents => forallb (λ p, t_isSkipped (task_at p d)) parents
  end.

(** The or-groups of the parent conditions of a task that skip or cancel it, with whether one of the evaluated
    conditions of the group matched. *)
Definition groupKey : Type := V1MatchConditionAction * uuid.
Definition addGroupResult (matches : gmap Z bool) (groups : gmap groupKey bool) (cond : V1StepMatchCondition) :
    gmap groupKey bool :=
  if negb (bool_decide (mc_Kind cond = PARENT_OVERRIDE)) then groups
  else if negb (bool_decide (mc_Action cond = SKIP ∨ mc_Action cond = CANCEL)) then groups
  else
    match matches !! mc_ID cond with
    | None => groups
    | Some matched =>
        let key : groupKey := (mc_Action cond, mc_OrGroupID cond) in
        if (matched : bool) then <[key := true]> groups
        else match groups !! key with Some _ => groups | None => <[key := false]> groups end
    end.

(** The groups of an action, and those of them that are satisfied. *)
Definition groupTotal (action : V1MatchConditionAction) (groups : gmap groupKey bool) : nat :=
  length (filter (λ kv : groupKey * bool, kv.1.1 = action) (map_to_list groups)).
Definition satisfiedGroups (action : V1MatchConditionAction) (groups : gmap groupKey bool) : gset uuid :=
  list_to_set ((λ kv : groupKey * bool, kv.1.2) <$>
    filter (λ kv : groupKey * bool, kv.1.1 = action ∧ kv.2 = true) (map_to_list groups)).

Definition evaluateParentConditions (t : task) (d : dag W) : bool * bool :=
  let groups := foldl (addGroupResult (d_conditionMatches d)) ∅ (i_stepConditions (t_info t)) in
  let all action :=
    (0 <? groupTotal action groups)%nat && (size (satisfiedGroups action groups) =? groupTotal action groups)%nat in
  if all CANCEL then (false, true)
  else if all SKIP then (true, false)
  else (false, false).

(** ** Conditions on events and sleeps *)

Definition getMatchConditionActionForWatchKind (kind : conditionKind) : V1MatchConditionAction :=
  match kind with conditionKindSkip => SKIP | conditionKindCancel => CANCEL | conditionKindWait => QUEUE end.

Definition hasEventOrSleepConditions (t : task) (kind : conditionKind) : bool :=
  existsb (λ c, bool_decide (mc_Action c = getMatchConditionActionForWatchKind kind) &&
                (bool_decide (mc_Kind c = SLEEP) || bool_decide (mc_Kind c = USER_EVENT)))
    (i_stepConditions (t_info t)).

Definition evaluateWaitParentConditions (t : task) (d : dag W) : gset uuid :=
  foldl (λ satisfied c,
    if negb (bool_decide (mc_Action c = QUEUE)) then satisfied
    else if negb (bool_decide (mc_Kind c = PARENT_OVERRIDE)) then satisfied
    else if bool_decide (mc_OrGroupID c ∈ satisfied) then satisfied
    else
      match d_conditionMatches d !! mc_ID c with
      | Some true => {[mc_OrGroupID c]} ∪ satisfied
      | _ => satisfied
      end) ∅ (i_stepConditions (t_info t)).

Definition allWaitGroupsSatisfied (t : task) (satisfied : gset uuid) : bool :=
  forallb (λ c, negb (bool_decide (mc_Action c = QUEUE)) || bool_decide (mc_OrGroupID c ∈ satisfied))
    (i_stepConditions (t_info t)).

Definition addListenerCondition (action : V1MatchConditionAction) (skip : gset uuid)
    (cs : DurableEventListenerConditions) (c : V1StepMatchCondition) : DurableEventListenerConditions :=
  if negb (bool_decide (mc_Action c = action)) then cs
  else if bool_decide (mc_OrGroupID c ∈ skip) then cs
  else
    match mc_Kind c with
    | SLEEP =>
        ListenerConditions (dc_SleepConditions cs ++
          [SleepCondition (mc_ReadableDataKey c) (e_uuidString E (mc_OrGroupID c)) (mc_SleepDuration c)])
          (dc_UserEventConditions cs)
    | USER_EVENT =>
        ListenerConditions (dc_SleepConditions cs)
          (dc_UserEventConditions cs ++
            [UserEventCondition (mc_ReadableDataKey c) (e_uuidString E (mc_OrGroupID c)) (mc_Expression c)
               (mc_EventKey c)])
    | PARENT_OVERRIDE => cs
    end.

(** Sends the wait for the conditions of a kind and appends to the acks that are pending. *)
Definition registerCondition (p : ptr) (kind : conditionKind) (satisfied : gset uuid) (d : dag W) :
    option channelError * dag W :=
  let action := getMatchConditionActionForWatchKind kind in
  let conditions :=
    foldl (addListenerCondition action satisfied) (ListenerConditions [] []) (i_stepConditions (t_info (task_at p d))) in
  let '(err, w) :=
    w_send (WaitFor (e_uuidString E (e_externalId E)) (e_invocationCount E) conditions) (d_world d) in
  let d := set_world w d in
  match err with
  | Some e => (Some e, d)
  | None => (None, record (EvRegister p kind) (set_pendingWaitAcks (d_pendingWaitAcks d ++ [(p, kind)]) d))
  end.

(** ** Emitting tasks *)

Definition finishedTaskRunIds (d : dag W) : list uuid :=
  omap (λ p, let t := task_at p d in if t_isCompleted t then t_workflowRunExternalId t else None) (d_tasks d).

Definition expectChild (p : ptr) (d : dag W) : option dagError * dag W :=
  let t := task_at p d in
  let '(err, w) := w_expectEntry (EntryRef (t_branchId t) (t_nodeId t)) (d_world d) in
  let d := set_world w d in
  match err with Some e => (Some (AwaitFailed (i_actionId (t_info t)) e), d) | None => (None, d) end.

(** How the body of the loop over the pending tasks ends for one of them: it is dropped, it stays pending, it
    was triggered, or the pass returns an error, with whether there was progress in this iteration. *)
Inductive emitOutcome := Gone | Keep | Triggered | Fail (e : dagError) (progressed : bool).

(** What the conditions say of a task that is ready. *)
Inductive decision := Proceed (skip cancelled : bool) | Wait | Stop (e : dagError).

Definition ackPending (d : dag W) : bool := match d_pendingWaitAcks d with [] => false | _ => true end.

(** The registration of the skip watch or of the cancel watch: None when the iteration goes on. *)
Definition gateWatch (kind : conditionKind) (p : ptr) (d : dag W) : option decision * dag W :=
  let t := task_at p d in
  if hasEventOrSleepConditions t kind && negb (registered (watchOf kind t)) then
    if ackPending d then (Some Wait, d)
    else
      match registerCondition p kind ∅ d with
      | (Some e, d) => (Some (Stop (SendFailed e)), set_err (Some (SendFailed e)) d)
      | (None, d) => (None, upd p (registerWatch kind) d)
      end
  else (None, d).

Definition gateWait (p : ptr) (d : dag W) : decision * dag W :=
  let t := task_at p d in
  if hasEventOrSleepConditions t conditionKindWait && negb (fired (t_wait t)) then
    if registered (t_wait t) then (Wait, d)
    else
      let satisfied := evaluateWaitParentConditions t d in
      if allWaitGroupsSatisfied t satisfied then (Proceed false false, upd p (fireWatch conditionKindWait) d)
      else if ackPending d then (Wait, d)
      else
        match registerCondition p conditionKindWait satisfied d with
        | (Some e, d) => (Stop (SendFailed e), set_err (Some (SendFailed e)) d)
        | (None, d) => (Wait, upd p (registerWatch conditionKindWait) d)
        end
  else (Proceed false false, d).

Definition decideTask (p : ptr) (d : dag W) : decision * dag W :=
  let t := task_at p d in
  let cancelled := existsb (λ q, t_isCancelled (task_at q d) || t_isFailed (task_at q d)) (i_parents (t_info t)) in
  if cancelled then (Proceed false true, d)
  else if allParentsSkipped t d then (Proceed true false, d)
  else
    match evaluateParentConditions t d with
    | (false, false) =>
        match gateWatch conditionKindSkip p d with
        | (Some dec, d) => (dec, d)
        | (None, d) =>
            match gateWatch conditionKindCancel p d with
            | (Some dec, d) => (dec, d)
            | (None, d) =>
                if fired (t_cancelWatch (task_at p d)) then (Proceed false true, d)
                else if fired (t_skipWatch (task_at p d)) then (Proceed true false, d)
                else gateWait p d
            end
        end
    | (skip, cancelled) => (Proceed skip cancelled, d)
    end.

(** The entry of a triggered task. *)
Definition set_ref (r : DAGStepTriggerResult) (t : task) : task :=
  set_workflowRunExternalId (Some (tr_WorkflowRunExternalId r)) (set_branchId (tr_BranchId r) (set_nodeId (tr_NodeId r) t)).

Definition markSkipped (t : task) : task :=
  set_output (Some {["skipped"%string := JBool true]}) (set_isCompleted true (set_isSkipped true t)).

Definition triggerTask (p : ptr) (skip cancelled : bool) (d : dag W) : emitOutcome * dag W :=
  let t := task_at p d in
  let parentReExecuted := existsb (λ q, t_reExecuted (task_at q d)) (i_parents (t_info t)) in
  let args := TriggerArgs (i_actionId (t_info t)) (i_workflowName (t_info t)) (i_index (t_info t))
    (finishedTaskRunIds d) skip cancelled parentReExecuted in
  let '(reply, w) := w_triggerStep args (d_world d) in
  let d := set_world w d in
  match reply with
  | inr e => let err := TriggerFailed (i_actionId (t_info t)) e in (Fail err false, set_err (Some err) d)
  | inl r =>
      let d := record (EvTrigger p skip cancelled) (upd p (set_reExecuted (tr_ReExecuted r)) d) in
      let d :=
        if cancelled then upd p (set_isCancelled true) d
        else if skip then evaluateConditionsForParent p (record (EvComplete p) (upd p markSkipped d))
        else d in
      let d := upd p (set_isTriggered true) (upd p (set_ref r) d) in
      match expectChild p d with
      | (Some err, d) => (Fail err true, set_err (Some err) d)
      | (None, d) => (Triggered, d)
      end
  end.

Definition emitTask (ready : ptr → bool) (p : ptr) (d : dag W) : emitOutcome * dag W :=
  let t := task_at p d in
  if t_isTriggered t || t_isSkipped t then (Gone, d)
  else if negb (ready p) then (Keep, d)
  else
    match decideTask p d with
    | (Wait, d) => (Keep, d)
    | (Stop e, d) => (Fail e false, d)
    | (Proceed skip cancelled, d) => if ackPending d then (Keep, d) else triggerTask p skip cancelled d
    end.

(** The loop over the pending tasks; [still] is the slice of those that stay, which shares the array of
    [d_pendingTasks], so that an error leaves its prefix overwritten. *)
Fixpoint emitLoop (ready : ptr → bool) (rest still : list ptr) (progressed : bool) (d : dag W) :
    (bool * option dagError) * dag W :=
  match rest with
  | [] => ((progressed, None), set_pendingTasks still d)
  | p :: rest =>
      match emitTask ready p d with
      | (Gone, d) => emitLoop ready rest still progressed d
      | (Keep, d) => emitLoop ready rest (still ++ [p]) progressed d
      | (Triggered, d) => emitLoop ready rest still true d
      | (Fail e progressed', d) =>
          ((progressed || progressed', Some e),
           set_pendingTasks (still ++ drop (length still) (d_pendingTasks d)) d)
      end
  end.

Definition parentsCompleted (d : dag W) (p : ptr) : bool :=
  forallb (λ q, t_isCompleted (task_at q d)) (i_parents (t_info (task_at p d))).

Definition emitReadyTasks (d : dag W) : (bool * option dagError) * dag W :=
  emitLoop (parentsCompleted d) (d_pendingTasks d) [] false d.

(** The passes go on while there is progress; None is that the fuel ran out. *)
Fixpoint emitPasses (fuel : nat) (d : dag W) : option (option dagError) * dag W :=
  match fuel with
  | O => (None, d)
  | S fuel =>
      match emitReadyTasks d with
      | ((_, Some e), d) => (Some (Some e), d)
      | ((false, None), d) => (Some None, d)
      | ((true, None), d) => emitPasses fuel d
      end
  end.

Definition taskEmitter (fuel : nat) (d : dag W) : option (option dagError) * dag W :=
  match d_err d with Some _ => (Some None, d) | None => emitPasses fuel d end.

(** ** Consuming responses *)

Definition TaskCancelledErrorMessage : string := "task was cancelled".

(** A boolean field of the output that is true. *)
Definition flag (key : string) (output : jsonObject) : bool :=
  match output !! key with Some (JBool b) => b | _ => false end.

Definition applyCompletion (p : ptr) (isFailure : bool) (errorMessage payload : string) (d : dag W) : dag W :=
  let d := record (EvComplete p) (upd p (set_isCompleted true) d) in
  let d :=
    if isFailure && negb (t_isCancelled (task_at p d)) then
      if bool_decide (errorMessage = TaskCancelledErrorMessage) then upd p (set_isCancelled true) d
      else upd p (set_errorMessage errorMessage) (upd p (set_isFailed true) d)
    else if negb (bool_decide (payload = ""%string)) then
      match e_unmarshal E payload with
      | None => d
      | Some decoded =>
          let output := default ∅ decoded in
          let d := upd p (set_output (Some output)) d in
          let d := if flag "skipped" output then upd p (set_isSkipped true) d else d in
          if flag "cancelled" output then upd p (set_isCancelled true) d else d
      end
    else if negb isFailure && negb (t_isCancelled (task_at p d)) then upd p (set_output (Some ∅)) d
    else d in
  evaluateConditionsForParent p d.

(** A watch that awaits the entry. *)
Definition awaits (w : watch) (nodeId branchId : Z) : bool :=
  registered w && negb (fired w) && (watchNodeId w =? nodeId) && (watchBranchId w =? branchId).

Fixpoint tryApplyIn (tasks : list ptr) (entry : pendingEntryCompletion) (d : dag W) : bool * dag W :=
  match tasks with
  | [] => (false, d)
  | p :: tasks =>
      let t := task_at p d in
      let n := pc_nodeId entry in
      let b := pc_branchId entry in
      if awaits (t_skipWatch t) n b then (true, upd p (fireWatch conditionKindSkip) d)
      else if awaits (t_cancelWatch t) n b then (true, upd p (fireWatch conditionKindCancel) d)
      else if awaits (t_wait t) n b then (true, upd p (fireWatch conditionKindWait) d)
      else if negb ((t_nodeId t =? n) && (t_branchId t =? b)) then tryApplyIn tasks entry d
      else (true, applyCompletion p (pc_isFailure entry) (pc_errorMessage entry) (pc_payload entry) d)
  end.

Definition tryApplyEntryCompletion (entry : pendingEntryCompletion) (d : dag W) : bool * dag W :=
  tryApplyIn (d_tasks d) entry d.

Fixpoint drainIn (entries remaining : list pendingEntryCompletion) (d : dag W) :
    list pendingEntryCompletion * dag W :=
  match entries with
  | [] => (remaining, d)
  | entry :: entries =>
      let '(applied, d) := tryApplyEntryCompletion entry d in
      drainIn entries (if applied : bool then remaining else remaining ++ [entry]) d
  end.

Definition drainPendingEntryCompletions (d : dag W) : dag W :=
  let '(remaining, d) := drainIn (d_pendingEntryCompletions d) [] d in
  set_pendingEntryCompletions remaining d.

Definition taskConsumer (resp : DurableTaskResponse) (d : dag W) : dag W :=
  match resp with
  | WaitForAck ref =>
      match ref, d_pendingWaitAcks d with
      | Some ref, (p, kind) :: acks =>
          drainPendingEntryCompletions
            (record (EvAck p kind) (upd p (nameWatch kind ref) (set_pendingWaitAcks acks d)))
      | _, _ => d
      end
  | EntryCompleted (Some ref) isFailure errorMessage payload =>
      let entry := PendingEntryCompletion (lr_NodeId ref) (lr_BranchId ref) isFailure errorMessage payload in
      match tryApplyEntryCompletion entry d with
      | (true, d) => d
      | (false, d) => set_pendingEntryCompletions (d_pendingEntryCompletions d ++ [entry]) d
      end
  | ServerEvict task invocation reason =>
      if bool_decide (task = e_uuidString E (e_externalId E)) && (invocation =? e_invocationCount E) then
        set_err (Some (dagEvictedError reason)) d
      else d
  | ErrorResponse ref errorType errorMessage =>
      let other :=
        match ref with
        | Some r => negb (bool_decide (lr_DurableTaskExternalId r = e_uuidString E (e_externalId E)))
        | None => false
        end in
      if other then d else set_err (Some (dagEngineError errorType errorMessage)) d
  | EntryCompleted None _ _ _ | NoMessage | RegisterWorkerAck | MemoAck | TriggerRunsAck _ | EvictionAck => d
  end.

(** ** The on-failure task *)

Definition isDone (d : dag W) : bool :=
  match d_err d with
  | Some _ => true
  | None =>
      forallb (λ p, t_isCompleted (task_at p d)) (d_tasks d) &&
      match d_onFailureTask d with Some f => t_isCompleted (task_at f d) | None => true end
  end.

Definition evaluateOnFailure (d : dag W) : (bool * option dagError) * dag W :=
  match d_onFailureTask d with
  | None => ((false, None), d)
  | Some f =>
      if t_isTriggered (task_at f d) then ((false, None), d)
      else if ackPending d then ((false, None), d)
      else
        let anyFailed := existsb (λ p, t_isFailed (task_at p d)) (d_tasks d) in
        let allOthersDone := forallb (λ p, t_isCompleted (task_at p d)) (d_tasks d) in
        if negb anyFailed && negb allOthersDone then ((false, None), d)
        else
          let skip := negb anyFailed in
          let t := task_at f d in
          let args := TriggerArgs (i_actionId (t_info t)) (i_workflowName (t_info t)) (i_index (t_info t))
            (finishedTaskRunIds d) skip false false in
          let '(reply, w) := w_triggerStep args (d_world d) in
          let d := set_world w d in
          match reply with
          | inr e => let err := TriggerFailed (i_actionId (t_info t)) e in ((false, Some err), set_err (Some err) d)
          | inl r =>
              let d := record (EvTrigger f skip false) (upd f (set_reExecuted (tr_ReExecuted r)) d) in
              let d := upd f (set_isTriggered true) (upd f (set_ref r) d) in
              let d := if skip then record (EvComplete f) (upd f markSkipped d) else d in
              match expectChild f (set_tasks (d_tasks d ++ [f]) d) with
              | (Some err, d) => ((true, Some err), set_err (Some err) d)
              | (None, d) => ((true, None), d)
              end
          end
  end.

(** ** Waiting for the engine *)

Definition outstandingWaitingEntries (d : dag W) : list DurableTaskAwaitedCompletedEntry :=
  let entry n b := AwaitedEntry (e_uuidString E (e_externalId E)) (e_invocationCount E) n b in
  let watchEntry w := if registered w && negb (fired w) then [entry (watchNodeId w) (watchBranchId w)] else [] in
  d_tasks d ≫= λ p,
    let t := task_at p d in
    (if t_isTriggered t && negb (t_isCompleted t) then [entry (t_nodeId t) (t_branchId t)] else []) ++
    watchEntry (t_wait t) ++ watchEntry (t_skipWatch t) ++ watchEntry (t_cancelWatch t).

Definition reportBlockedOnDurableEvents (d : dag W) : option channelError * dag W :=
  match d_pendingWaitAcks d, d_pendingEntryCompletions d with
  | [], [] =>
      match outstandingWaitingEntries d with
      | [] => (None, d)
      | entries =>
          let '(err, w) := w_send (WorkerStatus (e_uuidString E (e_workerId E)) entries) (d_world d) in
          (err, set_world w d)
      end
  | _, _ => (None, d)
  end.

(** A receive per report interval, until a response comes; None is that the fuel ran out. *)
Fixpoint awaitResponse (fuel : nat) (d : dag W) : option (DurableTaskResponse + dagError) * dag W :=
  match fuel with
  | O => (None, d)
  | S fuel =>
      let '(reply, w) := w_recv (d_world d) in
      let d := set_world w d in
      match reply with
      | Got resp => (Some (inl resp), d)
      | RunCtxDone => (Some (inr RunInterrupted), d)
      | RecvFailed e => (Some (inr (SessionClosed e)), d)
      | IntervalPassed =>
          match reportBlockedOnDurableEvents d with
          | (Some e, d) => (Some (inr (SendFailed e)), d)
          | (None, d) => awaitResponse fuel d
          end
      end
  end.

(** ** The run *)

Definition newDag (heap : gmap ptr task) (tasks : list ptr) (onFailureTask : option ptr) (w : W) : dag W :=
  Dag w [] heap tasks onFailureTask tasks None [] [] ∅.

(** The error of a run whose loop has ended. *)
Definition runResult (d : dag W) : option dagError :=
  match d_err d with
  | Some e => Some e
  | None =>
      match filter (λ p, t_isFailed (task_at p d) = true) (d_tasks d) with
      | p :: _ => Some (dagChildFailedError (i_actionId (t_info (task_at p d))) (t_errorMessage (task_at p d)))
      | [] =>
          match filter (λ p, t_isCancelled (task_at p d) = true) (d_tasks d) with
          | p :: _ => Some (dagCancelledError (i_actionId (t_info (task_at p d))))
          | [] => None
          end
      end
  end.

(** The loop of the run; the outer None is that the fuel ran out. *)
Fixpoint runLoop (fuel : nat) (d : dag W) : option (option dagError) * dag W :=
  match fuel with
  | O => (None, d)
  | S fuel =>
      if isDone d then (Some (runResult d), d)
      else
        match taskEmitter (S (length (d_pendingTasks d))) d with
        | (None, d) => (None, d)
        | (Some (Some e), d) => (Some (Some e), d)
        | (Some None, d) =>
            match evaluateOnFailure d with
            | ((_, Some e), d) => (Some (Some e), d)
            | ((true, None), d) => runLoop fuel d
            | ((false, None), d) =>
                if isDone d then (Some (runResult d), d)
                else
                  match awaitResponse (S fuel) d with
                  | (None, d) => (None, d)
                  | (Some (inr e), d) => (Some (Some e), d)
                  | (Some (inl resp), d) => runLoop fuel (taskConsumer resp d)
                  end
            end
        end
  end.

Definition dagDurableTask (fuel : nat) (heap : gmap ptr task) (tasks : list ptr) (onFailureTask : option ptr) (w : W) :
    option (option dagError) * dag W :=
  runLoop fuel (newDag heap tasks onFailureTask w).

End run.
End Dag.
