(* ===== verification/DagConditions.v ===== *)
(** The conditions a step has on the outputs of its parents: how the or-groups decide whether it is skipped or
    cancelled. *)

From S2P Require Import Prelude Workers DurableChannel DagRun.
Import Workers DurableChannel Dag.

Module DagConditions.

(** Two filters keep as many elements when the second condition follows from the first. *)
Lemma filter_both_le {A} (P Q : A → Prop) `{∀ x, Decision (P x)} `{∀ x, Decision (P x ∧ Q x)} (l : list A) :
  (length (filter (λ x, P x ∧ Q x) l) ≤ length (filter P l))%nat.
Proof. induction l as [|x l IH]; [done|]. rewrite !filter_cons. repeat case_decide; cbn; try lia; tauto. Qed.

Lemma filter_both_length {A} (P Q : A → Prop) `{∀ x, Decision (P x)} `{∀ x, Decision (P x ∧ Q x)} (l : list A) :
  length (filter (λ x, P x ∧ Q x) l) = length (filter P l) ↔ ∀ x, x ∈ l → P x → Q x.
Proof.
  induction l as [|x l IH]; [split; [by intros _ x []%elem_of_nil|done]|].
  pose proof (filter_both_le P Q l) as Hle. rewrite !filter_cons. setoid_rewrite elem_of_cons. repeat case_decide; cbn.
  - rewrite Nat.succ_inj_wd, IH. naive_solver.
  - tauto.
  - split; [lia|]. intros Hall. assert (Q x) by (by apply (Hall x); [left|]). tauto.
  - rewrite IH. split; [|naive_solver]. intros Hall y [->|Hy]; [done|by apply Hall].
Qed.

Lemma length_positive {A} (l : list A) : (0 < length l)%nat ↔ ∃ x, x ∈ l.
Proof.
  destruct l as [|x l]; cbn; split; [lia|by intros (x & []%elem_of_nil)|intros _; exists x; constructor|lia].
Qed.

Section conditions.
Context (matches : gmap Z bool).
Implicit Types (c : V1StepMatchCondition) (conds : list V1StepMatchCondition).

(** A condition that was evaluated when its parent completed, with its result. *)
Definition evaluated (action : V1MatchConditionAction) c (b : bool) : Prop :=
  mc_Kind c = PARENT_OVERRIDE ∧ mc_Action c = action ∧ matches !! mc_ID c = Some b.

(** The conditions of an action decide: there is one, and each or-group that has one has one that matched. *)
Definition decides (action : V1MatchConditionAction) conds : Prop :=
  (∃ c b, c ∈ conds ∧ evaluated action c b) ∧
  ∀ c b, c ∈ conds → evaluated action c b → ∃ c', c' ∈ conds ∧ evaluated action c' true ∧ mc_OrGroupID c' = mc_OrGroupID c.

Definition isGate (action : V1MatchConditionAction) : Prop := action = SKIP ∨ action = CANCEL.

(** The map of the groups: a key per group with an evaluated condition, true when one of them matched. *)
Definition grouped (groups : gmap groupKey bool) conds : Prop :=
  ∀ action g, isGate action →
    (is_Some (groups !! (action, g)) ↔ ∃ c b, c ∈ conds ∧ evaluated action c b ∧ mc_OrGroupID c = g) ∧
    (groups !! (action, g) = Some true ↔ ∃ c, c ∈ conds ∧ evaluated action c true ∧ mc_OrGroupID c = g).

Lemma grouped_add groups conds c :
  grouped groups conds → grouped (addGroupResult matches groups c) (conds ++ [c]).
Proof.
  intros Hg action g Hgate. specialize (Hg action g Hgate).
  assert (∀ P : V1StepMatchCondition → Prop, (∃ x, x ∈ conds ++ [c] ∧ P x) ↔ (∃ x, x ∈ conds ∧ P x) ∨ P c) as Hex.
  { intros P. setoid_rewrite elem_of_app. setoid_rewrite list_elem_of_singleton. naive_solver. }
  assert ((∃ x b, x ∈ conds ++ [c] ∧ evaluated action x b ∧ mc_OrGroupID x = g) ↔
    (∃ x b, x ∈ conds ∧ evaluated action x b ∧ mc_OrGroupID x = g) ∨ (∃ b, evaluated action c b ∧ mc_OrGroupID c = g)) as Hex2.
  { setoid_rewrite elem_of_app. setoid_rewrite list_elem_of_singleton. naive_solver. }
  rewrite Hex2, Hex. clear Hex Hex2. destruct Hg as [Hs Ht]. rewrite <- Hs, <- Ht. unfold addGroupResult, groupKey in *.
  destruct (bool_decide_reflect (mc_Kind c = PARENT_OVERRIDE)) as [Hk|Hk]; cbn [negb].
  2: { unfold evaluated. naive_solver. }
  destruct (bool_decide_reflect (mc_Action c = SKIP ∨ mc_Action c = CANCEL)) as [Ha|Ha]; cbn [negb].
  2: { unfold evaluated. split; split; [naive_solver| |naive_solver|]; (intros [?|Hx]; [done|]); destruct Ha; naive_solver. }
  destruct (matches !! mc_ID c) as [m|] eqn:Hm.
  2: { unfold evaluated. rewrite Hm. naive_solver. }
  destruct (decide ((mc_Action c, mc_OrGroupID c) = (action, g))) as [[= <- <-]|Hne].
  - unfold evaluated. rewrite Hm. destruct m.
    + rewrite lookup_insert_eq. split; split; [|eauto| |eauto]; intros _; right; eauto.
    + destruct (groups !! (mc_Action c, mc_OrGroupID c)) as [b|] eqn:Hl.
      * rewrite ?Hl. naive_solver.
      * rewrite lookup_insert_eq. split; split; [|eauto|naive_solver|]; [intros _; right; eauto|]. intros [?|Hx]; naive_solver.
  - assert (¬ (∃ b, evaluated action c b ∧ mc_OrGroupID c = g)) as Hno.
    { intros (b & (_ & <- & _) & <-). done. }
    assert (∀ b, <[(mc_Action c, mc_OrGroupID c) := b]> groups !! (action, g) = groups !! (action, g)) as Hne'.
    { intros b. by rewrite lookup_insert_ne. }
    split; (split; [intros Hx; left|intros [Hx|Hx]; [|destruct Hno; eauto]]); revert Hx; repeat case_match; rewrite ?Hne'; done.
Qed.

Lemma grouped_all rest done groups :
  grouped groups done → grouped (foldl (addGroupResult matches) groups rest) (done ++ rest).
Proof.
  revert done groups. induction rest as [|c rest IH]; intros done groups Hg; [by rewrite app_nil_r|]. cbn.
  replace (done ++ c :: rest) with ((done ++ [c]) ++ rest) by (by rewrite <- (assoc_L app)). by apply IH, grouped_add.
Qed.

Lemma grouped_conditions conds : grouped (foldl (addGroupResult matches) ∅ conds) conds.
Proof.
  apply (grouped_all conds []). intros action g _. rewrite lookup_empty. split; split.
  - by intros [? ?].
  - by intros (c & b & []%elem_of_nil & _).
  - done.
  - by intros (c & []%elem_of_nil & _).
Qed.

Lemma satisfied_size action groups :
  size (satisfiedGroups action groups) =
    length (filter (λ kv : groupKey * bool, kv.1.1 = action ∧ kv.2 = true) (map_to_list groups)).
Proof.
  unfold satisfiedGroups. rewrite size_list_to_set, length_fmap; [done|].
  apply NoDup_fmap_2_strong; [|apply NoDup_filter, NoDup_map_to_list].
  intros [[a g] b] [[a' g'] b'] [[Ha Hb] _]%list_elem_of_filter [[Ha' Hb'] _]%list_elem_of_filter. cbn in *. congruence.
Qed.

(** All groups of an action are satisfied when the two counts agree. *)
Lemma counts_agree action groups :
  size (satisfiedGroups action groups) = groupTotal action groups ↔
  ∀ g b, groups !! (action, g) = Some b → b = true.
Proof.
  rewrite satisfied_size. unfold groupTotal.
  rewrite filter_both_length. split.
  - intros Hall g b Hg. by apply (Hall ((action, g), b)); [apply elem_of_map_to_list|].
  - intros Hall [[a g] b] Hin%elem_of_map_to_list Ha. cbn in Ha. subst a. by apply (Hall g).
Qed.

Lemma total_positive action groups : (0 < groupTotal action groups)%nat ↔ ∃ g, is_Some (groups !! (action, g)).
Proof.
  unfold groupTotal. rewrite length_positive. split.
  - intros ([[a g] b] & [Ha Hin%elem_of_map_to_list]%list_elem_of_filter). cbn in Ha. subst. eauto.
  - intros (g & b & Hg). exists ((action, g), b). apply list_elem_of_filter. split; [done|]. by apply elem_of_map_to_list.
Qed.

Lemma decides_groups action conds :
  isGate action →
  let groups := foldl (addGroupResult matches) ∅ conds in
  ((0 <? groupTotal action groups)%nat && (size (satisfiedGroups action groups) =? groupTotal action groups)%nat) = true ↔
  decides action conds.
Proof.
  intros Hgate groups. rewrite andb_true_iff, Nat.ltb_lt, Nat.eqb_eq, total_positive, counts_agree.
  pose proof (grouped_conditions conds) as Hg. fold groups in Hg. unfold decides. split.
  - intros [[g Hs] Hall]. split.
    + apply (Hg action g Hgate) in Hs as (c & b & Hc & He & _). eauto.
    + intros c b Hc He. destruct (Hg action (mc_OrGroupID c) Hgate) as [Hs' Ht]. apply Ht.
      destruct (proj2 Hs') as [b' Hb]; [eauto|]. rewrite Hb. f_equal. by eapply Hall.
  - intros [(c & b & Hc & He) Hall]. split.
    + exists (mc_OrGroupID c). apply (Hg action _ Hgate). eauto.
    + intros g b' Hb. destruct (Hg action g Hgate) as [Hs Ht].
      destruct (proj1 Hs) as (c' & b'' & Hc' & He' & <-); [eauto|]. destruct (Hall c' b'' Hc' He') as (c'' & ? & ? & Heq).
      assert (groups !! (action, mc_OrGroupID c') = Some true) as Htrue by (apply Ht; eauto). congruence.
Qed.
End conditions.

(** The conditions of a step on its parents' outputs: it is cancelled exactly when it has evaluated conditions that
    cancel it and every or-group of those has one that matched; otherwise it is skipped exactly when the same holds
    of the conditions that skip it.  Cancelling takes precedence, and conditions of other kinds, or on parents that
    did not complete, do not count. *)
Theorem parent_conditions_spec {W : Type} (t : task) (d : dag W) :
  let conds := i_stepConditions (t_info t) in
  let '(skip, cancel) := evaluateParentConditions t d in
  (cancel = true ↔ decides (d_conditionMatches d) CANCEL conds) ∧
  (skip = true ↔ decides (d_conditionMatches d) SKIP conds ∧ ¬ decides (d_conditionMatches d) CANCEL conds).
Proof.
  intros conds. unfold evaluateParentConditions. fold conds.
  pose proof (decides_groups (d_conditionMatches d) CANCEL conds (or_intror eq_refl)) as Hc.
  pose proof (decides_groups (d_conditionMatches d) SKIP conds (or_introl eq_refl)) as Hs. cbn zeta in Hc, Hs.
  set (groups := foldl _ _ conds) in *.
  destruct ((0 <? groupTotal CANCEL groups)%nat && _); [|destruct ((0 <? groupTotal SKIP groups)%nat && _)]; naive_solver.
Qed.

End DagConditions.
