(* ===== verification/DagSafety.v ===== *)
(** Safety of the DAG orchestrator, in every world: a step is triggered once, after all its parents have
    completed, and never while a registration awaits its ack, so the engine's log gives every registration its
    entry before a later run can take it. *)

From S2P Require Import Prelude Workers DurableChannel DagRun.
Import Workers DurableChannel Dag.

Module DagSafety.

Open Scope Z_scope.

(** ** The log *)

(** The registrations that await their ack, oldest first. *)
Definition outstandingAcks (log : list dagEvent) : list (ptr * conditionKind) :=
  foldl (λ acks e,
    match e with
    | EvRegister p kind => acks ++ [(p, kind)]
    | EvAck _ _ => tail acks
    | _ => acks
    end) [] log.

(** The triggered tasks, in order. *)
Definition triggered (log : list dagEvent) : list ptr :=
  omap (λ e, match e with EvTrigger p _ _ => Some p | _ => None end) log.

#[global] Arguments outstandingAcks : simpl never.
#[global] Arguments triggered : simpl never.

Section safety.
Context (info : ptr → taskInfo).

(** An event that may follow the events [pre]. *)
Definition okEvent (pre : list dagEvent) (e : dagEvent) : Prop :=
  match e with
  | EvTrigger p _ _ =>
      p ∉ triggered pre ∧ (∀ q, q ∈ i_parents (info p) → EvComplete q ∈ pre) ∧ outstandingAcks pre = []
  | EvRegister _ _ => outstandingAcks pre = []
  | EvAck p kind => head (outstandingAcks pre) = Some (p, kind)
  | EvComplete _ => True
  end.

Definition okLog (log : list dagEvent) : Prop :=
  ∀ i e, log !! i = Some e → okEvent (take i log) e.

Lemma okLog_nil : okLog [].
Proof. done. Qed.

Lemma okLog_snoc log e : okLog log → okEvent log e → okLog (log ++ [e]).
Proof.
  intros Hlog He i e' Hi. destruct (decide (i < length log)%nat) as [Hlt|Hge].
  - rewrite lookup_app_l in Hi by done. rewrite take_app_le by lia. by apply Hlog.
  - rewrite lookup_app_r in Hi by lia. destruct (i - length log)%nat as [|k] eqn:Hk; [|done]. injection Hi as <-.
    replace i with (length log) by lia. by rewrite take_app_length.
Qed.

Lemma okLog_snoc_inv log e : okLog (log ++ [e]) → okLog log ∧ okEvent log e.
Proof.
  intros H. split.
  - intros i e' Hi. specialize (H i e'). rewrite lookup_app_l in H by by eapply lookup_lt_Some.
    rewrite take_app_le in H by (apply lookup_lt_Some in Hi; lia). auto.
  - specialize (H (length log) e). rewrite list_lookup_middle, take_app_length in H by done. auto.
Qed.

Lemma okLog_take log i : okLog log → okLog (take i log).
Proof.
  intros H j e Hj. apply lookup_take_Some in Hj as [Hj Hlt]. rewrite take_take, Nat.min_l by lia. by apply H.
Qed.

Lemma outstandingAcks_snoc log e :
  outstandingAcks (log ++ [e]) =
    match e with
    | EvRegister p kind => outstandingAcks log ++ [(p, kind)]
    | EvAck _ _ => tail (outstandingAcks log)
    | _ => outstandingAcks log
    end.
Proof. unfold outstandingAcks. by rewrite foldl_app. Qed.

Lemma triggered_snoc log e :
  triggered (log ++ [e]) = triggered log ++ match e with EvTrigger p _ _ => [p] | _ => [] end.
Proof. unfold triggered. rewrite omap_app. by destruct e. Qed.

(** Every task is triggered once, and one registration is outstanding at a time. *)
Lemma okLog_triggered log : okLog log → NoDup (triggered log).
Proof.
  induction log as [|e log IH] using rev_ind; [constructor|]. intros [Hlog He]%okLog_snoc_inv.
  rewrite triggered_snoc. apply NoDup_app. split_and!; [auto| |destruct e; repeat constructor; set_solver].
  intros p Hp Hin. destruct e; try by apply elem_of_nil in Hin. apply list_elem_of_singleton in Hin as ->.
  by destruct He.
Qed.

Lemma okLog_outstanding log : okLog log → (length (outstandingAcks log) ≤ 1)%nat.
Proof.
  induction log as [|e log IH] using rev_ind; [unfold outstandingAcks; cbn; lia|]. intros [Hlog He]%okLog_snoc_inv. specialize (IH Hlog).
  rewrite outstandingAcks_snoc. destruct e; cbn in He; [done| |by destruct (outstandingAcks log) as [|? []]; cbn in *; lia|done].
  by rewrite He.
Qed.

(** ** The invariant *)

Context {W : Type} {world : World W} (E : runEnv).
Implicit Types (d : dag W) (p q : ptr).

(** Between the record of a trigger and the flag that is set for it, its task is the exception [x]. *)
Record inv (x : option ptr) (d : dag W) : Prop := {
  v_info : ∀ p, t_info (task_at p d) = info p;
  v_log : okLog (d_log d);
  v_acks : outstandingAcks (d_log d) = d_pendingWaitAcks d;
  v_triggered : ∀ p, Some p ≠ x → p ∈ triggered (d_log d) → t_isTriggered (task_at p d) = true;
  v_completed : ∀ p, t_isCompleted (task_at p d) = true → EvComplete p ∈ d_log d;
  v_onFailure : ∀ f, d_onFailureTask d = Some f → i_parents (info f) = [];
}.

Lemma task_at_upd p f q d : task_at q (upd p f d) = if decide (p = q) then f (task_at p d) else task_at q d.
Proof.
  unfold task_at, upd. cbn. case_decide as Hpq; subst; [by rewrite lookup_insert_eq|by rewrite lookup_insert_ne].
Qed.

(** A change of a task that leaves its fixed fields and what the invariant reads of it. *)
Class Quiet (f : task → task) : Prop := {
  quiet_info : ∀ t, t_info (f t) = t_info t;
  quiet_triggered : ∀ t, t_isTriggered t = true → t_isTriggered (f t) = true;
  quiet_completed : ∀ t, t_isCompleted (f t) = t_isCompleted t;
}.

Lemma inv_upd x p f d `{!Quiet f} : inv x d → inv x (upd p f d).
Proof.
  intros [H1 H2 H3 H4 H5 H6]. split; [|done|done| | |done].
  - intros q. rewrite task_at_upd. case_decide; [subst; by rewrite quiet_info|done].
  - intros q Hx Hq. rewrite task_at_upd. case_decide; [subst; apply quiet_triggered|]; by apply H4.
  - intros q. rewrite task_at_upd. case_decide; [subst; rewrite quiet_completed|]; apply H5.
Qed.

(** The steps that complete a task log that they do. *)
Lemma inv_complete x p f d :
  (∀ t, t_info (f t) = t_info t) → (∀ t, t_isTriggered (f t) = t_isTriggered t) →
  inv x d → inv x (record (EvComplete p) (upd p f d)).
Proof.
  intros Hi Ht [H1 H2 H3 H4 H5 H6]. split.
  - intros q. change (t_info (task_at q (upd p f d)) = info q). rewrite task_at_upd. case_decide; [subst; by rewrite Hi|done].
  - by apply okLog_snoc.
  - cbn. by rewrite outstandingAcks_snoc.
  - cbn. intros q Hx. rewrite triggered_snoc, app_nil_r. intros Hq. change (t_isTriggered (task_at q (upd p f d)) = true).
    rewrite task_at_upd. case_decide; [subst; rewrite Ht|]; by apply H4.
  - cbn. intros q Hq. apply elem_of_app. destruct (decide (p = q)) as [->|Hne].
    + right. by apply list_elem_of_singleton.
    + left. apply H5. change (t_isCompleted (task_at q (upd p f d)) = true) in Hq. rewrite task_at_upd in Hq.
      by rewrite decide_False in Hq.
  - exact H6.
Qed.

(** Changes of fields the invariant does not read. *)
Lemma inv_same x d d' :
  d_heap d' = d_heap d → d_log d' = d_log d → d_pendingWaitAcks d' = d_pendingWaitAcks d →
  d_onFailureTask d' = d_onFailureTask d → inv x d → inv x d'.
Proof.
  intros Hh Hl Ha Hf [H1 H2 H3 H4 H5 H6]. assert (∀ p, task_at p d' = task_at p d) as Ht by (intros p; unfold task_at; by rewrite Hh).
  split; intros *; rewrite ?Ht, ?Hl, ?Ha, ?Hf; auto.
Qed.

#[local] Instance quiet_reExecuted v : Quiet (set_reExecuted v).
Proof. by split. Qed.
#[local] Instance quiet_cancelled v : Quiet (set_isCancelled v).
Proof. by split. Qed.
#[local] Instance quiet_failed v : Quiet (set_isFailed v).
Proof. by split. Qed.
#[local] Instance quiet_skipped v : Quiet (set_isSkipped v).
Proof. by split. Qed.
#[local] Instance quiet_error v : Quiet (set_errorMessage v).
Proof. by split. Qed.
#[local] Instance quiet_output v : Quiet (set_output v).
Proof. by split. Qed.
#[local] Instance quiet_ref r : Quiet (set_ref r).
Proof. by split. Qed.
#[local] Instance quiet_trigger : Quiet (set_isTriggered true).
Proof. by split. Qed.
#[local] Instance quiet_register kind : Quiet (registerWatch kind).
Proof. by destruct kind; split. Qed.
#[local] Instance quiet_fire kind : Quiet (fireWatch kind).
Proof. by destruct kind; split. Qed.
#[local] Instance quiet_name kind ref : Quiet (nameWatch kind ref).
Proof. by destruct kind; split. Qed.

#[local] Hint Resolve inv_upd : dag.

Lemma inv_evaluate x p d : inv x d → inv x (evaluateConditionsForParent E p d).
Proof.
  intros Hd. unfold evaluateConditionsForParent. case_match; [|done]. apply inv_upd; [apply _|]. by eapply inv_same, Hd.
Qed.

Lemma inv_applyCompletion x p f m s d : inv x d → inv x (applyCompletion E p f m s d).
Proof.
  intros Hd. unfold applyCompletion. apply inv_evaluate.
  assert (inv x (record (EvComplete p) (upd p (set_isCompleted true) d))) as H1 by (by apply inv_complete).
  repeat case_match; repeat (apply inv_upd; [apply _|]); done.
Qed.

Lemma inv_tryApplyIn x tasks entry d : inv x d → inv x (tryApplyIn E tasks entry d).2.
Proof.
  intros Hd. induction tasks as [|p tasks IH]; [done|]. cbn.
  repeat case_match; cbn; try (apply inv_upd; [apply _|]); auto using inv_applyCompletion.
Qed.

Lemma inv_drainIn x entries remaining d : inv x d → inv x (drainIn E entries remaining d).2.
Proof.
  revert remaining d. induction entries as [|entry entries IH]; intros remaining d Hd; [done|]. cbn.
  unfold tryApplyEntryCompletion. pose proof (inv_tryApplyIn x (d_tasks d) entry d Hd) as H1.
  destruct (tryApplyIn E (d_tasks d) entry d) as [applied d1]. by apply IH.
Qed.

Lemma inv_taskConsumer x resp d : inv x d → inv x (taskConsumer E resp d).
Proof.
  intros Hd. destruct resp as [| | |entries|[ref|]|[ref|] f m s|ref ty m| |t i r]; cbn; try done.
  - destruct (d_pendingWaitAcks d) as [|[p kind] acks] eqn:Ha; [done|].
    unfold drainPendingEntryCompletions.
    set (d1 := record _ _). assert (inv x d1) as H1.
    { assert (inv x (upd p (nameWatch kind ref) d)) as [H1 H2 H3 H4 H5 H6] by (apply inv_upd; [apply _|done]).
      split; [exact H1| | | | |exact H6]; cbn in *.
      - apply okLog_snoc; [done|]. cbn. by rewrite H3, Ha.
      - by rewrite outstandingAcks_snoc, H3, Ha.
      - intros q Hx Hq. rewrite triggered_snoc, app_nil_r in Hq. by apply H4.
      - intros q Hq. apply elem_of_app. left. by apply H5. }
    pose proof (inv_drainIn x (d_pendingEntryCompletions d1) [] d1 H1) as H2.
    destruct (drainIn E (d_pendingEntryCompletions d1) [] d1) as [remaining d2]. by eapply inv_same, H2.
  - unfold tryApplyEntryCompletion. set (entry := PendingEntryCompletion _ _ _ _ _).
    pose proof (inv_tryApplyIn x (d_tasks d) entry d Hd) as H1.
    destruct (tryApplyIn E (d_tasks d) entry d) as [[] d1]; [done|]. by eapply inv_same, H1.
  - repeat case_match; try done; by eapply inv_same, Hd.
  - case_match; [by eapply inv_same, Hd|done].
Qed.

(** ** Emitting *)

Lemma inv_registerCondition x p kind satisfied d :
  inv x d → d_pendingWaitAcks d = [] → inv x (registerCondition E p kind satisfied d).2.
Proof.
  intros Hd Ha. unfold registerCondition. destruct (w_send _ _) as [[e|] w]; [by eapply inv_same, Hd|].
  destruct Hd as [H1 H2 H3 H4 H5 H6]. split; cbn in *; [exact H1| | | | |exact H6].
  - apply okLog_snoc; [done|]. cbn. by rewrite H3.
  - by rewrite outstandingAcks_snoc, H3.
  - intros q Hx Hq. rewrite triggered_snoc, app_nil_r in Hq. by apply H4.
  - intros q Hq. apply elem_of_app. left. by apply H5.
Qed.

Lemma ackPending_false d : ackPending d = false ↔ d_pendingWaitAcks d = [].
Proof. unfold ackPending. by destruct (d_pendingWaitAcks d). Qed.

Lemma inv_gateWatch x kind p d : inv x d → inv x (gateWatch E kind p d).2.
Proof.
  intros Hd. unfold gateWatch. case_match; [|done]. destruct (ackPending d) eqn:Ha; [done|]. apply ackPending_false in Ha.
  pose proof (inv_registerCondition x p kind ∅ d Hd Ha) as Hr. destruct (registerCondition E p kind ∅ d) as [[e|] d1].
  - by eapply inv_same, Hr.
  - by apply inv_upd; [apply _|].
Qed.

Lemma inv_gateWait x p d : inv x d → inv x (gateWait E p d).2.
Proof.
  intros Hd. unfold gateWait. case_match; [|done]. case_match; [done|]. case_match; [by apply inv_upd; [apply _|]|].
  destruct (ackPending d) eqn:Ha; [done|]. apply ackPending_false in Ha.
  match goal with |- context [registerCondition E p ?k ?g d] =>
    pose proof (inv_registerCondition x p k g d Hd Ha) as Hr; destruct (registerCondition E p k g d) as [[e|] d1] end.
  - by eapply inv_same, Hr.
  - by apply inv_upd; [apply _|].
Qed.

Lemma inv_decideTask x p d : inv x d → inv x (decideTask E p d).2.
Proof.
  intros Hd. unfold decideTask. case_match; [done|]. case_match; [done|].
  destruct (evaluateParentConditions _ d) as [[] []]; try done.
  pose proof (inv_gateWatch x conditionKindSkip p d Hd) as Hr1. destruct (gateWatch E conditionKindSkip p d) as [[dec|] d1]; [done|].
  pose proof (inv_gateWatch x conditionKindCancel p d1 Hr1) as Hr2. destruct (gateWatch E conditionKindCancel p d1) as [[dec|] d2]; [done|].
  repeat case_match; [done..|]. by apply inv_gateWait.
Qed.

Lemma inv_expectChild x p d : inv x d → inv x (expectChild p d).2.
Proof. intros Hd. unfold expectChild. repeat case_match; by eapply inv_same, Hd. Qed.

(** The record of the trigger of a task that was not triggered, whose parents have completed. *)
Lemma inv_mark p skip cancelled d r :
  inv None d → t_isTriggered (task_at p d) = false → d_pendingWaitAcks d = [] →
  (∀ q, q ∈ i_parents (info p) → EvComplete q ∈ d_log d) →
  inv (Some p) (record (EvTrigger p skip cancelled) (upd p (set_reExecuted r) d)).
Proof.
  intros Hd Ht Ha Hp. assert (p ∉ triggered (d_log d)) as Hn.
  { intros Hin. rewrite (v_triggered _ _ Hd) in Ht; done. }
  assert (inv None (upd p (set_reExecuted r) d)) as [H1 H2 H3 H4 H5 H6] by (apply inv_upd; [apply _|done]).
  split; cbn in *; [exact H1| | | | |exact H6].
  - apply okLog_snoc; [done|]. split_and!; [done|done|]. by rewrite H3.
  - by rewrite outstandingAcks_snoc.
  - intros q Hq. rewrite triggered_snoc, elem_of_app, list_elem_of_singleton. intros [?|?]; [by apply H4|congruence].
  - intros q Hq. apply elem_of_app. left. by apply H5.
Qed.

Lemma inv_flag p d : inv (Some p) d → inv None (upd p (set_isTriggered true) d).
Proof.
  intros Hd. assert (inv (Some p) (upd p (set_isTriggered true) d)) as [H1 H2 H3 H4 H5 H6] by (apply inv_upd; [apply _|done]).
  split; try done. intros q _ Hq. destruct (decide (p = q)) as [<-|Hne].
  - by rewrite task_at_upd, decide_True.
  - apply H4; [congruence|done].
Qed.

Lemma inv_triggerTask p skip cancelled d :
  inv None d → t_isTriggered (task_at p d) = false → d_pendingWaitAcks d = [] →
  (∀ q, q ∈ i_parents (info p) → EvComplete q ∈ d_log d) → inv None (triggerTask E p skip cancelled d).2.
Proof.
  intros Hd Ht Ha Hp. unfold triggerTask. destruct (w_triggerStep _ _) as [[r|e] w]; [|by eapply inv_same, Hd].
  assert (inv (Some p) (record (EvTrigger p skip cancelled) (upd p (set_reExecuted (tr_ReExecuted r)) (set_world w d)))) as H1.
  { apply inv_mark; [by eapply inv_same, Hd|done..]. }
  set (d1 := record _ _) in *.
  assert (inv (Some p) (if cancelled then upd p (set_isCancelled true) d1
    else if skip then evaluateConditionsForParent E p (record (EvComplete p) (upd p markSkipped d1)) else d1)) as H2.
  { destruct cancelled; [by apply inv_upd; [apply _|]|]. destruct skip; [|done]. by apply inv_evaluate, inv_complete. }
  set (d2 := if cancelled then _ else _) in *.
  assert (inv None (upd p (set_isTriggered true) (upd p (set_ref r) d2))) as H3.
  { apply inv_flag, inv_upd; [apply _|done]. }
  apply (inv_expectChild _ p) in H3. destruct (expectChild p _) as [[err|] d3]; [by eapply inv_same, H3|done].
Qed.

(** ** The log only grows *)

Definition grows d d' : Prop := d_log d `prefix_of` d_log d'.
#[local] Instance grows_preorder : PreOrder grows.
Proof. split; [by intros d; unfold grows|intros d1 d2 d3; unfold grows; by intros; etrans]. Qed.

Lemma grows_eq d d' : d_log d' = d_log d → grows d d'.
Proof. unfold grows. by intros ->. Qed.
Lemma grows_snoc d d' e : d_log d' = d_log d ++ [e] → grows d d'.
Proof. unfold grows. intros ->. by apply prefix_app_r. Qed.

Lemma evaluate_log p d : d_log (evaluateConditionsForParent E p d) = d_log d.
Proof. unfold evaluateConditionsForParent. by case_match. Qed.

Lemma grows_registerCondition p kind satisfied d : grows d (registerCondition E p kind satisfied d).2.
Proof.
  unfold registerCondition. destruct (w_send _ _) as [[e|] w]; [by apply grows_eq|by eapply grows_snoc].
Qed.

Lemma grows_gateWatch kind p d : grows d (gateWatch E kind p d).2.
Proof.
  unfold gateWatch. case_match; [|done]. case_match; [done|].
  pose proof (grows_registerCondition p kind ∅ d) as Hr. by destruct (registerCondition E p kind ∅ d) as [[e|] d1].
Qed.

Lemma grows_gateWait p d : grows d (gateWait E p d).2.
Proof.
  unfold gateWait. case_match; [|done]. case_match; [done|]. case_match; [by apply grows_eq|]. case_match; [done|].
  match goal with |- context [registerCondition E p ?k ?g d] =>
    pose proof (grows_registerCondition p k g d) as Hr; destruct (registerCondition E p k g d) as [[e|] d1] end; done.
Qed.

Lemma grows_decideTask p d : grows d (decideTask E p d).2.
Proof.
  unfold decideTask. case_match; [done|]. case_match; [done|].
  destruct (evaluateParentConditions _ d) as [[] []]; try done.
  pose proof (grows_gateWatch conditionKindSkip p d) as Hr1. destruct (gateWatch E conditionKindSkip p d) as [[dec|] d1]; [done|].
  pose proof (grows_gateWatch conditionKindCancel p d1) as Hr2. cbn in *.
  destruct (gateWatch E conditionKindCancel p d1) as [[dec|] d2]; [by etrans|].
  repeat case_match; [by etrans..|]. etrans; [done|]. etrans; [done|apply grows_gateWait].
Qed.

Lemma expectChild_log p d : d_log (expectChild p d).2 = d_log d.
Proof. unfold expectChild. by repeat case_match. Qed.

Lemma grows_triggerTask p skip cancelled d : grows d (triggerTask E p skip cancelled d).2.
Proof.
  unfold triggerTask. destruct (w_triggerStep _ _) as [[r|e] w]; [|by apply grows_eq].
  set (d1 := record _ _). assert (grows d d1) as H1 by by eapply grows_snoc.
  set (d2 := if cancelled then _ else _). assert (grows d1 d2) as H2.
  { unfold d2. destruct cancelled; [by apply grows_eq|]. destruct skip; [|done]. eapply grows_snoc. by rewrite evaluate_log. }
  set (d3 := upd p _ _). pose proof (expectChild_log p d3) as Hlog.
  destruct (expectChild p d3) as [[err|] d4]; cbn in *; (etrans; [exact H1|]; etrans; [exact H2|]; by apply grows_eq).
Qed.

(** What a pass knows of the tasks that were ready at its start. *)
Definition readyLogged (ready : ptr → bool) d : Prop :=
  ∀ p, ready p = true → ∀ q, q ∈ i_parents (info p) → EvComplete q ∈ d_log d.

Lemma readyLogged_grows ready d d' : grows d d' → readyLogged ready d → readyLogged ready d'.
Proof. intros [l Hl] Hr p Hp q Hq. rewrite Hl. apply elem_of_app. left. by apply (Hr p). Qed.

(** ** What deciding on a task leaves alone: everything but the watches of its tasks *)

Definition eraseWatches (t : task) : task :=
  let w := Watch false false 0 0 in set_skipWatch w (set_cancelWatch w (set_wait w t)).

Definition onlyWatches d d' : Prop := ∀ q, eraseWatches (task_at q d') = eraseWatches (task_at q d).
#[local] Instance onlyWatches_preorder : PreOrder onlyWatches.
Proof. split; [by intros d q|]. intros d1 d2 d3 H1 H2 q. by rewrite H2, H1. Qed.

Lemma onlyWatches_upd p f d : (∀ t, eraseWatches (f t) = eraseWatches t) → onlyWatches d (upd p f d).
Proof. intros Hf q. rewrite task_at_upd. case_decide; [subst; apply Hf|done]. Qed.

Lemma erase_register kind t : eraseWatches (registerWatch kind t) = eraseWatches t.
Proof. by destruct kind. Qed.
Lemma erase_fire kind t : eraseWatches (fireWatch kind t) = eraseWatches t.
Proof. by destruct kind. Qed.

Lemma registerCondition_heap p kind satisfied d : d_heap (registerCondition E p kind satisfied d).2 = d_heap d.
Proof. unfold registerCondition. by repeat case_match. Qed.

Lemma onlyWatches_heap d d' : d_heap d' = d_heap d → onlyWatches d d'.
Proof. intros Hh q. unfold task_at. by rewrite Hh. Qed.

Lemma onlyWatches_gateWatch kind p d : onlyWatches d (gateWatch E kind p d).2.
Proof.
  unfold gateWatch. case_match; [|done]. case_match; [done|].
  pose proof (registerCondition_heap p kind ∅ d) as Hr. destruct (registerCondition E p kind ∅ d) as [[e|] d1].
  - by apply onlyWatches_heap.
  - etrans; [by apply onlyWatches_heap|]. apply onlyWatches_upd, erase_register.
Qed.

Lemma onlyWatches_gateWait p d : onlyWatches d (gateWait E p d).2.
Proof.
  unfold gateWait. case_match; [|done]. case_match; [done|]. case_match; [by apply onlyWatches_upd, erase_fire|].
  case_match; [done|].
  match goal with |- context [registerCondition E p ?k ?g d] =>
    pose proof (registerCondition_heap p k g d) as Hr; destruct (registerCondition E p k g d) as [[e|] d1] end.
  - by apply onlyWatches_heap.
  - etrans; [by apply onlyWatches_heap|]. apply onlyWatches_upd, erase_register.
Qed.

Lemma onlyWatches_decideTask p d : onlyWatches d (decideTask E p d).2.
Proof.
  unfold decideTask. case_match; [done|]. case_match; [done|].
  destruct (evaluateParentConditions _ d) as [[] []]; try done.
  pose proof (onlyWatches_gateWatch conditionKindSkip p d) as Hr1.
  destruct (gateWatch E conditionKindSkip p d) as [[dec|] d1]; [done|].
  pose proof (onlyWatches_gateWatch conditionKindCancel p d1) as Hr2. cbn in *.
  destruct (gateWatch E conditionKindCancel p d1) as [[dec|] d2]; [by etrans|].
  repeat case_match; [by etrans..|]. etrans; [done|]. etrans; [done|apply onlyWatches_gateWait].
Qed.

Lemma onlyWatches_triggered d d' q :
  onlyWatches d d' → t_isTriggered (task_at q d') = t_isTriggered (task_at q d).
Proof. intros H. specialize (H q). by apply (f_equal t_isTriggered) in H. Qed.

(** ** The loops *)

Lemma inv_emitTask ready p d :
  inv None d → readyLogged ready d → inv None (emitTask E ready p d).2 ∧ grows d (emitTask E ready p d).2.
Proof.
  intros Hd Hr. unfold emitTask. destruct (t_isTriggered (task_at p d) || _) eqn:Ht; [done|].
  apply orb_false_elim in Ht as [Ht _]. destruct (ready p) eqn:Hp; [|done]. cbn [negb].
  pose proof (inv_decideTask None p d Hd) as H1. pose proof (grows_decideTask p d) as H2.
  pose proof (onlyWatches_triggered _ _ p (onlyWatches_decideTask p d)) as H3. rewrite Ht in H3.
  destruct (decideTask E p d) as [[skip cancelled| |e] d1]; cbn in H1, H2, H3; [|done..].
  destruct (ackPending d1) eqn:Ha; [done|]. apply ackPending_false in Ha. split.
  - apply inv_triggerTask; [done..|]. by apply (readyLogged_grows _ _ _ H2 Hr).
  - etrans; [done|apply grows_triggerTask].
Qed.

Lemma inv_emitLoop ready rest still progressed d :
  inv None d → readyLogged ready d → inv None (emitLoop E ready rest still progressed d).2.
Proof.
  revert still progressed d. induction rest as [|p rest IH]; intros still progressed d Hd Hr.
  { by eapply inv_same, Hd. }
  cbn. destruct (inv_emitTask ready p d Hd Hr) as [H1 H2]. apply (readyLogged_grows _ _ _ H2) in Hr.
  destruct (emitTask E ready p d) as [[| | |e b] d1]; [by apply IH..|]. by eapply inv_same, H1.
Qed.

Lemma inv_emitReadyTasks d : inv None d → inv None (emitReadyTasks E d).2.
Proof.
  intros Hd. apply inv_emitLoop; [done|]. intros p Hp q Hq. unfold parentsCompleted in Hp.
  rewrite forallb_forall in Hp. apply (v_completed _ _ Hd), Hp. rewrite (v_info _ _ Hd). by apply list_elem_of_In.
Qed.

Lemma inv_emitPasses fuel d : inv None d → inv None (emitPasses E fuel d).2.
Proof.
  revert d. induction fuel as [|fuel IH]; intros d Hd; [done|]. cbn. apply inv_emitReadyTasks in Hd.
  destruct (emitReadyTasks E d) as [[[] [e|]] d1]; try done. by apply IH.
Qed.

Lemma inv_taskEmitter fuel d : inv None d → inv None (taskEmitter E fuel d).2.
Proof. intros Hd. unfold taskEmitter. case_match; [done|]. by apply inv_emitPasses. Qed.

Lemma inv_evaluateOnFailure d :
  inv None d → inv None (evaluateOnFailure d).2.
Proof.
  intros Hd. unfold evaluateOnFailure. destruct (d_onFailureTask d) as [f|] eqn:Hof; [|done].
  destruct (t_isTriggered (task_at f d)) eqn:Ht; [done|]. destruct (ackPending d) eqn:Ha; [done|].
  apply ackPending_false in Ha. case_match; [done|]. set (skip := negb _).
  destruct (w_triggerStep _ _) as [[r|e] w]; [|by eapply inv_same, Hd].
  assert (inv (Some f) (record (EvTrigger f skip false) (upd f (set_reExecuted (tr_ReExecuted r)) (set_world w d)))) as H1.
  { apply inv_mark; [by eapply inv_same, Hd|done..|]. rewrite (v_onFailure _ _ Hd f) by done. intros q Hq. by apply elem_of_nil in Hq. }
  set (d1 := record _ _) in *.
  assert (inv None (upd f (set_isTriggered true) (upd f (set_ref r) d1))) as H2.
  { apply inv_flag, inv_upd; [apply _|done]. }
  set (d2 := upd f (set_isTriggered true) _) in *.
  assert (inv None (if skip then record (EvComplete f) (upd f markSkipped d2) else d2)) as H3.
  { destruct skip; [by apply inv_complete|done]. }
  set (d3 := if skip then _ else _) in *.
  assert (inv None (set_tasks (d_tasks d3 ++ [f]) d3)) as H4 by by eapply inv_same, H3.
  apply (inv_expectChild _ f) in H4. destruct (expectChild f _) as [[err|] d4]; [by eapply inv_same, H4|done].
Qed.

Lemma inv_awaitResponse x fuel d : inv x d → inv x (awaitResponse E fuel d).2.
Proof.
  revert d. induction fuel as [|fuel IH]; intros d Hd; [done|]. cbn. destruct (w_recv (d_world d)) as [reply w].
  assert (inv x (set_world w d)) as H1 by by eapply inv_same, Hd.
  destruct reply as [resp| | |e]; [done| |done..]. unfold reportBlockedOnDurableEvents.
  repeat case_match; simplify_eq; try (by apply IH); try done; try (by eapply inv_same, H1). apply IH. by eapply inv_same, H1.
Qed.

Lemma inv_runLoop fuel d : inv None d → inv None (runLoop E fuel d).2.
Proof.
  revert d. induction fuel as [|fuel IH]; intros d Hd; [done|]. cbn [runLoop]. destruct (isDone d); [done|].
  apply (inv_taskEmitter (S (length (d_pendingTasks d)))) in Hd.
  destruct (taskEmitter E _ d) as [[[e|]|] d1]; [done| |done]. cbn in Hd. apply inv_evaluateOnFailure in Hd.
  destruct (evaluateOnFailure d1) as [[[] [e|]] d2]; cbn in Hd; [done|by apply IH|done|].
  destruct (isDone d2); [done|]. apply (inv_awaitResponse _ (S fuel)) in Hd.
  destruct (awaitResponse E (S fuel) d2) as [[[resp|e]|] d3]; [|done..]. by apply IH, inv_taskConsumer.
Qed.
End safety.

(** ** The property *)

(** The tasks of a heap that nothing has happened to. *)
Definition freshHeap (heap : gmap ptr task) : Prop :=
  ∀ p t, heap !! p = Some t → t_isTriggered t = false ∧ t_isCompleted t = false ∧ t_isSkipped t = false.

Section order.
Context {W : Type} {world : World W} (E : runEnv).

Lemma inv_newDag (heap : gmap ptr task) tasks onFailure (w : W) :
  freshHeap heap →
  (∀ f, onFailure = Some f → i_parents (t_info (task_at f (newDag heap tasks onFailure w))) = []) →
  inv (λ p, t_info (task_at p (newDag heap tasks onFailure w))) None (newDag heap tasks onFailure w).
Proof.
  intros Hfresh Hf. split; try done.
  - intros p _ Hp. by apply elem_of_nil in Hp.
  - intros p. unfold task_at. cbn. destruct (heap !! p) as [t|] eqn:Ht; cbn; [|done].
    by destruct (Hfresh _ _ Ht) as (_ & -> & _).
Qed.

(** C12: whatever the engine answers, when and in whatever order: a step is triggered at most once, only after every
    parent it has has completed, and only while no registration awaits its ack; a registration is sent only when
    none is outstanding, so acks are matched to registrations one by one. *)
Theorem dag_trigger_order (fuel : nat) (heap : gmap ptr task) (tasks : list ptr) (onFailure : option ptr) (w : W) :
  freshHeap heap →
  (∀ f, onFailure = Some f → i_parents (t_info (task_at f (newDag heap tasks onFailure w))) = []) →
  let log := d_log (dagDurableTask E fuel heap tasks onFailure w).2 in
  NoDup (triggered log) ∧
  (∀ i p skip cancelled, log !! i = Some (EvTrigger p skip cancelled) →
    outstandingAcks (take i log) = [] ∧
    ∀ q, q ∈ i_parents (t_info (task_at p (newDag heap tasks onFailure w))) → EvComplete q ∈ take i log) ∧
  (∀ i, (length (outstandingAcks (take i log)) ≤ 1)%nat).
Proof.
  intros Hfresh Hf log. set (info := λ p, t_info (task_at p (newDag heap tasks onFailure w))).
  assert (okLog info log) as Hlog.
  { apply (v_log info None). apply inv_runLoop. by apply inv_newDag. }
  split_and!.
  - by eapply okLog_triggered.
  - intros i p skip cancelled Hi. by destruct (Hlog _ _ Hi) as (_ & ? & ?).
  - intros i. by eapply okLog_outstanding, okLog_take.
Qed.
End order.

(** A world that completes each step it is given, in order. *)
#[local] Instance eagerWorld : World (nat * list DurableTaskResponse) := {
  w_send _ w := (None, w);
  w_expectEntry _ w := (None, w);
  w_recv w := match w.2 with resp :: rest => (Got resp, (w.1, rest)) | [] => (RunCtxDone, w) end;
  w_triggerStep _ w :=
    let n := Z.of_nat (S w.1) in
    (inl (TriggerResult n 1 n false), (S w.1, w.2 ++ [EntryCompleted (Some (LogRef "" 1 1 n)) false "" ""]));
}.

Lemma dag_trigger_order_witness :
  let E := RunEnv 1 1 1 (λ _, ""%string) (λ _ _, Some true) (λ _, Some None) in
  let heap : gmap ptr task := {[ 0%nat := newTask (TaskInfo "a" "w" "a" 0 [] []); 1%nat := newTask (TaskInfo "b" "w" "b" 1 [0%nat] []) ]} in
  let log := d_log (dagDurableTask E 10 heap [0; 1]%nat None (0%nat, [])).2 in
  triggered log = [0; 1]%nat ∧ NoDup (triggered log) ∧
  (∀ i p skip cancelled, log !! i = Some (EvTrigger p skip cancelled) →
    outstandingAcks (take i log) = [] ∧
    ∀ q, q ∈ i_parents (t_info (task_at p (newDag heap [0; 1]%nat None (0%nat, @nil DurableTaskResponse)))) → EvComplete q ∈ take i log) ∧
  (∀ i, (length (outstandingAcks (take i log)) ≤ 1)%nat).
Proof.
  intros E heap log. split; [vm_compute; reflexivity|].
  apply (dag_trigger_order E 10 heap [0; 1]%nat None (0%nat, [])).
  - intros p t Ht. unfold heap in Ht. rewrite lookup_insert_Some, lookup_singleton_Some in Ht. by naive_solver.
  - intros f Hf. discriminate Hf.
Defined.

End DagSafety.
