(* ===== verification/DagEngine.v ===== *)
(** What the DAG orchestrator relies on of the engine behind its channel, as an interface: it takes every
    request, answers every registration with an ack, and delivers the completion of every entry it named or was
    told of, once, unless it refuses to trigger a step or evicts the run.  The items of a run are the entries its tasks await; [ledger] relates them to what the engine
    owes, and the lemmas say how each interaction changes the relation. *)

From S2P Require Import Prelude Workers DurableChannel DagRun.
Import Workers DurableChannel Dag.

Module DagEngine.

Open Scope nat_scope.

(** ** The interface *)

(** The entry of a trigger's result. *)
Definition resultRef (r : DAGStepTriggerResult) : entryRef := EntryRef (tr_BranchId r) (tr_NodeId r).

Class EngineState (W : Type) := {
  reliable : W → Prop;
  owedAcks : W → nat;
  owed : W → gset entryRef;
  known : W → gset entryRef;
  delay : W → nat;
  patience : nat;
  capacity : nat;
  target : string * Z;
  evicted : W → bool;
}.

(** What the engine still has to deliver: an ack and the completion of its entry for a registration, and the
    completions of the entries. *)
Definition load {W} `{EngineState W} (w : W) : nat := 2 * owedAcks w + size (owed w).

(** A step that leaves what is owed as it is. *)
Definition sameDebt {W} `{EngineState W} (w w' : W) : Prop :=
  owedAcks w' = owedAcks w ∧ owed w' = owed w ∧ known w' = known w.

Class Engine (W : Type) `{World W} `{EngineState W} : Prop := {
  known_zero : ∀ w, reliable w → EntryRef 0 0 ∈ known w;
  delay_bounded : ∀ w, reliable w → delay w ≤ patience;
  (** A registration is taken when none is outstanding. *)
  send_wait : ∀ w task invocation conditions,
    reliable w → owedAcks w = 0 → load w + 2 ≤ capacity →
    ∃ w', w_send (WaitFor task invocation conditions) w = (None, w') ∧ reliable w' ∧
      owedAcks w' = 1 ∧ owed w' = owed w ∧ known w' = known w;
  send_status : ∀ w worker entries, reliable w →
    ∃ w', w_send (WorkerStatus worker entries) w = (None, w') ∧ reliable w' ∧ sameDebt w w' ∧ delay w' ≤ delay w;
  (** A step is triggered with a fresh entry, which the orchestrator registers next, or the trigger fails. *)
  trigger_ok : ∀ w args, reliable w → load w + 1 ≤ capacity →
    (∃ e w', w_triggerStep args w = (inr e, w')) ∨
    ∃ r w1 w', w_triggerStep args w = (inl r, w1) ∧ w_expectEntry (resultRef r) w1 = (None, w') ∧ reliable w' ∧
      resultRef r ∉ known w ∧ resultRef r ∉ owed w ∧
      owedAcks w' = owedAcks w ∧ owed w' = {[resultRef r]} ∪ owed w ∧ known w' = {[resultRef r]} ∪ known w;
  (** While something is owed, Recv returns it: an ack that names a fresh entry, or a completion; or the interval
      passes, a bounded number of times; or it returns the notice that the run is evicted, addressed to the task
      and the invocation of the session. *)
  recv_ok : ∀ w, reliable w → 0 < load w →
    ∃ reply w', w_recv w = (reply, w') ∧ reliable w' ∧
      ((∃ ref, reply = Got (WaitForAck (Some ref)) ∧ 0 < owedAcks w ∧ getRef (Some ref) ∉ known w ∧
          owedAcks w' = owedAcks w - 1 ∧ owed w' = {[getRef (Some ref)]} ∪ owed w ∧
          known w' = {[getRef (Some ref)]} ∪ known w ∧ getRef (Some ref) ∉ owed w) ∨
       (∃ ref f m p, reply = Got (EntryCompleted (Some ref) f m p) ∧ getRef (Some ref) ∈ owed w ∧
          owedAcks w' = owedAcks w ∧ owed w' = owed w ∖ {[getRef (Some ref)]} ∧ known w' = known w) ∨
       (reply = IntervalPassed ∧ delay w' < delay w ∧ sameDebt w w') ∨
       (∃ reason, reply = Got (ServerEvict target.1 target.2 reason) ∧ evicted w' = true));
}.

(** ** Items *)

(** What a run awaits of a task: its run, or one of its conditions. *)
Definition item : Type := ptr * option conditionKind.

Section items.
Context {W : Type}.

Definition itemOn (d : dag W) (i : item) : bool :=
  let t := task_at i.1 d in
  match i.2 with None => t_isTriggered t | Some kind => registered (watchOf kind t) end.
Definition itemDone (d : dag W) (i : item) : bool :=
  let t := task_at i.1 d in
  match i.2 with None => t_isCompleted t | Some kind => fired (watchOf kind t) end.
Definition itemRef (d : dag W) (i : item) : entryRef :=
  let t := task_at i.1 d in
  match i.2 with
  | None => EntryRef (t_branchId t) (t_nodeId t)
  | Some kind => EntryRef (watchBranchId (watchOf kind t)) (watchNodeId (watchOf kind t))
  end.
End items.

Definition ackItem (a : ptr * conditionKind) : item := (a.1, Some a.2).

(** A change of one item. *)
Definition set_item {A} (i0 : item) (a : A) (f : item → A) : item → A := λ i, if decide (i = i0) then a else f i.

Lemma set_item_eq {A} i0 (a : A) f : set_item i0 a f i0 = a.
Proof. unfold set_item. by rewrite decide_True. Qed.
Lemma set_item_ne {A} i0 (a : A) f i : i ≠ i0 → set_item i0 a f i = f i.
Proof. intros. unfold set_item. by rewrite decide_False. Qed.

(** ** The ledger *)

Section ledger.
Context {W : Type} `{HW : World W} `{HS : EngineState W} `{!Engine W}.
Implicit Types (on done : item → bool) (ref : item → entryRef) (acks : list (ptr * conditionKind)) (w : W).

(** An item whose entry the run knows. *)
Definition isNamed on acks (i : item) : Prop := on i = true ∧ i ∉ ackItem <$> acks.

Record ledger on done ref acks (w : W) : Prop := {
  g_ok : reliable w;
  g_acks : owedAcks w = length acks;
  g_ackOn : ∀ i, i ∈ ackItem <$> acks → on i = true ∧ done i = false;
  g_known : ∀ i, isNamed on acks i → ref i ∈ known w;
  g_inj : ∀ i j, isNamed on acks i → isNamed on acks j → ref i = ref j → i = j;
  g_zero : ∀ i, ¬ isNamed on acks i → ref i = EntryRef 0 0;
  g_nonzero : ∀ i, isNamed on acks i → ref i ≠ EntryRef 0 0;
  g_owed : ∀ i, isNamed on acks i → done i = false → ref i ∈ owed w;
  g_item : ∀ r, r ∈ owed w → ∃ i, isNamed on acks i ∧ ref i = r ∧ (i.2 ≠ None → done i = false);
}.

Lemma isNamed_dec on acks i : Decision (isNamed on acks i).
Proof. unfold isNamed. apply _. Defined.

Lemma ledger_ext on on' done done' ref ref' acks w :
  (∀ i, on' i = on i) → (∀ i, done' i = done i) → (∀ i, ref' i = ref i) →
  ledger on done ref acks w → ledger on' done' ref' acks w.
Proof.
  intros Ho Hd Hr [H1 H2 H3 H4 H5 H6 H7 H8 H9].
  assert (∀ i, isNamed on' acks i ↔ isNamed on acks i) as Hn by (intros i; unfold isNamed; by rewrite Ho).
  split; try done; intros *; rewrite ?Hn, ?Ho, ?Hd, ?Hr; auto.
  intros Hi. destruct (H9 _ Hi) as (i & Hx). exists i. by rewrite Hn, Hr, Hd.
Qed.

(** A change of what is done that leaves the conditions whose entry is awaited. *)
Lemma ledger_done on done done' ref acks w :
  (∀ i, on i = true → i.2 ≠ None → done' i = done i) → (∀ i, done i = true → done' i = true) →
  ledger on done ref acks w → ledger on done' ref acks w.
Proof.
  intros Hw Hd [H1 H2 H3 H4 H5 H6 H7 H8 H9]. split; try done.
  - intros i Hi. destruct (H3 i Hi) as [Ho Hf]. split; [done|].
    apply list_elem_of_fmap in Hi as (a & -> & _). by rewrite Hw.
  - intros i Hi Hf. apply H8; [done|]. destruct (done i) eqn:Hdi; [|done]. by rewrite (Hd i) in Hf.
  - intros r Hr. destruct (H9 r Hr) as (i & Hi & Hri & Hf). exists i. split_and!; [done..|].
    intros Hk. rewrite Hw; [by apply Hf|by destruct Hi|done].
Qed.

(** A step of the world that leaves what is owed. *)
Lemma ledger_same on done ref acks w w' :
  sameDebt w w' → reliable w' → ledger on done ref acks w → ledger on done ref acks w'.
Proof. intros (Ha & Ho & Hk) Hok [H1 H2 H3 H4 H5 H6 H7 H8 H9]. split; rewrite ?Ha, ?Ho, ?Hk; done. Qed.

(** A registration. *)
Lemma ledger_register on done ref p kind w w' :
  let i0 : item := (p, Some kind) in
  on i0 = false → done i0 = false → reliable w' → owedAcks w' = 1 → owed w' = owed w → known w' = known w →
  ledger on done ref [] w → ledger (set_item i0 true on) done ref [(p, kind)] w'.
Proof.
  intros i0 Hon Hd Hok Ha Ho Hk [H1 H2 H3 H4 H5 H6 H7 H8 H9].
  assert (∀ i, isNamed (set_item i0 true on) [(p, kind)] i ↔ isNamed on [] i) as Hn.
  { intros i. unfold isNamed, set_item. cbn. change (p, Some kind) with i0. case_decide; subst.
    - split; [intros [_ Hi]; by destruct Hi; constructor|intros [Hi _]; congruence].
    - rewrite list_elem_of_singleton. split; intros [? ?]; (split; [done|]); [apply not_elem_of_nil|done]. }
  split; try setoid_rewrite Hn; rewrite ?Ha, ?Ho, ?Hk; try done.
  intros i ->%list_elem_of_singleton. unfold set_item. by rewrite decide_True.
Qed.

(** The ack of a registration. *)
Lemma ledger_ack on done ref p kind w w' r :
  let i0 : item := (p, Some kind) in
  reliable w' → owedAcks w' = 0 → r ∉ known w → owed w' = {[r]} ∪ owed w → known w' = {[r]} ∪ known w → reliable w →
  ledger on done ref [(p, kind)] w → ledger on done (set_item i0 r ref) [] w'.
Proof.
  intros i0 Hok Ha Hr Ho Hk Hw [H1 H2 H3 H4 H5 H6 H7 H8 H9].
  destruct (H3 i0) as [Hon Hd]; [by constructor|].
  assert (∀ i, isNamed on [] i ↔ i = i0 ∨ isNamed on [(p, kind)] i) as Hn.
  { intros i. unfold isNamed. cbn. change (p, Some kind) with i0. rewrite list_elem_of_singleton.
    split; [intros [Hi _]; destruct (decide (i = i0)); auto|]. intros [->|[Hi _]]; (split; [done|apply not_elem_of_nil]). }
  assert (¬ isNamed on [(p, kind)] i0) as Hi0 by (intros [_ Hi]; destruct Hi; by constructor).
  assert (∀ i, isNamed on [(p, kind)] i → i ≠ i0 ∧ ref i ≠ r) as Hne.
  { intros i Hi. split; [by intros ->|]. intros <-. by apply Hr, H4. }
  assert (r ≠ EntryRef 0 0) as Hz by (intros ->; by apply Hr, known_zero).
  unfold set_item. split; rewrite ?Ha, ?Ho, ?Hk; try done.
  - intros i Hi. by apply elem_of_nil in Hi.
  - intros i [->|Hi]%Hn; [rewrite decide_True by done; set_solver|]. destruct (Hne _ Hi).
    rewrite decide_False by done. pose proof (H4 i Hi). set_solver.
  - intros i j [->|Hi]%Hn [->|Hj]%Hn; [done|..].
    + rewrite decide_True by done. destruct (Hne _ Hj). rewrite decide_False by done. congruence.
    + rewrite (decide_True (P := i0 = i0)) by done. destruct (Hne _ Hi). rewrite decide_False by done. congruence.
    + destruct (Hne _ Hi), (Hne _ Hj). rewrite !decide_False by done. by apply H5.
  - intros i Hi. rewrite Hn in Hi. rewrite decide_False by tauto. apply H6. tauto.
  - intros i [->|Hi]%Hn; [by rewrite decide_True|]. destruct (Hne _ Hi). rewrite decide_False by done. by apply H7.
  - intros i [->|Hi]%Hn Hdi; [rewrite decide_True by done; set_solver|]. destruct (Hne _ Hi).
    rewrite decide_False by done. pose proof (H8 i Hi Hdi). set_solver.
  - intros x [->%elem_of_singleton|Hx]%elem_of_union.
    + exists i0. rewrite Hn, decide_True by done. auto.
    + destruct (H9 x Hx) as (i & Hi & Hri & Hdi). destruct (Hne _ Hi). exists i. rewrite Hn, decide_False by done. auto.
Qed.

(** The trigger of a task, and the registration of its entry. *)
Lemma ledger_trigger on done ref acks p w w' r :
  let i0 : item := (p, None) in
  on i0 = false → reliable w' → owedAcks w' = owedAcks w → r ∉ known w → owed w' = {[r]} ∪ owed w →
  known w' = {[r]} ∪ known w →
  ledger on done ref acks w → ledger (set_item i0 true on) done (set_item i0 r ref) acks w'.
Proof.
  intros i0 Hon Hok Ha Hr Ho Hk [H1 H2 H3 H4 H5 H6 H7 H8 H9].
  assert (∀ i, isNamed (set_item i0 true on) acks i ↔ i = i0 ∨ isNamed on acks i) as Hn.
  { intros i. unfold isNamed, set_item. case_decide as Hi; subst; [|tauto]. split; [by left|]. intros _. split; [done|].
    intros (a & Ha' & _)%list_elem_of_fmap. done. }
  assert (∀ i, isNamed on acks i → i ≠ i0 ∧ ref i ≠ r) as Hne.
  { intros i Hi. split; [intros ->; destruct Hi; congruence|]. intros <-. by apply Hr, H4. }
  assert (r ≠ EntryRef 0 0) as Hz by (intros ->; by apply Hr, known_zero).
  split; rewrite ?Ha, ?Ho, ?Hk; try done.
  - intros i Hi. destruct (H3 i Hi). unfold set_item. by case_decide.
  - intros i [->|Hi]%Hn; [rewrite set_item_eq; set_solver|]. destruct (Hne _ Hi).
    rewrite set_item_ne by done. pose proof (H4 i Hi). set_solver.
  - intros i j [->|Hi]%Hn [->|Hj]%Hn; rewrite ?set_item_eq; [done|..].
    + destruct (Hne _ Hj). rewrite set_item_ne by done. congruence.
    + destruct (Hne _ Hi). rewrite set_item_ne by done. congruence.
    + destruct (Hne _ Hi), (Hne _ Hj). rewrite !set_item_ne by done. by apply H5.
  - intros i Hi. rewrite Hn in Hi. rewrite set_item_ne by tauto. apply H6. tauto.
  - intros i [->|Hi]%Hn; [by rewrite set_item_eq|]. destruct (Hne _ Hi). rewrite set_item_ne by done. by apply H7.
  - intros i [->|Hi]%Hn Hdi; [rewrite set_item_eq; set_solver|]. destruct (Hne _ Hi).
    rewrite set_item_ne by done. pose proof (H8 i Hi Hdi). set_solver.
  - intros x [->%elem_of_singleton|Hx]%elem_of_union.
    + exists i0. rewrite Hn, set_item_eq. split_and!; [by left|done|]. by intros Hx; destruct Hx.
    + destruct (H9 x Hx) as (i & Hi & Hri & Hdi). destruct (Hne _ Hi). exists i. rewrite Hn, set_item_ne by done. auto.
Qed.

(** The completion of the entry of an item. *)
Lemma ledger_complete on done ref acks i0 w w' :
  isNamed on acks i0 → reliable w' → owedAcks w' = owedAcks w → owed w' = owed w ∖ {[ref i0]} → known w' = known w →
  ledger on done ref acks w → ledger on (set_item i0 true done) ref acks w'.
Proof.
  intros Hi0 Hok Ha Ho Hk [H1 H2 H3 H4 H5 H6 H7 H8 H9]. split; rewrite ?Ha, ?Ho, ?Hk; try done.
  - intros i Hi. destruct (H3 i Hi). split; [done|]. unfold set_item. rewrite decide_False; [done|].
    intros ->. by destruct Hi0.
  - intros i Hi Hdi. unfold set_item in Hdi. case_decide as Hne; [done|].
    apply elem_of_difference. split; [by apply H8|]. rewrite elem_of_singleton. intros He. by apply Hne, H5.
  - intros r [Hr Hri]%elem_of_difference. destruct (H9 r Hr) as (i & Hi & <- & Hdi). exists i. split_and!; [done..|].
    intros Hk'. unfold set_item. rewrite decide_False; [by apply Hdi|]. intros ->. set_solver.
Qed.
End ledger.
End DagEngine.
