(* ===== verification/DagProgress.v ===== *)
(** The DAG orchestrator on an engine that keeps the interface of DagEngine: it never blocks while nothing is
    owed to it, every iteration of its loop lessens what is left to do, and so it returns. *)

From S2P Require Import Prelude Workers DurableChannel DagRun DagSafety DagEngine.
Import Workers DurableChannel Dag DagSafety DagEngine.

Module DagProgress.

Open Scope nat_scope.

Section progress.
Context {W : Type} `{HW : World W} `{HS : EngineState W} `{HE : !Engine W} (E : runEnv).

(** The graph: the tasks, the on-failure task and a rank that falls along the edges to the parents. *)
Context (T0 : list ptr) (onF : option ptr) (info : ptr → taskInfo) (rank : ptr → nat).

Record acyclic : Prop := {
  ac_nodup : NoDup T0;
  ac_onFailure : ∀ f, onF = Some f → f ∉ T0;
  ac_parents : ∀ p q, p ∈ T0 → q ∈ i_parents (info p) → q ∈ T0 ∧ rank q < rank p;
}.
Context (Hac : acyclic).

Implicit Types (d : dag W) (p q : ptr) (i : item).

(** ** What is left to do *)

Definition allTasks : list ptr := T0 ++ option_list onF.

Definition itemsOf (p : ptr) : list item :=
  [(p, None); (p, Some conditionKindSkip); (p, Some conditionKindCancel); (p, Some conditionKindWait)].
Definition items : list item := allTasks ≫= itemsOf.

(** An item that was not used may add an ack and two completions, or a completion and a trigger. *)
Definition weight (i : item) : nat := match i.2 with None => 2 | Some _ => 3 end.

Definition unused (on : item → bool) : nat := sum_list_with (λ i, if on i then 0 else weight i) items.

Definition potential (d : dag W) : nat := unused (itemOn d) + load (d_world d).

Lemma allTasks_nodup : NoDup allTasks.
Proof.
  unfold allTasks. apply NoDup_app. split_and!; [apply Hac| |destruct onF; repeat constructor; set_solver].
  intros p Hp Hf. destruct onF as [f|] eqn:Hof; [|by apply elem_of_nil in Hf].
  apply list_elem_of_singleton in Hf as ->. by apply (ac_onFailure Hac f).
Qed.

Lemma elem_of_items i : i ∈ items ↔ i.1 ∈ allTasks.
Proof.
  unfold items. rewrite list_elem_of_bind. split.
  - intros (p & Hi & Hp). destruct i as [q o]. unfold itemsOf in Hi. cbn. assert (q = p) as -> by set_solver. done.
  - intros Hp. exists i.1. split; [|done]. destruct i as [q [[]|]]; unfold itemsOf; cbn; set_solver.
Qed.

Lemma items_nodup : NoDup items.
Proof.
  unfold items. pose proof allTasks_nodup as Hnd. induction Hnd as [|p l Hp Hnd IH]; [constructor|].
  cbn [mbind list_bind]. apply NoDup_app. split_and!; [|intros i Hi Hin|done].
  - unfold itemsOf. repeat constructor; set_solver.
  - apply list_elem_of_bind in Hin as (q & Hq & Hql). destruct i as [x o]. unfold itemsOf in *.
    assert (x = p) as -> by set_solver. assert (p = q) as -> by set_solver. done.
Qed.

Lemma unused_ext on on' : (∀ i, on' i = on i) → unused on' = unused on.
Proof. intros H. unfold unused. apply sum_list_with_same. by intros; rewrite H. Qed.

Lemma unused_use on i0 : i0 ∈ items → on i0 = false → unused (set_item i0 true on) + weight i0 = unused on.
Proof.
  unfold unused. pose proof items_nodup as Hnd. induction Hnd as [|i l Hi Hnd IH]; intros Hin Hon.
  { by apply elem_of_nil in Hin. }
  cbn [sum_list_with]. destruct (decide (i = i0)) as [->|Hne].
  - rewrite set_item_eq, Hon. rewrite (sum_list_with_same _ (λ i, if on i then 0 else weight i)); [lia|].
    intros j Hj. rewrite set_item_ne; [done|]. by intros ->.
  - rewrite set_item_ne by done. rewrite <- IH; [lia|set_solver|done].
Qed.

(** ** The invariant *)

Record live (d : dag W) : Prop := {
  lv_ledger : ledger (itemOn d) (itemDone d) (itemRef d) (d_pendingWaitAcks d) (d_world d);
  lv_info : ∀ p, t_info (task_at p d) = info p;
  lv_onFailure : d_onFailureTask d = onF;
  lv_tasks : d_tasks d = T0 ++ filter (λ f, t_isTriggered (task_at f d) = true) (option_list onF);
  lv_member : ∀ i, itemOn d i = true → i.1 ∈ d_tasks d;
  lv_fired : ∀ p kind, kind ≠ conditionKindWait → itemDone d (p, Some kind) = true → itemOn d (p, Some kind) = true;
  lv_skipped : ∀ p, t_isSkipped (task_at p d) = true → t_isCompleted (task_at p d) = true;
  lv_completed : ∀ p, t_isCompleted (task_at p d) = true → t_isTriggered (task_at p d) = true;
  lv_one : length (d_pendingWaitAcks d) ≤ 1;
  lv_err : d_err d = None;
  lv_buffer : d_pendingEntryCompletions d = [];
  lv_capacity : potential d ≤ capacity;
}.

(** A change that leaves the items: only what is complete may grow. *)
Record quiet (d d' : dag W) : Prop := {
  qt_on : ∀ i, itemOn d' i = itemOn d i;
  qt_ref : ∀ i, itemRef d' i = itemRef d i;
  qt_watch : ∀ p kind, itemOn d (p, Some kind) = true ∨ kind ≠ conditionKindWait →
    itemDone d' (p, Some kind) = itemDone d (p, Some kind);
  qt_done : ∀ i, itemDone d i = true → itemDone d' i = true;
  qt_info : ∀ p, t_info (task_at p d') = t_info (task_at p d);
  qt_skipped : ∀ p, t_isSkipped (task_at p d') = true → t_isSkipped (task_at p d) = true ∨ t_isCompleted (task_at p d') = true;
  qt_completed : ∀ p, t_isCompleted (task_at p d') = true → t_isCompleted (task_at p d) = true ∨ t_isTriggered (task_at p d) = true;
  qt_fields : d_onFailureTask d' = d_onFailureTask d ∧ d_tasks d' = d_tasks d ∧ d_err d' = d_err d ∧
    d_pendingEntryCompletions d' = d_pendingEntryCompletions d ∧ d_pendingWaitAcks d' = d_pendingWaitAcks d ∧
    d_world d' = d_world d;
}.

Lemma itemOn_trigger d p : itemOn d (p, None) = t_isTriggered (task_at p d).
Proof. done. Qed.

Lemma live_quiet d d' : quiet d d' → live d → live d' ∧ potential d' = potential d.
Proof.
  intros [Hon Href Hw Hdone Hi Hs Hcm (F1 & F2 & F3 & F4 & F5 & F6)] [H1 H2 H3 H4 H5 H6 H7 Hct H7' H8 H9 H10].
  assert (potential d' = potential d) as Hp.
  { unfold potential. rewrite F6. by rewrite (unused_ext _ _ Hon). }
  split; [|done]. split; rewrite ?F1, ?F2, ?F3, ?F4, ?F5, ?F6, ?Hp; try done.
  - apply (ledger_ext (itemOn d) _ (itemDone d') _ (itemRef d)); [done..|].
    apply (ledger_done _ (itemDone d)); [|done|done]. intros [p [kind|]] Ho Hk; [by apply Hw; left|by destruct Hk].
  - intros p. by rewrite Hi.
  - rewrite H4. f_equal. apply list_filter_iff. intros f. by rewrite <- !itemOn_trigger, Hon.
  - intros i. rewrite Hon. apply H5.
  - intros p kind Hk. rewrite Hw by (by right). rewrite Hon. by apply H6.
  - intros p Hp'. destruct (Hs p Hp') as [Hs'|?]; [|done].
    change (t_isCompleted (task_at p d')) with (itemDone d' (p, None)). apply Hdone. by apply H7.
  - intros p Hp'. rewrite <- itemOn_trigger, Hon, itemOn_trigger. destruct (Hcm p Hp'); auto.
Qed.

#[local] Instance quiet_preorder : PreOrder quiet.
Proof.
  split.
  - intros d. split; auto 10.
  - intros d1 d2 d3 [A1 A2 A3 A4 A5 A6 A0 (A7 & A8 & A9 & A10 & A11 & A12)] [B1 B2 B3 B4 B5 B6 B0 (B7 & B8 & B9 & B10 & B11 & B12)].
    split; [congruence|congruence| |auto|congruence| | |split_and!; congruence].
    + intros p kind Hk. rewrite B3, A3; [done..|]. by rewrite A1.
    + intros p Hp. destruct (B6 p Hp) as [H|]; [|by right]. destruct (A6 p H) as [|H']; [by left|right].
      change (itemDone d3 (p, None) = true). by apply B4.
    + intros p Hp. destruct (B0 p Hp) as [H|H]; [by apply A0|]. right.
      change (itemOn d1 (p, None) = true). rewrite <- A1. exact H.
Qed.

(** A change of one task. *)
Lemma quiet_upd p f d :
  (∀ t, t_info (f t) = t_info t) → (∀ t, t_isTriggered (f t) = t_isTriggered t) →
  (∀ t, t_nodeId (f t) = t_nodeId t ∧ t_branchId (f t) = t_branchId t) →
  (∀ t kind, watchOf kind (f t) = watchOf kind t) →
  (t_isCompleted (task_at p d) = true → t_isCompleted (f (task_at p d)) = true) →
  (t_isSkipped (f (task_at p d)) = true → t_isSkipped (task_at p d) = true ∨ t_isCompleted (f (task_at p d)) = true) →
  (t_isCompleted (f (task_at p d)) = true → t_isCompleted (task_at p d) = true ∨ t_isTriggered (task_at p d) = true) →
  quiet d (upd p f d).
Proof.
  intros Hi Ht Hr Hw Hc Hs Hcm. split; [| | | | | | |done].
  - intros [q [kind|]]; unfold itemOn; cbn; rewrite task_at_upd; case_decide; subst; by rewrite ?Hw, ?Ht.
  - intros [q [kind|]]; unfold itemRef; cbn; rewrite task_at_upd; case_decide; subst; rewrite ?Hw; [done..| |done].
    by destruct (Hr (task_at q d)) as [-> ->].
  - intros q kind _. unfold itemDone; cbn. rewrite task_at_upd. case_decide; subst; by rewrite ?Hw.
  - intros [q [kind|]]; unfold itemDone; cbn; rewrite task_at_upd; case_decide; subst; rewrite ?Hw; auto.
  - intros q. rewrite task_at_upd. case_decide; subst; by rewrite ?Hi.
  - intros q. rewrite task_at_upd. case_decide; subst; auto.
  - intros q. rewrite task_at_upd. case_decide; subst; auto.
Qed.

(** A change of the fields no item reads. *)
Lemma quiet_fields d d' :
  d_heap d' = d_heap d → d_onFailureTask d' = d_onFailureTask d → d_tasks d' = d_tasks d → d_err d' = d_err d →
  d_pendingEntryCompletions d' = d_pendingEntryCompletions d → d_pendingWaitAcks d' = d_pendingWaitAcks d →
  d_world d' = d_world d → quiet d d'.
Proof.
  intros Hh *. assert (∀ p, task_at p d' = task_at p d) as Ht by (intros p; unfold task_at; by rewrite Hh).
  split; unfold itemOn, itemDone, itemRef; intros *; rewrite ?Ht; auto 10.
Qed.

Lemma quiet_evaluate p d : quiet d (evaluateConditionsForParent E p d).
Proof.
  unfold evaluateConditionsForParent. case_match; [|done]. etrans; [|by apply quiet_upd; auto]. by apply quiet_fields.
Qed.

(** A change of a completed task that leaves it completed. *)
Lemma quiet_completed_upd p f d :
  t_isCompleted (task_at p d) = true → (∀ t, t_isCompleted (f t) = t_isCompleted t) →
  (∀ t, t_info (f t) = t_info t) → (∀ t, t_isTriggered (f t) = t_isTriggered t) →
  (∀ t, t_nodeId (f t) = t_nodeId t ∧ t_branchId (f t) = t_branchId t) →
  (∀ t kind, watchOf kind (f t) = watchOf kind t) →
  quiet d (upd p f d) ∧ t_isCompleted (task_at p (upd p f d)) = true.
Proof.
  intros Hc Hf *. split; [|by rewrite task_at_upd, decide_True, Hf]. apply quiet_upd; try done; rewrite Hf; auto.
Qed.

Definition quietDone p d d' : Prop := quiet d d' ∧ t_isCompleted (task_at p d') = true.

Lemma quietDone_upd p g d d' :
  quietDone p d d' → (∀ t, t_isCompleted (g t) = t_isCompleted t) → (∀ t, t_info (g t) = t_info t) →
  (∀ t, t_isTriggered (g t) = t_isTriggered t) → (∀ t, t_nodeId (g t) = t_nodeId t ∧ t_branchId (g t) = t_branchId t) →
  (∀ t kind, watchOf kind (g t) = watchOf kind t) → quietDone p d (upd p g d').
Proof. intros [Hq Hc] ? ? ? ? ?. destruct (quiet_completed_upd p g d'); [done..|]. split; [by etrans|done]. Qed.

Lemma quietDone_start p d :
  t_isTriggered (task_at p d) = true → quietDone p d (record (EvComplete p) (upd p (set_isCompleted true) d)).
Proof.
  intros Ht. split.
  - etrans; [by apply (quiet_upd p (set_isCompleted true)); auto|]. by apply quiet_fields.
  - change (task_at p (record ?e ?x)) with (task_at p x). by rewrite task_at_upd, decide_True.
Qed.

Lemma quiet_applyCompletion p f m s d :
  t_isTriggered (task_at p d) = true → quietDone p d (applyCompletion E p f m s d).
Proof.
  intros Ht. unfold applyCompletion. pose proof (quietDone_start p d Ht) as Hd1. set (d1 := record _ _) in *. clearbody d1.
  assert (∀ d', quietDone p d d' → quietDone p d (evaluateConditionsForParent E p d')) as Hev.
  { intros d' [Hq Hc]. split; [etrans; [done|apply quiet_evaluate]|].
    change (itemDone (evaluateConditionsForParent E p d') (p, None) = true).
    by apply (qt_done _ _ (quiet_evaluate p d')). }
  apply Hev. repeat case_match; repeat first [done | apply quietDone_upd; try done].
Qed.


(** ** Registering conditions *)

Lemma task_at_heap p d d' : d_heap d' = d_heap d → task_at p d' = task_at p d.
Proof. intros Hh. unfold task_at. by rewrite Hh. Qed.

Lemma watchOf_register kind kind' t :
  watchOf kind' (registerWatch kind t) =
    if decide (kind' = kind) then Watch true (fired (watchOf kind t)) (watchNodeId (watchOf kind t)) (watchBranchId (watchOf kind t))
    else watchOf kind' t.
Proof. by destruct kind, kind'. Qed.

Section registerItems.
Context (p : ptr) (kind : conditionKind) (d d1 : dag W) (Hh : d_heap d1 = d_heap d).

Lemma itemOn_register i : itemOn (upd p (registerWatch kind) d1) i = set_item (p, Some kind) true (itemOn d) i.
Proof.
  unfold itemOn, set_item. rewrite task_at_upd, !(task_at_heap _ d d1 Hh).
  destruct i as [q [kind'|]]; cbn; (destruct (decide (p = q)) as [<-|Hne]; [|rewrite decide_False by congruence; done]).
  - rewrite watchOf_register. destruct (decide (kind' = kind)) as [->|]; [by rewrite decide_True|].
    by rewrite decide_False by congruence.
  - rewrite decide_False by done. by destruct kind.
Qed.

Lemma itemDone_register i : itemDone (upd p (registerWatch kind) d1) i = itemDone d i.
Proof.
  unfold itemDone. rewrite task_at_upd, !(task_at_heap _ d d1 Hh).
  destruct i as [q [kind'|]]; cbn; case_decide; subst; [|done| |done].
  - rewrite watchOf_register. by case_decide; subst.
  - by destruct kind.
Qed.

Lemma itemRef_register i : itemRef (upd p (registerWatch kind) d1) i = itemRef d i.
Proof.
  unfold itemRef. rewrite task_at_upd, !(task_at_heap _ d d1 Hh).
  destruct i as [q [kind'|]]; cbn; case_decide; subst; [|done| |done].
  - rewrite watchOf_register. by case_decide; subst.
  - by destruct kind.
Qed.

Lemma task_register q :
  t_info (task_at q (upd p (registerWatch kind) d1)) = t_info (task_at q d) ∧
  t_isTriggered (task_at q (upd p (registerWatch kind) d1)) = t_isTriggered (task_at q d) ∧
  t_isSkipped (task_at q (upd p (registerWatch kind) d1)) = t_isSkipped (task_at q d) ∧
  t_isCompleted (task_at q (upd p (registerWatch kind) d1)) = t_isCompleted (task_at q d).
Proof.
  rewrite task_at_upd, !(task_at_heap _ d d1 Hh). case_decide; subst; [|done]. by destruct kind.
Qed.
End registerItems.

Lemma T0_tasks p d : live d → p ∈ T0 → p ∈ d_tasks d.
Proof. intros Hd Hp. rewrite (lv_tasks _ Hd). apply elem_of_app. by left. Qed.

Lemma T0_items p o : p ∈ T0 → (p, o) ∈ items.
Proof. intros Hp. apply elem_of_items. cbn. apply elem_of_app. by left. Qed.

Lemma live_register p kind g d :
  live d → d_pendingWaitAcks d = [] → p ∈ T0 → itemOn d (p, Some kind) = false → itemDone d (p, Some kind) = false →
  ∃ d1, registerCondition E p kind g d = (None, d1) ∧
    let d2 := upd p (registerWatch kind) d1 in
    live d2 ∧ potential d2 < potential d ∧ d_pendingWaitAcks d2 = [(p, kind)] ∧ d_pendingTasks d2 = d_pendingTasks d.
Proof.
  intros Hd Ha Hp Hon Hdone. pose proof Hd as [H1 H2 H3 H4 H5 H6 H7 Hct H7' H8 H9 H10]. rewrite Ha in H1.
  pose proof (unused_use (itemOn d) (p, Some kind) (T0_items _ _ Hp) Hon) as Hu. cbn in Hu.
  pose proof H10 as Hcap. unfold potential in Hcap.
  unfold registerCondition. set (req := foldl _ _ _).
  destruct (send_wait (d_world d) (e_uuidString E (e_externalId E)) (e_invocationCount E) req)
    as (w' & Hs & Hok & Hacks & Howed & Hknown); [apply H1|apply H1|lia|].
  rewrite Hs. eexists. split; [reflexivity|]. cbn. set (d1 := record _ _). rewrite Ha.
  assert (d_heap d1 = d_heap d) as Hh by done.
  assert (potential (upd p (registerWatch kind) d1) < potential d) as Hlt.
  { unfold potential. rewrite (unused_ext _ _ (itemOn_register p kind d d1 Hh)). cbn. unfold load.
    rewrite Hacks, Howed. pose proof (g_acks _ _ _ _ _ H1) as Hz. cbn in Hz. unfold load in *. lia. }
  split_and!; [|done|done|done]. split; try done.
  - cbn. rewrite Ha. apply (ledger_ext (set_item (p, Some kind) true (itemOn d)) _ (itemDone d) _ (itemRef d));
      [apply (itemOn_register p kind d d1 Hh)|apply (itemDone_register p kind d d1 Hh)|apply (itemRef_register p kind d d1 Hh)|].
    by apply (ledger_register _ _ _ _ _ (d_world d)).
  - intros q. destruct (task_register p kind d d1 Hh q) as [-> _]. apply H2.
  - cbn. rewrite H4. f_equal. apply list_filter_iff. intros f. by destruct (task_register p kind d d1 Hh f) as (_ & -> & _).
  - intros i. rewrite (itemOn_register p kind d d1 Hh). intros Hi. cbn.
    destruct (decide (i = (p, Some kind))) as [->|Hne]; [by apply T0_tasks|]. rewrite set_item_ne in Hi by done. by apply H5.
  - intros q k Hk. rewrite (itemOn_register p kind d d1 Hh), (itemDone_register p kind d d1 Hh). intros Hq.
    destruct (decide ((q, Some k) = (p, Some kind))) as [->|Hne]; [by rewrite set_item_eq|].
    rewrite set_item_ne by done. by apply H6.
  - intros q. destruct (task_register p kind d d1 Hh q) as (_ & _ & -> & ->). apply H7.
  - intros q. destruct (task_register p kind d d1 Hh q) as (_ & -> & _ & ->). apply Hct.
  - cbn. rewrite Ha. cbn. lia.
  - lia.
Qed.

(** A step of the emission that returns no error: the invariant is kept and what is left does not grow. *)
Record calm d d' : Prop := {
  cm_live : live d';
  cm_potential : potential d' ≤ potential d;
  cm_pending : d_pendingTasks d' = d_pendingTasks d;
  cm_acks : d_pendingWaitAcks d = d_pendingWaitAcks d' ∨ (d_pendingWaitAcks d = [] ∧ d_pendingWaitAcks d' ≠ []);
}.

Lemma calm_refl d : live d → calm d d.
Proof. intros Hd. by split; [| |done|left]. Qed.

Lemma calm_trans d1 d2 d3 : calm d1 d2 → calm d2 d3 → calm d1 d3.
Proof.
  intros [A1 A2 A3 A4] [B1 B2 B3 B4]. split; [done|lia|congruence|].
  destruct A4 as [A|[A A']], B4 as [B|[B B']]; [left; congruence|right; split; congruence|right; split; congruence|congruence].
Qed.

Lemma calm_register p kind g d :
  live d → ackPending d = false → p ∈ T0 → itemOn d (p, Some kind) = false → itemDone d (p, Some kind) = false →
  ∃ d1, registerCondition E p kind g d = (None, d1) ∧ calm d (upd p (registerWatch kind) d1) ∧
    ackPending (upd p (registerWatch kind) d1) = true.
Proof.
  intros Hd Ha%ackPending_false Hp Hon Hdone.
  destruct (live_register p kind g d) as (d1 & Hr & Hl & Hpot & Hacks & Hpend); [done..|].
  exists d1. split_and!; [done| |unfold ackPending; by rewrite Hacks]. split; [done|lia|done|right; split; [done|by rewrite Hacks]].
Qed.

Lemma calm_gateWatch kind p d :
  live d → p ∈ T0 → kind ≠ conditionKindWait →
  ∃ o d1, gateWatch E kind p d = (o, d1) ∧ calm d d1 ∧
    (o = None ∨ (o = Some Wait ∧ ackPending d1 = true)) ∧ (ackPending d1 = false → d1 = d).
Proof.
  intros Hd Hp Hk. unfold gateWatch. destruct (hasEventOrSleepConditions _ _ && _) eqn:Hg; cycle 1.
  { exists None, d. split_and!; [done|by apply calm_refl|by left|done]. }
  apply andb_true_iff in Hg as [_ Hreg%negb_true_iff]. destruct (ackPending d) eqn:Ha.
  { exists (Some Wait), d. split_and!; [done|by apply calm_refl|by right|done]. }
  assert (itemOn d (p, Some kind) = false) as Hon by done.
  assert (itemDone d (p, Some kind) = false) as Hdone.
  { destruct (itemDone d (p, Some kind)) eqn:Hx; [|done]. by rewrite (lv_fired _ Hd p kind Hk Hx) in Hon. }
  destruct (calm_register p kind ∅ d) as (d1 & -> & Hc & Hack); [done..|].
  exists None, (upd p (registerWatch kind) d1). split_and!; [done..|by left|congruence].
Qed.

(** A wait that its parent conditions satisfy is fired without a registration. *)
Lemma quiet_fire p d : itemOn d (p, Some conditionKindWait) = false → quiet d (upd p (fireWatch conditionKindWait) d).
Proof.
  intros Hon. split; [| | | | | | |done].
  - intros [q [[]|]]; unfold itemOn; cbn; rewrite task_at_upd; by case_decide; subst.
  - intros [q [[]|]]; unfold itemRef; cbn; rewrite task_at_upd; by case_decide; subst.
  - intros q kind Hk. unfold itemDone; cbn. rewrite task_at_upd. case_decide; subst; [|done].
    destruct kind; [|done..]. destruct Hk as [Hk|Hk]; [congruence|done].
  - intros [q [[]|]]; unfold itemDone; cbn; rewrite task_at_upd; by case_decide; subst.
  - intros q. rewrite task_at_upd. by case_decide; subst.
  - intros q. rewrite task_at_upd. case_decide; subst; [|auto]. cbn. auto.
  - intros q. rewrite task_at_upd. case_decide; subst; auto.
Qed.

Lemma calm_quiet d d' : quiet d d' → d_pendingTasks d' = d_pendingTasks d → live d → calm d d'.
Proof.
  intros Hq Hp Hd. destruct (live_quiet _ _ Hq Hd) as [Hl Hpot]. split; [done|lia|done|left].
  symmetry. apply Hq.
Qed.

(** The wait of a task is registered and its completion has not come. *)
Definition awaitsWait p d : Prop :=
  itemOn d (p, Some conditionKindWait) = true ∧ itemDone d (p, Some conditionKindWait) = false.

Definition heldBack p d d1 : Prop := ackPending d1 = true ∨ (d1 = d ∧ awaitsWait p d).

Lemma calm_gateWait p d :
  live d → p ∈ T0 →
  ∃ dec d1, gateWait E p d = (dec, d1) ∧ calm d d1 ∧ (dec = Proceed false false ∨ (dec = Wait ∧ heldBack p d d1)).
Proof.
  intros Hd Hp. unfold gateWait. destruct (hasEventOrSleepConditions _ _ && _) eqn:Hg; cycle 1.
  { exists (Proceed false false), d. split_and!; [done|by apply calm_refl|by left]. }
  apply andb_true_iff in Hg as [_ Hf%negb_true_iff].
  destruct (registered (t_wait (task_at p d))) eqn:Hreg.
  { exists Wait, d. split_and!; [done|by apply calm_refl|]. right. split; [done|]. right. done. }
  case_match.
  { exists (Proceed false false). eexists. split_and!; [done| |by left]. by apply calm_quiet; [apply quiet_fire| |]. }
  destruct (ackPending d) eqn:Ha.
  { exists Wait, d. split_and!; [done|by apply calm_refl|]. right. split; [done|]. by left. }
  match goal with |- context [registerCondition E p ?k ?g d] =>
    destruct (calm_register p k g d) as (d1 & -> & Hc & Hack); [done..|] end.
  eexists Wait, _. split_and!; [done..|]. right. split; [done|]. by left.
Qed.

Lemma calm_ack d d1 : calm d d1 → ackPending d1 = false → ackPending d = false.
Proof. intros Hc. rewrite !ackPending_false. destruct (cm_acks _ _ Hc) as [->|[? ?]]; done. Qed.

Lemma calm_decideTask p d :
  live d → p ∈ T0 →
  ∃ dec d1, decideTask E p d = (dec, d1) ∧ calm d d1 ∧
    ((∃ skip cancelled, dec = Proceed skip cancelled) ∨ (dec = Wait ∧ heldBack p d d1)).
Proof.
  intros Hd Hp. unfold decideTask.
  assert (∀ skip cancelled, ∃ dec d1, (Proceed skip cancelled, d) = (dec, d1) ∧ calm d d1 ∧
    ((∃ skip cancelled, dec = Proceed skip cancelled) ∨ (dec = Wait ∧ heldBack p d d1))) as Hgo.
  { intros skip cancelled. eexists _, _. split_and!; [done|by apply calm_refl|]. eauto. }
  case_match; [apply Hgo|]. case_match; [apply Hgo|].
  destruct (evaluateParentConditions _ d) as [[] []]; [apply Hgo..|].
  destruct (calm_gateWatch conditionKindSkip p d Hd Hp) as (o1 & d1 & -> & C1 & Ho1 & He1); [done|].
  destruct o1 as [dec|]; [destruct Ho1 as [|[[= ->] ?]]; [done|]; eexists _, _; split_and!; [done..|]; right; split; [done|by left]|].
  destruct (calm_gateWatch conditionKindCancel p d1 (cm_live _ _ C1) Hp) as (o2 & d2 & -> & C2 & Ho2 & He2); [done|].
  destruct o2 as [dec|]; [destruct Ho2 as [|[[= ->] ?]]; [done|]; eexists _, _; split_and!; [done|by eapply calm_trans|]; right; split; [done|by left]|].
  case_match; [eexists _, _; split_and!; [done|by eapply calm_trans|]; eauto|].
  case_match; [eexists _, _; split_and!; [done|by eapply calm_trans|]; eauto|].
  destruct (calm_gateWait p d2 (cm_live _ _ C2) Hp) as (dec & d3 & -> & C3 & Hdec).
  exists dec, d3. split_and!; [done|eapply calm_trans; [done|]; by eapply calm_trans|].
  destruct Hdec as [->|[-> Hh]]; [eauto|]. right. split; [done|].
  destruct (ackPending d3) eqn:Ha; [by left|]. right. destruct Hh as [Hh|[-> Hh]]; [congruence|].
  assert (d2 = d1) as -> by auto. assert (d1 = d) as -> by auto. done.
Qed.

(** ** Triggering *)

Lemma filter_same {A} (P Q : A → Prop) `{∀ a, Decision (P a)} `{∀ a, Decision (Q a)} (l : list A) :
  (∀ a, a ∈ l → P a ↔ Q a) → filter P l = filter Q l.
Proof.
  induction l as [|a l IH]; intros Hl; [done|]. rewrite !filter_cons, IH by (intros; apply Hl; by constructor).
  pose proof (Hl a ltac:(by constructor)). repeat case_decide; tauto.
Qed.

Lemma size_insert_new (X : gset entryRef) r : r ∉ X → size ({[r]} ∪ X) = S (size X).
Proof. intros Hr. rewrite size_union by set_solver. by rewrite size_singleton. Qed.

Lemma live_trigger p d d' r :
  live d → p ∈ allTasks → t_isTriggered (task_at p d) = false →
  (∀ q, q ≠ p → task_at q d' = task_at q d) → t_info (task_at p d') = t_info (task_at p d) →
  t_isTriggered (task_at p d') = true → (∀ kind, watchOf kind (task_at p d') = watchOf kind (task_at p d)) →
  itemRef d' (p, None) = r →
  (t_isCompleted (task_at p d) = true → t_isCompleted (task_at p d') = true) →
  (t_isSkipped (task_at p d') = true → t_isSkipped (task_at p d) = true ∨ t_isCompleted (task_at p d') = true) →
  d_tasks d' = T0 ++ filter (λ f, t_isTriggered (task_at f d') = true) (option_list onF) →
  d_onFailureTask d' = d_onFailureTask d → d_err d' = d_err d →
  d_pendingEntryCompletions d' = d_pendingEntryCompletions d → d_pendingWaitAcks d' = d_pendingWaitAcks d →
  reliable (d_world d') → owedAcks (d_world d') = owedAcks (d_world d) → r ∉ known (d_world d) → r ∉ owed (d_world d) →
  owed (d_world d') = {[r]} ∪ owed (d_world d) → known (d_world d') = {[r]} ∪ known (d_world d) →
  live d' ∧ potential d' < potential d.
Proof.
  intros Hd Hp Ht Hother Hi Ht' Hw Hr Hc Hs Htasks Hf Herr Hbuf Hacks Hok Hoa Hk Ho Howed Hknown.
  pose proof Hd as [H1 H2 H3 H4 H5 H6 H7 Hct H7' H8 H9 H10].
  assert (∀ i, itemOn d' i = set_item (p, None) true (itemOn d) i) as Hon.
  { intros [q o]. unfold set_item, itemOn. cbn. destruct (decide (q = p)) as [->|Hne].
    - destruct o as [kind|]; [rewrite decide_False by done; by rewrite Hw|by rewrite decide_True].
    - rewrite decide_False by congruence. by rewrite Hother. }
  assert (∀ i, itemRef d' i = set_item (p, None) r (itemRef d) i) as Href.
  { intros [q o]. unfold set_item. destruct (decide (q = p)) as [->|Hne].
    - destruct o as [kind|]; [rewrite decide_False by done; unfold itemRef; cbn; by rewrite Hw|by rewrite decide_True].
    - rewrite decide_False by congruence. unfold itemRef. cbn. by rewrite Hother. }
  assert (∀ i, itemDone d i = true → itemDone d' i = true) as Hdone.
  { intros [q o]. unfold itemDone. cbn. destruct (decide (q = p)) as [->|Hne]; [|by rewrite Hother].
    destruct o as [kind|]; [by rewrite Hw|done]. }
  assert (∀ q kind, itemDone d' (q, Some kind) = itemDone d (q, Some kind)) as Hdw.
  { intros q kind. unfold itemDone. cbn. destruct (decide (q = p)) as [->|Hne]; [by rewrite Hw|by rewrite Hother]. }
  assert (∀ q, q ∈ d_tasks d → q ∈ d_tasks d') as Hsub.
  { intros q. rewrite Htasks, H4, !elem_of_app, !list_elem_of_filter. intros [?|[Hq ?]]; [by left|]. right. split; [|done].
    change (itemOn d' (q, None) = true). rewrite Hon. unfold set_item. by case_decide. }
  assert (p ∈ d_tasks d') as Hin.
  { rewrite Htasks, elem_of_app, list_elem_of_filter. apply elem_of_app in Hp as [?|?]; auto. }
  assert (potential d' < potential d) as Hlt.
  { unfold potential. rewrite (unused_ext _ _ Hon).
    pose proof (unused_use (itemOn d) (p, None)) as Hu. cbn in Hu.
    rewrite <- Hu; [|by apply elem_of_items|done]. unfold load. rewrite Hoa, Howed, size_insert_new by done. lia. }
  split; [|done]. split; try done.
  - rewrite Hacks. apply (ledger_ext (set_item (p, None) true (itemOn d)) _ (itemDone d') _ (set_item (p, None) r (itemRef d)));
      [done..|].
    apply (ledger_trigger _ _ _ _ _ (d_world d)); try done.
    apply (ledger_done _ (itemDone d)); [|done|done]. intros [q [kind|]] _ Hn; [apply Hdw|by destruct Hn].
  - intros q. destruct (decide (q = p)) as [->|Hne]; [by rewrite Hi|by rewrite Hother].
  - by rewrite Hf.
  - intros i. rewrite Hon. destruct (decide (i = (p, None))) as [->|Hne]; [by intros _|].
    rewrite set_item_ne by done. intros Hi'. by apply Hsub, H5.
  - intros q kind Hk'. rewrite Hdw, Hon, set_item_ne by done. by apply H6.
  - intros q. destruct (decide (q = p)) as [->|Hne]; [|rewrite Hother by done; apply H7].
    intros Hsk. destruct (Hs Hsk) as [Hs'|?]; [|done]. by apply Hc, H7.
  - intros q. destruct (decide (q = p)) as [->|Hne]; [done|]. rewrite Hother by done. apply Hct.
  - by rewrite Hacks.
  - by rewrite Herr.
  - by rewrite Hbuf.
  - lia.
Qed.

(** The task after it was triggered, before its entry is registered. *)
Lemma task_evaluate p q d :
  task_at q (evaluateConditionsForParent E p d) =
    if decide (p = q) then set_output None (task_at q d) else task_at q d.
Proof.
  unfold evaluateConditionsForParent. destruct (t_output (task_at p d)) as [o|] eqn:Ho.
  - rewrite task_at_upd. change (task_at ?x (set_conditionMatches ?m ?y)) with (task_at x y). by case_decide; subst.
  - case_decide; [|done]. subst. destruct (task_at q d). cbn in *. by subst.
Qed.

(** The run after the trigger of a task succeeded, before its entry is registered. *)
Definition flagged p (skip cancelled : bool) d : dag W :=
  if cancelled then upd p (set_isCancelled true) d
  else if skip then evaluateConditionsForParent E p (record (EvComplete p) (upd p markSkipped d))
  else d.
Definition marked p skip cancelled (r : DAGStepTriggerResult) d : dag W :=
  upd p (set_isTriggered true) (upd p (set_ref r)
    (flagged p skip cancelled (record (EvTrigger p skip cancelled) (upd p (set_reExecuted (tr_ReExecuted r)) d)))).

(** What it changes of its task: [c], [s], [k] and [o] are its flags and output. *)
Definition markedTask (r : DAGStepTriggerResult) (c s k : bool) (o : option jsonObject) (t : task) : task :=
  Task (t_info t) (t_isCompleted t || k) (t_isFailed t) c true s (t_errorMessage t) o (tr_ReExecuted r) (t_skipWatch t)
    (t_cancelWatch t) (t_wait t) (tr_NodeId r) (tr_BranchId r) (Some (tr_WorkflowRunExternalId r)).

Lemma task_record q e d : task_at q (record e d) = task_at q d.
Proof. done. Qed.

Lemma task_upd_eq p f d : task_at p (upd p f d) = f (task_at p d).
Proof. by rewrite task_at_upd, decide_True. Qed.
Lemma task_upd_ne p q f d : q ≠ p → task_at q (upd p f d) = task_at q d.
Proof. intros. by rewrite task_at_upd, decide_False. Qed.
Lemma task_evaluate_eq p d : task_at p (evaluateConditionsForParent E p d) = set_output None (task_at p d).
Proof. by rewrite task_evaluate, decide_True. Qed.
Lemma task_evaluate_ne p q d : q ≠ p → task_at q (evaluateConditionsForParent E p d) = task_at q d.
Proof. intros. by rewrite task_evaluate, decide_False. Qed.

Lemma flagged_other p skip cancelled d q : q ≠ p → task_at q (flagged p skip cancelled d) = task_at q d.
Proof.
  intros Hq. unfold flagged. destruct cancelled; [by apply task_upd_ne|]. destruct skip; [|done].
  rewrite task_evaluate_ne, task_record by done. by apply task_upd_ne.
Qed.

Lemma flagged_task p skip cancelled d :
  task_at p (flagged p skip cancelled d) =
    if cancelled then set_isCancelled true (task_at p d)
    else if skip then set_output None (markSkipped (task_at p d)) else task_at p d.
Proof.
  unfold flagged. destruct cancelled; [by apply task_upd_eq|]. destruct skip; [|done].
  rewrite task_evaluate_eq, task_record. f_equal. apply task_upd_eq.
Qed.

Lemma marked_other p skip cancelled r d q : q ≠ p → task_at q (marked p skip cancelled r d) = task_at q d.
Proof.
  intros Hq. unfold marked. rewrite !task_upd_ne, flagged_other, task_record by done. by apply task_upd_ne.
Qed.

Lemma marked_task p skip cancelled r d :
  ∃ o, task_at p (marked p skip cancelled r d) =
    markedTask r (if cancelled then true else t_isCancelled (task_at p d))
      (if cancelled then t_isSkipped (task_at p d) else skip || t_isSkipped (task_at p d))
      (negb cancelled && skip) o (task_at p d).
Proof.
  assert (task_at p (marked p skip cancelled r d) = set_isTriggered true (set_ref r
    (if cancelled then set_isCancelled true (set_reExecuted (tr_ReExecuted r) (task_at p d))
     else if skip then set_output None (markSkipped (set_reExecuted (tr_ReExecuted r) (task_at p d)))
     else set_reExecuted (tr_ReExecuted r) (task_at p d)))) as ->.
  { unfold marked. rewrite task_upd_eq. f_equal. rewrite task_upd_eq. f_equal. rewrite flagged_task, task_record.
    by rewrite task_upd_eq. }
  exists (if cancelled then t_output (task_at p d) else if skip then None else t_output (task_at p d)).
  generalize (task_at p d). intros [t1 t2 t3 t4 t5 t6 t7 t8 t9 t10 t11 t12 t13 t14 t15]. unfold markedTask.
  destruct t2, cancelled, skip; reflexivity.
Qed.

Lemma marked_fields p skip cancelled r d :
  let d' := marked p skip cancelled r d in
  d_world d' = d_world d ∧ d_tasks d' = d_tasks d ∧ d_onFailureTask d' = d_onFailureTask d ∧ d_err d' = d_err d ∧
  d_pendingEntryCompletions d' = d_pendingEntryCompletions d ∧ d_pendingWaitAcks d' = d_pendingWaitAcks d ∧
  d_pendingTasks d' = d_pendingTasks d.
Proof.
  unfold marked, flagged. destruct cancelled; [done|]. destruct skip; [|done]. unfold evaluateConditionsForParent. by case_match.
Qed.

(** The engine refused the step that the run triggered last. *)
Definition refused d (err : dagError) : Prop :=
  ∃ args w e, reliable w ∧ w_triggerStep args w = (inr e, d_world d) ∧ err = TriggerFailed (ta_actionId args) e.

Lemma live_triggerTask p skip cancelled d :
  live d → p ∈ T0 → t_isTriggered (task_at p d) = false →
  (∃ o d1, triggerTask E p skip cancelled d = (Fail o false, d1) ∧ refused d1 o) ∨
  ∃ d1, triggerTask E p skip cancelled d = (Triggered, d1) ∧ live d1 ∧ potential d1 < potential d ∧
    t_isTriggered (task_at p d1) = true ∧ (∀ q, q ≠ p → task_at q d1 = task_at q d) ∧
    d_pendingTasks d1 = d_pendingTasks d ∧ d_pendingWaitAcks d1 = d_pendingWaitAcks d.
Proof.
  intros Hd Hp Ht. unfold triggerTask. set (args := TriggerArgs _ _ _ _ _ _ _).
  pose proof (lv_ledger _ Hd) as Hg.
  pose proof (unused_use (itemOn d) (p, None) (T0_items _ _ Hp) Ht) as Hu. cbn in Hu.
  pose proof (lv_capacity _ Hd) as Hcap. unfold potential in Hcap.
  destruct (trigger_ok (d_world d) args (g_ok _ _ _ _ _ Hg)) as
    [(e & w1 & Hx)|(r & w1 & w2 & -> & Hx & Hok2 & Hfresh & Hno & Ha2 & Ho2 & Hk2)]; [lia|left|right].
  { rewrite Hx. do 2 eexists. split; [done|]. exists args, (d_world d), e. split; [apply Hg|done]. }
  match goal with |- context [expectChild p ?x] => change x with (marked p skip cancelled r (set_world w1 d)) end.
  destruct (marked_fields p skip cancelled r (set_world w1 d)) as (F1 & F2 & F3 & F4 & F5 & F6 & F7).
  pose proof (marked_other p skip cancelled r (set_world w1 d)) as Hother.
  destruct (marked_task p skip cancelled r (set_world w1 d)) as [o Htask].
  change (task_at ?q (set_world w1 d)) with (task_at q d) in *. set (d3 := marked _ _ _ _ _) in *. clearbody d3.
  unfold expectChild. rewrite Htask, F1. cbn.
  change (EntryRef (tr_BranchId r) (tr_NodeId r)) with (resultRef r). rewrite Hx.
  eexists. split; [reflexivity|]. set (d4 := set_world w2 d3).
  assert (∀ q, task_at q d4 = task_at q d3) as H4 by done.
  destruct (live_trigger p d d4 (resultRef r)) as [Hl Hpot]; rewrite ?H4, ?Htask; cbn;
    rewrite ?F2, ?F3, ?F4, ?F5, ?F6; try done.
  - apply elem_of_app. by left.
  - unfold itemRef. cbn. by rewrite H4, Htask.
  - by intros ->.
  - destruct cancelled; [by left|]. destruct skip; cbn; [|by left]. right. by rewrite orb_true_r.
  - change (d_tasks (set_world w1 d)) with (d_tasks d).
    rewrite (lv_tasks _ Hd). f_equal. apply filter_same. intros f Hf. destruct (decide (f = p)) as [->|Hne].
    + exfalso. destruct onF as [f|] eqn:Hof; [|by apply elem_of_nil in Hf]. apply list_elem_of_singleton in Hf as ->.
      by apply (ac_onFailure Hac f).
    + by rewrite H4, Hother.
Qed.

(** ** The passes *)

(** A task that the passes drop. *)
Definition gone d p : bool := t_isTriggered (task_at p d) || t_isSkipped (task_at p d).

Lemma onlyWatches_gone d d' q : onlyWatches d d' → gone d' q = gone d q.
Proof.
  intros H. specialize (H q). unfold gone.
  pose proof (f_equal t_isTriggered H) as H1. pose proof (f_equal t_isSkipped H) as H2. cbn in *. by rewrite H1, H2.
Qed.

(** How an iteration ends: with an error only when the engine refused the step; a task that stays waits for an ack, for its parents or for its
    registered wait, and then the iteration did nothing. *)
Definition emitEnd (ready : ptr → bool) p d (o : emitOutcome) d1 : Prop :=
  match o with
  | Gone => d1 = d ∧ gone d p = true
  | Keep => ackPending d1 = true ∨ (d1 = d ∧ (ready p = false ∨ awaitsWait p d))
  | Triggered => gone d1 p = true
  | Fail e _ => refused d1 e
  end.

Record emitted d d1 : Prop := {
  em_live : live d1;
  em_potential : potential d1 ≤ potential d;
  em_pending : d_pendingTasks d1 = d_pendingTasks d;
  em_gone : ∀ q, gone d q = true → gone d1 q = true;
  em_acks : ackPending d = true → ackPending d1 = true;
}.

Lemma emitted_refl d : live d → emitted d d.
Proof. by split. Qed.

Lemma emitted_calm d d1 : calm d d1 → onlyWatches d d1 → emitted d d1.
Proof.
  intros [H1 H2 H3 H4] How. split; [done..| |].
  - intros q Hq. by rewrite (onlyWatches_gone _ _ _ How).
  - intros Ha. destruct (ackPending d1) eqn:Ha1; [done|]. by rewrite (calm_ack d d1) in Ha.
Qed.

Lemma emit_task ready p d :
  live d → p ∈ T0 → ∃ o d1, emitTask E ready p d = (o, d1) ∧ ((∃ e b, o = Fail e b) ∨ emitted d d1) ∧ emitEnd ready p d o d1.
Proof.
  intros Hd Hp. unfold emitTask. destruct (t_isTriggered (task_at p d) || _) eqn:Hg.
  { exists Gone, d. split_and!; [done|right; by apply emitted_refl|done]. }
  destruct (ready p) eqn:Hr; cbn [negb]; cycle 1.
  { exists Keep, d. split_and!; [done|right; by apply emitted_refl|]. right. auto. }
  destruct (calm_decideTask p d Hd Hp) as (dec & d1 & Hdec & Hc & Hcase). pose proof (onlyWatches_decideTask E p d) as How.
  rewrite Hdec in How |- *. cbn in How. pose proof (emitted_calm _ _ Hc How) as Hem.
  destruct Hcase as [(skip & cancelled & ->)|[-> Hh]]; cycle 1.
  { exists Keep, d1. split_and!; [done|by right|]. destruct Hh as [?|[-> ?]]; [by left|right; auto]. }
  destruct (ackPending d1) eqn:Ha; [exists Keep, d1; split_and!; [done|by right|by left]|].
  apply orb_false_iff in Hg as [Ht Hs].
  destruct (live_triggerTask p skip cancelled d1 (cm_live _ _ Hc) Hp) as
    [(e & d2 & -> & Hr')|(d2 & -> & Hl & Hpot & Htr & Hother & Hpend & Hacks)].
  { by rewrite (onlyWatches_triggered _ _ _ How). }
  { exists (Fail e false), d2. split_and!; [done|left; eauto|done]. }
  exists Triggered, d2. split_and!; [done| |unfold emitEnd, gone; by rewrite Htr]. right. destruct Hem as [E1 E2 E3 E4 E5]. split.
  - done.
  - lia.
  - by rewrite Hpend.
  - intros q Hq. destruct (decide (q = p)) as [->|Hne]; [unfold gone; by rewrite Htr|].
    unfold gone. rewrite Hother by done. by apply E4.
  - intros Ha'. apply E5 in Ha'. congruence.
Qed.

(** Every task is dropped or listed as pending. *)
Definition listed (l : list ptr) d : Prop := (∀ p, p ∈ T0 → gone d p = true ∨ p ∈ l) ∧ (∀ p, p ∈ l → p ∈ T0).

(** A pass without progress that leaves no ack pending did nothing, and found no task it could trigger. *)
Definition idle (ready : ptr → bool) (rest : list ptr) d d1 : Prop :=
  d1 = set_pendingTasks (d_pendingTasks d1) d ∧ ∀ p, p ∈ rest → gone d p = true ∨ ready p = false ∨ awaitsWait p d.

Lemma emit_loop ready rest still progressed d :
  live d → listed (still ++ rest) d →
  (∃ b e d1, emitLoop E ready rest still progressed d = ((b, Some e), d1) ∧ refused d1 e) ∨
  ∃ b d1, emitLoop E ready rest still progressed d = ((b, None), d1) ∧ live d1 ∧ potential d1 ≤ potential d ∧
    listed (d_pendingTasks d1) d1 ∧ length (d_pendingTasks d1) ≤ length still + length rest ∧
    (b = true → progressed = true ∨ length (d_pendingTasks d1) < length still + length rest) ∧
    (progressed = true → b = true) ∧ (ackPending d = true → ackPending d1 = true) ∧
    (b = false → ackPending d1 = false → idle ready rest d d1).
Proof.
  revert still progressed d. induction rest as [|p rest IH]; intros still progressed d Hd Hl.
  { right. exists progressed, (set_pendingTasks still d). rewrite app_nil_r in Hl.
    destruct (live_quiet d (set_pendingTasks still d)) as [Hl' Hpot]; [by apply quiet_fields|done|].
    split_and!; [done|done|by rewrite Hpot|exact Hl|cbn; lia|by left|done|done|].
    intros _ _. split; [done|]. intros p Hp. by apply elem_of_nil in Hp. }
  destruct Hl as [Hl1 Hl2]. assert (p ∈ T0) as Hp by (apply Hl2; set_solver).
  destruct (emit_task ready p d Hd Hp) as (o & d1 & He & Hem & Hend). cbn [emitLoop]. rewrite He. cbn [length].
  destruct o as [| | |e b]; cycle 3.
  { left. do 3 eexists. split; [done|]. exact Hend. }
  all: destruct Hem as [(? & ? & ?)|[E1 E2 E3 E4 E5]]; [done|].
  - destruct Hend as [-> Hg].
    destruct (IH still progressed d Hd) as [?|(b & d2 & -> & H1 & H2 & H3 & H4 & H5 & H6 & H7 & H8)]; [|by left|right].
    { split; [|set_solver]. intros q Hq. destruct (Hl1 q Hq) as [?|Hin]; [by left|].
      destruct (decide (q = p)) as [->|Hne]; [by left|right; set_solver]. }
    exists b, d2. split_and!; try done; [lia|intros Hb; destruct (H5 Hb); [by left|right; lia]|].
    intros Hb Ha. destruct (H8 Hb Ha) as [Hd2 Hi]. split; [done|]. intros q [->|Hq]%elem_of_cons; [by left|by apply Hi].
  - destruct (IH (still ++ [p]) progressed d1 E1) as [?|(b & d2 & -> & H1 & H2 & H3 & H4 & H5 & H6 & H7 & H8)]; [|by left|right].
    { split; [|set_solver]. intros q Hq. destruct (Hl1 q Hq) as [?|Hin]; [left; auto|right; set_solver]. }
    rewrite length_app in H4, H5. cbn in H4, H5.
    exists b, d2. split_and!; try done; [lia|lia|intros Hb; destruct (H5 Hb); [by left|right; lia]|auto|].
    intros Hb Ha. destruct (H8 Hb Ha) as [Hd2 Hi].
    destruct Hend as [Ha1|[-> Hend]]; [by rewrite H7 in Ha|]. split; [done|].
    intros q [->|Hq]%elem_of_cons; [by right|by apply Hi].
  - destruct (IH still true d1 E1) as [?|(b & d2 & -> & H1 & H2 & H3 & H4 & H5 & H6 & H7 & H8)]; [|by left|right].
    { split; [|set_solver]. intros q Hq. destruct (Hl1 q Hq) as [?|Hin]; [left; auto|].
      destruct (decide (q = p)) as [->|Hne]; [by left|right; set_solver]. }
    rewrite H6 by done. exists true, d2. split_and!; try done; [lia|lia|right; lia|auto].
Qed.

(** No task of the graph could be triggered. *)
Definition stuck d : Prop := ∀ p, p ∈ T0 → gone d p = true ∨ parentsCompleted d p = false ∨ awaitsWait p d.

Lemma stuck_same d l : stuck d → stuck (set_pendingTasks l d).
Proof. done. Qed.

Lemma emit_passes fuel d :
  live d → listed (d_pendingTasks d) d → length (d_pendingTasks d) < fuel →
  (∃ e d1, emitPasses E fuel d = (Some (Some e), d1) ∧ refused d1 e) ∨
  ∃ d1, emitPasses E fuel d = (Some None, d1) ∧ live d1 ∧ potential d1 ≤ potential d ∧
    listed (d_pendingTasks d1) d1 ∧ (ackPending d1 = true ∨ stuck d1).
Proof.
  revert d. induction fuel as [|fuel IH]; intros d Hd Hl Hf; [lia|]. cbn [emitPasses]. unfold emitReadyTasks.
  destruct (emit_loop (parentsCompleted d) (d_pendingTasks d) [] false d Hd Hl)
    as [(b & e & d1 & -> & Hr)|(b & d1 & -> & H1 & H2 & H3 & H4 & H5 & H6 & H7 & H8)].
  { left. exists e, d1. by destruct b. }
  cbn in H4, H5. destruct b.
  - destruct (IH d1 H1 H3) as [?|(d2 & -> & G1 & G2 & G3 & G4)].
    { destruct H5; [done|done|lia]. }
    { by left. }
    right. exists d2. split_and!; [done..|lia|done|done].
  - right. exists d1. split_and!; [done..|]. destruct (ackPending d1) eqn:Ha; [by left|right].
    destruct (H8 eq_refl eq_refl) as [Hd1 Hi]. rewrite Hd1. apply stuck_same. intros p Hp.
    destruct (proj1 Hl p Hp) as [?|Hin]; [by left|by apply Hi].
Qed.

(** ** The on-failure task *)

(** The run after the trigger of the on-failure task succeeded, before its entry is registered. *)
Definition onFailureMarked f (skip : bool) (r : DAGStepTriggerResult) d : dag W :=
  let d := upd f (set_isTriggered true) (upd f (set_ref r)
    (record (EvTrigger f skip false) (upd f (set_reExecuted (tr_ReExecuted r)) d))) in
  let d := if skip then record (EvComplete f) (upd f markSkipped d) else d in
  set_tasks (d_tasks d ++ [f]) d.

Lemma onFailureMarked_other f skip r d q : q ≠ f → task_at q (onFailureMarked f skip r d) = task_at q d.
Proof.
  intros Hq. unfold onFailureMarked. cbv zeta. change (task_at q (set_tasks ?l ?x)) with (task_at q x).
  destruct skip; rewrite ?task_record, !task_upd_ne, ?task_record by done; by rewrite ?task_upd_ne.
Qed.

Lemma onFailureMarked_task f skip r d :
  ∃ o, task_at f (onFailureMarked f skip r d) =
    markedTask r (t_isCancelled (task_at f d)) (skip || t_isSkipped (task_at f d)) skip o (task_at f d).
Proof.
  assert (task_at f (onFailureMarked f skip r d) =
    let t := set_isTriggered true (set_ref r (set_reExecuted (tr_ReExecuted r) (task_at f d))) in
    if skip then markSkipped t else t) as ->.
  { unfold onFailureMarked. cbv zeta. change (task_at f (set_tasks ?l ?x)) with (task_at f x).
    destruct skip; rewrite ?task_record, ?task_upd_eq; do 2 f_equal; try (f_equal; rewrite ?task_upd_eq);
      rewrite ?task_record; by rewrite ?task_upd_eq. }
  exists (if skip then Some {["skipped"%string := JBool true]} else t_output (task_at f d)).
  generalize (task_at f d). intros [t1 t2 t3 t4 t5 t6 t7 t8 t9 t10 t11 t12 t13 t14 t15]. unfold markedTask.
  destruct t2, skip; reflexivity.
Qed.

Lemma onFailureMarked_fields f skip r d :
  let d' := onFailureMarked f skip r d in
  d_world d' = d_world d ∧ d_tasks d' = d_tasks d ++ [f] ∧ d_onFailureTask d' = d_onFailureTask d ∧ d_err d' = d_err d ∧
  d_pendingEntryCompletions d' = d_pendingEntryCompletions d ∧ d_pendingWaitAcks d' = d_pendingWaitAcks d ∧
  d_pendingTasks d' = d_pendingTasks d.
Proof. unfold onFailureMarked. by destruct skip. Qed.

(** Why the on-failure task is not triggered: an ack is pending, it was triggered or there is none, or a task of
    the graph has not completed. *)
Definition onFailureWaits d : Prop :=
  ackPending d = true ∨ (∀ f, onF = Some f → t_isTriggered (task_at f d) = true) ∨
  ∃ p, p ∈ d_tasks d ∧ t_isCompleted (task_at p d) = false.

Lemma on_failure d :
  live d → listed (d_pendingTasks d) d →
  (evaluateOnFailure d = ((false, None), d) ∧ onFailureWaits d) ∨
  (∃ e d1, evaluateOnFailure d = ((false, Some e), d1) ∧ refused d1 e) ∨
  ∃ d1, evaluateOnFailure d = ((true, None), d1) ∧ live d1 ∧ potential d1 < potential d ∧ listed (d_pendingTasks d1) d1.
Proof.
  intros Hd Hl. unfold evaluateOnFailure. rewrite (lv_onFailure _ Hd).
  destruct onF as [f|] eqn:Hof; [|left; split; [done|]; right; left; by rewrite Hof].
  destruct (t_isTriggered (task_at f d)) eqn:Ht; [left; split; [done|]; right; left; rewrite Hof; by intros f' [= <-]|].
  destruct (ackPending d) eqn:Ha; [left; split; [done|]; by left|].
  destruct (negb _ && negb _) eqn:Hcond.
  { left. split; [done|]. right; right. apply andb_true_iff in Hcond as [_ Hc%negb_true_iff]. by apply forallb_false. }
  right. set (skip := negb _). set (args := TriggerArgs _ _ _ _ _ _ _). pose proof (lv_ledger _ Hd) as Hg.
  assert (f ∈ allTasks) as Hf by (unfold allTasks; rewrite Hof; set_solver).
  pose proof (unused_use (itemOn d) (f, None)) as Hu. cbn in Hu. rewrite elem_of_items in Hu. specialize (Hu Hf Ht).
  pose proof (lv_capacity _ Hd) as Hcap. unfold potential in Hcap.
  destruct (trigger_ok (d_world d) args (g_ok _ _ _ _ _ Hg)) as
    [(e & w1 & Hx)|(r & w1 & w2 & -> & Hx & Hok2 & Hfresh & Hno & Ha2 & Ho2 & Hk2)]; [lia|left|right].
  { rewrite Hx. do 2 eexists. split; [done|]. exists args, (d_world d), e. split; [apply Hg|done]. }
  match goal with |- context [expectChild f ?x] => change x with (onFailureMarked f skip r (set_world w1 d)) end.
  destruct (onFailureMarked_fields f skip r (set_world w1 d)) as (F1 & F2 & F3 & F4 & F5 & F6 & F7).
  pose proof (onFailureMarked_other f skip r (set_world w1 d)) as Hother.
  destruct (onFailureMarked_task f skip r (set_world w1 d)) as [o Htask].
  change (task_at ?q (set_world w1 d)) with (task_at q d) in *. set (d3 := onFailureMarked _ _ _ _) in *. clearbody d3.
  unfold expectChild. rewrite Htask, F1. cbn.
  change (EntryRef (tr_BranchId r) (tr_NodeId r)) with (resultRef r). rewrite Hx.
  eexists. split; [reflexivity|]. set (d4 := set_world w2 d3).
  assert (∀ q, task_at q d4 = task_at q d3) as H4 by done.
  destruct (live_trigger f d d4 (resultRef r)) as [Hl' Hpot]; rewrite ?H4, ?Htask; cbn;
    rewrite ?F2, ?F3, ?F4, ?F5, ?F6; try done.
  - unfold itemRef. cbn. by rewrite H4, Htask.
  - by intros ->.
  - destruct skip; cbn; [|by left]. right. by rewrite orb_true_r.
  - change (d_tasks (set_world w1 d)) with (d_tasks d). rewrite (lv_tasks _ Hd), Hof.
    change (option_list (Some f)) with [f].
    rewrite filter_cons_False, filter_nil, app_nil_r by congruence. by rewrite filter_cons_True by (by rewrite H4, Htask).
  - split_and!; [done..|]. change (d_pendingTasks d4) with (d_pendingTasks d3). rewrite F7. destruct Hl as [Hl1 Hl2].
    split; [|done]. intros q Hq. destruct (Hl1 q Hq) as [Hg'|?]; [left|by right]. unfold gone in *.
    destruct (decide (q = f)) as [->|Hne]; [by rewrite H4, Htask|by rewrite H4, Hother].
Qed.

(** ** The run blocks only while something is owed to it *)

Lemma idle_done d i : live d → ackPending d = false → load (d_world d) = 0 → itemOn d i = true → itemDone d i = true.
Proof.
  intros Hd Ha%ackPending_false Hload Hon. destruct (itemDone d i) eqn:Hdone; [done|]. exfalso.
  pose proof (lv_ledger _ Hd) as Hg. rewrite Ha in Hg.
  assert (itemRef d i ∈ owed (d_world d)) as Hin.
  { apply (g_owed _ _ _ _ _ Hg); [|done]. split; [done|apply not_elem_of_nil]. }
  unfold load in Hload. assert (size (owed (d_world d)) = 0) as Hz by lia. apply size_empty_inv in Hz. set_solver.
Qed.

Lemma all_complete d :
  live d → ackPending d = false → stuck d → load (d_world d) = 0 → ∀ p, p ∈ T0 → t_isCompleted (task_at p d) = true.
Proof.
  intros Hd Ha Hst Hload.
  assert (∀ n p, rank p < n → p ∈ T0 → t_isCompleted (task_at p d) = true) as Hall.
  { induction n as [|n IH]; intros p Hr Hp; [lia|].
    assert (parentsCompleted d p = true) as Hpar.
    { unfold parentsCompleted. apply forallb_forall. intros q Hq%list_elem_of_In. rewrite (lv_info _ Hd) in Hq.
      destruct (ac_parents Hac p q Hp Hq). apply IH; [lia|done]. }
    destruct (Hst p Hp) as [Hg|[Hn|[Hon Hdone]]]; [|congruence|].
    - unfold gone in Hg. apply orb_true_iff in Hg as [Ht|Hs]; [|by apply (lv_skipped _ Hd)].
      by apply (idle_done d (p, None)).
    - by rewrite (idle_done d (p, Some conditionKindWait)) in Hdone. }
  intros p. by apply (Hall (S (rank p))); lia.
Qed.

Lemma blocked_is_owed d :
  live d → ackPending d = true ∨ stuck d → onFailureWaits d → isDone d = false → 0 < load (d_world d).
Proof.
  intros Hd Hst Hof Hdone. destruct (decide (load (d_world d) = 0)) as [Hz|]; [exfalso|lia].
  destruct (ackPending d) eqn:Ha.
  { unfold load in Hz. rewrite (g_acks _ _ _ _ _ (lv_ledger _ Hd)) in Hz. unfold ackPending in Ha.
    destruct (d_pendingWaitAcks d); [done|cbn in Hz; lia]. }
  destruct Hst as [|Hst]; [done|]. pose proof (all_complete d Hd Ha Hst Hz) as Hall.
  assert (∀ p, p ∈ d_tasks d → t_isCompleted (task_at p d) = true) as Htasks.
  { intros p. rewrite (lv_tasks _ Hd), elem_of_app, list_elem_of_filter. intros [?|[Ht _]]; [auto|].
    by apply (idle_done d (p, None)). }
  unfold isDone in Hdone. rewrite (lv_err _ Hd) in Hdone. apply andb_false_iff in Hdone as [Hf|Hf].
  { apply forallb_false in Hf as (p & Hp & Hc). by rewrite Htasks in Hc. }
  rewrite (lv_onFailure _ Hd) in Hf. destruct onF as [f|] eqn:Hf'; [|done].
  destruct Hof as [|[Ht|(p & Hp & Hc)]]; [congruence| |by rewrite Htasks in Hc].
  specialize (Ht f Hf'). change (itemDone d (f, None) = false) in Hf. by rewrite idle_done in Hf.
Qed.

(** ** Waiting *)

Lemma live_world d w : live d → sameDebt (d_world d) w → reliable w → live (set_world w d) ∧ potential (set_world w d) = potential d.
Proof.
  intros [H1 H2 H3 H4 H5 H6 H7 Hct H7' H8 H9 H10] Hs Hok.
  assert (potential (set_world w d) = potential d) as Hp.
  { unfold potential, load. cbn. destruct Hs as (-> & -> & _). done. }
  split; [|done]. split; try done; [|by rewrite Hp]. by eapply ledger_same.
Qed.

(** What a response of the engine is, and what it settles. *)
Definition answered (w w' : W) (resp : DurableTaskResponse) : Prop :=
  (∃ ref, resp = WaitForAck (Some ref) ∧ 0 < owedAcks w ∧ getRef (Some ref) ∉ known w ∧
     owedAcks w' = owedAcks w - 1 ∧ owed w' = {[getRef (Some ref)]} ∪ owed w ∧
     known w' = {[getRef (Some ref)]} ∪ known w ∧ getRef (Some ref) ∉ owed w) ∨
  (∃ ref f m body, resp = EntryCompleted (Some ref) f m body ∧ getRef (Some ref) ∈ owed w ∧
     owedAcks w' = owedAcks w ∧ owed w' = owed w ∖ {[getRef (Some ref)]} ∧ known w' = known w).

(** The notice that the run is evicted. *)
Definition evicts (w' : W) (resp : DurableTaskResponse) : Prop :=
  ∃ reason, resp = ServerEvict target.1 target.2 reason ∧ evicted w' = true.

Lemma await_response fuel d :
  live d → 0 < load (d_world d) → delay (d_world d) < fuel →
  ∃ resp w w', awaitResponse E fuel d = (Some (inl resp), set_world w' d) ∧
    sameDebt (d_world d) w ∧ reliable w ∧ reliable w' ∧ (answered w w' resp ∨ evicts w' resp).
Proof.
  revert d. induction fuel as [|fuel IH]; intros d Hd Hload Hdelay; [lia|]. cbn [awaitResponse].
  pose proof (g_ok _ _ _ _ _ (lv_ledger _ Hd)) as Hok.
  destruct (recv_ok (d_world d) Hok Hload) as (reply & w1 & -> & Hok1 & Hcase).
  destruct Hcase as [(ref & -> & Hr)|[(ref & f & m & p & -> & Hr)|[(-> & Hlt & Hsame)|(reason & -> & Hev)]]].
  - eexists _, (d_world d), w1. split; [done|]. split; [by split|]. split_and!; [done..|]. left. left. by exists ref.
  - eexists _, (d_world d), w1. split; [done|]. split; [by split|]. split_and!; [done..|]. left. right. by exists ref, f, m, p.
  - destruct (live_world d w1 Hd Hsame Hok1) as [Hd1 _]. unfold reportBlockedOnDurableEvents.
    assert (∀ w2, sameDebt w1 w2 → reliable w2 → delay w2 ≤ delay w1 →
      ∃ resp w w', awaitResponse E fuel (set_world w2 d) = (Some (inl resp), set_world w' d) ∧
        sameDebt (d_world d) w ∧ reliable w ∧ reliable w' ∧ (answered w w' resp ∨ evicts w' resp)) as Hgo.
    { intros w2 Hs2 Hok2 Hd2. assert (sameDebt (d_world d) w2) as Hs.
      { destruct Hsame as (? & ? & ?), Hs2 as (? & ? & ?). split_and!; congruence. }
      destruct (live_world d w2 Hd Hs Hok2) as [Hl2 _].
      destruct (IH (set_world w2 d) Hl2) as (resp & w & w' & -> & Hsw & Hrest).
      - unfold load in *. cbn. destruct Hs as (-> & -> & _). done.
      - cbn. lia.
      - exists resp, w, w'. split_and!; [done| |apply Hrest..].
        destruct Hs as (? & ? & ?), Hsw as (? & ? & ?). cbn in *. split_and!; congruence. }
    destruct (d_pendingWaitAcks _); [|by apply (Hgo w1)].
    destruct (d_pendingEntryCompletions _); [|by apply (Hgo w1)].
    destruct (outstandingWaitingEntries _ _) as [|entry entries]; [by apply (Hgo w1)|].
    destruct (send_status w1 (e_uuidString E (e_workerId E)) (entry :: entries) Hok1) as (w2 & Hs & Hok2 & Hs2 & Hd2).
    cbn [d_world set_world]. rewrite Hs. by apply (Hgo w2).
  - eexists _, (d_world d), w1. split; [done|]. split; [by split|]. split_and!; [done..|]. right. by exists reason.
Qed.

(** ** Consuming an ack *)

Section nameItems.
Context (p : ptr) (kind : conditionKind) (ref : DurableEventLogEntryRef) (d d1 : dag W) (Hh : d_heap d1 = d_heap d).

Lemma watchOf_name kind' t :
  watchOf kind' (nameWatch kind ref t) =
    if decide (kind' = kind) then
      Watch (registered (watchOf kind t)) (fired (watchOf kind t)) (lr_NodeId ref) (lr_BranchId ref)
    else watchOf kind' t.
Proof. by destruct kind, kind'. Qed.

Lemma itemRef_name i : itemRef (upd p (nameWatch kind ref) d1) i = set_item (p, Some kind) (getRef (Some ref)) (itemRef d) i.
Proof.
  unfold itemRef, set_item. rewrite task_at_upd, !(task_at_heap _ d d1 Hh).
  destruct i as [q [kind'|]]; cbn; (destruct (decide (p = q)) as [<-|Hne]; [|rewrite decide_False by congruence; done]).
  - rewrite watchOf_name. destruct (decide (kind' = kind)) as [->|]; [by rewrite decide_True|].
    by rewrite decide_False by congruence.
  - rewrite decide_False by done. by destruct kind.
Qed.

Lemma items_name i :
  itemOn (upd p (nameWatch kind ref) d1) i = itemOn d i ∧ itemDone (upd p (nameWatch kind ref) d1) i = itemDone d i.
Proof.
  unfold itemOn, itemDone. rewrite task_at_upd, !(task_at_heap _ d d1 Hh).
  destruct i as [q [kind'|]]; cbn; case_decide; subst; [|done| |done].
  - rewrite watchOf_name. by case_decide; subst.
  - by destruct kind.
Qed.

Lemma task_name q :
  t_info (task_at q (upd p (nameWatch kind ref) d1)) = t_info (task_at q d) ∧
  t_isTriggered (task_at q (upd p (nameWatch kind ref) d1)) = t_isTriggered (task_at q d) ∧
  t_isSkipped (task_at q (upd p (nameWatch kind ref) d1)) = t_isSkipped (task_at q d) ∧
  t_isCompleted (task_at q (upd p (nameWatch kind ref) d1)) = t_isCompleted (task_at q d).
Proof.
  rewrite task_at_upd, !(task_at_heap _ d d1 Hh). case_decide; subst; [|done]. by destruct kind.
Qed.
End nameItems.

Lemma live_ack d w' ref :
  let w := d_world d in let r := getRef (Some ref) in
  live d → listed (d_pendingTasks d) d → reliable w' → 0 < owedAcks w → r ∉ known w → owedAcks w' = owedAcks w - 1 →
  owed w' = {[r]} ∪ owed w → known w' = {[r]} ∪ known w → r ∉ owed w →
  let d1 := taskConsumer E (WaitForAck (Some ref)) (set_world w' d) in
  live d1 ∧ potential d1 < potential d ∧ listed (d_pendingTasks d1) d1.
Proof.
  intros w r Hd Hl Hok Hpos Hk Ha Ho Hkn Hno. pose proof Hd as [H1 H2 H3 H4 H5 H6 H7 Hct H7' H8 H9 H10].
  pose proof (g_acks _ _ _ _ _ H1) as Hacks. fold w in Hacks.
  destruct (d_pendingWaitAcks d) as [|[p kind] [|]] eqn:Hpend; cbn in Hacks, H7'; [lia| |lia].
  cbn [taskConsumer]. change (d_pendingWaitAcks (set_world w' d)) with (d_pendingWaitAcks d). rewrite Hpend.
  unfold drainPendingEntryCompletions. set (d1 := record _ _).
  assert (d_pendingEntryCompletions d1 = []) as -> by exact H9. cbn [drainIn].
  set (d2 := upd p (nameWatch kind ref) (set_pendingWaitAcks [] (set_world w' d))) in *.
  assert (d_heap (set_pendingWaitAcks [] (set_world w' d)) = d_heap d) as Hh by done.
  assert (live d2 ∧ potential d2 < potential d) as [Hl2 Hpot].
  { assert (potential d2 < potential d) as Hlt.
    { unfold potential. rewrite (unused_ext (itemOn d)); [|intros i; apply (items_name p kind ref d _ Hh)].
      unfold load. cbn. rewrite Ha, Ho, size_insert_new by done. fold w. lia. }
    split; [|done]. split; try done; unfold d2.
    - cbn [d_pendingWaitAcks d_world upd set_heap set_pendingWaitAcks set_world]. apply (ledger_ext (itemOn d) _ (itemDone d) _ (set_item (p, Some kind) r (itemRef d)));
        [intros i; apply (items_name p kind ref d _ Hh)..|intros i; apply (itemRef_name p kind ref d _ Hh)|].
      apply (ledger_ack _ _ _ _ _ w); try done; [lia|]. apply (g_ok _ _ _ _ _ H1).
    - intros q. destruct (task_name p kind ref d _ Hh q) as [-> _]. apply H2.
    - cbn [d_tasks upd set_heap set_pendingWaitAcks set_world]. rewrite H4. f_equal. apply list_filter_iff. intros f. by destruct (task_name p kind ref d _ Hh f) as (_ & -> & _).
    - intros i. destruct (items_name p kind ref d _ Hh i) as [-> _]. apply H5.
    - intros q k Hk'. destruct (items_name p kind ref d _ Hh (q, Some k)) as [-> ->]. by apply H6.
    - intros q. destruct (task_name p kind ref d _ Hh q) as (_ & _ & -> & ->). apply H7.
    - intros q. destruct (task_name p kind ref d _ Hh q) as (_ & -> & _ & ->). apply Hct.
    - cbn. lia.
    - fold d2. lia. }
  set (d3 := set_pendingEntryCompletions [] d1).
  destruct (live_quiet d2 d3) as [Hl3 Hpot3]; [by apply quiet_fields|done|].
  split_and!; [done|by rewrite Hpot3|]. destruct Hl as [L1 L2]. split; [|exact L2]. intros q Hq.
  destruct (L1 q Hq) as [Hg|?]; [left|by right]. unfold gone in *. change (task_at q d3) with (task_at q d2). unfold d2.
  by destruct (task_name p kind ref d _ Hh q) as (_ & -> & -> & _).
Qed.

(** ** Consuming a completion *)

(** The one item of an entry that is owed. *)
Lemma item_unique d r i0 :
  live d → isNamed (itemOn d) (d_pendingWaitAcks d) i0 → itemRef d i0 = r → ∀ j, itemRef d j = r → j = i0.
Proof.
  intros Hd Hn Hr j Hj. pose proof (lv_ledger _ Hd) as Hg.
  destruct (isNamed_dec (itemOn d) (d_pendingWaitAcks d) j) as [Hnj|Hnj].
  - apply (g_inj _ _ _ _ _ Hg); [done..|congruence].
  - apply (g_zero _ _ _ _ _ Hg) in Hnj. exfalso. apply (g_nonzero _ _ _ _ _ Hg i0 Hn). congruence.
Qed.

Lemma awaits_ref d q kind n b : awaits (watchOf kind (task_at q d)) n b = true → itemRef d (q, Some kind) = EntryRef b n.
Proof.
  unfold awaits. rewrite !andb_true_iff. intros [[_ Hn%Z.eqb_eq] Hb%Z.eqb_eq]. unfold itemRef. cbn. by rewrite Hn, Hb.
Qed.

(** The state after the completion of an item. *)
Definition settledItem i0 (entry : pendingEntryCompletion) d : dag W :=
  match i0.2 with
  | Some kind => upd i0.1 (fireWatch kind) d
  | None => applyCompletion E i0.1 (pc_isFailure entry) (pc_errorMessage entry) (pc_payload entry) d
  end.

Lemma tryApply_item d i0 entry tasks :
  itemRef d i0 = EntryRef (pc_branchId entry) (pc_nodeId entry) →
  (∀ j, itemRef d j = EntryRef (pc_branchId entry) (pc_nodeId entry) → j = i0) →
  (∀ kind, i0.2 = Some kind → itemOn d i0 = true ∧ itemDone d i0 = false) → i0.1 ∈ tasks →
  tryApplyIn E tasks entry d = (true, settledItem i0 entry d).
Proof.
  intros Hr Hu Hw. induction tasks as [|q tasks IH]; intros Hin; [by apply elem_of_nil in Hin|]. cbn [tryApplyIn].
  assert (∀ kind, (awaits (watchOf kind (task_at q d)) (pc_nodeId entry) (pc_branchId entry) = true ↔ (q, Some kind) = i0)) as Ha.
  { intros kind. split; [by intros Ha%awaits_ref; apply Hu|]. intros <-. destruct (Hw kind eq_refl) as [Hon Hdone].
    unfold itemOn, itemDone, itemRef in *. cbn in *. injection Hr as Hb Hn. unfold awaits.
    by rewrite Hon, Hdone, Hn, Hb, !Z.eqb_refl. }
  assert (∀ kind, awaits (watchOf kind (task_at q d)) (pc_nodeId entry) (pc_branchId entry) = bool_decide ((q, Some kind) = i0)) as Ha'.
  { intros kind. apply eq_true_iff_eq. by rewrite bool_decide_eq_true. }
  change (t_skipWatch ?t) with (watchOf conditionKindSkip t). change (t_cancelWatch ?t) with (watchOf conditionKindCancel t).
  change (t_wait ?t) with (watchOf conditionKindWait t). rewrite !Ha'.
  destruct (decide (q = i0.1)) as [->|Hne].
  - destruct i0 as [p [[]|]]; cbn in *; rewrite ?bool_decide_true by done;
      repeat (rewrite bool_decide_false by done); rewrite ?bool_decide_true by done; try done.
    unfold itemRef in Hr. cbn in Hr. injection Hr as Hb Hn. by rewrite Hn, Hb, !Z.eqb_refl.
  - rewrite !bool_decide_false by (by intros <-).
    destruct ((t_nodeId (task_at q d) =? pc_nodeId entry)%Z && (t_branchId (task_at q d) =? pc_branchId entry)%Z) eqn:Hn; cbn [negb].
    + exfalso. apply andb_true_iff in Hn as [Hn%Z.eqb_eq Hb%Z.eqb_eq]. apply Hne.
      rewrite <- (Hu (q, None)); [done|]. unfold itemRef. cbn. by rewrite Hn, Hb.
    + apply IH. by apply elem_of_cons in Hin as [?|?].
Qed.

(** What the completion of an item changes. *)
Record settles i0 d d' : Prop := {
  st_on : ∀ i, itemOn d' i = itemOn d i;
  st_ref : ∀ i, itemRef d' i = itemRef d i;
  st_watch : ∀ p kind, (p, Some kind) ≠ i0 → itemOn d (p, Some kind) = true ∨ kind ≠ conditionKindWait →
    itemDone d' (p, Some kind) = itemDone d (p, Some kind);
  st_mono : ∀ i, itemDone d i = true → itemDone d' i = true;
  st_done : itemDone d' i0 = true;
  st_info : ∀ p, t_info (task_at p d') = t_info (task_at p d);
  st_skipped : ∀ p, t_isSkipped (task_at p d') = true → t_isSkipped (task_at p d) = true ∨ t_isCompleted (task_at p d') = true;
  st_fields : d_onFailureTask d' = d_onFailureTask d ∧ d_tasks d' = d_tasks d ∧ d_err d' = d_err d ∧
    d_pendingEntryCompletions d' = d_pendingEntryCompletions d ∧ d_pendingWaitAcks d' = d_pendingWaitAcks d ∧
    d_world d' = d_world d ∧ d_pendingTasks d' = d_pendingTasks d;
  st_gone : ∀ p, gone d p = true → gone d' p = true;
  st_completed : ∀ p, t_isCompleted (task_at p d') = true → t_isCompleted (task_at p d) = true ∨ t_isTriggered (task_at p d) = true;
}.

Lemma applyCompletion_pending p f m x d : d_pendingTasks (applyCompletion E p f m x d) = d_pendingTasks d.
Proof.
  assert (∀ q d', d_pendingTasks (evaluateConditionsForParent E q d') = d_pendingTasks d') as Hev.
  { intros q d'. unfold evaluateConditionsForParent. by case_match. }
  unfold applyCompletion. rewrite Hev. by repeat case_match.
Qed.

(** Nothing unmarks a skipped task. *)
Lemma applyCompletion_skipped p f m x d q :
  t_isSkipped (task_at q d) = true → t_isSkipped (task_at q (applyCompletion E p f m x d)) = true.
Proof.
  assert (∀ (g : task → task) d', (∀ t, t_isSkipped t = true → t_isSkipped (g t) = true) →
    t_isSkipped (task_at q d') = true → t_isSkipped (task_at q (upd p g d')) = true) as Hupd.
  { intros g d' Hg Hs. rewrite task_at_upd. case_decide; subst; auto. }
  intros Hs. unfold applyCompletion. rewrite task_evaluate. case_decide; cbn.
  all: repeat case_match; repeat first [exact Hs | apply Hupd; [done|]]; rewrite ?task_record; repeat first [exact Hs | apply Hupd; [done|]].
Qed.

Lemma settles_item i0 entry d : itemOn d i0 = true → settles i0 d (settledItem i0 entry d).
Proof.
  intros Hon0.
  destruct i0 as [p [kind|]]; unfold settledItem; cbn [fst snd].
  - assert (∀ kind' t, watchOf kind' (fireWatch kind t) = if decide (kind' = kind) then
      Watch (registered (watchOf kind t)) true (watchNodeId (watchOf kind t)) (watchBranchId (watchOf kind t)) else watchOf kind' t) as Hw
      by (intros [] t; by destruct kind).
    assert (∀ t, t_info (fireWatch kind t) = t_info t ∧ t_isTriggered (fireWatch kind t) = t_isTriggered t ∧
      t_isCompleted (fireWatch kind t) = t_isCompleted t ∧ t_isSkipped (fireWatch kind t) = t_isSkipped t ∧
      t_nodeId (fireWatch kind t) = t_nodeId t ∧ t_branchId (fireWatch kind t) = t_branchId t) as Hf by (intros t; by destruct kind).
    split.
    + intros [q [kind'|]]; unfold itemOn; cbn; rewrite task_at_upd; case_decide; subst; rewrite ?Hw; try case_decide; subst; try done. by destruct kind.
    + intros [q [kind'|]]; unfold itemRef; cbn; rewrite task_at_upd; case_decide; subst; rewrite ?Hw; try case_decide; subst; try done. by destruct kind.
    + intros q kind' Hne _. unfold itemDone; cbn. rewrite task_at_upd. case_decide; subst; [|done]. rewrite Hw.
      by rewrite decide_False by (intros ->; done).
    + intros [q [kind'|]]; unfold itemDone; cbn; rewrite task_at_upd; case_decide; subst; rewrite ?Hw; try case_decide; subst; try done. by destruct kind.
    + unfold itemDone; cbn. rewrite task_at_upd, decide_True, Hw, decide_True; done.
    + intros q. rewrite task_at_upd. case_decide; subst; [apply Hf|done].
    + intros q. rewrite task_at_upd. case_decide; subst; [|by left]. destruct (Hf (task_at q d)) as (_ & _ & _ & -> & _). by left.
    + done.
    + intros q. unfold gone. rewrite task_at_upd. case_decide; subst; [|done]. by destruct (Hf (task_at q d)) as (_ & -> & _ & -> & _).
    + intros q. rewrite task_at_upd. case_decide; subst; [|by left]. destruct (Hf (task_at q d)) as (_ & _ & -> & _). by left.
  - destruct (quiet_applyCompletion p (pc_isFailure entry) (pc_errorMessage entry) (pc_payload entry) d Hon0)
      as [[Q1 Q2 Q3 Q4 Q5 Q6 Q0 (Q7 & Q8 & Q9 & Q10 & Q11 & Q12)] Hc].
    split; try done.
    + intros q kind _. apply Q3.
    + split_and!; try done. apply applyCompletion_pending.
    + intros q. unfold gone. rewrite !orb_true_iff. intros [Ht|Hs]; [left|right; by apply applyCompletion_skipped].
      change (itemOn (applyCompletion E p (pc_isFailure entry) (pc_errorMessage entry) (pc_payload entry) d) (q, None) = true).
      by rewrite Q1.
Qed.

Lemma live_settled i0 d d' w' :
  live d → listed (d_pendingTasks d) d → isNamed (itemOn d) (d_pendingWaitAcks d) i0 →
  reliable w' → itemRef d i0 ∈ owed (d_world d) → owedAcks w' = owedAcks (d_world d) →
  owed w' = owed (d_world d) ∖ {[itemRef d i0]} → known w' = known (d_world d) →
  settles i0 (set_world w' d) d' → live d' ∧ potential d' < potential d ∧ listed (d_pendingTasks d') d'.
Proof.
  intros Hd Hl Hn Hok Hin Ha Ho Hk [S1 S2 S3 S4 S5 S6 S7 (F1 & F2 & F3 & F4 & F5 & F6 & F7) S9 S10].
  pose proof Hd as [H1 H2 H3 H4 H5 H6 H7 Hct H7' H8 H9 H10]. cbn in F1, F2, F3, F4, F5, F6, F7.
  assert (potential d' < potential d) as Hlt.
  { unfold potential. rewrite F6, (unused_ext (itemOn d) (itemOn d') S1). unfold load. rewrite Ha, Ho.
    rewrite size_difference by set_solver. rewrite size_singleton.
    assert (size (owed (d_world d)) ≠ 0) by (intros Hz%size_empty_inv; set_solver). lia. }
  split_and!; [|done|].
  - split; rewrite ?F1, ?F2, ?F3, ?F4, ?F5, ?F6; try done.
    + apply (ledger_ext (itemOn d) _ (itemDone d') _ (itemRef d)); [done..|].
      apply (ledger_done _ (set_item i0 true (itemDone d))).
      * intros i Hi Hw. destruct (decide (i = i0)) as [->|Hne]; [by rewrite set_item_eq|]. rewrite set_item_ne by done.
        destruct i as [q [kind|]]; [|by destruct Hw]. apply S3; auto.
      * intros i. destruct (decide (i = i0)) as [->|Hne]; [done|]. rewrite set_item_ne by done. apply S4.
      * by apply (ledger_complete _ _ _ _ _ (d_world d)).
    + intros p. rewrite S6. apply H2.
    + rewrite H4. f_equal. apply list_filter_iff. intros f. rewrite <- !itemOn_trigger, S1. done.
    + intros i. rewrite S1. apply H5.
    + intros p kind Hkind. rewrite S1. destruct (decide ((p, Some kind) = i0)) as [<-|Hne]; [by intros _; apply Hn|].
      rewrite S3 by auto. by apply H6.
    + intros p Hp. destruct (S7 p Hp) as [Hs|?]; [|done]. change (itemDone d' (p, None) = true). apply S4. by apply H7.
    + intros p Hp. rewrite <- itemOn_trigger, S1. destruct (S10 p Hp) as [Hc|?]; [by apply Hct in Hc|done].
    + lia.
  - rewrite F7. destruct Hl as [L1 L2]. split; [|done]. intros p Hp. destruct (L1 p Hp) as [Hg|?]; [left; by apply S9|by right].
Qed.

Lemma consume d w w' resp :
  live d → listed (d_pendingTasks d) d → sameDebt (d_world d) w → reliable w → reliable w' → answered w w' resp →
  let d1 := taskConsumer E resp (set_world w' d) in
  live d1 ∧ potential d1 < potential d ∧ listed (d_pendingTasks d1) d1.
Proof.
  intros Hd Hl Hs Hok Hok' Hans. destruct Hs as (Sa & So & Sk).
  destruct Hans as [(ref & -> & Hpos & Hk & Ha & Ho & Hkn & Hno)|(ref & f & m & x & -> & Hin & Ha & Ho & Hkn)].
  - rewrite Sa, So, Sk in *. by apply live_ack.
  - rewrite Sa, So, Sk in *. pose proof (lv_ledger _ Hd) as Hg.
    destruct (g_item _ _ _ _ _ Hg _ Hin) as (i0 & Hn & Hr & Hw). cbn [taskConsumer].
    set (entry := PendingEntryCompletion _ _ _ _ _).
    assert (tryApplyEntryCompletion E entry (set_world w' d) = (true, settledItem i0 entry (set_world w' d))) as ->.
    { apply tryApply_item.
      - exact Hr.
      - intros j Hj. by eapply (item_unique d).
      - intros kind Hkind. split; [apply Hn|]. apply Hw. by rewrite Hkind.
      - apply (lv_member _ Hd). apply Hn. }
    apply (live_settled i0 d _ w'); try done; rewrite ?Hr; try done. apply settles_item. apply Hn.
Qed.

(** ** The run returns *)

(** How a run ends: with every step completed, with the error of a step the engine refused, or evicted. *)
Definition ended (res : option dagError) d : Prop :=
  (live d ∧ isDone d = true ∧ res = runResult d) ∨ (∃ err, res = Some err ∧ refused d err) ∨
  (∃ reason, res = Some (dagEvictedError reason) ∧ reliable (d_world d) ∧ evicted (d_world d) = true).

Lemma run_evicted fuel d reason w :
  target = (e_uuidString E (e_externalId E), e_invocationCount E) →
  let d1 := taskConsumer E (ServerEvict target.1 target.2 reason) (set_world w d) in
  runLoop E (S fuel) d1 = (Some (Some (dagEvictedError reason)), d1) ∧ d_world d1 = w.
Proof. intros ->. cbn. rewrite bool_decide_true, Z.eqb_refl by done. done. Qed.

Lemma run_returns fuel d :
  target = (e_uuidString E (e_externalId E), e_invocationCount E) →
  live d → listed (d_pendingTasks d) d → potential d + patience < fuel →
  ∃ res d1, runLoop E fuel d = (Some res, d1) ∧ ended res d1.
Proof.
  intros Ht. revert d. induction fuel as [|fuel IH]; intros d Hd Hl Hf; [lia|]. cbn [runLoop].
  destruct (isDone d) eqn:Hdone; [exists (runResult d), d; split; [done|]; by left|]. unfold taskEmitter. rewrite (lv_err _ Hd).
  destruct (emit_passes (S (length (d_pendingTasks d))) d Hd Hl) as [(e & d1 & -> & Hr)|(d1 & -> & L1 & P1 & Li1 & Hst)];
    [lia|exists (Some e), d1; split; [done|right; left; eauto]|].
  destruct (on_failure d1 L1 Li1) as [[-> Hof]|[(e & d2 & -> & Hr)|(d2 & -> & L2 & P2 & Li2)]]; cycle 1.
  { exists (Some e), d2. split; [done|right; left; eauto]. }
  { apply IH; [done..|lia]. }
  destruct (isDone d1) eqn:Hdone1; [exists (runResult d1), d1; split; [done|]; by left|].
  pose proof (blocked_is_owed d1 L1 Hst Hof Hdone1) as Howed.
  destruct (await_response (S fuel) d1 L1 Howed) as (resp & w & w' & -> & Hs & Hok & Hok' & Hans).
  { pose proof (delay_bounded (d_world d1) (g_ok _ _ _ _ _ (lv_ledger _ L1))). lia. }
  destruct Hans as [Hans|(reason & -> & Hev)].
  - destruct (consume d1 w w' resp) as (L3 & P3 & Li3); [done..|]. apply IH; [done..|lia].
  - destruct fuel as [|fuel]; [unfold potential in *; lia|]. destruct (run_evicted fuel d1 reason w' Ht) as [-> Hw].
    do 2 eexists. split; [done|]. right; right. exists reason. by rewrite Hw.
Qed.

End progress.
End DagProgress.
