(* ===== verification/DagTheorems.v ===== *)
(** The DAG orchestrator returns on every engine that keeps the interface of DagEngine, with every step triggered
    and completed. *)

From S2P Require Import Prelude Workers DurableChannel DagRun DagSafety DagEngine DagProgress.
Import Workers DurableChannel Dag DagSafety DagEngine DagProgress.

Module DagTheorems.

Open Scope nat_scope.

(** ** A run that starts *)

(** The tasks as buildDAG makes them. *)
Definition newHeap (heap : gmap ptr task) : Prop := ∀ p t, heap !! p = Some t → t = newTask (t_info t).

(** The fixed fields of the tasks of a heap. *)
Definition infoOf (heap : gmap ptr task) (p : ptr) : taskInfo :=
  t_info (default (newTask (TaskInfo "" "" "" 0 [] [])) (heap !! p)).

(** The graph of a run: distinct tasks whose parents are tasks, without cycles, and an on-failure task apart. *)
Definition wellFounded (heap : gmap ptr task) (tasks : list ptr) (onFailure : option ptr) (rank : ptr → nat) : Prop :=
  newHeap heap ∧ acyclic tasks onFailure (infoOf heap) rank.

Lemma allTasks_length tasks onFailure : length (allTasks tasks onFailure) ≤ length tasks + 1.
Proof. unfold allTasks. rewrite length_app. destruct onFailure; cbn; lia. Qed.

Section start.
Context {W : Type} `{HW : World W} `{HS : EngineState W} `{HE : !Engine W} (E : runEnv).
Context (heap : gmap ptr task) (tasks : list ptr) (onFailure : option ptr) (rank : ptr → nat) (w : W).
Context (Hwf : wellFounded heap tasks onFailure rank).
Context (Hok : reliable w) (Hacks : owedAcks w = 0) (Howed : owed w = ∅).

Lemma task_at_new p : ∃ i, task_at p (newDag heap tasks onFailure w) = newTask i ∧ infoOf heap p = i.
Proof.
  unfold task_at, infoOf. cbn. destruct (heap !! p) as [t|] eqn:Ht; cbn; [|by eexists].
  exists (t_info t). split; [|done]. by apply (proj1 Hwf p).
Qed.

Lemma unused_new :
  unused tasks onFailure (itemOn (newDag heap tasks onFailure w)) = 11 * length (allTasks tasks onFailure).
Proof.
  clear Hok Hacks Howed. unfold unused, items. induction (allTasks tasks onFailure) as [|p l IH]; [done|].
  cbn [mbind list_bind]. rewrite sum_list_with_app, IH. cbn [length]. destruct (task_at_new p) as (i & Hp & _).
  unfold itemsOf, itemOn. cbn. rewrite Hp. cbn. lia.
Qed.

Lemma live_new :
  11 * length (allTasks tasks onFailure) ≤ capacity →
  live tasks onFailure (infoOf heap) (newDag heap tasks onFailure w).
Proof.
  intros Hcap. assert (∀ i, itemOn (newDag heap tasks onFailure w) i = false ∧ itemDone (newDag heap tasks onFailure w) i = false ∧
    itemRef (newDag heap tasks onFailure w) i = EntryRef 0 0) as Hi.
  { intros [p o]. destruct (task_at_new p) as (i & Hp & _). unfold itemOn, itemDone, itemRef. cbn. rewrite Hp.
    by destruct o as [[]|]. }
  split; try done.
  - assert (∀ i, ¬ isNamed (itemOn (newDag heap tasks onFailure w)) [] i) as Hn.
    { intros i [Hon _]. destruct (Hi i). congruence. }
    split; cbn; try done; try (by intros i Hx; destruct (Hn i)).
    + intros i Hx. by apply elem_of_nil in Hx.
    + intros i j Hx. by destruct (Hn i).
    + intros i _. apply Hi.
    + intros r. rewrite Howed. set_solver.
  - cbn. rewrite filter_none; [by rewrite app_nil_r|]. intros f _. destruct (task_at_new f) as (i & -> & _). done.
  - intros i. destruct (Hi i) as [-> _]. done.
  - intros p kind _. destruct (Hi (p, Some kind)) as (_ & -> & _). done.
  - intros p. destruct (task_at_new p) as (i & -> & _). done.
  - intros p. destruct (task_at_new p) as (i & -> & _). done.
  - cbn. lia.
  - unfold potential. rewrite unused_new. unfold load. cbn. rewrite Hacks, Howed, size_empty. lia.
Qed.
End start.

(** ** The run returns *)

Section returns.
Context {W : Type} `{HW : World W} `{HS : EngineState W} `{HE : !Engine W} (E : runEnv).

(** On an engine that answers what it owes, in any order and after any delays it bounds, until it refuses a step
    or evicts the run, a run returns: it never waits for something nobody owes it, and eleven answers per step are
    enough. *)
Lemma dag_run_live (heap : gmap ptr task) (tasks : list ptr) (onFailure : option ptr) (rank : ptr → nat) (w : W)
    (fuel : nat) :
  target = (e_uuidString E (e_externalId E), e_invocationCount E) →
  wellFounded heap tasks onFailure rank → reliable w → owedAcks w = 0 → owed w = ∅ →
  11 * (length tasks + 1) ≤ capacity → 11 * (length tasks + 1) + patience < fuel →
  ∃ res d, dagDurableTask E fuel heap tasks onFailure w = (Some res, d) ∧ ended tasks onFailure (infoOf heap) res d.
Proof.
  intros Ht Hwf Hok Hacks Howed Hcap Hfuel. pose proof (allTasks_length tasks onFailure) as Hlen.
  apply (run_returns E tasks onFailure (infoOf heap) rank (proj2 Hwf)).
  - done.
  - apply (live_new heap tasks onFailure rank w Hwf Hok Hacks Howed). lia.
  - split; [by right|done].
  - unfold potential. rewrite (unused_new heap tasks onFailure rank w Hwf). unfold load. cbn.
    rewrite Hacks, Howed, size_empty. lia.
Qed.

(** When it has returned, every step was triggered and has completed, the on-failure step included. *)
Lemma live_done heap tasks onFailure (d : dag W) p :
  live tasks onFailure (infoOf heap) d → isDone d = true → p ∈ tasks ++ option_list onFailure →
  t_isTriggered (task_at p d) = true ∧ t_isCompleted (task_at p d) = true.
Proof.
  intros Hd Hdone Hp.
  cut (t_isCompleted (task_at p d) = true); [intros Hc; split; [|done]; by apply (lv_completed _ _ _ _ Hd)|].
  unfold isDone in Hdone. rewrite (lv_err _ _ _ _ Hd) in Hdone. apply andb_true_iff in Hdone as [Hall Hf].
  apply elem_of_app in Hp as [Hp|Hp].
  - rewrite forallb_forall in Hall. apply Hall. apply list_elem_of_In. rewrite (lv_tasks _ _ _ _ Hd).
    apply elem_of_app. by left.
  - rewrite (lv_onFailure _ _ _ _ Hd) in Hf. destruct onFailure as [f|]; [|by apply elem_of_nil in Hp].
    by apply list_elem_of_singleton in Hp as ->.
Qed.
End returns.
End DagTheorems.
