(* ===== verification/DagChannel.v ===== *)
(** The orchestrator on the in-process channel: the durable channel in front of an engine that answers
    every request, in any order and as early as it likes, until it refuses to trigger a step or evicts the run, is
    an engine in the sense of DagEngine.  The run of a DAG of up to 92 steps therefore returns, and the channel
    never refuses it a request nor passes its retention limit.

    The engine behind the channel is an interface, [Dispatcher]: the dispatcher registers the wait and triggers
    the step, and its durable event log sends the ack and the completion. *)

From S2P Require Import Prelude Workers DurableChannel DurableTheorems DagRun DagSafety DagEngine DagProgress DagTheorems.
Import Workers DurableChannel DurableTheorems Dag DagSafety DagEngine DagProgress DagTheorems.

Module DagChannel.

Open Scope nat_scope.

(** ** The engine behind the channel *)

(** [g_pending] is what the engine still has to send, [g_entries] the entries it has named, [g_next] what it
    sends next, None when the interval of the orchestrator's report passes first, and [g_ahead] how many
    responses the receive loop reads before the next call of the orchestrator.  [g_evicted] is whether the engine
    has evicted the task of the session, and [g_target] the task and the invocation its notice then names. *)
Class Dispatcher (G : Type) := {
  g_take : DurableTaskRequest → G → G;
  g_trigger : triggerArgs → G → (DAGStepTriggerResult + triggerError) * G;
  g_next : G → option DurableTaskResponse * G;
  g_ahead : G → nat;
  g_pending : G → list DurableTaskResponse;
  g_entries : G → gset entryRef;
  g_idle : G → nat;
  g_patience : nat;
  g_evicted : G → bool;
  g_target : string * Z;
}.

Class DispatcherLaws (G : Type) `{Dispatcher G} : Prop := {
  entries_nonzero : ∀ g, EntryRef 0 0 ∉ g_entries g;
  idle_bounded : ∀ g, g_idle g ≤ g_patience;
  (** What it owes it sends, in some order, or an interval passes, a bounded number of times. *)
  next_ok : ∀ g, g_pending g ≠ [] →
    ∃ next g', g_next g = (next, g') ∧ g_entries g' = g_entries g ∧ g_evicted g' = g_evicted g ∧
      match next with
      | Some resp => g_pending g ≡ₚ resp :: g_pending g'
      | None => g_pending g' = g_pending g ∧ g_idle g' < g_idle g
      end;
  (** A registration is acknowledged with a fresh entry, and the entry completes. *)
  take_wait : ∀ g task invocation conditions,
    let g' := g_take (WaitFor task invocation conditions) g in
    ∃ ref f m p, getRef (Some ref) ∉ g_entries g ∧ g_entries g' = {[getRef (Some ref)]} ∪ g_entries g ∧
      g_evicted g' = g_evicted g ∧
      g_pending g' ≡ₚ [WaitForAck (Some ref); EntryCompleted (Some ref) f m p] ++ g_pending g;
  (** On a report the engine may evict the task, once: its row is then evicted, and the session is sent a notice. *)
  take_status : ∀ g worker entries,
    let g' := g_take (WorkerStatus worker entries) g in
    g_entries g' = g_entries g ∧ g_idle g' ≤ g_idle g ∧
    (g_pending g' = g_pending g ∧ g_evicted g' = g_evicted g ∨
     ∃ reason, g_evicted g = false ∧ g_evicted g' = true ∧
       g_pending g' ≡ₚ ServerEvict g_target.1 g_target.2 reason :: g_pending g);
  (** A step runs under a fresh entry, and the entry completes; or the trigger fails. *)
  trigger_entry : ∀ g args,
    (∃ e g', g_trigger args g = (inr e, g')) ∨
    ∃ r g' ref f m p, g_trigger args g = (inl r, g') ∧ getRef (Some ref) = resultRef r ∧
      resultRef r ∉ g_entries g ∧ g_entries g' = {[resultRef r]} ∪ g_entries g ∧ g_evicted g' = g_evicted g ∧
      g_pending g' ≡ₚ EntryCompleted (Some ref) f m p :: g_pending g;
}.

(** ** The composed world *)

Section world.
Context {G : Type} `{HG : Dispatcher G}.

(** The receive loop reads what the engine sends, up to [n] responses. *)
Fixpoint readAhead (n : nat) (w : durableChannel * G) : durableChannel * G :=
  match n with
  | O => w
  | S n =>
      match g_pending w.2 with
      | [] => w
      | _ =>
          match g_next w.2 with
          | (Some resp, g) => readAhead n (ingest resp w.1, g)
          | (None, g) => (w.1, g)
          end
      end
  end.

Definition settle (w : durableChannel * G) : durableChannel * G := readAhead (g_ahead w.2) w.

(** The loop of Recv: a pass, and while nothing is ready the receive loop reads one more response. *)
Fixpoint recvFrom (fuel : nat) (w : durableChannel * G) : recvReply * (durableChannel * G) :=
  match recvPass w.1 with
  | (Some (inl resp), c) => (Got resp, (c, w.2))
  | (Some (inr e), c) => (RecvFailed e, (c, w.2))
  | (None, c) =>
      match fuel with
      | O => (IntervalPassed, (c, w.2))
      | S fuel =>
          match g_next w.2 with
          | (Some resp, g) => recvFrom fuel (consume_notify (ingest resp c), g)
          | (None, g) => (IntervalPassed, (c, g))
          end
      end
  end.

#[global] Instance channelWorld : World (durableChannel * G) := {
  w_send req w :=
    let w := settle w in
    match Send false EngineTakes req w.1 with
    | (inl req', c) => (None, (c, g_take req' w.2))
    | (inr e, c) => (Some e, (c, w.2))
    end;
  w_expectEntry ref w :=
    let w := settle w in
    let '(e, c) := ExpectEntry (er_branchId ref) (er_nodeId ref) w.1 in (e, (c, w.2));
  w_recv w := let w := settle w in recvFrom (length (g_pending w.2)) w;
  w_triggerStep args w := let w := settle w in let '(r, g) := g_trigger args w.2 in (r, (w.1, g));
}.
End world.

(** ** What is outstanding *)

(** The completions the channel holds. *)
Definition heldList (m : gmap entryRef (list DurableTaskResponse)) : list DurableTaskResponse :=
  map_to_list m ≫= snd.

(** What the orchestrator has not read: what the engine has to send, what is queued and what is held. *)
Definition outstanding (pending : list DurableTaskResponse) (b : buffer) : list DurableTaskResponse :=
  pending ++ ready b ++ heldList (held b).

Definition acksIn (l : list DurableTaskResponse) : list entryRef := l ≫= names.
Definition compsIn (l : list DurableTaskResponse) : list entryRef := omap entryOf l.

#[global] Instance acksIn_perm : Proper ((≡ₚ) ==> (≡ₚ)) acksIn.
Proof. intros l l' Hl. unfold acksIn. by rewrite Hl. Qed.
#[global] Instance compsIn_perm : Proper ((≡ₚ) ==> (≡ₚ)) compsIn.
Proof. intros l l' Hl. unfold compsIn. by rewrite Hl. Qed.

Lemma compsIn_cons resp l : compsIn (resp :: l) = compsIn [resp] ++ compsIn l.
Proof. apply (omap_app _ [resp]). Qed.
Lemma acksIn_app l l' : acksIn (l ++ l') = acksIn l ++ acksIn l'.
Proof. apply bind_app. Qed.
Lemma compsIn_app l l' : compsIn (l ++ l') = compsIn l ++ compsIn l'.
Proof. apply omap_app. Qed.

(** A response the engine of a run sends. *)
Definition isAnswer (resp : DurableTaskResponse) : Prop :=
  (∃ ref, resp = WaitForAck (Some ref)) ∨ (∃ ref f m p, resp = EntryCompleted (Some ref) f m p) ∨
  (∃ t i reason, resp = ServerEvict t i reason).

(** The notices among the responses. *)
Definition noticesIn (l : list DurableTaskResponse) : list (string * Z) :=
  omap (λ resp, match resp with ServerEvict t i _ => Some (t, i) | _ => None end) l.

#[global] Instance noticesIn_perm : Proper ((≡ₚ) ==> (≡ₚ)) noticesIn.
Proof. intros l l' Hl. unfold noticesIn. by rewrite Hl. Qed.
Lemma noticesIn_cons resp l : noticesIn (resp :: l) = noticesIn [resp] ++ noticesIn l.
Proof. apply (omap_app _ [resp]). Qed.
Lemma noticesIn_app l l' : noticesIn (l ++ l') = noticesIn l ++ noticesIn l'.
Proof. apply omap_app. Qed.

Section state.
Context {G : Type} `{HG : Dispatcher G}.

(** The room that is kept for a notice. *)
Definition spare (g : G) : nat := if g_evicted g then 0 else 1.

Definition all (w : durableChannel * G) : list DurableTaskResponse := outstanding (g_pending w.2) (c_buffer w.1).

(** The channel is open and everything the engine named is on its way once, the completion with its ack or after
    it; the entries of [X] are still to be registered. *)
Record intact (X : gset entryRef) (outs : list channelOutput) (comp acks : gset entryRef) (c : durableChannel) (g : G) : Prop := {
  in_open : c_closed c = false ∧ c_ended c = false ∧ overflowed (c_buffer c) = false;
  in_accounted : accounted (c_buffer c);
  in_tables : tables comp acks (received outs) (c_buffer c);
  in_ordered : ordered outs (c_buffer c);
  in_answers : ∀ resp, resp ∈ all (c, g) → isAnswer resp;
  in_room : length (all (c, g)) + spare g ≤ 1024;
  in_notices : length (noticesIn (all (c, g))) + spare g ≤ 1;
  in_target : ∀ t, t ∈ noticesIn (all (c, g)) → t = g_target;
  in_acks : NoDup (acksIn (all (c, g)));
  in_comps : NoDup (compsIn (all (c, g)));
  in_paired : ∀ r, r ∈ acksIn (all (c, g)) → r ∈ compsIn (all (c, g));
  in_named : ∀ r, r ∈ named outs → r ∉ acksIn (all (c, g));
  in_new : ∀ r, r ∈ compsIn (g_pending g) → r ∉ comp;
  in_entries : ∀ r, r ∈ comp ∨ r ∈ named outs ∨ r ∈ compsIn (all (c, g)) → r ∈ g_entries g;
  in_acked : ∀ r, r ∈ compsIn (all (c, g)) → r ∈ X ∨ r ∈ acks ∨ r ∈ acksIn (g_pending g);
  in_inflight : c_inflight c = true → 0 < length (acksIn (g_pending g));
}.

Definition reliableBut (X : gset entryRef) (w : durableChannel * G) : Prop :=
  ∃ outs comp acks, intact X outs comp acks w.1 w.2.

#[global] Instance channelState : EngineState (durableChannel * G) := {
  reliable := reliableBut ∅;
  owedAcks w := length (acksIn (all w));
  owed w := list_to_set (compsIn (all w)) ∖ list_to_set (acksIn (all w));
  known w := ({[EntryRef 0 0]} ∪ g_entries w.2) ∖ list_to_set (acksIn (all w));
  delay w := (length (g_pending w.2) + spare w.2) * S g_patience + g_idle w.2;
  patience := 1025 * S g_patience;
  capacity := 1023;
  target := g_target;
  evicted w := g_evicted w.2;
}.
End state.

(** ** The receive loop moves what is outstanding *)

Lemma heldList_insert m ref l : m !! ref = None → heldList (<[ref := l]> m) ≡ₚ l ++ heldList m.
Proof. intros Hm. unfold heldList. by rewrite map_to_list_insert by done. Qed.

Lemma heldList_delete m ref l : m !! ref = Some l → heldList m ≡ₚ l ++ heldList (delete ref m).
Proof.
  intros Hm. rewrite <- (insert_delete_id m ref l Hm) at 1. apply heldList_insert, lookup_delete_eq.
Qed.

Lemma heldList_push m ref resp :
  heldList (<[ref := default [] (m !! ref) ++ [resp]]> m) ≡ₚ resp :: heldList m.
Proof.
  rewrite <- insert_delete_eq, heldList_insert by apply lookup_delete_eq.
  destruct (m !! ref) as [l|] eqn:Hm; cbn.
  - rewrite (heldList_delete m ref l Hm), <- (assoc_L app). cbn. by rewrite <- Permutation_middle.
  - by rewrite delete_id.
Qed.

Lemma heldList_length m : Z.of_nat (length (heldList m)) = heldSize m.
Proof.
  unfold heldList, heldSize. f_equal. induction (map_to_list m) as [|[r l] kvs IH]; [done|]. cbn.
  by rewrite length_app, IH.
Qed.

Lemma retain_room n b : (retained b + n ≤ RetainedResponseLimit)%Z →
  retain n b = Buffer (held b) (wanted b) (delivered b) (ready b) (retained b + n) (overflowed b).
Proof. intros Hr. unfold retain. destruct (Z.leb_spec (retained b + n) RetainedResponseLimit); [done|lia]. Qed.

Lemma expect_perm ref b :
  ready (expect ref b) ++ heldList (held (expect ref b)) ≡ₚ ready b ++ heldList (held b) ∧
  overflowed (expect ref b) = overflowed b.
Proof.
  unfold expect. case_bool_decide; [done|]. destruct (held b !! ref) as [l|] eqn:Hl; [|done]. cbn. split; [|done].
  by rewrite (heldList_delete _ _ _ Hl), (assoc_L app).
Qed.

Lemma ingest_perm resp c :
  let b := c_buffer c in
  let b' := c_buffer (ingest resp c) in
  overflowed b = false → (retained b + 1 ≤ RetainedResponseLimit)%Z → isAnswer resp →
  (∀ r, entryOf resp = Some r → r ∉ delivered b) →
  overflowed b' = false ∧ ready b' ++ heldList (held b') ≡ₚ resp :: ready b ++ heldList (held b).
Proof.
  intros b b' Ho Hr [[ref ->]|[(ref & f & m & p & ->)|(t & i & reason & ->)]] Hd; unfold b', b, ingest in *; rewrite Ho; cbn [c_buffer wake with_buffer with_inflight].
  - set (b1 := queue _ _). destruct (expect_perm (getRef (Some ref)) b1) as [-> ->]. unfold b1, queue.
    rewrite retain_room by done. cbn. split; [done|]. rewrite <- (assoc_L app). symmetry. apply Permutation_middle.
  - rewrite bool_decide_false by (by apply Hd). cbn [c_buffer wake with_buffer]. unfold ingestEntry, queue.
    case_bool_decide; rewrite retain_room by done; cbn -[getRef]; (split; [done|]).
    + rewrite <- (assoc_L app). symmetry. apply Permutation_middle.
    + rewrite heldList_push. symmetry. apply Permutation_middle.
  - unfold queue. rewrite retain_room by done. cbn. split; [done|]. rewrite <- (assoc_L app). symmetry. apply Permutation_middle.
Qed.

Section steps.
Context {G : Type} `{HG : Dispatcher G} `{HL : !DispatcherLaws G}.
Implicit Types (c : durableChannel) (g : G) (w : durableChannel * G).

Lemma all_length c g :
  accounted (c_buffer c) → Z.of_nat (length (all (c, g))) = (Z.of_nat (length (g_pending g)) + retained (c_buffer c))%Z.
Proof. intros [-> _]. unfold all, outstanding. rewrite !length_app. cbn. rewrite <- heldList_length. lia. Qed.

(** What an engine owes depends on what is outstanding up to its order. *)
Lemma debt_perm w w' : all w' ≡ₚ all w → g_entries w'.2 = g_entries w.2 → sameDebt w w'.
Proof.
  intros Hp He.
  assert (list_to_set (C := gset entryRef) (acksIn (all w')) = list_to_set (acksIn (all w))) as Ha
    by (apply list_to_set_perm_L; by rewrite Hp).
  assert (list_to_set (C := gset entryRef) (compsIn (all w')) = list_to_set (compsIn (all w))) as Hc
    by (apply list_to_set_perm_L; by rewrite Hp).
  split_and!; cbn; rewrite ?He, ?Ha, ?Hc; [by rewrite Hp|done..].
Qed.

Lemma intact_delivered X outs comp acks c g resp r :
  intact X outs comp acks c g → resp ∈ g_pending g → entryOf resp = Some r → r ∉ comp.
Proof.
  intros Hi Hresp Hr. apply (in_new _ _ _ _ _ _ Hi). unfold compsIn. apply list_elem_of_omap. eauto.
Qed.

Lemma all_ingest X outs comp acks c g resp g' :
  intact X outs comp acks c g → g_pending g ≡ₚ resp :: g_pending g' →
  overflowed (c_buffer (ingest resp c)) = false ∧ all (ingest resp c, g') ≡ₚ all (c, g).
Proof.
  intros Hi Hp. destruct (in_open _ _ _ _ _ _ Hi) as (_ & _ & Ho).
  assert (resp ∈ g_pending g) as Hresp by (rewrite Hp; constructor).
  destruct (ingest_perm resp c) as [Ho' Hperm]; [done| | | |].
  - pose proof (in_room _ _ _ _ _ _ Hi). pose proof (all_length c g (in_accounted _ _ _ _ _ _ Hi)). rewrite Hp in H0. cbn in H0.
    unfold RetainedResponseLimit, HandshakeHoldLimit. lia.
  - apply (in_answers _ _ _ _ _ _ Hi). unfold all, outstanding. apply elem_of_app. by left.
  - intros r Hr. rewrite (tb_delivered _ _ _ _ (in_tables _ _ _ _ _ _ Hi)).
    pose proof (intact_delivered _ _ _ _ _ _ _ _ Hi Hresp Hr). set_solver.
  - split; [done|]. unfold all, outstanding. cbn [fst snd]. by rewrite Hperm, Hp, <- Permutation_middle.
Qed.

Lemma ingest_flags resp c :
  c_closed (ingest resp c) = c_closed c ∧ c_ended (ingest resp c) = c_ended c.
Proof. unfold ingest. by repeat case_match. Qed.

Lemma intact_ingest X outs comp acks c g resp g' :
  intact X outs comp acks c g → g_pending g ≡ₚ resp :: g_pending g' → g_entries g' = g_entries g → g_evicted g' = g_evicted g →
  intact X outs (entries [resp] ∪ comp) (list_to_set (names resp) ∪ acks) (ingest resp c) g'.
Proof.
  intros Hi Hp He Hv. destruct (all_ingest _ _ _ _ _ _ _ _ Hi Hp) as [Ho Hall].
  assert (resp ∈ g_pending g) as Hresp by (rewrite Hp; constructor).
  assert (isAnswer resp) as Hans by (apply (in_answers _ _ _ _ _ _ Hi); apply elem_of_app; by left).
  destruct Hi as [(H1 & H1' & H1'') H2 H3 H4 H5 H6 Hno Htg H7 H8 H9 H10 H11 H12 Hak H13].
  destruct (ingest_flags resp c) as [Hc1 Hc2].
  assert (spare g' = spare g) as Hsp by (unfold spare; by rewrite Hv).
  split; rewrite ?Hall, ?Hc1, ?Hc2, ?Hsp; try done.
  - by apply ingest_accounted.
  - by apply tables_ingest.
  - by apply ordered_ingest.
  - intros x. rewrite Hall. apply H5.
  - intros t. rewrite Hall. apply Htg.
  - intros r. rewrite Hall. apply H9.
  - intros r Hr. rewrite Hall. by apply H10.
  - intros r Hr [Hx|Hx]%elem_of_union.
    + unfold all, outstanding in H8. cbn [fst snd] in H8. rewrite Hp, compsIn_app in H8. apply NoDup_app in H8 as [H8 _].
      unfold entries in Hx. apply elem_of_list_to_set in Hx. rewrite compsIn_cons in H8. apply NoDup_app in H8 as (_ & H8 & _). by apply (H8 r).
    + apply (H11 r); [|done]. rewrite Hp. rewrite compsIn_cons. apply elem_of_app. by right.
  - intros r Hr. rewrite He. apply H12. rewrite Hall in Hr. 
    assert (∀ x, x ∈ compsIn [resp] → x ∈ compsIn (all (c, g))) as Hc.
    { intros x Hx. unfold all, outstanding. cbn [fst snd]. rewrite Hp. rewrite compsIn_app, compsIn_cons, !elem_of_app. tauto. }
    assert (∀ x, x ∈ names resp → x ∈ compsIn (all (c, g))) as Ha.
    { intros x Hx. apply H9. unfold all, outstanding. cbn [fst snd]. rewrite Hp. cbn. rewrite elem_of_app. by left. }
    unfold entries in Hr. rewrite !elem_of_union, !elem_of_list_to_set in Hr. naive_solver.
  - intros r Hr. rewrite Hall in Hr. apply Hak in Hr. rewrite Hp in Hr. cbn in Hr. rewrite elem_of_app in Hr.
    rewrite elem_of_union, elem_of_list_to_set. tauto.
  - rewrite ingest_inflight, H1''. intros [Hf Hx]%andb_true_iff. specialize (H13 Hf). rewrite Hp in H13.
    destruct Hans as [[ref ->]|[(ref & f & m & p & ->)|(t & i & reason & ->)]]; [done|exact H13|exact H13].
Qed.

(** The channel after the receive loop has read ahead. *)
Lemma readAhead_ok X n w :
  reliableBut X w → ∃ w', readAhead n w = w' ∧ reliableBut X w' ∧ sameDebt w w' ∧ g_entries w'.2 = g_entries w.2 ∧ delay w' ≤ delay w.
Proof.
  revert w. induction n as [|n IH]; intros [c g] Hw; [by eexists|]. cbn [readAhead snd fst].
  destruct (g_pending g) as [|x l] eqn:Hg; [by eexists|].
  destruct (next_ok g) as ([resp|] & g' & -> & He & Hv & Hn); [by rewrite Hg|..].
  - destruct Hw as (outs & comp & acks & Hi). destruct (IH (ingest resp c, g')) as (w' & -> & Hw' & Hsame & He' & Hd).
    { do 3 eexists. by eapply intact_ingest. }
    exists w'. split_and!; [done..| | |].
    + destruct (debt_perm (c, g) (ingest resp c, g')) as (D1 & D2 & D3); [by eapply all_ingest|done|].
      destruct Hsame as (E1 & E2 & E3). split_and!; congruence.
    + by rewrite He'.
    + etrans; [done|]. cbn. unfold spare. rewrite Hn, Hv. cbn. pose proof (idle_bounded g'). lia.
  - eexists. split; [done|]. destruct Hn as [Hp Hi]. split_and!; [|by apply debt_perm; [unfold all; cbn; rewrite Hp|]|done|cbn; unfold spare; rewrite Hp, Hv; nia].
    destruct Hw as (outs & comp & acks & [H1 H2 H3 H4 H5 H6 Hno Htg H7 H8 H9 H10 H11 H12 Hak H13]). exists outs, comp, acks.
    unfold all, spare in *. cbn in *. split; unfold all, spare; cbn; rewrite ?Hp, ?He, ?Hv; done.
Qed.

Lemma settle_ok X w :
  reliableBut X w → reliableBut X (settle w) ∧ sameDebt w (settle w) ∧ g_entries (settle w).2 = g_entries w.2 ∧ delay (settle w) ≤ delay w.
Proof. intros Hw. by destruct (readAhead_ok X (g_ahead w.2) w Hw) as (w' & <- & ?). Qed.

(** ** Requests *)

(** What the engine takes on is added to what is outstanding. *)
Lemma reliable_more X outs comp acks c g c' g' refs new :
  intact ∅ outs comp acks c g → c_buffer c' = c_buffer c → c_closed c' = c_closed c → c_ended c' = c_ended c →
  g_pending g' ≡ₚ new ++ g_pending g → g_entries g' = refs ∪ g_entries g →
  (∀ resp, resp ∈ new → isAnswer resp) → NoDup (acksIn new) → NoDup (compsIn new) →
  (∀ r, r ∈ acksIn new → r ∈ compsIn new) → (∀ r, r ∈ compsIn new → r ∈ refs ∧ r ∉ g_entries g) →
  (∀ r, r ∈ compsIn new → r ∈ X ∨ r ∈ acksIn new) →
  (∀ t, t ∈ noticesIn new → t = g_target) → length (noticesIn new) + spare g' ≤ spare g →
  length new + length (all (c, g)) + spare g' ≤ 1024 → (c_inflight c' = true → c_inflight c = true ∨ 0 < length (acksIn new)) →
  intact X outs comp acks c' g' ∧ all (c', g') ≡ₚ new ++ all (c, g).
Proof.
  intros [H1 H2 H3 H4 H5 H6 Hno Htg H7 H8 H9 H10 H11 H12 Hak H13] Hb Hc1 Hc2 Hp He Ha N1 N2 N3 N4 N5 N6 Hsp Hroom Hf.
  assert (all (c', g') ≡ₚ new ++ all (c, g)) as Hall.
  { unfold all, outstanding. cbn [fst snd]. by rewrite Hb, Hp, <- (assoc_L app). }
  split; [|done]. split; rewrite ?Hb, ?Hc1, ?Hc2, ?He; try done.
  - intros resp. rewrite Hall, elem_of_app. naive_solver.
  - by rewrite Hall, length_app.
  - rewrite Hall, noticesIn_app, length_app. lia.
  - intros t. rewrite Hall, noticesIn_app, elem_of_app. naive_solver.
  - rewrite Hall, acksIn_app. apply NoDup_app. split_and!; [done| |done]. intros r Hr1 Hr2.
    apply N3, N4 in Hr1 as [_ Hr1]. by apply Hr1, H12; auto.
  - rewrite Hall, compsIn_app. apply NoDup_app. split_and!; [done| |done]. intros r [_ Hr1]%N4 Hr2.
    by apply Hr1, H12; auto.
  - intros r. rewrite Hall, acksIn_app, compsIn_app, !elem_of_app. naive_solver.
  - intros r Hr. rewrite Hall, acksIn_app, elem_of_app. intros [[_ Hx]%N3%N4|Hx]; [by apply Hx, H12; auto|by eapply H10].
  - intros r. rewrite Hp, compsIn_app, elem_of_app. intros [[_ Hr]%N4|Hr]; [|by apply H11]. intros Hc. by apply Hr, H12; auto.
  - intros r. rewrite Hall, compsIn_app, elem_of_app, elem_of_union. naive_solver.
  - intros r. rewrite Hall, Hp, compsIn_app, acksIn_app, !elem_of_app.
    intros [[?|?]%N5|[[]%not_elem_of_empty|[?|?]]%Hak]; auto.
  - intros Hx. rewrite Hp, acksIn_app, length_app. destruct (Hf Hx) as [Hy%H13|Hy]; lia.
Qed.

(** What is owed counts what is outstanding. *)
Lemma answers_length l : (∀ resp, resp ∈ l → isAnswer resp) → length l = length (acksIn l) + length (compsIn l) + length (noticesIn l).
Proof.
  induction l as [|resp l IH]; [done|]. intros Hl. rewrite compsIn_cons, noticesIn_cons.
  cbn [acksIn mbind list_bind length].
  rewrite !length_app. rewrite IH by (intros; apply Hl; by constructor). unfold acksIn.
  destruct (Hl resp) as [[ref ->]|[(ref & f & m & p & ->)|(t & i & reason & ->)]]; [constructor|cbn; lia..].
Qed.

Lemma load_all X outs comp acks c g : intact X outs comp acks c g →
  length (all (c, g)) = load (c, g) + length (noticesIn (all (c, g))).
Proof.
  intros [H1 H2 H3 H4 H5 H6 Hno Htg H7 H8 H9 H10 H11 H12 Hak H13]. unfold load. cbn [owedAcks owed channelState].
  rewrite size_difference by (intros r; rewrite !elem_of_list_to_set; apply H9).
  rewrite !size_list_to_set, (answers_length (all (c, g))) by done.
  assert (length (acksIn (all (c, g))) ≤ length (compsIn (all (c, g)))); [|lia].
  apply submseteq_length, NoDup_submseteq; done.
Qed.

Lemma fresh_pair (r : entryRef) (X Y : gset entryRef) : r ∉ X → ({[r]} ∪ X) ∖ ({[r]} ∪ Y) = X ∖ Y.
Proof. clear. set_solver. Qed.

(** A registration. *)
Lemma channel_send_wait w task invocation conditions :
  reliable w → owedAcks w = 0 → load w + 2 ≤ 1023 →
  ∃ w', w_send (WaitFor task invocation conditions) w = (None, w') ∧ reliable w' ∧
    owedAcks w' = 1 ∧ owed w' = owed w ∧ known w' = known w.
Proof.
  intros Hw Ha Hl. destruct (settle_ok ∅ w Hw) as (Hs & (D1 & D2 & D3) & He & _).
  assert (load (settle w) = load w) as Hload by (unfold load; congruence). rewrite <- Hload in Hl. rewrite <- D1 in Ha.
  rewrite <- D2, <- D3. clear Hload D1 D2 D3. cbn [w_send channelWorld]. destruct (settle w) as [c g]. clear Hw He.
  destruct Hs as (outs & comp & acks & Hi). cbn [fst snd] in Hi. pose proof (load_all _ _ _ _ _ _ Hi) as Hlen.
  pose proof (in_notices _ _ _ _ _ _ Hi) as Hno. cbn [fst snd].
  assert (acksIn (all (c, g)) = []) as Hnil by (by apply nil_length_inv).
  assert (c_inflight c = false) as Hf.
  { destruct (c_inflight c) eqn:Hf; [|done]. pose proof (in_inflight _ _ _ _ _ _ Hi Hf) as Hx.
    unfold all, outstanding in Hnil. rewrite acksIn_app in Hnil. apply app_eq_nil in Hnil as [Hnil _].
    cbn in Hnil. rewrite Hnil in Hx. cbn in Hx. lia. }
  destruct (in_open _ _ _ _ _ _ Hi) as (O1 & O2 & O3). unfold Send, isClosed, isOverflowed, acquire. rewrite O1, O3, Hf.
  cbn [orb stamp]. set (g' := g_take _ g). set (c' := with_inflight true c).
  destruct (take_wait g (c_taskExternalId c) (c_invocation c) conditions) as (ref & f & m & p & Hfresh & He & Hv & Hp).
  fold g' in He, Hv, Hp. assert (spare g' = spare g) as Hsp by (unfold spare; by rewrite Hv).
  destruct (reliable_more ∅ outs comp acks c g c' g' {[getRef (Some ref)]} [WaitForAck (Some ref); EntryCompleted (Some ref) f m p])
    as [Hi' Hall]; try done.
  - intros resp [->|[->|[]%elem_of_nil]%elem_of_cons]%elem_of_cons; [left|right; left]; eauto.
  - apply NoDup_singleton.
  - apply NoDup_singleton.
  - intros r ->%list_elem_of_singleton. split; [by apply elem_of_singleton|done].
  - auto.
  - intros t []%elem_of_nil.
  - cbn. lia.
  - cbn [length]. lia.
  - intros _. right. cbn. lia.
  - exists (c', g'). split_and!; [done|by do 3 eexists|..]; cbn [owedAcks owed known channelState].
    + by rewrite Hall, acksIn_app, Hnil.
    + rewrite (list_to_set_perm_L _ _ (compsIn_perm _ _ Hall)), (list_to_set_perm_L _ _ (acksIn_perm _ _ Hall)).
      rewrite compsIn_app, acksIn_app, Hnil. apply fresh_pair. rewrite elem_of_list_to_set. intros Hx.
      apply Hfresh, (in_entries _ _ _ _ _ _ Hi). auto.
    + rewrite (list_to_set_perm_L _ _ (acksIn_perm _ _ Hall)), acksIn_app, Hnil. cbn [snd]. rewrite He.
      rewrite (assoc_L (∪)), (comm_L (∪) {[EntryRef 0 0]}), <- (assoc_L (∪)). apply fresh_pair.
      intros [Hz%elem_of_singleton|?]%elem_of_union; [|done]. apply (entries_nonzero g'). rewrite He, Hz.
      apply elem_of_union. left. by apply elem_of_singleton.
Qed.

(** A report. *)
Lemma channel_send_status w worker entries :
  reliable w →
  ∃ w', w_send (WorkerStatus worker entries) w = (None, w') ∧ reliable w' ∧ sameDebt w w' ∧ delay w' ≤ delay w.
Proof.
  intros Hw. destruct (settle_ok ∅ w Hw) as (Hs & (D1 & D2 & D3) & He & Hd). unfold sameDebt.
  rewrite <- D1, <- D2, <- D3. clear D1 D2 D3. cbn [w_send channelWorld]. destruct (settle w) as [c g]. clear Hw He.
  destruct Hs as (outs & comp & acks & Hi). cbn [fst snd] in *.
  destruct (in_open _ _ _ _ _ _ Hi) as (O1 & O2 & O3). unfold Send, isClosed, isOverflowed. rewrite O1, O3.
  cbn [orb stamp]. destruct (take_status g (c_workerId c) entries) as (He & Hidle & Hcase). set (g' := g_take _ g) in *.
  exists (c, g'). split; [done|]. destruct Hcase as [[Hp Hv]|(reason & Hv & Hv' & Hp)].
  - assert (spare g' = spare g) as Hsp by (unfold spare; by rewrite Hv).
    split_and!; [|apply debt_perm; [unfold all; cbn [fst snd]; by rewrite Hp|done]..|].
    + exists outs, comp, acks. destruct Hi as [H1 H2 H3 H4 H5 H6 Hno Htg H7 H8 H9 H10 H11 H12 Hak H13].
      unfold all in *. cbn [fst snd] in *. split; unfold all; cbn [fst snd]; rewrite ?Hp, ?He, ?Hsp; done.
    + etrans; [|exact Hd]. cbn. rewrite Hp, Hsp. lia.
  - assert (spare g = 1 ∧ spare g' = 0) as [Hsp Hsp'] by (unfold spare; by rewrite Hv, Hv').
    pose proof (in_room _ _ _ _ _ _ Hi).
    destruct (reliable_more ∅ outs comp acks c g c g' ∅ [ServerEvict g_target.1 g_target.2 reason]) as [Hi' Hall]; try done.
    + by rewrite (left_id_L ∅ (∪)).
    + intros resp ->%list_elem_of_singleton. right; right. eauto.
    + apply NoDup_nil_2.
    + apply NoDup_nil_2.
    + intros r []%elem_of_nil.
    + intros r []%elem_of_nil.
    + intros t ->%list_elem_of_singleton. by destruct g_target.
    + rewrite Hsp, Hsp'. done.
    + cbn [length]. lia.
    + by left.
    + split; [by do 3 eexists|]. split.
      * split_and!; cbn [owedAcks owed known channelState]; rewrite ?Hall; [done|..]; cbn [snd]; rewrite ?He;
          by rewrite ?(list_to_set_perm_L _ _ (compsIn_perm _ _ Hall)), ?(list_to_set_perm_L _ _ (acksIn_perm _ _ Hall)).
      * etrans; [|exact Hd]. cbn. rewrite Hp, Hsp, Hsp'. cbn. lia.
Qed.

(** An entry that is registered with the channel. *)
Lemma intact_expect outs comp acks c g r :
  intact {[r]} outs comp acks c g → r ∈ owed (c, g) →
  let c' := wake (with_buffer (expect r (c_buffer c)) c) in
  ExpectEntry (er_branchId r) (er_nodeId r) c = (None, c') ∧
  intact ∅ (outs ++ [Expected r]) comp ({[r]} ∪ acks) c' g ∧ all (c', g) ≡ₚ all (c, g).
Proof.
  intros Hi Hr c'. cbn [owed channelState] in Hr. apply elem_of_difference in Hr as [Hr Hna]. rewrite elem_of_list_to_set in Hr, Hna.
  destruct (in_open _ _ _ _ _ _ Hi) as (O1 & O2 & O3).
  assert (ExpectEntry (er_branchId r) (er_nodeId r) c = (None, c')) as He.
  { unfold ExpectEntry, isClosed, isOverflowed. rewrite O1, O3. by destruct r. }
  assert (channelStep (Expect r) c = (Expected r, c')) as Hstep by (cbn [channelStep]; by rewrite He).
  assert (all (c', g) ≡ₚ all (c, g)) as Hall.
  { unfold all, outstanding. cbn [fst snd c_buffer c' wake with_buffer]. by destruct (expect_perm r (c_buffer c)) as [-> _]. }
  split; [done|]. split; [|done]. destruct Hi as [H1 H2 H3 H4 H5 H6 Hno Htg H7 H8 H9 H10 H11 H12 Hak H13].
  split; rewrite ?named_snoc, ?Hall; try done.
  - cbn. by rewrite overflowed_expect.
  - by apply accounted_expect.
  - rewrite received_snoc, app_nil_r. by apply tables_expect.
  - apply (ordered_step _ _ _ _ _ (λ _, H4) Hstep). cbn. by rewrite overflowed_expect.
  - intros x. rewrite Hall. apply H5.
  - intros x. rewrite Hall. apply Htg.
  - intros x. rewrite Hall. apply H9.
  - intros x. rewrite Hall, ?named_snoc, elem_of_app. cbn [namesOut]. rewrite list_elem_of_singleton. intros [Hx| ->]; [by apply H10|done].
  - intros x. rewrite Hall, ?named_snoc, elem_of_app. cbn [namesOut]. rewrite list_elem_of_singleton. intros [Hx|[[Hx| ->]|Hx]]; apply H12; auto.
  - intros x. rewrite Hall, elem_of_union. intros [?|[?|?]]%Hak; auto.
Qed.

(** A step that is triggered and whose entry is registered. *)
Lemma channel_trigger w args :
  reliable w → load w + 1 ≤ 1023 →
  (∃ e w', w_triggerStep args w = (inr e, w')) ∨
  ∃ r w1 w', w_triggerStep args w = (inl r, w1) ∧ w_expectEntry (resultRef r) w1 = (None, w') ∧ reliable w' ∧
    resultRef r ∉ known w ∧ resultRef r ∉ owed w ∧
    owedAcks w' = owedAcks w ∧ owed w' = {[resultRef r]} ∪ owed w ∧ known w' = {[resultRef r]} ∪ known w.
Proof.
  intros Hw Hl. destruct (settle_ok ∅ w Hw) as (Hs & (D1 & D2 & D3) & _ & _).
  assert (load (settle w) = load w) as Hload by (unfold load; congruence). rewrite <- Hload in Hl.
  rewrite <- D1, <- D2, <- D3. clear Hload D1 D2 D3. cbn [w_triggerStep channelWorld]. destruct (settle w) as [c g]. clear Hw.
  destruct Hs as (outs & comp & acks & Hi). cbn [fst snd] in *. pose proof (load_all _ _ _ _ _ _ Hi) as Hlen.
  pose proof (in_notices _ _ _ _ _ _ Hi) as Hno.
  destruct (trigger_entry g args) as [(e & g' & ->)|(r & g' & ref & f & m & p & -> & Href & Hfresh & He & Hv & Hp)]; [left; eauto|right].
  assert (spare g' = spare g) as Hsp by (unfold spare; by rewrite Hv).
  destruct (reliable_more {[resultRef r]} outs comp acks c g c g' {[resultRef r]} [EntryCompleted (Some ref) f m p]) as [Hi' Hall]; try done.
  { intros resp ->%list_elem_of_singleton. right; left. eauto. }
  { apply NoDup_nil_2. }
  { apply NoDup_singleton. }
  { intros x []%elem_of_nil. }
  { intros x ->%list_elem_of_singleton. rewrite Href. split; [by apply elem_of_singleton|done]. }
  { intros x ->%list_elem_of_singleton. left. rewrite Href. by apply elem_of_singleton. }
  { intros t []%elem_of_nil. }
  { cbn. lia. }
  { cbn [length]. lia. }
  { auto. }
  assert (resultRef r ∉ list_to_set (C := gset entryRef) (compsIn (all (c, g)))) as Hnc.
  { rewrite elem_of_list_to_set. intros Hx. apply Hfresh, (in_entries _ _ _ _ _ _ Hi). auto. }
  assert (resultRef r ∉ list_to_set (C := gset entryRef) (acksIn (all (c, g)))) as Hna.
  { rewrite !elem_of_list_to_set in *. intros Hx. by apply Hnc, (in_paired _ _ _ _ _ _ Hi). }
  assert (owedAcks (c, g') = owedAcks (c, g) ∧ owed (c, g') = {[resultRef r]} ∪ owed (c, g) ∧
    known (c, g') = {[resultRef r]} ∪ known (c, g)) as (K1 & K2 & K3).
  { cbn [owedAcks owed known channelState].
    rewrite (list_to_set_perm_L _ _ (compsIn_perm _ _ Hall)), (list_to_set_perm_L _ _ (acksIn_perm _ _ Hall)).
    rewrite compsIn_app, acksIn_app, Hall. cbn [app acksIn mbind list_bind names snd compsIn omap list_omap entryOf].
    fold (acksIn (all (c, g))). rewrite He, Href. split_and!; [done|clear -Hna; set_solver|clear -Hna; set_solver]. }
  assert (resultRef r ≠ EntryRef 0 0) as Hz.
  { intros Hz. apply (entries_nonzero g'). rewrite He, Hz. apply elem_of_union. left. by apply elem_of_singleton. }
  exists r, (c, g'). cbn [w_expectEntry channelWorld].
  destruct (settle_ok {[resultRef r]} (c, g')) as (Hs & (D1 & D2 & D3) & _ & _); [by do 3 eexists|].
  destruct (settle (c, g')) as [c2 g2]. destruct Hs as (outs2 & comp2 & acks2 & Hi2). cbn [fst snd] in Hi2 |- *.
  destruct (intact_expect _ _ _ _ _ (resultRef r) Hi2) as (-> & Hi3 & Hall3).
  { rewrite D2, K2. apply elem_of_union. left. by apply elem_of_singleton. }
  set (c3 := wake _) in *. destruct (debt_perm (c2, g2) (c3, g2) Hall3) as (E1 & E2 & E3); [done|].
  exists (c3, g2). rewrite E1, E2, E3, D1, D2, D3, K1, K2, K3. split_and!; try done.
  - by do 3 eexists.
  - cbn [known channelState snd]. clear -Hfresh Hz. set_solver.
  - cbn [owed channelState]. clear -Hnc. set_solver.
Qed.

(** ** Recv *)

(** The head of the queue is read: a completion's ack was read before. *)
Lemma intact_recv outs comp acks c g resp rest :
  intact ∅ outs comp acks c g → ready (c_buffer c) = resp :: rest →
  ∃ c', recvPass c = (Some (inl resp), c') ∧ intact ∅ (outs ++ [Received resp]) comp acks c' g ∧
    all (c, g) ≡ₚ resp :: all (c', g) ∧ isAnswer resp ∧ (∀ r, entryOf resp = Some r → r ∈ named outs).
Proof.
  intros Hi Hready. destruct (in_open _ _ _ _ _ _ Hi) as (O1 & O2 & O3). unfold recvPass. rewrite O3, Hready. eexists.
  split; [done|]. set (c' := with_buffer _ c).
  assert (channelStep RecvNow c = (Received resp, c')) as Hstep.
  { cbn [channelStep]. unfold recvPass. rewrite O3, Hready. done. }
  assert (all (c, g) ≡ₚ resp :: all (c', g)) as Hall.
  { unfold all, outstanding. cbn [fst snd c' with_buffer c_buffer ready held]. rewrite Hready. cbn. by rewrite <- Permutation_middle. }
  destruct Hi as [H1 H2 H3 H4 H5 H6 Hno Htg H7 H8 H9 H10 H11 H12 Hak H13].
  assert (isAnswer resp) as Hans by (apply H5; rewrite Hall; constructor).
  assert (∀ r, entryOf resp = Some r → r ∈ named outs) as Hnamed.
  { destruct H4 as [H4 _ _]. rewrite Hready in H4. apply H4. }
  split_and!; [|done..]. rewrite Hall in H6, H7, H8, Hno. rewrite compsIn_cons in H8. cbn in H6, H7.
  apply NoDup_app in H7 as (_ & H7 & H7'). apply NoDup_app in H8 as (_ & H8 & H8').
  split; rewrite ?named_snoc; try done.
  - by apply (channelStep_accounted _ _ _ _ Hstep).
  - destruct H3 as [T1 T2 T3 T4 T5]. split; cbn; try done. rewrite received_snoc, <- (assoc_L app). cbn.
    by rewrite Hready in T5.
  - by apply (ordered_step _ _ _ _ _ (λ _, H4) Hstep).
  - intros x Hx. apply H5. rewrite Hall. by constructor.
  - lia.
  - rewrite noticesIn_cons, length_app in Hno. lia.
  - intros t Ht. apply Htg. rewrite Hall, noticesIn_cons, elem_of_app. by right.
  - intros r Hr. assert (r ∈ compsIn (all (c, g))) as Hc by (apply H9; rewrite Hall; cbn; apply elem_of_app; by right).
    rewrite Hall, compsIn_cons in Hc. apply elem_of_app in Hc as [Hc|Hc]; [|done].
    apply list_elem_of_omap in Hc as (x & ->%list_elem_of_singleton & Hx). destruct (H10 r (Hnamed r Hx)).
    rewrite Hall. cbn. apply elem_of_app. by right.
  - intros r [Hr|Hr]%elem_of_app; [|by apply H7]. intros Hx. apply (H10 r Hr). rewrite Hall. cbn. apply elem_of_app. by right.
  - intros r [Hr|[Hr|Hr]]; [by apply H12; auto| |]; [apply elem_of_app in Hr as [Hr|Hr]; [by apply H12; auto|]|].
    + apply H12. right. right. apply H9. rewrite Hall. cbn. apply elem_of_app. by left.
    + apply H12. right. right. rewrite Hall, compsIn_cons. apply elem_of_app. by right.
  - intros r Hr. apply Hak. rewrite Hall, compsIn_cons. apply elem_of_app. by right.
Qed.

Definition answered (w : durableChannel * G) (reply : recvReply) (w' : durableChannel * G) : Prop :=
  (∃ ref, reply = Got (WaitForAck (Some ref)) ∧ 0 < owedAcks w ∧ getRef (Some ref) ∉ known w ∧
     owedAcks w' = owedAcks w - 1 ∧ owed w' = {[getRef (Some ref)]} ∪ owed w ∧
     known w' = {[getRef (Some ref)]} ∪ known w ∧ getRef (Some ref) ∉ owed w) ∨
  (∃ ref f m p, reply = Got (EntryCompleted (Some ref) f m p) ∧ getRef (Some ref) ∈ owed w ∧
     owedAcks w' = owedAcks w ∧ owed w' = owed w ∖ {[getRef (Some ref)]} ∧ known w' = known w) ∨
  (∃ reason, reply = Got (ServerEvict target.1 target.2 reason) ∧ evicted w' = true).

Lemma difference_back (r : entryRef) (X Y : gset entryRef) : r ∈ X → r ∉ Y → X ∖ Y = {[r]} ∪ X ∖ ({[r]} ∪ Y).
Proof.
  clear. intros Hx Hy. apply set_eq. intros x. destruct (decide (x = r)) as [->|]; set_solver.
Qed.

Lemma answered_recv outs comp acks c g resp rest :
  intact ∅ outs comp acks c g → ready (c_buffer c) = resp :: rest →
  ∃ c', recvPass c = (Some (inl resp), c') ∧ reliable (c', g) ∧ answered (c, g) (Got resp) (c', g).
Proof.
  intros Hi Hready. destruct (intact_recv _ _ _ _ _ _ _ Hi Hready) as (c' & -> & Hi' & Hall & Hans & Hnamed).
  exists c'. split; [done|]. split; [by do 3 eexists|].
  pose proof (in_acks _ _ _ _ _ _ Hi) as Na. pose proof (in_comps _ _ _ _ _ _ Hi) as Nc.
  pose proof (in_paired _ _ _ _ _ _ Hi) as Hpair. pose proof (in_entries _ _ _ _ _ _ Hi) as Hent.
  pose proof (in_named _ _ _ _ _ _ Hi) as Hnm. unfold answered. cbn [owedAcks owed known channelState snd].
  rewrite (list_to_set_perm_L _ _ (compsIn_perm _ _ Hall)), (list_to_set_perm_L _ _ (acksIn_perm _ _ Hall)).
  assert (length (acksIn (all (c, g))) = length (acksIn (resp :: all (c', g)))) as -> by (by rewrite Hall).
  rewrite Hall in Na, Nc. rewrite compsIn_cons in Nc |- *.
  destruct Hans as [[ref ->]|[(ref & f & m & p & ->)|(t & i & reason & ->)]];
    [left; exists ref|right; left; exists ref, f, m, p|right; right; exists reason]; (split; [try done|]).
  4: { cbn. pose proof (in_notices _ _ _ _ _ _ Hi) as Hno. rewrite Hall in Hno. cbn in Hno. unfold spare in Hno.
    destruct (g_evicted g); [done|lia]. }
  3: { pose proof (in_target _ _ _ _ _ _ Hi (t, i)) as Ht. rewrite Hall in Ht. cbn. by rewrite <- Ht by constructor. }
  - assert (getRef (Some ref) ∈ acksIn (all (c, g))) as Hr by (rewrite Hall; constructor).
    cbn [acksIn mbind list_bind names app compsIn omap list_omap entryOf list_to_set] in *. fold (acksIn (all (c', g))) in *.
    fold (compsIn (all (c', g))) in *.
    apply NoDup_cons in Na as [Na _]. rewrite <- (elem_of_list_to_set (C := gset entryRef)) in Na.
    pose proof (Hpair _ Hr) as Hc. assert (getRef (Some ref) ∈ g_entries g) by auto. rewrite Hall in Hc.
    cbn [compsIn omap list_omap entryOf] in Hc. rewrite <- (elem_of_list_to_set (C := gset entryRef)) in Hc.
    cbn [length]. split_and!; [lia| |lia| | |].
    + set_solver.
    + by apply difference_back.
    + apply difference_back; [set_solver|done].
    + set_solver.
  - pose proof (Hnm _ (Hnamed _ eq_refl)) as Hna. rewrite Hall in Hna.
    cbn [acksIn mbind list_bind names app compsIn omap list_omap entryOf list_to_set] in *. fold (acksIn (all (c', g))) in *.
    fold (compsIn (all (c', g))) in *. apply NoDup_cons in Nc as [Nc _].
    rewrite <- (elem_of_list_to_set (C := gset entryRef)) in Nc, Hna. split_and!; [|done| |done].
    + clear -Hna. set_solver.
    + clear -Nc Hna. set_solver.
Qed.

(** While something is outstanding and nothing is queued, the engine has something to send: a completion is only
    held while its ack is on its way. *)
Lemma pending_left outs comp acks c g :
  intact ∅ outs comp acks c g → ready (c_buffer c) = [] → all (c, g) ≠ [] → g_pending g ≠ [].
Proof.
  intros Hi Hready Hne Hp. destruct (all (c, g)) as [|resp l] eqn:Hall; [done|].
  assert (resp ∈ all (c, g)) as Hin by (rewrite Hall; constructor).
  assert (resp ∈ heldList (held (c_buffer c))) as Hheld.
  { unfold all, outstanding in Hin. cbn [fst snd] in Hin. rewrite Hp, Hready in Hin. done. }
  unfold heldList in Hheld. apply list_elem_of_bind in Hheld as ([r rs] & Hx & Hrs). cbn in Hx.
  apply elem_of_map_to_list in Hrs. destruct (in_tables _ _ _ _ _ _ Hi) as [T1 T2 T3 T4 T5].
  destruct (T4 _ _ Hrs) as [_ Hof]. assert (r ∈ comp ∖ acks) as [_ Hna]%elem_of_difference by (rewrite <- T3; by eapply elem_of_dom_2).
  destruct (in_acked _ _ _ _ _ _ Hi r) as [[]%not_elem_of_empty|[?|Hack]]; [|done|].
  - apply list_elem_of_omap. eauto.
  - rewrite Hp in Hack. by apply elem_of_nil in Hack.
Qed.

Lemma reliable_notify c g : reliable (c, g) → reliable (consume_notify c, g).
Proof. intros (outs & comp & acks & []). exists outs, comp, acks. by split. Qed.

(** While something is outstanding, Recv returns it, or the interval passes. *)
Lemma recvFrom_ok n w :
  reliable w → 0 < load w → length (g_pending w.2) ≤ n →
  ∃ reply w', recvFrom n w = (reply, w') ∧ reliable w' ∧
    (answered w reply w' ∨ reply = IntervalPassed ∧ delay w' < delay w ∧ sameDebt w w').
Proof.
  revert w. induction n as [|n IH]; intros [c g] (outs & comp & acks & Hi) Hl Hn; cbn [fst snd] in Hi, Hn; cbn [recvFrom fst snd].
  all: destruct (ready (c_buffer c)) as [|resp rest] eqn:Hready;
    [|destruct (answered_recv _ _ _ _ _ _ _ Hi Hready) as (c' & -> & Hr & Ha); do 2 eexists; auto].
  all: assert (g_pending g ≠ []) as Hp by (eapply pending_left; [done..|]; intros Hnil;
    pose proof (load_all _ _ _ _ _ _ Hi) as Hlen; rewrite Hnil in Hlen; change (0 = load (c, g) + 0) in Hlen; lia).
  { destruct (g_pending g); [done|cbn in Hn; lia]. }
  destruct (in_open _ _ _ _ _ _ Hi) as (O1 & O2 & O3).
  assert (recvPass c = (None, c)) as -> by (unfold recvPass, isClosed; by rewrite O3, Hready, O1, O2).
  destruct (next_ok g Hp) as ([resp|] & g' & -> & He & Hv & Hnext).
  - set (c1 := consume_notify (ingest resp c)).
    destruct (debt_perm (c, g) (c1, g')) as (D1 & D2 & D3); [by eapply all_ingest|done|].
    destruct (IH (c1, g')) as (reply & w' & -> & Hw' & Hres).
    + apply reliable_notify. do 3 eexists. by eapply intact_ingest.
    + unfold load in *. by rewrite D1, D2.
    + rewrite Hnext in Hn. cbn in *. lia.
    + exists reply, w'. split; [done|]. split; [done|]. unfold answered, sameDebt in *. rewrite D1, D2, D3 in Hres.
      destruct Hres as [Hres|(-> & Hd & Hres)]; [by left|right]. split_and!; try done; try by apply Hres.
      etrans; [exact Hd|]. cbn. unfold spare. rewrite Hnext, Hv. cbn. pose proof (idle_bounded g'). lia.
  - destruct Hnext as [Hpe Hidle]. do 2 eexists. split; [done|].
    assert (all (c, g') = all (c, g)) as Hall by (unfold all; cbn; by rewrite Hpe).
    split; [|right; split_and!; [done|cbn; unfold spare; rewrite Hpe, Hv; lia|by apply debt_perm; [rewrite Hall|]..]].
    exists outs, comp, acks. destruct Hi. by split; cbn; unfold spare; rewrite ?Hall, ?Hpe, ?He, ?Hv.
Qed.

Lemma answered_same w w1 reply w' : sameDebt w w1 → answered w1 reply w' → answered w reply w'.
Proof. intros (D1 & D2 & D3). unfold answered. by rewrite D1, D2, D3. Qed.

(** The channel in front of a dispatcher is an engine. *)
#[global] Instance channelEngine : Engine (durableChannel * G).
Proof.
  split.
  - intros [c g] (outs & comp & acks & Hi). cbn [known channelState snd]. apply elem_of_difference. split.
    { apply elem_of_union. left. by apply elem_of_singleton. }
    rewrite elem_of_list_to_set. intros Hz%(in_paired _ _ _ _ _ _ Hi). apply (entries_nonzero g), (in_entries _ _ _ _ _ _ Hi). auto.
  - intros [c g] (outs & comp & acks & Hi). pose proof (in_room _ _ _ _ _ _ Hi) as Hroom. unfold all, outstanding in Hroom.
    rewrite length_app in Hroom. cbn [delay patience channelState fst snd] in *. pose proof (idle_bounded g). nia.
  - intros. by apply channel_send_wait.
  - intros. by apply channel_send_status.
  - intros. by apply channel_trigger.
  - intros w Hw Hl. destruct (settle_ok ∅ w Hw) as (Hs & Hsame & _ & Hd). cbn [w_recv channelWorld].
    destruct (recvFrom_ok (length (g_pending (settle w).2)) (settle w)) as (reply & w' & -> & Hw' & Hres); [done| |done|].
    { destruct Hsame as (D1 & D2 & _). unfold load in *. by rewrite D1, D2. }
    exists reply, w'. split; [done|]. split; [done|]. destruct Hres as [Hres|(-> & Hd' & Hsame')].
    + apply (answered_same _ _ _ _ Hsame) in Hres as [?|[?|?]]; auto.
    + right. right. left. split_and!; [done|lia|]. destruct Hsame as (D1 & D2 & D3), Hsame' as (E1 & E2 & E3).
      split_and!; congruence.
Qed.

(** A channel that was just opened, on an engine that owes nothing. *)
Lemma reliable_new g task invocation worker : g_pending g = [] → reliable (newChannel task invocation worker, g).
Proof.
  intros Hg. exists [], ∅, ∅. cbn [fst snd]. split; unfold all, outstanding; cbn; rewrite ?Hg; try done; try set_solver.
  - unfold spare. destruct (g_evicted g); vm_compute; lia.
  - unfold spare. destruct (g_evicted g); vm_compute; lia.
  - apply NoDup_nil_2.
  - apply NoDup_nil_2.
Qed.

End steps.

(** ** An engine that answers last things first *)

(** It completes an entry before it acknowledges it, and lets an interval pass between two responses.  It evicts
    the run on its first report once it has named [lf_evictAt] entries, and refuses every step after
    [lf_refuseAt]; the receive loop reads [lf_ahead] responses ahead. *)
Record lastFirst := LastFirst {
  lf_pending : list DurableTaskResponse;
  lf_count : nat;
  lf_idle : bool;
  lf_evicted : bool;
  lf_evictAt : option nat;
  lf_refuseAt : option nat;
  lf_ahead : nat;
}.

Definition reached (limit : option nat) (n : nat) : bool := match limit with Some k => k <=? n | None => false end.

Definition lf_ref (n : nat) : DurableEventLogEntryRef := LogRef "" 1 1 (Z.of_nat (S n)).

#[global] Instance lastFirst_dispatcher : Dispatcher lastFirst := {
  g_take req g :=
    match req with
    | WaitFor _ _ _ =>
        LastFirst (EntryCompleted (Some (lf_ref (lf_count g))) false "" "" :: WaitForAck (Some (lf_ref (lf_count g))) :: lf_pending g)
          (S (lf_count g)) (lf_idle g) (lf_evicted g) (lf_evictAt g) (lf_refuseAt g) (lf_ahead g)
    | WorkerStatus _ _ =>
        if negb (lf_evicted g) && reached (lf_evictAt g) (lf_count g) then
          LastFirst (ServerEvict "" 1 "blocked" :: lf_pending g) (lf_count g) (lf_idle g) true (lf_evictAt g) (lf_refuseAt g) (lf_ahead g)
        else g
    | _ => g
    end;
  g_trigger _ g :=
    if reached (lf_refuseAt g) (lf_count g) then (inr StaleInvocationError, g)
    else
      (inl (TriggerResult (Z.of_nat (S (lf_count g))) 1 0 false),
       LastFirst (EntryCompleted (Some (lf_ref (lf_count g))) false "" "" :: lf_pending g) (S (lf_count g)) (lf_idle g)
         (lf_evicted g) (lf_evictAt g) (lf_refuseAt g) (lf_ahead g));
  g_next g :=
    if lf_idle g then (None, LastFirst (lf_pending g) (lf_count g) false (lf_evicted g) (lf_evictAt g) (lf_refuseAt g) (lf_ahead g))
    else
      match lf_pending g with
      | resp :: rest => (Some resp, LastFirst rest (lf_count g) true (lf_evicted g) (lf_evictAt g) (lf_refuseAt g) (lf_ahead g))
      | [] => (None, g)
      end;
  g_ahead := lf_ahead;
  g_pending := lf_pending;
  g_entries g := list_to_set ((λ n, getRef (Some (lf_ref n))) <$> seq 0 (lf_count g));
  g_idle g := if lf_idle g then 1 else 0;
  g_patience := 1;
  g_evicted := lf_evicted;
  g_target := (""%string, 1%Z);
}.

Lemma lf_fresh n : getRef (Some (lf_ref n)) ∉ (list_to_set ((λ n, getRef (Some (lf_ref n))) <$> seq 0 n) : gset entryRef).
Proof.
  rewrite elem_of_list_to_set, list_elem_of_fmap. intros (k & Hk & Hin%elem_of_seq). injection Hk. lia.
Qed.

Lemma lf_more n :
  list_to_set ((λ n, getRef (Some (lf_ref n))) <$> seq 0 (S n)) =
    ({[getRef (Some (lf_ref n))]} ∪ list_to_set ((λ n, getRef (Some (lf_ref n))) <$> seq 0 n) : gset entryRef).
Proof. rewrite seq_S, fmap_app, list_to_set_app_L, (comm_L (∪)). f_equal. cbn -[lf_ref getRef]. by rewrite (right_id_L ∅ (∪)). Qed.

#[global] Instance lastFirst_laws : DispatcherLaws lastFirst.
Proof.
  split.
  - intros g. cbn -[lf_ref getRef]. rewrite elem_of_list_to_set, list_elem_of_fmap. intros (k & Hk & _). discriminate Hk.
  - intros g. cbn. destruct (lf_idle g); lia.
  - intros [pending n [|] v e r a] Hg; cbn in *; [by exists None, (LastFirst pending n false v e r a); split_and!; [..|cbn; lia]|].
    destruct pending as [|resp rest]; [done|]. by exists (Some resp), (LastFirst rest n true v e r a).
  - intros g task invocation conditions. exists (lf_ref (lf_count g)), false, ""%string, ""%string.
    split_and!; [apply lf_fresh|apply lf_more|done|]. apply Permutation_swap.
  - intros g worker entries. cbn. destruct (lf_evicted g) eqn:Hv; cbn; [by rewrite Hv; auto|].
    destruct (reached _ _); cbn; split_and!; try done; [|by left]. right. by exists "blocked"%string.
  - intros g args. cbn. destruct (reached _ _); [left; eauto|right].
    do 2 eexists. exists (lf_ref (lf_count g)), false, ""%string, ""%string.
    split_and!; [done|done|apply lf_fresh|apply lf_more|done|done].
Qed.

(** Two steps, the second after the first with a sleep to wait for, and an on-failure step. *)
Definition exampleHeap : gmap ptr task :=
  {[ 0 := newTask (TaskInfo "a" "w" "a" 0 [] []);
     1 := newTask (TaskInfo "b" "w" "b" 1 [0] [StepMatchCondition 1 1 "k" QUEUE 7 "" SLEEP "1s" "" ""]);
     2 := newTask (TaskInfo "f" "w" "f" 2 [] []) ]}.

Definition exampleEnv : runEnv := RunEnv 1 1 1 (λ _, ""%string) (λ _ _, Some true) (λ _, Some None).

Lemma example_wellFounded : wellFounded exampleHeap [0; 1] (Some 2) (λ p, p).
Proof.
  split.
  - intros p t Ht. unfold exampleHeap in Ht. rewrite !lookup_insert_Some, lookup_singleton_Some in Ht. by naive_solver.
  - split.
    + by repeat constructor; set_solver.
    + intros f [= <-]. set_solver.
    + intros p q Hp. assert (p = 0 ∨ p = 1) as [-> | ->] by set_solver; cbn; [by intros []%elem_of_nil|].
      intros ->%list_elem_of_singleton. split; [set_solver|lia].
Qed.

(** ** The composed run *)

Section composed.
Context {G : Type} `{HL : DispatcherLaws G}.

Lemma channel_run (E : runEnv) (heap : gmap ptr task) (tasks : list ptr)
    (onFailure : option ptr) (rank : ptr → nat) (g : G) (task worker : string) (invocation : Z) (fuel : nat) :
  g_target = (e_uuidString E (e_externalId E), e_invocationCount E) →
  wellFounded heap tasks onFailure rank → g_pending g = [] → length tasks ≤ 92 →
  2048 + 1025 * g_patience < fuel →
  ∃ res d, dagDurableTask E fuel heap tasks onFailure (newChannel task invocation worker, g) = (Some res, d) ∧
    ended tasks onFailure (infoOf heap) res d.
Proof.
  intros Ht Hwf Hg Hn Hfuel.
  apply (dag_run_live E heap tasks onFailure rank (newChannel task invocation worker, g) fuel);
    [done|done|by apply reliable_new|..].
  - cbn [owedAcks channelState]. unfold all, outstanding. cbn. by rewrite Hg.
  - cbn [owed channelState]. unfold all, outstanding. cbn. by rewrite Hg.
  - cbn [capacity channelState]. lia.
  - cbn [patience channelState]. lia.
Qed.

Lemma reliable_fits (w : durableChannel * G) : reliable w → overflowed (c_buffer w.1) = false.
Proof. intros (outs & comp & acks & Hi). by apply (in_open _ _ _ _ _ _ Hi). Qed.

(** A trigger that fails is one the engine refused, and the channel took everything that was sent before. *)
Lemma refused_by (d : dag (durableChannel * G)) err :
  refused d err →
  overflowed (c_buffer (d_world d).1) = false ∧
  ∃ args g e, g_trigger args g = (inr e, (d_world d).2) ∧ err = TriggerFailed (ta_actionId args) e.
Proof.
  intros (args & w & e & Hw & Ht & ->). cbn [w_triggerStep channelWorld] in Ht.
  destruct (settle_ok ∅ w Hw) as (Hs & _). destruct (settle w) as [c g]. cbn [fst snd] in Ht.
  destruct (g_trigger args g) as [r g'] eqn:Hg. injection Ht as -> <-. split; [|by exists args, g, e].
  by apply reliable_fits in Hs.
Qed.

End composed.

(** The example on engines that serve it, that evict it once two entries are named, and that refuse its second
    step. *)
Definition exampleRun (evictAt refuseAt : option nat) (ahead : nat) : option (option dagError) :=
  (dagDurableTask exampleEnv 3100 exampleHeap [0; 1] (Some 2)
     (newChannel "t" 1 "w", LastFirst [] 0 false false evictAt refuseAt ahead)).1.


End DagChannel.
