(* ===== verification/DagOperator.v ===== *)
(** The DAG operator (src/pkg/operator/dagoperator/operator.go) around the orchestrator: building the tasks of a
    run from the rows of its steps, the run from its first report to its last, cancellation, and the table of the
    runs that can be cancelled. *)

From S2P Require Import Prelude Workers DurableChannel DagRun.
Import Workers DurableChannel Dag.

Module DagOperator.

Open Scope Z_scope.

(** ** Rows *)

Inductive JobKind := JobKindDEFAULT | JobKindONFAILURE.

#[global] Instance JobKind_eq_dec : EqDecision JobKind.
Proof. solve_decision. Defined.

(** The columns of a step the operator reads; a null readable id reads as the empty string. *)
Record stepRow := StepRow {
  s_ID : uuid;
  s_ActionId : string;
  s_WorkflowName : string;
  s_ReadableId : string;
  s_IsDagOrchestrator : bool;
  s_JobKind : JobKind;
  s_Parents : list uuid;
}.

(** ** Building the tasks *)

(** The locals of buildDAG; a task is allocated at the next pointer. *)
Record building := Building {
  b_heap : gmap ptr task;
  b_tasksByStepId : gmap uuid ptr;
  b_tasks : list ptr;
  b_stepIds : list uuid;
  b_onFailureTask : option ptr;
  b_taskIndex : Z;
  b_next : ptr;
}.

(** The first loop. *)
Definition addStep (b : building) (s : stepRow) : building :=
  if s_IsDagOrchestrator s then b
  else
    let p := b_next b in
    let t := newTask (TaskInfo (s_ActionId s) (s_WorkflowName s) (s_ReadableId s) (to_int32 (b_taskIndex b)) [] []) in
    let heap := <[p := t]> (b_heap b) in
    if bool_decide (s_JobKind s = JobKindONFAILURE) then
      Building heap (b_tasksByStepId b) (b_tasks b) (b_stepIds b) (Some p) (b_taskIndex b + 1) (S p)
    else
      Building heap (<[s_ID s := p]> (b_tasksByStepId b)) (b_tasks b ++ [p]) (b_stepIds b ++ [s_ID s])
        (b_onFailureTask b) (b_taskIndex b + 1) (S p).

Definition with_info (i : taskInfo) (t : task) : task :=
  match t with
  | Task _ f1 f2 f3 f4 f5 f6 f7 f8 f9 f10 f11 f12 f13 f14 => Task i f1 f2 f3 f4 f5 f6 f7 f8 f9 f10 f11 f12 f13 f14
  end.

Definition appendParent (q : ptr) (t : task) : task :=
  let i := t_info t in
  with_info (TaskInfo (i_actionId i) (i_workflowName i) (i_readableId i) (i_index i) (i_parents i ++ [q])
    (i_stepConditions i)) t.
Definition appendCondition (c : V1StepMatchCondition) (t : task) : task :=
  let i := t_info t in
  with_info (TaskInfo (i_actionId i) (i_workflowName i) (i_readableId i) (i_index i) (i_parents i)
    (i_stepConditions i ++ [c])) t.

Definition addParent (byStep : gmap uuid ptr) (p : ptr) (heap : gmap ptr task) (parentId : uuid) : gmap ptr task :=
  match byStep !! parentId with Some q => alter (appendParent q) p heap | None => heap end.

(** The second loop. *)
Definition addParents (byStep : gmap uuid ptr) (heap : gmap ptr task) (s : stepRow) : gmap ptr task :=
  match byStep !! s_ID s with
  | None => heap
  | Some p => foldl (addParent byStep p) heap (s_Parents s)
  end.

(** The third loop. *)
Definition addCondition (byStep : gmap uuid ptr) (heap : gmap ptr task) (c : V1StepMatchCondition) : gmap ptr task :=
  match byStep !! mc_StepID c with Some p => alter (appendCondition c) p heap | None => heap end.

Inductive buildError := MissingVersionId | InvalidVersionId | StepsNotListed | ConditionsNotListed.

Record builtDag := BuiltDag { bd_heap : gmap ptr task; bd_tasks : list ptr; bd_onFailureTask : option ptr }.

(** [listSteps] and [listConditions] are the replies of the repository, [parse] is uuid.Parse. *)
Definition buildDAG (parse : string → option uuid) (listSteps : uuid → option (list stepRow))
    (listConditions : list uuid → option (list V1StepMatchCondition)) (versionIdStr : string) : builtDag + buildError :=
  if bool_decide (versionIdStr = ""%string) then inr MissingVersionId
  else
    match parse versionIdStr with
    | None => inr InvalidVersionId
    | Some versionId =>
        match listSteps versionId with
        | None => inr StepsNotListed
        | Some steps =>
            let b := foldl addStep (Building ∅ ∅ [] [] None 0 0%nat) steps in
            let byStep := b_tasksByStepId b in
            let heap := foldl (addParents byStep) (b_heap b) steps in
            match b_stepIds b with
            | [] => inl (BuiltDag heap (b_tasks b) (b_onFailureTask b))
            | _ =>
                match listConditions (b_stepIds b) with
                | None => inr ConditionsNotListed
                | Some conditions =>
                    inl (BuiltDag (foldl (addCondition byStep) heap conditions) (b_tasks b) (b_onFailureTask b))
                end
            end
        end
    end.

(** ** Errors of a run *)

Inductive runError :=
  | InvalidRunId
  | CouldNotBuild (e : buildError)
  | VersionIdNotParsed
  | CouldNotOpen
  | DagFailed (e : dagError)
  | MissingInsertedAt
  | OutputsNotFetched.

Definition isDagCancelledErr (e : dagError) : bool := match e with dagCancelledError _ => true | _ => false end.
Definition isDagChildFailedErr (e : dagError) : bool := match e with dagChildFailedError _ _ => true | _ => false end.
Definition isDagEngineErr (e : dagError) : bool := match e with dagEngineError _ _ => true | _ => false end.
Definition isDagEvictedErr (e : dagError) : bool :=
  match e with dagEvictedError _ | TriggerFailed _ StaleInvocationError => true | _ => false end.
Definition isNonDeterminismErr (e : dagError) : bool :=
  match e with TriggerFailed _ (NonDeterminismError _) => true | _ => false end.
(** [classes] are the three predicates of pgerrcode on the code. *)
Definition isDagNonRetryablePgErr (classes : string → bool) (e : dagError) : bool :=
  match e with TriggerFailed _ (PgError code) => classes code | _ => false end.
(** [errors.Is(err, context.Canceled)]. *)
Definition isCanceled (e : dagError) : bool :=
  match e with
  | RunInterrupted | TriggerFailed _ ContextCanceled | AwaitFailed _ CtxErr | SendFailed CtxErr | SessionClosed CtxErr => true
  | _ => false
  end.

(** The Error method of a DAGStepCELFailureError; [quote] is the verb %q. *)
Definition celFailureMessage (quote : string → string) (actionId message : string) : string :=
  ("dag step trigger for " +:+ quote actionId +:+ " did not create its child run: " +:+ message)%string.

Definition clientErrorMessageForDagErr (quote : string → string) (e : dagError) : option string :=
  match e with
  | dagChildFailedError _ message => Some message
  | dagCancelledError _ => Some TaskCancelledErrorMessage
  | TriggerFailed actionId (DAGStepCELFailureError message) => Some (celFailureMessage quote actionId message)
  | TriggerFailed _ (NonDeterminismError message) => Some message
  | dagEngineError errorType message =>
      if bool_decide (errorType = ERROR_TYPE_NONDETERMINISM) then Some message else None
  | _ => None
  end.

(** ** Reports *)

(** What a run tells the engine. *)
Inductive report :=
  | ReportStarted
  | ReportCompleted (output : string)
  | ReportFailed (message : string) (shouldNotRetry : bool)
  | ReportCancelled (message : string)
  | CancelChildren (externalIds : list uuid).

(** The value of a step in the output of the run. *)
Inductive outputValue := OutputSkipped | OutputCancelled | OutputRaw (result : string).

(** One durable event log entry of a task, and the events the repository returns for them. *)
Record durableRef := DurableRef { dr_TaskExternalId : uuid; dr_NodeId : Z; dr_BranchId : Z }.

#[global] Instance durableRef_eq_dec : EqDecision durableRef.
Proof. solve_decision. Defined.
#[global] Instance durableRef_countable : Countable durableRef.
Proof.
  refine (inj_countable' (λ r, (dr_TaskExternalId r, dr_NodeId r, dr_BranchId r)) (λ p, DurableRef p.1.1 p.1.2 p.2) _).
  by intros [].
Defined.

Record SatisfiedEventWithPayload := SatisfiedEvent { se_ref : durableRef; se_Result : string }.

(** The fields of an action a run reads. *)
Record AssignedAction := Action {
  a_TaskRunExternalId : string;
  a_WorkflowVersionId : string;
  a_DurableTaskInvocationCount : Z;
  a_TaskInsertedAt : option Z;
}.

(** ** The run *)

(** How run returns: without an error, or with the error of its last report. *)
Inductive runReturn := Returned | CompletionNotReported | CancellationNotReported.

(** What a run is given.  [o_open] is the reply of OpenDurable, [o_runCtxErr] that the context of the run is done
    when it failed, and [o_ctxErr] that the operator is shutting down when a cancellation is handled;
    [o_satisfied] is the reply of GetSatisfiedDurableEvents, [o_marshal] json.Marshal of the output and
    [o_reported] whether a report is taken. *)
Record operatorEnv (W : Type) := OperatorEnv {
  o_parse : string → option uuid;
  o_listSteps : uuid → option (list stepRow);
  o_listConditions : list uuid → option (list V1StepMatchCondition);
  o_open : uuid → Z → option W;
  o_runCtxErr : bool;
  o_ctxErr : bool;
  o_satisfied : list durableRef → option (list SatisfiedEventWithPayload);
  o_marshal : gmap string outputValue → option string;
  o_reported : report → bool;
  o_pgClasses : string → bool;
  o_quote : string → string;
  o_workerId : uuid;
  o_uuidString : uuid → string;
  o_evalBoolExpr : string → jsonObject → option bool;
  o_unmarshal : string → option (option jsonObject);
}.
#[global] Arguments OperatorEnv {_}.
#[global] Arguments o_parse {_} _.
#[global] Arguments o_listSteps {_} _.
#[global] Arguments o_listConditions {_} _.
#[global] Arguments o_open {_} _.
#[global] Arguments o_runCtxErr {_} _.
#[global] Arguments o_ctxErr {_} _.
#[global] Arguments o_satisfied {_} _.
#[global] Arguments o_marshal {_} _.
#[global] Arguments o_reported {_} _.
#[global] Arguments o_pgClasses {_} _.
#[global] Arguments o_quote {_} _.
#[global] Arguments o_workerId {_} _.
#[global] Arguments o_uuidString {_} _.
#[global] Arguments o_evalBoolExpr {_} _.
#[global] Arguments o_unmarshal {_} _.

Section run.
Context {W : Type} {world : World W} (O : operatorEnv W).

Definition internalMessage (a : AssignedAction) : string :=
  ("internal error while orchestrating the dag run (task run " +:+ a_TaskRunExternalId a +:+ ")")%string.

(** The error of a report that fails is only logged. *)
Definition fail (a : AssignedAction) (e : runError) (shouldNotRetry : bool) : list report * runReturn :=
  let message :=
    match e with
    | DagFailed e => default (internalMessage a) (clientErrorMessageForDagErr (o_quote O) e)
    | _ => internalMessage a
    end in
  ([ReportFailed message shouldNotRetry], Returned).

Definition cancelDAG (msg : string) : list report * runReturn :=
  ([ReportCancelled msg], if o_reported O (ReportCancelled msg) then Returned else CancellationNotReported).

Definition runningChildren (tasks : list task) : list uuid :=
  omap (λ t, if t_isTriggered t && negb (t_isCompleted t) then t_workflowRunExternalId t else None) tasks.

Definition handleRunCancellation (tasks : list task) : list report * runReturn :=
  if o_ctxErr O then ([], Returned)
  else
    let children := runningChildren tasks in
    let '(reports, ret) := cancelDAG TaskCancelledErrorMessage in
    (match children with [] => [] | _ => [CancelChildren children] end ++ reports, ret).

(** The locals of the loop over the tasks of a run that succeeded. *)
Record collected := Collected {
  co_output : gmap string outputValue;
  co_completedRefs : list durableRef;
  co_refToReadableId : gmap durableRef string;
}.

Definition collectTask (externalId : uuid) (c : collected) (t : task) : collected :=
  let id := i_readableId (t_info t) in
  if t_isSkipped t then Collected (<[id := OutputSkipped]> (co_output c)) (co_completedRefs c) (co_refToReadableId c)
  else if t_isCancelled t then
    Collected (<[id := OutputCancelled]> (co_output c)) (co_completedRefs c) (co_refToReadableId c)
  else
    let ref := DurableRef externalId (t_nodeId t) (t_branchId t) in
    Collected (co_output c) (co_completedRefs c ++ [ref]) (<[ref := id]> (co_refToReadableId c)).

Definition addEvent (refs : gmap durableRef string) (output : gmap string outputValue) (ev : SatisfiedEventWithPayload) :
    gmap string outputValue :=
  match refs !! se_ref ev with Some id => <[id := OutputRaw (se_Result ev)]> output | None => output end.

Definition finish (output : gmap string outputValue) : list report * runReturn :=
  let r := ReportCompleted (default "{}"%string (o_marshal O output)) in
  ([r], if o_reported O r then Returned else CompletionNotReported).

Definition complete (a : AssignedAction) (externalId : uuid) (tasks : list task) : list report * runReturn :=
  let c := foldl (collectTask externalId) (Collected ∅ [] ∅) tasks in
  match co_completedRefs c with
  | [] => finish (co_output c)
  | refs =>
      match a_TaskInsertedAt a with
      | None => fail a MissingInsertedAt false
      | Some _ =>
          match o_satisfied O refs with
          | None => fail a OutputsNotFetched false
          | Some events => finish (foldl (addEvent (co_refToReadableId c)) (co_output c) events)
          end
      end
  end.

(** What a run reports for the error of the orchestrator. *)
Definition reportError (a : AssignedAction) (tasks : list task) (e : dagError) : list report * runReturn :=
  if isDagEvictedErr e then ([], Returned)
  else if isDagCancelledErr e then cancelDAG TaskCancelledErrorMessage
  else if isCanceled e then handleRunCancellation tasks
  else
    fail a (DagFailed e)
      (isDagChildFailedErr e || isDagEngineErr e || isDagNonRetryablePgErr (o_pgClasses O) e || isNonDeterminismErr e).

(** After the tasks are built; None is that the fuel of the orchestrator ran out. *)
Definition runBuilt (fuel : nat) (a : AssignedAction) (externalId : uuid) (built : builtDag) :
    option (list report * runReturn) :=
  match o_parse O (a_WorkflowVersionId a) with
  | None => Some (fail a VersionIdNotParsed false)
  | Some _ =>
      match o_open O externalId (a_DurableTaskInvocationCount a) with
      | None => Some (if o_runCtxErr O then handleRunCancellation [] else fail a CouldNotOpen false)
      | Some w =>
          let E := RunEnv externalId (o_workerId O) (a_DurableTaskInvocationCount a) (o_uuidString O) (o_evalBoolExpr O)
            (o_unmarshal O) in
          let '(res, d) := dagDurableTask E fuel (bd_heap built) (bd_tasks built) (bd_onFailureTask built) w in
          let triggeredOnFailure :=
            match bd_onFailureTask built with Some f => if t_isTriggered (task_at f d) then [f] else [] | None => [] end in
          let tasks := (λ p, task_at p d) <$> (bd_tasks built ++ triggeredOnFailure) in
          match res with
          | None => None
          | Some (Some e) => Some (reportError a tasks e)
          | Some None => Some (complete a externalId tasks)
          end
      end
  end.

(** STARTED is reported, whether or not the report is taken, before anything else is once the id is parsed. *)
Definition run (fuel : nat) (a : AssignedAction) : option (list report * runReturn) :=
  match o_parse O (a_TaskRunExternalId a) with
  | None => Some (fail a InvalidRunId false)
  | Some externalId =>
      let started := λ r : list report * runReturn, (ReportStarted :: r.1, r.2) in
      match buildDAG (o_parse O) (o_listSteps O) (o_listConditions O) (a_WorkflowVersionId a) with
      | inr e => Some (started (fail a (CouldNotBuild e) false))
      | inl built => started <$> runBuilt fuel a externalId built
      end
  end.
End run.

(** ** The runs that can be cancelled *)

(** The table runCancels: the run of a task that is registered, by the invocation that registered it.  A run
    registers itself under its task, and removes the task when it ends. *)
Inductive runEvent := RunStarts (task : string) (invocation : Z) | RunEnds (task : string) (invocation : Z) | CancelAction (task : string).

Inductive cancelOutcome := RunCancelled (invocation : Z) | ReportedCancelled.

(** cancelRun: the run whose context is cancelled, or the report in its place. *)
Definition cancelRun (task : string) (runCancels : gmap string Z) : cancelOutcome :=
  match runCancels !! task with Some invocation => RunCancelled invocation | None => ReportedCancelled end.

Definition runCancelsStep (s : gmap string Z * list cancelOutcome) (e : runEvent) : gmap string Z * list cancelOutcome :=
  match e with
  | RunStarts task invocation => (<[task := invocation]> s.1, s.2)
  | RunEnds task _ => (delete task s.1, s.2)
  | CancelAction task => (s.1, s.2 ++ [cancelRun task s.1])
  end.

(** ** Slots *)

Definition resolveSlots (cfgSlots defaultSlots : Z) : Z := if 0 <? cfgSlots then cfgSlots else defaultSlots.

End DagOperator.
