(* ===== verification/DagOperatorTheorems.v ===== *)
(** The DAG operator: the tasks buildDAG makes are well formed, a run reports one terminal outcome, and the whole
    path from the rows of the steps through the orchestrator and the channel to the last report. *)

From S2P Require Import Prelude Workers DurableChannel DurableTheorems DagRun DagSafety DagEngine DagProgress DagTheorems DagChannel DagOperator.
Import Workers DurableChannel DurableTheorems Dag DagSafety DagEngine DagProgress DagTheorems DagChannel DagOperator.

Module DagOperatorTheorems.

Open Scope nat_scope.

(** ** The tasks of a run *)

(** The first loop allocates a task per row, at consecutive pointers. *)
Record stepsAdded (b : building) : Prop := {
  sa_heap : ∀ p, is_Some (b_heap b !! p) ↔ p < b_next b;
  sa_new : ∀ p t, b_heap b !! p = Some t → t = newTask (t_info t) ∧ i_parents (t_info t) = [];
  sa_tasks : NoDup (b_tasks b) ∧ ∀ p, p ∈ b_tasks b → p < b_next b;
  sa_byStep : ∀ id p, b_tasksByStepId b !! id = Some p → p ∈ b_tasks b;
  sa_inj : ∀ id id' p, b_tasksByStepId b !! id = Some p → b_tasksByStepId b !! id' = Some p → id = id';
  sa_onFailure : ∀ f, b_onFailureTask b = Some f → f < b_next b ∧ f ∉ b_tasks b;
}.

Lemma stepsAdded_addStep b s : stepsAdded b → stepsAdded (addStep b s).
Proof.
  intros Hb. unfold addStep. destruct (s_IsDagOrchestrator s); [done|]. destruct Hb as [H1 H2 [H3 H3'] H4 H5 H6].
  set (t := newTask _). assert (∀ p, is_Some (<[b_next b := t]> (b_heap b) !! p) ↔ p < S (b_next b)) as Hheap.
  { intros p. rewrite lookup_insert_is_Some, H1. lia. }
  assert (∀ p t', <[b_next b := t]> (b_heap b) !! p = Some t' → t' = newTask (t_info t') ∧ i_parents (t_info t') = []) as Hnew.
  { intros p t' [[_ <-]|[_ Hp]]%lookup_insert_Some; [done|by eapply H2]. }
  assert (b_next b ∉ b_tasks b) as Hfresh by (intros Hx%H3'; lia).
  case_bool_decide; split; cbn; try done.
  - split; [done|]. intros p Hp%H3'. lia.
  - intros f [= <-]. split; [lia|done].
  - split.
    + apply NoDup_app. split_and!; [done| |apply NoDup_singleton]. by intros p Hp ->%list_elem_of_singleton.
    + intros p [Hp%H3'| ->%list_elem_of_singleton]%elem_of_app; lia.
  - intros id p [[_ <-]|[_ Hp]]%lookup_insert_Some; apply elem_of_app; [right; constructor|left; by eapply H4].
  - intros id id' p [[Hi <-]|[Hi Hp]]%lookup_insert_Some [[Hj Hq]|[Hj Hq]]%lookup_insert_Some; [congruence|..].
    + by destruct Hfresh; eapply H4.
    + subst p. by destruct Hfresh; eapply H4.
    + by eapply H5.
  - intros f Hf. destruct (H6 f Hf) as [Hlt Hn]. split; [lia|]. intros [Hx| ->%list_elem_of_singleton]%elem_of_app; [done|lia].
Qed.

Lemma stepsAdded_foldl steps b : stepsAdded b → stepsAdded (foldl addStep b steps).
Proof. revert b. induction steps as [|s steps IH]; intros b Hb; [done|]. by apply IH, stepsAdded_addStep. Qed.

Lemma stepsAdded_start : stepsAdded (Building ∅ ∅ [] [] None 0 0).
Proof.
  split; cbn; try done.
  - intros p. rewrite lookup_empty. split; [by intros [] | lia].
  - split; [apply NoDup_nil_2|]. intros p Hp. by apply elem_of_nil in Hp.
Qed.

(** There is a task for every row that is neither the orchestrator's nor an on-failure step's. *)
Definition isStep (s : stepRow) : bool := negb (s_IsDagOrchestrator s) && bool_decide (s_JobKind s ≠ JobKindONFAILURE).

Lemma addStep_tasks b s : length (b_tasks (addStep b s)) = length (b_tasks b) + (if isStep s then 1 else 0).
Proof.
  unfold addStep, isStep. destruct (s_IsDagOrchestrator s); cbn; [lia|].
  repeat case_bool_decide; cbn; rewrite ?length_app; cbn; try lia; done.
Qed.

Lemma foldl_addStep_tasks steps b :
  length (b_tasks (foldl addStep b steps)) = length (b_tasks b) + length (List.filter isStep steps).
Proof.
  revert b. induction steps as [|s steps IH]; intros b; cbn; [lia|]. rewrite IH, addStep_tasks.
  destruct (isStep s); cbn; lia.
Qed.

(** The parents the second loop appends. *)
Definition parentOf (steps : list stepRow) (byStep : gmap uuid ptr) (p q : ptr) : Prop :=
  ∃ s id, s ∈ steps ∧ id ∈ s_Parents s ∧ byStep !! s_ID s = Some p ∧ byStep !! id = Some q.

(** The heap under the second and the third loop: still new tasks, at the same pointers. *)
Record linked (steps : list stepRow) (byStep : gmap uuid ptr) (heap0 heap : gmap ptr task) : Prop := {
  ln_same : ∀ p, is_Some (heap !! p) ↔ is_Some (heap0 !! p);
  ln_new : ∀ p t, heap !! p = Some t → t = newTask (t_info t);
  ln_parents : ∀ p t q, heap !! p = Some t → q ∈ i_parents (t_info t) → parentOf steps byStep p q;
  ln_ids : ∀ p t0 t, heap0 !! p = Some t0 → heap !! p = Some t →
    i_actionId (t_info t) = i_actionId (t_info t0) ∧ i_readableId (t_info t) = i_readableId (t_info t0);
}.

Lemma linked_alter steps byStep heap0 heap p f :
  (∀ t, t = newTask (t_info t) → f t = newTask (t_info (f t))) →
  (∀ t q, q ∈ i_parents (t_info (f t)) → q ∈ i_parents (t_info t) ∨ parentOf steps byStep p q) →
  (∀ t, i_actionId (t_info (f t)) = i_actionId (t_info t) ∧ i_readableId (t_info (f t)) = i_readableId (t_info t)) →
  linked steps byStep heap0 heap → linked steps byStep heap0 (alter f p heap).
Proof.
  intros Hf Hp Hid [H1 H2 H3 H4]. split.
  - intros x. by rewrite lookup_alter_is_Some.
  - intros x t [(-> & t' & Ht & ->)|[_ Ht]]%lookup_alter_Some; [|by eapply H2]. apply Hf. by eapply H2.
  - intros x t q [(-> & t' & Ht & ->)|[_ Ht]]%lookup_alter_Some Hq; [|by eapply H3].
    apply Hp in Hq as [Hq|Hq]; [by eapply H3|done].
  - intros x t0 t H0 [(-> & t' & Ht & ->)|[_ Ht]]%lookup_alter_Some; [|by eapply H4].
    destruct (Hid t') as [-> ->]. by eapply H4.
Qed.

Lemma linked_parents steps byStep heap0 rest heap :
  (∀ s, s ∈ rest → s ∈ steps) → linked steps byStep heap0 heap →
  linked steps byStep heap0 (foldl (addParents byStep) heap rest).
Proof.
  revert heap. induction rest as [|s rest IH]; intros heap Hrest Hh; [done|]. cbn. apply IH.
  { intros x Hx. apply Hrest. by constructor. }
  unfold addParents. destruct (byStep !! s_ID s) as [p|] eqn:Hp; [|done].
  assert (∀ id, id ∈ s_Parents s → id ∈ s_Parents s) as Hin by done. revert Hin. generalize (s_Parents s) at 1 3.
  intros ids. revert heap Hh. induction ids as [|id ids IHids]; intros heap Hh Hin; [done|]. cbn. apply IHids.
  - unfold addParent. destruct (byStep !! id) as [q|] eqn:Hq; [|done]. apply linked_alter; [by intros t ->| |by intros []|done].
    intros t q'. destruct t. cbn. rewrite elem_of_app, list_elem_of_singleton. intros [?| ->]; [by left|right].
    exists s, id. split_and!; [apply Hrest; constructor|apply Hin; constructor|done..].
  - intros x Hx. apply Hin. by constructor.
Qed.

Lemma linked_conditions steps byStep heap0 conds heap :
  linked steps byStep heap0 heap → linked steps byStep heap0 (foldl (addCondition byStep) heap conds).
Proof.
  revert heap. induction conds as [|c conds IH]; intros heap Hh; [done|]. cbn. apply IH.
  unfold addCondition. destruct (byStep !! mc_StepID c) as [p|]; [|done]. apply linked_alter; [by intros t ->| |by intros []|done].
  intros t q. destruct t. cbn. by left.
Qed.

(** What buildDAG returns. *)
Lemma buildDAG_inv parse listSteps listConditions version built :
  buildDAG parse listSteps listConditions version = inl built →
  ∃ versionId steps b, parse version = Some versionId ∧ listSteps versionId = Some steps ∧
    b = foldl addStep (Building ∅ ∅ [] [] None 0 0) steps ∧ stepsAdded b ∧
    bd_tasks built = b_tasks b ∧ bd_onFailureTask built = b_onFailureTask b ∧
    linked steps (b_tasksByStepId b) (b_heap b) (bd_heap built).
Proof.
  unfold buildDAG. case_bool_decide; [done|]. destruct (parse version) as [versionId|]; [|done].
  destruct (listSteps versionId) as [steps|] eqn:Hsteps; [|done]. set (b := foldl addStep _ steps).
  assert (stepsAdded b) as Hb by apply stepsAdded_foldl, stepsAdded_start.
  assert (linked steps (b_tasksByStepId b) (b_heap b) (foldl (addParents (b_tasksByStepId b)) (b_heap b) steps)) as Hl.
  { apply linked_parents; [done|]. split; [done|by intros p t Ht; eapply sa_new|..].
    - intros p t q Ht Hq. destruct (sa_new b Hb p t Ht) as [_ Hn]. rewrite Hn in Hq. by apply elem_of_nil in Hq.
    - by intros p t0 t -> [= <-]. }
  intros Hbuilt. exists versionId, steps, b. destruct (b_stepIds b); [injection Hbuilt as <-; by split_and!|].
  destruct (listConditions _) as [conds|]; [|done]. injection Hbuilt as <-. split_and!; try done.
  by apply linked_conditions.
Qed.

(** C32: whatever rows and conditions the repository returns, a DAG that buildDAG returns is well formed: one distinct
    task per row that is neither the orchestrator's nor an on-failure step's, every parent link and the on-failure
    task lead to tasks of the run, the on-failure task is not one of the tasks that are gated by their parents, it
    has no parents itself, and every task starts in its zero state. *)
Theorem build_well_formed parse listSteps listConditions (version : string) (built : builtDag) :
  buildDAG parse listSteps listConditions version = inl built →
  newHeap (bd_heap built) ∧ NoDup (bd_tasks built) ∧
  (∀ p, p ∈ bd_tasks built ++ option_list (bd_onFailureTask built) → is_Some (bd_heap built !! p)) ∧
  (∀ p q, q ∈ i_parents (infoOf (bd_heap built) p) → p ∈ bd_tasks built ∧ q ∈ bd_tasks built) ∧
  (∀ f, bd_onFailureTask built = Some f → f ∉ bd_tasks built) ∧
  (∀ versionId steps, parse version = Some versionId → listSteps versionId = Some steps →
    length (bd_tasks built) = length (List.filter isStep steps)).
Proof.
  intros (versionId & steps & b & Hv & Hs & Hb' & Hb & -> & -> & Hl)%buildDAG_inv.
  destruct Hb as [H1 H2 [H3 H3'] H4 H5 H6], Hl as [L1 L2 L3 _]. split_and!; try done.
  - intros p [Hp%H3'|Hp]%elem_of_app; [by apply L1, H1|]. apply L1, H1.
    destruct (b_onFailureTask b) as [f|]; [|by apply elem_of_nil in Hp]. apply list_elem_of_singleton in Hp as ->. by apply H6.
  - intros p q Hq. unfold infoOf in Hq. destruct (bd_heap built !! p) as [t|] eqn:Ht; cbn in Hq; [|by apply elem_of_nil in Hq].
    destruct (L3 _ _ _ Ht Hq) as (s & id & _ & _ & Hp & Hq'). split; by eapply H4.
  - intros f Hf. by apply H6.
  - intros v' steps' Hv' Hs'. assert (steps' = steps) as -> by congruence. subst b. by rewrite foldl_addStep_tasks.
Qed.

Definition exampleSteps : list stepRow :=
  [StepRow 10 "wf_orchestrator" "wf" "orchestrator" true JobKindDEFAULT [];
   StepRow 1 "wf:a" "wf" "a" false JobKindDEFAULT [];
   StepRow 2 "wf:b" "wf" "b" false JobKindDEFAULT [1%Z];
   StepRow 3 "wf:on-failure" "wf" "on-failure" false JobKindONFAILURE []].

Definition exampleParse (s : string) : option uuid :=
  if bool_decide (s = "run"%string) then Some 7%Z else if bool_decide (s = "version"%string) then Some 8%Z else None.

Definition exampleOperator : operatorEnv (durableChannel * lastFirst) :=
  OperatorEnv exampleParse (λ _, Some exampleSteps) (λ _, Some [])
    (λ _ _, Some (newChannel "run" 1 "worker", LastFirst [] 0 false false None None 2)) false false
    (λ refs, Some ((λ r, SatisfiedEvent r "{}") <$> refs)) (λ _, Some "{}"%string) (λ _, true) (λ _, false) (λ s, s) 1%Z
    (λ _, ""%string) (λ _ _, Some true) (λ _, Some None).

Definition exampleAction : AssignedAction := Action "run" "version" 1 (Some 5%Z).

Lemma build_well_formed_witness :
  ∃ built, buildDAG exampleParse (λ _, Some exampleSteps) (λ _, Some []) "version" = inl built ∧
    bd_tasks built = [0; 1] ∧ bd_onFailureTask built = Some 2 ∧
    newHeap (bd_heap built) ∧ NoDup (bd_tasks built) ∧
    (∀ p, p ∈ bd_tasks built ++ option_list (bd_onFailureTask built) → is_Some (bd_heap built !! p)) ∧
    (∀ p q, q ∈ i_parents (infoOf (bd_heap built) p) → p ∈ bd_tasks built ∧ q ∈ bd_tasks built) ∧
    (∀ f, bd_onFailureTask built = Some f → f ∉ bd_tasks built) ∧
    (∀ versionId steps, exampleParse "version" = Some versionId → Some exampleSteps = Some steps →
      length (bd_tasks built) = length (List.filter isStep steps)).
Proof.
  eexists. split; [vm_compute; reflexivity|]. split; [reflexivity|]. split; [reflexivity|].
  apply (build_well_formed exampleParse (λ _, Some exampleSteps) (λ _, Some []) "version"). vm_compute. reflexivity.
Defined.

(** ** One terminal report *)

Definition isTerminal (r : report) : bool :=
  match r with ReportCompleted _ | ReportFailed _ _ | ReportCancelled _ => true | ReportStarted | CancelChildren _ => false end.

(** The reports of a run after it is started: one terminal report, which a request to cancel children may precede
    when it is a cancellation; or none. *)
Inductive oneOutcome : list report → Prop :=
  | outcome_terminal r : isTerminal r = true → oneOutcome [r]
  | outcome_cancelled ids msg : ids ≠ [] → oneOutcome [CancelChildren ids; ReportCancelled msg].

Section reports.
Context {W : Type} {world : World W} (O : operatorEnv W).

Lemma fail_outcome a e b : oneOutcome (fail O a e b).1.
Proof. by constructor. Qed.

Lemma cancellation_outcome tasks :
  (o_ctxErr O = false ∧ oneOutcome (handleRunCancellation O tasks).1) ∨
  (o_ctxErr O = true ∧ (handleRunCancellation O tasks).1 = []).
Proof.
  unfold handleRunCancellation. destruct (o_ctxErr O); [by right|left]. split; [done|]. cbn.
  destruct (runningChildren tasks) eqn:Hc; cbn; constructor; done.
Qed.

Lemma complete_outcome a externalId tasks : oneOutcome (complete O a externalId tasks).1.
Proof. unfold complete. repeat case_match; cbn; by constructor. Qed.

Lemma reportError_outcome a tasks e :
  oneOutcome (reportError O a tasks e).1 ∨
  ((reportError O a tasks e).1 = [] ∧ (isDagEvictedErr e = true ∨ isCanceled e = true ∧ o_ctxErr O = true)).
Proof.
  unfold reportError. destruct (isDagEvictedErr e) eqn:He; [right; auto|].
  destruct (isDagCancelledErr e); [left; by constructor|]. destruct (isCanceled e) eqn:Hc; [|left; by constructor].
  destruct (cancellation_outcome tasks) as [[_ ?]|[? ?]]; [by left|right; auto].
Qed.

(** The orchestrator of a run returned this error. *)
Definition orchestratedTo (fuel : nat) (a : AssignedAction) (e : dagError) : Prop :=
  ∃ externalId built w d, o_parse O (a_TaskRunExternalId a) = Some externalId ∧
    buildDAG (o_parse O) (o_listSteps O) (o_listConditions O) (a_WorkflowVersionId a) = inl built ∧
    o_open O externalId (a_DurableTaskInvocationCount a) = Some w ∧
    dagDurableTask (RunEnv externalId (o_workerId O) (a_DurableTaskInvocationCount a) (o_uuidString O) (o_evalBoolExpr O)
      (o_unmarshal O)) fuel (bd_heap built) (bd_tasks built) (bd_onFailureTask built) w = (Some (Some e), d).

(** A run ends with one terminal report, which is its last: completed, failed or cancelled.  It ends without one
    only when it was evicted or superseded by a newer invocation, or when the operator is shutting down and the
    run was interrupted; the task then belongs to whoever takes it up next.  STARTED precedes everything else, and
    children are cancelled only ahead of a cancellation. *)
Theorem run_reports_once (fuel : nat) (a : AssignedAction) (log : list report) (ret : runReturn) :
  run O fuel a = Some (log, ret) →
  (∃ message, log = [ReportFailed message false]) ∨
  (∃ rest, log = ReportStarted :: rest ∧ oneOutcome rest) ∨
  (log = [ReportStarted] ∧
    (o_ctxErr O = true ∨ ∃ e, orchestratedTo fuel a e ∧ isDagEvictedErr e = true)).
Proof.
  unfold run. destruct (o_parse O (a_TaskRunExternalId a)) as [externalId|] eqn:Hid.
  2: { intros [= <- _]. left. eauto. }
  destruct (buildDAG _ _ _ _) as [built|e] eqn:Hb.
  2: { intros [= <- _]. right. left. eexists. split; [done|]. by constructor. }
  unfold runBuilt. destruct (o_parse O (a_WorkflowVersionId a)) as [v|].
  2: { intros [= <- _]. right. left. eexists. split; [done|]. by constructor. }
  destruct (o_open O _ _) as [w|] eqn:Hw.
  2: { destruct (o_runCtxErr O); intros [= <- _]; [|right; left; eexists; split; [done|]; by constructor].
       destruct (cancellation_outcome []) as [[_ ?]|[? ->]]; [right; left; eauto|auto]. }
  destruct (dagDurableTask _ _ _ _ _ _) as [[[e|]|] d] eqn:Hd; [| |done]; intros [= <- _]; right.
  - destruct (reportError_outcome a ((λ p, task_at p d) <$>
      bd_tasks built ++ match bd_onFailureTask built with Some f => if t_isTriggered (task_at f d) then [f] else [] | None => [] end) e)
      as [?|[-> [He|[_ Hc]]]]; [left; eauto|right; split; [done|]..]; [right|by left].
    exists e. split; [|done]. by exists externalId, built, w, d.
  - left. eexists. split; [done|]. apply complete_outcome.
Qed.
End reports.

Lemma run_reports_once_witness :
  run exampleOperator 3100 exampleAction = Some ([ReportStarted; ReportCompleted "{}"], Returned) ∧
  ((∃ message, [ReportStarted; ReportCompleted "{}"] = [ReportFailed message false]) ∨
   (∃ rest, [ReportStarted; ReportCompleted "{}"] = ReportStarted :: rest ∧ oneOutcome rest) ∨
   ([ReportStarted; ReportCompleted "{}"] = [ReportStarted] ∧
     (o_ctxErr exampleOperator = true ∨
      ∃ e, orchestratedTo exampleOperator 3100 exampleAction e ∧ isDagEvictedErr e = true))).
Proof.
  assert (run exampleOperator 3100 exampleAction = Some ([ReportStarted; ReportCompleted "{}"], Returned)) as Hrun
    by (vm_compute; reflexivity).
  split; [exact Hrun|]. exact (run_reports_once exampleOperator 3100 exampleAction _ _ Hrun).
Defined.

(** ** From the rows to the last report *)

Lemma Forall2_weaken {A B} (P Q : A → B → Prop) l k :
  (∀ x y, x ∈ l → P x y → Q x y) → Forall2 P l k → Forall2 Q l k.
Proof. intros HPQ HP. induction HP; constructor; [apply HPQ; [constructor|done]|apply IHHP; intros; apply HPQ; [by constructor|done]]. Qed.

(** The tasks of the rows, in their order. *)
Definition taskOfRow (heap : gmap ptr task) (p : ptr) (s : stepRow) : Prop :=
  i_actionId (infoOf heap p) = s_ActionId s ∧ i_readableId (infoOf heap p) = s_ReadableId s.

Lemma rows_addStep b s done :
  stepsAdded b → Forall2 (taskOfRow (b_heap b)) (b_tasks b) (List.filter isStep done) →
  Forall2 (taskOfRow (b_heap (addStep b s))) (b_tasks (addStep b s)) (List.filter isStep (done ++ [s])).
Proof.
  intros Hb Hf. rewrite List.filter_app. cbn [List.filter]. unfold addStep, isStep at 2.
  destruct (s_IsDagOrchestrator s); cbn; [by rewrite app_nil_r|].
  set (t := newTask _).
  assert (Forall2 (taskOfRow (<[b_next b := t]> (b_heap b))) (b_tasks b) (List.filter isStep done)) as Hf'.
  { apply (Forall2_weaken (taskOfRow (b_heap b))); [|exact Hf]. intros p r Hp Hr. unfold taskOfRow, infoOf.
    rewrite lookup_insert_ne; [done|]. apply (sa_tasks b Hb) in Hp. lia. }
  repeat case_bool_decide; cbn; try done; [by rewrite app_nil_r|]. apply Forall2_app; [done|]. constructor; [|constructor].
  unfold taskOfRow, infoOf. by rewrite lookup_insert_eq.
Qed.

Lemma rows_addSteps rest done b :
  stepsAdded b → Forall2 (taskOfRow (b_heap b)) (b_tasks b) (List.filter isStep done) →
  Forall2 (taskOfRow (b_heap (foldl addStep b rest))) (b_tasks (foldl addStep b rest)) (List.filter isStep (done ++ rest)).
Proof.
  revert done b. induction rest as [|s rest IH]; intros done b Hb Hf; [by rewrite app_nil_r|]. cbn.
  replace (done ++ s :: rest) with ((done ++ [s]) ++ rest) by (by rewrite <- (assoc_L app)).
  apply IH; [by apply stepsAdded_addStep|by apply rows_addStep].
Qed.

(** The rank of a task is the rank of its row. *)
Definition rankOf (byStep : gmap uuid ptr) (rank : uuid → nat) (p : ptr) : nat :=
  default 0 (head (omap (λ kv : uuid * ptr, if decide (kv.2 = p) then Some (rank kv.1) else None) (map_to_list byStep))).

Lemma rankOf_id byStep rank id p :
  (∀ id', byStep !! id' = Some p → id' = id) → byStep !! id = Some p → rankOf byStep rank p = rank id.
Proof.
  intros Hinj Hid. unfold rankOf. set (l := omap _ _).
  assert (rank id ∈ l) as Hin.
  { apply list_elem_of_omap. exists (id, p). split; [by apply elem_of_map_to_list|]. cbn. by rewrite decide_True. }
  assert (∀ n, n ∈ l → n = rank id) as Hall.
  { intros n ([id' p'] & Hx%elem_of_map_to_list & Hn)%list_elem_of_omap. cbn in Hn. case_decide; [|done]. subst.
    injection Hn as <-. by rewrite (Hinj id'). }
  destruct l as [|n l]; [by apply elem_of_nil in Hin|]. cbn. apply Hall. constructor.
Qed.

(** The rows of a workflow version have no cycle. *)
Definition acyclicSteps (steps : list stepRow) (rank : uuid → nat) : Prop :=
  ∀ s id, s ∈ steps → id ∈ s_Parents s → rank id < rank (s_ID s).

Lemma built_wellFounded parse listSteps listConditions version built versionId steps rank :
  buildDAG parse listSteps listConditions version = inl built → parse version = Some versionId →
  listSteps versionId = Some steps → acyclicSteps steps rank →
  (∃ rank', wellFounded (bd_heap built) (bd_tasks built) (bd_onFailureTask built) rank') ∧
  Forall2 (taskOfRow (bd_heap built)) (bd_tasks built) (List.filter isStep steps).
Proof.
  intros (versionId' & steps' & b & Hv & Hs & Hb' & Hb & Ht & Hf & Hl)%buildDAG_inv Hv' Hs' Hac.
  assert (steps' = steps) as -> by congruence. rewrite Ht, Hf. split.
  - exists (rankOf (b_tasksByStepId b) rank). destruct Hb as [H1 H2 [H3 H3'] H4 H5 H6], Hl as [L1 L2 L3 L4].
    split; [exact L2|]. split; [done|by intros f Hff; apply H6|]. intros p q Hp Hq. unfold infoOf in Hq.
    destruct (bd_heap built !! p) as [t|] eqn:Htp; cbn in Hq; [|by apply elem_of_nil in Hq].
    destruct (L3 _ _ _ Htp Hq) as (s & id & Hin & Hid & Hps & Hqs). split; [by eapply H4|].
    rewrite (rankOf_id _ rank id q), (rankOf_id _ rank (s_ID s) p); [by apply Hac|by intros; eapply H5|done|by intros; eapply H5|done].
  - subst b. apply (Forall2_weaken (taskOfRow (b_heap (foldl addStep (Building ∅ ∅ [] [] None 0 0) steps)))).
    + intros p s _ [Ha Hr]. unfold taskOfRow, infoOf in *. pose proof (ln_same _ _ _ _ Hl p) as Hsame.
      destruct (bd_heap built !! p) as [t|] eqn:H1; cbn in *.
      * destruct (proj1 Hsame) as [t0 H0]; [done|]. rewrite H0 in Ha, Hr. cbn in *.
        destruct (ln_ids _ _ _ _ Hl _ _ _ H0 H1) as [-> ->]. done.
      * destruct (b_heap _ !! p) as [t0|]; [|done]. destruct (proj2 Hsame) as [? ?]; done.
    + apply (rows_addSteps steps [] _ stepsAdded_start). constructor.
Qed.

(** ** The output of a run *)

Definition readableId (t : task) : string := i_readableId (t_info t).
Definition refOf (externalId : uuid) (t : task) : durableRef := DurableRef externalId (t_nodeId t) (t_branchId t).

Record collectedFrom (externalId : uuid) (done : list task) (c : collected) : Prop := {
  cf_output : ∀ id, id ∈ dom (co_output c) → id ∈ readableId <$> done;
  cf_tasks : ∀ t, t ∈ done →
    readableId t ∈ dom (co_output c) ∨
    (refOf externalId t ∈ co_completedRefs c ∧ co_refToReadableId c !! refOf externalId t = Some (readableId t));
  cf_refs : ∀ r id, co_refToReadableId c !! r = Some id → id ∈ readableId <$> done ∧ r ∈ refOf externalId <$> done;
}.

Lemma collectedFrom_task externalId done c t :
  refOf externalId t ∉ refOf externalId <$> done → collectedFrom externalId done c →
  collectedFrom externalId (done ++ [t]) (collectTask externalId c t).
Proof.
  intros Hfresh [H1 H2 H3].
  assert (∀ v : outputValue, collectedFrom externalId (done ++ [t])
    (Collected (<[readableId t := v]> (co_output c)) (co_completedRefs c) (co_refToReadableId c))) as Hin.
  { intros v. split; cbn.
    - intros id. rewrite dom_insert, elem_of_union, elem_of_singleton, fmap_app, elem_of_app. cbn.
      intros [->|Hid]; [right; constructor|left; auto].
    - intros x. rewrite dom_insert, elem_of_app, list_elem_of_singleton, elem_of_union, elem_of_singleton.
      intros [Hx| ->]; [|auto]. destruct (H2 x Hx) as [?|?]; auto.
    - intros r id Hr. rewrite !fmap_app, !elem_of_app. destruct (H3 r id Hr). auto. }
  unfold collectTask. change (i_readableId (t_info t)) with (readableId t).
  destruct (t_isSkipped t); [apply Hin|]. destruct (t_isCancelled t); [apply Hin|].
  change (DurableRef externalId (t_nodeId t) (t_branchId t)) with (refOf externalId t). split; cbn.
  - intros id Hid. rewrite fmap_app, elem_of_app. auto.
  - intros x. rewrite !elem_of_app, list_elem_of_singleton. intros [Hx| ->].
    + destruct (H2 x Hx) as [?|[? Hr]]; [by left|right]. split; [by left|]. rewrite lookup_insert_ne; [done|].
      intros Heq. apply Hfresh. rewrite Heq. by apply list_elem_of_fmap_2.
    + right. split; [right; constructor|]. by rewrite lookup_insert_eq.
  - intros r id [[<- <-]|[_ Hr]]%lookup_insert_Some; rewrite !fmap_app, !elem_of_app; [split; right; constructor|].
    destruct (H3 r id Hr). auto.
Qed.

Lemma collectedFrom_tasks externalId rest done c :
  NoDup (refOf externalId <$> done ++ rest) → collectedFrom externalId done c →
  collectedFrom externalId (done ++ rest) (foldl (collectTask externalId) c rest).
Proof.
  revert done c. induction rest as [|t rest IH]; intros done c Hn Hc; [by rewrite app_nil_r|]. cbn.
  replace (done ++ t :: rest) with ((done ++ [t]) ++ rest) in * by (by rewrite <- (assoc_L app)).
  apply IH; [done|]. apply collectedFrom_task; [|done]. rewrite !fmap_app in Hn.
  apply NoDup_app in Hn as [Hn _]. apply NoDup_app in Hn as (_ & Hn & _). intros Hx. apply (Hn _ Hx). constructor.
Qed.

Lemma addEvents_dom refs evs output id :
  id ∈ dom (foldl (addEvent refs) output evs) ↔
  id ∈ dom output ∨ ∃ ev, ev ∈ evs ∧ refs !! se_ref ev = Some id.
Proof.
  revert output. induction evs as [|ev evs IH]; intros output; cbn.
  - split; [auto|]. intros [?|(ev & []%elem_of_nil & _)]. done.
  - rewrite IH. setoid_rewrite elem_of_cons. unfold addEvent. destruct (refs !! se_ref ev) as [i|] eqn:Hr.
    + rewrite dom_insert, elem_of_union, elem_of_singleton. split.
      * intros [[->|?]|(x & ? & ?)]; eauto 6.
      * intros [?|(x & [->|?] & Hx)]; [auto|left; left; congruence|eauto].
    + split; [intros [?|(x & ? & ?)]; eauto|]. intros [?|(x & [->|?] & Hx)]; [auto|congruence|eauto].
Qed.

Lemma output_dom externalId tasks evs :
  let c := foldl (collectTask externalId) (Collected ∅ [] ∅) tasks in
  NoDup (refOf externalId <$> tasks) → (∀ r, r ∈ co_completedRefs c → ∃ ev, ev ∈ evs ∧ se_ref ev = r) →
  dom (foldl (addEvent (co_refToReadableId c)) (co_output c) evs) = list_to_set (readableId <$> tasks).
Proof.
  intros c Hn Hev. destruct (collectedFrom_tasks externalId tasks [] (Collected ∅ [] ∅)) as [H1 H2 H3]; [done| |].
  { split; cbn; [set_solver| |by intros ? ?; rewrite lookup_empty]. intros t Ht. by apply elem_of_nil in Ht. }
  fold c in H1, H2, H3. cbn [app] in *. apply set_eq. intros id. rewrite addEvents_dom, elem_of_list_to_set. split.
  - intros [Hid|(ev & _ & Hr)]; [auto|by eapply H3].
  - intros (t & -> & Ht)%list_elem_of_fmap. destruct (H2 t Ht) as [?|[Hr Hl]]; [by left|right].
    destruct (Hev _ Hr) as (ev & Hin & Heq). exists ev. by rewrite Heq.
Qed.

(** The entries of the tasks of a run differ. *)
Lemma live_refs {W} `{EngineState W} tasks onFailure info (d : dag W) externalId :
  live tasks onFailure info d → NoDup (tasks ++ option_list onFailure) →
  (∀ p, p ∈ tasks ++ option_list onFailure → t_isTriggered (task_at p d) = true) →
  NoDup (refOf externalId <$> ((λ p, task_at p d) <$> (tasks ++ option_list onFailure))).
Proof.
  intros Hd Hn Ht. rewrite <- list_fmap_compose. generalize dependent (tasks ++ option_list onFailure). intros l Hn Ht.
  assert (∀ p, p ∈ l → isNamed (itemOn d) (d_pendingWaitAcks d) (p, None)) as Hnamed.
  { intros p Hp. split; [by apply Ht|]. by intros (a & Ha & _)%list_elem_of_fmap. }
  clear Ht. induction Hn as [|p l Hp Hn IH]; cbn; [apply NoDup_nil_2|]. constructor.
  - intros (q & Hq & Hin)%list_elem_of_fmap. unfold refOf in Hq. cbn in Hq. injection Hq as Hnode Hbranch.
    assert ((p, @None conditionKind) = (q, None)) as [= ->]; [|done].
    apply (g_inj _ _ _ _ _ (lv_ledger _ _ _ _ Hd)); [apply Hnamed; constructor|apply Hnamed; by constructor|].
    unfold itemRef. cbn. congruence.
  - apply IH. intros q Hq. apply Hnamed. by constructor.
Qed.

(** What the operator reports for the tasks a run left. *)
Definition reportFor {W} (O : operatorEnv W) (tasks : list task) (r : report) : Prop :=
  match List.filter t_isFailed tasks with
  | t :: _ => r = ReportFailed (t_errorMessage t) true
  | [] =>
      if existsb t_isCancelled tasks then r = ReportCancelled TaskCancelledErrorMessage
      else ∃ output, r = ReportCompleted (default "{}"%string (o_marshal O output)) ∧
        dom output = list_to_set (readableId <$> tasks)
  end.

Lemma filter_tasks {W} (f : task → bool) (d : dag W) l :
  (λ p, task_at p d) <$> filter (λ p, f (task_at p d) = true) l = List.filter f ((λ p, task_at p d) <$> l).
Proof.
  induction l as [|p l IH]; [done|]. rewrite filter_cons, fmap_cons. cbn [List.filter].
  destruct (f (task_at p d)) eqn:Hf; [rewrite decide_True by done|rewrite decide_False by done]; cbn; by rewrite IH.
Qed.

Section endToEnd.
Context {G : Type} `{HL : DispatcherLaws G} (O : operatorEnv (durableChannel * G)).

(** The reports for a run that is over. *)
Lemma report_over (a : AssignedAction) (externalId : uuid) (d : dag (durableChannel * G)) tasks :
  let ts := (λ p, task_at p d) <$> tasks in
  d_err d = None → d_tasks d = tasks → NoDup (refOf externalId <$> ts) → a_TaskInsertedAt a ≠ None →
  (∀ refs, ∃ evs, o_satisfied O refs = Some evs ∧ ∀ r, r ∈ refs → ∃ ev, ev ∈ evs ∧ se_ref ev = r) →
  ∃ r ret, match runResult d with Some e => reportError O a ts e | None => complete O a externalId ts end = ([r], ret) ∧
    reportFor O ts r.
Proof.
  intros ts Herr Htasks Hn Hat Hsat. unfold runResult, reportFor. rewrite Herr, Htasks, existsb_filter.
  pose proof (filter_tasks t_isFailed d tasks) as Hf. pose proof (filter_tasks t_isCancelled d tasks) as Hc. fold ts in Hf, Hc.
  rewrite <- Hf, <- Hc. destruct (filter (λ p, t_isFailed (task_at p d) = true) tasks) as [|p l] eqn:H1; cbn.
  2: { do 2 eexists. split; [done|]. done. }
  destruct (filter (λ p, t_isCancelled (task_at p d) = true) tasks) as [|p l] eqn:H2; cbn.
  2: { do 2 eexists. split; [done|]. done. }
  unfold complete. set (c := foldl _ _ ts). destruct (Hsat (co_completedRefs c)) as (evs & He & Hev).
  destruct (co_completedRefs c) as [|r rs] eqn:Hrefs.
  - do 2 eexists. split; [done|]. exists (co_output c). split; [done|].
    apply (output_dom externalId ts []); [done|]. fold c. rewrite Hrefs. intros r Hr. by apply elem_of_nil in Hr.
  - destruct (a_TaskInsertedAt a); [|done]. rewrite He. do 2 eexists. split; [done|]. eexists. split; [done|].
    apply (output_dom externalId ts evs); [done|]. fold c. by rewrite Hrefs.
Qed.

Lemma buildDAG_ok (a : AssignedAction) versionId steps :
  a_WorkflowVersionId a ≠ ""%string → o_parse O (a_WorkflowVersionId a) = Some versionId →
  o_listSteps O versionId = Some steps → (∀ ids, is_Some (o_listConditions O ids)) →
  ∃ built, buildDAG (o_parse O) (o_listSteps O) (o_listConditions O) (a_WorkflowVersionId a) = inl built.
Proof.
  intros Hne Hver Hsteps Hconds. unfold buildDAG. rewrite bool_decide_false, Hver, Hsteps by done.
  destruct (b_stepIds _) as [|id ids]; [eauto|]. destruct (Hconds (id :: ids)) as [cs ->]. eauto.
Qed.

(** What the operator reports when the engine refused a step: that the run failed with the message of the error,
    not to be retried when the log and the step do not agree or when the database would refuse it again; for a
    cancelled context the cancellation, with the children that run, or nothing when the operator itself stops;
    nothing when a newer invocation of the task has taken its place. *)
Definition reportRefused (a : AssignedAction) (actionId : string) (e : triggerError) (log : list report) : Prop :=
  match e with
  | StaleInvocationError => log = []
  | ContextCanceled => if o_ctxErr O then log = [] else oneOutcome log
  | _ =>
      log = [ReportFailed (default (internalMessage a) (clientErrorMessageForDagErr (o_quote O) (TriggerFailed actionId e)))
        match e with NonDeterminismError _ => true | PgError code => o_pgClasses O code | _ => false end]
  end.

Lemma report_refused a tasks actionId e : reportRefused a actionId e (reportError O a tasks (TriggerFailed actionId e)).1.
Proof.
  unfold reportRefused, reportError. destruct e; cbn -[handleRunCancellation]; rewrite ?orb_false_r; try done.
  destruct (cancellation_outcome O tasks) as [[-> ?]|[-> ?]]; done.
Qed.

End endToEnd.


(** ** A run that is superseded *)

(** The table of the runs that can be cancelled is keyed by the task alone, and a run that ends removes its task.
    When a newer invocation of a task has started before the older one stands down, the older one removes the
    entry of the newer: a cancellation that comes next is reported at once, as for a run the operator does not
    have, and the newer run goes on. *)
Theorem superseded_run_drops_cancel (task : string) (older newer : Z) :
  foldl runCancelsStep (∅, []) [RunStarts task older; RunStarts task newer; RunEnds task older; CancelAction task] =
    (∅, [ReportedCancelled]) ∧
  (foldl runCancelsStep (∅, []) [RunStarts task older; RunEnds task older; RunStarts task newer; CancelAction task]).2 =
    [RunCancelled newer].
Proof.
  unfold runCancelsStep, cancelRun. cbn [foldl fst snd app]. rewrite insert_insert_eq, delete_insert_eq, lookup_delete_eq.
  rewrite !delete_empty, lookup_insert_eq. done.
Qed.

End DagOperatorTheorems.
