(* ===== verification/LogTables.v ===== *)
(** The tables of the durable event log (src/sql/schema/v1-core.sql) and their statements
    (src/pkg/repository/sqlcv1/durable_event_log.sql).  A durable task writes what it does to its log: an entry per
    child run, wait and memo, at a node of a branch.  Every statement works on the rows of each task it is given on
    its own, so a statement is a function on the rows of one task.  Columns that are only shown to users (times, user
    messages, wait data, input payloads) are left out. *)

From S2P Require Import Prelude Workers.
Import Workers.

Module LogTables.

Open Scope Z_scope.

(** ** Rows *)

Inductive V1DurableEventLogKind := RUN | WAITFOR | MEMO.

#[global] Instance logKind_eq_dec : EqDecision V1DurableEventLogKind.
Proof. solve_decision. Defined.

Record V1DurableEventLogFile := LogFile {
  f_LatestInvocationCount : Z;
  f_LatestNodeID : Z;
  f_LatestBranchID : Z;
  f_LatestSatisfiedOrder : Z;
}.

(** An entry; [e_Triggered] is that triggered_at is set, and [e_Result] the result payload stored for it, empty when
    there is none. *)
Record V1DurableEventLogEntry := Entry {
  e_ExternalID : uuid;
  e_ChildTaskExternalID : option uuid;
  e_ChildTaskIsFailure : bool;
  e_ChildTaskErrorMessage : option string;
  e_Kind : V1DurableEventLogKind;
  e_NodeID : Z;
  e_BranchID : Z;
  e_IdempotencyKey : string;
  e_IsSatisfied : bool;
  e_SatisfiedOrder : option Z;
  e_Triggered : bool;
  e_Result : string;
}.

#[global] Instance logEntry_eq_dec : EqDecision V1DurableEventLogEntry.
Proof. solve_decision. Defined.

Record V1DurableEventLogBranchPoint := BranchPoint {
  bp_FirstNodeIDInNewBranch : Z;
  bp_ParentBranchID : Z;
  bp_NextBranchID : Z;
  bp_ReplayChildExternalIds : option (list uuid);
}.

(** The primary key of an entry within its task: branch and node. *)
Definition entryKey : Type := Z * Z.
Definition keyOf (e : V1DurableEventLogEntry) : entryKey := (e_BranchID e, e_NodeID e).

(** The rows of one durable task: its log file, entries and branch points, and its SIGNAL_CREATED events with the
    child each names.  An event without a child is as good as none: the statement fills it in. *)
Record taskLog := TaskLog {
  t_file : option V1DurableEventLogFile;
  t_entries : gmap entryKey V1DurableEventLogEntry;
  t_points : list V1DurableEventLogBranchPoint;
  t_signals : gmap string uuid;
}.

Definition emptyLog : taskLog := TaskLog None ∅ [] ∅.

Definition set_file (f : V1DurableEventLogFile) (t : taskLog) : taskLog :=
  TaskLog (Some f) (t_entries t) (t_points t) (t_signals t).
Definition set_entries (es : gmap entryKey V1DurableEventLogEntry) (t : taskLog) : taskLog :=
  TaskLog (t_file t) es (t_points t) (t_signals t).
Definition set_node (n : Z) (f : V1DurableEventLogFile) : V1DurableEventLogFile :=
  LogFile (f_LatestInvocationCount f) n (f_LatestBranchID f) (f_LatestSatisfiedOrder f).
Definition set_latestOrder (o : Z) (f : V1DurableEventLogFile) : V1DurableEventLogFile :=
  LogFile (f_LatestInvocationCount f) (f_LatestNodeID f) (f_LatestBranchID f) o.
Definition set_order (o : option Z) (e : V1DurableEventLogEntry) : V1DurableEventLogEntry :=
  Entry (e_ExternalID e) (e_ChildTaskExternalID e) (e_ChildTaskIsFailure e) (e_ChildTaskErrorMessage e) (e_Kind e)
    (e_NodeID e) (e_BranchID e) (e_IdempotencyKey e) (e_IsSatisfied e) o (e_Triggered e) (e_Result e).
Definition set_triggered (e : V1DurableEventLogEntry) : V1DurableEventLogEntry :=
  Entry (e_ExternalID e) (e_ChildTaskExternalID e) (e_ChildTaskIsFailure e) (e_ChildTaskErrorMessage e) (e_Kind e)
    (e_NodeID e) (e_BranchID e) (e_IdempotencyKey e) (e_IsSatisfied e) (e_SatisfiedOrder e) true (e_Result e).
Definition set_result (r : string) (e : V1DurableEventLogEntry) : V1DurableEventLogEntry :=
  Entry (e_ExternalID e) (e_ChildTaskExternalID e) (e_ChildTaskIsFailure e) (e_ChildTaskErrorMessage e) (e_Kind e)
    (e_NodeID e) (e_BranchID e) (e_IdempotencyKey e) (e_IsSatisfied e) (e_SatisfiedOrder e) (e_Triggered e) r.

(** ** Row numbers *)

(** ROW_NUMBER() of a row over the rows [l] in the order [lt]. *)
Definition rowNumber {A} (lt : A → A → bool) (l : list A) (a : A) : Z :=
  1 + Z.of_nat (length (List.filter (λ b, lt b a) l)).

(** ORDER BY branch_id, node_id. *)
Definition keyLt (a b : entryKey) : bool :=
  (a.1 <? b.1) || ((a.1 =? b.1) && (a.2 <? b.2)).

(** ORDER BY satisfied_order; the order of equal ones, which is left open, is that of their keys. *)
Definition orderLt (a b : Z * entryKey) : bool :=
  (a.1 <? b.1) || ((a.1 =? b.1) && keyLt a.2 b.2).

Definition maxOrder (os : list Z) (start : Z) : Z := foldl Z.max start os.

(** ** Statements on the log file *)

(** IncrementLogFileInvocationCounts: the first invocation creates the log. *)
Definition incrementInvocationCount (t : taskLog) : taskLog :=
  match t_file t with
  | None => set_file (LogFile 1 0 1 0) t
  | Some f =>
      set_file (LogFile (f_LatestInvocationCount f + 1) 0 (f_LatestBranchID f) (f_LatestSatisfiedOrder f)) t
  end.

(** UpdateLogFile with the branch, the node and the satisfied order given; None is that the task has no log. *)
Definition updateLogFile (branchId nodeId latestSatisfiedOrder : Z) (t : taskLog) :
    option (V1DurableEventLogFile * taskLog) :=
  match t_file t with
  | None => None
  | Some f =>
      let f := LogFile (f_LatestInvocationCount f) (Z.max (f_LatestNodeID f) nodeId) branchId latestSatisfiedOrder in
      Some (f, set_file f t)
  end.

Definition updateLatestNodeId (nodeId : Z) (t : taskLog) : taskLog :=
  match t_file t with
  | None => t
  | Some f => set_file (set_node (Z.max (f_LatestNodeID f) nodeId) f) t
  end.

Definition createBranchPoint (p : V1DurableEventLogBranchPoint) (t : taskLog) : taskLog :=
  TaskLog (t_file t) (t_entries t) (t_points t ++ [p]) (t_signals t).

(** latest_satisfied_order = GREATEST(latest_satisfied_order, MAX(orders)), for a nonempty list of orders. *)
Definition raiseOrder (orders : list Z) (t : taskLog) : taskLog :=
  match t_file t with
  | None => t
  | Some f => set_file (set_latestOrder (maxOrder orders (f_LatestSatisfiedOrder f)) f) t
  end.

(** ** Statements on the entries *)

Definition rows (t : taskLog) : list V1DurableEventLogEntry := (map_to_list (t_entries t)).*2.

Definition getEntries (keys : list entryKey) (t : taskLog) : list V1DurableEventLogEntry :=
  omap (λ k, t_entries t !! k) keys.

Definition listBeforeNode (nodeId : Z) (t : taskLog) : list V1DurableEventLogEntry :=
  List.filter (λ e, e_NodeID e <? nodeId) (rows t).

(** GetDurableEventLogEntriesByChildTaskExternalIds, ordered by node within a child. *)
Definition nodeLe (a b : V1DurableEventLogEntry) : Prop := e_NodeID a ≤ e_NodeID b.
#[global] Instance nodeLe_dec : RelDecision nodeLe := λ a b, Z.le_dec _ _.
Definition listByChildren (ids : list uuid) (t : taskLog) : list V1DurableEventLogEntry :=
  merge_sort nodeLe
    (List.filter (λ e, match e_ChildTaskExternalID e with Some c => bool_decide (c ∈ ids) | None => false end) (rows t)).

(** The position of a row of [kept] among the satisfied ones of [kept]. *)
Definition keptOrders (kept : list entryKey) (t : taskLog) : list (Z * entryKey) :=
  omap (λ k, match t_entries t !! k with Some e => (λ o, (o, k)) <$> e_SatisfiedOrder e | None => None end) kept.

Definition renumber (kept : list entryKey) (t : taskLog) (k : entryKey) (e : V1DurableEventLogEntry) :
    V1DurableEventLogEntry :=
  match e_SatisfiedOrder e with
  | None => e
  | Some o => set_order (if bool_decide (k ∈ kept) then Some (rowNumber orderLt (keptOrders kept t) (o, k)) else None) e
  end.

(** ResetSatisfiedOrdersForNewBranch: the kept rows are numbered from one, the others lose their number. *)
Definition resetSatisfiedOrders (kept : list entryKey) (t : taskLog) : Z * taskLog :=
  let t' := set_entries (map_imap (λ k e, Some (renumber kept t k e)) (t_entries t)) t in
  (maxOrder (omap e_SatisfiedOrder (rows t')) 0, t').

(** ** Satisfying entries *)

(** An entry past a fork on its branch. *)
Definition pastFork (t : taskLog) (k : entryKey) : bool :=
  existsb (λ p, (bp_ParentBranchID p =? k.1) && (bp_FirstNodeIDInNewBranch p <=? k.2)) (t_points t).

(** A row of the input: the entry, whether the child failed, and its error message. *)
Record satisfiedInput := Satisfied { si_key : entryKey; si_failure : bool; si_message : string }.

Definition ordersToApply (inputs : list satisfiedInput) (t : taskLog) : list entryKey :=
  List.filter (λ k,
    match t_file t, t_entries t !! k with
    | Some _, Some e => match e_SatisfiedOrder e with None => negb (pastFork t k) | Some _ => false end
    | _, _ => false
    end) (remove_dups (si_key <$> inputs)).

Definition latestOrder (t : taskLog) : Z := match t_file t with Some f => f_LatestSatisfiedOrder f | None => 0 end.

(** UPDATE of one row; of several inputs for one row, of which the database takes any, the first is taken. *)
Definition satisfy (inputs : list satisfiedInput) (t : taskLog) (k : entryKey) (e : V1DurableEventLogEntry) :
    V1DurableEventLogEntry :=
  match List.find (λ i, bool_decide (si_key i = k)) inputs with
  | None => e
  | Some i =>
      let applied := ordersToApply inputs t in
      let order := match e_SatisfiedOrder e with
                   | Some o => Some o
                   | None => if bool_decide (k ∈ applied) then Some (latestOrder t + rowNumber keyLt applied k) else None
                   end in
      let message := if si_failure i then (if bool_decide (si_message i = ""%string) then None else Some (si_message i))
                     else None in
      Entry (e_ExternalID e) (e_ChildTaskExternalID e) (si_failure i) message (e_Kind e) (e_NodeID e) (e_BranchID e)
        (e_IdempotencyKey e) true order (e_Triggered e) (e_Result e)
  end.

(** UpdateDurableEventLogEntriesSatisfied: the updated rows and the table. *)
Definition updateEntriesSatisfied (inputs : list satisfiedInput) (t : taskLog) :
    list V1DurableEventLogEntry * taskLog :=
  let t' := set_entries (map_imap (λ k e, Some (satisfy inputs t k e)) (t_entries t)) t in
  let applied := (λ k, latestOrder t + rowNumber keyLt (ordersToApply inputs t) k) <$> ordersToApply inputs t in
  (getEntries (remove_dups (si_key <$> inputs)) t', raiseOrder applied t').

Definition markSatisfied (k : entryKey) (t : taskLog) : taskLog :=
  set_entries (alter (λ e, Entry (e_ExternalID e) (e_ChildTaskExternalID e) (e_ChildTaskIsFailure e)
    (e_ChildTaskErrorMessage e) (e_Kind e) (e_NodeID e) (e_BranchID e) (e_IdempotencyKey e) true (e_SatisfiedOrder e)
    (e_Triggered e) (e_Result e)) k (t_entries t)) t.

(** ListSatisfiedEntries for one task. *)
Definition listSatisfied (keys : list entryKey) (t : taskLog) : list V1DurableEventLogEntry :=
  List.filter e_IsSatisfied (getEntries keys t).

(** ** Creating and claiming entries *)

(** A row to create; the nil child id stands for none. *)
Definition uuidNil : uuid := 0.

Record createRow := CreateRow {
  c_ExternalID : uuid;
  c_ChildTaskExternalID : uuid;
  c_Kind : V1DurableEventLogKind;
  c_NodeID : Z;
  c_BranchID : Z;
  c_IdempotencyKey : string;
  c_IsSatisfied : bool;
  c_IsTriggered : bool;
}.
Definition rowKey (r : createRow) : entryKey := (c_BranchID r, c_NodeID r).

(** A run that is created satisfied takes its place in the order. *)
Definition bornSatisfied (r : createRow) : bool := c_IsSatisfied r && bool_decide (c_Kind r = RUN).

Definition newEntry (inputs : list createRow) (t : taskLog) (r : createRow) : V1DurableEventLogEntry :=
  Entry (c_ExternalID r)
    (if bool_decide (c_ChildTaskExternalID r = uuidNil) then None else Some (c_ChildTaskExternalID r))
    false None (c_Kind r) (c_NodeID r) (c_BranchID r) (c_IdempotencyKey r) (c_IsSatisfied r)
    (if bornSatisfied r
     then Some (latestOrder t + rowNumber keyLt (rowKey <$> List.filter bornSatisfied inputs) (rowKey r)) else None)
    (c_IsTriggered r) "".

(** BulkCreateDurableEventLogEntries: the rows inserted, and the table; a row whose key exists is left alone, and a
    task without a log file gets none. *)
Definition createEntries (inputs : list createRow) (t : taskLog) : list V1DurableEventLogEntry * taskLog :=
  let inputs := match t_file t with Some _ => inputs | None => [] end in
  let '(out, es) :=
    foldl (λ acc r,
      match acc.2 !! rowKey r with
      | Some _ => acc
      | None => (acc.1 ++ [newEntry inputs t r], <[rowKey r := newEntry inputs t r]> acc.2)
      end) ([], t_entries t) inputs in
  (out, raiseOrder (omap e_SatisfiedOrder out) (set_entries es t)).

(** ClaimDurableEventLogEntriesForTrigger: the keys claimed, and the table. *)
Definition claimEntries (keys : list entryKey) (t : taskLog) : list entryKey * taskLog :=
  let claimed := List.filter (λ k, match t_entries t !! k with Some e => negb (e_Triggered e) | None => false end)
    (remove_dups keys) in
  (claimed, set_entries (foldl (λ es k, alter set_triggered k es) (t_entries t) claimed) t).

(** BulkUpsertDurableChildSignalCreatedEvents: each key keeps the child it has. *)
Definition upsertSignals (keys : list (string * uuid)) (t : taskLog) : gmap string uuid * taskLog :=
  let signals := foldl (λ m kv, match m !! kv.1 with Some _ => m | None => <[kv.1 := kv.2]> m end) (t_signals t) keys in
  (list_to_map (omap (λ kv, (λ c, (kv.1, c)) <$> signals !! kv.1) keys),
   TaskLog (t_file t) (t_entries t) (t_points t) signals).

End LogTables.
