(* ===== verification/EventLog.v ===== *)
(** The durable event log (src/pkg/repository/durable_events.go): how a request of a durable task becomes entries of
    its log.  A request takes the next nodes of the log; when a node has an entry already, as when the task is
    replayed, the entry must have been made by the same request, and its result is returned.  Branch points start a
    new branch at a node, so that a task can be replayed from there.  A batch of requests of different tasks is one
    transaction. *)

From S2P Require Import Prelude Workers LogTables.
From stdpp Require Import pretty.
Import Workers LogTables.

Module EventLog.

Open Scope Z_scope.

(** ** Requests *)

Record WorkflowNameTriggerOpts := TriggerOpts {
  to_WorkflowName : string;
  to_Data : string;
  to_ParentExternalId : option uuid;
  to_ChildIndex : option Z;
  to_ChildKey : option string;
  to_TargetActionId : option string;
  to_IsSkipped : bool;
  to_IsCancelled : bool;
  to_ExternalId : uuid;
  to_ShouldSkip : bool;
  to_ReplayOrphanedChildren : bool;
  to_ParentReExecuted : bool;
  to_IsDagStepTrigger : bool;
}.

Definition set_child (id : uuid) (skip : bool) (o : WorkflowNameTriggerOpts) : WorkflowNameTriggerOpts :=
  TriggerOpts (to_WorkflowName o) (to_Data o) (to_ParentExternalId o) (to_ChildIndex o) (to_ChildKey o)
    (to_TargetActionId o) (to_IsSkipped o) (to_IsCancelled o) id skip (to_ReplayOrphanedChildren o)
    (to_ParentReExecuted o) (to_IsDagStepTrigger o).

Inductive CreateExternalSignalConditionKind := SLEEP | USER_EVENT.

#[global] Instance conditionKind_eq_dec : EqDecision CreateExternalSignalConditionKind.
Proof. solve_decision. Defined.

Record CreateExternalSignalConditionOpt := Condition {
  cd_Kind : CreateExternalSignalConditionKind;
  cd_ReadableDataKey : string;
  cd_OrGroupId : uuid;
  cd_UserEventKey : option string;
  cd_UserEventScope : option string;
  cd_UserEventConsiderEventsSince : option Z;
  cd_SleepFor : option string;
  cd_Expression : string;
}.

(** The event of a request, with the options of its kind. *)
Inductive ingestEvent :=
  | Memo (payload memoKey : string)
  | TriggerRuns (opts : list WorkflowNameTriggerOpts)
  | WaitFor (conditions : list CreateExternalSignalConditionOpt).

Record IngestDurableTaskEventOpts := IngestOpts {
  in_TaskExternalID : uuid;
  in_InvocationCount : Z;
  in_Event : ingestEvent;
}.

Definition in_Kind (o : IngestDurableTaskEventOpts) : V1DurableEventLogKind :=
  match in_Event o with Memo _ _ => MEMO | TriggerRuns _ => RUN | WaitFor _ => WAITFOR end.

(** ** Errors *)

(** The statements of a transaction that can fail; those on the children of one task name it. *)
Inductive stmt :=
  | PrepareTx | LockFiles | UpsertSignals | ListChildren (task : Z) | BulkGet | BulkCreate | ListSkipped (task : Z)
  | StorePayloads | CreateMatches | UpdateNodeIds | Commit.

Inductive ingestError :=
  | NoLogFile
  | StaleInvocationError (expected actual : Z)
  | NonDeterminismError (nodeId branchId : Z) (expectedKey actualKey : string)
  | StatementFailed (s : stmt)
  | NoChildResolved (spawnKey : string)
  | NilSkippedChild
  | SkippedEntryMissing (child : uuid)
  | Crashed.

(** What a step does: it goes on, it fails its own task, or it fails the transaction. *)
Inductive outcome (A : Type) :=
  | Done (a : A)
  | TaskFailed (e : ingestError)
  | Fatal (e : ingestError).
Arguments Done {_} _.
Arguments TaskFailed {_} _.
Arguments Fatal {_} _.

#[global] Instance outcome_ret : MRet outcome := λ A a, Done a.
#[global] Instance outcome_bind : MBind outcome := λ A B f m,
  match m with Done a => f a | TaskFailed e => TaskFailed e | Fatal e => Fatal e end.

(** A value that the code dereferences or indexes without a check. *)
Definition unchecked {A} (o : option A) : outcome A := match o with Some a => Done a | None => Fatal Crashed end.

(** ** Branches *)

Definition branchPoints (ps : list V1DurableEventLogBranchPoint) : gmap Z V1DurableEventLogBranchPoint :=
  foldl (λ m p, <[bp_NextBranchID p := p]> m) ∅ ps.

(** The branches above one, each with the first node that is its own; None is that the loop does not end within the
    fuel. *)
Fixpoint branchTree (fuel : nat) (curr : Z) (m : gmap Z V1DurableEventLogBranchPoint) : option (list (Z * Z)) :=
  match fuel with
  | O => None
  | S fuel =>
      match m !! curr with
      | None => Some [(curr, 0)]
      | Some p => ((curr, bp_FirstNodeIDInNewBranch p) ::.) <$> branchTree fuel (bp_ParentBranchID p) m
      end
  end.

(** By the first node, then by the branch. *)
Definition treeLe (a b : Z * Z) : Prop := a.2 < b.2 ∨ (a.2 = b.2 ∧ a.1 ≤ b.1).
#[global] Instance treeLe_dec : RelDecision treeLe.
Proof. unfold RelDecision, treeLe. intros. apply _. Defined.

(** sort.Search: the first index whose element is past the node. *)
Definition searchTree (nodeId : Z) (tree : list (Z * Z)) : nat :=
  match list_find (λ b, nodeId < b.2) tree with Some (i, _) => i | None => length tree end.

(** None is an index out of range, or that the loop does not end. *)
Definition resolveBranchForNode (nodeId currentBranchId : Z) (m : gmap Z V1DurableEventLogBranchPoint) : option Z :=
  tree ← branchTree (S (size m)) currentBranchId m;
  let tree := merge_sort treeLe tree in
  match searchTree nodeId tree with
  | O => None
  | S i => fst <$> tree !! i
  end.

(** ** Idempotency keys *)

(** Go's comparison of strings is by bytes. *)
Definition stringLt (a b : string) : bool := String.ltb a b.

Definition kindString (k : CreateExternalSignalConditionKind) : string :=
  match k with SLEEP => "SLEEP" | USER_EVENT => "USER_EVENT" end.
Definition logKindString (k : V1DurableEventLogKind) : string :=
  match k with RUN => "RUN" | WAITFOR => "WAIT_FOR" | MEMO => "MEMO" end.

Definition condLess (a b : CreateExternalSignalConditionOpt) : bool :=
  if bool_decide (cd_Expression a ≠ cd_Expression b) then stringLt (cd_Expression a) (cd_Expression b)
  else if bool_decide (cd_ReadableDataKey a ≠ cd_ReadableDataKey b)
  then stringLt (cd_ReadableDataKey a) (cd_ReadableDataKey b)
  else if bool_decide (cd_Kind a ≠ cd_Kind b) then stringLt (kindString (cd_Kind a)) (kindString (cd_Kind b))
  else
    let bySleep :=
      match cd_SleepFor a, cd_SleepFor b with
      | Some x, Some y => if bool_decide (x ≠ y) then Some (stringLt x y) else None
      | _, _ => None
      end in
    match bySleep with
    | Some r => r
    | None =>
        match cd_UserEventKey a, cd_UserEventKey b with
        | Some x, Some y => if bool_decide (x ≠ y) then stringLt x y else false
        | _, _ => false
        end
    end.

(** sort.Slice, as it sorts up to twelve elements: each element moves left past those it is less than.  [rp] is the
    sorted prefix from its end. *)
Fixpoint insertBack {A} (less : A → A → bool) (x : A) (rp : list A) : list A :=
  match rp with
  | [] => [x]
  | y :: rp' => if less x y then y :: insertBack less x rp' else x :: rp
  end.
Definition sortSlice {A} (less : A → A → bool) (l : list A) : list A :=
  reverse (foldl (λ rp x, insertBack less x rp) [] l).

Definition condString (c : CreateExternalSignalConditionOpt) : string :=
  (cd_Expression c +:+ cd_ReadableDataKey c +:+ kindString (cd_Kind c) +:+ default ""%string (cd_SleepFor c) +:+
   default ""%string (cd_UserEventKey c))%string.

Definition concatStrings (l : list string) : string := foldr String.append ""%string l.

(** uuid.UUID.String and the hexadecimal SHA-256 are given: no definition depends on which functions they are. *)
Class Params := {
  uuidString : uuid → string;
  sha256hex : string → string;
}.

Section log.
Context `{Params}.

Definition triggerString (o : WorkflowNameTriggerOpts) : string :=
  (to_Data o +:+ to_WorkflowName o +:+
   (if to_IsDagStepTrigger o then
      default ""%string (to_TargetActionId o) +:+ default ""%string (pretty <$> to_ChildIndex o)
    else ""))%string.

Definition createIdempotencyKey (kind : V1DurableEventLogKind) (triggerOpts : option WorkflowNameTriggerOpts)
    (conditions : list CreateExternalSignalConditionOpt) : string :=
  sha256hex (logKindString kind +:+ default ""%string (triggerString <$> triggerOpts) +:+
    concatStrings (condString <$> sortSlice condLess conditions))%string.

(** ** Children *)

Definition dagStepSpawnStepIndex : Z := -1.

Definition getChildSignalEventKey (parent : uuid) (stepIndex childIndex : Z) (childKeyArg : option string) : string :=
  (uuidString parent +:+ "." +:+ pretty stepIndex +:+ "." +:+ default (pretty childIndex) childKeyArg)%string.

Definition childSpawnKey (o : WorkflowNameTriggerOpts) : string :=
  match to_ParentExternalId o, to_ChildIndex o with
  | Some parent, Some childIndex =>
      getChildSignalEventKey parent (if to_IsDagStepTrigger o then dagStepSpawnStepIndex else 0) childIndex
        (to_ChildKey o)
  | _, _ => ""
  end.

(** The ids uuid.New returns while one request is handled: for the children, for orphaned children, and for the
    entries it creates. *)
Record newIds := NewIds { n_child : nat → uuid; n_orphan : nat → uuid; n_entry : nat → uuid }.

(** The spawn keys of a request with the id proposed for each, in the order of their first use. *)
Definition addCandidate (ids : newIds) (acc : list (string * uuid)) (io : nat * WorkflowNameTriggerOpts) :
    list (string * uuid) :=
  let key := childSpawnKey io.2 in
  if bool_decide (key = ""%string) || bool_decide (key ∈ acc.*1) then acc else acc ++ [(key, n_child ids io.1)].

Definition candidates (ids : newIds) (opts : list WorkflowNameTriggerOpts) : list (string * uuid) :=
  foldl (addCandidate ids) [] (imap pair opts).

(** The ids of the children: a key that was used before, in this request or an earlier one, is not triggered again.
    [seen] are the keys used so far in this request. *)
Fixpoint assignIds (ids : newIds) (candidate resolved : gmap string uuid) (seen : gset string) (i : nat)
    (opts : list WorkflowNameTriggerOpts) : outcome (list WorkflowNameTriggerOpts) :=
  match opts with
  | [] => Done []
  | o :: opts =>
      let key := childSpawnKey o in
      if bool_decide (key = ""%string) then
        rest ← assignIds ids candidate resolved seen (S i) opts;
        mret (set_child (n_child ids i) (to_ShouldSkip o) o :: rest)
      else
        match resolved !! key with
        | None => Fatal (NoChildResolved key)
        | Some id =>
            let skip := bool_decide (key ∈ seen) || bool_decide (candidate !! key ≠ Some id) in
            rest ← assignIds ids candidate resolved ({[key]} ∪ seen) (S i) opts;
            mret (set_child id skip o :: rest)
        end
  end.

(** resolveChildExternalIdsForBatch for one task. *)
Definition resolveChildExternalIds (ids : newIds) (opts : list WorkflowNameTriggerOpts) (t : taskLog) :
    outcome (list WorkflowNameTriggerOpts * taskLog) :=
  let cs := candidates ids opts in
  let '(resolved, t) := upsertSignals cs t in
  opts ← assignIds ids (list_to_map cs) resolved ∅ 0 opts;
  mret (opts, t).

(** What the rows of the children of a request say: the newest entry of each child, and whether the child is on the
    active branch. *)
Record childRows := ChildRows {
  ch_onActive : gset uuid;
  ch_latest : gmap uuid V1DurableEventLogEntry;
}.

Definition addChildRow (latestBranch : Z) (m : gmap Z V1DurableEventLogBranchPoint) (acc : childRows)
    (row : V1DurableEventLogEntry) : outcome childRows :=
  match e_ChildTaskExternalID row with
  | None => mret acc
  | Some c =>
      b ← unchecked (resolveBranchForNode (e_NodeID row) latestBranch m);
      mret (ChildRows
        (if b =? e_BranchID row then {[c]} ∪ ch_onActive acc else ch_onActive acc)
        (match ch_latest acc !! c with
         | Some latest => if e_BranchID latest <? e_BranchID row then <[c := row]> (ch_latest acc) else ch_latest acc
         | None => <[c := row]> (ch_latest acc)
         end))
  end.

Fixpoint addChildRows (latestBranch : Z) (m : gmap Z V1DurableEventLogBranchPoint) (acc : childRows)
    (rows : list V1DurableEventLogEntry) : outcome childRows :=
  match rows with
  | [] => Done acc
  | row :: rows => acc ← addChildRow latestBranch m acc row; addChildRows latestBranch m acc rows
  end.

(** One child: whether its run is replayed in place, and the options with the skip decided. *)
Definition dedupeChild (forced : option (list uuid)) (ch : childRows) (fresh : uuid) (o : WorkflowNameTriggerOpts) :
    bool * WorkflowNameTriggerOpts :=
  if negb (to_ShouldSkip o) || bool_decide (to_ExternalId o ∈ ch_onActive ch) then (false, o)
  else
    match ch_latest ch !! to_ExternalId o with
    | None => (false, set_child fresh false o)
    | Some latest =>
        if negb (to_ReplayOrphanedChildren o) then (false, set_child fresh false o)
        else
          let isForced := match forced with Some l => bool_decide (to_ExternalId o ∈ l) | None => false end
                          || to_ParentReExecuted o in
          if bool_decide (is_Some forced) && negb isForced && e_IsSatisfied latest then (false, o)
          else (e_Triggered latest, set_child (to_ExternalId o) false o)
    end.

Definition resolveOrphanedChildDedupes (fails : stmt → bool) (task : Z) (ids : newIds) (f : V1DurableEventLogFile)
    (opts : list WorkflowNameTriggerOpts) (t : taskLog) : outcome (gset uuid * list WorkflowNameTriggerOpts) :=
  let skipped := to_ExternalId <$> List.filter to_ShouldSkip opts in
  match skipped with
  | [] => mret (∅, opts)
  | _ =>
      if fails (ListChildren task) then Fatal (StatementFailed (ListChildren task))
      else
        let m := branchPoints (t_points t) in
        let forced := m !! f_LatestBranchID f ≫= bp_ReplayChildExternalIds in
        ch ← addChildRows (f_LatestBranchID f) m (ChildRows ∅ ∅) (listByChildren skipped t);
        let decided := imap (λ i o, dedupeChild forced ch (n_orphan ids i) o) opts in
        mret (list_to_set (to_ExternalId <$> (List.filter fst decided).*2), decided.*2)
  end.

(** ** Planning *)

Record GetOrCreateLogEntryOpt := LogEntryOpt {
  o_Kind : V1DurableEventLogKind;
  o_IdempotencyKey : string;
  o_ResultPayload : string;
  o_NodeId : Z;
  o_BranchId : Z;
  o_IsSatisfied : bool;
  o_IsDagStepTrigger : bool;
  o_ChildTaskExternalId : uuid;
  o_ShouldSkip : bool;
  o_IsTriggered : bool;
}.
Definition optKey (o : GetOrCreateLogEntryOpt) : entryKey := (o_BranchId o, o_NodeId o).

Definition idempotencyKeyMatches (o : GetOrCreateLogEntryOpt) (existingKey : string) : bool :=
  o_IsDagStepTrigger o || bool_decide (o_IdempotencyKey o = existingKey).

(** The entries of a RUN request; [nodeId] is the node of the next child that is not skipped. *)
Fixpoint planRuns (latestBranch : Z) (m : gmap Z V1DurableEventLogBranchPoint) (replay : gset uuid) (nodeId : Z)
    (opts : list WorkflowNameTriggerOpts) : outcome (list GetOrCreateLogEntryOpt) :=
  match opts with
  | [] => Done []
  | o :: opts =>
      if to_ShouldSkip o then
        let key := match to_ChildKey o with None => createIdempotencyKey RUN (Some o) [] | Some _ => ""%string end in
        rest ← planRuns latestBranch m replay nodeId opts;
        mret (LogEntryOpt RUN key "" 0 0 false (to_IsDagStepTrigger o) (to_ExternalId o) true false :: rest)
      else
        branchId ← unchecked (resolveBranchForNode nodeId latestBranch m);
        rest ← planRuns latestBranch m replay (nodeId + 1) opts;
        mret (LogEntryOpt RUN (createIdempotencyKey RUN (Some o) []) "" nodeId branchId
                (to_IsCancelled o || to_IsSkipped o) (to_IsDagStepTrigger o) (to_ExternalId o) false
                (bool_decide (to_ExternalId o ∈ replay)) :: rest)
  end.

(** The first options given for each child. *)
Definition childOpts (opts : list WorkflowNameTriggerOpts) : gmap uuid WorkflowNameTriggerOpts :=
  foldl (λ m o, match m !! to_ExternalId o with Some _ => m | None => <[to_ExternalId o := o]> m end) ∅ opts.

(** planDurableEventLogAppend: the entries to get or create, and the options of the children by their id. *)
Definition planDurableEventLogAppend (fails : stmt → bool) (task : Z) (ids : newIds) (event : ingestEvent)
    (f : V1DurableEventLogFile) (t : taskLog) :
    outcome (list GetOrCreateLogEntryOpt * gmap uuid WorkflowNameTriggerOpts) :=
  let baseNodeId := f_LatestNodeID f + 1 in
  let m := branchPoints (t_points t) in
  match event with
  | TriggerRuns opts =>
      '(replay, opts) ← resolveOrphanedChildDedupes fails task ids f opts t;
      entries ← planRuns (f_LatestBranchID f) m replay baseNodeId opts;
      mret (entries, childOpts opts)
  | WaitFor conditions =>
      branchId ← unchecked (resolveBranchForNode baseNodeId (f_LatestBranchID f) m);
      mret ([LogEntryOpt WAITFOR (createIdempotencyKey WAITFOR None conditions) "" baseNodeId branchId false false uuidNil
               false false], ∅)
  | Memo payload memoKey =>
      branchId ← unchecked (resolveBranchForNode baseNodeId (f_LatestBranchID f) m);
      mret ([LogEntryOpt MEMO memoKey payload baseNodeId branchId (negb (bool_decide (payload = ""%string))) false uuidNil
               false false], ∅)
  end.

(** ** Getting or creating the entries *)

Record EventLogEntryWithResultPayload := LogEntryResult {
  r_Entry : V1DurableEventLogEntry;
  r_ResultPayload : string;
  r_AlreadyExisted : bool;
}.

Definition skipOpts (entries : list GetOrCreateLogEntryOpt) := List.filter o_ShouldSkip entries.
Definition nonSkipOpts (entries : list GetOrCreateLogEntryOpt) := List.filter (λ o, negb (o_ShouldSkip o)) entries.

Definition existingByKey (entries : list GetOrCreateLogEntryOpt) (t : taskLog) : gmap entryKey V1DurableEventLogEntry :=
  list_to_map ((λ e, (keyOf e, e)) <$> getEntries (optKey <$> nonSkipOpts entries) t).

(** The entries that do not exist; the first one that exists for another request fails the task. *)
Fixpoint newOpts (existing : gmap entryKey V1DurableEventLogEntry) (opts : list GetOrCreateLogEntryOpt) :
    outcome (list GetOrCreateLogEntryOpt) :=
  match opts with
  | [] => Done []
  | o :: opts =>
      match existing !! optKey o with
      | None => rest ← newOpts existing opts; mret (o :: rest)
      | Some e =>
          if idempotencyKeyMatches o (e_IdempotencyKey e) then newOpts existing opts
          else TaskFailed (NonDeterminismError (o_NodeId o) (o_BranchId o) (e_IdempotencyKey e) (o_IdempotencyKey o))
      end
  end.

Definition toCreate (ids : newIds) (i : nat) (o : GetOrCreateLogEntryOpt) : createRow :=
  CreateRow (n_entry ids i) (o_ChildTaskExternalId o) (o_Kind o) (o_NodeId o) (o_BranchId o) (o_IdempotencyKey o)
    (o_IsSatisfied o) (o_IsTriggered o).

(** The newest entry of each child: on the highest branch. *)
Definition addSkipRow (acc : gmap uuid V1DurableEventLogEntry) (row : V1DurableEventLogEntry) :
    gmap uuid V1DurableEventLogEntry :=
  match e_ChildTaskExternalID row with
  | None => acc
  | Some c =>
      match acc !! c with
      | Some existing => if e_BranchID row <=? e_BranchID existing then acc else <[c := row]> acc
      | None => <[c := row]> acc
      end
  end.

Fixpoint checkSkipped (found : gmap uuid V1DurableEventLogEntry) (opts : list GetOrCreateLogEntryOpt) : outcome unit :=
  match opts with
  | [] => Done ()
  | o :: opts =>
      match found !! o_ChildTaskExternalId o with
      | None => Fatal (SkippedEntryMissing (o_ChildTaskExternalId o))
      | Some e =>
          if negb (bool_decide (o_IdempotencyKey o = ""%string)) && negb (idempotencyKeyMatches o (e_IdempotencyKey e))
          then Fatal (NonDeterminismError (e_NodeID e) (e_BranchID e) (e_IdempotencyKey e) (o_IdempotencyKey o))
          else checkSkipped found opts
      end
  end.

(** The entries of the children that are not triggered again. *)
Definition skippedEntries (fails : stmt → bool) (task : Z) (entries : list GetOrCreateLogEntryOpt) (t : taskLog) :
    outcome (gmap uuid V1DurableEventLogEntry) :=
  match skipOpts entries with
  | [] => mret ∅
  | opts =>
      if existsb (λ o, bool_decide (o_ChildTaskExternalId o = uuidNil)) opts then Fatal NilSkippedChild
      else if fails (ListSkipped task) then Fatal (StatementFailed (ListSkipped task))
      else
        let found := foldl addSkipRow ∅ (listByChildren (remove_dups (o_ChildTaskExternalId <$> opts)) t) in
        _ ← checkSkipped found opts;
        mret found
  end.

(** [retrieves] is that the payload store answers; an error of it is ignored. *)
Definition resultPayload (retrieves : bool) (e : V1DurableEventLogEntry) : string :=
  if negb retrieves then ""
  else if negb (e_IsSatisfied e) then e_Result e
  else if bool_decide (e_Result e = ""%string) then "{}" else e_Result e.

Definition nonSkipResult (retrieves : bool) (existing created : gmap entryKey V1DurableEventLogEntry)
    (o : GetOrCreateLogEntryOpt) : outcome EventLogEntryWithResultPayload :=
  match existing !! optKey o with
  | Some e => mret (LogEntryResult e (resultPayload retrieves e) true)
  | None => e ← unchecked (created !! optKey o); mret (LogEntryResult e (o_ResultPayload o) false)
  end.

Definition skipResult (retrieves : bool) (found : gmap uuid V1DurableEventLogEntry) (o : GetOrCreateLogEntryOpt) :
    outcome EventLogEntryWithResultPayload :=
  e ← unchecked (found !! o_ChildTaskExternalId o); mret (LogEntryResult e (resultPayload retrieves e) true).

Fixpoint collect {A B} (f : A → outcome B) (l : list A) : outcome (list B) :=
  match l with
  | [] => Done []
  | a :: l => b ← f a; rest ← collect f l; mret (b :: rest)
  end.

(** By node, then by branch. *)
Definition resultLe (a b : EventLogEntryWithResultPayload) : Prop :=
  e_NodeID (r_Entry a) < e_NodeID (r_Entry b) ∨
  (e_NodeID (r_Entry a) = e_NodeID (r_Entry b) ∧ e_BranchID (r_Entry a) ≤ e_BranchID (r_Entry b)).
#[global] Instance resultLe_dec : RelDecision resultLe.
Proof. unfold RelDecision, resultLe. intros. apply _. Defined.

Definition logEntries (retrieves : bool) (entries : list GetOrCreateLogEntryOpt)
    (existing created : gmap entryKey V1DurableEventLogEntry) (found : gmap uuid V1DurableEventLogEntry) :
    outcome (list EventLogEntryWithResultPayload) :=
  rs ← collect (nonSkipResult retrieves existing created) (nonSkipOpts entries);
  ss ← collect (skipResult retrieves found) (skipOpts entries);
  mret (merge_sort resultLe (rs ++ ss)).

(** ** A batch of requests *)

(** What the database and the payload store do with one transaction: the statements that fail, whether a commit that
    reports an error was applied, and whether payloads can be read. *)
Record txEnv := TxEnv { x_fails : stmt → bool; x_applied : bool; x_retrieves : bool }.

Record request := Request { q_opts : IngestDurableTaskEventOpts; q_ids : newIds }.

(** A request whose log file is locked; its log is the working copy of the transaction. *)
Record locked := Locked { k_task : Z; k_request : request; k_file : V1DurableEventLogFile; k_log : taskLog }.
Definition k_event (k : locked) : ingestEvent := in_Event (q_opts (k_request k)).
Definition set_log (t : taskLog) (k : locked) : locked := Locked (k_task k) (k_request k) (k_file k) t.
Definition set_event (e : ingestEvent) (k : locked) : locked :=
  let o := q_opts (k_request k) in
  Locked (k_task k)
    (Request (IngestOpts (in_TaskExternalID o) (in_InvocationCount o) e) (q_ids (k_request k))) (k_file k) (k_log k).

Definition lockOne (db : gmap Z taskLog) (tr : Z * request) : outcome locked :=
  let t := default emptyLog (db !! tr.1) in
  match t_file t with
  | None => TaskFailed NoLogFile
  | Some f =>
      if bool_decide (f_LatestInvocationCount f = in_InvocationCount (q_opts tr.2))
      then mret (Locked tr.1 tr.2 f t)
      else TaskFailed (StaleInvocationError (f_LatestInvocationCount f) (in_InvocationCount (q_opts tr.2)))
  end.

Definition resolveOne (k : locked) : outcome locked :=
  match k_event k with
  | TriggerRuns opts =>
      '(opts, t) ← resolveChildExternalIds (q_ids (k_request k)) opts (k_log k);
      mret (set_log t (set_event (TriggerRuns opts) k))
  | _ => mret k
  end.

(** A plan: the entries wanted, the options of the children, and the entries that exist and that do not. *)
Record planned := Planned {
  p_locked : locked;
  p_entries : list GetOrCreateLogEntryOpt;
  p_children : gmap uuid WorkflowNameTriggerOpts;
}.

Definition planOne (X : txEnv) (k : locked) : outcome planned :=
  '(entries, children) ←
    planDurableEventLogAppend (x_fails X) (k_task k) (q_ids (k_request k)) (k_event k) (k_file k) (k_log k);
  mret (Planned k entries children).

Record checked := Checked {
  h_planned : planned;
  h_existing : gmap entryKey V1DurableEventLogEntry;
  h_new : list GetOrCreateLogEntryOpt;
}.

Definition checkOne (p : planned) : outcome checked :=
  let existing := existingByKey (p_entries p) (k_log (p_locked p)) in
  new ← newOpts existing (nonSkipOpts (p_entries p));
  mret (Checked p existing new).

(** The entries created, with the payloads to store, and the log with them. *)
Definition createOne (h : checked) : outcome (planned * gmap entryKey V1DurableEventLogEntry *
    gmap entryKey V1DurableEventLogEntry * list GetOrCreateLogEntryOpt) :=
  let k := p_locked (h_planned h) in
  let '(created, t) := createEntries (imap (toCreate (q_ids (k_request k))) (h_new h)) (k_log k) in
  mret (Planned (set_log t k) (p_entries (h_planned h)) (p_children (h_planned h)), h_existing h,
        list_to_map ((λ e, (keyOf e, e)) <$> created), h_new h).

(** The completion match of a child that is replayed in place. *)
Record replayMatch := ReplayMatch { rm_child : uuid; rm_node : Z; rm_branch : Z }.

Record appendDurableEventLogResult := AppendResult {
  ar_logEntries : list EventLogEntryWithResultPayload;
  ar_children : gmap uuid WorkflowNameTriggerOpts;
  ar_latestBranchId : Z;
}.

(** A task whose entries are known, and what remains to be written for it. *)
Record finished := Finished {
  d_result : appendDurableEventLogResult;
  d_log : taskLog;
  d_payloads : list (entryKey * string);
}.

Definition skipOne (X : txEnv) (c : planned * gmap entryKey V1DurableEventLogEntry *
    gmap entryKey V1DurableEventLogEntry * list GetOrCreateLogEntryOpt) :
    outcome (planned * gmap entryKey V1DurableEventLogEntry * gmap entryKey V1DurableEventLogEntry *
      list GetOrCreateLogEntryOpt * gmap uuid V1DurableEventLogEntry) :=
  let '(p, existing, created, new) := c in
  found ← skippedEntries (x_fails X) (k_task (p_locked p)) (p_entries p) (k_log (p_locked p));
  mret (p, existing, created, new, found).

Definition resultOne (X : txEnv) (c : planned * gmap entryKey V1DurableEventLogEntry *
    gmap entryKey V1DurableEventLogEntry * list GetOrCreateLogEntryOpt * gmap uuid V1DurableEventLogEntry) :
    outcome finished :=
  let '(p, existing, created, new, found) := c in
  rs ← logEntries (x_retrieves X) (p_entries p) existing created found;
  let payloads := omap (λ o, if bool_decide (o_ResultPayload o = ""%string) then None
                             else Some (optKey o, o_ResultPayload o)) new in
  mret (Finished (AppendResult rs (p_children p) (f_LatestBranchID (k_file (p_locked p)))) (k_log (p_locked p)) payloads).

(** The matches to register for the children that are replayed in place. *)
Definition replayMatches (rs : list EventLogEntryWithResultPayload) : list replayMatch :=
  omap (λ r, if r_AlreadyExisted r || e_IsSatisfied (r_Entry r) || negb (e_Triggered (r_Entry r)) then None
             else (λ c, ReplayMatch c (e_NodeID (r_Entry r)) (e_BranchID (r_Entry r))) <$> e_ChildTaskExternalID (r_Entry r)) rs.

Definition maxNodeId (rs : list EventLogEntryWithResultPayload) : Z :=
  foldl (λ n r, Z.max n (e_NodeID (r_Entry r))) 0 rs.

(** The writes at the end of the transaction: payloads, and the latest node when an entry has one. *)
Definition finishLog (d : finished) : taskLog :=
  let t := set_entries (foldl (λ es kp, alter (set_result kp.2) kp.1 es) (t_entries (d_log d)) (d_payloads d)) (d_log d) in
  let n := maxNodeId (ar_logEntries (d_result d)) in
  if 0 <? n then updateLatestNodeId n t else t.

(** One step for every task that is still going; a fatal error ends the transaction. *)
Fixpoint stage {A B} (f : A → outcome B) (items : list (Z * (A + ingestError))) :
    list (Z * (B + ingestError)) + ingestError :=
  match items with
  | [] => inl []
  | (task, it) :: items =>
      match match it with inl a => f a | inr e => TaskFailed e end with
      | Fatal e => inr e
      | Done b => match stage f items with inl rest => inl ((task, inl b) :: rest) | inr e => inr e end
      | TaskFailed e' => match stage f items with inl rest => inl ((task, inr e') :: rest) | inr e => inr e end
      end
  end.

(** The tasks that are still going. *)
Definition going {A} (items : list (Z * (A + ingestError))) : list A :=
  omap (λ it, match it.2 with inl a => Some a | inr _ => None end) items.

(** A statement that is only sent when there is something to send. *)
Definition attempt {A} (X : txEnv) (needed : bool) (s : stmt) (k : A + ingestError) : A + ingestError :=
  if needed && x_fails X s then inr (StatementFailed s) else k.

Definition andThen {A B} (m : A + ingestError) (k : A → B + ingestError) : B + ingestError :=
  match m with inl a => k a | inr e => inr e end.

Definition spawns (k : locked) : bool :=
  match k_event k with
  | TriggerRuns opts => existsb (λ o, negb (bool_decide (childSpawnKey o = ""%string))) opts
  | _ => false
  end.

(** The body of the transaction: what each task gets, up to the commit. *)
Definition appendBody (X : txEnv) (batch : list (Z * request)) (db : gmap Z taskLog) :
    list (Z * (finished + ingestError)) + ingestError :=
  attempt X true PrepareTx (attempt X true LockFiles (
  andThen (stage (lockOne db) ((λ tr, (tr.1, inl tr)) <$> batch)) (λ ks,
  attempt X (existsb spawns (going ks)) UpsertSignals (
  andThen (stage resolveOne ks) (λ ks,
  andThen (stage (planOne X) ks) (λ ps,
  attempt X (existsb (λ p, existsb (λ o, negb (o_ShouldSkip o)) (p_entries p)) (going ps)) BulkGet (
  andThen (stage checkOne ps) (λ hs,
  attempt X (existsb (λ h, match h_new h with [] => false | _ => true end) (going hs)) BulkCreate (
  andThen (stage createOne hs) (λ cs,
  andThen (stage (skipOne X) cs) (λ ss,
  andThen (stage (resultOne X) ss) (λ ds,
  attempt X (existsb (λ d, match d_payloads d with [] => false | _ => true end) (going ds)) StorePayloads (
  attempt X (existsb (λ d, match replayMatches (ar_logEntries (d_result d)) with [] => false | _ => true end) (going ds))
    CreateMatches (
  attempt X (existsb (λ d, 0 <? maxNodeId (ar_logEntries (d_result d))) (going ds)) UpdateNodeIds (
  inl ds))))))))))))))).

(** The log of a task whose request fails although the transaction commits: it keeps the signals that were written for
    its children before. *)
Definition resolvedSignals (db : gmap Z taskLog) (tr : Z * request) : option taskLog :=
  match lockOne db tr with
  | Done k => match resolveOne k with Done k => Some (k_log k) | _ => None end
  | _ => None
  end.

Definition failedLog (batch : list (Z * request)) (db : gmap Z taskLog) (task : Z) : option taskLog :=
  tr ← List.find (λ tr, tr.1 =? task) batch; resolvedSignals db tr.

(** What the commit leaves: the logs of the tasks that succeeded, and those of the others as [failed] says. *)
Definition commitOne (failed : Z → option taskLog) (d : Z * (finished + ingestError)) : option taskLog :=
  match d.2 with inl f => Some (finishLog f) | inr _ => failed d.1 end.

Definition commitLogs (failed : Z → option taskLog) (ds : list (Z * (finished + ingestError))) (db : gmap Z taskLog) :
    gmap Z taskLog :=
  foldl (λ db d, match commitOne failed d with Some t => <[d.1 := t]> db | None => db end) db ds.

(** appendDurableEventLogBatch, for the requests in the order of their tasks: what each task gets and the tables, or
    the error of the whole batch and the tables. *)
Definition appendDurableEventLogBatch (X : txEnv) (batch : list (Z * request)) (db : gmap Z taskLog) :
    (list (Z * (appendDurableEventLogResult + ingestError)) + ingestError) * gmap Z taskLog :=
  match appendBody X batch db with
  | inr e => (inr e, db)
  | inl ds =>
      let committed := commitLogs (failedLog batch db) ds db in
      if x_fails X Commit then (inr (StatementFailed Commit), if x_applied X then committed else db)
      else (inl ((λ d, (d.1, match d.2 with inl f => inl (d_result f) | inr e => inr e end)) <$> ds), committed)
  end.

End log.

End EventLog.
