(* ===== verification/EventLogOps.v ===== *)
(** The operations of the durable events repository around the log (src/pkg/repository/durable_events.go, and the
    part of match.go that satisfies entries): the result of an ingested request, triggering the children and waits
    that are pending, completing memos, satisfying entries and starting a branch. *)

From S2P Require Import Prelude Workers LogTables EventLog.
Import Workers LogTables EventLog.

Module EventLogOps.

Open Scope Z_scope.

(** ** The result of a request *)

Record IngestTriggerRunsEntry := RunEntry {
  re_ResultPayload : string;
  re_SatisfiedOrder : option Z;
  re_ChildTaskIsFailure : bool;
  re_ChildTaskErrorMessage : option string;
  re_NodeId : Z;
  re_BranchId : Z;
  re_WorkflowRunExternalId : uuid;
  re_IsSatisfied : bool;
  re_AlreadyExisted : bool;
  re_ChildNeedsReplay : bool;
  re_ReExecuted : bool;
}.

Record PendingDurableRunTrigger := PendingTrigger {
  pt_NodeId : Z;
  pt_BranchId : Z;
  pt_TriggerOpts : WorkflowNameTriggerOpts;
}.

(** A wait or a memo. *)
Record singleResult := SingleResult {
  sr_ResultPayload : string;
  sr_SatisfiedOrder : option Z;
  sr_NodeId : Z;
  sr_BranchId : Z;
  sr_IsSatisfied : bool;
  sr_AlreadyExisted : bool;
}.

Inductive IngestDurableTaskEventResult :=
  | MemoResult (r : singleResult)
  | TriggerRunsResult (entries : list IngestTriggerRunsEntry) (pending : list PendingDurableRunTrigger)
  | WaitForResult (r : singleResult).

Inductive requestError :=
  | Ingest (e : ingestError)
  | NoTriggerOpts
  | MissingChild (nodeId branchId : Z)
  | NoMatchingTrigger (nodeId branchId : Z) (child : uuid)
  | UnexpectedEntries (n : nat)
  | WaitForFailed
  | LookbackFailed.

Definition runEntry (latestBranchId : Z) (r : EventLogEntryWithResultPayload) : IngestTriggerRunsEntry :=
  let e := r_Entry r in
  RunEntry (r_ResultPayload r) (e_SatisfiedOrder e) (e_ChildTaskIsFailure e) (e_ChildTaskErrorMessage e) (e_NodeID e)
    (e_BranchID e) (default (e_ExternalID e) (e_ChildTaskExternalID e)) (e_IsSatisfied e) (r_AlreadyExisted r)
    (negb (r_AlreadyExisted r) && negb (e_IsSatisfied e) && e_Triggered e) (e_BranchID e =? latestBranchId).

(** The entries whose child has still to be triggered, each once; [seen] are the keys so far. *)
Fixpoint pendingTriggers (children : gmap uuid WorkflowNameTriggerOpts) (seen : gset entryKey)
    (rs : list EventLogEntryWithResultPayload) : list PendingDurableRunTrigger + requestError :=
  match rs with
  | [] => inl []
  | r :: rs =>
      let e := r_Entry r in
      if e_Triggered e || bool_decide (keyOf e ∈ seen) then pendingTriggers children seen rs
      else
        match e_ChildTaskExternalID e with
        | None => inr (MissingChild (e_NodeID e) (e_BranchID e))
        | Some c =>
            match children !! c with
            | None => inr (NoMatchingTrigger (e_NodeID e) (e_BranchID e) c)
            | Some o =>
                match pendingTriggers children ({[keyOf e]} ∪ seen) rs with
                | inl rest => inl (PendingTrigger (e_NodeID e) (e_BranchID e) (set_child c (to_ShouldSkip o) o) :: rest)
                | inr err => inr err
                end
            end
        end
  end.

Definition single (r : EventLogEntryWithResultPayload) : singleResult :=
  let e := r_Entry r in
  SingleResult (r_ResultPayload r) (e_SatisfiedOrder e) (e_NodeID e) (e_BranchID e) (e_IsSatisfied e) (r_AlreadyExisted r).

(** ** Waits *)

(** triggerPendingWaitFor: the wait is registered by whoever claims its entry.  [registers] is that its conditions
    can be registered, [commits] that the transaction can be committed; a wait without conditions registers none. *)
Definition triggerPendingWaitFor (registers commits : bool) (k : entryKey) (conditions : list CreateExternalSignalConditionOpt)
    (t : taskLog) : option (list entryKey * taskLog) :=
  let '(claimed, t') := claimEntries [k] t in
  match claimed with
  | [] => Some ([], t)
  | _ =>
      let registered := match conditions with [] => [] | _ => [k] end in
      if negb (match conditions with [] => true | _ => registers end) || negb commits then None
      else Some (registered, t')
  end.

(** What the lookback of a wait answers: an error, that no recent event matched, or the result of the wait that the
    match satisfied, with the log it leaves. *)
Inductive lookback := LookbackError | NothingFound | Found (payload : string) (order : option Z) (t : taskLog).

Definition handleEventLookback (answer : lookback) (r : singleResult) (t : taskLog) : option (singleResult * taskLog) :=
  if sr_IsSatisfied r then Some (r, t)
  else
    match answer with
    | LookbackError => None
    | NothingFound => Some (r, t)
    | Found payload order t' =>
        Some (SingleResult payload order (sr_NodeId r) (sr_BranchId r) true (sr_AlreadyExisted r), t')
    end.

(** How the transactions of a wait go. *)
Record waitEnv := WaitEnv { v_registers : bool; v_commits : bool; v_lookback : taskLog → lookback }.

(** The result of a request once its entries are in the log: the waits it registered, the log, and the result. *)
Definition finishRequest (V : waitEnv) (event : ingestEvent) (a : appendDurableEventLogResult) (t : taskLog) :
    (IngestDurableTaskEventResult + requestError) * list entryKey * taskLog :=
  match event with
  | TriggerRuns _ =>
      (match pendingTriggers (ar_children a) ∅ (ar_logEntries a) with
       | inl pending => inl (TriggerRunsResult (runEntry (ar_latestBranchId a) <$> ar_logEntries a) pending)
       | inr err => inr err
       end, [], t)
  | WaitFor conditions =>
      match ar_logEntries a with
      | [r] =>
          let triggered :=
            if e_Triggered (r_Entry r) then Some ([], t)
            else triggerPendingWaitFor (v_registers V) (v_commits V) (keyOf (r_Entry r)) conditions t in
          match triggered with
          | None => (inr WaitForFailed, [], t)
          | Some (registered, t) =>
              match handleEventLookback (v_lookback V t) (single r) t with
              | None => (inr LookbackFailed, registered, t)
              | Some (r, t) => (inl (WaitForResult r), registered, t)
              end
          end
      | rs => (inr (UnexpectedEntries (length rs)), [], t)
      end
  | Memo _ _ =>
      match ar_logEntries a with
      | [r] =>
          let s := single r in
          (inl (MemoResult (SingleResult (sr_ResultPayload s) None (sr_NodeId s) (sr_BranchId s) (sr_IsSatisfied s)
             (sr_AlreadyExisted s))), [], t)
      | rs => (inr (UnexpectedEntries (length rs)), [], t)
      end
  end.

(** ** Children *)

(** What triggerFromWorkflowNames does with a run: it creates it, the expression of its idempotency key fails, or it
    drops it without an error, as when the workflow is not known or another run has its idempotency key. *)
Inductive runReply := RunCreated | KeyExpressionFails | RunDropped.

Definition isCreated (r : runReply) : bool := match r with RunCreated => true | _ => false end.
Definition isKeyFailure (r : runReply) : bool := match r with KeyExpressionFails => true | _ => false end.

(** TriggerPendingRunEntries for one task: only the entries it claims are triggered.  [triggers] is what triggering
    the runs does with each, None when it fails; [registers] and [commits] are whether their matches can be registered
    and the transaction committed; without all of them nothing is written.  The result is what became of the claimed
    entries: an entry whose run was not created stays claimed. *)
Definition triggerPendingRunEntries (triggers : option (WorkflowNameTriggerOpts → runReply)) (registers commits : bool)
    (pending : list PendingDurableRunTrigger) (t : taskLog) : option (list (PendingDurableRunTrigger * runReply) * taskLog) :=
  let keys := (λ p, (pt_BranchId p, pt_NodeId p)) <$> pending in
  let '(claimed, t') := claimEntries keys t in
  match claimed with
  | [] => Some ([], t)
  | _ =>
      match triggers with
      | None => None
      | Some reply =>
          if negb (registers && commits) then None
          else Some ((λ p, (p, reply (pt_TriggerOpts p))) <$>
                       List.filter (λ p, bool_decide ((pt_BranchId p, pt_NodeId p) ∈ claimed)) pending, t')
      end
  end.

(** ** Satisfying entries *)

(** A match that is satisfied, with the data to store: that of its events, for a run the output extracted from it. *)
Record satisfiedMatch := SatisfiedMatch { sm_input : satisfiedInput; sm_data : string }.

(** The entries of the satisfied matches are satisfied in one statement, and their data is stored. *)
Definition satisfyEntries (ms : list satisfiedMatch) (t : taskLog) : list V1DurableEventLogEntry * taskLog :=
  let '(updated, t) := updateEntriesSatisfied (sm_input <$> ms) t in
  let store es e :=
    match List.find (λ m, bool_decide (si_key (sm_input m) = keyOf e)) (reverse ms) with
    | Some m => if bool_decide (sm_data m = ""%string) then es else alter (set_result (sm_data m)) (keyOf e) es
    | None => es
    end in
  (updated, set_entries (foldl store (t_entries t) updated) t).

(** CompleteMemoEntry; None is that the entry does not exist. *)
Definition completeMemoEntry (k : entryKey) (payload : string) (t : taskLog) : option taskLog :=
  match t_entries t !! k with
  | None => None
  | Some e =>
      if e_IsSatisfied e then Some t
      else
        let t := markSatisfied k t in
        Some (if bool_decide (payload = ""%string) then t
              else set_entries (alter (set_result payload) k (t_entries t)) t)
  end.

(** GetSatisfiedDurableEvents for one task: each satisfied entry with its result. *)
Definition getSatisfiedDurableEvents (keys : list entryKey) (t : taskLog) : list (V1DurableEventLogEntry * string) :=
  (λ e, (e, if bool_decide (e_Result e = ""%string) then "{}" else e_Result e)%string) <$> listSatisfied keys t.

(** ** Branches *)

(** The entries before the node that stay on the branch, whose order is kept. *)
Definition keptKeys (nodeId branchId : Z) (t : taskLog) : option (list entryKey) :=
  let m := branchPoints (t_points t) in
  foldr (λ e acc,
    acc ← acc;
    b ← resolveBranchForNode (e_NodeID e) branchId m;
    Some (if e_BranchID e =? b then keyOf e :: acc else acc)) (Some []) (listBeforeNode nodeId t).

(** handleBranch: None is that the task has no log, or that a branch cannot be resolved. *)
Definition handleBranch (nodeId branchId : Z) (replay : option (list uuid)) (t : taskLog) : option (Z * taskLog) :=
  f ← t_file t;
  let newBranchId := f_LatestBranchID f + 1 in
  kept ← keptKeys nodeId branchId t;
  let '(latestSatisfiedOrder, t) := resetSatisfiedOrders kept t in
  '(_, t) ← updateLogFile newBranchId 0 latestSatisfiedOrder t;
  Some (newBranchId, createBranchPoint (BranchPoint nodeId branchId newBranchId replay) t).

Definition HandleBranch (nodeId branchId : Z) (t : taskLog) : option (Z * taskLog) := handleBranch nodeId branchId None t.

(** A replay of a DAG starts a branch at the start of the log; a task without a log has nothing to replay. *)
Definition HandleBranchForDAGReplay (forced : option (list uuid)) (t : taskLog) : option (option Z * taskLog) :=
  match t_file t with
  | None => Some (None, t)
  | Some f => '(b, t) ← handleBranch 0 (f_LatestBranchID f) forced t; Some (Some b, t)
  end.

End EventLogOps.
