(* ===== verification/EventLogTheorems.v ===== *)
(** Theorems on the durable event log: which branch a node belongs to, and that a batch of requests does to each task
    what its request does alone. *)

From S2P Require Import Prelude Workers LogTables EventLog EventLogOps.
Import Workers LogTables EventLog EventLogOps.

Module EventLogTheorems.

Open Scope Z_scope.

(** ** Branches *)

(** A tree of branches: a branch has a smaller number than those forked from it, and a fork is at a node that is the
    branch's own. *)
Definition treeOk (m : gmap Z V1DurableEventLogBranchPoint) : Prop :=
  ∀ b p, m !! b = Some p →
    bp_ParentBranchID p < b ∧ 0 ≤ bp_FirstNodeIDInNewBranch p ∧
    ∀ q, m !! bp_ParentBranchID p = Some q → bp_FirstNodeIDInNewBranch q ≤ bp_FirstNodeIDInNewBranch p.

(** The branch a node belongs to, seen from a branch: its own from the fork on, the parent's before. *)
Inductive owns (m : gmap Z V1DurableEventLogBranchPoint) (n : Z) : Z → Z → Prop :=
  | owns_here b : (∀ p, m !! b = Some p → bp_FirstNodeIDInNewBranch p ≤ n) → owns m n b b
  | owns_above b p c : m !! b = Some p → n < bp_FirstNodeIDInNewBranch p → owns m n (bp_ParentBranchID p) c → owns m n b c.

(** The branches numbered up to [b], which the walk up from [b] can still meet. *)
Definition below (b : Z) (m : gmap Z V1DurableEventLogBranchPoint) : nat := size (filter (λ kv, kv.1 ≤ b) m).

Lemma below_parent m b p : m !! b = Some p → bp_ParentBranchID p < b → (below (bp_ParentBranchID p) m < below b m)%nat.
Proof.
  intros Hb Hlt. unfold below. apply map_subset_size, map_subset_alt. split.
  - apply map_filter_subseteq_ext. cbn. lia.
  - exists b. split; [apply map_lookup_filter_None_2; right; cbn; intros; lia|].
    exists p. by apply map_lookup_filter_Some_2.
Qed.

(** The walk up ends: each branch above has a smaller number. *)
Lemma branchTree_total m fuel b : treeOk m → (below b m < fuel)%nat → ∃ tree, branchTree fuel b m = Some tree.
Proof.
  intros Ht. revert b. induction fuel as [|fuel IH]; intros b Hf; [lia|]. cbn [branchTree].
  destruct (m !! b) as [p|] eqn:Hb; [|eauto]. destruct (Ht _ _ Hb) as [Hlt _].
  destruct (IH (bp_ParentBranchID p)) as [tree ->]; [|by eauto]. pose proof (below_parent _ _ _ Hb Hlt). lia.
Qed.

(** Below an element of the walk all have a smaller number, and a first node that is not greater. *)
Definition descends (a b : Z * Z) : Prop := b.1 < a.1 ∧ b.2 ≤ a.2.

Lemma branchTree_descends m fuel b tree :
  treeOk m → branchTree fuel b m = Some tree →
  StronglySorted descends tree ∧ Forall (λ x, x.1 ≤ b ∧ ∀ p, m !! b = Some p → x.2 ≤ bp_FirstNodeIDInNewBranch p) tree ∧
  Forall (λ x, 0 ≤ x.2) tree.
Proof.
  intros Ht. revert b tree. induction fuel as [|fuel IH]; intros b tree; [done|]. cbn [branchTree].
  destruct (m !! b) as [p|] eqn:Hb.
  - destruct (branchTree fuel (bp_ParentBranchID p) m) as [rest|] eqn:Hr; [|done]. intros [= <-].
    destruct (IH _ _ Hr) as (Hs & Hle & H0). destruct (Ht _ _ Hb) as (Hlt & Hf & Hq).
    assert (Forall (λ x, x.2 ≤ bp_FirstNodeIDInNewBranch p) rest) as Hfirst.
    { destruct (m !! bp_ParentBranchID p) as [q|] eqn:Hp.
      - eapply Forall_impl; [exact Hle|]. intros x [_ Hx]. specialize (Hq _ eq_refl). specialize (Hx _ eq_refl). lia.
      - destruct fuel; [done|]. cbn in Hr. rewrite Hp in Hr. injection Hr as <-. by constructor. }
    split_and!.
    + constructor; [done|]. apply Forall_forall. intros x Hx. rewrite !Forall_forall in *.
      split; [|by apply Hfirst]. specialize (Hle _ Hx). cbn in *. lia.
    + constructor; [split; [done|]; intros ? [= <-]; cbn; lia|]. apply Forall_forall. intros x Hx. rewrite !Forall_forall in *.
      specialize (Hle _ Hx). specialize (Hfirst _ Hx). split; [cbn in *; lia|]. by intros ? [= <-].
    + by constructor.
  - intros [= <-]. split_and!; repeat constructor; cbn; try lia. by intros.
Qed.

#[local] Instance treeLe_trans : Transitive treeLe.
Proof. intros x y z. unfold treeLe. lia. Qed.
#[local] Instance treeLe_total : Total treeLe.
Proof. intros x y. unfold treeLe. lia. Qed.
#[local] Instance treeLe_antisymm : AntiSymm eq treeLe.
Proof. intros [x1 x2] [y1 y2]. unfold treeLe. cbn. intros. f_equal; lia. Qed.

Lemma reverse_sorted tree : StronglySorted descends tree → StronglySorted treeLe (reverse tree).
Proof.
  induction 1 as [|x tree Hs IH Hx]; [constructor|]. rewrite reverse_cons.
  apply StronglySorted_app_2; [|done|repeat constructor]. intros y z Hy Hz.
  apply list_elem_of_singleton in Hz as ->. rewrite elem_of_reverse in Hy. rewrite Forall_forall in Hx.
  destruct (Hx _ Hy). unfold treeLe. lia.
Qed.

Lemma sort_tree tree : StronglySorted descends tree → merge_sort treeLe tree = reverse tree.
Proof.
  intros Hs. apply (StronglySorted_unique treeLe).
  - apply StronglySorted_merge_sort; apply _.
  - by apply reverse_sorted.
  - by rewrite merge_sort_Permutation, reverse_Permutation.
Qed.

(** The element before the first that is past the node. *)
Definition lastUpTo (n : Z) (tree : list (Z * Z)) : option Z :=
  match searchTree n tree with O => None | S i => fst <$> tree !! i end.

Lemma searchTree_all n tree : Forall (λ x, x.2 ≤ n) tree → searchTree n tree = length tree.
Proof.
  intros Hall. unfold searchTree. destruct (list_find _ tree) as [[i x]|] eqn:Hf; [|done].
  apply list_find_Some in Hf as (Hi & Hx & _). rewrite Forall_lookup in Hall. specialize (Hall _ _ Hi). cbn in *. lia.
Qed.

Lemma lastUpTo_here n b f rest :
  StronglySorted descends ((b, f) :: rest) → f ≤ n → lastUpTo n (reverse ((b, f) :: rest)) = Some b.
Proof.
  intros [_ Hd]%StronglySorted_inv Hf. unfold lastUpTo. rewrite searchTree_all.
  - rewrite length_reverse. cbn [length]. rewrite reverse_cons, lookup_app_r by (by rewrite length_reverse).
    by rewrite length_reverse, Nat.sub_diag.
  - rewrite reverse_Permutation. constructor; [done|]. eapply Forall_impl; [exact Hd|]. intros x [_ ?]. cbn in *. lia.
Qed.

Lemma lastUpTo_above n x tree : n < x.2 → lastUpTo n (tree ++ [x]) = lastUpTo n tree.
Proof.
  intros Hx. assert (searchTree n (tree ++ [x]) = searchTree n tree) as Hs.
  { unfold searchTree. destruct (list_find (λ b, n < b.2) tree) as [[i y]|] eqn:Hf.
    - replace (list_find (λ b, n < b.2) (tree ++ [x])) with (Some (i, y)); [done|]. symmetry. apply list_find_app_Some. by left.
    - replace (list_find (λ b, n < b.2) (tree ++ [x])) with (Some (length tree, x)); [done|]. symmetry.
      apply list_find_app_Some. right. rewrite Nat.sub_diag. split_and!; [done..|]. cbn. by rewrite decide_True. }
  unfold lastUpTo. rewrite Hs. destruct (searchTree n tree) as [|i] eqn:Hi; [done|].
  assert (i < length tree)%nat.
  { unfold searchTree in Hi. destruct (list_find _ tree) as [[j y]|] eqn:Hf; [|lia].
    apply list_find_Some in Hf as (Hj & _). apply lookup_lt_Some in Hj. lia. }
  by rewrite lookup_app_l.
Qed.

Lemma branchTree_owns m n fuel b tree :
  treeOk m → 0 ≤ n → branchTree fuel b m = Some tree → ∃ c, lastUpTo n (reverse tree) = Some c ∧ owns m n b c.
Proof.
  intros Ht Hn. revert b tree. induction fuel as [|fuel IH]; intros b tree Htree; [done|].
  pose proof (branchTree_descends _ _ _ _ Ht Htree) as (Hs & _). cbn [branchTree] in Htree.
  destruct (m !! b) as [p|] eqn:Hb.
  - destruct (branchTree fuel (bp_ParentBranchID p) m) as [rest|] eqn:Hr; [|done]. injection Htree as <-.
    destruct (decide (bp_FirstNodeIDInNewBranch p ≤ n)) as [Hle|Hgt].
    + exists b. split; [by apply lastUpTo_here|]. apply owns_here. intros q Hq. by simplify_eq.
    + destruct (IH _ _ Hr) as (c & Hc & Ho). exists c. split; [|by apply (owns_above m n b p); [done|lia|]].
      rewrite reverse_cons, lastUpTo_above by (cbn; lia). done.
  - injection Htree as <-. exists b. split; [by apply lastUpTo_here|]. apply owns_here. intros q Hq. by simplify_eq.
Qed.

Lemma branch_resolves (m : gmap Z V1DurableEventLogBranchPoint) (n b : Z) :
  treeOk m → 0 ≤ n → ∃ c, resolveBranchForNode n b m = Some c ∧ owns m n b c.
Proof.
  intros Ht Hn. unfold resolveBranchForNode. destruct (branchTree_total m (S (size m)) b Ht) as [tree Htree].
  { unfold below. pose proof (map_size_filter (λ kv : Z * _, kv.1 ≤ b) m). lia. }
  rewrite Htree. cbn. rewrite sort_tree by (by eapply branchTree_descends). by eapply branchTree_owns.
Qed.

Lemma owns_unique m n b c c' : owns m n b c → owns m n b c' → c = c'.
Proof.
  intros Ho. revert c'. induction Ho as [b Hb|b p c Hp Hlt Ho IH]; intros c' Ho'; inversion Ho' as [? Hb'|? p' ? Hp' Hlt' Ho1]; subst.
  - done.
  - specialize (Hb _ Hp'). lia.
  - specialize (Hb' _ Hp). lia.
  - apply IH. congruence.
Qed.

(** C29: in a tree of branches in which each was forked at or after the first node of its parent, resolveBranchForNode
    returns, and finds the one branch that owns the node: walking up from the current branch, the first one that was forked
    at or before the node. *)
Theorem branch_resolution_correct (m : gmap Z V1DurableEventLogBranchPoint) (n b : Z) :
  treeOk m → 0 ≤ n → ∃ c, resolveBranchForNode n b m = Some c ∧ ∀ c', owns m n b c' ↔ c' = c.
Proof.
  intros Ht Hn. destruct (branch_resolves m n b Ht Hn) as (c & Hr & Ho). exists c. split; [done|].
  intros c'. split; [|by intros ->]. intros Ho'. by eapply owns_unique.
Qed.

(** Two forks, the second inside the first: the node between the forks is the first fork's. *)
Definition exampleForks : gmap Z V1DurableEventLogBranchPoint :=
  branchPoints [BranchPoint 2 1 2 None; BranchPoint 5 2 3 None].

Lemma branch_resolution_correct_witness :
  ∃ c, resolveBranchForNode 3 3 exampleForks = Some c ∧ ∀ c', owns exampleForks 3 3 c' ↔ c' = c.
Proof.
  apply (branch_resolution_correct exampleForks 3 3); [|lia].
  unfold exampleForks, branchPoints. cbn [foldl bp_NextBranchID]. intros b p Hp.
  apply lookup_insert_Some in Hp as [[<- <-]|[_ Hp]]; [|apply lookup_insert_Some in Hp as [[<- <-]|[_ Hp]]; [|done]]; cbn.
  - split_and!; [lia|lia|]. intros q Hq. rewrite lookup_insert_ne, lookup_insert_eq in Hq by lia. injection Hq as <-. cbn. lia.
  - split_and!; [lia|lia|]. intros q Hq. by rewrite !lookup_insert_ne in Hq by lia.
Defined.

(** A fork before the first node of its parent, as a replay of a forked DAG makes: the tree is no longer one, and the
    nodes of the new branch past the parent's fork are taken for the parent's. *)
Lemma fork_before_parent :
  resolveBranchForNode 7 3 (branchPoints [BranchPoint 5 1 2 None; BranchPoint 0 2 3 None]) = Some 2.
Proof. vm_compute. reflexivity. Qed.

(** ** Batches *)

(** A computation on a list of tasks that does to each what it does to it alone. *)
Definition pointwise {I O} (F : list I → list O + ingestError) : Prop :=
  ∀ i js out, F (i :: js) = inl out ↔ ∃ o os, F [i] = inl [o] ∧ F js = inl os ∧ out = o :: os.

Lemma pointwise_stage {A B} (f : A → outcome B) : pointwise (stage f).
Proof.
  intros [task it] js out. cbn [stage].
  destruct (match it with inl a => f a | inr e => TaskFailed e end) as [b|e|e]; [..|naive_solver];
    destruct (stage f js) as [rest|e']; naive_solver.
Qed.

Lemma pointwise_then {I M O} (F : list I → list M + ingestError) (K : list M → list O + ingestError) :
  pointwise F → pointwise K → pointwise (λ js, andThen (F js) K).
Proof.
  intros HF HK i js out. split.
  - destruct (F (i :: js)) as [ms|e] eqn:HFi; [|done]. cbn [andThen].
    apply HF in HFi as (m & ms' & -> & -> & ->). cbn. intros H. by apply HK in H.
  - intros (o & os & H1 & H2 & ->). destruct (F [i]) as [ms|e] eqn:HFi; [|done]. destruct (F js) as [ms'|e] eqn:HFs; [|done].
    pose proof HFi as HFi'. apply HF in HFi' as (m & ms'' & Hm & Hnil & ->).
    assert (F (i :: js) = inl (m :: ms')) as -> by (apply HF; naive_solver). cbn in *.
    assert (ms'' = []) as -> by congruence. apply HK. exists o, os. by split_and!.
Qed.

Lemma pointwise_attempt {A O} (X : txEnv) (P : A → bool) (s : stmt)
    (K : list (Z * (A + ingestError)) → list O + ingestError) :
  pointwise K → pointwise (λ js, attempt X (existsb P (going js)) s (K js)).
Proof.
  intros HK i js out. unfold attempt.
  assert (existsb P (going (i :: js)) = existsb P (going [i]) || existsb P (going js)) as ->.
  { unfold going. cbn. destruct i.2; cbn; [|done]. by rewrite orb_false_r. }
  destruct (x_fails X s); rewrite ?andb_true_r, ?andb_false_r; [|apply HK].
  destruct (existsb P (going [i])), (existsb P (going js)); cbn; [naive_solver..|]. apply HK.
Qed.

Lemma pointwise_always {I O} (X : txEnv) (s : stmt) (K : list I → list O + ingestError) :
  pointwise K → pointwise (λ js, attempt X true s (K js)).
Proof. intros HK i js out. unfold attempt. cbn. destruct (x_fails X s); [naive_solver|apply HK]. Qed.

Lemma pointwise_ret {I} : pointwise (λ js : list I, inl js).
Proof. intros i js out. naive_solver. Qed.

Section batches.
Context `{Params} (X : txEnv) (db : gmap Z taskLog).

Lemma pointwise_body : pointwise (λ batch, appendBody X batch db).
Proof.
  unfold appendBody. do 2 apply pointwise_always. apply pointwise_then.
  { intros i js out. rewrite fmap_cons. apply (pointwise_stage (lockOne db)). }
  repeat first [apply pointwise_ret | apply pointwise_attempt | apply pointwise_then; [apply pointwise_stage|]].
Qed.

Lemma stage_fst {A B} (f : A → outcome B) items out : stage f items = inl out → out.*1 = items.*1.
Proof.
  revert out. induction items as [|[task it] items IH]; intros out; cbn [stage]; [by intros [= <-]|].
  destruct (match it with inl a => f a | inr e => TaskFailed e end) as [b|e|e]; [..|done];
    (destruct (stage f items) as [rest|]; [|done]); intros [= <-]; cbn; f_equal; by apply IH.
Qed.

Lemma body_fst batch ds : appendBody X batch db = inl ds → ds.*1 = batch.*1.
Proof.
  unfold appendBody, attempt, andThen. intros Hb.
  repeat (match type of Hb with
          | (if ?c then _ else _) = _ => destruct c; [discriminate Hb|]
          | match ?m with inl _ => _ | inr _ => _ end = _ => let E := fresh "Hst" in destruct m eqn:E; [|discriminate Hb]
          end).
  injection Hb as <-.
  repeat match goal with H : stage _ _ = inl _ |- _ => apply stage_fst in H end.
  repeat match goal with H : ?a.*1 = _ |- ?a.*1 = _ => rewrite H; clear H end. by rewrite <- list_fmap_compose.
Qed.

Lemma body_each batch ds :
  appendBody X batch db = inl ds → Forall2 (λ tr d, appendBody X [tr] db = inl [d]) batch ds.
Proof.
  revert ds. induction batch as [|tr batch IH]; intros ds Hds.
  - pose proof (body_fst _ _ Hds) as Hnil. destruct ds; [constructor|done].
  - apply pointwise_body in Hds as (d & ds' & Hd & Hds & ->). constructor; [done|by apply IH].
Qed.

Lemma body_all batch :
  batch ≠ [] → Forall (λ tr, ∃ ds, appendBody X [tr] db = inl ds) batch → ∃ ds, appendBody X batch db = inl ds.
Proof.
  intros Hne Hall. induction Hall as [|tr batch [ds Hds] Hall IH]; [done|].
  destruct batch as [|tr' batch]; [eauto|]. destruct IH as [ds' Hds']; [done|].
  pose proof Hds as Hd. apply pointwise_body in Hd as (d & ? & Hd & _).
  exists (d :: ds'). apply pointwise_body. eauto.
Qed.

Lemma commitLogs_lookup failed ds db' task :
  NoDup ds.*1 → commitLogs failed ds db' !! task =
    match list_find (λ d, d.1 = task) ds ≫= commitOne failed ∘ snd with Some t => Some t | None => db' !! task end.
Proof.
  revert db'. induction ds as [|[t d] ds IH]; intros db' Hnd; [done|]. cbn [commitLogs foldl list_find fmap list_fmap fst snd].
  apply NoDup_cons in Hnd as [Hni Hnd]. unfold commitLogs in IH. rewrite IH by done. cbn.
  destruct (decide (t = task)) as [->|Hne].
  - assert (list_find (λ d, d.1 = task) ds = None) as ->.
    { apply list_find_None, Forall_forall. intros x Hx <-. apply Hni. cbn. by apply (list_elem_of_fmap_2 fst). }
    cbn. destruct (commitOne failed (task, d)); [by rewrite lookup_insert_eq|done].
  - destruct (list_find (λ d, d.1 = task) ds) as [[i d']|]; cbn; [destruct (commitOne failed d'); [done|]|];
      (destruct (commitOne failed (t, d)); [by rewrite lookup_insert_ne|done]).
Qed.

Lemma find_task {A} (l : list (Z * A)) a : NoDup l.*1 → a ∈ l → List.find (λ b, b.1 =? a.1) l = Some a.
Proof.
  intros Hnd Ha. destruct (List.find (λ b, b.1 =? a.1) l) as [b|] eqn:Hf.
  - apply find_some in Hf as [Hb Heq]. apply list_elem_of_In, list_elem_of_lookup_1 in Hb as [i Hi].
    apply list_elem_of_lookup_1 in Ha as [j Hj]. assert (i = j) as ->; [|congruence].
    apply (NoDup_lookup l.*1 i j a.1 Hnd); rewrite list_lookup_fmap; [rewrite Hi|by rewrite Hj]. cbn. f_equal. lia.
  - apply list_elem_of_In in Ha. pose proof (find_none _ _ Hf _ Ha) as Hn. cbn in Hn. lia.
Qed.

(** The log of a task that fails is that of its own request. *)
Lemma failedLog_alone batch tr : NoDup batch.*1 → tr ∈ batch → failedLog batch db tr.1 = failedLog [tr] db tr.1.
Proof. intros Hnd Hin. unfold failedLog. rewrite (find_task batch tr Hnd Hin). cbn. by rewrite Z.eqb_refl. Qed.
End batches.

Section transparent.
Context `{Params}.

(** C17: batching is transparent: a batch of requests of different tasks succeeds exactly when each would as a batch of its
    own, each task is answered what it would be answered alone, its log becomes what it would become alone, and no
    other log changes. *)
Theorem batch_is_transparent (X : txEnv) (batch : list (Z * request)) (db : gmap Z taskLog) :
  batch ≠ [] → NoDup batch.*1 →
  ((∃ rs db', appendDurableEventLogBatch X batch db = (inl rs, db')) ↔
   Forall (λ tr, ∃ rs db', appendDurableEventLogBatch X [tr] db = (inl rs, db')) batch) ∧
  (∀ rs db', appendDurableEventLogBatch X batch db = (inl rs, db') →
    Forall2 (λ tr r, ∃ db1, appendDurableEventLogBatch X [tr] db = (inl [r], db1) ∧ db' !! tr.1 = db1 !! tr.1) batch rs ∧
    ∀ task, task ∉ batch.*1 → db' !! task = db !! task).
Proof.
  intros Hne Hnd. unfold appendDurableEventLogBatch. split; [split|].
  - intros (rs & db' & Hb). destruct (appendBody X batch db) as [ds|] eqn:Hds; [|done].
    destruct (x_fails X Commit); [done|]. eapply Forall2_Forall_l; [by apply body_each|].
    apply Forall_true. intros d tr ->. eauto.
  - intros Hall. destruct (x_fails X Commit) eqn:Hc.
    { destruct batch as [|tr batch]; [done|]. apply Forall_cons in Hall as [(? & ? & Hx) _].
      by destruct (appendBody X [tr] db). }
    destruct (body_all X db batch Hne) as [ds ->]; [|eauto]. eapply Forall_impl; [exact Hall|].
    intros tr (rs & db' & Htr). destruct (appendBody X [tr] db); [eauto|done].
  - intros rs db' Hb. destruct (appendBody X batch db) as [ds|] eqn:Hds; [|done].
    destruct (x_fails X Commit); [done|]. injection Hb as <- <-. pose proof (body_fst _ _ _ _ Hds) as Hfst.
    assert (NoDup ds.*1) as Hndd by by rewrite Hfst. split.
    + apply Forall2_fmap_r. pose proof (body_each _ _ _ _ Hds) as Heach. clear Hds.
      apply Forall2_same_length_lookup_2; [by apply Forall2_length in Heach|]. intros i tr d Htr Hd.
      rewrite Forall2_lookup in Heach. specialize (Heach i). rewrite Htr, Hd in Heach. inversion Heach as [? ? Hone|]; subst.
      rewrite Hone. eexists. split; [done|].
      assert (d.1 = tr.1) as Heq.
      { assert (batch.*1 !! i = Some tr.1) as H1 by by rewrite list_lookup_fmap, Htr.
        rewrite <- Hfst, list_lookup_fmap, Hd in H1. by injection H1. }
      rewrite !commitLogs_lookup by (done || apply NoDup_singleton). cbn [list_find]. rewrite decide_True by done.
      assert (list_find (λ d, d.1 = tr.1) ds = Some (i, d)) as ->.
      { apply list_find_Some. split_and!; [done..|]. intros j d' Hj Hlt Hd'.
        assert (j = i) as ->; [|lia]. eapply (NoDup_lookup ds.*1); [done| |]; rewrite list_lookup_fmap.
        - by rewrite Hj; cbn; rewrite Hd'.
        - by rewrite Hd; cbn; rewrite Heq. }
      cbn. destruct d as [t [f|err]]; [done|]. cbn in Heq. subst t.
      unfold commitOne. cbn [fst snd].
      by rewrite (failedLog_alone db batch tr Hnd (list_elem_of_lookup_2 _ _ _ Htr)).
    + intros task Hni. rewrite commitLogs_lookup by done.
      assert (list_find (λ d, d.1 = task) ds = None) as ->; [|done].
      apply list_find_None, Forall_forall. intros x Hx <-. apply Hni. rewrite <- Hfst. by apply (list_elem_of_fmap_2 fst).
Qed.
End transparent.

(** Two memos, of a task whose invocation is current and of one whose is not. *)
#[local] Instance plainParams : Params := {| uuidString := λ _, ""%string; sha256hex := λ s, s |}.
Definition plainIds : newIds := NewIds Z.of_nat Z.of_nat Z.of_nat.
Definition exampleBatch : list (Z * request) :=
  [(1, Request (IngestOpts 11 1 (Memo "p" "k")) plainIds); (2, Request (IngestOpts 12 5 (Memo "p" "k")) plainIds)].
Definition exampleLogs : gmap Z taskLog :=
  {[1 := incrementInvocationCount emptyLog; 2 := incrementInvocationCount emptyLog]}.

Lemma batch_is_transparent_witness :
  Forall (λ tr, ∃ rs db', appendDurableEventLogBatch (TxEnv (λ _, false) true true) [tr] exampleLogs = (inl rs, db')) exampleBatch.
Proof.
  apply (batch_is_transparent (TxEnv (λ _, false) true true) exampleBatch exampleLogs).
  - discriminate.
  - apply (bool_decide_unpack _). vm_compute. exact I.
  - eexists _, _. vm_compute. reflexivity.
Defined.

End EventLogTheorems.
