(* ===== verification/ReplayPlan.v ===== *)
(** The plan of a request in closed form: the children of a request and their ids, the entries it asks for, and what
    getting or creating them does to the log. *)

From S2P Require Import Prelude Workers LogTables EventLog EventLogOps EventLogTheorems.
Import Workers LogTables EventLog EventLogOps EventLogTheorems.

Module ReplayPlan.

Open Scope Z_scope.

(** ** Creating entries *)

Definition createStep (all : list createRow) (t : taskLog)
    (acc : list V1DurableEventLogEntry * gmap entryKey V1DurableEventLogEntry) (r : createRow) :=
  match acc.2 !! rowKey r with
  | Some _ => acc
  | None => (acc.1 ++ [newEntry all t r], <[rowKey r := newEntry all t r]> acc.2)
  end.

Lemma createEntries_eq inputs t f :
  t_file t = Some f →
  createEntries inputs t =
    let '(out, es) := foldl (createStep inputs t) ([], t_entries t) inputs in
    (out, raiseOrder (omap e_SatisfiedOrder out) (set_entries es t)).
Proof. intros Hf. unfold createEntries. by rewrite Hf. Qed.

(** New keys are all created, as they are given. *)
Lemma createStep_new all t rows out es :
  NoDup (rowKey <$> rows) → (∀ r, r ∈ rows → es !! rowKey r = None) →
  foldl (createStep all t) (out, es) rows =
    (out ++ (newEntry all t <$> rows), list_to_map ((λ r, (rowKey r, newEntry all t r)) <$> rows) ∪ es).
Proof.
  revert out es. induction rows as [|r rows IH]; intros out es Hnd Hnew; cbn [foldl].
  - rewrite !fmap_nil, app_nil_r. by rewrite list_to_map_nil, (left_id_L ∅ (∪)).
  - rewrite fmap_cons in Hnd. apply NoDup_cons in Hnd as [Hni Hnd].
    unfold createStep at 2. cbn [snd fst]. rewrite Hnew by constructor. rewrite IH; [|done|].
    + rewrite <- app_assoc. f_equal. rewrite fmap_cons, list_to_map_cons.
      rewrite <- insert_union_l, insert_union_r; [done|]. apply not_elem_of_list_to_map_1.
      rewrite <- list_fmap_compose. exact Hni.
    + intros r' Hr'. rewrite lookup_insert_ne; [by apply Hnew; constructor|]. intros Heq. apply Hni. rewrite Heq.
      by apply list_elem_of_fmap_2.
Qed.

Lemma createEntries_new inputs t f :
  t_file t = Some f → NoDup (rowKey <$> inputs) → (∀ r, r ∈ inputs → t_entries t !! rowKey r = None) →
  createEntries inputs t =
    (newEntry inputs t <$> inputs,
     raiseOrder (omap e_SatisfiedOrder (newEntry inputs t <$> inputs))
       (set_entries (list_to_map ((λ r, (rowKey r, newEntry inputs t r)) <$> inputs) ∪ t_entries t) t)).
Proof. intros Hf Hnd Hnew. rewrite (createEntries_eq _ _ _ Hf), createStep_new by done. by rewrite app_nil_l. Qed.

(** ** The children of a request *)

Section children.
Context `{Params}.

Definition keyed (o : WorkflowNameTriggerOpts) : Prop := childSpawnKey o ≠ ""%string.

(** No two children of the request have the same spawn key. *)
Definition keysDistinct (opts : list WorkflowNameTriggerOpts) : Prop :=
  ∀ i j o o', opts !! i = Some o → opts !! j = Some o' → keyed o → childSpawnKey o = childSpawnKey o' → i = j.

Lemma keysDistinct_cons o opts : keysDistinct (o :: opts) → keysDistinct opts.
Proof. intros Hd i j o1 o2 Hi Hj Hk Heq. specialize (Hd (S i) (S j) o1 o2 Hi Hj Hk Heq). lia. Qed.

Lemma candidates_lookup ids acc n opts :
  keysDistinct opts → (∀ o, o ∈ opts → keyed o → childSpawnKey o ∉ acc.*1) →
  ∃ cs, foldl (addCandidate ids) acc (imap (λ i o, ((n + i)%nat, o)) opts) = acc ++ cs ∧ NoDup cs.*1 ∧
    (∀ key id, (key, id) ∈ cs ↔ ∃ i o, opts !! i = Some o ∧ keyed o ∧ key = childSpawnKey o ∧ id = n_child ids (n + i)).
Proof.
  revert acc n. induction opts as [|o opts IH]; intros acc n Hd Hacc.
  { exists []. cbn. rewrite app_nil_r. split_and!; [done|constructor|]. intros key id. split; [by intros ?%elem_of_nil|].
    by intros (i & o & ? & _). }
  rewrite imap_cons. cbn [foldl]. unfold addCandidate at 2. cbn [snd fst].
  assert (∀ acc, foldl (addCandidate ids) acc (imap ((λ i o, ((n + i)%nat, o)) ∘ S) opts) =
    foldl (addCandidate ids) acc (imap (λ i o, ((S n + i)%nat, o)) opts)) as Hshift.
  { intros acc'. f_equal. apply imap_ext. intros. cbn. f_equal. lia. }
  rewrite Hshift, Nat.add_0_r. destruct (decide (childSpawnKey o = ""%string)) as [He|Hk].
  - rewrite bool_decide_true by done. cbn [orb].
    destruct (IH acc (S n)) as (cs & -> & Hnd & Hcs); [by eapply keysDistinct_cons|by intros; apply Hacc; [constructor|]|].
    exists cs. split_and!; [done..|]. intros key id. rewrite Hcs. split.
    + intros (i & o' & Ho & ? & ? & ->). exists (S i), o'. split_and!; try done. f_equal. lia.
    + intros ([|i] & o' & Ho & Hk & ? & ->); cbn in Ho; [by simplify_eq|]. exists i, o'. split_and!; try done. f_equal. lia.
  - rewrite bool_decide_false by done. rewrite bool_decide_false by (apply Hacc; [constructor|done]). cbn [orb].
    assert (∀ o', o' ∈ opts → keyed o' → childSpawnKey o' ≠ childSpawnKey o) as Hne.
    { intros o' [j Hj]%list_elem_of_lookup Hk' Heq. by specialize (Hd (S j) 0%nat o' o Hj eq_refl Hk' Heq). }
    destruct (IH (acc ++ [(childSpawnKey o, n_child ids n)]) (S n)) as (cs & -> & Hnd & Hcs); [by eapply keysDistinct_cons|..].
    { intros o' Ho' Hk'. rewrite fmap_app, elem_of_app. intros [Hin|Hin]; [by eapply Hacc; [by constructor|..]|].
      apply list_elem_of_singleton in Hin. by eapply Hne. }
    exists ((childSpawnKey o, n_child ids n) :: cs). rewrite <- app_assoc. split_and!; [done|..].
    + rewrite fmap_cons. apply NoDup_cons. split; [|done]. intros [[key id] [Heq Hin]]%list_elem_of_fmap. cbn in Heq.
      apply Hcs in Hin as (i & o' & Hi & Hk' & -> & ->). eapply Hne; [by eapply list_elem_of_lookup_2|done..].
    + intros key id. rewrite elem_of_cons, Hcs. split.
      * intros [[= -> ->]|(i & o' & Ho & ? & ? & ->)]; [exists 0%nat, o; rewrite Nat.add_0_r; done|].
        exists (S i), o'. split_and!; try done. f_equal. lia.
      * intros ([|i] & o' & Ho & Hk' & ? & ->); cbn in Ho.
        -- left. simplify_eq. by rewrite Nat.add_0_r.
        -- right. exists i, o'. split_and!; try done. f_equal. lia.
Qed.

(** The signals after the request: a key that was used keeps its child. *)
Lemma upsert_signals cs t :
  upsertSignals cs t =
    (list_to_map (omap (λ kv, (λ c, (kv.1, c)) <$> (t_signals t ∪ list_to_map cs) !! kv.1) cs),
     TaskLog (t_file t) (t_entries t) (t_points t) (t_signals t ∪ list_to_map cs)).
Proof.
  unfold upsertSignals.
  assert (∀ m : gmap string uuid, foldl (λ m kv, match m !! kv.1 with Some _ => m | None => <[kv.1 := kv.2]> m end) m cs
    = m ∪ list_to_map cs) as Hf; [|by rewrite Hf].
  induction cs as [|[key id] cs IH]; intros m; cbn [foldl].
  - by rewrite list_to_map_nil, (right_id_L ∅ (∪)).
  - rewrite IH. cbn [fst snd]. apply map_eq. intros k. destruct (m !! key) as [c|] eqn:Hm.
    + destruct (decide (k = key)) as [->|Hne]; [by rewrite !lookup_union_l' by eauto|].
      rewrite list_to_map_cons. rewrite !lookup_union, lookup_insert_ne by done. done.
    + rewrite list_to_map_cons. rewrite !lookup_union. destruct (decide (k = key)) as [->|Hne].
      * rewrite !lookup_insert_eq, Hm. by destruct (list_to_map cs !! key).
      * by rewrite !lookup_insert_ne by done.
Qed.

Definition resolvedOpt (ids : newIds) (signals : gmap string uuid) (i : nat) (o : WorkflowNameTriggerOpts) :
    WorkflowNameTriggerOpts :=
  if decide (childSpawnKey o = ""%string) then set_child (n_child ids i) (to_ShouldSkip o) o
  else
    match signals !! childSpawnKey o with
    | Some c => set_child c (bool_decide (n_child ids i ≠ c)) o
    | None => set_child (n_child ids i) false o
    end.

Lemma assign_closed ids candidate resolved signals seen n opts :
  keysDistinct opts →
  (∀ i o, opts !! i = Some o → keyed o → childSpawnKey o ∉ seen ∧
    candidate !! childSpawnKey o = Some (n_child ids (n + i)) ∧
    resolved !! childSpawnKey o = Some (default (n_child ids (n + i)) (signals !! childSpawnKey o))) →
  assignIds ids candidate resolved seen n opts = Done (imap (λ i o, resolvedOpt ids signals (n + i) o) opts).
Proof.
  revert seen n. induction opts as [|o opts IH]; intros seen n Hd Hopts; [done|]. cbn [assignIds].
  assert (imap ((λ i o, resolvedOpt ids signals (n + i) o) ∘ S) opts = imap (λ i o, resolvedOpt ids signals (S n + i) o) opts)
    as Hshift by (apply imap_ext; intros; cbn; f_equal; lia).
  rewrite imap_cons, Hshift, Nat.add_0_r. unfold resolvedOpt at 1.
  destruct (decide (childSpawnKey o = ""%string)) as [He|Hk].
  - rewrite bool_decide_true by done. rewrite IH; [done|by eapply keysDistinct_cons|].
    intros i o' Hi Hk. specialize (Hopts (S i) o' Hi Hk). by rewrite Nat.add_succ_r in Hopts.
  - rewrite bool_decide_false by done. pose proof (Hopts 0%nat o eq_refl Hk) as (Hs & Hc & Hr). rewrite Nat.add_0_r in Hc, Hr.
    rewrite Hr, (bool_decide_false (_ ∈ seen)) by done. cbn [orb]. rewrite IH; [|by eapply keysDistinct_cons|].
    + cbn. f_equal. f_equal. rewrite Hc. destruct (signals !! childSpawnKey o) as [c|]; cbn.
      * f_equal. apply bool_decide_ext. naive_solver.
      * f_equal. apply bool_decide_false. naive_solver.
    + intros i o' Hi Hk'. specialize (Hopts (S i) o' Hi Hk'). rewrite Nat.add_succ_r in Hopts. destruct Hopts as [Hs' Hrest].
      split; [|done]. rewrite elem_of_union, elem_of_singleton. intros [Heq|?]; [|done].
      by specialize (Hd (S i) 0%nat o' o Hi eq_refl Hk' Heq).
Qed.

Definition signalsAfter (ids : newIds) (opts : list WorkflowNameTriggerOpts) (t : taskLog) : gmap string uuid :=
  t_signals t ∪ list_to_map (candidates ids opts).

Lemma signalsAfter_lookup ids opts t i o :
  keysDistinct opts → opts !! i = Some o → keyed o →
  signalsAfter ids opts t !! childSpawnKey o = Some (default (n_child ids i) (t_signals t !! childSpawnKey o)).
Proof.
  intros Hd Hi Hk. unfold signalsAfter. rewrite lookup_union.
  destruct (candidates_lookup ids [] 0 opts Hd) as (cs & Hcs & Hnd & Hin); [by intros ? _ _ ?%elem_of_nil|].
  assert (list_to_map (M := gmap string uuid) (candidates ids opts) !! childSpawnKey o = Some (n_child ids i)) as ->.
  { unfold candidates. replace (imap pair opts) with (imap (λ i o, ((0 + i)%nat, o)) opts) by by apply imap_ext.
    rewrite Hcs. apply elem_of_list_to_map_1; [done|]. apply Hin. by exists i, o. }
  by destruct (t_signals t !! childSpawnKey o).
Qed.

Lemma resolve_closed ids opts t :
  keysDistinct opts →
  resolveChildExternalIds ids opts t =
    Done (imap (resolvedOpt ids (t_signals t)) opts, TaskLog (t_file t) (t_entries t) (t_points t) (signalsAfter ids opts t)).
Proof.
  intros Hd. unfold resolveChildExternalIds. rewrite upsert_signals. fold (signalsAfter ids opts t).
  destruct (candidates_lookup ids [] 0 opts Hd) as (cs & Hcs & Hnd & Hin); [by intros ? _ _ ?%elem_of_nil|].
  replace (imap (λ i o, ((0 + i)%nat, o)) opts) with (imap pair opts) in Hcs by by apply imap_ext.
  fold (candidates ids opts) in Hcs. cbn [app] in Hcs.
  rewrite (assign_closed _ _ _ (t_signals t)); [done|done|]. intros i o Hi Hk. split; [by apply not_elem_of_empty|].
  assert ((childSpawnKey o, n_child ids i) ∈ cs) as Hmem by (apply Hin; by exists i, o). split.
  - rewrite Hcs. by apply elem_of_list_to_map_1.
  - rewrite Hcs. cbn [Nat.add].
    assert (∀ c, signalsAfter ids opts t !! childSpawnKey o = Some c →
      (childSpawnKey o, c) ∈ omap (λ kv : string * uuid, (λ c, (kv.1, c)) <$> signalsAfter ids opts t !! kv.1) cs) as Hom.
    { intros c Hc. apply list_elem_of_omap. exists (childSpawnKey o, n_child ids i). split; [done|]. cbn. by rewrite Hc. }
    apply elem_of_list_to_map_1.
    + clear -Hnd. induction cs as [|[key id] cs IH]; [constructor|]. rewrite fmap_cons in Hnd. apply NoDup_cons in Hnd as [Hni Hnd].
      cbn. destruct (signalsAfter ids opts t !! key); [|by apply IH]. cbn. apply NoDup_cons. split; [|by apply IH].
      intros [[k c'] [Hk Hx]]%list_elem_of_fmap. cbn in Hk. subst k.
      apply list_elem_of_omap in Hx as ([k' id'] & Hx & Hk'). cbn in Hk'.
      destruct (signalsAfter ids opts t !! k'); [|done]. injection Hk' as -> _. apply Hni. by apply (list_elem_of_fmap_2 fst _ (key, id')).
    + apply Hom. by apply signalsAfter_lookup.
Qed.

(** ** The plan of a request *)

(** A well-formed log: its branches are a tree, rows are stored under their key, and no child has two entries. *)
Record logOk (t : taskLog) (f : V1DurableEventLogFile) : Prop := {
  lo_file : t_file t = Some f;
  lo_tree : treeOk (branchPoints (t_points t));
  lo_key : ∀ k e, t_entries t !! k = Some e → keyOf e = k ∧ 0 ≤ e_NodeID e;
  lo_child : ∀ k1 k2 e1 e2 c, t_entries t !! k1 = Some e1 → t_entries t !! k2 = Some e2 →
    e_ChildTaskExternalID e1 = Some c → e_ChildTaskExternalID e2 = Some c → k1 = k2;
  lo_nil : ∀ k e, t_entries t !! k = Some e → e_ChildTaskExternalID e ≠ Some uuidNil;
  lo_node : 0 ≤ f_LatestNodeID f;
}.

(** The branch of a node seen from the latest branch. *)
Definition branchOf (t : taskLog) (f : V1DurableEventLogFile) (n : Z) : Z :=
  default 0 (resolveBranchForNode n (f_LatestBranchID f) (branchPoints (t_points t))).

Lemma branchOf_resolve t f n :
  logOk t f → 0 ≤ n → resolveBranchForNode n (f_LatestBranchID f) (branchPoints (t_points t)) = Some (branchOf t f n).
Proof.
  intros Ht Hn. destruct (branch_resolves _ n (f_LatestBranchID f) (lo_tree _ _ Ht) Hn) as (c & Hc & _).
  unfold branchOf. by rewrite Hc.
Qed.

(** The entry of a child on the active branch. *)
Definition isActive (t : taskLog) (f : V1DurableEventLogFile) (c : uuid) (e : V1DurableEventLogEntry) : bool :=
  bool_decide (e_ChildTaskExternalID e = Some c) && (branchOf t f (e_NodeID e) =? e_BranchID e).
Definition activeKey (t : taskLog) (f : V1DurableEventLogFile) (c : uuid) : option entryKey :=
  keyOf <$> List.find (isActive t f c) (rows t).

Lemma elem_of_rows t e : e ∈ rows t ↔ ∃ k, t_entries t !! k = Some e.
Proof.
  unfold rows. rewrite list_elem_of_fmap. split.
  - intros ([k e'] & -> & Hk%elem_of_map_to_list). eauto.
  - intros [k Hk]. exists (k, e). split; [done|]. by apply elem_of_map_to_list.
Qed.

Lemma activeKey_Some t f c k :
  logOk t f → activeKey t f c = Some k ↔
    ∃ e, t_entries t !! k = Some e ∧ e_ChildTaskExternalID e = Some c ∧ branchOf t f (e_NodeID e) = e_BranchID e.
Proof.
  intros Ht. unfold activeKey. split.
  - destruct (List.find _ _) as [e|] eqn:Hf; [|done]. intros [= <-]. apply find_some in Hf as [Hin Ha].
    apply list_elem_of_In, elem_of_rows in Hin as [k Hk]. apply andb_true_iff in Ha as [Hc%bool_decide_eq_true Hb%Z.eqb_eq].
    exists e. destruct (lo_key _ _ Ht _ _ Hk) as [-> _]. done.
  - intros (e & Hk & Hc & Hb). destruct (List.find _ _) as [e'|] eqn:Hf.
    + apply find_some in Hf as [Hin Ha]. apply list_elem_of_In, elem_of_rows in Hin as [k' Hk'].
      apply andb_true_iff in Ha as [Hc'%bool_decide_eq_true _]. cbn. destruct (lo_key _ _ Ht _ _ Hk') as [-> _].
      f_equal. by eapply lo_child.
    + exfalso. eapply find_none in Hf; [|by apply list_elem_of_In, elem_of_rows; eauto].
      unfold isActive in Hf. rewrite bool_decide_true in Hf by done. by rewrite Hb, Z.eqb_refl in Hf.
Qed.

Lemma addChildRows_active t f acc l :
  logOk t f → (∀ e, e ∈ l → 0 ≤ e_NodeID e) →
  ∃ ch, addChildRows (f_LatestBranchID f) (branchPoints (t_points t)) acc l = Done ch ∧
    ∀ c, c ∈ ch_onActive ch ↔ c ∈ ch_onActive acc ∨ ∃ e, e ∈ l ∧ isActive t f c e = true.
Proof.
  intros Ht. revert acc. induction l as [|e l IH]; intros acc Hl; cbn [addChildRows].
  { eexists. split; [done|]. intros c. split; [auto|]. intros [?|(e & He & _)]; [done|]. by apply elem_of_nil in He. }
  unfold addChildRow. destruct (e_ChildTaskExternalID e) as [c0|] eqn:Hc0.
  - rewrite (branchOf_resolve _ _ _ Ht) by (apply Hl; constructor). cbn.
    destruct (IH (ChildRows (if branchOf t f (e_NodeID e) =? e_BranchID e then {[c0]} ∪ ch_onActive acc else ch_onActive acc)
      (match ch_latest acc !! c0 with
       | Some latest => if e_BranchID latest <? e_BranchID e then <[c0 := e]> (ch_latest acc) else ch_latest acc
       | None => <[c0 := e]> (ch_latest acc) end))) as (ch & Hch & Hin); [by intros; apply Hl; constructor|].
    exists ch. split; [exact Hch|]. intros c. rewrite Hin. cbn [ch_onActive]. setoid_rewrite elem_of_cons.
    assert (isActive t f c e = true ↔ c = c0 ∧ branchOf t f (e_NodeID e) = e_BranchID e) as Ha.
    { unfold isActive. rewrite Hc0, andb_true_iff, bool_decide_eq_true, Z.eqb_eq. naive_solver. }
    destruct (Z.eqb_spec (branchOf t f (e_NodeID e)) (e_BranchID e)); [rewrite elem_of_union, elem_of_singleton|]; naive_solver.
  - cbn. destruct (IH acc) as (ch & Hch & Hin); [by intros; apply Hl; constructor|]. exists ch. split; [done|].
    intros c. rewrite Hin. setoid_rewrite elem_of_cons.
    assert (isActive t f c e = false) by (unfold isActive; by rewrite Hc0, bool_decide_false).
    split; [intros [?|(e' & ? & ?)]; eauto|intros [?|(e' & [->|?] & ?)]; [auto|congruence|eauto]].
Qed.

Definition isSome {A} (o : option A) : bool := match o with Some _ => true | None => false end.

(** What becomes of a child that is deduplicated: it stays so when it is on the active branch. *)
Definition dedupedOpt (ids : newIds) (t : taskLog) (f : V1DurableEventLogFile) (i : nat) (o : WorkflowNameTriggerOpts) :
    WorkflowNameTriggerOpts :=
  if to_ShouldSkip o && negb (isSome (activeKey t f (to_ExternalId o))) then set_child (n_orphan ids i) false o else o.

Lemma dedupe_plain forced ch fresh o :
  to_ReplayOrphanedChildren o = false →
  dedupeChild forced ch fresh o =
    (false, if to_ShouldSkip o && negb (bool_decide (to_ExternalId o ∈ ch_onActive ch)) then set_child fresh false o else o).
Proof.
  intros Hr. unfold dedupeChild. rewrite Hr. destruct (to_ShouldSkip o); cbn [negb orb andb]; [|done].
  destruct (bool_decide (to_ExternalId o ∈ ch_onActive ch)); cbn [negb]; [done|]. by destruct (ch_latest ch !! to_ExternalId o).
Qed.

Lemma elem_of_listByChildren ids t e :
  e ∈ listByChildren ids t ↔ e ∈ rows t ∧ ∃ c, e_ChildTaskExternalID e = Some c ∧ c ∈ ids.
Proof.
  unfold listByChildren. rewrite merge_sort_Permutation, list_elem_of_In, filter_In, <- list_elem_of_In.
  destruct (e_ChildTaskExternalID e) as [c|]; [rewrite bool_decide_eq_true|]; naive_solver.
Qed.

Lemma imap_id {A} (g : nat → A → A) l : (∀ i a, l !! i = Some a → g i a = a) → imap g l = l.
Proof.
  revert g. induction l as [|a l IH]; intros g Hg; [done|]. rewrite imap_cons, (Hg 0%nat a eq_refl). f_equal.
  apply IH. intros i b Hb. by apply (Hg (S i)).
Qed.

Lemma orphans_closed fails task ids t f opts :
  logOk t f → Forall (λ o, to_ReplayOrphanedChildren o = false) opts →
  resolveOrphanedChildDedupes fails task ids f opts t =
    if existsb to_ShouldSkip opts && fails (ListChildren task) then Fatal (StatementFailed (ListChildren task))
    else Done (∅, imap (dedupedOpt ids t f) opts).
Proof.
  intros Ht Hplain. unfold resolveOrphanedChildDedupes.
  destruct (existsb to_ShouldSkip opts) eqn:Hsk.
  - apply existsb_exists in Hsk as (o & Hin & Hs).
    assert (to_ExternalId <$> List.filter to_ShouldSkip opts ≠ []) as Hne.
    { intros Hnil%fmap_nil_inv. assert (o ∈ List.filter to_ShouldSkip opts) as Ho by by apply list_elem_of_In, filter_In.
      rewrite Hnil in Ho. by apply elem_of_nil in Ho. }
    destruct (to_ExternalId <$> List.filter to_ShouldSkip opts) as [|x xs] eqn:Hskip; [done|]. rewrite <- Hskip. cbn [andb].
    destruct (fails (ListChildren task)); [done|].
    destruct (addChildRows_active t f (ChildRows ∅ ∅) (listByChildren (to_ExternalId <$> List.filter to_ShouldSkip opts) t) Ht)
      as (ch & -> & Hact).
    { intros e [[k Hk]%elem_of_rows _]%elem_of_listByChildren. by eapply lo_key. }
    cbn. set (decided := imap _ opts).
    assert (decided = imap (λ i o, (false, dedupedOpt ids t f i o)) opts) as ->.
    { unfold decided. clear decided. apply imap_ext. intros i o' Ho'.
      rewrite dedupe_plain by (rewrite Forall_forall in Hplain; apply Hplain; by eapply list_elem_of_lookup_2).
      f_equal. unfold dedupedOpt. destruct (to_ShouldSkip o') eqn:Hso; [|done]. cbn [andb].
      replace (isSome (activeKey t f (to_ExternalId o'))) with (bool_decide (to_ExternalId o' ∈ ch_onActive ch)); [done|].
      destruct (activeKey t f (to_ExternalId o')) as [k|] eqn:Hk; cbn [isSome].
      - apply bool_decide_true, Hact. right. apply (activeKey_Some _ _ _ _ Ht) in Hk as (e & He & Hc & Hb). exists e. split.
        + apply elem_of_listByChildren. split; [apply elem_of_rows; eauto|]. exists (to_ExternalId o'). split; [done|].
          apply list_elem_of_fmap_2, list_elem_of_In, filter_In. split; [|done]. apply list_elem_of_In. by eapply list_elem_of_lookup_2.
        + unfold isActive. rewrite bool_decide_true by done. by rewrite Hb, Z.eqb_refl.
      - apply bool_decide_false. intros [?%not_elem_of_empty|(e & He & Ha)]%Hact; [done|].
        apply elem_of_listByChildren in He as [[k Hek]%elem_of_rows _].
        apply andb_true_iff in Ha as [Hc%bool_decide_eq_true Hb%Z.eqb_eq].
        assert (activeKey t f (to_ExternalId o') = Some k); [|congruence]. apply activeKey_Some; eauto. }
    unfold mret, outcome_ret. f_equal. f_equal.
    + assert (List.filter fst (imap (λ i o, (false, dedupedOpt ids t f i o)) opts) = []) as ->; [|done].
      generalize (dedupedOpt ids t f). clear. induction opts as [|o opts IH]; intros g; [done|]. rewrite imap_cons. cbn.
      apply (IH (g ∘ S)).
    + rewrite fmap_imap. by apply imap_ext.
  - pose proof (existsb_filter to_ShouldSkip opts) as Hf. rewrite Hsk in Hf. destruct (List.filter to_ShouldSkip opts); [|done].
    cbn. unfold mret, outcome_ret. f_equal. f_equal. symmetry. apply imap_id. intros i o Hi. unfold dedupedOpt.
    destruct (to_ShouldSkip o) eqn:Hso; [|done]. exfalso. rewrite <- not_true_iff_false in Hsk. apply Hsk, existsb_exists.
    exists o. split; [|done]. apply list_elem_of_In. by eapply list_elem_of_lookup_2.
Qed.

(** The child of an option that is not triggered again: its key was used, and the child is on the active branch. *)
Definition keptChild (t : taskLog) (f : V1DurableEventLogFile) (o : WorkflowNameTriggerOpts) : option uuid :=
  if decide (childSpawnKey o = ""%string) then None
  else c ← t_signals t !! childSpawnKey o; if isSome (activeKey t f c) then Some c else None.

(** The id of a child that is triggered: a key that was used for a child that is no longer active gets another. *)
Definition childId (ids : newIds) (t : taskLog) (i : nat) (o : WorkflowNameTriggerOpts) : uuid :=
  if decide (childSpawnKey o = ""%string) then n_child ids i
  else match t_signals t !! childSpawnKey o with None => n_child ids i | Some _ => n_orphan ids i end.

Definition runKey (o : WorkflowNameTriggerOpts) : string := createIdempotencyKey RUN (Some o) [].

(** The entries of a RUN request in closed form. *)
Fixpoint planEntries (ids : newIds) (t : taskLog) (f : V1DurableEventLogFile) (i : nat) (node : Z)
    (opts : list WorkflowNameTriggerOpts) : list GetOrCreateLogEntryOpt :=
  match opts with
  | [] => []
  | o :: opts =>
      match keptChild t f o with
      | Some c =>
          LogEntryOpt RUN (match to_ChildKey o with None => runKey o | Some _ => ""%string end) "" 0 0 false
            (to_IsDagStepTrigger o) c true false :: planEntries ids t f (S i) node opts
      | None =>
          LogEntryOpt RUN (runKey o) "" node (branchOf t f node) (to_IsCancelled o || to_IsSkipped o)
            (to_IsDagStepTrigger o) (childId ids t i o) false false :: planEntries ids t f (S i) (node + 1) opts
      end
  end.

(** An id that no child of the log has. *)
Record freshId (t : taskLog) (c : uuid) : Prop := {
  fr_nil : c ≠ uuidNil;
  fr_signal : ∀ key, t_signals t !! key ≠ Some c;
  fr_entry : ∀ k e, t_entries t !! k = Some e → e_ChildTaskExternalID e ≠ Some c;
}.

(** A request as the dispatcher makes it, of a task that is not a DAG; its new ids were not used before. *)
Record goodRuns (ids : newIds) (t : taskLog) (opts : list WorkflowNameTriggerOpts) : Prop := {
  gr_distinct : keysDistinct opts;
  gr_plain : Forall (λ o, to_ReplayOrphanedChildren o = false ∧ to_ShouldSkip o = false) opts;
  gr_child : ∀ i, freshId t (n_child ids i);
  gr_orphan : ∀ i, freshId t (n_orphan ids i);
  gr_child_inj : ∀ i j, n_child ids i = n_child ids j → i = j;
  gr_orphan_inj : ∀ i j, n_orphan ids i = n_orphan ids j → i = j;
  gr_apart : ∀ i j, n_child ids i ≠ n_orphan ids j;
}.

Lemma final_opt ids t f i o :
  to_ShouldSkip o = false → (∀ key c, t_signals t !! key = Some c → n_child ids i ≠ c) →
  dedupedOpt ids t f i (resolvedOpt ids (t_signals t) i o) =
    match keptChild t f o with Some c => set_child c true o | None => set_child (childId ids t i o) false o end.
Proof.
  intros Hs Hfresh. unfold resolvedOpt, keptChild, childId. destruct (decide (childSpawnKey o = ""%string)) as [He|Hk].
  - unfold dedupedOpt. cbn. by rewrite Hs.
  - destruct (t_signals t !! childSpawnKey o) as [c|] eqn:Hc; cbn; [|done].
    rewrite bool_decide_true by by eapply Hfresh. unfold dedupedOpt. cbn. by destruct (activeKey t f c).
Qed.

Lemma planRuns_closed ids t f i node opts :
  logOk t f → 0 ≤ node →
  planRuns (f_LatestBranchID f) (branchPoints (t_points t)) ∅ node
    (imap (λ j o, match keptChild t f o with
                  | Some c => set_child c true o | None => set_child (childId ids t (i + j) o) false o end) opts) =
    Done (planEntries ids t f i node opts).
Proof.
  intros Ht. revert i node. induction opts as [|o opts IH]; intros i node Hn; [done|].
  rewrite imap_cons, Nat.add_0_r. cbn [planEntries].
  assert (∀ node, 0 ≤ node → planRuns (f_LatestBranchID f) (branchPoints (t_points t)) ∅ node
    (imap ((λ j o, match keptChild t f o with
                  | Some c => set_child c true o | None => set_child (childId ids t (i + j) o) false o end) ∘ S) opts) =
    Done (planEntries ids t f (S i) node opts)) as Hrest.
  { intros node' Hn'. rewrite <- (IH (S i)) by done. f_equal. apply imap_ext. intros j o' _. cbn. by rewrite Nat.add_succ_r. }
  destruct (keptChild t f o) as [c|]; cbn [planRuns to_ShouldSkip set_child to_ChildKey].
  - rewrite Hrest by done. done.
  - rewrite (branchOf_resolve _ _ _ Ht) by done. cbn [unchecked]. unfold mbind, outcome_bind. cbn. rewrite Hrest by lia. done.
Qed.

Lemma plan_closed fails task ids t f opts :
  logOk t f → goodRuns ids t opts →
  let t1 := TaskLog (t_file t) (t_entries t) (t_points t) (signalsAfter ids opts t) in
  let resolved := imap (resolvedOpt ids (t_signals t)) opts in
  planDurableEventLogAppend fails task ids (TriggerRuns resolved) f t1 =
    if existsb to_ShouldSkip resolved && fails (ListChildren task) then Fatal (StatementFailed (ListChildren task))
    else Done (planEntries ids t f 0 (f_LatestNodeID f + 1) opts,
               childOpts (imap (λ i o, match keptChild t f o with
                 | Some c => set_child c true o | None => set_child (childId ids t i o) false o end) opts)).
Proof.
  intros Ht [Hd Hp Hfr _ _ _ _] t1 resolved. unfold planDurableEventLogAppend.
  assert (logOk t1 f) as Ht1 by (destruct Ht; by split).
  rewrite (orphans_closed _ _ _ _ _ _ Ht1).
  2: { apply Forall_forall. intros o [i Hi]%list_elem_of_lookup. unfold resolved in Hi. rewrite list_lookup_imap in Hi.
       destruct (opts !! i) as [o'|] eqn:Ho; [|done]. injection Hi as <-. rewrite Forall_forall in Hp.
       destruct (Hp o') as [Hr _]; [by eapply list_elem_of_lookup_2|]. unfold resolvedOpt. repeat case_match; exact Hr. }
  destruct (existsb to_ShouldSkip resolved && fails (ListChildren task)); [done|].
  assert (imap (dedupedOpt ids t1 f) resolved = imap (λ i o, match keptChild t f o with
    | Some c => set_child c true o | None => set_child (childId ids t i o) false o end) opts) as Himap.
  { unfold resolved. apply list_eq. intros i. rewrite !list_lookup_imap. destruct (opts !! i) as [o|] eqn:Hi; [|done]. cbn.
    f_equal. apply (final_opt ids t f); [|intros key c Hs Heq; apply (fr_signal _ _ (Hfr i) key); by rewrite Heq]. rewrite Forall_forall in Hp. apply Hp. by eapply list_elem_of_lookup_2. }
  cbn [mbind outcome_bind]. unfold mbind, outcome_bind. cbv beta iota. rewrite Himap.
  pose proof (planRuns_closed ids t f 0 (f_LatestNodeID f + 1) opts Ht) as Hpl. cbn [Nat.add] in Hpl.
  change (t_points t1) with (t_points t). rewrite Hpl by (pose proof (lo_node _ _ Ht); lia). done.
Qed.

(** ** Getting or creating the entries of a plan *)

Definition nullIfNil (c : uuid) : option uuid := if bool_decide (c = uuidNil) then None else Some c.

(** A plan that fits the log: new entries are at distinct nodes of the active branch, their children are new, and the
    children that are skipped are active. *)
Record planOk (t : taskLog) (f : V1DurableEventLogFile) (es : list GetOrCreateLogEntryOpt) : Prop := {
  po_nodes : NoDup (o_NodeId <$> nonSkipOpts es);
  po_branch : ∀ o, o ∈ nonSkipOpts es → o_BranchId o = branchOf t f (o_NodeId o) ∧ 0 ≤ o_NodeId o;
  po_fresh : ∀ o k e, o ∈ nonSkipOpts es → t_entries t !! k = Some e →
    e_ChildTaskExternalID e ≠ nullIfNil (o_ChildTaskExternalId o) ∨ o_ChildTaskExternalId o = uuidNil;
  po_children : ∀ i j o o', nonSkipOpts es !! i = Some o → nonSkipOpts es !! j = Some o' →
    o_ChildTaskExternalId o = o_ChildTaskExternalId o' → o_ChildTaskExternalId o ≠ uuidNil → i = j;
  po_skip : ∀ o, o ∈ skipOpts es → is_Some (activeKey t f (o_ChildTaskExternalId o));
}.

Lemma optKey_inj t f es o o' :
  planOk t f es → o ∈ nonSkipOpts es → o' ∈ nonSkipOpts es → optKey o = optKey o' → o = o'.
Proof.
  intros Hp [i Hi]%list_elem_of_lookup [j Hj]%list_elem_of_lookup [= _ Heq].
  assert (i = j) as ->; [|congruence]. eapply (NoDup_lookup (o_NodeId <$> nonSkipOpts es)); [by eapply po_nodes|..];
    rewrite list_lookup_fmap; [by rewrite Hi|by rewrite Hj; cbn; rewrite Heq].
Qed.

Lemma optKeys_NoDup t f es : planOk t f es → NoDup (optKey <$> nonSkipOpts es).
Proof.
  intros Hp. apply (NoDup_fmap_1 snd). rewrite <- list_fmap_compose. by eapply po_nodes.
Qed.

Lemma existing_keyed t es o :
  (∀ k e, t_entries t !! k = Some e → keyOf e = k) → o ∈ nonSkipOpts es → existingByKey es t !! optKey o = t_entries t !! optKey o.
Proof.
  intros Ht Ho. unfold existingByKey, getEntries.
  assert (∀ k e, (k, e) ∈ (λ e, (keyOf e, e)) <$> omap (λ k, t_entries t !! k) (optKey <$> nonSkipOpts es) →
    t_entries t !! k = Some e) as Hin.
  { intros k e (e' & [= -> ->] & He)%list_elem_of_fmap. apply list_elem_of_omap in He as (k' & _ & Hk').
    by rewrite (Ht _ _ Hk'). }
  destruct (t_entries t !! optKey o) as [e|] eqn:He.
  - apply elem_of_list_to_map_1'; [intros e' He'; apply Hin in He'; congruence|].
    apply list_elem_of_fmap. exists e. rewrite (Ht _ _ He). split; [done|].
    apply list_elem_of_omap. exists (optKey o). split; [by apply list_elem_of_fmap_2|done].
  - destruct (list_to_map _ !! optKey o) as [e|] eqn:Hl; [|done]. apply elem_of_list_to_map_2, Hin in Hl. congruence.
Qed.

Lemma existing_lookup t f es o :
  logOk t f → o ∈ nonSkipOpts es → existingByKey es t !! optKey o = t_entries t !! optKey o.
Proof. intros Ht. apply existing_keyed. intros k e He. by apply (lo_key _ _ Ht). Qed.

(** The plan goes through the check when every entry that exists was made by the same request. *)
Definition missing (t : taskLog) (o : GetOrCreateLogEntryOpt) : bool := negb (isSome (t_entries t !! optKey o)).

Lemma newOpts_spec (existing : gmap entryKey V1DurableEventLogEntry) opts :
  (∀ new, newOpts existing opts = Done new →
    new = List.filter (λ o, negb (isSome (existing !! optKey o))) opts ∧
    ∀ o e, o ∈ opts → existing !! optKey o = Some e → idempotencyKeyMatches o (e_IdempotencyKey e) = true) ∧
  ((∀ o e, o ∈ opts → existing !! optKey o = Some e → idempotencyKeyMatches o (e_IdempotencyKey e) = true) →
    newOpts existing opts = Done (List.filter (λ o, negb (isSome (existing !! optKey o))) opts)).
Proof.
  induction opts as [|o opts [IH1 IH2]]; cbn [newOpts List.filter].
  { split; [|done]. intros new [= <-]. split; [done|]. by intros o e ?%elem_of_nil. }
  destruct (existing !! optKey o) as [e|] eqn:He; cbn [isSome negb].
  - split.
    + intros new. destruct (idempotencyKeyMatches o (e_IdempotencyKey e)) eqn:Hm; [|done]. intros [-> Hall]%IH1.
      split; [done|]. intros o' e' [->|Ho']%elem_of_cons He'; [by simplify_eq|by eapply Hall].
    + intros Hall. rewrite (Hall o e) by (constructor || done). apply IH2. intros o' e' Ho'. apply Hall. by constructor.
  - split.
    + intros new. destruct (newOpts existing opts) as [rest| |]; [|done..]. intros [= <-].
      destruct (IH1 rest eq_refl) as [-> Hall]. split; [done|].
      intros o' e' [->|Ho']%elem_of_cons He'; [congruence|by eapply Hall].
    + intros Hall. rewrite IH2; [done|]. intros o' e' Ho'. apply Hall. by constructor.
Qed.

Lemma checkOne_spec t f k es children h :
  logOk t f → k_log k = t → checkOne (Planned k es children) = Done h →
  h = Checked (Planned k es children) (existingByKey es t) (List.filter (missing t) (nonSkipOpts es)) ∧
  ∀ o e, o ∈ nonSkipOpts es → t_entries t !! optKey o = Some e → idempotencyKeyMatches o (e_IdempotencyKey e) = true.
Proof.
  intros Ht Hk. unfold checkOne. cbn [p_locked p_entries]. rewrite Hk.
  destruct (newOpts (existingByKey es t) (nonSkipOpts es)) as [new| |] eqn:Hn; [|done..]. cbn. intros [= <-].
  apply newOpts_spec in Hn as [-> Hall]. split.
  - f_equal. apply filter_ext_in. intros o Ho%list_elem_of_In. unfold missing. by rewrite (existing_lookup _ _ _ _ Ht).
  - intros o e Ho He. apply (Hall o e Ho). by rewrite (existing_lookup _ _ _ _ Ht).
Qed.

Lemma checkOne_ok t f k es children :
  logOk t f → k_log k = t →
  (∀ o e, o ∈ nonSkipOpts es → t_entries t !! optKey o = Some e → idempotencyKeyMatches o (e_IdempotencyKey e) = true) →
  checkOne (Planned k es children) =
    Done (Checked (Planned k es children) (existingByKey es t) (List.filter (missing t) (nonSkipOpts es))).
Proof.
  intros Ht Hk Hall. unfold checkOne. cbn [p_locked p_entries]. rewrite Hk.
  assert (newOpts (existingByKey es t) (nonSkipOpts es) = Done (List.filter (missing t) (nonSkipOpts es))) as ->; [|done].
  rewrite (proj2 (newOpts_spec _ _)).
  - f_equal. apply filter_ext_in. intros o Ho%list_elem_of_In. unfold missing. by rewrite (existing_lookup _ _ _ _ Ht).
  - intros o e Ho. rewrite (existing_lookup _ _ _ _ Ht) by done. by apply Hall.
Qed.

(** The rows created for a plan. *)
Definition inputsOf (ids : newIds) (t : taskLog) (es : list GetOrCreateLogEntryOpt) : list createRow :=
  imap (toCreate ids) (List.filter (missing t) (nonSkipOpts es)).

Lemma inputsOf_keys ids t es : rowKey <$> inputsOf ids t es = optKey <$> List.filter (missing t) (nonSkipOpts es).
Proof.
  unfold inputsOf. generalize (List.filter (missing t) (nonSkipOpts es)). intros l.
  apply list_eq. intros i. rewrite !list_lookup_fmap, list_lookup_imap. by destruct (l !! i).
Qed.

Lemma elem_of_inputsOf ids t es r :
  r ∈ inputsOf ids t es → ∃ i o, o ∈ nonSkipOpts es ∧ missing t o = true ∧ r = toCreate ids i o.
Proof.
  intros [i Hi]%list_elem_of_lookup. unfold inputsOf in Hi. rewrite list_lookup_imap in Hi.
  destruct (_ !! i) as [o|] eqn:Ho; [|done]. injection Hi as <-. apply list_elem_of_lookup_2, list_elem_of_In, filter_In in Ho as [Ho Hm].
  exists i, o. by rewrite list_elem_of_In.
Qed.

(** The log after the entries of a plan were created. *)
Record created (t t2 : taskLog) (es : list GetOrCreateLogEntryOpt) : Prop := {
  cr_points : t_points t2 = t_points t;
  cr_signals : t_signals t2 = t_signals t;
  cr_old : ∀ k e, t_entries t !! k = Some e → t_entries t2 !! k = Some e;
  cr_new : ∀ o, o ∈ nonSkipOpts es → missing t o = true → ∃ e, t_entries t2 !! optKey o = Some e ∧ keyOf e = optKey o ∧
    e_IdempotencyKey e = o_IdempotencyKey o ∧ e_ChildTaskExternalID e = nullIfNil (o_ChildTaskExternalId o);
  cr_only : ∀ k, t_entries t !! k = None → is_Some (t_entries t2 !! k) →
    ∃ o, o ∈ nonSkipOpts es ∧ missing t o = true ∧ k = optKey o;
}.

Definition sameFile (f f2 : V1DurableEventLogFile) : Prop :=
  f_LatestInvocationCount f2 = f_LatestInvocationCount f ∧ f_LatestNodeID f2 = f_LatestNodeID f ∧
  f_LatestBranchID f2 = f_LatestBranchID f.

Lemma createEntries_created ids t f es out t2 :
  logOk t f → planOk t f es → createEntries (inputsOf ids t es) t = (out, t2) →
  created t t2 es ∧ (∃ f2, t_file t2 = Some f2 ∧ sameFile f f2) ∧
  ∀ o, o ∈ nonSkipOpts es → missing t o = true →
    list_to_map (M := gmap _ _) ((λ e, (keyOf e, e)) <$> out) !! optKey o = t_entries t2 !! optKey o.
Proof.
  intros Ht Hp. set (inputs := inputsOf ids t es).
  assert (NoDup (rowKey <$> inputs)) as Hnd.
  { unfold inputs. rewrite inputsOf_keys. apply (sublist_NoDup _ (optKey <$> nonSkipOpts es)); [by eapply optKeys_NoDup|].
    apply fmap_sublist, bfilter_sublist. }
  assert (∀ r, r ∈ inputs → t_entries t !! rowKey r = None) as Hnew.
  { intros r (i & o & Ho & Hm & ->)%elem_of_inputsOf. unfold missing in Hm. change (rowKey (toCreate ids i o)) with (optKey o).
    by destruct (t_entries t !! optKey o). }
  rewrite (createEntries_new _ _ _ (lo_file _ _ Ht) Hnd Hnew). intros [= <- <-].
  set (added := list_to_map ((λ r, (rowKey r, newEntry inputs t r)) <$> inputs) : gmap entryKey V1DurableEventLogEntry).
  assert (∀ k e, added !! k = Some e ↔ ∃ r, r ∈ inputs ∧ k = rowKey r ∧ e = newEntry inputs t r) as Hadded.
  { intros k e. unfold added. rewrite <- elem_of_list_to_map by (by rewrite <- list_fmap_compose).
    rewrite list_elem_of_fmap. naive_solver. }
  assert (∀ o, o ∈ nonSkipOpts es → missing t o = true → ∃ i, toCreate ids i o ∈ inputs) as Hmem.
  { intros o Ho Hm. assert (o ∈ List.filter (missing t) (nonSkipOpts es)) as [i Hi]%list_elem_of_lookup
      by (apply list_elem_of_In, filter_In; by rewrite <- list_elem_of_In).
    exists i. apply list_elem_of_lookup. exists i. unfold inputs, inputsOf. by rewrite list_lookup_imap, Hi. }
  unfold raiseOrder. cbn [t_file set_entries]. rewrite (lo_file _ _ Ht). cbn [set_file].
  split_and!.
  - split; cbn [t_points t_signals t_entries set_file set_entries]; try done.
    + intros k e He. rewrite lookup_union_r; [done|]. destruct (added !! k) as [e'|] eqn:Ha; [|done].
      apply Hadded in Ha as (r & Hr & -> & _). rewrite Hnew in He by done. done.
    + intros o Ho Hm. destruct (Hmem o Ho Hm) as [i Hi]. exists (newEntry inputs t (toCreate ids i o)). split_and!; try done.
      apply lookup_union_Some_l, Hadded. by exists (toCreate ids i o).
    + intros k Hk [e He]. rewrite lookup_union, Hk in He. destruct (added !! k) as [e'|] eqn:Ha; [|done].
      apply Hadded in Ha as (r & (i & o & Ho & Hm & ->)%elem_of_inputsOf & -> & _). by exists o.
  - eexists. split; [done|]. by repeat split.
  - intros o Ho Hm. destruct (Hmem o Ho Hm) as [i Hi]. cbn [t_entries set_file set_entries].
    assert (added !! optKey o = Some (newEntry inputs t (toCreate ids i o))) as Ha by (apply Hadded; by exists (toCreate ids i o)).
    rewrite (lookup_union_Some_l _ _ _ _ Ha). unfold added in Ha. rewrite <- list_fmap_compose. exact Ha.
Qed.

Lemma branchOf_same t t2 f f2 n : t_points t2 = t_points t → sameFile f f2 → branchOf t2 f2 n = branchOf t f n.
Proof. unfold branchOf. by intros -> (_ & _ & ->). Qed.

Lemma created_ok t t2 f f2 es :
  logOk t f → planOk t f es → created t t2 es → t_file t2 = Some f2 → sameFile f f2 → logOk t2 f2.
Proof.
  intros Ht Hp Hc Hf2 Hsame. pose proof Hsame as (_ & Hnode & _).
  assert (∀ k e, t_entries t2 !! k = Some e → t_entries t !! k = Some e ∨ t_entries t !! k = None ∧
    ∃ o, o ∈ nonSkipOpts es ∧ missing t o = true ∧ k = optKey o ∧ keyOf e = optKey o ∧
      e_ChildTaskExternalID e = nullIfNil (o_ChildTaskExternalId o)) as Hcase.
  { intros k e He. destruct (t_entries t !! k) as [e'|] eqn:Hk.
    - left. by rewrite (cr_old _ _ _ Hc _ _ Hk) in He.
    - right. split; [done|]. destruct (cr_only _ _ _ Hc k Hk) as (o & Ho & Hm & ->); [by eauto|]. exists o.
      destruct (cr_new _ _ _ Hc o Ho Hm) as (e' & He' & ? & _ & ?). rewrite He' in He. by simplify_eq. }
  split.
  - done.
  - rewrite (cr_points _ _ _ Hc). apply Ht.
  - intros k e He. destruct (Hcase k e He) as [He'|(_ & o & Ho & _ & -> & Hk & _)]; [by apply (lo_key _ _ Ht)|].
    split; [done|]. destruct (po_branch _ _ _ Hp o Ho). injection Hk as _ ->. done.
  - intros k1 k2 e1 e2 c He1 He2 Hc1 Hc2.
    assert (∀ k e o, t_entries t !! k = Some e → e_ChildTaskExternalID e = Some c → o ∈ nonSkipOpts es →
      nullIfNil (o_ChildTaskExternalId o) = Some c → False) as Hold.
    { intros k e o He Hce Ho Hnil. destruct (po_fresh _ _ _ Hp o k e Ho He) as [Hfr|Hfr]; [congruence|].
      rewrite Hfr in Hnil. done. }
    destruct (Hcase _ _ He1) as [H1|(_ & o1 & Ho1 & _ & -> & _ & Hch1)], (Hcase _ _ He2) as [H2|(_ & o2 & Ho2 & _ & -> & _ & Hch2)].
    + by eapply (lo_child _ _ Ht).
    + exfalso. eapply Hold; [exact H1|done|exact Ho2|congruence].
    + exfalso. eapply Hold; [exact H2|done|exact Ho1|congruence].
    + apply list_elem_of_lookup in Ho1 as [i Hi], Ho2 as [j Hj]. rewrite Hc1 in Hch1. rewrite Hc2 in Hch2.
      unfold nullIfNil in *. do 2 (case_bool_decide; [done|]). simplify_eq.
      assert (i = j) as ->; [|congruence]. eapply (po_children _ _ _ Hp); [exact Hi|exact Hj|congruence|congruence].
  - intros k e He. destruct (Hcase k e He) as [He'|(_ & o & _ & _ & _ & _ & ->)]; [by apply (lo_nil _ _ Ht k)|].
    unfold nullIfNil. case_bool_decide; [done|]. congruence.
  - rewrite Hnode. apply Ht.
Qed.

Lemma addSkipRow_spec t f l acc :
  logOk t f → (∀ e, e ∈ l → e ∈ rows t) → (∀ c e, acc !! c = Some e → e ∈ rows t ∧ e_ChildTaskExternalID e = Some c) →
  ∀ c e, foldl addSkipRow acc l !! c = Some e ↔ acc !! c = Some e ∨ e ∈ l ∧ e_ChildTaskExternalID e = Some c.
Proof.
  intros Ht. revert acc. induction l as [|row l IH]; intros acc Hl Hacc c e; cbn [foldl].
  { split; [auto|]. intros [?|[He _]]; [done|]. by apply elem_of_nil in He. }
  assert (∀ e1 e2 c, e1 ∈ rows t → e2 ∈ rows t → e_ChildTaskExternalID e1 = Some c → e_ChildTaskExternalID e2 = Some c → e1 = e2)
    as Huniq.
  { intros e1 e2 c' [k1 H1]%elem_of_rows [k2 H2]%elem_of_rows Hc1 Hc2.
    assert (k1 = k2) by by eapply (lo_child _ _ Ht). congruence. }
  assert (row ∈ rows t) as Hrow by (apply Hl; constructor).
  assert (∀ c e, addSkipRow acc row !! c = Some e ↔ acc !! c = Some e ∨ e = row ∧ e_ChildTaskExternalID e = Some c) as Hadd.
  { intros c' e'. unfold addSkipRow. destruct (e_ChildTaskExternalID row) as [c0|] eqn:Hc0.
    - destruct (acc !! c0) as [ex|] eqn:Hex.
      + destruct (Hacc _ _ Hex) as [Hin Hch]. assert (ex = row) as -> by by eapply Huniq.
        rewrite Z.leb_refl. split; [auto|]. intros [?|[-> Heq]]; [done|]. congruence.
      + destruct (decide (c' = c0)) as [->|Hne].
        * rewrite lookup_insert_eq, Hex. split; [intros [= <-]; auto|]. intros [?|[-> _]]; done.
        * rewrite lookup_insert_ne by done. split; [auto|]. intros [?|[-> Heq]]; [done|]. congruence.
    - split; [auto|]. intros [?|[-> Heq]]; [done|]. congruence. }
  rewrite IH, Hadd.
  - rewrite elem_of_cons. naive_solver.
  - intros e' He'. apply Hl. by constructor.
  - intros c' e' [He'|[-> He']]%Hadd; [by apply Hacc|done].
Qed.

Lemma found_spec t f cs c e :
  logOk t f → foldl addSkipRow ∅ (listByChildren cs t) !! c = Some e ↔
    c ∈ cs ∧ ∃ k, t_entries t !! k = Some e ∧ e_ChildTaskExternalID e = Some c.
Proof.
  intros Ht. rewrite (addSkipRow_spec t f); [|done|by intros e' [? _]%elem_of_listByChildren|by intros ? ?; rewrite lookup_empty].
  rewrite lookup_empty, elem_of_listByChildren, elem_of_rows. naive_solver.
Qed.

(** A skipped child whose entry was made by the same request, where that is checked. *)
Definition skipMatches (o : GetOrCreateLogEntryOpt) (e : V1DurableEventLogEntry) : Prop :=
  o_IdempotencyKey o = ""%string ∨ idempotencyKeyMatches o (e_IdempotencyKey e) = true.

Lemma checkSkipped_spec (found : gmap uuid V1DurableEventLogEntry) opts :
  checkSkipped found opts = Done () ↔ ∀ o, o ∈ opts → ∃ e, found !! o_ChildTaskExternalId o = Some e ∧ skipMatches o e.
Proof.
  induction opts as [|o opts IH]; cbn [checkSkipped].
  { split; [|done]. intros _ o Ho. by apply elem_of_nil in Ho. }
  setoid_rewrite elem_of_cons. destruct (found !! o_ChildTaskExternalId o) as [e|] eqn:He.
  - assert (negb (bool_decide (o_IdempotencyKey o = ""%string)) && negb (idempotencyKeyMatches o (e_IdempotencyKey e)) = false ↔
      skipMatches o e) as Hm.
    { unfold skipMatches. rewrite andb_false_iff, !negb_false_iff, bool_decide_eq_true. done. }
    destruct (_ && _).
    + split; [done|]. intros Hall. destruct (Hall o) as (e' & He' & Hs); [by left|]. simplify_eq. by apply Hm in Hs.
    + rewrite IH. split; [|by auto]. intros Hall o' [->|Ho']; [|auto]. exists e. split; [done|]. by apply Hm.
  - split; [done|]. intros Hall. destruct (Hall o) as (e' & He' & _); [by left|]. congruence.
Qed.

Lemma skipped_inv fails task t f es found :
  logOk t f → skippedEntries fails task es t = Done found →
  ∀ o, o ∈ skipOpts es → ∃ e k, found !! o_ChildTaskExternalId o = Some e ∧ t_entries t !! k = Some e ∧
    e_ChildTaskExternalID e = Some (o_ChildTaskExternalId o) ∧ skipMatches o e.
Proof.
  intros Ht Hsk o Ho. unfold skippedEntries in Hsk. destruct (skipOpts es) as [|o0 opts] eqn:Hes; [by apply elem_of_nil in Ho|].
  rewrite <- Hes in *. destruct (existsb _ _); [done|]. destruct (fails _); [done|].
  set (fnd := foldl addSkipRow ∅ _) in *. destruct (checkSkipped fnd (skipOpts es)) as [[]| |] eqn:Hc; [|done..].
  injection Hsk as <-. destruct (proj1 (checkSkipped_spec _ _) Hc o Ho) as (e & He & Hm).
  exists e. pose proof He as (_ & k & Hk & Hch)%(found_spec _ _ _ _ _ Ht). by exists k.
Qed.

Lemma skipped_ok fails task t f es :
  logOk t f → (∀ s, fails s = false) →
  (∀ o, o ∈ skipOpts es → ∃ e k, t_entries t !! k = Some e ∧ e_ChildTaskExternalID e = Some (o_ChildTaskExternalId o) ∧
    skipMatches o e) →
  ∃ found, skippedEntries fails task es t = Done found ∧
    ∀ o e k, o ∈ skipOpts es → t_entries t !! k = Some e → e_ChildTaskExternalID e = Some (o_ChildTaskExternalId o) →
      found !! o_ChildTaskExternalId o = Some e.
Proof.
  intros Ht Hf Hall. unfold skippedEntries. destruct (skipOpts es) as [|o0 opts] eqn:Hes.
  { eexists. split; [done|]. intros o e k Ho. by apply elem_of_nil in Ho. }
  rewrite <- Hes in *. clear Hes. destruct (existsb _ _) eqn:Hnil.
  { exfalso. apply existsb_exists in Hnil as (o & Ho%list_elem_of_In & Hn%bool_decide_eq_true).
    destruct (Hall o Ho) as (e & k & Hk & Hch & _). rewrite Hn in Hch. by eapply (lo_nil _ _ Ht). }
  rewrite Hf. set (fnd := foldl addSkipRow ∅ _).
  assert (∀ o e k, o ∈ skipOpts es → t_entries t !! k = Some e → e_ChildTaskExternalID e = Some (o_ChildTaskExternalId o) →
    fnd !! o_ChildTaskExternalId o = Some e) as Hfnd.
  { intros o e k Ho Hk Hch. apply (found_spec _ _ _ _ _ Ht). split; [|eauto].
    apply elem_of_remove_dups. by apply list_elem_of_fmap_2. }
  rewrite (proj2 (checkSkipped_spec fnd (skipOpts es))); [by eauto|].
  intros o Ho. destruct (Hall o Ho) as (e & k & Hk & Hch & Hm). exists e. split; [by eapply Hfnd|done].
Qed.

(** ** The entries returned *)

Lemma collect_spec {A B} (g : A → outcome B) l out : collect g l = Done out ↔ Forall2 (λ a b, g a = Done b) l out.
Proof.
  revert out. induction l as [|a l IH]; intros out; cbn [collect].
  { split; [by intros [= <-]|]. by inversion 1. }
  split.
  - destruct (g a) as [b| |] eqn:Hg; [|done..]. cbn. destruct (collect g l) as [rest| |] eqn:Hc; [|done..].
    intros [= <-]. constructor; [done|]. by apply IH.
  - inversion 1 as [|? b ? rest Hg Hrest]; subst. rewrite Hg. cbn. by rewrite (proj2 (IH rest) Hrest).
Qed.

Lemma collect_fmap {A B C} (g : A → outcome B) (h : B → C) (k : A → C) l out :
  collect g l = Done out → (∀ a b, a ∈ l → g a = Done b → h b = k a) → h <$> out = k <$> l.
Proof.
  intros Hc%collect_spec. induction Hc as [|a b l out Hab Hc IH]; intros Hk; [done|].
  rewrite !fmap_cons. f_equal; [apply Hk; [by left|done]|]. apply IH. intros a' b' Ha. apply Hk. by right.
Qed.

(** The references of entries, and their order. *)
Definition refsOf (rs : list EventLogEntryWithResultPayload) : list entryKey := (λ r, keyOf (r_Entry r)) <$> rs.
Definition refLe (a b : entryKey) : Prop := a.2 < b.2 ∨ (a.2 = b.2 ∧ a.1 ≤ b.1).
#[local] Instance refLe_dec : RelDecision refLe.
Proof. unfold RelDecision, refLe. intros. apply _. Defined.
#[local] Instance refLe_trans : Transitive refLe.
Proof. intros x y z. unfold refLe. lia. Qed.
#[local] Instance refLe_total : Total refLe.
Proof. intros x y. unfold refLe. lia. Qed.
#[local] Instance refLe_antisymm : AntiSymm eq refLe.
Proof. intros [x1 x2] [y1 y2]. unfold refLe. cbn. intros. f_equal; lia. Qed.
#[local] Instance resultLe_trans : Transitive resultLe.
Proof. intros x y z. unfold resultLe. lia. Qed.
#[local] Instance resultLe_total : Total resultLe.
Proof. intros x y. unfold resultLe. lia. Qed.

Lemma refsOf_sort rs : refsOf (merge_sort resultLe rs) = merge_sort refLe (refsOf rs).
Proof.
  apply (StronglySorted_unique refLe).
  - pose proof (StronglySorted_merge_sort resultLe rs) as Hs. unfold refsOf. induction Hs as [|r l Hs IH Hr]; [constructor|].
    rewrite fmap_cons. constructor; [done|]. apply Forall_fmap. eapply Forall_impl; [exact Hr|]. done.
  - apply StronglySorted_merge_sort; apply _.
  - unfold refsOf. by rewrite !merge_sort_Permutation.
Qed.

(** Where the entries of a plan are. *)
Definition planKey (t : taskLog) (f : V1DurableEventLogFile) (o : GetOrCreateLogEntryOpt) : entryKey :=
  if o_ShouldSkip o then default (0, 0) (activeKey t f (o_ChildTaskExternalId o)) else optKey o.

Lemma split_opts es : nonSkipOpts es ++ skipOpts es ≡ₚ es.
Proof.
  unfold nonSkipOpts, skipOpts. induction es as [|o es IH]; [done|]. cbn. destruct (o_ShouldSkip o); cbn; [|by rewrite IH].
  by rewrite <- Permutation_middle, IH.
Qed.

Lemma elem_of_skipOpts o es : o ∈ skipOpts es ↔ o ∈ es ∧ o_ShouldSkip o = true.
Proof. unfold skipOpts. by rewrite list_elem_of_In, filter_In, <- list_elem_of_In. Qed.

Lemma elem_of_nonSkipOpts o es : o ∈ nonSkipOpts es ↔ o ∈ es ∧ o_ShouldSkip o = false.
Proof. unfold nonSkipOpts. by rewrite list_elem_of_In, filter_In, <- list_elem_of_In, negb_true_iff. Qed.

Lemma refs_of_plan retrieves t f es existing created0 found rs :
  (∀ o r, o ∈ nonSkipOpts es → nonSkipResult retrieves existing created0 o = Done r → keyOf (r_Entry r) = optKey o) →
  (∀ o r, o ∈ skipOpts es → skipResult retrieves found o = Done r →
    Some (keyOf (r_Entry r)) = activeKey t f (o_ChildTaskExternalId o)) →
  logEntries retrieves es existing created0 found = Done rs → refsOf rs = merge_sort refLe (planKey t f <$> es).
Proof.
  intros Hn Hs. unfold logEntries.
  destruct (collect (nonSkipResult _ _ _) _) as [ns| |] eqn:Hns; [|done..]. cbn.
  destruct (collect (skipResult _ _) _) as [ss| |] eqn:Hss; [|done..]. cbn. intros [= <-].
  rewrite refsOf_sort. unfold refsOf. rewrite fmap_app.
  rewrite (collect_fmap _ _ (planKey t f) _ _ Hns), (collect_fmap _ _ (planKey t f) _ _ Hss), <- fmap_app.
  - apply (StronglySorted_unique refLe); [apply StronglySorted_merge_sort; apply _..|].
    by rewrite !merge_sort_Permutation, split_opts.
  - intros o r Ho Hr. unfold planKey. pose proof Ho as [_ ->]%elem_of_skipOpts. by rewrite <- (Hs o r Ho Hr).
  - intros o r Ho Hr. unfold planKey. pose proof Ho as [_ ->]%elem_of_nonSkipOpts. by apply Hn.
Qed.

End children.

End ReplayPlan.
