(* ===== verification/ReplayAnswer.v ===== *)
(** The answer to a request: what a transaction of one request does, which entries the answer refers to, how they are
    found again in a later log of the same branch, and that a request whose entries are in the log is answered with
    them. *)

From S2P Require Import Prelude Workers LogTables EventLog EventLogOps EventLogTheorems ReplayPlan.
Import Workers LogTables EventLog EventLogOps EventLogTheorems ReplayPlan.

Module ReplayAnswer.

Open Scope Z_scope.

(** ** One request *)

Section replay.
Context `{Params}.

(** What the transaction does for one request. *)
Definition pipeline (X : txEnv) (db : gmap Z taskLog) (tr : Z * request) : outcome finished :=
  k ← lockOne db tr; k ← resolveOne k; p ← planOne X k; h ← checkOne p; c ← createOne h; s ← skipOne X c; resultOne X s.

Lemma stage_one {A B} (g : A → outcome B) task a :
  stage g [(task, inl a)] =
    match g a with Done b => inl [(task, inl b)] | TaskFailed e => inl [(task, inr e)] | Fatal e => inr e end.
Proof. cbn. by destruct (g a). Qed.

Lemma stage_failed {A B} (g : A → outcome B) task e : stage g [(task, inr e)] = inl [(task, inr e)].
Proof. done. Qed.

Lemma attempt_inl {A} X needed s (k : A + ingestError) a : attempt X needed s k = inl a → k = inl a.
Proof. unfold attempt. by destruct (needed && x_fails X s). Qed.

Lemma attempt_healthy {A} X needed s (k : A + ingestError) : (∀ s, x_fails X s = false) → attempt X needed s k = k.
Proof. intros Hx. unfold attempt. by rewrite Hx, andb_false_r. Qed.

(** Walks through the stages of a transaction that succeeds. *)
Ltac stages Hb :=
  repeat match type of Hb with
  | attempt _ _ _ _ = inl _ => apply attempt_inl in Hb
  | andThen (stage ?g [(?t, inr ?e)]) _ = _ => rewrite stage_failed in Hb; cbn [andThen] in Hb
  | andThen (stage ?g [(?t, inl ?a)]) _ = _ =>
      rewrite stage_one in Hb; destruct (g a) eqn:?; cbn [andThen] in Hb; [|clear -Hb|done]
  end; try (by injection Hb as <-).

Lemma body_one X db tr ds :
  appendBody X [tr] db = inl ds →
  match pipeline X db tr with Done d => ds = [(tr.1, inl d)] | TaskFailed e => ds = [(tr.1, inr e)] | Fatal _ => False end.
Proof.
  unfold appendBody, pipeline. intros Hb. do 2 apply attempt_inl in Hb. rewrite list_fmap_singleton in Hb.
  unfold mbind, outcome_bind. stages Hb.
Qed.

Lemma body_healthy X db tr d :
  (∀ s, x_fails X s = false) → pipeline X db tr = Done d → appendBody X [tr] db = inl [(tr.1, inl d)].
Proof.
  intros Hx Hp. unfold appendBody. rewrite !(attempt_healthy _ _ _ _ Hx), list_fmap_singleton.
  unfold pipeline, mbind, outcome_bind in Hp.
  repeat match type of Hp with
  | match ?g ?a with Done _ => _ | TaskFailed _ => _ | Fatal _ => _ end = _ =>
      destruct (g a) eqn:Hg; [|done..]; rewrite stage_one, Hg; cbn [andThen]; clear Hg; rewrite ?(attempt_healthy _ _ _ _ Hx)
  end.
  rewrite stage_one, Hp. cbn [andThen]. by rewrite !(attempt_healthy _ _ _ _ Hx).
Qed.

Lemma ingest_inv X task q db a db' :
  appendDurableEventLogBatch X [(task, q)] db = (inl [(task, inl a)], db') →
  ∃ d, pipeline X db (task, q) = Done d ∧ a = d_result d ∧ db' = <[task := finishLog d]> db.
Proof.
  unfold appendDurableEventLogBatch. destruct (appendBody X [(task, q)] db) as [ds|] eqn:Hb; [|done].
  apply body_one in Hb. destruct (pipeline X db (task, q)) as [d| |]; [|subst|done]; [subst|]; destruct (x_fails X Commit); try done.
  intros [= <- <-]. by exists d.
Qed.

Lemma ingest_healthy X task q db d :
  (∀ s, x_fails X s = false) → pipeline X db (task, q) = Done d →
  appendDurableEventLogBatch X [(task, q)] db = (inl [(task, inl (d_result d))], <[task := finishLog d]> db).
Proof.
  intros Hx Hp. unfold appendDurableEventLogBatch. rewrite (body_healthy _ _ _ _ Hx Hp), Hx. done.
Qed.

(** The reply to a request and the log, for a task on its own: the other requests of a batch make no difference. *)
Definition ingest (X : txEnv) (task : Z) (q : request) (t : taskLog) :
    (list (Z * (appendDurableEventLogResult + ingestError)) + ingestError) * taskLog :=
  let '(reply, db) := appendDurableEventLogBatch X [(task, q)] {[task := t]} in (reply, default t (db !! task)).

Lemma ingest_ok X task q t a t' :
  ingest X task q t = (inl [(task, inl a)], t') →
  ∃ d, pipeline X {[task := t]} (task, q) = Done d ∧ a = d_result d ∧ t' = finishLog d.
Proof.
  unfold ingest. destruct (appendDurableEventLogBatch X [(task, q)] {[task := t]}) as [reply db] eqn:Hb. intros [= -> <-].
  apply ingest_inv in Hb as (d & Hd & -> & ->). exists d. by rewrite lookup_insert_eq.
Qed.

Lemma ingest_done X task q t d :
  (∀ s, x_fails X s = false) → pipeline X {[task := t]} (task, q) = Done d →
  ingest X task q t = (inl [(task, inl (d_result d))], finishLog d).
Proof. intros Hx Hd. unfold ingest. rewrite (ingest_healthy _ _ _ _ _ Hx Hd). by rewrite lookup_insert_eq. Qed.

(** ** The plan of an event *)

Definition waitOpt (n b : Z) (conditions : list CreateExternalSignalConditionOpt) : GetOrCreateLogEntryOpt :=
  LogEntryOpt WAITFOR (createIdempotencyKey WAITFOR None conditions) "" n b false false uuidNil false false.
Definition memoOpt (n b : Z) (payload memoKey : string) : GetOrCreateLogEntryOpt :=
  LogEntryOpt MEMO memoKey payload n b (negb (bool_decide (payload = ""%string))) false uuidNil false false.

Definition eventEntries (ids : newIds) (t : taskLog) (f : V1DurableEventLogFile) (n : Z) (ev : ingestEvent) :
    list GetOrCreateLogEntryOpt :=
  match ev with
  | TriggerRuns opts => planEntries ids t f 0 n opts
  | WaitFor conditions => [waitOpt n (branchOf t f n) conditions]
  | Memo payload memoKey => [memoOpt n (branchOf t f n) payload memoKey]
  end.

Definition goodEvent (ids : newIds) (t : taskLog) (ev : ingestEvent) : Prop :=
  match ev with TriggerRuns opts => goodRuns ids t opts | _ => True end.

(** The log once the children of the event have their ids. *)
Definition resolvedLog (ids : newIds) (ev : ingestEvent) (t : taskLog) : taskLog :=
  match ev with
  | TriggerRuns opts => TaskLog (t_file t) (t_entries t) (t_points t) (signalsAfter ids opts t)
  | _ => t
  end.

Lemma plan_event X task q f t :
  let ids := q_ids q in let ev := in_Event (q_opts q) in
  logOk t f → goodEvent ids t ev →
  ∃ k, resolveOne (Locked task q f t) = Done k ∧ k_task k = task ∧ q_ids (k_request k) = ids ∧ k_file k = f ∧
    k_log k = resolvedLog ids ev t ∧
    (∀ p, planOne X k = Done p → ∃ ch, p = Planned k (eventEntries ids t f (f_LatestNodeID f + 1) ev) ch) ∧
    ((∀ s, x_fails X s = false) → ∃ p, planOne X k = Done p).
Proof.
  intros ids ev Ht Hg. unfold resolveOne, planOne. unfold k_event. cbn [k_request k_log]. fold ev ids.
  assert (0 ≤ f_LatestNodeID f + 1) as Hn by (pose proof (lo_node _ _ Ht); lia).
  destruct ev as [payload memoKey|opts|conditions] eqn:Hev.
  - eexists. split_and!; [done..| |]; unfold k_event; cbn [k_request k_log]; fold ev; rewrite Hev;
      unfold planDurableEventLogAppend; cbn [k_file]; rewrite (branchOf_resolve _ _ _ Ht Hn); cbn; [|eauto]. intros p [= <-]. eauto.
  - rewrite (resolve_closed ids opts t) by apply Hg. eexists. split_and!; [done..| |];
      unfold k_event; cbn [k_request set_log set_event q_opts in_Event k_file k_log k_task q_ids]; fold ids;
      rewrite (plan_closed _ _ _ _ _ _ Ht Hg).
    + destruct (_ && _); [done|]. intros p [= <-]. eauto.
    + intros Hx. rewrite Hx, andb_false_r. eexists. done.
  - eexists. split_and!; [done..| |]; unfold k_event; cbn [k_request k_log]; fold ev; rewrite Hev;
      unfold planDurableEventLogAppend; cbn [k_file]; rewrite (branchOf_resolve _ _ _ Ht Hn); cbn; [|eauto]. intros p [= <-]. eauto.
Qed.

(** ** The plan of an event fits its log *)

Lemma planEntries_in ids t f i n opts e :
  e ∈ planEntries ids t f i n opts →
  (o_ShouldSkip e = true ∧ is_Some (activeKey t f (o_ChildTaskExternalId e))) ∨
  (o_ShouldSkip e = false ∧ n ≤ o_NodeId e ∧ o_BranchId e = branchOf t f (o_NodeId e) ∧
   ∃ j o, opts !! j = Some o ∧ o_ChildTaskExternalId e = childId ids t (i + j) o).
Proof.
  revert i n. induction opts as [|o opts IH]; intros i n; cbn [planEntries]; [by intros ?%elem_of_nil|].
  destruct (keptChild t f o) as [c|] eqn:Hk; intros [->|He]%elem_of_cons.
  - left. split; [done|]. cbn. unfold keptChild in Hk. destruct (decide _); [done|].
    destruct (t_signals t !! childSpawnKey o) as [c'|]; [|done]. cbn in Hk. destruct (activeKey t f c') eqn:Ha; [|done].
    cbn in Hk. simplify_eq. rewrite Ha. eauto.
  - destruct (IH _ _ He) as [?|(? & ? & ? & j & o' & ? & ?)]; [by left|right]. split_and!; try done.
    exists (S j), o'. by rewrite Nat.add_succ_r.
  - right. cbn. split_and!; [done|lia|done|]. exists 0%nat, o. by rewrite Nat.add_0_r.
  - destruct (IH _ _ He) as [?|(? & ? & ? & j & o' & ? & ?)]; [by left|right]. split_and!; [done|lia|done|].
    exists (S j), o'. by rewrite Nat.add_succ_r.
Qed.

Lemma planEntries_nodes ids t f i n opts : NoDup (o_NodeId <$> nonSkipOpts (planEntries ids t f i n opts)).
Proof.
  revert i n. induction opts as [|o opts IH]; intros i n; cbn [planEntries]; [constructor|].
  destruct (keptChild t f o) as [c|]; cbn; [apply IH|]. apply NoDup_cons. split; [|apply IH].
  intros (e & Hn & [He Hs]%elem_of_nonSkipOpts)%list_elem_of_fmap.
  apply planEntries_in in He as [[? _]|(_ & ? & _)]; [congruence|lia].
Qed.

Lemma childId_fresh ids t opts i o : goodRuns ids t opts → freshId t (childId ids t i o).
Proof. intros Hg. unfold childId. repeat case_match; apply Hg. Qed.

Lemma childId_inj ids t opts i j o o' : goodRuns ids t opts → childId ids t i o = childId ids t j o' → i = j.
Proof.
  intros Hg. unfold childId. repeat case_match; intros Heq;
    first [by apply (gr_child_inj _ _ _ Hg)|by apply (gr_orphan_inj _ _ _ Hg)|by apply (gr_apart _ _ _ Hg) in Heq
          |symmetry in Heq; by apply (gr_apart _ _ _ Hg) in Heq].
Qed.

Lemma planEntries_children ids t f all i n opts :
  goodRuns ids t all → NoDup (o_ChildTaskExternalId <$> nonSkipOpts (planEntries ids t f i n opts)).
Proof.
  intros Hg. revert i n. induction opts as [|o opts IH]; intros i n; cbn [planEntries]; [constructor|].
  destruct (keptChild t f o) as [c|]; cbn; [apply IH|]. apply NoDup_cons. split; [|apply IH].
  intros (e & Hn & [He Hs]%elem_of_nonSkipOpts)%list_elem_of_fmap.
  apply planEntries_in in He as [[? _]|(_ & _ & _ & j & o' & _ & Hc)]; [congruence|].
  rewrite Hc in Hn. cbn in Hn. apply (childId_inj _ _ _ _ _ _ _ Hg) in Hn. lia.
Qed.

Lemma event_planOk ids t f n ev :
  logOk t f → goodEvent ids t ev → 0 ≤ n → planOk t f (eventEntries ids t f n ev).
Proof.
  intros Ht Hg Hn. destruct ev as [payload memoKey|opts|conditions].
  - split; cbn.
    + apply NoDup_singleton.
    + by intros o ->%list_elem_of_singleton.
    + intros o k e ->%list_elem_of_singleton _. by right.
    + intros [] [] o o'; cbn; try done.
    + by intros o ?%elem_of_nil.
  - cbn in Hg. split; cbn [eventEntries].
    + apply planEntries_nodes.
    + intros o [Ho Hs]%elem_of_nonSkipOpts. apply planEntries_in in Ho as [[? _]|(_ & ? & ? & _)]; [congruence|]. split; [done|lia].
    + intros o k e [Ho Hs]%elem_of_nonSkipOpts He. apply planEntries_in in Ho as [[? _]|(_ & _ & _ & j & o' & _ & ->)]; [congruence|].
      left. pose proof (childId_fresh ids t opts (0 + j) o' Hg) as Hf. unfold nullIfNil.
      rewrite bool_decide_false by apply Hf. by eapply (fr_entry _ _ Hf).
    + intros i j o o' Hi Hj Heq _. eapply (NoDup_lookup _ i j (o_ChildTaskExternalId o)); [by apply (planEntries_children ids t f opts 0 n opts)|..];
        rewrite list_lookup_fmap; [by rewrite Hi|by rewrite Hj; cbn; rewrite Heq].
    + intros o [Ho Hs]%elem_of_skipOpts. apply planEntries_in in Ho as [[_ ?]|(? & _)]; [done|congruence].
  - split; cbn.
    + apply NoDup_singleton.
    + by intros o ->%list_elem_of_singleton.
    + intros o k e ->%list_elem_of_singleton _. by right.
    + intros [] [] o o'; cbn; try done.
    + by intros o ?%elem_of_nil.
Qed.

(** ** Getting or creating the entries *)

Definition getOrCreate (X : txEnv) (p : planned) : outcome finished :=
  h ← checkOne p; c ← createOne h; s ← skipOne X c; resultOne X s.

(** Every entry of the plan that is in the log was made by the same request. *)
Definition planMatches (t : taskLog) (es : list GetOrCreateLogEntryOpt) : Prop :=
  (∀ o e, o ∈ nonSkipOpts es → t_entries t !! optKey o = Some e → idempotencyKeyMatches o (e_IdempotencyKey e) = true) ∧
  (∀ o k e, o ∈ skipOpts es → t_entries t !! k = Some e → e_ChildTaskExternalID e = Some (o_ChildTaskExternalId o) →
    skipMatches o e).

Lemma getOrCreate_inv X k es ch t f d :
  logOk t f → planOk t f es → k_log k = t → getOrCreate X (Planned k es ch) = Done d →
  created t (d_log d) es ∧ (∃ f2, t_file (d_log d) = Some f2 ∧ sameFile f f2) ∧ planMatches t es ∧
  refsOf (ar_logEntries (d_result d)) = merge_sort refLe (planKey t f <$> es).
Proof.
  intros Ht Hp Hk. unfold getOrCreate. destruct (checkOne _) as [h| |] eqn:Hh; [|done..]. cbn [mbind outcome_bind].
  apply (checkOne_spec _ _ _ _ _ _ Ht Hk) in Hh as [-> Hmatch]. unfold mbind, outcome_bind at 1, createOne. cbn [h_planned h_new h_existing p_locked].
  fold (inputsOf (q_ids (k_request k)) t es). rewrite Hk.
  destruct (createEntries (inputsOf (q_ids (k_request k)) t es) t) as [out t2] eqn:Hc.
  destruct (createEntries_created _ _ _ _ _ _ Ht Hp Hc) as (Hcr & (f2 & Hf2 & Hsame) & Hout).
  pose proof (created_ok _ _ _ _ _ Ht Hp Hcr Hf2 Hsame) as Ht2.
  unfold skipOne, resultOne, mbind, outcome_bind, mret, outcome_ret. cbv beta iota. cbn [p_locked p_entries p_children k_task k_log set_log].
  set (created0 := list_to_map _).
  destruct (skippedEntries _ _ es t2) as [found| |] eqn:Hs; [|done..]. cbn [p_locked p_entries p_children k_log set_log].
  destruct (logEntries _ es _ created0 found) as [rs| |] eqn:Hr; [|done..]. intros [= <-]. cbn.
  assert (∀ o k1 e1, o ∈ skipOpts es → t_entries t !! k1 = Some e1 → e_ChildTaskExternalID e1 = Some (o_ChildTaskExternalId o) →
    found !! o_ChildTaskExternalId o = Some e1 ∧ skipMatches o e1) as Hfound.
  { intros o k1 e1 Ho He1 Hch1. destruct (skipped_inv _ _ _ _ _ _ Ht2 Hs o Ho) as (e & k0 & Hfd & He & Hch & Hm).
    pose proof (cr_old _ _ _ Hcr _ _ He1) as He1'. assert (k1 = k0) as -> by by eapply (lo_child _ _ Ht2).
    rewrite He1' in He. by simplify_eq. }
  split_and!; [done|by eauto|split; [done|]|].
  - intros o k1 e1 Ho He1 Hch1. by eapply Hfound.
  - eapply (refs_of_plan (x_retrieves X) t f es _ created0 found); [..|exact Hr].
    + intros o r Ho. unfold nonSkipResult. rewrite (existing_lookup _ _ _ _ Ht Ho).
      destruct (t_entries t !! optKey o) as [e|] eqn:He.
      * intros [= <-]. cbn. by apply (lo_key _ _ Ht).
      * assert (missing t o = true) as Hm by (unfold missing; by rewrite He).
        unfold created0. rewrite (Hout o Ho Hm). destruct (cr_new _ _ _ Hcr o Ho Hm) as (e & -> & Hkey & _).
        intros [= <-]. done.
    + intros o r Ho. unfold skipResult. destruct (po_skip _ _ _ Hp o Ho) as [k1 Hk1]. pose proof Hk1 as (e1 & He1 & Hch1 & _)%activeKey_Some; [|done].
      destruct (Hfound o k1 e1 Ho He1 Hch1) as [-> _]. intros [= <-]. cbn. rewrite Hk1. f_equal. by apply (lo_key _ _ Ht).
Qed.

Lemma collect_ok {A B} (g : A → outcome B) (P : B → Prop) l :
  (∀ a, a ∈ l → ∃ b, g a = Done b ∧ P b) → ∃ out, collect g l = Done out ∧ Forall P out.
Proof.
  induction l as [|a l IH]; intros Hl; cbn [collect]; [eauto|].
  destruct (Hl a) as (b & -> & Hb); [by left|]. destruct IH as (out & -> & Hout); [intros; apply Hl; by right|].
  eexists. split; [done|]. by constructor.
Qed.

Lemma createEntries_nil t f : t_file t = Some f → createEntries [] t = ([], t).
Proof. intros Hf. unfold createEntries, raiseOrder. destruct t as [? ? ? ?]. cbn in *. rewrite Hf. cbn. by destruct f. Qed.

(** Every entry of the plan is in the log. *)
Definition allPresent (t : taskLog) (es : list GetOrCreateLogEntryOpt) : Prop :=
  ∀ o, o ∈ nonSkipOpts es → is_Some (t_entries t !! optKey o).

Lemma getOrCreate_ok X k es ch t f :
  (∀ s, x_fails X s = false) → logOk t f → planOk t f es → k_log k = t → allPresent t es → planMatches t es →
  ∃ d, getOrCreate X (Planned k es ch) = Done d ∧ d_log d = t ∧ d_payloads d = [] ∧
    Forall (λ r, r_AlreadyExisted r = true) (ar_logEntries (d_result d)).
Proof.
  intros Hx Ht Hp Hk Hall [Hmn Hms]. unfold getOrCreate. rewrite (checkOne_ok _ _ _ _ _ Ht Hk Hmn).
  assert (List.filter (missing t) (nonSkipOpts es) = []) as Hnone.
  { destruct (List.filter (missing t) (nonSkipOpts es)) as [|o l] eqn:Hf; [done|]. exfalso.
    assert (o ∈ List.filter (missing t) (nonSkipOpts es)) as [Ho Hm]%list_elem_of_In%filter_In by (rewrite Hf; by left).
    apply list_elem_of_In, Hall in Ho as [e He]. unfold missing in Hm. by rewrite He in Hm. }
  rewrite Hnone. unfold createOne, skipOne, resultOne, mbind, outcome_bind, mret, outcome_ret. cbn [h_planned h_new h_existing p_locked].
  rewrite Hk. cbn [imap]. rewrite (createEntries_nil _ _ (lo_file _ _ Ht)). cbn [p_locked p_entries p_children k_task k_log set_log].
  destruct (skipped_ok (x_fails X) (k_task k) t f es Ht Hx) as (found & -> & Hfound).
  { intros o Ho. destruct (po_skip _ _ _ Hp o Ho) as [k1 (e1 & He1 & Hch1 & _)%activeKey_Some]; [|done].
    exists e1, k1. split_and!; [done..|]. by eapply Hms. }
  cbn [p_locked p_entries p_children k_task k_log set_log]. unfold logEntries.
  destruct (collect_ok (nonSkipResult (x_retrieves X) (existingByKey es t) (list_to_map ((λ e, (keyOf e, e)) <$> [])))
    (λ r, r_AlreadyExisted r = true) (nonSkipOpts es)) as (ns & -> & Hns).
  { intros o Ho. unfold nonSkipResult. rewrite (existing_lookup _ _ _ _ Ht Ho). destruct (Hall o Ho) as [e ->]. by eexists. }
  destruct (collect_ok (skipResult (x_retrieves X) found) (λ r, r_AlreadyExisted r = true) (skipOpts es)) as (ss & Hss & Hs).
  { intros o Ho. unfold skipResult. destruct (po_skip _ _ _ Hp o Ho) as [k1 (e1 & He1 & Hch1 & _)%activeKey_Some]; [|done].
    rewrite (Hfound o e1 k1 Ho He1 Hch1). by eexists. }
  unfold mbind, outcome_bind. rewrite Hss. eexists. split_and!; [done..|]. cbn. rewrite merge_sort_Permutation.
  by apply Forall_app.
Qed.

(** ** Where the answer of an event is *)

(** The entries of the answer to a RUN request whose first node is [n]. *)
Fixpoint runRefs (t : taskLog) (f : V1DurableEventLogFile) (n : Z) (opts : list WorkflowNameTriggerOpts) : list entryKey :=
  match opts with
  | [] => []
  | o :: opts =>
      match keptChild t f o with
      | Some c => default (0, 0) (activeKey t f c) :: runRefs t f n opts
      | None => (branchOf t f n, n) :: runRefs t f (n + 1) opts
      end
  end.

Definition eventRefs (t : taskLog) (f : V1DurableEventLogFile) (n : Z) (ev : ingestEvent) : list entryKey :=
  match ev with TriggerRuns opts => runRefs t f n opts | _ => [(branchOf t f n, n)] end.

Definition skipOpt (o : WorkflowNameTriggerOpts) (c : uuid) : GetOrCreateLogEntryOpt :=
  LogEntryOpt RUN (match to_ChildKey o with None => runKey o | Some _ => ""%string end) "" 0 0 false
    (to_IsDagStepTrigger o) c true false.
Definition runOpt (o : WorkflowNameTriggerOpts) (c : uuid) (n b : Z) : GetOrCreateLogEntryOpt :=
  LogEntryOpt RUN (runKey o) "" n b (to_IsCancelled o || to_IsSkipped o) (to_IsDagStepTrigger o) c false false.

Definition keyMatches (o : WorkflowNameTriggerOpts) (e : V1DurableEventLogEntry) : Prop :=
  to_IsDagStepTrigger o = true ∨ e_IdempotencyKey e = runKey o.

(** Every entry of the answer is in the log, and was made by the same request. *)
Fixpoint runsPresent (t : taskLog) (f : V1DurableEventLogFile) (n : Z) (opts : list WorkflowNameTriggerOpts) : Prop :=
  match opts with
  | [] => True
  | o :: opts =>
      match keptChild t f o with
      | Some c =>
          (∀ k e, t_entries t !! k = Some e → e_ChildTaskExternalID e = Some c → skipMatches (skipOpt o c) e) ∧
          runsPresent t f n opts
      | None =>
          (∃ e, t_entries t !! (branchOf t f n, n) = Some e ∧ keyMatches o e) ∧ runsPresent t f (n + 1) opts
      end
  end.

Definition eventPresent (t : taskLog) (f : V1DurableEventLogFile) (n : Z) (ev : ingestEvent) : Prop :=
  match ev with
  | TriggerRuns opts => runsPresent t f n opts
  | WaitFor conditions =>
      ∃ e, t_entries t !! (branchOf t f n, n) = Some e ∧ e_IdempotencyKey e = createIdempotencyKey WAITFOR None conditions
  | Memo _ memoKey => ∃ e, t_entries t !! (branchOf t f n, n) = Some e ∧ e_IdempotencyKey e = memoKey
  end.

Lemma keyMatches_spec o c n b e : idempotencyKeyMatches (runOpt o c n b) (e_IdempotencyKey e) = true ↔ keyMatches o e.
Proof. unfold idempotencyKeyMatches, keyMatches. cbn. rewrite orb_true_iff, bool_decide_eq_true. naive_solver. Qed.

Lemma single_matches o e : o_IsDagStepTrigger o = false →
  idempotencyKeyMatches o (e_IdempotencyKey e) = true ↔ e_IdempotencyKey e = o_IdempotencyKey o.
Proof. unfold idempotencyKeyMatches. intros ->. cbn. rewrite bool_decide_eq_true. naive_solver. Qed.

Lemma eventRefs_plan ids t f n ev : planKey t f <$> eventEntries ids t f n ev = eventRefs t f n ev.
Proof.
  destruct ev as [| opts |]; [done| |done]. cbn [eventEntries eventRefs]. generalize 0%nat. revert n.
  induction opts as [|o opts IH]; intros n i; [done|]. cbn [planEntries runRefs].
  destruct (keptChild t f o); rewrite fmap_cons, IH; done.
Qed.

Lemma runs_present ids t f i n opts x :
  runsPresent t f n opts → x ∈ planEntries ids t f i n opts →
  if o_ShouldSkip x then ∀ k e, t_entries t !! k = Some e → e_ChildTaskExternalID e = Some (o_ChildTaskExternalId x) → skipMatches x e
  else ∃ e, t_entries t !! optKey x = Some e ∧ idempotencyKeyMatches x (e_IdempotencyKey e) = true.
Proof.
  revert i n. induction opts as [|o opts IH]; intros i n; cbn [planEntries runsPresent]; [by intros _ ?%elem_of_nil|].
  destruct (keptChild t f o) as [c|]; intros [Ho Hopts] [->|Hx]%elem_of_cons; cbn [o_ShouldSkip]; try (by eapply IH).
  - exact Ho.
  - destruct Ho as (e & He & Hm). exists e. split; [done|]. by apply (keyMatches_spec o (childId ids t i o) n (branchOf t f n)).
Qed.

Lemma single_present t x e :
  o_ShouldSkip x = false → o_IsDagStepTrigger x = false → t_entries t !! optKey x = Some e →
  e_IdempotencyKey e = o_IdempotencyKey x → allPresent t [x] ∧ planMatches t [x].
Proof.
  intros Hs Hd He Hm. unfold allPresent, planMatches. unfold nonSkipOpts, skipOpts. cbn. rewrite Hs. cbn. split_and!.
  - intros o ->%list_elem_of_singleton. eauto.
  - intros o e' ->%list_elem_of_singleton He'. rewrite He in He'. injection He' as <-. by apply single_matches.
  - by intros o k e' ?%elem_of_nil.
Qed.

Lemma event_present ids t f n ev :
  eventPresent t f n ev → allPresent t (eventEntries ids t f n ev) ∧ planMatches t (eventEntries ids t f n ev).
Proof.
  destruct ev as [payload memoKey|opts|conditions]; cbn [eventPresent eventEntries];
    [intros (e & He & Hm); by apply (single_present _ _ e)| |intros (e & He & Hm); by apply (single_present _ _ e)].
  intros Hp. pose proof (λ x, runs_present ids _ _ 0 _ _ x Hp) as Hall. unfold allPresent, planMatches. split_and!.
  - intros o [Ho Hs]%elem_of_nonSkipOpts. apply Hall in Ho. rewrite Hs in Ho. destruct Ho as (e & ? & _). eauto.
  - intros o e [Ho Hs]%elem_of_nonSkipOpts He. apply Hall in Ho. rewrite Hs in Ho. destruct Ho as (e' & He' & ?). by simplify_eq.
  - intros o k e [Ho Hs]%elem_of_skipOpts. apply Hall in Ho. rewrite Hs in Ho. apply Ho.
Qed.

(** ** How the log grows *)

Definition sameEntry (e e' : V1DurableEventLogEntry) : Prop :=
  keyOf e' = keyOf e ∧ e_ChildTaskExternalID e' = e_ChildTaskExternalID e ∧ e_IdempotencyKey e' = e_IdempotencyKey e.

Definition knownChild (t : taskLog) (c : uuid) : Prop :=
  (∃ key, t_signals t !! key = Some c) ∨ (∃ k e, t_entries t !! k = Some e ∧ e_ChildTaskExternalID e = Some c).

(** A later log of the same branch: entries stay, and new ones have new children. *)
Record extends (t : taskLog) (f : V1DurableEventLogFile) (t' : taskLog) (f' : V1DurableEventLogFile) : Prop := {
  ex_points : t_points t' = t_points t;
  ex_branch : f_LatestBranchID f' = f_LatestBranchID f;
  ex_signals : t_signals t ⊆ t_signals t';
  ex_old : ∀ k e, t_entries t !! k = Some e → ∃ e', t_entries t' !! k = Some e' ∧ sameEntry e e';
  ex_new : ∀ k e' c, t_entries t' !! k = Some e' → e_ChildTaskExternalID e' = Some c → knownChild t c →
    is_Some (t_entries t !! k);
}.

Lemma extends_refl t f : extends t f t f.
Proof. split; eauto. intros k e He. by exists e. Qed.

Lemma extends_known t f t' f' c : extends t f t' f' → knownChild t c → knownChild t' c.
Proof.
  intros Hex [[key Hk]|(k & e & He & Hc)].
  - left. exists key. eapply lookup_weaken; [done|]. apply Hex.
  - right. destruct (ex_old _ _ _ _ Hex _ _ He) as (e' & He' & _ & Hc' & _). exists k, e'. split; [done|congruence].
Qed.

Lemma extends_trans t f t1 f1 t2 f2 : extends t f t1 f1 → extends t1 f1 t2 f2 → extends t f t2 f2.
Proof.
  intros H1 H2. split.
  - etrans; [apply H2|apply H1].
  - etrans; [apply H2|apply H1].
  - etrans; [apply H1|apply H2].
  - intros k e He. destruct (ex_old _ _ _ _ H1 _ _ He) as (e1 & He1 & Hk1 & Hc1 & Hi1).
    destruct (ex_old _ _ _ _ H2 _ _ He1) as (e2 & He2 & Hk2 & Hc2 & Hi2). exists e2. split; [done|]. unfold sameEntry. by rewrite Hk2, Hc2, Hi2.
  - intros k e2 c He2 Hc Hkn. destruct (ex_new _ _ _ _ H2 _ _ _ He2 Hc) as [e1 He1]; [by eapply extends_known|].
    eapply (ex_new _ _ _ _ H1); [exact He1| |done].
    destruct (ex_old _ _ _ _ H2 _ _ He1) as (e2' & He2' & _ & Hc' & _). rewrite He2 in He2'. injection He2' as <-. congruence.
Qed.

Lemma extends_branchOf t f t' f' n : extends t f t' f' → branchOf t' f' n = branchOf t f n.
Proof. intros Hex. unfold branchOf. by rewrite (ex_points _ _ _ _ Hex), (ex_branch _ _ _ _ Hex). Qed.

Lemma extends_active t f t' f' c :
  logOk t f → logOk t' f' → extends t f t' f' → knownChild t c → activeKey t' f' c = activeKey t f c.
Proof.
  intros Ht Ht' Hex Hkn. apply option_eq. intros k. rewrite !activeKey_Some by done.
  setoid_rewrite (extends_branchOf _ _ _ _ _ Hex). split.
  - intros (e' & He' & Hc & Hb). destruct (ex_new _ _ _ _ Hex _ _ _ He' Hc Hkn) as [e He]. exists e.
    destruct (ex_old _ _ _ _ Hex _ _ He) as (e'' & He'' & Hk & Hc' & _). rewrite He' in He''. injection He'' as <-.
    injection Hk as Hk1 Hk2. split_and!; [done|congruence|congruence].
  - intros (e & He & Hc & Hb). destruct (ex_old _ _ _ _ Hex _ _ He) as (e' & He' & Hk & Hc' & _). exists e'.
    injection Hk as Hk1 Hk2. split_and!; [done|congruence|congruence].
Qed.

Lemma extends_kept t f t' f' o :
  logOk t f → logOk t' f' → extends t f t' f' → is_Some (t_signals t !! childSpawnKey o) ∨ childSpawnKey o = ""%string →
  keptChild t' f' o = keptChild t f o.
Proof.
  intros Ht Ht' Hex Hk. unfold keptChild. destruct (decide _); [done|]. destruct Hk as [[c Hc]|]; [|done].
  rewrite (lookup_weaken _ _ _ _ Hc (ex_signals _ _ _ _ Hex)), Hc. cbn. rewrite (extends_active t f t' f'); [done..|].
  left. eauto.
Qed.

(** Every spawn key of the event was used. *)
Definition keysKnown (t : taskLog) (ev : ingestEvent) : Prop :=
  match ev with
  | TriggerRuns opts => ∀ o, o ∈ opts → is_Some (t_signals t !! childSpawnKey o) ∨ childSpawnKey o = ""%string
  | _ => True
  end.

Lemma kept_known t f o c : keptChild t f o = Some c → knownChild t c ∧ ∃ k, activeKey t f c = Some k.
Proof.
  unfold keptChild. destruct (decide _); [done|]. destruct (t_signals t !! childSpawnKey o) as [c'|] eqn:Hc; [|done]. cbn.
  destruct (activeKey t f c') as [k|] eqn:Ha; [|done]. cbn. intros [= <-]. split; [left; eauto|eauto].
Qed.

Lemma extends_present t f t' f' k e :
  extends t f t' f' → t_entries t !! k = Some e →
  ∃ e', t_entries t' !! k = Some e' ∧ e_IdempotencyKey e' = e_IdempotencyKey e.
Proof. intros Hex He. destruct (ex_old _ _ _ _ Hex _ _ He) as (e' & ? & _ & _ & ?). eauto. Qed.

Lemma extends_skip t f t' f' o c :
  extends t f t' f' → knownChild t c →
  (∀ k e, t_entries t !! k = Some e → e_ChildTaskExternalID e = Some c → skipMatches o e) →
  ∀ k e, t_entries t' !! k = Some e → e_ChildTaskExternalID e = Some c → skipMatches o e.
Proof.
  intros Hex Hkn Hall k e' He' Hc. destruct (ex_new _ _ _ _ Hex _ _ _ He' Hc Hkn) as [e He].
  destruct (ex_old _ _ _ _ Hex _ _ He) as (e'' & He'' & _ & Hc' & Hi). rewrite He' in He''. injection He'' as <-.
  unfold skipMatches. rewrite Hi. apply (Hall k e He). congruence.
Qed.

Lemma extends_answer t f t' f' n ev :
  logOk t f → logOk t' f' → extends t f t' f' → keysKnown t ev →
  eventRefs t' f' n ev = eventRefs t f n ev ∧ (eventPresent t f n ev → eventPresent t' f' n ev).
Proof.
  intros Ht Ht' Hex. destruct ev as [payload memoKey|opts|conditions]; cbn [eventRefs eventPresent keysKnown].
  - intros _. rewrite !(extends_branchOf _ _ _ _ _ Hex). split; [done|]. intros (e & He & Hi).
    destruct (extends_present _ _ _ _ _ _ Hex He) as (e' & ? & ?). exists e'. split; [done|congruence].
  - revert n. induction opts as [|o opts IH]; intros n Hk; [done|]. cbn [runRefs runsPresent].
    rewrite (extends_kept t f t' f') by (try done; apply Hk; by left).
    assert (∀ o', o' ∈ opts → is_Some (t_signals t !! childSpawnKey o') ∨ childSpawnKey o' = ""%string) as Hk'
      by (intros; apply Hk; by right).
    destruct (keptChild t f o) as [c|] eqn:Hc.
    + destruct (kept_known _ _ _ _ Hc) as [Hkn _]. destruct (IH n Hk') as [-> Hp]. rewrite (extends_active t f t' f') by done.
      split; [done|]. intros [Ho Hopts]. split; [|auto]. by eapply extends_skip.
    + destruct (IH (n + 1) Hk') as [-> Hp]. rewrite !(extends_branchOf _ _ _ _ _ Hex). split; [done|].
      intros [(e & He & Hm) Hopts]. split; [|auto]. destruct (extends_present _ _ _ _ _ _ Hex He) as (e' & ? & Hi).
      exists e'. split; [done|]. unfold keyMatches. by rewrite Hi.
  - intros _. rewrite !(extends_branchOf _ _ _ _ _ Hex). split; [done|]. intros (e & He & Hi).
    destruct (extends_present _ _ _ _ _ _ Hex He) as (e' & ? & ?). exists e'. split; [done|congruence].
Qed.

(** ** The log after an event *)

(** What the log becomes when an event is taken. *)
Record ran (ids : newIds) (t : taskLog) (f : V1DurableEventLogFile) (ev : ingestEvent) (n : Z)
    (t' : taskLog) (f' : V1DurableEventLogFile) : Prop := {
  rn_extends : extends t f t' f';
  rn_signals : t_signals t' = t_signals (resolvedLog ids ev t);
  rn_present : ∀ o, o ∈ nonSkipOpts (eventEntries ids t f n ev) →
    ∃ e, t_entries t' !! optKey o = Some e ∧ idempotencyKeyMatches o (e_IdempotencyKey e) = true;
  rn_created : ∀ k e, t_entries t' !! k = Some e → t_entries t !! k = None →
    ∃ o, o ∈ nonSkipOpts (eventEntries ids t f n ev) ∧ k = optKey o ∧ e_IdempotencyKey e = o_IdempotencyKey o ∧
      e_ChildTaskExternalID e = nullIfNil (o_ChildTaskExternalId o);
  rn_skip : ∀ o k e, o ∈ skipOpts (eventEntries ids t f n ev) → t_entries t !! k = Some e →
    e_ChildTaskExternalID e = Some (o_ChildTaskExternalId o) → skipMatches o e;
}.

(** A request that does not mix its children: after a child whose key is used for the first time come children with keys
    only, each used for the first time as well or of a child that is still active; and such a request is at the end of
    the log. *)
Definition unmixed (t : taskLog) (f : V1DurableEventLogFile) (ev : ingestEvent) : Prop :=
  match ev with
  | TriggerRuns opts =>
      ∀ i j o o', (i < j)%nat → opts !! i = Some o → opts !! j = Some o' → keyed o → t_signals t !! childSpawnKey o = None →
        keyed o' ∧ (t_signals t !! childSpawnKey o' = None ∨ is_Some (keptChild t f o')) ∧
        (∀ n, f_LatestNodeID f < n → t_entries t !! (branchOf t f n, n) = None)
  | _ => True
  end.

(** The children that are triggered and found again by their keys afterwards: so are the children after them. *)
Definition stable (t : taskLog) (f : V1DurableEventLogFile) (ev : ingestEvent) (t' : taskLog) (f' : V1DurableEventLogFile) : Prop :=
  match ev with
  | TriggerRuns opts =>
      ∀ i j o o', (i < j)%nat → opts !! i = Some o → opts !! j = Some o' →
        keptChild t f o = None → is_Some (keptChild t' f' o) → is_Some (keptChild t' f' o')
  | _ => True
  end.

Lemma ran_keys ids t f opts n t' f' o i :
  goodRuns ids t opts → ran ids t f (TriggerRuns opts) n t' f' → opts !! i = Some o → keyed o →
  t_signals t' !! childSpawnKey o = Some (default (n_child ids i) (t_signals t !! childSpawnKey o)).
Proof. intros Hg Hr Ho Hk. rewrite (rn_signals _ _ _ _ _ _ _ Hr). cbn. by apply signalsAfter_lookup; [apply Hg|..]. Qed.

Lemma plan_of_child ids t f i n opts j o :
  opts !! j = Some o → keptChild t f o = None →
  ∃ m, n ≤ m ∧ runOpt o (childId ids t (i + j) o) m (branchOf t f m) ∈ planEntries ids t f i n opts.
Proof.
  revert i n j. induction opts as [|o' opts IH]; intros i n j Hj Hk; [done|]. destruct j as [|j]; cbn in Hj.
  - injection Hj as ->. exists n. split; [lia|]. cbn [planEntries]. rewrite Hk, Nat.add_0_r. by left.
  - rewrite Nat.add_succ_r. cbn [planEntries]. destruct (keptChild t f o').
    + destruct (IH (S i) n j Hj Hk) as (m & ? & ?). exists m. split; [lia|by right].
    + destruct (IH (S i) (n + 1) j Hj Hk) as (m & ? & ?). exists m. split; [lia|by right].
Qed.

(** At the end of the log a child whose key is used for the first time is found by its key afterwards. *)
Lemma new_key_kept ids t f all t' f' j o :
  let n := f_LatestNodeID f + 1 in
  logOk t' f' → goodRuns ids t all → ran ids t f (TriggerRuns all) n t' f' → all !! j = Some o → keyed o →
  t_signals t !! childSpawnKey o = None → (∀ n, f_LatestNodeID f < n → t_entries t !! (branchOf t f n, n) = None) →
  is_Some (keptChild t' f' o).
Proof.
  intros n Ht' Hg Hr Hj Hk Hsig Hend.
  assert (keptChild t f o = None) as Hnone by (unfold keptChild; rewrite decide_False, Hsig; done).
  assert (childId ids t j o = n_child ids j) as Hid by (unfold childId; by rewrite decide_False, Hsig).
  destruct (plan_of_child ids t f 0 n all j o Hj Hnone) as (m & Hm & Hx). cbn [Nat.add] in Hx. rewrite Hid in Hx.
  set (x := runOpt _ _ _ _) in Hx.
  assert (x ∈ nonSkipOpts (eventEntries ids t f n (TriggerRuns all))) as Hxn by (by apply elem_of_nonSkipOpts).
  destruct (rn_present _ _ _ _ _ _ _ Hr x Hxn) as (e & He & _).
  destruct (rn_created _ _ _ _ _ _ _ Hr _ _ He) as (y & Hy & Hkey & _ & Hch); [apply (Hend m); unfold n in Hm; lia|].
  assert (y = x) as ->.
  { apply list_elem_of_lookup in Hy as [a Hy], Hxn as [b Hx']. assert (a = b) as ->; [|congruence].
    eapply (NoDup_lookup _ a b m); [exact (planEntries_nodes ids t f 0 n all)|..]; rewrite list_lookup_fmap;
      cbn [eventEntries] in Hy, Hx'; [rewrite Hy|by rewrite Hx']. cbn. f_equal. by injection Hkey. }
  cbn in Hch. unfold nullIfNil in Hch. rewrite bool_decide_false in Hch by apply (gr_child _ _ _ Hg j).
  unfold keptChild. rewrite decide_False by done. rewrite (ran_keys _ _ _ _ _ _ _ _ _ Hg Hr Hj Hk), Hsig. cbn.
  assert (activeKey t' f' (n_child ids j) = Some (optKey x)) as ->; [|done].
  apply activeKey_Some; [done|]. exists e. split_and!; [done..|]. destruct (lo_key _ _ Ht' _ _ He) as [Hkey' _].
  injection Hkey' as Hb Hn. rewrite Hb, Hn. apply (extends_branchOf t f). apply Hr.
Qed.

Lemma unmixed_stable ids t f ev t' f' :
  logOk t f → logOk t' f' → goodEvent ids t ev → ran ids t f ev (f_LatestNodeID f + 1) t' f' → unmixed t f ev →
  stable t f ev t' f'.
Proof.
  intros Ht Ht' Hg Hr Hu. destruct ev as [|opts|]; [done| |done]. intros i j o o' Hlt Hi Hj Hnone Hkept.
  pose proof (rn_extends _ _ _ _ _ _ _ Hr) as Hex.
  assert (keyed o) as Hk by (intros He; unfold keptChild in Hkept; rewrite decide_True in Hkept by done; by destruct Hkept).
  destruct (t_signals t !! childSpawnKey o) as [c|] eqn:Hsig.
  { rewrite (extends_kept t f t' f'), Hnone in Hkept by (try done; left; eauto). by destruct Hkept. }
  destruct (Hu i j o o' Hlt Hi Hj Hk Hsig) as (Hk' & [Hsig'|Hkept'] & Hend).
  - by eapply new_key_kept.
  - rewrite (extends_kept t f t' f'); try done. left. destruct Hkept' as [c Hc]. unfold keptChild in Hc.
    rewrite decide_False in Hc by done. by destruct (t_signals t !! childSpawnKey o').
Qed.

(** A child that was triggered and is found again is found at the node it was triggered at. *)
Lemma newly_kept ids t f all n0 t' f' pre i n o opts c :
  logOk t f → logOk t' f' → goodRuns ids t all → ran ids t f (TriggerRuns all) n0 t' f' →
  planEntries ids t f 0 n0 all = pre ++ planEntries ids t f i n (o :: opts) → all !! i = Some o →
  keptChild t f o = None → keptChild t' f' o = Some c →
  activeKey t' f' c = Some (branchOf t f n, n) ∧
  (∀ k e, t_entries t' !! k = Some e → e_ChildTaskExternalID e = Some c → skipMatches (skipOpt o c) e).
Proof.
  intros Ht Ht' Hg Hr Hsplit Hi Hnone Hkept.
  assert (keyed o) as Hk by (intros He; unfold keptChild in Hkept; by rewrite decide_True in Hkept).
  pose proof (ran_keys _ _ _ _ _ _ _ _ _ Hg Hr Hi Hk) as Hsig.
  destruct (kept_known _ _ _ _ Hkept) as (_ & k & Ha).
  unfold keptChild in Hnone, Hkept. rewrite decide_False in Hnone, Hkept by done. rewrite Hsig in Hkept. cbn in Hkept.
  destruct (t_signals t !! childSpawnKey o) as [c0|] eqn:Hc0; cbn in Hnone, Hkept.
  { exfalso. rewrite (extends_active t f t' f') in Hkept; [|done..|apply Hr|left; eauto]. by destruct (activeKey t f c0). }
  assert (c = n_child ids i) as -> by (destruct (isSome (activeKey t' f' (n_child ids i))); congruence). clear Hkept.
  assert (∀ (k : entryKey) e, t_entries t' !! k = Some e → e_ChildTaskExternalID e = Some (n_child ids i) →
    k = (branchOf t f n, n) ∧ e_IdempotencyKey e = runKey o) as Hall.
  { intros k' e He Hc. destruct (t_entries t !! k') as [e0|] eqn:He0.
    - exfalso. destruct (ex_old _ _ _ _ (rn_extends _ _ _ _ _ _ _ Hr) _ _ He0) as (e1 & He1 & _ & Hc1 & _).
      rewrite He in He1. injection He1 as <-. eapply (fr_entry _ _ (gr_child _ _ _ Hg i)); [exact He0|congruence].
    - destruct (rn_created _ _ _ _ _ _ _ Hr _ _ He He0) as (x & Hx & -> & Hid & Hch). rewrite Hc in Hch.
      unfold nullIfNil in Hch. case_bool_decide; [done|]. injection Hch as Hch.
      assert (x = runOpt o (n_child ids i) n (branchOf t f n)) as ->; [|done].
      assert (runOpt o (n_child ids i) n (branchOf t f n) ∈ nonSkipOpts (planEntries ids t f 0 n0 all)) as Hx'.
      { apply elem_of_nonSkipOpts. split; [|done]. rewrite Hsplit. apply elem_of_app. right. cbn [planEntries].
        unfold keptChild. rewrite decide_False, Hc0 by done. cbn. unfold childId. rewrite decide_False, Hc0 by done. by left. }
      pose proof (planEntries_children ids t f all 0 n0 all Hg) as Hnd.
      apply list_elem_of_lookup in Hx as [a Hx], Hx' as [b Hx'].
      change (eventEntries ids t f n0 (TriggerRuns all)) with (planEntries ids t f 0 n0 all) in Hx.
      assert (a = b) as ->; [|congruence].
      eapply (NoDup_lookup _ a b (n_child ids i)); [exact Hnd|..]; rewrite list_lookup_fmap; [by rewrite Hx; cbn; rewrite Hch|by rewrite Hx']. }
  split.
  - pose proof Ha as (e & He & Hc & _)%activeKey_Some; [|done]. rewrite Ha. f_equal. by apply (Hall k e).
  - intros k' e He Hc. destruct (Hall _ _ He Hc) as [_ Hid]. unfold skipMatches, skipOpt. cbn.
    destruct (to_ChildKey o); [by left|right]. unfold idempotencyKeyMatches. cbn. rewrite Hid, bool_decide_true by done. by rewrite orb_true_r.
Qed.

Lemma ran_suffix ids t f all n0 t' f' opts pre i n m :
  logOk t f → logOk t' f' → goodRuns ids t all → ran ids t f (TriggerRuns all) n0 t' f' →
  stable t f (TriggerRuns all) t' f' →
  planEntries ids t f 0 n0 all = pre ++ planEntries ids t f i n opts → (∀ j, all !! (i + j)%nat = opts !! j) →
  (m = n ∨ Forall (λ o, is_Some (keptChild t' f' o)) opts) →
  runRefs t' f' m opts = runRefs t f n opts ∧ runsPresent t' f' m opts.
Proof.
  intros Ht Ht' Hg Hr Hst. pose proof (rn_extends _ _ _ _ _ _ _ Hr) as Hex.
  revert pre i n m. induction opts as [|o opts IH]; intros pre i n m Hsplit Hall Hm; [done|].
  assert (all !! i = Some o) as Hi by (specialize (Hall 0%nat); by rewrite Nat.add_0_r in Hall).
  assert (∀ j, all !! (S i + j)%nat = opts !! j) as Hall' by (intros j; specialize (Hall (S j)); by rewrite Nat.add_succ_r in Hall).
  assert (∀ x, planEntries ids t f 0 n0 all = pre ++ x :: planEntries ids t f (S i) n opts →
    planEntries ids t f 0 n0 all = (pre ++ [x]) ++ planEntries ids t f (S i) n opts) as Hnext by (intros x ->; by rewrite <- app_assoc).
  pose proof Hsplit as Hsplit'. cbn [planEntries] in Hsplit'. cbn [runRefs runsPresent].
  destruct (keptChild t f o) as [c|] eqn:Hc.
  - destruct (kept_known _ _ _ _ Hc) as [Hkn _].
    assert (keptChild t' f' o = Some c) as Hc'.
    { rewrite (extends_kept t f t' f'); try done. unfold keptChild in Hc. destruct (decide _); [done|]. left.
      by destruct (t_signals t !! childSpawnKey o). }
    rewrite Hc', (extends_active t f t' f') by done. destruct (IH _ (S i) n m (Hnext _ Hsplit')) as [-> Hp]; [done| |].
    { destruct Hm as [->|Hm]; [by left|right]. by apply Forall_cons in Hm as [_ ?]. }
    split; [done|]. split; [|done]. eapply extends_skip; [done..|]. intros k e He Hch.
    apply (rn_skip _ _ _ _ _ _ _ Hr (skipOpt o c) k e); [|done..]. apply elem_of_skipOpts. split; [|done]. cbn [eventEntries].
    rewrite Hsplit'. apply elem_of_app. right. by left.
  - assert (planEntries ids t f 0 n0 all =
      (pre ++ [runOpt o (childId ids t i o) n (branchOf t f n)]) ++ planEntries ids t f (S i) (n + 1) opts) as Hsplit2
      by (rewrite <- app_assoc; exact Hsplit').
    destruct (keptChild t' f' o) as [c'|] eqn:Hc'.
    + destruct (newly_kept _ _ _ _ _ _ _ _ _ _ _ _ _ Ht Ht' Hg Hr Hsplit Hi Hc Hc') as [-> Hsk].
      destruct (IH _ (S i) (n + 1) m Hsplit2) as [-> Hp]; [done| |done]. right. apply Forall_forall.
      intros o' [j Hj]%list_elem_of_lookup. apply (Hst i (S i + j)%nat o o'); [lia|done|by rewrite Hall'|done|by eauto].
    + destruct Hm as [->|Hm]; [|by apply Forall_cons in Hm as [[? ?] _]; congruence].
      destruct (IH _ (S i) (n + 1) (n + 1) Hsplit2) as [-> Hp]; [done|by left|].
      rewrite !(extends_branchOf _ _ _ _ _ Hex). split; [done|]. split; [|done].
      destruct (rn_present _ _ _ _ _ _ _ Hr (runOpt o (childId ids t i o) n (branchOf t f n))) as (e & He & Hmt).
      { apply elem_of_nonSkipOpts. split; [|done]. cbn [eventEntries]. rewrite Hsplit'. apply elem_of_app. right. by left. }
      exists e. split; [done|]. by apply keyMatches_spec in Hmt.
Qed.

Lemma ran_answer ids t f ev n t' f' :
  logOk t f → logOk t' f' → goodEvent ids t ev → ran ids t f ev n t' f' → stable t f ev t' f' →
  eventRefs t' f' n ev = eventRefs t f n ev ∧ eventPresent t' f' n ev ∧ keysKnown t' ev.
Proof.
  intros Ht Ht' Hg Hr Hst. pose proof (rn_extends _ _ _ _ _ _ _ Hr) as Hex.
  destruct ev as [payload memoKey|opts|conditions]; cbn [eventRefs eventPresent keysKnown].
  - rewrite !(extends_branchOf _ _ _ _ _ Hex). split_and!; [done| |done].
    destruct (rn_present _ _ _ _ _ _ _ Hr (memoOpt n (branchOf t f n) payload memoKey)) as (e & He & Hm); [by left|].
    apply single_matches in Hm; [|done]. eauto.
  - destruct (ran_suffix ids t f opts n t' f' opts [] 0 n n) as [Hrefs Hp]; try done; [by left|]. split_and!; [done..|].
    intros o [i Hi]%list_elem_of_lookup. destruct (decide (childSpawnKey o = ""%string)) as [|Hk]; [by right|left].
    rewrite (ran_keys _ _ _ _ _ _ _ _ _ Hg Hr Hi Hk). eauto.
  - rewrite !(extends_branchOf _ _ _ _ _ Hex). split_and!; [done| |done].
    destruct (rn_present _ _ _ _ _ _ _ Hr (waitOpt n (branchOf t f n) conditions)) as (e & He & Hm); [by left|].
    apply single_matches in Hm; [|done]. eauto.
Qed.

(** ** Steps that leave the entries in place *)

(** Entries stay under their keys, for the same children and requests; branches and signals stay. *)
Record quiet (t : taskLog) (f : V1DurableEventLogFile) (t' : taskLog) (f' : V1DurableEventLogFile) : Prop := {
  qu_file : t_file t' = Some f';
  qu_node : 0 ≤ f_LatestNodeID f';
  qu_branch : f_LatestBranchID f' = f_LatestBranchID f;
  qu_points : t_points t' = t_points t;
  qu_signals : t_signals t' = t_signals t;
  qu_entries : ∀ k, option_Forall2 sameEntry (t_entries t !! k) (t_entries t' !! k);
}.

#[export] Instance sameEntry_preorder : PreOrder sameEntry.
Proof. split; [done|]. intros e1 e2 e3 (Ha & Hb & Hc) (Ha' & Hb' & Hc'). unfold sameEntry. by rewrite Ha', Hb', Hc'. Qed.

Lemma quiet_back t f t' f' k e' :
  quiet t f t' f' → t_entries t' !! k = Some e' → ∃ e, t_entries t !! k = Some e ∧ sameEntry e e'.
Proof. intros Hq He'. pose proof (qu_entries _ _ _ _ Hq k) as Hk. rewrite He' in Hk. inversion Hk; subst. eauto. Qed.

Lemma quiet_forth t f t' f' k e :
  quiet t f t' f' → t_entries t !! k = Some e → ∃ e', t_entries t' !! k = Some e' ∧ sameEntry e e'.
Proof. intros Hq He. pose proof (qu_entries _ _ _ _ Hq k) as Hk. rewrite He in Hk. inversion Hk; subst. eauto. Qed.

Lemma quiet_extends t f t' f' : quiet t f t' f' → extends t f t' f'.
Proof.
  intros Hq. split; [apply Hq..| | |].
  - by rewrite (qu_signals _ _ _ _ Hq).
  - intros k e He. by eapply quiet_forth.
  - intros k e' c He' _ _. destruct (quiet_back _ _ _ _ _ _ Hq He') as (e & ? & _). eauto.
Qed.

Lemma quiet_ok t f t' f' : logOk t f → quiet t f t' f' → logOk t' f'.
Proof.
  intros Ht Hq. split.
  - apply Hq.
  - rewrite (qu_points _ _ _ _ Hq). apply Ht.
  - intros k e' He'. destruct (quiet_back _ _ _ _ _ _ Hq He') as (e & He & Hk & _). rewrite Hk. injection Hk as _ Hk. rewrite Hk.
    by apply (lo_key _ _ Ht).
  - intros k1 k2 e1 e2 c H1 H2 Hc1 Hc2. destruct (quiet_back _ _ _ _ _ _ Hq H1) as (e1' & He1 & _ & Hx1 & _).
    destruct (quiet_back _ _ _ _ _ _ Hq H2) as (e2' & He2 & _ & Hx2 & _). apply (lo_child _ _ Ht k1 k2 e1' e2' c He1 He2); congruence.
  - intros k e' He'. destruct (quiet_back _ _ _ _ _ _ Hq He') as (e & He & _ & Hc & _). rewrite Hc. by eapply (lo_nil _ _ Ht).
  - apply Hq.
Qed.

Definition maxNode (refs : list entryKey) : Z := foldl (λ n k, Z.max n k.2) 0 refs.
(** The latest node after an answer. *)
Definition nextNode (node : Z) (refs : list entryKey) : Z := Z.max node (maxNode refs).

Lemma maxNode_refs rs : maxNodeId rs = maxNode (refsOf rs).
Proof. unfold maxNodeId, maxNode, refsOf. generalize 0. induction rs as [|r rs IH]; intros n; [done|]. cbn. apply IH. Qed.

Lemma maxNode_nonneg refs : 0 ≤ maxNode refs.
Proof.
  unfold maxNode. assert (∀ n, n ≤ foldl (λ n (k : entryKey), Z.max n k.2) n refs) as Hn; [|apply (Hn 0)].
  induction refs as [|k refs IH]; intros n; cbn; [lia|]. specialize (IH (Z.max n k.2)). lia.
Qed.

Lemma finish_quiet d f :
  t_file (d_log d) = Some f → 0 ≤ f_LatestNodeID f →
  quiet (d_log d) f (finishLog d) (set_node (nextNode (f_LatestNodeID f) (refsOf (ar_logEntries (d_result d)))) f).
Proof.
  intros Hf Hn. unfold finishLog. rewrite maxNode_refs. set (n := maxNode _). pose proof (maxNode_nonneg (refsOf (ar_logEntries (d_result d)))) as Hm.
  fold n in Hm. unfold nextNode. fold n.
  assert (∀ k, option_Forall2 sameEntry (t_entries (d_log d) !! k)
    (foldl (λ es kp, alter (set_result kp.2) kp.1 es) (t_entries (d_log d)) (d_payloads d) !! k)) as Hes.
  { intros k. apply (related_foldl _ (λ kp es, alter (set_result kp.2) kp.1 es)). intros a es. by apply related_alter; [apply _|]. }
  destruct (Z.ltb_spec 0 n).
  - unfold updateLatestNodeId. cbn [t_file set_entries]. rewrite Hf. split; try done. cbn. lia.
  - split; try done; cbn; [|lia]. rewrite Hf. f_equal. destruct f as [inv node br ord]. cbn in *. unfold set_node. cbn. f_equal. lia.
Qed.

Lemma created_extends ids t f ev n t2 f2 :
  logOk t f → goodEvent ids t ev → 0 ≤ n →
  created (resolvedLog ids ev t) t2 (eventEntries ids t f n ev) → sameFile f f2 → extends t f t2 f2.
Proof.
  intros Ht Hg Hn Hc (_ & _ & Hb).
  assert (t_entries (resolvedLog ids ev t) = t_entries t) as Hes by by destruct ev. split.
  - rewrite (cr_points _ _ _ Hc). by destruct ev.
  - done.
  - rewrite (cr_signals _ _ _ Hc). destruct ev; [done| |done]. cbn. apply map_union_subseteq_l.
  - intros k e He. exists e. split; [|done]. apply (cr_old _ _ _ Hc). by rewrite Hes.
  - intros k e' c He' Hch Hkn. destruct (t_entries t !! k) as [e|] eqn:Hk; [by eauto|]. exfalso.
    destruct (cr_only _ _ _ Hc k) as (o & Ho & Hm & ->); [by rewrite Hes|by eauto|].
    destruct (cr_new _ _ _ Hc o Ho Hm) as (e & He & _ & _ & Hch'). rewrite He' in He. injection He as <-. rewrite Hch in Hch'.
    unfold nullIfNil in Hch'. case_bool_decide as Hnil; [done|]. injection Hch' as ->.
    apply elem_of_nonSkipOpts in Ho as [Ho Hs].
    destruct ev as [payload memoKey|opts|conditions]; cbn [eventEntries] in Ho;
      [apply list_elem_of_singleton in Ho as ->; done| |apply list_elem_of_singleton in Ho as ->; done].
    apply planEntries_in in Ho as [[? _]|(_ & _ & _ & j & o' & _ & Hid)]; [congruence|]. rewrite Hid in Hkn.
    pose proof (childId_fresh ids t opts (0 + j) o' Hg) as Hf.
    destruct Hkn as [[key Hkey]|(k & e & He & Hx)]; [by eapply (fr_signal _ _ Hf)|by eapply (fr_entry _ _ Hf)].
Qed.

Lemma resolved_ok ids ev t f : logOk t f → logOk (resolvedLog ids ev t) f.
Proof. intros Ht. destruct ev; [done|by destruct Ht; split|done]. Qed.

Lemma resolved_planOk ids ev t f es : planOk t f es → planOk (resolvedLog ids ev t) f es.
Proof. intros Hp. destruct ev; [done|by destruct Hp; split|done]. Qed.

Lemma resolved_planKey ids ev t f o : planKey (resolvedLog ids ev t) f o = planKey t f o.
Proof. by destruct ev. Qed.

Lemma resolved_entries ids ev t : t_entries (resolvedLog ids ev t) = t_entries t.
Proof. by destruct ev. Qed.

Lemma idem_refl o e : e_IdempotencyKey e = o_IdempotencyKey o → idempotencyKeyMatches o (e_IdempotencyKey e) = true.
Proof. intros ->. unfold idempotencyKeyMatches. rewrite bool_decide_true by done. by rewrite orb_true_r. Qed.

(** The log and the plan of a request that is taken. *)
Lemma pipeline_inv X task q db t f d :
  db !! task = Some t → logOk t f → goodEvent (q_ids q) t (in_Event (q_opts q)) → pipeline X db (task, q) = Done d →
  f_LatestInvocationCount f = in_InvocationCount (q_opts q) ∧
  ∃ k ch, k_log k = resolvedLog (q_ids q) (in_Event (q_opts q)) t ∧
    getOrCreate X (Planned k (eventEntries (q_ids q) t f (f_LatestNodeID f + 1) (in_Event (q_opts q))) ch) = Done d.
Proof.
  intros Hdb Ht Hg. unfold pipeline, lockOne. cbn [fst snd]. rewrite Hdb. change (default emptyLog (Some t)) with t.
  rewrite (lo_file _ _ Ht). case_bool_decide as Hinv; [|done]. unfold mbind, outcome_bind, mret, outcome_ret.
  destruct (plan_event X task q f t Ht Hg) as (k & -> & _ & _ & _ & Hlog & Hplan & _).
  destruct (planOne X k) as [p| |] eqn:Hp; [|done..]. destruct (Hplan _ eq_refl) as [ch ->]. intros Hd. split; [done|]. by exists k, ch.
Qed.

Lemma created_ran ids t f ev n t2 f2 t' f' :
  logOk t f → goodEvent ids t ev → 0 ≤ n →
  created (resolvedLog ids ev t) t2 (eventEntries ids t f n ev) → sameFile f f2 →
  planMatches (resolvedLog ids ev t) (eventEntries ids t f n ev) → quiet t2 f2 t' f' → ran ids t f ev n t' f'.
Proof.
  intros Ht Hg Hn Hcr Hsame [Hmn Hms] Hq. pose proof (resolved_entries ids ev t) as Hes. rewrite Hes in Hmn, Hms. split.
  - eapply extends_trans; [by eapply created_extends|by apply quiet_extends].
  - by rewrite (qu_signals _ _ _ _ Hq), (cr_signals _ _ _ Hcr).
  - intros o Ho.
    assert (∃ e2, t_entries t2 !! optKey o = Some e2 ∧ idempotencyKeyMatches o (e_IdempotencyKey e2) = true) as (e2 & He2 & Hm2).
    { destruct (t_entries t !! optKey o) as [e|] eqn:He.
      - exists e. split; [apply (cr_old _ _ _ Hcr); by rewrite Hes|by eapply Hmn].
      - destruct (cr_new _ _ _ Hcr o Ho) as (e & ? & _ & Hi & _); [unfold missing; by rewrite Hes, He|].
        exists e. split; [done|by apply idem_refl]. }
    destruct (quiet_forth _ _ _ _ _ _ Hq He2) as (e' & ? & _ & _ & Hi). exists e'. split; [done|by rewrite Hi].
  - intros k e' He' Hk. destruct (quiet_back _ _ _ _ _ _ Hq He') as (e2 & He2 & _ & Hc2 & Hi2).
    destruct (cr_only _ _ _ Hcr k) as (o & Ho & Hm & ->); [by rewrite Hes|by eauto|].
    destruct (cr_new _ _ _ Hcr o Ho Hm) as (e & He & _ & Hi & Hc). rewrite He2 in He. injection He as <-.
    exists o. split_and!; [done|done|congruence|congruence].
  - done.
Qed.

Lemma request_ran X task q db t f d :
  let ids := q_ids q in let ev := in_Event (q_opts q) in let n := f_LatestNodeID f + 1 in
  db !! task = Some t → logOk t f → goodEvent ids t ev → pipeline X db (task, q) = Done d →
  ∃ f', logOk (finishLog d) f' ∧ ran ids t f ev n (finishLog d) f' ∧
    refsOf (ar_logEntries (d_result d)) = merge_sort refLe (eventRefs t f n ev) ∧
    f_LatestNodeID f' = nextNode (f_LatestNodeID f) (refsOf (ar_logEntries (d_result d))) ∧
    f_LatestInvocationCount f' = f_LatestInvocationCount f ∧ f_LatestInvocationCount f = in_InvocationCount (q_opts q).
Proof.
  intros ids ev n Hdb Ht Hg Hd. destruct (pipeline_inv _ _ _ _ _ _ _ Hdb Ht Hg Hd) as (Hinv & k & ch & Hlog & Hd').
  fold ids ev n in Hlog, Hd'. clear Hd. pose proof (lo_node _ _ Ht) as Hnode. assert (0 ≤ n) as Hn by (unfold n; lia).
  pose proof (event_planOk ids t f n ev Ht Hg Hn) as Hp.
  destruct (getOrCreate_inv _ _ _ _ _ f _ (resolved_ok ids ev t f Ht) (resolved_planOk ids ev t f _ Hp) Hlog Hd')
    as (Hcr & (f2 & Hf2 & Hsame) & Hm & Hrefs).
  pose proof (created_ok _ _ _ _ _ (resolved_ok ids ev t f Ht) (resolved_planOk ids ev t f _ Hp) Hcr Hf2 Hsame) as Hok2.
  pose proof Hsame as (Hinv2 & Hnode2 & _).
  pose proof (finish_quiet d f2 Hf2 (lo_node _ _ Hok2)) as Hq. eexists. split_and!.
  - by eapply quiet_ok.
  - by eapply created_ran.
  - rewrite Hrefs. f_equal. rewrite <- (eventRefs_plan ids). apply list_fmap_ext. intros. apply resolved_planKey.
  - cbn. by rewrite Hnode2.
  - done.
  - done.
Qed.

(** ** A request whose entries are in the log *)

Lemma known_signals ids t opts :
  keysDistinct opts → keysKnown t (TriggerRuns opts) → signalsAfter ids opts t = t_signals t.
Proof.
  intros Hd Hk. unfold signalsAfter. apply map_eq. intros key. rewrite lookup_union.
  destruct (t_signals t !! key) as [c|] eqn:Hc; [by destruct (list_to_map _ !! key)|]. rewrite (left_id None _).
  destruct (list_to_map _ !! key) as [c|] eqn:Hl; [|done]. exfalso. apply elem_of_list_to_map_2 in Hl.
  destruct (candidates_lookup ids [] 0 opts Hd) as (cs & Hcs & _ & Hin); [by intros ? _ _ ?%elem_of_nil|].
  replace (imap (λ i o, ((0 + i)%nat, o)) opts) with (imap pair opts) in Hcs by by apply imap_ext.
  fold (candidates ids opts) in Hcs. cbn [app] in Hcs. rewrite Hcs in Hl. apply Hin in Hl as (i & o & Ho & Hko & -> & _).
  destruct (Hk o) as [[c' Hc']|]; [by eapply list_elem_of_lookup_2|congruence|done].
Qed.

Lemma resolved_signals ids t ev : goodEvent ids t ev → keysKnown t ev → t_signals (resolvedLog ids ev t) = t_signals t.
Proof. intros Hg Hk. destruct ev; [done| |done]. cbn. apply known_signals; [apply Hg|done]. Qed.

Lemma request_replays X task q db t f :
  let ids := q_ids q in let ev := in_Event (q_opts q) in
  (∀ s, x_fails X s = false) → db !! task = Some t → logOk t f → goodEvent ids t ev →
  in_InvocationCount (q_opts q) = f_LatestInvocationCount f →
  eventPresent t f (f_LatestNodeID f + 1) ev → keysKnown t ev →
  ∃ d, pipeline X db (task, q) = Done d ∧ Forall (λ r, r_AlreadyExisted r = true) (ar_logEntries (d_result d)) ∧
    t_entries (finishLog d) = t_entries t ∧ t_signals (finishLog d) = t_signals t.
Proof.
  intros ids ev Hx Hdb Ht Hg Hinv Hpr Hk. unfold pipeline, lockOne. cbn [fst snd]. rewrite Hdb.
  change (default emptyLog (Some t)) with t. rewrite (lo_file _ _ Ht), bool_decide_true by done.
  unfold mbind, outcome_bind, mret, outcome_ret. destruct (plan_event X task q f t Ht Hg) as (k & -> & _ & _ & _ & Hlog & Hplan & Hp).
  destruct (Hp Hx) as [p Hp']. rewrite Hp'. destruct (Hplan _ Hp') as [ch ->]. fold ids ev in Hlog |- *.
  set (n := f_LatestNodeID f + 1) in *. assert (0 ≤ n) as Hn by (pose proof (lo_node _ _ Ht); lia).
  destruct (event_present ids t f n ev Hpr) as [Hall Hm].
  destruct (getOrCreate_ok X k (eventEntries ids t f n ev) ch _ f Hx (resolved_ok ids ev t f Ht)
    (resolved_planOk ids ev t f _ (event_planOk ids t f n ev Ht Hg Hn)) Hlog) as (d & Hd & Hdl & Hdp & Hex).
  { unfold allPresent in *. by rewrite resolved_entries. }
  { unfold planMatches in *. by rewrite resolved_entries. }
  exists d. split; [exact Hd|]. split; [done|]. unfold finishLog. rewrite Hdl, Hdp. cbn [foldl].
  assert (∀ n t, t_entries (updateLatestNodeId n t) = t_entries t ∧ t_signals (updateLatestNodeId n t) = t_signals t) as Hup
    by (intros n' t'; unfold updateLatestNodeId; by destruct (t_file t')).
  rewrite <- (resolved_entries ids ev t), <- (resolved_signals ids t ev Hg Hk). by destruct (0 <? _); [rewrite !(proj1 (Hup _ _)), !(proj2 (Hup _ _))|].
Qed.

End replay.

End ReplayAnswer.
