(* ===== verification/ReplayTheorems.v ===== *)
(** Replaying a durable task: the requests of an invocation, sent again by the next one, are answered with the same
    entries, whatever happened to the entries in between.  The requests that are not are shown as well. *)

From S2P Require Import Prelude Workers LogTables EventLog EventLogOps EventLogTheorems ReplayPlan ReplayAnswer.
From stdpp Require Import pretty.
Import Workers LogTables EventLog EventLogOps EventLogTheorems ReplayPlan ReplayAnswer.

Module ReplayTheorems.

Open Scope Z_scope.

Section replay.
Context `{Params}.

(** ** What goes on besides *)

(** What changes the entries while a task runs or between its invocations: matches are satisfied, memos are completed,
    children are triggered and waits are registered. *)
Inductive background : taskLog → taskLog → Prop :=
  | bg_satisfy ms t : background t (satisfyEntries ms t).2
  | bg_memo k payload t t' : completeMemoEntry k payload t = Some t' → background t t'
  | bg_trigger triggers registers commits pending t out t' :
      triggerPendingRunEntries triggers registers commits pending t = Some (out, t') → background t t'
  | bg_wait registers commits k conditions t out t' :
      triggerPendingWaitFor registers commits k conditions t = Some (out, t') → background t t'.

Lemma quiet_entries t f t' (Hf : t_file t = Some f) :
  0 ≤ f_LatestNodeID f → t_file t' = t_file t → t_points t' = t_points t → t_signals t' = t_signals t →
  (∀ k, option_Forall2 sameEntry (t_entries t !! k) (t_entries t' !! k)) → quiet t f t' f.
Proof. intros Hn Hf' Hp Hs He. split; try done. by rewrite Hf'. Qed.

Lemma quiet_refl t f : logOk t f → quiet t f t f.
Proof.
  intros Ht. apply quiet_entries; [apply Ht|apply Ht|done..|]. intros k. apply related_refl, _.
Qed.

Lemma satisfy_same ms t k e : sameEntry e (satisfy ms t k e).
Proof. unfold satisfy. by destruct (List.find _ _). Qed.

Lemma claim_quiet keys t f : logOk t f → quiet t f (claimEntries keys t).2 f.
Proof.
  intros Ht. unfold claimEntries. cbn. apply quiet_entries; [apply Ht|apply Ht|done..|].
  intros k. cbn. apply (related_foldl _ (λ k es, alter set_triggered k es)). intros a es. by apply related_alter; [apply _|].
Qed.

Lemma background_quiet t f t' :
  logOk t f → background t t' →
  ∃ f', quiet t f t' f' ∧ f_LatestNodeID f' = f_LatestNodeID f ∧ f_LatestInvocationCount f' = f_LatestInvocationCount f.
Proof.
  intros Ht Hb. destruct Hb as [ms t|k payload t t' Hm|tr rg cm pending t out t' Hm|rg cm k conds t out t' Hm].
  - unfold satisfyEntries, updateEntriesSatisfied, raiseOrder. cbn [t_file set_entries]. rewrite (lo_file _ _ Ht). cbn.
    eexists (set_latestOrder _ f). split; [|done]. split; cbn; try reflexivity; [apply Ht|]. intros k.
    eapply related_trans; [apply _|by apply (related_imap _ (satisfy (sm_input <$> ms) t)), satisfy_same|].
    apply (related_foldl _ (λ e es, match List.find (λ m, bool_decide (si_key (sm_input m) = keyOf e)) (reverse ms) with
      | Some m => if bool_decide (sm_data m = ""%string) then es else alter (set_result (sm_data m)) (keyOf e) es
      | None => es end)).
    intros e es. pose proof (related_refl sameEntry es k) as Hrefl.
    destruct (List.find _ _); [|done]. case_bool_decide; [done|]. by apply related_alter; [apply _|].
  - exists f. split; [|done]. unfold completeMemoEntry in Hm. destruct (t_entries t !! k) as [e|]; [|done].
    destruct (e_IsSatisfied e); [injection Hm as <-; by apply quiet_refl|]. injection Hm as <-.
    case_bool_decide; (apply quiet_entries; [apply Ht|apply Ht|done..|]); intros k'; cbn;
      [by apply related_alter; [apply _|]|eapply related_trans; [apply _| |by apply related_alter; [apply _|]]; by apply related_alter; [apply _|]].
  - exists f. split; [|done]. unfold triggerPendingRunEntries in Hm.
    pose proof (claim_quiet ((λ p, (pt_BranchId p, pt_NodeId p)) <$> pending) t f Ht) as Hq.
    destruct (claimEntries _ t) as [claimed t1]. cbn in Hq. destruct claimed; [injection Hm as <- <-|].
    + by apply quiet_refl.
    + destruct tr; [|done]. destruct (negb _); [done|]. by injection Hm as <- <-.
  - exists f. split; [|done]. unfold triggerPendingWaitFor in Hm. pose proof (claim_quiet [k] t f Ht) as Hq.
    destruct (claimEntries _ t) as [claimed t1]. cbn in Hq. destruct claimed; [injection Hm as <- <-|].
    + by apply quiet_refl.
    + destruct (_ || _); [done|]. by injection Hm as <- <-.
Qed.

(** ** Invocations *)

(** The requests of an invocation that were answered, each with the entries of its answer.  The requests are such as the
    dispatcher makes for a task that is not a DAG: their new ids were not used before, no two children of a request have
    the same key, and no request mixes its children. *)
Inductive firstPass (task : Z) : taskLog → list (ingestEvent * list entryKey) → taskLog → Prop :=
  | fp_done t : firstPass task t [] t
  | fp_background t t1 h t2 : background t t1 → firstPass task t1 h t2 → firstPass task t h t2
  | fp_request X q t f a t1 h t2 :
      t_file t = Some f → goodEvent (q_ids q) t (in_Event (q_opts q)) → unmixed t f (in_Event (q_opts q)) →
      ingest X task q t = (inl [(task, inl a)], t1) →
      firstPass task t1 h t2 → firstPass task t ((in_Event (q_opts q), refsOf (ar_logEntries a)) :: h) t2.

(** The same events sent by another invocation, each with the reply it gets from a database that answers. *)
Inductive replays (task : Z) :
    taskLog → list ingestEvent → list (list (Z * (appendDurableEventLogResult + ingestError)) + ingestError) → taskLog → Prop :=
  | rp_done t : replays task t [] [] t
  | rp_background t t1 evs outs t2 : background t t1 → replays task t1 evs outs t2 → replays task t evs outs t2
  | rp_request X q t f reply t1 evs outs t2 :
      (∀ s, x_fails X s = false) → t_file t = Some f → f_LatestInvocationCount f = in_InvocationCount (q_opts q) →
      goodEvent (q_ids q) t (in_Event (q_opts q)) → ingest X task q t = (reply, t1) →
      replays task t1 evs outs t2 → replays task t (in_Event (q_opts q) :: evs) (reply :: outs) t2.

(** A log that has the answers of a sequence of events, from a node on. *)
Fixpoint agrees (t : taskLog) (f : V1DurableEventLogFile) (node : Z) (h : list (ingestEvent * list entryKey)) : Prop :=
  match h with
  | [] => True
  | (ev, refs) :: h =>
      refs = merge_sort refLe (eventRefs t f (node + 1) ev) ∧ eventPresent t f (node + 1) ev ∧ keysKnown t ev ∧
      agrees t f (nextNode node refs) h
  end.

Lemma extends_keysKnown t f t' f' ev : extends t f t' f' → keysKnown t ev → keysKnown t' ev.
Proof.
  intros Hex. destruct ev; [done| |done]. cbn. intros Hk o Ho. destruct (Hk o Ho) as [[c Hc]|]; [left|by right].
  exists c. eapply lookup_weaken; [done|apply Hex].
Qed.

Lemma agrees_extends t f t' f' node h :
  logOk t f → logOk t' f' → extends t f t' f' → agrees t f node h → agrees t' f' node h.
Proof.
  intros Ht Ht' Hex. revert node. induction h as [|[ev refs] h IH]; intros node; cbn [agrees]; [done|].
  intros (-> & Hp & Hk & Hh). destruct (extends_answer t f t' f' (node + 1) ev Ht Ht' Hex Hk) as [-> Hp'].
  split_and!; [done|by apply Hp'|by eapply extends_keysKnown|by apply IH].
Qed.

Lemma firstPass_agrees task t h t2 :
  firstPass task t h t2 → ∀ f, logOk t f →
  ∃ f2, logOk t2 f2 ∧ extends t f t2 f2 ∧ agrees t2 f2 (f_LatestNodeID f) h.
Proof.
  induction 1 as [t|t t1 h t2 Hb Hh IH|X q t f0 a t1 h t2 Hf Hg Hu Hi Hh IH]; intros f Ht.
  - exists f. split_and!; [done|apply extends_refl|done].
  - destruct (background_quiet _ _ _ Ht Hb) as (f1 & Hq & Hn & _).
    destruct (IH f1 (quiet_ok _ _ _ _ Ht Hq)) as (f2 & Ht2 & Hex & Ha). rewrite Hn in Ha. exists f2.
    split_and!; [done| |done]. eapply extends_trans; [by apply quiet_extends|done].
  - assert (f0 = f) as -> by (rewrite (lo_file _ _ Ht) in Hf; by injection Hf).
    apply ingest_ok in Hi as (d & Hd & -> & ->).
    destruct (request_ran X task q {[task := t]} t f d) as (f1 & Ht1 & Hr & Hrefs & Hnode & _); [by rewrite lookup_singleton_eq|done..|].
    pose proof (unmixed_stable _ _ _ _ _ _ Ht Ht1 Hg Hr Hu) as Hst.
    destruct (IH f1 Ht1) as (f2 & Ht2 & Hex & Ha). exists f2. split_and!; [done| |].
    { eapply extends_trans; [apply Hr|done]. }
    destruct (ran_answer _ _ _ _ _ _ _ Ht Ht1 Hg Hr Hst) as (Hre & Hp & Hk).
    destruct (extends_answer (finishLog d) f1 t2 f2 (f_LatestNodeID f + 1) (in_Event (q_opts q)) Ht1 Ht2 Hex Hk) as [Hre2 Hp2].
    cbn [agrees]. rewrite Hre2, Hre. split_and!; [done|by apply Hp2|by eapply extends_keysKnown|]. by rewrite <- Hnode.
Qed.

(** A reply with the entries of an earlier answer, all of which existed. *)
Definition repeats (task : Z) (r : ingestEvent * list entryKey)
    (reply : list (Z * (appendDurableEventLogResult + ingestError)) + ingestError) : Prop :=
  ∃ a, reply = inl [(task, inl a)] ∧ refsOf (ar_logEntries a) = r.2 ∧
    Forall (λ e, r_AlreadyExisted e = true) (ar_logEntries a).

Lemma quiet_dom t f t' f' : quiet t f t' f' → dom (t_entries t') = dom (t_entries t).
Proof.
  intros Hq. apply set_eq. intros k. rewrite !elem_of_dom. pose proof (qu_entries _ _ _ _ Hq k) as Hk.
  by destruct (t_entries t !! k), (t_entries t' !! k); inversion Hk.
Qed.

Lemma replays_repeat task t evs outs t3 :
  replays task t evs outs t3 → ∀ f h rest, logOk t f → agrees t f (f_LatestNodeID f) (h ++ rest) → evs = h.*1 →
  Forall2 (repeats task) h outs ∧ dom (t_entries t3) = dom (t_entries t) ∧ t_signals t3 = t_signals t.
Proof.
  induction 1 as [t|t t1 evs outs t2 Hb Hr IH|X q t f0 reply t1 evs outs t2 Hx Hf0 Hinv Hg Hi Hr IH]; intros f h rest Ht Ha Hevs.
  - symmetry in Hevs. apply fmap_nil_inv in Hevs as ->. done.
  - destruct (background_quiet _ _ _ Ht Hb) as (f1 & Hq & Hn & _). pose proof (quiet_ok _ _ _ _ Ht Hq) as Ht1.
    destruct (IH f1 h rest Ht1) as (Hrep & Hdom & Hsig); [|done|].
    { rewrite Hn. eapply agrees_extends; [exact Ht|done|by apply quiet_extends|done]. }
    split_and!; [done|by rewrite Hdom, (quiet_dom _ _ _ _ Hq)|by rewrite Hsig; apply Hq].
  - destruct h as [|[ev refs] h]; [done|]. rewrite fmap_cons in Hevs. injection Hevs as <- ->.
    cbn [app agrees] in Ha. destruct Ha as (-> & Hp & Hk & Ha).
    assert (f0 = f) as -> by (rewrite (lo_file _ _ Ht) in Hf0; by injection Hf0).
    assert (({[task := t]} : gmap Z taskLog) !! task = Some t) as Hdb by by rewrite lookup_singleton_eq.
    destruct (request_replays X task q _ t f Hx Hdb Ht Hg (eq_sym Hinv) Hp Hk) as (d & Hd & Hex & Hes & Hsg).
    rewrite (ingest_done _ _ _ _ _ Hx Hd) in Hi. injection Hi as <- <-.
    destruct (request_ran X task q _ t f d Hdb Ht Hg Hd) as (f1 & Ht1 & Hran & Hrefs & Hnode & _).
    destruct (IH f1 h rest Ht1) as (Hrep & Hdom & Hsig); [|done|].
    { rewrite Hnode, Hrefs. eapply agrees_extends; [exact Ht|done|apply Hran|done]. }
    split_and!; [|by rewrite Hdom, Hes|by rewrite Hsig]. constructor; [|done]. by eexists.
Qed.

Lemma increment_quiet t f :
  logOk t f → ∃ f', quiet t f (incrementInvocationCount t) f' ∧ f_LatestNodeID f' = 0.
Proof.
  intros Ht. unfold incrementInvocationCount. rewrite (lo_file _ _ Ht). eexists (LogFile _ 0 _ _). split; [|done].
  split; cbn; try reflexivity.
Qed.

Lemma background_star t t' f : rtc background t t' → logOk t f → ∃ f', logOk t' f' ∧ extends t f t' f'.
Proof.
  intros Hb. revert f. induction Hb as [t|t t1 t2 Hb Hrest IH]; intros f Ht; [eauto using extends_refl|].
  destruct (background_quiet _ _ _ Ht Hb) as (f1 & Hq & _). destruct (IH f1 (quiet_ok _ _ _ _ Ht Hq)) as (f2 & Ht2 & Hex).
  exists f2. split; [done|]. eapply extends_trans; [by apply quiet_extends|done].
Qed.


End replay.

(** ** Examples *)

#[local] Instance exampleParams : Params := {| uuidString := pretty; sha256hex := λ s, s |}.

Definition exampleIds (b : Z) : newIds :=
  NewIds (λ i, b + 2 * Z.of_nat i) (λ i, b + 2 * Z.of_nat i + 1) (λ i, 10 * b + Z.of_nat i).
Definition exampleRun (name : string) (index : Z) (key : option string) : WorkflowNameTriggerOpts :=
  TriggerOpts name "{}" (Some 7) (Some index) key None false false 0 false false false false.
Definition exampleTx : txEnv := TxEnv (λ _, false) true true.
Definition exampleRequest (invocation b : Z) (ev : ingestEvent) : request := Request (IngestOpts 7 invocation ev) (exampleIds b).
Definition exampleStart : taskLog := incrementInvocationCount emptyLog.

Definition answerOf (reply : list (Z * (appendDurableEventLogResult + ingestError)) + ingestError) : appendDurableEventLogResult :=
  match reply with inl [(_, inl a)] => a | _ => AppendResult [] ∅ 0 end.

(** The entries of an answer. *)
Definition answered (reply : list (Z * (appendDurableEventLogResult + ingestError)) + ingestError) : list entryKey :=
  match reply with inl [(_, inl a)] => refsOf (ar_logEntries a) | _ => [] end.

Lemma start_ok : logOk exampleStart (LogFile 1 0 1 0).
Proof.
  split; cbn; try done; try (intros *; rewrite lookup_empty; done).
Qed.

Lemma fresh_above t b c :
  bool_decide (map_Forall (λ _ x, x < b) (t_signals t)) = true →
  bool_decide (map_Forall (λ _ e, default 0 (e_ChildTaskExternalID e) < b) (t_entries t)) = true →
  0 < b → b ≤ c → freshId t c.
Proof.
  intros Hs%bool_decide_eq_true He%bool_decide_eq_true Hb Hc. split.
  - unfold uuidNil. lia.
  - intros key Hk. apply Hs in Hk. lia.
  - intros k e Hk Hch. apply He in Hk. rewrite Hch in Hk. cbn in Hk. lia.
Qed.

Lemma example_good b t opts :
  bool_decide (map_Forall (λ _ x, x < b) (t_signals t)) = true →
  bool_decide (map_Forall (λ _ e, default 0 (e_ChildTaskExternalID e) < b) (t_entries t)) = true →
  0 < b → keysDistinct opts → Forall (λ o, to_ReplayOrphanedChildren o = false ∧ to_ShouldSkip o = false) opts →
  goodRuns (exampleIds b) t opts.
Proof.
  intros Hs He Hb Hd Hp. split; [done|done| | | | |]; cbn.
  - intros i. apply (fresh_above t b); [done..|lia].
  - intros i. apply (fresh_above t b); [done..|lia].
  - intros i j. lia.
  - intros i j. lia.
  - intros i j. lia.
Qed.

Definition twoRuns : ingestEvent := TriggerRuns [exampleRun "a" 0 None; exampleRun "b" 1 None].

Definition exampleFirst := ingest exampleTx 1 (exampleRequest 1 100 twoRuns) exampleStart.
Definition exampleSecond := ingest exampleTx 1 (exampleRequest 1 200 (Memo "p" "k")) exampleFirst.2.
Definition exampleMatch : satisfiedMatch := SatisfiedMatch (Satisfied (1, 1) false "") "r".
Definition exampleLater : taskLog := (satisfyEntries [exampleMatch] exampleSecond.2).2.
Definition exampleReplay := ingest exampleTx 1 (exampleRequest 2 300 twoRuns) (incrementInvocationCount exampleLater).

Definition twoRuns_opts : list WorkflowNameTriggerOpts := [exampleRun "a" 0 None; exampleRun "b" 1 None].

Lemma twoRuns_distinct : keysDistinct twoRuns_opts.
Proof.
  intros [|[|i]] [|[|j]] o o' Hi Hj _ Heq; cbn in Hi, Hj; try done; simplify_eq; exfalso; vm_compute in Heq; discriminate.
Qed.

Lemma twoRuns_good b t :
  bool_decide (map_Forall (λ _ x, x < b) (t_signals t)) = true →
  bool_decide (map_Forall (λ _ e, default 0 (e_ChildTaskExternalID e) < b) (t_entries t)) = true →
  0 < b → goodEvent (exampleIds b) t twoRuns.
Proof. intros. apply example_good; [done..|exact twoRuns_distinct|]. repeat constructor. Qed.

Lemma firstPass_next X q t f t1 reply refs h t2 :
  t_file t = Some f → goodEvent (q_ids q) t (in_Event (q_opts q)) → unmixed t f (in_Event (q_opts q)) → ingest X 1 q t = (reply, t1) →
  reply = inl [(1, inl (answerOf reply))] → refs = refsOf (ar_logEntries (answerOf reply)) →
  firstPass 1 t1 h t2 → firstPass 1 t ((in_Event (q_opts q), refs) :: h) t2.
Proof. intros Hf Hg Hu Hi Hr -> Hh. rewrite Hr in Hi. by eapply fp_request. Qed.

Lemma example_firstPass :
  firstPass 1 exampleStart [(twoRuns, [(1, 1); (1, 2)]); (Memo "p" "k", [(1, 3)])] exampleSecond.2.
Proof.
  apply (firstPass_next exampleTx (exampleRequest 1 100 twoRuns) exampleStart (LogFile 1 0 1 0) exampleFirst.2
    exampleFirst.1); [reflexivity|apply twoRuns_good; [by vm_compute..|lia]| |apply surjective_pairing|by vm_compute..|].
  { intros [|[|i]] [|[|j]] o o' Hlt Hi Hj _ _; cbn in Hi, Hj; try lia; try done. simplify_eq. split_and!.
    - by vm_compute.
    - left. by vm_compute.
    - intros n _. apply lookup_empty. }
  apply (firstPass_next exampleTx (exampleRequest 1 200 (Memo "p" "k")) exampleFirst.2 (LogFile 1 2 1 0) exampleSecond.2
    exampleSecond.1); [by vm_compute|done|done|apply surjective_pairing|by vm_compute..|constructor].
Qed.

Lemma replays_one X q t f reply t1 :
  (∀ s, x_fails X s = false) → t_file t = Some f → f_LatestInvocationCount f = in_InvocationCount (q_opts q) →
  goodEvent (q_ids q) t (in_Event (q_opts q)) → ingest X 1 q t = (reply, t1) → replays 1 t [in_Event (q_opts q)] [reply] t1.
Proof. intros. eapply rp_request; [done..|constructor]. Qed.

Lemma example_replay : replays 1 (incrementInvocationCount exampleLater) [twoRuns] [exampleReplay.1] exampleReplay.2.
Proof.
  apply (replays_one exampleTx (exampleRequest 2 300 twoRuns) (incrementInvocationCount exampleLater) (LogFile 2 0 1 1));
    [done|by vm_compute|done|apply twoRuns_good; [by vm_compute..|lia]|apply surjective_pairing].
Qed.


(** ** Requests that are not replayed *)

(** A fork at the second child of a bulk request: the first child is found again and takes no node, so the second is
    looked up at the node of the first.  When the children differ the replay fails; when they are alike the second
    child is not run again and the answer refers to the first child twice. *)
Theorem fork_inside_bulk :
  let sent ev := (ingest exampleTx 1 (exampleRequest 1 100 ev) exampleStart).2 in
  let again ev t := (ingest exampleTx 1 (exampleRequest 2 400 ev) (incrementInvocationCount t)).1 in
  let twoAlike := TriggerRuns [exampleRun "a" 0 None; exampleRun "a" 1 None] in
  (∃ t, HandleBranch 2 1 (sent twoRuns) = Some (2, t) ∧
    again twoRuns t = inl [(1, inr (NonDeterminismError 1 1 (runKey (exampleRun "a" 0 None)) (runKey (exampleRun "b" 1 None))))]) ∧
  (∃ t, HandleBranch 2 1 (sent twoAlike) = Some (2, t) ∧ answered (again twoAlike t) = [(1, 1); (1, 1)]).
Proof. cbv zeta. split; (eexists; split; [vm_compute; reflexivity|vm_compute; reflexivity]). Qed.

(** One request with the same child key twice: two children are triggered, although the second is meant to reuse the
    first, and a replay answers with one of them twice. *)
Theorem repeated_key_triggers_twice :
  let twice := TriggerRuns [exampleRun "a" 0 (Some "k"%string); exampleRun "a" 1 (Some "k"%string)] in
  let first := ingest exampleTx 1 (exampleRequest 1 100 twice) exampleStart in
  let second := ingest exampleTx 1 (exampleRequest 2 300 twice) (incrementInvocationCount first.2) in
  answered first.1 = [(1, 1); (1, 2)] ∧
  e_ChildTaskExternalID <$> t_entries first.2 !! (1, 1) = Some (Some 100) ∧
  e_ChildTaskExternalID <$> t_entries first.2 !! (1, 2) = Some (Some 103) ∧
  answered second.1 = [(1, 1); (1, 1)].
Proof. cbv zeta. split_and!; vm_compute; reflexivity. Qed.

(** The answer is in the order of the nodes, not of the request: a new child before one that is reused comes after it. *)
Theorem answer_in_node_order :
  let mixed := TriggerRuns [exampleRun "c" 2 None; exampleRun "a" 0 None] in
  let reply := (ingest exampleTx 1 (exampleRequest 1 200 mixed) exampleFirst.2).1 in
  answered exampleFirst.1 = [(1, 1); (1, 2)] ∧ answered reply = [(1, 1); (1, 3)].
Proof. cbv zeta. split; vm_compute; reflexivity. Qed.

End ReplayTheorems.
