(* ===== verification/SatisfiedOrder.v ===== *)
(** The order in which the entries of a durable task were satisfied.  A worker is sent completions in this order, and
    waits for the next number, so the numbers must have no gap: on a log whose forks start from the latest branch they
    are 1, 2, ... up to the latest one, each on one entry of the active branch.  A fork from elsewhere can leave a
    gap. *)

From S2P Require Import Prelude Workers LogTables EventLog EventLogOps EventLogTheorems ReplayPlan ReplayAnswer ReplayTheorems.
From stdpp Require Import pretty.
Import Workers LogTables EventLog EventLogOps EventLogTheorems ReplayPlan ReplayAnswer ReplayTheorems.

Module SatisfiedOrder.

Open Scope Z_scope.

(** ** Row numbers *)

Lemma filter_length_lt {A} (p q : A → bool) l x :
  (∀ y, p y = true → q y = true) → x ∈ l → p x = false → q x = true →
  (length (List.filter p l) < length (List.filter q l))%nat.
Proof.
  intros Hpq. induction l as [|y l IH]; intros Hx Hp Hq; [by apply elem_of_nil in Hx|].
  assert (length (List.filter p l) ≤ length (List.filter q l))%nat as Hle.
  { clear -Hpq. induction l as [|z l IH]; [done|]. cbn. destruct (p z) eqn:Hp; [rewrite (Hpq _ Hp); cbn; lia|]. destruct (q z); cbn; lia. }
  cbn. apply elem_of_cons in Hx as [<-|Hx].
  - rewrite Hp, Hq. cbn. lia.
  - specialize (IH Hx Hp Hq). destruct (p y) eqn:Hpy; [rewrite (Hpq _ Hpy); cbn; lia|]. destruct (q y); cbn; lia.
Qed.

Section ranks.
Context {A : Type} (lt : A → A → bool).
Context (lt_irrefl : ∀ a, lt a a = false) (lt_trans : ∀ a b c, lt a b = true → lt b c = true → lt a c = true).
Context (lt_total : ∀ a b, a = b ∨ lt a b = true ∨ lt b a = true).

Lemma rank_range l a : a ∈ l → 1 ≤ rowNumber lt l a ≤ Z.of_nat (length l).
Proof.
  intros Ha. unfold rowNumber. pose proof (filter_length_lt (λ b, lt b a) (λ _, true) l a) as Hl.
  assert (List.filter (λ _, true) l = l) as Hall by (clear; induction l as [|x l IH]; cbn; congruence).
  rewrite Hall in Hl. specialize (Hl (λ _ _, eq_refl) Ha (lt_irrefl a) eq_refl). lia.
Qed.

Lemma rank_mono l a b : a ∈ l → lt a b = true → rowNumber lt l a < rowNumber lt l b.
Proof.
  intros Ha Hab. unfold rowNumber.
  pose proof (filter_length_lt (λ c, lt c a) (λ c, lt c b) l a (λ c Hc, lt_trans _ _ _ Hc Hab) Ha (lt_irrefl a) Hab). lia.
Qed.

Lemma rank_inj l a b : a ∈ l → b ∈ l → rowNumber lt l a = rowNumber lt l b → a = b.
Proof.
  intros Ha Hb Heq. destruct (lt_total a b) as [?|[Hl|Hl]]; [done|..].
  - pose proof (rank_mono l a b Ha Hl). lia.
  - pose proof (rank_mono l b a Hb Hl). lia.
Qed.

Lemma rank_surj l r : NoDup l → 1 ≤ r ≤ Z.of_nat (length l) → ∃ a, a ∈ l ∧ rowNumber lt l a = r.
Proof.
  intros Hnd Hr. assert (rowNumber lt l <$> l ≡ₚ seqZ 1 (Z.of_nat (length l))) as Hp.
  { apply submseteq_length_Permutation.
    - apply NoDup_submseteq.
      + apply NoDup_fmap_2_strong; [|done]. intros a b. apply rank_inj.
      + intros x (a & -> & Ha)%list_elem_of_fmap. apply elem_of_seqZ. pose proof (rank_range l a Ha). lia.
    - rewrite length_seqZ, length_fmap. lia. }
  assert (r ∈ rowNumber lt l <$> l) as (a & -> & Ha)%list_elem_of_fmap; [|eauto].
  rewrite Hp. apply elem_of_seqZ. lia.
Qed.
End ranks.

Lemma keyLt_spec a b : keyLt a b = true ↔ a.1 < b.1 ∨ a.1 = b.1 ∧ a.2 < b.2.
Proof. unfold keyLt. rewrite orb_true_iff, andb_true_iff, !Z.ltb_lt, Z.eqb_eq. done. Qed.

Lemma keyLt_irrefl a : keyLt a a = false.
Proof. apply not_true_iff_false. rewrite keyLt_spec. lia. Qed.
Lemma keyLt_trans a b c : keyLt a b = true → keyLt b c = true → keyLt a c = true.
Proof. rewrite !keyLt_spec. lia. Qed.
Lemma keyLt_total a b : a = b ∨ keyLt a b = true ∨ keyLt b a = true.
Proof.
  rewrite !keyLt_spec. destruct a as [a1 a2], b as [b1 b2]. cbn.
  destruct (decide (a1 = b1)), (decide (a2 = b2)); subst; auto; right; lia.
Qed.

Lemma orderLt_spec a b : orderLt a b = true ↔ a.1 < b.1 ∨ a.1 = b.1 ∧ keyLt a.2 b.2 = true.
Proof. unfold orderLt. rewrite orb_true_iff, andb_true_iff, Z.ltb_lt, Z.eqb_eq. done. Qed.

Lemma orderLt_irrefl a : orderLt a a = false.
Proof. apply not_true_iff_false. rewrite orderLt_spec, keyLt_irrefl. intros [?|[_ ?]]; [lia|done]. Qed.
Lemma orderLt_trans a b c : orderLt a b = true → orderLt b c = true → orderLt a c = true.
Proof.
  rewrite !orderLt_spec. intros [H1|[H1 K1]] [H2|[H2 K2]]; [left; lia..|].
  right. split; [lia|by eapply keyLt_trans].
Qed.
Lemma orderLt_total a b : a = b ∨ orderLt a b = true ∨ orderLt b a = true.
Proof.
  rewrite !orderLt_spec. destruct a as [o k], b as [o' k']. cbn. destruct (Z.lt_trichotomy o o') as [?|[<-|?]]; [auto..|auto].
  destruct (keyLt_total k k') as [<-|[?|?]]; auto.
Qed.

(** ** Numberings without a gap *)

Record dense (ord : entryKey → option Z) (latest : Z) : Prop := {
  de_range : ∀ k o, ord k = Some o → 1 ≤ o ≤ latest;
  de_inj : ∀ k k' o, ord k = Some o → ord k' = Some o → k = k';
  de_full : ∀ o, 1 ≤ o ≤ latest → ∃ k, ord k = Some o;
}.

(** Numbering further keys after the latest number. *)
Lemma dense_grow ord ord' latest (added : list entryKey) :
  dense ord latest → 0 ≤ latest → NoDup added → (∀ k, k ∈ added → ord k = None) →
  (∀ k, ord' k = if decide (k ∈ added) then Some (latest + rowNumber keyLt added k) else ord k) →
  dense ord' (latest + Z.of_nat (length added)).
Proof.
  intros [Hr Hi Hf] H0 Hnd Hnone Hord.
  pose proof (rank_range keyLt keyLt_irrefl added) as Hrr.
  split.
  - intros k o. rewrite Hord. case_decide as Hk.
    + intros [= <-]. specialize (Hrr k Hk). lia.
    + intros Ho%Hr. lia.
  - intros k k' o. rewrite !Hord. case_decide as Hk; case_decide as Hk'; intros Ho Ho'.
    + eapply (rank_inj keyLt keyLt_irrefl keyLt_trans keyLt_total added); [done..|]. simplify_eq. lia.
    + apply Hr in Ho'. injection Ho as <-. specialize (Hrr k Hk). lia.
    + apply Hr in Ho. injection Ho' as <-. specialize (Hrr k' Hk'). lia.
    + by eapply Hi.
  - intros o Ho. destruct (decide (o ≤ latest)) as [Hle|Hgt].
    + destruct (Hf o) as [k Hk]; [lia|]. exists k. rewrite Hord. case_decide as Hin; [|done].
      rewrite (Hnone k Hin) in Hk. done.
    + destruct (rank_surj keyLt keyLt_irrefl keyLt_trans keyLt_total added (o - latest)) as (k & Hk & Hrk); [done|lia|].
      exists k. rewrite Hord, decide_True by done. f_equal. lia.
Qed.

(** Numbering the kept keys anew, in the order they had. *)
Definition keptList (ord : entryKey → option Z) (kept : list entryKey) : list (Z * entryKey) :=
  omap (λ k, (λ o, (o, k)) <$> ord k) kept.

Lemma elem_of_keptList ord kept o k : (o, k) ∈ keptList ord kept ↔ k ∈ kept ∧ ord k = Some o.
Proof.
  unfold keptList. rewrite list_elem_of_omap. split.
  - intros (k' & Hk & Ho). destruct (ord k') eqn:Hord; [|done]. cbn in Ho. by simplify_eq.
  - intros [Hk Ho]. exists k. split; [done|]. by rewrite Ho.
Qed.

Lemma keptList_NoDup ord kept : NoDup kept → NoDup (keptList ord kept).
Proof.
  unfold keptList. induction 1 as [|k kept Hk Hnd IH]; [constructor|]. cbn. destruct (ord k) as [o|] eqn:Ho; [|done]. cbn.
  constructor; [|done]. intros (k' & Hk' & Heq)%list_elem_of_omap. destruct (ord k'); [|done]. cbn in Heq. by simplify_eq.
Qed.

Lemma dense_reset ord ord' (kept : list entryKey) :
  NoDup kept →
  (∀ k, ord' k = match ord k with
                 | None => None
                 | Some o => if decide (k ∈ kept) then Some (rowNumber orderLt (keptList ord kept) (o, k)) else None
                 end) →
  dense ord' (Z.of_nat (length (keptList ord kept))).
Proof.
  intros Hnd Hord. pose proof (rank_range orderLt orderLt_irrefl (keptList ord kept)) as Hrr.
  assert (∀ k o', ord' k = Some o' → ∃ o, (o, k) ∈ keptList ord kept ∧ o' = rowNumber orderLt (keptList ord kept) (o, k)) as Hinv.
  { intros k o'. rewrite Hord. destruct (ord k) as [o|] eqn:Ho; [|done]. case_decide; [|done]. intros [= <-].
    exists o. by rewrite elem_of_keptList. }
  split.
  - intros k o' (o & Hin & ->)%Hinv. by apply Hrr.
  - intros k k' o' (o1 & Hin1 & ->)%Hinv (o2 & Hin2 & Heq)%Hinv.
    pose proof (rank_inj orderLt orderLt_irrefl orderLt_trans orderLt_total _ _ _ Hin1 Hin2 Heq). congruence.
  - intros r Hr. destruct (rank_surj orderLt orderLt_irrefl orderLt_trans orderLt_total (keptList ord kept) r) as ([o k] & Hin & <-);
      [by apply keptList_NoDup|done|].
    exists k. rewrite Hord. apply elem_of_keptList in Hin as [Hk ->]. by rewrite decide_True.
Qed.

Lemma maxOrder_le os start m : start ≤ m → (∀ o, o ∈ os → o ≤ m) → maxOrder os start ≤ m.
Proof.
  unfold maxOrder. revert start. induction os as [|o os IH]; intros start Hs Hos; cbn; [done|].
  apply IH; [pose proof (Hos o ltac:(left)); lia|]. intros. apply Hos. by right.
Qed.

Lemma maxOrder_ge os start : start ≤ maxOrder os start ∧ ∀ o, o ∈ os → o ≤ maxOrder os start.
Proof.
  unfold maxOrder. revert start. induction os as [|o os IH]; intros start; cbn; [split; [lia|by intros ? ?%elem_of_nil]|].
  destruct (IH (Z.max start o)) as [Hs Hos]. split; [lia|]. intros o' [->|Ho']%elem_of_cons; [lia|by apply Hos].
Qed.

(** The greatest number of a numbering without a gap. *)
Lemma maxOrder_is os start m : start ≤ m → (∀ o, o ∈ os → o ≤ m) → (start = m ∨ m ∈ os) → maxOrder os start = m.
Proof.
  intros Hs Hle Hm. apply Z.le_antisymm; [by apply maxOrder_le|]. destruct (maxOrder_ge os start) as [Hge Hin].
  destruct Hm as [<-|Hm]; [done|by apply Hin].
Qed.

(** ** Forks from the latest branch *)

(** Branches numbered in the order of their forks, each forked from the one before at a node that is its own. *)
Record chain (ps : list V1DurableEventLogBranchPoint) (latest : Z) : Prop := {
  ch_latest : latest = 1 + Z.of_nat (length ps);
  ch_point : ∀ i p, ps !! i = Some p →
    bp_NextBranchID p = Z.of_nat i + 2 ∧ bp_ParentBranchID p = Z.of_nat i + 1 ∧ 0 ≤ bp_FirstNodeIDInNewBranch p;
  ch_mono : ∀ i p q, ps !! i = Some p → ps !! S i = Some q → bp_FirstNodeIDInNewBranch p ≤ bp_FirstNodeIDInNewBranch q;
}.

Definition pointOf (ps : list V1DurableEventLogBranchPoint) (b : Z) : option V1DurableEventLogBranchPoint :=
  if b <? 2 then None else ps !! Z.to_nat (b - 2).
(** The first node of a branch. *)
Definition firstOf (ps : list V1DurableEventLogBranchPoint) (b : Z) : Z :=
  match pointOf ps b with Some p => bp_FirstNodeIDInNewBranch p | None => 0 end.

Lemma chain_points ps latest b : chain ps latest → branchPoints ps !! b = pointOf ps b.
Proof.
  intros [_ Hp _]. unfold branchPoints.
  assert (∀ n (m : gmap Z V1DurableEventLogBranchPoint) ps, (∀ i p, ps !! i = Some p → bp_NextBranchID p = Z.of_nat (n + i) + 2) →
    foldl (λ m p, <[bp_NextBranchID p := p]> m) m ps !! b =
      if decide (Z.of_nat n + 2 ≤ b < Z.of_nat n + 2 + Z.of_nat (length ps)) then ps !! Z.to_nat (b - 2 - Z.of_nat n) else m !! b) as Hf.
  { clear. intros n m ps. revert n m. induction ps as [|p ps IH]; intros n m Hps; cbn [foldl].
    { cbn. by rewrite decide_False by lia. }
    rewrite (IH (S n)) by (intros i q Hq; rewrite (Hps (S i) q Hq); lia). rewrite (Hps 0%nat p eq_refl). cbn [length].
    destruct (decide (b = Z.of_nat n + 2)) as [->|Hne].
    - rewrite decide_False, decide_True by lia. replace (Z.of_nat (n + 0) + 2) with (Z.of_nat n + 2) by lia.
      rewrite lookup_insert_eq. by replace (Z.to_nat (Z.of_nat n + 2 - 2 - Z.of_nat n)) with 0%nat by lia.
    - rewrite lookup_insert_ne by lia. do 2 case_decide; try lia; [|done].
      replace (Z.to_nat (b - 2 - Z.of_nat n)) with (S (Z.to_nat (b - 2 - Z.of_nat (S n)))) by lia. done. }
  rewrite (Hf 0%nat) by (intros i p Hi; by apply Hp in Hi as (-> & _)). rewrite lookup_empty. unfold pointOf.
  destruct (Z.ltb_spec b 2); [by rewrite decide_False by lia|]. case_decide.
  - f_equal. lia.
  - symmetry. apply lookup_ge_None. lia.
Qed.

Lemma pointOf_Some ps latest b p :
  chain ps latest → pointOf ps b = Some p →
  2 ≤ b ≤ latest ∧ bp_NextBranchID p = b ∧ bp_ParentBranchID p = b - 1 ∧ 0 ≤ bp_FirstNodeIDInNewBranch p.
Proof.
  intros Hc. unfold pointOf. destruct (Z.ltb_spec b 2); [done|]. intros Hp. pose proof (lookup_lt_Some _ _ _ Hp).
  destruct (ch_point _ _ Hc _ _ Hp) as (? & ? & ?). rewrite (ch_latest _ _ Hc). split_and!; lia.
Qed.

Lemma pointOf_is_Some ps latest b : chain ps latest → 2 ≤ b ≤ latest → is_Some (pointOf ps b).
Proof.
  intros Hc Hb. unfold pointOf. destruct (Z.ltb_spec b 2); [lia|]. apply lookup_lt_is_Some. rewrite (ch_latest _ _ Hc) in Hb. lia.
Qed.

Lemma firstOf_nonneg ps latest b : chain ps latest → 0 ≤ firstOf ps b.
Proof.
  intros Hc. unfold firstOf. destruct (pointOf ps b) as [p|] eqn:Hp; [|lia]. by apply (pointOf_Some _ _ _ _ Hc) in Hp as (_ & _ & _ & ?).
Qed.

Lemma firstOf_next ps latest b : chain ps latest → 1 ≤ b < latest → firstOf ps b ≤ firstOf ps (b + 1).
Proof.
  intros Hc Hb. destruct (decide (b = 1)) as [->|Hne].
  { unfold firstOf at 1, pointOf. cbn. by eapply firstOf_nonneg. }
  destruct (pointOf_is_Some _ _ b Hc) as [p Hp]; [lia|]. destruct (pointOf_is_Some _ _ (b + 1) Hc) as [q Hq]; [lia|].
  unfold firstOf. rewrite Hp, Hq. unfold pointOf in Hp, Hq.
  destruct (Z.ltb_spec b 2); [done|]. destruct (Z.ltb_spec (b + 1) 2); [done|].
  replace (Z.to_nat (b + 1 - 2)) with (S (Z.to_nat (b - 2))) in Hq by lia. by eapply ch_mono.
Qed.

Lemma chain_tree ps latest : chain ps latest → treeOk (branchPoints ps).
Proof.
  intros Hc b p. rewrite (chain_points _ _ _ Hc). intros Hp. pose proof (pointOf_Some _ _ _ _ Hc Hp) as (Hb & _ & Hpar & Hf).
  split_and!; [lia|done|]. intros q. rewrite (chain_points _ _ _ Hc), Hpar. intros Hq.
  pose proof (pointOf_Some _ _ _ _ Hc Hq) as (Hb' & _). pose proof (firstOf_next ps latest (b - 1) Hc ltac:(lia)) as Hle.
  replace (b - 1 + 1) with b in Hle by lia. unfold firstOf in Hle. by rewrite Hp, Hq in Hle.
Qed.

Lemma owns_range ps latest n c b :
  chain ps latest → 0 ≤ n → owns (branchPoints ps) n c b → 1 ≤ c ≤ latest →
  1 ≤ b ≤ c ∧ firstOf ps b ≤ n ∧ ∀ c', b < c' ≤ c → n < firstOf ps c'.
Proof.
  intros Hc Hn. induction 1 as [b Hb|c p b Hp Hlt Ho IH]; intros Hr.
  - split_and!; [lia|lia| |intros; lia]. unfold firstOf. destruct (pointOf ps b) as [p|] eqn:Hp; [|done].
    apply Hb. by rewrite (chain_points _ _ _ Hc).
  - rewrite (chain_points _ _ _ Hc) in Hp. destruct (pointOf_Some _ _ _ _ Hc Hp) as (? & _ & Hpar & _).
    destruct IH as (Hb & Hf & Hall); [lia|]. split_and!; [lia|lia|done|]. intros c' Hc'. destruct (decide (c' = c)) as [->|]; [|apply Hall; lia].
    unfold firstOf. by rewrite Hp.
Qed.

Lemma owns_intro ps latest n b d :
  chain ps latest → (∀ c, b < c ≤ b + Z.of_nat d → n < firstOf ps c) → firstOf ps b ≤ n → 1 ≤ b → b + Z.of_nat d ≤ latest →
  owns (branchPoints ps) n (b + Z.of_nat d) b.
Proof.
  intros Hc Hall Hf Hb. induction d as [|d IH]; intros Hd.
  - replace (b + Z.of_nat 0) with b by lia. constructor. intros p. rewrite (chain_points _ _ _ Hc). intros Hp.
    unfold firstOf in Hf. by rewrite Hp in Hf.
  - destruct (pointOf_is_Some ps latest (b + Z.of_nat (S d)) Hc) as [p Hp]; [lia|].
    pose proof (pointOf_Some _ _ _ _ Hc Hp) as (_ & _ & Hpar & _).
    apply (owns_above _ _ _ p); [by rewrite (chain_points _ _ _ Hc)| |].
    + specialize (Hall (b + Z.of_nat (S d)) ltac:(lia)). unfold firstOf in Hall. by rewrite Hp in Hall.
    + rewrite Hpar. replace (b + Z.of_nat (S d) - 1) with (b + Z.of_nat d) by lia. apply IH; [|lia]. intros c ?. apply Hall. lia.
Qed.

Lemma pastFork_spec t latest k :
  chain (t_points t) latest → pastFork t k = true ↔ 1 ≤ k.1 < latest ∧ firstOf (t_points t) (k.1 + 1) ≤ k.2.
Proof.
  intros Hc. unfold pastFork. rewrite existsb_exists. split.
  - intros (p & Hin%list_elem_of_In & Hp). apply andb_true_iff in Hp as [Hpar%Z.eqb_eq Hf%Z.leb_le].
    apply list_elem_of_lookup in Hin as [i Hi]. pose proof (lookup_lt_Some _ _ _ Hi). destruct (ch_point _ _ Hc _ _ Hi) as (_ & Hpar' & _).
    pose proof (ch_latest _ _ Hc). split; [lia|]. unfold firstOf, pointOf. destruct (Z.ltb_spec (k.1 + 1) 2); [lia|].
    replace (Z.to_nat (k.1 + 1 - 2)) with i by lia. by rewrite Hi.
  - intros [Hk Hf]. destruct (pointOf_is_Some _ _ (k.1 + 1) Hc) as [p Hp]; [lia|]. unfold firstOf in Hf. rewrite Hp in Hf.
    pose proof (pointOf_Some _ _ _ _ Hc Hp) as (_ & _ & Hpar & _). exists p. split.
    + unfold pointOf in Hp. destruct (_ <? _); [done|]. apply list_elem_of_In. by eapply list_elem_of_lookup_2.
    + apply andb_true_iff. rewrite Z.eqb_eq, Z.leb_le. split; [lia|done].
Qed.

Lemma firstOf_mono ps latest b c : chain ps latest → 1 ≤ b → b ≤ c → c ≤ latest → firstOf ps b ≤ firstOf ps c.
Proof.
  intros Hc Hb Hbc. replace c with (b + Z.of_nat (Z.to_nat (c - b))) by lia. generalize (Z.to_nat (c - b)). intros d.
  induction d as [|d IH]; intros Hl; [by replace (b + Z.of_nat 0) with b by lia|].
  etrans; [apply IH; lia|]. replace (b + Z.of_nat (S d)) with (b + Z.of_nat d + 1) by lia. eapply firstOf_next; [done|lia].
Qed.

(** An entry of a branch is on the active branch exactly when it is not past a fork. *)
Lemma live_iff t f k :
  chain (t_points t) (f_LatestBranchID f) → 1 ≤ k.1 ≤ f_LatestBranchID f → firstOf (t_points t) k.1 ≤ k.2 →
  pastFork t k = false ↔ branchOf t f k.2 = k.1.
Proof.
  intros Hc Hb Hf. assert (0 ≤ k.2) as Hn by (pose proof (firstOf_nonneg _ _ k.1 Hc); lia).
  destruct (branch_resolves _ k.2 (f_LatestBranchID f) (chain_tree _ _ Hc) Hn) as (c & Hr & Ho).
  unfold branchOf. rewrite Hr. cbn. rewrite <- not_true_iff_false, (pastFork_spec _ _ _ Hc). split.
  - intros Hp. eapply owns_unique; [exact Ho|].
    replace (f_LatestBranchID f) with (k.1 + Z.of_nat (Z.to_nat (f_LatestBranchID f - k.1))) by lia.
    eapply owns_intro; [done| |done|lia|lia]. intros c' Hc'.
    assert (k.2 < firstOf (t_points t) (k.1 + 1)) by lia.
    pose proof (firstOf_mono _ _ (k.1 + 1) c' Hc ltac:(lia) ltac:(lia) ltac:(lia)). lia.
  - intros -> [Hlt Hle]. destruct (owns_range _ _ _ _ _ Hc Hn Ho) as (_ & _ & Hall); [lia|]. specialize (Hall (k.1 + 1)). lia.
Qed.

Lemma branchOf_range t f n :
  chain (t_points t) (f_LatestBranchID f) → 0 ≤ n →
  1 ≤ branchOf t f n ≤ f_LatestBranchID f ∧ firstOf (t_points t) (branchOf t f n) ≤ n ∧
  ∀ c, branchOf t f n < c ≤ f_LatestBranchID f → n < firstOf (t_points t) c.
Proof.
  intros Hc Hn. destruct (branch_resolves _ n (f_LatestBranchID f) (chain_tree _ _ Hc) Hn) as (c & Hr & Ho).
  unfold branchOf. rewrite Hr. cbn. eapply owns_range; [done..|]. pose proof (ch_latest _ _ Hc). lia.
Qed.

End SatisfiedOrder.
