(* ===== verification/OrderInvariant.v ===== *)
(** The invariant of the order numbers: every operation of the durable event log keeps them without a gap and on the
    active branch, as long as forks start from the latest branch. *)

From S2P Require Import Prelude Workers LogTables EventLog EventLogOps EventLogTheorems ReplayPlan ReplayAnswer SatisfiedOrder.
From stdpp Require Import pretty.
Import Workers LogTables EventLog EventLogOps EventLogTheorems ReplayPlan ReplayAnswer SatisfiedOrder.

Module OrderInvariant.

Open Scope Z_scope.

Definition orderOf (t : taskLog) (k : entryKey) : option Z := t_entries t !! k ≫= e_SatisfiedOrder.

(** A log whose forks are a chain, whose entries were made on the branch that owned their node, and whose satisfied
    entries on the active branch are numbered without a gap; memos are not numbered. *)
Record orderOk (t : taskLog) (f : V1DurableEventLogFile) : Prop := {
  oo_file : t_file t = Some f;
  oo_node : 0 ≤ f_LatestNodeID f;
  oo_chain : chain (t_points t) (f_LatestBranchID f);
  oo_key : ∀ k e, t_entries t !! k = Some e → keyOf e = k;
  oo_branch : ∀ k, is_Some (t_entries t !! k) → 1 ≤ k.1 ≤ f_LatestBranchID f ∧ firstOf (t_points t) k.1 ≤ k.2;
  oo_latest : 0 ≤ f_LatestSatisfiedOrder f;
  oo_dense : dense (orderOf t) (f_LatestSatisfiedOrder f);
  oo_live : ∀ k, is_Some (orderOf t k) → pastFork t k = false;
  oo_satisfied : ∀ k e, t_entries t !! k = Some e → is_Some (e_SatisfiedOrder e) → e_IsSatisfied e = true;
  oo_numbered : ∀ k e, t_entries t !! k = Some e → e_IsSatisfied e = true → e_Kind e ≠ MEMO → pastFork t k = false →
    is_Some (e_SatisfiedOrder e);
}.

(** ** Steps that keep the order numbers *)

Definition sameOrder (e e' : V1DurableEventLogEntry) : Prop :=
  keyOf e' = keyOf e ∧ e_Kind e' = e_Kind e ∧ e_IsSatisfied e' = e_IsSatisfied e ∧ e_SatisfiedOrder e' = e_SatisfiedOrder e.

#[export] Instance sameOrder_preorder : PreOrder sameOrder.
Proof. split; [done|]. intros e1 e2 e3 (? & ? & ? & ?) (? & ? & ? & ?). unfold sameOrder. split_and!; congruence. Qed.

Lemma orderOk_same t f t' f' :
  orderOk t f → t_file t' = Some f' → t_points t' = t_points t → 0 ≤ f_LatestNodeID f' →
  f_LatestBranchID f' = f_LatestBranchID f → f_LatestSatisfiedOrder f' = f_LatestSatisfiedOrder f →
  (∀ k, option_Forall2 sameOrder (t_entries t !! k) (t_entries t' !! k)) → orderOk t' f'.
Proof.
  intros Ho Hf Hp Hn Hb Hl He.
  assert (∀ k e', t_entries t' !! k = Some e' → ∃ e, t_entries t !! k = Some e ∧ sameOrder e e') as Hback.
  { intros k e' He'. specialize (He k). rewrite He' in He. inversion He; subst. eauto. }
  assert (∀ k, orderOf t' k = orderOf t k) as Hord.
  { intros k. unfold orderOf. specialize (He k).
    destruct (t_entries t !! k), (t_entries t' !! k); inversion He as [? ? (_ & _ & _ & Heq)|]; subst; [exact Heq|done]. }
  assert (∀ k, pastFork t' k = pastFork t k) as Hpast by (intros k; unfold pastFork; by rewrite Hp).
  split.
  - done.
  - done.
  - rewrite Hp, Hb. apply Ho.
  - intros k e' (e & He0 & Hk & _)%Hback. rewrite Hk. by apply (oo_key _ _ Ho).
  - intros k [e' (e & He0 & _)%Hback]. rewrite Hp, Hb. apply (oo_branch _ _ Ho). eauto.
  - rewrite Hl. apply Ho.
  - rewrite Hl. destruct (oo_dense _ _ Ho) as [Hr Hi Hfull]. split; setoid_rewrite Hord; done.
  - intros k. rewrite Hord, Hpast. apply Ho.
  - intros k e' (e & He0 & _ & _ & Hs & Hor)%Hback. rewrite Hs, Hor. by apply (oo_satisfied _ _ Ho k).
  - intros k e' (e & He0 & _ & Hk & Hs & Hor)%Hback. rewrite Hs, Hor, Hk, Hpast. by apply (oo_numbered _ _ Ho k).
Qed.

Lemma increment_order t f : orderOk t f → ∃ f', orderOk (incrementInvocationCount t) f'.
Proof.
  intros Ho. unfold incrementInvocationCount. rewrite (oo_file _ _ Ho). eexists (LogFile _ 0 _ _).
  eapply orderOk_same; try done.
Qed.

Lemma claim_order keys t f : orderOk t f → orderOk (claimEntries keys t).2 f.
Proof.
  intros Ho. eapply orderOk_same; [done|apply Ho|done|apply Ho|done..|]. intros k. cbn.
  apply (related_foldl _ (λ k es, alter set_triggered k es)). intros a es. by apply related_alter; [apply _|].
Qed.

Lemma trigger_order t f triggers registers commits pending out t' :
  orderOk t f → triggerPendingRunEntries triggers registers commits pending t = Some (out, t') → orderOk t' f.
Proof.
  intros Ho. unfold triggerPendingRunEntries.
  pose proof (claim_order ((λ p, (pt_BranchId p, pt_NodeId p)) <$> pending) t f Ho) as Hc.
  destruct (claimEntries _ t) as [claimed t1]. destruct claimed; [by intros [= <- <-]|]. destruct triggers; [|done].
  destruct (negb _); [done|]. by intros [= <- <-].
Qed.

Lemma wait_order t f registers commits k conditions out t' :
  orderOk t f → triggerPendingWaitFor registers commits k conditions t = Some (out, t') → orderOk t' f.
Proof.
  intros Ho. unfold triggerPendingWaitFor. pose proof (claim_order [k] t f Ho) as Hc.
  destruct (claimEntries _ t) as [claimed t1]. destruct claimed; [by intros [= <- <-]|]. destruct (_ || _); [done|]. by intros [= <- <-].
Qed.

(** ** Satisfying entries *)

Lemma elem_of_applied ms t f k :
  t_file t = Some f →
  k ∈ ordersToApply ms t ↔ k ∈ si_key <$> ms ∧ pastFork t k = false ∧ ∃ e, t_entries t !! k = Some e ∧ e_SatisfiedOrder e = None.
Proof.
  intros Hf. unfold ordersToApply. rewrite list_elem_of_In, filter_In, <- list_elem_of_In, elem_of_remove_dups, Hf.
  destruct (t_entries t !! k) as [e|]; [|naive_solver]. destruct (e_SatisfiedOrder e) eqn:Ho; [naive_solver|].
  rewrite negb_true_iff. naive_solver.
Qed.

Lemma applied_NoDup ms t : NoDup (ordersToApply ms t).
Proof. unfold ordersToApply. apply NoDup_ListNoDup, List.NoDup_filter, NoDup_ListNoDup, NoDup_remove_dups. Qed.

Lemma find_input ms k : k ∈ si_key <$> ms ↔ is_Some (List.find (λ i, bool_decide (si_key i = k)) ms).
Proof.
  induction ms as [|i ms IH]; cbn; [split; [by intros ?%elem_of_nil|by intros [? ?]]|]. rewrite elem_of_cons, IH.
  case_bool_decide as Hk; [split; eauto|]. split; [intros [->|?]; done|auto].
Qed.

Lemma raised_latest latest (added : list entryKey) os :
  0 ≤ latest → NoDup added → os ≡ₚ (λ k, latest + rowNumber keyLt added k) <$> added →
  maxOrder os latest = latest + Z.of_nat (length added).
Proof.
  intros Hl Hnd Hos. apply maxOrder_is; [lia|..].
  - intros o Ho. rewrite Hos in Ho. apply list_elem_of_fmap in Ho as (k & -> & Hk).
    pose proof (rank_range keyLt keyLt_irrefl added k Hk). lia.
  - destruct added as [|k0 added]; [left; cbn; lia|right]. rewrite Hos.
    destruct (rank_surj keyLt keyLt_irrefl keyLt_trans keyLt_total (k0 :: added) (Z.of_nat (length (k0 :: added)))) as (k & Hk & Hr);
      [done|cbn; lia|]. apply list_elem_of_fmap. exists k. split; [lia|done].
Qed.

Lemma satisfy_order t f ms k :
  orderOk t f →
  orderOf (updateEntriesSatisfied ms t).2 k =
    if decide (k ∈ ordersToApply ms t) then Some (f_LatestSatisfiedOrder f + rowNumber keyLt (ordersToApply ms t) k) else orderOf t k.
Proof.
  intros Ho. unfold updateEntriesSatisfied, raiseOrder. cbn [t_file set_entries]. rewrite (oo_file _ _ Ho). cbn [snd].
  unfold orderOf. cbn [t_entries set_file set_entries]. rewrite map_lookup_imap.
  pose proof (elem_of_applied ms t f k (oo_file _ _ Ho)) as Happ.
  assert (latestOrder t = f_LatestSatisfiedOrder f) as Hl by (unfold latestOrder; by rewrite (oo_file _ _ Ho)).
  destruct (t_entries t !! k) as [e|] eqn:He; cbn; [|by rewrite decide_False by (rewrite Happ; naive_solver)].
  unfold satisfy. destruct (List.find _ ms) as [i|] eqn:Hfi.
  - cbn. rewrite Hl. destruct (e_SatisfiedOrder e) as [o|] eqn:Hor; [by rewrite decide_False by (rewrite Happ; naive_solver)|].
    case_bool_decide; [by rewrite decide_True|by rewrite decide_False].
  - rewrite decide_False; [done|]. rewrite Happ, find_input. intros [[? ?] _]. congruence.
Qed.

Lemma updated_order t f ms : orderOk t f → ∃ f', orderOk (updateEntriesSatisfied ms t).2 f'.
Proof.
  intros Ho. pose proof (satisfy_order t f ms) as Hord. set (t' := (updateEntriesSatisfied ms t).2) in *.
  assert (Hl : latestOrder t = f_LatestSatisfiedOrder f) by (unfold latestOrder; by rewrite (oo_file _ _ Ho)).
  assert (t_file t' = Some (set_latestOrder (f_LatestSatisfiedOrder f + Z.of_nat (length (ordersToApply ms t))) f)) as Hf.
  { unfold t', updateEntriesSatisfied, raiseOrder. cbn [t_file set_entries]. rewrite (oo_file _ _ Ho). cbn. do 2 f_equal.
    rewrite Hl. apply raised_latest; [apply Ho|apply applied_NoDup|done]. }
  assert (t_points t' = t_points t) as Hp by (unfold t', updateEntriesSatisfied, raiseOrder; cbn; by destruct (t_file t)).
  assert (t_entries t' = map_imap (λ k e, Some (satisfy ms t k e)) (t_entries t)) as Hes
    by (unfold t', updateEntriesSatisfied, raiseOrder; cbn; by destruct (t_file t)).
  assert (∀ k, pastFork t' k = pastFork t k) as Hpast by (intros k; unfold pastFork; by rewrite Hp).
  assert (∀ k e', t_entries t' !! k = Some e' → ∃ e, t_entries t !! k = Some e ∧ e' = satisfy ms t k e) as Hback.
  { intros k e'. rewrite Hes, map_lookup_imap. destruct (t_entries t !! k) as [e|]; [|done]. intros [= <-]. eauto. }
  assert (∀ k e, t_entries t !! k = Some e → e_SatisfiedOrder (satisfy ms t k e) = orderOf t' k) as Hsat.
  { intros k e He. unfold orderOf. by rewrite Hes, map_lookup_imap, He. }
  eexists. split.
  - exact Hf.
  - apply Ho.
  - rewrite Hp. apply Ho.
  - intros k e' (e & He & ->)%Hback. rewrite <- (oo_key _ _ Ho _ _ He). unfold satisfy. by destruct (List.find _ _).
  - intros k [e' (e & He & _)%Hback]. rewrite Hp. apply (oo_branch _ _ Ho). eauto.
  - cbn. pose proof (oo_latest _ _ Ho). lia.
  - cbn. eapply dense_grow; [apply Ho|apply Ho|apply applied_NoDup| |by intros k; apply Hord].
    intros k (_ & _ & e & He & Hnone)%(elem_of_applied _ _ _ _ (oo_file _ _ Ho)). unfold orderOf. by rewrite He.
  - intros k. rewrite Hord, Hpast by done. case_decide as Hk; [intros _|apply Ho].
    by apply (elem_of_applied _ _ _ _ (oo_file _ _ Ho)) in Hk as (_ & ? & _).
  - intros k e' (e & He & ->)%Hback. pose proof (oo_satisfied _ _ Ho _ _ He) as Hs. revert Hs. unfold satisfy.
    by destruct (List.find _ _).
  - intros k e' (e & He & ->)%Hback Hs Hkind. rewrite Hpast. intros Hnp. rewrite (Hsat k e He), Hord by done.
    case_decide as Hk; [by eauto|]. rewrite (elem_of_applied _ _ _ _ (oo_file _ _ Ho)), find_input in Hk.
    unfold orderOf. rewrite He. cbn. unfold satisfy in Hs, Hkind.
    destruct (List.find _ _) as [i|] eqn:Hi; [|by apply (oo_numbered _ _ Ho k e)].
    destruct (e_SatisfiedOrder e) eqn:Hor; [by eauto|]. exfalso. apply Hk. split_and!; [by eauto|done|by eauto].
Qed.

Lemma satisfyEntries_order t f ms : orderOk t f → ∃ f', orderOk (satisfyEntries ms t).2 f'.
Proof.
  intros Ho. destruct (updated_order t f (sm_input <$> ms) Ho) as [f' Ho']. exists f'. unfold satisfyEntries.
  destruct (updateEntriesSatisfied (sm_input <$> ms) t) as [updated t1]. cbn [snd] in *.
  eapply orderOk_same; [exact Ho'|apply Ho'|done|apply Ho'|done..|]. intros k. cbn.
  apply (related_foldl _ (λ e es, match List.find (λ m, bool_decide (si_key (sm_input m) = keyOf e)) (reverse ms) with
    | Some m => if bool_decide (sm_data m = ""%string) then es else alter (set_result (sm_data m)) (keyOf e) es
    | None => es end)).
  intros e es. pose proof (related_refl sameOrder es k) as Hrefl. destruct (List.find _ _); [|done].
  case_bool_decide; [done|]. by apply related_alter; [apply _|].
Qed.

(** A memo is completed without a number. *)
Lemma memo_order t f k payload t' :
  orderOk t f → (∀ e, t_entries t !! k = Some e → e_Kind e = MEMO) → completeMemoEntry k payload t = Some t' → orderOk t' f.
Proof.
  intros Ho Hk. unfold completeMemoEntry. destruct (t_entries t !! k) as [e|] eqn:He; [|done]. specialize (Hk _ eq_refl).
  destruct (e_IsSatisfied e) eqn:Hs; [by intros [= <-]|].
  assert (orderOk (markSatisfied k t) f) as Hm.
  { assert (∀ k' e', t_entries (markSatisfied k t) !! k' = Some e' →
      ∃ e0, t_entries t !! k' = Some e0 ∧ keyOf e' = keyOf e0 ∧ e_Kind e' = e_Kind e0 ∧ e_SatisfiedOrder e' = e_SatisfiedOrder e0 ∧
        (e_IsSatisfied e' = true → e_IsSatisfied e0 = true ∨ e_Kind e0 = MEMO) ∧ (e_IsSatisfied e0 = true → e_IsSatisfied e' = true)) as Hback.
    { intros k' e'. cbn. rewrite lookup_alter. case_decide as Heq; [subst k'; rewrite He; intros [= <-]; exists e; split_and!; auto|].
      intros He'. exists e'. split_and!; auto. }
    assert (∀ k', orderOf (markSatisfied k t) k' = orderOf t k') as Hord.
    { intros k'. unfold orderOf. cbn. rewrite lookup_alter. case_decide as Heq; [|done]. subst k'. by rewrite He. }
    split; try apply Ho.
    - intros k' e' (e0 & He0 & Hkey & _)%Hback. rewrite Hkey. by apply (oo_key _ _ Ho).
    - intros k' [e' (e0 & He0 & _)%Hback]. apply (oo_branch _ _ Ho). eauto.
    - destruct (oo_dense _ _ Ho) as [Hr Hi Hfull]. split; setoid_rewrite Hord; done.
    - intros k'. rewrite Hord. apply Ho.
    - intros k' e' (e0 & He0 & _ & _ & -> & _ & Hs')%Hback Hor. by apply Hs', (oo_satisfied _ _ Ho k').
    - intros k' e' (e0 & He0 & _ & -> & -> & Hs' & _)%Hback Hsat Hkind Hnp. destruct (Hs' Hsat) as [?|?]; [|done].
      by apply (oo_numbered _ _ Ho k'). }
  intros [= <-]. case_bool_decide; [done|]. eapply orderOk_same; [exact Hm|apply Hm|done|apply Hm|done..|].
  intros k'. cbn [t_entries set_entries]. by apply related_alter; [apply _|].
Qed.

(** ** Creating entries *)

(** Rows for nodes that have no entry, on the branch that owns the node; a wait is not created satisfied. *)
Record rowsOk (t : taskLog) (f : V1DurableEventLogFile) (inputs : list createRow) : Prop := {
  ro_distinct : NoDup (rowKey <$> inputs);
  ro_absent : ∀ r, r ∈ inputs → t_entries t !! rowKey r = None;
  ro_branch : ∀ r, r ∈ inputs → 0 ≤ c_NodeID r ∧ c_BranchID r = branchOf t f (c_NodeID r);
  ro_kind : ∀ r, r ∈ inputs → c_IsSatisfied r = true → c_Kind r ≠ WAITFOR;
}.

Definition bornKeys (inputs : list createRow) : list entryKey := rowKey <$> List.filter bornSatisfied inputs.

Lemma bornKeys_NoDup inputs : NoDup (rowKey <$> inputs) → NoDup (bornKeys inputs).
Proof.
  intros Hnd. eapply sublist_NoDup; [exact Hnd|]. apply fmap_sublist, bfilter_sublist.
Qed.

Lemma elem_of_bornKeys inputs k : k ∈ bornKeys inputs ↔ ∃ r, r ∈ inputs ∧ bornSatisfied r = true ∧ k = rowKey r.
Proof.
  unfold bornKeys. rewrite list_elem_of_fmap. setoid_rewrite list_elem_of_In. setoid_rewrite filter_In. naive_solver.
Qed.

Lemma born_orders all t l :
  omap e_SatisfiedOrder (newEntry all t <$> l) = (λ k, latestOrder t + rowNumber keyLt (bornKeys all) k) <$> bornKeys l.
Proof.
  unfold bornKeys. induction l as [|r l IH]; [done|]. rewrite fmap_cons. cbn [omap list_omap e_SatisfiedOrder newEntry List.filter].
  destruct (bornSatisfied r); [|exact IH]. rewrite !fmap_cons, <- IH. done.
Qed.

Lemma create_order t f inputs :
  orderOk t f → rowsOk t f inputs → ∃ f', orderOk (createEntries inputs t).2 f' ∧ f_LatestNodeID f' = f_LatestNodeID f.
Proof.
  intros Ho [Hnd Habs Hbr Hkind]. rewrite (createEntries_new _ _ _ (oo_file _ _ Ho) Hnd Habs). cbn [snd].
  set (added := list_to_map _ : gmap entryKey V1DurableEventLogEntry).
  assert (∀ k e, added !! k = Some e ↔ ∃ r, r ∈ inputs ∧ k = rowKey r ∧ e = newEntry inputs t r) as Hadded.
  { intros k e. unfold added. rewrite <- elem_of_list_to_map by (by rewrite <- list_fmap_compose). rewrite list_elem_of_fmap. naive_solver. }
  assert (∀ r, r ∈ inputs → added !! rowKey r = Some (newEntry inputs t r)) as Hin by (intros; apply Hadded; eauto).
  assert (Hl : latestOrder t = f_LatestSatisfiedOrder f) by (unfold latestOrder; by rewrite (oo_file _ _ Ho)).
  set (orders := omap e_SatisfiedOrder (newEntry inputs t <$> inputs)).
  assert (orders = (λ k, f_LatestSatisfiedOrder f + rowNumber keyLt (bornKeys inputs) k) <$> bornKeys inputs) as Horders.
  { unfold orders. by rewrite born_orders, Hl. }
  unfold raiseOrder. cbn [t_file set_entries]. rewrite (oo_file _ _ Ho), Horders.
  rewrite (raised_latest _ (bornKeys inputs)) by (apply Ho || by apply bornKeys_NoDup || done).
  set (f' := set_latestOrder _ f). set (t' := set_file f' _).
  assert (∀ k, orderOf t' k =
    if decide (k ∈ bornKeys inputs) then Some (f_LatestSatisfiedOrder f + rowNumber keyLt (bornKeys inputs) k) else orderOf t k) as Hord.
  { intros k. unfold orderOf. cbn [t_entries t' set_file set_entries]. rewrite lookup_union.
    destruct (added !! k) as [e|] eqn:Ha.
    - pose proof Ha as (r & Hr & -> & ->)%Hadded. rewrite (Habs r Hr). cbn. rewrite Hl. fold (bornKeys inputs).
      destruct (bornSatisfied r) eqn:Hb; cbn; [rewrite decide_True; [done|apply elem_of_bornKeys; eauto]|].
      rewrite decide_False; [done|]. intros (r' & Hr' & Hb' & Heq)%elem_of_bornKeys.
      assert (r = r') as ->; [|congruence]. apply list_elem_of_lookup in Hr as [i Hi], Hr' as [j Hj].
      assert (i = j) as ->; [|congruence]. eapply (NoDup_lookup _ i j (rowKey r)); [exact Hnd|..]; rewrite list_lookup_fmap;
        [by rewrite Hi|by rewrite Hj; cbn; rewrite Heq].
    - rewrite (left_id None _), decide_False; [done|]. intros (r & Hr & _ & ->)%elem_of_bornKeys. by rewrite (Hin r Hr) in Ha. }
  assert (∀ k e, t_entries t' !! k = Some e → (t_entries t !! k = Some e) ∨ ∃ r, r ∈ inputs ∧ k = rowKey r ∧ e = newEntry inputs t r) as Hback.
  { intros k e. cbn [t_entries t' set_file set_entries]. intros [Ha|[_ Ha]]%lookup_union_Some_raw; [right; by apply Hadded|by left]. }
  assert (∀ r, r ∈ inputs → 1 ≤ (rowKey r).1 ≤ f_LatestBranchID f ∧ firstOf (t_points t) (rowKey r).1 ≤ (rowKey r).2 ∧ pastFork t (rowKey r) = false)
    as Hlive.
  { intros r Hr. destruct (Hbr r Hr) as [Hn Hb]. destruct (branchOf_range t f _ (oo_chain _ _ Ho) Hn) as (Hrange & Hfirst & _).
    rewrite <- Hb in Hrange, Hfirst. split_and!; [apply Hrange..|done|]. by apply (live_iff t f (rowKey r) (oo_chain _ _ Ho)). }
  exists f'. split; [|done]. split.
  - done.
  - apply Ho.
  - apply Ho.
  - intros k e [He|(r & Hr & -> & ->)]%Hback; [by apply (oo_key _ _ Ho)|done].
  - intros k [e [He|(r & Hr & -> & ->)]%Hback]; [apply (oo_branch _ _ Ho); eauto|]. destruct (Hlive r Hr) as (? & ? & _). done.
  - cbn. pose proof (oo_latest _ _ Ho). lia.
  - cbn. eapply dense_grow; [apply Ho|apply Ho|by apply bornKeys_NoDup| |done].
    intros k (r & Hr & _ & ->)%elem_of_bornKeys. unfold orderOf. by rewrite (Habs r Hr).
  - intros k. rewrite Hord. case_decide as Hk; [intros _|apply Ho]. apply elem_of_bornKeys in Hk as (r & Hr & _ & ->). by apply Hlive.
  - intros k e [He|(r & Hr & -> & ->)]%Hback; [by apply (oo_satisfied _ _ Ho k)|]. cbn. destruct (bornSatisfied r) eqn:Hb; [|by intros [? ?]].
    unfold bornSatisfied in Hb. by apply andb_true_iff in Hb as [? _].
  - intros k e [He|(r & Hr & -> & ->)]%Hback; [by apply (oo_numbered _ _ Ho k)|]. cbn. intros Hs Hk _.
    assert (bornSatisfied r = true) as ->; [|by eauto]. unfold bornSatisfied. rewrite Hs. apply bool_decide_eq_true.
    specialize (Hkind r Hr Hs). by destruct (c_Kind r).
Qed.

(** ** Forks *)

Lemma entry_node t f k e : orderOk t f → t_entries t !! k = Some e → 0 ≤ e_NodeID e ∧ k = (e_BranchID e, e_NodeID e).
Proof.
  intros Ho He. pose proof (oo_key _ _ Ho _ _ He) as Hk. destruct (oo_branch _ _ Ho k) as [_ Hf]; [by eauto|].
  pose proof (firstOf_nonneg _ _ k.1 (oo_chain _ _ Ho)). rewrite <- Hk in *. cbn in *. split; [lia|done].
Qed.

Lemma rows_keys t f : orderOk t f → keyOf <$> rows t = (map_to_list (t_entries t)).*1.
Proof.
  intros Ho. unfold rows. rewrite <- list_fmap_compose. apply list_fmap_ext. intros i [k e] Hi. cbn.
  apply (oo_key _ _ Ho). apply elem_of_map_to_list. by eapply list_elem_of_lookup_2.
Qed.

Lemma keptKeys_spec t f nodeId :
  orderOk t f → ∃ kept, keptKeys nodeId (f_LatestBranchID f) t = Some kept ∧ NoDup kept ∧
    ∀ k, k ∈ kept ↔ is_Some (t_entries t !! k) ∧ k.2 < nodeId ∧ branchOf t f k.2 = k.1.
Proof.
  intros Ho. set (here := λ e, e_BranchID e =? branchOf t f (e_NodeID e)).
  exists (keyOf <$> List.filter here (listBeforeNode nodeId t)).
  assert (∀ e, e ∈ rows t → 0 ≤ e_NodeID e) as Hn by (intros e [k Hk]%elem_of_rows; by eapply entry_node).
  split_and!.
  - unfold keptKeys.
    assert (∀ e, e ∈ listBeforeNode nodeId t → 0 ≤ e_NodeID e) as Hn'.
    { intros e He. apply Hn. unfold listBeforeNode in He. by apply list_elem_of_In, filter_In in He as [?%list_elem_of_In _]. }
    revert Hn'. generalize (listBeforeNode nodeId t). intros l. induction l as [|e l IH]; intros Hl; [done|]. cbn [foldr].
    rewrite IH by (intros; apply Hl; by right). cbn [mbind option_bind].
    destruct (branch_resolves _ (e_NodeID e) (f_LatestBranchID f) (chain_tree _ _ (oo_chain _ _ Ho)) (Hl e ltac:(left))) as (c & Hc & _).
    assert (here e = (e_BranchID e =? c)) as Hh by (unfold here, branchOf; by rewrite Hc).
    rewrite Hc. cbn [mbind option_bind List.filter]. rewrite Hh. by destruct (e_BranchID e =? c).
  - apply (sublist_NoDup _ (keyOf <$> rows t)); [rewrite (rows_keys _ _ Ho); apply NoDup_fst_map_to_list|].
    apply fmap_sublist. etrans; apply bfilter_sublist.
  - intros k. rewrite list_elem_of_fmap. setoid_rewrite list_elem_of_In. unfold listBeforeNode. setoid_rewrite filter_In. setoid_rewrite filter_In.
    setoid_rewrite <- list_elem_of_In. setoid_rewrite elem_of_rows. split.
    + intros (e & -> & ([k' He] & Hlt%Z.ltb_lt) & Hb%Z.eqb_eq). destruct (entry_node _ _ _ _ Ho He) as [_ ->]. cbn. eauto.
    + intros ([e He] & Hlt & Hb). exists e. destruct (entry_node _ _ _ _ Ho He) as [_ ->]. cbn in Hlt, Hb. unfold here.
      rewrite Z.ltb_lt, Z.eqb_eq. split_and!; [done|by eauto|done|done].
Qed.

Lemma reset_order t kept k :
  orderOf (resetSatisfiedOrders kept t).2 k =
    match orderOf t k with
    | None => None
    | Some o => if decide (k ∈ kept) then Some (rowNumber orderLt (keptList (orderOf t) kept) (o, k)) else None
    end.
Proof.
  unfold orderOf at 1. cbn. rewrite map_lookup_imap.
  assert (keptOrders kept t = keptList (orderOf t) kept) as Hk.
  { unfold keptOrders, keptList, orderOf. induction kept as [|k' kept IH]; [done|]. cbn. by destruct (t_entries t !! k') as [[]|]; cbn; rewrite IH. }
  unfold orderOf at 1. destruct (t_entries t !! k) as [e|]; [|done]. cbn. unfold renumber. rewrite Hk.
  destruct (e_SatisfiedOrder e) as [o|] eqn:Ho; [|exact Ho]. cbn. case_bool_decide; [by rewrite decide_True|by rewrite decide_False].
Qed.

Lemma chain_snoc ps latest p :
  chain ps latest → bp_NextBranchID p = latest + 1 → bp_ParentBranchID p = latest →
  firstOf ps latest ≤ bp_FirstNodeIDInNewBranch p → chain (ps ++ [p]) (latest + 1).
Proof.
  intros Hc Hn Hpar Hf. pose proof (firstOf_nonneg _ _ latest Hc) as H0. destruct Hc as [Hl Hp Hm]. split.
  - rewrite length_app. cbn. lia.
  - intros i q [Hq|[Hge Hq]]%lookup_app_Some; [by apply Hp|]. apply list_lookup_singleton_Some in Hq as [Hi <-]. split_and!; lia.
  - intros i q q' Hq [Hq'|[Hge Hq']]%lookup_app_Some.
    + rewrite lookup_app_l in Hq by (apply lookup_lt_Some in Hq'; lia). by eapply Hm.
    + apply list_lookup_singleton_Some in Hq' as [Hi <-]. rewrite lookup_app_l in Hq by lia.
      unfold firstOf, pointOf in Hf. destruct (Z.ltb_spec latest 2); [lia|].
      replace (Z.to_nat (latest - 2)) with i in Hf by lia. by rewrite Hq in Hf.
Qed.

Lemma firstOf_snoc ps latest p b : chain ps latest → b ≤ latest → firstOf (ps ++ [p]) b = firstOf ps b.
Proof.
  intros Hc Hb. unfold firstOf, pointOf. destruct (Z.ltb_spec b 2); [done|]. rewrite lookup_app_l; [done|].
  pose proof (ch_latest _ _ Hc). lia.
Qed.

Lemma reset_latest t kept :
  NoDup kept → (resetSatisfiedOrders kept t).1 = Z.of_nat (length (keptList (orderOf t) kept)).
Proof.
  intros Hnd. pose proof (dense_reset _ _ kept Hnd (reset_order t kept)) as [Hr _ Hf].
  set (n := Z.of_nat (length (keptList (orderOf t) kept))) in *. set (t' := (resetSatisfiedOrders kept t).2) in *.
  change (resetSatisfiedOrders kept t).1 with (maxOrder (omap e_SatisfiedOrder (rows t')) 0).
  assert (∀ o, o ∈ omap e_SatisfiedOrder (rows t') ↔ ∃ k, orderOf t' k = Some o) as Hos.
  { intros o. rewrite list_elem_of_omap. setoid_rewrite elem_of_rows. unfold orderOf. split.
    - intros (e & [k He] & Ho). exists k. by rewrite He.
    - intros [k Ho]. destruct (t_entries t' !! k) as [e|] eqn:He; [|done]. eauto. }
  apply maxOrder_is; [lia|..].
  - intros o [k Ho]%Hos. apply Hr in Ho. lia.
  - destruct (decide (n = 0)) as [->|Hne]; [by left|right]. apply Hos, Hf. lia.
Qed.

Lemma fork_order t f nodeId replay :
  orderOk t f → firstOf (t_points t) (f_LatestBranchID f) ≤ nodeId →
  ∃ t' f', handleBranch nodeId (f_LatestBranchID f) replay t = Some (f_LatestBranchID f + 1, t') ∧ orderOk t' f'.
Proof.
  intros Ho Hfirst. set (L := f_LatestBranchID f) in *. destruct (keptKeys_spec t f nodeId Ho) as (kept & Hk & Hnd & Hin).
  unfold handleBranch. rewrite (oo_file _ _ Ho). cbn [mbind option_bind]. fold L in Hk |- *. rewrite Hk. cbn [mbind option_bind].
  pose proof (reset_order t kept) as Hord. pose proof (reset_latest t kept Hnd) as Hlat.
  destruct (resetSatisfiedOrders kept t) as [lso t1] eqn:Hres. cbn [fst snd] in Hord, Hlat.
  assert (t1 = set_entries (map_imap (λ k e, Some (renumber kept t k e)) (t_entries t)) t) as Ht1
    by (unfold resetSatisfiedOrders in Hres; by injection Hres).
  assert (t_file t1 = Some f) as Hf1 by (rewrite Ht1; apply Ho).
  assert (t_points t1 = t_points t) as Hp1 by by rewrite Ht1.
  unfold updateLogFile. rewrite Hf1. cbn [mbind option_bind]. set (f' := LogFile _ _ (L + 1) lso).
  set (p := BranchPoint nodeId L (L + 1) replay). set (t' := createBranchPoint p (set_file f' t1)).
  exists t', f'. split; [done|].
  assert (∀ k e', t_entries t' !! k = Some e' → ∃ e, t_entries t !! k = Some e ∧ e' = renumber kept t k e) as Hback.
  { intros k e'. cbn. rewrite Ht1. cbn. rewrite map_lookup_imap. destruct (t_entries t !! k) as [e|]; [|done]. intros [= <-]. eauto. }
  assert (∀ k e, keyOf (renumber kept t k e) = keyOf e ∧ e_Kind (renumber kept t k e) = e_Kind e ∧
    e_IsSatisfied (renumber kept t k e) = e_IsSatisfied e) as Hren by (intros k e; unfold renumber; by destruct (e_SatisfiedOrder e)).
  assert (∀ k, pastFork t' k = pastFork t k || ((L =? k.1) && (nodeId <=? k.2))) as Hpast.
  { intros k. unfold pastFork. cbn [t_points t' createBranchPoint set_file]. rewrite Hp1, existsb_app. cbn. by rewrite orb_false_r. }
  pose proof (oo_chain _ _ Ho) as Hc. fold L in Hc.
  assert (∀ k, is_Some (orderOf t k) → k ∈ kept ↔ k.2 < nodeId) as Hkept.
  { intros k [o Hor]. rewrite Hin. assert (is_Some (t_entries t !! k)) as Hs by (unfold orderOf in Hor; by destruct (t_entries t !! k)).
    destruct (oo_branch _ _ Ho k Hs) as [Hb Hfk]. assert (branchOf t f k.2 = k.1) as Hlive.
    { apply (live_iff t f k Hc Hb Hfk). apply (oo_live _ _ Ho). eauto. }
    naive_solver. }
  split.
  - done.
  - cbn. pose proof (oo_node _ _ Ho). lia.
  - cbn. rewrite Hp1. by apply chain_snoc.
  - intros k e' (e & He & ->)%Hback. rewrite (proj1 (Hren k e)). by apply (oo_key _ _ Ho).
  - intros k [e' (e & He & ->)%Hback]. destruct (oo_branch _ _ Ho k) as [Hb Hfk]; [by eauto|]. fold L in Hb. cbn. rewrite Hp1.
    rewrite (firstOf_snoc _ L) by (done || lia). split; [lia|done].
  - cbn. rewrite Hlat. lia.
  - cbn. rewrite Hlat. by eapply dense_reset.
  - intros k Hs. rewrite Hpast. assert (orderOf t' k = orderOf t1 k) as Heq by done. rewrite Heq, Hord in Hs.
    destruct (orderOf t k) as [o|] eqn:Hor; [|by destruct Hs]. destruct (decide (k ∈ kept)) as [Hin'|]; [|by destruct Hs].
    apply Hkept in Hin'; [|by eauto]. rewrite (oo_live _ _ Ho) by eauto. cbn. apply andb_false_iff. right. apply Z.leb_gt. lia.
  - intros k e' (e & He & ->)%Hback. destruct (Hren k e) as (_ & _ & ->). intros Hs. apply (oo_satisfied _ _ Ho k e He).
    unfold renumber in Hs. destruct (e_SatisfiedOrder e) eqn:Hx; [by eauto|]. rewrite Hx in Hs. done.
  - intros k e' (e & He & ->)%Hback. destruct (Hren k e) as (_ & -> & ->). intros Hs Hkind. rewrite Hpast.
    intros [Hnp Hnew]%orb_false_iff. destruct (oo_numbered _ _ Ho k e He Hs Hkind Hnp) as [o Hor].
    assert (k ∈ kept) as Hin'.
    { apply Hkept; [exists o; unfold orderOf; by rewrite He|]. destruct (oo_branch _ _ Ho k) as [Hb Hfk]; [by eauto|]. fold L in Hb.
      apply andb_false_iff in Hnew as [Hne%Z.eqb_neq|Hlt%Z.leb_gt]; [|done].
      rewrite <- not_true_iff_false, (pastFork_spec _ _ _ Hc) in Hnp.
      pose proof (firstOf_mono _ _ (k.1 + 1) L Hc ltac:(lia) ltac:(lia) ltac:(lia)). lia. }
    unfold renumber. rewrite Hor. cbn. rewrite bool_decide_true by done. eauto.
Qed.

(** ** Requests *)

Section requests.
Context `{Params}.

(** The entries a plan may create: at distinct nodes from the next one on, each on the branch that owns its node. *)
Record planShape (f : V1DurableEventLogFile) (m : gmap Z V1DurableEventLogBranchPoint) (n : Z) (es : list GetOrCreateLogEntryOpt) : Prop := {
  ps_nodes : NoDup (o_NodeId <$> nonSkipOpts es);
  ps_branch : ∀ o, o ∈ nonSkipOpts es → n ≤ o_NodeId o ∧ resolveBranchForNode (o_NodeId o) (f_LatestBranchID f) m = Some (o_BranchId o);
  ps_kind : ∀ o, o ∈ nonSkipOpts es → o_IsSatisfied o = true → o_Kind o ≠ WAITFOR;
}.

Lemma planRuns_shape f m replay n opts es :
  planRuns (f_LatestBranchID f) m replay n opts = Done es → planShape f m n es.
Proof.
  revert n es. induction opts as [|o opts IH]; intros n es; cbn [planRuns].
  { intros [= <-]. split; [constructor|by intros ? ?%elem_of_nil..]. }
  destruct (to_ShouldSkip o).
  - destruct (planRuns _ m replay n opts) as [rest| |] eqn:Hr; [|done..]. intros [= <-]. destruct (IH _ _ Hr). by split.
  - destruct (resolveBranchForNode n (f_LatestBranchID f) m) as [b|] eqn:Hb; [|done]. cbn [unchecked mbind outcome_bind].
    unfold mbind, outcome_bind. destruct (planRuns _ m replay (n + 1) opts) as [rest| |] eqn:Hr; [|done..]. intros [= <-].
    destruct (IH _ _ Hr) as [Hnd Hbr Hk].
    split; unfold nonSkipOpts; cbn [List.filter o_ShouldSkip negb]; fold (nonSkipOpts rest).
    + rewrite fmap_cons. constructor; [|done]. intros (x & Hx & Hin)%list_elem_of_fmap. apply Hbr in Hin as [Hge _]. cbn in Hx. lia.
    + intros x [->|Hx]%elem_of_cons; [cbn; split; [lia|done]|]. destruct (Hbr x Hx). split; [lia|done].
    + intros x [->|Hx]%elem_of_cons; [done|by apply Hk].
Qed.

Lemma plan_shape fails task ids ev f t es ch :
  planDurableEventLogAppend fails task ids ev f t = Done (es, ch) → planShape f (branchPoints (t_points t)) (f_LatestNodeID f + 1) es.
Proof.
  unfold planDurableEventLogAppend. destruct ev as [payload memoKey|opts|conditions].
  - destruct (resolveBranchForNode _ _ _) as [b|] eqn:Hb; [|done]. intros [= <- <-]. split; cbn.
    + apply NoDup_singleton.
    + intros o ->%list_elem_of_singleton. cbn. split; [lia|done].
    + by intros o ->%list_elem_of_singleton.
  - unfold mbind, outcome_bind. destruct (resolveOrphanedChildDedupes _ _ _ _ _ _) as [[replay opts']| |]; [|done..].
    destruct (planRuns _ _ replay _ opts') as [entries| |] eqn:Hp; [|done..]. intros [= <- <-]. by eapply planRuns_shape.
  - destruct (resolveBranchForNode _ _ _) as [b|] eqn:Hb; [|done]. intros [= <- <-]. split; cbn.
    + apply NoDup_singleton.
    + intros o ->%list_elem_of_singleton. cbn. split; [lia|done].
    + by intros o ->%list_elem_of_singleton.
Qed.

Lemma resolveOne_log k k' :
  resolveOne k = Done k' →
  k_file k' = k_file k ∧ t_file (k_log k') = t_file (k_log k) ∧ t_entries (k_log k') = t_entries (k_log k) ∧ t_points (k_log k') = t_points (k_log k).
Proof.
  unfold resolveOne. destruct (k_event k); try (by intros [= <-]). unfold resolveChildExternalIds, upsertSignals.
  cbn [mbind outcome_bind]. unfold mbind, outcome_bind. destruct (assignIds _ _ _ _ _ _); [|done..]. by intros [= <-].
Qed.

Lemma checkOne_new p h :
  (∀ k e, t_entries (k_log (p_locked p)) !! k = Some e → keyOf e = k) → checkOne p = Done h →
  h_planned h = p ∧ ∀ o, o ∈ h_new h → o ∈ nonSkipOpts (p_entries p) ∧ t_entries (k_log (p_locked p)) !! optKey o = None.
Proof.
  intros Hkey. unfold checkOne. destruct (newOpts _ _) as [new| |] eqn:Hn; [|done..]. intros [= <-]. split; [done|]. cbn.
  apply newOpts_spec in Hn as [-> _]. intros o [Ho%list_elem_of_In Hnone]%list_elem_of_In%filter_In. split; [done|].
  rewrite existing_keyed in Hnone by done. by destruct (t_entries _ !! optKey o).
Qed.

Lemma checkOne_sublist p h : checkOne p = Done h → h_new h `sublist_of` nonSkipOpts (p_entries p).
Proof.
  unfold checkOne. destruct (newOpts _ _) as [new| |] eqn:Hn; [|done..]. intros [= <-]. cbn. apply newOpts_spec in Hn as [-> _].
  apply bfilter_sublist.
Qed.

Lemma finish_order d f : orderOk (d_log d) f → ∃ f', orderOk (finishLog d) f'.
Proof.
  intros Ho. unfold finishLog. set (t := set_entries _ (d_log d)).
  assert (orderOk t f) as Ht.
  { eapply orderOk_same; [exact Ho|apply Ho|done|apply Ho|done..|]. intros k. unfold t. cbn [t_entries set_entries].
    apply (related_foldl _ (λ kp es, alter (set_result kp.2) kp.1 es)). intros a es. by apply related_alter; [apply _|]. }
  destruct (0 <? _) eqn:Hn; [|by exists f]. unfold updateLatestNodeId. rewrite (oo_file _ _ Ht). eexists.
  eapply orderOk_same; [exact Ht|done|done| |done..|]; [cbn; pose proof (oo_node _ _ Ht); lia|]. intros k. apply related_refl, _.
Qed.

Lemma created_order k0 k X p h c s d t f :
  orderOk t f → k_file k0 = f → k_log k0 = t → resolveOne k0 = Done k → planOne X k = Done p → checkOne p = Done h →
  createOne h = Done c → skipOne X c = Done s → resultOne X s = Done d → ∃ f', orderOk (d_log d) f'.
Proof.
  intros Ho Hf Hlog Hr Hp Hh Hc Hs Hd. destruct (resolveOne_log _ _ Hr) as (Hkf & Htf & Hte & Htp). rewrite Hf in Hkf. rewrite Hlog in Htf, Hte, Htp.
  assert (orderOk (k_log k) f) as Hok.
  { eapply orderOk_same; [exact Ho|rewrite Htf; apply Ho|done|apply Ho|done..|]. intros k'. rewrite Hte. apply related_refl, _. }
  unfold planOne, mbind, outcome_bind in Hp. destruct (planDurableEventLogAppend _ _ _ _ _ _) as [[es ch]| |] eqn:Hpl; [|done..].
  injection Hp as <-. rewrite Hkf in Hpl. apply plan_shape in Hpl as [Hnd Hbr Hkind].
  destruct (checkOne_new (Planned k es ch) h (oo_key _ _ Hok) Hh) as [Hhp Hnew]. pose proof (checkOne_sublist _ _ Hh) as Hsub. cbn [p_locked p_entries] in *.
  unfold createOne in Hc. rewrite Hhp in Hc. cbn [p_locked p_entries p_children] in Hc.
  set (inputs := imap (toCreate (q_ids (k_request k))) (h_new h)) in Hc.
  assert (∀ r, r ∈ inputs → ∃ o, o ∈ h_new h ∧ rowKey r = optKey o ∧ c_Kind r = o_Kind o ∧ c_IsSatisfied r = o_IsSatisfied o) as Hin.
  { intros r [i Hi]%list_elem_of_lookup. unfold inputs in Hi. rewrite list_lookup_imap in Hi. destruct (h_new h !! i) as [o|] eqn:Ho'; [|done].
    injection Hi as <-. exists o. split; [by eapply list_elem_of_lookup_2|done]. }
  destruct (create_order (k_log k) f inputs Hok) as (f' & Hok' & _).
  { split.
    - assert (rowKey <$> inputs = optKey <$> h_new h) as ->
        by (unfold inputs; apply list_eq; intros i; rewrite !list_lookup_fmap, list_lookup_imap; by destruct (h_new h !! i)).
      apply (sublist_NoDup _ (optKey <$> nonSkipOpts es)); [|by apply fmap_sublist].
      apply (NoDup_fmap_1 snd). by rewrite <- list_fmap_compose.
    - intros r (o & Hin' & -> & _)%Hin. by apply Hnew.
    - intros r (o & Hin' & Hk & _)%Hin. destruct (Hnew o Hin') as [Hns _]. destruct (Hbr o Hns) as [Hge Hres].
      injection Hk as -> ->. pose proof (oo_node _ _ Hok). split; [lia|]. unfold branchOf. by rewrite Hres.
    - intros r (o & Hin' & _ & -> & ->)%Hin. apply Hkind. by apply Hnew. }
  destruct (createEntries inputs (k_log k)) as [out t2]. cbn [snd] in Hok'. injection Hc as <-.
  unfold skipOne, mbind, outcome_bind in Hs. destruct (skippedEntries _ _ _ _); [|done..]. injection Hs as <-.
  unfold resultOne, mbind, outcome_bind in Hd. destruct (logEntries _ _ _ _ _); [|done..]. injection Hd as <-. by exists f'.
Qed.

(** A request is written in full, or leaves all of the log but the signals as it is. *)
Lemma ingest_cases X task q t :
  let t' := (ingest X task q t).2 in
  (∃ d, pipeline X {[task := t]} (task, q) = Done d ∧ t' = finishLog d) ∨
  (t_file t' = t_file t ∧ t_entries t' = t_entries t ∧ t_points t' = t_points t).
Proof.
  cbn. unfold ingest, appendDurableEventLogBatch.
  destruct (appendBody X [(task, q)] {[task := t]}) as [ds|e] eqn:Hb; [|cbn; rewrite lookup_singleton_eq; by right].
  apply body_one in Hb. destruct (pipeline X {[task := t]} (task, q)) as [d|e|e] eqn:Hp; [|subst ds|done].
  { subst ds. cbn. destruct (x_fails X Commit); [destruct (x_applied X)|]; cbn; rewrite ?lookup_insert_eq, ?lookup_singleton_eq; eauto. }
  right. assert (∀ t', failedLog [(task, q)] {[task := t]} task = Some t' →
    t_file t' = t_file t ∧ t_entries t' = t_entries t ∧ t_points t' = t_points t) as Hf.
  { intros t'. unfold failedLog. cbn. rewrite Z.eqb_refl. cbn. unfold resolvedSignals, lockOne. cbn [fst snd].
    rewrite lookup_singleton_eq. change (default emptyLog (Some t)) with t. destruct (t_file t) as [f|] eqn:Htf; [|done].
    case_bool_decide; [|done]. unfold mret, outcome_ret. destruct (resolveOne (Locked task q f t)) as [k| |] eqn:Hr; [|done..]. intros [= <-].
    destruct (resolveOne_log _ _ Hr) as (_ & Hkf & Hte & Htp). cbn [k_log] in *. by rewrite Hkf. }
  cbv zeta. revert Hf. generalize (failedLog [(task, q)] {[task := t]}) as failed. intros failed Hf.
  destruct (x_fails X Commit); [destruct (x_applied X)|]; cbn; try (by rewrite lookup_singleton_eq); unfold commitOne; cbn [fst snd];
    destruct (failed task) as [t'|]; rewrite ?lookup_insert_eq, ?lookup_singleton_eq; cbn; auto.
Qed.

Lemma ingest_order X task q t f : orderOk t f → ∃ f', orderOk (ingest X task q t).2 f'.
Proof.
  intros Ho. destruct (ingest_cases X task q t) as [(d & Hp & ->)|(Hfile & Hte & Htp)].
  2: { exists f. eapply orderOk_same; [exact Ho|rewrite Hfile; apply Ho|done|apply Ho|done..|]. intros k. rewrite Hte. apply related_refl, _. }
  unfold pipeline, mbind, outcome_bind in Hp. destruct (lockOne _ _) as [k0| |] eqn:Hl; [|done..].
  unfold lockOne in Hl. cbn [fst snd] in Hl. rewrite lookup_singleton_eq in Hl.
  change (default emptyLog (Some t)) with t in Hl. rewrite (oo_file _ _ Ho) in Hl. case_bool_decide; [|done]. injection Hl as <-.
  destruct (resolveOne _) as [k| |] eqn:Hr; [|done..]. destruct (planOne X k) as [p| |] eqn:Hpl; [|done..].
  destruct (checkOne p) as [h| |] eqn:Hh; [|done..]. destruct (createOne h) as [c| |] eqn:Hc; [|done..].
  destruct (skipOne X c) as [s| |] eqn:Hs; [|done..].
  destruct (created_order (Locked task q f t) _ _ _ _ _ _ _ t f Ho eq_refl eq_refl Hr Hpl Hh Hc Hs Hp) as [f1 Ho1]. by eapply finish_order.
Qed.

(** ** All that happens to a log *)

(** The log of a task: it is created by the first invocation; requests are taken or fail in any way, matches are
    satisfied, memos completed, children and waits triggered; a fork starts from the latest branch at a node of it, and
    a replay of a DAG at the first node. *)
Inductive logReachable (task : Z) : taskLog → Prop :=
  | lr_start : logReachable task (incrementInvocationCount emptyLog)
  | lr_invoke t : logReachable task t → logReachable task (incrementInvocationCount t)
  | lr_ingest X q t : logReachable task t → logReachable task (ingest X task q t).2
  | lr_satisfy ms t : logReachable task t → logReachable task (satisfyEntries ms t).2
  | lr_memo k payload t t' :
      logReachable task t → (∀ e, t_entries t !! k = Some e → e_Kind e = MEMO) → completeMemoEntry k payload t = Some t' →
      logReachable task t'
  | lr_trigger triggers registers commits pending t out t' :
      logReachable task t → triggerPendingRunEntries triggers registers commits pending t = Some (out, t') → logReachable task t'
  | lr_wait registers commits k conditions t out t' :
      logReachable task t → triggerPendingWaitFor registers commits k conditions t = Some (out, t') → logReachable task t'
  | lr_fork nodeId replay t f b t' :
      logReachable task t → t_file t = Some f → firstOf (t_points t) (f_LatestBranchID f) ≤ nodeId →
      handleBranch nodeId (f_LatestBranchID f) replay t = Some (b, t') → logReachable task t'.

Lemma chain_nil : chain [] 1.
Proof. split; [done|by intros i p|by intros i p q]. Qed.

Lemma reachable_order task t : logReachable task t → ∃ f, orderOk t f.
Proof.
  induction 1 as [|t _ [f Ho]|X q t _ [f Ho]|ms t _ [f Ho]|k payload t t' _ [f Ho] Hk Hm
    |tr rg cm pending t out t' _ [f Ho] Hm|rg cm k conds t out t' _ [f Ho] Hm|nodeId replay t f0 b t' _ [f Ho] Hf Hn Hb].
  - exists (LogFile 1 0 1 0). split; [done|done|exact chain_nil|by intros k e|by intros k [e He]|done| |by intros k [o Ho]|by intros k e..].
    split; [by intros k o|by intros k k' o|cbn; lia].
  - by eapply increment_order.
  - by eapply ingest_order.
  - by eapply satisfyEntries_order.
  - exists f. by eapply memo_order.
  - exists f. by eapply trigger_order.
  - exists f. by eapply wait_order.
  - assert (f0 = f) as -> by (rewrite (oo_file _ _ Ho) in Hf; by injection Hf).
    destruct (fork_order t f nodeId replay Ho Hn) as (t1 & f1 & Heq & Ho1). rewrite Hb in Heq. injection Heq as -> ->. by exists f1.
Qed.

End requests.

End OrderInvariant.
