(* ===== verification/OrderedRelease.v ===== *)
(** How completions reach a worker (src/internal/services/dispatcher/server_v1.go): a session holds back a completion
    until all completions that were satisfied before it were sent, takes up where a reconnected worker left off, and
    gives up on a task whose next completion does not arrive. *)

From S2P Require Import Prelude Workers LogTables EventLog EventLogOps.
Import Workers LogTables EventLog EventLogOps.

Module OrderedRelease.

Open Scope Z_scope.

(** ** Responses *)

Record DurableTaskEventLogEntryCompletedResponse := Completed {
  ec_TaskExternalId : uuid;
  ec_InvocationCount : Z;
  ec_Ref : entryKey;
  ec_Payload : string;
  ec_SatisfiedOrder : option Z;
  ec_IsFailure : bool;
  ec_ErrorMessage : option string;
}.

(** The responses of a stream; the acks name the entries of a request, those of runs with the runs' ids.  The error of
    an eviction names no entry. *)
Inductive DurableTaskResponse :=
  | EntryCompleted (r : DurableTaskEventLogEntryCompletedResponse)
  | ServerEvict (task : uuid) (invocationCount : Z)
  | RegisterWorkerResponse (worker : uuid)
  | MemoAck (task : uuid) (invocationCount : Z) (ref : entryKey) (alreadyExisted : bool) (payload : string)
  | TriggerRunsAck (task : uuid) (invocationCount : Z) (entries : list (entryKey * uuid))
  | WaitForAck (task : uuid) (invocationCount : Z) (ref : entryKey)
  | EvictionAck (task : option uuid) (invocationCount : Z)
  | NonDeterminismResponse (task : uuid) (invocationCount : Z) (ref : entryKey)
  | EvictionErrorResponse (task : option uuid) (invocationCount : Z).

(** ** Sessions *)

(** The task and its invocation. *)
Definition orderedReleaseKey : Type := uuid * Z.

(** [or_oldestBufferedAt] is zero when nothing is held. *)
Record orderedRelease := Release {
  or_maxSent : Z;
  or_buffered : gmap Z DurableTaskResponse;
  or_oldestBufferedAt : Z;
  or_lastActivityAt : Z;
}.

(** A session: whether it is closed, its releases, and what it sent. *)
Record durableTaskInvocation := Session {
  s_closed : bool;
  s_releases : gmap orderedReleaseKey orderedRelease;
  s_sent : list DurableTaskResponse;
}.
Definition set_releases (rs : gmap orderedReleaseKey orderedRelease) (s : durableTaskInvocation) : durableTaskInvocation :=
  Session (s_closed s) rs (s_sent s).
Definition set_release (k : orderedReleaseKey) (r : orderedRelease) (s : durableTaskInvocation) : durableTaskInvocation :=
  set_releases (<[k := r]> (s_releases s)) s.

(** Sending a list until a send fails; [fails] is which response the transport does not take.  The result is whether
    all were sent. *)
Fixpoint sendAll (fails : DurableTaskResponse → bool) (l : list DurableTaskResponse) (s : durableTaskInvocation) :
    bool * durableTaskInvocation :=
  match l with
  | [] => (true, s)
  | r :: l =>
      if s_closed s || fails r then (false, s)
      else sendAll fails l (Session (s_closed s) (s_releases s) (s_sent s ++ [r]))
  end.

(** takeReleasable: the completions that follow the last one sent without a gap; the fuel is the number of completions
    held. *)
Fixpoint takeLoop (fuel : nat) (max : Z) (buffered : gmap Z DurableTaskResponse) :
    list DurableTaskResponse * Z * gmap Z DurableTaskResponse :=
  match fuel with
  | O => ([], max, buffered)
  | S fuel =>
      match buffered !! (max + 1) with
      | None => ([], max, buffered)
      | Some r => let '(l, max', buffered') := takeLoop fuel (max + 1) (delete (max + 1) buffered) in (r :: l, max', buffered')
      end
  end.

Definition takeReleasable (rel : orderedRelease) : list DurableTaskResponse * orderedRelease :=
  let '(l, max, buffered) := takeLoop (size (or_buffered rel)) (or_maxSent rel) (or_buffered rel) in
  (l, Release max buffered (if bool_decide (buffered = ∅) then 0 else or_oldestBufferedAt rel) (or_lastActivityAt rel)).

(** The releases of the same task: those of older invocations are dropped; a newer one ends the search. *)
Fixpoint dropOlder (key : orderedReleaseKey) (keys : list orderedReleaseKey) (rs : gmap orderedReleaseKey orderedRelease) :
    bool * gmap orderedReleaseKey orderedRelease :=
  match keys with
  | [] => (false, rs)
  | k :: keys =>
      if negb (bool_decide (k.1 = key.1)) then dropOlder key keys rs
      else if key.2 <? k.2 then (true, rs)
      else dropOlder key keys (delete k rs)
  end.

(** getRelease at a time: None is that a newer invocation took the release over. *)
Definition getRelease (now : Z) (key : orderedReleaseKey) (rs : gmap orderedReleaseKey orderedRelease) :
    option orderedRelease * gmap orderedReleaseKey orderedRelease :=
  match rs !! key with
  | Some rel => (Some rel, rs)
  | None =>
      let '(replaced, rs') := dropOlder key (map_to_list rs).*1 rs in
      if replaced then (None, rs')
      else let rel := Release 0 ∅ 0 now in (Some rel, <[key := rel]> rs')
  end.

Definition clearRelease (key : orderedReleaseKey) (s : durableTaskInvocation) : durableTaskInvocation :=
  set_releases (delete key (s_releases s)) s.

Definition isIdle (now idle : Z) (rel : orderedRelease) : bool :=
  bool_decide (or_buffered rel = ∅) && (idle <? now - or_lastActivityAt rel).

Definition pruneIdleReleases (now idle : Z) (s : durableTaskInvocation) : durableTaskInvocation :=
  set_releases (filter (λ kr, isIdle now idle kr.2 = false) (s_releases s)) s.

(** ** Delivery *)

(** What a completion does to its release: the responses to send, none when it is held or was held already. *)
Definition accept (now order : Z) (resp : DurableTaskResponse) (rel : orderedRelease) :
    list DurableTaskResponse * orderedRelease :=
  let rel := Release (or_maxSent rel) (or_buffered rel) (or_oldestBufferedAt rel) now in
  if order <=? or_maxSent rel then ([resp], rel)
  else if order =? or_maxSent rel + 1 then
    let '(l, rel) :=
      takeReleasable (Release (or_maxSent rel + 1) (or_buffered rel) (or_oldestBufferedAt rel) (or_lastActivityAt rel)) in
    (resp :: l, rel)
  else
    match or_buffered rel !! order with
    | Some _ => ([], rel)
    | None =>
        ([], Release (or_maxSent rel) (<[order := resp]> (or_buffered rel))
               (if or_oldestBufferedAt rel =? 0 then now else or_oldestBufferedAt rel) (or_lastActivityAt rel))
    end.

(** deliverOrdered at a time; the result is whether no send failed. *)
Definition deliverOrdered (now : Z) (fails : DurableTaskResponse → bool) (key : orderedReleaseKey) (satisfiedOrder : option Z)
    (resp : DurableTaskResponse) (s : durableTaskInvocation) : bool * durableTaskInvocation :=
  match satisfiedOrder with
  | None => sendAll fails [resp] s
  | Some order =>
      match getRelease now key (s_releases s) with
      | (None, rs) => sendAll fails [resp] (set_releases rs s)
      | (Some rel, rs) =>
          let '(l, rel) := accept now order resp rel in
          sendAll fails l (set_release key rel (set_releases rs s))
      end
  end.

(** resumeOrderedRelease: the worker has received everything up to [highest]. *)
Definition resumeOrderedRelease (now : Z) (fails : DurableTaskResponse → bool) (key : orderedReleaseKey) (highest : Z)
    (s : durableTaskInvocation) : bool * durableTaskInvocation :=
  match getRelease now key (s_releases s) with
  | (None, rs) => (true, set_releases rs s)
  | (Some rel, rs) =>
      if highest <=? or_maxSent rel then (true, set_releases rs s)
      else
        let kept := filter (λ ob, highest < ob.1) (or_buffered rel) in
        let '(l, rel) := takeReleasable (Release highest kept (or_oldestBufferedAt rel) (or_lastActivityAt rel)) in
        sendAll fails l (set_release key rel (set_releases rs s))
  end.

(** deliverEntryCompleted and DeliverDurableEventLogEntryCompletion: the completion of an entry. *)
Definition entryCompletion (task : uuid) (invocationCount : Z) (ref : entryKey) (payload : string) (satisfiedOrder : option Z)
    (isFailure : bool) (errorMessage : option string) : DurableTaskResponse :=
  EntryCompleted (Completed task invocationCount ref (if isFailure then "" else payload)%string satisfiedOrder isFailure
    (if isFailure then errorMessage else None)).

Definition deliverEntry (now : Z) (fails : DurableTaskResponse → bool) (task : uuid) (invocationCount : Z) (ref : entryKey)
    (payload : string) (satisfiedOrder : option Z) (isFailure : bool) (errorMessage : option string)
    (s : durableTaskInvocation) : bool * durableTaskInvocation :=
  deliverOrdered now fails (task, invocationCount) satisfiedOrder
    (entryCompletion task invocationCount ref payload satisfiedOrder isFailure errorMessage) s.

(** ** Giving up *)

Record timedOutOrderedRelease := TimedOut {
  to_key : orderedReleaseKey;
  to_missing : Z;
  to_held : list Z;
}.

Definition hasTimedOut (now timeout : Z) (rel : orderedRelease) : bool :=
  negb (bool_decide (or_buffered rel = ∅)) && negb (or_oldestBufferedAt rel =? 0) && (timeout <? now - or_oldestBufferedAt rel).

Definition timedOutOrderedReleases (now timeout : Z) (s : durableTaskInvocation) : list timedOutOrderedRelease :=
  omap (λ kr, if hasTimedOut now timeout kr.2
              then Some (TimedOut kr.1 (or_maxSent kr.2 + 1) (merge_sort Z.le (elements (dom (or_buffered kr.2))))) else None)
    (map_to_list (s_releases s)).

(** What the eviction of a task answers: an error, or whether the task was evicted. *)
Definition evictReply : Type := orderedReleaseKey → option bool.

Definition evictTimedOut (evicts : evictReply) (fails : DurableTaskResponse → bool) (s : durableTaskInvocation)
    (t : timedOutOrderedRelease) : durableTaskInvocation :=
  match evicts (to_key t) with
  | None => s
  | Some false => clearRelease (to_key t) s
  | Some true => clearRelease (to_key t) (sendAll fails [ServerEvict (to_key t).1 (to_key t).2] s).2
  end.

Definition durableOrderedReleaseGapTimeout : Z := 60.
Definition durableReleaseIdleTTL : Z := 24 * 60 * 60.

Definition evictTimedOutOrderedReleases (now : Z) (evicts : evictReply) (fails : DurableTaskResponse → bool)
    (s : durableTaskInvocation) : durableTaskInvocation :=
  foldl (evictTimedOut evicts fails) s (timedOutOrderedReleases now durableOrderedReleaseGapTimeout s).

(** ** Worker statuses *)

Record awaitedEntry := Awaited { aw_task : uuid; aw_invocationCount : Z; aw_ref : entryKey }.
Record receivedOrder := Received { ro_task : uuid; ro_invocationCount : Z; ro_highest : Z }.
Record DurableTaskWorkerStatusRequest := WorkerStatus {
  ws_WaitingEntries : list awaitedEntry;
  ws_ReceivedSatisfiedOrders : list receivedOrder;
}.

(** A satisfied entry with its result, as GetSatisfiedDurableEvents returns it. *)
Record SatisfiedEventWithPayload := SatisfiedEvent {
  se_task : uuid;
  se_invocationCount : Z;
  se_ref : entryKey;
  se_result : string;
  se_order : option Z;
  se_failure : bool;
  se_message : option string;
}.

(** What the database answers while a status is handled: the current invocations of the tasks, the satisfied entries of
    the waiting ones, and evictions; None is an error. *)
Record statusEnv := StatusEnv {
  v_counts : list uuid → option (gmap uuid Z);
  v_satisfied : list (uuid * entryKey) → option (list SatisfiedEventWithPayload);
  v_evicts : evictReply;
  v_fails : DurableTaskResponse → bool;
}.

(** The invocation count a status gives for each task: the last one. *)
Definition statusCounts (entries : list awaitedEntry) : gmap uuid Z :=
  foldl (λ m e, <[aw_task e := aw_invocationCount e]> m) ∅ entries.

(** The tasks whose invocation is older than the current one. *)
Definition staleTasks (counts current : gmap uuid Z) : list (uuid * Z) :=
  List.filter (λ tc, match current !! tc.1 with Some c => tc.2 <? c | None => false end) (map_to_list counts).

(** Tasks of an operator that wait for entries none of which is satisfied are evicted. *)
Definition evictIdle (V : statusEnv) (stale : list uuid) (satisfied : list uuid) (s : durableTaskInvocation) (tc : uuid * Z) :
    durableTaskInvocation :=
  if bool_decide (tc.1 ∈ stale) || bool_decide (tc.1 ∈ satisfied) then s
  else
    match v_evicts V tc with
    | Some true => (sendAll (v_fails V) [ServerEvict tc.1 tc.2] s).2
    | _ => s
    end.

(** The sessions that completions of a task are routed to. *)
Definition durableInvocations : Type := gmap uuid nat.

Definition compareAndDelete (task : uuid) (session : nat) (routes : durableInvocations) : durableInvocations :=
  if bool_decide (routes !! task = Some session) then delete task routes else routes.

(** handleWorkerStatus at a time, for a session with its number: whether it returns no error, and the routes and the
    session it leaves. *)
Definition handleWorkerStatus (now : Z) (V : statusEnv) (onOperator : bool) (session : nat) (req : DurableTaskWorkerStatusRequest)
    (routes : durableInvocations) (s : durableTaskInvocation) : bool * durableInvocations * durableTaskInvocation :=
  let s := foldl (λ s r, (resumeOrderedRelease now (v_fails V) (ro_task r, ro_invocationCount r) (ro_highest r) s).2) s
             (ws_ReceivedSatisfiedOrders req) in
  match ws_WaitingEntries req with
  | [] => (true, routes, s)
  | entries =>
      let counts := statusCounts entries in
      match v_counts V (map_to_list counts).*1 with
      | None => (false, routes, s)
      | Some current =>
          let stale := staleTasks counts current in
          let routes := foldl (λ routes tc, compareAndDelete tc.1 session routes) routes stale in
          let s := foldl (λ s tc, (sendAll (v_fails V) [ServerEvict tc.1 tc.2] s).2) s stale in
          match v_satisfied V ((λ e, (aw_task e, aw_ref e)) <$> entries) with
          | None => (false, routes, s)
          | Some events =>
              let s := foldl (λ s c, (deliverEntry now (v_fails V) (se_task c) (se_invocationCount c) (se_ref c) (se_result c)
                                        (se_order c) (se_failure c) (se_message c) s).2) s events in
              let s := if onOperator then foldl (evictIdle V stale.*1 (se_task <$> events)) s (map_to_list counts) else s in
              let s := evictTimedOutOrderedReleases now (v_evicts V) (v_fails V) s in
              (true, routes, pruneIdleReleases now durableReleaseIdleTTL s)
          end
      end
  end.

(** DeliverDurableEventLogEntryCompletion: whether the completion was taken; it is not when no session has the task. *)
Definition DeliverDurableEventLogEntryCompletion (now : Z) (fails : DurableTaskResponse → bool) (routes : durableInvocations)
    (e : SatisfiedEventWithPayload) (sessions : gmap nat durableTaskInvocation) : bool * gmap nat durableTaskInvocation :=
  match n ← routes !! se_task e; (λ s, (n, s)) <$> sessions !! n with
  | None => (false, sessions)
  | Some (n, s) =>
      let '(ok, s) := deliverEntry now fails (se_task e) (se_invocationCount e) (se_ref e) (se_result e) (se_order e)
                        (se_failure e) (se_message e) s in
      (ok, <[n := s]> sessions)
  end.

(** The completions an answer has already: those of its satisfied entries; that of a memo has no order. *)
Definition satisfiedOf (task : uuid) (invocationCount : Z) (result : IngestDurableTaskEventResult) : list SatisfiedEventWithPayload :=
  match result with
  | TriggerRunsResult entries _ =>
      (λ e, SatisfiedEvent task invocationCount (re_BranchId e, re_NodeId e) (re_ResultPayload e) (re_SatisfiedOrder e)
              (re_ChildTaskIsFailure e) (re_ChildTaskErrorMessage e)) <$> List.filter re_IsSatisfied entries
  | MemoResult r =>
      if sr_IsSatisfied r
      then [SatisfiedEvent task invocationCount (sr_BranchId r, sr_NodeId r) (sr_ResultPayload r) None false None] else []
  | WaitForResult r =>
      if sr_IsSatisfied r
      then [SatisfiedEvent task invocationCount (sr_BranchId r, sr_NodeId r) (sr_ResultPayload r) (sr_SatisfiedOrder r) false None]
      else []
  end.

(** deliverSatisfiedEntries: up to the first that is not taken. *)
Fixpoint deliverEach (now : Z) (fails : DurableTaskResponse → bool) (routes : durableInvocations)
    (events : list SatisfiedEventWithPayload) (sessions : gmap nat durableTaskInvocation) : bool * gmap nat durableTaskInvocation :=
  match events with
  | [] => (true, sessions)
  | e :: events =>
      let '(ok, sessions) := DeliverDurableEventLogEntryCompletion now fails routes e sessions in
      if ok then deliverEach now fails routes events sessions else (false, sessions)
  end.

Definition deliverSatisfiedEntries (now : Z) (fails : DurableTaskResponse → bool) (routes : durableInvocations) (task : uuid)
    (invocationCount : Z) (result : IngestDurableTaskEventResult) (sessions : gmap nat durableTaskInvocation) :
    bool * gmap nat durableTaskInvocation :=
  deliverEach now fails routes (satisfiedOf task invocationCount result) sessions.

End OrderedRelease.
