(* ===== verification/ReleaseTheorems.v ===== *)
(** Theorems on the delivery of completions: a session sends the completions of a task in the order they were
    satisfied, holds back only those that follow a gap, and, with the order numbers of the event log, delivers every
    completion of a log. *)

From S2P Require Import Prelude Workers LogTables EventLog EventLogOps OrderedRelease.
Import Workers LogTables EventLog EventLogOps OrderedRelease.

Module ReleaseTheorems.

Open Scope Z_scope.

(** ** Taking what can be released *)

Lemma takeLoop_spec fuel max buffered :
  (size buffered ≤ fuel)%nat → (∀ o, is_Some (buffered !! o) → max < o) →
  ∃ l max' buffered', takeLoop fuel max buffered = (l, max', buffered') ∧ max' = max + Z.of_nat (length l) ∧
    (∀ i r, l !! i = Some r → buffered !! (max + 1 + Z.of_nat i) = Some r) ∧
    (∀ o, buffered' !! o = if decide (o ≤ max') then None else buffered !! o) ∧ buffered' !! (max' + 1) = None.
Proof.
  revert max buffered. induction fuel as [|fuel IH]; intros max buffered Hsize Hgt; cbn [takeLoop].
  - assert (buffered = ∅) as -> by (apply map_size_empty_inv; lia). exists [], max, ∅. split_and!; [done|cbn; lia|done| |done].
    intros o. rewrite lookup_empty. by destruct (decide _).
  - destruct (buffered !! (max + 1)) as [r|] eqn:Hr.
    + destruct (IH (max + 1) (delete (max + 1) buffered)) as (l & max' & buffered' & -> & Hmax & Hl & Hb & Hn).
      { rewrite map_size_delete_Some by eauto. lia. }
      { intros o Ho. destruct (decide (o = max + 1)) as [->|Hne]; [by rewrite lookup_delete_eq in Ho; destruct Ho|].
        rewrite lookup_delete_ne in Ho by done. apply Hgt in Ho. lia. }
      exists (r :: l), max', buffered'. split_and!; [done|cbn; lia| |..|done].
      * intros [|i] r' Hi; cbn in Hi.
        -- injection Hi as <-. by replace (max + 1 + Z.of_nat 0) with (max + 1) by lia.
        -- apply Hl in Hi. rewrite lookup_delete_ne in Hi by lia. by replace (max + 1 + Z.of_nat (S i)) with (max + 1 + 1 + Z.of_nat i) by lia.
      * intros o. rewrite Hb. case_decide; [done|]. by rewrite lookup_delete_ne by lia.
    + exists [], max, buffered. split_and!; [done|cbn; lia|done| |done]. intros o. case_decide; [|done].
      destruct (buffered !! o) eqn:Ho; [|done]. assert (max < o) by (apply Hgt; eauto). lia.
Qed.

(** ** One release *)

Definition orderOfResponse (r : DurableTaskResponse) : option Z :=
  match r with EntryCompleted c => ec_SatisfiedOrder c | _ => None end.

(** The responses are those of the orders after [m] up to [m'], one each, in this order. *)
Definition consecutive (m m' : Z) (l : list DurableTaskResponse) : Prop :=
  orderOfResponse <$> l = Some <$> seqZ (m + 1) (m' - m).

(** What is held follows a gap, under its own order. *)
Definition relOk (rel : orderedRelease) : Prop :=
  ∀ o r, or_buffered rel !! o = Some r → or_maxSent rel + 1 < o ∧ orderOfResponse r = Some o.

(** The orders a release knows: those it has passed, and those it holds. *)
Definition seen (rel : orderedRelease) (o : Z) : Prop := o ≤ or_maxSent rel ∨ is_Some (or_buffered rel !! o).

Lemma takeReleasable_spec rel :
  (∀ o r, or_buffered rel !! o = Some r → or_maxSent rel < o ∧ orderOfResponse r = Some o) →
  let '(l, rel') := takeReleasable rel in
  relOk rel' ∧ consecutive (or_maxSent rel) (or_maxSent rel') l ∧ or_maxSent rel ≤ or_maxSent rel' ∧
  (∀ o, seen rel' o ↔ seen rel o) ∧
  (∀ r, r ∈ l → ∃ o, or_buffered rel !! o = Some r) ∧ or_buffered rel' ⊆ or_buffered rel.
Proof.
  intros Hb. unfold takeReleasable.
  destruct (takeLoop_spec (size (or_buffered rel)) (or_maxSent rel) (or_buffered rel)) as (l & max' & buffered' & -> & Hmax & Hl & Hb' & Hn).
  { done. }
  { intros o [r Hr]. by apply Hb in Hr as [? _]. }
  split_and!; unfold relOk, seen, consecutive; cbn.
  - intros o r Hr. rewrite Hb' in Hr. case_decide as Hle; [done|]. pose proof (Hb _ _ Hr) as [_ Hor]. split; [|done].
    destruct (decide (o = max' + 1)) as [->|]; [|lia]. rewrite Hb', decide_False in Hn by lia. congruence.
  - replace (max' - or_maxSent rel) with (Z.of_nat (length l)) by lia. apply list_eq. intros i. rewrite !list_lookup_fmap.
    destruct (l !! i) as [r|] eqn:Hr; cbn.
    + rewrite lookup_seqZ_lt by (apply lookup_lt_Some in Hr; lia). cbn. f_equal. by apply Hl, Hb in Hr as [_ ?].
    + rewrite lookup_seqZ_ge by (apply lookup_ge_None in Hr; lia). done.
  - lia.
  - intros o. rewrite Hb'. case_decide as Hle; [|split; [intros [?|?]; [lia|auto]|intros [?|?]; [lia|auto]]].
    split; [|auto]. intros _. destruct (decide (o ≤ or_maxSent rel)); [by left|right].
    destruct (l !! Z.to_nat (o - or_maxSent rel - 1)) as [r|] eqn:Hr; [|apply lookup_ge_None in Hr; lia].
    apply Hl in Hr. replace (or_maxSent rel + 1 + Z.of_nat (Z.to_nat (o - or_maxSent rel - 1))) with o in Hr by lia. eauto.
  - intros r [i Hr]%list_elem_of_lookup. eauto.
  - apply map_subseteq_spec. intros o r. rewrite Hb'. by case_decide.
Qed.

(** ** Events *)

(** A completion arrives, or the worker reports what it has received. *)
Inductive releaseEvent :=
  | Arrives (now order : Z) (resp : DurableTaskResponse)
  | WorkerHas (now highest : Z).

Definition eventOk (ev : releaseEvent) : Prop :=
  match ev with Arrives _ order resp => orderOfResponse resp = Some order | WorkerHas _ _ => True end.

Definition known (ev : releaseEvent) (o : Z) : Prop :=
  match ev with Arrives _ order _ => o = order | WorkerHas _ highest => o ≤ highest end.

(** What an event sends when it takes the last order sent from [m] to [m']: a completion that was passed is sent again,
    alone; otherwise the orders from the last one on, or from what the worker has on, are sent, each once and in order. *)
Definition sentOn (ev : releaseEvent) (m m' : Z) (l : list DurableTaskResponse) : Prop :=
  match ev with
  | Arrives _ order resp => if decide (order ≤ m) then l = [resp] ∧ m' = m else consecutive m m' l
  | WorkerHas _ highest => consecutive (Z.max m highest) m' l
  end.

(** A response that is held or sent was held before or has just arrived. *)
Definition fromEvent (ev : releaseEvent) (rel : orderedRelease) (r : DurableTaskResponse) : Prop :=
  (∃ o, or_buffered rel !! o = Some r) ∨ ∃ now o, ev = Arrives now o r.

Lemma consecutive_nil m : consecutive m m [].
Proof. unfold consecutive. by rewrite Z.sub_diag, seqZ_nil. Qed.

Lemma consecutive_cons m m' resp l :
  m + 1 ≤ m' → orderOfResponse resp = Some (m + 1) → consecutive (m + 1) m' l → consecutive m m' (resp :: l).
Proof.
  unfold consecutive. intros Hm Hr Hl. rewrite fmap_cons, Hr, Hl. rewrite (seqZ_cons (m + 1)) by lia. rewrite fmap_cons. do 3 f_equal; lia.
Qed.

Lemma accept_spec now order resp rel :
  relOk rel → orderOfResponse resp = Some order →
  let '(l, rel') := accept now order resp rel in
  let ev := Arrives now order resp in
  relOk rel' ∧ sentOn ev (or_maxSent rel) (or_maxSent rel') l ∧ or_maxSent rel ≤ or_maxSent rel' ∧
  (∀ o, seen rel' o ↔ seen rel o ∨ known ev o) ∧
  (∀ r, r ∈ l → fromEvent ev rel r) ∧ (∀ o r, or_buffered rel' !! o = Some r → fromEvent ev rel r).
Proof.
  intros Hok Hresp. unfold accept. cbn [or_maxSent or_buffered or_oldestBufferedAt or_lastActivityAt].
  destruct (Z.leb_spec order (or_maxSent rel)) as [Hle|Hgt].
  { split_and!; [done|cbn; by rewrite decide_True|done| |intros r ->%list_elem_of_singleton; right; eauto|intros o r Hr; left; eauto].
    intros o. unfold seen. cbn. split; [auto|]. intros [?| ->]; [done|by left]. }
  assert (∀ m' l, consecutive (or_maxSent rel) m' l → sentOn (Arrives now order resp) (or_maxSent rel) m' l) as Hnext
    by (intros m' l Hl; cbn; by rewrite decide_False by lia).
  destruct (Z.eqb_spec order (or_maxSent rel + 1)) as [->|Hne].
  { pose proof (takeReleasable_spec (Release (or_maxSent rel + 1) (or_buffered rel) (or_oldestBufferedAt rel) now)) as Ht.
    cbn [or_maxSent or_buffered or_oldestBufferedAt or_lastActivityAt] in Ht. destruct (takeReleasable _) as [l rel'].
    destruct Ht as (Hok' & Hin & Hle & Hseen & Hl & Hsub).
    { intros o r Hr. apply Hok in Hr as [? ?]. split; [lia|done]. }
    split_and!; [done|by apply Hnext, consecutive_cons|lia| | |].
    - intros o. rewrite Hseen. unfold seen. cbn. destruct (decide (o = or_maxSent rel + 1)) as [->|]; [split; auto; intros _; left; lia|].
      split; [intros [?|?]; [left; left; lia|auto]|intros [[?|?]|?]; [left; lia|auto|done]].
    - intros r [->|Hr]%elem_of_cons; [right; eauto|left; auto].
    - intros o r Hr. left. exists o. by eapply lookup_weaken. }
  destruct (or_buffered rel !! order) as [r|] eqn:Hr.
  { split_and!; [done|apply Hnext, consecutive_nil|done| |by intros r' ?%elem_of_nil|intros o r' Hr'; left; eauto].
    intros o. unfold seen. cbn. split; [auto|]. intros [?| ->]; [done|]. eauto. }
  split_and!; [|apply Hnext, consecutive_nil|done| |by intros r' ?%elem_of_nil|].
  - intros o r'. cbn. intros [[<- <-]|[_ Hr']]%lookup_insert_Some; [split; [lia|done]|by apply Hok].
  - intros o. unfold seen. cbn. destruct (decide (o = order)) as [->|Ho].
    + rewrite lookup_insert_eq. split; [by right|eauto].
    + rewrite lookup_insert_ne by done. split; [auto|]. intros [?|?]; done.
  - intros o r'. cbn. intros [[<- <-]|[_ Hr']]%lookup_insert_Some; [right; eauto|left; eauto].
Qed.

(** ** One session *)

Lemma sendAll_ok l s :
  s_closed s = false → sendAll (λ _, false) l s = (true, Session false (s_releases s) (s_sent s ++ l)).
Proof.
  revert s. induction l as [|r l IH]; intros s Hs; cbn [sendAll].
  - rewrite app_nil_r. destruct s as [c rs sent]. cbn in *. by subst.
  - rewrite Hs. cbn [orb]. rewrite IH by done. cbn. by rewrite <- app_assoc.
Qed.

(** The session has no release of the task but this one. *)
Definition onlyRelease (key : orderedReleaseKey) (s : durableTaskInvocation) : Prop :=
  ∀ k, is_Some (s_releases s !! k) → k.1 = key.1 → k = key.

Definition relOf (key : orderedReleaseKey) (s : durableTaskInvocation) : orderedRelease :=
  default (Release 0 ∅ 0 0) (s_releases s !! key).

Lemma dropOlder_none key keys rs : (∀ k, k ∈ keys → k.1 ≠ key.1) → dropOlder key keys rs = (false, rs).
Proof.
  induction keys as [|k keys IH]; intros Hk; cbn [dropOlder]; [done|].
  rewrite bool_decide_false by (apply Hk; by left). cbn. apply IH. intros. apply Hk. by right.
Qed.

Lemma getRelease_only now key s :
  onlyRelease key s → ∃ rel rs, getRelease now key (s_releases s) = (Some rel, rs) ∧
    or_maxSent rel = or_maxSent (relOf key s) ∧ or_buffered rel = or_buffered (relOf key s) ∧
    rs !! key = Some rel ∧ ∀ k, is_Some (rs !! k) → k.1 = key.1 → k = key.
Proof.
  intros Honly. unfold getRelease, relOf. destruct (s_releases s !! key) as [rel|] eqn:Hk.
  - exists rel, (s_releases s). split_and!; try done.
  - rewrite dropOlder_none.
    + eexists _, _. split_and!; [done..|by rewrite lookup_insert_eq|]. intros k Hs Hk1. destruct (decide (k = key)) as [->|Hne]; [done|].
      rewrite lookup_insert_ne in Hs by done. by apply Honly.
    + intros k ([k' rel] & -> & Hin%elem_of_map_to_list)%list_elem_of_fmap Heq. cbn in Heq.
      assert (k' = key) as -> by (apply Honly; eauto). congruence.
Qed.

Definition releaseStep (key : orderedReleaseKey) (s : durableTaskInvocation) (ev : releaseEvent) : durableTaskInvocation :=
  match ev with
  | Arrives now order resp => (deliverOrdered now (λ _, false) key (Some order) resp s).2
  | WorkerHas now highest => (resumeOrderedRelease now (λ _, false) key highest s).2
  end.

Lemma onlyRelease_insert (key : orderedReleaseKey) (rel : orderedRelease) (rs : gmap orderedReleaseKey orderedRelease) (sent : list DurableTaskResponse) :
  (∀ k, is_Some (rs !! k) → k.1 = key.1 → k = key) →
  onlyRelease key (Session false (<[key := rel]> rs) sent) ∧ relOf key (Session false (<[key := rel]> rs) sent) = rel.
Proof.
  intros Hrs. unfold onlyRelease, relOf. cbn. rewrite lookup_insert_eq. split; [|done].
  intros k Hk Hk1. destruct (decide (k = key)) as [->|]; [done|]. rewrite lookup_insert_ne in Hk by done. by apply Hrs.
Qed.

Lemma step_spec key s ev :
  s_closed s = false → onlyRelease key s → relOk (relOf key s) → eventOk ev →
  let s' := releaseStep key s ev in
  s_closed s' = false ∧ onlyRelease key s' ∧ relOk (relOf key s') ∧
  (∃ sent, s_sent s' = s_sent s ++ sent ∧ sentOn ev (or_maxSent (relOf key s)) (or_maxSent (relOf key s')) sent ∧
    ∀ r, r ∈ sent → fromEvent ev (relOf key s) r) ∧
  (∀ o, seen (relOf key s') o ↔ seen (relOf key s) o ∨ known ev o) ∧
  (∀ o r, or_buffered (relOf key s') !! o = Some r → fromEvent ev (relOf key s) r).
Proof.
  intros Hcl Honly Hok Hev. destruct ev as [now order resp|now highest]; cbn [releaseStep].
  - unfold deliverOrdered. destruct (getRelease_only now key s Honly) as (rel & rs & -> & Hm & Hb & Hrs & Honly').
    assert (relOk rel) as Hokr by (unfold relOk; by rewrite Hm, Hb).
    pose proof (accept_spec now order resp rel Hokr Hev) as Ha. destruct (accept now order resp rel) as [l rel'].
    destruct Ha as (Hok' & Hin & _ & Hseen & Hl & Hheld). rewrite sendAll_ok by done. cbn [snd set_release set_releases s_closed s_releases s_sent].
    destruct (onlyRelease_insert key rel' rs (s_sent s ++ l) Honly') as [Ho ->].
    unfold fromEvent, seen in *. rewrite Hb in Hl, Hheld. rewrite Hm in Hin. setoid_rewrite Hm in Hseen. setoid_rewrite Hb in Hseen. by eauto 10.
  - unfold resumeOrderedRelease. destruct (getRelease_only now key s Honly) as (rel & rs & -> & Hm & Hb & Hrs & Honly').
    assert (relOk rel) as Hokr by (unfold relOk; by rewrite Hm, Hb). unfold fromEvent, seen. cbn [sentOn known]. rewrite <- Hm, <- Hb.
    destruct (Z.leb_spec highest (or_maxSent rel)) as [Hle|Hgt].
    + cbn [snd set_releases s_closed s_releases s_sent]. assert (relOf key (set_releases rs s) = rel) as Hr by (unfold relOf; cbn; by rewrite Hrs).
      rewrite Hr. split_and!; [done|done|done| |intros o; split; [auto|intros [?|?]; [done|left; lia]]|by eauto].
      exists []. rewrite app_nil_r, Z.max_l by done. split_and!; [done|apply consecutive_nil|by intros r ?%elem_of_nil].
    + pose proof (takeReleasable_spec (Release highest (filter (λ ob, highest < ob.1) (or_buffered rel)) (or_oldestBufferedAt rel) (or_lastActivityAt rel))) as Ht.
      cbn [or_maxSent or_buffered or_oldestBufferedAt or_lastActivityAt] in Ht. destruct (takeReleasable _) as [l rel'].
      destruct Ht as (Hok' & Hin & Hle & Hseen & Hl & Hsub).
      { intros o r [Hr Hlt]%map_lookup_filter_Some. cbn in Hlt. split; [done|]. by apply Hokr in Hr as [_ ?]. }
      rewrite sendAll_ok by done. cbn [snd set_release set_releases s_closed s_releases s_sent].
      destruct (onlyRelease_insert key rel' rs (s_sent s ++ l) Honly') as [Ho ->]. rewrite Z.max_r by lia. split_and!; [done..| | |].
      * exists l. split_and!; [done..|]. intros r [o [Hr _]%map_lookup_filter_Some]%Hl. eauto.
      * intros o. unfold seen in Hseen. rewrite Hseen. cbn. split.
        -- intros [?|[r [Hr _]%map_lookup_filter_Some]]; [by right|left; right; eauto].
        -- intros [[?|[r Hr]]|?]; [left; lia| |by left]. destruct (decide (highest < o)); [right|left; lia].
           exists r. by apply map_lookup_filter_Some.
      * intros o r Hr. left. exists o. eapply lookup_weaken in Hr; [|exact Hsub]. by apply map_lookup_filter_Some in Hr as [? _].
Qed.

(** ** A run of events *)

Definition arrived (evs : list releaseEvent) (o : Z) : Prop := ∃ now resp, Arrives now o resp ∈ evs.
Definition reported (evs : list releaseEvent) (h : Z) : Prop := ∃ now, WorkerHas now h ∈ evs.
Definition covered (evs : list releaseEvent) (o : Z) : Prop := arrived evs o ∨ ∃ h, reported evs h ∧ o ≤ h.

(** How far a run of events gets: the first order after it neither arrived nor was reported. *)
Definition frontier (evs : list releaseEvent) (m : Z) : Prop :=
  0 ≤ m ∧ (∀ o, 1 ≤ o ≤ m → covered evs o) ∧ ¬ covered evs (m + 1).

Definition runOf (key : orderedReleaseKey) (evs : list releaseEvent) : durableTaskInvocation :=
  foldl (releaseStep key) (Session false ∅ []) evs.

Lemma covered_alt evs o : covered evs o ↔ ∃ ev, ev ∈ evs ∧ known ev o.
Proof.
  split.
  - intros [(now & resp & Hev)|(h & [now Hev] & Hle)]; by eexists.
  - intros ([now order resp|now h] & Hev & Hk); cbn in Hk; [left; subst; by exists now, resp|right; exists h; split; [by exists now|done]].
Qed.

Lemma frontier_unique evs m m' : frontier evs m → frontier evs m' → m = m'.
Proof.
  intros (H0 & Hc & Hn) (H0' & Hc' & Hn'). destruct (Z.lt_trichotomy m m') as [Hlt|[?|Hlt]]; [|done|].
  - destruct Hn. apply Hc'. lia.
  - destruct Hn'. apply Hc. lia.
Qed.

(** What holds of the release of the task after a run of events. *)
Record runOk (key : orderedReleaseKey) (evs : list releaseEvent) : Prop := {
  ro_open : s_closed (runOf key evs) = false;
  ro_only : onlyRelease key (runOf key evs);
  ro_rel : relOk (relOf key (runOf key evs));
  ro_seen : ∀ o, seen (relOf key (runOf key evs)) o ↔ o ≤ 0 ∨ covered evs o;
  ro_held : ∀ o r, or_buffered (relOf key (runOf key evs)) !! o = Some r → ∃ now o', Arrives now o' r ∈ evs;
}.

Lemma runOf_snoc key evs ev : runOf key (evs ++ [ev]) = releaseStep key (runOf key evs) ev.
Proof. unfold runOf. by rewrite foldl_app. Qed.

Lemma run_ok key evs : Forall eventOk evs → runOk key evs.
Proof.
  induction evs as [|ev evs IH] using rev_ind; [intros _|intros [Hevs Hev]%Forall_app].
  - split; [done|intros k [r Hr]; done|by intros o r| |by intros o r]. intros o. rewrite covered_alt. change (relOf key (runOf key [])) with (Release 0 ∅ 0 0). unfold seen. cbn [or_maxSent or_buffered]. rewrite lookup_empty.
    split; [intros [?|[? ?]]; [by left|done]|intros [?|(ev & Hev & _)]; [by left|by apply elem_of_nil in Hev]].
  - destruct (IH Hevs) as [Hcl Honly Hok Hseen Hheld]. rewrite Forall_singleton in Hev.
    destruct (step_spec key (runOf key evs) ev Hcl Honly Hok Hev) as (Hcl' & Honly' & Hok' & _ & Hseen' & Hheld').
    split; rewrite runOf_snoc; [done..| |].
    + intros o. rewrite Hseen', Hseen, !covered_alt. setoid_rewrite elem_of_app. setoid_rewrite list_elem_of_singleton. naive_solver.
    + intros o r [(o' & (now & o'' & Hin)%Hheld)|(now & o' & ->)]%Hheld'; [exists now, o''|exists now, o']; rewrite elem_of_app; [by left|].
      right. by apply list_elem_of_singleton.
Qed.

Lemma run_frontier key evs : Forall eventOk evs → frontier evs (or_maxSent (relOf key (runOf key evs))).
Proof.
  intros [_ _ Hok Hseen _]%(run_ok key). set (m := or_maxSent _). assert (0 ≤ m) as H0.
  { assert (seen (relOf key (runOf key evs)) 0) as [?|[r Hr]] by (apply Hseen; by left); [done|].
    destruct (Hok _ _ Hr) as [Hlt _]. fold m in Hlt.
    assert (seen (relOf key (runOf key evs)) (m + 1)) as [Hle|[r' Hr']] by (apply Hseen; left; lia); [fold m in Hle; lia|].
    apply Hok in Hr' as [Hlt' _]. fold m in Hlt'. lia. }
  split_and!; [done| |].
  - intros o Ho. assert (seen (relOf key (runOf key evs)) o) as Hs by (left; fold m; lia). apply Hseen in Hs as [?|?]; [lia|done].
  - intros Hc. assert (seen (relOf key (runOf key evs)) (m + 1)) as [Hle|[r Hr]] by (apply Hseen; by right); [fold m in Hle; lia|].
    apply Hok in Hr as [Hlt _]. fold m in Hlt. lia.
Qed.

Lemma run_held key evs o :
  Forall eventOk evs →
  is_Some (or_buffered (relOf key (runOf key evs)) !! o) ↔ arrived evs o ∧ or_maxSent (relOf key (runOf key evs)) < o.
Proof.
  intros Hevs. destruct (run_frontier key evs Hevs) as (H0 & _ & Hgap). destruct (run_ok key evs Hevs) as [_ _ Hok Hseen _].
  set (m := or_maxSent _) in *.
  assert (∀ h, reported evs h → h ≤ m) as Hrep.
  { intros h Hh. destruct (decide (h ≤ m)) as [|Hgt]; [done|]. destruct Hgap. right. exists h. split; [done|lia]. }
  split.
  - intros Hb. assert (m < o) as Hlt by (destruct Hb as [r Hr]; apply Hok in Hr as [? _]; unfold m; lia). split; [|done].
    assert (seen (relOf key (runOf key evs)) o) as Hso by by right. apply Hseen in Hso as [?|[?|(h & Hh%Hrep & Hle)]]; [lia|done|lia].
  - intros [Ha Hlt]. assert (seen (relOf key (runOf key evs)) o) as [Hle|?] by (apply Hseen; right; by left); [unfold m in Hlt; lia|done].
Qed.

Lemma run_sends key evs ev :
  Forall eventOk (evs ++ [ev]) →
  ∃ sent, s_sent (runOf key (evs ++ [ev])) = s_sent (runOf key evs) ++ sent ∧
    sentOn ev (or_maxSent (relOf key (runOf key evs))) (or_maxSent (relOf key (runOf key (evs ++ [ev])))) sent ∧
    ∀ r, r ∈ sent → ∃ now o, Arrives now o r ∈ evs ++ [ev].
Proof.
  intros [Hevs Hev]%Forall_app. rewrite Forall_singleton in Hev. destruct (run_ok key evs Hevs) as [Hcl Honly Hok _ Hheld]. rewrite runOf_snoc.
  destruct (step_spec key (runOf key evs) ev Hcl Honly Hok Hev) as (_ & _ & _ & (sent & Hs & Hon & Hfrom) & _). exists sent. split_and!; [done..|].
  intros r [(o & (now & o' & Hin)%Hheld)|(now & o & ->)]%Hfrom; [exists now, o'|exists now, o]; rewrite elem_of_app; [by left|].
  right. by apply list_elem_of_singleton.
Qed.

(** C28: a session sends the completions of a task in the order they were satisfied.  After any completions and reports of
    the worker, in any order, the last order sent is the frontier, the session holds exactly what arrived beyond it, and the
    next event sends exactly this: a completion at or below the frontier once more; otherwise the completions that arrived
    for the orders from the frontier, or from what the worker reported, up to the new frontier, each once and in order. *)
Theorem released_in_order (key : orderedReleaseKey) (evs : list releaseEvent) (ev : releaseEvent) :
  Forall eventOk (evs ++ [ev]) →
  let m := or_maxSent (relOf key (runOf key evs)) in
  let m' := or_maxSent (relOf key (runOf key (evs ++ [ev]))) in
  frontier evs m ∧ frontier (evs ++ [ev]) m' ∧
  (∀ o, is_Some (or_buffered (relOf key (runOf key evs)) !! o) ↔ arrived evs o ∧ m < o) ∧
  ∃ sent, s_sent (runOf key (evs ++ [ev])) = s_sent (runOf key evs) ++ sent ∧ sentOn ev m m' sent ∧
    ∀ r, r ∈ sent → ∃ now o, Arrives now o r ∈ evs ++ [ev].
Proof.
  intros Hevs m m'. pose proof (proj1 (proj1 (Forall_app _ _ _) Hevs)) as Hevs'. split_and!; [by apply run_frontier..|by intros; apply run_held|].
  by apply run_sends.
Qed.

(** Three completions arrive in the wrong order and one of them twice, after the worker reported the first. *)
Definition exampleDone (o : Z) : DurableTaskResponse := EntryCompleted (Completed 7 1 (1, o) "" (Some o) false None).
Definition exampleEvents : list releaseEvent :=
  [WorkerHas 1 1; Arrives 2 4 (exampleDone 4); Arrives 3 3 (exampleDone 3); Arrives 4 4 (exampleDone 4); Arrives 5 2 (exampleDone 2)].

Lemma released_in_order_witness :
  let before := runOf (7, 1) [WorkerHas 1 1; Arrives 2 4 (exampleDone 4); Arrives 3 3 (exampleDone 3); Arrives 4 4 (exampleDone 4)] in
  s_sent before = [] ∧
  ∃ sent, s_sent (runOf (7, 1) exampleEvents) = s_sent before ++ sent ∧ consecutive 1 4 sent.
Proof.
  intros before. split; [vm_compute; reflexivity|].
  destruct (released_in_order (7, 1) [WorkerHas 1 1; Arrives 2 4 (exampleDone 4); Arrives 3 3 (exampleDone 3); Arrives 4 4 (exampleDone 4)]
    (Arrives 5 2 (exampleDone 2))) as (_ & _ & _ & sent & Hs & Hon & _); [repeat constructor|].
  exists sent. split; [exact Hs|]. exact Hon.
Defined.

(** ** Any session *)

(** One release per task, and what a release holds follows a gap. *)
Record sessionOk (s : durableTaskInvocation) : Prop := {
  so_one : ∀ k k', is_Some (s_releases s !! k) → is_Some (s_releases s !! k') → k.1 = k'.1 → k = k';
  so_rel : ∀ k rel, s_releases s !! k = Some rel → relOk rel;
}.

Definition releasesOk (rs : gmap orderedReleaseKey orderedRelease) : Prop :=
  (∀ k k', is_Some (rs !! k) → is_Some (rs !! k') → k.1 = k'.1 → k = k') ∧ (∀ k rel, rs !! k = Some rel → relOk rel).

Lemma sessionOk_alt s : sessionOk s ↔ releasesOk (s_releases s).
Proof. split; [intros [? ?]; by split|intros [? ?]; by split]. Qed.

Lemma releasesOk_subseteq rs rs' : rs' ⊆ rs → releasesOk rs → releasesOk rs'.
Proof.
  intros Hsub [H1 Hr]. split.
  - intros k k' [r Hk] [r' Hk']. apply H1; eauto using lookup_weaken.
  - intros k rel Hk. eapply Hr. by eapply lookup_weaken.
Qed.

Lemma dropOlder_spec key keys rs :
  (dropOlder key keys rs).2 ⊆ rs ∧
  ((dropOlder key keys rs).1 = false → ∀ k : orderedReleaseKey, k ∈ keys → k.1 = key.1 → (dropOlder key keys rs).2 !! k = None).
Proof.
  revert rs. induction keys as [|k keys IH]; intros rs; cbn [dropOlder].
  { split; [done|]. by intros _ k ?%elem_of_nil. }
  case_bool_decide as Hk; cbn [negb].
  - destruct (_ <? _); [split; [done|discriminate]|]. destruct (IH (delete k rs)) as [Hsub Hnone]. split.
    + etrans; [exact Hsub|apply delete_subseteq].
    + intros Hf k' [->|Hk']%elem_of_cons Heq; [|by apply Hnone]. apply eq_None_not_Some. intros [r Hl].
      eapply lookup_weaken in Hl; [|exact Hsub]. by rewrite lookup_delete_eq in Hl.
  - destruct (IH rs) as [Hsub Hnone]. split; [done|]. intros Hf k' [->|Hk']%elem_of_cons Heq; [done|by apply Hnone].
Qed.

Lemma getRelease_ok now key rs :
  releasesOk rs → let '(o, rs') := getRelease now key rs in
  releasesOk rs' ∧ match o with Some rel => relOk rel ∧ rs' !! key = Some rel | None => True end.
Proof.
  intros Hok. unfold getRelease. destruct (rs !! key) as [rel|] eqn:Hk.
  { split; [done|]. split; [by eapply Hok|done]. }
  pose proof (dropOlder_spec key (map_to_list rs).*1 rs) as [Hsub Hnone]. destruct (dropOlder _ _ rs) as [replaced rs']. cbn in Hsub, Hnone.
  pose proof (releasesOk_subseteq _ _ Hsub Hok) as [H1 Hr]. destruct replaced; [by split|]. specialize (Hnone eq_refl).
  assert (∀ k, is_Some (rs' !! k) → k.1 ≠ key.1) as Hother.
  { intros k [r Hkr] Heq. rewrite Hnone in Hkr; [done| |done]. apply (list_elem_of_fmap_2 fst _ (k, r)), elem_of_map_to_list.
    by eapply lookup_weaken. }
  split; [split|split; [by intros o r|by rewrite lookup_insert_eq]].
  - intros k k' Hk1 Hk2 Heq. destruct (decide (k = key)) as [->|Hne1], (decide (k' = key)) as [->|Hne2]; [done|..].
    + rewrite lookup_insert_ne in Hk2 by done. by apply Hother in Hk2.
    + rewrite lookup_insert_ne in Hk1 by done. by apply Hother in Hk1.
    + rewrite lookup_insert_ne in Hk1 by done. rewrite lookup_insert_ne in Hk2 by done. by apply H1.
  - intros k rel [[<- <-]|[_ Hk']]%lookup_insert_Some; [by intros o r|by eapply Hr].
Qed.

Lemma releasesOk_insert rs key rel rel' : releasesOk rs → rs !! key = Some rel → relOk rel' → releasesOk (<[key := rel']> rs).
Proof.
  intros [H1 Hr] Hk Hok. split.
  - intros k k' Hk1 Hk2. apply H1; [destruct (decide (k = key)) as [->|]; [by eauto|by rewrite lookup_insert_ne in Hk1]|].
    destruct (decide (k' = key)) as [->|]; [by eauto|by rewrite lookup_insert_ne in Hk2].
  - intros k r [[<- <-]|[_ Hkr]]%lookup_insert_Some; [done|by eapply Hr].
Qed.

Lemma sendAll_releases fails l s : s_releases (sendAll fails l s).2 = s_releases s.
Proof. revert s. induction l as [|r l IH]; intros s; cbn [sendAll]; [done|]. destruct (_ || _); [done|]. by rewrite IH. Qed.

Lemma deliver_ok now fails key order resp s :
  sessionOk s → (∀ o, order = Some o → orderOfResponse resp = Some o) → sessionOk (deliverOrdered now fails key order resp s).2.
Proof.
  rewrite !sessionOk_alt. intros Hok Hresp. unfold deliverOrdered. destruct order as [o|]; [|by rewrite sendAll_releases].
  pose proof (getRelease_ok now key _ Hok) as Hg. destruct (getRelease now key (s_releases s)) as [[rel|] rs]; [|by rewrite sendAll_releases; apply Hg].
  destruct Hg as (Hrs & Hrel & Hk). pose proof (accept_spec now o resp rel Hrel (Hresp o eq_refl)) as Ha.
  destruct (accept now o resp rel) as [l rel']. destruct Ha as (Hrel' & _). rewrite sendAll_releases. cbn. by eapply releasesOk_insert.
Qed.

Lemma resume_ok now fails key highest s : sessionOk s → sessionOk (resumeOrderedRelease now fails key highest s).2.
Proof.
  rewrite !sessionOk_alt. intros Hok. unfold resumeOrderedRelease.
  pose proof (getRelease_ok now key _ Hok) as Hg. destruct (getRelease now key (s_releases s)) as [[rel|] rs]; [|by apply Hg].
  destruct Hg as (Hrs & Hrel & Hk). destruct (_ <=? _) eqn:Hle; [done|]. apply Z.leb_gt in Hle.
  pose proof (takeReleasable_spec (Release highest (filter (λ ob, highest < ob.1) (or_buffered rel)) (or_oldestBufferedAt rel) (or_lastActivityAt rel))) as Ht.
  destruct (takeReleasable _) as [l rel']. destruct Ht as (Hrel' & _).
  { intros o r [Hr Hlt]%map_lookup_filter_Some. split; [done|]. by apply Hrel in Hr as [_ ?]. }
  rewrite sendAll_releases. cbn. by eapply releasesOk_insert.
Qed.

Lemma foldl_ok {A} (g : durableTaskInvocation → A → durableTaskInvocation) l s :
  (∀ s a, sessionOk s → sessionOk (g s a)) → sessionOk s → sessionOk (foldl g s l).
Proof. intros Hg. revert s. induction l as [|a l IH]; intros s Hs; cbn; [done|]. apply IH. by apply Hg. Qed.

Lemma send_ok fails l s : sessionOk s → sessionOk (sendAll fails l s).2.
Proof. rewrite !sessionOk_alt. by rewrite sendAll_releases. Qed.

Lemma entry_ok now fails task inv ref payload order failure message s :
  sessionOk s → sessionOk (deliverEntry now fails task inv ref payload order failure message s).2.
Proof. intros Hs. apply deliver_ok; [done|]. intros o ->. done. Qed.

Lemma clear_ok key s : sessionOk s → sessionOk (clearRelease key s).
Proof. rewrite !sessionOk_alt. apply releasesOk_subseteq, delete_subseteq. Qed.

Lemma status_ok now V onOperator session req routes s :
  sessionOk s → sessionOk (handleWorkerStatus now V onOperator session req routes s).2.
Proof.
  intros Hs. unfold handleWorkerStatus. set (s1 := foldl _ s (ws_ReceivedSatisfiedOrders req)).
  assert (sessionOk s1) as Hs1 by (apply foldl_ok; [intros; by apply resume_ok|done]).
  destruct (ws_WaitingEntries req) as [|e entries]; [done|]. destruct (v_counts V _) as [current|]; [|done].
  set (s2 := foldl _ s1 _). assert (sessionOk s2) as Hs2 by (apply foldl_ok; [intros; by apply send_ok|done]).
  destruct (v_satisfied V _) as [events|]; [|done]. cbn [snd]. set (s3 := foldl _ s2 events).
  assert (sessionOk s3) as Hs3 by (apply foldl_ok; [intros; by apply entry_ok|done]).
  set (s4 := if onOperator then _ else s3).
  assert (sessionOk s4) as Hs4.
  { unfold s4. destruct onOperator; [|done]. apply foldl_ok; [|done]. intros s' a Hs'. unfold evictIdle.
    destruct (_ || _); [done|]. destruct (v_evicts V a) as [[]|]; [by apply send_ok|done..]. }
  assert (sessionOk (evictTimedOutOrderedReleases now (v_evicts V) (v_fails V) s4)) as Hs5.
  { unfold evictTimedOutOrderedReleases. apply foldl_ok; [|done]. intros s' a Hs'. unfold evictTimedOut.
    destruct (v_evicts V (to_key a)) as [[]|]; [by apply clear_ok, send_ok|by apply clear_ok|done]. }
  revert Hs5. rewrite !sessionOk_alt. apply releasesOk_subseteq. cbn. apply map_filter_subseteq.
Qed.

(** What happens to a session: completions are delivered and statuses handled, with sends and the database failing in
    any way, until it is closed. *)
Inductive sessionReachable : durableTaskInvocation → Prop :=
  | sr_open : sessionReachable (Session false ∅ [])
  | sr_deliver now fails e s :
      sessionReachable s → sessionReachable (deliverEntry now fails (se_task e) (se_invocationCount e) (se_ref e) (se_result e)
        (se_order e) (se_failure e) (se_message e) s).2
  | sr_status now V onOperator session req routes s :
      sessionReachable s → sessionReachable (handleWorkerStatus now V onOperator session req routes s).2
  | sr_close s : sessionReachable s → sessionReachable (Session true (s_releases s) (s_sent s)).

Lemma reachable_ok s : sessionReachable s → sessionOk s.
Proof.
  induction 1 as [|now fails e s _ IH|now V op n req routes s _ IH|s _ IH].
  - split; [by intros k k' [? ?]|done].
  - by apply entry_ok.
  - by apply status_ok.
  - by destruct IH.
Qed.

(** A task is given up only for a gap: in any state a session can get into, a release that has timed out is the only
    one of its task, holds something, and waits for an order that it does not hold and that comes before all it holds. *)
Theorem timed_out_has_gap (s : durableTaskInvocation) (now timeout : Z) (a b : timedOutOrderedRelease) :
  sessionReachable s → a ∈ timedOutOrderedReleases now timeout s →
  to_held a ≠ [] ∧ Forall (λ o, to_missing a < o) (to_held a) ∧
  (b ∈ timedOutOrderedReleases now timeout s → (to_key a).1 = (to_key b).1 → a = b).
Proof.
  intros [H1 Hr]%reachable_ok Ha.
  assert (∀ x, x ∈ timedOutOrderedReleases now timeout s → ∃ rel, s_releases s !! to_key x = Some rel ∧ or_buffered rel ≠ ∅ ∧
    x = TimedOut (to_key x) (or_maxSent rel + 1) (merge_sort Z.le (elements (dom (or_buffered rel))))) as Hx.
  { intros x ([k rel] & Hin%elem_of_map_to_list & Hx)%list_elem_of_omap. cbn [fst snd] in Hx.
    destruct (hasTimedOut now timeout rel) eqn:Ht; [|done]. injection Hx as <-. exists rel. cbn. split_and!; [done| |done].
    unfold hasTimedOut in Ht. intros He. rewrite bool_decide_true in Ht by done. done. }
  destruct (Hx a Ha) as (rel & Hk & Hne & Heq). split_and!.
  - rewrite Heq. cbn. intros Hnil. apply Hne, (dom_empty_inv_L (D := gset Z)), leibniz_equiv, elements_empty_iff, Permutation_nil_r.
    by rewrite <- Hnil, merge_sort_Permutation.
  - rewrite Heq. cbn. rewrite merge_sort_Permutation. apply Forall_forall. intros o [r Ho]%elem_of_elements%elem_of_dom.
    by apply (Hr _ _ Hk) in Ho as [? _].
  - intros Hb Hsame. destruct (Hx b Hb) as (rel' & Hk' & _ & Heq'). assert (to_key a = to_key b) as Hkk by (apply H1; eauto).
    rewrite Heq, Heq'. rewrite Hkk in Hk |- *. congruence.
Qed.

(** One completion arrives too early and is given up for after the timeout. *)
Lemma timed_out_has_gap_witness :
  let s := (deliverEntry 5 (λ _, false) 7 1 (1, 1) "r" (Some 2) false None (Session false ∅ [])).2 in
  let t := TimedOut (7, 1) 1 [2] in
  t ∈ timedOutOrderedReleases 70 60 s ∧ to_held t ≠ [] ∧ Forall (λ o, to_missing t < o) (to_held t).
Proof.
  intros s t. assert (t ∈ timedOutOrderedReleases 70 60 s) as Hin by (vm_compute; left). split; [exact Hin|].
  assert (sessionReachable s) as Hs by exact (sr_deliver 5 (λ _, false) (SatisfiedEvent 7 1 (1, 1) "r" (Some 2) false None) _ sr_open).
  destruct (timed_out_has_gap s 70 60 t t Hs Hin) as (H1 & H2 & _). split; assumption.
Defined.

(** The time of the oldest completion held stays when that completion is released and another is still held: a
    completion held for 12 seconds is given up for, with a timeout of 60. *)
Theorem held_briefly_given_up :
  let deliver now o s := (deliverEntry now (λ _, false) 7 1 (1, o) "r" (Some o) false None s).2 in
  let s := deliver 51 2 (deliver 51 1 (deliver 50 5 (deliver 1 3 (Session false ∅ [])))) in
  omap orderOfResponse (s_sent s) = [1; 2; 3] ∧
  timedOutOrderedReleases 62 durableOrderedReleaseGapTimeout s = [TimedOut (7, 1) 4 [5]].
Proof. vm_compute. split; reflexivity. Qed.

End ReleaseTheorems.
