(* ===== verification/OrderTheorems.v ===== *)
(** The order numbers of a log and what they are for: the numbers have no gap and are on the active branch, so a session
    that is given the completions of a log delivers all of them, in the order they were satisfied.  A fork from an
    earlier place leaves a gap. *)

From S2P Require Import Prelude Workers LogTables EventLog EventLogOps EventLogTheorems ReplayPlan ReplayAnswer.
From S2P Require Import ReplayTheorems SatisfiedOrder OrderInvariant OrderedRelease ReleaseTheorems.
From stdpp Require Import pretty.
Import Workers LogTables EventLog EventLogOps EventLogTheorems ReplayPlan ReplayAnswer.
Import ReplayTheorems SatisfiedOrder OrderInvariant OrderedRelease ReleaseTheorems.

Module OrderTheorems.

Open Scope Z_scope.

Section orders.
Context `{Params}.

Lemma orderOf_Some t k o : OrderInvariant.orderOf t k = Some o ↔ ∃ e, t_entries t !! k = Some e ∧ e_SatisfiedOrder e = Some o.
Proof. unfold OrderInvariant.orderOf. destruct (t_entries t !! k); cbn; naive_solver. Qed.

(** C14: the order of satisfied entries has no gap: in every log that requests, completions, invocations and forks of the
    latest branch at or past its first node can lead to, the numbers are 1 up to the latest one, each on one entry; a
    numbered entry is satisfied and on the active branch, and every satisfied entry of the active branch but a memo is
    numbered. *)
Theorem orders_without_gap (task : Z) (t : taskLog) :
  logReachable task t →
  ∃ f, t_file t = Some f ∧
    (∀ o, 1 ≤ o ≤ f_LatestSatisfiedOrder f ↔ ∃ k e, t_entries t !! k = Some e ∧ e_SatisfiedOrder e = Some o) ∧
    (∀ k k' e e' o, t_entries t !! k = Some e → t_entries t !! k' = Some e' →
      e_SatisfiedOrder e = Some o → e_SatisfiedOrder e' = Some o → k = k') ∧
    (∀ k e, t_entries t !! k = Some e → is_Some (e_SatisfiedOrder e) → e_IsSatisfied e = true ∧ branchOf t f k.2 = k.1) ∧
    (∀ k e, t_entries t !! k = Some e → e_IsSatisfied e = true → e_Kind e ≠ MEMO → branchOf t f k.2 = k.1 →
      is_Some (e_SatisfiedOrder e)).
Proof.
  intros [f Ho]%reachable_order. exists f. pose proof (oo_dense _ _ Ho) as [Hr Hi Hf].
  assert (∀ k e, t_entries t !! k = Some e → pastFork t k = false ↔ branchOf t f k.2 = k.1) as Hlive.
  { intros k e He. destruct (oo_branch _ _ Ho k) as [Hb Hfk]; [by eauto|]. by apply live_iff; [apply Ho|..]. }
  split_and!.
  - apply Ho.
  - intros o. setoid_rewrite <- orderOf_Some. split; [apply Hf|]. intros [k Hk]. by eapply Hr.
  - intros k k' e e' o He He' Heo Heo'. eapply Hi; apply orderOf_Some; eauto.
  - intros k e He Hs. split; [by eapply oo_satisfied|]. apply (Hlive k e He), (oo_live _ _ Ho). destruct Hs as [o Ho'].
    exists o. apply orderOf_Some. eauto.
  - intros k e He Hs Hk Hb. apply (oo_numbered _ _ Ho k e He Hs Hk). by apply (Hlive k e He).
Qed.

(** ** Delivering a log *)

(** The completion of an entry is delivered at a time. *)
Definition deliverRow (ext : uuid) (invocationCount : Z) (s : durableTaskInvocation) (d : Z * V1DurableEventLogEntry) :
    durableTaskInvocation :=
  let e := d.2 in
  (deliverEntry d.1 (λ _, false) ext invocationCount (keyOf e) (e_Result e) (e_SatisfiedOrder e) (e_ChildTaskIsFailure e)
     (e_ChildTaskErrorMessage e) s).2.

Definition rowEvent (ext : uuid) (invocationCount : Z) (d : Z * V1DurableEventLogEntry) : releaseEvent :=
  let e := d.2 in
  Arrives d.1 (default 0 (e_SatisfiedOrder e)) (entryCompletion ext invocationCount (keyOf e) (e_Result e) (e_SatisfiedOrder e)
    (e_ChildTaskIsFailure e) (e_ChildTaskErrorMessage e)).

Lemma deliverRow_event ext inv s ds :
  Forall (λ d, is_Some (e_SatisfiedOrder d.2)) ds →
  foldl (deliverRow ext inv) s ds = foldl (releaseStep (ext, inv)) s (rowEvent ext inv <$> ds) ∧
  Forall eventOk (rowEvent ext inv <$> ds).
Proof.
  revert s. induction ds as [|d ds IH]; intros s; [done|]. intros [[o Ho] Hds]%Forall_cons. cbn [foldl]. rewrite fmap_cons. cbn [foldl].
  assert (deliverRow ext inv s d = releaseStep (ext, inv) s (rowEvent ext inv d)) as -> by (unfold deliverRow, deliverEntry, rowEvent; cbn; by rewrite Ho).
  destruct (IH (releaseStep (ext, inv) s (rowEvent ext inv d)) Hds) as [-> Hev]. split; [done|]. constructor; [|done].
  unfold rowEvent. cbn. by rewrite Ho.
Qed.

(** Sends from a last order to another: each is the next order, or a repeat of one that was sent. *)
Inductive inOrder : Z → list Z → Z → Prop :=
  | io_done m : inOrder m [] m
  | io_repeat m o l m' : 1 ≤ o ≤ m → inOrder m l m' → inOrder m (o :: l) m'
  | io_next m l m' : inOrder (m + 1) l m' → inOrder m (m + 1 :: l) m'.

Lemma inOrder_app m l m1 l' m' : inOrder m l m1 → inOrder m1 l' m' → inOrder m (l ++ l') m'.
Proof. induction 1; intros Hl; cbn; [done|apply io_repeat; auto|apply io_next; auto]. Qed.

Lemma inOrder_seq m n : inOrder m (seqZ (m + 1) (Z.of_nat n)) (m + Z.of_nat n).
Proof.
  revert m. induction n as [|n IH]; intros m.
  - rewrite seqZ_nil by lia. replace (m + Z.of_nat 0) with m by lia. constructor.
  - rewrite seqZ_cons by lia. apply io_next. replace (Z.succ (m + 1)) with (m + 1 + 1) by lia.
    replace (Z.pred (Z.of_nat (S n))) with (Z.of_nat n) by lia. replace (m + Z.of_nat (S n)) with (m + 1 + Z.of_nat n) by lia. apply IH.
Qed.

Lemma inOrder_all m l m' o : inOrder m l m' → m < o ≤ m' → o ∈ l.
Proof.
  induction 1 as [|m o' l m' _ _ IH|m l m' _ IH]; intros Ho; [lia|right; auto|].
  destruct (decide (o = m + 1)) as [->|]; [by left|right; apply IH; lia].
Qed.

Lemma frontier_mono evs evs' m m' : frontier evs m → frontier (evs ++ evs') m' → m ≤ m'.
Proof.
  intros (H0 & Hc & _) (H0' & _ & Hn'). destruct (decide (m ≤ m')) as [|Hgt]; [done|]. destruct Hn'.
  destruct (proj1 (covered_alt _ _) (Hc (m' + 1) ltac:(lia))) as (ev & Hev & Hk). apply covered_alt. exists ev. split; [|done].
  apply elem_of_app. by left.
Qed.

(** Without reports of the worker, completions numbered from 1 are sent in order up to the last one without a gap. *)
Lemma arrivals_in_order key evs :
  Forall eventOk evs → (∀ ev, ev ∈ evs → ∃ now o resp, ev = Arrives now o resp ∧ 1 ≤ o) →
  ∃ orders, orderOfResponse <$> s_sent (runOf key evs) = Some <$> orders ∧
    inOrder 0 orders (or_maxSent (relOf key (runOf key evs))) ∧
    ∀ r, r ∈ s_sent (runOf key evs) → ∃ now o, Arrives now o r ∈ evs.
Proof.
  induction evs as [|ev evs IH] using rev_ind; intros Hevs Harr.
  { exists []. split_and!; [done|constructor|by intros r ?%elem_of_nil]. }
  pose proof (proj1 (proj1 (Forall_app _ _ _) Hevs)) as Hevs'. setoid_rewrite elem_of_app in Harr.
  destruct IH as (orders & Horders & Hin & Hfrom); [done|by auto|].
  destruct (run_sends key evs ev Hevs) as (sent & Hsent & Hon & Hnew). rewrite Hsent.
  destruct (Harr ev) as (now & o & resp & -> & Ho); [right; by apply list_elem_of_singleton|].
  pose proof (frontier_mono _ _ _ _ (run_frontier key evs Hevs') (run_frontier key _ Hevs)) as Hle.
  set (m := or_maxSent (relOf key (runOf key evs))) in *. set (m' := or_maxSent (relOf key (runOf key (evs ++ _)))) in *.
  assert (∃ more, orderOfResponse <$> sent = Some <$> more ∧ inOrder m more m') as (more & Hmore & Hin').
  { cbn in Hon. case_decide as Hom.
    - destruct Hon as [-> ->]. exists [o]. split; [|apply io_repeat; [done|constructor]]. cbn. do 2 f_equal.
      apply Forall_app in Hevs as [_ Hev]. rewrite Forall_singleton in Hev. exact Hev.
    - eexists. split; [exact Hon|]. replace m' with (m + Z.of_nat (Z.to_nat (m' - m))) at 2 by lia.
      replace (m' - m) with (Z.of_nat (Z.to_nat (m' - m))) at 1 by lia. apply inOrder_seq. }
  exists (orders ++ more). rewrite !fmap_app, Horders, Hmore. split_and!; [done|by eapply inOrder_app|].
  intros r [(now' & o' & Hr)%Hfrom|Hr%Hnew]%elem_of_app; [|done]. exists now', o'. apply elem_of_app. by left.
Qed.

Definition completionOf (ext : uuid) (inv : Z) (e : V1DurableEventLogEntry) : DurableTaskResponse :=
  entryCompletion ext inv (keyOf e) (e_Result e) (e_SatisfiedOrder e) (e_ChildTaskIsFailure e) (e_ChildTaskErrorMessage e).

(** C6: every completion of a log reaches the worker, in the order in which the entries were satisfied.  When the numbered
    entries of a log are delivered to a session, in any order and any of them more than once, and the worker reports nothing
    meanwhile, then everything sent is a completion of one of them, each send is the next order after the last one or a
    repeat, the completion of every numbered entry is sent, and nothing is held back. *)
Theorem log_reaches_worker (task : Z) (t : taskLog) (f : V1DurableEventLogFile) (ext : uuid) (inv : Z)
    (ds : list (Z * V1DurableEventLogEntry)) :
  logReachable task t → t_file t = Some f →
  (∀ d, d ∈ ds → d.2 ∈ rows t ∧ is_Some (e_SatisfiedOrder d.2)) →
  (∀ e, e ∈ rows t → is_Some (e_SatisfiedOrder e) → e ∈ ds.*2) →
  let s := foldl (deliverRow ext inv) (Session false ∅ []) ds in
  (∃ orders, orderOfResponse <$> s_sent s = Some <$> orders ∧ inOrder 0 orders (f_LatestSatisfiedOrder f)) ∧
  (∀ r, r ∈ s_sent s ↔ ∃ e, e ∈ rows t ∧ is_Some (e_SatisfiedOrder e) ∧ r = completionOf ext inv e) ∧
  or_buffered (relOf (ext, inv) s) = ∅.
Proof.
  intros [f' Ho]%reachable_order Hf Hds Hall s. assert (f' = f) as -> by (rewrite (oo_file _ _ Ho) in Hf; by injection Hf).
  destruct (deliverRow_event ext inv (Session false ∅ []) ds) as [Hs Hev].
  { apply Forall_forall. intros d Hd. by apply Hds. }
  fold s in Hs. set (evs := rowEvent ext inv <$> ds) in *. change (s = runOf (ext, inv) evs) in Hs.
  pose proof (oo_dense _ _ Ho) as [Hr Hinj Hfull].
  assert (∀ ev, ev ∈ evs → ∃ now e o, ev = Arrives now o (completionOf ext inv e) ∧ e ∈ rows t ∧ e_SatisfiedOrder e = Some o) as Hrow.
  { intros ev ([now e] & -> & Hd)%list_elem_of_fmap. destruct (Hds _ Hd) as [He [o Hor]]. cbn in He, Hor. exists now, e, o.
    unfold rowEvent, completionOf. cbn. by rewrite Hor. }
  assert (∀ e o, e ∈ rows t → e_SatisfiedOrder e = Some o → 1 ≤ o ≤ f_LatestSatisfiedOrder f) as Hrange.
  { intros e o [k Hk]%elem_of_rows Hor. apply (Hr k). apply orderOf_Some. eauto. }
  assert (∀ o, covered evs o ↔ 1 ≤ o ≤ f_LatestSatisfiedOrder f) as Hcov.
  { intros o. split.
    - intros (ev & (now & e & o' & -> & He & Hor)%Hrow & ->)%covered_alt. by eapply Hrange.
    - intros [k (e & He & Hor)%orderOf_Some]%Hfull. assert (e ∈ rows t) as Hin by (apply elem_of_rows; eauto).
      destruct (proj1 (list_elem_of_fmap _ _ _) (Hall e Hin (ex_intro _ o Hor))) as ([now e'] & Heq & Hin'). cbn in Heq. subst e'.
      left. eexists now, _. apply list_elem_of_fmap. exists (now, e). split; [|done]. unfold rowEvent. cbn. by rewrite Hor. }
  destruct (arrivals_in_order (ext, inv) evs Hev) as (orders & Horders & Hin & Hfrom).
  { intros ev (now & e & o & -> & He & Hor)%Hrow. exists now, o, (completionOf ext inv e). split; [done|]. by eapply Hrange. }
  pose proof (run_frontier (ext, inv) evs Hev) as (H0 & Hc & Hn). rewrite <- Hs in *. set (m := or_maxSent (relOf (ext, inv) s)) in *.
  assert (m = f_LatestSatisfiedOrder f) as Hm.
  { pose proof (oo_latest _ _ Ho) as Hl. rewrite Hcov in Hn. destruct (decide (1 ≤ m)); [pose proof (proj1 (Hcov m) (Hc m ltac:(lia)))|]; lia. }
  split_and!; [exists orders; by rewrite <- Hm| |].
  - intros r. split; [intros (now & o & (now' & e & o' & [= -> -> ->] & He & Hor)%Hrow)%Hfrom; by eauto|].
    intros (e & He & [o Hor] & ->). assert (o ∈ orders) as Hoin.
    { apply (inOrder_all _ _ _ _ Hin). pose proof (Hrange e o He Hor). lia. }
    assert (Some o ∈ orderOfResponse <$> s_sent s) as (r & Hro & Hrs)%list_elem_of_fmap by (rewrite Horders; by apply list_elem_of_fmap_2).
    destruct (Hfrom r Hrs) as (now & o' & (now' & e' & o2 & [= _ _ ->] & He' & Hor')%Hrow). cbn in Hro. rewrite Hor' in Hro. injection Hro as <-.
    apply elem_of_rows in He as [k He]. apply elem_of_rows in He' as [k' He'].
    assert (k = k') as <- by (apply (Hinj k k' o); apply orderOf_Some; eauto). by rewrite He in He'; injection He' as <-.
  - apply map_eq. intros o. rewrite lookup_empty. apply eq_None_not_Some. intros Hx. rewrite Hs in Hx.
    apply (run_held _ _ _ Hev) in Hx as [Ha Hlt]. rewrite <- Hs in Hlt. fold m in Hlt.
    pose proof (proj1 (Hcov o) (or_introl Ha)). lia.
Qed.

End orders.

(** ** Examples *)

#[local] Existing Instance exampleParams.

Definition satisfyAt (k : entryKey) (t : taskLog) : taskLog := (satisfyEntries [SatisfiedMatch (Satisfied k false "") "r"] t).2.

(** Two children, of which the second completes first. *)
Definition exampleOrdered : taskLog := satisfyAt (1, 1) (satisfyAt (1, 2) exampleFirst.2).

Lemma example_reachable : logReachable 1 exampleOrdered.
Proof. apply lr_satisfy, lr_satisfy, lr_ingest, lr_start. Qed.

Lemma orders_without_gap_witness :
  ∃ f, t_file exampleOrdered = Some f ∧
    (∀ o, 1 ≤ o ≤ f_LatestSatisfiedOrder f ↔ ∃ k e, t_entries exampleOrdered !! k = Some e ∧ e_SatisfiedOrder e = Some o).
Proof.
  destruct (orders_without_gap 1 exampleOrdered example_reachable) as (f & Hf & Hd & _). exists f. split; assumption.
Defined.

Definition exampleRow (n : Z) : V1DurableEventLogEntry := default (Entry 0 None false None RUN 0 0 "" false None false "") (t_entries exampleOrdered !! (1, n)).
Definition exampleDelivery : list (Z * V1DurableEventLogEntry) := [(10, exampleRow 1); (11, exampleRow 2); (12, exampleRow 1)].

Lemma log_reaches_worker_witness :
  let s := foldl (deliverRow 7 1) (Session false ∅ []) exampleDelivery in
  omap orderOfResponse (s_sent s) = [1; 2; 2] ∧ or_buffered (relOf (7, 1) s) = ∅.
Proof.
  intros s. split; [vm_compute; reflexivity|].
  refine (proj2 (proj2 (log_reaches_worker 1 exampleOrdered (LogFile 1 2 1 2) 7 1 exampleDelivery example_reachable _ _ _))).
  - vm_compute. reflexivity.
  - intros d Hd. unfold exampleDelivery in Hd. rewrite !elem_of_cons, elem_of_nil in Hd.
    destruct Hd as [->|[->|[->|[]]]]; (split; [apply (bool_decide_unpack _); vm_compute; exact I|vm_compute; eexists; reflexivity]).
  - intros e He _. revert e He. apply Forall_forall. apply (bool_decide_unpack _). vm_compute. exact I.
Defined.

(** Three children one after the other; a fork at the third runs it again on branch 2; then a fork at the second, from
    branch 1 where its entry is, starts branch 3. *)
Definition runOne (name : string) (index : Z) : ingestEvent := TriggerRuns [exampleRun name index None].
Definition sendAgain (invocation b : Z) (evs : list ingestEvent) (t : taskLog) : taskLog :=
  foldl (λ t ev, (ingest exampleTx 1 (exampleRequest invocation (b + 100 * Z.of_nat (size (t_entries t))) ev) t).2) t evs.
Definition forkAt (n : Z) (t : taskLog) : taskLog := match HandleBranch n 1 t with Some (_, t) => t | None => t end.

Definition threeRuns : list ingestEvent := [runOne "a" 0; runOne "b" 1; runOne "c" 2].
Definition forkedTwice : taskLog :=
  let t1 := sendAgain 1 1000 threeRuns exampleStart in
  let t2 := sendAgain 2 2000 threeRuns (incrementInvocationCount (forkAt 3 t1)) in
  sendAgain 3 3000 threeRuns (incrementInvocationCount (forkAt 2 t2)).

(** A fork of an older branch can leave a gap: when the abandoned child of branch 2 completes, it takes the first number
    although no replay of branch 3 ever asks for it, and the completions of branch 3 are held back for good. *)
Theorem fork_leaves_gap :
  let t := satisfyAt (3, 2) (satisfyAt (2, 3) forkedTwice) in
  let f := default (LogFile 0 0 0 0) (t_file t) in
  OrderInvariant.orderOf t (2, 3) = Some 1 ∧ branchOf t f 3 = 3 ∧ OrderInvariant.orderOf t (3, 2) = Some 2 ∧ branchOf t f 2 = 3 ∧
  (∀ k o, branchOf t f k.2 = k.1 → OrderInvariant.orderOf t k = Some o → o ≠ 1).
Proof.
  cbv zeta. split_and!; [vm_compute; reflexivity..|]. intros k o Hb Ho ->.
  set (t := satisfyAt _ _) in *. assert (k = (2, 3)) as ->; [|revert Hb; vm_compute; discriminate].
  assert (Forall (λ kv, e_SatisfiedOrder kv.2 = Some 1 → kv.1 = (2, 3)) (map_to_list (t_entries t))) as Hall
    by (apply (bool_decide_unpack _); vm_compute; exact I).
  apply orderOf_Some in Ho as (e & He & Hor). rewrite Forall_forall in Hall. apply (Hall (k, e)); [by apply elem_of_map_to_list|done].
Qed.

End OrderTheorems.
