(* ===== verification/LogMonotone.v ===== *)
(** What the operations on a log (LogTables, EventLog, EventLogOps) leave as it is: no entry goes away or changes its
    identity, an entry that was triggered stays triggered, and only a satisfied match and a completed memo satisfy
    one. *)

From S2P Require Import Prelude Workers LogTables EventLog EventLogOps EventLogTheorems ReplayPlan ReplayAnswer.
From S2P Require Import OrderInvariant.
Import Workers LogTables EventLog EventLogOps EventLogTheorems ReplayPlan ReplayAnswer OrderInvariant.

Module LogMonotone.

Open Scope Z_scope.

(** ** Entries *)

Record grows (e e' : V1DurableEventLogEntry) : Prop := {
  gw_key : keyOf e' = keyOf e;
  gw_external : e_ExternalID e' = e_ExternalID e;
  gw_child : e_ChildTaskExternalID e' = e_ChildTaskExternalID e;
  gw_kind : e_Kind e' = e_Kind e;
  gw_request : e_IdempotencyKey e' = e_IdempotencyKey e;
  gw_triggered : e_Triggered e = true → e_Triggered e' = true;
}.
Definition steady (e e' : V1DurableEventLogEntry) : Prop := grows e e' ∧ e_IsSatisfied e' = e_IsSatisfied e.

#[export] Instance grows_preorder : PreOrder grows.
Proof.
  split; [by split|]. intros e1 e2 e3 [] []. split; [congruence..|auto].
Qed.
#[export] Instance steady_preorder : PreOrder steady.
Proof.
  split; [by split|]. intros e1 e2 e3 [? ?] [? ?]. split; [by etrans|congruence].
Qed.

(** ** Logs *)

(** Every row is stored under its own key. *)
Definition keysOk (t : taskLog) : Prop := ∀ k e, t_entries t !! k = Some e → keyOf e = k.

(** Every entry is still there, related by [R]; keys stay right. *)
Definition evolves (R : relation V1DurableEventLogEntry) (t t' : taskLog) : Prop :=
  (∀ k e, t_entries t !! k = Some e → ∃ e', t_entries t' !! k = Some e' ∧ R e e') ∧ (keysOk t → keysOk t').

#[export] Instance evolves_preorder R : PreOrder R → PreOrder (evolves R).
Proof.
  intros HR. split.
  - intros t. split; [|done]. intros k e He. by exists e.
  - intros t1 t2 t3 [H1 Hk1] [H2 Hk2]. split; [|auto]. intros k e He. destruct (H1 k e He) as (e2 & He2 & HR2).
    destruct (H2 k e2 He2) as (e3 & He3 & HR3). exists e3. split; [done|by etrans].
Qed.

Lemma evolves_impl (R R' : relation V1DurableEventLogEntry) t t' : (∀ e e', R e e' → R' e e') → evolves R t t' → evolves R' t t'.
Proof. intros HR [He Hk]. split; [|done]. intros k e Hl. destruct (He k e Hl) as (e' & Hl' & Hg). exists e'. auto. Qed.

Lemma evolves_grows t t' : evolves steady t t' → evolves grows t t'.
Proof. apply evolves_impl. by intros e e' [? _]. Qed.

Lemma evolves_same R `{!Reflexive R} t t' : t_entries t' = t_entries t → evolves R t t'.
Proof. intros Heq. unfold evolves, keysOk. rewrite Heq. split; [|done]. intros k e He. by exists e. Qed.

Lemma evolves_related (R : relation V1DurableEventLogEntry) t t' :
  (∀ e e', R e e' → keyOf e' = keyOf e) → (∀ k : entryKey, option_Forall2 R (t_entries t !! k) (t_entries t' !! k)) → evolves R t t'.
Proof.
  intros HR Hrel. split.
  - intros k e He. specialize (Hrel k). rewrite He in Hrel. inversion Hrel as [? e' HRe Hl Hr|]; subst. by exists e'.
  - intros Hk k e' He'. specialize (Hrel k). rewrite He' in Hrel. inversion Hrel as [e ? HRe Hl Hr|]; subst. rewrite (HR _ _ HRe).
    by apply Hk.
Qed.

Lemma steady_key e e' : steady e e' → keyOf e' = keyOf e.
Proof. intros [[] _]. done. Qed.
Lemma grows_key e e' : grows e e' → keyOf e' = keyOf e.
Proof. intros []. done. Qed.

(** ** Operations *)

Lemma claim_steady keys t : evolves steady t (claimEntries keys t).2.
Proof.
  apply evolves_related; [apply steady_key|]. intros k. cbn [claimEntries snd t_entries set_entries].
  apply (related_foldl _ (λ k es, alter set_triggered k es)). intros a es. by apply related_alter; [apply _|].
Qed.

Lemma trigger_steady triggers registers commits pending t out t' :
  triggerPendingRunEntries triggers registers commits pending t = Some (out, t') → evolves steady t t'.
Proof.
  unfold triggerPendingRunEntries. pose proof (claim_steady ((λ p, (pt_BranchId p, pt_NodeId p)) <$> pending) t) as Hc.
  destruct (claimEntries _ t) as [claimed t1]. cbn [snd] in Hc.
  destruct claimed; [by intros [= <- <-]|]. destruct triggers; [|done]. destruct (negb _); [done|]. by intros [= <- <-].
Qed.

Lemma wait_steady registers commits k conditions t out t' :
  triggerPendingWaitFor registers commits k conditions t = Some (out, t') → evolves steady t t'.
Proof.
  unfold triggerPendingWaitFor. pose proof (claim_steady [k] t) as Hc.
  destruct (claimEntries _ t) as [claimed t1]. cbn [snd] in Hc.
  destruct claimed; [by intros [= <- <-]|]. destruct (_ || _); [done|]. by intros [= <- <-].
Qed.

Lemma fork_steady nodeId branchId replay t b t' : handleBranch nodeId branchId replay t = Some (b, t') → evolves steady t t'.
Proof.
  unfold handleBranch. destruct (t_file t) as [f|] eqn:Hf; [|done]. cbn [mbind option_bind].
  destruct (keptKeys nodeId branchId t) as [kept|]; [|done]. cbn [mbind option_bind].
  destruct (resetSatisfiedOrders kept t) as [latest t1] eqn:Hr. unfold updateLogFile.
  assert (evolves steady t t1) as Hk.
  { unfold resetSatisfiedOrders in Hr. injection Hr as _ <-. apply evolves_related; [apply steady_key|]. intros k. cbn [t_entries set_entries].
    apply related_imap. intros k' e. unfold renumber. by destruct (e_SatisfiedOrder e). }
  destruct (t_file t1); [|done]. cbn. intros [= <- <-]. etrans; [exact Hk|]. by apply evolves_same; [apply _|].
Qed.

Lemma increment_steady t : evolves steady t (incrementInvocationCount t).
Proof. apply evolves_same; [apply _|]. unfold incrementInvocationCount. by destruct (t_file t). Qed.

Lemma newEntry_key inputs t r : keyOf (newEntry inputs t r) = rowKey r.
Proof. done. Qed.

Lemma create_keeps inputs t : evolves eq t (createEntries inputs t).2.
Proof.
  unfold createEntries. set (rs := match t_file t with Some _ => inputs | None => [] end).
  assert (∀ l out (es : gmap entryKey V1DurableEventLogEntry),
    let es' := (foldl (λ acc r, match acc.2 !! rowKey r with
      | Some _ => acc | None => (acc.1 ++ [newEntry rs t r], <[rowKey r := newEntry rs t r]> acc.2) end) (out, es) l).2 in
    (∀ (k : entryKey) e, es !! k = Some e → es' !! k = Some e) ∧
    ((∀ (k : entryKey) e, es !! k = Some e → keyOf e = k) → ∀ (k : entryKey) e, es' !! k = Some e → keyOf e = k)) as Hk.
  { induction l as [|r l IH]; intros out es; cbn; [done|]. destruct (es !! rowKey r) eqn:Hr; [by apply IH|].
    destruct (IH (out ++ [newEntry rs t r]) (<[rowKey r := newEntry rs t r]> es)) as [H1 H2]. split.
    - intros k e He. apply H1. rewrite lookup_insert_ne; [done|]. congruence.
    - intros Hes. apply H2. intros k e [[<- <-]|[_ He]]%lookup_insert_Some; [apply newEntry_key|by apply Hes]. }
  specialize (Hk rs [] (t_entries t)). destruct (foldl _ _ rs) as [out es]. cbn in *. destruct Hk as [H1 H2].
  assert (t_entries (raiseOrder (omap e_SatisfiedOrder out) (set_entries es t)) = es) as Heq
    by (unfold raiseOrder; cbn; by destruct (t_file t)).
  unfold evolves, keysOk. rewrite Heq. split; [|exact H2]. intros k e He. exists e. split; [by apply H1|done].
Qed.

Lemma finish_steady d : evolves steady (d_log d) (finishLog d).
Proof.
  unfold finishLog. set (t := set_entries _ (d_log d)). assert (evolves steady (d_log d) t) as Ht.
  { apply evolves_related; [apply steady_key|]. intros k. unfold t. cbn [t_entries set_entries].
    apply (related_foldl _ (λ kp es, alter (set_result kp.2) kp.1 es)). intros a es. by apply related_alter; [apply _|]. }
  destruct (0 <? _); [|done]. etrans; [exact Ht|]. apply evolves_same; [apply _|]. unfold updateLatestNodeId. by destruct (t_file t).
Qed.

(** ** The rows of an answer *)

Lemma created_rows inputs t e :
  e ∈ (createEntries inputs t).1 → t_entries (createEntries inputs t).2 !! keyOf e = Some e.
Proof.
  unfold createEntries. set (rs := match t_file t with Some _ => inputs | None => [] end).
  assert (∀ l out (es : gmap entryKey V1DurableEventLogEntry),
    (∀ e, e ∈ out → es !! keyOf e = Some e) →
    let acc' := foldl (λ acc r, match acc.2 !! rowKey r with
      | Some _ => acc | None => (acc.1 ++ [newEntry rs t r], <[rowKey r := newEntry rs t r]> acc.2) end) (out, es) l in
    ∀ e, e ∈ acc'.1 → acc'.2 !! keyOf e = Some e) as Hk.
  { induction l as [|r l IH]; intros out es Hes; cbn; [done|]. destruct (es !! rowKey r) eqn:Hr; [by apply IH|]. apply IH.
    intros e' [He'|He']%elem_of_app.
    - rewrite lookup_insert_ne; [by apply Hes|]. intros Hkey. rewrite Hkey, (Hes _ He') in Hr. done.
    - apply list_elem_of_singleton in He' as ->. rewrite newEntry_key. apply lookup_insert_eq. }
  specialize (Hk rs [] (t_entries t)). destruct (foldl _ _ rs) as [out es]. cbn in *. intros He.
  assert (es !! keyOf e = Some e) as Hes by (apply Hk; [by intros ? ?%elem_of_nil|done]).
  unfold raiseOrder. cbn. by destruct (t_file t).
Qed.

Lemma collect_elem {A B} (g : A → outcome B) l bs b : collect g l = Done bs → b ∈ bs → ∃ a, a ∈ l ∧ g a = Done b.
Proof.
  intros Hc%collect_spec [i Hb]%list_elem_of_lookup. destruct (Forall2_lookup_r _ _ _ _ _ Hc Hb) as (a & Ha & Hg).
  exists a. split; [by eapply list_elem_of_lookup_2|done].
Qed.

Lemma found_rows (t : taskLog) cs c e :
  foldl addSkipRow ∅ (listByChildren cs t) !! c = Some e → e ∈ rows t.
Proof.
  assert (∀ l (acc : gmap uuid V1DurableEventLogEntry), (∀ c e, acc !! c = Some e → e ∈ rows t) → (∀ e, e ∈ l → e ∈ rows t) →
    ∀ c e, foldl addSkipRow acc l !! c = Some e → e ∈ rows t) as Hl.
  { induction l as [|r l IH]; intros acc Hacc Hin; cbn; [done|]. apply IH; [|intros; apply Hin; by right]. intros c' e'.
    assert (r ∈ rows t) as Hr by (apply Hin; by left). unfold addSkipRow.
    destruct (e_ChildTaskExternalID r) as [ch|]; [|apply Hacc].
    destruct (acc !! ch); [destruct (_ <=? _); [apply Hacc|]|]; intros [[_ <-]|[_ ?]]%lookup_insert_Some; by eauto. }
  apply Hl; [by intros ? ? ?%lookup_empty_Some|]. intros e' He'. unfold listByChildren in He'.
  rewrite merge_sort_Permutation in He'. by apply list_elem_of_In, filter_In in He' as [?%list_elem_of_In _].
Qed.

Lemma rows_lookup t e : keysOk t → e ∈ rows t → t_entries t !! keyOf e = Some e.
Proof.
  intros Hk He. unfold rows in He. apply list_elem_of_fmap in He as ([k e'] & -> & Hin%elem_of_map_to_list). cbn.
  by rewrite (Hk _ _ Hin).
Qed.

Section answers.
Context `{Params}.

(** Every row of an answer is in the log that the request leaves. *)
Definition answersFrom (t : taskLog) (rs : list EventLogEntryWithResultPayload) : Prop :=
  ∀ r, r ∈ rs → ∃ e, t_entries t !! keyOf (r_Entry r) = Some e ∧ steady (r_Entry r) e.

(** What a request that goes through reads and writes, step by step. *)
Record ran (X : txEnv) (t : taskLog) (task : Z) (q : request) (d : finished) (k : locked) (es : list GetOrCreateLogEntryOpt)
    (new : list GetOrCreateLogEntryOpt) (created : list V1DurableEventLogEntry) (found : gmap uuid V1DurableEventLogEntry) : Prop := {
  ra_resolved : ∃ f, resolveOne (Locked task q f t) = Done k;
  ra_planned : ∃ ch, planDurableEventLogAppend (x_fails X) (k_task k) (q_ids (k_request k)) (k_event k) (k_file k) (k_log k) = Done (es, ch);
  ra_checked : newOpts (existingByKey es (k_log k)) (nonSkipOpts es) = Done new;
  ra_created : createEntries (imap (toCreate (q_ids (k_request k))) new) (k_log k) = (created, d_log d);
  ra_found : skippedEntries (x_fails X) (k_task k) es (d_log d) = Done found;
  ra_answer : logEntries (x_retrieves X) es (existingByKey es (k_log k)) (list_to_map ((λ e, (keyOf e, e)) <$> created)) found =
    Done (ar_logEntries (d_result d));
}.

Lemma pipeline_ran X t task q d :
  pipeline X {[task := t]} (task, q) = Done d → ∃ k es new created found, ran X t task q d k es new created found.
Proof.
  unfold pipeline, mbind, outcome_bind. intros Hp. destruct (lockOne _ _) as [k0| |] eqn:Hl; [|done..].
  unfold lockOne in Hl. cbn [fst snd] in Hl. rewrite lookup_singleton_eq in Hl. change (default emptyLog (Some t)) with t in Hl.
  destruct (t_file t) as [f|]; [|done]. case_bool_decide; [|done]. injection Hl as <-.
  destruct (resolveOne _) as [k| |] eqn:Hr; [|done..].
  destruct (planOne X k) as [p| |] eqn:Hpl; [|done..]. destruct (checkOne p) as [h| |] eqn:Hh; [|done..].
  destruct (createOne h) as [c| |] eqn:Hc; [|done..]. destruct (skipOne X c) as [s| |] eqn:Hs; [|done..].
  unfold planOne, mbind, outcome_bind in Hpl. destruct (planDurableEventLogAppend _ _ _ _ _ _) as [[es ch]| |] eqn:Hes; [|done..]. injection Hpl as <-.
  unfold checkOne, mbind, outcome_bind in Hh. destruct (newOpts _ _) as [new| |] eqn:Hnew; [|done..]. injection Hh as <-.
  unfold createOne in Hc. cbn [h_planned p_locked p_entries p_children h_new h_existing] in Hc.
  destruct (createEntries _ (k_log k)) as [created t2] eqn:Hcr. injection Hc as <-.
  unfold skipOne, mbind, outcome_bind in Hs. cbn [p_locked p_entries k_log set_log k_task] in Hs.
  destruct (skippedEntries _ _ _ _) as [found| |] eqn:Hfound; [|done..]. injection Hs as <-.
  unfold resultOne, mbind, outcome_bind in Hp. destruct (logEntries _ _ _ _ _) as [rs| |] eqn:Hrs; [|done..]. injection Hp as <-.
  exists k, es, new, created, found. split; [by exists f|by exists ch|done..].
Qed.

(** A row of an answer: an entry that existed, one that was created, or the newest of a child that is skipped. *)
Lemma answer_cases X t task q d k es new created found r :
  ran X t task q d k es new created found → r ∈ ar_logEntries (d_result d) →
  (∃ o, o ∈ nonSkipOpts es ∧ existingByKey es (k_log k) !! optKey o = Some (r_Entry r)) ∨
  r_Entry r ∈ created ∨
  (∃ o cs, o ∈ skipOpts es ∧ foldl addSkipRow ∅ (listByChildren cs (d_log d)) !! o_ChildTaskExternalId o = Some (r_Entry r)).
Proof.
  intros Hran Hin. pose proof (ra_answer _ _ _ _ _ _ _ _ _ _ Hran) as Hrs. revert Hrs Hin. unfold logEntries, mbind, outcome_bind.
  destruct (collect (nonSkipResult _ _ _) _) as [rs1| |] eqn:H1; [|done..].
  destruct (collect (skipResult _ _) _) as [rs2| |] eqn:H2; [|done..]. intros [= <-].
  rewrite merge_sort_Permutation. intros [Hin|Hin]%elem_of_app.
  - destruct (collect_elem _ _ _ _ H1 Hin) as (o & Ho & Hr). unfold nonSkipResult in Hr.
    destruct (existingByKey es (k_log k) !! optKey o) as [e|] eqn:He; [injection Hr as <-; left; by exists o|].
    destruct (list_to_map _ !! optKey o) as [e|] eqn:He2; [|done]. injection Hr as <-. right. left. cbn.
    apply elem_of_list_to_map_2, list_elem_of_fmap in He2 as (e' & Heq & Hin'). by assert (e = e') as -> by congruence.
  - destruct (collect_elem _ _ _ _ H2 Hin) as (o & Hskip & Ho). unfold skipResult in Ho.
    destruct (found !! _) as [e|] eqn:He; [|done]. injection Ho as <-. right. right. cbn. exists o.
    pose proof (ra_found _ _ _ _ _ _ _ _ _ _ Hran) as Hfound. revert Hfound. unfold skippedEntries.
    destruct (skipOpts es); [by intros [= <-]; apply lookup_empty_Some in He|].
    repeat case_match; try done. unfold mbind, outcome_bind. destruct (checkSkipped _ _); [|done..]. intros [= <-]. by eauto.
Qed.

Lemma existing_row es t o e : existingByKey es t !! optKey o = Some e → e ∈ rows t.
Proof.
  intros He. apply elem_of_list_to_map_2, list_elem_of_fmap in He as (e' & Heq & Hin'). assert (e = e') as -> by congruence.
  apply list_elem_of_omap in Hin' as (k' & _ & Hk'). unfold rows. apply list_elem_of_fmap. exists (k', e'). split; [done|].
  by apply elem_of_map_to_list.
Qed.

Lemma pipeline_steady X t task q d :
  pipeline X {[task := t]} (task, q) = Done d →
  evolves steady t (finishLog d) ∧ (keysOk t → answersFrom (finishLog d) (ar_logEntries (d_result d))).
Proof.
  intros (k & es & new & created & found & Hran)%pipeline_ran. destruct (ra_resolved _ _ _ _ _ _ _ _ _ _ Hran) as [f Hr].
  destruct (resolveOne_log _ _ Hr) as (_ & _ & Hte & _). cbn [k_log] in Hte.
  pose proof (create_keeps (imap (toCreate (q_ids (k_request k))) new) (k_log k)) as Hcr.
  pose proof (created_rows (imap (toCreate (q_ids (k_request k))) new) (k_log k)) as Hrows.
  rewrite (ra_created _ _ _ _ _ _ _ _ _ _ Hran) in Hcr, Hrows. cbn [fst snd] in Hcr, Hrows.
  assert (evolves eq t (d_log d)) as Ht2 by (etrans; [apply (evolves_same _ t (k_log k)); by symmetry|exact Hcr]).
  pose proof (finish_steady d) as Hfin. split; [etrans; [eapply evolves_impl, Ht2; by intros e _ <-|exact Hfin]|].
  intros Hkeys r Hin. assert (keysOk (d_log d)) as Hkeys2 by by apply Ht2.
  enough (t_entries (d_log d) !! keyOf (r_Entry r) = Some (r_Entry r)) as Hr2 by by apply Hfin.
  destruct (answer_cases _ _ _ _ _ _ _ _ _ _ _ Hran Hin) as [(o & _ & He)|[He|(o & cs & _ & He)]].
  - apply existing_row in He. apply rows_lookup in He; [|intros k' e'; rewrite Hte; apply Hkeys]. rewrite Hte in He.
    destruct Ht2 as [Ht2 _]. by destruct (Ht2 _ _ He) as (e2 & He2 & <-).
  - by apply Hrows.
  - apply rows_lookup; [done|]. by eapply found_rows.
Qed.

Lemma ingest_steady X task q t : evolves steady t (ingest X task q t).2.
Proof.
  destruct (ingest_cases X task q t) as [(d & Hp & ->)|(_ & Hte & _)]; [|by apply evolves_same].
  by apply pipeline_steady in Hp as [Hp _].
Qed.

Lemma ingest_answers X task q t a t' :
  keysOk t → ingest X task q t = (inl [(task, inl a)], t') → answersFrom t' (ar_logEntries a).
Proof. intros Hk (d & Hd & -> & ->)%ingest_ok. by apply pipeline_steady in Hd as [_ Ha]; auto. Qed.
End answers.

(** ** Satisfying entries *)

Lemma satisfy_grows ms t : evolves grows t (satisfyEntries ms t).2.
Proof.
  unfold satisfyEntries, updateEntriesSatisfied. set (t1 := set_entries _ t).
  generalize ((λ k, latestOrder t + rowNumber keyLt (ordersToApply (sm_input <$> ms) t) k) <$> ordersToApply (sm_input <$> ms) t).
  intros orders. cbn [snd]. etrans; [|etrans; [apply (evolves_same _ t1 (raiseOrder orders t1))|]].
  - apply evolves_related; [apply grows_key|]. intros k. cbn. apply related_imap. intros k' e. unfold satisfy. by destruct (List.find _ _).
  - unfold raiseOrder. by destruct (t_file t1).
  - apply evolves_related; [apply grows_key|]. intros k. cbn [t_entries set_entries].
    match goal with |- context [foldl ?g _ _] => apply (related_foldl _ (λ a m, g m a)) end.
    intros a es. destruct (List.find _ _) as [m|]; [|by apply related_refl; apply _].
    case_bool_decide; [by apply related_refl; apply _|]. by apply related_alter; [apply _|].
Qed.

Lemma memo_grows k payload t t' : completeMemoEntry k payload t = Some t' → evolves grows t t'.
Proof.
  unfold completeMemoEntry. destruct (t_entries t !! k) as [e|]; [|done]. destruct (e_IsSatisfied e); [by intros [= <-]|].
  assert (evolves grows t (markSatisfied k t)) as Hm.
  { apply evolves_related; [apply grows_key|]. intros k'. cbn. by apply related_alter; [apply _|]. }
  intros [= <-]. case_bool_decide; [done|]. etrans; [exact Hm|]. apply evolves_related; [apply grows_key|]. intros k'.
  cbn [t_entries set_entries]. by apply related_alter; [apply _|].
Qed.

End LogMonotone.
