(* ===== verification/TriggerRecord.v ===== *)
(** What the trigger flag of an entry (LogTables, EventLog, EventLogOps) stands for: the entry of a run is only flagged
    once its child was handed over, and an entry without a child only when it is that of a wait. *)

From S2P Require Import Prelude Workers LogTables EventLog EventLogOps EventLogTheorems ReplayPlan ReplayAnswer.
From S2P Require Import OrderInvariant LogMonotone.
Import Workers LogTables EventLog EventLogOps EventLogTheorems ReplayPlan ReplayAnswer OrderInvariant LogMonotone.

Module TriggerRecord.

Open Scope Z_scope.

(** ** Entries that keep their flag *)

Record same (e e' : V1DurableEventLogEntry) : Prop := {
  sa_child : e_ChildTaskExternalID e' = e_ChildTaskExternalID e;
  sa_request : e_IdempotencyKey e' = e_IdempotencyKey e;
  sa_triggered : e_Triggered e' = e_Triggered e;
}.
#[local] Instance same_preorder : PreOrder same.
Proof. split; [by split|]. intros e1 e2 e3 [] []. split; congruence. Qed.

Section record.
Context `{Params} `{!Inj (=) (=) sha256hex}.

(** ** Requests by their keys *)

Definition runKeyed (key : string) : Prop := ∃ o, key = createIdempotencyKey RUN (Some o) [].
Definition waitKeyed (key : string) : Prop := ∃ conditions, key = createIdempotencyKey WAITFOR None conditions.

Lemma keys_differ key : runKeyed key → waitKeyed key → False.
Proof. intros [o ->] [conditions Heq%(inj sha256hex)]. by cbn in Heq. Qed.

(** ** The record *)

Section handed.
Context (P : uuid → Prop).

(** [P] holds of the children that were handed over. *)
Definition entryTold (e : V1DurableEventLogEntry) : Prop :=
  match e_ChildTaskExternalID e with
  | Some c => c ≠ uuidNil ∧ runKeyed (e_IdempotencyKey e) ∧ (e_Triggered e = true → P c)
  | None => e_Triggered e = true → waitKeyed (e_IdempotencyKey e)
  end.
Definition logTold (t : taskLog) : Prop := ∀ k e, t_entries t !! k = Some e → entryTold e.

Lemma entryTold_same e e' : same e e' → entryTold e → entryTold e'.
Proof. intros [Hc Hr Ht]. unfold entryTold. by rewrite Hc, Hr, Ht. Qed.

Lemma logTold_related t t' : (∀ k : entryKey, option_Forall2 same (t_entries t !! k) (t_entries t' !! k)) → logTold t → logTold t'.
Proof.
  intros Hrel Ht k e' He'. specialize (Hrel k). rewrite He' in Hrel. inversion Hrel as [e ? Hs Hl|]; subst.
  by eapply entryTold_same, Ht.
Qed.

Lemma logTold_entries t t' : t_entries t' = t_entries t → logTold t → logTold t'.
Proof. intros Heq Ht k e. rewrite Heq. apply Ht. Qed.

Lemma told_rows t e : logTold t → e ∈ rows t → entryTold e.
Proof. intros Ht He. unfold rows in He. apply list_elem_of_fmap in He as ([k e'] & -> & Hin%elem_of_map_to_list). by eapply Ht. Qed.

(** ** Operations that flag nothing *)

Lemma satisfy_told ms t : logTold t → logTold (satisfyEntries ms t).2.
Proof.
  unfold satisfyEntries, updateEntriesSatisfied. set (t1 := set_entries _ t).
  generalize ((λ k, latestOrder t + rowNumber keyLt (ordersToApply (sm_input <$> ms) t) k) <$> ordersToApply (sm_input <$> ms) t).
  intros orders Ht. cbn [snd]. assert (logTold (raiseOrder orders t1)) as Ht1.
  { apply (logTold_entries t1); [unfold raiseOrder; by destruct (t_file t1)|]. revert Ht. apply logTold_related. intros k. cbn.
    apply related_imap. intros k' e. unfold satisfy. by destruct (List.find _ _). }
  revert Ht1. apply logTold_related. intros k. cbn [t_entries set_entries].
  match goal with |- context [foldl ?g _ _] => apply (related_foldl _ (λ a m, g m a)) end.
  intros a es. destruct (List.find _ _) as [m|]; [|by apply related_refl; apply _].
  case_bool_decide; [by apply related_refl; apply _|]. by apply related_alter; [apply _|].
Qed.

Lemma mark_told k t : logTold t → logTold (markSatisfied k t).
Proof. apply logTold_related. intros k'. cbn. by apply related_alter; [apply _|]. Qed.

Lemma result_told k payload t : logTold t → logTold (set_entries (alter (set_result payload) k (t_entries t)) t).
Proof. apply logTold_related. intros k'. cbn. by apply related_alter; [apply _|]. Qed.

Lemma fork_told nodeId branchId replay t b t' : handleBranch nodeId branchId replay t = Some (b, t') → logTold t → logTold t'.
Proof.
  unfold handleBranch. destruct (t_file t) as [f|] eqn:Hf; [|done]. cbn [mbind option_bind].
  destruct (keptKeys nodeId branchId t) as [kept|]; [|done]. cbn [mbind option_bind].
  destruct (resetSatisfiedOrders kept t) as [latest t1] eqn:Hr. unfold updateLogFile. intros Heq Ht.
  assert (logTold t1) as Ht1.
  { unfold resetSatisfiedOrders in Hr. injection Hr as _ <-. revert Ht. apply logTold_related. intros k. cbn [t_entries set_entries].
    apply related_imap. intros k' e. unfold renumber. by destruct (e_SatisfiedOrder e). }
  destruct (t_file t1); [|done]. cbn in Heq. injection Heq as <- <-. by revert Ht1; apply logTold_entries.
Qed.

Lemma increment_told t : logTold t → logTold (incrementInvocationCount t).
Proof. apply logTold_entries. unfold incrementInvocationCount. by destruct (t_file t). Qed.

Lemma finish_told d : logTold (d_log d) → logTold (finishLog d).
Proof.
  unfold finishLog. set (t := set_entries _ (d_log d)). intros Hd. assert (logTold t) as Ht.
  { revert Hd. apply logTold_related. intros k. unfold t. cbn [t_entries set_entries].
    apply (related_foldl _ (λ kp es, alter (set_result kp.2) kp.1 es)). intros a es. by apply related_alter; [apply _|]. }
  destruct (0 <? _); [|done]. revert Ht. apply logTold_entries. unfold updateLatestNodeId. by destruct (t_file t).
Qed.
End handed.

Lemma logTold_mono (P P' : uuid → Prop) t : (∀ c, P c → P' c) → logTold P t → logTold P' t.
Proof.
  intros HP Ht k e He. specialize (Ht k e He). unfold entryTold in *. destruct (e_ChildTaskExternalID e); [|done]. naive_solver.
Qed.

(** ** Claims *)

Lemma claim_back keys t k e' :
  t_entries (claimEntries keys t).2 !! k = Some e' → ∃ e, t_entries t !! k = Some e ∧
    e_ChildTaskExternalID e' = e_ChildTaskExternalID e ∧ e_IdempotencyKey e' = e_IdempotencyKey e ∧
    (e_Triggered e' = e_Triggered e ∨ k ∈ (claimEntries keys t).1).
Proof.
  unfold claimEntries. cbn [fst snd t_entries set_entries]. generalize (List.filter
    (λ k, match t_entries t !! k with Some e => negb (e_Triggered e) | None => false end) (remove_dups keys)) as l.
  generalize (t_entries t) as es. intros es l. revert es.
  induction l as [|k0 l IH]; intros es; cbn; [intros He; exists e'; by auto|].
  intros (e1 & He1 & Hc & Hr & Ht)%IH. rewrite lookup_alter in He1. case_decide as Hd.
  - subst k0. destruct (es !! k) as [e|]; [|done]. injection He1 as <-. exists e. split_and!; [done..|]. right. left.
  - exists e1. split_and!; [done..|]. destruct Ht; [by left|right; by right].
Qed.

(** A claim is safe when all that it may claim was handed over, or is a wait. *)
Lemma claim_told (P P' : uuid → Prop) keys t :
  (∀ c, P c → P' c) → logTold P t →
  (∀ k e, k ∈ (claimEntries keys t).1 → t_entries t !! k = Some e →
     match e_ChildTaskExternalID e with Some c => P' c | None => waitKeyed (e_IdempotencyKey e) end) →
  logTold P' (claimEntries keys t).2.
Proof.
  intros HP Ht Hk k e' He'. destruct (claim_back keys t k e' He') as (e & He & Hc & Hr & Htr).
  pose proof (logTold_mono P P' t HP Ht k e He) as Hold. unfold entryTold in *. rewrite Hc, Hr.
  destruct Htr as [->|Hin]; [done|]. specialize (Hk k e Hin He). by destruct (e_ChildTaskExternalID e); naive_solver.
Qed.

Lemma claim_in keys t k : k ∈ (claimEntries keys t).1 → k ∈ keys.
Proof. unfold claimEntries. cbn [fst]. intros [Hin _]%list_elem_of_In%filter_In. by rewrite <- list_elem_of_In, elem_of_remove_dups in Hin. Qed.

(** ** Plans *)

Definition ordinary (o : WorkflowNameTriggerOpts) : Prop := to_IsDagStepTrigger o = false.
Definition ordinaryEvent (ev : ingestEvent) : Prop := match ev with TriggerRuns opts => Forall ordinary opts | _ => True end.

Section plans.
Context (P : uuid → Prop).

(** What a request may ask to be created. *)
Definition optTold (ev : ingestEvent) (o : GetOrCreateLogEntryOpt) : Prop :=
  match ev with
  | TriggerRuns _ =>
      runKeyed (o_IdempotencyKey o) ∧ (o_IsTriggered o = true → o_ChildTaskExternalId o ≠ uuidNil ∧ P (o_ChildTaskExternalId o))
  | WaitFor _ => waitKeyed (o_IdempotencyKey o) ∧ o_ChildTaskExternalId o = uuidNil ∧ o_IsTriggered o = false
  | Memo _ _ => o_ChildTaskExternalId o = uuidNil ∧ o_IsTriggered o = false
  end.

Lemma planRuns_told latest m replay n opts es :
  (∀ c, c ∈ replay → c ≠ uuidNil ∧ P c) → planRuns latest m replay n opts = Done es →
  ∀ o, o ∈ nonSkipOpts es → optTold (TriggerRuns opts) o ∧ (Forall ordinary opts → o_IsDagStepTrigger o = false).
Proof.
  intros Hrep. revert n es. induction opts as [|w opts IH]; intros n es; cbn [planRuns]; [intros [= <-] o; by intros ?%elem_of_nil|].
  unfold mbind, outcome_bind. destruct (to_ShouldSkip w).
  - destruct (planRuns _ m replay n opts) as [rest| |] eqn:Hr; [|done..]. intros [= <-] o Ho.
    destruct (IH _ _ Hr o Ho) as [Ht Hd]. split; [done|]. intros [_ ?]%Forall_cons. auto.
  - destruct (resolveBranchForNode n latest m) as [b|]; [|done]. cbn [unchecked].
    destruct (planRuns _ m replay (n + 1) opts) as [rest| |] eqn:Hr; [|done..]. intros [= <-] o.
    unfold nonSkipOpts. cbn [List.filter o_ShouldSkip negb]. intros [->|Ho]%elem_of_cons.
    + cbn. split; [|by intros [? _]%Forall_cons]. split; [by exists w|]. intros Hin%bool_decide_eq_true. by apply Hrep.
    + destruct (IH _ _ Hr o Ho) as [Ht Hd]. split; [done|]. intros [_ ?]%Forall_cons. auto.
Qed.

Lemma addChildRows_latest latest m l (L : list V1DurableEventLogEntry) acc ch :
  addChildRows latest m acc l = Done ch → (∀ r, r ∈ l → r ∈ L) →
  (∀ c r, ch_latest acc !! c = Some r → r ∈ L ∧ e_ChildTaskExternalID r = Some c) →
  ∀ c r, ch_latest ch !! c = Some r → r ∈ L ∧ e_ChildTaskExternalID r = Some c.
Proof.
  revert acc. induction l as [|row l IH]; intros acc; cbn; [by intros [= <-]|]. unfold mbind, outcome_bind. intros Hadd Hin Hacc.
  destruct (addChildRow latest m acc row) as [acc'| |] eqn:Hrow; [|done..]. eapply IH; [exact Hadd|intros; apply Hin; by right|].
  unfold addChildRow in Hrow. destruct (e_ChildTaskExternalID row) as [c0|] eqn:Hc0; [|by injection Hrow as <-].
  unfold mbind, outcome_bind in Hrow. destruct (unchecked _); [|done..]. injection Hrow as <-. cbn [ch_latest]. intros c r Hr.
  assert (<[c0 := row]> (ch_latest acc) !! c = Some r ∨ ch_latest acc !! c = Some r) as [Hr'|?]
    by (destruct (ch_latest acc !! c0); [destruct (_ <? _)|]; auto); [|by apply Hacc].
  apply lookup_insert_Some in Hr' as [[<- <-]|[_ ?]]; [split; [apply Hin; by left|done]|by apply Hacc].
Qed.

Lemma dedupes_told fails task ids f opts t replay opts' :
  logTold P t → resolveOrphanedChildDedupes fails task ids f opts t = Done (replay, opts') →
  (∀ c, c ∈ replay → c ≠ uuidNil ∧ P c) ∧ (Forall ordinary opts → Forall ordinary opts').
Proof.
  intros Ht. unfold resolveOrphanedChildDedupes. destruct (to_ExternalId <$> _) as [|c0 skipped] eqn:Hsk.
  { intros [= <- <-]. split; [set_solver|done]. }
  destruct (fails _); [done|]. unfold mbind, outcome_bind. destruct (addChildRows _ _ _ _) as [ch| |] eqn:Hch; [|done..].
  intros [= <- <-]. split.
  - intros c. rewrite elem_of_list_to_set. intros (o' & -> & Ho')%list_elem_of_fmap. apply list_elem_of_fmap in Ho' as ([b o2] & -> & Hin).
    apply list_elem_of_In, filter_In in Hin as [Hin Hb]. cbn in Hb. subst b. apply list_elem_of_In, list_elem_of_lookup in Hin as [i Hi].
    rewrite list_lookup_imap in Hi. destruct (opts !! i) as [o|]; [|done]. cbn in Hi. injection Hi as Hi.
    unfold dedupeChild in Hi. destruct (_ || _); [done|]. destruct (ch_latest ch !! to_ExternalId o) as [latest|] eqn:Hl; [|done].
    destruct (negb _); [done|]. destruct (_ && _); [done|]. injection Hi as Htr <-. cbn.
    destruct (addChildRows_latest _ _ _ (rows t) _ _ Hch) with (c := to_ExternalId o) (r := latest) as [Hrow Hc]; [|by intros ? ?; cbn; rewrite lookup_empty|done|].
    { intros r Hr. unfold listByChildren in Hr. rewrite merge_sort_Permutation in Hr. by apply list_elem_of_In, filter_In in Hr as [?%list_elem_of_In _]. }
    pose proof (told_rows _ _ _ Ht Hrow) as Htold. unfold entryTold in Htold. rewrite Hc in Htold. naive_solver.
  - intros Hall. apply Forall_forall. intros o' ([b o2] & -> & Hin)%list_elem_of_fmap. apply list_elem_of_lookup in Hin as [i Hi].
    rewrite list_lookup_imap in Hi. destruct (opts !! i) as [o|] eqn:Ho; [|done]. cbn in Hi. injection Hi as Hi.
    assert (ordinary o) as Hord by by eapply Forall_lookup_1. unfold dedupeChild in Hi. repeat case_match; by injection Hi as _ <-.
Qed.

Lemma plan_told fails task ids ev f t es ch :
  logTold P t → planDurableEventLogAppend fails task ids ev f t = Done (es, ch) →
  ∀ o, o ∈ nonSkipOpts es → optTold ev o ∧ (ordinaryEvent ev → o_IsDagStepTrigger o = false).
Proof.
  intros Ht. unfold planDurableEventLogAppend, mbind, outcome_bind. destruct ev as [payload memoKey|opts|conditions].
  - destruct (unchecked _); [|done..]. by intros [= <- <-] o ->%list_elem_of_singleton.
  - destruct (resolveOrphanedChildDedupes _ _ _ _ _ _) as [[replay opts']| |] eqn:Hd; [|done..].
    destruct (planRuns _ _ replay _ opts') as [entries| |] eqn:Hp; [|done..]. intros [= <- <-] o Ho.
    destruct (dedupes_told _ _ _ _ _ _ _ _ Ht Hd) as [Hrep Hord]. destruct (planRuns_told _ _ _ _ _ _ Hrep Hp o Ho) as [? Hdag].
    split; [done|]. intros ?. auto.
  - destruct (unchecked _); [|done..]. intros [= <- <-] o ->%list_elem_of_singleton. split; [|done]. split; [by exists conditions|done].
Qed.
End plans.

(** ** Requests *)

Lemma assignIds_ordinary ids candidate resolved seen i opts opts' :
  assignIds ids candidate resolved seen i opts = Done opts' → Forall ordinary opts → Forall ordinary opts'.
Proof.
  revert seen i opts'. induction opts as [|o opts IH]; intros seen i opts'; cbn [assignIds]; [by intros [= <-]|].
  unfold mbind, outcome_bind. case_bool_decide.
  - destruct (assignIds _ _ _ seen (S i) opts) as [rest| |] eqn:Hr; [|done..]. intros [= <-] [Ho Hall]%Forall_cons. constructor; [done|by eapply IH].
  - destruct (resolved !! _); [|done]. destruct (assignIds _ _ _ _ (S i) opts) as [rest| |] eqn:Hr; [|done..].
    intros [= <-] [Ho Hall]%Forall_cons. constructor; [done|by eapply IH].
Qed.

(** Resolving the children of a request keeps its kind. *)
Definition sameEvent (ev ev' : ingestEvent) : Prop :=
  match ev with
  | TriggerRuns _ => ∃ opts', ev' = TriggerRuns opts' ∧ (ordinaryEvent ev → Forall ordinary opts')
  | _ => ev' = ev
  end.

Lemma resolveOne_event k k' : resolveOne k = Done k' → sameEvent (k_event k) (k_event k').
Proof.
  unfold resolveOne. destruct (k_event k) eqn:Hev; cbn [sameEvent]; [by intros [= <-]| |by intros [= <-]].
  unfold resolveChildExternalIds, mbind, outcome_bind. destruct (upsertSignals _ _) as [resolved t].
  destruct (assignIds _ _ _ _ _ _) as [opts'| |] eqn:Ha; [|done..]. intros [= <-]. exists opts'. split; [done|].
  by eapply assignIds_ordinary.
Qed.

(** The rows of a table after an insert are those before and the new ones. *)
Lemma create_back inputs t :
  (∀ k e, t_entries (createEntries inputs t).2 !! k = Some e →
     t_entries t !! k = Some e ∨ ∃ r inputs', r ∈ inputs ∧ e = newEntry inputs' t r) ∧
  ∀ e, e ∈ (createEntries inputs t).1 → ∃ r inputs', r ∈ inputs ∧ e = newEntry inputs' t r.
Proof.
  unfold createEntries. set (rs := match t_file t with Some _ => inputs | None => [] end).
  assert (∀ l out (es : gmap entryKey V1DurableEventLogEntry), (∀ r, r ∈ l → r ∈ inputs) →
    (∀ k e, es !! k = Some e → t_entries t !! k = Some e ∨ ∃ r inputs', r ∈ inputs ∧ e = newEntry inputs' t r) →
    (∀ e, e ∈ out → ∃ r inputs', r ∈ inputs ∧ e = newEntry inputs' t r) →
    let acc := foldl (λ acc r, match acc.2 !! rowKey r with
      | Some _ => acc | None => (acc.1 ++ [newEntry rs t r], <[rowKey r := newEntry rs t r]> acc.2) end) (out, es) l in
    (∀ k e, acc.2 !! k = Some e → t_entries t !! k = Some e ∨ ∃ r inputs', r ∈ inputs ∧ e = newEntry inputs' t r) ∧
    (∀ e, e ∈ acc.1 → ∃ r inputs', r ∈ inputs ∧ e = newEntry inputs' t r)) as Hk.
  { induction l as [|r l IH]; intros out es Hin Hes Hout; cbn; [done|].
    assert (r ∈ inputs) as Hr by (apply Hin; by left). destruct (es !! rowKey r); apply IH; try (intros; apply Hin; by right); [done..| |].
    - intros k e [[_ <-]|[_ ?]]%lookup_insert_Some; [right; eauto|by apply Hes].
    - intros e [?|Hlast]%elem_of_app; [by apply Hout|]. apply list_elem_of_singleton in Hlast as ->. eauto. }
  specialize (Hk rs [] (t_entries t)). destruct (foldl _ _ rs) as [out es]. cbn in *.
  assert (t_entries (raiseOrder (omap e_SatisfiedOrder out) (set_entries es t)) = es) as -> by (unfold raiseOrder; cbn; by destruct (t_file t)).
  apply Hk; [|by left|by intros e ?%elem_of_nil]. intros r. unfold rs. by destruct (t_file t); [|intros ?%elem_of_nil].
Qed.

Lemma found_child l c e : foldl addSkipRow ∅ l !! c = Some e → is_Some (e_ChildTaskExternalID e).
Proof.
  assert (∀ (acc : gmap uuid V1DurableEventLogEntry), (∀ c e, acc !! c = Some e → is_Some (e_ChildTaskExternalID e)) →
    ∀ c e, foldl addSkipRow acc l !! c = Some e → is_Some (e_ChildTaskExternalID e)) as Hl.
  { induction l as [|r l IH]; intros acc Hacc; cbn; [done|]. apply IH. intros c' e'. unfold addSkipRow.
    destruct (e_ChildTaskExternalID r) as [ch|] eqn:Hr; [|apply Hacc].
    destruct (acc !! ch); [destruct (_ <=? _); [apply Hacc|]|]; intros [[_ <-]|[_ ?]]%lookup_insert_Some; by eauto. }
  apply Hl. by intros ? ? ?%lookup_empty_Some.
Qed.

Lemma wait_skips fails task ids conditions f t es ch :
  planDurableEventLogAppend fails task ids (WaitFor conditions) f t = Done (es, ch) → skipOpts es = [].
Proof. unfold planDurableEventLogAppend, mbind, outcome_bind. destruct (unchecked _); [|done..]. by intros [= <- _]. Qed.

(** The row that answers a wait is keyed as a wait; that of a run has a child, or is keyed as a run. *)
Definition rowTold (ev : ingestEvent) (e : V1DurableEventLogEntry) : Prop :=
  match ev with
  | WaitFor _ => waitKeyed (e_IdempotencyKey e)
  | TriggerRuns opts => Forall ordinary opts → is_Some (e_ChildTaskExternalID e) ∨ runKeyed (e_IdempotencyKey e)
  | Memo _ _ => True
  end.

Section requests.
Context (P : uuid → Prop).

Lemma newEntry_told ev ids i o inputs t : optTold P ev o → entryTold P (newEntry inputs t (toCreate ids i o)).
Proof.
  unfold entryTold. cbn. destruct ev as [payload memoKey|opts|conditions]; cbn.
  - intros [-> ->]. by rewrite bool_decide_true.
  - intros [Hkey Ht]. case_bool_decide as Hc; [intros Htr; by destruct (Ht Htr)|]. split_and!; [done..|]. intros Htr. by apply Ht.
  - intros (_ & -> & ->). by rewrite bool_decide_true.
Qed.

Lemma ran_told X t task q d k es new created found :
  keysOk t → logTold P t → ran X t task q d k es new created found →
  logTold P (d_log d) ∧ ∀ r, r ∈ ar_logEntries (d_result d) → rowTold (in_Event (q_opts q)) (r_Entry r).
Proof.
  intros Hkeys Ht Hran. destruct (ra_resolved _ _ _ _ _ _ _ _ _ _ Hran) as [f Hr]. destruct (ra_planned _ _ _ _ _ _ _ _ _ _ Hran) as [ch Hp].
  destruct (resolveOne_log _ _ Hr) as (_ & _ & Hte & _). cbn [k_log] in Hte. pose proof (resolveOne_event _ _ Hr) as Hev.
  change (k_event (Locked task q f t)) with (in_Event (q_opts q)) in Hev.
  assert (logTold P (k_log k)) as Htk by by revert Ht; apply logTold_entries.
  pose proof (plan_told P _ _ _ _ _ _ _ _ Htk Hp) as Hopts.
  pose proof (ra_checked _ _ _ _ _ _ _ _ _ _ Hran) as [Hnew Hmatch]%(proj1 (newOpts_spec _ _)).
  assert (∀ o, o ∈ new → o ∈ nonSkipOpts es) as Hsub.
  { intros o. rewrite Hnew. by intros [?%list_elem_of_In _]%list_elem_of_In%filter_In. }
  assert (∀ r, r ∈ imap (toCreate (q_ids (k_request k))) new → ∃ i o, o ∈ new ∧ r = toCreate (q_ids (k_request k)) i o) as Hin.
  { intros r [i Hi]%list_elem_of_lookup. rewrite list_lookup_imap in Hi. destruct (new !! i) as [o|] eqn:Ho; [|done]. injection Hi as <-.
    exists i, o. split; [by eapply list_elem_of_lookup_2|done]. }
  destruct (create_back (imap (toCreate (q_ids (k_request k))) new) (k_log k)) as [Hback Hfrom].
  rewrite (ra_created _ _ _ _ _ _ _ _ _ _ Hran) in Hback, Hfrom. cbn [fst snd] in Hback, Hfrom. split.
  - intros k' e He. destruct (Hback k' e He) as [?|(r & inputs' & (i & o & Ho & ->)%Hin & ->)]; [by eapply Htk|].
    eapply newEntry_told. by apply Hopts, Hsub.
  - intros r Hrin. destruct (in_Event (q_opts q)) as [payload memoKey|opts|conditions] eqn:Hq; [done|..]; cbn in Hev.
    + destruct Hev as (opts' & Heq & Hord). rewrite Heq in Hopts. intros Hall.
      destruct (answer_cases _ _ _ _ _ _ _ _ _ _ _ Hran Hrin) as [(o & Ho & He)|[He|(o & cs & Ho & He)]].
      * right. destruct (Hopts o Ho) as [[Hkey _] Hdag]. specialize (Hmatch o _ Ho He). unfold idempotencyKeyMatches in Hmatch.
        rewrite (Hdag (Hord Hall)) in Hmatch. apply bool_decide_eq_true in Hmatch. by rewrite <- Hmatch.
      * right. destruct (Hfrom _ He) as (r' & inputs' & (i & o & Ho & ->)%Hin & ->). by apply (Hopts o (Hsub o Ho)).
      * left. by eapply found_child.
    + rewrite Hev in Hopts. destruct (answer_cases _ _ _ _ _ _ _ _ _ _ _ Hran Hrin) as [(o & Ho & He)|[He|(o & cs & Ho & He)]].
      * destruct (Hopts o Ho) as [[Hkey _] Hdag]. specialize (Hmatch o _ Ho He). unfold idempotencyKeyMatches in Hmatch.
        rewrite (Hdag I) in Hmatch. apply bool_decide_eq_true in Hmatch. cbn. by rewrite <- Hmatch.
      * destruct (Hfrom _ He) as (r' & inputs' & (i & o & Ho & ->)%Hin & ->). by apply (Hopts o (Hsub o Ho)).
      * rewrite Hev in Hp. rewrite (wait_skips _ _ _ _ _ _ _ _ Hp) in Ho. by apply elem_of_nil in Ho.
Qed.

Lemma ingest_told X task q t : keysOk t → logTold P t → logTold P (ingest X task q t).2.
Proof.
  intros Hk Ht. destruct (ingest_cases X task q t) as [(d & Hp & ->)|(_ & Hte & _)]; [|by revert Ht; apply logTold_entries].
  apply pipeline_ran in Hp as (k & es & new & created & found & Hran). by apply finish_told, (ran_told _ _ _ _ _ _ _ _ _ _ Hk Ht Hran).
Qed.

Lemma ingest_rows X task q t a t' :
  keysOk t → logTold P t → ingest X task q t = (inl [(task, inl a)], t') →
  ∀ r, r ∈ ar_logEntries a → rowTold (in_Event (q_opts q)) (r_Entry r).
Proof.
  intros Hk Ht (d & Hp & -> & ->)%ingest_ok. apply pipeline_ran in Hp as (k & es & new & created & found & Hran).
  by apply (ran_told _ _ _ _ _ _ _ _ _ _ Hk Ht Hran).
Qed.
End requests.

End record.

End TriggerRecord.
