(* ===== verification/IngestBuffer.v ===== *)
(** The buffer in front of the event log (durableEventIngestBuffer of src/pkg/repository/durable_events.go): requests
    that arrive within an interval share one transaction.  The goroutines of the buffer are a step relation over its
    state, the sleeping timers and the flushes under way. *)

From S2P Require Import Prelude Workers LogTables EventLog.
Import Workers LogTables EventLog.

Module IngestBuffer.

Open Scope Z_scope.

(** ** Requests *)

(** [ir_channel] stands for the response channel, which is made for the request. *)
Record durableEventIngestRequest := IngestRequest {
  ir_channel : nat;
  ir_taskId : Z;
  ir_opts : IngestDurableTaskEventOpts;
}.

Record durableEventIngestResponse := Response {
  re_result : option appendDurableEventLogResult;
  re_err : option ingestError;
}.

(** What the ingest function of the buffer returns: what each task gets, or the error of the whole batch. *)
Definition ingestReply : Type := list (Z * (appendDurableEventLogResult + ingestError)) + ingestError.

(** The ingest function: the batch gives each task one request; [E] is what the database does, [S] what it holds. *)
Class IngestFn (E S : Type) := ingestBatch : E → list (Z * IngestDurableTaskEventOpts) → S → ingestReply * S.

(** ** The buffer *)

Record durableEventIngestBuffer := Buffer {
  b_pending : list durableEventIngestRequest;
  b_flushScheduled : bool;
}.
Definition newDurableEventIngestBuffer : durableEventIngestBuffer := Buffer [] false.

(** submit up to the wait for the response: the requests to flush, and whether a timer is started. *)
Definition submit (maxBatchSize : Z) (request : durableEventIngestRequest) (b : durableEventIngestBuffer) :
    list durableEventIngestRequest * bool * durableEventIngestBuffer :=
  let pending := b_pending b ++ [request] in
  if maxBatchSize <=? Z.of_nat (length pending) then (pending, false, Buffer [] false)
  else if b_flushScheduled b then ([], false, Buffer pending true)
  else ([], true, Buffer pending true).

(** flushAfterInterval once the interval is over: the requests to flush. *)
Definition flushAfterInterval (b : durableEventIngestBuffer) : list durableEventIngestRequest * durableEventIngestBuffer :=
  (b_pending b, Buffer [] false).

(** The first request of each task, and the others, which wait for a follow-up flush. *)
Definition addRequest (acc : list durableEventIngestRequest * list durableEventIngestRequest)
    (request : durableEventIngestRequest) : list durableEventIngestRequest * list durableEventIngestRequest :=
  if existsb (λ r, ir_taskId r =? ir_taskId request) acc.1 then (acc.1, acc.2 ++ [request])
  else (acc.1 ++ [request], acc.2).

Definition splitRequests (requests : list durableEventIngestRequest) :
    list durableEventIngestRequest * list durableEventIngestRequest :=
  foldl addRequest ([], []) requests.

Definition batchOf (batch : list durableEventIngestRequest) : list (Z * IngestDurableTaskEventOpts) :=
  (λ r, (ir_taskId r, ir_opts r)) <$> batch.

(** The response to a request of a batch; a task without a result or an error is answered a nil result. *)
Definition respond (reply : ingestReply) (r : durableEventIngestRequest) : durableEventIngestResponse :=
  match reply with
  | inr e => Response None (Some e)
  | inl answers =>
      match List.find (λ a, a.1 =? ir_taskId r) answers with
      | Some (_, inr e) => Response None (Some e)
      | Some (_, inl a) => Response (Some a) None
      | None => Response None None
      end
  end.

Definition responses (reply : ingestReply) (batch : list durableEventIngestRequest) :
    list (nat * durableEventIngestResponse) :=
  (λ r, (ir_channel r, respond reply r)) <$> batch.

(** The flush of the requests that were put off, when there are any. *)
Definition laterFlush (deferred : list durableEventIngestRequest) : list (list durableEventIngestRequest) :=
  match deferred with [] => [] | _ => [deferred] end.

(** A batch that failed as a whole is tried again request by request. *)
Definition splitsError (reply : ingestReply) (batch : list durableEventIngestRequest) : bool :=
  match reply with inr _ => (1 <? length batch)%nat | inl _ => false end.

(** flush once its batch was ingested: the responses it sends, and the flushes it starts. *)
Definition finishFlush (requests : list durableEventIngestRequest) (reply : ingestReply) :
    list (nat * durableEventIngestResponse) * list (list durableEventIngestRequest) :=
  let '(batch, deferred) := splitRequests requests in
  if splitsError reply batch then ([], ((λ r, [r]) <$> batch) ++ laterFlush deferred)
  else (responses reply batch, laterFlush deferred).

(** ** The goroutines *)

(** A flush under way: whether it has the semaphore, and its requests. *)
Record flight := Flight { fl_ingesting : bool; fl_requests : list durableEventIngestRequest }.

(** [y_timers] timers sleep; [y_answers] is what was sent on response channels.  [y_submitted] and [y_done] are
    histories: all requests, and those that were answered, in the order of their transactions. *)
Record system (E S : Type) := System {
  y_buffer : durableEventIngestBuffer;
  y_timers : nat;
  y_flights : list flight;
  y_db : S;
  y_answers : list (nat * durableEventIngestResponse);
  y_submitted : list durableEventIngestRequest;
  y_done : list (E * durableEventIngestRequest);
}.
#[global] Arguments System {E S}.
#[global] Arguments y_buffer {E S}.
#[global] Arguments y_timers {E S}.
#[global] Arguments y_flights {E S}.
#[global] Arguments y_db {E S}.
#[global] Arguments y_answers {E S}.
#[global] Arguments y_submitted {E S}.
#[global] Arguments y_done {E S}.

(** What configures a buffer. *)
Record DurableEventBufferOpts := BufferOpts { MaxBatchSize : Z; MaxConcurrentFlushes : nat }.

Definition waiting (requests : list durableEventIngestRequest) : flight := Flight false requests.
Definition ingesting (fs : list flight) : nat := length (List.filter fl_ingesting fs).

Section steps.
Context {E S : Type} `{IngestFn E S} (opts : DurableEventBufferOpts).

Definition startSystem (db : S) : system E S := System newDurableEventIngestBuffer 0 [] db [] [] [].

(** A request is submitted. *)
Definition submitStep (task : Z) (o : IngestDurableTaskEventOpts) (y : system E S) : system E S :=
  let request := IngestRequest (length (y_submitted y)) task o in
  let '(toFlush, timer, b) := submit (MaxBatchSize opts) request (y_buffer y) in
  System b (if timer then Datatypes.S (y_timers y) else y_timers y) (y_flights y ++ (waiting <$> laterFlush toFlush)) (y_db y)
    (y_answers y) (y_submitted y ++ [request]) (y_done y).

(** A timer ends. *)
Definition timerStep (y : system E S) : option (system E S) :=
  match y_timers y with
  | O => None
  | Datatypes.S n =>
      let '(toFlush, b) := flushAfterInterval (y_buffer y) in
      Some (System b n (y_flights y ++ (waiting <$> laterFlush toFlush)) (y_db y) (y_answers y) (y_submitted y) (y_done y))
  end.

(** A flush gets the semaphore. *)
Definition acquireStep (i : nat) (y : system E S) : option (system E S) :=
  match y_flights y !! i with
  | Some (Flight false rs) =>
      if (ingesting (y_flights y) <? MaxConcurrentFlushes opts)%nat
      then Some (System (y_buffer y) (y_timers y) (<[i := Flight true rs]> (y_flights y)) (y_db y) (y_answers y)
                   (y_submitted y) (y_done y))
      else None
  | _ => None
  end.

(** The transaction of a flush, the release of the semaphore, and what follows.  The responses are sent in the order in
    which a map is ranged over, [order] puts them into it. *)
Definition ingestStep (i : nat) (e : E) (order : list (nat * durableEventIngestResponse) → list (nat * durableEventIngestResponse))
    (y : system E S) : option (system E S) :=
  match y_flights y !! i with
  | Some (Flight true rs) =>
      let batch := (splitRequests rs).1 in
      let '(reply, db) := ingestBatch e (batchOf batch) (y_db y) in
      let '(sent, flushes) := finishFlush rs reply in
      Some (System (y_buffer y) (y_timers y) (delete i (y_flights y) ++ (waiting <$> flushes)) db (y_answers y ++ order sent)
              (y_submitted y) (y_done y ++ if splitsError reply batch then [] else (e,.) <$> batch))
  | _ => None
  end.

(** The steps of the goroutines. *)
Inductive internal : system E S → system E S → Prop :=
  | in_timer y y' : timerStep y = Some y' → internal y y'
  | in_acquire i y y' : acquireStep i y = Some y' → internal y y'
  | in_ingest i e order y y' : (∀ l, order l ≡ₚ l) → ingestStep i e order y = Some y' → internal y y'.

(** What can happen when the transactions are those that [good] allows. *)
Inductive bufferReachable (good : E → Prop) (db : S) : system E S → Prop :=
  | br_start : bufferReachable good db (startSystem db)
  | br_submit task o y : bufferReachable good db y → bufferReachable good db (submitStep task o y)
  | br_timer y y' : bufferReachable good db y → timerStep y = Some y' → bufferReachable good db y'
  | br_acquire i y y' : bufferReachable good db y → acquireStep i y = Some y' → bufferReachable good db y'
  | br_ingest i e order y y' :
      bufferReachable good db y → good e → (∀ l, order l ≡ₚ l) → ingestStep i e order y = Some y' → bufferReachable good db y'.

(** Requests handled one after the other, each in a transaction of its own. *)
Fixpoint runAlone (l : list (E * durableEventIngestRequest)) (db : S) : list (nat * durableEventIngestResponse) * S :=
  match l with
  | [] => ([], db)
  | (e, r) :: l =>
      let '(reply, db) := ingestBatch e (batchOf [r]) db in
      let '(answers, db) := runAlone l db in
      ((ir_channel r, respond reply r) :: answers, db)
  end.
End steps.

(** What the buffer relies on: a batch of different tasks answers each of them, and does what its requests do one after
    the other; a batch that fails in a way that [good] allows leaves nothing behind. *)
Class IngestLaws {E S : Type} `{IngestFn E S} (good : E → Prop) := {
  il_answers e batch db answers db' : ingestBatch e batch db = (inl answers, db') → answers.*1 ≡ₚ batch.*1;
  il_alone e batch db answers db' :
    NoDup (ir_taskId <$> batch) → ingestBatch e (batchOf batch) db = (inl answers, db') →
    runAlone ((e,.) <$> batch) db = (responses (inl answers) batch, db');
  il_atomic e batch db err db' : good e → ingestBatch e batch db = (inr err, db') → db' = db;
}.

(** ** The event log as the ingest function *)

(** What the database does to a transaction, and the new ids it makes for each task. *)
Record batchEnv := BatchEnv { be_tx : txEnv; be_ids : Z → newIds }.

(** By task. *)
Definition taskLe (a b : Z * request) : Prop := a.1 ≤ b.1.
#[global] Instance taskLe_dec : RelDecision taskLe.
Proof. unfold RelDecision, taskLe. intros. apply _. Defined.

#[global] Instance appendBatch `{Params} : IngestFn batchEnv (gmap Z taskLog) := λ e batch db,
  appendDurableEventLogBatch (be_tx e) (merge_sort taskLe ((λ to, (to.1, Request to.2 (be_ids e to.1))) <$> batch)) db.

(** A commit that is reported as failed did not happen. *)
Definition commitReported (e : batchEnv) : Prop := x_fails (be_tx e) Commit = true → x_applied (be_tx e) = false.

End IngestBuffer.
