(* ===== verification/IngestBufferTheorems.v ===== *)
(** Theorems on the ingest buffer: every request is answered once, and the buffer is indistinguishable from handling
    the requests one after the other. *)

From S2P Require Import Prelude Workers LogTables EventLog EventLogTheorems IngestBuffer.
Import Workers LogTables EventLog EventLogTheorems IngestBuffer.

Module IngestBufferTheorems.

Open Scope Z_scope.

(** ** A flush *)

Lemma addRequest_spec acc r :
  NoDup (ir_taskId <$> acc.1) →
  (addRequest acc r).1 ++ (addRequest acc r).2 ≡ₚ r :: acc.1 ++ acc.2 ∧ NoDup (ir_taskId <$> (addRequest acc r).1) ∧
  (addRequest acc r).1 ≠ [].
Proof.
  intros Hnd. unfold addRequest. destruct (existsb _ acc.1) eqn:He; cbn.
  - split_and!; [by rewrite app_assoc, Permutation_app_comm|done|]. by destruct acc.1.
  - split_and!; [by rewrite (Permutation_app_comm acc.1), <- app_assoc| |by destruct acc.1].
    rewrite fmap_app. apply NoDup_app. split_and!; [done| |apply NoDup_singleton].
    intros t (q & -> & Hq)%list_elem_of_fmap Ht. apply list_elem_of_singleton in Ht. apply not_true_iff_false in He. apply He.
    apply existsb_exists. exists q. split; [by apply list_elem_of_In|lia].
Qed.

Lemma splitRequests_spec rs :
  let '(batch, deferred) := splitRequests rs in
  batch ++ deferred ≡ₚ rs ∧ NoDup (ir_taskId <$> batch) ∧ (rs ≠ [] → batch ≠ []).
Proof.
  unfold splitRequests. induction rs as [|r rs IH] using rev_ind; [by split_and!; [|constructor|]|].
  rewrite foldl_snoc. destruct (foldl addRequest ([], []) rs) as [batch deferred]. destruct IH as (Hp & Hnd & _).
  destruct (addRequest_spec (batch, deferred) r Hnd) as (Hp' & Hnd' & Hne).
  destruct (addRequest (batch, deferred) r) as [batch' deferred']. cbn in *. split_and!; [|done|done].
  rewrite Hp', Hp. apply Permutation_cons_append.
Qed.

Lemma laterFlush_concat rs : concat (laterFlush rs) = rs.
Proof. destruct rs; cbn; by rewrite ?app_nil_r. Qed.

Lemma laterFlush_ne rs : Forall (λ l, l ≠ []) (laterFlush rs).
Proof. destruct rs; cbn; by repeat constructor. Qed.

Lemma concat_singletons {A} (l : list A) : concat ((λ x, [x]) <$> l) = l.
Proof. induction l as [|x l IH]; cbn; [done|]. by f_equal. Qed.

(** The requests a flush answers. *)
Definition answeredBy (rs : list durableEventIngestRequest) (reply : ingestReply) : list durableEventIngestRequest :=
  if splitsError reply (splitRequests rs).1 then [] else (splitRequests rs).1.

Lemma finishFlush_spec rs reply :
  let '(sent, flushes) := finishFlush rs reply in
  sent = responses reply (answeredBy rs reply) ∧ concat flushes ++ answeredBy rs reply ≡ₚ rs ∧ Forall (λ l, l ≠ []) flushes.
Proof.
  unfold finishFlush, answeredBy. pose proof (splitRequests_spec rs) as Hs. destruct (splitRequests rs) as [batch deferred].
  destruct Hs as (Hp & _). cbn. destruct (splitsError reply batch).
  - rewrite concat_app, concat_singletons, laterFlush_concat, app_nil_r. split_and!; [done..|].
    apply Forall_app. split; [|apply laterFlush_ne]. by apply Forall_fmap, Forall_true.
  - rewrite laterFlush_concat, (Permutation_app_comm deferred). split_and!; [done..|apply laterFlush_ne].
Qed.

(** ** Every request is answered once *)

Section buffer.
Context {E S : Type} `{IngestFn E S} (opts : DurableEventBufferOpts).
Implicit Types (y : system E S).

(** The requests that are under way. *)
Definition flying y : list durableEventIngestRequest := concat (fl_requests <$> y_flights y).

Record bufferOk y : Prop := BufferOk {
  bo_scheduled : b_pending (y_buffer y) ≠ [] → b_flushScheduled (y_buffer y) = true;
  bo_timer : b_flushScheduled (y_buffer y) = true → (0 < y_timers y)%nat;
  bo_flights : Forall (λ f, fl_requests f ≠ []) (y_flights y);
  bo_kept : y_submitted y ≡ₚ b_pending (y_buffer y) ++ flying y ++ (y_done y).*2;
  bo_answers : (y_answers y).*1 ≡ₚ ir_channel <$> (y_done y).*2;
  bo_channels : ir_channel <$> y_submitted y = seq 0 (length (y_submitted y));
}.

Lemma fly_requests (ls : list (list durableEventIngestRequest)) : fl_requests <$> (waiting <$> ls) = ls.
Proof. induction ls as [|l ls IH]; cbn; [done|]. by f_equal. Qed.

Lemma fly_app (fs : list flight) ls :
  concat (fl_requests <$> (fs ++ (waiting <$> ls))) = concat (fl_requests <$> fs) ++ concat ls.
Proof. by rewrite fmap_app, concat_app, fly_requests. Qed.

Lemma flights_app (fs : list flight) ls :
  Forall (λ f, fl_requests f ≠ []) fs → Forall (λ l, l ≠ []) ls → Forall (λ f, fl_requests f ≠ []) (fs ++ (waiting <$> ls)).
Proof. intros Hfs Hls. apply Forall_app. split; [done|]. by apply Forall_fmap. Qed.

Lemma bufferOk_start db : bufferOk (startSystem db).
Proof. by split. Qed.

Lemma bufferOk_submit task o y : bufferOk y → bufferOk (submitStep opts task o y).
Proof.
  intros [Hs Ht Hf Hk Ha Hc]. unfold submitStep, submit. set (r := IngestRequest _ _ _).
  assert (ir_channel <$> (y_submitted y ++ [r]) = seq 0 (length (y_submitted y ++ [r]))) as Hc'
    by (rewrite fmap_app, Hc, length_app, seq_app; done).
  destruct (_ <=? _); [|destruct (b_flushScheduled (y_buffer y)) eqn:Hfs]; split; cbn;
    unfold flying; cbn [y_flights]; rewrite ?fly_app, ?laterFlush_concat, ?app_nil_r; try done; try lia; try (by auto).
  - apply flights_app; [done|apply laterFlush_ne].
  - rewrite Hk. unfold flying. solve_Permutation.
  - rewrite Hk. unfold flying. solve_Permutation.
  - rewrite Hk. unfold flying. solve_Permutation.
Qed.

Lemma bufferOk_timer y y' : bufferOk y → timerStep y = Some y' → bufferOk y'.
Proof.
  intros [Hs Ht Hf Hk Ha Hc]. unfold timerStep. destruct (y_timers y) as [|n]; [done|]. cbn. intros [= <-].
  split; cbn; try done.
  - apply flights_app; [done|apply laterFlush_ne].
  - unfold flying. cbn [y_flights]. rewrite fly_app, laterFlush_concat, Hk. unfold flying. solve_Permutation.
Qed.

Lemma bufferOk_acquire i y y' : bufferOk y → acquireStep opts i y = Some y' → bufferOk y'.
Proof.
  intros [Hs Ht Hf Hk Ha Hc]. unfold acquireStep. destruct (y_flights y !! i) as [[[] rs]|] eqn:Hi; [done| |done].
  destruct (_ <? _)%nat; [|done]. intros [= <-]. split; cbn; try done.
  - apply Forall_insert; [done|]. cbn. by apply (Forall_lookup_1 _ _ _ _ Hf Hi).
  - rewrite Hk. unfold flying. cbn [y_flights]. rewrite list_fmap_insert. cbn. rewrite list_insert_id; [done|].
    by rewrite list_lookup_fmap, Hi.
Qed.

(** What the transaction of a flush does. *)
Lemma ingestStep_inv i e order y y' :
  ingestStep i e order y = Some y' → ∃ rs reply db flushes,
    y_flights y !! i = Some (Flight true rs) ∧ ingestBatch e (batchOf (splitRequests rs).1) (y_db y) = (reply, db) ∧
    concat flushes ++ answeredBy rs reply ≡ₚ rs ∧ Forall (λ l, l ≠ []) flushes ∧ flushes = (finishFlush rs reply).2 ∧
    y' = System (y_buffer y) (y_timers y) (delete i (y_flights y) ++ (waiting <$> flushes)) db
           (y_answers y ++ order (responses reply (answeredBy rs reply))) (y_submitted y)
           (y_done y ++ ((e,.) <$> answeredBy rs reply)).
Proof.
  unfold ingestStep. destruct (y_flights y !! i) as [[[] rs]|] eqn:Hi; [|done..].
  destruct (ingestBatch e _ (y_db y)) as [reply db] eqn:Hb. pose proof (finishFlush_spec rs reply) as Hfin.
  destruct (finishFlush rs reply) as [sent flushes] eqn:Hff. destruct Hfin as (-> & Hp & Hne). intros [= <-].
  exists rs, reply, db, flushes. split_and!; [done|exact Hb|done|done|by rewrite Hff|]. f_equal. f_equal.
  unfold answeredBy. by destruct (splitsError reply (splitRequests rs).1).
Qed.

Lemma bufferOk_ingest i e order y y' : (∀ l, order l ≡ₚ l) → bufferOk y → ingestStep i e order y = Some y' → bufferOk y'.
Proof.
  intros Hord [Hs Ht Hf Hk Ha Hc] (rs & reply & db & flushes & Hi & _ & Hp & Hne & _ & ->)%ingestStep_inv.
  split; cbn; try done.
  - apply flights_app; [by apply Forall_delete|done].
  - rewrite Hk. unfold flying. cbn [y_flights]. rewrite fly_app, fmap_app, <- list_fmap_compose.
    rewrite (delete_Permutation _ _ _ Hi) at 1. cbn. rewrite <- Hp at 1.
    assert ((snd ∘ (e,.)) <$> answeredBy rs reply = answeredBy rs reply) as -> by apply list_fmap_id. solve_Permutation.
  - rewrite fmap_app, Hord, Ha, fmap_app, fmap_app. unfold responses. by rewrite <- !list_fmap_compose.
Qed.

Lemma bufferOk_reachable good db y : bufferReachable opts good db y → bufferOk y.
Proof.
  induction 1; [apply bufferOk_start|by apply bufferOk_submit|by eapply bufferOk_timer|by eapply bufferOk_acquire|by eapply bufferOk_ingest].
Qed.

(** ** One after the other *)

Lemma runAlone_app l1 l2 db :
  runAlone (l1 ++ l2) db =
  let '(as1, db1) := runAlone l1 db in let '(as2, db2) := runAlone l2 db1 in (as1 ++ as2, db2).
Proof.
  revert db. induction l1 as [|[e r] l1 IH]; intros db; cbn [runAlone app].
  - by destruct (runAlone l2 db).
  - destruct (ingestBatch e (batchOf [r]) db) as [reply db']. rewrite IH. destruct (runAlone l1 db') as [as1 db1].
    by destruct (runAlone l2 db1).
Qed.

(** The requests answered so far were handled one after the other. *)
Definition inSequence (db : S) y : Prop :=
  ∃ answers, runAlone (y_done y) db = (answers, y_db y) ∧ y_answers y ≡ₚ answers.

Lemma inSequence_ingest `{!IngestLaws good} db i e order y y' :
  good e → (∀ l, order l ≡ₚ l) → ingestStep i e order y = Some y' → inSequence db y → inSequence db y'.
Proof.
  intros He Hord (rs & reply & db' & flushes & _ & Hb & _ & _ & _ & ->)%ingestStep_inv (answers & Hrun & Hans).
  pose proof (splitRequests_spec rs) as Hs. unfold answeredBy. destruct (splitRequests rs) as [batch deferred]. cbn [fst] in *.
  destruct Hs as (_ & Hnd & _). exists (answers ++ responses reply (if splitsError reply batch then [] else batch)).
  split; [|cbn; by rewrite Hord, Hans]. cbn [y_done y_db]. rewrite runAlone_app, Hrun.
  destruct (splitsError reply batch) eqn:Hsp.
  - destruct reply as [|err]; [done|]. rewrite (il_atomic _ _ _ _ _ He Hb). cbn. by rewrite app_nil_r.
  - destruct reply as [replies|err]; [by rewrite (il_alone _ _ _ _ _ Hnd Hb)|].
    destruct batch as [|r [|]]; [|cbn [fmap list_fmap runAlone]; by rewrite Hb|done].
    cbn. by rewrite (il_atomic _ _ _ _ _ He Hb).
Qed.

Lemma inSequence_reachable `{!IngestLaws good} db y : bufferReachable opts good db y → inSequence db y.
Proof.
  induction 1 as [|task o y Hy IH|y y' Hy IH Hst|i y y' Hy IH Hst|i e order y y' Hy IH He Hord Hst].
  - by exists [].
  - unfold inSequence, submitStep. by destruct (submit _ _ _) as [[toFlush timer] b].
  - unfold timerStep in Hst. destruct (y_timers y); [done|]. by injection Hst as <-.
  - unfold acquireStep in Hst. destruct (y_flights y !! i) as [[[] rs]|]; [done| |done].
    destruct (_ <? _)%nat; [|done]. by injection Hst as <-.
  - by eapply inSequence_ingest.
Qed.

(** Every response has a result or an error. *)
Lemma respond_answers `{!IngestLaws good} e batch db answers db' r :
  ingestBatch e (batchOf batch) db = (inl answers, db') → r ∈ batch → respond (inl answers) r ≠ Response None None.
Proof.
  intros Hb Hr. unfold respond. destruct (List.find _ answers) as [[? []]|] eqn:Hf; [done..|].
  assert (ir_taskId r ∈ answers.*1) as (a & Heq & Ha)%list_elem_of_fmap.
  { rewrite (il_answers _ _ _ _ _ Hb). unfold batchOf. rewrite <- list_fmap_compose. by apply (list_elem_of_fmap_2 ir_taskId). }
  apply list_elem_of_In in Ha. pose proof (find_none _ _ Hf _ Ha) as Hn. cbn in Hn. lia.
Qed.

(** ** Termination *)

(** A flush of requests that are put off again and again, or tried one by one, comes to an end. *)
Definition weight (f : flight) : nat := 5 * length (fl_requests f) - (if fl_ingesting f then 3 else 2).
Definition remaining y : nat := 5 * length (b_pending (y_buffer y)) + y_timers y + sum_list_with weight (y_flights y).

Lemma weight_waiting ls :
  Forall (λ l, l ≠ []) ls → (sum_list_with weight (waiting <$> ls) + 2 * length ls = 5 * length (concat ls))%nat.
Proof.
  induction 1 as [|l ls Hl _ IH]; cbn [fmap list_fmap sum_list_with concat length]; [done|]. rewrite length_app.
  assert (weight (waiting l) = 5 * length l - 2)%nat as -> by done. destruct l as [|r l]; [done|]. cbn [length] in *. lia.
Qed.

Lemma laterFlush_weight rs : (sum_list_with weight (waiting <$> laterFlush rs) ≤ 5 * length rs)%nat.
Proof. pose proof (weight_waiting _ (laterFlush_ne rs)) as Hw. rewrite laterFlush_concat in Hw. lia. Qed.

Lemma finish_weight rs reply :
  rs ≠ [] → (sum_list_with weight (waiting <$> (finishFlush rs reply).2) < 5 * length rs - 3)%nat.
Proof.
  intros Hne. unfold finishFlush. pose proof (splitRequests_spec rs) as Hs. destruct (splitRequests rs) as [batch deferred].
  destruct Hs as (Hp & _ & Hb). apply Permutation_length in Hp. rewrite length_app in Hp. specialize (Hb Hne).
  pose proof (laterFlush_weight deferred) as Hl. destruct (splitsError reply batch) eqn:He; cbn [snd].
  - rewrite fmap_app, sum_list_with_app. pose proof (weight_waiting ((λ r, [r]) <$> batch)) as Hw.
    rewrite concat_singletons, length_fmap in Hw. destruct reply as [|err]; [done|]. cbn [splitsError] in He.
    assert (Forall (λ l : list durableEventIngestRequest, l ≠ []) ((λ r, [r]) <$> batch)) by by apply Forall_fmap, Forall_true.
    apply Nat.ltb_lt in He. specialize (Hw ltac:(done)). destruct deferred; [cbn [laterFlush fmap list_fmap sum_list_with]|]; lia.
  - destruct batch; [done|]. cbn [length] in Hp. lia.
Qed.

Lemma sum_delete (fs : list flight) i f :
  fs !! i = Some f → sum_list_with weight fs = (weight f + sum_list_with weight (delete i fs))%nat.
Proof. intros Hi. by rewrite (sum_list_with_perm weight _ _ (delete_Permutation _ _ _ Hi)). Qed.

Lemma sum_insert (fs : list flight) i f g :
  fs !! i = Some f → (sum_list_with weight (<[i := g]> fs) + weight f = sum_list_with weight fs + weight g)%nat.
Proof.
  revert i. induction fs as [|h fs IH]; intros [|i]; cbn [lookup list_lookup]; [done..| |].
  - intros [= ->]. cbn [insert list_insert sum_list_with]. lia.
  - intros Hi. specialize (IH i Hi). change (<[Datatypes.S i := g]> (h :: fs)) with (h :: <[i := g]> fs).
    cbn [sum_list_with]. lia.
Qed.

Lemma internal_step y y' : bufferOk y → internal opts y y' → bufferOk y' ∧ (remaining y' < remaining y)%nat.
Proof.
  intros Hok Hin. revert Hok. destruct Hin as [y0 y1 Hst|i y0 y1 Hst|i e order y0 y1 Hord Hst]; intros Hok.
  - split; [by eapply bufferOk_timer|]. unfold timerStep in Hst. destruct (y_timers y0) as [|n] eqn:Hn; [done|].
    injection Hst as <-. unfold remaining. cbn [y_buffer y_timers y_flights b_pending]. rewrite Hn, sum_list_with_app.
    pose proof (laterFlush_weight (b_pending (y_buffer y0))). cbn. lia.
  - split; [by eapply bufferOk_acquire|]. unfold acquireStep in Hst.
    destruct (y_flights y0 !! i) as [[[] rs]|] eqn:Hi; [done| |done]. destruct (_ <? _)%nat; [|done]. injection Hst as <-.
    pose proof (Forall_lookup_1 _ _ _ _ (bo_flights _ Hok) Hi) as Hne. unfold remaining. cbn [y_buffer y_timers y_flights].
    pose proof (sum_insert _ _ _ (Flight true rs) Hi) as Hw.
    assert (weight (Flight false rs) = Datatypes.S (weight (Flight true rs))) as Heq; [|lia].
    unfold weight. cbn [fl_requests fl_ingesting] in *. destruct rs; [done|]. cbn [length]. lia.
  - split; [by eapply bufferOk_ingest|].
    apply ingestStep_inv in Hst as (rs & reply & db & flushes & Hi & _ & _ & _ & -> & ->).
    pose proof (Forall_lookup_1 _ _ _ _ (bo_flights _ Hok) Hi) as Hne. unfold remaining. cbn [y_buffer y_timers y_flights].
    rewrite (sum_delete (y_flights y0) i _ Hi), sum_list_with_app. pose proof (finish_weight rs reply Hne).
    unfold weight at 3. cbn [fl_requests fl_ingesting]. lia.
Qed.

Lemma internal_sn y : bufferOk y → sn (internal opts) y.
Proof.
  remember (remaining y) as n eqn:Hn. revert y Hn. induction n as [n IH] using lt_wf_ind. intros y -> Hok. constructor.
  intros y' Hst. destruct (internal_step _ _ Hok Hst) as [Hok' Hlt]. by eapply IH.
Qed.

Lemma internal_star y y' : bufferOk y → rtc (internal opts) y y' → bufferOk y'.
Proof. intros Hok. induction 1 as [|y1 y2 y3 Hst _ IH]; [done|]. by apply IH, (internal_step y1). Qed.

(** When no goroutine can go on, there is none. *)
Lemma internal_done y :
  inhabited E → (0 < MaxConcurrentFlushes opts)%nat → bufferOk y → nf (internal opts) y →
  b_pending (y_buffer y) = [] ∧ y_flights y = [].
Proof.
  intros [e] Hmax [Hs Ht _ _ _ _] Hnf.
  assert (y_timers y = 0)%nat as Hti.
  { destruct (y_timers y) as [|n] eqn:Hn; [done|]. destruct Hnf. eexists. apply in_timer. unfold timerStep. by rewrite Hn. }
  split. { destruct (b_pending (y_buffer y)); [done|]. rewrite Hti in Ht. specialize (Ht (Hs ltac:(done))). lia. }
  assert (∀ i rs, y_flights y !! i ≠ Some (Flight true rs)) as Hno.
  { intros i rs Hi. destruct Hnf. unfold red.
    assert (∃ y', ingestStep i e id y = Some y') as [y' Hy]; [|exists y'; by eapply (in_ingest _ i e id)].
    unfold ingestStep. rewrite Hi. destruct (ingestBatch e _ _) as [reply db]. destruct (finishFlush rs reply). eauto. }
  destruct (y_flights y) as [|[[] rs] fs] eqn:Hfs; [done|by destruct (Hno 0%nat rs)|]. destruct Hnf.
  eexists. apply (in_acquire _ 0%nat). unfold acquireStep. rewrite Hfs. cbn [lookup list_lookup].
  assert (ingesting (Flight false rs :: fs) = 0)%nat as ->.
  { unfold ingesting. destruct (List.filter fl_ingesting (Flight false rs :: fs)) as [|[b rs'] l] eqn:Hf; [done|].
    assert (Flight b rs' ∈ List.filter fl_ingesting (Flight false rs :: fs)) as Hin by (rewrite Hf; left).
    apply list_elem_of_In, filter_In in Hin as [Hin Hb]. cbn in Hb. subst b.
    apply list_elem_of_In, list_elem_of_lookup_1 in Hin as [i Hi]. by destruct (Hno i rs'). }
  apply Nat.ltb_lt in Hmax. by rewrite Hmax.
Qed.
End buffer.

(** ** The event log keeps the laws *)

Section log.
Context `{Params}.

Lemma body_same X tr db db' : db !! tr.1 = db' !! tr.1 → appendBody X [tr] db = appendBody X [tr] db'.
Proof.
  intros Heq. unfold appendBody.
  assert (stage (lockOne db) ((λ tr, (tr.1, inl tr)) <$> [tr]) = stage (lockOne db') ((λ tr, (tr.1, inl tr)) <$> [tr])) as ->;
    [|done].
  cbn [fmap list_fmap stage]. assert (lockOne db tr = lockOne db' tr) as ->; [|done].
  unfold lockOne. by rewrite Heq.
Qed.

Lemma commitLogs_perm failed ds ds' db : ds ≡ₚ ds' → NoDup ds.*1 → commitLogs failed ds db = commitLogs failed ds' db.
Proof.
  intros Hp. revert db. induction Hp as [|d ds ds' Hp IH|[t1 d1] [t2 d2] ds|ds1 ds2 ds3 Hp1 IH1 Hp2 IH2]; intros db Hnd.
  - done.
  - cbn. apply IH. by apply NoDup_cons in Hnd as [_ ?].
  - assert (t1 ≠ t2). { cbn in Hnd. apply NoDup_cons in Hnd as [Hni _]. intros ->. apply Hni. left. }
    cbn. f_equal. destruct (commitOne failed (t1, d1)), (commitOne failed (t2, d2)); try done. by rewrite insert_insert_ne.
  - rewrite IH1 by done. apply IH2. by rewrite <- Hp1.
Qed.

Lemma failedLog_same tr db db' : db !! tr.1 = db' !! tr.1 → failedLog [tr] db tr.1 = failedLog [tr] db' tr.1.
Proof.
  intros Heq. unfold failedLog. cbn. rewrite Z.eqb_refl. cbn. unfold resolvedSignals.
  assert (lockOne db tr = lockOne db' tr) as ->; [|done]. unfold lockOne. by rewrite Heq.
Qed.

(** The transaction's request of a task. *)
Definition requestOf (e : batchEnv) (r : durableEventIngestRequest) : Z * request :=
  (ir_taskId r, Request (ir_opts r) (be_ids e (ir_taskId r))).

Definition answerOf (d : Z * (finished + ingestError)) : Z * (appendDurableEventLogResult + ingestError) :=
  (d.1, match d.2 with inl f => inl (d_result f) | inr err => inr err end).

Lemma alone_runs e failed batch ds db0 db :
  x_fails (be_tx e) Commit = false → NoDup (ir_taskId <$> batch) →
  Forall2 (λ r d, appendBody (be_tx e) [requestOf e r] db0 = inl [d]) batch ds →
  (∀ r, r ∈ batch → failedLog [requestOf e r] db0 (ir_taskId r) = failed (ir_taskId r)) →
  (∀ r, r ∈ batch → db !! ir_taskId r = db0 !! ir_taskId r) →
  runAlone ((e,.) <$> batch) db =
    (zip_with (λ r d, (ir_channel r, respond (inl [answerOf d]) r)) batch ds, commitLogs failed ds db).
Proof.
  intros Hc Hnd Hall Hfailed. revert db Hnd Hfailed.
  induction Hall as [|r d batch ds Hd _ IH]; intros db Hnd Hfailed Hsame; [done|].
  apply NoDup_cons in Hnd as [Hni Hnd]. cbn [fmap list_fmap runAlone].
  assert (d.1 = ir_taskId r) as Ht. { pose proof (body_fst _ _ _ _ Hd) as Hf. by injection Hf. }
  assert (ingestBatch e (batchOf [r]) db = (inl [answerOf d], commitLogs failed [d] db)) as ->.
  { unfold ingestBatch, appendBatch, batchOf, appendDurableEventLogBatch. cbn [fmap list_fmap].
    change (merge_sort taskLe _) with [requestOf e r]. pose proof (Hsame r ltac:(left)) as Hr.
    rewrite (body_same _ _ db db0), Hd, Hc by done. cbv zeta. f_equal. cbn [commitLogs foldl].
    unfold commitOne. destruct d as [t [f|err]]; [done|]. cbn [fst snd] in *. subst t.
    rewrite <- Hfailed by left. change (ir_taskId r) with (requestOf e r).1. by rewrite (failedLog_same (requestOf e r) db db0 Hr). }
  rewrite (IH (commitLogs failed [d] db)); [done|done|intros; apply Hfailed; by right|]. intros q Hq. rewrite <- Hsame by by right.
  cbn. destruct (commitOne failed d); [|done]. rewrite Ht.
  apply lookup_insert_ne. intros Heq. apply Hni. rewrite Heq. by apply (list_elem_of_fmap_2 ir_taskId).
Qed.

Lemma append_inv e batch db answers db' :
  ingestBatch e batch db = (inl answers, db') → ∃ ds,
    x_fails (be_tx e) Commit = false ∧
    appendBody (be_tx e) (merge_sort taskLe ((λ to, (to.1, Request to.2 (be_ids e to.1))) <$> batch)) db = inl ds ∧
    answers = answerOf <$> ds ∧
    db' = commitLogs (failedLog (merge_sort taskLe ((λ to, (to.1, Request to.2 (be_ids e to.1))) <$> batch)) db) ds db.
Proof.
  unfold ingestBatch, appendBatch, appendDurableEventLogBatch. destruct (appendBody _ _ db) as [ds|]; [|done].
  destruct (x_fails (be_tx e) Commit); [done|]. intros [= <- <-]. by exists ds.
Qed.

Lemma append_fst e batch db ds :
  appendBody (be_tx e) (merge_sort taskLe ((λ to, (to.1, Request to.2 (be_ids e to.1))) <$> batch)) db = inl ds →
  ds.*1 ≡ₚ batch.*1.
Proof.
  intros Hds. rewrite (body_fst _ _ _ _ Hds), merge_sort_Permutation, <- list_fmap_compose. done.
Qed.

Lemma append_alone e batch db answers db' :
  NoDup (ir_taskId <$> batch) → ingestBatch e (batchOf batch) db = (inl answers, db') →
  runAlone ((e,.) <$> batch) db = (responses (inl answers) batch, db').
Proof.
  intros Hnd (ds & Hc & Hds & -> & ->)%append_inv. pose proof (append_fst _ _ _ _ Hds) as Hfst.
  assert (NoDup ds.*1) as Hnds. { rewrite Hfst. unfold batchOf. by rewrite <- list_fmap_compose. }
  pose proof (body_each _ _ _ _ Hds) as Heach.
  assert (merge_sort taskLe ((λ to, (to.1, Request to.2 (be_ids e to.1))) <$> batchOf batch) ≡ₚ requestOf e <$> batch) as Hp.
  { rewrite merge_sort_Permutation. unfold batchOf. by rewrite <- list_fmap_compose. }
  destruct (Permutation_Forall2 Hp Heach) as (ds' & Hp' & Hall). apply Forall2_fmap_l in Hall.
  set (sorted := merge_sort taskLe ((λ to, (to.1, Request to.2 (be_ids e to.1))) <$> batchOf batch)) in *.
  rewrite (alone_runs e (failedLog sorted db) batch ds' db db Hc Hnd Hall), (commitLogs_perm _ _ _ _ Hp' Hnds); [|clear Hfst..|done].
  2: { intros r Hr. symmetry. apply (failedLog_alone db sorted (requestOf e r)).
       - rewrite Hp, <- list_fmap_compose. exact Hnd.
       - rewrite Hp. by apply (list_elem_of_fmap_2 (requestOf e)). }
  f_equal.
  assert (∀ d, d ∈ ds' → List.find (λ a, a.1 =? d.1) (answerOf <$> ds) = Some (answerOf d)) as Hfind.
  { intros d Hd. apply (find_task (answerOf <$> ds) (answerOf d)); [by rewrite <- list_fmap_compose|].
    apply (list_elem_of_fmap_2 answerOf). by rewrite Hp'. }
  clear Hds Heach Hp Hp' Hnd Hfst Hnds. induction Hall as [|r d batch ds' Hd _ IH]; [done|].
  assert (d.1 = ir_taskId r) as Ht. { pose proof (body_fst _ _ _ _ Hd) as Hf. by injection Hf. }
  cbn [zip_with responses fmap list_fmap]. f_equal; [|apply IH; intros; apply Hfind; by right].
  f_equal. unfold respond. rewrite <- Ht, Hfind by left. cbn. by rewrite Z.eqb_refl.
Qed.

#[global] Instance appendBatch_laws : IngestLaws commitReported.
Proof.
  split.
  - intros e batch db answers db' (ds & _ & Hds & -> & _)%append_inv. rewrite <- list_fmap_compose.
    by rewrite <- (append_fst _ _ _ _ Hds).
  - apply append_alone.
  - intros e batch db err db' Hgood. unfold ingestBatch, appendBatch, appendDurableEventLogBatch.
    destruct (appendBody _ _ db) as [ds|]; [|by intros [= _ <-]]. destruct (x_fails (be_tx e) Commit) eqn:Hc; [|done].
    rewrite Hgood by done. by intros [= _ <-].
Qed.
End log.

(** ** Theorems *)

Section theorems.
Context `{Params} (opts : DurableEventBufferOpts).

Lemma runAlone_answers l db c r : (c, r) ∈ (runAlone (E := batchEnv) l db).1 → r ≠ Response None None.
Proof.
  revert db. induction l as [|[e q] l IH]; intros db; cbn [runAlone]; [by intros ?%elem_of_nil|].
  destruct (ingestBatch e (batchOf [q]) db) as [reply db'] eqn:Hb. specialize (IH db').
  destruct (runAlone l db') as [answers db'']. cbn in *. intros [[= -> ->]|Hin]%elem_of_cons; [|by apply IH].
  destruct reply as [replies|err]; [|done]. eapply (respond_answers e [q]); [exact Hb|by left].
Qed.

(** C4: the buffer cannot be told from handling requests one at a time: however the timers and flushes interleave and
    whichever statements fail, as long as a commit that is reported as failed did not happen, the tables and the answers
    are those of the answered requests handled one after the other, each in a transaction of its own, in the order of
    [y_done]; every request is pending, under way or answered, none is answered twice, and each answer is a result or an
    error. *)
Theorem buffer_is_sequential (db : gmap Z taskLog) (y : system batchEnv (gmap Z taskLog)) :
  bufferReachable opts commitReported db y →
  (∃ answers, runAlone (y_done y) db = (answers, y_db y) ∧ y_answers y ≡ₚ answers) ∧
  y_submitted y ≡ₚ b_pending (y_buffer y) ++ flying y ++ (y_done y).*2 ∧
  NoDup (y_answers y).*1 ∧ (∀ c r, (c, r) ∈ y_answers y → r ≠ Response None None).
Proof.
  intros Hy. pose proof (bufferOk_reachable _ _ _ _ Hy) as Hok.
  destruct (inSequence_reachable _ _ _ Hy) as (answers & Hrun & Hans). split_and!.
  - by exists answers.
  - apply Hok.
  - rewrite (bo_answers _ Hok). pose proof (NoDup_seq 0 (length (y_submitted y))) as Hnd.
    rewrite <- (bo_channels _ Hok), (bo_kept _ Hok), !fmap_app in Hnd. by apply NoDup_app in Hnd as (_ & _ & (_ & _ & ?)%NoDup_app).
  - intros c r. rewrite Hans. replace answers with (runAlone (y_done y) db).1 by by rewrite Hrun. apply runAlone_answers.
Qed.

Lemma internal_submitted y y' : internal (E := batchEnv) opts y y' → y_submitted y' = y_submitted y.
Proof.
  destruct 1 as [y y' Hst|i y y' Hst|i e order y y' Hord Hst].
  - unfold timerStep in Hst. destruct (y_timers y); [done|]. by injection Hst as <-.
  - unfold acquireStep in Hst. destruct (y_flights y !! i) as [[[] rs]|]; [done| |done].
    destruct (_ <? _)%nat; [|done]. by injection Hst as <-.
  - by apply ingestStep_inv in Hst as (? & ? & ? & ? & _ & _ & _ & _ & _ & ->).
Qed.

(** C16: every request is answered: whatever the database does, the timers and flushes come to an end, and when none can go
    on every request that was submitted has been answered exactly once. *)
Theorem every_request_answered (good : batchEnv → Prop) (db : gmap Z taskLog) (y : system batchEnv (gmap Z taskLog)) :
  (0 < MaxConcurrentFlushes opts)%nat → bufferReachable opts good db y →
  sn (internal opts) y ∧
  ∀ y', rtc (internal opts) y y' → nf (internal opts) y' → (y_answers y').*1 ≡ₚ seq 0 (length (y_submitted y)).
Proof.
  intros Hmax Hy%bufferOk_reachable. split; [by apply internal_sn|]. intros y' Hstar Hnf.
  pose proof (internal_star _ _ _ Hy Hstar) as Hok.
  destruct (internal_done opts y' (inhabits (BatchEnv (TxEnv (λ _, false) true true) (λ _, plainIds))) Hmax Hok Hnf) as [Hp Hf].
  assert (y_submitted y = y_submitted y') as ->.
  { clear -Hstar. induction Hstar as [|y1 y2 y3 Hst _ IH]; [done|]. rewrite <- IH. by rewrite (internal_submitted _ _ Hst). }
  rewrite <- (bo_channels _ Hok), (bo_answers _ Hok), (bo_kept _ Hok), Hp. unfold flying. by rewrite Hf.
Qed.
End theorems.

(** ** Examples *)

#[local] Existing Instance plainParams.

Definition exampleOpts : DurableEventBufferOpts := BufferOpts 3 1.
Definition memoOf (ext : uuid) (invocation : Z) (key : string) : IngestDurableTaskEventOpts :=
  IngestOpts ext invocation (Memo "p" key).
Definition healthyBatch : batchEnv := BatchEnv (TxEnv (λ _, false) true true) (λ _, plainIds).
Definition orSame {A} (f : A → option A) (a : A) : A := default a (f a).

(** A goroutine goes on: a timer, the semaphore for the first flush, or its transaction. *)
Definition goOn (e : batchEnv) (y : system batchEnv (gmap Z taskLog)) : system batchEnv (gmap Z taskLog) :=
  match timerStep y with
  | Some y => y
  | None => match acquireStep exampleOpts 0 y with Some y => y | None => orSame (ingestStep 0 e id) y end
  end.

Lemma goOn_reachable (good : batchEnv → Prop) e db y :
  good e → bufferReachable exampleOpts good db y → bufferReachable exampleOpts good db (goOn e y).
Proof.
  intros He Hy. unfold goOn. destruct (timerStep y) eqn:Ht; [by eapply br_timer|].
  destruct (acquireStep exampleOpts 0 y) eqn:Ha; [by eapply br_acquire|].
  unfold orSame. destruct (ingestStep 0 e id y) eqn:Hi; [|done]. by eapply (br_ingest _ _ _ 0 e id).
Qed.

(** Two requests of one task and one of another share a flush: the second of the first task is put off. *)
Definition exampleBuffer : system batchEnv (gmap Z taskLog) :=
  goOn healthyBatch (goOn healthyBatch (goOn healthyBatch (submitStep exampleOpts 2 (memoOf 12 1 "c")
    (submitStep exampleOpts 1 (memoOf 11 1 "b") (submitStep exampleOpts 1 (memoOf 11 1 "a") (startSystem exampleLogs)))))).

Lemma exampleBuffer_reachable : bufferReachable exampleOpts commitReported exampleLogs exampleBuffer.
Proof. do 3 (apply goOn_reachable; [done|]). do 3 apply br_submit. apply br_start. Qed.

Lemma buffer_is_sequential_witness :
  (y_done exampleBuffer).*2 = [IngestRequest 0 1 (memoOf 11 1 "a"); IngestRequest 2 2 (memoOf 12 1 "c")] ∧
  NoDup (y_answers exampleBuffer).*1.
Proof.
  split; [vm_compute; reflexivity|].
  apply (buffer_is_sequential exampleOpts exampleLogs exampleBuffer exampleBuffer_reachable).
Defined.

Lemma every_request_answered_witness : sn (internal exampleOpts) exampleBuffer.
Proof.
  refine (proj1 (every_request_answered exampleOpts commitReported exampleLogs exampleBuffer _ exampleBuffer_reachable)).
  apply Nat.ltb_lt. reflexivity.
Defined.

(** ** A commit whose reply is lost *)

(** The transaction commits and is reported as failed. *)
Definition lostReply : batchEnv := BatchEnv (TxEnv (λ s, match s with Commit => true | _ => false end) true true) (λ _, plainIds).

Definition afterwards (n : nat) (task : Z) (o : IngestDurableTaskEventOpts) (y : system batchEnv (gmap Z taskLog)) :
    system batchEnv (gmap Z taskLog) :=
  Nat.iter n (goOn healthyBatch) (submitStep exampleOpts task o y).
Definition lastAnswer (y : system batchEnv (gmap Z taskLog)) : option durableEventIngestResponse := snd <$> last (y_answers y).

(** Two requests of different tasks, whose transaction commits although it is reported as failed; both are tried again,
    and the first task goes on with its next memo. *)
Definition retried : system batchEnv (gmap Z taskLog) :=
  Nat.iter 4 (goOn healthyBatch) (Nat.iter 3 (goOn lostReply)
    (submitStep exampleOpts 2 (memoOf 12 1 "c") (submitStep exampleOpts 1 (memoOf 11 1 "a") (startSystem exampleLogs)))).
Definition wentOn : system batchEnv (gmap Z taskLog) := afterwards 3 1 (memoOf 11 1 "b") retried.

(** The next invocation of the task sends the same memos. *)
Definition nextInvocation : system batchEnv (gmap Z taskLog) :=
  afterwards 3 1 (memoOf 11 2 "b") (afterwards 3 1 (memoOf 11 2 "a") (startSystem (alter incrementInvocationCount 1 (y_db wentOn)))).

Lemma iter_reachable (good : batchEnv → Prop) n e db y :
  good e → bufferReachable exampleOpts good db y → bufferReachable exampleOpts good db (Nat.iter n (goOn e) y).
Proof. intros He Hy. induction n as [|n IH]; [done|]. cbn. by apply goOn_reachable. Qed.

Lemma afterwards_reachable (good : batchEnv → Prop) n task o db y :
  good healthyBatch → bufferReachable exampleOpts good db y → bufferReachable exampleOpts good db (afterwards n task o y).
Proof. intros Hg Hy. apply iter_reachable; [done|]. by apply br_submit. Qed.

(** The requests of a task, in the order in which they were submitted. *)
Definition requestsOf (task : Z) (y : system batchEnv (gmap Z taskLog)) : list IngestDurableTaskEventOpts :=
  ir_opts <$> List.filter (λ r, ir_taskId r =? task) (y_submitted y).

(** C36: there is a run of the buffer, with a commit whose reply is lost, in which a task sends two memos, one after the
    other, and every request is answered once and without an error; the next invocation of the task, which sends the
    same two memos and whose transactions report what they do, is told that it is not deterministic, since the retry of
    the batch had appended the first memo again. *)
Theorem lost_reply_breaks_replay :
  ∃ y y', bufferReachable exampleOpts (λ _, True) exampleLogs y ∧
    requestsOf 1 y = [memoOf 11 1 "a"; memoOf 11 1 "b"] ∧
    (y_answers y).*1 = seq 0 (length (y_submitted y)) ∧ (re_err <$> (y_answers y).*2) = (λ _, None) <$> y_submitted y ∧
    bufferReachable exampleOpts commitReported (alter incrementInvocationCount 1 (y_db y)) y' ∧
    requestsOf 1 y' = [memoOf 11 2 "a"; memoOf 11 2 "b"] ∧
    (lastAnswer y' ≫= re_err) = Some (NonDeterminismError 2 1 "a" "b").
Proof.
  exists wentOn, nextInvocation. split_and!; [|vm_compute; reflexivity|vm_compute; reflexivity|vm_compute; reflexivity|
    |vm_compute; reflexivity|vm_compute; reflexivity].
  - apply afterwards_reachable; [done|]. apply iter_reachable; [done|]. apply iter_reachable; [done|]. do 2 apply br_submit. apply br_start.
  - apply afterwards_reachable; [done|]. apply afterwards_reachable; [done|]. apply br_start.
Qed.

End IngestBufferTheorems.
