(* ===== verification/StatusStream.v ===== *)
(** The durable task streams of the dispatcher: how the statuses of one stream are merged while a single goroutine
    handles them (src/internal/services/dispatcher/worker_status_coalescer.go), and how streams take and give up the
    routes of tasks (durableTask of server_v1.go). *)

From S2P Require Import Prelude Workers LogTables EventLog EventLogOps OrderedRelease.
Import Workers LogTables EventLog EventLogOps OrderedRelease.

Module StatusStream.

Open Scope Z_scope.

(** ** Merging statuses *)

Definition maxWorkerStatusEntriesPerBatch : Z := 10000.

(** [ps_entries] is by branch and node. *)
Record pendingTaskStatus := PendingStatus {
  ps_entries : gmap entryKey awaitedEntry;
  ps_invocationCount : Z;
  ps_highest : Z;
}.

Record workerStatusCoalescer := Coalescer {
  c_pending : gmap uuid pendingTaskStatus;
  c_running : bool;
}.
Definition newWorkerStatusCoalescer : workerStatusCoalescer := Coalescer ∅ false.

(** pendingTaskForInvocation: None is that the invocation is older than the one pending. *)
Definition pendingTaskForInvocation (task : uuid) (invocationCount : Z) (pending : gmap uuid pendingTaskStatus) :
    option pendingTaskStatus :=
  match pending !! task with
  | None => Some (PendingStatus ∅ invocationCount 0)
  | Some p =>
      if ps_invocationCount p <? invocationCount then Some (PendingStatus ∅ invocationCount 0)
      else if invocationCount <? ps_invocationCount p then None
      else Some p
  end.

Definition mergeEntry (pending : gmap uuid pendingTaskStatus) (entry : awaitedEntry) : gmap uuid pendingTaskStatus :=
  match pendingTaskForInvocation (aw_task entry) (aw_invocationCount entry) pending with
  | None => pending
  | Some p =>
      <[aw_task entry := PendingStatus (<[aw_ref entry := entry]> (ps_entries p)) (ps_invocationCount p) (ps_highest p)]> pending
  end.

Definition mergeReceived (pending : gmap uuid pendingTaskStatus) (received : receivedOrder) : gmap uuid pendingTaskStatus :=
  match pendingTaskForInvocation (ro_task received) (ro_invocationCount received) pending with
  | None => pending
  | Some p =>
      <[ro_task received := PendingStatus (ps_entries p) (ps_invocationCount p) (Z.max (ps_highest p) (ro_highest received))]>
        pending
  end.

(** merge: whether the caller must start a runner. *)
Definition merge (status : DurableTaskWorkerStatusRequest) (c : workerStatusCoalescer) : bool * workerStatusCoalescer :=
  let pending := foldl mergeReceived (foldl mergeEntry (c_pending c) (ws_WaitingEntries status))
                   (ws_ReceivedSatisfiedOrders status) in
  if c_running c || bool_decide (pending = ∅) then (false, Coalescer pending (c_running c))
  else (true, Coalescer pending true).

(** ** Handing statuses out *)

(** The orders in which the maps of tasks and of entries are ranged over. *)
Record rangeOrder := RangeOrder {
  rg_tasks : list uuid → list uuid;
  rg_entries : list awaitedEntry → list awaitedEntry;
}.

Definition entriesOf (o : rangeOrder) (p : pendingTaskStatus) : list awaitedEntry :=
  rg_entries o (map_to_list (ps_entries p)).*2.

Definition addTask (o : rangeOrder) (task : uuid) (p : pendingTaskStatus) (req : DurableTaskWorkerStatusRequest) :
    DurableTaskWorkerStatusRequest :=
  WorkerStatus (ws_WaitingEntries req ++ entriesOf o p)
    (ws_ReceivedSatisfiedOrders req ++ if 0 <? ps_highest p then [Received task (ps_invocationCount p) (ps_highest p)] else []).

(** Whole tasks are taken until one would push the request past the limit. *)
Fixpoint takeTasks (o : rangeOrder) (tasks : list uuid) (req : DurableTaskWorkerStatusRequest)
    (pending : gmap uuid pendingTaskStatus) : DurableTaskWorkerStatusRequest * gmap uuid pendingTaskStatus :=
  match tasks with
  | [] => (req, pending)
  | task :: tasks =>
      match pending !! task with
      | None => takeTasks o tasks req pending
      | Some p =>
          let n := Z.of_nat (length (ws_WaitingEntries req)) in
          if (0 <? n) && (maxWorkerStatusEntriesPerBatch <? n + Z.of_nat (size (ps_entries p))) then (req, pending)
          else takeTasks o tasks (addTask o task p req) (delete task pending)
      end
  end.

Definition next (o : rangeOrder) (c : workerStatusCoalescer) : option DurableTaskWorkerStatusRequest * workerStatusCoalescer :=
  if bool_decide (c_pending c = ∅) then (None, Coalescer (c_pending c) false)
  else
    let '(req, pending) := takeTasks o (rg_tasks o (map_to_list (c_pending c)).*1) (WorkerStatus [] []) (c_pending c) in
    (Some req, Coalescer pending (c_running c)).

(** ** A stream *)

(** A stream that has not ended: the goroutines that handle statuses, what they took, and all statuses that arrived. *)
Record stream := Stream {
  m_coalescer : workerStatusCoalescer;
  m_runners : nat;
  m_handled : list DurableTaskWorkerStatusRequest;
  m_arrived : list DurableTaskWorkerStatusRequest;
}.
Definition startStream : stream := Stream newWorkerStatusCoalescer 0 [] [].

(** A status arrives. *)
Definition arriveStep (status : DurableTaskWorkerStatusRequest) (m : stream) : stream :=
  let '(startRunner, c) := merge status (m_coalescer m) in
  Stream c (if startRunner then S (m_runners m) else m_runners m) (m_handled m) (m_arrived m ++ [status]).

(** A runner asks for the next status, and ends when there is none. *)
Definition runnerStep (o : rangeOrder) (m : stream) : option stream :=
  match m_runners m with
  | O => None
  | S n =>
      match next o (m_coalescer m) with
      | (None, c) => Some (Stream c n (m_handled m) (m_arrived m))
      | (Some req, c) => Some (Stream c (S n) (m_handled m ++ [req]) (m_arrived m))
      end
  end.

Definition anyOrder (o : rangeOrder) : Prop := (∀ l, rg_tasks o l ≡ₚ l) ∧ (∀ l, rg_entries o l ≡ₚ l).

Inductive streamReachable : stream → Prop :=
  | sr_start : streamReachable startStream
  | sr_arrive status m : streamReachable m → streamReachable (arriveStep status m)
  | sr_runner o m m' : streamReachable m → anyOrder o → runnerStep o m = Some m' → streamReachable m'.

Inductive runs : stream → stream → Prop :=
  | run_step o m m' : anyOrder o → runnerStep o m = Some m' → runs m m'.

(** ** Routes *)

(** The routes of tasks, and for each open stream the tasks it has registered. *)
Record streams := Streams {
  n_routes : durableInvocations;
  n_registered : gmap nat (gset uuid);
}.

Definition openStream (n : nat) (t : streams) : streams := Streams (n_routes t) (<[n := ∅]> (n_registered t)).

(** registerTask of a stream: a task is routed to it the first time the stream names it. *)
Definition registerTask (n : nat) (task : uuid) (t : streams) : streams :=
  match n_registered t !! n with
  | None => t
  | Some known =>
      if bool_decide (task ∈ known) then t
      else Streams (<[task := n]> (n_routes t)) (<[n := {[task]} ∪ known]> (n_registered t))
  end.

(** The end of a stream. *)
Definition closeStream (n : nat) (t : streams) : streams :=
  match n_registered t !! n with
  | None => t
  | Some known =>
      Streams (foldl (λ routes task, compareAndDelete task n routes) (n_routes t) (elements known)) (delete n (n_registered t))
  end.

Inductive streamsReachable : streams → Prop :=
  | ss_start : streamsReachable (Streams ∅ ∅)
  | ss_open n t : n_registered t !! n = None → streamsReachable t → streamsReachable (openStream n t)
  | ss_register n task t : streamsReachable t → streamsReachable (registerTask n task t)
  | ss_status now V op n req t s :
      streamsReachable t → streamsReachable (Streams (handleWorkerStatus now V op n req (n_routes t) s).1.2 (n_registered t))
  | ss_close n t : streamsReachable t → streamsReachable (closeStream n t).

End StatusStream.
