(* ===== verification/StreamTheorems.v ===== *)
(** Theorems on the streams of the dispatcher: no status is lost by merging, one goroutine handles them, and routes lead
    to open streams. *)

From S2P Require Import Prelude Workers LogTables EventLog EventLogOps OrderedRelease StatusStream.
Import Workers LogTables EventLog EventLogOps OrderedRelease StatusStream.

Module StreamTheorems.

Open Scope Z_scope.

(** ** What the coalescer keeps track of *)

Section tracking.
Implicit Types (A H : awaitedEntry → Prop) (R HR : receivedOrder → Prop) (pending : gmap uuid pendingTaskStatus).

(** An invocation of a task was heard of. *)
Definition heardOf A R (task : uuid) (inv : Z) : Prop := (∃ ref, A (Awaited task inv ref)) ∨ ∃ h, R (Received task inv h).
Definition superseded A R (task : uuid) (inv : Z) : Prop := ∃ inv', inv < inv' ∧ heardOf A R task inv'.

(** The entries [A] and orders [R] that arrived are accounted for by those handed out, [H] and [HR], those pending, and
    newer invocations. *)
Record tracked A R H HR pending : Prop := Tracked {
  tr_entry task p k e : pending !! task = Some p → ps_entries p !! k = Some e →
    A e ∧ e = Awaited task (ps_invocationCount p) k;
  tr_order task p : pending !! task = Some p → 0 < ps_highest p → R (Received task (ps_invocationCount p) (ps_highest p));
  tr_heard task p : pending !! task = Some p → heardOf A R task (ps_invocationCount p);
  tr_H e : H e → A e;
  tr_HR r : HR r → R r;
  tr_A task inv ref : A (Awaited task inv ref) →
    H (Awaited task inv ref) ∨
    (∃ p, pending !! task = Some p ∧ ps_invocationCount p = inv ∧ ps_entries p !! ref = Some (Awaited task inv ref)) ∨
    superseded A R task inv;
  tr_R task inv h : R (Received task inv h) → 0 < h →
    (∃ h', HR (Received task inv h') ∧ h ≤ h') ∨
    (∃ p, pending !! task = Some p ∧ ps_invocationCount p = inv ∧ h ≤ ps_highest p) ∨
    superseded A R task inv;
}.

Lemma heardOf_mono A R A' R' task inv :
  (∀ e, A e → A' e) → (∀ r, R r → R' r) → heardOf A R task inv → heardOf A' R' task inv.
Proof. intros HA HR [[ref ?]|[h ?]]; [left|right]; eauto. Qed.

Lemma superseded_mono A R A' R' task inv :
  (∀ e, A e → A' e) → (∀ r, R r → R' r) → superseded A R task inv → superseded A' R' task inv.
Proof. intros HA HR (inv' & ? & ?). exists inv'. split; [done|by eapply heardOf_mono]. Qed.

(** A status of a task is replaced by one of the same invocation that has more, or of a newer one. *)
Definition grows (p0 p : pendingTaskStatus) : Prop :=
  (ps_invocationCount p0 = ps_invocationCount p ∧ ps_entries p0 ⊆ ps_entries p ∧ ps_highest p0 ≤ ps_highest p) ∨
  ps_invocationCount p0 < ps_invocationCount p.

Lemma tracked_put A R A' R' H HR pending task p :
  tracked A R H HR pending → (∀ e, A e → A' e) → (∀ r, R r → R' r) →
  (∀ p0, pending !! task = Some p0 → grows p0 p) →
  (∀ k e, ps_entries p !! k = Some e → A' e ∧ e = Awaited task (ps_invocationCount p) k) →
  (0 < ps_highest p → R' (Received task (ps_invocationCount p) (ps_highest p))) →
  heardOf A' R' task (ps_invocationCount p) →
  (∀ e, A' e → A e ∨ (∃ ref, e = Awaited task (ps_invocationCount p) ref ∧ ps_entries p !! ref = Some e)) →
  (∀ r, R' r → R r ∨ (∃ h, r = Received task (ps_invocationCount p) h ∧ h ≤ ps_highest p)) →
  tracked A' R' H HR (<[task := p]> pending).
Proof.
  intros [H1 H2 H3 H4 H5 H6 H7] HA HR' Hgrow Hent Hord Hheard HA' HRn. split.
  - intros task' p' k e [[<- <-]|[Hne Hp]]%lookup_insert_Some Hk; [by apply Hent|].
    destruct (H1 _ _ _ _ Hp Hk). auto.
  - intros task' p' [[<- <-]|[Hne Hp]]%lookup_insert_Some Hh; [by apply Hord|auto].
  - intros task' p' [[<- <-]|[Hne Hp]]%lookup_insert_Some; [done|]. eapply heardOf_mono; [..|by apply H3]; done.
  - auto.
  - auto.
  - intros task' inv ref [He|(ref' & [= -> -> ->] & He)]%HA'.
    + destruct (H6 _ _ _ He) as [?|[(p0 & Hp & Hinv & Hk)|Hs]]; [by left|..|by right; right; eapply superseded_mono].
      destruct (decide (task' = task)) as [->|Hne]; [|right; left; exists p0; by rewrite lookup_insert_ne].
      destruct (Hgrow _ Hp) as [(Heq & Hsub & _)|Hlt].
      * right; left. exists p. rewrite lookup_insert_eq. split_and!; [done|lia|]. by eapply lookup_weaken.
      * right; right. exists (ps_invocationCount p). split; [lia|done].
    + right; left. exists p. by rewrite lookup_insert_eq.
  - intros task' inv h [Hr|(h' & [= -> -> ->] & Hle)]%HRn Hpos.
    + destruct (H7 _ _ _ Hr Hpos) as [?|[(p0 & Hp & Hinv & Hh)|Hs]]; [by left|..|by right; right; eapply superseded_mono].
      destruct (decide (task' = task)) as [->|Hne]; [|right; left; exists p0; by rewrite lookup_insert_ne].
      destruct (Hgrow _ Hp) as [(Heq & _ & Hle)|Hlt].
      * right; left. exists p. rewrite lookup_insert_eq. split_and!; [done|lia..].
      * right; right. exists (ps_invocationCount p). split; [lia|done].
    + right; left. exists p. by rewrite lookup_insert_eq.
Qed.

Lemma slot_spec task inv pending :
  match pendingTaskForInvocation task inv pending with
  | None => ∃ p, pending !! task = Some p ∧ inv < ps_invocationCount p
  | Some p => ps_invocationCount p = inv ∧ (∀ p0, pending !! task = Some p0 → grows p0 p) ∧
      (pending !! task = Some p ∨ p = PendingStatus ∅ inv 0)
  end.
Proof.
  unfold pendingTaskForInvocation, grows. destruct (pending !! task) as [p|] eqn:Hp; [|naive_solver].
  destruct (ps_invocationCount p <? inv) eqn:H1; [split_and!; [done| |by right]; intros p0 [= <-]; cbn; lia|].
  destruct (inv <? ps_invocationCount p) eqn:H2; [exists p; split; [done|lia]|].
  split_and!; [lia| |by left]. intros p0 [= <-]. by left.
Qed.

(** An item of an invocation that is older than the one pending is superseded. *)
Lemma tracked_late A R A' R' H HR pending task inv p :
  tracked A R H HR pending → (∀ e, A e → A' e) → (∀ r, R r → R' r) →
  pending !! task = Some p → inv < ps_invocationCount p →
  (∀ e, A' e → A e ∨ ∃ ref, e = Awaited task inv ref) → (∀ r, R' r → R r ∨ ∃ h, r = Received task inv h) →
  tracked A' R' H HR pending.
Proof.
  intros [H1 H2 H3 H4 H5 H6 H7] HA HR' Hp Hlt HA' HRn.
  assert (superseded A' R' task inv) as Hs.
  { exists (ps_invocationCount p). split; [done|]. eapply heardOf_mono; [..|by apply H3]; done. }
  split.
  - intros task' p' k e Hp' Hk. destruct (H1 _ _ _ _ Hp' Hk). auto.
  - auto.
  - intros task' p' Hp'. eapply heardOf_mono; [..|by apply H3]; done.
  - auto.
  - auto.
  - intros task' inv' ref [He|[ref' [= -> -> ->]]]%HA'; [|by right; right].
    destruct (H6 _ _ _ He) as [?|[?|?]]; [by left|by right; left|]. right; right. by eapply superseded_mono.
  - intros task' inv' h [Hr|[h' [= -> -> ->]]]%HRn Hpos; [|by right; right].
    destruct (H7 _ _ _ Hr Hpos) as [?|[?|?]]; [by left|by right; left|]. right; right. by eapply superseded_mono.
Qed.

(** The status an item is merged into. *)
Lemma slot_tracked A R H HR pending task inv p :
  tracked A R H HR pending → ps_invocationCount p = inv → pending !! task = Some p ∨ p = PendingStatus ∅ inv 0 →
  (∀ k e, ps_entries p !! k = Some e → A e ∧ e = Awaited task inv k) ∧ (0 < ps_highest p → R (Received task inv (ps_highest p))).
Proof.
  intros Ht <- [Hp|Hp]; [|rewrite Hp; cbn; split; [by intros ? ? ?%lookup_empty_Some|lia]].
  split; [intros k e; by apply (tr_entry _ _ _ _ _ Ht)|by apply (tr_order _ _ _ _ _ Ht)].
Qed.

Lemma tracked_mergeEntry A R H HR pending e :
  tracked A R H HR pending → tracked (λ e', A e' ∨ e' = e) R H HR (mergeEntry pending e).
Proof.
  intros Ht. destruct e as [task inv ref]. unfold mergeEntry. cbn.
  pose proof (slot_spec task inv pending) as Hs. destruct (pendingTaskForInvocation task inv pending) as [p|].
  - destruct Hs as (Hinv & Hgrow & Hp). destruct (slot_tracked _ _ _ _ _ _ _ _ Ht Hinv Hp) as [Hent Hord].
    eapply tracked_put; [exact Ht|auto|auto|..]; cbn; rewrite ?Hinv.
    + intros p0 [(Heq & Hsub & Hle)|Hlt]%Hgrow; [left; cbn|by right; cbn; lia]. split_and!; [lia| |done].
      etrans; [exact Hsub|]. apply map_subseteq_spec. intros k e Hk. destruct (decide (k = ref)) as [->|Hne].
      * apply Hent in Hk as [_ ->]. by rewrite lookup_insert_eq.
      * by rewrite lookup_insert_ne.
    + intros k e [[<- <-]|[Hne Hk]]%lookup_insert_Some; [auto|]. apply Hent in Hk as [? ->]. auto.
    + auto.
    + left. exists ref. by right.
    + intros e [He| ->]; [by left|right]. exists ref. by rewrite lookup_insert_eq.
    + auto.
  - destruct Hs as (p & Hp & Hlt). eapply tracked_late; [exact Ht|auto|auto|exact Hp|exact Hlt| |auto].
    intros e [He| ->]; [by left|right; eauto].
Qed.

Lemma tracked_mergeReceived A R H HR pending r :
  tracked A R H HR pending → tracked A (λ r', R r' ∨ r' = r) H HR (mergeReceived pending r).
Proof.
  intros Ht. destruct r as [task inv h]. unfold mergeReceived. cbn.
  pose proof (slot_spec task inv pending) as Hs. destruct (pendingTaskForInvocation task inv pending) as [p|].
  - destruct Hs as (Hinv & Hgrow & Hp). destruct (slot_tracked _ _ _ _ _ _ _ _ Ht Hinv Hp) as [Hent Hord].
    eapply tracked_put; [exact Ht|auto|auto|..]; cbn; rewrite ?Hinv.
    + intros p0 [(Heq & Hsub & Hle)|Hlt]%Hgrow; [left; cbn|by right; cbn; lia]. split_and!; [lia|done|lia].
    + done.
    + intros Hpos. destruct (Z.max_spec (ps_highest p) h) as [[Hlt ->]|[Hle Heq]]; [by right|]. rewrite Heq in *. left. auto.
    + right. exists h. by right.
    + auto.
    + intros r [Hr| ->]; [by left|right]. exists h. split; [done|lia].
  - destruct Hs as (p & Hp & Hlt). eapply tracked_late; [exact Ht|auto|auto|exact Hp|exact Hlt|auto|].
    intros r [Hr| ->]; [by left|right; eauto].
Qed.

Lemma tracked_iff A R H HR A' R' H' HR' pending :
  (∀ e, A e ↔ A' e) → (∀ r, R r ↔ R' r) → (∀ e, H e ↔ H' e) → (∀ r, HR r ↔ HR' r) →
  tracked A R H HR pending → tracked A' R' H' HR' pending.
Proof.
  intros HA HRR HH HHR [H1 H2 H3 H4 H5 H6 H7]. split.
  - intros task p k e Hp Hk. rewrite <- HA. eauto.
  - intros task p Hp Hpos. rewrite <- HRR. eauto.
  - intros task p Hp. eapply heardOf_mono; [..|by eapply H3]; intros ?; [apply HA|apply HRR].
  - intros e. rewrite <- HA, <- HH. auto.
  - intros r. rewrite <- HRR, <- HHR. auto.
  - intros task inv ref He. apply HA in He. destruct (H6 _ _ _ He) as [?|[?|Hs]]; [left; by apply HH|by right; left|].
    right; right. eapply superseded_mono; [..|exact Hs]; intros ?; [apply HA|apply HRR].
  - intros task inv h Hr Hpos. apply HRR in Hr. destruct (H7 _ _ _ Hr Hpos) as [(h' & ? & ?)|[?|Hs]].
    + left. exists h'. split; [by apply HHR|done].
    + by right; left.
    + right; right. eapply superseded_mono; [..|exact Hs]; intros ?; [apply HA|apply HRR].
Qed.

Lemma tracked_entries A R H HR pending es :
  tracked A R H HR pending → tracked (λ e, A e ∨ e ∈ es) R H HR (foldl mergeEntry pending es).
Proof.
  revert A pending. induction es as [|e es IH]; intros A pending Ht; cbn.
  - eapply tracked_iff; [..|exact Ht]; intros; rewrite ?elem_of_nil; tauto.
  - apply (tracked_mergeEntry _ _ _ _ _ e) in Ht. apply IH in Ht. eapply tracked_iff; [..|exact Ht]; intros; rewrite ?elem_of_cons; tauto.
Qed.

Lemma tracked_received A R H HR pending rs :
  tracked A R H HR pending → tracked A (λ r, R r ∨ r ∈ rs) H HR (foldl mergeReceived pending rs).
Proof.
  revert R pending. induction rs as [|r rs IH]; intros R pending Ht; cbn.
  - eapply tracked_iff; [..|exact Ht]; intros; rewrite ?elem_of_nil; tauto.
  - apply (tracked_mergeReceived _ _ _ _ _ r) in Ht. apply IH in Ht. eapply tracked_iff; [..|exact Ht]; intros; rewrite ?elem_of_cons; tauto.
Qed.

(** A task is handed out. *)
Lemma tracked_take A R H HR pending o task p req :
  anyOrder o → pending !! task = Some p →
  tracked A R (λ e, H e ∨ e ∈ ws_WaitingEntries req) (λ r, HR r ∨ r ∈ ws_ReceivedSatisfiedOrders req) pending →
  tracked A R (λ e, H e ∨ e ∈ ws_WaitingEntries (addTask o task p req))
    (λ r, HR r ∨ r ∈ ws_ReceivedSatisfiedOrders (addTask o task p req)) (delete task pending).
Proof.
  intros [_ Ho] Hp [H1 H2 H3 H4 H5 H6 H7].
  assert (∀ e, e ∈ entriesOf o p ↔ ∃ k, ps_entries p !! k = Some e) as Hin.
  { intros e. unfold entriesOf. rewrite Ho, list_elem_of_fmap. setoid_rewrite elem_of_map_to_list'.
    split; [intros ([k e'] & -> & Hk); eauto|intros [k Hk]; by exists (k, e)]. }
  split; cbn.
  - intros task' p' k e [Hne Hp']%lookup_delete_Some Hk. eauto.
  - intros task' p' [Hne Hp']%lookup_delete_Some. eauto.
  - intros task' p' [Hne Hp']%lookup_delete_Some. eauto.
  - intros e. rewrite elem_of_app. intros [?|[?|(k & Hk)%Hin]]; [auto..|]. by destruct (H1 _ _ _ _ Hp Hk).
  - intros r. rewrite elem_of_app. intros [?|[?|Hr]]; [auto..|]. destruct (0 <? ps_highest p) eqn:Hh; [|by apply elem_of_nil in Hr].
    apply list_elem_of_singleton in Hr as ->. apply H2; [done|lia].
  - intros task' inv ref He. destruct (H6 _ _ _ He) as [Hh|[(p' & Hp' & Hinv & Hk)|Hs]]; [left; rewrite elem_of_app; tauto|..|by right; right].
    destruct (decide (task' = task)) as [->|Hne]; [|right; left; exists p'; by rewrite lookup_delete_ne].
    left. right. rewrite elem_of_app, Hin. right. exists ref. congruence.
  - intros task' inv h Hr Hpos. destruct (H7 _ _ _ Hr Hpos) as [(h' & Hh & Hle)|[(p' & Hp' & Hinv & Hle)|Hs]].
    + left. exists h'. rewrite elem_of_app. tauto.
    + destruct (decide (task' = task)) as [->|Hne]; [|right; left; exists p'; by rewrite lookup_delete_ne].
      assert (p' = p) as -> by congruence. left. exists (ps_highest p). split; [|done]. right. rewrite elem_of_app. right.
      destruct (0 <? ps_highest p) eqn:Hh; [|lia]. apply list_elem_of_singleton. congruence.
    + by right; right.
Qed.

Lemma tracked_takeTasks A R H HR o tasks req pending :
  anyOrder o →
  tracked A R (λ e, H e ∨ e ∈ ws_WaitingEntries req) (λ r, HR r ∨ r ∈ ws_ReceivedSatisfiedOrders req) pending →
  let '(req', pending') := takeTasks o tasks req pending in
  tracked A R (λ e, H e ∨ e ∈ ws_WaitingEntries req') (λ r, HR r ∨ r ∈ ws_ReceivedSatisfiedOrders req') pending'.
Proof.
  intros Ho. revert req pending. induction tasks as [|task tasks IH]; intros req pending Ht; cbn [takeTasks]; [done|].
  destruct (pending !! task) as [p|] eqn:Hp; [|by apply IH]. destruct (_ && _); [done|]. apply IH. by apply tracked_take.
Qed.
End tracking.

(** ** The size of a request *)

(** A request stays within the limit, or has the entries of one task. *)
Definition withinLimit (req : DurableTaskWorkerStatusRequest) : Prop :=
  Z.of_nat (length (ws_WaitingEntries req)) ≤ maxWorkerStatusEntriesPerBatch ∨
  ∃ task, Forall (λ e, aw_task e = task) (ws_WaitingEntries req).

Lemma takeTasks_limit o tasks req pending :
  anyOrder o → (∀ task p k e, pending !! task = Some p → ps_entries p !! k = Some e → aw_task e = task) →
  withinLimit req → withinLimit (takeTasks o tasks req pending).1.
Proof.
  intros [_ Ho]. revert req pending. induction tasks as [|task tasks IH]; intros req pending Hown Hreq; cbn [takeTasks]; [done|].
  destruct (pending !! task) as [p|] eqn:Hp; [|by apply IH].
  destruct (_ && _) eqn:Hfull; [done|]. apply IH.
  { intros task' p' k e [_ Hp']%lookup_delete_Some. by eapply Hown. }
  assert (length (entriesOf o p) = size (ps_entries p)) as Hlen.
  { unfold entriesOf. by rewrite Ho, length_fmap, length_map_to_list. }
  unfold withinLimit. cbn. rewrite length_app, Hlen. apply andb_false_iff in Hfull as [H0|Hle]; [right|left; lia].
  apply Z.ltb_ge in H0. destruct (ws_WaitingEntries req); [|cbn [length] in H0; lia]. exists task. cbn. unfold entriesOf. rewrite Ho. apply Forall_fmap, Forall_forall.
  intros [k e] Hk%elem_of_map_to_list. by eapply Hown.
Qed.

(** ** Streams *)

Definition arrivedEntry (m : stream) (e : awaitedEntry) : Prop := ∃ st, st ∈ m_arrived m ∧ e ∈ ws_WaitingEntries st.
Definition arrivedOrder (m : stream) (r : receivedOrder) : Prop := ∃ st, st ∈ m_arrived m ∧ r ∈ ws_ReceivedSatisfiedOrders st.
Definition handledEntry (m : stream) (e : awaitedEntry) : Prop := ∃ st, st ∈ m_handled m ∧ e ∈ ws_WaitingEntries st.
Definition handledOrder (m : stream) (r : receivedOrder) : Prop := ∃ st, st ∈ m_handled m ∧ r ∈ ws_ReceivedSatisfiedOrders st.

Record streamOk (m : stream) : Prop := StreamOk {
  so_runner : m_runners m = if c_running (m_coalescer m) then 1%nat else 0%nat;
  so_running : c_pending (m_coalescer m) ≠ ∅ → c_running (m_coalescer m) = true;
  so_limit : Forall withinLimit (m_handled m);
  so_tracked : tracked (arrivedEntry m) (arrivedOrder m) (handledEntry m) (handledOrder m) (c_pending (m_coalescer m));
}.

Lemma exists_snoc {A B} (l : list A) (x : A) (f : A → list B) (b : B) :
  (∃ a, a ∈ l ++ [x] ∧ b ∈ f a) ↔ (∃ a, a ∈ l ∧ b ∈ f a) ∨ b ∈ f x.
Proof. setoid_rewrite elem_of_app. setoid_rewrite list_elem_of_singleton. naive_solver. Qed.

Lemma no_entry {A B} (f : A → list B) (b : B) : ¬ ∃ a, a ∈ [] ∧ b ∈ f a.
Proof. by intros (a & Ha%elem_of_nil & _). Qed.

Lemma streamOk_start : streamOk startStream.
Proof.
  split; cbn; [done..|]. split; cbn.
  - by intros ? ? ? ? ?%lookup_empty_Some.
  - by intros ? ? ?%lookup_empty_Some.
  - by intros ? ? ?%lookup_empty_Some.
  - by intros e []%no_entry.
  - by intros r []%no_entry.
  - by intros ? ? ? []%no_entry.
  - by intros ? ? ? []%no_entry.
Qed.

Lemma streamOk_arrive status m : streamOk m → streamOk (arriveStep status m).
Proof.
  intros [H1 H2 H3 H4]. unfold arriveStep, merge.
  set (pending := foldl mergeReceived _ _).
  assert (tracked (λ e, arrivedEntry m e ∨ e ∈ ws_WaitingEntries status)
            (λ r, arrivedOrder m r ∨ r ∈ ws_ReceivedSatisfiedOrders status) (handledEntry m) (handledOrder m) pending) as Ht
    by by apply tracked_received, tracked_entries.
  assert (∀ c n, tracked (arrivedEntry (Stream c n (m_handled m) (m_arrived m ++ [status])))
            (arrivedOrder (Stream c n (m_handled m) (m_arrived m ++ [status]))) (handledEntry m) (handledOrder m) pending) as Ht'.
  { intros c n. eapply tracked_iff; [..|exact Ht]; [..|done|done]; intros x; unfold arrivedEntry, arrivedOrder; cbn; by rewrite exists_snoc. }
  destruct (c_running (m_coalescer m)) eqn:Hr; cbn [orb].
  - by split.
  - case_bool_decide as He; split; cbn; try done. by rewrite H1.
Qed.

Lemma takeTasks_size o tasks req pending : (size (takeTasks o tasks req pending).2 ≤ size pending)%nat.
Proof.
  revert req pending. induction tasks as [|task tasks IH]; intros req pending; cbn [takeTasks]; [done|].
  destruct (pending !! task) as [p|] eqn:Hp; [|apply IH]. destruct (_ && _); [done|]. etrans; [apply IH|].
  apply map_size_delete_le.
Qed.

(** A request takes at least one task. *)
Lemma next_takes o c req c' : anyOrder o → next o c = (Some req, c') → (size (c_pending c') < size (c_pending c))%nat.
Proof.
  intros [Ho _]. unfold next. case_bool_decide as He; [done|].
  destruct (rg_tasks o (map_to_list (c_pending c)).*1) as [|task tasks] eqn:Ht.
  { exfalso. apply He, map_to_list_empty_iff. specialize (Ho (map_to_list (c_pending c)).*1). rewrite Ht in Ho.
    apply Permutation_nil in Ho. by apply fmap_nil_inv in Ho. }
  assert (task ∈ (map_to_list (c_pending c)).*1) as ([task' p] & -> & Hp%elem_of_map_to_list)%list_elem_of_fmap
    by (rewrite <- Ho, Ht; left).
  cbn [takeTasks]. cbn [fst]. rewrite Hp. cbn [ws_WaitingEntries length].
  change (0 <? Z.of_nat 0) with false. cbn [andb].
  pose proof (takeTasks_size o tasks (addTask o task' p (WorkerStatus [] [])) (delete task' (c_pending c))) as Hs.
  destruct (takeTasks _ _ _ _) as [req' pending']. intros [= <- <-]. cbn in *. rewrite map_size_delete_Some in Hs by by eexists.
  assert (size (c_pending c) ≠ 0)%nat; [|lia]. by intros ?%map_size_empty_inv.
Qed.

Lemma streamOk_runner o m m' : anyOrder o → runnerStep o m = Some m' → streamOk m → streamOk m'.
Proof.
  intros Ho Hst [H1 H2 H3 H4]. unfold runnerStep in Hst. destruct (m_runners m) as [|n] eqn:Hn; [done|].
  destruct (c_running (m_coalescer m)) eqn:Hr; [|done]. injection H1 as ->.
  unfold next in Hst. case_bool_decide as He; [injection Hst as <-; by split|].
  pose proof (tracked_takeTasks (arrivedEntry m) (arrivedOrder m) (handledEntry m) (handledOrder m) o
    (rg_tasks o (map_to_list (c_pending (m_coalescer m))).*1) (WorkerStatus [] []) (c_pending (m_coalescer m)) Ho) as Htake.
  pose proof (takeTasks_limit o (rg_tasks o (map_to_list (c_pending (m_coalescer m))).*1) (WorkerStatus [] [])
    (c_pending (m_coalescer m)) Ho) as Hlim.
  destruct (takeTasks _ _ _ _) as [req pending]. injection Hst as <-. rewrite Hr. split; cbn; [done..| |].
  - apply Forall_app. split; [done|]. apply Forall_singleton. apply Hlim; [|left; cbn; unfold maxWorkerStatusEntriesPerBatch; lia].
    intros task p k e Hp Hk. by destruct (tr_entry _ _ _ _ _ H4 _ _ _ _ Hp Hk) as [_ ->].
  - eapply tracked_iff; [..|apply Htake]; [done|done|..].
    1, 2: intros x; unfold handledEntry, handledOrder; cbn; by rewrite exists_snoc.
    eapply tracked_iff; [..|exact H4]; [done|done|..]; intros x; cbn; rewrite elem_of_nil; tauto.
Qed.

Lemma streamOk_reachable m : streamReachable m → streamOk m.
Proof. induction 1; [apply streamOk_start|by apply streamOk_arrive|by eapply streamOk_runner]. Qed.

(** ** The runner ends *)

Definition toHandle (m : stream) : nat := 2 * size (c_pending (m_coalescer m)) + m_runners m.

Lemma runs_less m m' : runs m m' → (toHandle m' < toHandle m)%nat.
Proof.
  intros [o m0 m1 Ho Hst]. unfold runnerStep in Hst. destruct (m_runners m0) as [|n] eqn:Hn; [done|].
  destruct (next o (m_coalescer m0)) as [[req|] c] eqn:Hnext; injection Hst as <-; unfold toHandle; cbn; rewrite Hn.
  - pose proof (next_takes _ _ _ _ Ho Hnext). lia.
  - unfold next in Hnext. case_bool_decide; [|by destruct (takeTasks _ _ _ _)]. injection Hnext as <-. cbn. lia.
Qed.

Lemma runs_sn m : sn runs m.
Proof.
  remember (toHandle m) as n eqn:Hn. revert m Hn. induction n as [n IH] using lt_wf_ind. intros m ->. constructor.
  intros m' Hst. by eapply IH; [by apply runs_less|].
Qed.

Lemma runs_star m m' : rtc runs m m' → streamOk m → streamOk m' ∧ m_arrived m' = m_arrived m.
Proof.
  induction 1 as [|m1 m2 m3 [o m4 m5 Ho Hst] _ IH]; [done|]. intros Hok. destruct (IH (streamOk_runner _ _ _ Ho Hst Hok)) as [? Heq].
  split; [done|]. rewrite Heq. unfold runnerStep in Hst. destruct (m_runners m4); [done|].
  by destruct (next o (m_coalescer m4)) as [[req|] c]; injection Hst as <-.
Qed.

Lemma runs_done m : streamOk m → nf runs m → c_pending (m_coalescer m) = ∅.
Proof.
  intros [H1 H2 _ _] Hnf. destruct (decide (c_pending (m_coalescer m) = ∅)) as [|Hne]; [done|]. specialize (H2 Hne). rewrite H2 in H1.
  destruct Hnf. assert (∃ m', runnerStep (RangeOrder id id) m = Some m') as [m' Hm].
  { unfold runnerStep. rewrite H1. destruct (next _ _) as [[req|] c]; eauto. }
  exists m'. by eapply (run_step (RangeOrder id id)).
Qed.

(** C19: merging statuses loses nothing: at most one goroutine handles the statuses of a stream, in requests whose waiting
    entries are at most the limit or all of one task, and hands out only what arrived; it comes to an end, and then every
    entry that arrived was handed out and every received order above zero was, or a higher one, unless a newer invocation
    of the task had arrived. *)
Theorem no_status_lost (m : stream) :
  streamReachable m →
  (m_runners m ≤ 1)%nat ∧ Forall withinLimit (m_handled m) ∧
  (∀ e, handledEntry m e → arrivedEntry m e) ∧ (∀ r, handledOrder m r → arrivedOrder m r) ∧ sn runs m ∧
  ∀ m', rtc runs m m' → nf runs m' →
    (∀ task inv ref, arrivedEntry m (Awaited task inv ref) →
      handledEntry m' (Awaited task inv ref) ∨ superseded (arrivedEntry m) (arrivedOrder m) task inv) ∧
    (∀ task inv h, arrivedOrder m (Received task inv h) → 0 < h →
      (∃ h', handledOrder m' (Received task inv h') ∧ h ≤ h') ∨ superseded (arrivedEntry m) (arrivedOrder m) task inv).
Proof.
  intros Hok%streamOk_reachable. split_and!.
  - rewrite (so_runner _ Hok). destruct (c_running _); lia.
  - apply Hok.
  - apply (so_tracked _ Hok).
  - apply (so_tracked _ Hok).
  - apply runs_sn.
  - intros m' Hstar Hnf. destruct (runs_star _ _ Hstar Hok) as [Hok' Harr]. pose proof (runs_done _ Hok' Hnf) as He.
    destruct (so_tracked _ Hok') as [_ _ _ _ _ HA HR]. rewrite He in HA, HR. unfold arrivedEntry, arrivedOrder in *. rewrite Harr in *. split.
    + intros task inv ref Ha. destruct (HA _ _ _ Ha) as [?|[(p & ?%lookup_empty_Some & _)|?]]; [by left|done|by right].
    + intros task inv h Ha Hpos. destruct (HR _ _ _ Ha Hpos) as [?|[(p & ?%lookup_empty_Some & _)|?]]; [by left|done|by right].
Qed.

(** Two statuses of one task arrive before the first is handled, the second of a newer invocation. *)
Definition exampleStatus (inv node h : Z) : DurableTaskWorkerStatusRequest := WorkerStatus [Awaited 7 inv (1, node)] [Received 7 inv h].
Definition exampleStream : stream :=
  arriveStep (exampleStatus 2 5 3) (arriveStep (exampleStatus 1 4 2) (arriveStep (exampleStatus 1 3 1) startStream)).

Lemma no_status_lost_witness :
  m_handled <$> runnerStep (RangeOrder id id) exampleStream = Some [WorkerStatus [Awaited 7 2 (1, 5)] [Received 7 2 3]] ∧ sn runs exampleStream.
Proof.
  split; [vm_compute; reflexivity|]. apply (no_status_lost exampleStream). do 3 apply sr_arrive. apply sr_start.
Defined.

(** ** Routes *)

Lemma compareAndDelete_sub task n routes : compareAndDelete task n routes ⊆ routes.
Proof. unfold compareAndDelete. case_bool_decide; [apply delete_subseteq|done]. Qed.

Lemma compareAll_sub {A} (f : A → uuid) n (l : list A) routes :
  foldl (λ routes a, compareAndDelete (f a) n routes) routes l ⊆ routes.
Proof. revert routes. induction l as [|a l IH]; intros routes; cbn; [done|]. etrans; [apply IH|apply compareAndDelete_sub]. Qed.

Lemma status_routes now V op n req routes s : (handleWorkerStatus now V op n req routes s).1.2 ⊆ routes.
Proof.
  unfold handleWorkerStatus. destruct (ws_WaitingEntries req); [done|]. destruct (v_counts V _) as [current|]; [|done].
  destruct (v_satisfied V _); cbn [fst snd]; apply (compareAll_sub fst).
Qed.

Lemma compareAll_gone n l routes (task : uuid) :
  task ∈ l → foldl (λ routes task, compareAndDelete task n routes) routes l !! task ≠ Some n.
Proof.
  revert routes. induction l as [|t l IH]; intros routes; [by intros ?%elem_of_nil|]. cbn. intros [->|Hin]%elem_of_cons; [|by apply IH].
  intros Hl. eapply lookup_weaken in Hl; [|apply (compareAll_sub id)]. unfold compareAndDelete in Hl. case_bool_decide as Hc; [|done].
  by apply (lookup_delete_Some (routes : gmap uuid nat)) in Hl as [? _].
Qed.

(** Routes lead to open streams: whatever streams open, register, report and close, a task is only routed to a stream
    that is open and has registered the task. *)
Theorem routes_lead_to_open_streams (t : streams) (task : uuid) (n : nat) :
  streamsReachable t → n_routes t !! task = Some n → ∃ known, n_registered t !! n = Some known ∧ task ∈ known.
Proof.
  intros Hr. revert task n. induction Hr as [|n0 t Hnew _ IH|n0 task0 t _ IH|now V op n0 req t s _ IH|n0 t _ IH]; intros task n; cbn.
  - by intros ?%lookup_empty_Some.
  - intros (known & Hk & Hin)%IH. exists known. rewrite lookup_insert_ne by congruence. done.
  - unfold registerTask. destruct (n_registered t !! n0) as [known|] eqn:Hk; [|apply IH]. case_bool_decide as Hin; [apply IH|]. cbn.
    intros [[<- <-]|[Hne (known' & Hk' & Hin')%IH]]%lookup_insert_Some; [exists ({[task0]} ∪ known); rewrite lookup_insert_eq; set_solver|].
    destruct (decide (n = n0)) as [->|Hn]; [|exists known'; by rewrite lookup_insert_ne].
    exists ({[task0]} ∪ known). rewrite lookup_insert_eq. split; [done|]. set_solver.
  - intros Hl. apply IH. eapply lookup_weaken; [exact Hl|apply status_routes].
  - unfold closeStream. destruct (n_registered t !! n0) as [known|] eqn:Hk; [|apply IH]. cbn. intros Hl.
    destruct (IH task n) as (known' & Hk' & Hin); [eapply lookup_weaken; [exact Hl|apply (compareAll_sub id)]|].
    assert (n ≠ n0) as Hn; [|exists known'; by rewrite lookup_delete_ne]. intros ->. assert (known' = known) as -> by congruence.
    revert Hl. apply compareAll_gone. by apply elem_of_elements.
Qed.

(** Two streams are open; the task that the second had registered is taken over by the first. *)
Definition exampleStreams : streams :=
  registerTask 1 7 (registerTask 2 7 (registerTask 1 8 (openStream 2 (openStream 1 (Streams ∅ ∅))))).

Lemma routes_lead_to_open_streams_witness : ∃ known, n_registered exampleStreams !! 1%nat = Some known ∧ 7 ∈ known.
Proof.
  apply (routes_lead_to_open_streams exampleStreams 7 1); [|vm_compute; reflexivity].
  do 3 apply ss_register. apply ss_open; [reflexivity|]. apply ss_open; [reflexivity|]. apply ss_start.
Defined.

(** A status of an old invocation that is handled after the new one started on the same stream takes the route of the
    task away, and no later message of the stream brings it back: completions find no stream. *)
Theorem route_not_restored :
  let V := StatusEnv (λ _, Some {[7 := 2]}) (λ _, Some []) (λ _, None) (λ _, false) in
  let t := registerTask 1 7 (openStream 1 (Streams ∅ ∅)) in
  let s := Session false ∅ [] in
  let routes := (handleWorkerStatus 100 V false 1 (exampleStatus 1 3 0) (n_routes t) s).1.2 in
  let later := registerTask 1 7 (Streams routes (n_registered t)) in
  n_routes t !! 7 = Some 1%nat ∧ n_routes later !! 7 = None ∧
  (DeliverDurableEventLogEntryCompletion 101 (λ _, false) (n_routes later) (SatisfiedEvent 7 2 (1, 3) "x" (Some 1) false None)
     {[1%nat := s]}).1 = false.
Proof. cbv zeta. split_and!; vm_compute; reflexivity. Qed.

End StreamTheorems.
