(* ===== verification/Eviction.v ===== *)
(** How a durable task that waits is evicted from its worker and woken up again: the completions of satisfied entries
    are sent to the dispatcher of the task or, when it was evicted, a message to restore it
    (src/internal/services/shared/durable/dispatch.go, src/internal/services/controllers/task/durable_callbacks.go);
    the eviction itself (evictDurableTask of server_v1.go, EvictTask of src/pkg/repository/task.go); completions that
    found no session and come back from the dead-letter queue (dispatcher.go, src/internal/services/scheduler/v1). *)

From S2P Require Import Prelude Workers LogTables EventLog EventLogOps EventLogTheorems ReplayPlan ReplayAnswer OrderedRelease.
Import Workers LogTables EventLog EventLogOps EventLogTheorems ReplayPlan ReplayAnswer OrderedRelease.

Module Eviction.

Open Scope Z_scope.

(** ** Callbacks *)

(** SatisfiedEntry of match.go: the durable task, the completion of its entry, and how often it was delivered again. *)
Record SatisfiedEntry := Callback {
  cb_DurableTaskId : Z;
  cb_event : SatisfiedEventWithPayload;
  cb_RedeliveryCount : Z;
}.
Definition cb_task (cb : SatisfiedEntry) : uuid := se_task (cb_event cb).

Record DurableTaskDispatcherLookup := Lookup {
  dl_DispatcherId : option uuid;
  dl_IsEvicted : bool;
}.

(** The messages of a dispatch: to the task controller, or to a dispatcher. *)
Inductive queueMessage :=
  | DurableRestoreTask (task : uuid)
  | DurableCallbackCompleted (dispatcher : uuid) (cb : SatisfiedEntry).

Record dispatching := Dispatching {
  dg_restored : gset uuid;
  dg_restores : list queueMessage;
  dg_perDispatcher : gmap uuid (list SatisfiedEntry);
}.

Definition dispatchOne (lookups : gmap Z DurableTaskDispatcherLookup) (d : dispatching) (cb : SatisfiedEntry) : dispatching :=
  match lookups !! cb_DurableTaskId cb with
  | None => d
  | Some lookup =>
      if dl_IsEvicted lookup then
        if bool_decide (cb_task cb ∈ dg_restored d) then d
        else Dispatching ({[cb_task cb]} ∪ dg_restored d) (dg_restores d ++ [DurableRestoreTask (cb_task cb)]) (dg_perDispatcher d)
      else
        match dl_DispatcherId lookup with
        | None => d
        | Some dispatcher =>
            Dispatching (dg_restored d) (dg_restores d)
              (<[dispatcher := default [] (dg_perDispatcher d !! dispatcher) ++ [cb]]> (dg_perDispatcher d))
        end
  end.

(** DispatchCallbacks: the messages it sends, in order; [lookups] is None when the lookup fails, [order] is the order in
    which the map of dispatchers is ranged over.  A message that cannot be sent does not keep the others back. *)
Definition DispatchCallbacks (lookups : option (gmap Z DurableTaskDispatcherLookup)) (order : list uuid → list uuid)
    (callbacks : list SatisfiedEntry) : option (list queueMessage) :=
  match callbacks with
  | [] => Some []
  | _ =>
      lookups ← lookups;
      let d := foldl (dispatchOne lookups) (Dispatching ∅ [] ∅) callbacks in
      Some (dg_restores d ++
        (dispatcher ← order (map_to_list (dg_perDispatcher d)).*1;
         DurableCallbackCompleted dispatcher <$> default [] (dg_perDispatcher d !! dispatcher)))
  end.

(** ** Completions without a session *)

(** handleDurableCallbackCompleted: the callbacks that could not be delivered, which are published to the dead-letter
    queue, and the sessions. *)
Fixpoint handleDurableCallbackCompleted (now : Z) (fails : DurableTaskResponse → bool) (routes : durableInvocations)
    (payloads : list SatisfiedEntry) (sessions : gmap nat durableTaskInvocation) :
    list SatisfiedEntry * gmap nat durableTaskInvocation :=
  match payloads with
  | [] => ([], sessions)
  | p :: payloads =>
      let '(ok, sessions) := DeliverDurableEventLogEntryCompletion now fails routes (cb_event p) sessions in
      let '(undelivered, sessions) := handleDurableCallbackCompleted now fails routes payloads sessions in
      (if ok then undelivered else p :: undelivered, sessions)
  end.

Definition maxDurableCallbackRedeliveries : Z := 50.

(** In nanoseconds. *)
Definition durableCallbackRedeliveryBaseDelay : Z := 100 * 10 ^ 6.
Definition durableCallbackRedeliveryMaxDelay : Z := 5 * 10 ^ 9.

Definition durableCallbackRedeliveryDelay (redeliveryCount : Z) : Z :=
  Z.min (Z.shiftl durableCallbackRedeliveryBaseDelay (Z.min redeliveryCount 10)) durableCallbackRedeliveryMaxDelay.

(** The callback that handleDeadLetteredDurableCallbackCompleted dispatches again for an undelivered one; [tasks] are
    the tasks found by their external ids. *)
Definition redeliver (tasks : gmap uuid Z) (p : SatisfiedEntry) : option SatisfiedEntry :=
  match tasks !! cb_task p with
  | None => None
  | Some id =>
      if maxDurableCallbackRedeliveries <=? cb_RedeliveryCount p then None
      else
        let e := cb_event p in
        Some (Callback id (SatisfiedEvent (se_task e) (se_invocationCount e) (se_ref e) (se_result e) None (se_failure e) (se_message e))
                (cb_RedeliveryCount p + 1))
  end.

(** The delay before the callbacks are dispatched again, and the messages. *)
Definition handleDeadLettered (tasks : option (gmap uuid Z)) (lookups : option (gmap Z DurableTaskDispatcherLookup))
    (order : list uuid → list uuid) (payloads : list SatisfiedEntry) : option (Z * list queueMessage) :=
  tasks ← tasks;
  match omap (redeliver tasks) payloads with
  | [] => Some (0, [])
  | callbacks =>
      let most := foldl (λ n cb, Z.max n (cb_RedeliveryCount cb)) 0 callbacks in
      messages ← DispatchCallbacks lookups order callbacks;
      Some (durableCallbackRedeliveryDelay most, messages)
  end.

(** ** Eviction and restoring *)

(** Whether the log of a task has an entry that is not satisfied, on any branch. *)
Definition hasUnsatisfied (t : taskLog) : bool := existsb (λ e, negb (e_IsSatisfied e)) (rows t).

Record EvictTaskResult := EvictResult {
  er_WasEvicted : bool;
  er_HasUnsatisfiedEntries : bool;
}.

(** The runtime of a task: whether it is evicted, the dispatcher of its worker, and its timeout. *)
Record taskRuntime := Runtime {
  rt_evicted : bool;
  rt_dispatcher : option uuid;
  rt_timeoutAt : option Z;
}.

(** EvictTask, under the lock of the log. *)
Definition EvictTask (now : Z) (t : taskLog) (rt : taskRuntime) : EvictTaskResult * taskRuntime :=
  let live := match rt_timeoutAt rt with None => true | Some at_ => now <? at_ end in
  if negb (rt_evicted rt) && live
  then (EvictResult true (hasUnsatisfied t), Runtime true None (rt_timeoutAt rt))
  else (EvictResult false (hasUnsatisfied t), rt).

(** evictDurableTask for an invocation up to its messages; [current] is the invocation count that was read before.  None
    is an eviction that is skipped since the invocation was not the current one.  The second result is whether a restore
    message is to be sent. *)
Definition evictDurableTask (now invocationCount : Z) (current : option Z) (t : taskLog) (rt : taskRuntime) :
    option (EvictTaskResult * bool * taskRuntime) :=
  if match current with Some c => invocationCount <? c | None => false end then None
  else let '(res, rt) := EvictTask now t rt in Some (res, negb (er_HasUnsatisfiedEntries res), rt).

(** RestoreEvictedTasks for one task: a queue item for an evicted task, unless it has one. *)
Definition restoreEvictedTask (rt : taskRuntime) (queued : bool) : bool := rt_evicted rt || queued.

(** The assignment of a queue item: an evicted task gets a worker again. *)
Definition assignEvicted (dispatcher : option uuid) (timeoutAt : option Z) (rt : taskRuntime) : taskRuntime :=
  if rt_evicted rt then Runtime false dispatcher timeoutAt else rt.

(** ** A task and what is on its way to it *)

(** [wu_evicting] evictions have committed and have yet to send a restore message; [wu_restores] restore messages and the
    [wu_callbacks] of satisfied entries are on their way. *)
Record wakeup := Wakeup {
  wu_log : taskLog;
  wu_runtime : taskRuntime;
  wu_queued : bool;
  wu_evicting : nat;
  wu_restores : nat;
  wu_callbacks : list (list SatisfiedEntry);
}.

Definition isRestore (m : queueMessage) : bool := match m with DurableRestoreTask _ => true | _ => false end.

Section steps.
Context `{Params} (ext : uuid) (id : Z).

(** What the lookup of dispatchers finds for the task. *)
Definition lookupOf (w : wakeup) : gmap Z DurableTaskDispatcherLookup :=
  {[id := Lookup (rt_dispatcher (wu_runtime w)) (rt_evicted (wu_runtime w))]}.

(** The callback of a row that was satisfied. *)
Definition callbackOf (t : taskLog) (e : V1DurableEventLogEntry) : SatisfiedEntry :=
  Callback id (SatisfiedEvent ext (match t_file t with Some f => f_LatestInvocationCount f | None => 0 end) (keyOf e) (e_Result e)
    (e_SatisfiedOrder e) (e_ChildTaskIsFailure e) (e_ChildTaskErrorMessage e)) 0.

Definition evictStep (now invocationCount : Z) (current : option Z) (w : wakeup) : wakeup :=
  match evictDurableTask now invocationCount current (wu_log w) (wu_runtime w) with
  | None => w
  | Some (_, restore, rt) =>
      Wakeup (wu_log w) rt (wu_queued w) (if restore then S (wu_evicting w) else wu_evicting w) (wu_restores w) (wu_callbacks w)
  end.

Definition satisfyStep (ms : list satisfiedMatch) (w : wakeup) : wakeup :=
  let '(updated, t) := satisfyEntries ms (wu_log w) in
  Wakeup t (wu_runtime w) (wu_queued w) (wu_evicting w) (wu_restores w) (wu_callbacks w ++ [callbackOf t <$> updated]).

Definition setLog (t : taskLog) (w : wakeup) : wakeup :=
  Wakeup t (wu_runtime w) (wu_queued w) (wu_evicting w) (wu_restores w) (wu_callbacks w).

(** What the engine does by itself: an eviction sends its restore message, callbacks are dispatched, a restore message
    is handled, and a queue item is assigned. *)
Inductive wakes : wakeup → wakeup → Prop :=
  | wk_publish t rt q n r cs : wakes (Wakeup t rt q (S n) r cs) (Wakeup t rt q n (S r) cs)
  | wk_dispatch t rt q n r cs1 c cs2 order ms :
      (∀ l, order l ≡ₚ l) →
      DispatchCallbacks (Some (lookupOf (Wakeup t rt q n r (cs1 ++ c :: cs2)))) order c = Some ms →
      wakes (Wakeup t rt q n r (cs1 ++ c :: cs2)) (Wakeup t rt q n (r + length (List.filter isRestore ms)) (cs1 ++ cs2))
  | wk_restore t rt q n r cs : wakes (Wakeup t rt q n (S r) cs) (Wakeup t rt (restoreEvictedTask rt q) n r cs)
  | wk_assign t rt n r cs dispatcher timeoutAt :
      wakes (Wakeup t rt true n r cs)
        (Wakeup (incrementInvocationCount t) (assignEvicted dispatcher timeoutAt rt) false n r cs).

(** All that can happen to a task.  The index is whether a memo of the task was completed while the task was
    evicted, since it last had a worker: CompleteMemoEntry asks neither for the invocation nor for the runtime, and
    wakes nobody up. *)
Inductive wakeupReachable : bool → wakeup → Prop :=
  | wr_start dispatcher timeoutAt :
      wakeupReachable false (Wakeup (incrementInvocationCount emptyLog) (Runtime false dispatcher timeoutAt) false 0 0 [])
  | wr_evict late now invocationCount current w :
      wakeupReachable late w → wakeupReachable late (evictStep now invocationCount current w)
  | wr_satisfy late ms w : wakeupReachable late w → wakeupReachable late (satisfyStep ms w)
  | wr_ingest late X q w : wakeupReachable late w → wakeupReachable late (setLog (ingest X id q (wu_log w)).2 w)
  | wr_memo late k payload t' w :
      wakeupReachable late w → completeMemoEntry k payload (wu_log w) = Some t' →
      wakeupReachable (late || rt_evicted (wu_runtime w)) (setLog t' w)
  | wr_trigger late triggers registers commits pending out t' w :
      wakeupReachable late w → triggerPendingRunEntries triggers registers commits pending (wu_log w) = Some (out, t') →
      wakeupReachable late (setLog t' w)
  | wr_wait late registers commits k conditions out t' w :
      wakeupReachable late w → triggerPendingWaitFor registers commits k conditions (wu_log w) = Some (out, t') →
      wakeupReachable late (setLog t' w)
  | wr_fork late nodeId branchId replay b t' w :
      wakeupReachable late w → handleBranch nodeId branchId replay (wu_log w) = Some (b, t') →
      wakeupReachable late (setLog t' w)
  | wr_engine late w w' : wakeupReachable late w → wakes w w' → wakeupReachable (late && rt_evicted (wu_runtime w')) w'.
End steps.

End Eviction.
