(* ===== verification/EvictionTheorems.v ===== *)
(** Theorems on eviction: a task that was evicted is woken up when its entries are satisfied, however evictions,
    completions and messages interleave; and what goes wrong with completions that come back from the dead-letter queue. *)

From S2P Require Import Prelude Workers LogTables EventLog EventLogOps EventLogTheorems ReplayPlan ReplayAnswer.
From S2P Require Import ReplayTheorems LogMonotone OrderedRelease ReleaseTheorems Eviction.
Import Workers LogTables EventLog EventLogOps EventLogTheorems ReplayPlan ReplayAnswer.
Import ReplayTheorems LogMonotone OrderedRelease ReleaseTheorems Eviction.

Module EvictionTheorems.

Open Scope Z_scope.

(** ** Entries that are not satisfied *)

Definition openEntry (t : taskLog) (k : entryKey) : Prop := ∃ e, t_entries t !! k = Some e ∧ e_IsSatisfied e = false.

Lemma hasUnsatisfied_open t : hasUnsatisfied t = true ↔ ∃ k, openEntry t k.
Proof.
  unfold hasUnsatisfied, openEntry, rows. rewrite existsb_exists. split.
  - intros (e & He & Hs). apply list_elem_of_In, list_elem_of_fmap in He as ([k e'] & -> & Hk%elem_of_map_to_list).
    exists k, e'. split; [done|]. by apply negb_true_iff in Hs.
  - intros (k & e & He & Hs). exists e. split; [|by rewrite Hs]. apply list_elem_of_In, (list_elem_of_fmap_2 snd _ (k, e)).
    by apply elem_of_map_to_list.
Qed.

(** No open entry is lost. *)
Definition keepsOpen (t t' : taskLog) : Prop := ∀ k, openEntry t k → openEntry t' k.

Lemma keepsOpen_steady t t' : evolves steady t t' → keepsOpen t t'.
Proof.
  intros [Hev _] k (e & He & Hs). destruct (Hev k e He) as (e' & He' & _ & Heq). exists e'. split; [done|congruence].
Qed.

(** An entry that a satisfied match leaves open is not one of those it satisfies; when it closes an entry it reports one. *)
Lemma satisfy_closes ms t k :
  openEntry t k → openEntry (satisfyEntries ms t).2 k ∨ (satisfyEntries ms t).1 ≠ [].
Proof.
  intros (e & He & Hs). unfold satisfyEntries, updateEntriesSatisfied. set (inputs := sm_input <$> ms).
  set (t1 := set_entries _ t).
  destruct (decide (k ∈ si_key <$> inputs)) as [Hin|Hni].
  - right. cbn [fst]. unfold getEntries. intros Hnil.
    assert (t_entries t1 !! k = Some (satisfy inputs t k e)) as Hk by (unfold t1; cbn; by rewrite map_lookup_imap, He).
    assert (satisfy inputs t k e ∈ omap (λ k, t_entries t1 !! k) (remove_dups (si_key <$> inputs))) as Hel.
    { apply list_elem_of_omap. exists k. split; [by apply elem_of_remove_dups|done]. }
    rewrite Hnil in Hel. by apply elem_of_nil in Hel.
  - left. assert (t_entries t1 !! k = Some e) as Hk.
    { unfold t1. cbn. rewrite map_lookup_imap, He. cbn. unfold satisfy.
      destruct (List.find _ inputs) as [i|] eqn:Hf; [|done]. apply find_some in Hf as [Hin Hf%bool_decide_eq_true].
      destruct Hni. rewrite <- Hf. by apply list_elem_of_fmap_2, list_elem_of_In. }
    assert (openEntry (raiseOrder ((λ k, latestOrder t + rowNumber keyLt (ordersToApply inputs t) k) <$> ordersToApply inputs t) t1) k) as Ho.
    { exists e. split; [|done]. unfold raiseOrder. by destruct (t_file t1). }
    revert Ho. generalize (raiseOrder ((λ k, latestOrder t + rowNumber keyLt (ordersToApply inputs t) k) <$> ordersToApply inputs t) t1).
    intros t2. apply keepsOpen_steady, evolves_related; [apply steady_key|]. intros k'. cbn [snd t_entries set_entries].
    match goal with |- context [foldl ?g _ _] => apply (related_foldl _ (λ a m, g m a)) end.
    intros a es. destruct (List.find _ _) as [m|]; [|by apply related_refl; apply _].
    case_bool_decide; [by apply related_refl; apply _|]. by apply related_alter; [apply _|].
Qed.

(** ** Dispatching *)

Lemma dispatchOne_restores lookups d cb :
  Forall isRestore (dg_restores d) →
  Forall isRestore (dg_restores (dispatchOne lookups d cb)) ∧
  (length (dg_restores d) ≤ length (dg_restores (dispatchOne lookups d cb)) ≤ S (length (dg_restores d)))%nat.
Proof.
  intros Hd. unfold dispatchOne. repeat (case_match || case_bool_decide); cbn; rewrite ?length_app; cbn; split; try lia; try done.
  apply Forall_app. split; [done|]. by constructor.
Qed.

Lemma dispatch_restores lookups cbs d :
  Forall isRestore (dg_restores d) →
  Forall isRestore (dg_restores (foldl (dispatchOne lookups) d cbs)) ∧
  (length (dg_restores d) ≤ length (dg_restores (foldl (dispatchOne lookups) d cbs)) ≤ length (dg_restores d) + length cbs)%nat.
Proof.
  revert d. induction cbs as [|cb cbs IH]; intros d Hd; cbn; [split; [done|lia]|].
  destruct (dispatchOne_restores lookups d cb Hd) as [Hd1 Hl]. destruct (IH _ Hd1) as [Hd2 Hl2]. split; [done|lia].
Qed.

Lemma filter_restores (rs : list queueMessage) (ds : list uuid) (f : uuid → list SatisfiedEntry) :
  Forall isRestore rs →
  List.filter isRestore (rs ++ (dispatcher ← ds; DurableCallbackCompleted dispatcher <$> f dispatcher)) = rs.
Proof.
  intros Hrs. rewrite List.filter_app. assert (∀ l, Forall (λ m, isRestore m = false) l → List.filter isRestore l = []) as Hnone.
  { induction 1 as [|m l Hm _ IH]; [done|]. cbn. by rewrite Hm. }
  rewrite (Hnone (_ ≫= _)).
  - rewrite app_nil_r. induction Hrs as [|m l Hm _ IH]; [done|]. cbn. destruct (isRestore m); [by rewrite IH|done].
  - apply Forall_forall. intros m (d & Hm & _)%list_elem_of_bind. by apply list_elem_of_fmap in Hm as (cb & -> & _).
Qed.

(** No more restore messages than callbacks, and at least one for an evicted task. *)
Lemma dispatch_count id rt order c ms :
  DispatchCallbacks (Some {[id := rt]}) order c = Some ms →
  (length (List.filter isRestore ms) ≤ length c)%nat ∧
  (Forall (λ cb, cb_DurableTaskId cb = id) c → dl_IsEvicted rt = true → c ≠ [] → (0 < length (List.filter isRestore ms))%nat).
Proof.
  unfold DispatchCallbacks. destruct c as [|cb c]; [by intros [= <-]|]. cbn [mbind option_bind].
  set (d1 := dispatchOne {[id := rt]} (Dispatching ∅ [] ∅) cb). cbn [foldl]. fold d1. intros [= <-].
  assert (Forall isRestore (dg_restores d1) ∧ (length (dg_restores d1) ≤ 1)%nat) as [Hd1 Hl1].
  { destruct (dispatchOne_restores {[id := rt]} (Dispatching ∅ [] ∅) cb) as [? [_ Hle]]; [by constructor|].
    split; [done|exact Hle]. }
  destruct (dispatch_restores {[id := rt]} c d1 Hd1) as [Hd Hl]. rewrite filter_restores by done. split; [cbn; lia|].
  intros Hids Hev _. inversion Hids as [|? ? Hid _]; subst. enough (length (dg_restores d1) = 1%nat) by lia.
  unfold d1, dispatchOne. rewrite lookup_singleton_eq, Hev. by rewrite bool_decide_eq_false_2 by set_solver.
Qed.

(** ** The invariant *)

Definition onItsWay (w : wakeup) : Prop :=
  wu_queued w = true ∨ (0 < wu_evicting w)%nat ∨ (0 < wu_restores w)%nat ∨ (∃ c, c ∈ wu_callbacks w ∧ c ≠ []).

(** [late] is whether a memo was completed while the task was evicted. *)
Record wakeupOk (id : Z) (late : bool) (w : wakeup) : Prop := {
  wo_callbacks : ∀ c, c ∈ wu_callbacks w → Forall (λ cb, cb_DurableTaskId cb = id) c;
  wo_awake : rt_evicted (wu_runtime w) = true → late = true ∨ onItsWay w ∨ ∃ k, openEntry (wu_log w) k;
}.

Lemma wakeupOk_setLog id late t w : keepsOpen (wu_log w) t → wakeupOk id late w → wakeupOk id late (setLog t w).
Proof.
  intros Hk [Hc Ha]. split; [done|]. intros Hev. destruct (Ha Hev) as [?|[?|[k Ho]]]; [by left|by right; left|].
  right; right. exists k. by apply Hk.
Qed.

Lemma wakeupOk_evict id late now invocationCount current w :
  wakeupOk id late w → wakeupOk id late (evictStep now invocationCount current w).
Proof.
  intros [Hc Ha]. unfold evictStep, evictDurableTask. destruct (match current with Some _ => _ | None => _ end); [done|].
  unfold EvictTask. destruct (hasUnsatisfied (wu_log w)) eqn:Hu.
  - apply hasUnsatisfied_open in Hu. destruct (negb _ && _); (split; [done|]); intros _; by right; right.
  - destruct (negb _ && _); (split; [done|]); intros _; right; left; right; left; cbn; lia.
Qed.

Lemma wakeupOk_satisfy ext id late ms w : wakeupOk id late w → wakeupOk id late (satisfyStep ext id ms w).
Proof.
  intros [Hc Ha]. unfold satisfyStep. pose proof (satisfy_closes ms (wu_log w)) as Hs.
  destruct (satisfyEntries ms (wu_log w)) as [updated t]. cbn [fst snd] in Hs. split; cbn.
  - intros c [Hin|Hin]%elem_of_app; [by apply Hc|]. apply list_elem_of_singleton in Hin as ->. by apply Forall_fmap, Forall_true.
  - intros Hev. destruct (decide (updated = [])) as [->|Hne].
    + destruct (Ha Hev) as [?|[[Hq|[He|[Hr|(c & Hin & Hn)]]]|[k Ho]]]; [by left|right; left..|].
      * by left.
      * by right; left.
      * by right; right; left.
      * right; right; right. exists c. split; [|done]. cbn. set_solver.
      * right; right. exists k. by destruct (Hs k Ho).
    + right; left. right; right; right. eexists. split; [apply elem_of_app; right; by apply list_elem_of_singleton|]. by destruct updated.
Qed.

Lemma wakeupOk_wakes id late w w' :
  wakes id w w' → wakeupOk id late w → wakeupOk id (late && rt_evicted (wu_runtime w')) w'.
Proof.
  intros Hw [Hc Ha]. destruct Hw as [t rt q n r cs|t rt q n r cs1 c cs2 order ms Hord Hd|t rt q n r cs|t rt n r cs d at_];
    cbn [wu_callbacks wu_runtime wu_log] in *.
  - split; [done|]. intros _. right; left. right; right; left. cbn. lia.
  - destruct (dispatch_count _ _ _ _ _ Hd) as [_ Hpos]. split; cbn; [intros c' Hin; apply Hc; set_solver|].
    intros Hev. specialize (Hpos (Hc c ltac:(set_solver)) Hev).
    destruct (Ha Hev) as [->|[[Hq|[He|[Hr|(c' & Hin & Hn)]]]|Ho]]; [by left|right; left..|by right; right]; unfold onItsWay; cbn in *.
    + by left.
    + by right; left.
    + right; right; left. lia.
    + apply elem_of_app in Hin as [Hin|[->|Hin]%elem_of_cons].
      * right; right; right. exists c'. set_solver.
      * right; right; left. specialize (Hpos Hn). lia.
      * right; right; right. exists c'. set_solver.
  - split; [done|]. cbn. intros Hev. right; left. left. cbn. unfold restoreEvictedTask. by rewrite Hev.
  - split; [done|]. cbn. unfold assignEvicted. destruct (rt_evicted rt) eqn:He; [done|]. by rewrite He.
Qed.

Section reachable.
Context `{Params} (ext : uuid) (id : Z).

Lemma reachable_wakeupOk late w : wakeupReachable ext id late w → wakeupOk id late w.
Proof.
  induction 1; [split; [cbn; intros ? []%elem_of_nil|done]|..].
  - by apply wakeupOk_evict.
  - by apply wakeupOk_satisfy.
  - apply wakeupOk_setLog; [apply keepsOpen_steady, ingest_steady|done].
  - destruct IHwakeupReachable as [Hc Ha]. split; [done|]. cbn. intros ->. left. apply orb_true_r.
  - apply wakeupOk_setLog; [by eapply keepsOpen_steady, trigger_steady|done].
  - apply wakeupOk_setLog; [by eapply keepsOpen_steady, wait_steady|done].
  - apply wakeupOk_setLog; [by eapply keepsOpen_steady, fork_steady|done].
  - by eapply wakeupOk_wakes.
Qed.
(** ** Coming to rest *)

Definition batchWork (c : list SatisfiedEntry) : nat := S (2 * length c).
Definition wakeupWork (w : wakeup) : nat :=
  (sum_list_with batchWork (wu_callbacks w) + 3 * wu_evicting w + 2 * wu_restores w + if wu_queued w then 1 else 0)%nat.

Lemma wakes_work w w' : wakes id w w' → (wakeupWork w' < wakeupWork w)%nat.
Proof.
  destruct 1 as [t rt q n r cs|t rt q n r cs1 c cs2 order ms Hord Hd|t rt q n r cs|t rt n r cs d at_]; unfold wakeupWork; cbn.
  - lia.
  - destruct (dispatch_count _ _ _ _ _ Hd) as [Hle _]. rewrite !sum_list_with_app. cbn. unfold batchWork. lia.
  - unfold restoreEvictedTask. destruct (rt_evicted rt), q; cbn; lia.
  - lia.
Qed.

Lemma wakes_sn w : sn (wakes id) w.
Proof.
  remember (wakeupWork w) as n eqn:Hn. revert w Hn. induction n as [n IH] using lt_wf_ind. intros w ->. constructor.
  intros w' Hw. by apply (IH (wakeupWork w')); [apply wakes_work|].
Qed.

Lemma wakes_rest w : nf (wakes id) w → ¬ onItsWay w.
Proof.
  intros Hnf. destruct w as [t rt q n r cs]. unfold onItsWay. cbn. intros [->|[Hn|[Hr|(c & Hin & _)]]]; apply Hnf.
  - eexists. by apply (wk_assign _ t rt n r cs None None).
  - destruct n; [lia|]. eexists. apply wk_publish.
  - destruct r; [lia|]. eexists. apply wk_restore.
  - apply list_elem_of_split in Hin as (cs1 & cs2 & ->).
    destruct (DispatchCallbacks (Some (lookupOf id (Wakeup t rt q n r (cs1 ++ c :: cs2)))) (λ l, l) c) as [ms|] eqn:Hd; [|by destruct c].
    eexists. by eapply (wk_dispatch _ t rt q n r cs1 c cs2 (λ l, l) ms).
Qed.

Lemma wakes_stays_ok late w w' : wakeupOk id late w → rtc (wakes id) w w' → ∃ late', (late' = true → late = true) ∧ wakeupOk id late' w'.
Proof.
  intros Hok Hstar. revert late Hok. induction Hstar as [w|w1 w2 w3 Hst _ IH]; intros late Hok; [by exists late|].
  destruct (IH _ (wakeupOk_wakes _ _ _ _ Hst Hok)) as (late' & Hl & Hok'). exists late'. split; [|done].
  intros [? _]%Hl%andb_true_iff. done.
Qed.

End reachable.

(** ** Examples *)

#[local] Existing Instance exampleParams.

Definition runNamed (name : string) (index : Z) : ingestEvent := TriggerRuns [exampleRun name index None].
Definition requestAt (invocation b : Z) (ev : ingestEvent) (w : wakeup) : wakeup :=
  setLog (ingest exampleTx 1 (exampleRequest invocation (b + 100 * Z.of_nat (size (t_entries (wu_log w)))) ev) (wu_log w)).2 w.
Definition completes (k : entryKey) (w : wakeup) : wakeup := satisfyStep 7 1 [SatisfiedMatch (Satisfied k false "") "r"] w.

(** A task sends two children off, is evicted while it waits, and the first child completes. *)
Definition evictedWaiting : wakeup :=
  completes (1, 1) (evictStep 10 1 (Some 1) (requestAt 1 1000 (runNamed "b" 1) (requestAt 1 1000 (runNamed "a" 0)
    (Wakeup (incrementInvocationCount emptyLog) (Runtime false (Some 5) None) false 0 0 [])))).

Lemma evictedWaiting_reachable : wakeupReachable 7 1 false evictedWaiting.
Proof. apply wr_satisfy, wr_evict, wr_ingest, wr_ingest, wr_start. Qed.


(** ** An abandoned branch *)

(** The engine goes on with what is on its way. *)
Definition engineStep (w : wakeup) : wakeup :=
  let '(Wakeup t rt q n r cs) := w in
  match cs, r, q with
  | c :: cs', _, _ =>
      match DispatchCallbacks (Some (lookupOf 1 w)) (λ l, l) c with
      | Some ms => Wakeup t rt q n (r + length (List.filter isRestore ms)) cs'
      | None => w
      end
  | [], S r, _ => Wakeup t rt (restoreEvictedTask rt q) n r []
  | [], O, true => Wakeup (incrementInvocationCount t) (assignEvicted (Some 5) None rt) false n 0 []
  | [], O, false => w
  end.

Lemma engineStep_reachable w : wakeupReachable 7 1 false w → wakeupReachable 7 1 false (engineStep w).
Proof.
  intros Hw. destruct w as [t rt q n r cs]. unfold engineStep. destruct cs as [|c cs].
  - destruct r as [|r]; [destruct q; [|done]|]; (eapply (wr_engine _ _ false); [exact Hw|]); [apply wk_assign|apply wk_restore].
  - destruct (DispatchCallbacks _ _ c) as [ms|] eqn:Hd; [|done]. eapply (wr_engine _ _ false); [exact Hw|].
    by apply (wk_dispatch 1 t rt q n r [] c cs (λ l, l) ms).
Qed.

Definition forkedAt (nodeId branchId : Z) (w : wakeup) : wakeup :=
  match handleBranch nodeId branchId None (wu_log w) with Some (_, t) => setLog t w | None => w end.

Lemma forkedAt_reachable nodeId branchId w : wakeupReachable 7 1 false w → wakeupReachable 7 1 false (forkedAt nodeId branchId w).
Proof. intros Hw. unfold forkedAt. destruct (handleBranch _ _ _ _) as [[b t]|] eqn:Hb; [|done]. by eapply wr_fork. Qed.

(** The completion of the first child has a restore message sent, which queues the task; before it is assigned, the task
    is forked at its second child.  The new invocation sends that child off again, on the new branch. *)
Definition runsAgain : wakeup :=
  requestAt 2 2000 (runNamed "b" 1) (requestAt 2 2000 (runNamed "a" 0)
    (engineStep (forkedAt 2 1 (engineStep (engineStep evictedWaiting))))).

(** The child completes, its completion is dispatched to the worker, and the worker, which had not seen it, evicts. *)
Definition asleep : wakeup := evictStep 20 2 (Some 2) (engineStep (completes (2, 2) runsAgain)).

Lemma asleep_reachable : wakeupReachable 7 1 false asleep.
Proof.
  apply wr_evict, engineStep_reachable, wr_satisfy, wr_ingest, wr_ingest, engineStep_reachable, forkedAt_reachable.
  apply engineStep_reachable, engineStep_reachable, evictedWaiting_reachable.
Qed.

(** C37: an entry of an abandoned branch can keep a task asleep: everything the task waits for on its branch is satisfied,
    the task is evicted and nothing is on its way to it; the one entry that is not satisfied is past a fork, and no
    replay asks for it. *)
Theorem abandoned_entry_blocks_wakeup :
  wakeupReachable 7 1 false asleep ∧ nf (wakes 1) asleep ∧ rt_evicted (wu_runtime asleep) = true ∧
  (∃ e, t_entries (wu_log asleep) !! (2, 2) = Some e ∧ e_IsSatisfied e = true) ∧
  (∀ k, openEntry (wu_log asleep) k → pastFork (wu_log asleep) k = true).
Proof.
  split_and!; [exact asleep_reachable| |vm_compute; reflexivity|eexists; split; vm_compute; reflexivity|].
  - intros [w' Hw]. remember asleep as w eqn:Ha. vm_compute in Ha. destruct Hw; simplify_eq; try discriminate Ha.
    by destruct cs1.
  - assert (Forall (λ kv, e_IsSatisfied kv.2 = false → pastFork (wu_log asleep) kv.1 = true) (map_to_list (t_entries (wu_log asleep)))) as Hall
      by (apply (bool_decide_unpack _); vm_compute; exact I).
    intros k (e & He & Hs). rewrite Forall_forall in Hall. apply (Hall (k, e)); [by apply elem_of_map_to_list|done].
Qed.

(** ** A memo that is completed late *)

(** A task asks for a memo and sends off a child; the child completes, which is dispatched to its worker; the task is
    evicted while its memo is open; then the memo is completed. *)
Definition lateMemo : wakeup :=
  let w := evictStep 10 1 (Some 1) (engineStep (completes (1, 2) (requestAt 1 1000 (runNamed "a" 0)
    (requestAt 1 1000 (Memo "" "m") (Wakeup (incrementInvocationCount emptyLog) (Runtime false (Some 5) None) false 0 0 []))))) in
  match completeMemoEntry (1, 1) "r" (wu_log w) with Some t => setLog t w | None => w end.

(** C38: there is a way to leave a task asleep for good: when a memo of a task is completed after the task was evicted,
    the task may stay evicted with nothing on its way to it and no entry that is left to be satisfied. *)
Theorem late_memo_strands_task :
  ∃ w, wakeupReachable 7 1 true w ∧ nf (wakes 1) w ∧ rt_evicted (wu_runtime w) = true ∧ ¬ ∃ k, openEntry (wu_log w) k.
Proof.
  exists lateMemo. split_and!.
  - unfold lateMemo. set (w := evictStep _ _ _ _). destruct (completeMemoEntry _ _ _) as [t|] eqn:Hm; [|by vm_compute in Hm].
    assert (rt_evicted (wu_runtime w) = true) as Hev by (vm_compute; reflexivity).
    assert (wakeupReachable 7 1 false w) as Hw by (apply wr_evict, engineStep_reachable, wr_satisfy, wr_ingest, wr_ingest, wr_start).
    pose proof (wr_memo _ _ _ _ _ _ _ Hw Hm) as Hr. by rewrite Hev in Hr.
  - intros [w' Hw]. remember lateMemo as w eqn:Ha. vm_compute in Ha. destruct Hw; simplify_eq; try discriminate Ha. by destruct cs1.
  - vm_compute. reflexivity.
  - rewrite <- hasUnsatisfied_open. vm_compute. discriminate.
Qed.

(** ** Completions from the dead-letter queue *)

(** The response of a completion. *)
Definition responseOf (e : SatisfiedEventWithPayload) : DurableTaskResponse :=
  entryCompletion (se_task e) (se_invocationCount e) (se_ref e) (se_result e) (se_order e) (se_failure e) (se_message e).

Lemma deliver_routed now routes sessions n s e :
  routes !! se_task e = Some n → sessions !! n = Some s →
  DeliverDurableEventLogEntryCompletion now (λ _, false) routes e sessions =
    let '(ok, s') := deliverOrdered now (λ _, false) (se_task e, se_invocationCount e) (se_order e) (responseOf e) s in
    (ok, <[n := s']> sessions).
Proof. intros Hr Hs. unfold DeliverDurableEventLogEntryCompletion. rewrite Hr. cbn. rewrite Hs. done. Qed.

Lemma hold_times_out now later key o resp rel rs sent :
  let rel' := (accept now o resp rel).2 in
  or_maxSent rel + 1 < o → or_buffered rel !! o = None → 0 < now → or_oldestBufferedAt rel ≤ now →
  now + durableOrderedReleaseGapTimeout < later →
  accept now o resp rel = ([], rel') ∧
  ∃ held, TimedOut key (or_maxSent rel + 1) held ∈
      timedOutOrderedReleases later durableOrderedReleaseGapTimeout (Session false (<[key := rel']> rs) sent) ∧ o ∈ held.
Proof.
  intros rel' Ho Hb Hnow Hold Hlater.
  assert (accept now o resp rel = ([], Release (or_maxSent rel) (<[o := resp]> (or_buffered rel))
    (if or_oldestBufferedAt rel =? 0 then now else or_oldestBufferedAt rel) now)) as Ha.
  { unfold accept. cbn. rewrite (proj2 (Z.leb_gt _ _)), (proj2 (Z.eqb_neq _ _)) by lia. by rewrite Hb. }
  unfold rel'. rewrite Ha. split; [done|]. eexists. split.
  - unfold timedOutOrderedReleases. apply list_elem_of_omap. eexists (key, _). split.
    { apply elem_of_map_to_list, lookup_insert_eq. }
    cbn. unfold hasTimedOut. cbn. rewrite bool_decide_false by apply insert_non_empty.
    assert ((if or_oldestBufferedAt rel =? 0 then now else or_oldestBufferedAt rel) ≠ 0 ∧
      (if or_oldestBufferedAt rel =? 0 then now else or_oldestBufferedAt rel) ≤ now) as [H1 H2]
      by (destruct (Z.eqb_spec (or_oldestBufferedAt rel) 0); lia).
    rewrite (proj2 (Z.eqb_neq _ _)), (proj2 (Z.ltb_lt _ _)) by lia. reflexivity.
  - rewrite merge_sort_Permutation, elem_of_elements. set_solver.
Qed.

(** C35: a completion that comes back from the dead-letter queue has lost its order: it is sent to the worker at once and
    its number stays missing, so that the completion that follows it, delivered in time, is held back, and when the time
    is up the task is given up for the number that was sent. *)
Theorem redelivered_loses_order (tasks : gmap uuid Z) (first second : SatisfiedEntry) (o now later : Z)
    (routes : durableInvocations) (sessions : gmap nat durableTaskInvocation) (n : nat) (s : durableTaskInvocation)
    (rel : orderedRelease) (rs : gmap orderedReleaseKey orderedRelease) :
  let key := (se_task (cb_event first), se_invocationCount (cb_event first)) in
  is_Some (tasks !! cb_task first) → cb_RedeliveryCount first < maxDurableCallbackRedeliveries →
  se_order (cb_event first) = Some o → se_order (cb_event second) = Some (o + 1) →
  (se_task (cb_event second), se_invocationCount (cb_event second)) = key →
  routes !! key.1 = Some n → sessions !! n = Some s → s_closed s = false →
  getRelease now key (s_releases s) = (Some rel, rs) → or_maxSent rel + 1 = o → or_buffered rel !! (o + 1) = None →
  0 < now → or_oldestBufferedAt rel ≤ now → now + durableOrderedReleaseGapTimeout < later →
  ∃ again s', redeliver tasks first = Some again ∧
    handleDurableCallbackCompleted now (λ _, false) routes [again; second] sessions = ([], <[n := s']> sessions) ∧
    s_sent s' = s_sent s ++ [responseOf (cb_event again)] ∧
    se_ref (cb_event again) = se_ref (cb_event first) ∧
    ∃ held, TimedOut key o held ∈ timedOutOrderedReleases later durableOrderedReleaseGapTimeout s' ∧ (o + 1) ∈ held.
Proof.
  intros key [id Hid] Hcount Ho1 Ho2 Hkey Hroute Hs Hopen Hget Hmax Hbuf Hnow Hold Hlater.
  injection Hkey as Ht2 Hi2. unfold redeliver. rewrite Hid, (proj2 (Z.leb_gt _ _)) by lia.
  set (again := Callback _ _ _). destruct s as [closed rs0 sent]. cbn in Hopen, Hget. subst closed.
  set (s1 := Session false rs0 (sent ++ [responseOf (cb_event again)])).
  destruct (hold_times_out now later key (o + 1) (responseOf (cb_event second)) rel rs (s_sent s1)) as [Hacc Hheld]; [lia|done..|].
  set (rel' := (accept now (o + 1) (responseOf (cb_event second)) rel).2) in *.
  exists again, (Session false (<[key := rel']> rs) (s_sent s1)). split; [done|]. split; [|split; [done|]; split; [done|]; by rewrite Hmax in Hheld].
  cbn [handleDurableCallbackCompleted].
  rewrite (deliver_routed now routes sessions n (Session false rs0 sent)) by done. cbn [deliverOrdered again cb_event se_order sendAll s_closed orb].
  rewrite (deliver_routed now routes _ n s1); [|by rewrite Ht2|apply lookup_insert_eq].
  rewrite Ho2, Ht2, Hi2. unfold deliverOrdered. change (s_releases s1) with rs0. fold key. rewrite Hget, Hacc. cbn. by rewrite insert_insert_eq.
Qed.

Definition exampleCompletion (order : Z) : SatisfiedEntry :=
  Callback 1 (SatisfiedEvent 7 1 (1, order) "r" (Some order) false None) 0.

Lemma redelivered_loses_order_witness :
  ∃ again s', redeliver {[7 := 1]} (exampleCompletion 1) = Some again ∧
    handleDurableCallbackCompleted 2 (λ _, false) {[7 := 0%nat]} [again; exampleCompletion 2] {[0%nat := Session false ∅ []]} =
      ([], <[0%nat := s']> {[0%nat := Session false ∅ []]}) ∧
    s_sent s' = [] ++ [responseOf (cb_event again)] ∧ se_ref (cb_event again) = (1, 1) ∧
    ∃ held, TimedOut (7, 1) 1 held ∈ timedOutOrderedReleases 63 durableOrderedReleaseGapTimeout s' ∧ 2 ∈ held.
Proof.
  apply (redelivered_loses_order {[7 := 1]} (exampleCompletion 1) (exampleCompletion 2) 1 2 63 {[7 := 0%nat]}
    {[0%nat := Session false ∅ []]} 0 (Session false ∅ []) (Release 0 ∅ 0 2) {[(7, 1) := Release 0 ∅ 0 2]});
    try reflexivity; try (vm_compute; reflexivity).
  - eexists. reflexivity.
  - cbn. lia.
Defined.

End EvictionTheorems.
