(* ===== verification/EvictedSweep.v ===== *)
(** The periodic pass that restores evicted DAG orchestrators whose wake-up was lost
    (src/internal/services/controllers/task/restore_evicted_orchestrators.go): it walks the evicted runtimes of a tenant
    in windows, from a cursor that is kept between the passes. *)

From S2P Require Import Prelude Workers LogTables EventLog EventLogOps OrderedRelease Eviction.
Import Workers LogTables EventLog EventLogOps OrderedRelease Eviction.

Module EvictedSweep.

Open Scope Z_scope.

(** The time of the eviction, the task's id and time of insertion, and its retry count. *)
Definition EvictedTaskRuntimeCursor : Type := Z * Z * Z * Z.

(** Rows are compared from left to right. *)
Definition cursorLt (a b : EvictedTaskRuntimeCursor) : Prop :=
  let '(e, i, t, r) := a in let '(e', i', t', r') := b in
  e < e' ∨ (e = e' ∧ (i < i' ∨ (i = i' ∧ (t < t' ∨ (t = t' ∧ r < r'))))).
Definition cursorLe (a b : EvictedTaskRuntimeCursor) : Prop := a = b ∨ cursorLt a b.
#[global] Instance cursorLt_dec : RelDecision cursorLt.
Proof. intros [[[e i] t] r] [[[e' i'] t'] r']. apply _. Defined.
#[global] Instance cursorLe_dec : RelDecision cursorLe.
Proof. intros a b. apply _. Defined.

(** Go's zero time, in microseconds since the epoch, and the cursor of a tenant that has none. *)
Definition zeroTime : Z := -62135596800 * 10 ^ 6.
Definition zeroCursor : EvictedTaskRuntimeCursor := (zeroTime, 0, zeroTime, 0).

(** What the pass reads of a task: its external id, whether it is a DAG orchestrator, and its log. *)
Record sweptTask := SweptTask {
  st_ExternalID : uuid;
  st_is_dag_orchestrator : bool;
  st_log : taskLog;
}.

(** A runtime of the tenant with its task, if there is one. *)
Record sweptRuntime := SweptRuntime {
  sw_evicted_at : option Z;
  sw_task : option sweptTask;
}.
(** The runtimes by task id, time of insertion and retry count. *)
Definition runtimeTable : Type := gmap (Z * Z * Z) sweptRuntime.

Record ListEvictedTaskRuntimeWindowRow := WindowRow {
  wr_cursor : EvictedTaskRuntimeCursor;
  wr_ExternalID : option uuid;
  wr_IsStuckDurableOrchestrator : bool;
}.

#[global] Instance windowRow_eq_dec : EqDecision ListEvictedTaskRuntimeWindowRow.
Proof. solve_decision. Defined.

(** Whether an orchestrator has entries, and all are satisfied. *)
Definition isStuck (t : sweptTask) : bool :=
  st_is_dag_orchestrator t && negb (bool_decide (rows (st_log t) = [])) && negb (hasUnsatisfied (st_log t)).

Definition windowRow (now grace : Z) (after : EvictedTaskRuntimeCursor) (kr : Z * Z * Z * sweptRuntime) :
    option ListEvictedTaskRuntimeWindowRow :=
  let '(i, t, r, rt) := kr in
  match sw_evicted_at rt with
  | None => None
  | Some at_ =>
      if bool_decide (at_ < now - grace) && bool_decide (cursorLt after (at_, i, t, r))
      then Some (WindowRow (at_, i, t, r) (st_ExternalID <$> sw_task rt)
                   (match sw_task rt with Some task => isStuck task | None => false end))
      else None
  end.

Definition rowLe (a b : ListEvictedTaskRuntimeWindowRow) : Prop := cursorLe (wr_cursor a) (wr_cursor b).
#[global] Instance rowLe_dec : RelDecision rowLe.
Proof. intros a b. apply _. Defined.

Definition ListEvictedTaskRuntimeWindow (now : Z) (after : EvictedTaskRuntimeCursor) (grace : Z) (windowSize : nat)
    (runtimes : runtimeTable) : list ListEvictedTaskRuntimeWindowRow :=
  take windowSize (merge_sort rowLe (omap (windowRow now grace after) (map_to_list runtimes))).

(** In microseconds. *)
Definition stuckEvictedOrchestratorGrace : Z := 5 * 60 * 10 ^ 6.
Definition evictedTaskRuntimeWindowSize : nat := 2000.

(** What a pass meets: the time, the runtimes, and the restore messages that can be sent; without runtimes the query
    failed. *)
Record pass := Pass {
  pa_now : Z;
  pa_runtimes : option runtimeTable;
  pa_sends : uuid → bool;
}.

(** processStuckEvictedDurableOrchestrators for a tenant with its cursor: the cursor and the restore messages sent. *)
Definition processStuckEvictedDurableOrchestrators (p : pass) (cursor : option EvictedTaskRuntimeCursor) :
    option EvictedTaskRuntimeCursor * list uuid :=
  match pa_runtimes p with
  | None => (cursor, [])
  | Some runtimes =>
      let found := ListEvictedTaskRuntimeWindow (pa_now p) (default zeroCursor cursor) stuckEvictedOrchestratorGrace
                     evictedTaskRuntimeWindowSize runtimes in
      let cursor' := if (length found <? evictedTaskRuntimeWindowSize)%nat then None else wr_cursor <$> last found in
      let restore row :=
        if wr_IsStuckDurableOrchestrator row
        then ext ← wr_ExternalID row; if pa_sends p ext then Some ext else None
        else None in
      (cursor', omap restore found)
  end.

(** Passes one after the other: the cursor and all messages. *)
Definition sweep (passes : list pass) (cursor : option EvictedTaskRuntimeCursor) :
    option EvictedTaskRuntimeCursor * list uuid :=
  foldl (λ acc p, let '(c, sent) := processStuckEvictedDurableOrchestrators p acc.1 in (c, acc.2 ++ sent)) (cursor, []) passes.

End EvictedSweep.
