(* ===== verification/SweepTheorems.v ===== *)
(** Theorems on the pass that restores evicted orchestrators: no orchestrator that stays stuck is missed, whatever
    happens to the other runtimes between the passes. *)

From S2P Require Import Prelude Workers LogTables EventLog EventLogOps OrderedRelease Eviction EvictedSweep.
Import Workers LogTables EventLog EventLogOps OrderedRelease Eviction EvictedSweep.

Module SweepTheorems.

Open Scope Z_scope.

(** ** The order of the cursors *)

Ltac cursors := intros; repeat match goal with c : EvictedTaskRuntimeCursor |- _ => destruct c as [[[? ?] ?] ?] end;
  unfold cursorLe, cursorLt in *; simplify_eq; try lia.

Lemma cursorLt_trans a b c : cursorLt a b → cursorLt b c → cursorLt a c.
Proof. cursors. Qed.
Lemma cursorLt_irrefl a : ¬ cursorLt a a.
Proof. cursors. Qed.
Lemma cursorLe_lt_trans a b c : cursorLe a b → cursorLt b c → cursorLt a c.
Proof. intros [->|Hab] Hbc; [done|]. by eapply cursorLt_trans. Qed.
Lemma cursorLt_le_trans a b c : cursorLt a b → cursorLe b c → cursorLt a c.
Proof. intros Hab [<-|Hbc]; [done|]. by eapply cursorLt_trans. Qed.
Lemma cursorLe_trans a b c : cursorLe a b → cursorLe b c → cursorLe a c.
Proof. intros [->|Hab] Hbc; [done|]. right. by eapply cursorLt_le_trans. Qed.
Lemma cursor_total a b : cursorLt a b ∨ cursorLe b a.
Proof.
  destruct a as [[[a1 a2] a3] a4], b as [[[b1 b2] b3] b4]. unfold cursorLe, cursorLt.
  destruct (Z.lt_trichotomy a1 b1) as [?|[->|?]]; [lia| |lia].
  destruct (Z.lt_trichotomy a2 b2) as [?|[->|?]]; [lia| |lia].
  destruct (Z.lt_trichotomy a3 b3) as [?|[->|?]]; [lia| |lia].
  destruct (Z.lt_trichotomy a4 b4) as [?|[->|?]]; [lia| |lia]. by right; left.
Qed.

#[local] Instance rowLe_total : Total rowLe.
Proof. intros a b. unfold rowLe. destruct (cursor_total (wr_cursor a) (wr_cursor b)); [by left; right|by right]. Qed.
#[local] Instance rowLe_trans : Transitive rowLe.
Proof. intros a b c. unfold rowLe. apply cursorLe_trans. Qed.

(** ** A window *)

Section window.
Context (now grace : Z) (after : EvictedTaskRuntimeCursor) (size : nat) (runtimes : runtimeTable).
Let selected := omap (windowRow now grace after) (map_to_list runtimes).
Let window := ListEvictedTaskRuntimeWindow now after grace size runtimes.

Lemma elem_of_selected row :
  row ∈ selected → cursorLt after (wr_cursor row) ∧
  ∃ at_ i t r rt, runtimes !! (i, t, r) = Some rt ∧ sw_evicted_at rt = Some at_ ∧ at_ < now - grace ∧ wr_cursor row = (at_, i, t, r).
Proof.
  intros ([[[i t] r] rt] & Hin%elem_of_map_to_list & Hrow)%list_elem_of_omap. unfold windowRow in Hrow.
  destruct (sw_evicted_at rt) as [at_|] eqn:Hat; [|done].
  destruct (_ && _) eqn:Hc; [|done]. apply andb_true_iff in Hc as [H1%bool_decide_eq_true H2%bool_decide_eq_true].
  injection Hrow as <-. cbn. eauto 10.
Qed.

Lemma rows_NoDup (l : list (Z * Z * Z * sweptRuntime)) : NoDup l.*1 → NoDup (wr_cursor <$> omap (windowRow now grace after) l).
Proof.
  induction l as [|[[[i t] r] rt] l IH]; [constructor|]. intros [Hni Hnd]%NoDup_cons. specialize (IH Hnd). cbn [omap list_omap].
  destruct (windowRow now grace after (i, t, r, rt)) as [row|] eqn:Hrow; [|done]. rewrite fmap_cons. constructor; [|done].
  intros (row' & Heq & ([[[i' t'] r'] rt'] & Hin & Hrow')%list_elem_of_omap)%list_elem_of_fmap. destruct Hni. cbn.
  unfold windowRow in Hrow, Hrow'. destruct (sw_evicted_at rt), (sw_evicted_at rt'); try done.
  destruct (_ && _); [|done]. destruct (_ && _); [|done]. simplify_eq.
  by apply (list_elem_of_fmap_2 fst) in Hin.
Qed.

Lemma selected_NoDup : NoDup (wr_cursor <$> selected).
Proof. apply rows_NoDup. exact (NoDup_fst_map_to_list (M := gmap (Z * Z * Z)) runtimes). Qed.

Lemma window_split : ∃ rest, selected ≡ₚ window ++ rest ∧ Sorted rowLe (window ++ rest) ∧ (length window < size → rest = [])%nat ∧ (length window ≤ size)%nat.
Proof.
  unfold window, ListEvictedTaskRuntimeWindow. fold selected. exists (drop size (merge_sort rowLe selected)). rewrite take_drop. split_and!.
  - by rewrite merge_sort_Permutation.
  - apply Sorted_merge_sort. apply _.
  - rewrite length_take. intros Hlt. apply drop_ge. lia.
  - rewrite length_take. lia.
Qed.

Lemma window_elem row : row ∈ window → row ∈ selected.
Proof. destruct window_split as (rest & Hp & _). rewrite Hp. set_solver. Qed.

Lemma window_NoDup : NoDup (wr_cursor <$> window).
Proof.
  destruct window_split as (rest & Hp & _). pose proof selected_NoDup as Hnd. rewrite Hp, fmap_app in Hnd.
  by apply NoDup_app in Hnd as [? _].
Qed.

(** A row that was selected and is not in the window comes after a full window. *)
Lemma window_before row : row ∈ selected → row ∉ window → length window = size ∧ ∀ a, a ∈ window → cursorLt (wr_cursor a) (wr_cursor row).
Proof.
  destruct window_split as (rest & Hp & Hs & Hfull & Hle). intros Hin Hni. rewrite Hp in Hin. apply elem_of_app in Hin as [?|Hrest]; [done|].
  split.
  - destruct (decide (length window < size)%nat) as [Hlt|]; [|lia]. rewrite Hfull in Hrest by done. by apply elem_of_nil in Hrest.
  - intros a Ha. assert (rowLe a row) as [Heq|?]; [|exfalso|done].
    + apply Sorted_StronglySorted in Hs; [|apply _]. apply StronglySorted_app in Hs as (Hall & _ & _). by apply Hall.
    + pose proof selected_NoDup as Hnd. rewrite Hp, fmap_app in Hnd. apply NoDup_app in Hnd as (_ & Hdis & _).
      apply (Hdis (wr_cursor a)); [by apply list_elem_of_fmap_2|]. rewrite Heq. by apply list_elem_of_fmap_2.
Qed.

Lemma window_last row : last window = Some row → ∀ a, a ∈ window → cursorLe (wr_cursor a) (wr_cursor row).
Proof.
  destruct window_split as (rest & _ & Hs & _). intros [l Hl]%last_Some a Ha. apply Sorted_StronglySorted in Hs; [|apply _].
  rewrite Hl in Hs, Ha. rewrite <- app_assoc in Hs. apply StronglySorted_app in Hs as (Hall & _ & _).
  apply elem_of_app in Ha as [Ha|Ha]; [|left; apply list_elem_of_singleton in Ha; by subst]. apply (Hall a row); [done|]. cbn. set_solver.
Qed.
End window.

(** ** Progress *)

Section progress.
Context (U : gset EvictedTaskRuntimeCursor) (k : EvictedTaskRuntimeCursor).
Notation W := evictedTaskRuntimeWindowSize.

Definition between (a b : EvictedTaskRuntimeCursor) : gset EvictedTaskRuntimeCursor := filter (λ u, cursorLt a u ∧ cursorLt u b) U.
Definition beyond (a : EvictedTaskRuntimeCursor) : gset EvictedTaskRuntimeCursor := filter (cursorLt a) U.

(** The runtimes that can be listed before the one at [k], with a window for the turn from the end to the start. *)
Definition ahead (c : EvictedTaskRuntimeCursor) : nat :=
  if decide (cursorLt c k) then size (between c k) else (W + size (beyond c) + size (between zeroCursor k))%nat.

Lemma ahead_le c : (ahead c ≤ W + size U)%nat.
Proof.
  unfold ahead. case_decide as Hc.
  - assert (size (between c k) ≤ size U)%nat; [apply subseteq_size; unfold between; set_solver|lia].
  - rewrite <- Nat.add_assoc, <- size_union.
    + apply Nat.add_le_mono_l, subseteq_size. unfold between, beyond. set_solver.
    + intros u [Hu _]%elem_of_filter [[_ Hk] _]%elem_of_filter. destruct Hc. by eapply cursorLt_trans.
Qed.

(** Rows between two cursors, none beyond the second, take up their part. *)
Lemma listed_size (l : list ListEvictedTaskRuntimeWindowRow) (A B : gset EvictedTaskRuntimeCursor) :
  NoDup (wr_cursor <$> l) → (∀ a, a ∈ l → wr_cursor a ∈ A ∧ wr_cursor a ∉ B) → B ⊆ A → (length l + size B ≤ size A)%nat.
Proof.
  intros Hnd Hl HB. rewrite <- (length_fmap wr_cursor l), <- (size_list_to_set (C := gset EvictedTaskRuntimeCursor)) by done.
  rewrite <- size_union.
  - apply subseteq_size. intros u [Hu|Hu]%elem_of_union; [|by apply HB].
    apply elem_of_list_to_set, list_elem_of_fmap in Hu as (a & -> & Ha). by apply Hl.
  - intros u Hu HuB. apply elem_of_list_to_set, list_elem_of_fmap in Hu as (a & -> & Ha). by apply (Hl a).
Qed.

Section pass.
Context (now : Z) (runtimes : runtimeTable) (c : EvictedTaskRuntimeCursor) (row : ListEvictedTaskRuntimeWindowRow).
Let selected := omap (windowRow now stuckEvictedOrchestratorGrace c) (map_to_list runtimes).
Let window := ListEvictedTaskRuntimeWindow now c stuckEvictedOrchestratorGrace W runtimes.
Let c' := if (length window <? W)%nat then zeroCursor else default zeroCursor (wr_cursor <$> last window).
Hypothesis Hall : ∀ a, a ∈ selected → wr_cursor a ∈ U.
Hypothesis Hsel : cursorLt c k → row ∈ selected.
Hypothesis Hk : wr_cursor row = k.
Hypothesis Hzero : cursorLt zeroCursor k.

Lemma window_pos : (0 < W)%nat.
Proof. apply Nat.ltb_lt. vm_compute. reflexivity. Qed.

Lemma window_full : (length window <? W)%nat = false → length window = W ∧ ∃ r, r ∈ window ∧ c' = wr_cursor r ∧ ∀ a, a ∈ window → cursorLe (wr_cursor a) c'.
Proof.
  unfold c'. intros Hf. rewrite Hf. apply Nat.ltb_ge in Hf.
  destruct (window_split now stuckEvictedOrchestratorGrace c W runtimes) as (rest & _ & _ & _ & Hle). fold window in Hle.
  split; [lia|]. destruct (last window) as [r|] eqn:Hl.
  - exists r. split_and!; [apply last_Some in Hl as [l ->]; set_solver|done|]. intros a Ha. by eapply window_last.
  - apply last_None in Hl. rewrite Hl in Hf. cbn in Hf. pose proof window_pos. lia.
Qed.

(** A pass lists the row, or leaves a window less ahead of it. *)
Lemma pass_progress : row ∈ window ∨ (ahead c' + W ≤ ahead c)%nat.
Proof.
  destruct (decide (row ∈ window)) as [?|Hni]; [by left|right].
  assert (∀ a, a ∈ window → wr_cursor a ∈ U ∧ cursorLt c (wr_cursor a)) as Hw.
  { intros a Ha%window_elem. split; [by apply Hall|]. by apply elem_of_selected in Ha as [? _]. }
  pose proof (window_NoDup now stuckEvictedOrchestratorGrace c W runtimes) as Hnd. fold window in Hnd.
  destruct (decide (cursorLt c k)) as [Hck|Hck].
  - destruct (window_before now stuckEvictedOrchestratorGrace c W runtimes row (Hsel Hck) Hni) as [Hlen Hbefore].
    fold window in Hlen, Hbefore. rewrite Hk in Hbefore. destruct window_full as (_ & r & Hr & Hc' & Hlast); [apply Nat.ltb_ge; lia|].
    assert (cursorLt c' k) as Hc'k by (rewrite Hc'; by apply Hbefore).
    unfold ahead. rewrite !decide_True by done. rewrite Nat.add_comm, <- Hlen. apply listed_size; [done| |].
    + intros a Ha. destruct (Hw a Ha) as [HU Hca]. split; [apply elem_of_filter; auto|]. intros [[Hlt _] _]%elem_of_filter.
      apply (cursorLt_irrefl c'). eapply cursorLt_le_trans; [exact Hlt|by apply Hlast].
    + intros u [[Hu1 Hu2] Hu]%elem_of_filter. apply elem_of_filter. split_and!; [|done..].
      eapply cursorLt_trans; [|exact Hu1]. rewrite Hc'. by apply Hw.
  - destruct (Sumbool.sumbool_of_bool (length window <? W)%nat) as [Hf|Hf].
    + unfold c'. rewrite Hf. unfold ahead. rewrite decide_True by done. rewrite decide_False by done. lia.
    + destruct (window_full Hf) as (Hlen & r & Hr & Hc' & Hlast). assert (¬ cursorLt c' k) as Hc'k.
      { intros Hlt. apply Hck. eapply cursorLt_trans; [|exact Hlt]. rewrite Hc'. by apply Hw. }
      unfold ahead. rewrite !decide_False by done. enough (length window + size (beyond c') ≤ size (beyond c))%nat by lia.
      apply listed_size; [done| |].
      * intros a Ha. destruct (Hw a Ha) as [HU Hca]. split; [apply elem_of_filter; auto|]. intros [Hlt _]%elem_of_filter.
        apply (cursorLt_irrefl c'). eapply cursorLt_le_trans; [exact Hlt|by apply Hlast].
      * intros u [Hu1 Hu]%elem_of_filter. apply elem_of_filter. split; [|done].
        eapply cursorLt_trans; [|exact Hu1]. rewrite Hc'. by apply Hw.
Qed.
End pass.

(** ** Many passes *)

Notation onePass acc p := (let '(c, sent) := processStuckEvictedDurableOrchestrators p acc.1 in (c, acc.2 ++ sent)) (only parsing).

Context (i t r at_ : Z) (ext : uuid).

(** A pass at which the runtime is stuck for longer than the grace, and its restore message can be sent. *)
Definition stuckAt (p : pass) : Prop :=
  ∀ tbl, pa_runtimes p = Some tbl →
  ∃ rt task, tbl !! (i, t, r) = Some rt ∧ sw_evicted_at rt = Some at_ ∧ sw_task rt = Some task ∧ isStuck task = true ∧
    st_ExternalID task = ext ∧ pa_sends p ext = true ∧ at_ < pa_now p - stuckEvictedOrchestratorGrace.

(** The evicted runtimes of a pass. *)
Definition within (p : pass) : Prop :=
  ∀ tbl i' t' r' rt a, pa_runtimes p = Some tbl → tbl !! (i', t', r') = Some rt → sw_evicted_at rt = Some a → (a, i', t', r') ∈ U.

Lemma pass_step p tbl cursor :
  k = (at_, i, t, r) → zeroTime < at_ → stuckAt p → within p → pa_runtimes p = Some tbl →
  let '(c', sent) := processStuckEvictedDurableOrchestrators p cursor in
  ext ∈ sent ∨ (ahead (default zeroCursor c') + W ≤ ahead (default zeroCursor cursor))%nat.
Proof.
  intros Hk Hzero Hs Hin Hp. destruct (Hs tbl Hp) as (rt & task & Hrt & Hat & Htask & Hst & Hext & Hsend & Hgrace).
  set (c := default zeroCursor cursor). set (row := WindowRow k (Some ext) true).
  destruct (pass_progress (pa_now p) tbl c row) as [Hrow|Hrow].
  - intros a (_ & at' & i' & t' & r' & rt' & Hl & He & _ & ->)%elem_of_selected. by eapply Hin.
  - intros Hlt. apply list_elem_of_omap. exists (i, t, r, rt). split; [by apply elem_of_map_to_list|].
    unfold windowRow, row. rewrite Hat, Htask, <- Hk. cbn. rewrite !bool_decide_true by done. by rewrite Hst, Hext.
  - done.
  - rewrite Hk. left. done.
  - unfold processStuckEvictedDurableOrchestrators. rewrite Hp. fold c. left. apply list_elem_of_omap. exists row. split; [done|].
    cbn. by rewrite Hsend.
  - unfold processStuckEvictedDurableOrchestrators. rewrite Hp. fold c. right. by destruct (_ <? _)%nat.
Qed.

Lemma sweep_progress passes acc :
  k = (at_, i, t, r) → zeroTime < at_ → Forall stuckAt passes → Forall within passes →
  let '(c', sent) := foldl (λ acc p, onePass acc p) acc passes in
  (ext ∈ acc.2 → ext ∈ sent) ∧
  (ext ∈ sent ∨ (ahead (default zeroCursor c') + W * length (omap pa_runtimes passes) ≤ ahead (default zeroCursor acc.1))%nat).
Proof.
  intros Hk Hzero. revert acc. induction passes as [|p passes IH]; intros acc Hs Hin; [cbn; destruct acc; cbn; split; [done|right; lia]|].
  apply Forall_cons in Hs as [Hs1 Hs]. apply Forall_cons in Hin as [Hin1 Hin]. cbn [foldl].
  specialize (IH (onePass acc p) Hs Hin). destruct (foldl _ _ passes) as [cf sent]. destruct IH as [Hkeep IH].
  destruct (pa_runtimes p) as [tbl|] eqn:Hp.
  - pose proof (pass_step p tbl acc.1 Hk Hzero Hs1 Hin1 Hp) as Hstep.
    destruct (processStuckEvictedDurableOrchestrators p acc.1) as [c1 s1]. cbn [fst snd] in *. split; [intros; apply Hkeep, elem_of_app; by left|].
    destruct Hstep as [Hl|Hl]; [left; apply Hkeep, elem_of_app; by right|]. destruct IH as [?|IH]; [by left|right].
    cbn [omap list_omap]. rewrite Hp. cbn [length]. lia.
  - cbn [omap list_omap]. unfold processStuckEvictedDurableOrchestrators in *. rewrite Hp in *. cbn [fst snd] in *.
    split; [intros; apply Hkeep, elem_of_app; by left|done].
Qed.
End progress.

(** C15: no stuck orchestrator is missed: an orchestrator with entries in its log that stays evicted with all of them
    satisfied, and whose grace of five minutes since the eviction is over, is sent a restore message once enough passes
    have read the runtimes, if that message can be sent at each of them, wherever the cursor was and whatever happens to
    other runtimes in between.  Enough is one pass for each full window of runtimes that were evicted at any of these
    passes, and two more. *)
Theorem stuck_orchestrator_restored (passes : list pass) (cursor : option EvictedTaskRuntimeCursor)
    (U : gset EvictedTaskRuntimeCursor) (i t r at_ : Z) (ext : uuid) :
  zeroTime < at_ → Forall (stuckAt i t r at_ ext) passes → Forall (within U) passes →
  (size U `div` evictedTaskRuntimeWindowSize + 2 ≤ length (omap pa_runtimes passes))%nat →
  ext ∈ (sweep passes cursor).2.
Proof.
  intros Hzero Hs Hin Hlen. pose proof (sweep_progress U (at_, i, t, r) i t r at_ ext passes (cursor, []) eq_refl Hzero Hs Hin) as Hp.
  unfold sweep. destruct (foldl _ _ passes) as [c' sent]. destruct Hp as [_ [?|Hp]]; [done|exfalso]. cbn [fst snd] in Hp.
  pose proof (ahead_le U (at_, i, t, r) (default zeroCursor cursor)) as Hle. pose proof window_pos as HW. revert Hlen Hp Hle HW.
  generalize evictedTaskRuntimeWindowSize. intros W Hlen Hp Hle HW.
  pose proof (Nat.mul_succ_div_gt (size U) W ltac:(lia)). nia.
Qed.

(** An orchestrator whose only entry is satisfied, which the cursor of the first of two passes has gone past. *)
Definition satisfiedLog : taskLog :=
  TaskLog (Some (LogFile 1 1 1 1)) {[(1, 1) := Entry 0 (Some 9) false None RUN 1 1 "" true (Some 1) true "r"]} [] ∅.
Definition stuckRuntimes : runtimeTable := {[(1, 10, 0) := SweptRuntime (Some 20) (Some (SweptTask 7 true satisfiedLog))]}.
Definition twoPasses : list pass :=
  [Pass (10 ^ 9) (Some stuckRuntimes) (λ _, true); Pass (2 * 10 ^ 9) (Some stuckRuntimes) (λ _, true)].

Lemma stuck_orchestrator_restored_witness :
  (sweep (take 1 twoPasses) (Some (30, 0, 0, 0))).2 = [] ∧ 7 ∈ (sweep twoPasses (Some (30, 0, 0, 0))).2.
Proof.
  split; [vm_compute; reflexivity|].
  apply (stuck_orchestrator_restored twoPasses (Some (30, 0, 0, 0)) {[(20, 1, 10, 0)]} 1 10 0 20 7).
  - unfold zeroTime. lia.
  - repeat constructor; intros tbl [= <-]; eexists _, _; (split_and!; [vm_compute; reflexivity..|]); unfold stuckEvictedOrchestratorGrace; cbn; lia.
  - repeat constructor; intros tbl i t r rt a [= <-] Hl Ha; unfold stuckRuntimes in Hl; apply lookup_singleton_Some in Hl as [Heq <-];
      injection Heq as <- <- <-; injection Ha as <-; by apply elem_of_singleton.
  - apply Nat.leb_le. vm_compute. reflexivity.
Defined.

End SweepTheorems.
