(* ===== verification/RequestHandlers.v ===== *)
(** The requests of a durable task (src/internal/services/dispatcher/server_v1.go): each handler from the message of the
    worker over the event log to the acks and completions it is sent; and the task controller's handler that triggers
    the children of acknowledged requests (src/internal/services/controllers/task/controller.go). *)

From S2P Require Import Prelude Workers LogTables EventLog EventLogOps OrderedRelease.
Import Workers LogTables EventLog EventLogOps OrderedRelease.

Module RequestHandlers.

Open Scope Z_scope.

(** ** Requests *)

(** An id that a message carries as a string is what parsing it gives: None is that it is not valid. *)
Record TriggerWorkflowRequest := TriggerRequest {
  tq_Name : string;
  tq_Input : string;
  tq_DesiredWorkerId : option (option uuid);
  tq_Priority : option Z;
  tq_ChildIndex : option Z;
  tq_ChildKey : option string;
}.

Record SleepMatchCondition := SleepCondition {
  sc_ReadableDataKey : string;
  sc_OrGroupId : option uuid;
  sc_SleepFor : string;
}.

Record UserEventMatchCondition := UserEventCondition {
  uc_ReadableDataKey : string;
  uc_OrGroupId : option uuid;
  uc_Expression : string;
  uc_UserEventKey : string;
  uc_EventScope : option string;
  uc_ConsiderEventsSince : option Z;
}.

Inductive DurableTaskRequest :=
  | RegisterWorkerRequest (worker : option uuid)
  | MemoRequest (task : option uuid) (invocationCount : Z) (key payload : string)
  | TriggerRunsRequest (task : option uuid) (invocationCount : Z) (opts : list TriggerWorkflowRequest)
  | WaitForRequest (task : option uuid) (invocationCount : Z) (sleeps : list SleepMatchCondition)
      (userEvents : list UserEventMatchCondition)
  | EvictInvocationRequest (task : option uuid) (invocationCount : Z)
  | WorkerStatusRequest (status : DurableTaskWorkerStatusRequest)
  | CompleteMemoRequest (ref : option (option uuid * entryKey)) (payload : string).

(** The row of a task, as GetTaskByExternalId returns it. *)
Record FlattenExternalIdsRow := TaskRow {
  fr_ID : Z;
  fr_ExternalID : uuid;
  fr_WorkflowRunID : uuid;
  fr_DagID : option Z;
  fr_IsDagOrchestrator : bool;
}.

(** ** The state *)

(** A message to the task controller: the task and the entries whose child is to be triggered. *)
Record DurableRunTriggerMessage := RunTriggerMessage {
  rm_DurableTaskId : Z;
  rm_Entries : list PendingDurableRunTrigger;
}.

(** The logs of the tasks, the routes and sessions of the dispatcher, the messages that are not yet handled, and what
    became of the runs that were handed to triggerFromWorkflowNames by a transaction that committed. *)
Record world := World {
  w_logs : gmap Z taskLog;
  w_routes : durableInvocations;
  w_sessions : gmap nat durableTaskInvocation;
  w_queue : list DurableRunTriggerMessage;
  w_runs : list (uuid * runReply);
}.
Definition logOf (id : Z) (w : world) : taskLog := default emptyLog (w_logs w !! id).
Definition set_logOf (id : Z) (t : taskLog) (w : world) : world :=
  World (<[id := t]> (w_logs w)) (w_routes w) (w_sessions w) (w_queue w) (w_runs w).
Definition set_sessions (ss : gmap nat durableTaskInvocation) (w : world) : world :=
  World (w_logs w) (w_routes w) ss (w_queue w) (w_runs w).
Definition add_runs (rs : list (uuid * runReply)) (w : world) : world :=
  World (w_logs w) (w_routes w) (w_sessions w) (w_queue w) (w_runs w ++ rs).

(** How completing a memo goes: its entry cannot be marked, or its payload cannot be stored, or neither fails. *)
Inductive memoReply := MarkFails | StoreFails | Stores.

(** What a request meets: whether a task is found, the transactions and ids of its events, waits and memos, the message
    queue, the sends, evictions, and the time. *)
Record handlerEnv := HandlerEnv {
  he_now : Z;
  he_finds : bool;
  he_tx : txEnv;
  he_ids : newIds;
  he_wait : waitEnv;
  he_memo : memoReply;
  he_publishes : bool;
  he_fails : DurableTaskResponse → bool;
  he_updatesWorker : bool;
  he_evicts : evictReply;
  he_status : statusEnv;
  he_onOperator : bool;
}.

(** ** Ingesting *)

(** IngestDurableTaskEvent: None is that the buffer answers neither a result nor an error.  The buffer answers what a
    transaction of the request's own would. *)
Definition IngestDurableTaskEvent `{Params} (X : txEnv) (V : waitEnv) (task : Z) (q : request) (t : taskLog) :
    option (IngestDurableTaskEventResult + requestError) * taskLog :=
  match in_Event (q_opts q) with
  | TriggerRuns [] => (Some (inr NoTriggerOpts), t)
  | event =>
      let '(reply, db) := appendDurableEventLogBatch X [(task, q)] {[task := t]} in
      let t := default t (db !! task) in
      match reply with
      | inr e => (Some (inr (Ingest e)), t)
      | inl answers =>
          match List.find (λ a, a.1 =? task) answers with
          | None => (None, t)
          | Some (_, inr e) => (Some (inr (Ingest e)), t)
          | Some (_, inl a) => let '(result, _, t) := finishRequest V event a t in (Some result, t)
          end
      end
  end.

(** CompleteMemoEntry: the entry is marked and then its payload stored, not in one transaction. *)
Definition CompleteMemoEntry (reply : memoReply) (k : entryKey) (payload : string) (t : taskLog) : bool * taskLog :=
  match t_entries t !! k with
  | None => (false, t)
  | Some e =>
      if e_IsSatisfied e then (true, t)
      else
        match reply with
        | MarkFails => (false, t)
        | _ =>
            let t := markSatisfied k t in
            if bool_decide (payload = ""%string) then (true, t)
            else
              match reply with
              | Stores => (true, set_entries (alter (set_result payload) k (t_entries t)) t)
              | _ => (false, t)
              end
        end
  end.

(** ** Triggering children *)

Definition isOperatorDagStep (task : FlattenExternalIdsRow) : bool :=
  negb (fr_IsDagOrchestrator task) && negb (bool_decide (is_Some (fr_DagID task))) &&
  negb (bool_decide (fr_WorkflowRunID task = fr_ExternalID task)).

(** NewTriggerTaskData for a child of a task, as the trigger options it becomes: None is an invalid argument. *)
Definition NewTriggerTaskData (task : FlattenExternalIdsRow) (req : TriggerWorkflowRequest) : option WorkflowNameTriggerOpts :=
  match tq_DesiredWorkerId req with
  | Some None => None
  | _ =>
      if match tq_Priority req with Some p => (p <? 1) || (3 <? p) | None => false end then None
      else
        let parent := if negb (bool_decide (is_Some (fr_DagID task))) && negb (isOperatorDagStep task)
                      then fr_WorkflowRunID task else fr_ExternalID task in
        Some (TriggerOpts (tq_Name req) (tq_Input req) (Some parent) (tq_ChildIndex req) (tq_ChildKey req) None false false
                uuidNil false false false false)
  end.

(** ** Conditions *)

Definition sleepCondition (c : SleepMatchCondition) : option CreateExternalSignalConditionOpt :=
  (λ g, Condition SLEEP (sc_ReadableDataKey c) g None None None (Some (sc_SleepFor c)) "") <$> sc_OrGroupId c.
Definition userEventCondition (c : UserEventMatchCondition) : option CreateExternalSignalConditionOpt :=
  (λ g, Condition USER_EVENT (uc_ReadableDataKey c) g (Some (uc_UserEventKey c)) (uc_EventScope c) (uc_ConsiderEventsSince c)
          None (uc_Expression c)) <$> uc_OrGroupId c.

Definition createConditionOpts (sleeps : list SleepMatchCondition) (userEvents : list UserEventMatchCondition) :
    option (list CreateExternalSignalConditionOpt) :=
  ss ← mapM sleepCondition sleeps; us ← mapM userEventCondition userEvents; Some (ss ++ us).

(** ** Handlers *)

Section handlers.
Context `{Params} (tasks : gmap uuid FlattenExternalIdsRow) (E : handlerEnv) (n : nat).

(** Sending to the session of the request; a session that is gone takes nothing. *)
Definition send (resp : DurableTaskResponse) (w : world) : bool * world :=
  match w_sessions w !! n with
  | None => (false, w)
  | Some s => let '(ok, s) := sendAll (he_fails E) [resp] s in (ok, set_sessions (<[n := s]> (w_sessions w)) w)
  end.

Definition findTask (id : option uuid) : option FlattenExternalIdsRow :=
  ext ← id; if he_finds E then tasks !! ext else None.

(** What a request that was refused is answered: other errors are only logged. *)
Definition refuse (task : FlattenExternalIdsRow) (invocationCount : Z) (err : requestError) (w : world) : bool * world :=
  match err with
  | Ingest (NonDeterminismError nodeId branchId _ _) =>
      send (NonDeterminismResponse (fr_ExternalID task) invocationCount (branchId, nodeId)) w
  | Ingest (StaleInvocationError _ actual) => send (ServerEvict (fr_ExternalID task) actual) w
  | _ => (false, w)
  end.

Definition ingestEventOf (task : FlattenExternalIdsRow) (invocationCount : Z) (event : ingestEvent) (w : world) :
    option (IngestDurableTaskEventResult + requestError) * world :=
  let '(result, t) :=
    IngestDurableTaskEvent (he_tx E) (he_wait E) (fr_ID task)
      (Request (IngestOpts (fr_ExternalID task) invocationCount event) (he_ids E)) (logOf (fr_ID task) w) in
  (result, set_logOf (fr_ID task) t w).

(** The ack, and then the completions of the entries that are satisfied already. *)
Definition acknowledge (task : FlattenExternalIdsRow) (invocationCount : Z) (ack : DurableTaskResponse)
    (result : IngestDurableTaskEventResult) (w : world) : bool * world :=
  let '(ok, w) := send ack w in
  if ok then
    let '(ok, ss) := deliverSatisfiedEntries (he_now E) (he_fails E) (w_routes w) (fr_ExternalID task) invocationCount result
                       (w_sessions w) in
    (ok, set_sessions ss w)
  else (false, w).

Definition handleMemo (task : option uuid) (invocationCount : Z) (key payload : string) (w : world) : bool * world :=
  match findTask task with
  | None => (false, w)
  | Some task =>
      match ingestEventOf task invocationCount (Memo payload key) w with
      | (Some (inl (MemoResult r as result)), w) =>
          acknowledge task invocationCount
            (MemoAck (fr_ExternalID task) invocationCount (sr_BranchId r, sr_NodeId r) (sr_AlreadyExisted r) (sr_ResultPayload r))
            result w
      | (Some (inr err), w) => refuse task invocationCount err w
      | (_, w) => (false, w)
      end
  end.

(** The children to trigger are published before the ack. *)
Definition publish (task : FlattenExternalIdsRow) (pending : list PendingDurableRunTrigger) (w : world) : bool * world :=
  match pending with
  | [] => (true, w)
  | _ =>
      if he_publishes E
      then (true, World (w_logs w) (w_routes w) (w_sessions w) (w_queue w ++ [RunTriggerMessage (fr_ID task) pending])
                    (w_runs w))
      else (false, w)
  end.

Definition ackEntry (e : IngestTriggerRunsEntry) : entryKey * uuid := ((re_BranchId e, re_NodeId e), re_WorkflowRunExternalId e).

Definition handleTriggerRuns (task : option uuid) (invocationCount : Z) (reqs : list TriggerWorkflowRequest) (w : world) :
    bool * world :=
  match findTask task with
  | None => (false, w)
  | Some task =>
      match mapM (NewTriggerTaskData task) reqs with
      | None => (false, w)
      | Some opts =>
          match ingestEventOf task invocationCount (TriggerRuns opts) w with
          | (Some (inl (TriggerRunsResult entries pending as result)), w) =>
              let '(ok, w) := publish task pending w in
              if ok
              then acknowledge task invocationCount
                     (TriggerRunsAck (fr_ExternalID task) invocationCount (ackEntry <$> entries)) result w
              else (false, w)
          | (Some (inr err), w) => refuse task invocationCount err w
          | (_, w) => (false, w)
          end
      end
  end.

Definition handleWaitFor (task : option uuid) (invocationCount : Z) (sleeps : list SleepMatchCondition)
    (userEvents : list UserEventMatchCondition) (w : world) : bool * world :=
  match findTask task with
  | None => (false, w)
  | Some task =>
      match createConditionOpts sleeps userEvents with
      | None => (false, w)
      | Some conditions =>
          match ingestEventOf task invocationCount (WaitFor conditions) w with
          | (Some (inl (WaitForResult r as result)), w) =>
              acknowledge task invocationCount
                (WaitForAck (fr_ExternalID task) invocationCount (sr_BranchId r, sr_NodeId r)) result w
          | (Some (inr err), w) => refuse task invocationCount err w
          | (_, w) => (false, w)
          end
      end
  end.

Definition handleCompleteMemo (ref : option (option uuid * entryKey)) (payload : string) (w : world) : bool * world :=
  match ref with
  | None => (false, w)
  | Some (id, k) =>
      match findTask id with
      | None => (false, w)
      | Some task =>
          let '(ok, t) := CompleteMemoEntry (he_memo E) k payload (logOf (fr_ID task) w) in (ok, set_logOf (fr_ID task) t w)
      end
  end.

(** The eviction itself is a reply here: None is an error. *)
Definition handleEvictInvocation (task : option uuid) (invocationCount : Z) (w : world) : bool * world :=
  match ext ← task; he_evicts E (ext, invocationCount) with
  | None => send (EvictionErrorResponse task invocationCount) w
  | Some _ => send (EvictionAck task invocationCount) w
  end.

Definition handleRegisterWorker (worker : option uuid) (w : world) : bool * world :=
  match worker with
  | None => (false, w)
  | Some id => if he_updatesWorker E then send (RegisterWorkerResponse id) w else (false, w)
  end.

Definition handleDurableTaskRequest (req : DurableTaskRequest) (w : world) : bool * world :=
  match req with
  | RegisterWorkerRequest worker => handleRegisterWorker worker w
  | MemoRequest task inv key payload => handleMemo task inv key payload w
  | TriggerRunsRequest task inv opts => handleTriggerRuns task inv opts w
  | WaitForRequest task inv sleeps userEvents => handleWaitFor task inv sleeps userEvents w
  | EvictInvocationRequest task inv => handleEvictInvocation task inv w
  | CompleteMemoRequest ref payload => handleCompleteMemo ref payload w
  | WorkerStatusRequest status =>
      match w_sessions w !! n with
      | None => (false, w)
      | Some s =>
          let '(ok, routes, s) := handleWorkerStatus (he_now E) (he_status E) (he_onOperator E) n status (w_routes w) s in
          (ok, World (w_logs w) routes (<[n := s]> (w_sessions w)) (w_queue w) (w_runs w))
      end
  end.
End handlers.

(** ** The task controller *)

(** What triggering the runs answers, with what becomes of each; a tenant that has no resources left is not tried
    again. *)
Inductive triggerReply := Triggers (reply : WorkflowNameTriggerOpts → runReply) | ResourceExhausted | TriggerFails.

Definition runReplies (reply : triggerReply) : option (WorkflowNameTriggerOpts → runReply) :=
  match reply with Triggers reply => Some reply | _ => None end.

(** The runs that were handed over, by their id. *)
Definition handedOver (out : list (PendingDurableRunTrigger * runReply)) : list (uuid * runReply) :=
  (λ pr, (to_ExternalId (pt_TriggerOpts pr.1), pr.2)) <$> out.

(** The entries of the messages of one task. *)
Definition pendingOf (task : Z) (msgs : list DurableRunTriggerMessage) : list PendingDurableRunTrigger :=
  m ← List.filter (λ m, rm_DurableTaskId m =? task) msgs; rm_Entries m.

(** TriggerPendingRunEntries for all tasks of the messages, in one transaction: the logs and the runs. *)
Definition triggerTask (reply : triggerReply) (registers commits : bool) (msgs : list DurableRunTriggerMessage)
    (acc : option (gmap Z taskLog * list (uuid * runReply))) (task : Z) : option (gmap Z taskLog * list (uuid * runReply)) :=
  '(logs, runs) ← acc;
  '(out, t) ← triggerPendingRunEntries (runReplies reply) registers commits (pendingOf task msgs)
                (default emptyLog (logs !! task));
  Some (<[task := t]> logs, runs ++ handedOver out).

(** handleProcessDurableRunTrigger: whether the messages are done with, the logs, and the runs handed over. *)
Definition handleProcessDurableRunTrigger (reply : triggerReply) (registers commits : bool)
    (msgs : list DurableRunTriggerMessage) (logs : gmap Z taskLog) : bool * gmap Z taskLog * list (uuid * runReply) :=
  match foldl (triggerTask reply registers commits msgs) (Some (logs, [])) (remove_dups (rm_DurableTaskId <$> msgs)) with
  | Some (logs', runs) => (true, logs', runs)
  | None => (match reply with ResourceExhausted => true | _ => false end, logs, [])
  end.

(** ** Steps of a DAG *)

Record DAGStepTriggerRequest := DAGStepRequest {
  dq_ParentTaskExternalId : uuid;
  dq_InvocationCount : Z;
  dq_WorkflowName : string;
  dq_ActionId : string;
  dq_ChildIndex : Z;
  dq_Input : string;
  dq_IsSkipped : bool;
  dq_IsCancelled : bool;
  dq_ParentReExecuted : bool;
}.

Record DAGStepTriggerResult := DAGStepResult {
  dr_NodeId : Z;
  dr_BranchId : Z;
  dr_WorkflowRunExternalId : uuid;
  dr_IsSatisfied : bool;
  dr_ResultPayload : string;
  dr_IsFailure : bool;
  dr_ErrorMessage : option string;
  dr_ReExecuted : bool;
}.

(** How the trigger of the child goes, and whether a message to replay it, for which its tasks are looked up, can be
    sent. *)
Record dagEnv := DagEnv {
  de_triggers : triggerReply;
  de_registers : bool;
  de_commits : bool;
  de_replays : bool;
}.

Definition dagTriggerOpts (task : FlattenExternalIdsRow) (req : DAGStepTriggerRequest) : WorkflowNameTriggerOpts :=
  TriggerOpts (dq_WorkflowName req) (dq_Input req) (Some (fr_ExternalID task)) (Some (dq_ChildIndex req)) None
    (Some (dq_ActionId req)) (dq_IsSkipped req) (dq_IsCancelled req) uuidNil false true (dq_ParentReExecuted req) true.

(** The children of the step that were not triggered yet, in a transaction of their own: None is an error.  The result
    is what became of them. *)
Definition triggerPending (G : dagEnv) (task : FlattenExternalIdsRow) (pending : list PendingDurableRunTrigger) (w : world) :
    option (list (uuid * runReply) * world) :=
  match pending with
  | [] => Some ([], w)
  | _ =>
      '(out, t) ← triggerPendingRunEntries (runReplies (de_triggers G)) (de_registers G) (de_commits G) pending
                    (logOf (fr_ID task) w);
      Some (handedOver out, add_runs (handedOver out) (set_logOf (fr_ID task) t w))
  end.

Definition stepCompletion (task : FlattenExternalIdsRow) (invocationCount : Z) (e : IngestTriggerRunsEntry) : SatisfiedEventWithPayload :=
  SatisfiedEvent (fr_ExternalID task) invocationCount (re_BranchId e, re_NodeId e) (re_ResultPayload e) (re_SatisfiedOrder e)
    (re_ChildTaskIsFailure e) (re_ChildTaskErrorMessage e).

(** What a trigger of a step sets off besides: the completion of an entry that is satisfied already, which is delivered on
    the side, and the message to replay a child. *)
Inductive dagEffect := DeliverAside (x : SatisfiedEventWithPayload) | ReplayChild (child : uuid).

(** TriggerDAGStep: the result or an error, what it sets off, and the state. *)
Definition TriggerDAGStep `{Params} (tasks : gmap uuid FlattenExternalIdsRow) (E : handlerEnv) (G : dagEnv)
    (req : DAGStepTriggerRequest) (w : world) : option DAGStepTriggerResult * list dagEffect * world :=
  match findTask tasks E (Some (dq_ParentTaskExternalId req)) with
  | None => (None, [], w)
  | Some task =>
      match ingestEventOf E task (dq_InvocationCount req) (TriggerRuns [dagTriggerOpts task req]) w with
      | (Some (inl (TriggerRunsResult entries pending)), w) =>
          match triggerPending G task pending w with
          | None => (None, [], w)
          | Some (runs, w) =>
              if existsb isKeyFailure runs.*2 then (None, [], w)
              else
                match entries with
                | [] => (None, [], w)
                | e :: _ =>
                    let aside := if re_IsSatisfied e then [DeliverAside (stepCompletion task (dq_InvocationCount req) e)] else [] in
                    if re_ChildNeedsReplay e && negb (de_replays G) then (None, aside, w)
                    else
                      (Some (DAGStepResult (re_NodeId e) (re_BranchId e) (re_WorkflowRunExternalId e) (re_IsSatisfied e)
                         (re_ResultPayload e) (re_ChildTaskIsFailure e) (re_ChildTaskErrorMessage e) (re_ReExecuted e)),
                       aside ++ (if re_ChildNeedsReplay e then [ReplayChild (re_WorkflowRunExternalId e)] else []), w)
                end
          end
      | (_, w) => (None, [], w)
      end
  end.

(** ** All together *)

(** A lookback that finds an event satisfies entries of the log. *)
Definition lookbackSatisfies (V : waitEnv) : Prop :=
  ∀ t payload order t', v_lookback V t = Found payload order t' → ∃ ms, t' = (satisfyEntries ms t).2.

(** What else happens to a log: satisfied matches, forks and new invocations. *)
Inductive logStep : taskLog → taskLog → Prop :=
  | ls_satisfy ms t : logStep t (satisfyEntries ms t).2
  | ls_fork nodeId branchId replay b t t' : handleBranch nodeId branchId replay t = Some (b, t') → logStep t t'
  | ls_invoke t : logStep t (incrementInvocationCount t).

(** The dispatcher, the task controller and the database; [exhausts] is whether a tenant may run out of resources.  The
    messages handled together are any of those waiting, and those that are done with may be delivered again. *)
Inductive worldStep `{Params} (tasks : gmap uuid FlattenExternalIdsRow) (exhausts : bool) : world → world → Prop :=
  | ws_request E n req w :
      lookbackSatisfies (he_wait E) → worldStep tasks exhausts w (handleDurableTaskRequest tasks E n req w).2
  | ws_dagStep E G req w :
      lookbackSatisfies (he_wait E) → worldStep tasks exhausts w (TriggerDAGStep tasks E G req w).2
  | ws_open n w : w_sessions w !! n = None → worldStep tasks exhausts w (set_sessions (<[n := Session false ∅ []]> (w_sessions w)) w)
  | ws_close n s w :
      w_sessions w !! n = Some s →
      worldStep tasks exhausts w (set_sessions (<[n := Session true (s_releases s) (s_sent s)]> (w_sessions w)) w)
  | ws_routes routes w : worldStep tasks exhausts w (World (w_logs w) routes (w_sessions w) (w_queue w) (w_runs w))
  | ws_deliver now fails e w :
      worldStep tasks exhausts w
        (set_sessions (DeliverDurableEventLogEntryCompletion now fails (w_routes w) e (w_sessions w)).2 w)
  | ws_log id t w : logStep (logOf id w) t → worldStep tasks exhausts w (set_logOf id t w)
  | ws_trigger reply registers commits msgs rest redelivered handled logs runs w :
      w_queue w ≡ₚ msgs ++ rest → (reply = ResourceExhausted → exhausts = true) →
      handleProcessDurableRunTrigger reply registers commits msgs (w_logs w) = (handled, logs, runs) →
      worldStep tasks exhausts w
        (World logs (w_routes w) (w_sessions w) (if handled && negb redelivered then rest else w_queue w) (w_runs w ++ runs)).

Definition emptyWorld : world := World ∅ ∅ ∅ [] [].
Definition worldReachable `{Params} (tasks : gmap uuid FlattenExternalIdsRow) (exhausts : bool) : world → Prop :=
  rtc (worldStep tasks exhausts) emptyWorld.

End RequestHandlers.
