(* ===== verification/HandlerTheorems.v ===== *)
(** Theorems on the requests of a durable task: what a worker was told about a child or a wait comes true, whatever fails
    and however often messages are delivered; and ways in which it does not. *)

From S2P Require Import Prelude Workers LogTables EventLog EventLogOps EventLogTheorems ReplayPlan ReplayAnswer ReplayTheorems.
From S2P Require Import LogMonotone TriggerRecord OrderedRelease ReleaseTheorems RequestHandlers.
Import Workers LogTables EventLog EventLogOps EventLogTheorems ReplayPlan ReplayAnswer ReplayTheorems.
Import LogMonotone TriggerRecord OrderedRelease ReleaseTheorems RequestHandlers.

Module HandlerTheorems.

Open Scope Z_scope.

(** ** What a delivery sends *)

Definition isAck (r : DurableTaskResponse) : bool :=
  match r with MemoAck _ _ _ _ _ | TriggerRunsAck _ _ _ | WaitForAck _ _ _ => true | _ => false end.

(** A session that sent no further acks. *)
Definition sentMore (s s' : durableTaskInvocation) : Prop :=
  ∃ l, s_sent s' = s_sent s ++ l ∧ Forall (λ r, isAck r = false) l.
#[local] Instance sentMore_preorder : PreOrder sentMore.
Proof.
  split.
  - intros s. exists []. by rewrite app_nil_r.
  - intros s1 s2 s3 (l & H1 & Hl) (l' & H2 & Hl'). exists (l ++ l'). rewrite H2, H1, app_assoc. split; [done|by apply Forall_app].
Qed.

Lemma sendAll_more fails l s : Forall (λ r, isAck r = false) l → sentMore s (sendAll fails l s).2.
Proof.
  revert s. induction l as [|r l IH]; intros s Hl; cbn; [done|]. destruct (_ || _); [done|]. apply Forall_cons in Hl as [Hr Hl].
  etrans; [|by apply IH]. exists [r]. cbn. split; [done|by constructor].
Qed.

Lemma sameSent_more s s' : s_sent s' = s_sent s → sentMore s s'.
Proof. intros Heq. exists []. by rewrite Heq, app_nil_r. Qed.

Lemma send_after fails l s s1 : s_sent s1 = s_sent s → Forall (λ r, isAck r = false) l → sentMore s (sendAll fails l s1).2.
Proof. intros Heq Hl. etrans; [by apply sameSent_more|by apply sendAll_more]. Qed.

(** What is held are completions. *)
Lemma held_noAck rel o r : relOk rel → or_buffered rel !! o = Some r → isAck r = false.
Proof. intros Hrel Ho. apply Hrel in Ho as [_ Ho]. by destruct r. Qed.

Lemma takeLoop_elem fuel max buffered r :
  r ∈ (takeLoop fuel max buffered).1.1 → ∃ o : Z, buffered !! o = Some r.
Proof.
  revert max buffered. induction fuel as [|fuel IH]; intros max buffered; cbn; [by intros ?%elem_of_nil|].
  destruct (buffered !! (max + 1)) as [r0|] eqn:Hr; [|by intros ?%elem_of_nil].
  specialize (IH (max + 1) (delete (max + 1) buffered)). destruct (takeLoop fuel _ _) as [[l max'] b']. cbn in *.
  intros [->|Hin]%elem_of_cons; [by eauto|]. destruct (IH Hin) as (o & [_ Ho]%lookup_delete_Some). by eauto.
Qed.

Lemma takeReleasable_noAck rel m max at_ last :
  relOk rel → m ⊆ or_buffered rel → Forall (λ r, isAck r = false) (takeReleasable (Release max m at_ last)).1.
Proof.
  intros Hrel Hsub. unfold takeReleasable. cbn. pose proof (takeLoop_elem (size m) max m) as Hel.
  destruct (takeLoop _ _ _) as [[l max'] b']. cbn in *. apply Forall_forall. intros r (o & Ho)%Hel.
  eapply held_noAck, lookup_weaken; [done..|]. exact Hsub.
Qed.

Lemma deliver_more now fails key order resp s :
  sessionOk s → isAck resp = false → sentMore s (deliverOrdered now fails key order resp s).2.
Proof.
  rewrite sessionOk_alt. intros Hok Hresp. unfold deliverOrdered. destruct order as [o|]; [|by apply sendAll_more; repeat constructor].
  pose proof (getRelease_ok now key _ Hok) as Hg. destruct (getRelease now key (s_releases s)) as [[rel|] rs].
  2: { by apply send_after; repeat constructor. }
  destruct Hg as (_ & Hrel & _). unfold accept. cbn [or_maxSent or_buffered or_oldestBufferedAt or_lastActivityAt].
  destruct (o <=? or_maxSent rel).
  { by apply send_after; repeat constructor. }
  destruct (o =? or_maxSent rel + 1).
  - pose proof (takeReleasable_noAck rel (or_buffered rel) (or_maxSent rel + 1) (or_oldestBufferedAt rel) now Hrel ltac:(done)) as Hl.
    destruct (takeReleasable _) as [l rel']. apply send_after; [done|by constructor].
  - destruct (or_buffered rel !! o); by apply sameSent_more.
Qed.

Lemma resume_more now fails key highest s : sessionOk s → sentMore s (resumeOrderedRelease now fails key highest s).2.
Proof.
  rewrite sessionOk_alt. intros Hok. unfold resumeOrderedRelease. pose proof (getRelease_ok now key _ Hok) as Hg.
  destruct (getRelease now key (s_releases s)) as [[rel|] rs]; [|by apply sameSent_more]. destruct Hg as (_ & Hrel & _).
  destruct (_ <=? _); [by apply sameSent_more|].
  pose proof (takeReleasable_noAck rel (filter (λ ob, highest < ob.1) (or_buffered rel)) highest (or_oldestBufferedAt rel)
    (or_lastActivityAt rel) Hrel (map_filter_subseteq _ _)) as Hl.
  destruct (takeReleasable _) as [l rel']. by apply send_after.
Qed.

Lemma foldl_more {A} (g : durableTaskInvocation → A → durableTaskInvocation) l s :
  (∀ s a, sessionOk s → sessionOk (g s a) ∧ sentMore s (g s a)) → sessionOk s → sessionOk (foldl g s l) ∧ sentMore s (foldl g s l).
Proof.
  intros Hg. revert s. induction l as [|a l IH]; intros s Hs; cbn; [by split|]. destruct (Hg s a Hs) as [Hs1 Hm1].
  destruct (IH _ Hs1) as [Hs2 Hm2]. split; [done|by etrans].
Qed.

Lemma entry_more now fails task inv ref payload order failure message s :
  sessionOk s → sentMore s (deliverEntry now fails task inv ref payload order failure message s).2.
Proof. intros Hs. by apply deliver_more. Qed.

Lemma evict_more fails task inv s : sentMore s (sendAll fails [ServerEvict task inv] s).2.
Proof. apply sendAll_more. by constructor. Qed.

Lemma status_more now V onOperator n req routes s :
  sessionOk s → sentMore s (handleWorkerStatus now V onOperator n req routes s).2.
Proof.
  intros Hs. unfold handleWorkerStatus. set (s1 := foldl _ s (ws_ReceivedSatisfiedOrders req)).
  assert (sessionOk s1 ∧ sentMore s s1) as [Hs1 Hm1] by (apply foldl_more; [intros; split; [by apply resume_ok|by apply resume_more]|done]).
  destruct (ws_WaitingEntries req) as [|e entries]; [exact Hm1|].
  destruct (v_counts V _) as [current|]; [|exact Hm1]. cbv zeta.
  set (stale := staleTasks _ current). set (s2 := foldl _ s1 stale).
  assert (sessionOk s2 ∧ sentMore s1 s2) as [Hs2 Hm2] by (apply foldl_more; [intros; split; [by apply send_ok|apply evict_more]|done]).
  destruct (v_satisfied V _) as [events|]; [|cbn; by etrans]. set (s3 := foldl _ s2 events).
  assert (sessionOk s3 ∧ sentMore s2 s3) as [Hs3 Hm3] by (apply foldl_more; [intros; split; [by apply entry_ok|by apply entry_more]|done]).
  set (s4 := if onOperator then _ else s3).
  assert (sessionOk s4 ∧ sentMore s3 s4) as [Hs4 Hm4].
  { unfold s4. destruct onOperator; [|done]. apply foldl_more; [|done]. intros s' a Hs'. unfold evictIdle.
    repeat case_match; try done. split; [by apply send_ok|apply evict_more]. }
  cbn [snd]. set (s5 := evictTimedOutOrderedReleases _ _ _ s4). assert (sentMore s4 s5) as Hm5.
  { apply foldl_more; [|done]. intros s' a Hs'. unfold evictTimedOut. repeat case_match; [|split; [by apply clear_ok|by apply sameSent_more]|done].
    split; [by apply clear_ok, send_ok|]. etrans; [apply evict_more|by apply sameSent_more]. }
  do 4 (etrans; [eassumption|]). etrans; [exact Hm5|]. by apply sameSent_more.
Qed.

(** ** Sessions *)

Section world.
Context `{Params} `{!Inj (=) (=) sha256hex} (tasks : gmap uuid FlattenExternalIdsRow).

Definition keyOfPending (p : PendingDurableRunTrigger) : entryKey := (pt_BranchId p, pt_NodeId p).

(** A run was handed over: a transaction that committed created it, or did not for a reason it does not pass on. *)
Definition handed (w : world) (run : uuid) : Prop := ∃ reply, (run, reply) ∈ w_runs w.

(** A run is told truthfully: its entry is in the log, with the child under the id that was told, and the child was
    handed over or a message to trigger it is on its way. *)
Definition runTold (w : world) (id : Z) (k : entryKey) (run : uuid) : Prop :=
  ∃ e, t_entries (logOf id w) !! k = Some e ∧ e_ChildTaskExternalID e = Some run ∧
    ((e_Triggered e = true ∧ handed w run) ∨
     ∃ m p, m ∈ w_queue w ∧ rm_DurableTaskId m = id ∧ p ∈ rm_Entries m ∧ keyOfPending p = k ∧ to_ExternalId (pt_TriggerOpts p) = run).

(** What an ack promises. *)
Definition ackOk (w : world) (r : DurableTaskResponse) : Prop :=
  match r with
  | TriggerRunsAck ext _ entries =>
      ∃ id row, tasks !! id = Some row ∧ fr_ExternalID row = ext ∧ ∀ k run, (k, run) ∈ entries → runTold w (fr_ID row) k run
  | WaitForAck ext _ k =>
      ∃ id row e, tasks !! id = Some row ∧ fr_ExternalID row = ext ∧ t_entries (logOf (fr_ID row) w) !! k = Some e ∧ e_Triggered e = true
  | MemoAck ext _ k _ _ =>
      ∃ id row, tasks !! id = Some row ∧ fr_ExternalID row = ext ∧ is_Some (t_entries (logOf (fr_ID row) w) !! k)
  | _ => True
  end.

(** A child to trigger is that of its entry. *)
Definition pendingOk (t : taskLog) (p : PendingDurableRunTrigger) : Prop :=
  ∃ e, t_entries t !! keyOfPending p = Some e ∧ e_ChildTaskExternalID e = Some (to_ExternalId (pt_TriggerOpts p)).

Lemma pendingOk_grows t t' p : evolves grows t t' → pendingOk t p → pendingOk t' p.
Proof. intros [Hev _] (e & He & Hc). destruct (Hev _ _ He) as (e' & He' & Hg). exists e'. by rewrite (gw_child _ _ Hg). Qed.

Record baseOk (w : world) : Prop := {
  bo_keys : ∀ id, keysOk (logOf id w);
  bo_told : ∀ id, logTold (handed w) (logOf id w);
  bo_queue : ∀ m p, m ∈ w_queue w → p ∈ rm_Entries m → pendingOk (logOf (rm_DurableTaskId m) w) p;
}.

(** The acks only hold if no tenant runs out of resources. *)
Section exhausts.
Context (exhausts : bool).

Definition ackHolds (w : world) (r : DurableTaskResponse) : Prop := exhausts = false → ackOk w r.

Record worldOk (w : world) : Prop := {
  wo_base : baseOk w;
  wo_sessions : ∀ n s, w_sessions w !! n = Some s → sessionOk s ∧ ∀ r, r ∈ s_sent s → ackHolds w r;
}.

(** Nothing that an ack promises is taken back. *)
Record worldLe (w w' : world) : Prop := {
  wl_logs : ∀ id, evolves grows (logOf id w) (logOf id w');
  wl_queue : exhausts = false → ∀ m, m ∈ w_queue w → m ∈ w_queue w' ∨
    ∀ p e e', p ∈ rm_Entries m → t_entries (logOf (rm_DurableTaskId m) w) !! keyOfPending p = Some e →
      t_entries (logOf (rm_DurableTaskId m) w') !! keyOfPending p = Some e' → e_Triggered e' = true;
}.

Lemma told_handed w id k e c :
  baseOk w → t_entries (logOf id w) !! k = Some e → e_ChildTaskExternalID e = Some c → e_Triggered e = true → handed w c.
Proof. intros Hb He Hc Ht. pose proof (bo_told _ Hb id k e He) as Htold. unfold entryTold in Htold. rewrite Hc in Htold. naive_solver. Qed.

Lemma runTold_le w w' id k run : exhausts = false → worldLe w w' → baseOk w' → runTold w id k run → runTold w' id k run.
Proof.
  intros Hex [Hl Hq] Hb (e & He & Hrun & Ht). destruct (Hl id) as [Hev _]. destruct (Hev k e He) as (e' & He' & Hg).
  exists e'. assert (e_ChildTaskExternalID e' = Some run) as Hrun' by by rewrite (gw_child _ _ Hg). split_and!; [done..|].
  destruct Ht as [[Ht _]|(m & p & Hm & <- & Hp & <- & Hx)].
  - left. assert (e_Triggered e' = true) by by apply Hg. split; [done|by eapply told_handed].
  - destruct (Hq Hex m Hm) as [?|Hdone]; [right; by exists m, p|]. left.
    assert (e_Triggered e' = true) by by eapply Hdone. split; [done|by eapply told_handed].
Qed.

Lemma ackHolds_le w w' r : worldLe w w' → baseOk w' → ackHolds w r → ackHolds w' r.
Proof.
  intros Hle Hb Hr Hex. specialize (Hr Hex). revert Hr. destruct r as [| | |ext inv k b p|ext inv entries|ext inv k| | |]; cbn; try done.
  - intros (id & row & Hid & Hx & [e He]). destruct (wl_logs _ _ Hle (fr_ID row)) as [Hev _].
    destruct (Hev _ _ He) as (e' & He' & _). exists id, row. split_and!; [done..|by exists e'].
  - intros (id & row & Hid & Hx & Hall). exists id, row. split_and!; [done..|]. intros k run Hin. by eapply runTold_le, Hall.
  - intros (id & row & e & Hid & Hx & He & Ht). destruct (wl_logs _ _ Hle (fr_ID row)) as [Hev _].
    destruct (Hev _ _ He) as (e' & He' & Hg). exists id, row, e'. split_and!; [done..|by apply Hg].
Qed.

(** A step that leaves the sessions alone. *)
Lemma worldOk_le w w' : worldLe w w' → baseOk w' → w_sessions w' = w_sessions w → worldOk w → worldOk w'.
Proof.
  intros Hle Hb Hs [_ Hok]. split; [done|].
  intros n s Hn. rewrite Hs in Hn. destruct (Hok n s Hn) as [? Ha]. split; [done|]. intros r Hr. by eapply ackHolds_le, Ha.
Qed.

(** A step that leaves the logs, the queue and the runs alone. *)
Lemma baseOk_same w w' : w_logs w' = w_logs w → w_queue w' = w_queue w → w_runs w' = w_runs w → baseOk w → baseOk w'.
Proof.
  intros Hl Hq Hr [Hk Ht Hp]. split; unfold handed, logOf in *; rewrite ?Hl, ?Hq, ?Hr; done.
Qed.

Lemma worldLe_sessions w ss : worldLe w (set_sessions ss w).
Proof. split; [done|]. intros _ m Hm. by left. Qed.

(** A session that sent what it may. *)
Lemma worldOk_session w n s :
  worldOk w → sessionOk s → (∀ r, r ∈ s_sent s → ackHolds w r) → worldOk (set_sessions (<[n := s]> (w_sessions w)) w).
Proof.
  intros [Hb Hok] Hs Hr. split; [by apply (baseOk_same w)|]. intros n' s'. cbn. intros [[<- <-]|[_ Hn]]%lookup_insert_Some.
  - split; [done|]. exact Hr.
  - destruct (Hok n' s' Hn) as [? Ha]. split; [done|]. exact Ha.
Qed.

Lemma sent_more_ok w s s' : (∀ r, r ∈ s_sent s → ackHolds w r) → sentMore s s' → ∀ r, r ∈ s_sent s' → ackHolds w r.
Proof.
  intros Hs (l & Heq & Hl) r. rewrite Heq. intros [?|Hin]%elem_of_app; [by apply Hs|].
  rewrite Forall_forall in Hl. apply Hl in Hin. by destruct r.
Qed.

(** ** Ingesting *)

Lemma claim_triggers keys t k e :
  k ∈ keys → t_entries (claimEntries keys t).2 !! k = Some e → e_Triggered e = true.
Proof.
  unfold claimEntries. cbn [snd t_entries set_entries]. set (claimed := List.filter _ _). intros Hk.
  assert (∀ l (es : gmap entryKey V1DurableEventLogEntry), (k ∈ l ∨ ∀ e, es !! k = Some e → e_Triggered e = true) →
    ∀ e, foldl (λ es k, alter set_triggered k es) es l !! k = Some e → e_Triggered e = true) as Hl.
  { induction l as [|k0 l IH]; intros es Hor; cbn.
    { intros e'. destruct Hor as [Hn|Hes]; [by apply elem_of_nil in Hn|apply Hes]. }
    apply IH. destruct Hor as [[<-|?]%elem_of_cons|Hes].
    - right. intros e'. rewrite lookup_alter_eq. destruct (es !! k); [|done]. by intros [= <-].
    - by left.
    - right. intros e'. rewrite lookup_alter. case_decide as Hd; [subst k0|apply Hes]. destruct (es !! k); [|done]. by intros [= <-]. }
  apply Hl. destruct (decide (k ∈ claimed)) as [?|Hni]; [by left|right]. intros e' He'.
  destruct (e_Triggered e') eqn:Ht; [done|]. destruct Hni. unfold claimed. apply list_elem_of_In, filter_In. rewrite <- list_elem_of_In.
  rewrite elem_of_remove_dups, He', Ht. done.
Qed.

Lemma trigger_done triggers registers commits pending t out t' p e :
  triggerPendingRunEntries triggers registers commits pending t = Some (out, t') → p ∈ pending →
  t_entries t' !! keyOfPending p = Some e → e_Triggered e = true.
Proof.
  unfold triggerPendingRunEntries. set (keys := (λ p, (pt_BranchId p, pt_NodeId p)) <$> pending). intros Heq Hp.
  assert (keyOfPending p ∈ keys) as Hk by by apply (list_elem_of_fmap_2 (λ p, (pt_BranchId p, pt_NodeId p))).
  pose proof (claim_triggers keys t (keyOfPending p)) as Hc. unfold claimEntries in *. cbn [snd] in Hc.
  destruct (List.filter _ _) as [|k0 claimed] eqn:Hcl; cbn [snd] in Hc.
  - injection Heq as <- <-. intros He. by apply Hc in He.
  - destruct triggers; [|done]. destruct (negb _); [done|]. injection Heq as <- <-. intros He. by apply Hc in He.
Qed.

(** Whatever a trigger claims, it hands over. *)
Lemma trigger_told (P P' : uuid → Prop) triggers registers commits pending t out t' :
  triggerPendingRunEntries triggers registers commits pending t = Some (out, t') → (∀ p, p ∈ pending → pendingOk t p) →
  (∀ c, P c → P' c) → (∀ c, c ∈ (handedOver out).*1 → P' c) → logTold P t → logTold P' t'.
Proof.
  intros Heq Hpend HP Hout Ht. unfold triggerPendingRunEntries in Heq.
  pose proof (claim_told P P' ((λ p, (pt_BranchId p, pt_NodeId p)) <$> pending) t HP Ht) as Hc.
  pose proof (claim_in ((λ p, (pt_BranchId p, pt_NodeId p)) <$> pending) t) as Hin.
  destruct (claimEntries _ t) as [claimed t1]. cbn [fst snd] in *.
  destruct claimed as [|k0 claimed]; [injection Heq as <- <-; by apply (logTold_mono P)|].
  destruct triggers as [reply|]; [|done]. destruct (negb _); [done|]. injection Heq as <- <-. apply Hc.
  intros k e Hk He. pose proof (Hin k Hk) as (p & -> & Hp)%list_elem_of_fmap. destruct (Hpend p Hp) as (e' & He' & Hce).
  change (t_entries t !! keyOfPending p = Some e) in He. assert (e = e') as -> by congruence. rewrite Hce. apply Hout. apply list_elem_of_fmap. exists (to_ExternalId (pt_TriggerOpts p), reply (pt_TriggerOpts p)).
  split; [done|]. apply list_elem_of_fmap. exists (p, reply (pt_TriggerOpts p)). split; [done|]. apply list_elem_of_fmap. exists p. split; [done|].
  apply list_elem_of_In, filter_In. split; [by apply list_elem_of_In|]. by apply bool_decide_eq_true.
Qed.

Lemma waitFor_told P registers commits k conditions t out t' :
  triggerPendingWaitFor registers commits k conditions t = Some (out, t') →
  (∀ e, t_entries t !! k = Some e → waitKeyed (e_IdempotencyKey e)) → logTold P t → logTold P t'.
Proof.
  intros Heq Hw Ht. unfold triggerPendingWaitFor in Heq. pose proof (claim_told P P [k] t (λ c H, H) Ht) as Hc.
  pose proof (claim_in [k] t) as Hin. destruct (claimEntries _ t) as [claimed t1]. cbn [fst snd] in *.
  destruct claimed as [|k0 claimed]; [by injection Heq as <- <-|]. destruct (_ || _); [done|]. injection Heq as <- <-. apply Hc.
  intros k' e Hk He. pose proof (Hin k' Hk) as ->%list_elem_of_singleton. pose proof (Hw e He) as Hwait.
  pose proof (Ht _ _ He) as Htold. unfold entryTold in Htold. destruct (e_ChildTaskExternalID e); [|done].
  destruct Htold as (_ & Hrun & _). by destruct (keys_differ _ Hrun Hwait).
Qed.

Lemma waitFor_done registers commits k conditions t out t' e :
  triggerPendingWaitFor registers commits k conditions t = Some (out, t') → t_entries t' !! k = Some e → e_Triggered e = true.
Proof.
  unfold triggerPendingWaitFor. intros Heq. pose proof (claim_triggers [k] t k) as Hc. unfold claimEntries in *. cbn [snd] in Hc.
  destruct (List.filter _ _) as [|k0 claimed] eqn:Hcl; cbn [snd] in Hc.
  - injection Heq as <- <-. apply Hc. by left.
  - destruct (_ || _); [done|]. injection Heq as <- <-. apply Hc. by left.
Qed.

(** Every row whose child was not triggered is among the children to trigger. *)
Lemma pendingTriggers_all children seen rs pending r :
  pendingTriggers children seen rs = inl pending → r ∈ rs → e_Triggered (r_Entry r) = false → keyOf (r_Entry r) ∉ seen →
  ∃ p r', p ∈ pending ∧ keyOfPending p = keyOf (r_Entry r) ∧ r' ∈ rs ∧ keyOf (r_Entry r') = keyOf (r_Entry r) ∧
    e_ChildTaskExternalID (r_Entry r') = Some (to_ExternalId (pt_TriggerOpts p)).
Proof.
  revert seen pending. induction rs as [|r0 rs IH]; intros seen pending; [by intros _ ?%elem_of_nil|]. cbn.
  intros Hp Hin Ht Hns. destruct (e_Triggered (r_Entry r0) || bool_decide (keyOf (r_Entry r0) ∈ seen)) eqn:Hskip.
  { apply elem_of_cons in Hin as [->|Hin].
    - rewrite Ht in Hskip. cbn in Hskip. by apply bool_decide_eq_true in Hskip.
    - destruct (IH _ _ Hp Hin Ht Hns) as (p & r' & Hpp & Hkp & Hr' & Hk' & Hc').
      exists p, r'. repeat split; [exact Hpp|exact Hkp|by right|exact Hk'|exact Hc']. }
  destruct (e_ChildTaskExternalID (r_Entry r0)) as [c|] eqn:Hc; [|done]. destruct (children !! c) as [o|]; [|done].
  destruct (pendingTriggers _ _ rs) as [rest|] eqn:Hrest; [|done]. injection Hp as <-.
  destruct (decide (keyOf (r_Entry r) = keyOf (r_Entry r0))) as [Hk|Hk].
  - eexists _, r0. split_and!; [by left| |by left|done|]; [by rewrite Hk|by rewrite Hc].
  - apply elem_of_cons in Hin as [->|Hin]; [done|].
    destruct (IH _ _ Hrest Hin Ht) as (p & r' & Hpp & Hkp & Hr' & Hk' & Hc'); [set_solver|].
    exists p, r'. repeat split; [by right|exact Hkp|by right|exact Hk'|exact Hc'].
Qed.

Lemma pendingTriggers_row children seen rs pending p :
  pendingTriggers children seen rs = inl pending → p ∈ pending →
  ∃ r, r ∈ rs ∧ keyOfPending p = keyOf (r_Entry r) ∧ e_ChildTaskExternalID (r_Entry r) = Some (to_ExternalId (pt_TriggerOpts p)).
Proof.
  revert seen pending. induction rs as [|r0 rs IH]; intros seen pending; cbn; [by intros [= <-] ?%elem_of_nil|].
  assert (∀ r, r ∈ rs → r ∈ r0 :: rs) as Hmore by (intros; by right). destruct (_ || _).
  { intros Hp Hin. destruct (IH _ _ Hp Hin) as (r & Hr & Hrest). eauto. }
  destruct (e_ChildTaskExternalID (r_Entry r0)) as [c|] eqn:Hc; [|done]. destruct (children !! c) as [o|]; [|done].
  destruct (pendingTriggers _ _ rs) as [rest|] eqn:Hrest; [|done]. intros [= <-] [->|Hin]%elem_of_cons; [exists r0; split_and!; [by left|done..]|].
  destruct (IH _ _ Hrest Hin) as (r & Hr & Hk). eauto.
Qed.

(** ** Requests *)

Lemma single_reply X task q t :
  ∃ reply, ingest X task q t = (reply, (ingest X task q t).2) ∧ (appendDurableEventLogBatch X [(task, q)] {[task := t]}).1 = reply ∧
    default t ((appendDurableEventLogBatch X [(task, q)] {[task := t]}).2 !! task) = (ingest X task q t).2 ∧
    match reply with inl [(task', _)] => task' = task | inl _ => False | inr _ => True end.
Proof.
  unfold ingest. destruct (appendDurableEventLogBatch X [(task, q)] {[task := t]}) as [reply db] eqn:Hb. cbn. exists reply. split_and!; [done..|].
  unfold appendDurableEventLogBatch in Hb. destruct (appendBody X [(task, q)] {[task := t]}) as [ds|e] eqn:Hd; [|by injection Hb as <- _].
  apply body_one in Hd. destruct (pipeline _ _ _) as [d|e|e]; [subst ds|subst ds|done]; destruct (x_fails X Commit); by injection Hb as <- _.
Qed.

(** A request is answered by what follows its transaction, or not at all. *)
Lemma ingestEvent_inv X V task q t result t' :
  IngestDurableTaskEvent X V task q t = (result, t') →
  (∃ a r out, ingest X task q t = (inl [(task, inl a)], (ingest X task q t).2) ∧
     finishRequest V (in_Event (q_opts q)) a (ingest X task q t).2 = (r, out, t') ∧ result = Some r) ∨
  (∃ e, result = Some (inr e) ∧ (t' = t ∨ t' = (ingest X task q t).2)).
Proof.
  unfold IngestDurableTaskEvent. destruct (single_reply X task q t) as (reply & Hi & Hr & Ht & Hm).
  destruct (appendDurableEventLogBatch X [(task, q)] {[task := t]}) as [reply' db]. cbn [fst snd] in *. subst reply'. rewrite Ht.
  assert (∀ result t', match reply with
    | inr e => (Some (inr (Ingest e)), (ingest X task q t).2)
    | inl answers =>
        match List.find (λ a, a.1 =? task) answers with
        | None => (None, (ingest X task q t).2)
        | Some (_, inr e) => (Some (inr (Ingest e)), (ingest X task q t).2)
        | Some (_, inl a) => let '(result, _, t) := finishRequest V (in_Event (q_opts q)) a (ingest X task q t).2 in (Some result, t)
        end
    end = (result, t') →
    (∃ a r out, ingest X task q t = (inl [(task, inl a)], (ingest X task q t).2) ∧
       finishRequest V (in_Event (q_opts q)) a (ingest X task q t).2 = (r, out, t') ∧ result = Some r) ∨
    (∃ e, result = Some (inr e) ∧ (t' = t ∨ t' = (ingest X task q t).2))) as Hmain.
  { intros res t2. destruct reply as [answers|e]; [|intros [= <- <-]; right; eauto].
    destruct answers as [|[task' ans] [|]]; [done| |done]. subst task'. cbn. rewrite Z.eqb_refl.
    destruct ans as [a|e]; [|intros [= <- <-]; right; eauto].
    destruct (finishRequest V _ a _) as [[r out] t3] eqn:Hfin. intros [= <- <-]. left. eauto 10. }
  destruct (in_Event (q_opts q)) as [|[|o opts]|]; try apply Hmain. intros [= <- <-]. right. eauto.
Qed.

Lemma finish_grows V event a t r out t' : lookbackSatisfies V → finishRequest V event a t = (r, out, t') → evolves grows t t'.
Proof.
  intros HV. destruct event as [payload key|opts|conditions]; cbn.
  - destruct (ar_logEntries a) as [|r0 [|]]; by intros [= _ _ <-].
  - by intros [= _ _ <-].
  - destruct (ar_logEntries a) as [|r0 [|]]; [by intros [= _ _ <-]| |by intros [= _ _ <-]].
    set (tr := if e_Triggered _ then _ else _). destruct tr as [[reg t1]|] eqn:Htr; [|by intros [= _ _ <-]].
    assert (evolves grows t t1) as Ht1.
    { unfold tr in Htr. destruct (e_Triggered (r_Entry r0)); [by simplify_eq|]. exact (evolves_grows _ _ (wait_steady _ _ _ _ _ _ _ Htr)). }
    unfold handleEventLookback. destruct (sr_IsSatisfied _); [by intros [= _ _ <-]|].
    destruct (v_lookback V t1) as [| |payload order t2] eqn:Hlb; [by intros [= _ _ <-]..|]. intros [= _ _ <-].
    destruct (HV _ _ _ _ Hlb) as [ms ->]. etrans; [exact Ht1|apply satisfy_grows].
Qed.

Lemma finishRequest_told P V event a t r out t' :
  lookbackSatisfies V → logTold P t → answersFrom t (ar_logEntries a) →
  (∀ r, r ∈ ar_logEntries a → rowTold event (r_Entry r)) → finishRequest V event a t = (r, out, t') → logTold P t'.
Proof.
  intros HV Ht Hans Hrows. destruct event as [payload key|opts|conditions]; cbn.
  - destruct (ar_logEntries a) as [|r0 [|]]; by intros [= _ _ <-].
  - by intros [= _ _ <-].
  - destruct (ar_logEntries a) as [|r0 [|]] eqn:Hle; [by intros [= _ _ <-]| |by intros [= _ _ <-]].
    set (tr := if e_Triggered _ then _ else _). destruct tr as [[reg t1]|] eqn:Htr; [|by intros [= _ _ <-]].
    assert (logTold P t1) as Ht1.
    { unfold tr in Htr. destruct (e_Triggered (r_Entry r0)); [by simplify_eq|]. eapply (waitFor_told P); [exact Htr| |done].
      intros e He. destruct (Hans r0 ltac:(by left)) as (e' & He' & [Hg _]). assert (e = e') as -> by congruence.
      rewrite (gw_request _ _ Hg). exact (Hrows r0 ltac:(by left)). }
    unfold handleEventLookback. destruct (sr_IsSatisfied _); [by intros [= _ _ <-]|].
    destruct (v_lookback V t1) as [| |payload order t2] eqn:Hlb; [by intros [= _ _ <-]..|]. intros [= _ _ <-].
    destruct (HV _ _ _ _ Hlb) as [ms ->]. by apply satisfy_told.
Qed.

Lemma ingestEvent_told P X V task q t result t' :
  lookbackSatisfies V → keysOk t → logTold P t → IngestDurableTaskEvent X V task q t = (result, t') → logTold P t'.
Proof.
  intros HV Hk Ht. pose proof (ingest_told P X task q t Hk Ht) as Ht1.
  intros [(a & r & out & Hi & Hf & _)|(e & _ & [->| ->])]%ingestEvent_inv; [|done..].
  eapply finishRequest_told; [done|exact Ht1|by eapply ingest_answers|by eapply ingest_rows|exact Hf].
Qed.

Lemma ingestEvent_grows X V task q t result t' :
  lookbackSatisfies V → IngestDurableTaskEvent X V task q t = (result, t') → evolves grows t t'.
Proof.
  intros HV [(a & r & out & _ & Hf & _)|(e & _ & [->| ->])]%ingestEvent_inv; [|done|apply evolves_grows, ingest_steady].
  etrans; [apply evolves_grows, ingest_steady|by eapply finish_grows].
Qed.

(** The entries of a request for runs. *)
Lemma ingest_runs P X V task q t opts entries pending t' :
  in_Event (q_opts q) = TriggerRuns opts → keysOk t → logTold P t →
  IngestDurableTaskEvent X V task q t = (Some (inl (TriggerRunsResult entries pending)), t') →
  (∀ p, p ∈ pending → pendingOk t' p) ∧
  ∀ x, x ∈ entries → ∃ e, t_entries t' !! (ackEntry x).1 = Some e ∧ default (e_ExternalID e) (e_ChildTaskExternalID e) = (ackEntry x).2 ∧
    (e_Triggered e = true ∨ ∃ p, p ∈ pending ∧ keyOfPending p = (ackEntry x).1 ∧ to_ExternalId (pt_TriggerOpts p) = (ackEntry x).2) ∧
    (Forall ordinary opts → e_ChildTaskExternalID e = Some (ackEntry x).2).
Proof.
  intros Hev Hk Htold Hi. pose proof (ingest_told P X task q t Hk Htold) as Htold1. revert Hi.
  intros [(a & r & out & Hi & Hf & Hres)|(? & Hres & _)]%ingestEvent_inv; [|done]. injection Hres as <-.
  pose proof (ingest_answers X task q t a _ Hk Hi) as Hans. pose proof (ingest_rows P X task q t a _ Hk Htold Hi) as Hrows.
  set (t1 := (ingest X task q t).2) in *. rewrite Hev in Hf, Hrows. cbn in Hf.
  destruct (pendingTriggers _ _ _) as [pend|] eqn:Hp; [|done]. injection Hf as <- <- _ <-. split.
  { intros p Hin. destruct (pendingTriggers_row _ _ _ _ _ Hp Hin) as (r & Hr & Hkey & Hc). destruct (Hans r Hr) as (e & He & [Hg _]).
    exists e. by rewrite Hkey, (gw_child _ _ Hg). }
  intros x (r & -> & Hr)%list_elem_of_fmap. destruct (Hans r Hr) as (e & He & [Hg _]). exists e.
  assert (default (e_ExternalID e) (e_ChildTaskExternalID e) = re_WorkflowRunExternalId (runEntry (ar_latestBranchId a) r)) as Hrun
    by (cbn; by rewrite (gw_external _ _ Hg), (gw_child _ _ Hg)).
  assert (e_Triggered e = true ∨ ∃ p, p ∈ pend ∧ keyOfPending p = keyOf (r_Entry r) ∧ e_ChildTaskExternalID e = Some (to_ExternalId (pt_TriggerOpts p))) as Ht.
  { destruct (e_Triggered (r_Entry r)) eqn:Ht; [left; by apply Hg|].
    destruct (pendingTriggers_all _ _ _ _ r Hp Hr Ht ltac:(set_solver)) as (p & r' & Hpp & Hkp & Hr' & Hk' & Hc').
    right. exists p. split_and!; [done..|]. destruct (Hans r' Hr') as (e' & He' & [Hg' _]). rewrite Hk', He in He'. injection He' as <-.
    by rewrite (gw_child _ _ Hg'). }
  split_and!; [exact He|exact Hrun| |].
  - destruct Ht as [?|(p & Hpp & Hkp & Hc)]; [by left|right]. exists p. split_and!; [done..|]. cbn [ackEntry snd]. by rewrite <- Hrun, Hc.
  - intros Hord. cbn [ackEntry snd]. rewrite <- Hrun. destruct (e_ChildTaskExternalID e) as [c|] eqn:Hc; [done|exfalso].
    destruct Ht as [Ht|(p & _ & _ & ?)]; [|done]. pose proof (Htold1 _ _ He) as Hw. unfold entryTold in Hw. rewrite Hc in Hw.
    destruct (Hrows r Hr Hord) as [Hs|Hs]; [by rewrite <- (gw_child _ _ Hg), Hc in Hs; destruct Hs|].
    rewrite <- (gw_request _ _ Hg) in Hs. exact (keys_differ _ Hs (Hw Ht)).
Qed.

(** The entry of a wait is triggered, since whoever finds it untriggered claims it. *)
Lemma ingest_wait X V task q t conditions r t' :
  lookbackSatisfies V → in_Event (q_opts q) = WaitFor conditions → keysOk t →
  IngestDurableTaskEvent X V task q t = (Some (inl (WaitForResult r)), t') →
  ∃ e, t_entries t' !! (sr_BranchId r, sr_NodeId r) = Some e ∧ e_Triggered e = true.
Proof.
  intros HV Hev Hk [(a & r0 & out & Hi & Hf & Hres)|(? & Hres & _)]%ingestEvent_inv; [|done]. injection Hres as <-.
  pose proof (ingest_answers X task q t a _ Hk Hi) as Hans. set (t1 := (ingest X task q t).2) in *. rewrite Hev in Hf. cbn in Hf.
  destruct (ar_logEntries a) as [|x [|]] eqn:Hle; [done| |done]. destruct (Hans x ltac:(by left)) as (e & He & [Hg _]).
  destruct (if e_Triggered (r_Entry x) then _ else _) as [[reg t2]|] eqn:Htr; [|done].
  assert (∃ e2, t_entries t2 !! keyOf (r_Entry x) = Some e2 ∧ e_Triggered e2 = true) as (e2 & He2 & Ht2).
  { destruct (e_Triggered (r_Entry x)) eqn:Ht; [injection Htr as _ <-; exists e; split; [done|by apply Hg]|].
    pose proof (wait_steady _ _ _ _ _ _ _ Htr) as [Hev2 _]. destruct (Hev2 _ _ He) as (e2 & He2 & _). exists e2. split; [done|].
    exact (waitFor_done _ _ _ _ _ _ _ _ Htr He2). }
  assert (evolves grows t2 t' ∧ (sr_BranchId r, sr_NodeId r) = keyOf (r_Entry x)) as [Hev3 Hkey].
  { revert Hf. unfold handleEventLookback. destruct (sr_IsSatisfied _); [by intros [= <- _ <-]|].
    destruct (v_lookback V t2) as [| |payload order t3] eqn:Hlb; [done|by intros [= <- _ <-]|]. intros [= <- _ <-].
    destruct (HV _ _ _ _ Hlb) as [ms ->]. split; [apply satisfy_grows|done]. }
  rewrite Hkey. destruct Hev3 as [Hev3 _]. destruct (Hev3 _ _ He2) as (e3 & He3 & Hg3). exists e3. split; [done|by apply Hg3].
Qed.

Lemma ingest_memo X V task q t key payload r t' :
  in_Event (q_opts q) = Memo payload key → keysOk t →
  IngestDurableTaskEvent X V task q t = (Some (inl (MemoResult r)), t') → is_Some (t_entries t' !! (sr_BranchId r, sr_NodeId r)).
Proof.
  intros Hev Hk [(a & r0 & out & Hi & Hf & Hres)|(? & Hres & _)]%ingestEvent_inv; [|done]. injection Hres as <-.
  pose proof (ingest_answers X task q t a _ Hk Hi) as Hans. rewrite Hev in Hf. cbn in Hf.
  destruct (ar_logEntries a) as [|x [|]]; [done| |done]. injection Hf as <- _ <-.
  destruct (Hans x ltac:(by left)) as (e & He & _). by exists e.
Qed.

(** ** Handlers *)

Lemma logOf_set id id' t w : logOf id' (set_logOf id t w) = if decide (id' = id) then t else logOf id' w.
Proof. unfold logOf. cbn. case_decide as Hd; [subst; by rewrite lookup_insert_eq|by rewrite lookup_insert_ne]. Qed.

Lemma worldLe_log w id t : evolves grows (logOf id w) t → worldLe w (set_logOf id t w).
Proof.
  intros Ht. split.
  - intros id'. rewrite logOf_set. by case_decide; [subst|].
  - intros _ m Hm. by left.
Qed.

Lemma baseOk_log w id t :
  baseOk w → evolves grows (logOf id w) t → logTold (handed w) t → baseOk (set_logOf id t w).
Proof.
  intros [Hk Ht Hq] Hev Htold. split.
  - intros id'. rewrite logOf_set. case_decide; [by apply Hev|done].
  - intros id'. rewrite logOf_set. by case_decide.
  - intros m p Hm Hp. rewrite logOf_set. case_decide as Hd; [|by apply Hq]. eapply pendingOk_grows; [exact Hev|]. rewrite <- Hd. by apply Hq.
Qed.

Lemma worldOk_log w id t :
  worldOk w → evolves grows (logOf id w) t → logTold (handed w) t → worldOk (set_logOf id t w).
Proof. intros Hw Hev Ht. apply (worldOk_le w); [by apply worldLe_log|by apply baseOk_log; [apply Hw|..]|done|done]. Qed.

Definition sessionsOk (w : world) (ss : gmap nat durableTaskInvocation) : Prop :=
  ∀ n s, ss !! n = Some s → sessionOk s ∧ ∀ r, r ∈ s_sent s → ackHolds w r.

Lemma worldOk_sessions w ss : worldOk w → sessionsOk w ss → worldOk (set_sessions ss w).
Proof. intros [Hb _] Hs. split; [by apply (baseOk_same w)|exact Hs]. Qed.

Lemma completion_ok now fails e w ss :
  sessionsOk w ss → sessionsOk w (DeliverDurableEventLogEntryCompletion now fails (w_routes w) e ss).2.
Proof.
  intros Hs. unfold DeliverDurableEventLogEntryCompletion. destruct (w_routes w !! se_task e) as [n|]; [|done]. cbn.
  destruct (ss !! n) as [s|] eqn:Hn; [|done]. cbn. destruct (Hs n s Hn) as [Hok Hr].
  pose proof (entry_ok now fails (se_task e) (se_invocationCount e) (se_ref e) (se_result e) (se_order e) (se_failure e) (se_message e) s Hok) as Hok'.
  pose proof (entry_more now fails (se_task e) (se_invocationCount e) (se_ref e) (se_result e) (se_order e) (se_failure e) (se_message e) s Hok) as Hm.
  destruct (deliverEntry _ _ _ _ _ _ _ _ _ s) as [ok s']. cbn in *. intros n' s0 [[<- <-]|[_ Hn']]%lookup_insert_Some; [|exact (Hs n' s0 Hn')].
  split; [done|]. by eapply sent_more_ok.
Qed.

Lemma deliverEach_ok now fails events w ss :
  sessionsOk w ss → sessionsOk w (deliverEach now fails (w_routes w) events ss).2.
Proof.
  revert ss. induction events as [|e events IH]; intros ss Hs; cbn; [done|]. pose proof (completion_ok now fails e w ss Hs) as Hc.
  destruct (DeliverDurableEventLogEntryCompletion _ _ _ e ss) as [[] ss']; [by apply IH|done].
Qed.

Lemma send_worldOk E n resp w : worldOk w → ackHolds w resp → worldOk (send E n resp w).2.
Proof.
  intros Hw Hr. unfold send. destruct (w_sessions w !! n) as [s|] eqn:Hn; [|done]. destruct (wo_sessions _ Hw n s Hn) as [Hs Ha].
  pose proof (send_ok (he_fails E) [resp] s Hs) as Hs'. cbn [sendAll] in *. destruct (s_closed s || he_fails E resp); cbn in *.
  - apply worldOk_session; [done..|exact Ha].
  - apply worldOk_session; [done..|]. cbn. intros r [?|Hin]%elem_of_app; [by apply Ha|]. apply list_elem_of_singleton in Hin as ->. done.
Qed.

Lemma refuse_worldOk E n row inv err w : worldOk w → worldOk (refuse E n row inv err w).2.
Proof. intros Hw. unfold refuse. repeat case_match; first [done|by apply send_worldOk]. Qed.

Lemma acknowledge_worldOk E n row inv ack result w :
  worldOk w → ackHolds w ack → worldOk (acknowledge E n row inv ack result w).2.
Proof.
  intros Hw Ha. unfold acknowledge. pose proof (send_worldOk E n ack w Hw Ha) as Hs. destruct (send E n ack w) as [[] w1]; [|done]. cbn [snd] in Hs.
  pose proof (deliverEach_ok (he_now E) (he_fails E) (satisfiedOf (fr_ExternalID row) inv result) w1 (w_sessions w1) (wo_sessions _ Hs)) as Hd.
  unfold deliverSatisfiedEntries. destruct (deliverEach _ _ _ _ _) as [ok ss]. cbn in *. by apply worldOk_sessions.
Qed.

Lemma ingestEventOf_inv E row inv event w result w1 :
  lookbackSatisfies (he_wait E) → worldOk w → ingestEventOf E row inv event w = (result, w1) →
  worldOk w1 ∧ ∃ t', w1 = set_logOf (fr_ID row) t' w ∧
    IngestDurableTaskEvent (he_tx E) (he_wait E) (fr_ID row) (Request (IngestOpts (fr_ExternalID row) inv event) (he_ids E))
      (logOf (fr_ID row) w) = (result, t').
Proof.
  intros HV Hw. unfold ingestEventOf. destruct (IngestDurableTaskEvent _ _ _ _ _) as [res t'] eqn:Hi. intros [= <- <-].
  split; [|by exists t']. apply worldOk_log; [done|by eapply ingestEvent_grows|].
  by eapply ingestEvent_told; [exact HV|apply Hw..|exact Hi].
Qed.

Lemma findTask_Some E id row : findTask tasks E id = Some row → ∃ ext, tasks !! ext = Some row.
Proof. unfold findTask. destruct id as [ext|]; [|done]. cbn. destruct (he_finds E); [|done]. eauto. Qed.

Lemma memo_worldOk E n task inv key payload w :
  lookbackSatisfies (he_wait E) → worldOk w → worldOk (handleMemo tasks E n task inv key payload w).2.
Proof.
  intros HV Hw. unfold handleMemo. destruct (findTask tasks E task) as [row|] eqn:Hrow; [|done]. apply findTask_Some in Hrow as [ext Hrow].
  destruct (ingestEventOf E row inv (Memo payload key) w) as [result w1] eqn:Hi.
  destruct (ingestEventOf_inv _ _ _ _ _ _ _ HV Hw Hi) as (Hw1 & t' & -> & Hg).
  destruct result as [[[r| |]|err]|]; try done; [|by apply refuse_worldOk]. apply acknowledge_worldOk; [done|]. intros _.
  exists ext, row. split_and!; [done..|]. rewrite logOf_set, decide_True by done.
  by eapply (ingest_memo _ _ _ _ _ key payload); [| |exact Hg]; [|apply (wo_base _ Hw)].
Qed.

Lemma wait_worldOk E n task inv sleeps userEvents w :
  lookbackSatisfies (he_wait E) → worldOk w → worldOk (handleWaitFor tasks E n task inv sleeps userEvents w).2.
Proof.
  intros HV Hw. unfold handleWaitFor. destruct (findTask tasks E task) as [row|] eqn:Hrow; [|done]. apply findTask_Some in Hrow as [ext Hrow].
  destruct (createConditionOpts sleeps userEvents) as [conditions|]; [|done].
  destruct (ingestEventOf E row inv (WaitFor conditions) w) as [result w1] eqn:Hi.
  destruct (ingestEventOf_inv _ _ _ _ _ _ _ HV Hw Hi) as (Hw1 & t' & -> & Hg).
  destruct result as [[[| |r]|err]|]; try done; [|by apply refuse_worldOk]. apply acknowledge_worldOk; [done|].
  pose proof (λ H1, ingest_wait _ _ _ _ _ conditions r t' HV H1 (bo_keys _ (wo_base _ Hw) (fr_ID row)) Hg) as Hwait.
  destruct (Hwait eq_refl) as (e & He & Ht). intros _.
  exists ext, row, e. split_and!; [done..| |done]. by rewrite logOf_set, decide_True.
Qed.

Lemma publish_ok E row pending w ok w1 :
  publish E row pending w = (ok, w1) → (∀ p, p ∈ pending → pendingOk (logOf (fr_ID row) w) p) → worldOk w →
  worldOk w1 ∧ w_logs w1 = w_logs w ∧
  (ok = true → ∀ p, p ∈ pending → ∃ m, m ∈ w_queue w1 ∧ rm_DurableTaskId m = fr_ID row ∧ p ∈ rm_Entries m).
Proof.
  intros Hp Hpend Hw. unfold publish in Hp. destruct pending as [|p0 pending]; [injection Hp as <- <-; split_and!; [done..|by intros _ p ?%elem_of_nil]|].
  destruct (he_publishes E); injection Hp as <- <-; [|by split_and!]. split_and!; [|done|].
  - apply (worldOk_le w); [split; [done|]; intros _ m Hm; left; cbn; set_solver| |done|done]. destruct (wo_base _ Hw) as [Hk Ht Hq].
    split; [exact Hk|exact Ht|]. intros m p [Hm|Hm]%elem_of_app Hin; [by apply Hq|]. apply list_elem_of_singleton in Hm as ->. by apply Hpend.
  - intros _ p Hin. eexists. split; [apply elem_of_app; right; by left|done].
Qed.

Lemma newTriggers_ordinary row reqs opts : mapM (NewTriggerTaskData row) reqs = Some opts → Forall ordinary opts.
Proof.
  intros Hm%mapM_Some_1. apply Forall_forall. intros o [i Ho]%list_elem_of_lookup.
  destruct (Forall2_lookup_r _ _ _ _ _ Hm Ho) as (req & _ & Hreq). unfold NewTriggerTaskData in Hreq.
  repeat case_match; by simplify_eq.
Qed.

Lemma runs_worldOk E n task inv reqs w :
  lookbackSatisfies (he_wait E) → worldOk w → worldOk (handleTriggerRuns tasks E n task inv reqs w).2.
Proof.
  intros HV Hw. unfold handleTriggerRuns. destruct (findTask tasks E task) as [row|] eqn:Hrow; [|done]. apply findTask_Some in Hrow as [ext Hrow].
  destruct (mapM (NewTriggerTaskData row) reqs) as [opts|] eqn:Hopts; [|done].
  destruct (ingestEventOf E row inv (TriggerRuns opts) w) as [result w1] eqn:Hi.
  destruct (ingestEventOf_inv _ _ _ _ _ _ _ HV Hw Hi) as (Hw1 & t' & -> & Hg).
  destruct result as [[[|entries pending|]|err]|]; try done; [|by apply refuse_worldOk].
  pose proof (λ H1, ingest_runs (handed w) _ _ _ _ _ opts entries pending t' H1 (bo_keys _ (wo_base _ Hw) (fr_ID row))
    (bo_told _ (wo_base _ Hw) (fr_ID row)) Hg) as Hruns. destruct (Hruns eq_refl) as [Hpend Hents]. clear Hruns.
  destruct (publish E row pending _) as [ok w2] eqn:Hp.
  destruct (publish_ok _ _ _ _ _ _ Hp) as (Hw2 & Hlogs & Hq); [by rewrite logOf_set, decide_True|done|].
  destruct ok; [|done]. apply acknowledge_worldOk; [done|]. intros _. exists ext, row. split_and!; [done..|].
  intros k run (x & Heq & Hx)%list_elem_of_fmap.
  destruct (Hents x Hx) as (e & He & _ & Ht & Hc). rewrite <- Heq in He, Ht, Hc. cbn [fst snd] in *.
  specialize (Hc (newTriggers_ordinary _ _ _ Hopts)).
  assert (t_entries (logOf (fr_ID row) w2) !! k = Some e) as He2.
  { unfold logOf. rewrite Hlogs. change (t_entries (logOf (fr_ID row) (set_logOf (fr_ID row) t' w)) !! k = Some e).
    by rewrite logOf_set, decide_True. }
  exists e. split_and!; [done..|]. destruct Ht as [?|(p & Hin & Hk & Hid)].
  - left. split; [done|]. by eapply told_handed; [apply Hw2|..].
  - right. destruct (Hq eq_refl p Hin) as (m & Hm & Hmid & Hpm). by exists m, p.
Qed.

Lemma completeMemo_grows reply k payload t : evolves grows t (CompleteMemoEntry reply k payload t).2.
Proof.
  unfold CompleteMemoEntry. destruct (t_entries t !! k) as [e|] eqn:He; [|done]. destruct (e_IsSatisfied e) eqn:Hs; [done|].
  pose proof (memo_grows k "" t (markSatisfied k t)) as H1. pose proof (memo_grows k payload t) as H2.
  unfold completeMemoEntry in H1, H2. rewrite He, Hs in H1, H2. destruct reply; [done|..]; case_bool_decide as Hp;
    first [by apply H1|by apply H2].
Qed.

Lemma completeMemo_told P reply k payload t : logTold P t → logTold P (CompleteMemoEntry reply k payload t).2.
Proof.
  intros Ht. pose proof (mark_told P k t Ht) as Hm. pose proof (result_told P k payload _ Hm) as Hr.
  unfold CompleteMemoEntry. by repeat case_match.
Qed.

Lemma request_worldOk E n req w :
  lookbackSatisfies (he_wait E) → worldOk w → worldOk (handleDurableTaskRequest tasks E n req w).2.
Proof.
  intros HV Hw. destruct req as [worker|task inv key payload|task inv opts|task inv sl ue|task inv|status|ref payload]; cbn.
  - unfold handleRegisterWorker. destruct worker; [|done]. destruct (he_updatesWorker E); [by apply send_worldOk|done].
  - by apply memo_worldOk.
  - by apply runs_worldOk.
  - by apply wait_worldOk.
  - unfold handleEvictInvocation. destruct (_ ≫= _); by apply send_worldOk.
  - destruct (w_sessions w !! n) as [s|] eqn:Hn; [|done]. destruct (wo_sessions _ Hw n s Hn) as [Hs Ha].
    pose proof (status_ok (he_now E) (he_status E) (he_onOperator E) n status (w_routes w) s Hs) as Hs'.
    pose proof (status_more (he_now E) (he_status E) (he_onOperator E) n status (w_routes w) s Hs) as Hm.
    destruct (handleWorkerStatus _ _ _ _ _ _ _) as [[ok routes] s']. cbn in *.
    assert (worldOk (set_sessions (<[n := s']> (w_sessions w)) w)) as Hw' by (apply worldOk_session; [done..|]; by eapply sent_more_ok).
    apply (worldOk_le (set_sessions (<[n := s']> (w_sessions w)) w)); [|by apply (baseOk_same w); [..|apply Hw]|done|done].
    split; [done|]. intros _ m Hin. by left.
  - unfold handleCompleteMemo. destruct ref as [[id k]|]; [|done]. destruct (findTask tasks E id) as [row|]; [|done].
    pose proof (completeMemo_grows (he_memo E) k payload (logOf (fr_ID row) w)) as Hg.
    pose proof (completeMemo_told (handed w) (he_memo E) k payload _ (bo_told _ (wo_base _ Hw) (fr_ID row))) as Ht.
    destruct (CompleteMemoEntry _ _ _ _) as [ok t']. cbn in *. by apply worldOk_log.
Qed.

(** ** Steps of a DAG *)

(** Runs that are handed over stay handed over. *)
Lemma handed_more w w' runs c : w_runs w' = w_runs w ++ runs → handed w c → handed w' c.
Proof. intros Heq [reply Hr]. exists reply. rewrite Heq. apply elem_of_app. by left. Qed.

Lemma handed_new w w' runs c : w_runs w' = w_runs w ++ runs → c ∈ runs.*1 → handed w' c.
Proof. intros Heq ([c' reply] & -> & Hin)%list_elem_of_fmap. exists reply. rewrite Heq. apply elem_of_app. by right. Qed.

Lemma triggerPending_ok G row pending w runs w1 :
  triggerPending G row pending w = Some (runs, w1) → (∀ p, p ∈ pending → pendingOk (logOf (fr_ID row) w) p) → worldOk w →
  worldOk w1 ∧ evolves grows (logOf (fr_ID row) w) (logOf (fr_ID row) w1) ∧
  ∀ p e, p ∈ pending → t_entries (logOf (fr_ID row) w1) !! keyOfPending p = Some e → e_Triggered e = true.
Proof.
  unfold triggerPending. intros Heq Hpend Hw.
  destruct pending as [|p0 pending]; [injection Heq as <- <-; split_and!; [done..|by intros p e ?%elem_of_nil]|].
  destruct (triggerPendingRunEntries _ _ _ _ _) as [[out t]|] eqn:Ht; [|done]. injection Heq as <- <-.
  pose proof (evolves_grows _ _ (trigger_steady _ _ _ _ _ _ _ Ht)) as Hg. set (w1 := set_logOf (fr_ID row) t w).
  change (logOf (fr_ID row) (add_runs (handedOver out) w1)) with (logOf (fr_ID row) w1). unfold w1 at 2 3. rewrite logOf_set, decide_True by done.
  split_and!; [|done|intros p e Hp He; exact (trigger_done _ _ _ _ _ _ _ _ _ Ht Hp He)].
  pose proof (worldLe_log w (fr_ID row) t Hg) as [Hle1 Hle2]. destruct (wo_base _ Hw) as [Hk Htold Hq].
  apply (worldOk_le w); [by split| |done|done]. split.
  - intros id. change (keysOk (logOf id w1)). by apply (Hle1 id).
  - intros id. change (logTold (handed (add_runs (handedOver out) w1)) (logOf id w1)). unfold w1 at 2. rewrite logOf_set. case_decide.
    + eapply (trigger_told (handed w)); [exact Ht|exact Hpend|intros c; by apply (handed_more _ _ (handedOver out))| |apply Htold].
      intros c. by apply (handed_new w).
    + eapply logTold_mono, Htold. intros c. by apply (handed_more _ _ (handedOver out)).
  - intros m p Hm Hp. eapply pendingOk_grows; [apply (Hle1 (rm_DurableTaskId m))|by apply Hq].
Qed.

(** What the orchestrator is told of a step: its entry is triggered, and its child was handed over; or the entry is that
    of a wait, since a step accepts whichever entry is at its node. *)
Definition stepTold (w : world) (r : DAGStepTriggerResult) (e : V1DurableEventLogEntry) : Prop :=
  e_Triggered e = true ∧
  match e_ChildTaskExternalID e with
  | Some c => dr_WorkflowRunExternalId r = c ∧ handed w c
  | None => dr_WorkflowRunExternalId r = e_ExternalID e ∧ waitKeyed (e_IdempotencyKey e)
  end.

Lemma dagStep_ok E G req w :
  lookbackSatisfies (he_wait E) → worldOk w →
  worldOk (TriggerDAGStep tasks E G req w).2 ∧
  ∀ r, (TriggerDAGStep tasks E G req w).1.1 = Some r →
    ∃ row e, tasks !! dq_ParentTaskExternalId req = Some row ∧
      t_entries (logOf (fr_ID row) (TriggerDAGStep tasks E G req w).2) !! (dr_BranchId r, dr_NodeId r) = Some e ∧
      stepTold (TriggerDAGStep tasks E G req w).2 r e.
Proof.
  intros HV Hw. unfold TriggerDAGStep. destruct (findTask tasks E _) as [row|] eqn:Hrow; [|done].
  assert (tasks !! dq_ParentTaskExternalId req = Some row) as Hrow' by (unfold findTask in Hrow; cbn in Hrow; by destruct (he_finds E)).
  destruct (ingestEventOf E row _ _ w) as [result w1] eqn:Hi. destruct (ingestEventOf_inv _ _ _ _ _ _ _ HV Hw Hi) as (Hw1 & t' & -> & Hg).
  destruct result as [[[|entries pending|]|err]|]; try done.
  pose proof (λ H1, ingest_runs (handed w) _ _ _ _ _ [dagTriggerOpts row req] entries pending t' H1 (bo_keys _ (wo_base _ Hw) (fr_ID row))
    (bo_told _ (wo_base _ Hw) (fr_ID row)) Hg) as Hruns. destruct (Hruns eq_refl) as [Hpend Hents]. clear Hruns.
  destruct (triggerPending G row pending _) as [[runs w2]|] eqn:Htp; [|done].
  destruct (triggerPending_ok _ _ _ _ _ _ Htp) as (Hw2 & Hev & Hdone); [by rewrite logOf_set, decide_True|done|].
  destruct (existsb _ _); [done|]. destruct entries as [|x entries]; [done|].
  destruct (Hents x ltac:(by left)) as (e & He & Hrun & Ht & _). rewrite logOf_set, decide_True in Hev by done.
  destruct Hev as [Hev _]. destruct (Hev _ _ He) as (e2 & He2 & Hg2).
  assert (e_Triggered e2 = true) as Ht2.
  { destruct Ht as [Ht|(p & Hp & Hkp & _)]; [by apply Hg2|]. apply (Hdone p); [done|]. by rewrite Hkp. }
  rewrite <- (gw_external _ _ Hg2), <- (gw_child _ _ Hg2) in Hrun.
  destruct (re_ChildNeedsReplay x && negb (de_replays G)); cbn; (split; [done|]); [done|]. intros r [= <-].
  exists row, e2. split_and!; [done|exact He2|]. split; [done|]. cbn [dr_WorkflowRunExternalId] in *.
  pose proof (bo_told _ (wo_base _ Hw2) (fr_ID row) _ _ He2) as Htold. unfold entryTold in Htold.
  cbn [ackEntry snd default] in Hrun. destruct (e_ChildTaskExternalID e2); (split; [by symmetry|]); naive_solver.
Qed.

(** ** The task controller *)

Definition logsOf (logs : gmap Z taskLog) (id : Z) : taskLog := default emptyLog (logs !! id).

(** What triggering the messages of some tasks has done so far. *)
Record triggered (msgs : list DurableRunTriggerMessage) (P : uuid → Prop) (logs logs' : gmap Z taskLog)
    (runs : list (uuid * runReply)) (ids : list Z) : Prop := {
  td_logs : ∀ id, evolves grows (logsOf logs id) (logsOf logs' id);
  td_told : ∀ id, logTold (λ c, P c ∨ c ∈ runs.*1) (logsOf logs' id);
  td_done : ∀ id p e e', id ∈ ids → p ∈ pendingOf id msgs → t_entries (logsOf logs id) !! keyOfPending p = Some e →
    t_entries (logsOf logs' id) !! keyOfPending p = Some e' → e_Triggered e' = true;
}.

Lemma triggerTask_ok reply registers commits msgs P logs logs1 runs ids id logs2 runs2 :
  (∀ id p, p ∈ pendingOf id msgs → pendingOk (logsOf logs id) p) → triggered msgs P logs logs1 runs ids →
  triggerTask reply registers commits msgs (Some (logs1, runs)) id = Some (logs2, runs2) →
  triggered msgs P logs logs2 runs2 (id :: ids).
Proof.
  intros Hpend [Hev Htold Hdone] Htask. unfold triggerTask in Htask. cbn [mbind option_bind] in Htask. fold (logsOf logs1 id) in Htask.
  destruct (triggerPendingRunEntries _ registers commits _ _) as [[out t]|] eqn:Ht; [|done]. injection Htask as <- <-.
  pose proof (evolves_grows _ _ (trigger_steady _ _ _ _ _ _ _ Ht)) as Hg.
  assert (∀ id', logsOf (<[id := t]> logs1) id' = if decide (id' = id) then t else logsOf logs1 id') as Hl.
  { intros id'. unfold logsOf. case_decide; [subst; by rewrite lookup_insert_eq|by rewrite lookup_insert_ne]. }
  split.
  - intros id'. rewrite Hl. case_decide as Hd; [|apply Hev]. rewrite Hd. etrans; [apply Hev|exact Hg].
  - intros id'. rewrite Hl, fmap_app. case_decide; [subst id'|].
    + eapply (trigger_told (λ c, P c ∨ c ∈ runs.*1)); [exact Ht| | | |apply Htold].
      * intros p Hp. by eapply pendingOk_grows, Hpend.
      * intros c [?|?]; [by left|right; apply elem_of_app; by left].
      * intros c Hc. right. apply elem_of_app. by right.
    + eapply logTold_mono, Htold. intros c [?|?]; [by left|right; apply elem_of_app; by left].
  - intros id' p e e' Hin Hp He. rewrite Hl. case_decide as Hd; [subst id'; intros He'; by eapply trigger_done|].
    apply elem_of_cons in Hin as [?|Hin]; [done|]. by apply (Hdone id' p e e').
Qed.

Lemma triggerAll_ok reply registers commits msgs P logs logs1 runs todo ids logs2 runs2 :
  (∀ id p, p ∈ pendingOf id msgs → pendingOk (logsOf logs id) p) → triggered msgs P logs logs1 runs ids →
  foldl (triggerTask reply registers commits msgs) (Some (logs1, runs)) todo = Some (logs2, runs2) →
  triggered msgs P logs logs2 runs2 (reverse todo ++ ids).
Proof.
  intros Hpend. revert logs1 runs ids. induction todo as [|id todo IH]; intros logs1 runs ids Hdone; cbn [foldl]; [by intros [= <- <-]|].
  assert (foldl (triggerTask reply registers commits msgs) None todo = None) as Hnone by (clear; by induction todo).
  destruct (triggerTask reply registers commits msgs (Some (logs1, runs)) id) as [[logs' runs']|] eqn:Htask; [|by rewrite Hnone].
  intros Hf. rewrite reverse_cons, <- app_assoc. eapply IH; [|exact Hf]. by eapply triggerTask_ok.
Qed.

Lemma pendingOf_in msgs m p : m ∈ msgs → p ∈ rm_Entries m → p ∈ pendingOf (rm_DurableTaskId m) msgs.
Proof.
  intros Hm Hp. unfold pendingOf. apply list_elem_of_bind. exists m. split; [done|]. apply list_elem_of_In, filter_In.
  split; [by apply list_elem_of_In|apply Z.eqb_refl].
Qed.

Lemma pendingOf_from msgs id p : p ∈ pendingOf id msgs → ∃ m, m ∈ msgs ∧ rm_DurableTaskId m = id ∧ p ∈ rm_Entries m.
Proof.
  unfold pendingOf. intros (m & Hp & Hm)%list_elem_of_bind. apply list_elem_of_In, filter_In in Hm as [Hm Heq].
  exists m. split_and!; [by apply list_elem_of_In|lia|done].
Qed.

Lemma trigger_worldOk reply registers commits msgs rest redelivered handled logs runs w :
  w_queue w ≡ₚ msgs ++ rest → (reply = ResourceExhausted → exhausts = true) →
  handleProcessDurableRunTrigger reply registers commits msgs (w_logs w) = (handled, logs, runs) → worldOk w →
  worldOk (World logs (w_routes w) (w_sessions w) (if handled && negb redelivered then rest else w_queue w) (w_runs w ++ runs)).
Proof.
  intros Hq Hex Hh Hw. set (w' := World _ _ _ _ _). destruct (wo_base _ Hw) as [Hk Htold Hqueue].
  assert (∀ m, m ∈ w_queue w' → m ∈ w_queue w) as Hsub.
  { intros m. cbn. destruct (handled && _); [|done]. rewrite Hq. intros ?. apply elem_of_app. by right. }
  unfold handleProcessDurableRunTrigger in Hh. destruct (foldl _ _ _) as [[logs' runs']|] eqn:Hf.
  - injection Hh as <- -> ->. assert (triggered msgs (handed w) (w_logs w) logs runs (reverse (remove_dups (rm_DurableTaskId <$> msgs)) ++ [])) as Htr.
    { eapply triggerAll_ok; [| |exact Hf].
      - intros id p (m & Hm & <- & Hp)%pendingOf_from. apply Hqueue; [|done]. rewrite Hq. apply elem_of_app. by left.
      - split; [done| |by intros ? ? ? ? ?%elem_of_nil]. intros id. eapply logTold_mono, Htold. by left. }
    destruct Htr as [Hev Htold' Hdone]. apply (worldOk_le w); [split; [exact Hev|]| |done|done].
    + intros _ m Hm. destruct redelivered; [by left|]. rewrite Hq in Hm. apply elem_of_app in Hm as [Hin|?]; [right|by left].
      intros p e e' Hp. apply (Hdone (rm_DurableTaskId m) p e e'); [|by apply pendingOf_in]. rewrite app_nil_r, elem_of_reverse. apply elem_of_remove_dups.
      by apply list_elem_of_fmap_2.
    + split; [intros id; destruct (Hev id) as [_ Hkeys]; apply Hkeys, Hk|intros id; eapply logTold_mono, Htold'|].
      * intros c [?|?]; [by apply (handed_more w _ runs)|by apply (handed_new w _ runs)].
      * intros m p Hm Hp. eapply pendingOk_grows; [apply (Hev (rm_DurableTaskId m))|]. apply Hqueue; [|done]. by apply Hsub.
  - assert (logs = w_logs w ∧ runs = []) as [-> ->] by (destruct reply; by injection Hh as <- <- <-).
    apply (worldOk_le w); [split; [done|]| |done|done].
    + intros Hfalse m Hm. left. cbn. assert (handled = false) as ->; [|done].
      destruct reply; [by injection Hh as <-|rewrite Hex in Hfalse; done|by injection Hh as <-].
    + split; [exact Hk|intros id; eapply logTold_mono, Htold; intros c; by apply (handed_more w _ [])|].
      intros m p Hm Hp. apply Hqueue; [|done]. by apply Hsub.
Qed.

Lemma step_worldOk w w' : worldStep tasks exhausts w w' → worldOk w → worldOk w'.
Proof.
  intros Hst Hw. destruct Hst as [E n req w HV|E G req w HV|n w Hn|n s w Hn|routes w|now fails e w|id t w Hl|reply rg cm msgs rest rd handled logs runs w Hq Hex Hh].
  - by apply request_worldOk.
  - by apply dagStep_ok.
  - apply worldOk_session; [done| |by intros r ?%elem_of_nil]. split; [by intros k k' [? ?]|done].
  - destruct (wo_sessions _ Hw n s Hn) as [Hs Ha]. apply worldOk_session; [done| |exact Ha]. by destruct Hs.
  - apply (worldOk_le w); [|by apply (baseOk_same w); [..|apply Hw]|done|done]. split; [done|]. intros _ m Hm. by left.
  - apply worldOk_sessions; [done|]. exact (completion_ok _ _ _ _ _ (wo_sessions _ Hw)).
  - pose proof (bo_told _ (wo_base _ Hw) id) as Ht.
    assert (evolves grows (logOf id w) t ∧ logTold (handed w) t) as [? ?]; [|by apply worldOk_log].
    destruct Hl as [ms t|nodeId branchId replay b t t' Hb|t].
    + split; [apply satisfy_grows|by apply satisfy_told].
    + split; [by eapply evolves_grows, fork_steady|by eapply fork_told].
    + split; [apply evolves_grows, increment_steady|by apply increment_told].
  - by eapply trigger_worldOk.
Qed.

Lemma emptyWorld_ok : worldOk emptyWorld.
Proof.
  assert (∀ id k e, t_entries (logOf id emptyWorld) !! k = Some e → False) as Hno.
  { intros id k e. unfold logOf. cbn. rewrite lookup_empty. cbn. by rewrite lookup_empty. }
  split; [split|intros n s; cbn; by rewrite lookup_empty].
  - intros id k e He. by destruct (Hno id k e).
  - intros id k e He. by destruct (Hno id k e).
  - by intros m p ?%elem_of_nil.
Qed.

Lemma reachable_worldOk w : worldReachable tasks exhausts w → worldOk w.
Proof.
  unfold worldReachable. intros Hr. pose proof emptyWorld_ok as H0. revert H0. induction Hr as [|w1 w2 w3 Hst _ IH]; [done|].
  intros H1. apply IH. by eapply step_worldOk.
Qed.
End exhausts.

(** C5: what a worker is told comes true: however requests, completions, forks, invocations and messages interleave, and
    whichever statements, sends and messages fail, as long as no tenant runs out of resources, every run that was
    acknowledged is in the log under the id that was told, and a transaction that committed handed it to
    triggerFromWorkflowNames, which created it or dropped it, or a message to trigger it is on its way; and a wait that
    was acknowledged is registered.  SHA-256 is taken to be free of collisions. *)
Theorem acked_comes_true (w : world) (n : nat) (s : durableTaskInvocation) :
  worldReachable tasks false w → w_sessions w !! n = Some s → ∀ r, r ∈ s_sent s → ackOk w r.
Proof. intros Hw Hn r Hr. by apply (wo_sessions _ _ (reachable_worldOk false w Hw) n s Hn). Qed.

(** C30: a step of a DAG that the orchestrator is told of was triggered: whatever happened before, also when tenants run out
    of resources, and whatever fails on the way, when a trigger of a step succeeds its entry is in the log under the
    node it names and is triggered, and the run it names is the child of the entry and was handed to
    triggerFromWorkflowNames, which created it or dropped it; unless the entry at the node is that of a wait, which a
    step accepts.  SHA-256 is taken to be free of collisions. *)
Theorem dag_step_triggered (exhausts : bool) (w : world) (E : handlerEnv) (G : dagEnv) (req : DAGStepTriggerRequest)
    (r : DAGStepTriggerResult) :
  worldReachable tasks exhausts w → lookbackSatisfies (he_wait E) → (TriggerDAGStep tasks E G req w).1.1 = Some r →
  ∃ row e, tasks !! dq_ParentTaskExternalId req = Some row ∧
    t_entries (logOf (fr_ID row) (TriggerDAGStep tasks E G req w).2) !! (dr_BranchId r, dr_NodeId r) = Some e ∧
    stepTold (TriggerDAGStep tasks E G req w).2 r e.
Proof. intros Hw HV. by apply (dagStep_ok exhausts E G req w HV (reachable_worldOk exhausts w Hw)). Qed.
End world.

(** ** Examples *)

#[local] Existing Instance exampleParams.

Definition exampleTasks : gmap uuid FlattenExternalIdsRow := {[7 := TaskRow 1 7 7 None false]}.
Definition exampleEnvOf (firstId : Z) : handlerEnv :=
  HandlerEnv 10 true exampleTx (exampleIds firstId) (WaitEnv true true (λ _, NothingFound)) Stores true (λ _, false) true (λ _, None)
    (StatusEnv (λ _, None) (λ _, None) (λ _, None) (λ _, false)) false.
Definition exampleEnv : handlerEnv := exampleEnvOf 100.

(** A worker's stream opens, and its task is invoked and sends a child off. *)
Definition exampleInvoked : world :=
  set_logOf 1 (incrementInvocationCount emptyLog) (set_sessions {[1%nat := Session false ∅ []]} emptyWorld).
Definition exampleRunRequest : DurableTaskRequest := TriggerRunsRequest (Some 7) 1 [TriggerRequest "child" "{}" None None (Some 0) None].
Definition exampleAcked : world := (handleDurableTaskRequest exampleTasks exampleEnv 1 exampleRunRequest exampleInvoked).2.

Lemma exampleAcked_reachable exhausts : worldReachable exampleTasks exhausts exampleAcked.
Proof.
  eapply rtc_l; [by apply (ws_open _ _ 1 emptyWorld)|].
  eapply rtc_l; [apply (ws_log _ _ 1 (incrementInvocationCount emptyLog)), (ls_invoke emptyLog)|].
  eapply rtc_l; [apply (ws_request _ _ exampleEnv 1 exampleRunRequest); intros t p o t' [=]|]. apply rtc_refl.
Qed.

Lemma acked_comes_true_witness :
  ∃ s, w_sessions exampleAcked !! 1%nat = Some s ∧ s_sent s = [TriggerRunsAck 7 1 [((1, 1), 100)]] ∧
    ackOk exampleTasks exampleAcked (TriggerRunsAck 7 1 [((1, 1), 100)]).
Proof.
  eexists. split; [vm_compute; reflexivity|]. split; [vm_compute; reflexivity|].
  eapply (acked_comes_true exampleTasks exampleAcked 1); [apply exampleAcked_reachable|vm_compute; reflexivity|by left].
Defined.

(** ** A tenant without resources *)

(** C39: a trigger message that finds no resources is done with: the worker was told of a run that was not triggered, and
    nothing is on its way to trigger it. *)
Theorem exhausted_run_never_triggered :
  ∃ w s e, worldReachable exampleTasks true w ∧ w_sessions w !! 1%nat = Some s ∧ TriggerRunsAck 7 1 [((1, 1), 100)] ∈ s_sent s ∧
    w_queue w = [] ∧ t_entries (logOf 1 w) !! (1, 1) = Some e ∧ e_Triggered e = false ∧ e_IsSatisfied e = false.
Proof.
  set (dropped := World (w_logs exampleAcked) (w_routes exampleAcked) (w_sessions exampleAcked) [] (w_runs exampleAcked ++ [])).
  eexists dropped, _, _. split_and!.
  - eapply rtc_r; [apply exampleAcked_reachable|].
    eapply (ws_trigger _ _ ResourceExhausted true true (w_queue exampleAcked) [] false true (w_logs exampleAcked) []).
    + by rewrite app_nil_r.
    + done.
    + vm_compute. reflexivity.
  - vm_compute. reflexivity.
  - vm_compute. by left.
  - done.
  - vm_compute. reflexivity.
  - done.
  - done.
Qed.

(** ** A run that is not created *)


(** ** A memo without its payload *)

(** When the payload of a memo cannot be stored, the memo is satisfied all the same, and no later attempt stores it. *)
Theorem memo_payload_lost (k : entryKey) (payload : string) (t : taskLog) (e : V1DurableEventLogEntry) :
  t_entries t !! k = Some e → e_IsSatisfied e = false → payload ≠ ""%string →
  let t1 := (CompleteMemoEntry StoreFails k payload t).2 in
  (CompleteMemoEntry StoreFails k payload t).1 = false ∧
  (∀ reply payload', CompleteMemoEntry reply k payload' t1 = (true, t1)) ∧
  ∃ e1, t_entries t1 !! k = Some e1 ∧ e_IsSatisfied e1 = true ∧ e_Result e1 = e_Result e.
Proof.
  intros He Hs Hp. assert (CompleteMemoEntry StoreFails k payload t = (false, markSatisfied k t)) as Heq.
  { unfold CompleteMemoEntry. rewrite He, Hs. by rewrite bool_decide_false. }
  rewrite Heq. cbn [fst snd]. assert (∃ e1, t_entries (markSatisfied k t) !! k = Some e1 ∧ e_IsSatisfied e1 = true ∧ e_Result e1 = e_Result e) as (e1 & He1 & Hs1 & Hr1).
  { cbn. rewrite lookup_alter_eq, He. cbn. by eexists. }
  cbv zeta. split_and!; [done| |by eauto]. intros reply payload'. unfold CompleteMemoEntry. by rewrite He1, Hs1.
Qed.

Lemma memo_payload_lost_witness :
  let t := (ingest exampleTx 1 (exampleRequest 1 100 (Memo "" "k")) exampleStart).2 in
  let t1 := (CompleteMemoEntry StoreFails (1, 1) "result" t).2 in
  (CompleteMemoEntry StoreFails (1, 1) "result" t).1 = false ∧ CompleteMemoEntry Stores (1, 1) "result" t1 = (true, t1).
Proof.
  intros t t1. pose (e := default (Entry 0 None false None RUN 0 0 "" false None false "") (t_entries t !! (1, 1))).
  destruct (memo_payload_lost (1, 1) "result" t e) as (H1 & H2 & _); [vm_compute; reflexivity|vm_compute; reflexivity|discriminate|].
  split; [exact H1|exact (H2 Stores "result"%string)].
Defined.

(** ** A replay that is not asked for again *)

(** A step of a DAG is triggered and its child completes, and then the DAG is replayed with the step. *)
Definition exampleStep (invocation : Z) : DAGStepTriggerRequest := DAGStepRequest 7 invocation "dag" "dag:a" 0 "{}" false false false.
Definition exampleDag (replays : bool) : dagEnv := DagEnv (Triggers (λ _, RunCreated)) true true replays.
Definition exampleStepped : world := (TriggerDAGStep exampleTasks exampleEnv (exampleDag true) (exampleStep 1) exampleInvoked).2.
Definition completed (w : world) : world := set_logOf 1 (satisfyEntries [SatisfiedMatch (Satisfied (1, 1) false "") "out"] (logOf 1 w)).2 w.
Definition forked (w : world) : world :=
  match handleBranch 0 1 (Some [100]) (logOf 1 w) with Some (_, t) => set_logOf 1 t w | None => w end.
Definition invokedAgain (w : world) : world := set_logOf 1 (incrementInvocationCount (logOf 1 w)) w.
Definition exampleReplayed : world := invokedAgain (forked (completed exampleStepped)).

Definition replayStep (replays : bool) (invocation : Z) (w : world) :=
  TriggerDAGStep exampleTasks (exampleEnvOf (100 * invocation)) (exampleDag replays) (exampleStep invocation) w.
Definition failedReplay : world := (replayStep false 2 exampleReplayed).2.
Definition exampleRetried : world := invokedAgain failedReplay.

Lemma forked_steps exhausts w : rtc (worldStep exampleTasks exhausts) w (forked w).
Proof.
  unfold forked. destruct (handleBranch _ _ _ _) as [[b t]|] eqn:Hb; [|done]. by eapply rtc_once, ws_log, ls_fork.
Qed.

Lemma completed_steps exhausts w : rtc (worldStep exampleTasks exhausts) w (completed w).
Proof. apply rtc_once, ws_log, ls_satisfy. Qed.

Lemma invoked_steps exhausts w : rtc (worldStep exampleTasks exhausts) w (invokedAgain w).
Proof. apply rtc_once, ws_log, ls_invoke. Qed.

Lemma dagStep_steps exhausts firstId replays invocation w :
  rtc (worldStep exampleTasks exhausts) w (TriggerDAGStep exampleTasks (exampleEnvOf firstId) (exampleDag replays) (exampleStep invocation) w).2.
Proof. apply rtc_once, ws_dagStep. by intros t p o t' [=]. Qed.

Lemma exampleRetried_reachable : worldReachable exampleTasks false exampleRetried.
Proof.
  eapply rtc_l; [by apply (ws_open _ _ 1 emptyWorld)|].
  eapply rtc_l; [apply (ws_log _ _ 1 (incrementInvocationCount emptyLog)), (ls_invoke emptyLog)|].
  etrans; [apply (dagStep_steps false 100 true 1 exampleInvoked)|].
  etrans; [apply (completed_steps false exampleStepped)|]. etrans; [apply (forked_steps false (completed exampleStepped))|].
  etrans; [apply (invoked_steps false (forked (completed exampleStepped)))|].
  etrans; [apply (dagStep_steps false 200 false 2 exampleReplayed)|]. apply (invoked_steps false failedReplay).
Qed.

Lemma dag_step_triggered_witness :
  ∃ r row e, (replayStep true 3 exampleRetried).1.1 = Some r ∧ exampleTasks !! 7 = Some row ∧
    t_entries (logOf (fr_ID row) (replayStep true 3 exampleRetried).2) !! (dr_BranchId r, dr_NodeId r) = Some e ∧
    e_ChildTaskExternalID e = Some 100 ∧ stepTold (replayStep true 3 exampleRetried).2 r e.
Proof.
  pose (r := DAGStepResult 1 2 100 false "" false None true). exists r.
  assert ((replayStep true 3 exampleRetried).1.1 = Some r) as Hr by (vm_compute; reflexivity).
  destruct (dag_step_triggered exampleTasks false exampleRetried (exampleEnvOf 300) (exampleDag true) (exampleStep 3) r
    exampleRetried_reachable ltac:(by intros t p o t' [=]) Hr) as (row & e & Hrow & He & Ht).
  assert (row = TaskRow 1 7 7 None false) as -> by (vm_compute in Hrow; by injection Hrow as <-).
  exists (TaskRow 1 7 7 None false), e. split; [exact Hr|]. split; [exact Hrow|]. split; [exact He|]. split; [|exact Ht].
  vm_compute in He. by injection He as <-.
Defined.

(** The first trigger of a replayed step asks to replay its child.  When that message cannot be sent the trigger fails, but
    its entry stays in the log: the retry finds it, succeeds with the entry still open, and asks for no replay. *)
Theorem lost_replay_never_resent :
  worldReachable exampleTasks false exampleRetried ∧
  (replayStep true 2 exampleReplayed).1.2 = [ReplayChild 100] ∧
  (replayStep false 2 exampleReplayed).1 = (None, []) ∧
  ∃ r, (replayStep true 3 exampleRetried).1 = (Some r, []) ∧ dr_WorkflowRunExternalId r = 100 ∧ dr_IsSatisfied r = false.
Proof.
  split; [apply exampleRetried_reachable|]. split; [vm_compute; reflexivity|]. split; [vm_compute; reflexivity|].
  eexists. split; [vm_compute; reflexivity|]. done.
Qed.

End HandlerTheorems.
